(* ===== verification/_CoqProject ===== *)
-Q . S2P
Prelude.v
Bvv.v
BoolResult.v
Warren.v
StridedInterval.v
SiOrder.v
SiJoin.v
SiArith.v
SiBits.v
Pcode.v
Claripy.v
CCall.v
CCallFlags.v
CCallFacts.v
CCallX86.v
CCallArm.v
CCallArmFacts.v
Clemory.v
ClemoryFacts.v
ClemoryViews.v
Emulate.v
EmulateStorage.v
EmulateFacts.v
EmulateOps.v
EmulateExits.v
Simplify.v
SimplifySem.v
SimplifyBytes.v
SimplifyFlat.v
SimplifyRules.v
SimplifyCompare.v
SimplifyParts.v
SimplifyReverse.v
SimplifyFacts.v
SimplifyIdioms.v
SimplifyXor.v
Bitfields.v
RelocCode.v
RelocClasses.v
Relocation.v
RelocFields.v
RelocPairs.v
RelocFrame.v
RelocFacts.v
Ail.v
AilFacts.v
PeepArith.v
PeepBool.v
PeepConv.v
PeepWalk.v
PeepShift.v
PeepEager.v
PeepParts.v
PeepStack.v
PeepBswap.v
