(* ===== verification/Prelude.v ===== *)
(** * A verification library for the angr/vibr tree

    angr lifts machine code, interprets it over bit-vector expressions and
    decides what may happen next.  This development models the parts of the
    tree that give values their meaning and blocks their effect, and proves
    that they compute what their contracts say.  Every definition is executable
    and follows the Python function of the same name; a function that can raise
    returns a [result], whose exceptions are listed below; a method that mutates
    returns the new object beside its outcome; shared objects live in an
    explicit heap where sharing matters.

    ** Parts, files and sources

    - The concrete backend of claripy, [backend_concrete/bv.py]: [Bvv], vectors
      as a value and a width, with the decorators and every operation.
    - Three-valued truth, [backend_vsa/bool_result.py]: [BoolResult].
    - The VSA domain of strided intervals, [backend_vsa/strided_interval.py] and
      [warren_methods.py]: [Warren] (bounds of bitwise operations),
      [StridedInterval] (representation, splits at the poles, comparisons,
      [eval]), [SiOrder] (what the comparisons and enumerations mean), [SiJoin]
      (diophantine solver, joins, meets, widening), [SiArith] (arithmetic),
      [SiBits] (bitwise operations, shifts, casts, byte order).  A comparison
      answers a [BoolResult]; every operation is sound when the members of its
      result include the concrete results on members.
    - p-code, [engines/pcode/behavior.py] and [emulate.py]: [Pcode] (the
      behaviours, against a class [BvOps] of operators that [Bvv] implements),
      [Emulate] (the emulator as a state and error monad over a heap of states
      with aliasing, and [SimSuccessors.add_successor]), [EmulateStorage] (the
      laws of the register file and the memory, and byte maps that satisfy
      them), [EmulateFacts], [EmulateOps] and [EmulateExits] (what operations
      and blocks do).
    - claripy expressions on concrete arguments, [ast/bv.py], [ast/bool.py],
      [operations.py]: [Claripy], the operators with their coercions, answered
      by [Bvv].
    - Expressions with symbols, [claripy/simplifications.py], [Base.__new__],
      [If] and the concrete backend: [Simplify] (trees, every simplifier of
      vectors and conditions, the construction of nodes), [SimplifySem] (sorts,
      values under a valuation), [SimplifyFlat] (the monoids behind operations
      with many arguments), [SimplifyRules], [SimplifyCompare] and
      [SimplifyParts] (one soundness lemma for each simplifier, against the
      class [SoundBuild] of sound constructions), [SimplifyBytes] and
      [SimplifyReverse] (the bytes of a vector, and the simplifier of reversal),
      [SimplifyFacts] (the knot tied), [SimplifyIdioms] and [SimplifyXor]
      (reversal, exclusive or and shifts with the code's own construction of
      nodes, and inputs on which a simplifier changes the value).  The theorem on
      [build] leaves out left shifts, exclusive or, complement and reversals of
      concatenations, where a simplifier can change the value.
    - VEX condition codes, [engines/vex/claripy/ccall.py]: [CCall] (x86 and
      amd64, over [Claripy]), [CCallFlags] (the flags the instruction reference
      prescribes, and that each action computes them), [CCallFacts] (flags word,
      conditions, comparisons, shortcuts), [CCallX86] (rotation through the
      carry), [CCallArm] and [CCallArmFacts] (ARM and AArch64).
    - The memory of cle, [cle/memory.py]: [Clemory] (trees of backers over
      shared buffers, streams, words, views and adapters), [ClemoryFacts] and
      [ClemoryViews].
    - The relocations of cle, [backends/relocation.py], [symbol.py],
      [elf/relocation/], [pe/relocation/]: [RelocCode] (the words and fields the
      classes compute), [RelocClasses] (the classes, their bases, the tables),
      [Relocation] (objects, symbols and relocations as cells of a world over one
      store of [Clemory], the methods in a state monad with exceptions, dispatched
      along the method resolution order), [Bitfields] (a decision procedure for
      masked and shifted words), [RelocFields] and [RelocPairs] (what the rewritten
      instructions do), [RelocFrame] (a logic for methods: what a relocation may
      change; [span_of] is what the code writes, [field_of] the field the class is
      documented with, [overruns] the classes that write beyond it),
      [RelocFacts] (words, symbols, forwarders).
    - The decompiler's intermediate language, [angr/ailment/expression.py] over the
      classes of [native/angr/src/ailment]: [Ail] (expressions over integers, their
      widths and construction, negation, the comparison [likes], their value in an
      environment, types, and what it means that a rule is sound or miscompiles)
      and [AilFacts] (congruence of refinement, and the tactics of the rules).
    - The peephole rules of [analyses/decompiler/peephole_optimizations/], a
      function from an expression to an optional expression each: [PeepArith]
      (products, quotients, base pointers), [PeepBool] (conditions), [PeepConv]
      (conversions between widths), [PeepShift] (shifts, single bits, signed
      division, rotations), [PeepEager] (evaluation of constants and like terms),
      [PeepParts] (masks, insertions, concatenations), [PeepStack] (sums around
      stack addresses), [PeepBswap] (byte swaps); and [PeepWalk], the walkers of
      [analyses/decompiler/utils.py] that apply rules to blocks over the rewriter
      of [ailment/block_walker.py].
    - This file: outcomes, integers, and the lists and tactics they share.

    ** What the theorems show

    - Closure and invariants: operations on well-formed vectors, intervals and
      memories give well-formed ones; a block that runs to its end has an exit
      and files every successor once.
    - Soundness of the abstract domain: joins, sums, differences, negations,
      connectives, quotients and definite comparisons of intervals contain the
      concrete results.  Where the code is not sound the exact condition is part
      of the statement and a lemma beside the theorem gives the counterexample.
    - Refinement of a reference: p-code operations against [p_code_spec], the
      emulator's operations against the numbers varnodes denote, condition codes
      against [x86_flags] and the ARM references, memory loads and stores
      against a finite map of bytes, Warren's bounds against attained extremes.
    - Linking: relocations stay in their documented fields, but for the listed
      classes that write more than their field, leave the word their formula
      gives, and make instructions reach the address of the symbol; symbols are
      resolved to the first strong definition.
    - Equivalence: an expression and its simplification have the same value for
      all values of the symbols; operations without symbols are folded.
    - Decompilation: a peephole rule [sound] on all typed expressions, or
      [sound_on] those a condition describes, keeps width and value wherever the
      expression has one; where a rule changes the value, a lemma [miscompiles]
      exhibits an expression with constants in range.  A pass of sound rules over
      a block ends and refines every expression; the walkers end for every list of
      rules that make expressions smaller.
    - Round trips: words packed and unpacked, flags saved and restored,
      rotations through the carry, varnodes written and read, concatenation and
      extraction.
    - Errors: which addresses raise in the memory, which opcodes have no
      execution, that a block cannot be resumed in its middle.

    ** Fuel and bounds

    Loops that the code runs on a mask or a width recur on that width.
    [_ntz] has the logarithm of its argument plus one as fuel, the extended
    euclidean algorithm twice the logarithm plus three; recursion that Python
    bounds (the byte reversal of nested intervals) has Python's limit of a
    thousand.  Simplifiers build operations that are simplified in turn:
    [build n] allows [n] of these inside each other, and the theorems hold for
    every [n].  [eval] runs at most as many rounds as values are asked for; a
    binary search as many as the list is long, plus one; the search for a
    pattern the length plus two.  The loop over forwarders runs two rounds more than
    there are symbols; its answer tells a cycle ([GaveUp]) from fuel that is
    used up ([OutOfFuel]), which is proved not to happen.  The walkers over
    expressions run as many rounds as the expression's measure [cost], a weighted
    number of its nodes (and at most sixteen over its parts, as the code does);
    the flattening of sums and disjunctions has a round for every operator and
    operand.  The theorems about these functions prove that the fuel
    suffices.  Loops over the operations of a block are structural.

    ** Not modelled, and why

    - Annotations of expressions, the simplifiers of floating point and strings,
      and the solvers.  The coercions and operators of [Claripy] are those of
      expressions without symbols.
    - Intervals whose operands are value sets or discrete interval sets, and
      joins of such sets.
    - Floating point, strings, breakpoints, logging, caches and pickling.
    - Of expressions of the decompiler: the indices and tags, whose only part is
      the equality of nodes (a parameter where a rule asks for it), floats, and
      kinds that no modelled rule looks into.  Amounts of shifts are not negative.
    - Peephole rules that look at the project, at types or at several statements
      (constant dereferences, loads relative to the program counter or the MIPS
      global pointer, C++ and compare-and-swap idioms, inlined string copies,
      references), that rewrite the targets of jumps, and the one that guesses the
      divisor of an optimised division by rounding a float.
    - The emulator runs on concrete values: of a successor only the reachable and
      the unsatisfiable are told apart; unconstrained successors and symbolic
      targets need the solver.
    - SLEIGH, libVEX and Z3 are native libraries: the varnodes and operations
      of a block are parameters of the emulator.  The register file and the
      memory of a state are an interface; the storage mixins that implement it
      in angr are not modelled.
    - The loader behind the lookups of relocations (symbols by name, objects by
      name, new extern symbols) is a class [Linker].  Loaders of binary formats, analyses, the rest of the
      decompiler, procedures, type definitions and the exploration managers. *)

From Stdlib Require Import ZArith Lia Bool Znumtheory.
From stdpp Require Import base tactics list numbers.
#[global] Open Scope Z_scope.

(** ** Outcomes of Python code

    A Python function either returns a value or raises.  [exn] lists the
    exceptions the modelled code raises (with the argument where the code
    passes one), and [NotImplemented], the value the binary-operator methods
    return when they decline an operand; [MissingKey] is the [KeyError] of a key
    that is not an integer. *)

Inductive exn :=
  | ValueError
  | TypeError
  | KeyError (k : Z)
  | IndexError
  | AttributeError
  | AssertionError
  | ZeroDivisionError
  | NotImplementedError
  | StructError
  | StopIteration
  | RecursionError
  | OverflowError
  | AngrError
  | ClaripyOperationError
  | ClaripyTypeError
  | ClaripyZeroDivisionError
  | ClaripyVSAError
  | SimCCallError
  | SimError
  | UnboundLocalError
  | MissingKey
  | CLEError
  | CLEOperationError
  | CLEInvalidBinaryError
  | NotImplemented.

#[export] Instance exn_eq_dec : EqDecision exn.
Proof. solve_decision. Defined.

Inductive result (A : Type) :=
  | Ok (a : A)
  | Err (e : exn).
Arguments Ok {A} a.
Arguments Err {A} e.

#[export] Instance result_ret : MRet result := @Ok.
#[export] Instance result_bind : MBind result :=
  λ A B f m, match m with Ok a => f a | Err e => Err e end.
#[export] Instance result_fmap : FMap result :=
  λ A B f m, match m with Ok a => Ok (f a) | Err e => Err e end.

Definition is_ok {A} (m : result A) : bool :=
  match m with Ok _ => true | Err _ => false end.

(** [guard_exn b e] is the Python [if not b: raise e]. *)
Definition guard_exn (b : bool) (e : exn) : result unit :=
  if b then Ok tt else Err e.

Lemma bind_Ok_inv {A B} (m : result A) (f : A → result B) b :
  (m ≫= f) = Ok b → ∃ a, m = Ok a ∧ f a = Ok b.
Proof. destruct m as [a|e]; simpl; [eauto|discriminate]. Qed.

Lemma bind_Ok {A B} (a : A) (f : A → result B) : (Ok a ≫= f) = f a.
Proof. reflexivity. Qed.

Lemma bind_Err {A B} e (f : A → result B) : ((Err e : result A) ≫= f) = Err e.
Proof. reflexivity. Qed.

(** [inv_ok H] opens a hypothesis [m ≫= f = Ok b], one bind at a time. *)
Ltac inv_ok H :=
  let a := fresh "r" in let Ha := fresh "Hr" in
  apply bind_Ok_inv in H as (a & Ha & H).

(** Left folds and maps over a list whose step can raise. *)
Fixpoint foldM {A B} (f : A → B → result A) (a : A) (l : list B) : result A :=
  match l with
  | [] => Ok a
  | x :: l => f a x ≫= λ a', foldM f a' l
  end.

Lemma foldM_app {A B} (f : A → B → result A) a l1 l2 :
  foldM f a (l1 ++ l2) = foldM f a l1 ≫= λ a', foldM f a' l2.
Proof. revert a. induction l1 as [|x l1 IH]; intros a; cbn; [done|]. destruct (f a x); cbn; auto. Qed.

(** [foldM] keeps an invariant that every step keeps. *)
Lemma foldM_inv {A B} (P : A → Prop) (Q : B → Prop) (f : A → B → result A) a l :
  (∀ a x, P a → Q x → ∃ a', f a x = Ok a' ∧ P a') →
  P a → Forall Q l → ∃ a', foldM f a l = Ok a' ∧ P a'.
Proof.
  intros Hf. revert a. induction l as [|x l IH]; intros a Ha Hl; cbn; [by exists a|].
  inversion Hl as [|? ? Hx Hl']; subst; clear Hl; rename Hl' into Hl. destruct (Hf a x Ha Hx) as (a' & -> & Ha'). cbn. by apply IH.
Qed.

(** [mapM] of a step that succeeds on every element. *)
Lemma mapM_ok {A B} (f : A → result B) (P : A → B → Prop) l :
  (∀ x, x ∈ l → ∃ r, f x = Ok r ∧ P x r) → ∃ rs, mapM f l = Ok rs ∧ Forall2 P l rs.
Proof.
  induction l as [|x l IH]; intros H; [exists []; split; [done|constructor]|].
  destruct (H x) as (r & E & Hr); [constructor|].
  destruct IH as (rs & Es & Hrs); [intros y Hy; apply H; by constructor|].
  exists (r :: rs). cbn. rewrite E. cbn. rewrite Es. split; [done|by constructor].
Qed.

Lemma mapM_fmap_ok {A B C} (f : A → result B) (h : C → A) (g : C → B) l :
  (∀ x, x ∈ l → f (h x) = Ok (g x)) → mapM f (h <$> l) = Ok (g <$> l).
Proof.
  induction l as [|x l IH]; intros H; [done|]. cbn. rewrite H by constructor. cbn.
  rewrite IH by (intros y Hy; apply H; by constructor). done.
Qed.

(** A filter that keeps everything, or nothing. *)
Lemma filter_all {A} (P : A → Prop) `{∀ x, Decision (P x)} l : Forall P l → filter P l = l.
Proof. induction 1 as [|x l Hx _ IH]; [done|]. rewrite list.filter_cons, decide_True by done. by rewrite IH. Qed.

Lemma filter_none {A} (P : A → Prop) `{∀ x, Decision (P x)} l : Forall (λ x, ¬ P x) l → filter P l = [].
Proof. induction 1 as [|x l Hx _ IH]; [done|]. by rewrite list.filter_cons, decide_False by done. Qed.

(** [sorted(l, key=key)] for an integer key: a stable insertion sort. *)
Fixpoint py_insert {A} (key : A → Z) (x : A) (l : list A) : list A :=
  match l with
  | [] => [x]
  | y :: l' => if key x <=? key y then x :: l else y :: py_insert key x l'
  end.

Fixpoint py_sorted {A} (key : A → Z) (l : list A) : list A :=
  match l with
  | [] => []
  | x :: l => py_insert key x (py_sorted key l)
  end.

Lemma py_insert_Permutation {A} (key : A → Z) x l : py_insert key x l ≡ₚ x :: l.
Proof.
  induction l as [|y l IH]; cbn; [done|]. destruct (key x <=? key y); [done|].
  transitivity (y :: x :: l); [by constructor|constructor].
Qed.

Lemma py_sorted_Permutation {A} (key : A → Z) l : py_sorted key l ≡ₚ l.
Proof. induction l as [|x l IH]; cbn; [done|]. by rewrite py_insert_Permutation, IH. Qed.

(** ** Python integers

    Python's [//] and [%] are the floor division and the modulo with the
    divisor's sign: Rocq's [Z.div] and [Z.modulo]; both raise on a zero
    divisor.  A shift by a negative amount raises [ValueError]. *)

Definition py_mod (a b : Z) : result Z :=
  if decide (b = 0) then Err ZeroDivisionError else Ok (a mod b).

Definition py_floordiv (a b : Z) : result Z :=
  if decide (b = 0) then Err ZeroDivisionError else Ok (a / b).

Definition py_shl (a n : Z) : result Z :=
  if n <? 0 then Err ValueError else Ok (Z.shiftl a n).

Definition py_shr (a n : Z) : result Z :=
  if n <? 0 then Err ValueError else Ok (Z.shiftr a n).

Lemma py_mod_nz a b : b ≠ 0 → py_mod a b = Ok (a mod b).
Proof. intros ?. unfold py_mod. by rewrite decide_False. Qed.

Lemma py_floordiv_nz a b : b ≠ 0 → py_floordiv a b = Ok (a / b).
Proof. intros ?. unfold py_floordiv. by rewrite decide_False. Qed.

Lemma py_shl_nonneg a n : 0 ≤ n → py_shl a n = Ok (Z.shiftl a n).
Proof. intros. unfold py_shl. destruct (Z.ltb_spec n 0); [lia|done]. Qed.

Lemma py_shr_nonneg a n : 0 ≤ n → py_shr a n = Ok (Z.shiftr a n).
Proof. intros. unfold py_shr. destruct (Z.ltb_spec n 0); [lia|done]. Qed.

(** [py_range lo hi] is [range(lo, hi)]. *)
Definition py_range (lo hi : Z) : list Z := seqZ lo (hi - lo).

(** [py_range_step lo hi step] is [range(lo, hi, step)] for a positive step. *)
Definition py_range_step (lo hi step : Z) : list Z :=
  (λ k, lo + step * k) <$> seqZ 0 ((hi - lo + step - 1) / step).

(** ** Masks and powers of two *)

Lemma pow2_pos w : 0 ≤ w → 0 < 2 ^ w.
Proof. intros. apply Z.pow_pos_nonneg; lia. Qed.

Lemma pow2_double w : 1 ≤ w → 2 ^ w = 2 * 2 ^ (w - 1).
Proof. intros. rewrite <-Z.pow_succ_r by lia. f_equal. lia. Qed.

Lemma shiftl_1 w : 0 ≤ w → Z.shiftl 1 w = 2 ^ w.
Proof. intros. rewrite Z.shiftl_mul_pow2 by done. lia. Qed.

Lemma ones_pow2 w : 2 ^ w - 1 = Z.ones w.
Proof. rewrite Z.ones_equiv. lia. Qed.

(** The mask idiom [x & (2**w - 1)] of the sources is reduction mod [2^w]. *)
Lemma land_mask x w : 0 ≤ w → Z.land x (2 ^ w - 1) = x mod 2 ^ w.
Proof. intros. by rewrite ones_pow2, Z.land_ones. Qed.

Lemma mod_pow2_bound x w : 0 ≤ w → 0 ≤ x mod 2 ^ w < 2 ^ w.
Proof. intros. apply Z.mod_pos_bound, pow2_pos; done. Qed.

Lemma testbit_high x w i : 0 ≤ x < 2 ^ w → 0 ≤ w ≤ i → Z.testbit x i = false.
Proof.
  intros Hx Hi. rewrite <-(Z.mod_small x (2 ^ w)) by done.
  apply Z.mod_pow2_bits_high. lia.
Qed.

Lemma bits_bound x w :
  0 ≤ w → 0 ≤ x → (∀ i, w ≤ i → Z.testbit x i = false) → x < 2 ^ w.
Proof.
  intros Hw Hx H. apply Z.nle_gt. intros Hle.
  assert (0 < x) by (pose proof (pow2_pos w Hw); lia).
  assert (w ≤ Z.log2 x) by (apply Z.log2_le_pow2; lia).
  specialize (H (Z.log2 x)). rewrite Z.bit_log2 in H by done.
  by specialize (H ltac:(done)).
Qed.

Lemma testbit_mod_pow2 x w i :
  0 ≤ w → Z.testbit (x mod 2 ^ w) i = (i <? w) && Z.testbit x i.
Proof.
  intros. destruct (Z.ltb_spec i w).
  - by rewrite Z.mod_pow2_bits_low.
  - by rewrite Z.mod_pow2_bits_high by lia.
Qed.

(** Bit extensionality for two numbers below [2^w]. *)
Lemma bits_inj_below x y w :
  0 ≤ x < 2 ^ w → 0 ≤ y < 2 ^ w → 0 ≤ w →
  (∀ i, 0 ≤ i < w → Z.testbit x i = Z.testbit y i) → x = y.
Proof.
  intros Hx Hy Hw H. apply Z.bits_inj'. intros i Hi.
  destruct (Z.lt_ge_cases i w).
  - apply H. lia.
  - by rewrite !(testbit_high _ w) by lia.
Qed.

Lemma lor_bound x y w : 0 ≤ w → 0 ≤ x < 2 ^ w → 0 ≤ y < 2 ^ w → 0 ≤ Z.lor x y < 2 ^ w.
Proof.
  intros Hw Hx Hy. split; [apply Z.lor_nonneg; lia|].
  apply bits_bound; [done|apply Z.lor_nonneg; lia|].
  intros i Hi. by rewrite Z.lor_spec, !(testbit_high _ w) by lia.
Qed.

Lemma land_bound x y w : 0 ≤ w → 0 ≤ x < 2 ^ w → 0 ≤ y < 2 ^ w → 0 ≤ Z.land x y < 2 ^ w.
Proof.
  intros Hw Hx Hy. split; [apply Z.land_nonneg; lia|].
  apply bits_bound; [done|apply Z.land_nonneg; lia|].
  intros i Hi. by rewrite Z.land_spec, !(testbit_high _ w) by lia.
Qed.

Lemma lxor_bound x y w : 0 ≤ w → 0 ≤ x < 2 ^ w → 0 ≤ y < 2 ^ w → 0 ≤ Z.lxor x y < 2 ^ w.
Proof.
  intros Hw Hx Hy. split; [apply Z.lxor_nonneg; lia|].
  apply bits_bound; [done|apply Z.lxor_nonneg; lia|].
  intros i Hi. by rewrite Z.lxor_spec, !(testbit_high _ w) by lia.
Qed.

(** A disjoint [or] of a shifted high part and a low part is a sum. *)
Lemma lor_shiftl_add h l w :
  0 ≤ w → 0 ≤ l < 2 ^ w → Z.lor (Z.shiftl h w) l = h * 2 ^ w + l.
Proof.
  intros Hw Hl. rewrite <-Z.shiftl_mul_pow2 by done. symmetry.
  rewrite Z.add_nocarry_lxor, Z.lxor_lor; try done.
  all: apply Z.bits_inj'; intros i Hi; rewrite Z.land_spec, Z.bits_0, Z.shiftl_spec by done.
  all: destruct (Z.lt_ge_cases i w).
  all: try (rewrite Z.testbit_neg_r by lia; done).
  all: rewrite (testbit_high l w) by lia; apply andb_false_r.
Qed.

(** The complement of a [w]-bit number. *)
Lemma lnot_full w x : 0 ≤ w → 0 ≤ x < 2 ^ w → 2 ^ w - 1 - x = Z.lxor x (Z.ones w).
Proof.
  intros Hw Hx. rewrite ones_pow2. rewrite Z.sub_nocarry_ldiff.
  - apply Z.bits_inj'. intros i Hi. rewrite Z.ldiff_spec, Z.lxor_spec.
    destruct (Z.lt_ge_cases i w).
    + rewrite Z.ones_spec_low by lia. by destruct (Z.testbit x i).
    + rewrite Z.ones_spec_high, (testbit_high x w) by lia. done.
  - apply Z.bits_inj'. intros i Hi. rewrite Z.ldiff_spec, Z.bits_0.
    destruct (Z.lt_ge_cases i w).
    + rewrite Z.ones_spec_low by lia. apply andb_false_r.
    + by rewrite (testbit_high x w) by lia.
Qed.


(** Divisibility is decided by the remainder. *)
Lemma divide_mod a b : (a | b) ↔ b mod a = 0.
Proof.
  destruct (decide (a = 0)) as [->|].
  - rewrite Z.mod_0_r. split; [apply Z.divide_0_l|intros ->; apply Z.divide_0_r].
  - symmetry. by apply Z.mod_divide.
Qed.

#[export] Instance divide_dec a b : Decision (a | b).
Proof.
  destruct (decide (b mod a = 0)); [left|right]; by rewrite divide_mod.
Defined.

(** ** Abstract domains

    The interface between an abstract domain and the concrete backend it
    over-approximates: [gamma a c] says that the abstract value [a] stands for
    (among others) the concrete value [c].  The theorems on a domain's
    operations are stated with [approximates]: both sides return, and the
    abstract result stands for the concrete one. *)

Class AbstractDomain (A C : Type) := gamma : A → C → Prop.

Definition approximates `{AbstractDomain A C} (a : result A) (c : result C) : Prop :=
  ∃ r z, a = Ok r ∧ c = Ok z ∧ gamma r z.

(** An abstract operation is sound when it approximates the concrete one on
    every pair of concrete operands. *)
Definition sound_binary `{AbstractDomain A C, AbstractDomain A' C'}
    (f : A → A → result A') (g : C → C → result C') (compatible : C → C → Prop) : Prop :=
  ∀ a b x y, gamma a x → gamma b y → compatible x y → approximates (f a b) (g x y).

Definition sound_unary `{AbstractDomain A C, AbstractDomain A' C'}
    (f : A → result A') (g : C → result C') : Prop :=
  ∀ a x, gamma a x → approximates (f a) (g x).

Lemma approximates_intro `{AbstractDomain A C} (a : result A) (c : result C) r z :
  a = Ok r → c = Ok z → gamma r z → approximates a c.
Proof. intros. by exists r, z. Qed.

(** ** Shared automation *)

Create HintDb zmask.
#[export] Hint Resolve pow2_pos mod_pow2_bound lor_bound land_bound lxor_bound : zmask.

Create Rewrite HintDb zbits.
#[export] Hint Rewrite Z.lor_spec Z.land_spec Z.lxor_spec Z.bits_0 : zbits.
#[export] Hint Rewrite Z.shiftl_spec Z.shiftr_spec testbit_mod_pow2 Z.lnot_spec using lia : zbits.

(** Every boolean comparison of integers in the context or the goal becomes a
    case split with the arithmetic fact. *)
Ltac zcases :=
  repeat match goal with
    | |- context [?a <? ?b] => destruct (Z.ltb_spec a b)
    | |- context [?a <=? ?b] => destruct (Z.leb_spec a b)
    | |- context [?a =? ?b] => destruct (Z.eqb_spec a b)
    | H : context [?a <? ?b] |- _ => destruct (Z.ltb_spec a b)
    | H : context [?a <=? ?b] |- _ => destruct (Z.leb_spec a b)
    | H : context [?a =? ?b] |- _ => destruct (Z.eqb_spec a b)
    end; simpl in *.
