(* ===== verification/Bvv.v ===== *)
(** * Concrete bitvectors: [claripy/backends/backend_concrete/bv.py]

    The value class [BVV] of claripy's concrete backend, its operators and the
    module-level operations the backend dispatches to.  A Python operand is a
    bitvector, a plain integer (coerced to the other operand's width by
    [normalize_types]) or some foreign object (declined).  The [None] value a
    [BVV] may hold as a placeholder is not modelled, and [claripy.debug._DEBUG]
    is off, as it is by default. *)

From Stdlib Require Import ZArith Lia Bool.
From stdpp Require Import base tactics list numbers.
From S2P Require Import Prelude.

Module BVV.

(** ** Data *)

Record BVV := mkBVV { value : Z; bits : Z }.

#[export] Instance BVV_eq_dec : EqDecision BVV.
Proof. solve_decision. Defined.

Inductive operand :=
  | Bv (b : BVV)
  | Num (n : Z)
  | Foreign.

(** [self.mod = 1 << bits], used by the setters. *)
Definition mod_ (b : BVV) : Z := 2 ^ bits b.

(** [BVV(value, bits)]: a negative width makes the shift raise. *)
Definition new (v n : Z) : result BVV :=
  m ← py_shl 1 n;
  Ok (mkBVV (Z.land v (m - 1)) n).

(** The [signed] getter: a zero-width vector divides by zero. *)
Definition signed (b : BVV) : result Z :=
  if value b <? mod_ b / 2 then Ok (value b)
  else r ← py_mod (value b) (mod_ b / 2); Ok (r - mod_ b / 2).

(** The [signed] setter, [self._value = v % -self.mod]. *)
Definition set_signed (b : BVV) (v : Z) : BVV := mkBVV (v mod - mod_ b) (bits b).

(** The [value] setter. *)
Definition set_value (b : BVV) (v : Z) : BVV := mkBVV (Z.land v (mod_ b - 1)) (bits b).

(** ** The decorators *)

Definition compare_bits {A} (f : BVV → BVV → result A) (self o : BVV) : result A :=
  if (bits self =? 0) || (bits o =? 0) then Err ClaripyTypeError
  else if negb (bits self =? bits o) then Err ClaripyTypeError
  else f self o.

Definition compare_bits_0_length {A} (f : BVV → BVV → result A) (self o : BVV) : result A :=
  if negb (bits self =? bits o) then Err ClaripyTypeError else f self o.

(** An integer [self] has no attribute [bits], so coercing it raises. *)
Definition normalize_types {A} (f : BVV → BVV → result A) (self o : operand) : result A :=
  match self, o with
  | Bv a, Num n => b ← new n (bits a); f a b
  | Bv a, Bv b => f a b
  | Num _, _ => Err AttributeError
  | Foreign, Num _ => Err AttributeError
  | _, _ => Err NotImplemented
  end.

(** ** Arithmetic methods *)

Definition __add__ (self : BVV) : operand → result BVV :=
  normalize_types (compare_bits (λ self o, new (value self + value o) (bits self))) (Bv self).

Definition __sub__ (self : BVV) : operand → result BVV :=
  normalize_types (compare_bits (λ self o, new (value self - value o) (bits self))) (Bv self).

Definition __mul__ (self : BVV) : operand → result BVV :=
  normalize_types (compare_bits (λ self o, new (value self * value o) (bits self))) (Bv self).

Definition __mod__ (self : BVV) : operand → result BVV :=
  normalize_types (compare_bits (λ self o,
    if value o =? 0 then Err ClaripyZeroDivisionError
    else new (value self mod value o) (bits self))) (Bv self).

Definition __floordiv__ (self : BVV) : operand → result BVV :=
  normalize_types (compare_bits (λ self o,
    if value o =? 0 then Err ClaripyZeroDivisionError
    else new (value self / value o) (bits self))) (Bv self).

Definition __truediv__ (self : BVV) (other : operand) : result BVV := __floordiv__ self other.

Definition __radd__ (self : BVV) : operand → result BVV :=
  normalize_types (compare_bits (λ self o, new (value self + value o) (bits self))) (Bv self).

Definition __rsub__ (self : BVV) : operand → result BVV :=
  normalize_types (compare_bits (λ self o, new (value o - value self) (bits self))) (Bv self).

Definition __rmul__ (self : BVV) : operand → result BVV :=
  normalize_types (compare_bits (λ self o, new (value self * value o) (bits self))) (Bv self).

Definition __rmod__ (self : BVV) : operand → result BVV :=
  normalize_types (compare_bits (λ self o,
    if value self =? 0 then Err ClaripyZeroDivisionError
    else new (value o mod value self) (bits self))) (Bv self).

Definition __rfloordiv__ (self : BVV) : operand → result BVV :=
  normalize_types (compare_bits (λ self o,
    if value self =? 0 then Err ClaripyZeroDivisionError
    else new (value o / value self) (bits self))) (Bv self).

Definition __rtruediv__ (self : BVV) (o : operand) : result BVV := __rfloordiv__ self o.

(** ** Bit operations *)

Definition __and__ (self : BVV) : operand → result BVV :=
  normalize_types (compare_bits (λ self o, new (Z.land (value self) (value o)) (bits self))) (Bv self).

Definition __or__ (self : BVV) : operand → result BVV :=
  normalize_types (compare_bits (λ self o, new (Z.lor (value self) (value o)) (bits self))) (Bv self).

Definition __xor__ (self : BVV) : operand → result BVV :=
  normalize_types (compare_bits (λ self o, new (Z.lxor (value self) (value o)) (bits self))) (Bv self).

Definition __lshift__ (self : BVV) : operand → result BVV :=
  normalize_types (compare_bits (λ self o,
    v ← py_shl (value self) (value o); new v (bits self))) (Bv self).

(** Arithmetic shift: on the signed value. *)
Definition __rshift__ (self : BVV) : operand → result BVV :=
  normalize_types (compare_bits (λ self o,
    s ← signed self; v ← py_shr s (value o); new v (bits self))) (Bv self).

Definition __invert__ (self : BVV) : result BVV := new (Z.lxor (value self) (mod_ self - 1)) (bits self).

Definition __neg__ (self : BVV) : result BVV := new ((- value self) mod mod_ self) (bits self).

Definition __rand__ (self : BVV) : operand → result BVV :=
  normalize_types (compare_bits (λ self o, new (Z.land (value self) (value o)) (bits self))) (Bv self).

Definition __ror__ (self : BVV) : operand → result BVV :=
  normalize_types (compare_bits (λ self o, new (Z.lor (value self) (value o)) (bits self))) (Bv self).

Definition __rxor__ (self : BVV) : operand → result BVV :=
  normalize_types (compare_bits (λ self o, new (Z.lxor (value self) (value o)) (bits self))) (Bv self).

Definition __rlshift__ (self : BVV) : operand → result BVV :=
  normalize_types (compare_bits (λ self o,
    s ← signed self; v ← py_shl (value o) s; new v (bits self))) (Bv self).

Definition __rrshift__ (self : BVV) : operand → result BVV :=
  normalize_types (compare_bits (λ self o,
    so ← signed o; ss ← signed self; v ← py_shr so ss; new v (bits self))) (Bv self).

(** ** Comparison methods *)

Definition __eq__ (self : BVV) : operand → result bool :=
  normalize_types (compare_bits_0_length (λ self o, Ok (value self =? value o))) (Bv self).

Definition __ne__ (self : BVV) : operand → result bool :=
  normalize_types (compare_bits_0_length (λ self o, Ok (negb (value self =? value o)))) (Bv self).

Definition size (self : BVV) : Z := bits self.

(** ** Module-level operations *)

Definition BitVecVal (v n : Z) : result BVV := new v n.

Definition ZeroExt (num : Z) (o : BVV) : result BVV := new (value o) (bits o + num).

Definition SignExt (num : Z) (o : BVV) : result BVV :=
  s ← signed o; new s (bits o + num).

(** The mask of [Extract] is one bit wider than the result; the constructor
    cuts the extra bit off. *)
Definition Extract (f t : Z) (o : BVV) : result BVV :=
  v ← py_shr (value o) t;
  m ← py_shl 1 (f + 2 - t);
  new (Z.land v (m - 1)) (f + 1 - t).

Fixpoint concat_loop (args : list BVV) (total_bits total_value : Z) : result (Z * Z) :=
  match args with
  | [] => Ok (total_bits, total_value)
  | o :: rest =>
      sh ← py_shl total_value (bits o);
      concat_loop rest (total_bits + bits o) (Z.lor sh (value o))
  end.

Definition Concat (args : list BVV) : result BVV :=
  '(total_bits, total_value) ← concat_loop args 0 0;
  new total_value total_bits.

Definition LShR : operand → operand → result BVV :=
  normalize_types (compare_bits (λ a b, v ← py_shr (value a) (value b); new v (bits a))).

Definition ULT : operand → operand → result bool :=
  normalize_types (compare_bits (λ self o, Ok (value self <? value o))).
Definition UGT : operand → operand → result bool :=
  normalize_types (compare_bits (λ self o, Ok (value o <? value self))).
Definition ULE : operand → operand → result bool :=
  normalize_types (compare_bits (λ self o, Ok (value self <=? value o))).
Definition UGE : operand → operand → result bool :=
  normalize_types (compare_bits (λ self o, Ok (value o <=? value self))).

Definition SLT : operand → operand → result bool :=
  normalize_types (compare_bits (λ self o, a ← signed self; b ← signed o; Ok (a <? b))).
Definition SGT : operand → operand → result bool :=
  normalize_types (compare_bits (λ self o, a ← signed self; b ← signed o; Ok (b <? a))).
Definition SLE : operand → operand → result bool :=
  normalize_types (compare_bits (λ self o, a ← signed self; b ← signed o; Ok (a <=? b))).
Definition SGE : operand → operand → result bool :=
  normalize_types (compare_bits (λ self o, a ← signed self; b ← signed o; Ok (b <=? a))).

(** [SMod] and [SDiv] compute C's truncated division from Python's floor
    division. *)
Definition trunc_div (a b : Z) : Z :=
  if 0 <? a * b then a / b else (a + (- a) mod b) / b.

Definition SMod : operand → operand → result BVV :=
  normalize_types (compare_bits (λ self o,
    a ← signed self; b ← signed o;
    if b =? 0 then Err ClaripyZeroDivisionError
    else let division_result := trunc_div a b in
         new (a - division_result * b) (bits self))).

Definition SDiv : operand → operand → result BVV :=
  normalize_types (compare_bits (λ self o,
    a ← signed self; b ← signed o;
    if b =? 0 then Err ClaripyZeroDivisionError
    else new (trunc_div a b) (bits self))).

(** [bits % self.size()] for the rotation amount: an integer or a vector. *)
Definition rot_amount (n : operand) (size : Z) : result operand :=
  match n with
  | Num k => r ← py_mod k size; Ok (Num r)
  | Bv b => r ← __mod__ b (Num size); Ok (Bv r)
  | Foreign => Err TypeError
  end.

(** [self.size() - bits_smaller]. *)
Definition rot_rest (size : Z) (n : operand) : result operand :=
  match n with
  | Num k => Ok (Num (size - k))
  | Bv b => r ← __rsub__ b (Num size); Ok (Bv r)
  | Foreign => Err TypeError
  end.

Definition RotateRight (self : BVV) (n : operand) : result BVV :=
  bits_smaller ← rot_amount n (size self);
  a ← LShR (Bv self) bits_smaller;
  r ← rot_rest (size self) bits_smaller;
  b ← __lshift__ self r;
  __or__ a (Bv b).

Definition RotateLeft (self : BVV) (n : operand) : result BVV :=
  bits_smaller ← rot_amount n (size self);
  a ← __lshift__ self bits_smaller;
  r ← rot_rest (size self) bits_smaller;
  b ← LShR (Bv self) r;
  __or__ a (Bv b).

Definition _reverse_16 (v : Z) : Z :=
  Z.lor (Z.shiftl (Z.land v 0xFF) 8) (Z.shiftr (Z.land v 0xFF00) 8).

Definition _reverse_32 (v : Z) : Z :=
  Z.lor (Z.lor (Z.lor (Z.shiftl (Z.land v 0xFF) 24) (Z.shiftl (Z.land v 0xFF00) 8))
    (Z.shiftr (Z.land v 0xFF0000) 8)) (Z.shiftr (Z.land v 0xFF000000) 24).

Definition _reverse_64 (v : Z) : Z :=
  Z.lor (Z.lor (Z.lor (Z.lor (Z.lor (Z.lor (Z.lor
    (Z.shiftl (Z.land v 0xFF) 56)
    (Z.shiftl (Z.land v 0xFF00) 40))
    (Z.shiftl (Z.land v 0xFF0000) 24))
    (Z.shiftl (Z.land v 0xFF000000) 8))
    (Z.shiftr (Z.land v 0xFF00000000) 8))
    (Z.shiftr (Z.land v 0xFF0000000000) 24))
    (Z.shiftr (Z.land v 0xFF000000000000) 40))
    (Z.shiftr (Z.land v 0xFF00000000000000) 56).

(** The general loop of [Reverse], over byte offsets. *)
Definition reverse_term (value size i : Z) : Z :=
  Z.shiftl (Z.shiftr (Z.land value (Z.shiftl 0xFF i)) i) (size - 8 - i).

Definition reverse_loop (value size : Z) : Z :=
  foldl (λ out i, Z.lor out (reverse_term value size i)) 0 (py_range_step 0 size 8).

Definition Reverse (a : BVV) : result BVV :=
  let size := size a in
  if size =? 8 then Ok a
  else if negb (size mod 8 =? 0) then Err ClaripyOperationError
  else
    let value := value a in
    let out :=
      if size =? 64 then _reverse_64 value
      else if size =? 32 then _reverse_32 value
      else if size =? 16 then _reverse_16 value
      else reverse_loop value size in
    new out size.

Definition BoolV (b : bool) : bool := b.
Definition And (args : list bool) : bool := forallb id args.
Definition Or (args : list bool) : bool := existsb id args.
Definition Not (b : bool) : bool := negb b.

Definition normalizer : operand → operand → result (BVV * BVV) :=
  normalize_types (λ a b, Ok (a, b)).

Definition If (c : bool) (t f : operand) : result BVV :=
  '(t, f) ← normalizer t f;
  Ok (if c then t else f).

(** ** Well-formed vectors *)

Record wf (b : BVV) : Prop := {
  wf_bits : 0 ≤ bits b;
  wf_value : 0 ≤ value b < 2 ^ bits b }.

(** The mathematical signed reading of a [w]-bit value. *)
Definition to_signed (w v : Z) : Z := if v <? 2 ^ (w - 1) then v else v - 2 ^ w.

(** The binary operations that [BackendConcrete] dispatches to methods or
    functions whose result has the operands' width. *)
Definition width_preserving : list (BVV → BVV → result BVV) :=
  [ (λ a b, __add__ a (Bv b)); (λ a b, __sub__ a (Bv b)); (λ a b, __mul__ a (Bv b));
    (λ a b, __mod__ a (Bv b)); (λ a b, __floordiv__ a (Bv b));
    (λ a b, __and__ a (Bv b)); (λ a b, __or__ a (Bv b)); (λ a b, __xor__ a (Bv b));
    (λ a b, __lshift__ a (Bv b)); (λ a b, __rshift__ a (Bv b));
    (λ a b, LShR (Bv a) (Bv b)); (λ a b, SDiv (Bv a) (Bv b)); (λ a b, SMod (Bv a) (Bv b));
    (λ a b, RotateLeft a (Bv b)); (λ a b, RotateRight a (Bv b)) ].

(** ** Constructor, signed reading and decorators *)

Lemma new_spec v n : 0 ≤ n → new v n = Ok (mkBVV (v mod 2 ^ n) n).
Proof. intros. unfold new. rewrite py_shl_nonneg by done. cbn. by rewrite shiftl_1, land_mask. Qed.

Lemma new_neg v n : n < 0 → new v n = Err ValueError.
Proof. intros. unfold new, py_shl. by destruct (Z.ltb_spec n 0); [|lia]. Qed.

Lemma new_wf v n r : new v n = Ok r → wf r ∧ bits r = n.
Proof.
  intros H. destruct (Z.lt_ge_cases n 0); [by rewrite new_neg in H|].
  rewrite new_spec in H by done. simplify_eq. repeat split; simpl; try lia; apply mod_pow2_bound; lia.
Qed.

Lemma new_id b : wf b → new (value b) (bits b) = Ok b.
Proof.
  intros [? ?]. rewrite new_spec by done. rewrite Z.mod_small by done. by destruct b.
Qed.

Lemma half_mod b : 1 ≤ bits b → mod_ b / 2 = 2 ^ (bits b - 1).
Proof. intros. unfold mod_. rewrite pow2_double by done. rewrite Z.mul_comm, Z.div_mul; lia. Qed.

Lemma signed_spec b : wf b → 1 ≤ bits b → signed b = Ok (to_signed (bits b) (value b)).
Proof.
  intros [_ Hv] Hb. unfold signed, to_signed. rewrite half_mod by done.
  pose proof (pow2_pos (bits b - 1)). pose proof (pow2_double (bits b) Hb).
  destruct (Z.ltb_spec (value b) (2 ^ (bits b - 1))); [done|].
  rewrite py_mod_nz by lia. cbn. f_equal.
  rewrite (Z.mod_eq (value b)) by lia.
  replace (value b / 2 ^ (bits b - 1)) with 1; [lia|].
  apply Z.div_unique with (value b - 2 ^ (bits b - 1)); lia.
Qed.

Lemma to_signed_range w v : 1 ≤ w → 0 ≤ v < 2 ^ w → - 2 ^ (w - 1) ≤ to_signed w v < 2 ^ (w - 1).
Proof. intros Hw Hv. pose proof (pow2_double w Hw). unfold to_signed. zcases; lia. Qed.

Lemma to_signed_mod w v : 1 ≤ w → 0 ≤ v < 2 ^ w → to_signed w v mod 2 ^ w = v.
Proof.
  intros Hw Hv. pose proof (pow2_double w Hw). unfold to_signed. zcases.
  - apply Z.mod_small. lia.
  - rewrite <-(Z_mod_plus_full _ 1). rewrite Z.mod_small; lia.
Qed.

Lemma to_signed_testbit w v i :
  1 ≤ w → 0 ≤ v < 2 ^ w → 0 ≤ i →
  Z.testbit (to_signed w v) i = Z.testbit v (Z.min i (w - 1)).
Proof.
  intros Hw Hv Hi. pose proof (pow2_double w Hw).
  destruct (Z.lt_ge_cases i w).
  - rewrite Z.min_l by lia. rewrite <-(to_signed_mod w v) at 2 by lia.
    by rewrite Z.mod_pow2_bits_low.
  - rewrite Z.min_r by lia. unfold to_signed. zcases.
    + rewrite !(testbit_high v (w - 1)) by lia. done.
    + replace (Z.testbit v (w - 1)) with true.
      * replace (v - 2 ^ w) with (Z.lnot (2 ^ w - 1 - v)) by (unfold Z.lnot; lia).
        rewrite Z.lnot_spec by done. rewrite (testbit_high _ w) by lia. done.
      * symmetry. apply Z.testbit_true; [lia|].
        replace (v / 2 ^ (w - 1)) with 1; [done|].
        apply Z.div_unique with (v - 2 ^ (w - 1)); lia.
Qed.

Lemma compare_bits_eq {A} (f : BVV → BVV → result A) a b :
  1 ≤ bits a → bits a = bits b → compare_bits f a b = f a b.
Proof.
  intros Ha Hb. unfold compare_bits. rewrite <-Hb.
  destruct (Z.eqb_spec (bits a) 0); [lia|]. by rewrite Z.eqb_refl.
Qed.

Lemma compare_bits_inv {A} (f : BVV → BVV → result A) a b r :
  compare_bits f a b = Ok r → bits a ≠ 0 ∧ bits a = bits b ∧ f a b = Ok r.
Proof.
  unfold compare_bits. destruct (Z.eqb_spec (bits a) 0); [done|].
  destruct (Z.eqb_spec (bits b) 0); [done|]. simpl.
  destruct (Z.eqb_spec (bits a) (bits b)); done.
Qed.

(** [bvv_simpl] evaluates an operation applied to vectors of one width. *)
Ltac bvv_simpl :=
  cbn [normalize_types];
  repeat first
    [ rewrite compare_bits_eq by (simpl; lia)
    | rewrite new_spec by (simpl; lia)
    | rewrite signed_spec by (assumption || (simpl; lia))
    | rewrite py_shl_nonneg by (simpl; lia)
    | rewrite py_shr_nonneg by (simpl; lia)
    | progress cbn [mbind result_bind bits value] ].

(** ** Width preservation *)

(** [new_inv H] turns a successful computation ending in [new] into the width
    and well-formedness of its result. *)
Lemma normalize_compare_inv {A} (f : BVV → BVV → result A) a b r :
  normalize_types (compare_bits f) (Bv a) (Bv b) = Ok r → bits a = bits b ∧ f a b = Ok r.
Proof. cbn. intros H%compare_bits_inv. tauto. Qed.

Lemma normalize_compare_inv_l {A} (f : BVV → BVV → result A) a o r :
  normalize_types (compare_bits f) (Bv a) o = Ok r → ∃ b, f a b = Ok r.
Proof.
  destruct o as [b|n|]; cbn; [| |done].
  - intros H%compare_bits_inv. exists b. tauto.
  - intros H. inv_ok H. apply compare_bits_inv in H. eexists. apply H.
Qed.

Ltac new_width H :=
  first
    [ apply new_wf in H; exact H
    | match type of H with context [if ?c then _ else _] => destruct c end;
      [discriminate H|new_width H]
    | inv_ok H; new_width H ].

Lemma width_LShR a o r : LShR (Bv a) o = Ok r → wf r ∧ bits r = bits a.
Proof. intros [b H]%normalize_compare_inv_l. new_width H. Qed.

Lemma width_lshift a o r : __lshift__ a o = Ok r → wf r ∧ bits r = bits a.
Proof. intros [b H]%normalize_compare_inv_l. new_width H. Qed.

Lemma width_or a o r : __or__ a o = Ok r → wf r ∧ bits r = bits a.
Proof. intros [b H]%normalize_compare_inv_l. new_width H. Qed.

Lemma width_RotateLeft a o r : RotateLeft a o = Ok r → wf r ∧ bits r = bits a.
Proof.
  unfold RotateLeft. intros H. do 4 inv_ok H.
  apply width_or in H as [? ->]. split; [done|]. by eapply width_lshift.
Qed.

Lemma width_RotateRight a o r : RotateRight a o = Ok r → wf r ∧ bits r = bits a.
Proof.
  unfold RotateRight. intros H. do 4 inv_ok H.
  apply width_or in H as [? ->]. split; [done|]. by eapply width_LShR.
Qed.

(** ** Truncated division *)

Lemma trunc_div_quot a b : b ≠ 0 → trunc_div a b = Z.quot a b.
Proof.
  intros Hb. unfold trunc_div.
  destruct (Z.ltb_spec 0 (a * b)) as [Hab|Hab].
  - destruct (Z.lt_ge_cases 0 b).
    + rewrite Z.quot_div_nonneg by nia. done.
    + rewrite <-(Z.quot_opp_opp a b), Z.quot_div_nonneg, Z.div_opp_opp by nia. done.
  - pose proof (Z.div_mod (- a) b Hb) as Hd.
    replace (a + (- a) mod b) with ((- (- a / b)) * b) by lia.
    rewrite Z.div_mul by done.
    destruct (Z.lt_ge_cases 0 b).
    + rewrite <-Z.quot_div_nonneg, Z.quot_opp_l by nia. lia.
    + replace (- a / b) with (a / - b) by (rewrite <-(Z.div_opp_opp (- a) b) by lia; f_equal; lia).
      rewrite <-Z.quot_div_nonneg, Z.quot_opp_r by nia. lia.
Qed.

(** ** Extraction and concatenation *)

Lemma Extract_spec f t o :
  0 ≤ t → t ≤ f + 1 →
  Extract f t o = Ok (mkBVV ((value o / 2 ^ t) mod 2 ^ (f + 1 - t)) (f + 1 - t)).
Proof.
  intros Ht Hf. unfold Extract.
  rewrite (py_shr_nonneg _ t), (py_shl_nonneg 1) by lia. cbn.
  rewrite new_spec, shiftl_1, land_mask, Z.shiftr_div_pow2 by lia. do 2 f_equal.
  apply bits_inj_below with (f + 1 - t); [apply mod_pow2_bound; lia..|lia|].
  intros i Hi. rewrite !testbit_mod_pow2 by lia. zcases; done || lia.
Qed.

Lemma Extract_wf f t o : 0 ≤ t → t ≤ f + 1 → ∃ r, Extract f t o = Ok r ∧ wf r ∧ bits r = f + 1 - t.
Proof.
  intros. rewrite Extract_spec by done. eexists. split; [done|].
  repeat split; simpl; try lia; apply mod_pow2_bound; lia.
Qed.

Lemma concat_loop_spec args tb tv :
  Forall wf args → 0 ≤ tb → 0 ≤ tv →
  ∃ w v, concat_loop args tb tv = Ok (tb + w, tv * 2 ^ w + v) ∧
    w = foldr Z.add 0 (bits <$> args) ∧ 0 ≤ v < 2 ^ w ∧ 0 ≤ w.
Proof.
  intros Hargs. revert tb tv. induction Hargs as [|o args [Hb Hv] _ IH]; intros tb tv Htb Htv.
  - exists 0, 0. cbn. repeat split; try done; try lia. do 2 f_equal; lia.
  - cbn [concat_loop]. rewrite py_shl_nonneg by done. cbn.
    rewrite lor_shiftl_add by done.
    destruct (IH (tb + bits o) (tv * 2 ^ bits o + value o)) as (w & v & -> & Hw & Hv' & Hw0); [nia..|].
    exists (bits o + w), (value o * 2 ^ w + v).
    rewrite Z.pow_add_r by done.
    split; [do 2 f_equal; nia|]. split; [by rewrite Hw|]. nia.
Qed.

Lemma Concat2_spec a b :
  wf a → wf b →
  Concat [a; b] = Ok (mkBVV (value a * 2 ^ bits b + value b) (bits a + bits b)).
Proof.
  intros [Ha Hva] [Hb Hvb]. unfold Concat. cbn [concat_loop].
  rewrite py_shl_nonneg by done. cbn [mbind result_bind].
  rewrite Z.shiftl_0_l, Z.lor_0_l, py_shl_nonneg by done. cbn [mbind result_bind].
  rewrite lor_shiftl_add by done.
  rewrite new_spec by lia. do 2 f_equal. apply Z.mod_small.
  change (0 + bits a + bits b) with (bits a + bits b). rewrite Z.pow_add_r by done. nia.
Qed.

(** ** Byte reversal *)

(** A term of the loop, bit by bit: it moves the byte at offset [i] to offset
    [size - 8 - i]. *)
Lemma reverse_term_testbit v size i j :
  0 ≤ i → i + 8 ≤ size → 0 ≤ j →
  Z.testbit (reverse_term v size i) j =
    (size - 8 - i <=? j) && (j <? size - i) && Z.testbit v (j - (size - 8 - i) + i).
Proof.
  intros Hi Hs Hj. unfold reverse_term. rewrite Z.shiftl_spec by done.
  destruct (Z.leb_spec (size - 8 - i) j); simpl.
  - rewrite Z.shiftr_spec, Z.land_spec, Z.shiftl_spec by lia.
    replace (j - (size - 8 - i) + i - i) with (j - (size - 8 - i)) by lia.
    change 255 with (Z.ones 8).
    rewrite Z.testbit_ones by lia. zcases; try lia; by rewrite ?andb_false_r, ?andb_true_r.
  - by rewrite Z.testbit_neg_r by lia.
Qed.

(** A byte moved down, resp. up, by a net amount: the two shapes the unrolled
    16-, 32- and 64-bit reversals use. *)
Lemma reverse_term_down v size i :
  0 ≤ i → size - 8 - i ≤ i → i + 8 ≤ size →
  reverse_term v size i = Z.shiftr (Z.land v (Z.shiftl 0xFF i)) (i - (size - 8 - i)).
Proof.
  intros Hi Hk Hs. apply Z.bits_inj'. intros j Hj.
  rewrite reverse_term_testbit, Z.shiftr_spec, Z.land_spec, Z.shiftl_spec by lia.
  replace (j - (size - 8 - i) + i) with (j + (i - (size - 8 - i))) by lia.
  change 255 with (Z.ones 8).
  destruct (Z.leb_spec (size - 8 - i) j); simpl.
  - rewrite Z.testbit_ones by lia. zcases; try lia; by rewrite ?andb_false_r, ?andb_true_r.
  - rewrite (Z.testbit_neg_r (Z.ones 8)) by lia. by rewrite andb_false_r.
Qed.

Lemma reverse_term_up v size i :
  0 ≤ i → i ≤ size - 8 - i →
  reverse_term v size i = Z.shiftl (Z.land v (Z.shiftl 0xFF i)) (size - 8 - i - i).
Proof.
  intros Hi Hk. apply Z.bits_inj'. intros j Hj.
  rewrite reverse_term_testbit, (Z.shiftl_spec _ _ _ Hj), Z.land_spec by lia.
  destruct (Z.lt_ge_cases j (size - 8 - i - i)).
  - rewrite (Z.testbit_neg_r v (j - (size - 8 - i - i))) by lia. zcases; try lia; done.
  - replace (j - (size - 8 - i) + i) with (j - (size - 8 - i - i)) by lia.
    rewrite Z.shiftl_spec by lia. change 255 with (Z.ones 8).
    destruct (Z.leb_spec (size - 8 - i) j); simpl.
    + rewrite Z.testbit_ones by lia. zcases; try lia; by rewrite ?andb_false_r, ?andb_true_r.
    + rewrite (Z.testbit_neg_r (Z.ones 8)) by lia. by rewrite andb_false_r.
Qed.

Lemma reverse_16_loop v : _reverse_16 v = reverse_loop v 16.
Proof.
  unfold reverse_loop. change (py_range_step 0 16 8) with [0; 8]. cbn [foldl].
  rewrite Z.lor_0_l, reverse_term_up, reverse_term_down by lia. done.
Qed.

Lemma reverse_32_loop v : _reverse_32 v = reverse_loop v 32.
Proof.
  unfold reverse_loop. change (py_range_step 0 32 8) with [0; 8; 16; 24]. cbn [foldl].
  rewrite Z.lor_0_l, (reverse_term_up v 32 0), (reverse_term_up v 32 8),
    (reverse_term_down v 32 16), (reverse_term_down v 32 24) by lia. done.
Qed.

Lemma reverse_64_loop v : _reverse_64 v = reverse_loop v 64.
Proof.
  unfold reverse_loop. change (py_range_step 0 64 8) with [0; 8; 16; 24; 32; 40; 48; 56]. cbn [foldl].
  rewrite Z.lor_0_l, (reverse_term_up v 64 0), (reverse_term_up v 64 8),
    (reverse_term_up v 64 16), (reverse_term_up v 64 24),
    (reverse_term_down v 64 32), (reverse_term_down v 64 40),
    (reverse_term_down v 64 48), (reverse_term_down v 64 56) by lia. done.
Qed.

Lemma foldl_lor_testbit (f : Z → Z) l acc j :
  Z.testbit (foldl (λ out i, Z.lor out (f i)) acc l) j
  = Z.testbit acc j || existsb (λ i, Z.testbit (f i) j) l.
Proof.
  revert acc. induction l as [|i l IH]; intros acc; simpl; [by rewrite orb_false_r|].
  by rewrite IH, Z.lor_spec, orb_assoc.
Qed.

Lemma elem_of_bytes_range n i :
  i ∈ py_range_step 0 (8 * n) 8 ↔ ∃ k, i = 8 * k ∧ 0 ≤ k < n.
Proof.
  unfold py_range_step. rewrite list_elem_of_fmap.
  replace ((8 * n - 0 + 8 - 1) / 8) with n by (apply Z.div_unique with 7; lia).
  setoid_rewrite elem_of_seqZ. split; intros (k & ? & ?); exists k; lia.
Qed.

Lemma reverse_loop_testbit v n k b :
  0 ≤ k < n → 0 ≤ b < 8 →
  Z.testbit (reverse_loop v (8 * n)) (8 * k + b) = Z.testbit v (8 * (n - 1 - k) + b).
Proof.
  intros Hk Hb. unfold reverse_loop. rewrite foldl_lor_testbit, Z.bits_0. simpl.
  apply Bool.eq_true_iff_eq. rewrite existsb_exists. setoid_rewrite <-list_elem_of_In.
  setoid_rewrite elem_of_bytes_range. split.
  - intros (i & (m & -> & Hm) & Ht). rewrite reverse_term_testbit in Ht by lia.
    apply andb_prop in Ht as [Hc Ht]. apply andb_prop in Hc as [Hc1 Hc2].
    apply Z.leb_le in Hc1. apply Z.ltb_lt in Hc2.
    assert (m = n - 1 - k) as -> by lia.
    by replace (8 * (n - 1 - k) + b) with (8 * k + b - (8 * n - 8 - 8 * (n - 1 - k)) + 8 * (n - 1 - k)) by lia.
  - intros Ht. exists (8 * (n - 1 - k)). split; [eexists; split; [done|lia]|].
    rewrite reverse_term_testbit by lia.
    replace (8 * k + b - (8 * n - 8 - 8 * (n - 1 - k)) + 8 * (n - 1 - k)) with (8 * (n - 1 - k) + b) by lia.
    rewrite Ht. zcases; lia || done.
Qed.

(** Vectors of [n] bytes agreeing on each byte's bits are equal. *)
Lemma vec_eq_bytes a b n :
  wf a → wf b → bits a = 8 * n → bits b = 8 * n → 0 ≤ n →
  (∀ k i, 0 ≤ k < n → 0 ≤ i < 8 → Z.testbit (value a) (8 * k + i) = Z.testbit (value b) (8 * k + i)) →
  a = b.
Proof.
  intros [_ Ha] [_ Hb] Hba Hbb Hn H.
  destruct a as [v w], b as [v' w']; simpl in *. subst. f_equal.
  apply bits_inj_below with (8 * n); [done..|lia|]. intros i Hi.
  rewrite (Z.div_mod i 8) by lia. pose proof (Z.mod_pos_bound i 8 ltac:(lia)).
  apply H; [split; [apply Z.div_pos; lia|apply Z.div_lt_upper_bound; lia]|done].
Qed.

(** Every branch of [Reverse] on a whole number of bytes is the loop. *)
Lemma Reverse_loop a n :
  wf a → bits a = 8 * n → 1 ≤ n →
  Reverse a = Ok (mkBVV (reverse_loop (value a) (8 * n) mod 2 ^ (8 * n)) (8 * n)).
Proof.
  intros [_ Hv] Hb Hn. unfold Reverse, size. rewrite Hb in *.
  destruct (Z.eqb_spec (8 * n) 8) as [E|].
  - assert (n = 1) as -> by lia. f_equal. destruct a as [v w]; simpl in *. subst. f_equal.
    change (2 ^ (8 * 1)) with (2 ^ 8) in *.
    apply bits_inj_below with 8; [lia|apply mod_pow2_bound; lia|lia|].
    intros i Hi. rewrite Z.mod_pow2_bits_low by lia.
    pose proof (reverse_loop_testbit v 1 0 i ltac:(lia) Hi) as E'.
    by rewrite Z.add_0_l in E'.
  - replace (8 * n mod 8) with 0 by (symmetry; rewrite Z.mul_comm; apply Z.mod_mul; lia). simpl.
    rewrite new_spec by lia. do 3 f_equal.
    destruct (Z.eqb_spec (8 * n) 64) as [->|]; [apply reverse_64_loop|].
    destruct (Z.eqb_spec (8 * n) 32) as [->|]; [apply reverse_32_loop|].
    destruct (Z.eqb_spec (8 * n) 16) as [->|]; [apply reverse_16_loop|done].
Qed.

Lemma Reverse_testbit a n r k b :
  wf a → bits a = 8 * n → 1 ≤ n → Reverse a = Ok r → 0 ≤ k < n → 0 ≤ b < 8 →
  Z.testbit (value r) (8 * k + b) = Z.testbit (value a) (8 * (n - 1 - k) + b).
Proof.
  intros Ha Hb Hn Hr Hk Hb8. rewrite (Reverse_loop a n) in Hr by done. simplify_eq. simpl.
  rewrite Z.mod_pow2_bits_low by lia. by apply reverse_loop_testbit.
Qed.

Lemma Reverse_total a n :
  wf a → bits a = 8 * n → 1 ≤ n → ∃ r, Reverse a = Ok r ∧ wf r ∧ bits r = bits a.
Proof.
  intros Ha Hb Hn. rewrite (Reverse_loop a n) by done. eexists. split; [done|].
  repeat split; simpl; try lia; apply mod_pow2_bound; lia.
Qed.

(** ** Shifts and rotations *)

Lemma lt_pow2 w : 0 ≤ w → w < 2 ^ w.
Proof. intros. apply Z.pow_gt_lin_r; lia. Qed.

(** A count that fits the width survives its coercion. *)
Lemma LShR_num a m :
  wf a → 1 ≤ bits a → 0 ≤ m ≤ bits a →
  LShR (Bv a) (Num m) = new (Z.shiftr (value a) m) (bits a).
Proof.
  intros Ha Hw Hm. pose proof (lt_pow2 (bits a)). unfold LShR. cbn.
  rewrite new_spec by lia. cbn. rewrite compare_bits_eq by done.
  simpl. by rewrite Z.mod_small, py_shr_nonneg by lia.
Qed.

Lemma lshift_num a m :
  wf a → 1 ≤ bits a → 0 ≤ m ≤ bits a →
  __lshift__ a (Num m) = new (Z.shiftl (value a) m) (bits a).
Proof.
  intros Ha Hw Hm. pose proof (lt_pow2 (bits a)). unfold __lshift__. cbn.
  rewrite new_spec by lia. cbn. rewrite compare_bits_eq by done.
  simpl. by rewrite Z.mod_small, py_shl_nonneg by lia.
Qed.

Lemma or_Bv a b :
  1 ≤ bits a → bits a = bits b → __or__ a (Bv b) = new (Z.lor (value a) (value b)) (bits a).
Proof. intros. unfold __or__. cbn. by rewrite compare_bits_eq. Qed.

Lemma rotate_right_spec a k :
  wf a → 1 ≤ bits a →
  let w := bits a in let m := k mod w in
  RotateRight a (Num k) =
    Ok (mkBVV (Z.lor (Z.shiftr (value a) m mod 2 ^ w) (Z.shiftl (value a) (w - m) mod 2 ^ w) mod 2 ^ w) w).
Proof.
  intros Ha Hw w m. assert (0 ≤ m < w) by (apply Z.mod_pos_bound; lia).
  unfold RotateRight. cbn [rot_amount]. unfold size. fold w.
  rewrite py_mod_nz by lia. cbn [mbind result_bind rot_rest]. fold m.
  rewrite LShR_num, lshift_num by (done || lia).
  rewrite !new_spec by lia. cbn [mbind result_bind].
  by rewrite or_Bv, new_spec by (simpl; lia).
Qed.

Lemma rotate_left_spec a k :
  wf a → 1 ≤ bits a →
  let w := bits a in let m := k mod w in
  RotateLeft a (Num k) =
    Ok (mkBVV (Z.lor (Z.shiftl (value a) m mod 2 ^ w) (Z.shiftr (value a) (w - m) mod 2 ^ w) mod 2 ^ w) w).
Proof.
  intros Ha Hw w m. assert (0 ≤ m < w) by (apply Z.mod_pos_bound; lia).
  unfold RotateLeft. cbn [rot_amount]. unfold size. fold w.
  rewrite py_mod_nz by lia. cbn [mbind result_bind rot_rest]. fold m.
  rewrite LShR_num, lshift_num by (done || lia).
  rewrite !new_spec by lia. cbn [mbind result_bind].
  by rewrite or_Bv, new_spec by (simpl; lia).
Qed.

Lemma mod_shift_cases i k w :
  0 ≤ i < w → let m := k mod w in
  (i + k) mod w = if i + m <? w then i + m else i + m - w.
Proof.
  intros Hi m. assert (0 ≤ m < w) by (apply Z.mod_pos_bound; lia).
  rewrite <-Z.add_mod_idemp_r by lia. fold m. zcases.
  - apply Z.mod_small. lia.
  - rewrite <-(Z_mod_plus_full _ (-1)). rewrite Z.mod_small; lia.
Qed.

(** ** The width-preserving operations are total *)

(** Two operands the operations accept. *)
Definition alike (a b : BVV) : Prop := wf a ∧ wf b ∧ bits a = bits b ∧ 1 ≤ bits a.

(** The outcomes of an operation on such operands. *)
Definition total_on (b : BVV) (r : result BVV) : Prop :=
  is_ok r = true ∨ (value b = 0 ∧ r = Err ClaripyZeroDivisionError).

Lemma normalize_compare_Bv {A} (f : BVV → BVV → result A) a b :
  bits a = bits b → 1 ≤ bits a → normalize_types (compare_bits f) (Bv a) (Bv b) = f a b.
Proof. intros. cbn. by rewrite compare_bits_eq. Qed.

Lemma new_ok v n : 0 ≤ n → is_ok (new v n) = true.
Proof. intros. by rewrite new_spec. Qed.

Lemma bind_ok {A B} (m : result A) (f : A → result B) :
  is_ok m = true → (∀ x, m = Ok x → is_ok (f x) = true) → is_ok (m ≫= f) = true.
Proof. destruct m as [x|]; [intros _ H; by apply H|done]. Qed.

Lemma LShR_ok a b : alike a b → is_ok (LShR (Bv a) (Bv b)) = true.
Proof.
  intros (_ & [_ Hv] & E & Hw). unfold LShR. rewrite normalize_compare_Bv by done.
  rewrite py_shr_nonneg by lia. apply new_ok. lia.
Qed.

Lemma lshift_ok a b : alike a b → is_ok (__lshift__ a (Bv b)) = true.
Proof.
  intros (_ & [_ Hv] & E & Hw). unfold __lshift__. rewrite normalize_compare_Bv by done.
  rewrite py_shl_nonneg by lia. apply new_ok. lia.
Qed.

Lemma or_ok a b : alike a b → is_ok (__or__ a (Bv b)) = true.
Proof. intros (_ & _ & E & Hw). unfold __or__. rewrite normalize_compare_Bv by done. apply new_ok. lia. Qed.

(** The amount of a rotation by a vector, and what is left of the width. *)
Lemma rot_amount_Bv a b :
  alike a b → ∃ m, rot_amount (Bv b) (size a) = Ok (Bv m) ∧ alike a m.
Proof.
  intros (Ha & [_ Hv] & E & Hw). pose proof (lt_pow2 (bits a)).
  unfold rot_amount, __mod__, size. cbn. rewrite new_spec by lia. cbn.
  rewrite compare_bits_eq by (cbn; lia). cbn. rewrite <-E, Z.mod_small by lia.
  destruct (Z.eqb_spec (bits a) 0); [lia|]. rewrite new_spec by lia. cbn. eexists. split; [done|].
  pose proof (λ v, mod_pow2_bound v (bits a)) as Hm. rewrite <-?E. repeat split; cbn; first [apply Ha | apply Hm; lia | lia].
Qed.

Lemma rot_rest_Bv a m :
  alike a m → ∃ r, rot_rest (size a) (Bv m) = Ok (Bv r) ∧ alike a r.
Proof.
  intros (Ha & [_ Hv] & E & Hw). pose proof (lt_pow2 (bits a)).
  unfold rot_rest, __rsub__, size. cbn. rewrite new_spec by lia. cbn.
  rewrite compare_bits_eq by (cbn; lia). cbn. rewrite new_spec by lia. cbn. eexists. split; [done|].
  pose proof (λ v, mod_pow2_bound v (bits a)) as Hm. rewrite <-?E. repeat split; cbn; first [apply Ha | apply Hm; lia | lia].
Qed.

Lemma width_closed f a b r : f ∈ width_preserving → f a b = Ok r → wf r ∧ bits r = bits a.
Proof.
  intros Hf H.
  repeat (apply elem_of_cons in Hf as [->|Hf]); [..|by apply elem_of_nil in Hf].
  14: by eapply width_RotateLeft. 14: by eapply width_RotateRight.
  all: apply normalize_compare_inv in H as [_ H]; new_width H.
Qed.

(** Both rotations: two shifts whose results are joined. *)
Lemma rotate_ok a b : alike a b → is_ok (RotateLeft a (Bv b)) = true ∧ is_ok (RotateRight a (Bv b)) = true.
Proof.
  intros Hab. destruct (rot_amount_Bv a b Hab) as (m & Em & Hm). destruct (rot_rest_Bv a m Hm) as (r & Er & Hr).
  assert (W : ∀ x y k k', __lshift__ a (Bv k) = Ok x → LShR (Bv a) (Bv k') = Ok y → alike x y ∧ alike y x).
  { intros x y k k' Hx Hy. destruct Hab as (_ & _ & _ & Hw).
    destruct (width_closed (λ a b, __lshift__ a (Bv b)) a k x) as [Wx Ex]; [unfold width_preserving; by repeat constructor|done|].
    destruct (width_closed (λ a b, LShR (Bv a) (Bv b)) a k' y) as [Wy Ey]; [unfold width_preserving; by repeat constructor|done|].
    unfold alike. rewrite Ex, Ey. done. }
  unfold RotateLeft, RotateRight. rewrite Em. cbn [mbind result_bind]. split.
  - apply bind_ok; [by apply lshift_ok|intros x Hx]. rewrite Er. cbn [mbind result_bind].
    apply bind_ok; [by apply LShR_ok|intros y Hy]. apply or_ok. by destruct (W _ _ _ _ Hx Hy).
  - apply bind_ok; [by apply LShR_ok|intros x Hx]. rewrite Er. cbn [mbind result_bind].
    apply bind_ok; [by apply lshift_ok|intros y Hy]. apply or_ok. by destruct (W _ _ _ _ Hy Hx).
Qed.

Lemma to_signed_0_iff w v : 1 ≤ w → 0 ≤ v < 2 ^ w → to_signed w v = 0 ↔ v = 0.
Proof. unfold to_signed. intros Hw ?. pose proof (pow2_pos (w - 1)). destruct (Z.ltb_spec v (2 ^ (w - 1))); [done|lia]. Qed.

Lemma width_total f a b : f ∈ width_preserving → alike a b → total_on b (f a b).
Proof.
  intros Hf Hab. pose proof Hab as (_ & [_ Hv] & E & Hw). pose proof (rotate_ok a b Hab) as [HL HR].
  repeat (apply elem_of_cons in Hf as [->|Hf]); [..|by apply elem_of_nil in Hf].
  14: by left. 14: by left.
  all: unfold __add__, __sub__, __mul__, __mod__, __floordiv__, __and__, __or__, __xor__, __lshift__, __rshift__, LShR, SDiv, SMod;
    rewrite normalize_compare_Bv by done; rewrite ?py_shl_nonneg, ?py_shr_nonneg by lia.
  all: try (left; apply new_ok; lia).
  all: try (destruct (Z.eqb_spec (value b) 0); [by right|left; apply new_ok; lia]).
  all: rewrite !signed_spec by first [apply Hab | lia]; cbn.
  1: left; rewrite py_shr_nonneg by lia; apply new_ok; lia.
  all: destruct (Z.eqb_spec (to_signed (bits b) (value b)) 0) as [Ez|]; [right|left; apply new_ok; lia].
  all: apply to_signed_0_iff in Ez; [done|lia..].
Qed.

(** ** Properties *)

(** C1: Every width-preserving operation of the concrete backend (arithmetic,
    division and remainder in both signednesses, bit operations, the three
    shifts, both rotations) maps two well-formed bitvectors of one non-zero
    width to a well-formed bitvector of that width; the only exception it can
    raise on them is [ClaripyZeroDivisionError], for a zero second operand. On
    any operands, what it returns is well formed and as wide as the first. *)
Theorem width_preserving_closed (f : BVV → BVV → result BVV) (a b : BVV) :
  f ∈ width_preserving →
  (∀ r, f a b = Ok r → wf r ∧ bits r = bits a) ∧
  (wf a → wf b → bits a = bits b → 1 ≤ bits a →
   is_ok (f a b) = true ∨ (value b = 0 ∧ f a b = Err ClaripyZeroDivisionError)).
Proof.
  intros Hf. split.
  - intros r. by apply width_closed.
  - intros. by apply width_total.
Qed.

Lemma width_preserving_closed_witness :
  is_ok (SDiv (Bv (mkBVV 8 8)) (Bv (mkBVV 254 8))) = true ∨
  (254 = 0 ∧ SDiv (Bv (mkBVV 8 8)) (Bv (mkBVV 254 8)) = Err ClaripyZeroDivisionError).
Proof.
  apply (width_preserving_closed (λ a b, SDiv (Bv a) (Bv b)) (mkBVV 8 8) (mkBVV 254 8)).
  - unfold width_preserving. do 11 apply list_elem_of_further. apply list_elem_of_here.
  - split; simpl; lia.
  - split; simpl; lia.
  - reflexivity.
  - simpl. lia.
Defined.

(** [SDiv] and [SMod] are the truncated (C) division and remainder of the
    two's-complement readings of their operands, wrapped to the width, although
    the code goes through Python's floor division; a zero divisor raises
    [ClaripyZeroDivisionError]. *)
Theorem SDiv_SMod_truncated (a b : BVV) :
  wf a → wf b → 1 ≤ bits a → bits a = bits b →
  let x := to_signed (bits a) (value a) in
  let y := to_signed (bits a) (value b) in
  (y = 0 → SDiv (Bv a) (Bv b) = Err ClaripyZeroDivisionError ∧
           SMod (Bv a) (Bv b) = Err ClaripyZeroDivisionError) ∧
  (y ≠ 0 → SDiv (Bv a) (Bv b) = Ok (mkBVV (Z.quot x y mod 2 ^ bits a) (bits a)) ∧
           SMod (Bv a) (Bv b) = Ok (mkBVV (Z.rem x y mod 2 ^ bits a) (bits a))).
Proof.
  intros Ha Hb Hw Hab x y. unfold SDiv, SMod. cbn [normalize_types].
  rewrite !compare_bits_eq by done.
  rewrite (signed_spec a), (signed_spec b) by (done || lia). rewrite <-Hab. fold x y. cbn.
  split; intros Hy.
  - by rewrite Hy.
  - destruct (Z.eqb_spec y 0); [done|].
    rewrite !new_spec, !trunc_div_quot by (done || lia).
    split; [done|]. do 3 f_equal. pose proof (Z.quot_rem' x y). lia.
Qed.

Lemma SDiv_SMod_truncated_witness :
  SDiv (Bv (mkBVV 249 8)) (Bv (mkBVV 2 8)) = Ok (mkBVV 253 8).
Proof.
  apply (SDiv_SMod_truncated (mkBVV 249 8) (mkBVV 2 8)); [split; simpl; lia..|simpl; lia|done|].
  vm_compute. discriminate.
Defined.

(** Concatenation and extraction are inverse.  The two slices of a
    concatenation are its operands, and the two slices of a vector at any cut
    concatenate back to it. *)
Theorem concat_extract_roundtrip (a b c : BVV) (k : Z) :
  wf a → wf b → wf c → 0 ≤ k ≤ bits c →
  (∃ ab, Concat [a; b] = Ok ab ∧ bits ab = bits a + bits b ∧
     Extract (bits a + bits b - 1) (bits b) ab = Ok a ∧
     Extract (bits b - 1) 0 ab = Ok b) ∧
  (∃ hi lo, Extract (bits c - 1) k c = Ok hi ∧ Extract (k - 1) 0 c = Ok lo ∧
     Concat [hi; lo] = Ok c).
Proof.
  intros [Ha Hva] [Hb Hvb] [Hc Hvc] Hk. split.
  - rewrite Concat2_spec by done. eexists. split; [done|]. split; [done|].
    rewrite !Extract_spec by lia. cbn [value bits].
    rewrite Z.div_add_l, Z.div_small, Z.add_0_r by lia.
    replace (bits a + bits b - 1 + 1 - bits b) with (bits a) by lia.
    replace (bits b - 1 + 1 - 0) with (bits b) by lia.
    rewrite Z.pow_0_r, Z.div_1_r, (Z.add_comm (_ * _)), Z_mod_plus_full, !Z.mod_small by lia.
    by destruct a, b.
  - destruct (Extract_wf (bits c - 1) k c) as (hi & Hhi & Hwh & Hbh); [lia..|].
    destruct (Extract_wf (k - 1) 0 c) as (lo & Hlo & Hwl & Hbl); [lia..|].
    exists hi, lo. split; [done|]. split; [done|].
    rewrite Concat2_spec, Hbh, Hbl by done.
    rewrite Extract_spec in Hhi, Hlo by lia. simplify_eq. cbn [value].
    replace (k - 1 + 1 - 0) with k by lia.
    rewrite Z.pow_0_r, Z.div_1_r.
    replace (bits c - 1 + 1 - k) with (bits c - k) by lia.
    rewrite (Z.mod_small (value c / 2 ^ k)).
    + rewrite Z.mul_comm, <-Z.div_mod by lia. destruct c; simpl. do 2 f_equal. lia.
    + split; [apply Z.div_pos; lia|]. apply Z.div_lt_upper_bound; [lia|].
      rewrite <-Z.pow_add_r by lia. replace (k + (bits c - k)) with (bits c) by lia. lia.
Qed.

Lemma concat_extract_roundtrip_witness :
  Concat [mkBVV 0xAB 8; mkBVV 3 4] = Ok (mkBVV 0xAB3 12) ∧
  ∃ hi lo, Extract 11 5 (mkBVV 0xAB3 12) = Ok hi ∧ Extract 4 0 (mkBVV 0xAB3 12) = Ok lo ∧
     Concat [hi; lo] = Ok (mkBVV 0xAB3 12).
Proof.
  split; [reflexivity|].
  apply (concat_extract_roundtrip (mkBVV 0xAB 8) (mkBVV 3 4) (mkBVV 0xAB3 12) 5);
    [split; simpl; lia..|simpl; lia].
Defined.

(** [Reverse] on a vector of [n] bytes, whichever of its four code paths
    runs (identity, the three unrolled reversals, the loop), moves byte [k] to
    byte [n-1-k], keeps the width, and is its own inverse. *)
Theorem Reverse_reverses_bytes (a : BVV) (n : Z) :
  wf a → bits a = 8 * n → 1 ≤ n →
  ∃ r, Reverse a = Ok r ∧ wf r ∧ bits r = bits a ∧ Reverse r = Ok a ∧
    ∀ k, 0 ≤ k < n →
      Extract (8 * k + 7) (8 * k) r = Extract (8 * (n - 1 - k) + 7) (8 * (n - 1 - k)) a.
Proof.
  intros Ha Hb Hn. destruct (Reverse_total a n) as (r & Hr & Hwr & Hbr); [done..|].
  exists r. do 3 (split; [done|]). split.
  - destruct (Reverse_total r n) as (a' & Ha' & Hwa' & Hba'); [done|lia|done|].
    rewrite Ha'. f_equal. apply (vec_eq_bytes a' a n); [done..|lia|done|lia|].
    intros k i Hk Hi. rewrite (Reverse_testbit r n a' k i) by (done || lia).
    rewrite (Reverse_testbit a n r) by (done || lia).
    do 2 f_equal. lia.
  - intros k Hk. rewrite !Extract_spec by lia.
    replace (8 * k + 7 + 1 - 8 * k) with 8 by lia.
    replace (8 * (n - 1 - k) + 7 + 1 - 8 * (n - 1 - k)) with 8 by lia.
    do 2 f_equal. apply bits_inj_below with 8; [apply mod_pow2_bound; lia..|lia|].
    intros i Hi. rewrite !Z.mod_pow2_bits_low by lia.
    rewrite <-!Z.shiftr_div_pow2, !Z.shiftr_spec by lia.
    rewrite (Z.add_comm i), (Z.add_comm i). by apply (Reverse_testbit a n).
Qed.

Lemma Reverse_reverses_bytes_witness :
  Reverse (mkBVV 0x010203 24) = Ok (mkBVV 0x030201 24) ∧
  ∃ r, Reverse (mkBVV 0x010203 24) = Ok r ∧ wf r ∧ bits r = 24 ∧ Reverse r = Ok (mkBVV 0x010203 24) ∧
    ∀ k, 0 ≤ k < 3 →
      Extract (8 * k + 7) (8 * k) r =
      Extract (8 * (3 - 1 - k) + 7) (8 * (3 - 1 - k)) (mkBVV 0x010203 24).
Proof.
  split; [reflexivity|].
  apply (Reverse_reverses_bytes (mkBVV 0x010203 24) 3); [split; simpl; lia|done|lia].
Defined.

(** Bit [i] of a rotation, and that the result is a vector of the same width. *)
Lemma RotateRight_bits a k :
  wf a → 1 ≤ bits a →
  ∃ r, RotateRight a (Num k) = Ok r ∧ wf r ∧ bits r = bits a ∧
    ∀ i, 0 ≤ i < bits a → Z.testbit (value r) i = Z.testbit (value a) ((i + k) mod bits a).
Proof.
  intros Ha Hw. pose proof (wf_value a Ha) as Hv.
  assert (0 ≤ k mod bits a < bits a) by (apply Z.mod_pos_bound; lia).
  rewrite rotate_right_spec by done. eexists. split; [done|].
  split; [split; cbn; [lia|apply mod_pow2_bound; lia]|]. split; [done|]. intros i Hi. cbn [value].
  rewrite testbit_mod_pow2, Z.lor_spec, !testbit_mod_pow2 by lia. rewrite Z.shiftr_spec, Z.shiftl_spec by lia.
  rewrite mod_shift_cases by done. destruct (Z.ltb_spec i (bits a)); [|lia]. simpl.
  destruct (Z.ltb_spec (i + k mod bits a) (bits a)).
  - rewrite (Z.testbit_neg_r _ (i - _)) by lia. apply orb_false_r.
  - rewrite (testbit_high _ (bits a) (i + _)) by lia. simpl. f_equal; lia.
Qed.

Lemma RotateLeft_bits a k :
  wf a → 1 ≤ bits a →
  ∃ r, RotateLeft a (Num k) = Ok r ∧ wf r ∧ bits r = bits a ∧
    ∀ i, 0 ≤ i < bits a → Z.testbit (value r) i = Z.testbit (value a) ((i - k) mod bits a).
Proof.
  intros Ha Hw. pose proof (wf_value a Ha) as Hv.
  assert (0 ≤ k mod bits a < bits a) by (apply Z.mod_pos_bound; lia).
  rewrite rotate_left_spec by done. eexists. split; [done|].
  split; [split; cbn; [lia|apply mod_pow2_bound; lia]|]. split; [done|]. intros i Hi. cbn [value].
  rewrite testbit_mod_pow2, Z.lor_spec, !testbit_mod_pow2 by lia. rewrite Z.shiftr_spec, Z.shiftl_spec by lia.
  replace (i - k) with (i + - k) by lia. rewrite mod_shift_cases by done.
  destruct (Z.ltb_spec i (bits a)); [|lia]. simpl.
  destruct (Z.eq_dec (k mod bits a) 0) as [Hk|Hk].
  - rewrite Z.mod_opp_l_z, Hk by lia. destruct (Z.ltb_spec (i + 0) (bits a)); [|lia].
    rewrite (testbit_high _ (bits a) (i + _)) by lia. rewrite orb_false_r. f_equal; lia.
  - rewrite Z.mod_opp_l_nz by lia. destruct (Z.ltb_spec (i + (bits a - k mod bits a)) (bits a)).
    + rewrite (Z.testbit_neg_r _ (i - _)) by lia. done.
    + rewrite (testbit_high _ (bits a) (i + _)) by lia. rewrite orb_false_r. f_equal; lia.
Qed.

(** An amount that is a vector of the same width counts as its value. *)
Lemma Rotate_Bv a b :
  alike a b →
  RotateRight a (Bv b) = RotateRight a (Num (value b)) ∧ RotateLeft a (Bv b) = RotateLeft a (Num (value b)).
Proof.
  intros (Ha & [_ Hb] & E & Hw). pose proof (lt_pow2 (bits a)). pose proof (Z.mod_pos_bound (value b) (bits a)).
  assert (rot_amount (Bv b) (size a) = Ok (Bv (mkBVV (value b mod bits a) (bits a)))) as Em.
  { unfold rot_amount, __mod__, size. cbn. rewrite new_spec by lia. cbn. rewrite compare_bits_eq by (cbn; lia). cbn.
    rewrite <-E, Z.mod_small by lia. destruct (Z.eqb_spec (bits a) 0); [lia|]. rewrite new_spec by lia. cbn.
    by rewrite Z.mod_small by lia. }
  assert (rot_rest (size a) (Bv (mkBVV (value b mod bits a) (bits a))) =
    Ok (Bv (mkBVV (bits a - value b mod bits a) (bits a)))) as Er.
  { unfold rot_rest, __rsub__, size. cbn. rewrite new_spec by lia. cbn. rewrite compare_bits_eq by (cbn; lia). cbn.
    rewrite (Z.mod_small (bits a)) by lia. rewrite new_spec by lia. cbn. by rewrite Z.mod_small by lia. }
  assert (∀ m, 0 ≤ m ≤ bits a → LShR (Bv a) (Bv (mkBVV m (bits a))) = LShR (Bv a) (Num m) ∧
    __lshift__ a (Bv (mkBVV m (bits a))) = __lshift__ a (Num m)) as Hsh.
  { intros m Hm. unfold LShR, __lshift__. cbn. rewrite new_spec by lia. cbn. by rewrite (Z.mod_small m) by lia. }
  unfold RotateRight, RotateLeft. rewrite Em. cbn [mbind result_bind rot_amount]. rewrite Er.
  unfold size. rewrite py_mod_nz by lia. cbn [mbind result_bind rot_rest].
  destruct (Hsh (value b mod bits a)) as [-> ->]; [lia|].
  by destruct (Hsh (bits a - value b mod bits a)) as [-> ->]; [lia|].
Qed.

(** Bit [i] of [RotateRight(a, k)] is bit [(i + k) mod width] of [a], bit
    [i] of [RotateLeft(a, k)] is bit [(i - k) mod width], for any integer [k];
    the two rotations are therefore inverse permutations of the bits. *)
Theorem Rotate_permutes_bits (a : BVV) (k : Z) :
  wf a → 1 ≤ bits a →
  (∃ r, RotateRight a (Num k) = Ok r ∧ ∀ i, 0 ≤ i < bits a →
     Z.testbit (value r) i = Z.testbit (value a) ((i + k) mod bits a)) ∧
  (∃ l, RotateLeft a (Num k) = Ok l ∧ ∀ i, 0 ≤ i < bits a →
     Z.testbit (value l) i = Z.testbit (value a) ((i - k) mod bits a)).
Proof.
  intros Ha Hw. destruct (RotateRight_bits a k Ha Hw) as (r & ? & _ & _ & ?).
  destruct (RotateLeft_bits a k Ha Hw) as (l & ? & _ & _ & ?).
  split; [by exists r|by exists l].
Qed.

Lemma Rotate_permutes_bits_witness :
  RotateRight (mkBVV 0x06 8) (Num 2) = Ok (mkBVV 0x81 8) ∧
  ∃ l, RotateLeft (mkBVV 0x06 8) (Num 2) = Ok l ∧ ∀ i, 0 ≤ i < 8 →
     Z.testbit (value l) i = Z.testbit 0x06 ((i - 2) mod 8).
Proof.
  split; [reflexivity|].
  apply (Rotate_permutes_bits (mkBVV 0x06 8) 2); [split; simpl; lia|simpl; lia].
Defined.

(** The [signed] setter stores a value outside [0, 2^width) for every
    argument that is not a multiple of [2^width], so it breaks the invariant
    that the [value] setter maintains: the following reads of [value] see a
    negative number. *)
Theorem signed_setter_breaks_invariant (b : BVV) (v : Z) :
  wf b → wf (set_value b v) ∧ (v mod 2 ^ bits b ≠ 0 → ¬ wf (set_signed b v)).
Proof.
  intros [Hb Hv]. split.
  - split; simpl; [done|]. unfold mod_. rewrite land_mask by done. by apply mod_pow2_bound.
  - intros Hnz [_ Hs]. simpl in Hs. unfold mod_ in Hs.
    pose proof (pow2_pos (bits b) Hb). rewrite Z.mod_opp_r_nz in Hs by lia.
    pose proof (mod_pow2_bound v (bits b) Hb). lia.
Qed.

Lemma signed_setter_breaks_invariant_witness :
  wf (set_value (mkBVV 0 8) 5) ∧ ¬ wf (set_signed (mkBVV 0 8) 5).
Proof.
  destruct (signed_setter_breaks_invariant (mkBVV 0 8) 5) as [H1 H2].
  - split; simpl; lia.
  - split; [exact H1|]. apply H2. vm_compute. discriminate.
Defined.

End BVV.
