(* ===== verification/BoolResult.v ===== *)
(** * Three-valued results: [claripy/backends/backend_vsa/bool_result.py]

    A [BoolResult] wraps a tuple of booleans: [(True,)], [(False,)] or
    [(True, False)], and whatever [union] makes of them.  [union] builds its
    tuple from a Python set of booleans; [hash(False) = 0 < hash(True) = 1], so
    CPython lists [False] before [True], and the tuple [(False, True)] it
    returns is a maybe that is not [identical] to [MaybeResult()]. *)

From Stdlib Require Import ZArith Lia Bool.
From stdpp Require Import base tactics list finite.
From S2P Require Import Prelude.

Module BoolResult.

Record BoolResult := mkBoolResult { value : list bool }.

#[export] Instance BoolResult_eq_dec : EqDecision BoolResult.
Proof. solve_decision. Defined.

Definition TrueResult : BoolResult := mkBoolResult [true].
Definition FalseResult : BoolResult := mkBoolResult [false].
Definition MaybeResult : BoolResult := mkBoolResult [true; false].

Definition has (b : bool) (o : BoolResult) : bool := bool_decide (b ∈ value o).

Definition __eq__ (self other : BoolResult) : bool := bool_decide (value self = value other).
Definition identical (self other : BoolResult) : bool := bool_decide (value self = value other).
Definition is_maybe (o : BoolResult) : bool := has false o && has true o.
Definition has_true (o : BoolResult) : bool := has true o.
Definition has_false (o : BoolResult) : bool := has false o.
Definition is_true (o : BoolResult) : bool := bool_decide (value o = [true]).
Definition is_false (o : BoolResult) : bool := bool_decide (value o = [false]).

Definition __and__ (self other : BoolResult) : BoolResult :=
  if is_false self || is_false other then FalseResult
  else if is_true self then other
  else if is_true other then self
  else MaybeResult.

Definition __invert__ (self : BoolResult) : BoolResult :=
  if is_true self then FalseResult
  else if is_false self then TrueResult
  else MaybeResult.

Definition __or__ (self other : BoolResult) : BoolResult :=
  if is_true self || is_true other then TrueResult
  else if is_false self then other
  else if is_false other then self
  else MaybeResult.

(** [tuple(set(a) | set(b))], in CPython's iteration order. *)
Definition union (self other : BoolResult) : BoolResult :=
  mkBoolResult
    (filter (λ b, b ∈ value self ∨ b ∈ value other) [false; true]).

Definition cardinality (self : BoolResult) : Z := Z.of_nat (length (value self)).

(** ** Properties *)

(** A result covers a truth value when the value is one of its tuple. *)
Definition covers (r : BoolResult) (b : bool) : Prop := b ∈ value r.

(** The results the domain produces: no empty tuple, no duplicates. *)
Definition proper (r : BoolResult) : Prop :=
  value r = [true] ∨ value r = [false] ∨ value r = [true; false] ∨ value r = [false; true].

#[global] Instance bool_domain : AbstractDomain BoolResult bool := covers.

#[export] Instance covers_dec r b : Decision (covers r b).
Proof. unfold covers. apply _. Defined.

#[export] Instance proper_dec r : Decision (proper r).
Proof. unfold proper. apply _. Defined.

(** The four well-formed results; a decidable fact about two results holds of
    all of them once it is checked on these. *)
Definition proper_results : list BoolResult :=
  [TrueResult; FalseResult; MaybeResult; mkBoolResult [false; true]].

Lemma proper_elem r : proper r → r ∈ proper_results.
Proof.
  destruct r as [v]. unfold proper. cbn. unfold proper_results.
  intros [-> | [-> | [-> | ->]]]; repeat constructor.
Qed.

Lemma proper_ind2 (P : BoolResult → BoolResult → Prop) `{!∀ a b, Decision (P a b)} :
  forallb (λ a, forallb (λ b, bool_decide (P a b)) proper_results) proper_results = true →
  ∀ a b, proper a → proper b → P a b.
Proof.
  intros Hall a b Ha%proper_elem%list_elem_of_In Hb%proper_elem%list_elem_of_In.
  rewrite forallb_forall in Hall. specialize (Hall a Ha). rewrite forallb_forall in Hall.
  specialize (Hall b Hb). by apply bool_decide_eq_true in Hall.
Qed.

(** The connectives of the three-valued domain are sound and optimal
    abstractions of the Boolean ones: conjunction, disjunction, negation and
    union of well-formed results are well-formed, and they cover exactly the
    truth values obtained from those their operands cover. *)
Theorem connectives_exact (a b : BoolResult) :
  proper a → proper b →
  (proper (__and__ a b) ∧ ∀ z, covers (__and__ a b) z ↔ ∃ x y, covers a x ∧ covers b y ∧ z = x && y) ∧
  (proper (__or__ a b) ∧ ∀ z, covers (__or__ a b) z ↔ ∃ x y, covers a x ∧ covers b y ∧ z = x || y) ∧
  (proper (__invert__ a) ∧ ∀ z, covers (__invert__ a) z ↔ ∃ x, covers a x ∧ z = negb x) ∧
  (proper (union a b) ∧ ∀ z, covers (union a b) z ↔ covers a z ∨ covers b z).
Proof.
  revert a b. apply (proper_ind2 _). vm_compute. reflexivity.
Qed.

Lemma connectives_exact_witness :
  covers (__and__ MaybeResult TrueResult) false ↔
    ∃ x y, covers MaybeResult x ∧ covers TrueResult y ∧ false = x && y.
Proof. apply (connectives_exact MaybeResult TrueResult); unfold proper; cbn; tauto. Defined.

End BoolResult.
