(* ===== verification/Warren.v ===== *)
(** * Interval bounds of bit operations: [claripy/backends/backend_vsa/warren_methods.py]

    The six routines of Hacker's Delight that bound [x | y], [x & y] and
    [x ^ y] for [a <= x <= b], [c <= y <= d].  Each is a scan of the bit
    positions from the top; a [while m != 0] loop is a fixpoint on fuel, and
    [w + 1] iterations reach [m = 0] from [m = 1 << (w - 1)]. *)

From Stdlib Require Import ZArith Lia Bool.
From stdpp Require Import base tactics list numbers.
From S2P Require Import Prelude.

Module Warren.

(** [(e & m) != 0]. *)
Definition bit_set (e m : Z) : bool := negb (Z.land e m =? 0).

Fixpoint min_or_loop (fuel : nat) (m a b c d : Z) : Z :=
  match fuel with
  | O => Z.lor a c
  | S fuel =>
      if m =? 0 then Z.lor a c
      else if bit_set (Z.land (Z.lnot a) c) m then
        let temp := Z.land (Z.lor a m) (- m) in
        if temp <=? b then Z.lor temp c
        else min_or_loop fuel (Z.shiftr m 1) a b c d
      else if bit_set (Z.land a (Z.lnot c)) m then
        let temp := Z.land (Z.lor c m) (- m) in
        if temp <=? d then Z.lor a temp
        else min_or_loop fuel (Z.shiftr m 1) a b c d
      else min_or_loop fuel (Z.shiftr m 1) a b c d
  end.

Definition min_or (a b c d w : Z) : result Z :=
  m ← py_shl 1 (w - 1); Ok (min_or_loop (S (Z.to_nat w)) m a b c d).

Fixpoint max_or_loop (fuel : nat) (m a b c d : Z) : Z :=
  match fuel with
  | O => Z.lor b d
  | S fuel =>
      if m =? 0 then Z.lor b d
      else if bit_set (Z.land b d) m then
        let temp := Z.lor (b - m) (m - 1) in
        if a <=? temp then Z.lor temp d
        else
          let temp := Z.lor (d - m) (m - 1) in
          if c <=? temp then Z.lor b temp
          else max_or_loop fuel (Z.shiftr m 1) a b c d
      else max_or_loop fuel (Z.shiftr m 1) a b c d
  end.

Definition max_or (a b c d w : Z) : result Z :=
  m ← py_shl 1 (w - 1); Ok (max_or_loop (S (Z.to_nat w)) m a b c d).

Fixpoint min_and_loop (fuel : nat) (m a b c d : Z) : Z :=
  match fuel with
  | O => Z.land a c
  | S fuel =>
      if m =? 0 then Z.land a c
      else if bit_set (Z.land (Z.lnot a) (Z.lnot c)) m then
        let temp := Z.land (Z.lor a m) (- m) in
        if temp <=? b then Z.land temp c
        else
          let temp := Z.land (Z.lor c m) (- m) in
          if temp <=? d then Z.land a temp
          else min_and_loop fuel (Z.shiftr m 1) a b c d
      else min_and_loop fuel (Z.shiftr m 1) a b c d
  end.

Definition min_and (a b c d w : Z) : result Z :=
  m ← py_shl 1 (w - 1); Ok (min_and_loop (S (Z.to_nat w)) m a b c d).

Fixpoint max_and_loop (fuel : nat) (m a b c d : Z) : Z :=
  match fuel with
  | O => Z.land b d
  | S fuel =>
      if m =? 0 then Z.land b d
      else if bit_set (Z.land (Z.lnot d) b) m then
        let temp := Z.lor (Z.land b (Z.lnot m)) (m - 1) in
        if a <=? temp then Z.land temp d
        else max_and_loop fuel (Z.shiftr m 1) a b c d
      else if bit_set (Z.land d (Z.lnot b)) m then
        let temp := Z.lor (Z.land d (Z.lnot m)) (m - 1) in
        if c <=? temp then Z.land b temp
        else max_and_loop fuel (Z.shiftr m 1) a b c d
      else max_and_loop fuel (Z.shiftr m 1) a b c d
  end.

Definition max_and (a b c d w : Z) : result Z :=
  m ← py_shl 1 (w - 1); Ok (max_and_loop (S (Z.to_nat w)) m a b c d).

Fixpoint min_xor_loop (fuel : nat) (m a b c d : Z) : Z :=
  match fuel with
  | O => Z.lxor a c
  | S fuel =>
      if m =? 0 then Z.lxor a c
      else if bit_set (Z.land (Z.lnot a) c) m then
        let temp := Z.land (Z.lor a m) (- m) in
        min_xor_loop fuel (Z.shiftr m 1) (if temp <=? b then temp else a) b c d
      else if bit_set (Z.land a (Z.lnot c)) m then
        let temp := Z.land (Z.lor c m) (- m) in
        min_xor_loop fuel (Z.shiftr m 1) a b (if temp <=? d then temp else c) d
      else min_xor_loop fuel (Z.shiftr m 1) a b c d
  end.

Definition min_xor (a b c d w : Z) : result Z :=
  m ← py_shl 1 (w - 1); Ok (min_xor_loop (S (Z.to_nat w)) m a b c d).

Fixpoint max_xor_loop (fuel : nat) (m a b c d : Z) : Z :=
  match fuel with
  | O => Z.lxor b d
  | S fuel =>
      if m =? 0 then Z.lxor b d
      else if bit_set (Z.land b d) m then
        let temp := Z.lor (b - m) (m - 1) in
        if a <=? temp then max_xor_loop fuel (Z.shiftr m 1) a temp c d
        else
          let temp := Z.lor (d - m) (m - 1) in
          max_xor_loop fuel (Z.shiftr m 1) a b c (if c <=? temp then temp else d)
      else max_xor_loop fuel (Z.shiftr m 1) a b c d
  end.

Definition max_xor (a b c d w : Z) : result Z :=
  m ← py_shl 1 (w - 1); Ok (max_xor_loop (S (Z.to_nat w)) m a b c d).

(** ** Prefixes of integers *)

Lemma shr_step z k : 0 ≤ k → Z.shiftr z k = 2 * Z.shiftr z (k + 1) + Z.b2z (Z.testbit z k).
Proof.
  intros Hk. replace (Z.shiftr z (k + 1)) with (Z.div2 (Z.shiftr z k)).
  - rewrite (Z.div2_odd (Z.shiftr z k)) at 1. f_equal. f_equal.
    by rewrite <-Z.bit0_odd, Z.shiftr_spec, Z.add_0_l.
  - by rewrite Z.div2_spec, Z.shiftr_shiftr.
Qed.

Lemma decomp z k : 0 ≤ k → z = 2 ^ k * Z.shiftr z k + z mod 2 ^ k.
Proof. intros. rewrite Z.shiftr_div_pow2 by done. apply Z.div_mod. pose proof (pow2_pos k). lia. Qed.

Lemma shr_mono x y k : 0 ≤ k → x ≤ y → Z.shiftr x k ≤ Z.shiftr y k.
Proof.
  intros. rewrite !Z.shiftr_div_pow2 by done. apply Z.div_le_mono; [|done]. by apply pow2_pos.
Qed.

Lemma bit_set_spec e k : 0 ≤ k → bit_set e (2 ^ k) = Z.testbit e k.
Proof.
  intros Hk. unfold bit_set. destruct (Z.testbit e k) eqn:E.
  - destruct (Z.eqb_spec (Z.land e (2 ^ k)) 0) as [H|H]; [|done].
    apply (f_equal (λ z, Z.testbit z k)) in H.
    by rewrite Z.land_spec, E, Z.pow2_bits_true, Z.bits_0 in H.
  - replace (Z.land e (2 ^ k)) with 0; [done|]. symmetry. apply Z.bits_inj'. intros i Hi.
    rewrite Z.land_spec, Z.bits_0, Z.pow2_bits_eqb by done.
    destruct (Z.eqb_spec k i) as [<-|]; by rewrite ?E, ?andb_false_r.
Qed.

(** The candidate of a minimum scan: [a]'s prefix with bit [k] raised and zeros
    below it. *)
Lemma raise_spec a k :
  0 ≤ k → Z.testbit a k = false →
  Z.land (Z.lor a (2 ^ k)) (- 2 ^ k) = 2 ^ k * (2 * Z.shiftr a (k + 1) + 1).
Proof.
  intros Hk Ha. replace (- 2 ^ k) with (Z.lnot (Z.ones k)) by (unfold Z.lnot; rewrite Z.ones_equiv; lia).
  rewrite <-Z.ldiff_land, Z.ldiff_ones_r, Z.shiftl_mul_pow2, Z.mul_comm by done. f_equal.
  rewrite shr_step by done. rewrite Z.lor_spec, Ha, Z.pow2_bits_true, Z.shiftr_lor by done. simpl.
  replace (Z.shiftr (2 ^ k) (k + 1)) with 0; [by rewrite Z.lor_0_r|].
  rewrite Z.shiftr_div_pow2, Z.div_small by (pose proof (pow2_pos k); pose proof (Z.pow_lt_mono_r 2 k (k + 1)); lia). done.
Qed.

(** The candidate of a maximum scan: [b]'s prefix with bit [k] cleared and ones
    below it. *)
Lemma lower_spec b k :
  0 ≤ k → Z.testbit b k = true →
  Z.lor (b - 2 ^ k) (2 ^ k - 1) = 2 ^ k * (2 * Z.shiftr b (k + 1)) + (2 ^ k - 1).
Proof.
  intros Hk Hb. pose proof (pow2_pos k Hk).
  assert (b - 2 ^ k = 2 ^ k * (2 * Z.shiftr b (k + 1)) + b mod 2 ^ k) as ->.
  { rewrite (decomp b k) at 1 by done. rewrite shr_step, Hb by done. simpl. lia. }
  assert (∀ h l, 0 ≤ l < 2 ^ k → h * 2 ^ k + l = Z.lor (Z.shiftl h k) l) as Hor.
  { intros. by rewrite lor_shiftl_add. }
  pose proof (mod_pow2_bound b k Hk).
  rewrite (Z.mul_comm (2 ^ k)), !Hor by lia. rewrite <-Z.lor_assoc. f_equal.
  apply Z.bits_inj'. intros i Hi. rewrite ones_pow2, Z.lor_spec, Z.testbit_ones by done.
  rewrite testbit_mod_pow2 by done. zcases; lia || by rewrite ?orb_true_r.
Qed.

Lemma clear_spec b k :
  0 ≤ k → Z.testbit b k = true → Z.land b (Z.lnot (2 ^ k)) = b - 2 ^ k.
Proof.
  intros Hk Hb. rewrite <-Z.ldiff_land. symmetry. apply Z.sub_nocarry_ldiff.
  apply Z.bits_inj'. intros i Hi. rewrite Z.ldiff_spec, Z.bits_0, Z.pow2_bits_eqb by done.
  destruct (Z.eqb_spec k i) as [<-|]; by rewrite ?Hb.
Qed.

Lemma lor_ge_r p q : 0 ≤ p → 0 ≤ q → q ≤ Z.lor p q.
Proof.
  intros. enough (0 ≤ Z.lor p q - q) by lia.
  rewrite Z.sub_nocarry_ldiff; [apply Z.ldiff_nonneg; left; by apply Z.lor_nonneg|].
  apply Z.bits_inj'. intros i Hi. rewrite Z.ldiff_spec, Z.lor_spec, Z.bits_0.
  destruct (Z.testbit q i); by rewrite ?orb_true_r.
Qed.

Lemma land_le_r p q : 0 ≤ q → Z.land p q ≤ q.
Proof.
  intros. enough (0 ≤ q - Z.land p q) by lia.
  rewrite Z.sub_nocarry_ldiff; [apply Z.ldiff_nonneg; by left|].
  apply Z.bits_inj'. intros i Hi. rewrite Z.ldiff_spec, Z.land_spec, Z.bits_0.
  destruct (Z.testbit q i); by rewrite ?andb_false_r.
Qed.

Lemma lor_mod p q k : 0 ≤ k → Z.lor p q mod 2 ^ k = Z.lor (p mod 2 ^ k) (q mod 2 ^ k).
Proof. intros. by rewrite <-!Z.land_ones, Z.land_lor_distr_l. Qed.

Lemma land_mod p q k : 0 ≤ k → Z.land p q mod 2 ^ k = Z.land (p mod 2 ^ k) (q mod 2 ^ k).
Proof.
  intros. apply Z.bits_inj'. intros i Hi. rewrite !Z.land_spec, !testbit_mod_pow2, Z.land_spec by done.
  destruct (i <? k), (Z.testbit p i), (Z.testbit q i); done.
Qed.

Lemma shr_pow2_1 k : Z.shiftr (2 ^ Z.of_nat (S k)) 1 = 2 ^ Z.of_nat k.
Proof.
  rewrite Z.shiftr_div_pow2 by lia. rewrite Nat2Z.inj_succ, Z.pow_succ_r by lia.
  rewrite Z.mul_comm. apply Z.div_mul. lia.
Qed.

(** Comparison through prefixes. *)
Lemma prefix_le u v k :
  0 ≤ k →
  Z.shiftr u k < Z.shiftr v k ∨ Z.shiftr u k = Z.shiftr v k ∧ u mod 2 ^ k ≤ v mod 2 ^ k →
  u ≤ v.
Proof.
  intros Hk H. pose proof (decomp u k Hk). pose proof (decomp v k Hk).
  pose proof (mod_pow2_bound u k Hk). pose proof (mod_pow2_bound v k Hk). nia.
Qed.

Lemma prefix_ge_lo x p k : 0 ≤ k → p ≤ Z.shiftr x k → 2 ^ k * p ≤ x.
Proof.
  intros Hk H. pose proof (decomp x k Hk). pose proof (mod_pow2_bound x k Hk). nia.
Qed.

Lemma prefix_le_hi x p k : 0 ≤ k → Z.shiftr x k ≤ p → x ≤ 2 ^ k * p + (2 ^ k - 1).
Proof.
  intros Hk H. pose proof (decomp x k Hk). pose proof (mod_pow2_bound x k Hk). nia.
Qed.

Lemma prefix_mod_le u v k :
  0 ≤ k → u ≤ v → Z.shiftr u k = Z.shiftr v k → u mod 2 ^ k ≤ v mod 2 ^ k.
Proof. intros Hk Huv H. pose proof (decomp u k Hk). pose proof (decomp v k Hk). rewrite H in *. lia. Qed.

Lemma shr_block h l k : 0 ≤ k → 0 ≤ l < 2 ^ k → Z.shiftr (2 ^ k * h + l) k = h.
Proof.
  intros. rewrite Z.shiftr_div_pow2 by done. symmetry. by apply Z.div_unique with l; [left|].
Qed.

Lemma mod_block h l k : 0 ≤ k → 0 ≤ l < 2 ^ k → (2 ^ k * h + l) mod 2 ^ k = l.
Proof. intros. symmetry. by apply Z.mod_unique with h; [left|]. Qed.

Lemma double_prefix z A b k :
  0 ≤ k → Z.shiftr z k = 2 * A + Z.b2z b → Z.shiftr z (k + 1) = A ∧ Z.testbit z k = b.
Proof.
  intros Hk H. rewrite shr_step in H by done.
  destruct (Z.testbit z k), b; simpl in *; split; lia || done.
Qed.

(** What a raised minimum and a lowered maximum look like. *)
Lemma raise_facts a k :
  0 ≤ k → Z.testbit a k = false →
  let t := Z.land (Z.lor a (2 ^ k)) (- 2 ^ k) in
  Z.shiftr t (k + 1) = Z.shiftr a (k + 1) ∧ Z.testbit t k = true ∧ t mod 2 ^ k = 0.
Proof.
  intros Hk Ha t. pose proof (pow2_pos k Hk).
  assert (t = 2 ^ k * (2 * Z.shiftr a (k + 1) + 1) + 0) as -> by (unfold t; rewrite raise_spec by done; lia).
  rewrite mod_block by lia.
  destruct (double_prefix (2 ^ k * (2 * Z.shiftr a (k + 1) + 1) + 0) (Z.shiftr a (k + 1)) true k); auto.
  rewrite shr_block by lia. done.
Qed.

Lemma lower_facts b k :
  0 ≤ k → Z.testbit b k = true →
  let t := Z.lor (b - 2 ^ k) (2 ^ k - 1) in
  Z.shiftr t (k + 1) = Z.shiftr b (k + 1) ∧ Z.testbit t k = false ∧ t mod 2 ^ k = 2 ^ k - 1.
Proof.
  intros Hk Hb t. pose proof (pow2_pos k Hk).
  assert (t = 2 ^ k * (2 * Z.shiftr b (k + 1)) + (2 ^ k - 1)) as -> by (unfold t; by rewrite lower_spec).
  rewrite mod_block by lia.
  destruct (double_prefix (2 ^ k * (2 * Z.shiftr b (k + 1)) + (2 ^ k - 1)) (Z.shiftr b (k + 1)) false k); auto.
  rewrite shr_block by lia. simpl. lia.
Qed.

(** [step_facts z k] records how the prefix of [z] at [k] extends the one at
    [k + 1]. *)
Ltac step_facts z k :=
  let H := fresh "Hstep" in
  pose proof (shr_step z k ltac:(lia)) as H;
  rewrite ?Z.lor_spec, ?Z.land_spec in H.

(** ** The scans are exact *)

(** The invariant of a scan for [x | y] that has passed the positions from
    [k] up: the prefixes agree with the scanned bounds', or the prefix of the
    result already decides the comparison. *)
Definition or_above (k a c x y : Z) : Prop :=
  (Z.shiftr x k = Z.shiftr a k ∧ Z.shiftr y k = Z.shiftr c k) ∨
  Z.shiftr (Z.lor a c) k < Z.shiftr (Z.lor x y) k.

Lemma or_above_eq k a c x y :
  or_above k a c x y →
  Z.shiftr (Z.lor a c) k < Z.shiftr (Z.lor x y) k ∨
  Z.shiftr x k = Z.shiftr a k ∧ Z.shiftr y k = Z.shiftr c k ∧
  Z.shiftr (Z.lor a c) k = Z.shiftr (Z.lor x y) k.
Proof. intros [[E1 E2]|?]; [right|by left]. rewrite !Z.shiftr_lor, E1, E2. done. Qed.

(** A raised [a] together with a [c] whose bit [k] is set is below [x | y]. *)
Lemma or_raise_le a c x y k :
  0 ≤ k → 0 ≤ a ≤ x → 0 ≤ c ≤ y → or_above (k + 1) a c x y →
  Z.testbit a k = false → Z.testbit c k = true →
  Z.lor (Z.land (Z.lor a (2 ^ k)) (- 2 ^ k)) c ≤ Z.lor x y.
Proof.
  intros Hk Ha Hc Hinv Hba Hbc.
  destruct (raise_facts a k) as (Ht1 & Ht2 & Ht3); [done..|].
  set (t := Z.land (Z.lor a (2 ^ k)) (- 2 ^ k)) in *.
  assert (Z.shiftr (Z.lor t c) (k + 1) = Z.shiftr (Z.lor a c) (k + 1)) as Ep by by rewrite !Z.shiftr_lor, Ht1.
  pose proof (shr_mono c y k ltac:(done) ltac:(lia)).
  step_facts (Z.lor t c) k. step_facts (Z.lor x y) k. step_facts y k. step_facts c k.
  rewrite Hbc, orb_true_r in *. apply prefix_le with k; [done|].
  apply or_above_eq in Hinv as [Hlt|(E1 & E2 & E3)].
  - left. destruct (Z.testbit x k || Z.testbit y k); simpl in *; lia.
  - assert (Z.testbit y k = true) as Hby by (destruct (Z.testbit y k); [done|simpl in *; lia]).
    rewrite Hby, orb_true_r in *. right. split; [lia|].
    rewrite !lor_mod, Ht3, Z.lor_0_l by done.
    pose proof (mod_pow2_bound x k Hk). pose proof (mod_pow2_bound y k Hk).
    etransitivity; [|apply lor_ge_r; lia]. apply prefix_mod_le; [done|lia|lia].
Qed.

(** Bit [k] of a value that agrees with a bound above [k] but that a raised
    (lowered) candidate excludes. *)
Lemma raise_excludes a x k :
  0 ≤ k → Z.testbit a k = false → x < Z.land (Z.lor a (2 ^ k)) (- 2 ^ k) →
  Z.shiftr x (k + 1) = Z.shiftr a (k + 1) → Z.testbit x k = false.
Proof.
  intros Hk Hba Hlt E. rewrite raise_spec in Hlt by done. step_facts x k.
  destruct (Z.testbit x k); [|done]. simpl in *.
  pose proof (prefix_ge_lo x (2 * Z.shiftr a (k + 1) + 1) k Hk). lia.
Qed.

Lemma lower_excludes b x k :
  0 ≤ k → Z.testbit b k = true → Z.lor (b - 2 ^ k) (2 ^ k - 1) < x →
  Z.shiftr x (k + 1) = Z.shiftr b (k + 1) → Z.testbit x k = true.
Proof.
  intros Hk Hbb Hlt E. rewrite lower_spec in Hlt by done. step_facts x k.
  destruct (Z.testbit x k); [done|]. simpl in *.
  pose proof (prefix_le_hi x (2 * Z.shiftr b (k + 1)) k Hk). lia.
Qed.

Lemma or_above_comm k a c x y : or_above k a c x y → or_above k c a y x.
Proof. unfold or_above. rewrite (Z.lor_comm c), (Z.lor_comm y). tauto. Qed.

(** One iteration of a scan.  [scan_start] normalises the mask to [2^K],
    [scan_bits] turns the mask tests into bit tests, and [scan_close] settles
    the iterations that find no candidate, by cases on the operands' bits. *)
Ltac scan_start k K HK Hinv :=
  rewrite shr_pow2_1;
  assert (0 ≤ Z.of_nat k) as HK by lia;
  replace (Z.of_nat (S k)) with (Z.of_nat k + 1) in Hinv by lia;
  set (K := Z.of_nat k) in *;
  pose proof (pow2_pos K HK).

Ltac scan_bits K :=
  destruct (Z.eqb_spec (2 ^ K) 0); [lia|];
  rewrite ?bit_set_spec, ?Z.land_spec, ?Z.lnot_spec by done.

Ltac scan_close Hinv Hx Hy :=
  let E1 := fresh in let E2 := fresh in
  repeat match goal with
    | H : context [Z.b2z (Z.testbit ?z ?k)] |- _ => destruct (Z.testbit z k)
    | H : context [Z.b2z (Z.testbit ?z ?k || _)] |- _ => destruct (Z.testbit z k)
    | H : context [Z.b2z (Z.testbit ?z ?k && _)] |- _ => destruct (Z.testbit z k)
    end; simpl in *;
  (destruct Hinv as [?|(E1 & E2 & ?)]; [right; lia|]);
  try specialize (Hx eq_refl ltac:(lia) ltac:(lia));
  try specialize (Hy eq_refl ltac:(lia) ltac:(lia));
  try discriminate;
  first [left; split; lia | right; lia].

Lemma min_or_loop_le k a b c d x y :
  0 ≤ a ≤ x → x ≤ b → 0 ≤ c ≤ y → y ≤ d → or_above (Z.of_nat k) a c x y →
  min_or_loop (S k) (Z.shiftr (2 ^ Z.of_nat k) 1) a b c d ≤ Z.lor x y.
Proof.
  intros Ha Hb Hc Hd. induction k as [|k IH]; intros Hinv.
  - change (Z.of_nat 0) with 0 in *. apply or_above_eq in Hinv. rewrite !Z.shiftr_0_r in Hinv.
    change (Z.lor a c ≤ Z.lor x y). destruct Hinv as [?|(-> & -> & _)]; lia.
  - scan_start k K HK Hinv. cbn [min_or_loop]. scan_bits K.
    pose proof (or_above_eq _ _ _ _ _ Hinv) as Hinv'.
    pose proof (raise_excludes a x K HK) as Hx. pose proof (raise_excludes c y K HK) as Hy.
    pose proof (shr_mono a x K HK ltac:(lia)). pose proof (shr_mono c y K HK ltac:(lia)).
    step_facts a K. step_facts c K. step_facts x K. step_facts y K.
    step_facts (Z.lor a c) K. step_facts (Z.lor x y) K.
    destruct (Z.testbit a K) eqn:Ea, (Z.testbit c K) eqn:Ec; simpl.
    3: destruct (Z.leb_spec (Z.land (Z.lor a (2 ^ K)) (- 2 ^ K)) b); [by apply or_raise_le|].
    2: destruct (Z.leb_spec (Z.land (Z.lor c (2 ^ K)) (- 2 ^ K)) d);
       [rewrite (Z.lor_comm a), (Z.lor_comm x); apply or_raise_le; try done; by apply or_above_comm|].
    all: apply IH; unfold or_above.
    all: scan_close Hinv' Hx Hy.
Qed.

(** A lowered [b] together with a [d] whose bit [k] is set is above [x | y]. *)
Lemma or_lower_ge b d x y k :
  0 ≤ k → 0 ≤ x ≤ b → 0 ≤ y ≤ d → or_above (k + 1) x y b d →
  Z.testbit b k = true → Z.testbit d k = true →
  Z.lor x y ≤ Z.lor (Z.lor (b - 2 ^ k) (2 ^ k - 1)) d.
Proof.
  intros Hk Hx Hy Hinv Hbb Hbd.
  destruct (lower_facts b k) as (Ht1 & Ht2 & Ht3); [done..|].
  set (t := Z.lor (b - 2 ^ k) (2 ^ k - 1)) in *.
  assert (Z.shiftr (Z.lor t d) (k + 1) = Z.shiftr (Z.lor b d) (k + 1)) as Ep by by rewrite !Z.shiftr_lor, Ht1.
  pose proof (pow2_pos k Hk). pose proof (mod_pow2_bound d k Hk). pose proof (mod_pow2_bound (Z.lor x y) k Hk).
  assert (2 ^ k - 1 ≤ Z.lor t d mod 2 ^ k).
  { rewrite lor_mod, Ht3, Z.lor_comm by done. apply lor_ge_r; lia. }
  step_facts (Z.lor t d) k. step_facts (Z.lor x y) k.
  rewrite Hbd, orb_true_r in *. apply prefix_le with k; [done|].
  apply or_above_eq in Hinv as [Hlt|(E1 & E2 & E3)];
    destruct (Z.testbit x k || Z.testbit y k); simpl in *; lia.
Qed.

Lemma max_or_loop_ge k a b c d x y :
  0 ≤ a ≤ x → x ≤ b → 0 ≤ c ≤ y → y ≤ d → or_above (Z.of_nat k) x y b d →
  Z.lor x y ≤ max_or_loop (S k) (Z.shiftr (2 ^ Z.of_nat k) 1) a b c d.
Proof.
  intros Ha Hb Hc Hd. induction k as [|k IH]; intros Hinv.
  - change (Z.of_nat 0) with 0 in *. apply or_above_eq in Hinv. rewrite !Z.shiftr_0_r in Hinv.
    change (Z.lor x y ≤ Z.lor b d). destruct Hinv as [?|(-> & -> & _)]; lia.
  - scan_start k K HK Hinv. cbn [max_or_loop]. scan_bits K.
    pose proof (or_above_eq _ _ _ _ _ Hinv) as Hinv'.
    pose proof (lower_excludes b x K HK) as Hx. pose proof (lower_excludes d y K HK) as Hy.
    pose proof (shr_mono x b K HK ltac:(lia)). pose proof (shr_mono y d K HK ltac:(lia)).
    step_facts x K. step_facts y K. step_facts b K. step_facts d K.
    step_facts (Z.lor x y) K. step_facts (Z.lor b d) K.
    destruct (Z.testbit b K) eqn:Eb, (Z.testbit d K) eqn:Ed; simpl.
    1: destruct (Z.leb_spec a (Z.lor (b - 2 ^ K) (2 ^ K - 1))); [apply or_lower_ge; done || lia|].
    1: destruct (Z.leb_spec c (Z.lor (d - 2 ^ K) (2 ^ K - 1)));
       [rewrite (Z.lor_comm x), (Z.lor_comm b); apply or_lower_ge; try done || lia; by apply or_above_comm|].
    all: apply IH; unfold or_above.
    all: scan_close Hinv' Hx Hy.
Qed.

(** The corresponding invariant for [x & y]. *)
Definition and_above (k a c x y : Z) : Prop :=
  (Z.shiftr x k = Z.shiftr a k ∧ Z.shiftr y k = Z.shiftr c k) ∨
  Z.shiftr (Z.land a c) k < Z.shiftr (Z.land x y) k.

Lemma and_above_eq k a c x y :
  and_above k a c x y →
  Z.shiftr (Z.land a c) k < Z.shiftr (Z.land x y) k ∨
  Z.shiftr x k = Z.shiftr a k ∧ Z.shiftr y k = Z.shiftr c k ∧
  Z.shiftr (Z.land a c) k = Z.shiftr (Z.land x y) k.
Proof. intros [[E1 E2]|?]; [right|by left]. rewrite !Z.shiftr_land, E1, E2. done. Qed.

Lemma and_above_comm k a c x y : and_above k a c x y → and_above k c a y x.
Proof. unfold and_above. rewrite (Z.land_comm c), (Z.land_comm y). tauto. Qed.

Lemma and_raise_le a c x y k :
  0 ≤ k → 0 ≤ a ≤ x → 0 ≤ c ≤ y → and_above (k + 1) a c x y →
  Z.testbit a k = false → Z.testbit c k = false →
  Z.land (Z.land (Z.lor a (2 ^ k)) (- 2 ^ k)) c ≤ Z.land x y.
Proof.
  intros Hk Ha Hc Hinv Hba Hbc.
  destruct (raise_facts a k) as (Ht1 & Ht2 & Ht3); [done..|].
  set (t := Z.land (Z.lor a (2 ^ k)) (- 2 ^ k)) in *.
  assert (Z.shiftr (Z.land t c) (k + 1) = Z.shiftr (Z.land a c) (k + 1)) as Ep by by rewrite !Z.shiftr_land, Ht1.
  pose proof (mod_pow2_bound (Z.land x y) k Hk).
  assert (Z.land t c mod 2 ^ k = 0) by by rewrite land_mod, Ht3, Z.land_0_l.
  step_facts (Z.land t c) k. step_facts (Z.land x y) k.
  rewrite Hbc, andb_false_r in *. apply prefix_le with k; [done|].
  apply and_above_eq in Hinv as [Hlt|(E1 & E2 & E3)];
    destruct (Z.testbit x k && Z.testbit y k); simpl in *; lia.
Qed.

Lemma and_lower_ge b d x y k :
  0 ≤ k → 0 ≤ x ≤ b → 0 ≤ y ≤ d → and_above (k + 1) x y b d →
  Z.testbit b k = true → Z.testbit d k = false →
  Z.land x y ≤ Z.land (Z.lor (Z.land b (Z.lnot (2 ^ k))) (2 ^ k - 1)) d.
Proof.
  intros Hk Hx Hy Hinv Hbb Hbd. rewrite clear_spec by done.
  destruct (lower_facts b k) as (Ht1 & Ht2 & Ht3); [done..|].
  set (t := Z.lor (b - 2 ^ k) (2 ^ k - 1)) in *.
  assert (Z.shiftr (Z.land t d) (k + 1) = Z.shiftr (Z.land b d) (k + 1)) as Ep by by rewrite !Z.shiftr_land, Ht1.
  pose proof (shr_mono y d k Hk ltac:(lia)).
  step_facts (Z.land t d) k. step_facts (Z.land x y) k. step_facts y k. step_facts d k.
  rewrite Hbd, andb_false_r in *. apply prefix_le with k; [done|].
  apply and_above_eq in Hinv as [Hlt|(E1 & E2 & E3)].
  - left. destruct (Z.testbit x k && Z.testbit y k); simpl in *; lia.
  - assert (Z.testbit y k = false) as Hby by (destruct (Z.testbit y k); [simpl in *; lia|done]).
    rewrite Hby, andb_false_r in *. right. split; [lia|].
    rewrite !land_mod, Ht3 by done. pose proof (mod_pow2_bound y k Hk). pose proof (mod_pow2_bound d k Hk).
    rewrite (Z.land_comm (2 ^ k - 1)), land_mask, (Z.mod_small (d mod _)) by lia.
    etransitivity; [apply land_le_r; lia|]. apply prefix_mod_le; [done|lia|lia].
Qed.

Lemma min_and_loop_le k a b c d x y :
  0 ≤ a ≤ x → x ≤ b → 0 ≤ c ≤ y → y ≤ d → and_above (Z.of_nat k) a c x y →
  min_and_loop (S k) (Z.shiftr (2 ^ Z.of_nat k) 1) a b c d ≤ Z.land x y.
Proof.
  intros Ha Hb Hc Hd. induction k as [|k IH]; intros Hinv.
  - change (Z.of_nat 0) with 0 in *. apply and_above_eq in Hinv. rewrite !Z.shiftr_0_r in Hinv.
    change (Z.land a c ≤ Z.land x y). destruct Hinv as [?|(-> & -> & _)]; lia.
  - scan_start k K HK Hinv. cbn [min_and_loop]. scan_bits K.
    pose proof (and_above_eq _ _ _ _ _ Hinv) as Hinv'.
    pose proof (raise_excludes a x K HK) as Hx. pose proof (raise_excludes c y K HK) as Hy.
    pose proof (shr_mono a x K HK ltac:(lia)). pose proof (shr_mono c y K HK ltac:(lia)).
    step_facts x K. step_facts y K. step_facts a K. step_facts c K.
    step_facts (Z.land x y) K. step_facts (Z.land a c) K.
    destruct (Z.testbit a K) eqn:Ea, (Z.testbit c K) eqn:Ec; simpl.
    4: destruct (Z.leb_spec (Z.land (Z.lor a (2 ^ K)) (- 2 ^ K)) b); [apply and_raise_le; done || lia|].
    4: destruct (Z.leb_spec (Z.land (Z.lor c (2 ^ K)) (- 2 ^ K)) d);
       [rewrite (Z.land_comm a), (Z.land_comm x); apply and_raise_le; try done || lia; by apply and_above_comm|].
    all: apply IH; unfold and_above.
    all: scan_close Hinv' Hx Hy.
Qed.

Lemma max_and_loop_ge k a b c d x y :
  0 ≤ a ≤ x → x ≤ b → 0 ≤ c ≤ y → y ≤ d → and_above (Z.of_nat k) x y b d →
  Z.land x y ≤ max_and_loop (S k) (Z.shiftr (2 ^ Z.of_nat k) 1) a b c d.
Proof.
  intros Ha Hb Hc Hd. induction k as [|k IH]; intros Hinv.
  - change (Z.of_nat 0) with 0 in *. apply and_above_eq in Hinv. rewrite !Z.shiftr_0_r in Hinv.
    change (Z.land x y ≤ Z.land b d). destruct Hinv as [?|(-> & -> & _)]; lia.
  - scan_start k K HK Hinv. cbn [max_and_loop]. scan_bits K.
    pose proof (and_above_eq _ _ _ _ _ Hinv) as Hinv'.
    pose proof (lower_excludes b x K HK) as Hx. pose proof (lower_excludes d y K HK) as Hy.
    pose proof (shr_mono x b K HK ltac:(lia)). pose proof (shr_mono y d K HK ltac:(lia)).
    step_facts x K. step_facts y K. step_facts b K. step_facts d K.
    step_facts (Z.land x y) K. step_facts (Z.land b d) K.
    destruct (Z.testbit b K) eqn:Eb, (Z.testbit d K) eqn:Ed; simpl.
    2: destruct (Z.leb_spec a (Z.lor (Z.land b (Z.lnot (2 ^ K))) (2 ^ K - 1))); [apply and_lower_ge; done || lia|].
    3: destruct (Z.leb_spec c (Z.lor (Z.land d (Z.lnot (2 ^ K))) (2 ^ K - 1)));
       [rewrite (Z.land_comm x), (Z.land_comm b); apply and_lower_ge; try done || lia; by apply and_above_comm|].
    all: rewrite ?clear_spec in * by done.
    all: apply IH; unfold and_above.
    all: scan_close Hinv' Hx Hy.
Qed.

(** ** The bounds are attained *)

Lemma raise_ge a k : 0 ≤ k → Z.testbit a k = false → a ≤ Z.land (Z.lor a (2 ^ k)) (- 2 ^ k).
Proof.
  intros Hk Ha. rewrite raise_spec by done.
  pose proof (shr_step a k Hk) as Hs. rewrite Ha in Hs. simpl in Hs.
  pose proof (prefix_le_hi a (2 * Z.shiftr a (k + 1)) k Hk). lia.
Qed.

Lemma lower_le b k : 0 ≤ k → Z.testbit b k = true → Z.lor (b - 2 ^ k) (2 ^ k - 1) ≤ b.
Proof.
  intros Hk Hb. rewrite lower_spec by done.
  pose proof (shr_step b k Hk) as Hs. rewrite Hb in Hs. simpl in Hs.
  pose proof (prefix_ge_lo b (2 * Z.shiftr b (k + 1) + 1) k Hk). lia.
Qed.

(** [attains f op a b c d]: [f] is [op x y] for some operands in range. *)
Definition attains (op : Z → Z → Z) (a b c d v : Z) : Prop :=
  ∃ x y, a ≤ x ≤ b ∧ c ≤ y ≤ d ∧ v = op x y.

Ltac attain_scan a b c d k IH loop :=
  rewrite shr_pow2_1; set (n := S k) in *; clearbody n; cbn [loop];
  assert (0 ≤ Z.of_nat k) as HK by lia; set (K := Z.of_nat k) in *; pose proof (pow2_pos K HK);
  scan_bits K;
  pose proof (raise_ge a K HK); pose proof (raise_ge c K HK);
  pose proof (lower_le b K HK); pose proof (lower_le d K HK);
  pose proof (clear_spec b K HK) as Hclb; pose proof (clear_spec d K HK) as Hcld;
  destruct (Z.testbit a K), (Z.testbit b K), (Z.testbit c K), (Z.testbit d K); simpl;
  rewrite ?Hclb, ?Hcld by done;
  repeat match goal with |- context [?p <=? ?q] => destruct (Z.leb_spec p q) end;
  try exact IH; do 2 eexists; (split; [|split; [|reflexivity]]);
  repeat match goal with H : ?x = ?x → _ |- _ => specialize (H eq_refl) end; lia.

Lemma loops_attain k a b c d :
  a ≤ b → c ≤ d →
  attains Z.lor a b c d (min_or_loop (S k) (Z.shiftr (2 ^ Z.of_nat k) 1) a b c d) ∧
  attains Z.lor a b c d (max_or_loop (S k) (Z.shiftr (2 ^ Z.of_nat k) 1) a b c d) ∧
  attains Z.land a b c d (min_and_loop (S k) (Z.shiftr (2 ^ Z.of_nat k) 1) a b c d) ∧
  attains Z.land a b c d (max_and_loop (S k) (Z.shiftr (2 ^ Z.of_nat k) 1) a b c d).
Proof.
  intros Hab Hcd. unfold attains. induction k as [|k (IH1 & IH2 & IH3 & IH4)].
  - repeat split; do 2 eexists; (split; [|split; [|reflexivity]]); lia.
  - repeat split.
    + attain_scan a b c d k IH1 min_or_loop.
    + attain_scan a b c d k IH2 max_or_loop.
    + attain_scan a b c d k IH3 min_and_loop.
    + attain_scan a b c d k IH4 max_and_loop.
Qed.

(** ** Properties *)

(** [exact_min op a b c d v]: [v] is the least value of [op] on the box. *)
Definition exact_min (op : Z → Z → Z) (a b c d v : Z) : Prop :=
  attains op a b c d v ∧ ∀ x y, a ≤ x ≤ b → c ≤ y ≤ d → v ≤ op x y.

Definition exact_max (op : Z → Z → Z) (a b c d v : Z) : Prop :=
  attains op a b c d v ∧ ∀ x y, a ≤ x ≤ b → c ≤ y ≤ d → op x y ≤ v.

Lemma shr_below x w : 0 ≤ w → 0 ≤ x < 2 ^ w → Z.shiftr x w = 0.
Proof. intros. rewrite Z.shiftr_div_pow2 by done. by apply Z.div_small. Qed.

(** The scan of [w + 1] iterations that the entry points start. *)
Lemma scan_entry w :
  1 ≤ w → py_shl 1 (w - 1) = Ok (Z.shiftr (2 ^ Z.of_nat (Z.to_nat w)) 1).
Proof.
  intros Hw. rewrite py_shl_nonneg, shiftl_1 by lia.
  replace (Z.to_nat w) with (S (Z.to_nat (w - 1))) by lia.
  rewrite shr_pow2_1. do 2 f_equal. lia.
Qed.

Lemma or_bounds a b c d w :
  1 ≤ w → 0 ≤ a ≤ b → b < 2 ^ w → 0 ≤ c ≤ d → d < 2 ^ w →
  (∃ v, min_or a b c d w = Ok v ∧ exact_min Z.lor a b c d v) ∧
  (∃ v, max_or a b c d w = Ok v ∧ exact_max Z.lor a b c d v).
Proof.
  intros Hw Ha Hb Hc Hd. unfold min_or, max_or.
  rewrite scan_entry by done. cbn [mbind result_bind].
  destruct (loops_attain (Z.to_nat w) a b c d) as (A1 & A2 & _ & _); [lia..|].
  assert (∀ x y, 0 ≤ x < 2 ^ w → 0 ≤ y < 2 ^ w →
    Z.shiftr x (Z.of_nat (Z.to_nat w)) = Z.shiftr y (Z.of_nat (Z.to_nat w))) as Hpre.
  { intros. rewrite !shr_below; rewrite ?Z2Nat.id by lia; lia || done. }
  repeat split; eexists; (split; [done|]); split; try done; intros x y Hx Hy.
  - apply min_or_loop_le; try lia. left; split; apply Hpre; lia.
  - apply max_or_loop_ge; try lia. left; split; apply Hpre; lia.
Qed.

(** C32: For intervals [a, b] and [c, d] of [w]-bit numbers, [min_or],
    [max_or], [min_and] and [max_and] return (they do not run out of
    iterations) the exact minimum and maximum of [x | y] and of [x & y] over
    the two intervals. *)
Theorem or_and_bounds_exact (a b c d w : Z) :
  1 ≤ w → 0 ≤ a ≤ b → b < 2 ^ w → 0 ≤ c ≤ d → d < 2 ^ w →
  (∃ v, min_or a b c d w = Ok v ∧ exact_min Z.lor a b c d v) ∧
  (∃ v, max_or a b c d w = Ok v ∧ exact_max Z.lor a b c d v) ∧
  (∃ v, min_and a b c d w = Ok v ∧ exact_min Z.land a b c d v) ∧
  (∃ v, max_and a b c d w = Ok v ∧ exact_max Z.land a b c d v).
Proof.
  intros Hw Ha Hb Hc Hd. destruct (or_bounds a b c d w) as [B1 B2]; try done.
  split; [done|]. split; [done|]. unfold min_and, max_and.
  rewrite scan_entry by done. cbn [mbind result_bind].
  destruct (loops_attain (Z.to_nat w) a b c d) as (_ & _ & A3 & A4); [lia..|].
  assert (∀ x y, 0 ≤ x < 2 ^ w → 0 ≤ y < 2 ^ w →
    Z.shiftr x (Z.of_nat (Z.to_nat w)) = Z.shiftr y (Z.of_nat (Z.to_nat w))) as Hpre.
  { intros. rewrite !shr_below; rewrite ?Z2Nat.id by lia; lia || done. }
  repeat split; eexists; (split; [done|]); split; try done; intros x y Hx Hy.
  - apply min_and_loop_le; try lia. left; split; apply Hpre; lia.
  - apply max_and_loop_ge; try lia. left; split; apply Hpre; lia.
Qed.

Lemma or_and_bounds_exact_witness :
  min_or 0x0A 0x13 0x05 0x16 5 = Ok 0x0A ∧
  ∃ v, min_or 0x0A 0x13 0x05 0x16 5 = Ok v ∧ exact_min Z.lor 0x0A 0x13 0x05 0x16 v.
Proof.
  split; [vm_compute; reflexivity|].
  apply (or_and_bounds_exact 0x0A 0x13 0x05 0x16 5); lia.
Defined.

End Warren.
