(* ===== verification/StridedInterval.v ===== *)
(** * Strided intervals: [claripy/backends/backend_vsa/strided_interval.py], part 1

    The value class, its normalisation, the predicates and modular helpers, the
    splits at the two poles, the bounds, and the eight order comparisons.

    A [StridedInterval] [<bits>stride[lower, upper]] stands for the integers
    [lower, lower + stride, ...] met on the way up (wrapping at [2^bits]) from
    [lower] to [upper].  The attribute [_name], a label drawn from a global
    counter, is not part of the record: no operation of these files reads it
    (only [eq] does).  Operands that are [ValueSet]s or
    [DiscreteStridedIntervalSet]s are other components and not modelled here. *)

From Stdlib Require Import ZArith Lia Bool Znumtheory.
From stdpp Require Import base tactics list numbers.
From S2P Require Import Prelude Bvv BoolResult.

Module SI.
Import BoolResult.

(** ** Data *)

Record SI := mkSI {
  bits : Z;
  stride : Z;
  lower_bound : Z;
  upper_bound : Z;
  uninitialized : bool;
  is_bottom : bool;
  reversed : bool }.

#[export] Instance SI_eq_dec : EqDecision SI.
Proof. solve_decision. Defined.

Inductive operand :=
  | Si (s : SI)
  | Num (n : Z).

(** Attribute updates [si._bits = ..], [si._stride = ..], ... *)
Definition set_bits (s : SI) (v : Z) : SI :=
  mkSI v (stride s) (lower_bound s) (upper_bound s) (uninitialized s) (is_bottom s) (reversed s).
Definition set_stride (s : SI) (v : Z) : SI :=
  mkSI (bits s) v (lower_bound s) (upper_bound s) (uninitialized s) (is_bottom s) (reversed s).
Definition set_lower (s : SI) (v : Z) : SI :=
  mkSI (bits s) (stride s) v (upper_bound s) (uninitialized s) (is_bottom s) (reversed s).
Definition set_upper (s : SI) (v : Z) : SI :=
  mkSI (bits s) (stride s) (lower_bound s) v (uninitialized s) (is_bottom s) (reversed s).
Definition set_uninitialized (s : SI) (v : bool) : SI :=
  mkSI (bits s) (stride s) (lower_bound s) (upper_bound s) v (is_bottom s) (reversed s).
Definition set_reversed (s : SI) (v : bool) : SI :=
  mkSI (bits s) (stride s) (lower_bound s) (upper_bound s) (uninitialized s) (is_bottom s) v.

(** ** Modular arithmetic and small helpers *)

Definition _modular_add (a b bits : Z) : Z := (a + b) mod 2 ^ bits.
Definition _modular_sub (a b bits : Z) : Z := (a - b) mod 2 ^ bits.
Definition _modular_mul (a b bits : Z) : Z := (a * b) mod 2 ^ bits.

Definition highbit (k : Z) : Z := Z.shiftl 1 (k - 1).
Definition max_int (k : Z) : Z := highbit (k + 1) - 1.
Definition min_int (k : Z) : Z := - highbit k.
Definition signed_max_int (k : Z) : Z := 2 ^ (k - 1) - 1.
Definition signed_min_int (k : Z) : Z := - 2 ^ (k - 1).
Definition _to_negative (a bits : Z) : Z := - (Z.shiftl 1 bits - a).

(** [StridedInterval.upper] and [.lower]: the extreme integers congruent to [i]
    modulo the stride. *)
Definition upper (bits i stride : Z) : Z :=
  if 1 <=? stride then
    let offset := i mod stride in
    let max := max_int bits in
    let max_offset := max mod stride in
    if offset <=? max_offset then max - (max_offset - offset)
    else max - (max_offset + stride - offset)
  else max_int bits.

Definition lower (bits i stride : Z) : Z :=
  if 1 <=? stride then
    let offset := i mod stride in
    let min := min_int bits in
    let min_offset := min mod stride in
    if min_offset <=? offset then min + (offset - min_offset)
    else min + (offset + stride - min_offset)
  else min_int bits.

Definition _wrapped_cardinality (x y bits : Z) : Z :=
  if x =? (y + 1) mod 2 ^ bits then 2 ^ bits
  else Z.land (y - x + 1) (2 ^ bits - 1).

Definition _is_msb_zero (v bits : Z) : bool :=
  Z.land (Z.land v (2 ^ bits - 1)) (2 ^ (bits - 1)) =? 0.
Definition _is_msb_one (v bits : Z) : bool := negb (_is_msb_zero v bits).
Definition _get_msb (v bits : Z) : Z := if _is_msb_zero v bits then 0 else 1.
Definition _unsigned_to_signed (v bits : Z) : Z :=
  if _is_msb_zero v bits then v else - (2 ^ bits - v).

Definition _lex_lte (x y bits : Z) : bool :=
  Z.land x (2 ^ bits - 1) <=? Z.land y (2 ^ bits - 1).
Definition _lex_lt (x y bits : Z) : bool :=
  Z.land x (2 ^ bits - 1) <? Z.land y (2 ^ bits - 1).

(** ** Construction *)

(** [is_empty] is [is_bottom]. *)
Definition is_empty (s : SI) : bool := is_bottom s.

Definition normalize (s : SI) : result SI :=
  let s := if (bits s =? 8) && reversed s then set_reversed s false else s in
  if is_empty s then Ok s
  else
    let lb := Z.land (lower_bound s) (2 ^ bits s - 1) in
    let ub := Z.land (upper_bound s) (2 ^ bits s - 1) in
    let st := if lb =? ub then 0 else stride s in
    let lb := if lb <? 0 then Z.land lb (2 ^ bits s - 1) else lb in
    let '(lb, ub) :=
      if (lb =? _modular_add ub 1 (bits s)) && (st =? 1)
      then (0, max_int (bits s)) else (lb, ub) in
    if st <? 0 then Err ClaripyVSAError
    else Ok (set_upper (set_lower (set_stride s st) lb) ub).

(** [StridedInterval(bits=, stride=, lower_bound=, upper_bound=, uninitialized=,
    bottom=, reversed=)]. *)
Definition new_full (bits stride lb ub : Z) (uninit bottom reversed : bool) : result SI :=
  normalize (mkSI bits stride lb ub uninit bottom reversed).

(** The same with [bottom] and [reversed] left at their defaults. *)
Definition new (bits stride lb ub : Z) (uninit : bool) : result SI :=
  new_full bits stride lb ub uninit false false.

Definition top (bits : Z) (uninit : bool) : result SI :=
  new bits 1 0 (max_int bits) uninit.

(** [StridedInterval(bits=bits, bottom=True)]: stride and bounds at their
    defaults. *)
Definition empty (bits : Z) : result SI := new_full bits 1 0 (2 ^ bits - 1) false true false.

Definition copy (s : SI) : result SI :=
  new_full (bits s) (stride s) (lower_bound s) (upper_bound s)
    (uninitialized s) (is_bottom s) (reversed s).

(** [nameless_copy] differs from [copy] in the label only. *)
Definition nameless_copy (s : SI) : result SI :=
  new_full (bits s) (stride s) (lower_bound s) (upper_bound s)
    (uninitialized s) (is_bottom s) (reversed s).

(** ** Predicates *)

Definition is_integer (s : SI) : bool := lower_bound s =? upper_bound s.
Definition is_interval (s : SI) : bool := negb (is_integer s).
Definition is_top (s : SI) : bool :=
  (stride s =? 1) && (lower_bound s =? _modular_add (upper_bound s) 1 (bits s)).

Definition cardinality (s : SI) : result Z :=
  if is_empty s then Ok 0
  else if is_integer s then Ok 1
  else py_floordiv (_modular_sub (upper_bound s) (lower_bound s) (bits s) + stride s) (stride s).

Definition n_values (s : SI) : result Z :=
  q ← py_floordiv (_wrapped_cardinality (lower_bound s) (upper_bound s) (bits s)) (stride s);
  Ok (q + 1).

Definition identical (s o : SI) : bool :=
  (bits s =? bits o) && (stride s =? stride o) &&
  (lower_bound s =? lower_bound o) && (upper_bound s =? upper_bound o).

Definition _surrounds_member (s : SI) (v : Z) : bool :=
  _lex_lte (v - lower_bound s) (upper_bound s - lower_bound s) (bits s).

Definition _is_surrounded (a b : SI) : bool :=
  if is_empty a then true
  else if is_top a && is_top b then true
  else if is_top a then false
  else if is_top b then true
  else
    _surrounds_member b (lower_bound a) && _surrounds_member b (upper_bound a) &&
    (((lower_bound b =? lower_bound a) && (upper_bound b =? upper_bound a)) ||
     negb (_surrounds_member a (lower_bound b)) || negb (_surrounds_member a (upper_bound b))).

Definition complement (s : SI) : result SI :=
  if is_empty s then top (bits s) false
  else if is_top s then empty (bits s)
  else
    let y_plus_1 := _modular_add (upper_bound s) 1 (bits s) in
    let x_minus_1 := _modular_sub (lower_bound s) 1 (bits s) in
    let dist := _wrapped_cardinality y_plus_1 x_minus_1 (bits s) - 1 in
    let new_stride :=
      if dist <? 0 then 0
      else if stride s =? 0 then 1
      else Z.gcd (stride s) dist in
    new (bits s) new_stride y_plus_1 x_minus_1 (uninitialized s).

Definition _gap (src tar : SI) : result SI :=
  if negb (bits src =? bits tar) then Err AssertionError
  else
    let b := upper_bound src in
    let c := lower_bound tar in
    if negb (_surrounds_member tar b) && negb (_surrounds_member src c)
    then i ← new (bits src) 1 c b false; complement i
    else empty (bits src).

(** ** Splitting at the poles *)

Definition _ssplit (s : SI) : result (list SI) :=
  let south_pole_right := max_int (bits s) in
  if upper_bound s <? lower_bound s then
    r ← py_mod (south_pole_right - lower_bound s) (stride s);
    let a_upper_bound := south_pole_right - r in
    a ← new (bits s) (stride s) (lower_bound s) a_upper_bound (uninitialized s);
    let b_lower_bound := _modular_add a_upper_bound (stride s) (bits s) in
    b ← new (bits s) (stride s) b_lower_bound (upper_bound s) (uninitialized s);
    Ok [a; b]
  else
    c ← copy s; Ok [c].

Definition straddles_north (s : SI) : bool :=
  let north_pole_left := max_int (bits s - 1) in
  let north_pole_right := 2 ^ (bits s - 1) in
  if north_pole_right <=? upper_bound s then
    if upper_bound s <? lower_bound s then true
    else lower_bound s <=? north_pole_left
  else (upper_bound s <? lower_bound s) && (lower_bound s <=? north_pole_left).

Definition _nsplit (s : SI) : result (list SI) :=
  let north_pole_left := max_int (bits s - 1) in
  if straddles_north s then
    r ← py_mod (north_pole_left - lower_bound s) (stride s);
    let a_upper_bound := north_pole_left - r in
    a ← new (bits s) (stride s) (lower_bound s) a_upper_bound (uninitialized s);
    let b_lower_bound := a_upper_bound + stride s in
    b ← new (bits s) (stride s) b_lower_bound (upper_bound s) (uninitialized s);
    Ok [a; b]
  else
    c ← copy s; Ok [c].

Definition _psplit (s : SI) : result (list SI) :=
  nsplit_list ← _nsplit s;
  parts ← mapM _ssplit nsplit_list;
  Ok (concat parts).

(** ** Bounds *)

Definition _signed_bounds (s : SI) : result (list (Z * Z)) :=
  nsplit ← _nsplit s;
  match nsplit with
  | [a] => Ok [(_unsigned_to_signed (lower_bound a) (bits s), _unsigned_to_signed (upper_bound a) (bits s))]
  | [a; b] =>
      Ok [(lower_bound a, upper_bound a);
          (_unsigned_to_signed (lower_bound b) (bits s), _unsigned_to_signed (upper_bound b) (bits s))]
  | _ => Err ClaripyVSAError
  end.

Definition _unsigned_bounds (s : SI) : result (list (Z * Z)) :=
  ssplit ← _ssplit s;
  match ssplit with
  | [a] => Ok [(lower_bound a, upper_bound a)]
  | [a; b] => Ok [(lower_bound a, upper_bound a); (lower_bound b, upper_bound b)]
  | _ => Err ClaripyVSAError
  end.

(** [max] and [min] of an interval that is not reversed. *)
Definition py_max (l : list Z) : result Z :=
  match l with [] => Err ValueError | x :: l => Ok (foldl Z.max x l) end.
Definition py_min (l : list Z) : result Z :=
  match l with [] => Err ValueError | x :: l => Ok (foldl Z.min x l) end.

Definition max_unrev (s : SI) (signed : bool) : result (option Z) :=
  if is_empty s then Ok None
  else
    split ← (if signed then _signed_bounds s else _unsigned_bounds s);
    m ← py_max (snd <$> split); Ok (Some m).

Definition min_unrev (s : SI) (signed : bool) : result (option Z) :=
  if is_empty s then Ok None
  else
    split ← (if signed then _signed_bounds s else _unsigned_bounds s);
    m ← py_min (fst <$> split); Ok (Some m).

(** [eval] of an interval that is not reversed.  The [while] loop appends one
    value per iteration while fewer than [n] are collected, so [n] iterations
    are enough for it. *)
Fixpoint eval_while (fuel : nat) (n stride lb ub : Z) (results : list Z) : list Z :=
  match fuel with
  | O => results
  | S fuel =>
      if (Z.of_nat (length results) <? n) && (lb <=? ub)
      then eval_while fuel n stride (lb + stride) ub (results ++ [lb])
      else results
  end.

Definition eval_unrev (s : SI) (n : Z) (signed : bool) : result (list Z) :=
  if is_empty s then Ok []
  else if (stride s =? 0) && (0 <? n) then Ok [lower_bound s]
  else
    bounds ← (if signed then _signed_bounds s else _unsigned_bounds s);
    Ok (foldl (λ results '(lb, ub), eval_while (Z.to_nat n) n (stride s) lb ub results) [] bounds).

(** ** Order comparisons

    Each comparison looks at every pair of bounds of the two operands and
    answers [True] ([False]) when all pairs do.  These are the bodies, for
    operands of one width that are not reversed. *)

Definition verdict (ret : list BoolResult) : BoolResult :=
  if forallb (λ r, BoolResult.identical r TrueResult) ret then TrueResult
  else if forallb (λ r, BoolResult.identical r FalseResult) ret then FalseResult
  else MaybeResult.

Definition compare_bounds (yes no : Z * Z → Z * Z → bool) (b1 b2 : list (Z * Z)) : BoolResult :=
  verdict (b1 ≫= λ p1, (λ p2,
    if yes p1 p2 then TrueResult else if no p1 p2 then FalseResult else MaybeResult) <$> b2).

Definition SLT_unrev (s o : SI) : result BoolResult :=
  b1 ← _signed_bounds s; b2 ← _signed_bounds o;
  Ok (compare_bounds (λ '(lb1, ub1) '(lb2, ub2), ub1 <? lb2)
                     (λ '(lb1, ub1) '(lb2, ub2), ub2 <=? lb1) b1 b2).

Definition SLE_unrev (s o : SI) : result BoolResult :=
  b1 ← _signed_bounds s; b2 ← _signed_bounds o;
  Ok (compare_bounds (λ '(lb1, ub1) '(lb2, ub2), ub1 <=? lb2)
                     (λ '(lb1, ub1) '(lb2, ub2), ub2 <? lb1) b1 b2).

Definition SGT_unrev (s o : SI) : result BoolResult :=
  b1 ← _signed_bounds s; b2 ← _signed_bounds o;
  Ok (compare_bounds (λ '(lb1, ub1) '(lb2, ub2), ub2 <? lb1)
                     (λ '(lb1, ub1) '(lb2, ub2), ub1 <=? lb2) b1 b2).

Definition SGE_unrev (s o : SI) : result BoolResult :=
  b1 ← _signed_bounds s; b2 ← _signed_bounds o;
  Ok (compare_bounds (λ '(lb1, ub1) '(lb2, ub2), ub2 <=? lb1)
                     (λ '(lb1, ub1) '(lb2, ub2), ub1 <? lb2) b1 b2).

Definition ULT_unrev (s o : SI) : result BoolResult :=
  b1 ← _unsigned_bounds s; b2 ← _unsigned_bounds o;
  Ok (compare_bounds (λ '(lb1, ub1) '(lb2, ub2), ub1 <? lb2)
                     (λ '(lb1, ub1) '(lb2, ub2), ub2 <=? lb1) b1 b2).

Definition ULE_unrev (s o : SI) : result BoolResult :=
  b1 ← _unsigned_bounds s; b2 ← _unsigned_bounds o;
  Ok (compare_bounds (λ '(lb1, ub1) '(lb2, ub2), ub1 <=? lb2)
                     (λ '(lb1, ub1) '(lb2, ub2), ub2 <? lb1) b1 b2).

Definition UGT_unrev (s o : SI) : result BoolResult :=
  b1 ← _unsigned_bounds s; b2 ← _unsigned_bounds o;
  Ok (compare_bounds (λ '(lb1, ub1) '(lb2, ub2), ub2 <? lb1)
                     (λ '(lb1, ub1) '(lb2, ub2), ub1 <=? lb2) b1 b2).

Definition UGE_unrev (s o : SI) : result BoolResult :=
  b1 ← _unsigned_bounds s; b2 ← _unsigned_bounds o;
  Ok (compare_bounds (λ '(lb1, ub1) '(lb2, ub2), ub2 <=? lb1)
                     (λ '(lb1, ub1) '(lb2, ub2), ub1 <? lb2) b1 b2).

(** ** What an interval stands for *)

(** [v] is met on the way from [l] up to [u], in steps of [st], modulo [2^w]. *)
Definition in_arc (w st l u v : Z) : Prop :=
  0 ≤ v < 2 ^ w ∧ (v - l) mod 2 ^ w ≤ (u - l) mod 2 ^ w ∧ (st | (v - l) mod 2 ^ w).

Definition member (s : SI) (v : Z) : Prop :=
  is_bottom s = false ∧ in_arc (bits s) (stride s) (lower_bound s) (upper_bound s) v.

#[export] Instance in_arc_dec w st l u v : Decision (in_arc w st l u v).
Proof. unfold in_arc. apply _. Defined.

#[export] Instance member_dec s v : Decision (member s v).
Proof. unfold member. apply _. Defined.

(** The intervals the domain works on: not bottom, not waiting to be byte
    reversed, normalised, and with an upper bound on the grid. *)
Record wf (s : SI) : Prop := {
  wf_bits : 1 ≤ bits s;
  wf_lower : 0 ≤ lower_bound s < 2 ^ bits s;
  wf_upper : 0 ≤ upper_bound s < 2 ^ bits s;
  wf_stride : 0 ≤ stride s;
  wf_int : lower_bound s = upper_bound s → stride s = 0;
  wf_top : stride s = 1 → lower_bound s = (upper_bound s + 1) mod 2 ^ bits s → lower_bound s = 0;
  wf_aligned : (stride s | (upper_bound s - lower_bound s) mod 2 ^ bits s);
  wf_bottom : is_bottom s = false;
  wf_reversed : reversed s = false }.

(** A well-formed interval stands for the vectors of its width whose value is a
    member. *)
#[global] Instance si_domain : AbstractDomain SI BVV.BVV :=
  λ s b, wf s ∧ BVV.bits b = bits s ∧ member s (BVV.value b).

(** Vectors of one width, the operands the concrete operations accept. *)
Definition equal_width (x y : BVV.BVV) : Prop := BVV.bits x = BVV.bits y.

(** ** The modular distance *)

Lemma mod_dist w v l :
  0 ≤ v < 2 ^ w → 0 ≤ l < 2 ^ w →
  (v - l) mod 2 ^ w = if l <=? v then v - l else v - l + 2 ^ w.
Proof.
  intros Hv Hl. zcases.
  - apply Z.mod_small. lia.
  - rewrite <-(Z_mod_plus_full _ 1). rewrite Z.mul_1_l. apply Z.mod_small. lia.
Qed.

Lemma arc_straight w st l u v :
  0 ≤ l ≤ u → u < 2 ^ w → in_arc w st l u v ↔ l ≤ v ≤ u ∧ (st | v - l).
Proof.
  intros Hl Hu. unfold in_arc. split.
  - intros (Hv & Hd & Hs). rewrite !mod_dist in * by lia. zcases; try lia. split; [lia|done].
  - intros (Hv & Hs). rewrite !mod_dist by lia. zcases; try lia. repeat split; lia || done.
Qed.

Lemma arc_wrapping w st l u v :
  0 ≤ u < l → l < 2 ^ w →
  in_arc w st l u v ↔
    (l ≤ v < 2 ^ w ∧ (st | v - l)) ∨ (0 ≤ v ≤ u ∧ (st | v - l + 2 ^ w)).
Proof.
  intros Hu Hl. unfold in_arc. split.
  - intros (Hv & Hd & Hs). rewrite !mod_dist in * by lia. zcases; try lia.
    + left. split; [lia|done].
    + right. split; [lia|done].
  - intros [(Hv & Hs)|(Hv & Hs)]; rewrite !mod_dist by lia; zcases; try lia; repeat split; lia || done.
Qed.

Lemma arc_mod w st l u v : 0 ≤ w → in_arc w st (l mod 2 ^ w) (u mod 2 ^ w) v ↔ in_arc w st l u v.
Proof. intros. unfold in_arc. by rewrite Zminus_mod_idemp_r, <-Zminus_mod. Qed.

(** ** The constructor *)

(** What [normalize] makes of the constructor's arguments. *)
Definition norm (w st l u : Z) (un : bool) : SI :=
  let l' := l mod 2 ^ w in
  let u' := u mod 2 ^ w in
  let st' := if l' =? u' then 0 else st in
  if (l' =? (u' + 1) mod 2 ^ w) && (st' =? 1)
  then mkSI w st' 0 (2 ^ w - 1) un false false
  else mkSI w st' l' u' un false false.

Lemma max_int_spec k : 0 ≤ k → max_int k = 2 ^ k - 1.
Proof. intros. unfold max_int, highbit. rewrite shiftl_1 by lia. do 2 f_equal. lia. Qed.

Lemma new_norm w st l u un : 0 ≤ w → 0 ≤ st → new w st l u un = Ok (norm w st l u un).
Proof.
  intros Hw Hst. unfold new, new_full, normalize, norm, is_empty, _modular_add.
  cbn [bits reversed]. rewrite andb_false_r. cbn [bits is_bottom lower_bound upper_bound stride].
  rewrite !land_mask, max_int_spec by done.
  pose proof (mod_pow2_bound l w Hw).
  destruct (Z.ltb_spec (l mod 2 ^ w) 0); [lia|].
  set (st' := if l mod 2 ^ w =? u mod 2 ^ w then 0 else st).
  assert (0 ≤ st') by (unfold st'; by destruct (_ =? _)).
  destruct ((l mod 2 ^ w =? _) && (st' =? 1)); (destruct (Z.ltb_spec st' 0); [lia|]); done.
Qed.

Lemma norm_member w st l u un v :
  1 ≤ w → member (norm w st l u un) v ↔ in_arc w st l u v.
Proof.
  intros Hw. rewrite <-arc_mod by lia. unfold norm.
  pose proof (mod_pow2_bound l w ltac:(lia)) as Hl. pose proof (mod_pow2_bound u w ltac:(lia)) as Hu.
  pose proof (Z.pow_le_mono_r 2 1 w ltac:(lia) ltac:(lia)).
  set (l' := l mod 2 ^ w) in *. set (u' := u mod 2 ^ w) in *.
  destruct (Z.eqb_spec l' u') as [E|E].
  - rewrite andb_false_r. unfold member; cbn. rewrite E, !arc_straight by lia.
    split; [intros (_ & ? & ?)|intros (? & ?)]; repeat split; try lia;
      replace (v - u') with 0 by lia; apply Z.divide_0_r.
  - destruct (Z.eqb_spec st 1) as [->|]; [|by rewrite andb_false_r; unfold member; cbn; tauto].
    rewrite andb_true_r. destruct (Z.eqb_spec l' ((u' + 1) mod 2 ^ w)) as [E'|]; [|by unfold member; cbn; tauto].
    unfold member; cbn. rewrite arc_straight by lia.
    destruct (Z.eq_dec (u' + 1) (2 ^ w)) as [E2|E2].
    + rewrite E2, Z_mod_same_full in E'. rewrite E', arc_straight by lia.
      rewrite Z.sub_0_r. assert (u' = 2 ^ w - 1) as -> by lia. tauto.
    + rewrite Z.mod_small in E' by lia. rewrite arc_wrapping by lia.
      pose proof Z.divide_1_l. split; [intros (_ & ? & _)|intros [[? _]|[? _]]; repeat split; auto; lia].
      destruct (Z.lt_ge_cases v l'); [right|left]; split; auto; lia.
Qed.

Lemma norm_fields w st l u un :
  bits (norm w st l u un) = w ∧ uninitialized (norm w st l u un) = un ∧
  is_bottom (norm w st l u un) = false ∧ reversed (norm w st l u un) = false.
Proof. unfold norm. by destruct (_ && _). Qed.

Lemma norm_wf w st l u un :
  1 ≤ w → 0 ≤ st → (st | (u - l) mod 2 ^ w) → wf (norm w st l u un).
Proof.
  intros Hw Hst Hal. rewrite Zminus_mod in Hal. unfold norm.
  pose proof (mod_pow2_bound l w ltac:(lia)) as Hl. pose proof (mod_pow2_bound u w ltac:(lia)) as Hu.
  pose proof (Z.pow_le_mono_r 2 1 w ltac:(lia) ltac:(lia)).
  set (l' := l mod 2 ^ w) in *. set (u' := u mod 2 ^ w) in *.
  destruct (Z.eqb_spec l' u') as [E|E].
  - rewrite andb_false_r. split; cbn; try lia; try done.
    rewrite E, Z.sub_diag, Z.mod_0_l by lia. apply Z.divide_refl.
  - destruct (Z.eqb_spec st 1) as [->|].
    + rewrite andb_true_r. destruct (Z.eqb_spec l' ((u' + 1) mod 2 ^ w)).
      * split; cbn; try lia; try done. apply Z.divide_1_l.
      * split; cbn; try lia; try done.
    + rewrite andb_false_r. split; cbn; try lia; try done.
Qed.

(** Without wrapping, normalisation keeps the bounds in order. *)
Lemma norm_straight w st l u un :
  1 ≤ w → 0 ≤ l ≤ u → u < 2 ^ w →
  lower_bound (norm w st l u un) = l ∧ upper_bound (norm w st l u un) = u ∧
  stride (norm w st l u un) = if l =? u then 0 else st.
Proof.
  intros Hw Hl Hu. unfold norm. rewrite (Z.mod_small l), (Z.mod_small u) by lia.
  pose proof (Z.pow_le_mono_r 2 1 w ltac:(lia) ltac:(lia)).
  destruct (Z.eqb_spec l ((u + 1) mod 2 ^ w)) as [E|]; [|done].
  destruct (Z.eqb_spec l u) as [|]; [done|].
  destruct (Z.eqb_spec st 1) as [->|]; cbn; [|done].
  destruct (Z.eq_dec (u + 1) (2 ^ w)) as [E2|E2].
  - rewrite E2, Z_mod_same_full in E. cbn. lia.
  - rewrite Z.mod_small in E by lia. lia.
Qed.

Lemma norm_id s : wf s → norm (bits s) (stride s) (lower_bound s) (upper_bound s) (uninitialized s) = s.
Proof.
  intros [Hb Hl Hu Hs Hi Ht Ha Hbo Hr]. unfold norm. rewrite (Z.mod_small (lower_bound s)), (Z.mod_small (upper_bound s)) by done.
  destruct s as [w st l u un bo re]; cbn in *. subst.
  destruct (Z.eqb_spec l u) as [E|E].
  - rewrite andb_false_r. rewrite Hi by done. done.
  - destruct (Z.eqb_spec st 1) as [->|]; [|by rewrite andb_false_r].
    destruct (Z.eqb_spec l ((u + 1) mod 2 ^ w)) as [E2|]; [|done].
    specialize (Ht eq_refl E2). subst l. cbn.
    replace (2 ^ w - 1) with u; [done|]. destruct (Z.eq_dec (u + 1) (2 ^ w)); [lia|].
    rewrite Z.mod_small in E2 by lia. lia.
Qed.

Lemma copy_wf s : wf s → copy s = Ok s.
Proof.
  intros Hs. pose proof Hs as [Hb Hl Hu Hst Hi Ht Ha Hbo Hr].
  unfold copy. rewrite Hbo, Hr. change (new_full _ _ _ _ ?un false false) with (new (bits s) (stride s) (lower_bound s) (upper_bound s) un).
  rewrite new_norm by lia. by rewrite norm_id.
Qed.

Lemma top_spec w un : 1 ≤ w → ∃ r, top w un = Ok r ∧ wf r ∧ bits r = w ∧ (∀ v, 0 ≤ v < 2 ^ w → member r v).
Proof.
  intros Hw. unfold top. pose proof (Z.pow_le_mono_r 2 1 w ltac:(lia) ltac:(lia)).
  rewrite new_norm, max_int_spec by lia. eexists. split; [done|].
  split; [apply norm_wf; [done|lia|apply Z.divide_1_l]|]. split; [apply norm_fields|].
  intros v Hv. rewrite norm_member, arc_straight by lia. split; [lia|apply Z.divide_1_l].
Qed.

Lemma member_range s v : member s v → 0 ≤ v < 2 ^ bits s.
Proof. by intros (_ & ? & _). Qed.

Lemma member_lower s : wf s → member s (lower_bound s).
Proof.
  intros [Hb Hl Hu Hs Hi Ht Ha Hbo Hr]. split; [done|]. unfold in_arc.
  rewrite Z.sub_diag, Z.mod_0_l by lia. split; [done|]. split; [apply Z.mod_pos_bound; lia|apply Z.divide_0_r].
Qed.

End SI.
