(* ===== verification/SiOrder.v ===== *)
(** * Strided intervals, part 2: the splits are exact, the comparisons sound

    [_ssplit] cuts an interval at the south pole ([2^w - 1 -> 0]), [_nsplit] at
    the north pole ([2^(w-1) - 1 -> 2^(w-1)]).  The order comparisons read the
    bounds of the pieces; they are related here to the comparisons of the
    concrete backend ([Bvv]). *)

From Stdlib Require Import ZArith Lia Bool Znumtheory.
From stdpp Require Import base tactics list numbers.
From S2P Require Import Prelude Bvv BoolResult StridedInterval.

Module SiOrder.
Import SI.

(** ** Points of a grid *)

Lemma grid_max st l v n :
  0 < st → (st | v - l) → v ≤ n → v ≤ n - (n - l) mod st.
Proof.
  intros Hst [k Hk] Hv. rewrite (Z.mod_eq (n - l)) by lia.
  assert (k ≤ (n - l) / st) by (apply Z.div_le_lower_bound; lia). nia.
Qed.

Lemma grid_max_on st l n : 0 < st → (st | n - (n - l) mod st - l).
Proof.
  intros Hst. rewrite (Z.mod_eq (n - l)) by lia. exists ((n - l) / st). lia.
Qed.

Lemma grid_gap st x : 0 < st → (st | x) → 0 < x → st ≤ x.
Proof. intros. by apply Z.divide_pos_le. Qed.

Create HintDb zdiv.
#[export] Hint Resolve Z.divide_add_r Z.divide_sub_r Z.divide_refl Z.divide_0_r
  Z.divide_gcd_iff Z.gcd_divide_l Z.gcd_divide_r : zdiv.

(** [divides_by e] proves [(st | x)] from the divisibility of the terms of
    [e], an equal of [x]. *)
Ltac divides_by e :=
  match goal with |- (?st | ?x) => replace x with e by lia; auto with zdiv end.

Lemma stride_pos s : wf s → lower_bound s ≠ upper_bound s → 0 < stride s.
Proof.
  intros Hs Hne. pose proof (wf_stride s Hs). pose proof (wf_lower s Hs). pose proof (wf_upper s Hs).
  destruct (Z.eq_dec (stride s) 0) as [E|]; [|lia].
  pose proof (wf_aligned s Hs) as Ha. rewrite E in Ha. apply Z.divide_0_l in Ha.
  rewrite mod_dist in Ha by done. zcases; lia.
Qed.

Lemma aligned_wrap s :
  wf s → upper_bound s < lower_bound s →
  (stride s | upper_bound s - lower_bound s + 2 ^ bits s).
Proof.
  intros Hs Hlt. pose proof (wf_aligned s Hs) as Ha.
  rewrite mod_dist in Ha by apply Hs. destruct (Z.leb_spec (lower_bound s) (upper_bound s)); [lia|done].
Qed.

Lemma aligned_straight s :
  wf s → lower_bound s ≤ upper_bound s → (stride s | upper_bound s - lower_bound s).
Proof.
  intros Hs Hle. pose proof (wf_aligned s Hs) as Ha.
  rewrite mod_dist in Ha by apply Hs. destruct (Z.leb_spec (lower_bound s) (upper_bound s)); [done|lia].
Qed.

(** ** The cut at the south pole *)

Lemma Forall_pair {A} (P : A → Prop) a b : P a → P b → Forall P [a; b].
Proof. intros. constructor; [done|]. by apply Forall_singleton. Qed.

Lemma exists_pair {A} (P : A → Prop) a b : (∃ p, p ∈ [a; b] ∧ P p) ↔ P a ∨ P b.
Proof.
  setoid_rewrite elem_of_cons. setoid_rewrite list_elem_of_singleton. split.
  - intros (p & [->| ->] & H); auto.
  - intros [H|H]; eauto.
Qed.

Definition straight (p : SI) : Prop := lower_bound p ≤ upper_bound p.

(** [ps] are pieces of [s]: well-formed, of its width, and covering the same
    integers. *)
Definition pieces (s : SI) (ps : list SI) : Prop :=
  Forall (λ p, wf p ∧ bits p = bits s ∧ uninitialized p = uninitialized s) ps ∧
  ∀ v, member s v ↔ ∃ p, p ∈ ps ∧ member p v.

Lemma pieces_single s : wf s → pieces s [s].
Proof.
  intros Hs. split; [by apply Forall_singleton|]. intros v. split.
  - intros H. exists s. split; [constructor|done].
  - intros (p & Hp & H). apply list_elem_of_singleton in Hp. by subst.
Qed.

Lemma ssplit_straight s : wf s → straight s → _ssplit s = Ok [s].
Proof.
  intros Hs Hle. unfold _ssplit, straight in *.
  destruct (Z.ltb_spec (upper_bound s) (lower_bound s)); [lia|]. by rewrite copy_wf.
Qed.

(** The two pieces of a straddling interval. *)
Lemma ssplit_wrap s :
  wf s → upper_bound s < lower_bound s →
  let M := 2 ^ bits s in
  let a_ub := M - 1 - (M - 1 - lower_bound s) mod stride s in
  let b_lb := a_ub + stride s - M in
  lower_bound s ≤ a_ub < M ∧ (stride s | a_ub - lower_bound s) ∧
  0 ≤ b_lb ≤ upper_bound s ∧ (stride s | upper_bound s - b_lb) ∧
  _ssplit s = Ok [norm (bits s) (stride s) (lower_bound s) a_ub (uninitialized s);
                  norm (bits s) (stride s) b_lb (upper_bound s) (uninitialized s)].
Proof.
  intros Hs Hlt M a_ub b_lb. pose proof (wf_lower s Hs). pose proof (wf_upper s Hs).
  pose proof (stride_pos s Hs ltac:(lia)) as Hst. pose proof (wf_bits s Hs).
  pose proof (Z.mod_pos_bound (M - 1 - lower_bound s) (stride s) Hst) as Hr.
  pose proof (Z.mod_le (M - 1 - lower_bound s) (stride s) ltac:(unfold M; lia) Hst).
  assert (stride s | a_ub - lower_bound s) as Hda by apply grid_max_on, Hst.
  pose proof (aligned_wrap s Hs Hlt) as Hal. fold M in Hal.
  assert (stride s | upper_bound s + M - a_ub) as Hdu
    by divides_by ((upper_bound s - lower_bound s + M) - (a_ub - lower_bound s)).
  pose proof (grid_gap _ _ Hst Hdu ltac:(unfold a_ub; lia)).
  split; [unfold a_ub; lia|]. split; [done|]. split; [unfold b_lb, a_ub in *; lia|].
  split; [divides_by ((upper_bound s + M - a_ub) - stride s); unfold b_lb; lia|].
  unfold _ssplit. destruct (Z.ltb_spec (upper_bound s) (lower_bound s)); [|lia].
  rewrite max_int_spec, py_mod_nz by lia. fold M. cbn [mbind result_bind]. fold a_ub.
  rewrite !new_norm by lia. cbn [mbind result_bind]. repeat f_equal.
  unfold _modular_add. fold M. rewrite <-(Z_mod_plus_full _ (-1)).
  replace (a_ub + stride s + -1 * M) with b_lb by (unfold b_lb; lia).
  apply Z.mod_small. unfold b_lb, a_ub, M in *; lia.
Qed.

Lemma ssplit_pieces s :
  wf s → ∃ ps, _ssplit s = Ok ps ∧ pieces s ps ∧ Forall straight ps ∧
    (length ps = 1%nat ∨ length ps = 2%nat).
Proof.
  intros Hs. destruct (Z.le_gt_cases (lower_bound s) (upper_bound s)) as [Hle|Hgt].
  - exists [s]. rewrite ssplit_straight by done. split; [done|].
    split; [by apply pieces_single|]. split; [by apply Forall_singleton|by left].
  - destruct (ssplit_wrap s Hs) as (Ha & Hda & Hb & Hdb & ->); [lia|].
    set (M := 2 ^ bits s) in *. set (a_ub := M - 1 - (M - 1 - lower_bound s) mod stride s) in *.
    set (b_lb := a_ub + stride s - M) in *.
    pose proof (wf_lower s Hs). pose proof (wf_upper s Hs). pose proof (wf_bits s Hs).
    pose proof (stride_pos s Hs ltac:(lia)) as Hst.
    eexists. split; [done|]. split; [split|split; [|by right]].
    + assert (∀ l u, (stride s | u - l) → 0 ≤ l ≤ u → u < M →
        wf (norm (bits s) (stride s) l u (uninitialized s))) as Hw.
      { intros. apply norm_wf; [done|lia|]. fold M. rewrite Z.mod_small by lia. done. }
      apply Forall_pair; (split; [apply Hw; lia || done|split; apply norm_fields]).
    + intros v. unfold member at 1. rewrite (wf_bottom s Hs), arc_wrapping by lia. fold M.
      rewrite exists_pair, !norm_member, !arc_straight by lia.
      split.
      * intros [_ [(Hv & Hd)|(Hv & Hd)]].
        -- left. split; [|done]. split; [lia|]. apply grid_max; lia || done.
        -- right. assert (stride s | v + M - a_ub) as Hd'
             by divides_by ((v - lower_bound s + M) - (a_ub - lower_bound s)).
           pose proof (grid_gap _ _ Hst Hd' ltac:(lia)).
           split; [unfold b_lb; lia|]. divides_by ((v + M - a_ub) - stride s); unfold b_lb; lia.
      * intros [(Hv & Hd)|(Hv & Hd)]; (split; [done|]); [left|right]; (split; [lia|]); [done|].
        divides_by ((v - b_lb) + ((a_ub - lower_bound s) + stride s)); unfold b_lb; lia.
    + apply Forall_pair; unfold straight.
      * destruct (norm_straight (bits s) (stride s) (lower_bound s) a_ub (uninitialized s)) as (-> & -> & _); lia.
      * destruct (norm_straight (bits s) (stride s) b_lb (upper_bound s) (uninitialized s)) as (-> & -> & _); lia.
Qed.

Lemma unsigned_bounds_spec s ps :
  _ssplit s = Ok ps → length ps = 1%nat ∨ length ps = 2%nat →
  _unsigned_bounds s = Ok ((λ p, (lower_bound p, upper_bound p)) <$> ps).
Proof.
  unfold _unsigned_bounds. intros -> Hl. cbn.
  destruct ps as [|a [|b [|c ps]]]; cbn in *; done || lia.
Qed.

(** ** The cut at the north pole *)

Lemma is_msb_zero_spec v w : 1 ≤ w → 0 ≤ v < 2 ^ w → _is_msb_zero v w = (v <? 2 ^ (w - 1)).
Proof.
  intros Hw Hv. pose proof (pow2_double w Hw). pose proof (pow2_pos (w - 1)).
  unfold _is_msb_zero. rewrite land_mask, Z.mod_small by lia.
  apply eq_true_iff_eq. rewrite Z.eqb_eq, Z.ltb_lt. split; intros Hz.
  - apply Z.nle_gt. intros Hge. apply (f_equal (λ z, Z.testbit z (w - 1))) in Hz.
    rewrite Z.land_spec, Z.pow2_bits_true, Z.bits_0, andb_true_r in Hz by lia.
    apply Z.testbit_false in Hz; [|lia].
    replace (v / 2 ^ (w - 1)) with 1 in Hz; [done|].
    apply Z.div_unique with (v - 2 ^ (w - 1)); lia.
  - apply Z.bits_inj'. intros i Hi. rewrite Z.land_spec, Z.pow2_bits_eqb, Z.bits_0 by lia.
    destruct (Z.eqb_spec (w - 1) i) as [<-|]; [|apply andb_false_r].
    by rewrite (testbit_high v (w - 1)) by lia.
Qed.

Lemma unsigned_to_signed_spec v w :
  1 ≤ w → 0 ≤ v < 2 ^ w → _unsigned_to_signed v w = BVV.to_signed w v.
Proof.
  intros Hw Hv. unfold _unsigned_to_signed, BVV.to_signed.
  rewrite is_msb_zero_spec by done. zcases; lia.
Qed.

(** The stride the north cut can handle when the interval runs through the
    south pole and stops in the upper half: it must divide [2^w]. *)
Definition nsplit_ok (s : SI) : Prop :=
  2 ^ (bits s - 1) ≤ upper_bound s < lower_bound s → (stride s | 2 ^ bits s).

(** A list of bounds encloses [v] when some lower bound is below it and some
    upper bound above it. *)
Definition encloses (bs : list (Z * Z)) (v : Z) : Prop :=
  (∃ p, p ∈ bs ∧ fst p ≤ v) ∧ (∃ p, p ∈ bs ∧ v ≤ snd p).

Lemma encloses_one l u v : l ≤ v ≤ u → encloses [(l, u)] v.
Proof. intros. split; eexists; (split; [constructor|]); simpl; lia. Qed.

Lemma encloses_two l1 u1 l2 u2 v :
  l1 ≤ v ∨ l2 ≤ v → v ≤ u1 ∨ v ≤ u2 → encloses [(l1, u1); (l2, u2)] v.
Proof. intros H1 H2. split; rewrite exists_pair; simpl; done. Qed.

(** The bounds of a normalised arc that is not the full circle. *)
Lemma norm_bounds w st l u un :
  0 ≤ l < 2 ^ w → 0 ≤ u < 2 ^ w → l ≠ (u + 1) mod 2 ^ w →
  lower_bound (norm w st l u un) = l ∧ upper_bound (norm w st l u un) = u.
Proof.
  intros Hl Hu Hne. unfold norm. rewrite (Z.mod_small l), (Z.mod_small u) by done.
  destruct (Z.eqb_spec l ((u + 1) mod 2 ^ w)); [done|]. done.
Qed.

Lemma norm_range w st l u un :
  0 ≤ w → 0 ≤ lower_bound (norm w st l u un) < 2 ^ w ∧ 0 ≤ upper_bound (norm w st l u un) < 2 ^ w.
Proof.
  intros Hw. pose proof (mod_pow2_bound l w Hw). pose proof (mod_pow2_bound u w Hw).
  unfold norm. destruct (_ && _); cbn; lia.
Qed.

Lemma norm_mod_lower w st l u un : 0 ≤ w → norm w st (l mod 2 ^ w) u un = norm w st l u un.
Proof. intros. unfold norm. by rewrite Z.mod_mod by (pose proof (pow2_pos w); lia). Qed.

Lemma straddles_north_spec s :
  wf s → straddles_north s =
    (lower_bound s <? 2 ^ (bits s - 1)) && (2 ^ (bits s - 1) <=? upper_bound s) ||
    (upper_bound s <? lower_bound s) &&
      ((2 ^ (bits s - 1) <=? upper_bound s) || (lower_bound s <? 2 ^ (bits s - 1))).
Proof.
  intros Hs. pose proof (wf_bits s Hs). unfold straddles_north.
  rewrite max_int_spec by lia. zcases; try lia; done.
Qed.

(** The values a member can take around the last grid point [a] of the lower
    half: either not above [a], or at least one stride above it. *)
Lemma grid_split st l a v :
  0 < st → (st | a - l) → (st | v - l) → v ≤ a ∨ a + st ≤ v.
Proof.
  intros Hst Ha Hv. destruct (Z.le_gt_cases v a); [by left|right].
  assert (st | v - a) as Hd by divides_by ((v - l) - (a - l)).
  pose proof (grid_gap _ _ Hst Hd ltac:(lia)). lia.
Qed.

(** The bounds read off the two pieces of the cut at the north pole: those of
    the first piece as they are, those of the second as signed integers. *)
Definition north_bounds (s : SI) (a : Z) : list (Z * Z) :=
  let p := norm (bits s) (stride s) (lower_bound s) a (uninitialized s) in
  let q := norm (bits s) (stride s) (a + stride s) (upper_bound s) (uninitialized s) in
  [(lower_bound p, upper_bound p);
   (BVV.to_signed (bits s) (lower_bound q), BVV.to_signed (bits s) (upper_bound q))].

(** [a] is the last grid point of the lower half. *)
Record north_cut (s : SI) (a : Z) : Prop := {
  cut_range : 2 ^ (bits s - 1) - stride s ≤ a < 2 ^ (bits s - 1);
  cut_grid : (stride s | a - lower_bound s);
  cut_above : lower_bound s < 2 ^ (bits s - 1) → lower_bound s ≤ a }.

(** Both ends in the upper half, through both poles. *)
Lemma north_through s a v :
  wf s → nsplit_ok s → north_cut s a → 2 ^ (bits s - 1) ≤ upper_bound s < lower_bound s →
  member s v → encloses (north_bounds s a) (BVV.to_signed (bits s) v).
Proof.
  intros Hs Hok [Ha Hda _] Hul [_ Hm]. specialize (Hok Hul).
  pose proof (wf_bits s Hs) as Hw. pose proof (wf_lower s Hs) as Hl.
  pose proof (pow2_double (bits s) Hw) as HM. pose proof (pow2_pos (bits s - 1) ltac:(lia)) as HH.
  pose proof (stride_pos s Hs ltac:(lia)) as Hst.
  pose proof (aligned_wrap s Hs ltac:(lia)) as Hal.
  rewrite arc_wrapping in Hm by lia.
  unfold north_bounds. set (H := 2 ^ (bits s - 1)) in *. set (M := 2 ^ bits s) in *.
  set (l := lower_bound s) in *. set (u := upper_bound s) in *. set (st := stride s) in *.
  assert (st ≤ H) as HstH.
  { destruct Hok as [q Hq]. pose proof (grid_gap _ _ Hst Hal ltac:(lia)).
    destruct (Z.le_gt_cases q 1); nia. }
  assert (st | u - l) as Hdul by divides_by ((u - l + M) - M).
  assert ((st | v - l) ∧ (l ≤ v < M ∨ 0 ≤ v ≤ u)) as [Hdv Hv].
  { destruct Hm as [[? ?]|[? Hd]]; [by auto|]. split; [|by right]. divides_by ((v - l + M) - M). }
  destruct (norm_bounds (bits s) st l a (uninitialized s)) as [-> ->];
    [fold M; lia|fold M; lia|fold M; rewrite Z.mod_small; lia|].
  assert (a + st ≤ u) as Hau by (destruct (grid_split st l a u); auto; lia).
  destruct (norm_straight (bits s) st (a + st) u (uninitialized s)) as (-> & -> & _); [done|lia|fold M; lia|].
  destruct (grid_split st l a v Hst Hda Hdv);
    apply encloses_two; unfold BVV.to_signed; fold H M; zcases; lia.
Qed.

(** Both ends in the lower half, through both poles. *)
Lemma north_around s a v :
  wf s → north_cut s a → upper_bound s < lower_bound s < 2 ^ (bits s - 1) →
  member s v → encloses (north_bounds s a) (BVV.to_signed (bits s) v).
Proof.
  intros Hs [Ha Hda Hla] Hul [_ Hm]. specialize (Hla ltac:(lia)).
  pose proof (wf_bits s Hs) as Hw. pose proof (wf_upper s Hs) as Hu.
  pose proof (pow2_double (bits s) Hw) as HM. pose proof (pow2_pos (bits s - 1) ltac:(lia)) as HH.
  pose proof (stride_pos s Hs ltac:(lia)) as Hst.
  pose proof (aligned_wrap s Hs ltac:(lia)) as Hal.
  rewrite arc_wrapping in Hm by lia. unfold north_bounds. rewrite <-(norm_mod_lower _ _ (a + stride s)) by lia.
  set (H := 2 ^ (bits s - 1)) in *. set (M := 2 ^ bits s) in *.
  set (l := lower_bound s) in *. set (u := upper_bound s) in *. set (st := stride s) in *.
  destruct (norm_straight (bits s) st l a (uninitialized s)) as (-> & -> & _); [done|lia|fold M; lia|].
  assert (a + st ≤ u + M) as Hau.
  { destruct (grid_split st l a (u + M)); auto; [|lia]. divides_by (u - l + M). }
  assert (l ≤ v < M ∧ (v ≤ a ∨ a + st ≤ v) ∨ 0 ≤ v ≤ u ∧ a + st ≤ v + M) as Hv.
  { destruct Hm as [[? Hd]|[? Hd]].
    - left. split; [done|]. by apply (grid_split st l).
    - right. split; [done|]. destruct (grid_split st l a (v + M)); auto; [|lia]. divides_by (v - l + M). }
  clear Hm. destruct (Z.lt_ge_cases (a + st) M) as [Hlt|Hge].
  - rewrite (Z.mod_small (a + st)) by lia.
    destruct (norm_bounds (bits s) st (a + st) u (uninitialized s)) as [-> ->];
      [fold M; lia|fold M; lia|fold M; rewrite Z.mod_small; lia|].
    apply encloses_two; unfold BVV.to_signed; fold H M; zcases; lia.
  - assert ((a + st) mod M = a + st - M) as ->.
    { rewrite <-(Z_mod_plus_full _ (-1)). rewrite Z.mod_small; lia. }
    destruct (norm_straight (bits s) st (a + st - M) u (uninitialized s)) as (-> & -> & _); [done|lia|fold M; lia|].
    apply encloses_two; unfold BVV.to_signed; fold H M; zcases; lia.
Qed.

(** From the lower half into the upper half. *)
Lemma north_straight s a v :
  wf s → north_cut s a → lower_bound s < 2 ^ (bits s - 1) ≤ upper_bound s →
  member s v → encloses (north_bounds s a) (BVV.to_signed (bits s) v).
Proof.
  intros Hs [Ha Hda Hla] Hul [_ Hm]. specialize (Hla ltac:(lia)).
  pose proof (wf_bits s Hs) as Hw. pose proof (wf_upper s Hs) as Hu. pose proof (wf_lower s Hs) as Hl.
  pose proof (pow2_double (bits s) Hw) as HM. pose proof (pow2_pos (bits s - 1) ltac:(lia)) as HH.
  pose proof (stride_pos s Hs ltac:(lia)) as Hst.
  pose proof (aligned_straight s Hs ltac:(lia)) as Hal.
  rewrite arc_straight in Hm by lia. destruct Hm as [Hv Hdv].
  unfold north_bounds. set (H := 2 ^ (bits s - 1)) in *. set (M := 2 ^ bits s) in *.
  set (l := lower_bound s) in *. set (u := upper_bound s) in *. set (st := stride s) in *.
  destruct (norm_straight (bits s) st l a (uninitialized s)) as (-> & -> & _); [done|lia|fold M; lia|].
  assert (a + st ≤ u) as Hau by (destruct (grid_split st l a u); auto; lia).
  destruct (norm_straight (bits s) st (a + st) u (uninitialized s)) as (-> & -> & _); [done|lia|fold M; lia|].
  destruct (grid_split st l a v Hst Hda Hdv);
    apply encloses_two; unfold BVV.to_signed; fold H M; zcases; lia.
Qed.

(** In every case the signed bounds of an interval enclose the signed readings
    of its members. *)
Lemma signed_bounds_straddle s :
  wf s → straddles_north s = true →
  ∃ a, north_cut s a ∧ _signed_bounds s = Ok (north_bounds s a).
Proof.
  intros Hs E. pose proof (wf_bits s Hs) as Hw.
  pose proof (wf_lower s Hs) as Hl. pose proof (wf_upper s Hs) as Hu.
  pose proof (pow2_double (bits s) Hw) as HM. pose proof (pow2_pos (bits s - 1) ltac:(lia)) as HH.
  pose proof E as E'. rewrite straddles_north_spec in E' by done.
  assert (lower_bound s ≠ upper_bound s) as Hne by (intros ?; revert E'; zcases; try lia; done).
  pose proof (stride_pos s Hs Hne) as Hst.
  set (H := 2 ^ (bits s - 1)) in *.
  exists (H - 1 - (H - 1 - lower_bound s) mod stride s).
  pose proof (Z.mod_pos_bound (H - 1 - lower_bound s) (stride s) Hst).
  split.
  - split; fold H; [lia|by apply grid_max_on|intros Hlt].
    pose proof (Z.mod_le (H - 1 - lower_bound s) (stride s) ltac:(lia) Hst). lia.
  - unfold _signed_bounds, _nsplit. rewrite E, max_int_spec, py_mod_nz by lia. fold H.
    cbn [mbind result_bind]. rewrite !new_norm by lia. cbn [mbind result_bind]. unfold north_bounds.
    repeat f_equal; apply unsigned_to_signed_spec; try done; apply norm_range; lia.
Qed.

Lemma signed_bounds_enclose s :
  wf s → nsplit_ok s →
  ∃ bs, _signed_bounds s = Ok bs ∧ ∀ v, member s v → encloses bs (BVV.to_signed (bits s) v).
Proof.
  intros Hs Hok. pose proof (wf_bits s Hs) as Hw.
  pose proof (wf_lower s Hs) as Hl. pose proof (wf_upper s Hs) as Hu.
  pose proof (pow2_double (bits s) Hw) as HM. pose proof (pow2_pos (bits s - 1) ltac:(lia)) as HH.
  destruct (straddles_north s) eqn:E.
  - destruct (signed_bounds_straddle s Hs E) as (a & Ha & ->). eexists. split; [done|]. intros v Hv.
    rewrite straddles_north_spec in E by done.
    destruct (Z.lt_ge_cases (upper_bound s) (lower_bound s)).
    + destruct (Z.le_gt_cases (2 ^ (bits s - 1)) (upper_bound s)).
      * apply north_through; auto; lia.
      * apply north_around; auto. revert E. zcases; lia || done.
    + apply north_straight; auto. revert E. zcases; lia || done.
  - unfold _signed_bounds, _nsplit. rewrite E, copy_wf by done.
    eexists. split; [done|]. intros v [_ Hm]. rewrite !unsigned_to_signed_spec by done. apply encloses_one.
    rewrite straddles_north_spec in E by done. unfold BVV.to_signed.
    destruct (Z.lt_ge_cases (upper_bound s) (lower_bound s)).
    + rewrite arc_wrapping in Hm by lia.
      revert E. zcases; try lia; intros; try done; destruct Hm as [[? _]|[? _]]; lia.
    + rewrite arc_straight in Hm by lia.
      revert E. zcases; try lia; intros; try done; destruct Hm as [? _]; lia.
Qed.

(** ** The verdict on a pair of lists of bounds *)

Lemma encloses_inhabited bs v : encloses bs v → ∃ p, p ∈ bs.
Proof. intros [(p & Hp & _) _]. by exists p. Qed.

Lemma compare_bounds_sound yes no b1 b2 (c : bool) :
  (∃ p, p ∈ b1) → (∃ p, p ∈ b2) →
  ((∀ p1 p2, p1 ∈ b1 → p2 ∈ b2 → yes p1 p2 = true) → c = true) →
  ((∀ p1 p2, p1 ∈ b1 → p2 ∈ b2 → no p1 p2 = true) → c = false) →
  BoolResult.covers (compare_bounds yes no b1 b2) c.
Proof.
  intros [p Hp] [q Hq] Hyes Hno. unfold compare_bounds, verdict.
  set (f := λ p1 p2, if yes p1 p2 then BoolResult.TrueResult
    else if no p1 p2 then BoolResult.FalseResult else BoolResult.MaybeResult).
  assert (∀ r, forallb (λ r', BoolResult.identical r' r) (b1 ≫= λ p1, f p1 <$> b2) = true →
    ∀ p1 p2, p1 ∈ b1 → p2 ∈ b2 → f p1 p2 = r) as Hall.
  { intros r Hr p1 p2 H1 H2. rewrite forallb_forall in Hr.
    specialize (Hr (f p1 p2)). apply bool_decide_eq_true in Hr.
    - destruct (f p1 p2), r. cbn in Hr. by subst.
    - apply list_elem_of_In, list_elem_of_bind. exists p1. split; [|done]. by apply list_elem_of_fmap_2. }
  destruct (forallb _ _) eqn:E1; [|clear E1; destruct (forallb _ _) eqn:E1].
  - rewrite Hyes; [repeat constructor|]. intros p1 p2 H1 H2. specialize (Hall _ E1 p1 p2 H1 H2).
    unfold f in Hall. by destruct (yes p1 p2), (no p1 p2).
  - rewrite Hno; [repeat constructor|]. intros p1 p2 H1 H2. specialize (Hall _ E1 p1 p2 H1 H2).
    unfold f in Hall. by destruct (yes p1 p2), (no p1 p2).
  - destruct c; repeat constructor.
Qed.

(** The bounds of both operands enclose the two numbers compared: the four
    comparisons cover the answer. *)
Lemma compare_bounds_orders b1 b2 x y :
  encloses b1 x → encloses b2 y →
  BoolResult.covers (compare_bounds (λ '(lb1, ub1) '(lb2, ub2), ub1 <? lb2)
    (λ '(lb1, ub1) '(lb2, ub2), ub2 <=? lb1) b1 b2) (x <? y) ∧
  BoolResult.covers (compare_bounds (λ '(lb1, ub1) '(lb2, ub2), ub1 <=? lb2)
    (λ '(lb1, ub1) '(lb2, ub2), ub2 <? lb1) b1 b2) (x <=? y) ∧
  BoolResult.covers (compare_bounds (λ '(lb1, ub1) '(lb2, ub2), ub2 <? lb1)
    (λ '(lb1, ub1) '(lb2, ub2), ub1 <=? lb2) b1 b2) (y <? x) ∧
  BoolResult.covers (compare_bounds (λ '(lb1, ub1) '(lb2, ub2), ub2 <=? lb1)
    (λ '(lb1, ub1) '(lb2, ub2), ub1 <? lb2) b1 b2) (y <=? x).
Proof.
  intros Hx Hy. pose proof (encloses_inhabited _ _ Hx). pose proof (encloses_inhabited _ _ Hy).
  destruct Hx as [([l1 ?] & Hl1 & Hlx) ([? u1] & Hu1 & Hux)].
  destruct Hy as [([l2 ?] & Hl2 & Hly) ([? u2] & Hu2 & Huy)]. cbn in *.
  repeat split; (apply compare_bounds_sound; [done|done| |]); intros Hall;
    pose proof (Hall _ _ Hl1 Hl2) as H1; pose proof (Hall _ _ Hl1 Hu2) as H2;
    pose proof (Hall _ _ Hu1 Hl2) as H3; pose proof (Hall _ _ Hu1 Hu2) as H4;
    cbn in *; zcases; lia || done.
Qed.

(** ** Soundness of the comparisons *)

Lemma concrete_wf w v : 1 ≤ w → 0 ≤ v < 2 ^ w → BVV.wf (BVV.mkBVV v w).
Proof. intros. split; cbn; lia. Qed.

Lemma concrete_signed w v : 1 ≤ w → 0 ≤ v < 2 ^ w → BVV.signed (BVV.mkBVV v w) = Ok (BVV.to_signed w v).
Proof. intros. apply BVV.signed_spec; [by apply concrete_wf|cbn; lia]. Qed.

Lemma unsigned_bounds_enclose s :
  wf s → ∃ bs, _unsigned_bounds s = Ok bs ∧ ∀ v, member s v → encloses bs v.
Proof.
  intros Hs. destruct (ssplit_pieces s Hs) as (ps & Hps & [Hwf Hmem] & Hst & Hlen).
  rewrite (unsigned_bounds_spec s ps) by done. eexists. split; [done|].
  intros v Hv. apply Hmem in Hv as (p & Hp & [_ Hv]).
  rewrite Forall_forall in Hwf, Hst. apply list_elem_of_In in Hp as Hp'.
  destruct (Hwf p Hp') as (Hwp & Hb & _). specialize (Hst p Hp').
  unfold straight in Hst. pose proof (wf_lower p Hwp). pose proof (wf_upper p Hwp).
  rewrite arc_straight in Hv by lia.
  split; exists (lower_bound p, upper_bound p); (split; [|cbn; lia]);
    apply (list_elem_of_fmap_2 (λ p, (lower_bound p, upper_bound p))); done.
Qed.

(** C22: The unsigned comparisons of strided intervals that are not reversed are
    sound: whatever vectors of one width the two intervals stand for, the answer ([True],
    [False] or [Maybe]) covers what the concrete backend answers on them. *)
Theorem unsigned_comparisons_sound (a b : SI) (x y : BVV.BVV) :
  gamma a x → gamma b y → equal_width x y →
  approximates (ULT_unrev a b) (BVV.ULT (BVV.Bv x) (BVV.Bv y)) ∧
  approximates (ULE_unrev a b) (BVV.ULE (BVV.Bv x) (BVV.Bv y)) ∧
  approximates (UGT_unrev a b) (BVV.UGT (BVV.Bv x) (BVV.Bv y)) ∧
  approximates (UGE_unrev a b) (BVV.UGE (BVV.Bv x) (BVV.Bv y)).
Proof.
  intros (Ha & Hax & Hx) (Hb & Hby & Hy) Hw. pose proof (wf_bits a Ha).
  destruct (unsigned_bounds_enclose a Ha) as (b1 & E1 & H1).
  destruct (unsigned_bounds_enclose b Hb) as (b2 & E2 & H2).
  destruct (compare_bounds_orders b1 b2 _ _ (H1 _ Hx) (H2 _ Hy)) as (? & ? & ? & ?).
  unfold ULT_unrev, ULE_unrev, UGT_unrev, UGE_unrev. rewrite E1, E2.
  repeat split; (eapply approximates_intro; [reflexivity| |eassumption]);
    cbn [BVV.ULT BVV.ULE BVV.UGT BVV.UGE BVV.normalize_types];
    rewrite BVV.compare_bits_eq by (lia || done); done.
Qed.

(** C23: The signed comparisons of strided intervals of one width that are not
    reversed are sound on the intervals the cut at the north pole can handle
    ([nsplit_ok]): the answer covers what the concrete backend answers on the
    signed readings of any two vectors the intervals stand for. *)
Theorem signed_comparisons_sound (a b : SI) (x y : BVV.BVV) :
  nsplit_ok a → nsplit_ok b → gamma a x → gamma b y → equal_width x y →
  approximates (SLT_unrev a b) (BVV.SLT (BVV.Bv x) (BVV.Bv y)) ∧
  approximates (SLE_unrev a b) (BVV.SLE (BVV.Bv x) (BVV.Bv y)) ∧
  approximates (SGT_unrev a b) (BVV.SGT (BVV.Bv x) (BVV.Bv y)) ∧
  approximates (SGE_unrev a b) (BVV.SGE (BVV.Bv x) (BVV.Bv y)).
Proof.
  intros Hna Hnb (Ha & Hax & Hx) (Hb & Hby & Hy) Hw. pose proof (wf_bits a Ha) as Hw1. unfold equal_width in Hw.
  pose proof (member_range a _ Hx) as Rx. pose proof (member_range b _ Hy) as Ry.
  destruct (signed_bounds_enclose a Ha Hna) as (b1 & E1 & H1).
  destruct (signed_bounds_enclose b Hb Hnb) as (b2 & E2 & H2).
  destruct (compare_bounds_orders b1 b2 _ _ (H1 _ Hx) (H2 _ Hy)) as (? & ? & ? & ?).
  assert (bits b = bits a) as Eb by congruence. rewrite Eb in *.
  unfold SLT_unrev, SLE_unrev, SGT_unrev, SGE_unrev. rewrite E1, E2. destruct x as [x w], y as [y w']; cbn in *; subst.
  repeat split; (eapply approximates_intro; [reflexivity| |eassumption]);
    cbn [BVV.SLT BVV.SLE BVV.SGT BVV.SGE BVV.normalize_types];
    rewrite BVV.compare_bits_eq, ?Hby, !concrete_signed by done; done.
Qed.

(** ** Enumeration *)

Lemma eval_while_spec fuel n st lb ub res :
  0 < st → n ≤ Z.of_nat fuel + Z.of_nat (length res) →
  let out := eval_while fuel n st lb ub res in
  (∀ v, v ∈ res → v ∈ out) ∧
  (∀ v, v ∈ out → v ∈ res ∨ (lb ≤ v ≤ ub ∧ (st | v - lb))) ∧
  Z.of_nat (length out) ≤ Z.max n (Z.of_nat (length res)) ∧
  (Z.of_nat (length out) < n → ∀ v, lb ≤ v ≤ ub → (st | v - lb) → v ∈ out).
Proof.
  intros Hst. revert lb res. induction fuel as [|fuel IH]; intros lb res Hn; cbn.
  { split; [auto|]. split; [auto|]. split; lia. }
  destruct (Z.ltb_spec (Z.of_nat (length res)) n); cbn.
  2: { split; [auto|]. split; [auto|]. split; lia. }
  destruct (Z.leb_spec lb ub); cbn.
  2: { split; [auto|]. split; [auto|]. split; lia. }
  destruct (IH (lb + st) (res ++ [lb])) as (I1 & I2 & I3 & I4); [rewrite length_app; cbn; lia|].
  set (out := eval_while _ _ _ _ _ _) in *. rewrite length_app in I3. cbn in I3.
  split; [|split; [|split; [lia|]]].
  - intros v Hv. apply I1, elem_of_app. by left.
  - intros v [[Hv|Hv%list_elem_of_singleton]%elem_of_app|[Hv Hd]]%I2; [by left|right|right].
    + subst. split; [lia|]. rewrite Z.sub_diag. apply Z.divide_0_r.
    + split; [lia|]. divides_by ((v - (lb + st)) + st).
  - intros Hlen v Hv Hd. destruct (Z.eq_dec v lb) as [->|].
    + apply I1, elem_of_app. right. by apply list_elem_of_singleton.
    + pose proof (grid_gap _ _ Hst Hd ltac:(lia)). apply I4; [done|lia|]. divides_by ((v - lb) - st).
Qed.

Lemma eval_pieces_full n st (ps : list SI) res :
  n ≤ Z.of_nat (length res) →
  foldl (λ results '(lb, ub), eval_while (Z.to_nat n) n st lb ub results) res
    ((λ p, (lower_bound p, upper_bound p)) <$> ps) = res.
Proof.
  intros Hge. induction ps as [|p ps IH]; cbn; [done|].
  replace (eval_while _ _ _ _ _ res) with res; [done|].
  destruct (Z.to_nat n); cbn; [done|]. by destruct (Z.ltb_spec (Z.of_nat (length res)) n); [lia|].
Qed.

Lemma eval_pieces_spec n st (ps : list SI) res :
  0 < st → 0 ≤ n → Z.of_nat (length res) ≤ n →
  let out := foldl (λ results '(lb, ub), eval_while (Z.to_nat n) n st lb ub results) res
               ((λ p, (lower_bound p, upper_bound p)) <$> ps) in
  (∀ v, v ∈ res → v ∈ out) ∧
  (∀ v, v ∈ out → v ∈ res ∨ ∃ p, p ∈ ps ∧ lower_bound p ≤ v ≤ upper_bound p ∧ (st | v - lower_bound p)) ∧
  Z.of_nat (length out) ≤ n ∧
  (Z.of_nat (length out) < n →
    ∀ p v, p ∈ ps → lower_bound p ≤ v ≤ upper_bound p → (st | v - lower_bound p) → v ∈ out).
Proof.
  intros Hst Hn. revert res. induction ps as [|p ps IH]; intros res Hres; cbn.
  { split; [auto|]. split; [auto|]. split; [lia|]. intros _ p v Hp. by apply elem_of_nil in Hp. }
  destruct (eval_while_spec (Z.to_nat n) n st (lower_bound p) (upper_bound p) res) as (J1 & J2 & J3 & J4); [done|lia|].
  set (mid := eval_while _ _ _ _ _ _) in *.
  destruct (IH mid) as (I1 & I2 & I3 & I4); [lia|]. cbn in *.
  set (out := foldl _ _ _) in *. split; [auto|]. split; [|split; [done|]].
  - intros v Hv. destruct (I2 v Hv) as [Hm|(q & Hq & Hr)].
    + destruct (J2 v Hm) as [|Hr]; [by left|]. right. exists p. split; [constructor|done].
    + right. exists q. split; [by constructor|done].
  - intros Hlen q v Hq Hv Hd. apply elem_of_cons in Hq as [->|Hq]; [|by eapply I4].
    destruct (Z.le_gt_cases n (Z.of_nat (length mid))) as [Hge|Hlt]; [|by apply I1, J4].
    pose proof (eval_pieces_full n st ps mid Hge) as E. fold out in E. rewrite E in Hlen. lia.
Qed.

Lemma wf_point s : wf s → stride s = 0 → lower_bound s = upper_bound s.
Proof.
  intros Hs H0. destruct (Z.eq_dec (lower_bound s) (upper_bound s)) as [|Hne]; [done|].
  pose proof (stride_pos s Hs Hne). lia.
Qed.

Lemma member_point s v : wf s → stride s = 0 → member s v ↔ v = lower_bound s.
Proof.
  intros Hs H0. pose proof (wf_point s Hs H0) as E. unfold member.
  pose proof (wf_lower s Hs). rewrite <-E, arc_straight, (wf_bottom s Hs) by lia.
  split; [intros (_ & ? & _); lia|intros ->]. rewrite Z.sub_diag. split; [done|]. split; [lia|apply Z.divide_0_r].
Qed.

(** A piece of an interval keeps its stride, unless it is a single integer. *)
Lemma ssplit_stride s ps :
  wf s → _ssplit s = Ok ps →
  ∀ p v, p ∈ ps → member p v ↔ lower_bound p ≤ v ≤ upper_bound p ∧ (stride s | v - lower_bound p).
Proof.
  intros Hs Hps p v Hp. pose proof (wf_bits s Hs). pose proof (wf_upper s Hs). pose proof (wf_lower s Hs).
  destruct (Z.le_gt_cases (lower_bound s) (upper_bound s)) as [Hle|Hgt].
  - rewrite ssplit_straight in Hps by done. injection Hps as <-. apply list_elem_of_singleton in Hp as ->.
    unfold member. rewrite (wf_bottom s Hs), arc_straight by lia. tauto.
  - destruct (ssplit_wrap s Hs) as (Ha & Hda & Hb & Hdb & E); [lia|]. rewrite E in Hps. injection Hps as <-.
    apply elem_of_cons in Hp as [-> | Hp%list_elem_of_singleton]; [|subst p]; rewrite norm_member by done;
      rewrite arc_straight by lia; (edestruct norm_straight as (-> & -> & _); [| | |reflexivity]); lia.
Qed.

(** Enumeration of an interval ([eval] up to [n] values, unsigned) answers
    at most [n] integers, all of them members of the interval, and when it
    answers fewer than [n] it has listed every member; the loops need no more
    than [n] rounds. *)
Theorem eval_enumerates (s : SI) (n : Z) :
  wf s → 0 ≤ n →
  ∃ rs, eval_unrev s n false = Ok rs ∧ Z.of_nat (length rs) ≤ n ∧ (∀ v, v ∈ rs → member s v) ∧
    (Z.of_nat (length rs) < n → ∀ v, member s v → v ∈ rs).
Proof.
  intros Hs Hn. unfold eval_unrev, is_empty. rewrite (wf_bottom s Hs).
  destruct (ssplit_pieces s Hs) as (ps & Hps & [Hwf Hmem] & _ & Hlen).
  rewrite (unsigned_bounds_spec s ps) by done. cbn [mbind result_bind].
  destruct (Z.eqb_spec (stride s) 0) as [H0|H0]; cbn [andb].
  - destruct (Z.ltb_spec 0 n).
    + eexists. split; [done|]. split; [cbn; lia|]. setoid_rewrite (member_point s) ; [|done..].
      split; [by intros v ->%list_elem_of_singleton|]. intros _ v ->. constructor.
    + assert (n = 0) as -> by lia. cbn. exists []. split; [f_equal; by apply (eval_pieces_full 0)|].
      split; [done|]. split; [intros v Hv; by apply elem_of_nil in Hv|cbn; lia].
  - pose proof (wf_stride s Hs).
    destruct (eval_pieces_spec n (stride s) ps []) as (_ & I2 & I3 & I4); [lia|done|done|].
    eexists. split; [done|]. split; [done|]. split.
    + intros v [Hv|(p & Hp & Hv)]%I2; [by apply elem_of_nil in Hv|]. apply Hmem. exists p.
      split; [done|]. by apply (ssplit_stride s ps).
    + intros Hlt v (p & Hp & Hv)%Hmem. apply (ssplit_stride s ps) in Hv as [Hv Hd]; [|done..]. by apply (I4 Hlt p).
Qed.

(** ** Two intervals through both poles *)

(** The signed comparison is not sound on every interval.  [<4>3[14, 10]]
    stands for 14, 1, 4, 7 and 10; it starts and ends in the upper half, runs
    through both poles, and its stride does not divide 16.  The cut at the
    north pole moves off the grid there, the bounds lose 7, and [SLT] answers
    [True] against 6. *)
Theorem signed_comparison_unsound :
  ∃ s t, wf s ∧ wf t ∧ ¬ nsplit_ok s ∧ member s 7 ∧ member t 6 ∧
    SLT_unrev s t = Ok BoolResult.TrueResult ∧
    BVV.SLT (BVV.Bv (BVV.mkBVV 7 4)) (BVV.Bv (BVV.mkBVV 6 4)) = Ok false.
Proof.
  exists (mkSI 4 3 14 10 false false false), (mkSI 4 0 6 6 false false false).
  split; [split; cbn; try lia; try done; apply divide_mod; done|].
  split; [split; cbn; try lia; try done; apply divide_mod; done|].
  split; [unfold nsplit_ok; cbn; intros H; specialize (H ltac:(lia)); apply divide_mod in H; done|].
  split; [by apply (bool_decide_unpack _); vm_compute|].
  split; [by apply (bool_decide_unpack _); vm_compute|]. split; reflexivity.
Qed.

(** Enumeration with [signed=True] is not complete: [<4>1[12, 9]] stands
    for fourteen integers, but the first bounds read off the cut at the north
    pole are [(12, 7)], an empty range, and only two integers are listed
    although a hundred were asked for. *)
Theorem eval_signed_incomplete :
  ∃ s, wf s ∧ nsplit_ok s ∧ eval_unrev s 100 true = Ok [-8; -7] ∧ member s 3 ∧ cardinality s = Ok 14.
Proof.
  exists (mkSI 4 1 12 9 false false false).
  split; [split; cbn; try lia; try done; apply divide_mod; done|].
  split; [intros _; apply divide_mod; done|]. split; [reflexivity|].
  split; [by apply (bool_decide_unpack _); vm_compute|reflexivity].
Qed.

(** ** Witnesses *)

(** [wf], [nsplit_ok], [member] and [gamma] are decided on concrete
    intervals. *)
Ltac si_concrete :=
  lazymatch goal with
  | |- wf _ => split; cbn; try lia; try done; apply divide_mod; done
  | |- nsplit_ok _ => unfold nsplit_ok; cbn; intros; lia
  | |- member _ _ => apply (bool_decide_unpack _); vm_compute; exact I
  | |- gamma _ _ => split; [si_concrete|split; [reflexivity|si_concrete]]
  | |- _ => reflexivity
  end.

Definition sample_low : SI := mkSI 4 2 1 5 false false false.
Definition sample_wrap : SI := mkSI 4 3 9 2 false false false.

Lemma unsigned_comparisons_sound_witness :
  ULT_unrev sample_low sample_wrap = Ok BoolResult.MaybeResult ∧
  approximates (ULT_unrev sample_low sample_wrap)
    (BVV.ULT (BVV.Bv (BVV.mkBVV 3 4)) (BVV.Bv (BVV.mkBVV 12 4))).
Proof.
  split; [reflexivity|].
  apply (unsigned_comparisons_sound sample_low sample_wrap (BVV.mkBVV 3 4) (BVV.mkBVV 12 4)); si_concrete.
Defined.

Lemma signed_comparisons_sound_witness :
  approximates (SLT_unrev sample_wrap sample_low)
    (BVV.SLT (BVV.Bv (BVV.mkBVV 12 4)) (BVV.Bv (BVV.mkBVV 5 4))).
Proof.
  apply (signed_comparisons_sound sample_wrap sample_low (BVV.mkBVV 12 4) (BVV.mkBVV 5 4)); si_concrete.
Defined.

Lemma eval_enumerates_witness :
  eval_unrev sample_wrap 3 false = Ok [9; 12; 15] ∧
  ∃ rs, eval_unrev sample_wrap 9 false = Ok rs ∧ Z.of_nat (length rs) ≤ 9 ∧
    (∀ v, v ∈ rs → member sample_wrap v) ∧
    (Z.of_nat (length rs) < 9 → ∀ v, member sample_wrap v → v ∈ rs).
Proof. split; [reflexivity|]. apply (eval_enumerates sample_wrap 9); [si_concrete|lia]. Defined.

End SiOrder.
