(* ===== verification/SiJoin.v ===== *)
(** * Strided intervals, part 3: joins, meets and widening

    [_minimal_common_integer] with its diophantine solver, the pseudo-join, the
    least upper bound of several intervals, [intersection], [solution], [eq] and
    [widen], and the part of the decorator [normalize_types] that concerns
    operands that are not reversed (coercion of integers, extension to a common
    width, propagation of the flag [uninitialized]). *)

From Stdlib Require Import ZArith Lia Bool Znumtheory ZifyBool SpecFloat.
From stdpp Require Import base tactics list numbers.
From S2P Require Import Prelude Bvv BoolResult StridedInterval SiOrder.

Module SiJoin.
Import SI SiOrder.

(** ** Binary64 numbers, as the solver uses them *)

(** Conversion of an integer to a float, as [float(b)] and the division of an
    integer by a float perform it. *)
Definition float_of_int (z : Z) : result spec_float :=
  match binary_normalize 53 1024 z 0 false with
  | S754_infinity _ => Err OverflowError
  | f => Ok f
  end.

Definition float_div (x y : spec_float) : spec_float := SFdiv 53 1024 x y.

Definition math_floor (x : spec_float) : result Z :=
  match x with
  | S754_zero _ => Ok 0
  | S754_infinity _ => Err OverflowError
  | S754_nan => Err ValueError
  | S754_finite s m e =>
      let z := if s then - Zpos m else Zpos m in
      Ok (if 0 <=? e then z * 2 ^ e else z / 2 ^ (- e))
  end.

Definition math_ceil (x : spec_float) : result Z := Z.opp <$> math_floor (SFopp x).

(** ** The diophantine solver *)

(** The recursion of [extended_euclid]; [2 * log2 b + 3] calls are enough. *)
Fixpoint euclid_fuel (fuel : nat) (a b : Z) : result (Z * Z * Z) :=
  match fuel with
  | O => Err RecursionError
  | S fuel =>
      if b =? 0 then Ok (1, 0, a)
      else
        '(x0, y0, d) ← euclid_fuel fuel b (a mod b);
        Ok (y0, x0 - (a / b) * y0, d)
  end.

Definition extended_euclid (a b : Z) : result (Z * Z * Z) :=
  euclid_fuel (Z.to_nat (2 * Z.log2 (Z.abs b) + 3)) a b.

Definition sign (a : Z) : Z := if a <? 0 then -1 else 1.

(** The directions [">="] and ["<="] of the two inequalities. *)
Inductive direction := Ge | Le.

Definition get_intersection (a b : spec_float) (a_dir b_dir : direction)
    : option (spec_float * spec_float) :=
  match a_dir, b_dir with
  | Ge, Ge => Some (if SFltb b a then a else b, S754_infinity false)
  | Le, Ge => if SFltb b a then Some (b, a) else None
  | Ge, Le => if SFltb a b then Some (a, b) else None
  | Le, Le => Some (S754_infinity true, if SFltb a b then a else b)
  end.

Definition diop_natural_solution_linear (c a b : Z) : result (option (Z * Z)) :=
  let d := Z.gcd (Z.gcd a b) c in
  a ← py_floordiv a d;
  b ← py_floordiv b d;
  c ← py_floordiv c d;
  if c =? 0 then Ok (Some (0, 0))
  else
    '(x0, y0, d) ← extended_euclid (Z.abs a) (Z.abs b);
    let x0 := x0 * sign a in
    let y0 := y0 * sign b in
    r ← py_mod c d;
    if r =? 0 then
      _ ← guard_exn (negb (b =? 0)) AssertionError;
      _ ← guard_exn (negb (a =? 0)) AssertionError;
      n0 ← float_of_int (- c * x0);
      d0 ← float_of_int b;
      let t0 := float_div n0 d0 in
      n1 ← float_of_int (c * y0);
      d1 ← float_of_int a;
      let t1 := float_div n1 d1 in
      let t0_dir := if b <? 0 then Le else Ge in
      let t1_dir := if a <? 0 then Ge else Le in
      match get_intersection t0 t1 t0_dir t1_dir with
      | None => Err TypeError
      | Some (lb, ub) =>
          let zero := S754_zero false in
          let nearest := if SFltb (SFabs ub) (SFabs lb) then ub else lb in
          let infinite f := SFeqb f (S754_infinity false) || SFeqb f (S754_infinity true) in
          let t :=
            if SFleb lb zero && SFleb zero ub then nearest
            else if infinite lb then ub
            else if infinite ub then lb
            else nearest in
          t ← (if SFeqb t ub then math_floor t else math_ceil t);
          Ok (Some (c * x0 + b * t, c * y0 - a * t))
      end
    else Ok None.

(** ** The least common integer of two intervals *)

(** The case where [si_0] is an integer. *)
Definition common_integer_point (si_0 si_1 : SI) : result (option Z) :=
  if is_integer si_1 then
    Ok (if negb (lower_bound si_0 =? lower_bound si_1) then None else Some (lower_bound si_0))
  else if (lower_bound si_1 <=? lower_bound si_0) && (lower_bound si_0 <=? upper_bound si_1) then
    r ← py_mod (lower_bound si_0 - lower_bound si_1) (stride si_1);
    Ok (if r =? 0 then Some (lower_bound si_0) else None)
  else Ok None.

Definition _minimal_common_integer_splitted (si_0 si_1 : SI) : result (option Z) :=
  let a := stride si_0 in
  let c := stride si_1 in
  let b := lower_bound si_0 in
  let d := lower_bound si_1 in
  if is_integer si_0 then common_integer_point si_0 si_1
  else if is_integer si_1 then common_integer_point si_1 si_0
  else if (upper_bound si_0 <? lower_bound si_1) || (upper_bound si_1 <? lower_bound si_0) then Ok None
  else
    r ← py_mod (d - b) (Z.gcd a c);
    if negb (r =? 0) then Ok None
    else
      xy ← diop_natural_solution_linear (- (b - d)) a (- c);
      match xy with
      | None => Err TypeError
      | Some (x, y) =>
          let first_integer := x * a + b in
          _ ← guard_exn (first_integer =? y * c + d) AssertionError;
          Ok (if (lower_bound si_0 <=? first_integer) && (first_integer <=? upper_bound si_0) &&
                 (lower_bound si_1 <=? first_integer) && (first_integer <=? upper_bound si_1)
              then Some first_integer else None)
      end.

Definition _minimal_common_integer (si_0 si_1 : SI) : result (option Z) :=
  p0 ← _ssplit si_0;
  p1 ← _ssplit si_1;
  let '(p0, p1) := if (length p0 =? 1)%nat && (length p1 =? 2)%nat then (p1, p0) else (p0, p1) in
  match p0, p1 with
  | [_], [_] => _minimal_common_integer_splitted si_0 si_1
  | [a0; a1], [b0] =>
      int_0 ← _minimal_common_integer_splitted a0 b0;
      int_1 ← _minimal_common_integer_splitted a1 b0;
      Ok (match int_0 with None => int_1 | Some _ => int_0 end)
  | [a0; a1], [b0; b1] =>
      int_0 ← _minimal_common_integer_splitted a0 b0;
      int_1 ← _minimal_common_integer_splitted a1 b1;
      Ok (match int_0 with None => int_1 | Some _ => int_0 end)
  | _, _ => Err IndexError
  end.

(** ** Joins *)

Definition pseudo_join (s b : SI) (smart_join : bool) : result SI :=
  _ ← guard_exn (bits s =? bits b) AssertionError;
  let w := bits s in
  let uninit_flag := uninitialized s || uninitialized b in
  let mk st l u := new w st l u uninit_flag in
  if is_empty s then Ok b
  else if is_empty b then Ok s
  else if is_integer s && is_integer b then
    let upper := if smart_join then Z.max (upper_bound s) (upper_bound b) else upper_bound b in
    let lower := if smart_join then Z.min (lower_bound s) (lower_bound b) else lower_bound s in
    mk (Z.abs (upper - lower)) lower upper
  else if _is_surrounded s b then
    let new_stride := if is_interval s then Z.gcd (stride s) (stride b) else stride b in
    mk (Z.gcd new_stride (_modular_sub (lower_bound s) (lower_bound b) w)) (lower_bound b) (upper_bound b)
  else if _is_surrounded b s then
    let new_stride := if is_interval b then Z.gcd (stride s) (stride b) else stride s in
    mk (Z.gcd new_stride (_modular_sub (lower_bound b) (lower_bound s) w)) (lower_bound s) (upper_bound s)
  else if _surrounds_member s (lower_bound b) && _surrounds_member s (upper_bound b) &&
          _surrounds_member b (lower_bound s) && _surrounds_member b (upper_bound s) then
    top w uninit_flag
  else if _surrounds_member s (lower_bound b) then
    mk (Z.gcd (Z.gcd (stride s) (stride b)) (_modular_sub (lower_bound b) (lower_bound s) w))
      (lower_bound s) (upper_bound b)
  else if _surrounds_member b (lower_bound s) then
    mk (Z.gcd (Z.gcd (stride s) (stride b)) (_modular_sub (lower_bound s) (lower_bound b) w))
      (lower_bound b) (upper_bound s)
  else if negb smart_join then
    let new_stride :=
      if is_integer s then Z.gcd (stride b) (_modular_sub (lower_bound b) (lower_bound s) w)
      else if is_integer b then Z.gcd (stride s) (_modular_sub (lower_bound b) (lower_bound s) w)
      else Z.gcd (Z.gcd (stride s) (stride b))
             (_wrapped_cardinality (lower_bound s) (lower_bound b) w - 1) in
    mk new_stride (lower_bound s) (upper_bound b)
  else
    let new_stride :=
      if is_integer s then stride b
      else if is_integer b then stride s
      else Z.gcd (stride s) (stride b) in
    let new_stride1 := Z.gcd new_stride (_wrapped_cardinality (lower_bound b) (lower_bound s) w - 1) in
    let new_stride2 := Z.gcd new_stride (_wrapped_cardinality (lower_bound s) (lower_bound b) w - 1) in
    si1 ← mk new_stride1 (lower_bound b) (upper_bound s);
    si2 ← mk new_stride2 (lower_bound s) (upper_bound b);
    n1 ← n_values si1;
    n2 ← n_values si2;
    Ok (if n1 <=? n2 then si1 else si2).

(** One candidate of [least_upper_bound]: the joins from the [i]-th interval on. *)
Definition join_from (sorted : list SI) (i : nat) : result SI :=
  match drop i sorted ++ take i sorted with
  | [] => Err TypeError
  | x :: l => foldM (λ x y, pseudo_join x y false) x l
  end.

Definition least_upper_bound (intervals_to_join : list SI) : result SI :=
  match intervals_to_join with
  | [] => Err AssertionError
  | s0 :: rest =>
      _ ← guard_exn (forallb (λ x, bits x =? bits s0) intervals_to_join) AssertionError;
      match rest with
      | [] => copy s0
      | [s1] => pseudo_join s0 s1 true
      | _ =>
          let sorted := py_sorted lower_bound intervals_to_join in
          ret ← foldM (λ ret i,
            si ← join_from sorted i;
            match ret with
            | None => Ok (Some si)
            | Some r =>
                nr ← n_values r; ns ← n_values si;
                Ok (if ns <? nr then Some si else Some r)
            end) None (seq 0 (length sorted));
          match ret with
          | None => Err AttributeError
          | Some r =>
              Ok (if existsb (λ x, uninitialized x && negb (bits x =? 0)) intervals_to_join
                  then set_uninitialized r true else r)
          end
      end
  end.

(** ** The decorator [normalize_types] on operands that are not reversed *)

(** [agnostic_extend] of an interval that is not reversed.  The result is not
    normalised: its width and bounds are overwritten in a copy. *)
Definition agnostic_extend_unrev (s : SI) (new_length : Z) : result SI :=
  si ← copy s;
  let si := set_bits si new_length in
  let ub_msb := _get_msb (upper_bound s) (bits s) in
  let lb_msb := _get_msb (lower_bound s) (bits s) in
  let '(leading_1_lb, leading_1_ub, case_6) :=
    if lb_msb =? 1 then
      if ub_msb =? 1 then
        (upper_bound s <? lower_bound s, true, lower_bound s =? upper_bound s)
      else (false, false, false)
    else if ub_msb =? 1 then (false, true, false)
    else (false, false, false) in
  let mask := (2 ^ new_length - 1) - (2 ^ bits s - 1) in
  let si := if leading_1_lb : bool then set_lower si (Z.lor (lower_bound si) mask) else si in
  let si := if leading_1_ub : bool then set_upper si (Z.lor (upper_bound si) mask) else si in
  Ok (if case_6 : bool then set_stride si (upper_bound si - lower_bound si) else si).

(** An integer operand becomes an interval of the width of [self]. *)
Definition coerce (self : SI) (o : operand) : result SI :=
  match o with Si o => Ok o | Num n => new (bits self) 0 n n false end.

(** Both operands at the larger of the two widths. *)
Definition common_width (self o : SI) : result (SI * SI) :=
  let common_bits := Z.max (bits o) (bits self) in
  o ← (if bits o <? common_bits then agnostic_extend_unrev o common_bits else Ok o);
  self ← (if bits self <? common_bits then agnostic_extend_unrev self common_bits else Ok self);
  Ok (self, o).

(** The decorated method: [f] on the coerced operands, and the flag
    [uninitialized] of either operand passed on to an interval. *)
Definition normalize_types_unrev (f : SI → SI → result SI) (self : SI) (o : operand) : result SI :=
  o ← coerce self o;
  '(self, o) ← common_width self o;
  ret ← f self o;
  Ok (if uninitialized self || uninitialized o then set_uninitialized ret true else ret).

(** The same for methods that do not return an interval. *)
Definition normalize_types_other {A} (f : SI → SI → result A) (self : SI) (o : operand) : result A :=
  o ← coerce self o;
  '(self, o) ← common_width self o;
  f self o.

(** [union], while [_allow_dsis_flag] is off, its default. *)
Definition union_unrev : SI → operand → result SI :=
  normalize_types_unrev (λ self b, least_upper_bound [self; b]).

Definition _union_unrev : SI → operand → result SI :=
  normalize_types_unrev (λ self b, pseudo_join self b true).

(** ** Meets *)

(** The largest value not above [ub] on the grid from [lb]. *)
Definition clip_upper (w new_stride ub lb : Z) : result Z :=
  q ← py_floordiv (_modular_sub ub lb w) new_stride;
  Ok (_modular_add (q * new_stride) lb w).

(** The interval from the common integer [lb], if there is one, up to [ub]. *)
Definition meet_upto (w new_stride ub : Z) (lb : option Z) : result SI :=
  match lb with
  | None => empty w
  | Some lb => ub ← clip_upper w new_stride ub lb; new w new_stride lb ub false
  end.

(** An integer [integer] against the interval [b]. *)
Definition meet_integer (w integer : Z) (b : SI) (dist : Z) : result SI :=
  r ← py_mod dist (stride b);
  if (r =? 0) && _surrounds_member b integer then new w 0 integer integer false else empty w.

Definition meet_intervals (self b : SI) : result (list SI) :=
  let w := bits self in
  let new_stride := Z.lcm (stride self) (stride b) in
  let single m := r ← m; Ok [r] in
  if _is_surrounded self b then
    lb ← _minimal_common_integer self b;
    single (meet_upto w new_stride (upper_bound self) lb)
  else if _is_surrounded b self then
    lb ← _minimal_common_integer self b;
    single (meet_upto w new_stride (upper_bound b) lb)
  else if _surrounds_member self (lower_bound b) && _surrounds_member self (upper_bound b) &&
          _surrounds_member b (lower_bound self) && _surrounds_member b (upper_bound self) then
    s0 ← new w (stride self) (lower_bound self) (upper_bound b) false;
    s1 ← new w (stride b) (lower_bound b) (upper_bound self) false;
    lb_s0_new ← _minimal_common_integer s0 b;
    lb_s1_new ← _minimal_common_integer s1 self;
    s0 ← meet_upto w new_stride (upper_bound b) lb_s0_new;
    s1 ← meet_upto w new_stride (upper_bound self) lb_s1_new;
    Ok [s0; s1]
  else if _surrounds_member self (lower_bound b) then
    lb ← _minimal_common_integer b self;
    single (meet_upto w new_stride (upper_bound self) lb)
  else if _surrounds_member self (upper_bound b) then
    lb ← _minimal_common_integer b self;
    single (meet_upto w new_stride (upper_bound b) lb)
  else if _surrounds_member b (lower_bound self) then
    lb ← _minimal_common_integer self b;
    single (meet_upto w new_stride (upper_bound b) lb)
  else if _surrounds_member b (upper_bound self) then
    lb ← _minimal_common_integer self b;
    single (meet_upto w new_stride (upper_bound self) lb)
  else single (empty w).

Definition multi_valued_body (self b : SI) : result (list SI) :=
  let w := bits self in
  if is_empty self || is_empty b then e ← empty w; Ok [e]
  else
    _ ← guard_exn (w =? bits b) AssertionError;
    ret ← (if is_integer self && is_integer b then
             r ← (if lower_bound self =? lower_bound b
                  then new w 0 (lower_bound self) (lower_bound self) false else empty w);
             Ok [r]
           else if is_integer self then
             r ← meet_integer w (lower_bound self) b (lower_bound b - lower_bound self); Ok [r]
           else if is_integer b then
             r ← meet_integer w (lower_bound b) self (lower_bound b - lower_bound self); Ok [r]
           else meet_intervals self b);
    mapM normalize ret.

Definition _multi_valued_intersection_unrev : SI → operand → result (list SI) :=
  normalize_types_other multi_valued_body.

Definition intersection_unrev : SI → operand → result SI :=
  normalize_types_unrev (λ self b,
    l ← _multi_valued_intersection_unrev self (Si b);
    match l with
    | [v; v'] => pseudo_join v v' true
    | v :: _ => Ok v
    | [] => Err IndexError
    end).

(** [solution] of an integer. *)
Definition solution_unrev (self : SI) (n : Z) : result bool :=
  b ← new (bits self) 0 n n false;
  r ← intersection_unrev self (Si b);
  Ok (negb (is_empty r)).

(** [eq]; [same_name] says whether the two objects carry the same label. *)
Definition eq_unrev (same_name : bool) : SI → operand → result BoolResult.BoolResult :=
  normalize_types_other (λ self o,
    if is_integer self && is_integer o then
      Ok (if lower_bound self =? lower_bound o then BoolResult.TrueResult else BoolResult.FalseResult)
    else if same_name then Ok BoolResult.TrueResult
    else
      si_intersection ← intersection_unrev self (Si o);
      Ok (if is_empty si_intersection then BoolResult.FalseResult else BoolResult.MaybeResult)).

(** ** Widening *)

Definition widen_unrev : SI → operand → result SI :=
  normalize_types_unrev (λ self b,
    let w := bits self in
    ret ← (if is_empty self && negb (is_empty b) then top w false
           else if is_empty self then Ok b
           else if is_empty b then Ok self
           else
             let new_stride := Z.gcd (stride self) (stride b) in
             let lower := if lower_bound b <? lower_bound self
                          then SI.lower w (lower_bound self) new_stride else lower_bound self in
             let upper := if upper_bound self <? upper_bound b
                          then SI.upper w (upper_bound self) new_stride else upper_bound self in
             if new_stride =? 0 then
               if is_integer self && is_integer b then new w 1 lower upper false
               else Err ClaripyOperationError
             else new w new_stride lower upper false);
    normalize ret).

(** ** Distances on the circle *)

Definition dist (w x y : Z) : Z := (y - x) mod 2 ^ w.

Lemma dist_eq w x y :
  0 ≤ x < 2 ^ w → 0 ≤ y < 2 ^ w → dist w x y = if x <=? y then y - x else y - x + 2 ^ w.
Proof. intros. by apply mod_dist. Qed.

Lemma dist_range w x y : 0 ≤ w → 0 ≤ dist w x y < 2 ^ w.
Proof. apply mod_pow2_bound. Qed.

Lemma dist_chain w x y z :
  0 ≤ w → dist w x y + dist w y z = dist w x z ∨ dist w x y + dist w y z = dist w x z + 2 ^ w.
Proof.
  intros Hw. pose proof (dist_range w x y Hw). pose proof (dist_range w y z Hw).
  assert (dist w x z = (dist w x y + dist w y z) mod 2 ^ w) as ->.
  { unfold dist. rewrite <-Z.add_mod by lia. f_equal. lia. }
  destruct (Z.lt_ge_cases (dist w x y + dist w y z) (2 ^ w)); [left; by rewrite Z.mod_small by lia|right].
  rewrite <-(Z_mod_plus_full _ (-1)), Z.mod_small; lia.
Qed.

Lemma dist_self w x : 0 ≤ w → dist w x x = 0.
Proof. intros. unfold dist. rewrite Z.sub_diag. apply Z.mod_0_l. pose proof (pow2_pos w). lia. Qed.

Lemma dist_zero w x y : 0 ≤ x < 2 ^ w → 0 ≤ y < 2 ^ w → dist w x y = 0 → x = y.
Proof. intros. rewrite dist_eq in * by done. zcases; lia. Qed.

Lemma dist_inj w x y z :
  0 ≤ y < 2 ^ w → 0 ≤ z < 2 ^ w → 0 ≤ w → dist w x y = dist w x z → y = z.
Proof.
  intros Hy Hz Hw E. apply (dist_zero w); [done|done|].
  pose proof (dist_chain w x y z Hw). pose proof (dist_range w y z Hw). lia.
Qed.

Lemma dist_back w x y :
  0 ≤ w → dist w x y = 0 ∧ dist w y x = 0 ∨ dist w x y + dist w y x = 2 ^ w.
Proof.
  intros Hw. pose proof (dist_range w x y Hw). pose proof (dist_range w y x Hw).
  destruct (dist_chain w x y x Hw) as [E|E]; rewrite dist_self in E by done; lia.
Qed.

Lemma surrounds_spec s v : 0 ≤ bits s →
  _surrounds_member s v = (dist (bits s) (lower_bound s) v <=? dist (bits s) (lower_bound s) (upper_bound s)).
Proof. intros. unfold _surrounds_member, _lex_lte, dist. by rewrite !land_mask. Qed.

Lemma wrapped_card_spec x y w : 1 ≤ w → 0 ≤ x < 2 ^ w → 0 ≤ y < 2 ^ w →
  _wrapped_cardinality x y w = dist w x y + 1.
Proof.
  intros Hw Hx Hy. pose proof (pow2_double w Hw). pose proof (pow2_pos (w - 1) ltac:(lia)).
  unfold _wrapped_cardinality. rewrite land_mask, dist_eq by lia.
  destruct (Z.eqb_spec x ((y + 1) mod 2 ^ w)) as [E|E].
  - destruct (Z.eq_dec (y + 1) (2 ^ w)) as [E2|].
    + rewrite E2, Z_mod_same_full in E. zcases; lia.
    + rewrite Z.mod_small in E by lia. zcases; lia.
  - assert (y - x + 1 ≠ 2 ^ w).
    { intros E2. apply E. replace (y + 1) with (2 ^ w) by lia. rewrite Z_mod_same_full. lia. }
    zcases.
    + rewrite Z.mod_small; lia.
    + rewrite <-(Z_mod_plus_full _ 1), Z.mod_small; [lia|].
      split; [lia|]. destruct (Z.eq_dec (y + 1) x) as [E2|]; [|lia].
      rewrite E2, Z.mod_small in E by lia. lia.
Qed.

(** An arc lies in another one on a coarser (or equal) grid, when it starts on
    that grid and ends before the other one does. *)
Lemma arc_incl w st l u st' l' u' v :
  0 ≤ w → (st' | st) → (st' | dist w l' l) → dist w l' l + dist w l u ≤ dist w l' u' →
  in_arc w st l u v → in_arc w st' l' u' v.
Proof.
  intros Hw Hst Hl Hle (Hv & Hd & Hs). unfold in_arc, dist in *.
  pose proof (mod_pow2_bound (v - l) w Hw). pose proof (mod_pow2_bound (l - l') w Hw).
  pose proof (mod_pow2_bound (u' - l') w Hw).
  assert ((v - l') mod 2 ^ w = (l - l') mod 2 ^ w + (v - l) mod 2 ^ w) as ->.
  { replace (v - l') with ((l - l') + (v - l)) by lia. rewrite Z.add_mod by lia. apply Z.mod_small. lia. }
  split; [done|]. split; [lia|]. apply Z.divide_add_r; [done|]. by transitivity st.
Qed.

(** Every member of [s] is a member of [r]. *)
Definition incl (s r : SI) : Prop := ∀ v, member s v → member r v.

(** [r] is a well-formed interval of the width of [s] that contains [s] and
    [b]. *)
Definition joins (s b r : SI) : Prop := wf r ∧ bits r = bits s ∧ incl s r ∧ incl b r.

Lemma joins_norm s b st l u un :
  wf s → wf b → bits b = bits s → 0 ≤ st →
  let w := bits s in
  (st | stride s) → (st | stride b) → (st | dist w l u) →
  (st | dist w l (lower_bound s)) → (st | dist w l (lower_bound b)) →
  dist w l (lower_bound s) + dist w (lower_bound s) (upper_bound s) ≤ dist w l u →
  dist w l (lower_bound b) + dist w (lower_bound b) (upper_bound b) ≤ dist w l u →
  joins s b (norm w st l u un).
Proof.
  intros Hs Hb Hw Hst w H1 H2 H3 H4 H5 H6 H7. pose proof (wf_bits s Hs).
  split; [by apply norm_wf|]. split; [apply norm_fields|].
  split; intros v [_ Hv]; apply norm_member; try done; rewrite ?Hw in Hv;
    (eapply arc_incl; [| | | |exact Hv]; [lia|done..]).
Qed.

Lemma joins_top s b un : wf s → wf b → bits b = bits s → ∃ r, top (bits s) un = Ok r ∧ joins s b r.
Proof.
  intros Hs Hb Hw. destruct (top_spec (bits s) un (wf_bits s Hs)) as (r & E & Hr & Hbr & Hm).
  exists r. split; [done|]. split; [done|]. split; [done|].
  split; intros v Hv; apply Hm; apply member_range in Hv; congruence.
Qed.

Lemma is_top_spec s : wf s → is_top s = true → stride s = 1 ∧ lower_bound s = 0 ∧ upper_bound s = 2 ^ bits s - 1.
Proof.
  intros Hs Ht. unfold is_top, _modular_add in Ht. apply andb_true_iff in Ht as [H1%Z.eqb_eq H2%Z.eqb_eq].
  pose proof (wf_top s Hs H1 H2) as H0. pose proof (wf_upper s Hs). split; [done|]. split; [done|].
  destruct (Z.eq_dec (upper_bound s + 1) (2 ^ bits s)); [lia|]. rewrite Z.mod_small in H2; lia.
Qed.

(** The test on four distances of two arcs that start at different points. *)
Lemma surrounded_distances M o p N n q r :
  0 < o < M → 0 ≤ p < M → 0 ≤ N < M → 0 ≤ n < M → 0 ≤ r < M → o + q = M →
  o + n = p ∨ o + n = p + M → q + N = r ∨ q + N = r + M →
  (o <=? N) && ((p <=? N) && (negb (q <=? n) || negb (r <=? n))) = (o + n <=? N).
Proof. intros ? ? ? ? ? ? H1 H2. destruct H1, H2; lia. Qed.

(** What [_is_surrounded] tells about two arcs of one width: the first one
    starts in the second and ends before it. *)
Lemma is_surrounded_spec a b :
  wf a → wf b → bits b = bits a →
  let w := bits a in
  _is_surrounded a b =
    if is_top a then is_top b
    else is_top b ||
      (dist w (lower_bound b) (lower_bound a) + dist w (lower_bound a) (upper_bound a)
        <=? dist w (lower_bound b) (upper_bound b)).
Proof.
  intros Ha Hb Hw w. pose proof (wf_bits a Ha). unfold _is_surrounded, is_empty.
  rewrite (wf_bottom a Ha). destruct (is_top a) eqn:Ea, (is_top b) eqn:Eb; cbn; try done.
  pose proof (wf_lower a Ha). pose proof (wf_upper a Ha). pose proof (wf_lower b Hb) as Hbl.
  pose proof (wf_upper b Hb) as Hbu. rewrite Hw in Hbl, Hbu.
  rewrite !surrounds_spec by lia. rewrite Hw. fold w.
  set (al := lower_bound a) in *. set (au := upper_bound a) in *.
  set (bl := lower_bound b) in *. set (bu := upper_bound b) in *.
  destruct (Z.eqb_spec bl al) as [E1|E1].
  - rewrite E1, (dist_self w al) by lia. pose proof (dist_range w al au). pose proof (dist_range w al bu).
    destruct (Z.eqb_spec bu au) as [->|E2]; [lia|].
    assert (dist w al bu ≠ dist w al au) by (intros ?; apply E2, (dist_inj w al); done || lia). lia.
  - assert (dist w bl al ≠ 0) by (intros ?; apply E1, (dist_zero w); done).
    destruct (dist_back w al bl) as [[? ?]|Hback]; [lia|lia|].
    pose proof (dist_range w bl al). cbn [andb orb]. rewrite <-andb_assoc.
    apply (surrounded_distances (2 ^ w)); try (apply dist_range || apply dist_chain); lia.
Qed.

(** ** The pseudo-join contains its operands *)

Lemma joins_sym s b r : bits b = bits s → joins b s r → joins s b r.
Proof. intros Hw (? & ? & ? & ?). split; [done|]. split; [congruence|]. by split. Qed.

Lemma modular_sub_dist x y w : _modular_sub x y w = dist w y x.
Proof. reflexivity. Qed.

Lemma wf_aligned_dist s : wf s → (stride s | dist (bits s) (lower_bound s) (upper_bound s)).
Proof. apply wf_aligned. Qed.

Lemma joins_full s b w un :
  wf s → wf b → bits b = bits s → w = bits s → joins s b (norm w 1 0 (2 ^ w - 1) un).
Proof.
  intros Hs Hb Hw ->. pose proof (wf_bits s Hs). pose proof (pow2_pos (bits s) ltac:(lia)).
  split; [apply norm_wf; [done|lia|apply Z.divide_1_l]|]. split; [apply norm_fields|].
  split; intros v Hv%member_range; apply norm_member; try done; apply arc_straight; try lia;
    (split; [|apply Z.divide_1_l]); rewrite ?Hw in *; lia.
Qed.

Lemma divide_gcd st a b : (st | a) → (Z.gcd st b | a).
Proof. intros. transitivity st; [apply Z.gcd_divide_l|done]. Qed.

(** [s] starts in [b] and ends before it. *)
Lemma join_into s b st un :
  wf s → wf b → bits b = bits s → _is_surrounded s b = true →
  0 ≤ st → (st | stride s) → (st | stride b) →
  ∃ r, new (bits s) (Z.gcd st (_modular_sub (lower_bound s) (lower_bound b) (bits s)))
         (lower_bound b) (upper_bound b) un = Ok r ∧ joins s b r.
Proof.
  intros Hs Hb Hw Hsur Hst H1 H2. pose proof (wf_bits s Hs).
  rewrite new_norm, modular_sub_dist by (lia || apply Z.gcd_nonneg).
  eexists. split; [reflexivity|]. rewrite is_surrounded_spec in Hsur by done.
  destruct (is_top b) eqn:Eb.
  - apply is_top_spec in Eb as (E1 & E2 & E3); [|done]. rewrite E1 in H2.
    apply Z.divide_1_r_nonneg in H2 as ->; [|done]. rewrite Z.gcd_1_l, E2, E3, Hw. by apply joins_full.
  - destruct (is_top s); [done|]. cbn in Hsur. apply Z.leb_le in Hsur.
    pose proof (wf_aligned_dist b Hb) as Hal. rewrite Hw in Hal.
    apply joins_norm; auto using divide_gcd, Z.gcd_nonneg, Z.gcd_divide_r.
    + apply divide_gcd. by transitivity (stride b).
    + rewrite dist_self by lia. apply Z.divide_0_r.
    + rewrite dist_self by lia. lia.
Qed.

Lemma not_surrounded_spec s b :
  wf s → wf b → bits b = bits s → _is_surrounded s b = false → _is_surrounded b s = false →
  let w := bits s in
  dist w (lower_bound b) (upper_bound b)
    < dist w (lower_bound b) (lower_bound s) + dist w (lower_bound s) (upper_bound s) ∧
  dist w (lower_bound s) (upper_bound s)
    < dist w (lower_bound s) (lower_bound b) + dist w (lower_bound b) (upper_bound b).
Proof.
  intros Hs Hb Hw H1 H2 w. rewrite is_surrounded_spec in H1, H2 by done. rewrite Hw in H2. fold w in H1, H2.
  destruct (is_top s), (is_top b); cbn in *; try done. lia.
Qed.

(** [b] starts in [s] and ends after it. *)
Lemma join_overlap s b un :
  wf s → wf b → bits b = bits s → _is_surrounded s b = false → _is_surrounded b s = false →
  _surrounds_member s (lower_bound b) = true →
  _surrounds_member s (upper_bound b) && _surrounds_member b (lower_bound s) &&
    _surrounds_member b (upper_bound s) = false →
  ∃ r, new (bits s) (Z.gcd (Z.gcd (stride s) (stride b)) (_modular_sub (lower_bound b) (lower_bound s) (bits s)))
         (lower_bound s) (upper_bound b) un = Ok r ∧ joins s b r.
Proof.
  intros Hs Hb Hw Hn1 Hn2 H1 H2. pose proof (wf_bits s Hs).
  pose proof (wf_lower s Hs). pose proof (wf_upper s Hs). pose proof (wf_lower b Hb) as Hbl.
  pose proof (wf_upper b Hb) as Hbu. rewrite Hw in Hbl, Hbu.
  destruct (not_surrounded_spec s b) as [L1 L2]; [done..|].
  rewrite !surrounds_spec, Hw in * by lia. pose proof (wf_aligned_dist b Hb) as Hal. rewrite Hw in Hal.
  rewrite new_norm, modular_sub_dist by (lia || apply Z.gcd_nonneg).
  eexists. split; [reflexivity|].
  set (w := bits s) in *. set (sl := lower_bound s) in *. set (su := upper_bound s) in *.
  set (bl := lower_bound b) in *. set (bu := upper_bound b) in *.
  assert (dist w sl bu = dist w sl bl + dist w bl bu) as Hp.
  { pose proof (dist_range w sl bl). pose proof (dist_range w bl bu). pose proof (dist_range w sl bu).
    pose proof (dist_range w sl su). pose proof (dist_range w bl sl).
    pose proof (dist_range w bl su).
    destruct (dist_chain w sl bl bu); [lia|lia|].
    destruct (dist_back w sl bl), (dist_chain w bl sl su); lia. }
  pose proof (Z.gcd_divide_l (stride s) (stride b)). pose proof (Z.gcd_divide_r (stride s) (stride b)).
  apply joins_norm; auto using divide_gcd, Z.gcd_nonneg, Z.gcd_divide_r.
  - fold w. rewrite Hp. apply Z.divide_add_r; [apply Z.gcd_divide_r|]. apply divide_gcd. by transitivity (stride b).
  - fold w sl. rewrite dist_self by lia. apply Z.divide_0_r.
  - fold w sl su. rewrite dist_self by lia. lia.
  - fold w sl bl bu. lia.
Qed.

(** Neither starts in the other one. *)
Lemma join_disjoint s b st un :
  wf s → wf b → bits b = bits s →
  _surrounds_member s (lower_bound b) = false → _surrounds_member b (lower_bound s) = false →
  0 ≤ st → (st | stride s) → (st | stride b) →
  ∃ r, new (bits s) (Z.gcd st (dist (bits s) (lower_bound s) (lower_bound b)))
         (lower_bound s) (upper_bound b) un = Ok r ∧ joins s b r ∧ stride r ≠ 0.
Proof.
  intros Hs Hb Hw H1 H2 Hst Hd1 Hd2. pose proof (wf_bits s Hs).
  pose proof (wf_lower s Hs). pose proof (wf_upper s Hs). pose proof (wf_lower b Hb) as Hbl.
  pose proof (wf_upper b Hb) as Hbu. rewrite Hw in Hbl, Hbu.
  rewrite !surrounds_spec, Hw in * by lia. pose proof (wf_aligned_dist b Hb) as Hal. rewrite Hw in Hal.
  rewrite new_norm by (lia || apply Z.gcd_nonneg).
  eexists. split; [reflexivity|].
  set (w := bits s) in *. set (sl := lower_bound s) in *. set (su := upper_bound s) in *.
  set (bl := lower_bound b) in *. set (bu := upper_bound b) in *.
  pose proof (dist_range w sl bl). pose proof (dist_range w bl bu). pose proof (dist_range w sl bu).
  pose proof (dist_range w sl su). pose proof (dist_back w sl bl).
  assert (dist w sl bu = dist w sl bl + dist w bl bu) as Hp by (destruct (dist_chain w sl bl bu); lia).
  split.
  - apply joins_norm; auto using divide_gcd, Z.gcd_nonneg, Z.gcd_divide_r.
    + fold w. rewrite Hp. apply Z.divide_add_r; [apply Z.gcd_divide_r|]. apply divide_gcd. by transitivity (stride b).
    + fold w sl. rewrite dist_self by lia. apply Z.divide_0_r.
    + fold w sl su. rewrite dist_self by lia. lia.
    + fold w sl bl bu. lia.
  - unfold norm. rewrite (Z.mod_small sl), (Z.mod_small bu) by done.
    destruct (Z.eqb_spec sl bu) as [E|].
    { assert (dist w sl bu = 0) by (rewrite E; apply dist_self; lia). lia. }
    assert (Z.gcd st (dist w sl bl) ≠ 0) by (rewrite Z.gcd_eq_0; lia). by destruct (_ && _).
Qed.

(** Two single integers, [s] not above [b]. *)
Lemma join_points s b un :
  wf s → wf b → bits b = bits s → lower_bound s = upper_bound s → lower_bound b = upper_bound b →
  lower_bound s ≤ lower_bound b →
  ∃ r, new (bits s) (Z.abs (upper_bound b - lower_bound s)) (lower_bound s) (upper_bound b) un = Ok r ∧
    joins s b r.
Proof.
  intros Hs Hb Hw Es Eb Hle. pose proof (wf_bits s Hs). pose proof (wf_lower s Hs).
  pose proof (wf_lower b Hb) as Hbl. pose proof (wf_upper b Hb) as Hbu. rewrite Hw in Hbl, Hbu.
  rewrite new_norm by lia. eexists. split; [reflexivity|].
  assert (stride s = 0) as H1 by (by apply wf_int). assert (stride b = 0) as H2 by (by apply wf_int).
  rewrite <-Eb, Z.abs_eq by lia.
  apply joins_norm; try done; try lia; rewrite ?H1, ?H2, <-?Es, <-?Eb, ?dist_self by lia;
    try apply Z.divide_0_r; rewrite ?dist_eq by lia; zcases; try lia; apply Z.divide_refl.
Qed.

Lemma n_values_ok s : stride s ≠ 0 → is_ok (n_values s) = true.
Proof. intros. unfold n_values. by rewrite py_floordiv_nz. Qed.

Lemma n_values_Ok s : stride s ≠ 0 → ∃ n, n_values s = Ok n.
Proof. intros H. pose proof (n_values_ok s H). destruct (n_values s); [eauto|done]. Qed.

(** The operands the join by order can handle: not two integers, or two
    integers in increasing order. *)
Definition joinable (s b : SI) : Prop :=
  is_integer s = true → is_integer b = true → lower_bound s ≤ lower_bound b.

(** The branch of two integers. *)
Lemma join_integers s b smart un :
  wf s → wf b → bits b = bits s → is_integer s && is_integer b = true → smart = true ∨ joinable s b →
  let upper := if smart then Z.max (upper_bound s) (upper_bound b) else upper_bound b in
  let lower := if smart then Z.min (lower_bound s) (lower_bound b) else lower_bound s in
  ∃ r, new (bits s) (Z.abs (upper - lower)) lower upper un = Ok r ∧ joins s b r.
Proof.
  intros Hs Hb Hw [Es Eb]%andb_true_iff Hj. pose proof (conj Es Eb) as Hint. unfold is_integer in Es, Eb.
  apply Z.eqb_eq in Es, Eb. cbv zeta.
  destruct (Z.le_gt_cases (lower_bound s) (lower_bound b)) as [Hle|Hgt].
  - destruct (join_points s b un) as (r & E & J); try done. exists r. split; [|done].
    rewrite <-E. destruct smart; [|done]. do 2 f_equal; lia.
  - destruct smart; [|destruct Hj as [|Hj]; [done|specialize (Hj (proj1 Hint) (proj2 Hint)); lia]].
    destruct (join_points b s un) as (r & E & J); try done; [lia|].
    exists r. split; [|by apply joins_sym]. rewrite <-E, Hw. do 2 f_equal; lia.
Qed.

(** The last branches: neither operand starts in the other. *)
Lemma join_apart s b (smart : bool) un :
  wf s → wf b → bits b = bits s →
  _surrounds_member s (lower_bound b) = false → _surrounds_member b (lower_bound s) = false →
  let w := bits s in
  let mk st l u := new w st l u un in
  ∃ r, (if negb smart then
    let new_stride :=
      if is_integer s then Z.gcd (stride b) (_modular_sub (lower_bound b) (lower_bound s) w)
      else if is_integer b then Z.gcd (stride s) (_modular_sub (lower_bound b) (lower_bound s) w)
      else Z.gcd (Z.gcd (stride s) (stride b))
             (_wrapped_cardinality (lower_bound s) (lower_bound b) w - 1) in
    mk new_stride (lower_bound s) (upper_bound b)
  else
    let new_stride :=
      if is_integer s then stride b
      else if is_integer b then stride s
      else Z.gcd (stride s) (stride b) in
    let new_stride1 := Z.gcd new_stride (_wrapped_cardinality (lower_bound b) (lower_bound s) w - 1) in
    let new_stride2 := Z.gcd new_stride (_wrapped_cardinality (lower_bound s) (lower_bound b) w - 1) in
    si1 ← mk new_stride1 (lower_bound b) (upper_bound s);
    si2 ← mk new_stride2 (lower_bound s) (upper_bound b);
    n1 ← n_values si1;
    n2 ← n_values si2;
    Ok (if n1 <=? n2 then si1 else si2)) = Ok r ∧ joins s b r.
Proof.
  intros Hs Hb Hw H1 H2 w mk. pose proof (wf_bits s Hs) as Hw1.
  pose proof (wf_lower s Hs) as Hsl. pose proof (wf_lower b Hb) as Hbl. rewrite Hw in Hbl.
  pose proof (wf_stride s Hs). pose proof (wf_stride b Hb).
  rewrite !wrapped_card_spec, !Z.add_simpl_r, !modular_sub_dist by done.
  set (st := if is_integer s then stride b else if is_integer b then stride s else Z.gcd (stride s) (stride b)).
  assert (0 ≤ st ∧ (st | stride s) ∧ (st | stride b)) as (Hst & Hd1 & Hd2).
  { unfold st, is_integer. destruct (Z.eqb_spec (lower_bound s) (upper_bound s)); [|destruct (Z.eqb_spec (lower_bound b) (upper_bound b))].
    - rewrite (wf_int s) by done. auto using Z.divide_0_r, Z.divide_refl.
    - rewrite (wf_int b) by done. auto using Z.divide_0_r, Z.divide_refl.
    - auto using Z.gcd_nonneg, Z.gcd_divide_l, Z.gcd_divide_r. }
  destruct (join_disjoint s b st un) as (r2 & E2 & J2 & N2); try done.
  destruct (join_disjoint b s st un) as (r1 & E1 & J1 & N1); try done. rewrite Hw in E1.
  destruct smart; cbn [negb].
  - unfold mk. fold st w in E1, E2 |- *. rewrite E1, E2. cbn [mbind result_bind].
    destruct (n_values_Ok r1 N1) as (n1 & ->). destruct (n_values_Ok r2 N2) as (n2 & ->).
    cbn [mbind result_bind]. eexists. split; [reflexivity|]. destruct (n1 <=? n2); [by apply joins_sym|done].
  - exists r2. split; [|done]. rewrite <-E2. unfold mk, st, w.
    destruct (is_integer s); [done|]. by destruct (is_integer b).
Qed.

Lemma pseudo_join_joins s b smart :
  wf s → wf b → bits b = bits s → smart = true ∨ joinable s b →
  ∃ r, pseudo_join s b smart = Ok r ∧ joins s b r.
Proof.
  intros Hs Hb Hw Hj. pose proof (wf_stride s Hs). pose proof (wf_stride b Hb).
  unfold pseudo_join. rewrite <-Hw, Z.eqb_refl, Hw. cbn [guard_exn mbind result_bind].
  unfold is_empty. rewrite (wf_bottom s Hs), (wf_bottom b Hb).
  set (un := uninitialized s || uninitialized b).
  destruct (is_integer s && is_integer b) eqn:Eint; [by apply join_integers|].
  destruct (_is_surrounded s b) eqn:E1.
  { apply join_into; try done; unfold is_interval, is_integer;
      (destruct (Z.eqb_spec (lower_bound s) (upper_bound s)); cbn;
       [rewrite ?(wf_int s) by done|]); auto using Z.gcd_nonneg, Z.gcd_divide_l, Z.gcd_divide_r, Z.divide_refl, Z.divide_0_r. }
  destruct (_is_surrounded b s) eqn:E2.
  { destruct (join_into b s (if is_interval b then Z.gcd (stride s) (stride b) else stride s) un) as (r & E & J);
      [try done; unfold is_interval, is_integer;
      (destruct (Z.eqb_spec (lower_bound b) (upper_bound b)); cbn;
       [rewrite ?(wf_int b) by done|]);
       auto using Z.gcd_nonneg, Z.gcd_divide_l, Z.gcd_divide_r, Z.divide_refl, Z.divide_0_r..|].
    exists r. rewrite <-Hw at 1 2. split; [done|by apply joins_sym]. }
  destruct (_surrounds_member s (lower_bound b) && _ && _ && _) eqn:E3; [by apply joins_top|].
  destruct (_surrounds_member s (lower_bound b)) eqn:E4; cbn [andb] in E3.
  { by apply join_overlap. }
  destruct (_surrounds_member b (lower_bound s)) eqn:E5; [|by apply join_apart].
  destruct (join_overlap b s un) as (r & E & J); try done.
  { by rewrite E4, andb_false_r. }
  exists r. rewrite (Z.gcd_comm (stride s)), <-Hw. split; [done|by apply joins_sym].
Qed.

(** ** The least upper bound of several intervals *)

Lemma member_upper s : wf s → member s (upper_bound s).
Proof.
  intros Hs. split; [apply Hs|]. unfold in_arc. split; [apply Hs|]. split; [lia|apply Hs].
Qed.

Lemma incl_interval y r : wf y → wf r → incl y r → is_integer y = false → is_integer r = false.
Proof.
  intros Hy Hr Hi Hny. unfold is_integer in *. apply Z.eqb_neq in Hny. apply Z.eqb_neq. intros E.
  pose proof (Hi _ (member_lower y Hy)) as Hl. pose proof (Hi _ (member_upper y Hy)) as Hu.
  apply member_point in Hl, Hu; try done; [|by apply wf_int..]. congruence.
Qed.

Lemma interval_stride s : wf s → is_integer s = false → stride s ≠ 0.
Proof.
  intros Hs Hi. unfold is_integer in Hi. apply Z.eqb_neq in Hi. pose proof (stride_pos s Hs Hi). lia.
Qed.

(** An interval that can be joined at width [w]. *)
Definition at_width (w : Z) (s : SI) : Prop := wf s ∧ bits s = w.

Lemma fold_joins w l x :
  at_width w x → Forall (at_width w) l →
  is_integer x = false ∨ Forall (λ y, is_integer y = false) l →
  ∃ r, foldM (λ x y, pseudo_join x y false) x l = Ok r ∧ at_width w r ∧
    incl x r ∧ ∀ y, y ∈ l → incl y r.
Proof.
  intros Hx Hl. revert x Hx. induction Hl as [|y l [Hy Hyw] Hl IH]; intros x [Hx Hxw] Hint.
  { exists x. split; [done|]. split; [done|]. split; [by intros ?|]. intros y Hy. by apply elem_of_nil in Hy. }
  destruct (pseudo_join_joins x y false) as (r1 & E1 & Hr1 & Hrw & Hx1 & Hy1); [done|done|congruence| |].
  { right. intros H1 H2. destruct Hint as [|Hint]; [congruence|]. inversion Hint; congruence. }
  cbn. rewrite E1. cbn.
  destruct (IH r1) as (r & E & Hr & H1 & H2); [split; [done|congruence]| |].
  { left. destruct Hint as [Hint|Hint]; [by apply (incl_interval x)|].
    inversion Hint. by apply (incl_interval y). }
  exists r. split; [done|]. split; [done|]. split; [by intros v ?%Hx1%H1|].
  intros z [-> |Hz]%elem_of_cons; [by intros v ?%Hy1%H1|by apply H2].
Qed.

Lemma at_most_one_integer (l : list SI) x :
  (length (filter (λ y, is_integer y = true) (x :: l)) ≤ 1)%nat →
  is_integer x = false ∨ Forall (λ y, is_integer y = false) l.
Proof.
  rewrite filter_cons. destruct (decide (is_integer x = true)) as [Hx|Hx]; [|left; by destruct (is_integer x)].
  cbn. intros Hl. right. apply Forall_forall. intros y Hy%list_elem_of_In.
  destruct (is_integer y) eqn:E; [|done]. exfalso.
  assert (y ∈ filter (λ y, is_integer y = true) l) as Hf by (by apply list_elem_of_filter).
  destruct (filter _ l); [by apply elem_of_nil in Hf|cbn in Hl; lia].
Qed.

(** Every rotation of the sorted list joins to an interval that contains all
    the given ones, and one that is not a single integer. *)
Lemma join_from_joins w l i :
  Forall (at_width w) l → (length (filter (λ y, is_integer y = true) l) ≤ 1)%nat → (2 ≤ length l)%nat →
  ∃ r, join_from (py_sorted lower_bound l) i = Ok r ∧ at_width w r ∧ is_integer r = false ∧
    ∀ y, y ∈ l → incl y r.
Proof.
  intros Hl Hc Hlen. unfold join_from.
  set (l' := drop i (py_sorted lower_bound l) ++ take i (py_sorted lower_bound l)).
  assert (l' ≡ₚ l) as Hp.
  { unfold l'. rewrite Permutation_app_comm, take_drop. apply py_sorted_Permutation. }
  destruct l' as [|x rest] eqn:El; [apply Permutation_nil_l in Hp; subst; cbn in Hlen; lia|].
  rewrite <-Hp in Hl, Hc. apply Forall_cons_1 in Hl as [Hx Hrest].
  pose proof (at_most_one_integer rest x Hc) as Hint.
  destruct (fold_joins w rest x Hx Hrest Hint) as (r & E & Hr & H1 & H2).
  exists r. split; [done|]. split; [done|].
  split; [|intros y Hy; rewrite <-Hp in Hy; apply elem_of_cons in Hy as [->|]; auto].
  destruct Hint as [Hint|Hint]; [apply (incl_interval x); [apply Hx|apply Hr|done|done]|].
  destruct rest as [|y rest]; [apply Permutation_length in Hp; cbn in *; lia|].
  apply Forall_cons_1 in Hint as [Hint _]. apply Forall_cons_1 in Hrest as [Hy _].
  apply (incl_interval y); [apply Hy|apply Hr|apply H2; constructor|done].
Qed.

Lemma lub_many w l :
  Forall (at_width w) l → (length (filter (λ y, is_integer y = true) l) ≤ 1)%nat → (3 ≤ length l)%nat →
  ∃ r, least_upper_bound l = Ok r ∧ at_width w r ∧ ∀ y, y ∈ l → incl y r.
Proof.
  intros Hl Hc Hlen. unfold least_upper_bound.
  destruct l as [|s0 [|s1 [|s2 rest]]] eqn:El; cbn in Hlen; try lia. rewrite <-El in *.
  assert (forallb (λ x, bits x =? bits s0) l = true) as ->.
  { apply forallb_forall. intros x Hx. rewrite Forall_forall in Hl.
    destruct (Hl x Hx) as [_ ->], (Hl s0) as [_ ->]; [subst; by left|]. apply Z.eqb_refl. }
  cbn [guard_exn mbind result_bind].
  set (P := λ ret : option SI, ∀ r, ret = Some r →
    at_width w r ∧ is_integer r = false ∧ ∀ y, y ∈ l → incl y r).
  set (step := λ (ret : option SI) (i : nat), _).
  assert (∀ ret i, P ret → ∃ r, step ret i = Ok (Some r) ∧ P (Some r)) as Hstep.
  { intros ret i HP. unfold step.
    destruct (join_from_joins w l i) as (r & -> & Hr); [done|done|subst l; cbn; lia|]. cbn [mbind result_bind].
    assert (P (Some r)) as HPr by (by intros ? [= <-]).
    destruct ret as [r0|]; [|by eexists].
    destruct (HP r0 eq_refl) as ([? _] & Hi0 & _), Hr as ([? _] & Hi & _).
    destruct (n_values_Ok r0) as (n0 & ->); [by apply interval_stride|].
    destruct (n_values_Ok r) as (n & ->); [by apply interval_stride|]. cbn. destruct (n <? n0); eauto. }
  destruct (length (py_sorted lower_bound l)) as [|n] eqn:En.
  { pose proof (Permutation_length (py_sorted_Permutation lower_bound l)). subst l; cbn in *; lia. }
  cbn [seq foldM]. destruct (Hstep None 0%nat) as (r0 & -> & HP0); [by intros ? [=]|]. cbn [mbind result_bind].
  destruct (foldM_inv (λ ret, P ret ∧ ret ≠ None) (λ _, True) step (Some r0) (seq 1 n)) as (ret & -> & HP & Hret).
  { intros ret i [HP _] _. destruct (Hstep ret i HP) as (r & -> & ?). eauto. }
  { done. }
  { by apply Forall_true. }
  destruct ret as [r|]; [|done]. cbn [mbind result_bind]. destruct (HP r eq_refl) as ((Hr & Hw) & _ & Hall).
  eexists. split; [reflexivity|]. destruct (existsb _ _); [|done].
  split; [split; [split; apply Hr|done]|apply Hall].
Qed.

(** ** Properties of the joins *)

(** The pseudo-join of two well-formed intervals of one width never
    raises; its result is a well-formed interval of that width that contains
    every integer of either operand. *)
Theorem pseudo_join_sound (s b : SI) :
  wf s → wf b → bits b = bits s →
  ∃ r, pseudo_join s b true = Ok r ∧ wf r ∧ bits r = bits s ∧
    ∀ v, member s v ∨ member b v → member r v.
Proof.
  intros Hs Hb Hw. destruct (pseudo_join_joins s b true) as (r & E & Hr & Hrw & H1 & H2); auto.
  exists r. split; [done|]. split; [done|]. split; [done|]. intros v [Hv|Hv]; auto.
Qed.

(** The bound of one or two intervals. *)
Lemma lub_small w l :
  l ≠ [] → Forall (at_width w) l → (length l ≤ 2)%nat →
  ∃ r, least_upper_bound l = Ok r ∧ at_width w r ∧ ∀ y, y ∈ l → incl y r.
Proof.
  intros Hne Hl Hlen. destruct l as [|a [|b [|c l]]]; cbn in Hlen; try lia; [done| |].
  - apply Forall_cons_1 in Hl as [[Ha Hw] _]. exists a.
    unfold least_upper_bound. cbn. rewrite Z.eqb_refl. cbn. rewrite copy_wf by done.
    split; [done|]. split; [done|]. by intros s ->%list_elem_of_singleton v.
  - apply Forall_cons_1 in Hl as [[Ha Hw] Hl]. apply Forall_cons_1 in Hl as [[Hb Hbw] _].
    destruct (pseudo_join_joins a b true) as (r & E & Hr & Hrw & H1 & H2); [done|done|congruence|by left|].
    exists r. unfold least_upper_bound. cbn. rewrite Hw, Hbw, Z.eqb_refl. cbn.
    split; [done|]. split; [by split; [|congruence]|].
    intros s [-> |Hs]%elem_of_cons; [apply H1|]. apply list_elem_of_singleton in Hs as ->. apply H2.
Qed.

(** C6: The least upper bound of a non-empty list of well-formed intervals of
    one width contains every integer of every one of them, when there are at
    most two of them, or at most one of them is a single integer; the candidate
    joins and the counting of their values never raise then. *)
Theorem least_upper_bound_sound (w : Z) (l : list SI) :
  l ≠ [] → Forall (λ s, wf s ∧ bits s = w) l →
  (length l ≤ 2)%nat ∨ (length (filter (λ s, is_integer s = true) l) ≤ 1)%nat →
  ∃ r, least_upper_bound l = Ok r ∧ wf r ∧ bits r = w ∧ ∀ s v, s ∈ l → member s v → member r v.
Proof.
  intros Hne Hl Hc. change (Forall (at_width w) l) in Hl.
  destruct (Nat.le_gt_cases (length l) 2) as [Hlen|Hlen].
  - destruct (lub_small w l) as (r & E & [Hr Hrw] & H); [done..|].
    exists r. split; [done|]. split; [done|]. split; [done|]. intros s v Hs. by apply H.
  - destruct Hc as [Hc|Hc]; [lia|].
    destruct (lub_many w l) as (r & E & [Hr Hrw] & H); [done|done|lia|].
    exists r. split; [done|]. split; [done|]. split; [done|]. intros s v Hs. by apply H.
Qed.

Definition point (w v : Z) : SI := mkSI w 0 v v false false false.

(** With three single integers the least upper bound is neither sound nor
    total.  The join by order of 14 and 1 at 4 bits takes the stride
    [abs(1 - 14)], although the way from 14 up to 1 is 3 long: the bound of 1,
    11 and 14 is the "interval" [<4>13[14, 11]] that loses 1.  And the bound of
    three equal integers divides by the stride 0. *)
Theorem least_upper_bound_integers :
  (∃ r, least_upper_bound [point 4 1; point 4 11; point 4 14] = Ok r ∧ ¬ member r 1) ∧
  least_upper_bound [point 4 5; point 4 5; point 4 5] = Err ZeroDivisionError.
Proof.
  split; [|vm_compute; reflexivity]. exists (mkSI 4 13 14 11 false false false).
  split; [vm_compute; reflexivity|]. apply (bool_decide_unpack _). vm_compute. exact I.
Qed.

(** The extended Euclidean algorithm terminates within the calls the model
    allows it on all natural numbers and returns Bezout coefficients for their
    greatest common divisor. *)
Theorem extended_euclid_bezout (a b : Z) :
  0 ≤ a → 0 ≤ b →
  ∃ x y d, extended_euclid a b = Ok (x, y, d) ∧ d = Z.gcd a b ∧ a * x + b * y = d.
Proof.
  intros Ha Hb. unfold extended_euclid. rewrite (Z.abs_eq b) by done.
  assert (∀ n, 0 ≤ n → ∀ fuel a b, 0 ≤ a → 0 ≤ b < 2 ^ n → (2 * Z.to_nat n + 1 ≤ fuel)%nat →
    ∃ x y d, euclid_fuel fuel a b = Ok (x, y, d) ∧ d = Z.gcd a b ∧ a * x + b * y = d) as H.
  2: { apply (H (Z.log2 b + 1)); try done; try lia.
       - pose proof (Z.log2_nonneg b). lia.
       - split; [done|]. destruct (Z.eq_dec b 0) as [->|]; [by apply pow2_pos|].
         apply Z.log2_lt_pow2; lia.
       - pose proof (Z.log2_nonneg b). lia. }
  clear. intros n Hn. pattern n. apply natlike_ind; [| |done]; clear n Hn.
  - intros fuel a b Ha Hb Hf. assert (b = 0) as -> by lia. destruct fuel; [lia|]. cbn.
    eexists _, _, _. split; [done|]. rewrite Z.gcd_0_r, Z.abs_eq by done. split; [done|lia].
  - intros n Hn IH fuel a b Ha Hb Hf. rewrite Z.pow_succ_r in Hb by done.
    destruct fuel as [|[|fuel]]; [lia|lia|].
    cbn [euclid_fuel]. destruct (Z.eqb_spec b 0) as [->|Hb0].
    { eexists _, _, _. split; [done|]. rewrite Z.gcd_0_r, Z.abs_eq by done. split; [done|lia]. }
    pose proof (Z.mod_pos_bound a b ltac:(lia)) as Hr. pose proof (Z.div_mod a b Hb0) as Ediv.
    assert (∀ a b, b ≠ 0 → Z.gcd a b = Z.gcd b (a mod b)) as Hgcd.
    { intros c d Hd. rewrite (Z.gcd_comm d), Z.gcd_mod by done. apply Z.gcd_comm. }
    rewrite (Hgcd a b) by done.
    destruct (Z.eqb_spec (a mod b) 0) as [E|Hr0]; cbn.
    { rewrite E, Z.gcd_0_r, Z.abs_eq by lia. eexists _, _, _. split; [done|]. split; [done|lia]. }
    pose proof (Z.mod_pos_bound b (a mod b) ltac:(lia)) as Hr'.
    pose proof (Z.div_mod b (a mod b) Hr0) as Ediv'.
    assert (1 ≤ b / (a mod b)) by (apply Z.div_le_lower_bound; lia).
    destruct (IH fuel (a mod b) (b mod (a mod b))) as (x & y & d & -> & -> & Hd); [lia|split; [lia|nia]|lia|].
    cbn. eexists _, _, _. split; [done|].
    rewrite (Hgcd b (a mod b)) by done. split; [done|]. rewrite <-Hd.
    assert (b mod (a mod b) = b - (a mod b) * (b / (a mod b))) as -> by lia.
    assert (Hring : ∀ q1 q2 r, r * x + (b - r * q2) * y = (b * q1 + r) * (x - q2 * y) + b * (y - q1 * (x - q2 * y)))
      by (intros; ring).
    by rewrite (Hring (a / b)), <-Ediv.
Qed.

(** ** Properties of the meets *)

Lemma member_straight s v :
  wf s → straight s → member s v ↔ lower_bound s ≤ v ≤ upper_bound s ∧ (stride s | v - lower_bound s).
Proof.
  intros Hs Hst. pose proof (wf_lower s Hs). pose proof (wf_upper s Hs).
  unfold member, straight in *. rewrite (wf_bottom s Hs), arc_straight by lia. tauto.
Qed.

Lemma py_mod_zero a b r : py_mod a b = Ok r → r = 0 → (b | a).
Proof.
  unfold py_mod. destruct (decide (b = 0)); [done|]. intros [= <-] H. by apply Z.mod_divide.
Qed.

Lemma common_point_common s t v :
  wf s → wf t → straight s → straight t → is_integer s = true →
  common_integer_point s t = Ok (Some v) → member s v ∧ member t v.
Proof.
  intros Hs Ht Hss Hst Es H. unfold common_integer_point in H.
  assert (member s (lower_bound s)) by by apply member_lower.
  destruct (is_integer t) eqn:Et.
  - destruct (Z.eqb_spec (lower_bound s) (lower_bound t)) as [E|]; [|done]. injection H as <-.
    split; [done|]. rewrite E. by apply member_lower.
  - destruct (_ && _) eqn:Er; [|done]. inv_ok H. destruct (Z.eqb_spec r 0) as [E|]; [|done].
    injection H as <-. split; [done|]. apply member_straight; try done. split; [lia|]. by eapply py_mod_zero.
Qed.

Lemma splitted_common s t v :
  wf s → wf t → straight s → straight t →
  _minimal_common_integer_splitted s t = Ok (Some v) → member s v ∧ member t v.
Proof.
  intros Hs Ht Hss Hst H. unfold _minimal_common_integer_splitted in H.
  destruct (is_integer s) eqn:Es; [by apply common_point_common|].
  destruct (is_integer t) eqn:Et; [by apply and_comm, common_point_common|].
  destruct (_ || _); [done|]. inv_ok H. destruct (negb _); [done|]. inv_ok H.
  destruct r0 as [[x y]|]; [|done]. inv_ok H.
  destruct (Z.eqb_spec (x * stride s + lower_bound s) (y * stride t + lower_bound t)) as [E|]; [|done].
  destruct (_ && _) eqn:Eb; [|done]. injection H as <-.
  split; apply member_straight; try done; (split; [lia|]); [exists x; lia|exists y; lia].
Qed.

(** Whatever the diophantine solver computes (its parameter goes through
    binary64 arithmetic), an integer reported as common to two intervals is an
    integer of both. *)
Theorem common_integer_is_common (s t : SI) (v : Z) :
  wf s → wf t → _minimal_common_integer s t = Ok (Some v) → member s v ∧ member t v.
Proof.
  intros Hs Ht H. unfold _minimal_common_integer in H.
  destruct (ssplit_pieces s Hs) as (ps & Es & [Hps Ms] & Ss & Ls).
  destruct (ssplit_pieces t Ht) as (pt & Et & [Hpt Mt] & St & Lt).
  rewrite Es, Et in H. cbn [mbind result_bind] in H.
  assert (∀ p q v, In p ps → In q pt →
    _minimal_common_integer_splitted p q = Ok (Some v) ∨ _minimal_common_integer_splitted q p = Ok (Some v) →
    member s v ∧ member t v) as Hpq.
  { intros p q u Hp Hq Hu. rewrite Ms, Mt. rewrite Forall_forall in Hps, Hpt, Ss, St.
    destruct (Hps p Hp) as (? & _), (Hpt q Hq) as (? & _). specialize (Ss p Hp). specialize (St q Hq).
    destruct Hu as [Hu|Hu]; apply splitted_common in Hu as [? ?]; try done;
      (split; [exists p|exists q]; split; by try apply list_elem_of_In). }
  destruct ps as [|a0 [|a1 [|]]], pt as [|b0 [|b1 [|]]]; cbn in Ls, Lt, H; try lia.
  - apply splitted_common in H; try done; unfold straight.
    + destruct (Z.le_gt_cases (lower_bound s) (upper_bound s)) as [|Hgt]; [done|].
      destruct (ssplit_wrap s Hs) as (_ & _ & _ & _ & E); [lia|]. congruence.
    + destruct (Z.le_gt_cases (lower_bound t) (upper_bound t)) as [|Hgt]; [done|].
      destruct (ssplit_wrap t Ht) as (_ & _ & _ & _ & E); [lia|]. congruence.
  - inv_ok H. inv_ok H. destruct r as [u|]; [injection H as <-|injection H as ->].
    + apply (Hpq a0 b0); cbn; auto.
    + apply (Hpq a0 b1); cbn; auto.
  - inv_ok H. inv_ok H. destruct r as [u|]; [injection H as <-|injection H as ->].
    + apply (Hpq a0 b0); cbn; auto.
    + apply (Hpq a1 b0); cbn; auto.
  - inv_ok H. inv_ok H. destruct r as [u|]; [injection H as <-|injection H as ->].
    + apply (Hpq a0 b0); cbn; auto.
    + apply (Hpq a1 b1); cbn; auto.
Qed.

(** The intervals on which [%] of a difference decides the grid. *)
Definition grid_ok (s : SI) : Prop := straight s ∨ (stride s | 2 ^ bits s).

Lemma grid_distance s n :
  wf s → grid_ok s → 0 ≤ n < 2 ^ bits s →
  _surrounds_member s n = true → (stride s | n - lower_bound s) ↔ (stride s | dist (bits s) (lower_bound s) n).
Proof.
  intros Hs Hg Hn Hsur. pose proof (wf_bits s Hs). pose proof (wf_lower s Hs). pose proof (wf_upper s Hs).
  rewrite surrounds_spec in Hsur by lia. rewrite !dist_eq in * by done.
  destruct (Z.leb_spec (lower_bound s) n); [done|].
  destruct Hg as [Hg|Hg]; [unfold straight in Hg; zcases; lia|].
  split; intros Hd; [divides_by ((n - lower_bound s) + 2 ^ bits s)|divides_by ((n - lower_bound s + 2 ^ bits s) - 2 ^ bits s)].
Qed.

Lemma same_width s o : bits o = bits s → common_width s o = Ok (s, o).
Proof.
  intros E. unfold common_width. rewrite E, Z.max_id, Z.ltb_irrefl. done.
Qed.

Lemma member_eq s v : wf s → 0 ≤ v < 2 ^ bits s →
  bool_decide (member s v) = _surrounds_member s v && bool_decide (stride s | dist (bits s) (lower_bound s) v).
Proof.
  intros Hs Hv. rewrite surrounds_spec by (pose proof (wf_bits s Hs); lia).
  apply eq_true_iff_eq. rewrite andb_true_iff, !bool_decide_eq_true, Z.leb_le.
  unfold member, in_arc, dist. rewrite (wf_bottom s Hs). tauto.
Qed.

Lemma new_point w v : 1 ≤ w → 0 ≤ v < 2 ^ w → new w 0 v v false = Ok (point w v).
Proof.
  intros. rewrite new_norm by lia. unfold norm, point. rewrite Z.mod_small, Z.eqb_refl, andb_false_r by done. done.
Qed.

Lemma normalize_wf s : wf s → normalize s = Ok s.
Proof. intros Hs. pose proof (copy_wf s Hs) as H. unfold copy, new_full in H. by destruct s. Qed.

Lemma point_wf w v : 1 ≤ w → 0 ≤ v < 2 ^ w → wf (point w v).
Proof.
  intros Hw Hv. split; cbn; try done; try lia. rewrite Z.sub_diag, Z.mod_0_l by lia. apply Z.divide_0_r.
Qed.

Definition bottom (w : Z) : SI := mkSI w 1 0 (2 ^ w - 1) false true false.

Lemma empty_bottom w : empty w = Ok (bottom w).
Proof. unfold empty, new_full, normalize, is_empty, bottom. cbn. by rewrite andb_false_r. Qed.

Lemma normalize_bottom w : normalize (bottom w) = Ok (bottom w).
Proof. unfold normalize, is_empty, bottom. cbn. by rewrite andb_false_r. Qed.

(** The value an intersection with a single integer has. *)
Lemma intersection_point s n :
  wf s → grid_ok s → 0 ≤ n < 2 ^ bits s → uninitialized s = false →
  ∃ r, intersection_unrev s (Si (point (bits s) n)) = Ok r ∧ is_bottom r = negb (bool_decide (member s n)).
Proof.
  intros Hs Hg Hn Hun. pose proof (wf_bits s Hs) as Hw.
  unfold intersection_unrev, normalize_types_unrev, _multi_valued_intersection_unrev, normalize_types_other, coerce.
  cbn [mbind result_bind]. rewrite !same_width by done. cbn [mbind result_bind]. rewrite same_width by done.
  cbn [mbind result_bind]. unfold multi_valued_body, is_empty. rewrite (wf_bottom s Hs). cbn [point is_bottom orb bits].
  rewrite Z.eqb_refl. cbn [guard_exn mbind result_bind lower_bound]. unfold is_integer at 2. cbn [point lower_bound upper_bound].
  rewrite Z.eqb_refl, andb_true_r. unfold is_integer at 3. cbn [point lower_bound upper_bound]. rewrite Z.eqb_refl.
  rewrite Hun. cbn [point uninitialized orb]. rewrite empty_bottom.
  pose proof (normalize_wf _ (point_wf (bits s) n Hw Hn)) as Hnp.
  destruct (is_integer s) eqn:Ei.
  - unfold is_integer in Ei. apply Z.eqb_eq in Ei.
    pose proof (member_point s n Hs (wf_int s Hs Ei)) as Hm. pose proof (wf_lower s Hs).
    destruct (Z.eqb_spec (lower_bound s) n) as [E|E].
    + rewrite E, new_point by done. cbn. rewrite Hnp. eexists. split; [reflexivity|].
      rewrite bool_decide_true by (apply Hm; congruence). done.
    + cbn. rewrite normalize_bottom. eexists. split; [reflexivity|].
      rewrite bool_decide_false by (rewrite Hm; congruence). done.
  - unfold meet_integer. rewrite empty_bottom. pose proof (interval_stride s Hs Ei). rewrite py_mod_nz by done.
    rewrite member_eq by done. cbn [mbind result_bind].
    destruct (_surrounds_member s n) eqn:Esur; cbn [andb]; rewrite ?andb_false_r.
    + pose proof (grid_distance s n Hs Hg Hn Esur) as Hd.
      destruct (Z.eqb_spec ((n - lower_bound s) mod stride s) 0) as [E|E]; cbn [andb].
      * rewrite new_point by done. cbn. rewrite Hnp. eexists. split; [reflexivity|].
        rewrite bool_decide_true by (by apply Hd, Z.mod_divide). done.
      * cbn. rewrite normalize_bottom. eexists. split; [reflexivity|]. rewrite bool_decide_false; [done|].
        intros Hx. apply E, Z.mod_divide; [done|]. by apply Hd.
    + cbn. rewrite normalize_bottom. eexists. split; [reflexivity|]. done.
Qed.

(** [solution] decides membership, on intervals that do not run through the
    south pole or whose stride divides [2^bits]. *)
Theorem solution_exact (s : SI) (n : Z) :
  wf s → grid_ok s → uninitialized s = false → 0 ≤ n < 2 ^ bits s →
  solution_unrev s n = Ok (bool_decide (member s n)).
Proof.
  intros Hs Hg Hun Hn. unfold solution_unrev. pose proof (wf_bits s Hs). rewrite new_point by done. cbn [mbind result_bind].
  destruct (intersection_point s n) as (r & -> & Hr); try done. cbn [mbind result_bind].
  unfold is_empty. by rewrite Hr, negb_involutive.
Qed.

(** On the other intervals [solution] and [eq] are wrong: 1 is an integer
    of <4>3[14, 10], but the test [(1 - 14) % 3 == 0] is made without the
    modulus, [solution] denies it, and the comparison of the interval with 1
    is decided [False]. *)
Theorem solution_misses_member :
  ∃ s, wf s ∧ member s 1 ∧ solution_unrev s 1 = Ok false ∧
    eq_unrev false s (Num 1) = Ok BoolResult.FalseResult.
Proof.
  exists (mkSI 4 3 14 10 false false false). split; [si_concrete|]. split; [si_concrete|].
  split; vm_compute; reflexivity.
Qed.

(** Widening does not contain its second operand.  The lower bound is
    compared as an unsigned integer but replaced by the least signed one, and
    the stride does not take the distance of the lower bounds into account. *)
Theorem widen_unsound :
  (∃ a b r, wf a ∧ wf b ∧ widen_unrev a (Si b) = Ok r ∧ member b 2 ∧ lower_bound r = 8 ∧ ¬ member r 2) ∧
  (∃ a b r, wf a ∧ wf b ∧ widen_unrev a (Si b) = Ok r ∧ member b 1 ∧ stride r = 2 ∧ ¬ member r 1).
Proof.
  split.
  - exists (mkSI 4 1 10 12 false false false), (mkSI 4 1 2 5 false false false), (mkSI 4 1 8 12 false false false).
    split; [si_concrete|]. split; [si_concrete|]. split; [vm_compute; reflexivity|].
    split; [si_concrete|]. split; [reflexivity|]. apply (bool_decide_unpack _). vm_compute. exact I.
  - exists (mkSI 4 2 0 4 false false false), (mkSI 4 2 1 5 false false false), (mkSI 4 2 0 14 false false false).
    split; [si_concrete|]. split; [si_concrete|]. split; [vm_compute; reflexivity|].
    split; [si_concrete|]. split; [reflexivity|]. apply (bool_decide_unpack _). vm_compute. exact I.
Qed.

(** ** Witnesses *)

Lemma pseudo_join_sound_witness :
  ∃ r, pseudo_join sample_wrap sample_low true = Ok r ∧ wf r ∧ bits r = 4 ∧
    ∀ v, member sample_wrap v ∨ member sample_low v → member r v.
Proof. apply (pseudo_join_sound sample_wrap sample_low); si_concrete. Defined.

Lemma least_upper_bound_sound_witness :
  ∃ r, least_upper_bound [sample_wrap; sample_low; point 4 7] = Ok r ∧ wf r ∧ bits r = 4 ∧
    ∀ s v, s ∈ [sample_wrap; sample_low; point 4 7] → member s v → member r v.
Proof.
  apply (least_upper_bound_sound 4); [done| |right; vm_compute; lia].
  repeat (apply List.Forall_cons; [split; si_concrete|]). apply List.Forall_nil.
Defined.

Lemma extended_euclid_bezout_witness :
  ∃ x y d, extended_euclid 240 46 = Ok (x, y, d) ∧ d = Z.gcd 240 46 ∧ 240 * x + 46 * y = d.
Proof. apply (extended_euclid_bezout 240 46); lia. Defined.

Lemma common_integer_is_common_witness :
  member sample_wrap 9 ∧ member (mkSI 4 2 1 13 false false false) 9.
Proof.
  apply (common_integer_is_common sample_wrap (mkSI 4 2 1 13 false false false) 9); [si_concrete..|].
  vm_compute. reflexivity.
Defined.

Lemma solution_exact_witness :
  solution_unrev sample_low 3 = Ok (bool_decide (member sample_low 3)).
Proof.
  apply (solution_exact sample_low 3); [si_concrete| |reflexivity|cbn; lia].
  left. unfold straight. cbn. lia.
Defined.

End SiJoin.
