(* ===== verification/SiArith.v ===== *)
(** * Strided intervals, part 4: arithmetic

    Addition, subtraction, negation, multiplication, the two divisions and the
    remainder, for operands that are not reversed.

    The divisions collect their partial quotients in a Python [set], whose
    iteration order depends on the string hashes of the run: the order is the
    parameter [py_set] of the definitions that use it. *)

From Stdlib Require Import ZArith Lia Bool Znumtheory ZifyBool.
From stdpp Require Import base tactics list numbers.
From S2P Require Import Prelude Bvv BoolResult StridedInterval SiOrder SiJoin.

Module SiArith.
Import SI SiOrder SiJoin.

(** ** Addition and subtraction *)

Definition _wrapped_overflow_add (a b : SI) : bool :=
  let card_self :=
    if is_integer a && (lower_bound a =? 0) then 0
    else _wrapped_cardinality (lower_bound a) (upper_bound a) (bits a) in
  let card_b :=
    if is_integer b && (lower_bound b =? 0) then 0
    else _wrapped_cardinality (lower_bound b) (upper_bound b) (bits b) in
  max_int (bits a) + 1 <? card_self + card_b.

Definition _wrapped_overflow_sub (a b : SI) : bool := _wrapped_overflow_add a b.

Definition add_body (self b : SI) : result SI :=
  let new_bits := Z.max (bits self) (bits b) in
  if _wrapped_overflow_add self b then top (bits self) false
  else
    let lb := _modular_add (lower_bound self) (lower_bound b) new_bits in
    let ub := _modular_add (upper_bound self) (upper_bound b) new_bits in
    let uninitialized := uninitialized self || uninitialized b in
    let stride := Z.gcd (stride self) (stride b) in
    r ← new new_bits stride lb ub uninitialized;
    normalize r.

Definition sub_body (self b : SI) : result SI :=
  let new_bits := Z.max (bits self) (bits b) in
  if _wrapped_overflow_sub self b then top (bits self) false
  else
    let lb := _modular_sub (lower_bound self) (upper_bound b) new_bits in
    let ub := _modular_sub (upper_bound self) (lower_bound b) new_bits in
    let uninitialized := uninitialized self || uninitialized b in
    let stride := Z.gcd (stride self) (stride b) in
    r ← new new_bits stride lb ub uninitialized;
    normalize r.

Definition add_unrev : SI → operand → result SI := normalize_types_unrev add_body.
Definition sub_unrev : SI → operand → result SI := normalize_types_unrev sub_body.

Definition neg_unrev (self : SI) : result SI :=
  z ← new (bits self) 0 0 0 false;
  si ← sub_unrev z (Si self);
  Ok (set_uninitialized si (uninitialized self)).

(** [o - self] for an integer [o]. *)
Definition rsub_unrev (self : SI) (o : Z) : result SI :=
  z ← new (bits self) 0 o o false; sub_unrev z (Si self).

(** ** Multiplication *)

Definition _wrapped_unsigned_mul (a b : SI) : result SI :=
  let bits := Z.max (bits a) (bits b) in
  let lb := lower_bound a * lower_bound b in
  let ub := upper_bound a * upper_bound b in
  let uninit_flag := uninitialized a || uninitialized b in
  if ub - lb <? 2 ^ bits then
    let stride :=
      if is_integer b then Z.abs (stride a * lower_bound b)
      else if is_integer a then Z.abs (lower_bound a * stride b)
      else Z.gcd (stride a) (stride b) in
    new bits stride lb ub uninit_flag
  else top bits false.

(** One sign case of the signed product. *)
Definition signed_product (bits stride lb ub : Z) (uninit_flag : bool) : result SI :=
  if ub - lb <? 2 ^ bits then new bits stride lb ub uninit_flag else top bits uninit_flag.

Definition signed_product_masked (bits stride lb ub : Z) (uninit_flag : bool) : result SI :=
  if ub - lb <? 2 ^ bits
  then new bits stride (Z.land lb (2 ^ bits - 1)) (Z.land ub (2 ^ bits - 1)) uninit_flag
  else top bits uninit_flag.

Definition _wrapped_signed_mul (a b : SI) : result SI :=
  let bits := Z.max (bits a) (bits b) in
  let a_lb_positive := _is_msb_zero (lower_bound a) bits in
  let a_ub_positive := _is_msb_zero (upper_bound a) bits in
  let b_lb_positive := _is_msb_zero (lower_bound b) bits in
  let b_ub_positive := _is_msb_zero (upper_bound b) bits in
  let uninit_flag := uninitialized a || uninitialized b in
  let signed v := _unsigned_to_signed v bits in
  let stride :=
    if is_integer b then
      if b_lb_positive then Z.abs (stride a * lower_bound b)
      else Z.abs (stride a * signed (lower_bound b))
    else if is_integer a then
      if a_lb_positive then Z.abs (stride b * lower_bound a)
      else Z.abs (stride b * signed (lower_bound a))
    else Z.gcd (stride a) (stride b) in
  if a_lb_positive && a_ub_positive && b_lb_positive && b_ub_positive then
    signed_product bits stride (lower_bound a * lower_bound b) (upper_bound a * upper_bound b) uninit_flag
  else if negb a_lb_positive && negb a_ub_positive && negb b_lb_positive && negb b_ub_positive then
    signed_product bits stride (signed (upper_bound a) * signed (upper_bound b))
      (signed (lower_bound a) * signed (lower_bound b)) uninit_flag
  else if negb a_lb_positive && negb a_ub_positive && b_lb_positive && b_ub_positive then
    signed_product_masked bits stride (signed (lower_bound a) * upper_bound b)
      (signed (upper_bound a) * lower_bound b) uninit_flag
  else if a_lb_positive && a_ub_positive && negb b_lb_positive && negb b_ub_positive then
    signed_product_masked bits stride (upper_bound a * signed (lower_bound b))
      (lower_bound a * signed (upper_bound b)) uninit_flag
  else Err ClaripyVSAError.

Definition mul_body (self o : SI) : result SI :=
  if is_integer self && is_integer o then
    let p := lower_bound self * lower_bound o in
    ret ← new (bits self) 0 p p false;
    normalize ret
  else
    si1_psplit ← _psplit self;
    si2_psplit ← _psplit o;
    parts ← mapM (λ '(si1, si2),
      u ← _wrapped_unsigned_mul si1 si2;
      s ← _wrapped_signed_mul si1 si2;
      _multi_valued_intersection_unrev u (Si s))
      (si1_psplit ≫= λ si1, (λ si2, (si1, si2)) <$> si2_psplit);
    r ← least_upper_bound (concat parts);
    normalize r.

Definition mul_unrev : SI → operand → result SI := normalize_types_unrev mul_body.

(** [__mul__] is [mul] under the decorator once more. *)
Definition __mul___unrev : SI → operand → result SI :=
  normalize_types_unrev (λ self o, mul_unrev self (Si o)).

(** ** Division *)

Definition _wrapped_unsigned_div (a b : SI) : result SI :=
  let bits := Z.max (bits a) (bits b) in
  let divisor_lb := lower_bound b in
  let divisor_ub := upper_bound b in
  let uninit_flag := uninitialized a || uninitialized b in
  if (divisor_lb =? 0) && (divisor_ub =? 0) then empty bits
  else
    let divisor_lb := if divisor_lb =? 0 then divisor_lb + 1 else divisor_lb in
    let divisor_ub := if divisor_ub =? 0 then Z.land (divisor_ub - 1) (2 ^ bits - 1) else divisor_ub in
    lb ← py_floordiv (lower_bound a) divisor_ub;
    ub ← py_floordiv (upper_bound a) divisor_lb;
    new bits 1 lb ub uninit_flag.

Definition _wrapped_signed_div (a b : SI) : result SI :=
  let bits := Z.max (bits a) (bits b) in
  let divisor_lb := lower_bound b in
  let divisor_ub := upper_bound b in
  let uninit_flag := uninitialized a || uninitialized b in
  let signed v := _unsigned_to_signed v bits in
  if (divisor_lb =? 0) && (divisor_ub =? 0) then empty bits
  else
    let divisor_lb := if divisor_lb =? 0 then 1 else divisor_lb in
    let divisor_ub := if divisor_ub =? 0 then Z.land (divisor_ub - 1) (2 ^ bits - 1) else divisor_ub in
    let dividend_positive := _is_msb_zero (lower_bound a) bits in
    let divisor_positive := _is_msb_zero (lower_bound b) bits in
    '(lb, ub) ←
      (if dividend_positive && divisor_positive then
         lb ← py_floordiv (lower_bound a) divisor_ub;
         ub ← py_floordiv (upper_bound a) divisor_lb; Ok (lb, ub)
       else if dividend_positive && negb divisor_positive then
         lb ← py_floordiv (upper_bound a) (signed divisor_ub);
         ub ← py_floordiv (lower_bound a) (signed divisor_lb); Ok (lb, ub)
       else if negb dividend_positive && divisor_positive then
         lb ← py_floordiv (signed (lower_bound a)) divisor_lb;
         ub ← py_floordiv (signed (upper_bound a)) divisor_ub; Ok (lb, ub)
       else
         lb ← py_floordiv (signed (upper_bound a)) (signed (lower_bound b));
         ub ← py_floordiv (signed (lower_bound a)) (signed (upper_bound b)); Ok (lb, ub));
    new bits 1 lb ub uninit_flag.

(** [__hash__]: the data the hash is computed from.  Two intervals of equal
    hash are one element of a set, since the [BoolResult] that [__eq__] returns
    is always truthy. *)
Definition hash_key (s : SI) : Z * Z * Z * Z * bool * bool :=
  (bits s, lower_bound s, upper_bound s, stride s, reversed s, uninitialized s).

(** The elements of the set built by adding the intervals one after the other. *)
Fixpoint set_elements (l : list SI) (seen : list SI) : list SI :=
  match l with
  | [] => seen
  | s :: l =>
      if bool_decide (hash_key s ∈ hash_key <$> seen) then set_elements l seen
      else set_elements l (seen ++ [s])
  end.

Section Sets.
(** The iteration order of a set, a function of its elements in insertion
    order. *)
Variable py_set : list SI → list SI.

(** The partial results [f dividend divisor] of the pieces, joined. *)
Definition div_pieces (f : SI → SI → result SI) (dividends divisors : list SI) : result SI :=
  tmps ← mapM (λ '(dividend, divisor), f dividend divisor)
           (dividends ≫= λ a, (λ b, (a, b)) <$> divisors);
  r ← least_upper_bound (py_set (set_elements tmps []));
  normalize r.

Definition udiv_unrev : SI → operand → result SI := normalize_types_unrev (λ self o,
  splitted_dividends ← _ssplit self;
  splitted_divisors ← _ssplit o;
  div_pieces _wrapped_unsigned_div splitted_dividends splitted_divisors).

Definition sdiv_unrev : SI → operand → result SI := normalize_types_unrev (λ self o,
  splitted_dividends ← _psplit self;
  splitted_divisors ← _psplit o;
  div_pieces _wrapped_signed_div splitted_dividends splitted_divisors).

Definition __floordiv___unrev : SI → operand → result SI :=
  normalize_types_unrev (λ self o, udiv_unrev self (Si o)).

(** [%], the unsigned remainder. *)
Definition __mod___unrev : SI → operand → result SI := normalize_types_unrev (λ self o,
  if is_integer o && (lower_bound o =? 0) then empty (bits o)
  else if is_integer self && is_integer o then
    r ← py_mod (lower_bound self) (lower_bound o);
    new (bits self) 0 r r false
  else
    ss ← _ssplit self;
    ts ← _ssplit o;
    all_resulting_intervals ← mapM (λ '(s, t),
      q ← udiv_unrev s (Si t);
      card ← cardinality q;
      if card =? 1 then
        q ← udiv_unrev s (Si t);
        d ← sub_unrev s (Si q);
        mul_unrev d (Si t)
      else new (bits self) 1 0 (upper_bound o - 1) false)
      (ss ≫= λ s, (λ t, (s, t)) <$> ts);
    r ← least_upper_bound all_resulting_intervals;
    normalize r).
End Sets.

(** ** Addition and subtraction are sound *)

(** The decorated method on two intervals of one width. *)
Lemma normalize_types_same f s o :
  bits o = bits s →
  normalize_types_unrev f s (Si o) =
    ret ← f s o; Ok (if uninitialized s || uninitialized o then set_uninitialized ret true else ret).
Proof. intros E. unfold normalize_types_unrev, coerce. cbn. by rewrite same_width. Qed.

(** [r] is well formed, [w] bits wide, and has the member [v]. *)
Definition holds (w : Z) (r : SI) (v : Z) : Prop := wf r ∧ bits r = w ∧ member r v.

Lemma holds_gamma w r v : holds w r v → gamma r (BVV.mkBVV v w).
Proof. intros (? & ? & ?). split; [done|]. by split. Qed.

Lemma holds_uninitialized w r v b : holds w r v → holds w (set_uninitialized r b) v.
Proof. intros ([] & ? & ?). split; [|done]. by split. Qed.

Lemma decorated_sound f s o w v c :
  bits s = w → bits o = w → (∃ r, f s o = Ok r ∧ holds w r v) → c = Ok (BVV.mkBVV v w) →
  approximates (normalize_types_unrev f s (Si o)) c.
Proof.
  intros Hs Ho (r & E & Hr) ->. rewrite normalize_types_same, E by congruence. cbn.
  eexists _, _. split; [reflexivity|]. split; [reflexivity|]. apply holds_gamma.
  destruct (_ || _); [by apply holds_uninitialized|done].
Qed.

(** A normalised arc holds the values on it. *)
Lemma norm_holds w st l u un v :
  1 ≤ w → 0 ≤ st → (st | dist w l u) → in_arc w st l u v → holds w (norm w st l u un) v.
Proof.
  intros. split; [by apply norm_wf|]. split; [apply norm_fields|]. by apply norm_member.
Qed.

Lemma new_holds w st l u un v :
  1 ≤ w → 0 ≤ st → (st | dist w l u) → in_arc w st l u v →
  ∃ r, new w st l u un = Ok r ∧ holds w r v.
Proof. intros. rewrite new_norm by lia. eexists. split; [done|]. by apply norm_holds. Qed.

Lemma new_normalize_holds w st l u un v :
  1 ≤ w → 0 ≤ st → (st | dist w l u) → in_arc w st l u v →
  ∃ r, (r ← new w st l u un; normalize r) = Ok r ∧ holds w r v.
Proof.
  intros. destruct (new_holds w st l u un v) as (r & -> & Hr); try done. cbn.
  rewrite normalize_wf by apply Hr. eauto.
Qed.

Lemma top_holds w un v : 1 ≤ w → 0 ≤ v < 2 ^ w → ∃ r, top w un = Ok r ∧ holds w r v.
Proof.
  intros Hw Hv. destruct (top_spec w un Hw) as (r & -> & Hr & Hb & Hm). exists r.
  split; [done|]. split; [done|]. auto.
Qed.

(** No overflow: the two arcs together are shorter than the circle. *)
Lemma overflow_spec a b :
  wf a → wf b → bits b = bits a → _wrapped_overflow_add a b = false →
  dist (bits a) (lower_bound a) (upper_bound a) + dist (bits a) (lower_bound b) (upper_bound b) < 2 ^ bits a.
Proof.
  intros Ha Hb Hw H. pose proof (wf_bits a Ha). unfold _wrapped_overflow_add in H.
  pose proof (wf_lower b Hb) as Hbl. pose proof (wf_upper b Hb) as Hbu. rewrite Hw in *.
  rewrite max_int_spec in H by lia. apply Z.ltb_ge in H.
  rewrite !wrapped_card_spec in H by (done || apply Ha || lia). unfold is_integer in H.
  pose proof (dist_range (bits a) (lower_bound a) (upper_bound a)).
  pose proof (dist_range (bits a) (lower_bound b) (upper_bound b)).
  assert (∀ s, lower_bound s = upper_bound s → dist (bits a) (lower_bound s) (upper_bound s) = 0) as Hz
    by (intros s ->; apply dist_self; lia).
  pose proof (Hz a). pose proof (Hz b). clear Hz. zcases; lia.
Qed.

(** The sum of two arcs. *)
Lemma arc_add w sa la ua x sb lb ub y l u :
  1 ≤ w → in_arc w sa la ua x → in_arc w sb lb ub y →
  dist w la ua + dist w lb ub < 2 ^ w → (sa | dist w la ua) → (sb | dist w lb ub) →
  l mod 2 ^ w = (la + lb) mod 2 ^ w → u mod 2 ^ w = (ua + ub) mod 2 ^ w →
  (Z.gcd sa sb | dist w l u) ∧ in_arc w (Z.gcd sa sb) l u ((x + y) mod 2 ^ w).
Proof.
  intros Hw (Hx & Dx & Gx) (Hy & Dy & Gy) Hlt Ga Gb El Eu.
  pose proof (Z.gcd_divide_l sa sb) as H1. pose proof (Z.gcd_divide_r sa sb) as H2.
  assert (∀ p q z, dist w la p + dist w lb q < 2 ^ w → z mod 2 ^ w = (p + q) mod 2 ^ w →
    dist w l z = dist w la p + dist w lb q) as Hd.
  { intros p q z Hpq Ez. pose proof (dist_range w la p ltac:(lia)). pose proof (dist_range w lb q ltac:(lia)).
    rewrite <-(Z.mod_small (dist w la p + dist w lb q) (2 ^ w)) by lia. unfold dist.
    rewrite <-Z.add_mod by lia. rewrite Zminus_mod, El, Ez, <-Zminus_mod. f_equal. lia. }
  unfold in_arc. fold (dist w l ((x + y) mod 2 ^ w)) (dist w l u). unfold in_arc in *.
  fold (dist w la x) (dist w la ua) in Dx. fold (dist w lb y) (dist w lb ub) in Dy.
  fold (dist w la x) in Gx. fold (dist w lb y) in Gy.
  rewrite (Hd ua ub u), (Hd x y) by (done || lia || (rewrite Z.mod_mod; lia)).
  split; [apply Z.divide_add_r; [apply (Z.divide_trans _ sa)|apply (Z.divide_trans _ sb)]; done|]. split; [apply mod_pow2_bound; lia|].
  split; [lia|]. apply Z.divide_add_r; [apply (Z.divide_trans _ sa)|apply (Z.divide_trans _ sb)]; done.
Qed.

Lemma add_body_holds a b x y :
  wf a → wf b → bits b = bits a → member a x → member b y →
  ∃ r, add_body a b = Ok r ∧ holds (bits a) r ((x + y) mod 2 ^ bits a).
Proof.
  intros Ha Hb Hw [_ Hx] [_ Hy]. pose proof (wf_bits a Ha). rewrite Hw in Hy.
  unfold add_body. rewrite Hw, Z.max_id.
  destruct (_wrapped_overflow_add a b) eqn:Eo; [apply top_holds; [done|apply mod_pow2_bound; lia]|].
  pose proof (overflow_spec a b Ha Hb Hw Eo). pose proof (wf_aligned_dist b Hb) as Gb. rewrite Hw in Gb.
  destruct (arc_add (bits a) (stride a) (lower_bound a) (upper_bound a) x (stride b) (lower_bound b) (upper_bound b) y
    (_modular_add (lower_bound a) (lower_bound b) (bits a)) (_modular_add (upper_bound a) (upper_bound b) (bits a)))
    as [G M]; try done; try (by apply wf_aligned_dist); try (unfold _modular_add; rewrite Z.mod_mod; lia).
  apply new_normalize_holds; try done. apply Z.gcd_nonneg.
Qed.

(** The reflection of an arc: the negatives of its values. *)
Lemma dist_neg w p q : dist w (- q) (- p) = dist w p q.
Proof. unfold dist. f_equal. lia. Qed.

Lemma arc_neg w st l u v :
  0 ≤ w → (st | dist w l u) → in_arc w st l u v → in_arc w st (- u) (- l) ((- v) mod 2 ^ w).
Proof.
  intros Hw Hal (Hv & Hd & Hg). unfold in_arc. rewrite Zminus_mod_idemp_l.
  fold (dist w (- u) (- v)) (dist w (- u) (- l)) (dist w l v) (dist w l u) in *.
  rewrite !dist_neg. pose proof (dist_range w l v Hw). pose proof (dist_range w v u Hw). pose proof (dist_range w l u Hw).
  assert (dist w l v + dist w v u = dist w l u) as Hs by (destruct (dist_chain w l v u Hw); lia).
  split; [by apply mod_pow2_bound|]. split; [lia|].
  replace (dist w v u) with (dist w l u - dist w l v) by lia. by apply Z.divide_sub_r.
Qed.

Lemma sub_body_holds a b x y :
  wf a → wf b → bits b = bits a → member a x → member b y →
  ∃ r, sub_body a b = Ok r ∧ holds (bits a) r ((x - y) mod 2 ^ bits a).
Proof.
  intros Ha Hb Hw [_ Hx] [_ Hy]. pose proof (wf_bits a Ha). rewrite Hw in Hy.
  unfold sub_body, _wrapped_overflow_sub. rewrite Hw, Z.max_id.
  destruct (_wrapped_overflow_add a b) eqn:Eo; [apply top_holds; [done|apply mod_pow2_bound; lia]|].
  pose proof (overflow_spec a b Ha Hb Hw Eo). pose proof (wf_aligned_dist b Hb) as Gb. rewrite Hw in Gb.
  pose proof (arc_neg (bits a) _ _ _ _ ltac:(lia) Gb Hy) as Hny.
  destruct (arc_add (bits a) (stride a) (lower_bound a) (upper_bound a) x (stride b) (- upper_bound b) (- lower_bound b)
    ((- y) mod 2 ^ bits a)
    (_modular_sub (lower_bound a) (upper_bound b) (bits a)) (_modular_sub (upper_bound a) (lower_bound b) (bits a)))
    as [G M]; try done; rewrite ?dist_neg; try done; try (by apply wf_aligned_dist);
    [unfold _modular_sub; rewrite Z.mod_mod by lia; f_equal; lia..|].
  rewrite Zplus_mod_idemp_r in M. apply new_normalize_holds; try done. apply Z.gcd_nonneg.
Qed.

(** C15: Addition, subtraction and negation of strided intervals are sound: on
    intervals of one width that are not reversed they never raise, and their
    results stand for the sum, the difference and the negative that the concrete
    backend computes from any vectors the operands stand for, wrap-around included. *)
Theorem add_sub_neg_sound :
  sound_binary (λ a b, add_unrev a (Si b)) (λ x y, BVV.__add__ x (BVV.Bv y)) equal_width ∧
  sound_binary (λ a b, sub_unrev a (Si b)) (λ x y, BVV.__sub__ x (BVV.Bv y)) equal_width ∧
  sound_unary neg_unrev BVV.__neg__.
Proof.
  split; [|split].
  - intros a b [x wx] [y wy] (Ha & Ea & Hx) (Hb & Eb & Hy) Hw. unfold equal_width in Hw. cbn in *. subst.
    pose proof (wf_bits a Ha). assert (bits b = bits a) by congruence.
    apply (decorated_sound _ _ _ (bits a) ((x + y) mod 2 ^ bits a)); [done|done|by apply add_body_holds|].
    unfold BVV.__add__. cbn. rewrite BVV.compare_bits_eq by done. apply BVV.new_spec. cbn; lia.
  - intros a b [x wx] [y wy] (Ha & Ea & Hx) (Hb & Eb & Hy) Hw. unfold equal_width in Hw. cbn in *. subst.
    pose proof (wf_bits a Ha). assert (bits b = bits a) by congruence.
    apply (decorated_sound _ _ _ (bits a) ((x - y) mod 2 ^ bits a)); [done|done|by apply sub_body_holds|].
    unfold BVV.__sub__. cbn. rewrite BVV.compare_bits_eq by done. apply BVV.new_spec. cbn; lia.
  - intros a [x w] (Ha & Ea & Hx). cbn in *. subst. pose proof (wf_bits a Ha) as Hw.
    pose proof (pow2_pos (bits a) ltac:(lia)) as Hpos. unfold neg_unrev, sub_unrev.
    rewrite new_point by lia. cbn [mbind result_bind]. rewrite normalize_types_same by done.
    assert (wf (point (bits a) 0)) as Hz by (apply point_wf; lia).
    destruct (sub_body_holds (point (bits a) 0) a 0 x) as (r & -> & Hr); [done..|by apply member_lower|done|].
    cbn. eexists _, _. split; [reflexivity|]. split.
    + unfold BVV.__neg__, BVV.mod_. cbn. apply BVV.new_spec. lia.
    + rewrite Z.mod_mod by lia. apply holds_gamma, holds_uninitialized.
      destruct (uninitialized a); [by apply holds_uninitialized|done].
Qed.

(** ** Products *)

(** A product between two bounds less than a circle apart. *)
Lemma product_holds w st lb ub p un :
  1 ≤ w → 0 ≤ st → lb ≤ p ≤ ub → ub - lb < 2 ^ w → (st | ub - lb) → (st | p - lb) →
  ∃ r, new w st lb ub un = Ok r ∧ holds w r (p mod 2 ^ w).
Proof.
  intros Hw Hst Hp Hlt Hu Hd. apply new_holds; try done.
  - unfold dist. by rewrite Z.mod_small by lia.
  - unfold in_arc. rewrite Zminus_mod_idemp_l, (Z.mod_small (p - lb)), (Z.mod_small (ub - lb)) by lia.
    split; [apply mod_pow2_bound; lia|]. split; [lia|done].
Qed.

(** The stride of a product on the grids [sa] from [la] and [sb] from [lb]. *)
Lemma product_grid sa la x sb lb y :
  (sa | x - la) → (sb | y - lb) → (Z.gcd sa sb | x * y - la * lb).
Proof.
  intros Hx Hy. pose proof (Z.gcd_divide_l sa sb). pose proof (Z.gcd_divide_r sa sb).
  replace (x * y - la * lb) with ((x - la) * y + la * (y - lb)) by ring.
  apply Z.divide_add_r; [apply Z.divide_mul_l|apply Z.divide_mul_r].
  - by apply (Z.divide_trans _ sa).
  - by apply (Z.divide_trans _ sb).
Qed.

Lemma product_grid_int sa la x b : (sa | x - la) → (Z.abs (sa * b) | x * b - la * b).
Proof.
  intros [k Hk]. apply Z.divide_abs_l. exists k. replace (x * b - la * b) with ((x - la) * b) by ring.
  rewrite Hk. ring.
Qed.

(** The stride chosen for a product, one operand possibly a single integer. *)
Definition product_stride (a b : SI) (va vb : Z) : Z :=
  if is_integer b then Z.abs (stride a * vb)
  else if is_integer a then Z.abs (va * stride b)
  else Z.gcd (stride a) (stride b).

Lemma product_stride_divides a b va vb la lb x y :
  (is_integer a = true → va = la ∧ x = la) → (is_integer b = true → vb = lb ∧ y = lb) →
  (stride a | x - la) → (stride b | y - lb) →
  0 ≤ product_stride a b va vb ∧ (product_stride a b va vb | x * y - la * lb).
Proof.
  intros Ia Ib Hx Hy. unfold product_stride. destruct (is_integer b).
  { destruct Ib as [-> ->]; [done|]. split; [lia|]. by apply product_grid_int. }
  destruct (is_integer a).
  { destruct Ia as [-> ->]; [done|]. split; [lia|].
    rewrite (Z.mul_comm la (stride b)), (Z.mul_comm la y), (Z.mul_comm la lb). by apply product_grid_int. }
  split; [apply Z.gcd_nonneg|]. by apply product_grid.
Qed.

Lemma straight_integer s x : wf s → straight s → member s x → is_integer s = true → x = lower_bound s.
Proof.
  intros Hs Hst Hx Hi. apply member_straight in Hx; [|done..]. unfold is_integer in Hi. lia.
Qed.

Lemma unsigned_mul_holds a b x y :
  wf a → wf b → bits b = bits a → straight a → straight b → member a x → member b y →
  ∃ r, _wrapped_unsigned_mul a b = Ok r ∧ holds (bits a) r ((x * y) mod 2 ^ bits a).
Proof.
  intros Ha Hb Hw Sa Sb Hx Hy. pose proof (wf_bits a Ha). unfold _wrapped_unsigned_mul. rewrite Hw, Z.max_id.
  pose proof (straight_integer a x Ha Sa Hx) as Ix. pose proof (straight_integer b y Hb Sb Hy) as Iy.
  apply member_straight in Hx as [Hx Gx]; [|done..]. apply member_straight in Hy as [Hy Gy]; [|done..].
  pose proof (wf_lower a Ha). pose proof (wf_lower b Hb).
  destruct (Z.ltb_spec (upper_bound a * upper_bound b - lower_bound a * lower_bound b) (2 ^ bits a));
    [|apply top_holds; [done|apply mod_pow2_bound; lia]].
  fold (product_stride a b (lower_bound a) (lower_bound b)).
  destruct (product_stride_divides a b (lower_bound a) (lower_bound b) (lower_bound a) (lower_bound b) x y) as [Hst G];
    [auto|auto|done|done|].
  destruct (product_stride_divides a b (lower_bound a) (lower_bound b) (lower_bound a) (lower_bound b)
    (upper_bound a) (upper_bound b)) as [_ G2].
  - intros E. unfold is_integer in E. lia.
  - intros E. unfold is_integer in E. lia.
  - by apply aligned_straight.
  - by apply aligned_straight.
  - apply product_holds; try done. nia.
Qed.

(** A piece that lies in one of the two hemispheres. *)
Definition hemisphere (s : SI) : Prop :=
  straight s ∧ (upper_bound s < 2 ^ (bits s - 1) ∨ 2 ^ (bits s - 1) ≤ lower_bound s).

(** The signed reading of a piece's values: in order, on the grid, and one
    value when the piece is an integer. *)
Lemma hemisphere_signed s u v :
  wf s → hemisphere s → member s u → member s v →
  let ts := BVV.to_signed (bits s) in
  (stride s | ts u - ts v) ∧ (is_integer s = true → ts u = ts v) ∧
  ts (lower_bound s) ≤ ts u ≤ ts (upper_bound s) ∧
  (lower_bound s < 2 ^ (bits s - 1) → 0 ≤ ts (lower_bound s)) ∧
  (2 ^ (bits s - 1) ≤ lower_bound s → ts (upper_bound s) < 0).
Proof.
  intros Hs [Hst Hh] Hu Hv ts. pose proof (straight_integer s u Hs Hst Hu) as Iu.
  pose proof (straight_integer s v Hs Hst Hv) as Iv.
  apply member_straight in Hu as [Hu Gu]; [|done..]. apply member_straight in Hv as [Hv Gv]; [|done..].
  pose proof (wf_upper s Hs). pose proof (wf_lower s Hs). unfold straight in Hst.
  assert (ts u - ts v = u - v) as E by (unfold ts, BVV.to_signed; zcases; lia).
  split; [rewrite E; divides_by ((u - lower_bound s) - (v - lower_bound s))|].
  split; [intros Hi; specialize (Iu Hi); specialize (Iv Hi); by subst|].
  unfold ts, BVV.to_signed. zcases; lia.
Qed.

(** One sign case: the extreme products are at [u1], [v1] and at [u2], [v2]. *)
Lemma signed_case a b x y u1 v1 u2 v2 un :
  wf a → wf b → bits b = bits a → hemisphere a → hemisphere b →
  member a x → member b y → member a u1 → member b v1 → member a u2 → member b v2 →
  let w := bits a in
  let ts := BVV.to_signed (bits a) in
  ts u1 * ts v1 ≤ ts x * ts y ≤ ts u2 * ts v2 →
  let st := product_stride a b (ts (lower_bound a)) (ts (lower_bound b)) in
  (∃ r, signed_product w st (ts u1 * ts v1) (ts u2 * ts v2) un = Ok r ∧ holds w r ((x * y) mod 2 ^ w)) ∧
  (∃ r, signed_product_masked w st (ts u1 * ts v1) (ts u2 * ts v2) un = Ok r ∧ holds w r ((x * y) mod 2 ^ w)).
Proof.
  intros Ha Hb Hw Hha Hhb Hx Hy Hu1 Hv1 Hu2 Hv2 w ts Hp st. pose proof (wf_bits a Ha).
  pose proof (member_range a x Hx) as Rx. pose proof (member_range b y Hy) as Ry. rewrite Hw in Ry.
  assert ((x * y) mod 2 ^ w = (ts x * ts y) mod 2 ^ w) as ->.
  { rewrite (Z.mul_mod (ts x)) by (unfold w; lia). unfold ts, w. by rewrite !BVV.to_signed_mod by done. }
  destruct (hemisphere_signed a x u1) as (Gx & Ix & _); [done..|].
  destruct (hemisphere_signed a u2 u1) as (Gu & Iu & _); [done..|].
  destruct (hemisphere_signed a (lower_bound a) u1) as (_ & Il & _); [by auto using member_lower..|].
  destruct (hemisphere_signed b y v1) as (Gy & Iy & _); [done..|].
  destruct (hemisphere_signed b v2 v1) as (Gv & Iv & _); [done..|].
  destruct (hemisphere_signed b (lower_bound b) v1) as (_ & Im & _); [by auto using member_lower..|].
  rewrite Hw in Gy, Iy, Gv, Iv, Im. fold ts in Gx, Ix, Gu, Iu, Il, Gy, Iy, Gv, Iv, Im.
  destruct (product_stride_divides a b (ts (lower_bound a)) (ts (lower_bound b)) (ts u1) (ts v1) (ts x) (ts y))
    as [Hst G1]; [auto|auto|done|done|].
  destruct (product_stride_divides a b (ts (lower_bound a)) (ts (lower_bound b)) (ts u1) (ts v1) (ts u2) (ts v2))
    as [_ G2]; [auto|auto|done|done|]. fold st in Hst, G1, G2.
  unfold signed_product, signed_product_masked.
  destruct (Z.ltb_spec (ts u2 * ts v2 - ts u1 * ts v1) (2 ^ w));
    [|split; (apply top_holds; [done|apply mod_pow2_bound; unfold w; lia])].
  destruct (product_holds w st (ts u1 * ts v1) (ts u2 * ts v2) (ts x * ts y) un) as (r & E & Hr); try done.
  split; exists r; (split; [|done]); [done|]. rewrite <-E, !land_mask, !new_norm by (unfold w; lia).
  unfold norm. by rewrite !Z.mod_mod by (unfold w; pose proof (pow2_pos (bits a)); lia).
Qed.

(** The extreme products of two ranges, by the signs of their values. *)
Lemma product_pp la x ua lb y ub :
  0 ≤ la → 0 ≤ lb → la ≤ x ≤ ua → lb ≤ y ≤ ub → la * lb ≤ x * y ≤ ua * ub.
Proof. intros. split; apply Z.mul_le_mono_nonneg; lia. Qed.

Lemma product_np la x ua lb y ub :
  ua < 0 → 0 ≤ lb → la ≤ x ≤ ua → lb ≤ y ≤ ub → la * ub ≤ x * y ≤ ua * lb.
Proof.
  intros. pose proof (product_pp (- ua) (- x) (- la) lb y ub). lia.
Qed.

Lemma product_nn la x ua lb y ub :
  ua < 0 → ub < 0 → la ≤ x ≤ ua → lb ≤ y ≤ ub → ua * ub ≤ x * y ≤ la * lb.
Proof.
  intros. pose proof (product_pp (- ua) (- x) (- la) (- ub) (- y) (- lb)). lia.
Qed.

Lemma signed_mul_holds a b x y :
  wf a → wf b → bits b = bits a → hemisphere a → hemisphere b → member a x → member b y →
  ∃ r, _wrapped_signed_mul a b = Ok r ∧ holds (bits a) r ((x * y) mod 2 ^ bits a).
Proof.
  intros Ha Hb Hw Hha Hhb Hx Hy. pose proof (wf_bits a Ha) as Hw1.
  pose proof (wf_lower a Ha). pose proof (wf_upper a Ha). pose proof (wf_lower b Hb) as Lb.
  pose proof (wf_upper b Hb) as Ub. rewrite Hw in Lb, Ub.
  pose proof (member_lower a Ha). pose proof (member_upper a Ha).
  pose proof (member_lower b Hb). pose proof (member_upper b Hb).
  destruct (hemisphere_signed a x x) as (_ & _ & Bx & Pa & Na); [done..|].
  destruct (hemisphere_signed b y y) as (_ & _ & By & Pb & Nb); [done..|]. rewrite Hw in By, Pb, Nb.
  pose proof (λ u1 v1 u2 v2 un, signed_case a b x y u1 v1 u2 v2 un Ha Hb Hw Hha Hhb Hx Hy) as C. cbv zeta in C.
  unfold _wrapped_signed_mul. rewrite Hw, Z.max_id, !is_msb_zero_spec, !unsigned_to_signed_spec by done.
  destruct Hha as [Sa Ha2], Hhb as [Sb Hb2]. rewrite Hw in Hb2. unfold straight in Sa, Sb.
  set (ts := BVV.to_signed (bits a)) in *.
  assert (∀ v, v < 2 ^ (bits a - 1) → ts v = v) as Hpos by (intros; unfold ts, BVV.to_signed; zcases; lia).
  set (st := if is_integer b then _ else _).
  assert (st = product_stride a b (ts (lower_bound a)) (ts (lower_bound b))) as Est.
  { unfold st, product_stride. rewrite !(Z.mul_comm _ (stride b)).
    destruct (is_integer b), (is_integer a); zcases; rewrite ?Hpos by done; done. }
  rewrite Est. clearbody st.
  assert (∀ v, v < 2 ^ (bits a - 1) → (v <? 2 ^ (bits a - 1)) = true) as Lt by lia.
  assert (∀ v, 2 ^ (bits a - 1) ≤ v → (v <? 2 ^ (bits a - 1)) = false) as Ge by lia.
  destruct Ha2 as [Ha2|Ha2];
    [rewrite (Lt (lower_bound a)), (Lt (upper_bound a)) by lia
    |rewrite (Ge (lower_bound a)), (Ge (upper_bound a)) by lia];
  (destruct Hb2 as [Hb2|Hb2];
    [rewrite (Lt (lower_bound b)), (Lt (upper_bound b)) by lia
    |rewrite (Ge (lower_bound b)), (Ge (upper_bound b)) by lia]); cbn [andb negb].
  - replace (lower_bound a * lower_bound b) with (ts (lower_bound a) * ts (lower_bound b)) by (rewrite !Hpos by lia; done).
    replace (upper_bound a * upper_bound b) with (ts (upper_bound a) * ts (upper_bound b)) by (rewrite !Hpos by lia; done).
    apply C; try done. apply product_pp; auto; lia.
  - replace (upper_bound a * ts (lower_bound b)) with (ts (upper_bound a) * ts (lower_bound b)) by (by rewrite (Hpos (upper_bound a)) by lia).
    replace (lower_bound a * ts (upper_bound b)) with (ts (lower_bound a) * ts (upper_bound b)) by (by rewrite (Hpos (lower_bound a)) by lia).
    apply C; try done. rewrite (Z.mul_comm (ts (upper_bound a)) (ts (lower_bound b))),
      (Z.mul_comm (ts x) (ts y)), (Z.mul_comm (ts (lower_bound a)) (ts (upper_bound b))).
    apply product_np; auto; lia.
  - replace (ts (lower_bound a) * upper_bound b) with (ts (lower_bound a) * ts (upper_bound b)) by (by rewrite (Hpos (upper_bound b)) by lia).
    replace (ts (upper_bound a) * lower_bound b) with (ts (upper_bound a) * ts (lower_bound b)) by (by rewrite (Hpos (lower_bound b)) by lia).
    apply C; try done. apply product_np; auto; lia.
  - apply C; try done. apply product_nn; auto; lia.
Qed.

(** The two products of the multiplication are sound on the pieces they
    are given: the unsigned one on intervals that do not run through the south
    pole, the signed one on intervals inside one hemisphere (for each of the
    four combinations of signs); each result stands for the product the
    concrete backend computes, wrap-around included. *)
Theorem wrapped_products_sound (a b : SI) (x y : BVV.BVV) :
  gamma a x → gamma b y → equal_width x y →
  (straight a → straight b →
    approximates (_wrapped_unsigned_mul a b) (BVV.__mul__ x (BVV.Bv y))) ∧
  (hemisphere a → hemisphere b →
    approximates (_wrapped_signed_mul a b) (BVV.__mul__ x (BVV.Bv y))).
Proof.
  destruct x as [x wx], y as [y wy]. intros (Ha & Ea & Hx) (Hb & Eb & Hy) Hw.
  unfold equal_width in Hw. cbn in *. subst. pose proof (wf_bits a Ha).
  unfold BVV.__mul__. cbn. rewrite BVV.compare_bits_eq by done. rewrite BVV.new_spec by (cbn; lia). cbn.
  split; intros Pa Pb.
  - destruct (unsigned_mul_holds a b x y) as (r & E & Hr); try done.
    eapply approximates_intro; [exact E|reflexivity|by apply holds_gamma].
  - destruct (signed_mul_holds a b x y) as (r & E & Hr); try done.
    eapply approximates_intro; [exact E|reflexivity|by apply holds_gamma].
Qed.

(** ** Division *)

Lemma unsigned_div_holds a b x y :
  wf a → wf b → bits b = bits a → straight a → straight b → member a x → member b y → y ≠ 0 →
  ∃ r, _wrapped_unsigned_div a b = Ok r ∧ holds (bits a) r (x / y).
Proof.
  intros Ha Hb Hw Sa Sb Hx Hy Hy0. pose proof (wf_bits a Ha). unfold _wrapped_unsigned_div. rewrite Hw, Z.max_id.
  apply member_straight in Hx as [Hx _]; [|done..]. apply member_straight in Hy as [Hy _]; [|done..].
  pose proof (wf_lower a Ha). pose proof (wf_lower b Hb). pose proof (wf_upper a Ha).
  destruct (Z.eqb_spec (upper_bound b) 0); [lia|]. rewrite andb_false_r.
  set (dlb := if lower_bound b =? 0 then lower_bound b + 1 else lower_bound b).
  assert (1 ≤ dlb ≤ y) as Hd by (unfold dlb; zcases; lia).
  rewrite !py_floordiv_nz by lia. cbn [mbind result_bind].
  assert (lower_bound a / upper_bound b ≤ x / y).
  { transitivity (x / upper_bound b); [apply Z.div_le_mono; lia|]. apply Z.div_le_compat_l; lia. }
  assert (x / y ≤ upper_bound a / dlb).
  { transitivity (x / dlb); [apply Z.div_le_compat_l; lia|]. apply Z.div_le_mono; lia. }
  assert (0 ≤ lower_bound a / upper_bound b) by (apply Z.div_pos; lia).
  assert (upper_bound a / dlb ≤ upper_bound a) by (apply Z.div_le_upper_bound; nia).
  destruct (product_holds (bits a) 1 (lower_bound a / upper_bound b) (upper_bound a / dlb) (x / y)
    (uninitialized a || uninitialized b)) as (r & E & Hr); try lia; try apply Z.divide_1_l.
  rewrite Z.mod_small in Hr by lia. eauto.
Qed.

Lemma set_elements_single s : set_elements [s] [] = [s].
Proof. reflexivity. Qed.

Lemma lub_single s : wf s → least_upper_bound [s] = Ok s.
Proof. intros Hs. unfold least_upper_bound. cbn. rewrite Z.eqb_refl. by apply copy_wf. Qed.

(** One dividend and one divisor: the set has a single element. *)
Lemma div_pieces_single py_set f a b r :
  py_set [r] = [r] → f a b = Ok r → wf r → div_pieces py_set f [a] [b] = Ok r.
Proof.
  intros Hset E Hr. unfold div_pieces. cbn [mapM mbind list_bind result_bind fmap list_fmap app].
  rewrite E. cbn [mbind result_bind mret result_ret]. rewrite set_elements_single, Hset, lub_single by done.
  by apply normalize_wf.
Qed.

(** Unsigned division of intervals that do not run through the south pole
    is sound: for every dividend and every non-zero divisor they stand for, the
    result stands for the concrete quotient, in whatever order the set of the
    partial quotients is iterated. *)
Theorem udiv_sound (py_set : list SI → list SI) (a b : SI) (x y : BVV.BVV) :
  (∀ l, py_set l ≡ₚ l) → straight a → straight b →
  gamma a x → gamma b y → equal_width x y → BVV.value y ≠ 0 →
  approximates (udiv_unrev py_set a (Si b)) (BVV.__floordiv__ x (BVV.Bv y)).
Proof.
  intros Hset Sa Sb. destruct x as [x wx], y as [y wy]. intros (Ha & Ea & Hx) (Hb & Eb & Hy) Hw Hy0.
  unfold equal_width in Hw. cbn in *. subst. pose proof (wf_bits a Ha). assert (bits b = bits a) by congruence.
  apply (decorated_sound _ _ _ (bits a) (x / y)); [done|done| |].
  - destruct (unsigned_div_holds a b x y) as (r & E & Hr); try done. exists r. split; [|done].
    rewrite !ssplit_straight by done. cbn [mbind result_bind].
    apply div_pieces_single; [by apply Permutation_singleton_r, Hset|done|apply Hr].
  - unfold BVV.__floordiv__. cbn. rewrite BVV.compare_bits_eq by done. cbn.
    destruct (Z.eqb_spec y 0); [done|]. rewrite BVV.new_spec by lia. do 2 f_equal.
    pose proof (member_range a x Hx). pose proof (member_range b y Hy).
    apply Z.mod_small. split; [apply Z.div_pos; lia|]. apply Z.div_lt_upper_bound; nia.
Qed.

(** Signed division rounds the wrong way.  The partial quotients are
    Python's floor divisions, while the concrete backend truncates towards
    zero: 7 / -2 is decided to be -4 at 4 bits, and is -3. *)
Theorem sdiv_unsound (py_set : list SI → list SI) :
  py_set [point 4 12] = [point 4 12] →
  sdiv_unrev py_set (point 4 7) (Si (point 4 14)) = Ok (point 4 12) ∧
  BVV.SDiv (BVV.Bv (BVV.mkBVV 7 4)) (BVV.Bv (BVV.mkBVV 14 4)) = Ok (BVV.mkBVV 13 4).
Proof.
  intros Hset. split; [|vm_compute; reflexivity].
  assert (_psplit (point 4 7) = Ok [point 4 7]) as E1 by (vm_compute; reflexivity).
  assert (_psplit (point 4 14) = Ok [point 4 14]) as E2 by (vm_compute; reflexivity).
  assert (_wrapped_signed_div (point 4 7) (point 4 14) = Ok (point 4 12)) as E3 by (vm_compute; reflexivity).
  unfold sdiv_unrev. rewrite normalize_types_same by done. rewrite E1, E2. cbn [mbind result_bind].
  rewrite (div_pieces_single _ _ _ _ (point 4 12)) by (done || (apply point_wf; lia)). reflexivity.
Qed.

(** The remainder applies the operations in the wrong order: for a single
    quotient it computes [(s - s / t) * t] instead of [s - (s / t) * t].  8 and
    9 modulo 5 at 4 bits become <4>5[3, 8], without the remainder 4 of 9. *)
Theorem mod_unsound (py_set : list SI → list SI) :
  (∀ l, py_set l ≡ₚ l) →
  ∃ r, __mod___unrev py_set (mkSI 4 1 8 9 false false false) (Si (point 4 5)) = Ok r ∧
    ¬ member r 4 ∧
    BVV.__mod__ (BVV.mkBVV 9 4) (BVV.Bv (BVV.mkBVV 5 4)) = Ok (BVV.mkBVV 4 4).
Proof.
  intros Hset. exists (mkSI 4 5 3 8 false false false).
  split; [|split; [by apply (bool_decide_unpack _); vm_compute|vm_compute; reflexivity]].
  assert (_ssplit (mkSI 4 1 8 9 false false false) = Ok [mkSI 4 1 8 9 false false false]) as E1 by reflexivity.
  assert (_ssplit (point 4 5) = Ok [point 4 5]) as E2 by reflexivity.
  assert (udiv_unrev py_set (mkSI 4 1 8 9 false false false) (Si (point 4 5)) = Ok (point 4 1)) as E.
  { unfold udiv_unrev. rewrite normalize_types_same by done.
    assert (_wrapped_unsigned_div (mkSI 4 1 8 9 false false false) (point 4 5) = Ok (point 4 1)) as E0 by reflexivity.
    rewrite E1, E2. cbn [mbind result_bind].
    rewrite (div_pieces_single _ _ _ _ (point 4 1));
      [reflexivity|by apply Permutation_singleton_r, Hset|done|apply point_wf; lia]. }
  unfold __mod___unrev. rewrite normalize_types_same by done.
  rewrite E1, E2. cbn [is_integer point lower_bound upper_bound Z.eqb Pos.eqb andb mbind result_bind].
  cbn -[udiv_unrev sub_unrev mul_unrev least_upper_bound]. rewrite E. cbn -[udiv_unrev sub_unrev mul_unrev least_upper_bound].
  vm_compute. reflexivity.
Qed.

(** ** Witnesses *)

Lemma wrapped_products_sound_witness :
  approximates (_wrapped_signed_mul (mkSI 4 1 13 15 false false false) (mkSI 4 1 2 3 false false false))
    (BVV.__mul__ (BVV.mkBVV 14 4) (BVV.Bv (BVV.mkBVV 3 4))).
Proof.
  apply (wrapped_products_sound (mkSI 4 1 13 15 false false false) (mkSI 4 1 2 3 false false false)
    (BVV.mkBVV 14 4) (BVV.mkBVV 3 4)); try si_concrete; split; unfold straight; cbn; lia.
Defined.

Lemma udiv_sound_witness :
  approximates (udiv_unrev id sample_low (Si (mkSI 4 1 0 3 false false false)))
    (BVV.__floordiv__ (BVV.mkBVV 5 4) (BVV.Bv (BVV.mkBVV 2 4))).
Proof.
  apply (udiv_sound id sample_low (mkSI 4 1 0 3 false false false) (BVV.mkBVV 5 4) (BVV.mkBVV 2 4));
    [done|unfold straight; cbn; lia|unfold straight; cbn; lia|si_concrete|si_concrete|reflexivity|done].
Defined.

Lemma sdiv_unsound_witness :
  sdiv_unrev id (point 4 7) (Si (point 4 14)) = Ok (point 4 12) ∧
  BVV.SDiv (BVV.Bv (BVV.mkBVV 7 4)) (BVV.Bv (BVV.mkBVV 14 4)) = Ok (BVV.mkBVV 13 4).
Proof. apply (sdiv_unsound id). reflexivity. Defined.

Lemma mod_unsound_witness :
  ∃ r, __mod___unrev id (mkSI 4 1 8 9 false false false) (Si (point 4 5)) = Ok r ∧
    ¬ member r 4 ∧
    BVV.__mod__ (BVV.mkBVV 9 4) (BVV.Bv (BVV.mkBVV 5 4)) = Ok (BVV.mkBVV 4 4).
Proof. apply (mod_unsound id). done. Defined.

End SiArith.
