(* ===== verification/SiBits.v ===== *)
(** * Strided intervals, part 5: bitwise operations, shifts, casts, reversal

    The bitwise connectives (through Warren's bounds), the shifts, casts,
    extensions and the concatenation for operands that are not reversed; the
    real byte reversal [_reverse]; and the two decorators [reversed_processor]
    and [normalize_types] in full, with the methods they decorate whose bodies
    do not look at the flag. *)

From Stdlib Require Import ZArith Lia Bool Znumtheory ZifyBool.
From stdpp Require Import base tactics list numbers.
From S2P Require Import Prelude Bvv BoolResult Warren StridedInterval SiOrder SiJoin SiArith.

Module SiBits.
Import SI SiOrder SiJoin SiArith.

(** ** Trailing zeros *)

(** The loop [while y != 0: n += 1; y >>= 1]; [log2 y + 1] rounds are enough. *)
Fixpoint ntz_bits (fuel : nat) (n y : Z) : Z :=
  match fuel with
  | O => n
  | S fuel => if y =? 0 then n else ntz_bits fuel (n + 1) (Z.shiftr y 1)
  end.

Definition _ntz (x : Z) : Z :=
  if x =? 0 then 0
  else
    let y := Z.land (Z.lnot x) (x - 1) in
    ntz_bits (Z.to_nat (Z.log2 y + 1)) 0 y.

(** ** Bitwise connectives *)

Definition bitwise_not_unrev (self : SI) : result SI :=
  splitted_si ← _ssplit self;
  match splitted_si with
  | [] => empty (bits self)
  | _ =>
      result_interval ← mapM (λ si,
        new (bits self) (stride self) (Z.lnot (upper_bound si)) (Z.lnot (lower_bound si)) false) splitted_si;
      si ← least_upper_bound result_interval;
      si ← normalize si;
      Ok (set_uninitialized si (uninitialized self))
  end.

(** The body of the double loop of [bitwise_or], on two pieces. *)
Definition or_piece (u v : SI) : result SI :=
  let w := bits u in
  let s_t :=
    if is_integer u then _ntz (stride v)
    else if is_integer v then _ntz (stride u)
    else Z.min (_ntz (stride u)) (_ntz (stride v)) in
  let new_stride :=
    if is_integer u && (lower_bound u =? 0) then stride v
    else if is_integer v && (lower_bound v =? 0) then stride u
    else 2 ^ s_t in
  let mask := Z.shiftl 1 s_t - 1 in
  let r := Z.lor (Z.land (lower_bound u) mask) (Z.land (lower_bound v) mask) in
  let m := 2 ^ w - 1 in
  let high x := Z.land x (Z.land (Z.lnot mask) m) in
  low_bound ← Warren.min_or (high (lower_bound u)) (high (upper_bound u))
    (high (lower_bound v)) (high (upper_bound v)) w;
  upper_bound ← Warren.max_or (high (lower_bound u)) (high (upper_bound u))
    (high (lower_bound v)) (high (upper_bound v)) w;
  let new_stride := if low_bound =? upper_bound then 0 else new_stride in
  new w new_stride (Z.lor (high low_bound) r) (Z.lor (high upper_bound) r) false.

Definition or_body (s t : SI) : result SI :=
  us ← _ssplit s;
  vs ← _ssplit t;
  result_interval ← mapM (λ '(u, v), or_piece u v) (us ≫= λ u, (λ v, (u, v)) <$> vs);
  r ← least_upper_bound result_interval;
  normalize r.

Definition bitwise_or_unrev : SI → operand → result SI := normalize_types_unrev or_body.

(** The loop of [number_of_ones]; each round clears one bit. *)
Fixpoint number_of_ones_loop (fuel : nat) (ctr n : Z) : Z :=
  match fuel with
  | O => ctr
  | S fuel => if 0 <? n then number_of_ones_loop fuel (ctr + 1) (Z.land n (n - 1)) else ctr
  end.

Definition number_of_ones (n : Z) : Z := number_of_ones_loop (Z.to_nat (Z.log2 n + 1)) 0 n.

(** The test of the sign bit [a] of [b]: the first branch of [bitwise_and],
    [None] when [a] is not the sign bit alone. *)
Definition and_sign_bit (a b : SI) (t_bits : Z) : result (option SI) :=
  if is_integer a && (number_of_ones (lower_bound a) =? 1) && (lower_bound a =? Z.shiftl 1 (t_bits - 1)) then
    let stride_ := Z.shiftl 1 (bits a - 1) in
    if is_integer b then
      if lower_bound b =? stride_ then Some <$> new (bits b) 0 stride_ stride_ false
      else Some <$> new (bits b) 0 0 0 false
    else
      m ← py_mod (lower_bound a - lower_bound b) (stride b);
      let is_sol := (m =? 0) && (lower_bound b <=? lower_bound a) && (lower_bound a <=? upper_bound b) in
      if is_sol then Some <$> new (bits b) stride_ 0 stride_ false
      else Some <$> new (bits b) 0 0 0 false
  else Ok None.

Definition and_body (s t : SI) : result SI :=
  r ← and_sign_bit s t (bits t);
  match r with
  | Some r => Ok r
  | None =>
      r ← and_sign_bit t s (bits t);
      match r with
      | Some r => Ok r
      | None =>
          ns ← bitwise_not_unrev s;
          nt ← bitwise_not_unrev t;
          o ← bitwise_or_unrev ns (Si nt);
          new_interval ← bitwise_not_unrev o;
          normalize new_interval
      end
  end.

Definition bitwise_and_unrev : SI → operand → result SI := normalize_types_unrev and_body.

Definition xor_body (s t : SI) : result SI :=
  ns ← bitwise_not_unrev s;
  p ← bitwise_or_unrev ns (Si t);
  p ← bitwise_not_unrev p;
  nt ← bitwise_not_unrev t;
  q ← bitwise_or_unrev s (Si nt);
  q ← bitwise_not_unrev q;
  new_interval ← bitwise_or_unrev p (Si q);
  normalize new_interval.

Definition bitwise_xor_unrev : SI → operand → result SI := normalize_types_unrev xor_body.

(** [__neg__] and [__invert__] are both [bitwise_not]. *)
Definition __neg___unrev (self : SI) : result SI := bitwise_not_unrev self.
Definition __invert___unrev (self : SI) : result SI := bitwise_not_unrev self.

(** ** Shifts *)

Definition round_shift (max x : Z) : Z := if (x <? 0) || (max <? x) then max else x.

Definition _get_shift_range (self : SI) (shift_amount : operand) : Z * Z :=
  match shift_amount with
  | Num n => (n, n)
  | Si sh =>
      if is_integer sh then
        (round_shift (bits self) (lower_bound sh), round_shift (bits self) (lower_bound sh))
      else if lower_bound sh <? 0 then
        if 0 <=? upper_bound sh then (0, bits self) else (bits self, bits self)
      else (round_shift (bits self) (lower_bound self), round_shift (bits self) (upper_bound self))
  end.

(** Both shifts recurse on the pieces of a split; a piece of a well-formed
    interval is not split again.  The fuel stands for the interpreter's limit
    on the depth of the recursion. *)
Definition recursion_limit : nat := 1000.

Fixpoint rshift_logical_rec (fuel : nat) (self : SI) (shift_amount : Z) : result SI :=
  match fuel with
  | O => Err RecursionError
  | S fuel =>
      if is_empty self then Ok self
      else
        ssplit ← _ssplit self;
        match ssplit with
        | [_] =>
            lower ← py_shr (lower_bound self) shift_amount;
            upper ← py_shr (upper_bound self) shift_amount;
            st ← py_shr (stride self) shift_amount;
            new (bits self) (Z.max st 1) lower upper (uninitialized self)
        | a :: b :: _ =>
            a ← rshift_logical_rec fuel a shift_amount;
            b ← rshift_logical_rec fuel b shift_amount;
            union_unrev a (Si b)
        | [] => Err IndexError
        end
  end.

Definition _rshift_logical : SI → Z → result SI := rshift_logical_rec recursion_limit.

Fixpoint rshift_arithmetic_rec (fuel : nat) (self : SI) (shift_amount : Z) : result SI :=
  match fuel with
  | O => Err RecursionError
  | S fuel =>
      if is_empty self then Ok self
      else
        nsplit ← _nsplit self;
        match nsplit with
        | [p] =>
            let highest_bit_set := signed_max_int (bits p) <? lower_bound self in
            lower ← py_shr (lower_bound self) shift_amount;
            upper ← py_shr (upper_bound self) shift_amount;
            st ← py_shr (stride self) shift_amount;
            let st := Z.max st 1 in
            mask ← py_shl (2 ^ shift_amount - 1) (bits self - shift_amount);
            let lower := if highest_bit_set then Z.lor lower mask else lower in
            let upper := if highest_bit_set then Z.lor upper mask else upper in
            let st := if lower =? upper then 0 else st in
            new (bits self) st lower upper (uninitialized self)
        | a :: b :: _ =>
            a ← rshift_arithmetic_rec fuel a shift_amount;
            b ← rshift_arithmetic_rec fuel b shift_amount;
            union_unrev a (Si b)
        | [] => Err IndexError
        end
  end.

Definition _rshift_arithmetic : SI → Z → result SI := rshift_arithmetic_rec recursion_limit.

(** The union of the results for every amount of the range. *)
Definition shift_union (f : SI → Z → result SI) (self : SI) (shift_amount : operand) : result SI :=
  let '(lower, upper) := _get_shift_range self shift_amount in
  ret ← foldM (λ ret amount,
    si_ ← f self amount;
    match ret with
    | None => Ok (Some si_)
    | Some r => r ← union_unrev r (Si si_); Ok (Some r)
    end) None (py_range lower (upper + 1));
  match ret with
  | None => top (bits self) false
  | Some r => r ← normalize r; Ok (set_uninitialized r (uninitialized self))
  end.

(** [rshift_logical] of an interval that is not reversed; its twin
    [_unrev_rshift_logical] is the same code without the decorator. *)
Definition _unrev_rshift_logical : SI → operand → result SI := shift_union _rshift_logical.
Definition rshift_arithmetic_unrev : SI → operand → result SI := shift_union _rshift_arithmetic.

Definition lshift_unrev (self : SI) (shift_amount : operand) : result SI :=
  let '(lower, upper) := _get_shift_range self shift_amount in
  '(new_lower_bound, new_upper_bound) ← foldM (λ '(lo, hi) amount,
    lower_shifted ← py_shl (lower_bound self) amount;
    let lo := match lo with
              | None => Some lower_shifted
              | Some l => if lower_shifted <? l then Some lower_shifted else Some l
              end in
    upper_shifted ← py_shl (upper_bound self) amount;
    let hi := match hi with
              | None => Some upper_shifted
              | Some h => if h <? upper_shifted then Some upper_shifted else Some h
              end in
    Ok (lo, hi)) (None, None) (py_range lower (upper + 1));
  st ← py_shl (stride self) lower;
  ret ← new (bits self) (Z.max st 1)
    (default 0 new_lower_bound) (default (2 ^ bits self - 1) new_upper_bound) (uninitialized self);
  normalize ret.

(** ** Casts and extensions *)

Definition cast_low_unrev (self : SI) (tok : Z) : result SI :=
  _ ← guard_exn (tok <=? bits self) AssertionError;
  p ← py_shl 1 tok;
  let mask := p - 1 in
  let lb := lower_bound self in
  let ub := upper_bound self in
  let un := uninitialized self in
  if tok =? bits self then copy self
  else if (Z.land lb mask =? lb) && (Z.land ub mask =? ub) then new tok (stride self) lb ub un
  else if (0 <=? ub - lb) && (ub - lb <=? mask) then
    new tok (stride self) (Z.land lb mask) (Z.land ub mask) un
  else if (Z.land ub mask =? Z.land lb mask) && (Z.land (ub - lb) mask =? 0) then
    new tok 0 (Z.land lb mask) (Z.land lb mask) un
  else
    let ntz := _ntz (stride self) in
    if ntz <? tok then
      let new_lower := Z.land lb (2 ^ ntz - 1) in
      let stride_ := 2 ^ ntz in
      ret ← top tok un;
      let ret := set_lower (set_stride ret stride_) new_lower in
      k ← py_floordiv (upper_bound ret - lower_bound ret) (stride ret);
      Ok (set_upper ret (stride ret * k + lower_bound ret))
    else new tok 0 (Z.land lb (2 ^ tok - 1)) (Z.land ub (2 ^ tok - 1)) false.

Definition _unrev_cast_low (self : SI) (tok : Z) : result SI :=
  _ ← guard_exn (tok <=? bits self) AssertionError;
  p ← py_shl 1 tok;
  let mask := p - 1 in
  let lb := lower_bound self in
  let ub := upper_bound self in
  let un := uninitialized self in
  if tok =? bits self then copy self
  else if (Z.land lb mask =? lb) && (Z.land ub mask =? ub) then new tok (stride self) lb ub un
  else if ub - lb <=? mask then
    let lower := Z.land lb mask in
    let upper := Z.land ub mask in
    let lower := if lb <? 0 then _to_negative lower tok else lower in
    let upper := if ub <? 0 then _to_negative upper tok else upper in
    new tok (stride self) lower upper un
  else if (Z.land ub mask =? Z.land lb mask) && (Z.land (ub - lb) mask =? 0) then
    new tok 0 (Z.land lb mask) (Z.land lb mask) un
  else top tok un.

(** [extract] of an interval that is not reversed. *)
Definition extract_unrev (self : SI) (high_bit low_bit : Z) : result SI :=
  _ ← guard_exn (0 <=? low_bit) AssertionError;
  let bits_ := high_bit - low_bit + 1 in
  ret ← (if negb (low_bit =? 0) then _unrev_rshift_logical self (Num low_bit) else copy self);
  ret ← (if negb (bits_ =? bits self) then cast_low_unrev ret bits_ else Ok ret);
  normalize (set_uninitialized ret (uninitialized self)).

Definition _unrev_extract (self : SI) (high_bit low_bit : Z) : result SI :=
  _ ← guard_exn (0 <=? low_bit) AssertionError;
  let bits_ := high_bit - low_bit + 1 in
  ret ← (if negb (low_bit =? 0) then _unrev_rshift_logical self (Num low_bit) else copy self);
  ret ← (if negb (bits_ =? bits self) then _unrev_cast_low ret bits_ else Ok ret);
  normalize (set_uninitialized ret (uninitialized self)).

(** [concat]; the decorator leaves the widths alone here. *)
Definition concat_body (self b : SI) : result SI :=
  a ← nameless_copy self;
  let a := set_bits a (bits a + bits b) in
  new_si ← lshift_unrev a (Num (bits b));
  new_b ← copy b;
  let new_b := set_bits new_b (bits new_si) in
  if is_integer new_si then
    let new_si := set_stride (set_bits new_si (bits new_b)) (stride new_b) in
    let new_si := set_lower new_si (lower_bound new_si + lower_bound b) in
    Ok (set_upper new_si (upper_bound new_si + upper_bound b))
  else bitwise_or_unrev new_si (Si new_b).

Definition concat_unrev (self : SI) (o : operand) : result SI :=
  o ← coerce self o;
  ret ← concat_body self o;
  Ok (if uninitialized self || uninitialized o then set_uninitialized ret true else ret).

Definition zero_extend_unrev (self : SI) (new_length : Z) : result SI :=
  si ← copy self; Ok (set_bits si new_length).

(** One piece of the north cut, with the ones of its sign on the left. *)
Definition sign_extend_piece (new_length : Z) (n : SI) : result SI :=
  let a := lower_bound n in
  let b := upper_bound n in
  p ← py_shl 1 (new_length - bits n);
  let mask_n := Z.shiftl (p - 1) (bits n) in
  let mask_a := if _get_msb a (bits n) =? 1 then mask_n else 0 in
  let mask_b := if _get_msb b (bits n) =? 1 then mask_n else 0 in
  new new_length (stride n) (Z.lor a mask_a) (Z.lor b mask_b) false.

Definition sign_extend_unrev (self : SI) (new_length : Z) : result SI :=
  e ← extract_unrev self (bits self - 1) (bits self - 1);
  msb ← eval_unrev e 2 false;
  if bool_decide (msb = [0]) then zero_extend_unrev self new_length
  else
    si ← (if bool_decide (msb = [1]) then
            si ← copy self;
            let si := set_bits si new_length in
            let mask := (2 ^ new_length - 1) - (2 ^ bits self - 1) in
            Ok (set_upper (set_lower si (Z.lor (lower_bound si) mask)) (Z.lor (upper_bound si) mask))
          else
            nums ← _nsplit self;
            _ ← guard_exn (negb (bool_decide (length nums = 0%nat))) AssertionError;
            all_resulting_intervals ← mapM (sign_extend_piece new_length) nums;
            si ← least_upper_bound all_resulting_intervals;
            normalize si);
    Ok (set_uninitialized si (uninitialized self)).

(** ** Byte reversal *)

(** [reverse], the delayed one: it only flips the flag. *)
Definition reverse (self : SI) : result SI :=
  if bits self =? 8 then Ok self
  else si ← copy self; Ok (set_reversed si (negb (reversed si))).

(** [_reverse]: the bytes from the lowest up, concatenated the other way. *)
Definition _reverse (self : SI) : result SI :=
  o ← copy self;
  let o := set_reversed o (negb (reversed o)) in
  if bits o =? 8 then copy o
  else if is_top o then copy o
  else
    let rounded_bits := (bits o + 7) / 8 * 8 in
    list_bytes ← mapM (λ i, _unrev_extract o (Z.min (i + 7) (bits o - 1)) i) (py_range_step 0 rounded_bits 8);
    match list_bytes with
    | [] => Err AttributeError
    | b0 :: rest =>
        si ← foldM (λ si b, concat_unrev si (Si b)) b0 rest;
        Ok (set_reversed (set_uninitialized si (uninitialized self)) (reversed o))
    end.

(** ** The decorators in full *)

Definition reversed_processor {A} (f : SI → result A) (self : SI) : result A :=
  if reversed self then r ← _reverse self; f r else f self.

Definition _lossless_reverse (a : SI) : bool := uninitialized a || is_top a || is_integer a.

(** The operands as the decorated method gets them, and whether its result is
    to be reversed back. *)
Definition align_reversed (self o : SI) : result (SI * SI * bool) :=
  if negb (reversed self) && negb (reversed o) then Ok (self, o, false)
  else if reversed self && reversed o then
    s ← copy self; o ← copy o;
    Ok (set_reversed s false, set_reversed o false, true)
  else if _lossless_reverse self then
    s ← _reverse self; Ok (s, o, reversed o)
  else if _lossless_reverse o then
    o ← _reverse o; Ok (self, o, reversed self)
  else
    s ← (if reversed self then _reverse self else Ok self);
    o ← (if reversed o then _reverse o else Ok o);
    Ok (s, o, false).

Definition agnostic_extend (self : SI) (new_length : Z) : result SI :=
  reversed_processor (λ s, agnostic_extend_unrev s new_length) self.

Definition extend_operands (self o : SI) : result (SI * SI) :=
  let common_bits := Z.max (bits o) (bits self) in
  o ← (if bits o <? common_bits then agnostic_extend o common_bits else Ok o);
  self ← (if bits self <? common_bits then agnostic_extend self common_bits else Ok self);
  Ok (self, o).

(** The decorator for a method other than [concat]; [finish] is what it does
    to the result of the method. *)
Definition normalize_types {A} (finish : SI → SI → bool → A → result A)
    (f : SI → SI → result A) (self : SI) (o : operand) : result A :=
  o ← coerce self o;
  '(self, o) ← extend_operands self o;
  '(self, o, reverse_back) ← align_reversed self o;
  ret ← f self o;
  finish self o reverse_back ret.

(** A result that is an interval takes over the flags. *)
Definition finish_si (self o : SI) (reverse_back : bool) (ret : SI) : result SI :=
  let ret := if uninitialized self || uninitialized o then set_uninitialized ret true else ret in
  if reverse_back then reverse ret else Ok ret.

Definition finish_other {A} (self o : SI) (reverse_back : bool) (ret : A) : result A := Ok ret.

Definition concat (self : SI) (o : operand) : result SI :=
  o ← coerce self o;
  self ← (if reversed self then _reverse self else Ok self);
  o ← (if reversed o then _reverse o else Ok o);
  ret ← concat_body self o;
  Ok (if uninitialized self || uninitialized o then set_uninitialized ret true else ret).

(** The public methods whose bodies do not call another decorated one on their
    operands. *)
Definition add : SI → operand → result SI := normalize_types finish_si add_body.
Definition sub : SI → operand → result SI := normalize_types finish_si sub_body.
Definition bitwise_or : SI → operand → result SI := normalize_types finish_si or_body.
Definition bitwise_not (self : SI) : result SI := reversed_processor bitwise_not_unrev self.
Definition SLT : SI → operand → result BoolResult.BoolResult := normalize_types finish_other SLT_unrev.
Definition SLE : SI → operand → result BoolResult.BoolResult := normalize_types finish_other SLE_unrev.
Definition SGT : SI → operand → result BoolResult.BoolResult := normalize_types finish_other SGT_unrev.
Definition SGE : SI → operand → result BoolResult.BoolResult := normalize_types finish_other SGE_unrev.
Definition ULT : SI → operand → result BoolResult.BoolResult := normalize_types finish_other ULT_unrev.
Definition ULE : SI → operand → result BoolResult.BoolResult := normalize_types finish_other ULE_unrev.
Definition UGT : SI → operand → result BoolResult.BoolResult := normalize_types finish_other UGT_unrev.
Definition UGE : SI → operand → result BoolResult.BoolResult := normalize_types finish_other UGE_unrev.
Definition max (self : SI) (signed : bool) : result (option Z) := reversed_processor (λ s, max_unrev s signed) self.
Definition min (self : SI) (signed : bool) : result (option Z) := reversed_processor (λ s, min_unrev s signed) self.
Definition eval (self : SI) (n : Z) (signed : bool) : result (list Z) :=
  if is_empty self then Ok [] else reversed_processor (λ s, eval_unrev s n signed) self.
Definition lshift (self : SI) (n : operand) : result SI := reversed_processor (λ s, lshift_unrev s n) self.
Definition rshift_logical (self : SI) (n : operand) : result SI :=
  reversed_processor (λ s, _unrev_rshift_logical s n) self.
Definition rshift_arithmetic (self : SI) (n : operand) : result SI :=
  reversed_processor (λ s, rshift_arithmetic_unrev s n) self.
Definition cast_low (self : SI) (tok : Z) : result SI := reversed_processor (λ s, cast_low_unrev s tok) self.
Definition extract (self : SI) (high_bit low_bit : Z) : result SI :=
  reversed_processor (λ s, extract_unrev s high_bit low_bit) self.
Definition zero_extend (self : SI) (n : Z) : result SI := reversed_processor (λ s, zero_extend_unrev s n) self.
Definition sign_extend (self : SI) (n : Z) : result SI := reversed_processor (λ s, sign_extend_unrev s n) self.
Definition neg (self : SI) : result SI := reversed_processor neg_unrev self.

(** ** Trailing zeros divide *)

Lemma ntz_bits_spec fuel n y :
  0 ≤ y < 2 ^ Z.of_nat fuel → ntz_bits fuel n y = n + (if y =? 0 then 0 else Z.log2 y + 1).
Proof.
  revert n y. induction fuel as [|fuel IH]; intros n y Hy.
  - change (2 ^ Z.of_nat 0) with 1 in Hy. assert (y = 0) as -> by lia. cbn. lia.
  - cbn. destruct (Z.eqb_spec y 0); [lia|]. rewrite Nat2Z.inj_succ, Z.pow_succ_r in Hy by lia.
    assert (Z.shiftr y 1 = y / 2) as E by (by rewrite Z.shiftr_div_pow2).
    rewrite IH by (rewrite E; split; [apply Z.div_pos; lia|apply Z.div_lt_upper_bound; lia]).
    destruct (Z.eqb_spec (Z.shiftr y 1) 0) as [E0|E0].
    + assert (y = 1) as -> by (rewrite E in E0; apply Z.div_small_iff in E0; lia). cbn. lia.
    + rewrite Z.log2_shiftr by lia. assert (1 ≤ Z.log2 y); [|lia].
      apply Z.log2_le_pow2; [lia|]. change (2 ^ 1) with 2.
      destruct (Z.lt_ge_cases y 2); [|lia]. exfalso. apply E0. rewrite E. apply Z.div_small. lia.
Qed.

Lemma odd_part x : 0 < x → ∃ k m, 0 ≤ k ∧ 0 ≤ m ∧ x = Z.shiftl (2 * m + 1) k.
Proof.
  destruct x as [|p|p]; try lia. intros _. induction p as [p IH|p IH|].
  - exists 0, (Zpos p). rewrite Z.shiftl_0_r. lia.
  - destruct IH as (k & m & Hk & Hm & E). exists (k + 1), m. split; [lia|]. split; [done|].
    rewrite <-Z.shiftl_shiftl, <-E, Z.shiftl_mul_pow2 by lia. lia.
  - exists 0, 0. by cbn.
Qed.

(** [~x & (x - 1)] is the mask of the trailing zeros. *)
Lemma trailing_mask k m :
  0 ≤ k → 0 ≤ m →
  let x := Z.shiftl (2 * m + 1) k in Z.land (Z.lnot x) (x - 1) = Z.ones k.
Proof.
  intros Hk Hm x. assert (x - 1 = Z.lor (Z.shiftl (2 * m) k) (Z.ones k)) as ->.
  { rewrite lor_shiftl_add; [|done|rewrite <-ones_pow2; pose proof (pow2_pos k Hk); lia].
    unfold x. rewrite Z.shiftl_mul_pow2 by done. rewrite <-ones_pow2. ring. }
  apply Z.bits_inj'. intros i Hi. unfold x.
  rewrite Z.land_spec, Z.lnot_spec, Z.lor_spec, !Z.shiftl_spec by done.
  destruct (Z.lt_ge_cases i k).
  - rewrite !(Z.testbit_neg_r _ (i - k)), Z.ones_spec_low by lia. done.
  - rewrite Z.ones_spec_high, orb_false_r by lia.
    destruct (Z.eq_dec i k) as [->|].
    + rewrite Z.sub_diag, Z.testbit_odd_0. done.
    + replace (i - k) with (Z.succ (i - k - 1)) by lia.
      rewrite Z.testbit_odd_succ, Z.testbit_even_succ by lia. apply andb_negb_l.
Qed.

Lemma _ntz_spec x : 0 ≤ x → 0 ≤ _ntz x ∧ (2 ^ _ntz x | x).
Proof.
  intros Hx. unfold _ntz. destruct (Z.eqb_spec x 0) as [->|]; [split; [done|apply Z.divide_0_r]|].
  destruct (odd_part x) as (k & m & Hk & Hm & ->); [lia|].
  rewrite trailing_mask by done. pose proof (pow2_pos k Hk).
  assert (ntz_bits (Z.to_nat (Z.log2 (Z.ones k) + 1)) 0 (Z.ones k) = k) as ->.
  { pose proof (Z.log2_nonneg (Z.ones k)). rewrite ntz_bits_spec.
    - rewrite <-ones_pow2. destruct (Z.eqb_spec (2 ^ k - 1) 0) as [E|E].
      + destruct (Z.eq_dec k 0); [done|]. pose proof (Z.pow_gt_1 2 k). lia.
      + rewrite Z.sub_1_r, Z.log2_pred_pow2; [lia|]. destruct (Z.eq_dec k 0) as [->|]; [done|lia].
    - rewrite Z2Nat.id, <-ones_pow2 in * by lia. split; [lia|].
      destruct (Z.eq_dec (2 ^ k - 1) 0) as [E|]; [rewrite E; by apply pow2_pos|].
      apply Z.log2_lt_pow2; lia. }
  split; [done|]. rewrite Z.shiftl_mul_pow2 by done. apply Z.divide_factor_r.
Qed.

(** ** Complement *)

(** A well-formed, unsplit interval that holds [v]. *)
Definition holds_straight (w : Z) (r : SI) (v : Z) : Prop := holds w r v ∧ straight r.

Lemma new_straight w st l u v un :
  1 ≤ w → 0 ≤ st → 0 ≤ l ≤ v → v ≤ u < 2 ^ w → (st | u - l) → (st | v - l) →
  ∃ r, new w st l u un = Ok r ∧ holds_straight w r v.
Proof.
  intros Hw Hst Hl Hu Hul Hvl. rewrite new_norm by lia. eexists. split; [done|]. split.
  - apply norm_holds; [done|done|unfold dist; by rewrite Z.mod_small by lia|]. apply arc_straight; [lia|lia|]. by split; [lia|].
  - unfold straight. destruct (norm_straight w st l u un) as (-> & -> & _); lia.
Qed.

Lemma norm_cong w st l u l' u' un :
  l mod 2 ^ w = l' mod 2 ^ w → u mod 2 ^ w = u' mod 2 ^ w → norm w st l u un = norm w st l' u' un.
Proof. intros El Eu. unfold norm. by rewrite El, Eu. Qed.

Lemma lnot_mod w v : 0 ≤ w → 0 ≤ v < 2 ^ w → Z.lnot v mod 2 ^ w = 2 ^ w - 1 - v.
Proof.
  intros. replace (Z.lnot v) with (2 ^ w - 1 - v + (-1) * 2 ^ w) by (unfold Z.lnot; lia).
  rewrite Z_mod_plus_full. apply Z.mod_small. lia.
Qed.

(** The complement of one piece. *)
Lemma not_piece w st p v :
  wf p → bits p = w → straight p → 0 ≤ st → (∀ z, member p z → (st | z - lower_bound p)) → member p v →
  ∃ r, new w st (Z.lnot (upper_bound p)) (Z.lnot (lower_bound p)) false = Ok r ∧
    holds_straight w r (2 ^ w - 1 - v).
Proof.
  intros Hp <- Hs Hst Hg Hv. pose proof (wf_bits p Hp). pose proof (wf_upper p Hp). pose proof (wf_lower p Hp).
  pose proof (Hg _ (member_upper p Hp)) as Gu. pose proof (Hg v Hv) as Gv.
  apply member_straight in Hv as [Hv _]; [|done..].
  destruct (new_straight (bits p) st (2 ^ bits p - 1 - upper_bound p) (2 ^ bits p - 1 - lower_bound p)
    (2 ^ bits p - 1 - v) false) as (r & E & Hr); try lia.
  - divides_by (upper_bound p - lower_bound p).
  - divides_by ((upper_bound p - lower_bound p) - (v - lower_bound p)).
  - exists r. split; [|done]. rewrite <-E, !new_norm by lia. f_equal.
    apply norm_cong; rewrite lnot_mod by lia; symmetry; apply Z.mod_small; lia.
Qed.

Lemma not_body_holds s :
  wf s → ∃ r, bitwise_not_unrev s = Ok r ∧ wf r ∧ bits r = bits s ∧ uninitialized r = uninitialized s ∧
    (straight s → straight r) ∧ ∀ v, member s v → member r (2 ^ bits s - 1 - v).
Proof.
  intros Hs. pose proof (wf_stride s Hs) as Hst0. unfold bitwise_not_unrev.
  destruct (ssplit_pieces s Hs) as (ps & E & [Hps Hm] & Hst & Hlen).
  rewrite E. cbn [mbind result_bind].
  destruct (mapM_ok (λ si, new (bits s) (stride s) (Z.lnot (upper_bound si)) (Z.lnot (lower_bound si)) false)
    (λ p r, at_width (bits s) r ∧ straight r ∧ ∀ v, member p v → member r (2 ^ bits s - 1 - v)) ps)
    as (rs & Ers & Hrs).
  { intros p Hp. apply list_elem_of_In in Hp as Hp'. rewrite Forall_forall in Hps, Hst.
    destruct (Hps p Hp') as (Hwp & Hbp & _). specialize (Hst p Hp').
    assert (∀ z, member p z → (stride s | z - lower_bound p)) as Hg by (intros z Hz; by apply (ssplit_stride s ps Hs E p z Hp) in Hz as [_ ?]).
    destruct (not_piece (bits s) (stride s) p (lower_bound p)) as (r & Er & [(Hr & Hbr & _) Hsr]);
      try done; [by apply member_lower|].
    exists r. split; [done|]. split; [done|]. split; [done|]. intros v Hv.
    destruct (not_piece (bits s) (stride s) p v) as (r' & Er' & [(_ & _ & ?) _]); try done. congruence. }
  pose proof (Forall2_length Hrs) as Hl.
  assert (Forall (at_width (bits s)) rs) as Hw.
  { apply Forall_forall. intros r Hr%list_elem_of_In. apply list_elem_of_lookup in Hr as [k Hk].
    destruct (Forall2_lookup_r _ _ _ _ _ Hrs Hk) as (? & _ & ? & _). done. }
  destruct (lub_small (bits s) rs) as (r & Er & [Hr Hbr] & Hi); [intros ->; cbn in Hl; lia|done|lia|].
  assert (∃ p ps', ps = p :: ps') as (p & ps' & ->) by (destruct ps; cbn in *; [lia|eauto]).
  rewrite Ers. cbn [mbind result_bind]. rewrite Er. cbn [mbind result_bind]. rewrite normalize_wf by done. cbn.
  eexists. split; [done|]. split; [by destruct Hr|]. split; [done|]. split; [done|]. split.
  - intros Hss. rewrite ssplit_straight in E by done. injection E as <- <-.
    destruct rs as [|r0 [|]]; cbn in Hl; try lia. apply Forall2_cons_1 in Hrs as [(_ & Hr0 & _) _].
    apply Forall_cons_1 in Hw as [[? _] _]. rewrite lub_single in Er by done. injection Er as <-. exact Hr0.
  - intros v (q & Hq & Hv)%Hm. apply list_elem_of_lookup in Hq as [k Hk].
    destruct (Forall2_lookup_l _ _ _ _ _ Hrs Hk) as (r' & Hk' & _ & _ & Hr').
    apply (Hi r'); [by eapply list_elem_of_lookup_2|by apply Hr'].
Qed.

(** ** Disjunction *)

(** The part of [x] above its [k] low bits. *)
Definition high_part (k x : Z) : Z := x - x mod 2 ^ k.

Lemma high_land k w x :
  0 ≤ k → 0 ≤ w → 0 ≤ x < 2 ^ w →
  Z.land x (Z.land (Z.lnot (Z.shiftl 1 k - 1)) (2 ^ w - 1)) = high_part k x.
Proof.
  intros Hk Hw Hx. rewrite shiftl_1, !ones_pow2 by done. unfold high_part.
  rewrite <-Z.land_ones by done.
  rewrite (Z.sub_nocarry_ldiff x) by
    (apply Z.bits_inj'; intros i Hi; rewrite Z.ldiff_spec, Z.land_spec, Z.bits_0; by destruct (Z.testbit x i), (Z.testbit (Z.ones k) i)).
  apply Z.bits_inj'. intros i Hi. rewrite Z.ldiff_spec, !Z.land_spec, Z.lnot_spec by done.
  destruct (Z.lt_ge_cases i w).
  - rewrite (Z.ones_spec_low w) by lia. by destruct (Z.testbit x i), (Z.testbit (Z.ones k) i).
  - by rewrite (testbit_high x w) by lia.
Qed.

Lemma high_testbit k x i : 0 ≤ k → Z.testbit (high_part k x) i = negb (i <? k) && Z.testbit x i.
Proof.
  intros Hk. unfold high_part. rewrite <-Z.land_ones by done. destruct (Z.lt_ge_cases i 0).
  { rewrite !Z.testbit_neg_r by done. by rewrite andb_false_r. }
  rewrite Z.sub_nocarry_ldiff by
    (apply Z.bits_inj'; intros j Hj; rewrite Z.ldiff_spec, Z.land_spec, Z.bits_0; by destruct (Z.testbit x j), (Z.testbit (Z.ones k) j)).
  rewrite Z.ldiff_spec, Z.land_spec. destruct (Z.ltb_spec i k).
  - rewrite Z.ones_spec_low by lia. by destruct (Z.testbit x i).
  - rewrite Z.ones_spec_high by lia. by destruct (Z.testbit x i).
Qed.

Lemma high_facts k x : 0 ≤ k → 0 ≤ x →
  0 ≤ high_part k x ≤ x ∧ (2 ^ k | high_part k x) ∧ x < high_part k x + 2 ^ k.
Proof.
  intros Hk Hx. unfold high_part. pose proof (pow2_pos k Hk). pose proof (mod_pow2_bound x k Hk).
  pose proof (Z.mod_le x (2 ^ k) Hx ltac:(lia)). split; [lia|]. split; [|lia].
  apply divide_mod. rewrite Zminus_mod, Z.mod_mod, Z.sub_diag by lia. by apply Z.mod_0_l; lia.
Qed.

(** The grid [2^k] is coarser than the last value: monotone on the grid. *)
Lemma high_mono k x y : 0 ≤ k → 0 ≤ x ≤ y → high_part k x ≤ high_part k y.
Proof.
  intros Hk Hxy. pose proof (pow2_pos k Hk).
  destruct (high_facts k x) as (? & [p Hp] & ?); [done|lia|].
  destruct (high_facts k y) as (? & [q Hq] & ?); [done|lia|].
  assert (p < q + 1) by nia. nia.
Qed.

(** A disjunction splits into its high and its low part. *)
Lemma lor_split k x y :
  0 ≤ k → 0 ≤ x → 0 ≤ y →
  Z.lor x y = Z.lor (high_part k x) (high_part k y) + Z.lor (x mod 2 ^ k) (y mod 2 ^ k) ∧
  high_part k (Z.lor (high_part k x) (high_part k y)) = Z.lor (high_part k x) (high_part k y) ∧
  Z.lor (high_part k x) (high_part k y) ≤ Z.lor x y.
Proof.
  intros Hk Hx Hy.
  assert (Z.lor (high_part k x) (high_part k y) = high_part k (Z.lor x y)) as E.
  { apply Z.bits_inj'. intros i Hi. rewrite high_testbit, !Z.lor_spec, !high_testbit by done.
    by destruct (i <? k). }
  assert (0 ≤ Z.lor x y) by (by apply Z.lor_nonneg).
  rewrite E. split; [rewrite <-Warren.lor_mod by done; unfold high_part; lia|].
  split; [|apply high_facts; done].
  apply Z.bits_inj'. intros i Hi. rewrite !high_testbit by done. by destruct (i <? k).
Qed.

(** The values of a piece whose stride is a multiple of [2^k] share their low
    bits. *)
Lemma low_const k s x :
  wf s → straight s → 0 ≤ k → (2 ^ k | stride s) → member s x → x mod 2 ^ k = lower_bound s mod 2 ^ k.
Proof.
  intros Hs Hst Hk Hd Hx. apply member_straight in Hx as [_ Hx]; [|done..].
  assert (2 ^ k | x - lower_bound s) as [q Hq] by (by apply (Z.divide_trans _ (stride s))).
  replace x with (lower_bound s + q * 2 ^ k) by lia. apply Z_mod_plus_full.
Qed.

(** The grid on which [or_piece] works. *)
Definition or_grid (u v : SI) : Z :=
  if is_integer u then _ntz (stride v)
  else if is_integer v then _ntz (stride u)
  else Z.min (_ntz (stride u)) (_ntz (stride v)).

Lemma or_grid_spec u v :
  wf u → wf v → 0 ≤ or_grid u v ∧ (2 ^ or_grid u v | stride u) ∧ (2 ^ or_grid u v | stride v).
Proof.
  intros Hu Hv. unfold or_grid.
  destruct (_ntz_spec (stride u) (wf_stride u Hu)) as [Hu1 Hu2].
  destruct (_ntz_spec (stride v) (wf_stride v Hv)) as [Hv1 Hv2].
  destruct (is_integer u) eqn:Eu; [|destruct (is_integer v) eqn:Ev].
  - unfold is_integer in Eu. rewrite (wf_int u Hu) by lia. auto using Z.divide_0_r.
  - unfold is_integer in Ev. rewrite (wf_int v Hv) by lia. auto using Z.divide_0_r.
  - split; [lia|]. split; (eapply Z.divide_trans; [|eassumption]);
      [exists (2 ^ (_ntz (stride u) - Z.min (_ntz (stride u)) (_ntz (stride v))))
      |exists (2 ^ (_ntz (stride v) - Z.min (_ntz (stride u)) (_ntz (stride v))))];
      rewrite <-Z.pow_add_r by lia; f_equal; lia.
Qed.

Lemma lor_disjoint k h r : 0 ≤ k → (2 ^ k | h) → 0 ≤ r < 2 ^ k → Z.lor h r = h + r.
Proof.
  intros Hk [q ->] Hr. rewrite <-Z.shiftl_mul_pow2 by done. rewrite lor_shiftl_add by done.
  by rewrite Z.shiftl_mul_pow2.
Qed.

Lemma lor_0_exact c d lo hi :
  c ≤ d →
  Warren.exact_min Z.lor 0 0 c d lo → Warren.exact_max Z.lor 0 0 c d hi → lo = c ∧ hi = d.
Proof.
  intros Hcd [(p & q & Hp & Hq & ->) Hlo] [(p' & q' & Hp' & Hq' & ->) Hhi].
  assert (p = 0) as -> by lia. assert (p' = 0) as -> by lia. rewrite !Z.lor_0_l in *.
  specialize (Hlo 0 c). specialize (Hhi 0 d). rewrite Z.lor_0_l in *. lia.
Qed.

Lemma exact_lor_comm a b c d v :
  (Warren.exact_min Z.lor a b c d v → Warren.exact_min Z.lor c d a b v) ∧
  (Warren.exact_max Z.lor a b c d v → Warren.exact_max Z.lor c d a b v).
Proof.
  split; intros [(p & q & Hp & Hq & ->) H]; (split; [exists q, p; rewrite Z.lor_comm; auto|]);
    intros x y Hx Hy; rewrite (Z.lor_comm x); auto.
Qed.

(** The stride [or_piece] gives the disjunction. *)
Definition or_stride (u v : SI) (low up : Z) : Z :=
  if low =? up then 0
  else if is_integer u && (lower_bound u =? 0) then stride v
  else if is_integer v && (lower_bound v =? 0) then stride u
  else 2 ^ or_grid u v.

Definition or_low (u v : SI) : Z :=
  Z.lor (lower_bound u mod 2 ^ or_grid u v) (lower_bound v mod 2 ^ or_grid u v).

(** The bounds of the high parts, as Warren's functions return them. *)
Definition or_high_bounds (u v : SI) (low up : Z) : Prop :=
  let h := high_part (or_grid u v) in
  Warren.exact_min Z.lor (h (lower_bound u)) (h (upper_bound u)) (h (lower_bound v)) (h (upper_bound v)) low ∧
  Warren.exact_max Z.lor (h (lower_bound u)) (h (upper_bound u)) (h (lower_bound v)) (h (upper_bound v)) up.

(** One operand is zero: the result has the other's bounds. *)
Lemma or_zero u v low up y :
  wf u → wf v → straight v → is_integer u && (lower_bound u =? 0) = true →
  or_high_bounds u v low up → member v y →
  high_part (or_grid u v) low + or_low u v = lower_bound v ∧
  high_part (or_grid u v) up + or_low u v = upper_bound v ∧
  lower_bound v ≤ y ≤ upper_bound v ∧ (stride v | y - lower_bound v) ∧ (stride v | upper_bound v - lower_bound v).
Proof.
  intros Hu Hv Sv [Iu%Z.eqb_eq Z0%Z.eqb_eq]%andb_true_iff [Hlo Hhi] Hy. rewrite <-Iu, Z0 in *.
  destruct (or_grid_spec u v Hu Hv) as (Hk & _ & Hdv). set (k := or_grid u v) in *.
  pose proof (wf_lower v Hv). pose proof (pow2_pos k Hk).
  assert (high_part k 0 = 0) as E0 by (unfold high_part; rewrite Z.mod_0_l; lia). rewrite E0 in *.
  pose proof (low_const k v _ Hv Sv Hk Hdv (member_upper v Hv)) as Hlc.
  assert (high_part k (lower_bound v) ≤ high_part k (upper_bound v)) as Hmono
    by (apply high_mono; [done|]; unfold straight in Sv; lia).
  destruct (lor_0_exact _ _ _ _ Hmono Hlo Hhi) as [-> ->].
  unfold or_low. fold k. rewrite Z0, Z.mod_0_l, Z.lor_0_l by lia.
  assert (∀ z, high_part k (high_part k z) = high_part k z) as Hidem.
  { intros z. apply Z.bits_inj'. intros i Hi. rewrite !high_testbit by done. by destruct (i <? k). }
  rewrite !Hidem. unfold high_part. rewrite Hlc.
  split; [lia|]. split; [lia|]. apply member_straight in Hy; [|done..]. split; [tauto|]. split; [tauto|].
  by apply aligned_straight.
Qed.

Lemma or_values u v low up x y :
  wf u → wf v → straight u → straight v → or_high_bounds u v low up → member u x → member v y →
  let k := or_grid u v in
  let lb := high_part k low + or_low u v in
  let ub := high_part k up + or_low u v in
  lb ≤ Z.lor x y ≤ ub ∧ (or_stride u v low up | Z.lor x y - lb) ∧ (or_stride u v low up | ub - lb).
Proof.
  intros Hu Hv Su Sv Hb Hx Hy k lb ub. pose proof Hb as [Hlo Hhi].
  destruct (or_grid_spec u v Hu Hv) as (Hk & Hdu & Hdv). fold k in Hk, Hdu, Hdv, Hlo, Hhi.
  pose proof (low_const k u x Hu Su Hk Hdu Hx) as Lx. pose proof (low_const k v y Hv Sv Hk Hdv Hy) as Ly.
  pose proof (proj1 (member_straight u x Hu Su) Hx) as [Bx _].
  pose proof (proj1 (member_straight v y Hv Sv) Hy) as [By _].
  pose proof (wf_lower u Hu). pose proof (wf_lower v Hv).
  destruct (lor_split k x y) as (Ez & Eh & _); [done|lia|lia|]. rewrite Lx, Ly in Ez.
  set (hz := Z.lor (high_part k x) (high_part k y)) in *.
  assert (low ≤ hz ≤ up) as Hlu.
  { split; [apply Hlo|apply Hhi]; split; apply high_mono; lia. }
  assert (0 ≤ low) as Hlow0.
  { destruct Hlo as [(p & q & Hp & Hq & ->) _]. apply Z.lor_nonneg.
    pose proof (high_facts k (lower_bound u) Hk ltac:(lia)). pose proof (high_facts k (lower_bound v) Hk ltac:(lia)). lia. }
  assert (lb ≤ Z.lor x y ≤ ub) as Hrange.
  { rewrite Ez. unfold lb, ub, or_low. fold k. rewrite <-Eh. split; apply Z.add_le_mono_r, high_mono; lia. }
  split; [done|]. unfold or_stride.
  destruct (Z.eqb_spec low up) as [E|E].
  { assert (ub = lb) by (unfold ub, lb; by rewrite E). replace (Z.lor x y - lb) with 0 by lia.
    replace (ub - lb) with 0 by lia. split; apply Z.divide_0_r. }
  destruct (is_integer u && (lower_bound u =? 0)) eqn:Eu.
  { destruct (or_zero u v low up y) as (E1 & E2 & _ & D1 & D2); try done. fold k lb ub in E1, E2. rewrite E1, E2.
    apply andb_true_iff in Eu as [Iu Z0]. rewrite (straight_integer u x) by done.
    apply Z.eqb_eq in Z0. rewrite Z0, Z.lor_0_l. auto. }
  destruct (is_integer v && (lower_bound v =? 0)) eqn:Ev.
  { assert (or_grid v u = k ∧ or_low v u = or_low u v) as [Ek El].
    { assert (or_grid v u = k) as Ek; [|by unfold or_low; rewrite Ek, Z.lor_comm].
      unfold k, or_grid. apply andb_true_iff in Ev as [Iv _]. rewrite Iv. destruct (is_integer u) eqn:Iu; [|done].
      unfold is_integer in *. by rewrite (wf_int u), (wf_int v) by (done || lia). }
    destruct (or_zero v u low up x) as (E1 & E2 & _ & D1 & D2); try done.
    { unfold or_high_bounds. rewrite Ek. split; by apply exact_lor_comm. }
    rewrite Ek, El in E1, E2. fold lb ub in E1, E2. rewrite E1, E2.
    apply andb_true_iff in Ev as [Iv Z0]. rewrite (straight_integer v y) by done.
    apply Z.eqb_eq in Z0. rewrite Z0, Z.lor_0_r. auto. }
  fold k. pose proof (high_facts k low Hk Hlow0) as (_ & D1 & _).
  pose proof (high_facts k up Hk ltac:(lia)) as (_ & D2 & _).
  pose proof (high_facts k hz Hk ltac:(lia)) as (_ & D3 & _). rewrite Eh in D3.
  split.
  - rewrite Ez. unfold lb, or_low. fold k. divides_by (hz - high_part k low).
  - unfold ub, lb. divides_by (high_part k up - high_part k low).
Qed.

Lemma or_piece_total u v :
  wf u → wf v → straight u → straight v → bits v = bits u →
  ∃ r, or_piece u v = Ok r ∧ at_width (bits u) r ∧ straight r ∧
    ∀ x y, member u x → member v y → member r (Z.lor x y).
Proof.
  intros Hu Hv Su Sv Hw. pose proof (wf_bits u Hu) as Hw1. destruct (or_grid_spec u v Hu Hv) as (Hk & _ & _).
  pose proof (wf_lower u Hu) as Lu. pose proof (wf_upper u Hu) as Uu.
  pose proof (wf_lower v Hv) as Lv. pose proof (wf_upper v Hv) as Uv. rewrite Hw in Lv, Uv. unfold straight in Su, Sv.
  set (k := or_grid u v) in *. pose proof (pow2_pos k Hk).
  assert (∀ z, 0 ≤ z < 2 ^ bits u → 0 ≤ high_part k z < 2 ^ bits u) as Hh by (intros z Hz; pose proof (high_facts k z); lia).
  assert (high_part k (lower_bound u) ≤ high_part k (upper_bound u)) by (apply high_mono; lia).
  assert (high_part k (lower_bound v) ≤ high_part k (upper_bound v)) by (apply high_mono; lia).
  pose proof (Hh _ Lu). pose proof (Hh _ Uu). pose proof (Hh _ Lv). pose proof (Hh _ Uv).
  destruct (Warren.or_bounds (high_part k (lower_bound u)) (high_part k (upper_bound u))
    (high_part k (lower_bound v)) (high_part k (upper_bound v)) (bits u)) as [(low & El & Hlo) (up & Eu & Hup)]; [lia..|].
  assert (0 ≤ low < 2 ^ bits u) as Rlow by (destruct Hlo as [(p & q & ? & ? & ->) _]; apply lor_bound; lia).
  assert (0 ≤ up < 2 ^ bits u) as Rup by (destruct Hup as [(p & q & ? & ? & ->) _]; apply lor_bound; lia).
  assert (or_high_bounds u v low up) as Hb by done.
  pose proof (λ x y, or_values u v low up x y Hu Hv Su Sv Hb) as Hval. cbv zeta in Hval. fold k in Hval.
  unfold or_piece. fold (or_grid u v). fold k. rewrite !high_land, El, Eu by lia. cbn [mbind result_bind].
  rewrite !high_land by lia. rewrite shiftl_1, !land_mask by lia.
  assert (0 ≤ or_low u v < 2 ^ k) as Hr.
  { unfold or_low. fold k. apply lor_bound; [done|apply mod_pow2_bound; lia..]. }
  fold k in Hr. change (Z.lor (lower_bound u mod 2 ^ k) (lower_bound v mod 2 ^ k)) with (or_low u v).
  rewrite !(lor_disjoint k) by (try apply high_facts; lia).
  change (if low =? up then 0 else _) with (or_stride u v low up).
  assert (0 ≤ or_stride u v low up) as Hst.
  { unfold or_stride. pose proof (wf_stride u Hu). pose proof (wf_stride v Hv). fold k.
    repeat case_match; try lia; apply Z.pow_nonneg; lia. }
  assert (high_part k up + or_low u v < 2 ^ bits u) as Hub.
  { rewrite <-(lor_disjoint k) by (try apply high_facts; lia). apply lor_bound; [lia|auto|].
    unfold or_low. fold k. apply lor_bound; [lia| |]; (split; [apply mod_pow2_bound; lia|]).
    - pose proof (Z.mod_le (lower_bound u) (2 ^ k)). lia.
    - pose proof (Z.mod_le (lower_bound v) (2 ^ k)). lia. }
  pose proof (high_facts k low Hk ltac:(lia)).
  rewrite new_norm by lia. eexists. split; [reflexivity|].
  assert (∀ x y, member u x → member v y → holds_straight (bits u)
    (norm (bits u) (or_stride u v low up) (high_part k low + or_low u v) (high_part k up + or_low u v) false) (Z.lor x y)) as Hall.
  { intros x y Hx Hy. destruct (Hval x y Hx Hy) as (B & D1 & D2).
    destruct (new_straight (bits u) (or_stride u v low up) (high_part k low + or_low u v)
      (high_part k up + or_low u v) (Z.lor x y) false) as (r & E & Hr'); try done; try lia.
    rewrite new_norm in E by lia. injection E as <-. done. }
  destruct (Hall _ _ (member_lower u Hu) (member_lower v Hv)) as [(? & ? & _) ?].
  split; [done|]. split; [done|]. intros x y Hx Hy. by apply Hall.
Qed.

(** The disjunction of two intervals of which at most one runs through the
    south pole: at most two pairs of pieces. *)
Lemma or_body_holds s t :
  wf s → wf t → bits t = bits s → straight s ∨ straight t →
  ∃ r, or_body s t = Ok r ∧ at_width (bits s) r ∧ (straight s → straight t → straight r) ∧
    ∀ x y, member s x → member t y → member r (Z.lor x y).
Proof.
  intros Hs Ht Hw Hst. unfold or_body.
  destruct (ssplit_pieces s Hs) as (us & Eu & [Hus Mu] & Su & Lu).
  destruct (ssplit_pieces t Ht) as (vs & Ev & [Hvs Mv] & Sv & Lv).
  rewrite Eu, Ev. cbn [mbind result_bind]. set (pairs := us ≫= _).
  assert (∀ u v, (u, v) ∈ pairs ↔ u ∈ us ∧ v ∈ vs) as Hpairs.
  { intros u v. unfold pairs. rewrite list_elem_of_bind. setoid_rewrite list_elem_of_fmap. split.
    - intros (u' & (v' & [= -> ->] & Hv) & Hu). by split.
    - intros [Hu Hv]. exists u. split; [by exists v|done]. }
  destruct (mapM_ok (λ '(u, v), or_piece u v) (λ p r, at_width (bits s) r ∧ straight r ∧
    ∀ x y, member (fst p) x → member (snd p) y → member r (Z.lor x y)) pairs) as (rs & Ers & Hrs).
  { intros [u v] [Hu Hv]%Hpairs. apply list_elem_of_In in Hu, Hv. rewrite Forall_forall in Hus, Hvs, Su, Sv.
    destruct (Hus u Hu) as (Wu & Bu & _), (Hvs v Hv) as (Wv & Bv & _). rewrite <-Bu.
    apply or_piece_total; auto.
    cbn. congruence. }
  pose proof (Forall2_length Hrs) as Hl.
  assert (length us = 1%nat ∨ length vs = 1%nat) as Hone.
  { destruct Hst as [Hss|Hst]; [left; rewrite ssplit_straight in Eu|right; rewrite ssplit_straight in Ev];
      try done; [by injection Eu as <-|by injection Ev as <-]. }
  assert (1 ≤ length pairs ≤ 2)%nat as Hlen.
  { unfold pairs. destruct us as [|u1 [|u2 [|]]], vs as [|v1 [|v2 [|]]]; cbn in *; lia. }
  assert (Forall (at_width (bits s)) rs) as Hrw.
  { apply Forall_forall. intros r Hr%list_elem_of_In. apply list_elem_of_lookup in Hr as [k Hk].
    destruct (Forall2_lookup_r _ _ _ _ _ Hrs Hk) as (? & _ & ? & _). done. }
  destruct (lub_small (bits s) rs) as (r & Er & [Hr Hbr] & Hi); [intros ->; cbn in Hl; lia|done|lia|].
  rewrite Ers. cbn [mbind result_bind]. rewrite Er. cbn [mbind result_bind]. rewrite normalize_wf by done.
  eexists. split; [done|]. split; [done|]. split.
  - intros Hss Htt. rewrite ssplit_straight in Eu, Ev by done. injection Eu as <-. injection Ev as <-.
    destruct rs as [|r0 [|]]; cbn in Hl; try lia. apply Forall2_cons_1 in Hrs as [(_ & Hr0 & _) _].
    apply Forall_cons_1 in Hrw as [[? _] _]. rewrite lub_single in Er by done. injection Er as <-. exact Hr0.
  - intros x y (u & Hu & Hx)%Mu (v & Hv & Hy)%Mv.
    assert ((u, v) ∈ pairs) as Hp by by apply Hpairs. apply list_elem_of_lookup in Hp as [k Hk].
    destruct (Forall2_lookup_l _ _ _ _ _ Hrs Hk) as (r' & Hk' & _ & _ & Hr').
    apply (Hi r'); [by eapply list_elem_of_lookup_2|by apply Hr'].
Qed.

(** ** Conjunction and exclusive or *)

(** De Morgan, on [w]-bit numbers. *)
Lemma demorgan w x y : 0 ≤ w → 0 ≤ x < 2 ^ w → 0 ≤ y < 2 ^ w →
  2 ^ w - 1 - Z.lor (2 ^ w - 1 - x) (2 ^ w - 1 - y) = Z.land x y.
Proof.
  intros Hw Hx Hy. rewrite (lnot_full w (Z.lor _ _)) by (try apply lor_bound; lia).
  rewrite !lnot_full by done. apply Z.bits_inj'. intros i Hi.
  rewrite Z.lxor_spec, Z.lor_spec, !Z.lxor_spec, Z.land_spec.
  destruct (Z.lt_ge_cases i w).
  - rewrite Z.ones_spec_low by lia. by destruct (Z.testbit x i), (Z.testbit y i).
  - rewrite Z.ones_spec_high, (testbit_high x w), (testbit_high y w) by lia. done.
Qed.

Lemma xor_by_or w x y : 0 ≤ w → 0 ≤ x < 2 ^ w → 0 ≤ y < 2 ^ w →
  Z.lor (2 ^ w - 1 - Z.lor (2 ^ w - 1 - x) y) (2 ^ w - 1 - Z.lor x (2 ^ w - 1 - y)) = Z.lxor x y.
Proof.
  intros Hw Hx Hy. rewrite (lnot_full w (Z.lor _ _)), (lnot_full w (Z.lor _ _)) by (try apply lor_bound; lia).
  rewrite !lnot_full by done. apply Z.bits_inj'. intros i Hi.
  rewrite Z.lor_spec, !Z.lxor_spec, !Z.lor_spec, !Z.lxor_spec.
  destruct (Z.lt_ge_cases i w).
  - rewrite Z.ones_spec_low by lia. by destruct (Z.testbit x i), (Z.testbit y i).
  - rewrite Z.ones_spec_high, (testbit_high x w), (testbit_high y w) by lia. done.
Qed.

Lemma set_uninitialized_facts s b :
  wf s → wf (set_uninitialized s b) ∧ (straight s → straight (set_uninitialized s b)) ∧
  ∀ v, member s v → member (set_uninitialized s b) v.
Proof. intros []. split; [by split|]. by split. Qed.

Lemma or_unrev_holds s t :
  wf s → wf t → bits t = bits s → straight s ∨ straight t →
  ∃ r, bitwise_or_unrev s (Si t) = Ok r ∧ at_width (bits s) r ∧ (straight s → straight t → straight r) ∧
    ∀ x y, member s x → member t y → member r (Z.lor x y).
Proof.
  intros Hs Ht Hw Hst. destruct (or_body_holds s t) as (r & E & [Hr Hb] & Hstr & Hm); try done.
  unfold bitwise_or_unrev. rewrite normalize_types_same, E by done. cbn [mbind result_bind].
  eexists. split; [done|]. destruct (_ || _); [|by auto].
  destruct (set_uninitialized_facts r true Hr) as (H1 & H2 & H3). split; [by split|]. auto.
Qed.

Lemma not_holds s :
  wf s → ∃ r, bitwise_not_unrev s = Ok r ∧ at_width (bits s) r ∧ (straight s → straight r) ∧
    ∀ v, member s v → member r (2 ^ bits s - 1 - v).
Proof.
  intros Hs. destruct (not_body_holds s Hs) as (r & E & ? & ? & _ & ? & ?). exists r. split; [done|]. by split.
Qed.

(** The sign bit alone, which [bitwise_and] treats in a branch of its own. *)
Definition sign_mask (s : SI) : bool := is_integer s && (lower_bound s =? 2 ^ (bits s - 1)).

Lemma and_sign_bit_none a b w : wf a → bits a = w → sign_mask a = false → and_sign_bit a b w = Ok None.
Proof.
  intros Ha <- Hm. pose proof (wf_bits a Ha). unfold and_sign_bit, sign_mask in *. rewrite shiftl_1 by lia.
  destruct (is_integer a); [|done]. cbn [andb] in *. rewrite Hm. by rewrite andb_false_r.
Qed.

Lemma and_body_holds s t x y :
  wf s → wf t → bits t = bits s → straight s ∨ straight t → sign_mask s = false → sign_mask t = false →
  member s x → member t y → ∃ r, and_body s t = Ok r ∧ holds (bits s) r (Z.land x y).
Proof.
  intros Hs Ht Hw Hst Ms Mt Hx Hy. pose proof (wf_bits s Hs).
  pose proof (member_range s x Hx) as Rx. pose proof (member_range t y Hy) as Ry. rewrite Hw in Ry.
  unfold and_body. rewrite !and_sign_bit_none by done. cbn [mbind result_bind].
  destruct (not_holds s Hs) as (ns & -> & [Wns Bns] & Sns & Mns).
  destruct (not_holds t Ht) as (nt & -> & [Wnt Bnt] & Snt & Mnt). cbn [mbind result_bind].
  destruct (or_unrev_holds ns nt) as (o & -> & [Wo Bo] & _ & Mo); [done|done|congruence|tauto|].
  cbn [mbind result_bind]. destruct (not_holds o Wo) as (r & -> & [Wr Br] & _ & Mr). cbn [mbind result_bind].
  rewrite normalize_wf by done. exists r. split; [done|]. split; [done|]. split; [congruence|].
  rewrite Bns in Bo. rewrite <-(demorgan (bits s)) by (done || lia). rewrite <-Bo at 1. apply Mr, Mo; [by apply Mns|].
  rewrite <-Hw. by apply Mnt.
Qed.

Lemma xor_body_holds s t x y :
  wf s → wf t → bits t = bits s → straight s → straight t →
  member s x → member t y → ∃ r, xor_body s t = Ok r ∧ holds (bits s) r (Z.lxor x y).
Proof.
  intros Hs Ht Hw Ss St Hx Hy. pose proof (wf_bits s Hs).
  pose proof (member_range s x Hx) as Rx. pose proof (member_range t y Hy) as Ry. rewrite Hw in Ry.
  unfold xor_body.
  destruct (not_holds s Hs) as (ns & -> & [Wns Bns] & Sns & Mns). cbn [mbind result_bind].
  destruct (or_unrev_holds ns t) as (p & -> & [Wp Bp] & Sp & Mp); [done|done|congruence|tauto|]. cbn [mbind result_bind].
  destruct (not_holds p Wp) as (p' & -> & [Wp' Bp'] & Sp' & Mp'). cbn [mbind result_bind].
  destruct (not_holds t Ht) as (nt & -> & [Wnt Bnt] & Snt & Mnt). cbn [mbind result_bind].
  destruct (or_unrev_holds s nt) as (q & -> & [Wq Bq] & Sq & Mq); [done|done|congruence|tauto|]. cbn [mbind result_bind].
  destruct (not_holds q Wq) as (q' & -> & [Wq' Bq'] & Sq' & Mq'). cbn [mbind result_bind].
  destruct (or_unrev_holds p' q') as (r & -> & [Wr Br] & _ & Mr); [done|done|congruence|tauto|]. cbn [mbind result_bind].
  rewrite normalize_wf by done. exists r. split; [done|]. split; [done|]. split; [congruence|].
  assert (bits p = bits s) as Ep by congruence. rewrite Ep in Mp'. rewrite Bq in Mq'. rewrite Hw in Mnt.
  rewrite <-(xor_by_or (bits s)) by (done || lia). auto.
Qed.

(** C16: Complement, disjunction, conjunction and exclusive or of strided
    intervals are sound: complement on all of them, disjunction and conjunction
    when at most one operand runs through the south pole, exclusive or when
    none does, and conjunction when no operand is the sign bit alone.  The
    results stand for what the concrete backend computes. *)
Theorem bitwise_sound (a b : SI) (x y : BVV.BVV) :
  gamma a x → gamma b y → equal_width x y →
  approximates (bitwise_not_unrev a) (BVV.__invert__ x) ∧
  (straight a ∨ straight b →
    approximates (bitwise_or_unrev a (Si b)) (BVV.__or__ x (BVV.Bv y)) ∧
    (sign_mask a = false → sign_mask b = false →
      approximates (bitwise_and_unrev a (Si b)) (BVV.__and__ x (BVV.Bv y)))) ∧
  (straight a → straight b →
    approximates (bitwise_xor_unrev a (Si b)) (BVV.__xor__ x (BVV.Bv y))).
Proof.
  destruct x as [x wx], y as [y wy]. intros (Ha & Ea & Hx) (Hb & Eb & Hy) Hw.
  unfold equal_width in Hw. cbn in *. subst. pose proof (wf_bits a Ha). assert (bits b = bits a) as Hba by congruence.
  pose proof (member_range a x Hx) as Rx. pose proof (member_range b y Hy) as Ry. rewrite Hba in Ry.
  split; [|split; [intros Hst; split|]].
  - destruct (not_holds a Ha) as (r & E & [Wr Br] & _ & Mr).
    eapply approximates_intro; [exact E|unfold BVV.__invert__; cbn; by rewrite BVV.new_spec by lia|].
    apply holds_gamma. split; [done|]. split; [done|]. unfold BVV.mod_. cbn.
    rewrite ones_pow2, <-lnot_full, Z.mod_small by (done || lia). auto.
  - destruct (or_unrev_holds a b) as (r & E & [Wr Br] & _ & Mr); try done.
    eapply approximates_intro; [exact E|unfold BVV.__or__; cbn; rewrite BVV.compare_bits_eq by done; cbn; by rewrite BVV.new_spec by lia|].
    apply holds_gamma. split; [done|]. split; [done|].
    rewrite Z.mod_small by (apply lor_bound; lia). auto.
  - intros Ma Mb. apply (decorated_sound _ _ _ (bits a) (Z.land x y)); [done|done|by apply and_body_holds|].
    unfold BVV.__and__. cbn. rewrite BVV.compare_bits_eq by done. cbn. rewrite BVV.new_spec by lia.
    rewrite Z.mod_small by (apply land_bound; lia). done.
  - intros Sa Sb. apply (decorated_sound _ _ _ (bits a) (Z.lxor x y)); [done|done|by apply xor_body_holds|].
    unfold BVV.__xor__. cbn. rewrite BVV.compare_bits_eq by done. cbn. rewrite BVV.new_spec by lia.
    rewrite Z.mod_small by (apply lxor_bound; lia). done.
Qed.

(** The branch of [bitwise_and] for the sign bit is wrong: it compares the
    other operand with the mask instead of testing its sign bit, so that
    [8 & 9] at 4 bits is decided to be 0. *)
Theorem bitwise_and_sign_unsound :
  bitwise_and_unrev (point 4 8) (Si (point 4 9)) = Ok (point 4 0) ∧
  BVV.__and__ (BVV.mkBVV 8 4) (BVV.Bv (BVV.mkBVV 9 4)) = Ok (BVV.mkBVV 8 4).
Proof. split; vm_compute; reflexivity. Qed.

(** The shifts lose values.  [rshift_logical] shifts the stride, which only
    a stride divisible by the power of two survives: <4>5[0, 15] >> 1 is
    <4>2[0, 7], without 15 >> 1.  [lshift] takes the least and the greatest of
    the shifted bounds before they are cut to the width: <4>1[1, 9] << 1 is
    the single integer 2, without 5 << 1. *)
Theorem shifts_unsound :
  (∃ r, rshift_logical (mkSI 4 5 0 15 false false false) (Num 1) = Ok r ∧ ¬ member r 7 ∧
    member (mkSI 4 5 0 15 false false false) 15 ∧
    BVV.LShR (BVV.Bv (BVV.mkBVV 15 4)) (BVV.Num 1) = Ok (BVV.mkBVV 7 4)) ∧
  (lshift (mkSI 4 1 1 9 false false false) (Num 1) = Ok (point 4 2) ∧
    member (mkSI 4 1 1 9 false false false) 5 ∧
    BVV.__lshift__ (BVV.mkBVV 5 4) (BVV.Num 1) = Ok (BVV.mkBVV 10 4)).
Proof.
  split.
  - exists (mkSI 4 2 0 7 false false false). split; [vm_compute; reflexivity|].
    split; [apply (bool_decide_unpack _); vm_compute; exact I|]. split; [si_concrete|vm_compute; reflexivity].
  - split; [vm_compute; reflexivity|]. split; [si_concrete|vm_compute; reflexivity].
Qed.

(** A shift by an interval shifts by the bounds of the shifted operand:
    [_get_shift_range] reads [self.lower_bound] and [self.upper_bound] where it
    means those of the amount.  At 8 bits the amounts from 1 to 2 become the
    amounts from 4 to 5 for <8>1[4, 5], and 4 >> 1 = 2 is lost. *)
Theorem shift_range_of_self :
  _get_shift_range (mkSI 8 1 4 5 false false false) (Si (mkSI 8 1 1 2 false false false)) = (4, 5) ∧
  rshift_logical (mkSI 8 1 4 5 false false false) (Si (mkSI 8 1 1 2 false false false)) = Ok (point 8 0) ∧
  BVV.LShR (BVV.Bv (BVV.mkBVV 4 8)) (BVV.Num 1) = Ok (BVV.mkBVV 2 8).
Proof. split; [reflexivity|]. split; vm_compute; reflexivity. Qed.

(** ** The real byte reversal of an integer *)

(** A single integer, with both flags. *)
Definition point_flags (w v : Z) (un re : bool) : SI := mkSI w 0 v v un false re.

Lemma new_point_flags w st v un : 1 ≤ w → 0 ≤ st → 0 ≤ v < 2 ^ w → new w st v v un = Ok (point_flags w v un false).
Proof.
  intros. rewrite new_norm by lia. unfold norm, point_flags.
  rewrite Z.mod_small, Z.eqb_refl, andb_false_r by done. done.
Qed.

Lemma normalize_point w v un re :
  1 ≤ w → 0 ≤ v < 2 ^ w → w ≠ 8 ∨ re = false → normalize (point_flags w v un re) = Ok (point_flags w v un re).
Proof.
  intros Hw Hv Hre. unfold normalize, point_flags, is_empty, _modular_add. cbn.
  assert ((w =? 8) && re = false) as -> by (destruct Hre as [? | ->]; lia). cbn.
  rewrite land_mask, Z.mod_small, Z.eqb_refl by lia.
  destruct (Z.ltb_spec v 0); [lia|]. rewrite andb_false_r. done.
Qed.

Lemma copy_point w v un re :
  1 ≤ w → 0 ≤ v < 2 ^ w → w ≠ 8 ∨ re = false → copy (point_flags w v un re) = Ok (point_flags w v un re).
Proof. intros. by apply normalize_point. Qed.

Lemma shr_bound w v k : 0 ≤ w → 0 ≤ v < 2 ^ w → 0 ≤ k → 0 ≤ Z.shiftr v k < 2 ^ w.
Proof.
  intros Hw Hv Hk. rewrite Z.shiftr_div_pow2 by done. pose proof (pow2_pos k Hk).
  split; [apply Z.div_pos; lia|]. apply Z.div_lt_upper_bound; nia.
Qed.

Lemma rshift_rec_point fuel w v un re k :
  1 ≤ w → 0 ≤ v < 2 ^ w → w ≠ 8 ∨ re = false → 0 ≤ k →
  rshift_logical_rec (S fuel) (point_flags w v un re) k = Ok (point_flags w (Z.shiftr v k) un false).
Proof.
  intros Hw Hv Hre Hk. cbn [rshift_logical_rec]. unfold is_empty. cbn [point_flags is_bottom].
  unfold _ssplit. cbn [upper_bound lower_bound]. rewrite Z.ltb_irrefl.
  change (mkSI w 0 v v un false re) with (point_flags w v un re). rewrite copy_point by done.
  cbn [mbind result_bind point_flags lower_bound upper_bound stride bits uninitialized].
  rewrite !py_shr_nonneg by done. cbn [mbind result_bind]. rewrite Z.shiftr_0_l.
  apply new_point_flags; [done|lia|]. apply shr_bound; lia.
Qed.

Lemma unrev_shift_point w v un re k :
  1 ≤ w → 0 ≤ v < 2 ^ w → w ≠ 8 ∨ re = false → 0 ≤ k →
  _unrev_rshift_logical (point_flags w v un re) (Num k) = Ok (point_flags w (Z.shiftr v k) un false).
Proof.
  intros Hw Hv Hre Hk. unfold _unrev_rshift_logical, shift_union, _get_shift_range, py_range.
  replace (k + 1 - k) with 1 by lia. change (seqZ k 1) with [0 + k]. cbn [foldM].
  assert (_rshift_logical (point_flags w v un re) (0 + k) = Ok (point_flags w (Z.shiftr v k) un false)) as ->
    by exact (rshift_rec_point 999 w v un re k Hw Hv Hre Hk).
  cbn [mbind result_bind]. rewrite normalize_point; [done|done|apply shr_bound; lia|by right].
Qed.

(** Byte number [k] of a value. *)
Definition byte (v k : Z) : Z := Z.shiftr v (8 * k) mod 2 ^ 8.

Lemma extract_byte w v un re k n :
  w = 8 * n → 2 ≤ n → 0 ≤ k < n → 0 ≤ v < 2 ^ w →
  _unrev_extract (point_flags w v un re) (Z.min (8 * k + 7) (w - 1)) (8 * k) = Ok (point_flags 8 (byte v k) un false).
Proof.
  intros Hw Hn Hk Hv. unfold _unrev_extract. rewrite (proj2 (Z.leb_le 0 (8 * k))) by lia. cbn [guard_exn mbind result_bind].
  replace (Z.min (8 * k + 7) (w - 1) - 8 * k + 1) with 8 by lia.
  assert (w ≠ 8) as Hw8 by lia.
  assert ((if negb (8 * k =? 0) then _unrev_rshift_logical (point_flags w v un re) (Num (8 * k)) else copy (point_flags w v un re))
    = Ok (point_flags w (Z.shiftr v (8 * k)) un (if negb (8 * k =? 0) then false else re))) as ->.
  { destruct (Z.eqb_spec (8 * k) 0) as [E|E]; cbn [negb].
    - rewrite E, Z.shiftr_0_r. apply copy_point; auto; lia.
    - apply unrev_shift_point; auto; lia. }
  cbn [mbind result_bind bits point_flags]. rewrite (proj2 (Z.eqb_neq 8 w)) by lia. cbn [negb].
  pose proof (shr_bound w v (8 * k) ltac:(lia) Hv ltac:(lia)) as Hs.
  set (s := Z.shiftr v (8 * k)) in *. unfold _unrev_cast_low. cbn [point_flags bits lower_bound upper_bound stride uninitialized].
  rewrite (proj2 (Z.leb_le 8 w)), (proj2 (Z.eqb_neq 8 w)) by lia. cbn [guard_exn mbind result_bind].
  rewrite py_shl_nonneg by lia. cbn [mbind result_bind]. rewrite shiftl_1, !land_mask by lia.
  pose proof (mod_pow2_bound s 8 ltac:(lia)) as Hb. unfold byte. fold s.
  assert (∀ r, normalize (set_uninitialized (point_flags 8 r un false) un) = normalize (point_flags 8 r un false)) as Hset by done.
  destruct (Z.eqb_spec (s mod 2 ^ 8) s) as [E|E]; cbn [andb].
  - rewrite new_point_flags by lia. cbn [mbind result_bind]. rewrite Hset, E. apply normalize_point; [lia|lia|auto].
  - rewrite Z.sub_diag, (proj2 (Z.leb_le 0 (2 ^ 8 - 1))), (proj2 (Z.ltb_ge s 0)) by lia.
    rewrite new_point_flags by lia. cbn [mbind result_bind]. rewrite Hset. apply normalize_point; [lia|lia|auto].
Qed.

Lemma concat_points w v x un un' :
  1 ≤ w → w + 8 ≠ 8 → 0 ≤ v < 2 ^ w → 0 ≤ x < 2 ^ 8 →
  concat_unrev (point_flags w v un false) (Si (point_flags 8 x un' false)) =
    Ok (point_flags (w + 8) (v * 2 ^ 8 + x) (un || un') false).
Proof.
  intros Hw Hw8 Hv Hx. unfold concat_unrev, coerce. cbn [mbind result_bind]. unfold concat_body.
  change (nameless_copy (point_flags w v un false)) with (copy (point_flags w v un false)).
  rewrite (copy_point w v un false); [|done|done|by right]. cbn [mbind result_bind].
  change (set_bits (point_flags w v un false) _) with (point_flags (w + 8) v un false).
  assert (0 ≤ v * 2 ^ 8 < 2 ^ (w + 8)) as Hv8 by (rewrite Z.pow_add_r by lia; lia).
  assert (lshift_unrev (point_flags (w + 8) v un false) (Num 8) = Ok (point_flags (w + 8) (v * 2 ^ 8) un false)) as E.
  { unfold lshift_unrev, _get_shift_range, py_range. change (seqZ 8 (8 + 1 - 8)) with [8]. cbn [foldM].
    rewrite !py_shl_nonneg by lia. cbn [mbind result_bind default point_flags bits uninitialized].
    cbn [default from_option id point_flags lower_bound upper_bound stride]. rewrite Z.shiftl_0_l, Z.shiftl_mul_pow2 by lia.
    rewrite new_point_flags by lia. cbn [mbind result_bind]. apply normalize_point; auto; lia. }
  change (bits (point_flags 8 x un' false)) with 8. rewrite E. cbn [mbind result_bind]. rewrite (copy_point 8 x un' false); [|lia|lia|by right].
  cbn [mbind result_bind]. unfold is_integer. cbn [point_flags lower_bound upper_bound]. rewrite Z.eqb_refl.
  cbn. unfold set_uninitialized, point_flags. cbn. by destruct un, un'.
Qed.

(** The bytes of [v], the lowest one first, as the digits of a number. *)
Definition push_byte (v acc k : Z) : Z := acc * 2 ^ 8 + byte v k.

Lemma push_byte_bound v w acc k :
  0 ≤ w → 0 ≤ acc < 2 ^ w → 0 ≤ push_byte v acc k < 2 ^ (w + 8).
Proof.
  intros Hw Ha. unfold push_byte, byte. pose proof (mod_pow2_bound (Z.shiftr v (8 * k)) 8).
  rewrite Z.pow_add_r by lia. nia.
Qed.

Lemma concat_fold v un l w acc :
  1 ≤ w → 0 ≤ acc < 2 ^ w →
  foldM (λ si b, concat_unrev si (Si b)) (point_flags w acc un false)
    ((λ k, point_flags 8 (byte v k) un false) <$> l) =
  Ok (point_flags (w + 8 * Z.of_nat (length l)) (foldl (push_byte v) acc l) un false).
Proof.
  revert w acc. induction l as [|k l IH]; intros w acc Hw Ha.
  - cbn [foldM fmap list_fmap foldl length]. f_equal. unfold point_flags. f_equal. lia.
  - cbn [fmap list_fmap foldM]. rewrite concat_points by (lia || done || (unfold byte; apply mod_pow2_bound; lia)).
    cbn [mbind result_bind]. rewrite orb_diag. rewrite IH; [|lia|apply push_byte_bound; lia].
    cbn [foldl length]. f_equal. unfold point_flags. f_equal. lia.
Qed.

Definition digits (v : Z) (n : nat) : Z := foldl (push_byte v) 0 (Z.of_nat <$> seq 0 n).

Lemma digits_S v n : digits v (S n) = push_byte v (digits v n) (Z.of_nat n).
Proof. unfold digits. by rewrite seq_S, fmap_app, foldl_app. Qed.

Lemma digits_bound v n : 0 ≤ digits v n < 2 ^ (8 * Z.of_nat n).
Proof.
  induction n as [|n IH]; [cbn; lia|]. rewrite digits_S.
  replace (8 * Z.of_nat (S n)) with (8 * Z.of_nat n + 8) by lia. apply push_byte_bound; lia.
Qed.

Lemma push_byte_testbit v acc k i :
  0 ≤ i → 0 ≤ k →
  Z.testbit (push_byte v acc k) i = if i <? 8 then Z.testbit v (8 * k + i) else Z.testbit acc (i - 8).
Proof.
  intros Hi Hk. unfold push_byte, byte. rewrite <-lor_shiftl_add by (try apply mod_pow2_bound; lia).
  rewrite Z.lor_spec, Z.shiftl_spec by done. destruct (Z.ltb_spec i 8).
  - rewrite (Z.testbit_neg_r acc), Z.mod_pow2_bits_low, Z.shiftr_spec by lia. cbn [orb]. f_equal. lia.
  - rewrite Z.mod_pow2_bits_high by lia. apply orb_false_r.
Qed.

Lemma digits_testbit v n k b :
  0 ≤ k < Z.of_nat n → 0 ≤ b < 8 →
  Z.testbit (digits v n) (8 * k + b) = Z.testbit v (8 * (Z.of_nat n - 1 - k) + b).
Proof.
  revert k. induction n as [|n IH]; intros k Hk Hb; [lia|].
  rewrite digits_S, push_byte_testbit by lia. destruct (Z.ltb_spec (8 * k + b) 8).
  - f_equal. lia.
  - replace (8 * k + b - 8) with (8 * (k - 1) + b) by lia. rewrite IH by lia. f_equal. lia.
Qed.

Lemma py_range_bytes n : 0 ≤ n → py_range_step 0 (8 * n) 8 = (λ k, 8 * k) <$> seqZ 0 n.
Proof.
  intros Hn. unfold py_range_step.
  replace ((8 * n - 0 + 8 - 1) / 8) with n; [done|].
  apply Z.div_unique with 7; lia.
Qed.

Lemma reverse_point n v un re :
  2 ≤ n → 0 ≤ v < 2 ^ (8 * n) →
  _reverse (point_flags (8 * n) v un re) = Ok (point_flags (8 * n) (digits v (Z.to_nat n)) un (negb re)).
Proof.
  intros Hn Hv. unfold _reverse. rewrite copy_point by (lia || (left; lia)). cbn [mbind result_bind].
  change (set_reversed (point_flags (8 * n) v un re) _) with (point_flags (8 * n) v un (negb re)).
  change (bits (point_flags (8 * n) v un (negb re))) with (8 * n).
  rewrite (proj2 (Z.eqb_neq (8 * n) 8)) by lia. cbn [is_top point_flags stride Z.eqb andb].
  change (is_top _) with false. cbv iota.
  replace ((8 * n + 7) / 8 * 8) with (8 * n); [|rewrite (Z.mul_comm 8 n), Z.div_add_l by lia; change (7 / 8) with 0; lia].
  rewrite py_range_bytes by lia.
  rewrite (mapM_fmap_ok _ _ (λ k, point_flags 8 (byte v k) un false)).
  2: { intros k Hk%elem_of_seqZ. cbn. apply (extract_byte (8 * n) v un (negb re) k n); lia. }
  cbn [mbind result_bind]. replace (seqZ 0 n) with (Z.of_nat <$> seq 0 (Z.to_nat n)).
  2: { unfold seqZ. apply list_fmap_ext. intros ? x _. lia. }
  destruct (Z.to_nat n) as [|m] eqn:Em; [lia|]. cbn [seq fmap list_fmap].
  rewrite concat_fold; [|lia|unfold byte; apply mod_pow2_bound; lia]. cbn [mbind result_bind].
  unfold set_reversed, set_uninitialized, point_flags. cbn.
  do 2 f_equal. rewrite length_fmap, length_seq. lia.
Qed.

(** The real byte reversal is exact on single integers of two or more
    bytes: splitting into bytes and concatenating them again gives the integer
    the concrete backend's [Reverse] gives, at the same width, with the flag
    [reversed] flipped and [uninitialized] kept; reversing twice is the
    identity. *)
Theorem reverse_integer_exact (n v : Z) (un re : bool) :
  2 ≤ n → 0 ≤ v < 2 ^ (8 * n) →
  ∃ v', BVV.Reverse (BVV.mkBVV v (8 * n)) = Ok (BVV.mkBVV v' (8 * n)) ∧
    _reverse (mkSI (8 * n) 0 v v un false re) = Ok (mkSI (8 * n) 0 v' v' un false (negb re)) ∧
    _reverse (mkSI (8 * n) 0 v' v' un false (negb re)) = Ok (mkSI (8 * n) 0 v v un false re).
Proof.
  intros Hn Hv. destruct (BVV.Reverse_total (BVV.mkBVV v (8 * n)) n) as ([v' w'] & E & Hwf & Hw); [split; cbn; lia|done|lia|].
  cbn in Hw. subst w'. pose proof (BVV.wf_value _ Hwf) as Hv'. cbn in Hv'.
  assert (∀ x, 0 ≤ x < 2 ^ (8 * n) → 0 ≤ digits x (Z.to_nat n) < 2 ^ (8 * n)) as Hd.
  { intros x Hx. pose proof (digits_bound x (Z.to_nat n)). rewrite Z2Nat.id in * by lia. done. }
  assert (∀ i, 0 ≤ i < 8 * n → ∃ k b, i = 8 * k + b ∧ 0 ≤ k < n ∧ 0 ≤ b < 8) as Hi.
  { intros i Hi. exists (i / 8), (i mod 8). pose proof (Z.div_mod i 8). pose proof (Z.mod_pos_bound i 8).
    split; [lia|]. split; [|lia]. split; [apply Z.div_pos; lia|apply Z.div_lt_upper_bound; lia]. }
  assert (digits v (Z.to_nat n) = v') as D1.
  { apply (bits_inj_below _ _ (8 * n)); [by apply Hd|done|lia|]. intros i (k & b & -> & Hk & Hb)%Hi.
    rewrite digits_testbit by lia. rewrite Z2Nat.id by lia.
    symmetry. apply (BVV.Reverse_testbit (BVV.mkBVV v (8 * n)) n (BVV.mkBVV v' (8 * n)) k b); try done; [split; cbn; lia|lia]. }
  assert (digits v' (Z.to_nat n) = v) as D2.
  { apply (bits_inj_below _ _ (8 * n)); [by apply Hd|done|lia|]. intros i (k & b & -> & Hk & Hb)%Hi.
    rewrite <-D1, !digits_testbit by lia. rewrite Z2Nat.id by lia. f_equal. lia. }
  exists v'. split; [done|]. rewrite <-D1 at 1. pose proof (reverse_point n v un re Hn Hv) as R1.
  pose proof (reverse_point n v' un (negb re) Hn Hv') as R2. rewrite D1 in *. rewrite D2, negb_involutive in R2.
  split; [exact R1|exact R2].
Qed.

(** ** Witnesses *)

Lemma bitwise_sound_witness :
  approximates (bitwise_or_unrev sample_low (Si sample_wrap))
    (BVV.__or__ (BVV.mkBVV 3 4) (BVV.Bv (BVV.mkBVV 12 4))).
Proof.
  apply (bitwise_sound sample_low sample_wrap (BVV.mkBVV 3 4) (BVV.mkBVV 12 4));
    [si_concrete|si_concrete|reflexivity|left; unfold straight; cbn; lia].
Defined.

Lemma reverse_integer_exact_witness :
  ∃ v', BVV.Reverse (BVV.mkBVV 0x1234 (8 * 2)) = Ok (BVV.mkBVV v' (8 * 2)) ∧
    _reverse (mkSI (8 * 2) 0 0x1234 0x1234 false false true) = Ok (mkSI (8 * 2) 0 v' v' false false (negb true)) ∧
    _reverse (mkSI (8 * 2) 0 v' v' false false (negb true)) = Ok (mkSI (8 * 2) 0 0x1234 0x1234 false false true).
Proof. apply (reverse_integer_exact 2 0x1234 false true); lia. Defined.

End SiBits.
