(* ===== verification/Pcode.v ===== *)
(** * P-code operation behaviours: [angr/engines/pcode/behavior.py]

    One behaviour object per p-code opcode; [evaluate_unary] and
    [evaluate_binary] compute its result with claripy's bitvector operators.

    The operators are an interface, [BvOps]: the behaviours are written against
    it, as the source is written against claripy's overloaded operators.  The
    instance [concrete_ops] is claripy's concrete backend ([Bvv]), on which
    concrete vectors are evaluated; the theorems are about that instance. *)

From Stdlib Require Import ZArith Lia Bool ZifyBool.
From stdpp Require Import base tactics list numbers.
From S2P Require Import Prelude Bvv.

Module Pcode.

(** ** The claripy operators the behaviours use

    [C] is the type of conditions.  An integer operand of an operator is
    coerced to a vector of the width of the other one ([BV._from_int]). *)

Class BvOps (B C : Type) := {
  size : B → Z;
  BVV : Z → Z → result B;
  op_eq : B → B → result C;
  op_ne : B → B → result C;
  op_SLT : B → B → result C;
  op_SLE : B → B → result C;
  op_ULT : B → B → result C;
  op_ULE : B → B → result C;
  op_If : C → B → B → result B;
  op_add : B → B → result B;
  op_sub : B → B → result B;
  op_mul : B → B → result B;
  op_div : B → B → result B;
  op_SDiv : B → B → result B;
  op_mod : B → B → result B;
  op_SMod : B → B → result B;
  op_neg : B → result B;
  op_invert : B → result B;
  op_and : B → B → result B;
  op_or : B → B → result B;
  op_xor : B → B → result B;
  op_lshift : B → B → result B;
  op_rshift : B → B → result B;
  op_LShR : B → B → result B;
  op_Extract : Z → Z → B → result B;
  zero_extend : B → Z → result B;
  sign_extend : B → Z → result B }.

(** The opcodes [BehaviorFactory] registers. *)
Inductive OpCode :=
  | COPY | LOAD | STORE | BRANCH | CBRANCH | BRANCHIND | CALL | CALLIND | CALLOTHER | RETURN
  | MULTIEQUAL | INDIRECT | PIECE | SUBPIECE
  | INT_EQUAL | INT_NOTEQUAL | INT_SLESS | INT_SLESSEQUAL | INT_LESS | INT_LESSEQUAL
  | INT_ZEXT | INT_SEXT | INT_ADD | INT_SUB | INT_CARRY | INT_SCARRY | INT_SBORROW
  | INT_2COMP | INT_NEGATE | INT_XOR | INT_AND | INT_OR | INT_LEFT | INT_RIGHT | INT_SRIGHT
  | INT_MULT | INT_DIV | INT_SDIV | INT_REM | INT_SREM
  | BOOL_NEGATE | BOOL_XOR | BOOL_AND | BOOL_OR
  | CAST | PTRADD | PTRSUB
  | FLOAT_EQUAL | FLOAT_NOTEQUAL | FLOAT_LESS | FLOAT_LESSEQUAL | FLOAT_NAN | FLOAT_ADD
  | FLOAT_DIV | FLOAT_MULT | FLOAT_SUB | FLOAT_NEG | FLOAT_ABS | FLOAT_SQRT | FLOAT_INT2FLOAT
  | FLOAT_FLOAT2FLOAT | FLOAT_TRUNC | FLOAT_CEIL | FLOAT_FLOOR | FLOAT_ROUND
  | SEGMENTOP | CPOOLREF | NEW | INSERT | ZPULL | SPULL | POPCOUNT | LZCOUNT.

#[export] Instance OpCode_eq_dec : EqDecision OpCode.
Proof. solve_decision. Defined.

Section Behaviors.
Context `{ops : BvOps B C}.

Definition make_bv_sizes_equal (bv1 bv2 : B) (zero_ext : bool) : result (B * B) :=
  if size bv1 <? size bv2 then
    e ← (if zero_ext then zero_extend bv1 (size bv2 - size bv1)
         else sign_extend bv1 (size bv2 - size bv1));
    Ok (e, bv2)
  else if size bv2 <? size bv1 then
    e ← (if zero_ext then zero_extend bv2 (size bv1 - size bv2)
         else sign_extend bv2 (size bv1 - size bv2));
    Ok (bv1, e)
  else Ok (bv1, bv2).

(** [OpBehavior] itself: both methods raise. *)
Definition unimplemented : result B := Err AngrError.

Definition generic_compare (a b : B) (comparison : B → B → result C) : result B :=
  c ← comparison a b;
  t ← BVV 1 1;
  f ← BVV 0 1;
  op_If c t f.

Definition booleanize (in1 : B) : result B :=
  z ← BVV 0 (size in1); generic_compare in1 z op_ne.

Definition OpBehaviorCopy (size_out size_in : Z) (in1 : B) : result B := Ok in1.
Definition OpBehaviorEqual (size_out size_in : Z) (in1 in2 : B) : result B := generic_compare in1 in2 op_eq.
Definition OpBehaviorNotEqual (size_out size_in : Z) (in1 in2 : B) : result B := generic_compare in1 in2 op_ne.
Definition OpBehaviorIntSless (size_out size_in : Z) (in1 in2 : B) : result B := generic_compare in1 in2 op_SLT.
Definition OpBehaviorIntSlessEqual (size_out size_in : Z) (in1 in2 : B) : result B := generic_compare in1 in2 op_SLE.
Definition OpBehaviorIntLess (size_out size_in : Z) (in1 in2 : B) : result B := generic_compare in1 in2 op_ULT.
Definition OpBehaviorIntLessEqual (size_out size_in : Z) (in1 in2 : B) : result B := generic_compare in1 in2 op_ULE.

Definition OpBehaviorIntZext (size_out size_in : Z) (in1 : B) : result B :=
  zero_extend in1 ((size_out - size_in) * 8).
Definition OpBehaviorIntSext (size_out size_in : Z) (in1 : B) : result B :=
  sign_extend in1 ((size_out - size_in) * 8).

Definition OpBehaviorIntAdd (size_out size_in : Z) (in1 in2 : B) : result B := op_add in1 in2.
Definition OpBehaviorIntSub (size_out size_in : Z) (in1 in2 : B) : result B := op_sub in1 in2.

Definition OpBehaviorIntCarry (size_out size_in : Z) (in1 in2 : B) : result B :=
  res ← op_add in1 in2;
  c ← op_ULT res in1;
  t ← BVV 1 1;
  f ← BVV 0 1;
  op_If c t f.

(** [(x >> (size_in * 8 - 1)) & 1]. *)
Definition sign_bit (size_in : Z) (x : B) : result B :=
  n ← BVV (size_in * 8 - 1) (size x);
  s ← op_rshift x n;
  one ← BVV 1 (size s);
  op_and s one.

Definition OpBehaviorIntScarry (size_out size_in : Z) (in1 in2 : B) : result B :=
  res ← op_add in1 in2;
  a ← sign_bit size_in in1;
  b ← sign_bit size_in in2;
  r ← sign_bit size_in res;
  r ← op_xor r a;
  a ← op_xor a b;
  one ← BVV 1 (size a);
  a ← op_xor a one;
  op_and r a.

Definition OpBehaviorIntSborrow (size_out size_in : Z) (in1 in2 : B) : result B :=
  res ← op_sub in1 in2;
  a ← sign_bit size_in in1;
  b ← sign_bit size_in in2;
  r ← sign_bit size_in res;
  a ← op_xor a r;
  r ← op_xor r b;
  one ← BVV 1 (size r);
  r ← op_xor r one;
  op_and a r.

Definition OpBehaviorInt2Comp (size_out size_in : Z) (in1 : B) : result B := op_neg in1.
Definition OpBehaviorIntNegate (size_out size_in : Z) (in1 : B) : result B := op_invert in1.
Definition OpBehaviorIntXor (size_out size_in : Z) (in1 in2 : B) : result B := op_xor in1 in2.
Definition OpBehaviorIntAnd (size_out size_in : Z) (in1 in2 : B) : result B := op_and in1 in2.
Definition OpBehaviorIntOr (size_out size_in : Z) (in1 in2 : B) : result B := op_or in1 in2.

Definition OpBehaviorIntLeft (size_out size_in : Z) (in1 in2 : B) : result B :=
  '(in1, in2) ← make_bv_sizes_equal in1 in2 false; op_lshift in1 in2.
Definition OpBehaviorIntRight (size_out size_in : Z) (in1 in2 : B) : result B :=
  '(in1, in2) ← make_bv_sizes_equal in1 in2 true; op_LShR in1 in2.
Definition OpBehaviorIntSright (size_out size_in : Z) (in1 in2 : B) : result B :=
  '(in1, in2) ← make_bv_sizes_equal in1 in2 false; op_rshift in1 in2.

Definition OpBehaviorIntMult (size_out size_in : Z) (in1 in2 : B) : result B :=
  a ← zero_extend in1 (size_out - size_in);
  b ← zero_extend in2 (size_out - size_in);
  op_mul a b.

Definition OpBehaviorIntDiv (size_out size_in : Z) (in1 in2 : B) : result B := op_div in1 in2.
Definition OpBehaviorIntSdiv (size_out size_in : Z) (in1 in2 : B) : result B := op_SDiv in1 in2.
Definition OpBehaviorIntRem (size_out size_in : Z) (in1 in2 : B) : result B := op_mod in1 in2.
Definition OpBehaviorIntSrem (size_out size_in : Z) (in1 in2 : B) : result B := op_SMod in1 in2.

Definition OpBehaviorBoolNegate (size_out size_in : Z) (in1 : B) : result B :=
  z ← BVV 0 (size in1); generic_compare in1 z op_eq.
Definition OpBehaviorBoolXor (size_out size_in : Z) (in1 in2 : B) : result B :=
  a ← booleanize in1; b ← booleanize in2; op_xor a b.
Definition OpBehaviorBoolAnd (size_out size_in : Z) (in1 in2 : B) : result B :=
  a ← booleanize in1; b ← booleanize in2; op_and a b.
Definition OpBehaviorBoolOr (size_out size_in : Z) (in1 in2 : B) : result B :=
  a ← booleanize in1; b ← booleanize in2; op_or a b.

Definition OpBehaviorSubpiece (size_out size_in : Z) (in1 in2 : B) : result B :=
  in2 ← (if size in2 <? size in1 then sign_extend in2 (size in1 - size in2) else Ok in2);
  in1 ← (if size in1 <? size in2 then sign_extend in1 (size in2 - size in1) else Ok in1);
  eight ← BVV 8 (size in2);
  amount ← op_mul in2 eight;
  shifted ← op_rshift in1 amount;
  mask ← BVV (2 ^ (size_out * 8) - 1) (size shifted);
  op_and shifted mask.

(** The loops run over [range(len(in1))]. *)
Definition OpBehaviorPopcount (size_out size_in : Z) (in1 : B) : result B :=
  expr ← BVV 0 (size_out * 8);
  foldM (λ expr a,
    bit ← op_Extract a a in1;
    ext ← zero_extend bit (size_out * 8 - 1);
    op_add expr ext) expr (py_range 0 (size in1)).

Definition OpBehaviorLzcount (size_out size_in : Z) (in1 : B) : result B :=
  expr ← BVV (size in1) (size_out * 8);
  foldM (λ expr pos,
    bit ← op_Extract pos pos in1;
    one ← BVV 1 1;
    c ← op_eq bit one;
    n ← BVV (size in1 - pos - 1) (size_out * 8);
    op_If c n expr) expr (py_range 0 (size in1)).

(** ** The factory

    A behaviour: its class and the flags its constructor passes on.  A class
    that overrides neither method inherits the two that raise. *)

Inductive method :=
  | Unary (f : Z → Z → B → result B)
  | Binary (f : Z → Z → B → B → result B)
  | Inherited.

Record OpBehavior := mkOpBehavior {
  opcode : OpCode;
  is_unary : bool;
  is_special : bool;
  evaluate : method }.

Definition evaluate_unary (b : OpBehavior) (size_out size_in : Z) (in1 : B) : result B :=
  match evaluate b with Unary f => f size_out size_in in1 | _ => unimplemented end.

Definition evaluate_binary (b : OpBehavior) (size_out size_in : Z) (in1 in2 : B) : result B :=
  match evaluate b with Binary f => f size_out size_in in1 in2 | _ => unimplemented end.

Definition unary (o : OpCode) (f : Z → Z → B → result B) : OpBehavior := mkOpBehavior o true false (Unary f).
Definition binary (o : OpCode) (f : Z → Z → B → B → result B) : OpBehavior := mkOpBehavior o false false (Binary f).
Definition special (o : OpCode) : OpBehavior := mkOpBehavior o false true Inherited.
Definition float_unary (o : OpCode) : OpBehavior := mkOpBehavior o true false Inherited.
Definition float_binary (o : OpCode) : OpBehavior := mkOpBehavior o false false Inherited.

Definition get_behavior_for_opcode (o : OpCode) : OpBehavior :=
  match o with
  | COPY => unary o OpBehaviorCopy
  | LOAD | STORE | BRANCH | CBRANCH | BRANCHIND | CALL | CALLIND | CALLOTHER | RETURN
  | MULTIEQUAL | INDIRECT => special o
  | PIECE => mkOpBehavior o false false Inherited
  | SUBPIECE => binary o OpBehaviorSubpiece
  | INT_EQUAL => binary o OpBehaviorEqual
  | INT_NOTEQUAL => binary o OpBehaviorNotEqual
  | INT_SLESS => binary o OpBehaviorIntSless
  | INT_SLESSEQUAL => binary o OpBehaviorIntSlessEqual
  | INT_LESS => binary o OpBehaviorIntLess
  | INT_LESSEQUAL => binary o OpBehaviorIntLessEqual
  | INT_ZEXT => unary o OpBehaviorIntZext
  | INT_SEXT => unary o OpBehaviorIntSext
  | INT_ADD => binary o OpBehaviorIntAdd
  | INT_SUB => binary o OpBehaviorIntSub
  | INT_CARRY => binary o OpBehaviorIntCarry
  | INT_SCARRY => binary o OpBehaviorIntScarry
  | INT_SBORROW => binary o OpBehaviorIntSborrow
  | INT_2COMP => unary o OpBehaviorInt2Comp
  | INT_NEGATE => unary o OpBehaviorIntNegate
  | INT_XOR => binary o OpBehaviorIntXor
  | INT_AND => binary o OpBehaviorIntAnd
  | INT_OR => binary o OpBehaviorIntOr
  | INT_LEFT => binary o OpBehaviorIntLeft
  | INT_RIGHT => binary o OpBehaviorIntRight
  | INT_SRIGHT => binary o OpBehaviorIntSright
  | INT_MULT => binary o OpBehaviorIntMult
  | INT_DIV => binary o OpBehaviorIntDiv
  | INT_SDIV => binary o OpBehaviorIntSdiv
  | INT_REM => binary o OpBehaviorIntRem
  | INT_SREM => binary o OpBehaviorIntSrem
  | BOOL_NEGATE => unary o OpBehaviorBoolNegate
  | BOOL_XOR => binary o OpBehaviorBoolXor
  | BOOL_AND => binary o OpBehaviorBoolAnd
  | BOOL_OR => binary o OpBehaviorBoolOr
  | CAST | PTRADD | PTRSUB => special o
  | FLOAT_EQUAL | FLOAT_NOTEQUAL | FLOAT_LESS | FLOAT_LESSEQUAL => float_binary o
  | FLOAT_NAN => float_unary o
  | FLOAT_ADD | FLOAT_DIV | FLOAT_MULT | FLOAT_SUB => float_binary o
  | FLOAT_NEG | FLOAT_ABS | FLOAT_SQRT | FLOAT_INT2FLOAT | FLOAT_FLOAT2FLOAT
  | FLOAT_TRUNC | FLOAT_CEIL | FLOAT_FLOOR | FLOAT_ROUND => float_unary o
  | SEGMENTOP | CPOOLREF | NEW | INSERT | ZPULL | SPULL => special o
  | POPCOUNT => unary o OpBehaviorPopcount
  | LZCOUNT => unary o OpBehaviorLzcount
  end.
End Behaviors.

Definition float_opcodes : list OpCode :=
  [FLOAT_EQUAL; FLOAT_NOTEQUAL; FLOAT_LESS; FLOAT_LESSEQUAL; FLOAT_NAN; FLOAT_ADD; FLOAT_DIV; FLOAT_MULT; FLOAT_SUB;
   FLOAT_NEG; FLOAT_ABS; FLOAT_SQRT; FLOAT_INT2FLOAT; FLOAT_FLOAT2FLOAT; FLOAT_TRUNC; FLOAT_CEIL; FLOAT_FLOOR; FLOAT_ROUND].

(** ** The concrete backend as an instance *)

#[export] Instance concrete_ops : BvOps BVV.BVV bool := {
  size := BVV.bits;
  BVV := Bvv.BVV.new;
  op_eq := λ a b, BVV.__eq__ a (BVV.Bv b);
  op_ne := λ a b, BVV.__ne__ a (BVV.Bv b);
  op_SLT := λ a b, BVV.SLT (BVV.Bv a) (BVV.Bv b);
  op_SLE := λ a b, BVV.SLE (BVV.Bv a) (BVV.Bv b);
  op_ULT := λ a b, BVV.ULT (BVV.Bv a) (BVV.Bv b);
  op_ULE := λ a b, BVV.ULE (BVV.Bv a) (BVV.Bv b);
  op_If := λ c a b, BVV.If c (BVV.Bv a) (BVV.Bv b);
  op_add := λ a b, BVV.__add__ a (BVV.Bv b);
  op_sub := λ a b, BVV.__sub__ a (BVV.Bv b);
  op_mul := λ a b, BVV.__mul__ a (BVV.Bv b);
  op_div := λ a b, BVV.__truediv__ a (BVV.Bv b);
  op_SDiv := λ a b, BVV.SDiv (BVV.Bv a) (BVV.Bv b);
  op_mod := λ a b, BVV.__mod__ a (BVV.Bv b);
  op_SMod := λ a b, BVV.SMod (BVV.Bv a) (BVV.Bv b);
  op_neg := BVV.__neg__;
  op_invert := BVV.__invert__;
  op_and := λ a b, BVV.__and__ a (BVV.Bv b);
  op_or := λ a b, BVV.__or__ a (BVV.Bv b);
  op_xor := λ a b, BVV.__xor__ a (BVV.Bv b);
  op_lshift := λ a b, BVV.__lshift__ a (BVV.Bv b);
  op_rshift := λ a b, BVV.__rshift__ a (BVV.Bv b);
  op_LShR := λ a b, BVV.LShR (BVV.Bv a) (BVV.Bv b);
  op_Extract := BVV.Extract;
  zero_extend := λ b n, BVV.ZeroExt n b;
  sign_extend := λ b n, BVV.SignExt n b }.

(** ** The operators on vectors of one width *)

Abbreviation vec v w := (BVV.mkBVV v w).

(** A concrete vector of a positive width. *)
Definition vwf (w v : Z) : Prop := 1 ≤ w ∧ 0 ≤ v < 2 ^ w.

Lemma vwf_wf w v : vwf w v → BVV.wf (vec v w).
Proof. intros []. split; cbn; lia. Qed.

Lemma below_pow2 k w : 0 ≤ k ≤ w → k < 2 ^ w.
Proof. intros. pose proof (BVV.lt_pow2 w). lia. Qed.

Lemma new_small v w : vwf w v → Bvv.BVV.new v w = Ok (vec v w).
Proof. intros [Hw Hv]. rewrite BVV.new_spec by lia. by rewrite Z.mod_small. Qed.

Lemma compare_bits_0_length_eq {A} (f : BVV.BVV → BVV.BVV → result A) a b :
  BVV.bits a = BVV.bits b → BVV.compare_bits_0_length f a b = f a b.
Proof. intros E. unfold BVV.compare_bits_0_length. by rewrite E, Z.eqb_refl. Qed.

(** [concrete] evaluates an operator on two vectors of one width. *)
Ltac concrete :=
  cbn [op_add op_sub op_mul op_div op_SDiv op_mod op_SMod op_neg op_invert op_xor op_and op_or op_rshift op_LShR
    op_lshift op_SLT op_SLE op_ULT op_ULE op_eq op_ne op_If op_Extract zero_extend sign_extend size BVV concrete_ops];
  unfold BVV.__add__, BVV.__sub__, BVV.__mul__, BVV.__truediv__, BVV.__floordiv__, BVV.__mod__, BVV.SDiv, BVV.SMod,
    BVV.__neg__, BVV.__invert__, BVV.__xor__, BVV.__and__, BVV.__or__, BVV.__rshift__, BVV.__lshift__, BVV.LShR,
    BVV.SLT, BVV.SLE, BVV.ULT, BVV.ULE, BVV.__eq__, BVV.__ne__, BVV.If, BVV.normalizer, BVV.ZeroExt, BVV.SignExt;
  cbn [BVV.normalize_types mbind result_bind];
  rewrite ?BVV.compare_bits_eq, ?compare_bits_0_length_eq by (done || (cbn; lia));
  cbn [BVV.bits BVV.value mbind result_bind].

Lemma add_vec w x y : vwf w x → vwf w y → op_add (vec x w) (vec y w) = Ok (vec ((x + y) mod 2 ^ w) w).
Proof. intros [? ?] [? ?]. concrete. by rewrite BVV.new_spec by lia. Qed.

Lemma sub_vec w x y : vwf w x → vwf w y → op_sub (vec x w) (vec y w) = Ok (vec ((x - y) mod 2 ^ w) w).
Proof. intros [? ?] [? ?]. concrete. by rewrite BVV.new_spec by lia. Qed.

Lemma one_bit w (b : bool) : 1 ≤ w → 0 ≤ Z.b2z b < 2 ^ w.
Proof. intros. pose proof (below_pow2 1 w). destruct b; cbn; lia. Qed.

Lemma xor_bit w a b : 1 ≤ w → op_xor (vec (Z.b2z a) w) (vec (Z.b2z b) w) = Ok (vec (Z.b2z (xorb a b)) w).
Proof.
  intros Hw. concrete. rewrite BVV.new_spec by lia.
  assert (Z.lxor (Z.b2z a) (Z.b2z b) = Z.b2z (xorb a b)) as -> by (by destruct a, b).
  by rewrite Z.mod_small by (by apply one_bit).
Qed.

Lemma and_bit w a b : 1 ≤ w → op_and (vec (Z.b2z a) w) (vec (Z.b2z b) w) = Ok (vec (Z.b2z (a && b)) w).
Proof.
  intros Hw. concrete. rewrite BVV.new_spec by lia.
  assert (Z.land (Z.b2z a) (Z.b2z b) = Z.b2z (a && b)) as -> by (by destruct a, b).
  by rewrite Z.mod_small by (by apply one_bit).
Qed.

Lemma or_bit w a b : 1 ≤ w → op_or (vec (Z.b2z a) w) (vec (Z.b2z b) w) = Ok (vec (Z.b2z (a || b)) w).
Proof.
  intros Hw. concrete. rewrite BVV.new_spec by lia.
  assert (Z.lor (Z.b2z a) (Z.b2z b) = Z.b2z (a || b)) as -> by (by destruct a, b).
  by rewrite Z.mod_small by (by apply one_bit).
Qed.

(** The most significant bit of a vector of [8 * n] bits. *)
Definition msb (w v : Z) : bool := 2 ^ (w - 1) <=? v.

Lemma sign_bit_vec n w x :
  w = 8 * n → vwf w x → sign_bit n (vec x w) = Ok (vec (Z.b2z (msb w x)) w).
Proof.
  intros Hn [Hw Hx]. unfold sign_bit. replace (n * 8 - 1) with (w - 1) by lia.
  pose proof (below_pow2 (w - 1) w ltac:(lia)). pose proof (pow2_double w Hw). pose proof (pow2_pos (w - 1) ltac:(lia)).
  cbn [size BVV concrete_ops BVV.bits]. rewrite new_small by (split; lia). cbn [mbind result_bind].
  assert (op_rshift (vec x w) (vec (w - 1) w) = Ok (vec (if msb w x then 2 ^ w - 1 else 0) w)) as ->.
  { concrete. rewrite BVV.signed_spec by (try (by apply vwf_wf); cbn; lia). cbn [mbind result_bind BVV.value BVV.bits].
    rewrite py_shr_nonneg by lia. cbn [mbind result_bind]. rewrite BVV.new_spec by lia. do 2 f_equal.
    unfold BVV.to_signed, msb. rewrite Z.shiftr_div_pow2 by lia. zcases; try lia.
    - rewrite Z.div_small by lia. apply Z.mod_0_l. lia.
    - replace ((x - 2 ^ w) / 2 ^ (w - 1)) with (-1) by (apply Z.div_unique with (x - 2 ^ (w - 1)); lia).
      symmetry. apply Z.mod_unique with (-1); lia. }
  cbn [mbind result_bind BVV.bits]. rewrite new_small by (split; [lia|apply (one_bit w true); lia]). cbn [mbind result_bind].
  concrete. rewrite BVV.new_spec by lia. do 2 f_equal.
  rewrite (land_mask _ 1 ltac:(lia) : Z.land _ 1 = _ mod 2). pose proof (one_bit w (msb w x) Hw).
  destruct (msb w x); cbn [Z.b2z] in *.
  - replace ((2 ^ w - 1) mod 2) with 1; [apply Z.mod_small; lia|].
    apply Z.mod_unique with (2 ^ (w - 1) - 1); lia.
  - apply Z.mod_small. lia.
Qed.

(** A comparison that returns is turned into one bit. *)
Lemma bit_of_condition (m : result bool) c :
  m = Ok c →
  (c ← m; t ← BVV 1 1; f ← BVV 0 1; op_If (BvOps:=concrete_ops) c t f) = Ok (vec (Z.b2z c) 1).
Proof. intros ->. by destruct c. Qed.

Lemma generic_compare_spec a b comparison c :
  comparison a b = Ok c → generic_compare a b comparison = Ok (vec (Z.b2z c) 1).
Proof. apply bit_of_condition. Qed.

Lemma ULT_vec w x y : 1 ≤ w → op_ULT (vec x w) (vec y w) = Ok (x <? y).
Proof. intros. by concrete. Qed.

(** ** What p-code prescribes *)

(** The integers a [w]-bit vector reads as in two's complement. *)
Definition signed_fits (w z : Z) : bool := (- 2 ^ (w - 1) <=? z) && (z <? 2 ^ (w - 1)).

(** [p_code_spec o w x y] is the value of [o] on two [w]-bit operands and the
    width the behaviour gives it: one bit for a condition, except that the two
    signed overflow flags come in a vector of the width of the operands, which
    the emulator cuts to the output.  It is [None] where the quotient is
    undefined, and for the opcodes that are no integer or boolean operations of
    two operands of one size. *)
Definition p_code_spec (o : OpCode) (w x y : Z) : option (Z * Z) :=
  let sx := BVV.to_signed w x in
  let sy := BVV.to_signed w y in
  let word v := Some (v mod 2 ^ w, w) in
  let bit (b : bool) := Some (Z.b2z b, 1) in
  match o with
  | INT_ADD => word (x + y)
  | INT_SUB => word (x - y)
  | INT_MULT => word (x * y)
  | INT_DIV => if y =? 0 then None else word (x / y)
  | INT_REM => if y =? 0 then None else word (x mod y)
  | INT_SDIV => if y =? 0 then None else word (Z.quot sx sy)
  | INT_SREM => if y =? 0 then None else word (Z.rem sx sy)
  | INT_XOR => word (Z.lxor x y)
  | INT_AND => word (Z.land x y)
  | INT_OR => word (Z.lor x y)
  | INT_LEFT => word (x * 2 ^ y)
  | INT_RIGHT => word (x / 2 ^ y)
  | INT_SRIGHT => word (sx / 2 ^ y)
  | INT_EQUAL => bit (x =? y)
  | INT_NOTEQUAL => bit (negb (x =? y))
  | INT_LESS => bit (x <? y)
  | INT_LESSEQUAL => bit (x <=? y)
  | INT_SLESS => bit (sx <? sy)
  | INT_SLESSEQUAL => bit (sx <=? sy)
  | INT_CARRY => bit (negb (x + y <? 2 ^ w))
  | INT_SCARRY => Some (Z.b2z (negb (signed_fits w (sx + sy))), w)
  | INT_SBORROW => Some (Z.b2z (negb (signed_fits w (sx - sy))), w)
  | BOOL_XOR => bit (xorb (negb (x =? 0)) (negb (y =? 0)))
  | BOOL_AND => bit (negb (x =? 0) && negb (y =? 0))
  | BOOL_OR => bit (negb (x =? 0) || negb (y =? 0))
  | _ => None
  end.

Lemma booleanize_spec w x : vwf w x → booleanize (vec x w) = Ok (vec (Z.b2z (negb (x =? 0))) 1).
Proof.
  intros [Hw Hx]. unfold booleanize. cbn [size BVV concrete_ops BVV.bits].
  rewrite new_small by (split; [done|pose proof (pow2_pos w); lia]). cbn [mbind result_bind].
  apply generic_compare_spec. by concrete.
Qed.

(** The signed reading of a coerced operand is zero exactly when it is. *)
Lemma to_signed_zero w y : vwf w y → (BVV.to_signed w y =? 0) = (y =? 0).
Proof.
  intros [Hw Hy]. unfold BVV.to_signed. pose proof (pow2_pos (w - 1) ltac:(lia)). pose proof (pow2_double w Hw).
  zcases; lia || done.
Qed.

Lemma signed_vec w x : vwf w x → BVV.signed (vec x w) = Ok (BVV.to_signed w x).
Proof. intros H. rewrite BVV.signed_spec; [done|by apply vwf_wf|apply H]. Qed.

(** The three flags.  On two [n]-byte vectors INT_CARRY is one exactly when
    the unsigned sum does not fit, INT_SCARRY when the signed sum does not, and
    INT_SBORROW when the signed difference does not.  (INT_CARRY answers one
    bit; the other two answer a vector of the width of the operands.) *)
Theorem carry_flags_exact (n x y : Z) :
  1 ≤ n → 0 ≤ x < 2 ^ (8 * n) → 0 ≤ y < 2 ^ (8 * n) →
  let w := 8 * n in
  OpBehaviorIntCarry n n (vec x w) (vec y w) = Ok (vec (Z.b2z (negb (x + y <? 2 ^ w))) 1) ∧
  OpBehaviorIntScarry n n (vec x w) (vec y w) =
    Ok (vec (Z.b2z (negb (signed_fits w (BVV.to_signed w x + BVV.to_signed w y)))) w) ∧
  OpBehaviorIntSborrow n n (vec x w) (vec y w) =
    Ok (vec (Z.b2z (negb (signed_fits w (BVV.to_signed w x - BVV.to_signed w y)))) w).
Proof.
  intros Hn Hx Hy w. assert (vwf w x) as Wx by (split; unfold w in *; lia).
  assert (vwf w y) as Wy by (split; unfold w in *; lia). assert (1 ≤ w) as Hw by (unfold w; lia).
  fold w in Hx, Hy. assert (w = 8 * n) as E8 by done. clearbody w. pose proof (pow2_double w Hw). pose proof (pow2_pos (w - 1) ltac:(lia)).
  assert (∀ z, vwf w (z mod 2 ^ w)) as Wmod by (intros; split; [done|apply mod_pow2_bound; lia]).
  assert (Bvv.BVV.new 1 w = Ok (vec (Z.b2z true) w)) as E1 by (apply new_small; split; [done|by apply (one_bit w true)]).
  assert ((x + y) mod 2 ^ w = if x + y <? 2 ^ w then x + y else x + y - 2 ^ w) as Es.
  { zcases; [apply Z.mod_small; lia|]. symmetry. apply Z.mod_unique with 1; lia. }
  assert ((x - y) mod 2 ^ w = if y <=? x then x - y else x - y + 2 ^ w) as Ed.
  { clear Es. zcases; [apply Z.mod_small; lia|]. symmetry. apply Z.mod_unique with (-1); lia. }
  split; [|split].
  - unfold OpBehaviorIntCarry. rewrite add_vec by done. cbn [mbind result_bind].
    rewrite (bit_of_condition _ _ (ULT_vec _ _ _ Hw)). do 3 f_equal. rewrite Es. zcases; lia.
  - unfold OpBehaviorIntScarry. rewrite add_vec by done. cbn [mbind result_bind].
    rewrite !sign_bit_vec by (done || apply Wmod). cbn [mbind result_bind].
    rewrite !xor_bit by done. cbn [mbind result_bind size BVV concrete_ops BVV.bits]. rewrite E1. cbn [mbind result_bind].
    rewrite xor_bit by done. cbn [mbind result_bind]. rewrite and_bit by done. do 3 f_equal.
    rewrite Es. unfold signed_fits, BVV.to_signed, msb. zcases; lia || done.
  - unfold OpBehaviorIntSborrow. rewrite sub_vec by done. cbn [mbind result_bind].
    rewrite !sign_bit_vec by (done || apply Wmod). cbn [mbind result_bind].
    rewrite !xor_bit by done. cbn [mbind result_bind size BVV concrete_ops BVV.bits].
    rewrite E1. cbn [mbind result_bind]. rewrite xor_bit by done. cbn [mbind result_bind]. rewrite and_bit by done. do 3 f_equal.
    rewrite Ed. unfold signed_fits, BVV.to_signed, msb. zcases; lia || done.
Qed.

Lemma carry_flags_exact_witness :
  OpBehaviorIntCarry 1 1 (vec 200 8) (vec 100 8) = Ok (vec 1 1).
Proof.
  apply (carry_flags_exact 1 200 100); lia.
Defined.

Lemma sizes_equal w x y ext : make_bv_sizes_equal (vec x w) (vec y w) ext = Ok (vec x w, vec y w).
Proof. unfold make_bv_sizes_equal. cbn [size concrete_ops BVV.bits]. by rewrite Z.ltb_irrefl. Qed.

Lemma shift_vec w x y :
  vwf w x → 0 ≤ y →
  op_lshift (vec x w) (vec y w) = Ok (vec ((x * 2 ^ y) mod 2 ^ w) w) ∧
  op_LShR (vec x w) (vec y w) = Ok (vec ((x / 2 ^ y) mod 2 ^ w) w) ∧
  op_rshift (vec x w) (vec y w) = Ok (vec ((BVV.to_signed w x / 2 ^ y) mod 2 ^ w) w).
Proof.
  intros Wx Hy. pose proof Wx as [? ?]. split; [|split]; concrete.
  - by rewrite py_shl_nonneg, bind_Ok, BVV.new_spec, Z.shiftl_mul_pow2 by lia.
  - by rewrite py_shr_nonneg, bind_Ok, BVV.new_spec, Z.shiftr_div_pow2 by lia.
  - rewrite signed_vec, bind_Ok by done.
    by rewrite py_shr_nonneg, bind_Ok, BVV.new_spec, Z.shiftr_div_pow2 by lia.
Qed.

Lemma zero_extend_0 w x : vwf w x → zero_extend (vec x w) 0 = Ok (vec x w).
Proof. intros [? ?]. concrete. rewrite Z.add_0_r. by apply new_small. Qed.

(** Division and remainder, by cases on the divisor. *)
Lemma divide_vec w x y :
  vwf w x → vwf w y →
  let sx := BVV.to_signed w x in let sy := BVV.to_signed w y in
  let quotient (v : Z) := if y =? 0 then Err ClaripyZeroDivisionError else Ok (vec (v mod 2 ^ w) w) in
  op_div (vec x w) (vec y w) = quotient (x / y) ∧
  op_mod (vec x w) (vec y w) = quotient (x mod y) ∧
  op_SDiv (vec x w) (vec y w) = quotient (Z.quot sx sy) ∧
  op_SMod (vec x w) (vec y w) = quotient (Z.rem sx sy).
Proof.
  intros Wx Wy sx sy quotient. pose proof (to_signed_zero w y Wy). pose proof Wx as [? ?].
  repeat split; concrete; rewrite ?(signed_vec _ _ Wx), ?(signed_vec _ _ Wy); cbn [mbind result_bind];
    fold sx; fold sy; unfold quotient; fold sy in H; rewrite ?H;
    destruct (Z.eqb_spec y 0); try done; rewrite ?BVV.new_spec, ?BVV.trunc_div_quot by (done || lia); try done.
  do 3 f_equal. pose proof (Z.quot_rem' sx sy). lia.
Qed.

(** The value of every opcode with a specification. *)
Lemma binary_value (o : OpCode) (n x y v w : Z) :
  vwf (8 * n) x → vwf (8 * n) y → p_code_spec o (8 * n) x y = Some (v, w) →
  evaluate_binary (get_behavior_for_opcode o) n n (vec x (8 * n)) (vec y (8 * n)) = Ok (vec v w).
Proof.
  intros Wx Wy H.
  assert (1 ≤ n) as Hn by (destruct Wx; lia). pose proof (carry_flags_exact n x y Hn (proj2 Wx) (proj2 Wy)) as (HC & HSC & HSB).
  cbv zeta in HC, HSC, HSB. set (w0 := 8 * n) in *. clearbody w0. destruct (Wx) as [Hw Hx], (Wy) as [_ Hy].
  pose proof (divide_vec w0 x y Wx Wy) as (D & M & SD & SM). remember (y =? 0) as zero eqn:Ez.
  destruct o; cbn [p_code_spec] in H; try discriminate;
    try (rewrite <-Ez in H; destruct zero; [discriminate|]); injection H as <- <-;
    cbn [evaluate_binary evaluate get_behavior_for_opcode binary].
  all: first [assumption|apply generic_compare_spec; concrete; rewrite ?signed_vec by done; done|idtac].
  all: unfold OpBehaviorIntLeft, OpBehaviorIntRight, OpBehaviorIntSright, OpBehaviorIntMult, OpBehaviorBoolXor,
    OpBehaviorBoolAnd, OpBehaviorBoolOr, OpBehaviorIntXor, OpBehaviorIntAnd, OpBehaviorIntOr; rewrite ?sizes_equal, ?booleanize_spec, ?Z.sub_diag, ?zero_extend_0 by done;
    cbn [mbind result_bind].
  all: first
    [ by apply xor_bit | by apply and_bit | by apply or_bit
    | by apply add_vec | by apply sub_vec
    | apply shift_vec; lia || done | assumption
    | concrete; by rewrite BVV.new_spec by lia ].
Qed.

Lemma zero_divisor (o : OpCode) (n x : Z) :
  vwf (8 * n) x → o ∈ [INT_DIV; INT_REM; INT_SDIV; INT_SREM] →
  evaluate_binary (get_behavior_for_opcode o) n n (vec x (8 * n)) (vec 0 (8 * n)) = Err ClaripyZeroDivisionError.
Proof.
  intros Wx Ho. assert (vwf (8 * n) 0) as W0 by (destruct Wx; split; lia).
  pose proof (divide_vec (8 * n) x 0 Wx W0) as (D & M & SD & SM).
  repeat (apply elem_of_cons in Ho as [->|Ho]); [..|by apply elem_of_nil in Ho]; assumption.
Qed.

(** C17: On two operands of one width of whole bytes, the behaviour the factory
    registers for a two-operand integer, comparison, carry or boolean opcode
    computes the value that p-code prescribes, at the width [p_code_spec] names:
    wrapped arithmetic, truncated signed division, logical and arithmetic shifts
    by an unsigned amount of any size, one-bit conditions and carries, the two
    signed overflow flags; where p-code leaves a quotient undefined, the concrete
    backend raises. *)
Theorem binary_behaviors_exact (o : OpCode) (n x y : Z) :
  1 ≤ n → 0 ≤ x < 2 ^ (8 * n) → 0 ≤ y < 2 ^ (8 * n) →
  (∀ v w, p_code_spec o (8 * n) x y = Some (v, w) →
    evaluate_binary (get_behavior_for_opcode o) n n (vec x (8 * n)) (vec y (8 * n)) = Ok (vec v w)) ∧
  (o ∈ [INT_DIV; INT_REM; INT_SDIV; INT_SREM] → y = 0 →
    evaluate_binary (get_behavior_for_opcode o) n n (vec x (8 * n)) (vec y (8 * n)) = Err ClaripyZeroDivisionError).
Proof.
  intros Hn Hx Hy. split.
  - intros v w. apply binary_value; by split; lia.
  - intros Ho ->. apply zero_divisor; [by split; lia|done].
Qed.

Lemma binary_behaviors_exact_witness :
  evaluate_binary (get_behavior_for_opcode INT_SDIV) 1 1 (vec 249 8) (vec 2 8) = Ok (vec 253 8).
Proof.
  apply (binary_behaviors_exact INT_SDIV 1 249 2); [lia..|]. vm_compute. reflexivity.
Defined.

(** ** Counting bits *)

(** The number of set bits among the low [k] bits. *)
Definition set_bits (k : nat) (x : Z) : Z :=
  Z.of_nat (length (filter (λ i, Z.testbit x i = true) (seqZ 0 (Z.of_nat k)))).

(** The number of zero bits above the highest set bit among the low [k]. *)
Definition leading_zeros (w : Z) (x : Z) : Z := if x =? 0 then w else w - 1 - Z.log2 x.

Lemma set_bits_S k x : set_bits (S k) x = set_bits k x + Z.b2z (Z.testbit x (Z.of_nat k)).
Proof.
  unfold set_bits. rewrite seqZ_S, list.filter_app, length_app, Nat2Z.inj_add. f_equal.
  rewrite Z.add_0_l. rewrite list.filter_cons. by destruct (Z.testbit x (Z.of_nat k)).
Qed.

Lemma extract_bit w x a : 0 ≤ a → op_Extract a a (vec x w) = Ok (vec (Z.b2z (Z.testbit x a)) 1).
Proof.
  intros. concrete. rewrite BVV.Extract_spec by lia. cbn [BVV.value]. rewrite Z.testbit_spec' by done.
  by replace (a + 1 - a) with 1 by lia.
Qed.

Lemma POPCOUNT_loop w x m k :
  1 ≤ m →
  foldM (λ expr a, bit ← op_Extract a a (vec x w); ext ← zero_extend bit (m - 1); op_add expr ext)
    (vec 0 m) (seqZ 0 (Z.of_nat k)) = Ok (vec (set_bits k x mod 2 ^ m) m).
Proof.
  intros Hm. pose proof (pow2_pos m ltac:(lia)). induction k as [|k IH]; [done|].
  rewrite seqZ_S, foldM_app, IH. cbn [mbind result_bind foldM]. rewrite extract_bit by lia. cbn [mbind result_bind].
  concrete. replace (1 + (m - 1)) with m by lia.
  rewrite new_small by (split; [done|by apply one_bit]). cbn [mbind result_bind].
  rewrite BVV.compare_bits_eq by done. cbn [BVV.bits BVV.value]. rewrite BVV.new_spec by lia. cbn.
  by rewrite set_bits_S, Z.add_mod_idemp_l, Z.add_0_l by lia.
Qed.

Lemma LZCOUNT_loop w x m k :
  1 ≤ m → 0 ≤ x → Z.of_nat k ≤ w →
  foldM (λ expr pos, bit ← op_Extract pos pos (vec x w); one ← BVV 1 1; c ← op_eq bit one;
      n ← BVV (w - pos - 1) m; op_If c n expr)
    (vec (w mod 2 ^ m) m) (seqZ 0 (Z.of_nat k)) =
  Ok (vec (leading_zeros w (x mod 2 ^ Z.of_nat k) mod 2 ^ m) m).
Proof.
  intros Hm Hx. induction k as [|k IH]; intros Hk; [by rewrite Z.pow_0_r, Z.mod_1_r|].
  rewrite seqZ_S, foldM_app, IH by lia. cbn [mbind result_bind foldM]. rewrite extract_bit by lia.
  concrete. rewrite Z.add_0_l. change (BVV.new 1 1) with (Ok (vec 1 1)). cbn [mbind result_bind].
  rewrite compare_bits_0_length_eq by done. cbn [BVV.value]. cbn [mbind result_bind].
  rewrite BVV.new_spec by lia. cbn. do 2 f_equal.
  pose proof (mod_pow2_bound x (Z.of_nat k) ltac:(lia)). pose proof (pow2_pos (Z.of_nat k) ltac:(lia)).
  assert (x mod 2 ^ Z.of_nat (S k) = x mod 2 ^ Z.of_nat k + 2 ^ Z.of_nat k * Z.b2z (Z.testbit x (Z.of_nat k))) as ->.
  { rewrite Nat2Z.inj_succ, Z.pow_succ_r, (Z.mul_comm 2), Z.rem_mul_r, Z.testbit_spec' by lia. done. }
  destruct (Z.testbit x (Z.of_nat k)); cbn [Z.b2z].
  - rewrite Z.eqb_refl. f_equal. unfold leading_zeros. zcases; [lia|].
    rewrite (Z.log2_unique _ (Z.of_nat k)); [f_equal; lia|lia|]. rewrite Z.pow_succ_r by lia. lia.
  - by rewrite Z.mul_0_r, Z.add_0_r.
Qed.

(** POPCOUNT counts the set bits of its operand and LZCOUNT the zero bits
    above the highest set one (all of them for zero), reduced to the output's
    width: the loops over [range(len(in1))] return for every width. *)
Theorem bit_counts_exact (size_out size_in w x : Z) :
  1 ≤ size_out → 1 ≤ w → 0 ≤ x < 2 ^ w →
  let m := 8 * size_out in
  OpBehaviorPopcount size_out size_in (vec x w) = Ok (vec (set_bits (Z.to_nat w) x mod 2 ^ m) m) ∧
  OpBehaviorLzcount size_out size_in (vec x w) = Ok (vec (leading_zeros w x mod 2 ^ m) m).
Proof.
  intros Ho Hw Hx m. pose proof (pow2_pos m ltac:(lia)).
  unfold OpBehaviorPopcount, OpBehaviorLzcount, py_range. replace (size_out * 8) with m by lia.
  cbn [size BVV concrete_ops BVV.bits]. rewrite Z.sub_0_r. rewrite !BVV.new_spec, Z.mod_0_l by lia. cbn [mbind result_bind].
  split.
  - pose proof (POPCOUNT_loop w x m (Z.to_nat w) ltac:(lia)) as E. by rewrite Z2Nat.id in E by lia.
  - pose proof (LZCOUNT_loop w x m (Z.to_nat w) ltac:(lia) ltac:(lia) ltac:(lia)) as E.
    by rewrite Z2Nat.id, (Z.mod_small x) in E by lia.
Qed.

Lemma bit_counts_exact_witness :
  OpBehaviorPopcount 1 2 (vec 0xF00F 16) = Ok (vec 8 8) ∧ OpBehaviorLzcount 1 2 (vec 0x00FF 16) = Ok (vec 8 8).
Proof.
  split; [apply (bit_counts_exact 1 2 16 0xF00F); lia|apply (bit_counts_exact 1 2 16 0x00FF); lia].
Defined.

(** ** Operands of different widths *)

Lemma to_signed_small w x : x < 2 ^ (w - 1) → BVV.to_signed w x = x.
Proof. intros. unfold BVV.to_signed. zcases; lia. Qed.

Lemma to_signed_large w x : 2 ^ (w - 1) ≤ x → BVV.to_signed w x = x - 2 ^ w.
Proof. intros. unfold BVV.to_signed. zcases; lia. Qed.

Lemma sign_extend_vec w x k : vwf w x → 0 ≤ k → sign_extend (vec x w) k = Ok (vec (BVV.to_signed w x mod 2 ^ (w + k)) (w + k)).
Proof. intros Wx Hk. concrete. rewrite signed_vec, bind_Ok by done. destruct Wx. by rewrite BVV.new_spec by lia. Qed.

Lemma zero_extend_vec w x k : vwf w x → 0 ≤ k → zero_extend (vec x w) k = Ok (vec x (w + k)).
Proof.
  intros [Hw Hx] Hk. concrete. apply new_small. split; [lia|].
  pose proof (Z.pow_le_mono_r 2 w (w + k)). lia.
Qed.

(** Shifts by an amount that is narrower than the shifted operand.
    INT_RIGHT zero-extends the amount and is exact.  INT_LEFT and INT_SRIGHT
    sign-extend it: they are exact only for amounts below half of the amount's
    range, and otherwise shift every bit out. *)
Theorem narrow_shift_amounts (n w x w2 y : Z) :
  1 ≤ w2 ≤ w → 0 ≤ x < 2 ^ w → 0 ≤ y < 2 ^ w2 → w2 < w →
  OpBehaviorIntRight n n (vec x w) (vec y w2) = Ok (vec (x / 2 ^ y) w) ∧
  (y < 2 ^ (w2 - 1) →
    OpBehaviorIntLeft n n (vec x w) (vec y w2) = Ok (vec ((x * 2 ^ y) mod 2 ^ w) w) ∧
    OpBehaviorIntSright n n (vec x w) (vec y w2) = Ok (vec ((BVV.to_signed w x / 2 ^ y) mod 2 ^ w) w)) ∧
  (2 ^ (w2 - 1) ≤ y → OpBehaviorIntLeft n n (vec x w) (vec y w2) = Ok (vec 0 w)).
Proof.
  intros Hw2 Hx Hy Hlt. assert (vwf w x ∧ vwf w2 y) as [Wx Wy] by (split; split; lia).
  unfold OpBehaviorIntRight, OpBehaviorIntLeft, OpBehaviorIntSright, make_bv_sizes_equal.
  cbn [size concrete_ops BVV.bits]. destruct (Z.ltb_spec w w2); [lia|]. destruct (Z.ltb_spec w2 w); [|lia].
  assert (zero_extend (vec y w2) (w - w2) = Ok (vec y w)) as Ez.
  { rewrite zero_extend_vec by (done || lia). do 2 f_equal. lia. }
  assert (sign_extend (vec y w2) (w - w2) = Ok (vec (BVV.to_signed w2 y mod 2 ^ w) w)) as Es.
  { rewrite sign_extend_vec by (done || lia). by replace (w2 + (w - w2)) with w by lia. }
  rewrite Ez, Es. cbn [mbind result_bind].
  pose proof (pow2_double w2 ltac:(lia)). pose proof (pow2_pos (w2 - 1) ltac:(lia)). pose proof (pow2_pos y ltac:(lia)).
  pose proof (pow2_double w ltac:(lia)). pose proof (Z.pow_le_mono_r 2 w2 (w - 1) ltac:(lia) ltac:(lia)).
  split; [|split].
  - pose proof (shift_vec w x y Wx ltac:(lia)) as (_ & -> & _). do 2 f_equal. apply Z.mod_small.
    split; [apply Z.div_pos; lia|]. apply Z.div_lt_upper_bound; [lia|]. nia.
  - intros Hs. rewrite (to_signed_small w2 y), Z.mod_small by lia. by split; apply shift_vec; lia || done.
  - intros Hs. rewrite to_signed_large by lia.
    assert ((y - 2 ^ w2) mod 2 ^ w = y - 2 ^ w2 + 2 ^ w) as -> by (symmetry; apply Z.mod_unique with (-1); lia).
    set (k := y - 2 ^ w2 + 2 ^ w). pose proof (BVV.lt_pow2 (w - 1) ltac:(lia)).
    assert (w ≤ k) by (unfold k; lia). pose proof (shift_vec w x k Wx ltac:(lia)) as (-> & _ & _). do 2 f_equal.
    replace k with (k - w + w) by lia. rewrite Z.pow_add_r, Z.mul_assoc by lia. apply Z.mod_mul. lia.
Qed.

Lemma narrow_shift_amounts_witness :
  OpBehaviorIntRight 32 32 (vec (2 ^ 255) 256) (vec 0x80 8) = Ok (vec (2 ^ 127) 256) ∧
  OpBehaviorIntLeft 32 32 (vec 1 256) (vec 0x80 8) = Ok (vec 0 256).
Proof.
  split.
  - apply (narrow_shift_amounts 32 256 (2 ^ 255) 8 0x80); vm_compute; by split.
  - apply (narrow_shift_amounts 32 256 1 8 0x80); vm_compute; by try split.
Defined.

(** Reducing twice keeps the smaller width. *)
Lemma mod_mod_pow2 a m w : 0 ≤ m ≤ w → (a mod 2 ^ w) mod 2 ^ m = a mod 2 ^ m.
Proof.
  intros. apply Z.mod_mod_divide.
  exists (2 ^ (w - m)). rewrite <-Z.pow_add_r by lia. f_equal. lia.
Qed.

(** The sign bits that an arithmetic shift brings in are above the low [m] bits
    when those lie inside the operand. *)
Lemma to_signed_div_mod w x s m :
  0 ≤ s → 0 ≤ m → s + m ≤ w → (BVV.to_signed w x / 2 ^ s) mod 2 ^ m = (x / 2 ^ s) mod 2 ^ m.
Proof.
  intros. destruct (Z.lt_ge_cases x (2 ^ (w - 1))); [by rewrite to_signed_small|]. rewrite to_signed_large by done.
  pose proof (pow2_pos s ltac:(lia)). pose proof (pow2_pos m ltac:(lia)).
  assert (2 ^ w = 2 ^ (w - s - m) * 2 ^ m * 2 ^ s) as E by (rewrite <-!Z.pow_add_r by lia; f_equal; lia).
  replace (x - 2 ^ w) with (x + (- 2 ^ (w - s - m) * 2 ^ m) * 2 ^ s) by (rewrite E; ring).
  rewrite Z.div_add by lia. by rewrite Z_mod_plus_full.
Qed.

(** SUBPIECE by a constant number of bytes takes the bytes from [k] on: the
    low [8 * size_out] bits of [x >> 8k], left in a vector of the width of the
    operand (the emulator narrows it when it stores it), whatever the width of
    the constant, as long as its top bit is clear. *)
Theorem subpiece_exact (size_out size_in w x w2 k : Z) :
  1 ≤ w2 ≤ w → 0 ≤ x < 2 ^ w → 0 ≤ k < 2 ^ (w2 - 1) → 0 ≤ size_out → 8 * (k + size_out) ≤ w →
  OpBehaviorSubpiece size_out size_in (vec x w) (vec k w2) = Ok (vec ((x / 2 ^ (8 * k)) mod 2 ^ (8 * size_out)) w).
Proof.
  intros Hw2 Hx Hk Ho Hfit. pose proof (pow2_double w2 ltac:(lia)). pose proof (Z.pow_le_mono_r 2 w2 w ltac:(lia) ltac:(lia)).
  pose proof (BVV.lt_pow2 w ltac:(lia)). assert (vwf w x ∧ vwf w2 k ∧ vwf w k) as (Wx & Wk2 & Wk) by (repeat split; lia).
  pose proof (pow2_pos (8 * k) ltac:(lia)). pose proof (pow2_pos (8 * size_out) ltac:(lia)).
  unfold OpBehaviorSubpiece. cbn [size concrete_ops BVV.bits].
  assert ((if w2 <? w then sign_extend (vec k w2) (w - w2) else Ok (vec k w2)) = Ok (vec k w)) as ->.
  { destruct (Z.ltb_spec w2 w); [|do 2 f_equal; lia]. rewrite sign_extend_vec, to_signed_small by (done || lia).
    replace (w2 + (w - w2)) with w by lia. by rewrite Z.mod_small by lia. }
  cbn [mbind result_bind BVV.bits]. rewrite Z.ltb_irrefl. cbn [mbind result_bind size BVV concrete_ops BVV.bits].
  rewrite BVV.new_spec by lia. cbn [mbind result_bind].
  assert (op_mul (vec k w) (vec (8 mod 2 ^ w) w) = Ok (vec (8 * k) w)) as ->.
  { concrete. rewrite BVV.new_spec by lia. do 2 f_equal. rewrite Z.mul_mod_idemp_r by lia.
    rewrite Z.mul_comm. apply Z.mod_small. lia. }
  cbn [mbind result_bind]. pose proof (shift_vec w x (8 * k) Wx ltac:(lia)) as (_ & _ & ->).
  cbn [mbind result_bind BVV.bits]. replace (size_out * 8) with (8 * size_out) by lia.
  pose proof (Z.pow_le_mono_r 2 (8 * size_out) w ltac:(lia) ltac:(lia)).
  rewrite BVV.new_spec by lia. cbn [mbind result_bind]. concrete. rewrite BVV.new_spec by lia. do 2 f_equal.
  rewrite (Z.mod_small (_ - 1)), land_mask, (mod_mod_pow2 _ (8 * size_out) w) by lia.
  rewrite to_signed_div_mod by lia. apply Z.mod_small. pose proof (mod_pow2_bound (x / 2 ^ (8 * k)) (8 * size_out) ltac:(lia)). lia.
Qed.

Lemma subpiece_exact_witness : OpBehaviorSubpiece 2 4 (vec 0xF1A2B3C4 32) (vec 2 8) = Ok (vec 0xF1A2 32).
Proof. apply (subpiece_exact 2 4 32 0xF1A2B3C4 8 2); vm_compute; by try split. Defined.

(** The one-operand behaviours: two's complement negation, complement,
    both extensions to a wider output, and the boolean negation. *)
Theorem unary_behaviors_exact (n m x : Z) :
  1 ≤ n ≤ m → 0 ≤ x < 2 ^ (8 * n) →
  let w := 8 * n in
  let run o size_out := evaluate_unary (get_behavior_for_opcode o) size_out n (vec x w) in
  run COPY n = Ok (vec x w) ∧
  run INT_2COMP n = Ok (vec ((- x) mod 2 ^ w) w) ∧
  run INT_NEGATE n = Ok (vec (2 ^ w - 1 - x) w) ∧
  run INT_ZEXT m = Ok (vec x (8 * m)) ∧
  run INT_SEXT m = Ok (vec (BVV.to_signed w x mod 2 ^ (8 * m)) (8 * m)) ∧
  run BOOL_NEGATE n = Ok (vec (Z.b2z (x =? 0)) 1).
Proof.
  intros Hn Hx w run. assert (vwf w x) as Wx by (split; unfold w; lia). pose proof Wx as [Hw _].
  assert ((m - n) * 8 = 8 * m - w) as E by (unfold w; lia). pose proof (pow2_pos w ltac:(lia)).
  unfold run. cbn [evaluate_unary evaluate get_behavior_for_opcode unary]. fold w in Hx. split_and!.
  - done.
  - unfold OpBehaviorInt2Comp. concrete. rewrite BVV.new_spec by lia. unfold BVV.mod_. cbn [BVV.value BVV.bits].
    by rewrite Z.mod_mod by lia.
  - unfold OpBehaviorIntNegate. concrete. unfold BVV.mod_. cbn [BVV.value BVV.bits]. rewrite BVV.new_spec by lia. do 2 f_equal.
    rewrite (lnot_full w x), ones_pow2, <-lnot_full by lia. apply Z.mod_small. lia.
  - unfold OpBehaviorIntZext. rewrite E, zero_extend_vec by (done || unfold w; lia). do 2 f_equal. lia.
  - unfold OpBehaviorIntSext. rewrite E, sign_extend_vec by (done || unfold w; lia).
    by replace (w + (8 * m - w)) with (8 * m) by lia.
  - unfold OpBehaviorBoolNegate. cbn [size BVV concrete_ops BVV.bits].
    rewrite new_small by (split; lia). cbn [mbind result_bind]. apply generic_compare_spec. by concrete.
Qed.

Lemma unary_behaviors_exact_witness :
  evaluate_unary (get_behavior_for_opcode INT_SEXT) 2 1 (vec 0x80 8) = Ok (vec 0xFF80 16).
Proof. apply (unary_behaviors_exact 1 2 0x80); lia. Defined.

(** The factory is total and consistent.  Every opcode gets a behaviour
    that carries its own opcode; a behaviour that is evaluated as unary never
    answers a binary evaluation and conversely; the opcodes with no method at
    all, on which both evaluations raise [AngrError], are exactly the special
    ones (which the emulator handles itself), the floating-point ones, and
    PIECE. *)
Theorem factory_dispatch (o : OpCode) :
  let b := get_behavior_for_opcode (ops:=concrete_ops) o in
  let defined := negb (is_special b || bool_decide (o ∈ PIECE :: float_opcodes)) in
  opcode b = o ∧
  (∀ so si x, defined = false ∨ is_unary b = false → evaluate_unary b so si x = Err AngrError) ∧
  (∀ so si x y, defined = false ∨ is_unary b = true → evaluate_binary b so si x y = Err AngrError) ∧
  (defined = true → is_unary b = true → ∃ f, evaluate b = Unary f ∧ evaluate_unary b = f) ∧
  (defined = true → is_unary b = false → ∃ f, evaluate b = Binary f ∧ evaluate_binary b = f).
Proof.
  destruct o; cbn [get_behavior_for_opcode]; (split; [done|]); cbn; split_and!; intros; try destruct_or!; try done; try eauto.
Qed.

End Pcode.
