(* ===== verification/Claripy.v ===== *)
(** * claripy expressions over concrete arguments: [claripy/ast/bv.py]

    The operators of [BV] take vectors and Python integers.  An integer operand
    becomes a vector of the width of the other one ([BV._from_int]), and an
    operator whose arguments are all concrete is answered by the concrete
    backend when the expression is built ([Base.__new__]), which is the
    component [Bvv].  A term is such an argument, or the exception raised while
    it was built; the notations of [claripy_scope] are the operators, so that
    the code that builds expressions reads here as it does in the source. *)

From Stdlib Require Import ZArith Lia Bool.
From stdpp Require Import base tactics list numbers.
From S2P Require Import Prelude Bvv.

Module Claripy.
Import BVV.

(** ** Terms *)

Abbreviation vector := BVV.BVV.
Definition term : Type := result operand.

(** A Python integer as an argument. *)
Definition int (n : Z) : term := Ok (Num n).

(** [claripy.BVV(value, size)]. *)
Definition BVV (v size : Z) : term := Bv <$> new v size.

(** [BV._from_int]. *)
Definition _from_int (like : vector) (v : Z) : result vector :=
  new v (if bits like =? 0 then 64 else bits like).

(** An operator on two vectors, as [operations.op] makes it one on arguments. *)
Definition op {A} (f : vector → vector → result A) (a b : result operand) : result A :=
  a ← a; b ← b;
  match a, b with
  | Bv x, Bv y => f x y
  | Bv x, Num n => y ← _from_int x n; f x y
  | Num n, Bv y => x ← _from_int y n; f x y
  | _, _ => Err NotImplemented
  end.

Definition op_bv (f : vector → vector → result vector) (a b : term) : term := Bv <$> op f a b.

(** A unary operator. *)
Definition op1 (f : vector → result vector) (a : term) : term :=
  a ← a; match a with Bv x => Bv <$> f x | _ => Err NotImplemented end.

Definition add : term → term → term := op_bv (λ x y, __add__ x (Bv y)).
Definition sub : term → term → term := op_bv (λ x y, __sub__ x (Bv y)).
Definition mul : term → term → term := op_bv (λ x y, __mul__ x (Bv y)).
Definition floordiv : term → term → term := op_bv (λ x y, __floordiv__ x (Bv y)).
Definition mod_ : term → term → term := op_bv (λ x y, __mod__ x (Bv y)).
Definition and_ : term → term → term := op_bv (λ x y, __and__ x (Bv y)).
Definition or_ : term → term → term := op_bv (λ x y, __or__ x (Bv y)).
Definition xor_ : term → term → term := op_bv (λ x y, __xor__ x (Bv y)).
Definition lshift : term → term → term := op_bv (λ x y, __lshift__ x (Bv y)).
Definition rshift : term → term → term := op_bv (λ x y, __rshift__ x (Bv y)).
Definition LShR : term → term → term := op_bv (λ x y, BVV.LShR (Bv x) (Bv y)).
Definition RotateLeft : term → term → term := op_bv (λ x y, BVV.RotateLeft x (Bv y)).
Definition RotateRight : term → term → term := op_bv (λ x y, BVV.RotateRight x (Bv y)).
Definition invert : term → term := op1 __invert__.
Definition neg : term → term := op1 __neg__.

Definition eq : term → term → result bool := op (λ x y, __eq__ x (Bv y)).
Definition ne : term → term → result bool := op (λ x y, __ne__ x (Bv y)).
Definition ULT : term → term → result bool := op (λ x y, BVV.ULT (Bv x) (Bv y)).
Definition ULE : term → term → result bool := op (λ x y, BVV.ULE (Bv x) (Bv y)).
Definition UGT : term → term → result bool := op (λ x y, BVV.UGT (Bv x) (Bv y)).
Definition UGE : term → term → result bool := op (λ x y, BVV.UGE (Bv x) (Bv y)).
Definition SLT : term → term → result bool := op (λ x y, BVV.SLT (Bv x) (Bv y)).
Definition SLE : term → term → result bool := op (λ x y, BVV.SLE (Bv x) (Bv y)).
Definition SGT : term → term → result bool := op (λ x y, BVV.SGT (Bv x) (Bv y)).
Definition SGE : term → term → result bool := op (λ x y, BVV.SGE (Bv x) (Bv y)).

(** [x[high:low]] and [x[i]] for indices that are not negative. *)
Definition Extract (high low : Z) : term → term := op1 (BVV.Extract high low).
Definition bit (i : Z) : term → term := Extract i i.

Definition zero_extend (n : Z) : term → term := op1 (BVV.ZeroExt n).
Definition sign_extend (n : Z) : term → term := op1 (BVV.SignExt n).

(** [Concat] takes vectors only. *)
Definition Concat (l : list term) : term :=
  l ← mapM (λ t, t ≫= λ a, match a with Bv x => Ok x | _ => Err NotImplemented end) l;
  Bv <$> BVV.Concat l.

(** [claripy.If]: both branches are built, and have one width. *)
Definition If (c : result bool) (t f : term) : term :=
  c ← c; t ← t; f ← f;
  '(t, f) ← match t, f with
            | Bv x, Bv y => if bits x =? bits y then Ok (x, y) else Err ClaripyTypeError
            | Bv x, Num n => y ← _from_int x n; Ok (x, y)
            | Num n, Bv y => x ← _from_int y n; Ok (x, y)
            | _, _ => Err ClaripyTypeError
            end;
  Ok (Bv (if c : bool then t else f)).

(** [claripy.Or] of two conditions. *)
Definition Or (a b : result bool) : result bool := a ← a; b ← b; Ok (a || b).

(** [len(x)]. *)
Definition len (t : term) : result Z :=
  a ← t; match a with Bv x => Ok (bits x) | _ => Err TypeError end.

(** The value of a concrete vector, [x.args[0]]. *)
Definition concrete_value (t : term) : result Z :=
  a ← t; match a with Bv x => Ok (value x) | Num n => Ok n | Foreign => Err TypeError end.

Module Notations.
Declare Scope claripy_scope.
Delimit Scope claripy_scope with claripy.
Infix "+" := add : claripy_scope.
Infix "-" := sub : claripy_scope.
Infix "*" := mul : claripy_scope.
Infix "//" := floordiv (at level 40, left associativity) : claripy_scope.
Infix "%%" := mod_ (at level 40, left associativity) : claripy_scope.
Infix "<<" := lshift (at level 52, left associativity) : claripy_scope.
Infix ">>" := rshift (at level 52, left associativity) : claripy_scope.
Infix "&" := and_ (at level 54, left associativity) : claripy_scope.
Infix "^'" := xor_ (at level 56, left associativity) : claripy_scope.
Infix "|'" := or_ (at level 58, left associativity) : claripy_scope.
Infix "==" := eq (at level 70, no associativity) : claripy_scope.
Infix "!=" := ne (at level 70, no associativity) : claripy_scope.
Infix "<" := ULT : claripy_scope.
Infix "<=" := ULE : claripy_scope.
Infix ">" := UGT : claripy_scope.
Infix ">=" := UGE : claripy_scope.
Notation "# n" := (int n) (at level 5, format "# n") : claripy_scope.
Notation "x .[ i ]" := (bit i x) (at level 1, i at level 99, left associativity, format "x .[ i ]") : claripy_scope.
Notation "x .[ hi : lo ]" := (Extract hi lo x) (at level 1, hi at level 99, lo at level 99, left associativity, format "x .[ hi : lo ]") : claripy_scope.
End Notations.
Import Notations.


(** ** Evaluation of terms

    A term whose operands are words evaluates by rewriting; the side conditions
    are solved by the hint database [word]. *)

Abbreviation val w x := (Ok (Bv (mkBVV x w))).

(** A value of a vector of a positive width. *)
Definition word (w x : Z) : Prop := 1 ≤ w ∧ 0 ≤ x < 2 ^ w.

Lemma word_wf w x : word w x → wf (mkBVV x w).
Proof. intros []. split; cbn; lia. Qed.

Lemma word_mod w x : 1 ≤ w → word w (x mod 2 ^ w).
Proof. intros. split; [done|apply mod_pow2_bound; lia]. Qed.

Lemma word_b2z w b : 1 ≤ w → word w (Z.b2z b).
Proof. intros. pose proof (Z.pow_le_mono_r 2 1 w). split; [done|]. destruct b; cbn; lia. Qed.

Lemma word_lxor w x y : word w x → word w y → word w (Z.lxor x y).
Proof. intros [? ?] [? ?]. split; [done|apply lxor_bound; lia]. Qed.

Lemma word_land w x y : word w x → word w y → word w (Z.land x y).
Proof. intros [? ?] [? ?]. split; [done|apply land_bound; lia]. Qed.

Lemma word_lor w x y : word w x → word w y → word w (Z.lor x y).
Proof. intros [? ?] [? ?]. split; [done|apply lor_bound; lia]. Qed.

Lemma word_if w (b : bool) x y : word w x → word w y → word w (if b then x else y).
Proof. by destruct b. Qed.

Lemma word_wider w w' x : word w x → w ≤ w' → word w' x.
Proof. intros [? ?] ?. pose proof (Z.pow_le_mono_r 2 w w'). split; lia. Qed.

Lemma word_width w x : word w x → 1 ≤ w.
Proof. by intros []. Qed.

Lemma word_small w x : word w x → x mod 2 ^ w = x.
Proof. intros []. by rewrite Z.mod_small. Qed.

Create HintDb word.
#[export] Hint Resolve word_mod word_b2z word_lxor word_land word_lor word_if word_width word_wf : word.
#[export] Hint Extern 1 (_ ≤ _) => lia : word.

Lemma new_val w x : 1 ≤ w → Bv <$> new x w = val w (x mod 2 ^ w).
Proof. intros. by rewrite new_spec by lia. Qed.

Lemma BVV_val w x : 1 ≤ w → BVV x w = val w (x mod 2 ^ w).
Proof. apply new_val. Qed.

Lemma BVV_0_0 : BVV 0 0 = val 0 0.
Proof. done. Qed.

(** An integer argument is the vector of its value modulo the width. *)
Lemma op_int_r {A} (f : vector → vector → result A) w x n :
  1 ≤ w → op f (val w x) (int n) = op f (val w x) (val w (n mod 2 ^ w)).
Proof.
  intros Hw. unfold op, int, _from_int. cbn. destruct (Z.eqb_spec w 0); [lia|]. by rewrite new_spec by lia.
Qed.

Lemma op_int_l {A} (f : vector → vector → result A) w x n :
  1 ≤ w → op f (int n) (val w x) = op f (val w (n mod 2 ^ w)) (val w x).
Proof.
  intros Hw. unfold op, int, _from_int. cbn. destruct (Z.eqb_spec w 0); [lia|]. by rewrite new_spec by lia.
Qed.

(** [method] reduces an operator on two vectors of one positive width. *)
Ltac method :=
  cbn [op op_bv op1 mbind result_bind fmap result_fmap BVV.bits BVV.value];
  unfold __add__, __sub__, __mul__, __floordiv__, __mod__, __and__, __or__, __xor__, __lshift__, __rshift__, BVV.LShR,
    BVV.ULT, BVV.ULE, BVV.UGT, BVV.UGE, BVV.SLT, BVV.SLE, BVV.SGT, BVV.SGE;
  rewrite ?normalize_compare_Bv by (done || (cbn; lia));
  cbn [BVV.bits BVV.value mbind result_bind fmap result_fmap].

Lemma add_val w x y : 1 ≤ w → (val w x + val w y)%claripy = val w ((x + y) mod 2 ^ w).
Proof. intros. unfold add. method. by apply new_val. Qed.

Lemma sub_val w x y : 1 ≤ w → (val w x - val w y)%claripy = val w ((x - y) mod 2 ^ w).
Proof. intros. unfold sub. method. by apply new_val. Qed.

Lemma mul_val w x y : 1 ≤ w → (val w x * val w y)%claripy = val w ((x * y) mod 2 ^ w).
Proof. intros. unfold mul. method. by apply new_val. Qed.

Lemma xor_val w x y : word w x → word w y → (val w x ^' val w y)%claripy = val w (Z.lxor x y).
Proof.
  intros Hx Hy. pose proof (word_lxor w x y Hx Hy) as Hxy. unfold xor_. destruct Hx. method.
  rewrite new_val by done. by rewrite word_small.
Qed.

Lemma and_val w x y : word w x → word w y → (val w x & val w y)%claripy = val w (Z.land x y).
Proof.
  intros Hx Hy. pose proof (word_land w x y Hx Hy) as Hxy. unfold and_. destruct Hx. method.
  rewrite new_val by done. by rewrite word_small.
Qed.

Lemma or_val w x y : word w x → word w y → (val w x |' val w y)%claripy = val w (Z.lor x y).
Proof.
  intros Hx Hy. pose proof (word_lor w x y Hx Hy) as Hxy. unfold or_. destruct Hx. method.
  rewrite new_val by done. by rewrite word_small.
Qed.

Lemma floordiv_val w x y : 1 ≤ w → y ≠ 0 → (val w x // val w y)%claripy = val w ((x / y) mod 2 ^ w).
Proof. intros. unfold floordiv. method. destruct (Z.eqb_spec y 0); [done|]. by apply new_val. Qed.

Lemma mod_val w x y : 1 ≤ w → y ≠ 0 → (val w x %% val w y)%claripy = val w ((x mod y) mod 2 ^ w).
Proof. intros. unfold mod_. method. destruct (Z.eqb_spec y 0); [done|]. by apply new_val. Qed.

Lemma lshift_val w x y : 1 ≤ w → 0 ≤ y → (val w x << val w y)%claripy = val w ((x * 2 ^ y) mod 2 ^ w).
Proof. intros. unfold lshift. method. by rewrite py_shl_nonneg, bind_Ok, new_val, Z.shiftl_mul_pow2 by lia. Qed.

Lemma rshift_val w x y :
  word w x → 0 ≤ y → (val w x >> val w y)%claripy = val w ((to_signed w x / 2 ^ y) mod 2 ^ w).
Proof.
  intros [Hw Hx] Hy. unfold rshift. method. rewrite signed_spec by (try (split; cbn); cbn; lia).
  by rewrite bind_Ok, py_shr_nonneg, bind_Ok, new_val, Z.shiftr_div_pow2 by lia.
Qed.

Lemma LShR_val w x y : word w x → 0 ≤ y → LShR (val w x) (val w y) = val w (x / 2 ^ y).
Proof.
  intros [Hw Hx] Hy. unfold LShR. method. rewrite py_shr_nonneg, bind_Ok, new_val, Z.shiftr_div_pow2 by lia.
  pose proof (pow2_pos y Hy). rewrite word_small; [done|]. split; [done|]. split; [apply Z.div_pos; lia|].
  apply Z.div_lt_upper_bound; nia.
Qed.

Lemma invert_val w x : word w x → invert (val w x) = val w (2 ^ w - 1 - x).
Proof.
  intros [Hw Hx]. unfold invert, op1. cbn. unfold __invert__. cbn. rewrite new_val by lia. do 3 f_equal.
  unfold BVV.mod_. cbn. rewrite (lnot_full w x), ones_pow2 by lia. rewrite <-(lnot_full w x) by lia. apply Z.mod_small. lia.
Qed.

Lemma ULT_val w x y : 1 ≤ w → ULT (val w x) (val w y) = Ok (x <? y).
Proof. intros. unfold ULT. by method. Qed.

Lemma ULE_val w x y : 1 ≤ w → ULE (val w x) (val w y) = Ok (x <=? y).
Proof. intros. unfold ULE. by method. Qed.

Lemma UGT_val w x y : 1 ≤ w → UGT (val w x) (val w y) = Ok (y <? x).
Proof. intros. unfold UGT. by method. Qed.

Lemma UGE_val w x y : 1 ≤ w → UGE (val w x) (val w y) = Ok (y <=? x).
Proof. intros. unfold UGE. by method. Qed.

Ltac signed_method o :=
  intros Hx Hy; pose proof Hx as [Hw _]; unfold o; method; by rewrite !signed_spec by (done || by apply word_wf).

Lemma SLT_val w x y : word w x → word w y → SLT (val w x) (val w y) = Ok (to_signed w x <? to_signed w y).
Proof. signed_method SLT. Qed.

Lemma SLE_val w x y : word w x → word w y → SLE (val w x) (val w y) = Ok (to_signed w x <=? to_signed w y).
Proof. signed_method SLE. Qed.

Lemma SGT_val w x y : word w x → word w y → SGT (val w x) (val w y) = Ok (to_signed w y <? to_signed w x).
Proof. signed_method SGT. Qed.

Lemma SGE_val w x y : word w x → word w y → SGE (val w x) (val w y) = Ok (to_signed w y <=? to_signed w x).
Proof. signed_method SGE. Qed.

Lemma eq_val w x y : (val w x == val w y)%claripy = Ok (x =? y).
Proof. unfold eq, op, __eq__. cbn. unfold compare_bits_0_length. cbn. by rewrite Z.eqb_refl. Qed.

Lemma ne_val w x y : (val w x != val w y)%claripy = Ok (negb (x =? y)).
Proof. unfold ne, op, __ne__. cbn. unfold compare_bits_0_length. cbn. by rewrite Z.eqb_refl. Qed.

Lemma If_val w c x y : If (Ok c) (val w x) (val w y) = val w (if c then x else y).
Proof. unfold If. cbn. rewrite Z.eqb_refl. cbn. by destruct c. Qed.

Lemma Extract_val hi lo w x :
  0 ≤ lo ≤ hi + 1 → Extract hi lo (val w x) = val (hi + 1 - lo) ((x / 2 ^ lo) mod 2 ^ (hi + 1 - lo)).
Proof. intros. unfold Extract, op1. cbn. by rewrite BVV.Extract_spec by lia. Qed.

(** The low part of a word. *)
Lemma low_val n w x : 0 ≤ n → Extract (n - 1) 0 (val w x) = val n (x mod 2 ^ n).
Proof. intros. rewrite Extract_val by lia. rewrite Z.div_1_r. by replace (n - 1 + 1 - 0) with n by lia. Qed.

Lemma bit_val i w x : 0 ≤ i → bit i (val w x) = val 1 (Z.b2z (Z.testbit x i)).
Proof.
  intros. unfold bit. rewrite Extract_val by lia. replace (i + 1 - i) with 1 by lia. do 3 f_equal.
  by rewrite Z.testbit_spec' by lia.
Qed.

Lemma zero_extend_val n w x : word w x → 0 ≤ n → zero_extend n (val w x) = val (w + n) x.
Proof.
  intros Hx Hn. unfold zero_extend, op1. cbn. unfold ZeroExt. cbn. rewrite new_val by (destruct Hx; lia).
  rewrite word_small; [done|]. apply (word_wider w); [done|lia].
Qed.

Lemma sign_extend_val n w x :
  word w x → 0 ≤ n → sign_extend n (val w x) = val (w + n) (to_signed w x mod 2 ^ (w + n)).
Proof.
  intros Hx Hn. unfold sign_extend, op1. cbn. unfold SignExt. rewrite signed_spec by (by apply word_wf || apply Hx).
  cbn. apply new_val. destruct Hx. lia.
Qed.

Lemma Concat_val w1 w2 x y :
  0 ≤ w1 → 0 ≤ w2 → 0 ≤ x < 2 ^ w1 → 0 ≤ y < 2 ^ w2 → Concat [val w1 x; val w2 y] = val (w1 + w2) (x * 2 ^ w2 + y).
Proof.
  intros. change (Concat _) with (Bv <$> BVV.Concat [mkBVV x w1; mkBVV y w2]).
  by rewrite Concat2_spec by (split; cbn; lia).
Qed.

Lemma concrete_value_val w x : concrete_value (val w x) = Ok x.
Proof. done. Qed.

Lemma op_bv_int_r f w x n : 1 ≤ w → op_bv f (val w x) (int n) = op_bv f (val w x) (val w (n mod 2 ^ w)).
Proof. intros. unfold op_bv. by rewrite op_int_r. Qed.

Lemma op_bv_int_l f w x n : 1 ≤ w → op_bv f (int n) (val w x) = op_bv f (val w (n mod 2 ^ w)) (val w x).
Proof. intros. unfold op_bv. by rewrite op_int_l. Qed.

(** [ints] turns integer arguments into vectors; [evaluate] evaluates terms,
    with [word] for the side conditions. *)
Ltac ints :=
  repeat match goal with
    | |- context [?o (val ?w ?x) (int ?n)] =>
        let H := fresh in
        assert (o (val w x) (int n) = o (val w x) (val w (n mod 2 ^ w))) as H
          by first [refine (op_bv_int_r _ w x n _); lia | refine (op_int_r _ w x n _); lia];
        rewrite H; clear H
    | |- context [?o (int ?n) (val ?w ?x)] =>
        let H := fresh in
        assert (o (int n) (val w x) = o (val w (n mod 2 ^ w)) (val w x)) as H
          by first [refine (op_bv_int_l _ w x n _); lia | refine (op_int_l _ w x n _); lia];
        rewrite H; clear H
    end.

Ltac word_side := first [assumption | lia | solve [eauto 8 with word]].

Ltac evaluate1 :=
  first
    [ rewrite BVV_val by lia | rewrite add_val by lia | rewrite sub_val by lia | rewrite mul_val by lia
    | rewrite xor_val by word_side | rewrite and_val by word_side | rewrite or_val by word_side
    | rewrite lshift_val by word_side | rewrite rshift_val by word_side | rewrite LShR_val by word_side
    | rewrite invert_val by word_side
    | rewrite eq_val | rewrite ne_val | rewrite If_val
    | rewrite ULT_val by lia | rewrite ULE_val by lia | rewrite UGT_val by lia | rewrite UGE_val by lia
    | rewrite SLT_val by word_side | rewrite SLE_val by word_side
    | rewrite SGT_val by word_side | rewrite SGE_val by word_side
    | rewrite zero_extend_val by word_side | rewrite sign_extend_val by word_side
    | rewrite bit_val by lia ].

Ltac evaluate := repeat (evaluate1 || ints).

Example operators : (BVV 200 8 + #100 ^' #1)%claripy = Ok (Bv (mkBVV 45 8)).
Proof. reflexivity. Qed.
End Claripy.
