(* ===== verification/CCall.v ===== *)
(** * VEX condition codes: [angr/engines/vex/claripy/ccall.py], x86 and amd64

    VEX leaves the flags of x86, amd64, ARM and AArch64 unevaluated: it stores
    the operation that set them and its operands ([cc_op], [cc_dep1],
    [cc_dep2], [cc_ndep]), and calls a helper where a flag or a condition is
    read.  This file has angr's helpers for x86 and amd64, over concrete
    arguments (component [Claripy]); the parameter [state], which they pass on
    and do not use, is left out.  [CCallArm] has the ARM helpers, [CCallFacts]
    and [CCallArmFacts] the theorems. *)

From Stdlib Require Import ZArith Lia Bool String.
From stdpp Require Import base tactics list numbers strings.
From S2P Require Import Prelude Bvv Claripy.

Module CCall.
Import Bvv.BVV(operand, Bv, Num) Claripy.Claripy Claripy.Claripy.Notations.
Open Scope claripy_scope.
Open Scope string_scope.
Open Scope Z_scope.

(** ** Helpers *)

Definition calc_paritybit (p : term) : term :=
  n ← len p;
  let p_part := if 7 <? n then p.[7 : 0] else p in
  size ← len p_part;
  foldl (λ b i, b ^' p_part.[i])%claripy (BVV 1 1) (py_range 0 size).

Definition _cond_flag (condition : result bool) : term := If condition (BVV 1 1) (BVV 0 1).

Definition calc_zerobit (p : term) : term := _cond_flag (p == #0)%claripy.

Definition boolean_extend (O : term → term → result bool) (a b : term) (size : Z) : term :=
  If (O a b) (BVV 1 size) (BVV 0 size).

(** [op_concretize] of an integer or of a concrete vector. *)
Definition op_concretize (op : term) : result Z := concrete_value op.

(** ** The tables of the two platforms *)

Inductive Platform := AMD64 | X86.

Definition size (platform : Platform) : Z := match platform with AMD64 => 64 | X86 => 32 end.

(** The names of the conditions; [CondAlways] is an x86 one. *)
Inductive CondName :=
  | CondO | CondNO | CondB | CondNB | CondZ | CondNZ | CondBE | CondNBE | CondS | CondNS | CondP | CondNP
  | CondL | CondNL | CondLE | CondNLE | CondAlways.

#[export] Instance CondName_eq_dec : EqDecision CondName.
Proof. solve_decision. Defined.

(** [data[platform]["CondTypes"]], in the order of the dictionary. *)
Definition CondTypes (platform : Platform) : list (CondName * Z) :=
  [(CondO, 0); (CondNO, 1); (CondB, 2); (CondNB, 3); (CondZ, 4); (CondNZ, 5); (CondBE, 6); (CondNBE, 7);
   (CondS, 8); (CondNS, 9); (CondP, 10); (CondNP, 11); (CondL, 12); (CondNL, 13); (CondLE, 14); (CondNLE, 15)] ++
  match platform with AMD64 => [] | X86 => [(CondAlways, 16)] end.

(** The first name whose number is [v], as the loop of
    [pc_calculate_condition_simple] finds it. *)
Definition cond_name (platform : Platform) (v : Z) : option CondName :=
  fst <$> List.find (λ p, p.2 =? v) (CondTypes platform).

Definition G_CC_SHIFT_O (platform : Platform) : Z := 11.
Definition G_CC_SHIFT_S (platform : Platform) : Z := 7.
Definition G_CC_SHIFT_Z (platform : Platform) : Z := 6.
Definition G_CC_SHIFT_A (platform : Platform) : Z := 4.
Definition G_CC_SHIFT_C (platform : Platform) : Z := 0.
Definition G_CC_SHIFT_P (platform : Platform) : Z := 2.

Definition G_CC_MASK_O (platform : Platform) : Z := Z.shiftl 1 (G_CC_SHIFT_O platform).
Definition G_CC_MASK_S (platform : Platform) : Z := Z.shiftl 1 (G_CC_SHIFT_S platform).
Definition G_CC_MASK_Z (platform : Platform) : Z := Z.shiftl 1 (G_CC_SHIFT_Z platform).
Definition G_CC_MASK_A (platform : Platform) : Z := Z.shiftl 1 (G_CC_SHIFT_A platform).
Definition G_CC_MASK_C (platform : Platform) : Z := Z.shiftl 1 (G_CC_SHIFT_C platform).
Definition G_CC_MASK_P (platform : Platform) : Z := Z.shiftl 1 (G_CC_SHIFT_P platform).

Definition OpTypes_AMD64 : list (string * option Z) :=
  [("G_CC_OP_COPY", Some 0); ("G_CC_OP_ADDB", Some 1); ("G_CC_OP_ADDW", Some 2); ("G_CC_OP_ADDL", Some 3);
   ("G_CC_OP_ADDQ", Some 4); ("G_CC_OP_SUBB", Some 5); ("G_CC_OP_SUBW", Some 6); ("G_CC_OP_SUBL", Some 7);
   ("G_CC_OP_SUBQ", Some 8); ("G_CC_OP_ADCB", Some 9); ("G_CC_OP_ADCW", Some 10); ("G_CC_OP_ADCL", Some 11);
   ("G_CC_OP_ADCQ", Some 12); ("G_CC_OP_SBBB", Some 13); ("G_CC_OP_SBBW", Some 14); ("G_CC_OP_SBBL", Some 15);
   ("G_CC_OP_SBBQ", Some 16); ("G_CC_OP_LOGICB", Some 17); ("G_CC_OP_LOGICW", Some 18);
   ("G_CC_OP_LOGICL", Some 19); ("G_CC_OP_LOGICQ", Some 20); ("G_CC_OP_INCB", Some 21);
   ("G_CC_OP_INCW", Some 22); ("G_CC_OP_INCL", Some 23); ("G_CC_OP_INCQ", Some 24); ("G_CC_OP_DECB", Some 25);
   ("G_CC_OP_DECW", Some 26); ("G_CC_OP_DECL", Some 27); ("G_CC_OP_DECQ", Some 28); ("G_CC_OP_SHLB", Some 29);
   ("G_CC_OP_SHLW", Some 30); ("G_CC_OP_SHLL", Some 31); ("G_CC_OP_SHLQ", Some 32); ("G_CC_OP_SHRB", Some 33);
   ("G_CC_OP_SHRW", Some 34); ("G_CC_OP_SHRL", Some 35); ("G_CC_OP_SHRQ", Some 36); ("G_CC_OP_ROLB", Some 37);
   ("G_CC_OP_ROLW", Some 38); ("G_CC_OP_ROLL", Some 39); ("G_CC_OP_ROLQ", Some 40); ("G_CC_OP_RORB", Some 41);
   ("G_CC_OP_RORW", Some 42); ("G_CC_OP_RORL", Some 43); ("G_CC_OP_RORQ", Some 44); ("G_CC_OP_UMULB", Some 45);
   ("G_CC_OP_UMULW", Some 46); ("G_CC_OP_UMULL", Some 47); ("G_CC_OP_UMULQ", Some 48);
   ("G_CC_OP_SMULB", Some 49); ("G_CC_OP_SMULW", Some 50); ("G_CC_OP_SMULL", Some 51);
   ("G_CC_OP_SMULQ", Some 52); ("G_CC_OP_ANDN32", Some 53); ("G_CC_OP_ANDN64", Some 54);
   ("G_CC_OP_BLSI32", Some 55); ("G_CC_OP_BLSI64", Some 56); ("G_CC_OP_BLSMSK32", Some 57);
   ("G_CC_OP_BLSMSK64", Some 58); ("G_CC_OP_BLSR32", Some 59); ("G_CC_OP_BLSR64", Some 60);
   ("G_CC_OP_ADCXL", Some 61); ("G_CC_OP_ADCXQ", Some 62); ("G_CC_OP_ADOXL", Some 63);
   ("G_CC_OP_ADOXQ", Some 64); ("G_CC_OP_NUMBER", Some 65)].

(** [None] marks an operation that x86 does not have. *)
Definition OpTypes_X86 : list (string * option Z) :=
  [("G_CC_OP_COPY", Some 0); ("G_CC_OP_ADDB", Some 1); ("G_CC_OP_ADDW", Some 2); ("G_CC_OP_ADDL", Some 3);
   ("G_CC_OP_SUBB", Some 4); ("G_CC_OP_SUBW", Some 5); ("G_CC_OP_SUBL", Some 6); ("G_CC_OP_ADCB", Some 7);
   ("G_CC_OP_ADCW", Some 8); ("G_CC_OP_ADCL", Some 9); ("G_CC_OP_SBBB", Some 10); ("G_CC_OP_SBBW", Some 11);
   ("G_CC_OP_SBBL", Some 12); ("G_CC_OP_LOGICB", Some 13); ("G_CC_OP_LOGICW", Some 14);
   ("G_CC_OP_LOGICL", Some 15); ("G_CC_OP_INCB", Some 16); ("G_CC_OP_INCW", Some 17);
   ("G_CC_OP_INCL", Some 18); ("G_CC_OP_DECB", Some 19); ("G_CC_OP_DECW", Some 20); ("G_CC_OP_DECL", Some 21);
   ("G_CC_OP_SHLB", Some 22); ("G_CC_OP_SHLW", Some 23); ("G_CC_OP_SHLL", Some 24); ("G_CC_OP_SHRB", Some 25);
   ("G_CC_OP_SHRW", Some 26); ("G_CC_OP_SHRL", Some 27); ("G_CC_OP_ROLB", Some 28); ("G_CC_OP_ROLW", Some 29);
   ("G_CC_OP_ROLL", Some 30); ("G_CC_OP_RORB", Some 31); ("G_CC_OP_RORW", Some 32); ("G_CC_OP_RORL", Some 33);
   ("G_CC_OP_UMULB", Some 34); ("G_CC_OP_UMULW", Some 35); ("G_CC_OP_UMULL", Some 36);
   ("G_CC_OP_SMULB", Some 37); ("G_CC_OP_SMULW", Some 38); ("G_CC_OP_SMULL", Some 39);
   ("G_CC_OP_NUMBER", Some 40); ("G_CC_OP_SMULQ", None); ("G_CC_OP_UMULQ", None); ("G_CC_OP_RORQ", None);
   ("G_CC_OP_ROLQ", None); ("G_CC_OP_SHRQ", None); ("G_CC_OP_SHLQ", None); ("G_CC_OP_DECQ", None);
   ("G_CC_OP_INCQ", None); ("G_CC_OP_LOGICQ", None); ("G_CC_OP_SBBQ", None); ("G_CC_OP_ADCQ", None);
   ("G_CC_OP_SUBQ", None); ("G_CC_OP_ADDQ", None)].

(** [data[platform]["OpTypes"]]. *)
Definition OpTypes (platform : Platform) : list (string * option Z) :=
  match platform with AMD64 => OpTypes_AMD64 | X86 => OpTypes_X86 end.

(** [data[platform]["OpTypes"][name]] for a name that is in the table. *)
Definition op_type (platform : Platform) (name : string) : option Z :=
  p ← List.find (λ p, (p.1 =? name)%string) (OpTypes platform); p.2.

(** [data_inverted[platform]["OpTypes"][op]]: the last name with this number. *)
Definition _invert (platform : Platform) (op : Z) : result string :=
  match List.find (λ p, bool_decide (p.2 = Some op)) (reverse (OpTypes platform)) with
  | Some (name, _) => Ok name
  | None => Err (KeyError op)
  end.

Definition endswith (s suffix : string) : bool :=
  (String.substring (String.length s - String.length suffix) (String.length suffix) s =? suffix)%string
  && (String.length suffix <=? String.length s)%nat.

Definition _get_nbits (cc_str : string) : option Z :=
  if endswith cc_str "B" then Some 8
  else if endswith cc_str "W" then Some 16
  else if endswith cc_str "L" then Some 32
  else if endswith cc_str "Q" then Some 64
  else if endswith cc_str "32" then Some 32
  else if endswith cc_str "64" then Some 64
  else None.

(** ** The flags an operation sets *)

Record flags := mkFlags { cf : operand; pf : operand; af : operand; zf : operand; sf : operand; of_ : operand }.

Definition pc_make_rdata (cf pf af zf sf of_ : term) : result flags :=
  cf ← cf; pf ← pf; af ← af; zf ← zf; sf ← sf; of_ ← of_; Ok (mkFlags cf pf af zf sf of_).

(** [_concat_flags(nbits, flags_vec)]; the pairs are (offset, bit). *)
Definition _concat_flags (nbits : Z) (flags_vec : list (Z * term)) : term :=
  result_ ← foldM (λ result_ '(offset, bit),
    n ← len (Ok result_);
    let current_position := nbits - 1 - n in
    Concat [Ok result_; BVV 0 (current_position - offset); bit]) (Bv (BVV.mkBVV 0 0)) flags_vec;
  n ← len (Ok result_);
  Concat [Ok result_; BVV 0 (nbits - n)].

(** The offsets are distinct, so [vec.sort(reverse=True)] orders by offset. *)
Definition pc_make_rdata_if_necessary (nbits : Z) (f : flags) (platform : Platform) : term :=
  let vec : list (Z * term) :=
    [(G_CC_SHIFT_C platform, Ok (cf f)); (G_CC_SHIFT_P platform, Ok (pf f)); (G_CC_SHIFT_A platform, Ok (af f));
     (G_CC_SHIFT_Z platform, Ok (zf f)); (G_CC_SHIFT_S platform, Ok (sf f)); (G_CC_SHIFT_O platform, Ok (of_ f))] in
  _concat_flags nbits (py_sorted (λ p, - p.1) vec).

Section Actions.
Context (platform : Platform).

(** A flag of [cc_ndep], kept as it was. *)
Definition old_flag (cc_ndep : term) (mask shift : Z) : term := ((cc_ndep & #mask)%claripy).[shift].

Definition pc_actions_ADD (nbits : Z) (arg_l arg_r cc_ndep : term) : result flags :=
  let data_mask := BVV (2 ^ nbits - 1) nbits in
  let res := (arg_l + arg_r)%claripy in
  let cf := If (ULT res arg_l) (BVV 1 1) (BVV 0 1) in
  let pf := calc_paritybit res in
  let af := ((res ^' arg_l ^' arg_r)%claripy).[G_CC_SHIFT_A platform] in
  let zf := calc_zerobit res in
  let sf := res.[nbits - 1 : nbits - 1] in
  let of_ := (((arg_l ^' arg_r ^' data_mask) & (arg_l ^' res))%claripy).[nbits - 1 : nbits - 1] in
  pc_make_rdata cf pf af zf sf of_.

Definition pc_actions_SUB (nbits : Z) (arg_l arg_r cc_ndep : term) : result flags :=
  let res := (arg_l - arg_r)%claripy in
  let cf := If (ULT arg_l arg_r) (BVV 1 1) (BVV 0 1) in
  let pf := calc_paritybit res in
  let af := ((res ^' arg_l ^' arg_r)%claripy).[G_CC_SHIFT_A platform] in
  let zf := calc_zerobit res in
  let sf := res.[nbits - 1 : nbits - 1] in
  let of_ := (((arg_l ^' arg_r) & (arg_l ^' res))%claripy).[nbits - 1 : nbits - 1] in
  pc_make_rdata cf pf af zf sf of_.

Definition pc_actions_LOGIC (nbits : Z) (arg_l arg_r cc_ndep : term) : result flags :=
  pc_make_rdata (BVV 0 1) (calc_paritybit arg_l) (BVV 0 1) (calc_zerobit arg_l) (arg_l.[nbits - 1]) (BVV 0 1).

Definition pc_actions_DEC (nbits : Z) (res _arg cc_ndep : term) : result flags :=
  let arg_l := (res + #1)%claripy in
  let cf := old_flag cc_ndep (G_CC_MASK_C platform) (G_CC_SHIFT_C platform) in
  let pf := calc_paritybit res in
  let af := ((res ^' arg_l ^' #1)%claripy).[G_CC_SHIFT_A platform] in
  let zf := calc_zerobit res in
  let sf := res.[nbits - 1] in
  let of_ := If (arg_l == #(Z.shiftl 1 (nbits - 1)))%claripy (BVV 1 1) (BVV 0 1) in
  pc_make_rdata cf pf af zf sf of_.

Definition pc_actions_ADC (nbits : Z) (cc_dep1 cc_dep2 cc_ndep : term) : result flags :=
  let old_c := (cc_ndep & #(G_CC_MASK_C platform))%claripy in
  let arg_l := cc_dep1 in
  let arg_r := (cc_dep2 ^' old_c)%claripy in
  let res := ((arg_l + arg_r) + old_c)%claripy in
  let cf := (If (old_c != #0) (If (res <= arg_l) (BVV 1 1) (BVV 0 1)) (If (res < arg_l) (BVV 1 1) (BVV 0 1)))%claripy in
  let pf := calc_paritybit res in
  let af := ((res ^' arg_l ^' arg_r)%claripy).[G_CC_SHIFT_A platform] in
  let zf := calc_zerobit res in
  let sf := res.[nbits - 1] in
  let of_ := (((arg_l ^' arg_r ^' #(-1)) & (arg_l ^' res))%claripy).[nbits - 1] in
  pc_make_rdata cf pf af zf sf of_.

Definition pc_actions_ADCX (nbits : Z) (cc_dep1 cc_dep2 cc_ndep : term) (is_adc : bool) : result flags :=
  let pf := old_flag cc_ndep (G_CC_MASK_P platform) (G_CC_SHIFT_P platform) in
  let af := old_flag cc_ndep (G_CC_MASK_A platform) (G_CC_SHIFT_A platform) in
  let zf := old_flag cc_ndep (G_CC_MASK_Z platform) (G_CC_SHIFT_Z platform) in
  let sf := old_flag cc_ndep (G_CC_MASK_S platform) (G_CC_SHIFT_S platform) in
  let carry :=
    (if is_adc then LShR cc_ndep #(G_CC_SHIFT_C platform) & #1
     else LShR cc_ndep #(G_CC_SHIFT_O platform) & #1)%claripy in
  let kept :=
    if is_adc then old_flag cc_ndep (G_CC_MASK_O platform) (G_CC_SHIFT_O platform)
    else old_flag cc_ndep (G_CC_MASK_C platform) (G_CC_SHIFT_C platform) in
  let arg_l := cc_dep1 in
  let arg_r := (cc_dep2 ^' carry)%claripy in
  let res := ((arg_l + arg_r) + carry)%claripy in
  let carry :=
    (If (carry != #0) (If (res <= arg_l) (BVV 1 1) (BVV 0 1)) (If (res < arg_l) (BVV 1 1) (BVV 0 1)))%claripy in
  if is_adc then pc_make_rdata carry pf af zf sf kept else pc_make_rdata kept pf af zf sf carry.

Definition pc_actions_ANDN (nbits : Z) (cc_dep1 cc_dep2 cc_ndep : term) : result flags :=
  pc_make_rdata (BVV 0 1) (BVV 0 1) (BVV 0 1) (_cond_flag (cc_dep1 == #0)%claripy) (cc_dep1.[nbits - 1]) (BVV 0 1).

Definition pc_actions_BLSI (nbits : Z) (cc_dep1 cc_dep2 cc_ndep : term) : result flags :=
  pc_make_rdata (_cond_flag (cc_dep2 != #0)%claripy) (BVV 0 1) (BVV 0 1)
    (_cond_flag (cc_dep1 == #0)%claripy) (cc_dep1.[nbits - 1]) (BVV 0 1).

Definition pc_actions_BLSMSK (nbits : Z) (cc_dep1 cc_dep2 cc_ndep : term) : result flags :=
  pc_make_rdata (_cond_flag (cc_dep2 == #0)%claripy) (BVV 0 1) (BVV 0 1) (BVV 0 1) (cc_dep1.[nbits - 1]) (BVV 0 1).

Definition pc_actions_BLSR (nbits : Z) (cc_dep1 cc_dep2 cc_ndep : term) : result flags :=
  pc_make_rdata (_cond_flag (cc_dep2 == #0)%claripy) (BVV 0 1) (BVV 0 1)
    (_cond_flag (cc_dep1 == #0)%claripy) (cc_dep1.[nbits - 1]) (BVV 0 1).

Definition pc_actions_SBB (nbits : Z) (cc_dep1 cc_dep2 cc_ndep : term) : result flags :=
  let old_c := zero_extend (nbits - 1) (cc_ndep.[G_CC_SHIFT_C platform]) in
  let arg_l := cc_dep1 in
  let arg_r := (cc_dep2 ^' old_c)%claripy in
  let res := ((arg_l - arg_r) - old_c)%claripy in
  let cf_c := If (ULE arg_l arg_r) (BVV 1 1) (BVV 0 1) in
  let cf_noc := If (ULT arg_l arg_r) (BVV 1 1) (BVV 0 1) in
  let cf := If (old_c == #1)%claripy cf_c cf_noc in
  let pf := calc_paritybit res in
  let af := ((res ^' arg_l ^' arg_r)%claripy).[G_CC_SHIFT_A platform] in
  let zf := calc_zerobit res in
  let sf := res.[nbits - 1] in
  let of_ := (((arg_l ^' arg_r) & (arg_l ^' res))%claripy).[nbits - 1] in
  pc_make_rdata cf pf af zf sf of_.

Definition pc_actions_INC (nbits : Z) (res _arg cc_ndep : term) : result flags :=
  let arg_l := (res - #1)%claripy in
  let cf := old_flag cc_ndep (G_CC_MASK_C platform) (G_CC_SHIFT_C platform) in
  let pf := calc_paritybit res in
  let af := ((res ^' arg_l ^' #1)%claripy).[G_CC_SHIFT_A platform] in
  let zf := calc_zerobit res in
  let sf := res.[nbits - 1] in
  let of_ := If (res == #(Z.shiftl 1 (nbits - 1)))%claripy (BVV 1 1) (BVV 0 1) in
  pc_make_rdata cf pf af zf sf of_.

Definition pc_actions_SHL (nbits : Z) (remaining shifted cc_ndep : term) : result flags :=
  let cf := shifted.[nbits - 1] in
  let sf := remaining.[nbits - 1] in
  pc_make_rdata cf (calc_paritybit (remaining.[7 : 0])) (BVV 0 1) (calc_zerobit remaining) sf
    (((sf ^' cf)%claripy).[0]).

Definition pc_actions_SHR (nbits : Z) (remaining shifted cc_ndep : term) : result flags :=
  let cf := If ((shifted & #1) != #0)%claripy (BVV 1 1) (BVV 0 1) in
  pc_make_rdata cf (calc_paritybit (remaining.[7 : 0])) (BVV 0 1) (calc_zerobit remaining) (remaining.[nbits - 1])
    (((remaining.[nbits - 1] ^' shifted.[nbits - 1])%claripy).[0]).

Definition pc_actions_ROL (nbits : Z) (res _arg cc_ndep : term) : result flags :=
  pc_make_rdata (res.[0])
    (old_flag cc_ndep (G_CC_MASK_P platform) (G_CC_SHIFT_P platform))
    (old_flag cc_ndep (G_CC_MASK_A platform) (G_CC_SHIFT_A platform))
    (old_flag cc_ndep (G_CC_MASK_Z platform) (G_CC_SHIFT_Z platform))
    (old_flag cc_ndep (G_CC_MASK_S platform) (G_CC_SHIFT_S platform))
    (((LShR res #(nbits - 1) ^' res)%claripy).[0]).

Definition pc_actions_ROR (nbits : Z) (res _arg cc_ndep : term) : result flags :=
  pc_make_rdata (res.[nbits - 1])
    (old_flag cc_ndep (G_CC_MASK_P platform) (G_CC_SHIFT_P platform))
    (old_flag cc_ndep (G_CC_MASK_A platform) (G_CC_SHIFT_A platform))
    (old_flag cc_ndep (G_CC_MASK_Z platform) (G_CC_SHIFT_Z platform))
    (old_flag cc_ndep (G_CC_MASK_S platform) (G_CC_SHIFT_S platform))
    (res.[nbits - 1] ^' res.[nbits - 2])%claripy.

Definition pc_actions_UMUL (nbits : Z) (cc_dep1 cc_dep2 cc_ndep : term) : result flags :=
  let rr := (zero_extend nbits cc_dep1 * zero_extend nbits cc_dep2)%claripy in
  let hi := rr.[2 * nbits - 1 : nbits] in
  let lo := rr.[nbits - 1 : 0] in
  let cf := If (hi != #0)%claripy (BVV 1 1) (BVV 0 1) in
  pc_make_rdata cf (calc_paritybit lo) (BVV 0 1) (calc_zerobit lo) (lo.[nbits - 1]) cf.

Definition pc_actions_UMULQ : result flags := Err SimCCallError.

Definition pc_actions_SMUL (nbits : Z) (cc_dep1 cc_dep2 cc_ndep : term) : result flags :=
  let ir := (sign_extend nbits cc_dep1 * sign_extend nbits cc_dep2)%claripy in
  let hi := ir.[2 * nbits - 1 : nbits] in
  let lo := ir.[nbits - 1 : 0] in
  let cf := If (hi != (lo >> #(nbits - 1)))%claripy (BVV 1 1) (BVV 0 1) in
  pc_make_rdata cf (calc_paritybit lo) (BVV 0 1) (calc_zerobit lo) (lo.[nbits - 1]) cf.

Definition pc_actions_SMULQ : result flags := Err SimCCallError.

(** ** The dispatch on the operation *)

(** What [pc_calculate_rdata_all_WRK] returns: the six flags, or a flags word. *)
Inductive rdata := Tuple (f : flags) | Word (t : operand).

Definition in_names (s : string) (l : list string) : bool := existsb (String.eqb s) l.

Definition pc_calculate_rdata_all_WRK (cc_op cc_dep1_formal cc_dep2_formal cc_ndep_formal : term) : result rdata :=
  cc_op ← op_concretize cc_op;
  if bool_decide (op_type platform "G_CC_OP_COPY" = Some cc_op) then
    Word <$> (cc_dep1_formal &
      #(Z.lor (Z.lor (Z.lor (Z.lor (Z.lor (G_CC_MASK_O platform) (G_CC_MASK_S platform)) (G_CC_MASK_Z platform))
        (G_CC_MASK_A platform)) (G_CC_MASK_C platform)) (G_CC_MASK_P platform)))%claripy
  else
    cc_str ← _invert platform cc_op;
    nbits ← match _get_nbits cc_str with Some n => Ok n | None => Err TypeError end;
    d1 ← cc_dep1_formal.[nbits - 1 : 0];
    d2 ← cc_dep2_formal.[nbits - 1 : 0];
    nd ← cc_ndep_formal.[nbits - 1 : 0];
    let run (f : Z → term → term → term → result flags) := Tuple <$> f nbits (Ok d1) (Ok d2) (Ok nd) in
    let among l := in_names cc_str l in
    if among ["G_CC_OP_ADDB"; "G_CC_OP_ADDW"; "G_CC_OP_ADDL"; "G_CC_OP_ADDQ"] then run pc_actions_ADD
    else if among ["G_CC_OP_ADCB"; "G_CC_OP_ADCW"; "G_CC_OP_ADCL"; "G_CC_OP_ADCQ"] then run pc_actions_ADC
    else if among ["G_CC_OP_SUBB"; "G_CC_OP_SUBW"; "G_CC_OP_SUBL"; "G_CC_OP_SUBQ"] then run pc_actions_SUB
    else if among ["G_CC_OP_SBBB"; "G_CC_OP_SBBW"; "G_CC_OP_SBBL"; "G_CC_OP_SBBQ"] then run pc_actions_SBB
    else if among ["G_CC_OP_LOGICB"; "G_CC_OP_LOGICW"; "G_CC_OP_LOGICL"; "G_CC_OP_LOGICQ"] then run pc_actions_LOGIC
    else if among ["G_CC_OP_INCB"; "G_CC_OP_INCW"; "G_CC_OP_INCL"; "G_CC_OP_INCQ"] then run pc_actions_INC
    else if among ["G_CC_OP_DECB"; "G_CC_OP_DECW"; "G_CC_OP_DECL"; "G_CC_OP_DECQ"] then run pc_actions_DEC
    else if among ["G_CC_OP_SHLB"; "G_CC_OP_SHLW"; "G_CC_OP_SHLL"; "G_CC_OP_SHLQ"] then run pc_actions_SHL
    else if among ["G_CC_OP_SHRB"; "G_CC_OP_SHRW"; "G_CC_OP_SHRL"; "G_CC_OP_SHRQ"] then run pc_actions_SHR
    else if among ["G_CC_OP_ROLB"; "G_CC_OP_ROLW"; "G_CC_OP_ROLL"; "G_CC_OP_ROLQ"] then run pc_actions_ROL
    else if among ["G_CC_OP_RORB"; "G_CC_OP_RORW"; "G_CC_OP_RORL"; "G_CC_OP_RORQ"] then run pc_actions_ROR
    else if among ["G_CC_OP_UMULB"; "G_CC_OP_UMULW"; "G_CC_OP_UMULL"; "G_CC_OP_UMULQ"] then run pc_actions_UMUL
    else if among ["G_CC_OP_UMULQ"] then Tuple <$> pc_actions_UMULQ
    else if among ["G_CC_OP_SMULB"; "G_CC_OP_SMULW"; "G_CC_OP_SMULL"; "G_CC_OP_SMULQ"] then run pc_actions_SMUL
    else if among ["G_CC_OP_SMULQ"] then Tuple <$> pc_actions_SMULQ
    else if among ["G_CC_OP_ANDN32"; "G_CC_OP_ANDN64"] then run pc_actions_ANDN
    else if among ["G_CC_OP_BLSI32"; "G_CC_OP_BLSI64"] then run pc_actions_BLSI
    else if among ["G_CC_OP_BLSMSK32"; "G_CC_OP_BLSMSK64"] then run pc_actions_BLSMSK
    else if among ["G_CC_OP_BLSR32"; "G_CC_OP_BLSR64"] then run pc_actions_BLSR
    else if among ["G_CC_OP_ADOXL"; "G_CC_OP_ADOXQ"] then run (λ n a b c, pc_actions_ADCX n a b c false)
    else if among ["G_CC_OP_ADCXL"; "G_CC_OP_ADCXQ"] then run (λ n a b c, pc_actions_ADCX n a b c true)
    else Err SimCCallError.

Definition pc_calculate_rdata_all (cc_op cc_dep1 cc_dep2 cc_ndep : term) : term :=
  rdata_all ← pc_calculate_rdata_all_WRK cc_op cc_dep1 cc_dep2 cc_ndep;
  match rdata_all with
  | Tuple f => pc_make_rdata_if_necessary (size platform) f platform
  | Word t => Ok t
  end.

(** Whether [v] is the number of one of two conditions. *)
Definition is_cond (v : Z) (a b : CondName) : bool :=
  match cond_name platform v with Some c => bool_decide (c = a ∨ c = b) | None => false end.

(** The combination of flags a condition stands for; [inv] inverts it. *)
Definition condition_of_flags (v : Z) (cf pf zf sf of_ : term) : term :=
  let inv := #(Z.land v 1) in
  if is_cond v CondO CondNO then (#1 & (inv ^' of_))%claripy
  else if is_cond v CondZ CondNZ then (#1 & (inv ^' zf))%claripy
  else if is_cond v CondB CondNB then (#1 & (inv ^' cf))%claripy
  else if is_cond v CondBE CondNBE then (#1 & (inv ^' (cf |' zf)))%claripy
  else if is_cond v CondS CondNS then (#1 & (inv ^' sf))%claripy
  else if is_cond v CondP CondNP then (#1 & (inv ^' pf))%claripy
  else if is_cond v CondL CondNL then (#1 & (inv ^' (sf ^' of_)))%claripy
  else if is_cond v CondLE CondNLE then (#1 & (inv ^' ((sf ^' of_) |' zf)))%claripy
  else Err SimCCallError.

Definition pc_calculate_condition (cond cc_op cc_dep1 cc_dep2 cc_ndep : term) : term :=
  rdata_all ← pc_calculate_rdata_all_WRK cc_op cc_dep1 cc_dep2 cc_ndep;
  v ← op_concretize cond;
  match rdata_all with
  | Tuple f =>
      r ← condition_of_flags v (Ok (cf f)) (Ok (pf f)) (Ok (zf f)) (Ok (sf f)) (Ok (of_ f));
      Concat [BVV 0 (size platform - 1); Ok r]
  | Word rdata =>
      let flag shift := LShR (Ok rdata) #shift in
      condition_of_flags v (flag (G_CC_SHIFT_C platform)) (flag (G_CC_SHIFT_P platform))
        (flag (G_CC_SHIFT_Z platform)) (flag (G_CC_SHIFT_S platform)) (flag (G_CC_SHIFT_O platform))
  end.

Definition pc_calculate_rdata_c (cc_op cc_dep1 cc_dep2 cc_ndep : term) : term :=
  cc_op ← op_concretize cc_op;
  if bool_decide (op_type platform "G_CC_OP_COPY" = Some cc_op) then
    (LShR cc_dep1 #(G_CC_SHIFT_C platform) & #1)%claripy
  else if existsb (λ name, bool_decide (op_type platform name = Some cc_op))
            ["G_CC_OP_LOGICQ"; "G_CC_OP_LOGICL"; "G_CC_OP_LOGICW"; "G_CC_OP_LOGICB"] then BVV 0 (size platform)
  else
    rdata_all ← pc_calculate_rdata_all_WRK (int cc_op) cc_dep1 cc_dep2 cc_ndep;
    match rdata_all with
    | Tuple f => Concat [BVV 0 (size platform - 1); (Ok (cf f) & #1)%claripy]
    | Word t => (LShR (Ok t) #(G_CC_SHIFT_C platform) & #1)%claripy
    end.

(** ** Simplified condition helpers *)

(** The functions [pc_actions_op_<op>] of the module. *)
Definition pc_actions_op (op : string) : option (term → term → term) :=
  if (op =? "SUB")%string then Some sub
  else if (op =? "DEC")%string then Some (λ arg_l _, (arg_l - #1)%claripy)
  else if (op =? "INC")%string then Some (λ arg_l _, (arg_l + #1)%claripy)
  else if (op =? "SHR")%string then Some rshift
  else if (op =? "SHL")%string then Some lshift
  else if (op =? "ADD")%string then Some add
  else if (op =? "LOGIC")%string then Some (λ arg_l _, arg_l)
  else None.

(** The functions [pc_actions_cond_<cond>]. *)
Definition pc_actions_cond (cond : CondName) : option (term → term) :=
  match cond with
  | CondZ => Some (λ cc_expr, _cond_flag (cc_expr == #0)%claripy)
  | CondNZ => Some (λ cc_expr, _cond_flag (cc_expr != #0)%claripy)
  | CondS => Some (λ cc_expr, _cond_flag (SLT cc_expr #0))
  | CondB => Some (λ cc_expr, _cond_flag (ULT cc_expr #0))
  | CondBE => Some (λ cc_expr, _cond_flag (ULE cc_expr #0))
  | CondNBE => Some (λ cc_expr, _cond_flag (UGT cc_expr #0))
  | CondL => Some (λ cc_expr, _cond_flag (SLT cc_expr #0))
  | CondLE => Some (λ cc_expr, _cond_flag (SLE cc_expr #0))
  | CondNLE => Some (λ cc_expr, _cond_flag (SGT cc_expr #0))
  | _ => None
  end.

(** The functions [pc_actions_SUB_<cond>], the only specialised ones. *)
Definition pc_actions_SUB_cond (cond : CondName) : option (term → term → term) :=
  match cond with
  | CondZ => Some (λ arg_l arg_r, _cond_flag (arg_l == arg_r)%claripy)
  | CondNZ => Some (λ arg_l arg_r, _cond_flag (arg_l != arg_r)%claripy)
  | CondB => Some (λ arg_l arg_r, _cond_flag (ULT arg_l arg_r))
  | CondBE => Some (λ arg_l arg_r, _cond_flag (ULE arg_l arg_r))
  | CondNBE => Some (λ arg_l arg_r, _cond_flag (UGT arg_l arg_r))
  | CondL => Some (λ arg_l arg_r, _cond_flag (SLT arg_l arg_r))
  | CondLE => Some (λ arg_l arg_r, _cond_flag (SLE arg_l arg_r))
  | CondNLE => Some (λ arg_l arg_r, _cond_flag (SGT arg_l arg_r))
  | _ => None
  end.

(** [globals()[f"pc_actions_{op}_{cond}"]]. *)
Definition specialised (op : string) (cond : option CondName) : option (term → term → term) :=
  c ← cond; if (op =? "SUB")%string then pc_actions_SUB_cond c else None.

Definition pc_calculate_condition_simple (cond cc_op cc_dep1 cc_dep2 cc_ndep : term) : term :=
  v ← op_concretize cond;
  cc_op ← op_concretize cc_op;
  if bool_decide (op_type platform "G_CC_OP_COPY" = Some cc_op) then Err SimCCallError
  else if bool_decide (op_type platform "G_CC_OP_NUMBER" = Some cc_op) then Err SimCCallError
  else
    name ← _invert platform cc_op;
    nbits ← match _get_nbits name with Some n => Ok n | None => Err TypeError end;
    let op := String.substring 8 (String.length name - 9) name in
    let cond := cond_name platform v in
    d1 ← cc_dep1.[nbits - 1 : 0];
    d2 ← cc_dep2.[nbits - 1 : 0];
    r ← match specialised op cond with
        | Some f => f (Ok d1) (Ok d2)
        | None =>
            match pc_actions_op op, c ← cond; pc_actions_cond c with
            | Some f, Some g => cc_expr ← f (Ok d1) (Ok d2); g (Ok cc_expr)
            | _, _ => Err SimCCallError
            end
        end;
    Concat [BVV 0 (size platform - 1); Ok r].

(** ** Rotation through the carry *)

(** The carry and the overflow bit that come out, and the result. *)
Definition generic_rotate_with_carry (left : bool) (arg rot_amt carry_bit_in sz : term) : result (term * term * term) :=
  sz ← concrete_value sz;
  let bits := sz * 8 in
  bits_in ← len arg;
  n ← len rot_amt;
  _ ← guard_exn (negb (n <? bits)) SimError;
  sized_amt ← (if sz =? 1 then (rot_amt & #0x1F) %% #9
               else if sz =? 2 then (rot_amt & #0x1F) %% #17
               else if sz =? 4 then rot_amt & #0x1F
               else if sz =? 8 then rot_amt & #0x3F
               else Err UnboundLocalError)%claripy;
  m ← len (Ok sized_amt);
  sized_amt ← (if bits =? m then zero_extend 1 (Ok sized_amt) else (Ok sized_amt).[bits : 0]);
  m ← len (Ok sized_amt);
  _ ← guard_exn (m =? bits + 1) AssertionError;
  sized_arg_in ← arg.[bits - 1 : 0];
  rotatable_in ← Concat [carry_bit_in; Ok sized_arg_in];
  rotatable_out ← (if left then RotateLeft else RotateRight) (Ok rotatable_in) (Ok sized_amt);
  sized_arg_out ← (Ok rotatable_out).[bits - 1 : 0];
  carry_bit_out ← (Ok rotatable_out).[bits];
  arg_out ← zero_extend (bits_in - bits) (Ok sized_arg_out);
  overflow_bit_out ←
    (if left then Ok carry_bit_out ^' (Ok sized_arg_out).[bits - 1]
     else (Ok sized_arg_out).[bits - 1] ^' (Ok sized_arg_out).[bits - 2])%claripy;
  Ok (Ok carry_bit_out, Ok overflow_bit_out, Ok arg_out).

(** [eflags_in] with the two bits replaced. *)
Definition rotate_flags (eflags_in carry_bit_out overflow_bit_out : term) : term :=
  let cf := zero_extend (size platform - 1) carry_bit_out in
  let of_ := zero_extend (size platform - 1) overflow_bit_out in
  ((eflags_in & #(Z.lnot (Z.lor (G_CC_MASK_C platform) (G_CC_MASK_O platform))))
   |' ((cf << #(G_CC_SHIFT_C platform)) |' (of_ << #(G_CC_SHIFT_O platform))))%claripy.
End Actions.

(** ** amd64 *)

(** [amd64g_calculate_RCL] and [amd64g_calculate_RCR]: a negative size asks
    for the flags. *)
Definition amd64g_rotate (left : bool) (arg rot_amt eflags_in sz : term) : term :=
  want_flags ← SLT sz #0;
  let sz := if want_flags : bool then neg sz else sz in
  let carry_bit_in := eflags_in.[G_CC_SHIFT_C AMD64] in
  '(carry_bit_out, overflow_bit_out, arg_out) ← generic_rotate_with_carry left arg rot_amt carry_bit_in sz;
  if want_flags : bool then rotate_flags AMD64 eflags_in carry_bit_out overflow_bit_out else arg_out.

Definition amd64g_calculate_RCL : term → term → term → term → term := amd64g_rotate true.
Definition amd64g_calculate_RCR : term → term → term → term → term := amd64g_rotate false.

(** [x.chop(bits)]: the pieces from the left. *)
Definition chop (bits : Z) (x : term) : result (list term) :=
  s ← len x;
  if negb (s mod bits =? 0) then Err ValueError
  else if s =? bits then Ok [x]
  else Ok (reverse ((λ n, x.[(n + 1) * bits - 1 : n * bits]) <$> py_range 0 (s / bits))).

Definition amd64g_calculate_mmx_pmaddwd (xx yy : term) : term :=
  xs ← chop 16 xx;
  ys ← chop 16 yy;
  match xs, ys with
  | [xx_3; xx_2; xx_1; xx_0], [yy_3; yy_2; yy_1; yy_0] =>
      let s := sign_extend 16 in
      Concat [(s xx_3 * s yy_3 + s xx_2 * s yy_2)%claripy; (s xx_1 * s yy_1 + s xx_0 * s yy_0)%claripy]
  | _, _ => Err ValueError
  end.

(** [x.is_true] without the call is the bound method, which is truthy. *)
Definition is_true_method {A} (x : result A) : result bool := _ ← x; Ok true.

Definition EmNote_NONE : Z := 0.
Definition EmWarn_X86_x87exns : Z := 1.
Definition EmWarn_X86_x87precision : Z := 2.
Definition EmWarn_X86_sseExns : Z := 3.
Definition EmWarn_X86_fz : Z := 4.
Definition EmWarn_X86_daz : Z := 5.

Definition amd64g_check_ldmxcsr (mxcsr : term) : term :=
  let rmode := ((mxcsr >> #13) & #3)%claripy in
  unmasked ← is_true_method ((mxcsr & #0x1F80) != #0x1F80)%claripy;
  ew ← (if unmasked : bool then Ok EmWarn_X86_sseExns
        else
          fz ← is_true_method (mxcsr & #(Z.shiftl 1 15))%claripy;
          if fz : bool then Ok EmWarn_X86_fz
          else
            daz ← is_true_method (mxcsr & #(Z.shiftl 1 6))%claripy;
            Ok (if daz : bool then EmWarn_X86_daz else EmNote_NONE));
  (#(Z.shiftl ew 32) |' rmode)%claripy.

Definition amd64g_create_mxcsr (sseround : term) : term := (#0x1F80 |' ((sseround & #3) << #13))%claripy.

Definition amd64g_check_fldcw (fpucw : term) : term :=
  let rmode := ((fpucw >> #10) & #3)%claripy in
  unmasked ← is_true_method ((fpucw & #0x3F) != #0x3F)%claripy;
  ew ← (if unmasked : bool then Ok EmWarn_X86_x87exns
        else
          imprecise ← is_true_method (((fpucw >> #8) & #3) != #3)%claripy;
          Ok (if imprecise : bool then EmWarn_X86_x87precision else EmNote_NONE));
  (#(Z.shiftl ew 32) |' rmode)%claripy.

Definition amd64g_create_fpucw (fpround : term) : term := (#0x037F |' ((fpround & #3) << #10))%claripy.

(** [simplified]: the option [USE_SIMPLIFIED_CCALLS]. *)
Definition amd64g_calculate_condition (simplified : bool) (cond cc_op cc_dep1 cc_dep2 cc_ndep : term) : term :=
  let full := pc_calculate_condition AMD64 cond cc_op cc_dep1 cc_dep2 cc_ndep in
  if simplified then
    match pc_calculate_condition_simple AMD64 cond cc_op cc_dep1 cc_dep2 cc_ndep with
    | Err (KeyError _) => full
    | r => r
    end
  else full.

Definition amd64g_calculate_rflags_all : term → term → term → term → term := pc_calculate_rdata_all AMD64.
Definition amd64g_calculate_rflags_c : term → term → term → term → term := pc_calculate_rdata_c AMD64.

(** ** x86 *)

(** [x86g_calculate_RCL] and [x86g_calculate_RCR]: the flags, then the result. *)
Definition x86g_rotate (left : bool) (arg rot_amt eflags_in sz : term) : term :=
  let carry_bit_in := eflags_in.[G_CC_SHIFT_C X86] in
  '(carry_bit_out, overflow_bit_out, arg_out) ← generic_rotate_with_carry left arg rot_amt carry_bit_in sz;
  Concat [rotate_flags X86 eflags_in carry_bit_out overflow_bit_out; arg_out].

Definition x86g_calculate_RCL : term → term → term → term → term := x86g_rotate true.
Definition x86g_calculate_RCR : term → term → term → term → term := x86g_rotate false.

Definition x86g_calculate_condition (simplified : bool) : term → term → term → term → term → term :=
  if simplified then pc_calculate_condition_simple X86 else pc_calculate_condition X86.

Definition x86g_calculate_eflags_all : term → term → term → term → term := pc_calculate_rdata_all X86.
Definition x86g_calculate_eflags_c : term → term → term → term → term := pc_calculate_rdata_c X86.

Definition x86g_check_fldcw (fpucw : term) : term := zero_extend 32 ((fpucw >> #10) & #3)%claripy.
Definition x86g_create_fpucw (fpround : term) : term := (#0x037F |' ((fpround & #3) << #10))%claripy.

(** ** Decimal adjustment *)

(** [|] on integers as well as on vectors. *)
Definition py_or (a b : term) : term :=
  a ← a; b ← b;
  match a, b with Num x, Num y => Ok (Num (Z.lor x y)) | _, _ => (Ok a |' Ok b)%claripy end.

(** [(r & 1) << (16 + shift)] for a flag that is an integer or a vector. *)
Definition flag_at (r : term) (shift : Z) : term :=
  r ← r;
  match r with
  | Num n => Ok (Num (Z.shiftl (Z.land n 1) (16 + shift)))
  | _ => ((Ok r & #1) << #(16 + shift))%claripy
  end.

(** The word the two helpers return: the flags above [AX]. *)
Definition flags_and_AX_word (r_O r_S r_Z r_A r_C r_P r_AH r_AL : term) : term :=
  foldl py_or (flag_at r_O (G_CC_SHIFT_O X86))
    [flag_at r_S (G_CC_SHIFT_S X86); flag_at r_Z (G_CC_SHIFT_Z X86); flag_at r_A (G_CC_SHIFT_A X86);
     flag_at r_C (G_CC_SHIFT_C X86); flag_at r_P (G_CC_SHIFT_P X86);
     ((r_AH & #0xFF) << #8)%claripy; ((r_AL & #0xFF) << #0)%claripy].

Definition x86g_calculate_daa_das_aaa_aas (flags_and_AX opcode : term) : term :=
  n ← len flags_and_AX;
  _ ← guard_exn (n =? 32) AssertionError;
  opcode ← concrete_value opcode;
  let flag shift := zero_extend 31 (flags_and_AX.[shift + 16]) in
  let r_O := flag (G_CC_SHIFT_O X86) in
  let r_S := flag (G_CC_SHIFT_S X86) in
  let r_Z := flag (G_CC_SHIFT_Z X86) in
  let r_A := flag (G_CC_SHIFT_A X86) in
  let r_C := flag (G_CC_SHIFT_C X86) in
  let r_P := flag (G_CC_SHIFT_P X86) in
  let r_AL := ((flags_and_AX >> #0) & #0xFF)%claripy in
  let r_AH := ((flags_and_AX >> #8) & #0xFF)%claripy in
  let zero := BVV 0 32 in
  let one := BVV 1 32 in
  let low_adjust := Or ((r_AL & #0xF) > #9)%claripy (r_A == #1)%claripy in
  let high_adjust := Or (r_AL > #0x99)%claripy (r_C == #1)%claripy in
  let finish_decimal (al : term) :=
    let al := (al & #0xFF)%claripy in
    flags_and_AX_word zero (If ((al & #0x80) != #0)%claripy one zero) (If (al == #0)%claripy one zero)
      (If low_adjust one zero) (If high_adjust one zero) (zero_extend 31 (calc_paritybit al)) r_AH al in
  if opcode =? 0x27 then
    let al := If low_adjust (r_AL + #6)%claripy r_AL in
    finish_decimal (If high_adjust (al + #0x60)%claripy al)
  else if opcode =? 0x2F then
    let al := If low_adjust (r_AL - #6)%claripy r_AL in
    finish_decimal (If high_adjust (al - #0x60)%claripy al)
  else if opcode =? 0x37 then
    let nudge := (r_AL > #0xF9)%claripy in
    let al := If low_adjust ((r_AL + #6) & #0xF)%claripy (r_AL & #0xF)%claripy in
    let ah := If low_adjust (If nudge (r_AH + #2)%claripy (r_AH + #1)%claripy) r_AH in
    flags_and_AX_word #0 #0 #0 (If low_adjust one zero) (If low_adjust one zero) #0 ah al
  else if opcode =? 0x3F then
    let nudge := (r_AL < #0x06)%claripy in
    let al := If low_adjust ((r_AL - #6) & #0xF)%claripy (r_AL & #0xF)%claripy in
    let ah := If low_adjust (If nudge (r_AH - #2)%claripy (r_AH - #1)%claripy) r_AH in
    flags_and_AX_word #0 #0 #0 (If low_adjust one zero) (If low_adjust one zero) #0 ah al
  else flags_and_AX_word r_O r_S r_Z r_A r_C r_P r_AH r_AL.

Definition x86g_calculate_aad_aam (flags_and_AX opcode : term) : term :=
  n ← len flags_and_AX;
  _ ← guard_exn (n =? 32) AssertionError;
  opcode ← concrete_value opcode;
  let r_AL := ((flags_and_AX >> #0) & #0xFF)%claripy in
  let r_AH := ((flags_and_AX >> #8) & #0xFF)%claripy in
  let finish ah al :=
    flags_and_AX_word (BVV 0 32) (zero_extend 31 (al.[7])) (If (al == #0)%claripy (BVV 1 32) (BVV 0 32))
      (BVV 0 32) (BVV 0 32) (zero_extend 31 (calc_paritybit al)) ah al in
  if opcode =? 0xD4 then finish (r_AL // #10)%claripy (r_AL %% #10)%claripy
  else if opcode =? 0xD5 then finish (BVV 0 32) (((r_AH * #10) + r_AL) & #0xFF)%claripy
  else Err SimCCallError.

(** ** Segment selectors *)

Definition get_segdescr_base (descriptor : term) : term :=
  Concat [descriptor.[63 : 56]; descriptor.[39 : 32]; descriptor.[31 : 16]].

Definition get_segdescr_limit (descriptor : term) : term :=
  let limit := zero_extend 12 (Concat [descriptor.[51 : 48]; descriptor.[15 : 0]]) in
  g ← (descriptor.[55] == #0)%claripy;
  if g : bool then limit else ((limit << #12) |' #0xFFF)%claripy.

Section Segments.
(** The control register, whether the project is a Win32 one with a concrete
    target, and [state.memory.load(addr, 8, endness="Iend_LE")]. *)
Context (x86_cr0 : Z) (win32_target : bool) (load : term → term).

Definition bad : term := zero_extend 32 (BVV (Z.shiftl 1 32) 32).

(** The descriptor of index [index] of the table that the register [dt]
    describes, [None] where the code answers before it loads one. *)
Definition descriptor_of (dt seg_selector virtual_addr : term) : result (term + operand) :=
  dt_value ← concrete_value dt;
  if dt_value =? 0 then inl <$> (Ok (zero_extend 32 ((seg_selector << #16) + virtual_addr)%claripy))
  else
    let index := zero_extend 32 (seg_selector >> #3)%claripy in
    out ← (index >= zero_extend 48 (dt.[15 : 0]))%claripy;
    if out : bool then Ok (inl bad)
    else
      base ← concrete_value (dt.[47 : 16]);
      d ← load (#base + index * #8)%claripy;
      Ok (inr d).

Definition x86g_use_seg_selector (ldt gdt seg_selector virtual_addr : term) : term :=
  invalid ← ((seg_selector & #(Z.lnot 0xFFFF)) != #0)%claripy;
  if invalid : bool then bad
  else
    n ← len virtual_addr;
    let virtual_addr := if n =? 16 then zero_extend 16 virtual_addr else virtual_addr in
    if Z.land x86_cr0 1 =? 0 then zero_extend 32 ((seg_selector << #4) + virtual_addr)%claripy
    else
      let seg_selector := (seg_selector & #0xFFFF)%claripy in
      heaven ← ((seg_selector >> #3) == #6)%claripy;
      if win32_target && heaven then bad
      else
        global ← (((seg_selector >> #2) & #1) == #0)%claripy;
        r ← descriptor_of (if global : bool then gdt else ldt) seg_selector virtual_addr;
        match r with
        | inl answer => answer
        | inr descriptor =>
            absent ← ((Ok descriptor).[47] == #0)%claripy;
            if absent : bool then bad
            else
              _ ← get_segdescr_limit (Ok descriptor);
              zero_extend 32 (get_segdescr_base (Ok descriptor) + virtual_addr)%claripy
        end.
End Segments.
End CCall.
