(* ===== verification/CCallFlags.v ===== *)
(** * What the x86 condition codes mean

    [x86_flags] says which flags an operation sets, in terms of unbounded
    integers.  The lemmas of [Section Actions] say, for each function
    [pc_actions_*] of [CCall], that it computes them at every operand size from
    eight bits on; [CCallFacts] has the theorems about the helpers. *)

From Stdlib Require Import ZArith Lia Bool String.
From stdpp Require Import base tactics list numbers strings.
From S2P Require Import Prelude Bvv Claripy CCall.
#[local] Open Scope string_scope.
#[local] Open Scope Z_scope.

Module CCallFlags.
Import Bvv.BVV(operand, Bv, Num, mkBVV, to_signed, to_signed_mod, to_signed_range) Claripy.Claripy Claripy.Claripy.Notations CCall.CCall.

(** ** The specification *)

Record status := mkStatus { CF : bool; PF : bool; AF : bool; ZF : bool; SF : bool; OF : bool }.

(** An even number of ones in the low byte. *)
Definition parity (r : Z) : bool := Z.even (foldr Z.add 0 ((λ i, Z.b2z (Z.testbit r i)) <$> [0; 1; 2; 3; 4; 5; 6; 7])).

Definition signed_fits (w z : Z) : bool := (- 2 ^ (w - 1) <=? z) && (z <? 2 ^ (w - 1)).

(** The flags that only depend on the result, around a given carry, auxiliary
    carry and overflow. *)
Definition result_status (w r : Z) (c a o : bool) : status :=
  mkStatus c (parity r) a (r =? 0) (2 ^ (w - 1) <=? r) o.

(** A sum and a difference with an incoming carry or borrow [c]. *)
Definition sum_status (w x y c : Z) : status :=
  result_status w ((x + y + c) mod 2 ^ w) (2 ^ w <=? x + y + c) (16 <=? x mod 16 + y mod 16 + c)
    (negb (signed_fits w (to_signed w x + to_signed w y + c))).

Definition difference_status (w x y c : Z) : status :=
  result_status w ((x - y - c) mod 2 ^ w) (x <? y + c) (x mod 16 <? y mod 16 + c)
    (negb (signed_fits w (to_signed w x - to_signed w y - c))).

(** The operations, by the stem of their names. *)
Inductive x86_op :=
  | ADD | ADC | SUB | SBB | LOGIC | INC | DEC | SHL | SHR | ROL | ROR | UMUL | SMUL
  | ANDN | BLSI | BLSMSK | BLSR | ADCX | ADOX.

#[export] Instance x86_op_eq_dec : EqDecision x86_op.
Proof. solve_decision. Defined.

Definition old_status (n : Z) : status :=
  mkStatus (Z.testbit n 0) (Z.testbit n 2) (Z.testbit n 4) (Z.testbit n 6) (Z.testbit n 7) (Z.testbit n 11).

(** The flags set by [op] on [w]-bit operands, in terms of what VEX stores: the
    operands, or the result for the operations with one operand, or the last
    two values for shifts; [n] is the old flags word.  The additions and
    subtractions with carry store their second operand xor the old carry. *)
Definition x86_flags (op : x86_op) (w d1 d2 n : Z) : status :=
  let old := old_status n in
  let c := Z.b2z (CF old) in
  let msb v := Z.testbit v (w - 1) in
  match op with
  | ADD => sum_status w d1 d2 0
  | ADC => sum_status w d1 (Z.lxor d2 c) c
  | SUB => difference_status w d1 d2 0
  | SBB => difference_status w d1 (Z.lxor d2 c) c
  | LOGIC => result_status w d1 false false false
  | INC =>
      let s := sum_status w ((d1 - 1) mod 2 ^ w) 1 0 in mkStatus (CF old) (PF s) (AF s) (ZF s) (SF s) (OF s)
  | DEC =>
      let s := difference_status w ((d1 + 1) mod 2 ^ w) 1 0 in mkStatus (CF old) (PF s) (AF s) (ZF s) (SF s) (OF s)
  | SHL => result_status w d1 (msb d2) false (xorb (msb d1) (msb d2))
  | SHR => result_status w d1 (Z.testbit d2 0) false (xorb (msb d1) (msb d2))
  | ROL => mkStatus (Z.testbit d1 0) (PF old) (AF old) (ZF old) (SF old) (xorb (msb d1) (Z.testbit d1 0))
  | ROR => mkStatus (msb d1) (PF old) (AF old) (ZF old) (SF old) (xorb (msb d1) (Z.testbit d1 (w - 2)))
  | UMUL =>
      let o := 2 ^ w <=? d1 * d2 in result_status w ((d1 * d2) mod 2 ^ w) o false o
  | SMUL =>
      let o := negb (signed_fits w (to_signed w d1 * to_signed w d2)) in
      result_status w ((d1 * d2) mod 2 ^ w) o false o
  | ANDN => mkStatus false false false (d1 =? 0) (msb d1) false
  | BLSI => mkStatus (negb (d2 =? 0)) false false (d1 =? 0) (msb d1) false
  | BLSMSK => mkStatus (d2 =? 0) false false false (msb d1) false
  | BLSR => mkStatus (d2 =? 0) false false (d1 =? 0) (msb d1) false
  | ADCX => mkStatus (2 ^ w <=? d1 + Z.lxor d2 c + c) (PF old) (AF old) (ZF old) (SF old) (OF old)
  | ADOX =>
      let o := Z.b2z (OF old) in
      mkStatus (CF old) (PF old) (AF old) (ZF old) (SF old) (2 ^ w <=? d1 + Z.lxor d2 o + o)
  end.

(** The six one-bit vectors. *)
Definition encode (s : status) : flags :=
  let b (v : bool) := Bv (mkBVV (Z.b2z v) 1) in
  mkFlags (b (CF s)) (b (PF s)) (b (AF s)) (b (ZF s)) (b (SF s)) (b (OF s)).

(** The number of an operation on [w]-bit operands, where the platform has it. *)
Definition stem (op : x86_op) : string :=
  match op with
  | ADD => "ADD" | ADC => "ADC" | SUB => "SUB" | SBB => "SBB" | LOGIC => "LOGIC" | INC => "INC" | DEC => "DEC"
  | SHL => "SHL" | SHR => "SHR" | ROL => "ROL" | ROR => "ROR" | UMUL => "UMUL" | SMUL => "SMUL"
  | ANDN => "ANDN" | BLSI => "BLSI" | BLSMSK => "BLSMSK" | BLSR => "BLSR" | ADCX => "ADCX" | ADOX => "ADOX"
  end.

Definition suffix (op : x86_op) (w : Z) : option string :=
  match op with
  | ANDN | BLSI | BLSMSK | BLSR => if w =? 32 then Some "32" else if w =? 64 then Some "64" else None
  | _ => if w =? 8 then Some "B" else if w =? 16 then Some "W" else if w =? 32 then Some "L"
         else if w =? 64 then Some "Q" else None
  end.

Definition op_code (platform : Platform) (op : x86_op) (w : Z) : option Z :=
  s ← suffix op w; op_type platform ("G_CC_OP_" ++ stem op ++ s)%string.

Example op_codes :
  (op_code AMD64 SUB 32, op_code X86 SUB 64, op_code AMD64 ADCX 64, op_code X86 BLSI 32, op_code AMD64 ADCX 8)
  = (Some 7, None, Some 62, None, None).
Proof. reflexivity. Qed.
(** ** Bits of sums and differences *)

Lemma testbit_odd x k : 0 ≤ k → Z.testbit x k = Z.odd (x / 2 ^ k).
Proof. intros. by rewrite Z.testbit_odd, Z.shiftr_div_pow2. Qed.

(** A bit of a sum is the exclusive or of the bits and of the carry into it. *)
Lemma testbit_sum x y c k :
  0 ≤ k → 0 ≤ c ≤ 1 →
  Z.testbit (x + y + c) k =
  xorb (xorb (Z.testbit x k) (Z.testbit y k)) (2 ^ k <=? x mod 2 ^ k + y mod 2 ^ k + c).
Proof.
  intros Hk Hc. pose proof (pow2_pos k Hk). rewrite !testbit_odd by done.
  pose proof (Z.mod_pos_bound x (2 ^ k)). pose proof (Z.mod_pos_bound y (2 ^ k)).
  assert ((x + y + c) / 2 ^ k = x / 2 ^ k + y / 2 ^ k + Z.b2z (2 ^ k <=? x mod 2 ^ k + y mod 2 ^ k + c)) as ->.
  { pose proof (Z.div_mod x (2 ^ k)). pose proof (Z.div_mod y (2 ^ k)). symmetry. zcases.
    - apply Z.div_unique with (x mod 2 ^ k + y mod 2 ^ k + c - 2 ^ k); lia.
    - apply Z.div_unique with (x mod 2 ^ k + y mod 2 ^ k + c); lia. }
  rewrite !Z.odd_add. by destruct (2 ^ k <=? _).
Qed.

(** The same for a difference and the borrow. *)
Lemma testbit_difference x y c k :
  0 ≤ k → 0 ≤ c ≤ 1 →
  Z.testbit (x - y - c) k = xorb (xorb (Z.testbit x k) (Z.testbit y k)) (x mod 2 ^ k <? y mod 2 ^ k + c).
Proof.
  intros Hk Hc. pose proof (pow2_pos k Hk). rewrite !testbit_odd by done.
  pose proof (Z.mod_pos_bound x (2 ^ k)). pose proof (Z.mod_pos_bound y (2 ^ k)).
  assert ((x - y - c) / 2 ^ k = x / 2 ^ k - y / 2 ^ k - Z.b2z (x mod 2 ^ k <? y mod 2 ^ k + c)) as ->.
  { pose proof (Z.div_mod x (2 ^ k)). pose proof (Z.div_mod y (2 ^ k)). symmetry. zcases.
    - apply Z.div_unique with (x mod 2 ^ k - y mod 2 ^ k - c + 2 ^ k); lia.
    - apply Z.div_unique with (x mod 2 ^ k - y mod 2 ^ k - c); lia. }
  rewrite !Z.odd_sub. by destruct (_ <? _).
Qed.

Lemma testbit_mod_low x w k : 0 ≤ k < w → Z.testbit (x mod 2 ^ w) k = Z.testbit x k.
Proof. intros. apply Z.mod_pow2_bits_low. lia. Qed.

(** The top bit of a word. *)
Lemma testbit_msb w x : word w x → Z.testbit x (w - 1) = (2 ^ (w - 1) <=? x).
Proof.
  intros [Hw Hx]. rewrite testbit_odd by lia. pose proof (pow2_double w Hw).
  zcases.
  - by replace (x / 2 ^ (w - 1)) with 1 by (apply Z.div_unique with (x - 2 ^ (w - 1)); lia).
  - by rewrite Z.div_small by lia.
Qed.

Lemma testbit_lsb x : Z.testbit x 0 = negb (x mod 2 =? 0).
Proof. rewrite Z.bit0_odd, Zodd_mod. pose proof (Z.mod_pos_bound x 2). zcases; done || lia. Qed.

(** The auxiliary carry as the code reads it off. *)
Lemma aux_sum w x y c :
  4 < w → 0 ≤ c ≤ 1 →
  Z.testbit (Z.lxor (Z.lxor ((x + y + c) mod 2 ^ w) x) y) 4 = (16 <=? x mod 16 + y mod 16 + c).
Proof.
  intros. rewrite !Z.lxor_spec, testbit_mod_low, testbit_sum by lia. change (2 ^ 4) with 16.
  by destruct (Z.testbit x 4), (Z.testbit y 4), (16 <=? _).
Qed.

Lemma aux_difference w x y c :
  4 < w → 0 ≤ c ≤ 1 →
  Z.testbit (Z.lxor (Z.lxor ((x - y - c) mod 2 ^ w) x) y) 4 = (x mod 16 <? y mod 16 + c).
Proof.
  intros. rewrite !Z.lxor_spec, testbit_mod_low, testbit_difference by lia. change (2 ^ 4) with 16.
  by destruct (Z.testbit x 4), (Z.testbit y 4), (_ <? _).
Qed.

(** The reduction of a sum or a difference of two words. *)
Lemma sum_mod w x y c :
  word w x → word w y → 0 ≤ c ≤ 1 →
  (x + y + c) mod 2 ^ w = x + y + c - (if 2 ^ w <=? x + y + c then 2 ^ w else 0).
Proof.
  intros [Hw Hx] [_ Hy] Hc. zcases; symmetry.
  - apply Z.mod_unique with 1; lia.
  - apply Z.mod_unique with 0; lia.
Qed.

Lemma difference_mod w x y c :
  word w x → word w y → 0 ≤ c ≤ 1 →
  (x - y - c) mod 2 ^ w = x - y - c + (if x <? y + c then 2 ^ w else 0).
Proof.
  intros [Hw Hx] [_ Hy] Hc. zcases; symmetry.
  - apply Z.mod_unique with (-1); lia.
  - apply Z.mod_unique with 0; lia.
Qed.

(** The overflow of a sum: equal operand signs and another sign of the result. *)
Lemma overflow_sum w x y c :
  word w x → word w y → 0 ≤ c ≤ 1 →
  let r := (x + y + c) mod 2 ^ w in
  negb (xorb (Z.testbit x (w - 1)) (Z.testbit y (w - 1))) && xorb (Z.testbit x (w - 1)) (Z.testbit r (w - 1))
  = negb (signed_fits w (to_signed w x + to_signed w y + c)).
Proof.
  intros Hx Hy Hc r. pose proof Hx as [Hw Hx']. pose proof Hy as [_ Hy'].
  rewrite !testbit_msb by (done || by apply word_mod). unfold r. rewrite sum_mod by done.
  unfold signed_fits, to_signed. pose proof (pow2_double w Hw). zcases; lia.
Qed.

Lemma overflow_difference w x y c :
  word w x → word w y → 0 ≤ c ≤ 1 →
  let r := (x - y - c) mod 2 ^ w in
  xorb (Z.testbit x (w - 1)) (Z.testbit y (w - 1)) && xorb (Z.testbit x (w - 1)) (Z.testbit r (w - 1))
  = negb (signed_fits w (to_signed w x - to_signed w y - c)).
Proof.
  intros Hx Hy Hc r. pose proof Hx as [Hw Hx']. pose proof Hy as [_ Hy'].
  rewrite !testbit_msb by (done || by apply word_mod). unfold r. rewrite difference_mod by done.
  unfold signed_fits, to_signed. pose proof (pow2_double w Hw). zcases; lia.
Qed.

(** ** The flags of a result *)

Abbreviation flag b := (val 1 (Z.b2z b)).

Lemma If_flag c : If (Ok c) (BVV 1 1) (BVV 0 1) = flag c.
Proof. by destruct c. Qed.

Lemma xor_flag a b : (flag a ^' flag b)%claripy = flag (xorb a b).
Proof. by destruct a, b. Qed.

Lemma flag_bit b : (flag b).[0]%claripy = flag b.
Proof. by destruct b. Qed.

Lemma msb_flag w x : 1 ≤ w → (val w x).[w - 1 : w - 1]%claripy = flag (Z.testbit x (w - 1)).
Proof. intros. by rewrite <-(bit_val (w - 1) w x) by lia. Qed.

Lemma parity_flag w x : 8 ≤ w → calc_paritybit (val w x) = flag (parity x).
Proof.
  intros Hw. unfold calc_paritybit. cbn [len mbind result_bind BVV.bits]. destruct (Z.ltb_spec 7 w); [|lia].
  change 7 with (8 - 1). rewrite low_val by lia. cbn [len mbind result_bind BVV.bits].
  change (py_range 0 8) with [0; 1; 2; 3; 4; 5; 6; 7]. cbn [foldl]. rewrite !bit_val by lia.
  unfold parity. cbn [foldr fmap list_fmap]. rewrite !testbit_mod_low by lia.
  repeat match goal with |- context [Z.testbit x ?k] => destruct (Z.testbit x k) end; reflexivity.
Qed.

(** The low byte decides the parity. *)
Lemma parity_low w x : 8 ≤ w → parity (x mod 2 ^ w) = parity x.
Proof. intros. unfold parity. cbn [foldr fmap list_fmap]. by rewrite !testbit_mod_low by lia. Qed.

Lemma zero_flag w x : 1 ≤ w → calc_zerobit (val w x) = flag (x =? 0).
Proof. intros. unfold calc_zerobit, _cond_flag. ints. rewrite eq_val, Z.mod_0_l by lia. apply If_flag. Qed.

(** A kept flag is the bit of the old word. *)
Lemma old_flag_bit w n k mask :
  word w n → 0 ≤ k < w → mask = 2 ^ k → old_flag (val w n) mask k = flag (Z.testbit n k).
Proof.
  intros Hn Hk ->. pose proof (pow2_pos k). pose proof (Z.pow_lt_mono_r 2 k w). destruct Hn as [Hw Hn].
  assert (word w (2 ^ k)) by (split; lia).
  unfold old_flag. ints. rewrite (Z.mod_small (2 ^ k)) by lia. rewrite and_val, bit_val by (lia || done).
  rewrite Z.land_spec, Z.pow2_bits_true by lia. by rewrite andb_true_r.
Qed.

(** The side conditions of [old_flag_bit] at the shifts of the tables. *)
Ltac shift_side :=
  first [assumption | reflexivity
        | cbv [G_CC_SHIFT_C G_CC_SHIFT_P G_CC_SHIFT_A G_CC_SHIFT_Z G_CC_SHIFT_S G_CC_SHIFT_O]; lia].

(** The old carry, as a vector of the operands' width. *)
Lemma old_carry w n : word w n → (val w n & #1)%claripy = val w (Z.b2z (Z.testbit n 0)).
Proof.
  intros Hn. pose proof Hn as [Hw _]. pose proof (Z.pow_le_mono_r 2 1 w).
  ints. rewrite Z.mod_small by lia. rewrite and_val by (done || (split; lia)). do 3 f_equal.
  change 1 with (2 ^ 1 - 1). by rewrite land_mask, <-Z.bit0_mod by lia.
Qed.


(** [flags_of] evaluates an action to its six flags. *)
Ltac flags_of :=
  repeat first
    [ progress ints | rewrite If_flag | rewrite xor_flag | rewrite flag_bit | rewrite parity_flag by lia | rewrite zero_flag by lia
    | rewrite msb_flag by lia | rewrite add_val by lia | rewrite sub_val by lia | rewrite mul_val by lia
    | rewrite eq_val | rewrite ne_val
    | rewrite ULT_val by lia | rewrite ULE_val by lia
    | rewrite xor_val by word_side | rewrite and_val by word_side | rewrite bit_val by lia ].

Lemma encode_eq c p a z s o c' p' a' z' s' o' :
  c = c' → p = p' → a = a' → z = z' → s = s' → o = o' →
  pc_make_rdata (flag c) (flag p) (flag a) (flag z) (flag s) (flag o) = Ok (encode (mkStatus c' p' a' z' s' o')).
Proof. by intros -> -> -> -> -> ->. Qed.

Section Actions.
Context (platform : Platform) (w : Z) (Hw : 8 ≤ w).

Lemma word_full : word w (2 ^ w - 1).
Proof. pose proof (pow2_pos w). split; lia. Qed.

Lemma full_mod : -1 mod 2 ^ w = 2 ^ w - 1.
Proof. symmetry. pose proof (pow2_pos w). apply Z.mod_unique with (-1); lia. Qed.

Lemma zero_mod : 0 mod 2 ^ w = 0.
Proof. apply Z.mod_0_l. pose proof (pow2_pos w). lia. Qed.

Lemma testbit_full : Z.testbit (2 ^ w - 1) (w - 1) = true.
Proof. rewrite ones_pow2. apply Z.ones_spec_low. lia. Qed.

Lemma carry_sum x y c :
  word w x → word w y → 0 ≤ c ≤ 1 →
  (if c =? 0 then (x + y + c) mod 2 ^ w <? x else (x + y + c) mod 2 ^ w <=? x) = (2 ^ w <=? x + y + c).
Proof. intros Hx Hy Hc. rewrite (sum_mod w) by done. destruct Hx, Hy. zcases; lia. Qed.

Lemma borrow_difference x y c :
  0 ≤ c ≤ 1 → (if c =? 0 then x <? y else x <=? y) = (x <? y + c).
Proof. intros Hc. zcases; lia. Qed.

Lemma add_carry_val x y c : (val w x + val w y + val w c)%claripy = val w ((x + y + c) mod 2 ^ w).
Proof. rewrite !add_val by lia. by rewrite Zplus_mod_idemp_l. Qed.

Lemma sub_borrow_val x y c : (val w x - val w y - val w c)%claripy = val w ((x - y - c) mod 2 ^ w).
Proof. rewrite !sub_val by lia. by rewrite Zminus_mod_idemp_l. Qed.

Lemma ADD_flags x y nd :
  word w x → word w y →
  pc_actions_ADD platform w (val w x) (val w y) nd = Ok (encode (sum_status w x y 0)).
Proof.
  intros Hx Hy. pose proof word_full as Hf. unfold pc_actions_ADD, G_CC_SHIFT_A. rewrite (BVV_val w) by lia.
  rewrite (Z.mod_small (2 ^ w - 1)) by apply Hf. flags_of. rewrite <-(Z.add_0_r (x + y)).
  apply encode_eq; try done.
  - by rewrite <-(carry_sum x y 0).
  - apply aux_sum; lia.
  - apply testbit_msb, word_mod. lia.
  - rewrite Z.land_spec, !Z.lxor_spec, testbit_full, xorb_true_r. by apply overflow_sum.
Qed.

Lemma SUB_flags x y nd :
  word w x → word w y →
  pc_actions_SUB platform w (val w x) (val w y) nd = Ok (encode (difference_status w x y 0)).
Proof.
  intros Hx Hy. unfold pc_actions_SUB, G_CC_SHIFT_A. flags_of. rewrite <-(Z.sub_0_r (x - y)).
  apply encode_eq; try done.
  - by rewrite <-(borrow_difference x y 0).
  - apply aux_difference; lia.
  - apply testbit_msb, word_mod. lia.
  - rewrite Z.land_spec, !Z.lxor_spec. by apply overflow_difference.
Qed.

(** The carry chain of the additions with carry. *)
Lemma carry_chain x y c :
  word w x → word w (Z.lxor y c) → 0 ≤ c ≤ 1 →
  (If (val w c != #0) (If (val w ((x + Z.lxor y c + c) mod 2 ^ w) <= val w x) (BVV 1 1) (BVV 0 1))
     (If (val w ((x + Z.lxor y c + c) mod 2 ^ w) < val w x) (BVV 1 1) (BVV 0 1)))%claripy
  = flag (2 ^ w <=? x + Z.lxor y c + c).
Proof.
  intros Hx Hyc Hc. rewrite <-carry_sum by done. flags_of. rewrite zero_mod. by destruct (c =? 0); rewrite If_val.
Qed.

Lemma ADC_flags x y n :
  word w x → word w y → word w n →
  let c := Z.b2z (Z.testbit n 0) in
  pc_actions_ADC platform w (val w x) (val w y) (val w n) = Ok (encode (sum_status w x (Z.lxor y c) c)).
Proof.
  intros Hx Hy Hn c. assert (word w c) as Hc by (apply word_b2z; lia).
  assert (0 ≤ c ≤ 1) by (unfold c; destruct (Z.testbit n 0); cbn; lia).
  pose proof (word_lxor w y c Hy Hc) as Hyc. pose proof word_full as Hf.
  unfold pc_actions_ADC, G_CC_MASK_C, G_CC_SHIFT_A. change (Z.shiftl 1 (G_CC_SHIFT_C platform)) with 1.
  rewrite old_carry by done. fold c. rewrite (xor_val w y), add_carry_val, carry_chain by done. flags_of.
  rewrite full_mod. flags_of. apply encode_eq; try done.
  - apply aux_sum; lia.
  - apply testbit_msb, word_mod. lia.
  - rewrite Z.land_spec, !Z.lxor_spec, testbit_full, xorb_true_r, <-Z.lxor_spec. by apply overflow_sum.
Qed.

Lemma SBB_flags x y n :
  word w x → word w y → word w n →
  let c := Z.b2z (Z.testbit n 0) in
  pc_actions_SBB platform w (val w x) (val w y) (val w n) = Ok (encode (difference_status w x (Z.lxor y c) c)).
Proof.
  intros Hx Hy Hn c. assert (word w c) as Hc by (apply word_b2z; lia).
  assert (0 ≤ c ≤ 1) by (unfold c; destruct (Z.testbit n 0); cbn; lia).
  pose proof (word_lxor w y c Hy Hc) as Hyc. unfold pc_actions_SBB, G_CC_SHIFT_C, G_CC_SHIFT_A.
  rewrite bit_val, zero_extend_val by (lia || by apply word_b2z). replace (1 + (w - 1)) with w by lia. fold c.
  rewrite !xor_val, sub_borrow_val by done. flags_of. rewrite Z.mod_1_l by (pose proof (Z.pow_le_mono_r 2 1 w); lia).
  replace (If (Ok (c =? 1)) _ _) with (flag (if c =? 0 then x <? Z.lxor y c else x <=? Z.lxor y c))
    by (rewrite If_val; assert (c = 0 ∨ c = 1) as [-> | ->] by lia; done).
  apply encode_eq; try done.
  - by rewrite <-borrow_difference.
  - apply aux_difference; lia.
  - apply testbit_msb, word_mod. lia.
  - rewrite Z.land_spec, !Z.lxor_spec, <-Z.lxor_spec. by apply overflow_difference.
Qed.

Lemma LOGIC_flags x y nd :
  word w x → pc_actions_LOGIC w (val w x) y nd = Ok (encode (result_status w x false false false)).
Proof.
  intros Hx. unfold pc_actions_LOGIC. change (BVV 0 1) with (flag false). flags_of.
  apply encode_eq; try done. by apply testbit_msb.
Qed.

(** The stored result of an increment or a decrement gives back the operand. *)
Lemma INC_flags x y n :
  word w x → word w n →
  let s := sum_status w ((x - 1) mod 2 ^ w) 1 0 in
  pc_actions_INC platform w (val w x) y (val w n) =
    Ok (encode (mkStatus (Z.testbit n 0) (PF s) (AF s) (ZF s) (SF s) (OF s))).
Proof.
  intros Hx Hn s. assert (1 < 2 ^ (w - 1)) by (apply Z.pow_gt_1; lia). pose proof (pow2_double w ltac:(lia)).
  unfold pc_actions_INC, G_CC_SHIFT_A.
  rewrite (old_flag_bit w n 0) by (done || lia). rewrite shiftl_1 by lia. flags_of.
  rewrite Z.mod_1_l, (Z.mod_small (2 ^ (w - 1))) by lia.
  set (l := (x - 1) mod 2 ^ w). assert (word w l) as Hl by (apply word_mod; lia).
  assert (x = (l + 1 + 0) mod 2 ^ w) as Ex.
  { unfold l. rewrite Z.add_0_r, Zplus_mod_idemp_l. replace (x - 1 + 1) with x by lia. by rewrite word_small. }
  apply encode_eq; try done; unfold s, sum_status; fold l; cbn [PF AF ZF SF OF result_status]; rewrite <-?Ex; try done.
  - rewrite Ex at 1. apply aux_sum; lia.
  - by apply testbit_msb.
  - rewrite Ex. unfold signed_fits. destruct Hx. rewrite sum_mod by (done || lia || (split; lia)). destruct Hl.
    unfold to_signed. zcases; lia.
Qed.

Lemma DEC_flags x y n :
  word w x → word w n →
  let s := difference_status w ((x + 1) mod 2 ^ w) 1 0 in
  pc_actions_DEC platform w (val w x) y (val w n) =
    Ok (encode (mkStatus (Z.testbit n 0) (PF s) (AF s) (ZF s) (SF s) (OF s))).
Proof.
  intros Hx Hn s. assert (1 < 2 ^ (w - 1)) by (apply Z.pow_gt_1; lia). pose proof (pow2_double w ltac:(lia)).
  unfold pc_actions_DEC, G_CC_SHIFT_A.
  rewrite (old_flag_bit w n 0) by (done || lia). rewrite shiftl_1 by lia. flags_of.
  rewrite Z.mod_1_l, (Z.mod_small (2 ^ (w - 1))) by lia.
  set (l := (x + 1) mod 2 ^ w). assert (word w l) as Hl by (apply word_mod; lia).
  assert (x = (l - 1 - 0) mod 2 ^ w) as Ex.
  { unfold l. rewrite Z.sub_0_r, Zminus_mod_idemp_l. replace (x + 1 - 1) with x by lia. by rewrite word_small. }
  apply encode_eq; try done; unfold s, difference_status; fold l; cbn [PF AF ZF SF OF result_status]; rewrite <-?Ex; try done.
  - rewrite Ex at 1. apply aux_difference; lia.
  - by apply testbit_msb.
  - unfold signed_fits. destruct Hx, Hl. unfold to_signed. zcases; lia.
Qed.

Lemma low_byte_parity x : calc_paritybit ((val w x).[7 : 0])%claripy = flag (parity x).
Proof. change 7 with (8 - 1). rewrite low_val, parity_flag by lia. by rewrite parity_low. Qed.

Lemma low_bit_flag x : word w x → ((val w x & #1) != #0)%claripy = Ok (Z.testbit x 0).
Proof.
  intros Hx. rewrite old_carry by done. ints. rewrite zero_mod, ne_val. by destruct (Z.testbit x 0).
Qed.

Lemma word_small_nat n : 0 ≤ n < w → word w n.
Proof. intros. pose proof (Z.pow_gt_lin_r 2 w). split; lia. Qed.

Lemma SHL_flags x y nd :
  word w x → word w y →
  pc_actions_SHL w (val w x) (val w y) nd =
    Ok (encode (result_status w x (Z.testbit y (w - 1)) false (xorb (Z.testbit x (w - 1)) (Z.testbit y (w - 1))))).
Proof.
  intros Hx Hy. unfold pc_actions_SHL. rewrite low_byte_parity. change (BVV 0 1) with (flag false). flags_of.
  apply encode_eq; try done. by apply testbit_msb.
Qed.

Lemma SHR_flags x y nd :
  word w x → word w y →
  pc_actions_SHR w (val w x) (val w y) nd =
    Ok (encode (result_status w x (Z.testbit y 0) false (xorb (Z.testbit x (w - 1)) (Z.testbit y (w - 1))))).
Proof.
  intros Hx Hy. unfold pc_actions_SHR. rewrite low_byte_parity, low_bit_flag by done. flags_of.
  change (BVV 0 1) with (flag false). apply encode_eq; try done. by apply testbit_msb.
Qed.

Lemma ROL_flags x y n :
  word w x → word w n →
  let old := old_status n in
  pc_actions_ROL platform w (val w x) y (val w n) =
    Ok (encode (mkStatus (Z.testbit x 0) (PF old) (AF old) (ZF old) (SF old)
                  (xorb (Z.testbit x (w - 1)) (Z.testbit x 0)))).
Proof.
  intros Hx Hn old. unfold pc_actions_ROL. rewrite !(old_flag_bit w n) by shift_side. ints.
  pose proof (word_small_nat (w - 1) ltac:(lia)). rewrite (word_small w (w - 1)) by done.
  rewrite LShR_val by (done || lia).
  assert (word w (x / 2 ^ (w - 1))).
  { destruct Hx. pose proof (pow2_pos (w - 1)). pose proof (pow2_double w ltac:(lia)). split; [done|].
    split; [apply Z.div_pos; lia|apply Z.div_lt_upper_bound; nia]. }
  flags_of. apply encode_eq; try done. by rewrite Z.lxor_spec, (testbit_odd x (w - 1)), !Z.bit0_odd by lia.
Qed.

Lemma ROR_flags x y n :
  word w x → word w n →
  let old := old_status n in
  pc_actions_ROR platform w (val w x) y (val w n) =
    Ok (encode (mkStatus (Z.testbit x (w - 1)) (PF old) (AF old) (ZF old) (SF old)
                  (xorb (Z.testbit x (w - 1)) (Z.testbit x (w - 2))))).
Proof.
  intros Hx Hn old. unfold pc_actions_ROR. rewrite !(old_flag_bit w n) by shift_side. flags_of.
  by apply encode_eq.
Qed.

Lemma ANDN_flags x y nd :
  word w x → pc_actions_ANDN w (val w x) y nd =
    Ok (encode (mkStatus false false false (x =? 0) (Z.testbit x (w - 1)) false)).
Proof.
  intros Hx. unfold pc_actions_ANDN, _cond_flag. flags_of. rewrite zero_mod. change (BVV 0 1) with (flag false). by apply encode_eq.
Qed.

Lemma BLSI_flags x y nd :
  word w x → pc_actions_BLSI w (val w x) (val w y) nd =
    Ok (encode (mkStatus (negb (y =? 0)) false false (x =? 0) (Z.testbit x (w - 1)) false)).
Proof.
  intros Hx. unfold pc_actions_BLSI, _cond_flag. flags_of. rewrite zero_mod. change (BVV 0 1) with (flag false). by apply encode_eq.
Qed.

Lemma BLSMSK_flags x y nd :
  word w x → pc_actions_BLSMSK w (val w x) (val w y) nd =
    Ok (encode (mkStatus (y =? 0) false false false (Z.testbit x (w - 1)) false)).
Proof.
  intros Hx. unfold pc_actions_BLSMSK, _cond_flag. flags_of. rewrite zero_mod. change (BVV 0 1) with (flag false). by apply encode_eq.
Qed.

Lemma BLSR_flags x y nd :
  word w x → pc_actions_BLSR w (val w x) (val w y) nd =
    Ok (encode (mkStatus (y =? 0) false false (x =? 0) (Z.testbit x (w - 1)) false)).
Proof.
  intros Hx. unfold pc_actions_BLSR, _cond_flag. flags_of. rewrite zero_mod. change (BVV 0 1) with (flag false). by apply encode_eq.
Qed.

Lemma high_val z : (val (w + w) z).[2 * w - 1 : w]%claripy = val w ((z / 2 ^ w) mod 2 ^ w).
Proof. rewrite Extract_val by lia. by replace (2 * w - 1 + 1 - w) with w by lia. Qed.

Lemma UMUL_flags x y nd :
  word w x → word w y →
  let o := 2 ^ w <=? x * y in
  pc_actions_UMUL w (val w x) (val w y) nd = Ok (encode (result_status w ((x * y) mod 2 ^ w) o false o)).
Proof.
  intros Hx Hy o. pose proof Hx as [_ Hx']. pose proof Hy as [_ Hy']. pose proof (pow2_pos w ltac:(lia)).
  assert (2 ^ (w + w) = 2 ^ w * 2 ^ w) as E2 by (apply Z.pow_add_r; lia).
  unfold pc_actions_UMUL. rewrite !zero_extend_val by (done || lia). rewrite mul_val by lia.
  rewrite Z.mod_small by nia. rewrite high_val, low_val by lia.
  assert (0 ≤ x * y / 2 ^ w < 2 ^ w) by (split; [apply Z.div_pos; nia|apply Z.div_lt_upper_bound; nia]).
  rewrite (Z.mod_small (x * y / 2 ^ w)) by done. flags_of. rewrite zero_mod.
  assert (negb (x * y / 2 ^ w =? 0) = o) as ->.
  { unfold o. pose proof (Z.div_mod (x * y) (2 ^ w)). pose proof (Z.mod_pos_bound (x * y) (2 ^ w)). zcases; nia. }
  change (BVV 0 1) with (flag false). apply encode_eq; try done. apply testbit_msb, word_mod. lia.
Qed.

(** The high half of a signed product repeats the sign of the low half exactly
    when the product fits. *)
Lemma signed_high_half q :
  - 2 ^ (w - 1) ≤ 2 * q ≤ 2 ^ (w - 1) →
  ∀ lo, word w lo →
  (q mod 2 ^ w =? (to_signed w lo / 2 ^ (w - 1)) mod 2 ^ w) = signed_fits w (q * 2 ^ w + lo).
Proof.
  intros Hq lo [_ Hlo]. pose proof (pow2_double w ltac:(lia)) as E. set (h := 2 ^ (w - 1)) in *.
  assert (128 ≤ h) by (change 128 with (2 ^ 7); apply Z.pow_le_mono_r; lia).
  assert (to_signed w lo / h = if lo <? h then 0 else -1) as ->.
  { unfold to_signed. fold h. destruct (Z.ltb_spec lo h); [apply Z.div_small; lia|].
    symmetry. apply Z.div_unique with (lo - h); lia. }
  assert (q mod 2 ^ w = if q <? 0 then q + 2 ^ w else q) as ->.
  { destruct (Z.ltb_spec q 0); [symmetry; apply Z.mod_unique with (-1); lia|apply Z.mod_small; lia]. }
  unfold signed_fits. fold h. destruct (Z.ltb_spec lo h).
  - rewrite zero_mod. zcases; nia.
  - rewrite full_mod. zcases; nia.
Qed.

Lemma SMUL_flags x y nd :
  word w x → word w y →
  let o := negb (signed_fits w (to_signed w x * to_signed w y)) in
  pc_actions_SMUL w (val w x) (val w y) nd = Ok (encode (result_status w ((x * y) mod 2 ^ w) o false o)).
Proof.
  intros Hx Hy o. pose proof Hx as [_ Hx']. pose proof Hy as [_ Hy']. pose proof (pow2_pos w ltac:(lia)).
  assert (2 ^ (w + w) = 2 ^ w * 2 ^ w) as E2 by (apply Z.pow_add_r; lia).
  unfold pc_actions_SMUL. rewrite !sign_extend_val by (done || lia). rewrite mul_val by lia.
  rewrite <-Zmult_mod. set (p := to_signed w x * to_signed w y) in *.
  rewrite high_val, low_val by lia.
  assert (p mod 2 ^ w = (x * y) mod 2 ^ w) as Ep.
  { unfold p. rewrite Zmult_mod, !to_signed_mod by lia. done. }
  assert ((p mod 2 ^ (w + w) / 2 ^ w) mod 2 ^ w = (p / 2 ^ w) mod 2 ^ w) as ->.
  { pose proof (Z.mod_pos_bound p (2 ^ w)). rewrite E2, Z.rem_mul_r by lia. rewrite (Z.mul_comm (2 ^ w) ((p / _) mod _)), Z.div_add, (Z.div_small (p mod 2 ^ w)), Z.add_0_l by lia.
    by rewrite Z.mod_mod by lia. }
  assert (p mod 2 ^ (w + w) mod 2 ^ w = (x * y) mod 2 ^ w) as ->.
  { rewrite <-Ep, E2. rewrite Z.rem_mul_r by lia. by rewrite (Z.mul_comm (2 ^ w)), Z_mod_plus_full, Z.mod_mod by lia. }
  pose proof (word_small_nat (w - 1) ltac:(lia)). flags_of. rewrite (word_small w (w - 1)) by done.
  rewrite rshift_val by (lia || (apply word_mod; lia)). flags_of.
  assert (negb ((p / 2 ^ w) mod 2 ^ w =? (to_signed w ((x * y) mod 2 ^ w) / 2 ^ (w - 1)) mod 2 ^ w) = o) as ->.
  { unfold o. f_equal. pose proof (to_signed_range w x). pose proof (to_signed_range w y).
    pose proof (pow2_double w ltac:(lia)). pose proof (Z.div_mod p (2 ^ w)).
    rewrite <-Ep, signed_high_half; [f_equal; lia|..|apply word_mod; lia].
    pose proof (pow2_double (w - 1) ltac:(lia)) as E. set (h := 2 ^ (w - 1 - 1)) in *.
    assert (- h * 2 ^ w ≤ p ≤ h * 2 ^ w) by (unfold p; nia).
    split; [enough (- h ≤ p / 2 ^ w) by lia; apply Z.div_le_lower_bound; lia|].
    enough (p / 2 ^ w ≤ h) by lia. apply Z.div_le_upper_bound; lia. }
  change (BVV 0 1) with (flag false). apply encode_eq; try done. apply testbit_msb, word_mod. lia.
Qed.

Lemma shifted_bit n k :
  word w n → 0 ≤ k < w → (LShR (val w n) #k & #1)%claripy = val w (Z.b2z (Z.testbit n k)).
Proof.
  intros Hn Hk. assert (LShR (val w n) #k = val w (n / 2 ^ k)) as ->.
  { pose proof (word_small_nat k Hk). ints. rewrite (word_small w k) by done. apply LShR_val; [done|lia]. }
  assert (word w (n / 2 ^ k)).
  { destruct Hn. pose proof (pow2_pos k). split; [done|]. split; [apply Z.div_pos; lia|apply Z.div_lt_upper_bound; nia]. }
  rewrite old_carry by done. by rewrite (testbit_odd n k), Z.bit0_odd by lia.
Qed.

Lemma ADCX_flags (is_adc : bool) x y n :
  12 ≤ w → word w x → word w y → word w n →
  let old := old_status n in
  let c := Z.b2z (if is_adc then CF old else OF old) in
  let carry := 2 ^ w <=? x + Z.lxor y c + c in
  pc_actions_ADCX platform w (val w x) (val w y) (val w n) is_adc =
    Ok (encode (mkStatus (if is_adc then carry else CF old) (PF old) (AF old) (ZF old) (SF old)
                  (if is_adc then OF old else carry))).
Proof.
  intros Hw' Hx Hy Hn old c carry.
  assert (word w c) as Hc by (apply word_b2z; lia).
  assert (0 ≤ c ≤ 1) by (unfold c; destruct (if is_adc then _ else _); cbn; lia).
  pose proof (word_lxor w y c Hy Hc) as Hyc. unfold pc_actions_ADCX.
  rewrite !(old_flag_bit w n) by shift_side. rewrite !shifted_bit by shift_side.
  replace (if is_adc then val w _ else val w _) with (val w c) by by destruct is_adc.
  rewrite xor_val, add_carry_val, carry_chain by done. by destruct is_adc.
Qed.
End Actions.
End CCallFlags.
