(* ===== verification/CCallFacts.v ===== *)
(** * The x86 and amd64 helpers are right

    Theorems on [CCall]: the helpers compute the flags that [x86_flags]
    specifies for every operation and operand size of both platforms, the
    conditions are the combinations of flags they stand for, and after a
    comparison they are the comparison; which of the simplified helpers agree
    with the full ones; rotation through the carry and decimal adjustment. *)

From Stdlib Require Import ZArith Lia Bool String.
From stdpp Require Import base tactics list numbers strings.
From S2P Require Import Prelude Bvv Claripy CCall CCallFlags.
#[local] Open Scope string_scope.
#[local] Open Scope Z_scope.

Module CCallFacts.
Import Bvv.BVV(operand, Bv, Num, mkBVV, to_signed, to_signed_mod, to_signed_range) Claripy.Claripy Claripy.Claripy.Notations
  CCall.CCall CCallFlags.CCallFlags.

(** ** Every operation of the tables *)

(** The action of an operation. *)
Definition action (platform : Platform) (op : x86_op) : Z → term → term → term → result flags :=
  match op with
  | ADD => pc_actions_ADD platform | ADC => pc_actions_ADC platform | SUB => pc_actions_SUB platform
  | SBB => pc_actions_SBB platform | LOGIC => pc_actions_LOGIC | INC => pc_actions_INC platform
  | DEC => pc_actions_DEC platform | SHL => pc_actions_SHL | SHR => pc_actions_SHR
  | ROL => pc_actions_ROL platform | ROR => pc_actions_ROR platform | UMUL => pc_actions_UMUL
  | SMUL => pc_actions_SMUL | ANDN => pc_actions_ANDN | BLSI => pc_actions_BLSI | BLSMSK => pc_actions_BLSMSK
  | BLSR => pc_actions_BLSR | ADCX => λ n a b c, pc_actions_ADCX platform n a b c true
  | ADOX => λ n a b c, pc_actions_ADCX platform n a b c false
  end.

(** [widths H] splits on the width of an operation that the table has. *)
Ltac widths H :=
  unfold op_code, suffix in H;
  repeat match type of H with
    | context [?w =? ?n] => destruct (Z.eqb_spec w n) as [-> | _]
    end; try discriminate H.

(** [dispatch H] runs the helpers down to the action of the operation. *)
Ltac dispatch H :=
  widths H; vm_compute in H; injection H as <-;
  cbv -[pc_actions_ADD pc_actions_ADC pc_actions_SUB pc_actions_SBB pc_actions_LOGIC pc_actions_INC pc_actions_DEC
        pc_actions_SHL pc_actions_SHR pc_actions_ROL pc_actions_ROR pc_actions_UMUL pc_actions_SMUL pc_actions_ANDN
        pc_actions_BLSI pc_actions_BLSMSK pc_actions_BLSR pc_actions_ADCX Extract Concat LShR and_ BVV];
  reflexivity.

Lemma op_code_width platform op w code :
  op_code platform op w = Some code → 8 ≤ w ≤ size platform ∧ (op = ADCX ∨ op = ADOX → 32 ≤ w).
Proof. intros H. destruct op, platform; widths H; cbn; (split; [lia|intros [[=]|[=]]]); lia. Qed.

Lemma rdata_dispatch platform op w code s d1 d2 nd :
  op_code platform op w = Some code →
  pc_calculate_rdata_all_WRK platform (val s code) d1 d2 nd =
    (d1 ← d1.[w - 1 : 0]; d2 ← d2.[w - 1 : 0]; nd ← nd.[w - 1 : 0];
     Tuple <$> action platform op w (Ok d1) (Ok d2) (Ok nd))%claripy.
Proof. intros H. destruct op, platform; dispatch H. Qed.

Lemma action_exact platform op w d1 d2 n code :
  op_code platform op w = Some code → word w d1 → word w d2 → word w n →
  action platform op w (val w d1) (val w d2) (val w n) = Ok (encode (x86_flags op w d1 d2 n)).
Proof.
  intros H H1 H2 Hn. destruct (op_code_width _ _ _ _ H) as [Hw Hx]. assert (8 ≤ w) as H8 by lia.
  destruct op; cbn [action x86_flags].
  - by apply ADD_flags.
  - by apply ADC_flags.
  - by apply SUB_flags.
  - by apply SBB_flags.
  - by apply LOGIC_flags.
  - by apply INC_flags.
  - by apply DEC_flags.
  - by apply SHL_flags.
  - by apply SHR_flags.
  - by apply ROL_flags.
  - by apply ROR_flags.
  - by apply UMUL_flags.
  - by apply SMUL_flags.
  - by apply ANDN_flags.
  - by apply BLSI_flags.
  - by apply BLSMSK_flags.
  - by apply BLSR_flags.
  - apply (ADCX_flags platform w H8 true); [|done..]. specialize (Hx ltac:(auto)). lia.
  - apply (ADCX_flags platform w H8 false); [|done..]. specialize (Hx ltac:(auto)). lia.
Qed.

(** The six flags, from arguments of the width of the registers. *)
Lemma rdata_all_flags platform op w code d1 d2 n :
  op_code platform op w = Some code →
  let m x := x mod 2 ^ w in
  pc_calculate_rdata_all_WRK platform (val (size platform) code) (val (size platform) d1) (val (size platform) d2)
    (val (size platform) n) = Ok (Tuple (encode (x86_flags op w (m d1) (m d2) (m n)))).
Proof.
  intros H m. destruct (op_code_width _ _ _ _ H) as [Hw _].
  rewrite (rdata_dispatch _ _ _ _ _ _ _ _ H), !low_val by lia. cbn [mbind result_bind].
  by rewrite (action_exact platform op w _ _ _ code) by (done || (apply word_mod; lia)).
Qed.

(** The flags word the helper for all flags returns. *)
Definition flags_word (s : status) : Z :=
  Z.b2z (CF s) + 4 * Z.b2z (PF s) + 16 * Z.b2z (AF s) + 64 * Z.b2z (ZF s) + 128 * Z.b2z (SF s) + 2048 * Z.b2z (OF s).

Lemma flags_word_encode platform s :
  pc_make_rdata_if_necessary (size platform) (encode s) platform = val (size platform) (flags_word s).
Proof. destruct platform, s as [[] [] [] [] [] []]; reflexivity. Qed.

Lemma old_status_flags_word s : old_status (flags_word s) = s.
Proof. destruct s as [[] [] [] [] [] []]; reflexivity. Qed.

(** The carry alone: a constant for the logical operations. *)
Lemma rdata_c_dispatch platform op w code d1 d2 nd :
  op_code platform op w = Some code →
  pc_calculate_rdata_c platform (val (size platform) code) d1 d2 nd =
    if bool_decide (op = LOGIC) then BVV 0 (size platform)
    else
      r ← pc_calculate_rdata_all_WRK platform (val (size platform) code) d1 d2 nd;
      match r with
      | Tuple f => Concat [BVV 0 (size platform - 1); (Ok (cf f) & #1)%claripy]
      | Word t => (LShR (Ok t) #(G_CC_SHIFT_C platform) & #1)%claripy
      end.
Proof. intros H. destruct op, platform; dispatch H. Qed.

(** C24: On both platforms and at every width, for every operation of the tables but
    the one that copies the flags (see [copy_word]), [pc_calculate_rdata_all]
    computes the flags the reference prescribes for the operands, and
    [pc_calculate_rdata_c] the carry among them. *)
Theorem rflags_exact (platform : Platform) (op : x86_op) (w code d1 d2 n : Z) :
  op_code platform op w = Some code →
  let arg x := val (size platform) x in
  let flags := x86_flags op w (d1 mod 2 ^ w) (d2 mod 2 ^ w) (n mod 2 ^ w) in
  pc_calculate_rdata_all platform (arg code) (arg d1) (arg d2) (arg n) = arg (flags_word flags) ∧
  pc_calculate_rdata_c platform (arg code) (arg d1) (arg d2) (arg n) = arg (Z.b2z (CF flags)).
Proof.
  intros H arg flags. unfold arg. split.
  - unfold pc_calculate_rdata_all. rewrite (rdata_all_flags platform op w) by done. apply flags_word_encode.
  - rewrite (rdata_c_dispatch platform op w) by done. case_bool_decide as El.
    + subst flags op. by destruct platform.
    + rewrite (rdata_all_flags platform op w) by done. fold flags. by destruct platform, flags as [[] ? ? ? ? ?].
Qed.

Lemma rflags_exact_witness :
  op_code AMD64 SUB 8 = Some 5 ∧
  pc_calculate_rdata_all AMD64 (val 64 5) (val 64 0x10) (val 64 0x191) (val 64 0) = val 64 0x11.
Proof.
  split; [reflexivity|]. apply (rflags_exact AMD64 SUB 8 5 0x10 0x191 0). reflexivity.
Defined.

(** ** Conditions *)

Definition condition_holds (c : CondName) (s : status) : bool :=
  match c with
  | CondO => OF s | CondNO => negb (OF s)
  | CondB => CF s | CondNB => negb (CF s)
  | CondZ => ZF s | CondNZ => negb (ZF s)
  | CondBE => CF s || ZF s | CondNBE => negb (CF s || ZF s)
  | CondS => SF s | CondNS => negb (SF s)
  | CondP => PF s | CondNP => negb (PF s)
  | CondL => xorb (SF s) (OF s) | CondNL => negb (xorb (SF s) (OF s))
  | CondLE => xorb (SF s) (OF s) || ZF s | CondNLE => negb (xorb (SF s) (OF s) || ZF s)
  | CondAlways => true
  end.

(** The number of a condition; [CondAlways], which only x86 has, is refused. *)
Definition cond_code (c : CondName) : option Z :=
  match c with CondAlways => None | _ => snd <$> List.find (λ p, bool_decide (p.1 = c)) (CondTypes AMD64) end.

Definition conditions : list CondName :=
  [CondO; CondNO; CondB; CondNB; CondZ; CondNZ; CondBE; CondNBE; CondS; CondNS; CondP; CondNP; CondL; CondNL;
   CondLE; CondNLE].

Example condition_codes : omap cond_code conditions = seqZ 0 16.
Proof. reflexivity. Qed.

Lemma condition_of_encode platform c v s :
  cond_code c = Some v →
  (r ← condition_of_flags platform v (Ok (cf (encode s))) (Ok (pf (encode s))) (Ok (zf (encode s)))
         (Ok (sf (encode s))) (Ok (of_ (encode s)));
   Concat [BVV 0 (size platform - 1); Ok r]) = val (size platform) (Z.b2z (condition_holds c s)).
Proof.
  intros Hv. destruct c; vm_compute in Hv; try discriminate Hv; injection Hv as <-.
  all: by destruct platform, s as [[] [] [] [] [] []].
Qed.

(** C25: The condition helper answers one exactly when the flags the reference
    prescribes for the operation satisfy the combination that the name of the
    condition stands for: all sixteen conditions with a name of their own (not
    [CondAlways], which is refused) after every operation but the one that copies
    the flags. *)
Theorem condition_exact (platform : Platform) (op : x86_op) (w code : Z) (c : CondName) (v d1 d2 n : Z) :
  op_code platform op w = Some code →
  cond_code c = Some v →
  let m x := x mod 2 ^ w in
  pc_calculate_condition platform (val (size platform) v) (val (size platform) code) (val (size platform) d1)
    (val (size platform) d2) (val (size platform) n) =
  val (size platform) (Z.b2z (condition_holds c (x86_flags op w (m d1) (m d2) (m n)))).
Proof.
  intros H Hv m. unfold pc_calculate_condition. rewrite (rdata_all_flags platform op w) by done.
  cbn [mbind result_bind op_concretize concrete_value BVV.value]. by apply condition_of_encode.
Qed.

Lemma condition_exact_witness :
  op_code X86 ADD 16 = Some 2 ∧
  pc_calculate_condition X86 (val 32 0) (val 32 2) (val 32 0x7FFF) (val 32 1) (val 32 0) = val 32 1.
Proof.
  split; [reflexivity|]. apply (condition_exact X86 ADD 16 2 CondO 0 0x7FFF 1 0); reflexivity.
Defined.

(** ** The flags word *)

Lemma land_flags_word n : 0 ≤ n → Z.land n 0x8D5 = flags_word (old_status n).
Proof.
  intros Hn. apply (bits_inj_below _ _ 12); [|unfold flags_word|lia|].
  - split; [apply Z.land_nonneg; lia|]. apply bits_bound; [lia|apply Z.land_nonneg; lia|].
    intros i Hi. rewrite Z.land_spec, (testbit_high 0x8D5 12) by lia. apply andb_false_r.
  - destruct (old_status n) as [[] [] [] [] [] []]; cbn; lia.
  - intros i Hi. rewrite Z.land_spec. unfold flags_word, old_status. cbn [CF PF AF ZF SF OF].
    assert (i = 0 ∨ i = 1 ∨ i = 2 ∨ i = 3 ∨ i = 4 ∨ i = 5 ∨ i = 6 ∨ i = 7 ∨ i = 8 ∨ i = 9 ∨ i = 10 ∨ i = 11) as Hin by lia.
    generalize dependent (Z.testbit n). intros b.
    repeat destruct Hin as [-> | Hin]; subst.
    all: destruct (b 0), (b 2), (b 4), (b 6), (b 7), (b 11); first [reflexivity | apply andb_false_r].
Qed.
(** An operation that copies a flags word keeps its six flags. *)
Lemma copy_word platform n d2 nd :
  word (size platform) n →
  pc_calculate_rdata_all_WRK platform (val (size platform) 0) (val (size platform) n) d2 nd =
    Ok (Word (Bv (mkBVV (flags_word (old_status n)) (size platform)))).
Proof.
  intros Hn. transitivity (Word <$> (val (size platform) n & #0x8D5)%claripy); [by destruct platform|].
  pose proof Hn as [Hs Hn']. assert (word (size platform) 0x8D5) by (by destruct platform).
  rewrite <-land_flags_word by lia. ints. rewrite (word_small _ 0x8D5), and_val by done. done.
Qed.

Lemma copy_condition platform c v n d2 nd :
  cond_code c = Some v → word (size platform) n →
  pc_calculate_condition platform (val (size platform) v) (val (size platform) 0) (val (size platform) n) d2 nd =
    val (size platform) (Z.b2z (condition_holds c (old_status n))).
Proof.
  intros Hv Hn. unfold pc_calculate_condition. rewrite copy_word by done.
  destruct c; vm_compute in Hv; try discriminate Hv; injection Hv as <-.
  all: by destruct platform, (old_status n) as [[] [] [] [] [] []].
Qed.

Lemma flags_word_word platform s : word (size platform) (flags_word s).
Proof. destruct platform, s as [[] [] [] [] [] []]; (split; [done|split; done]). Qed.

(** Saving the flags and restoring them changes no condition: the flags word of
    an operation, copied back, is itself and gives every condition the value it
    has after the operation. *)
Theorem flags_roundtrip (platform : Platform) (op : x86_op) (w code : Z) (d1 d2 n d2' n' : Z) :
  op_code platform op w = Some code →
  let arg x := val (size platform) x in
  ∃ saved,
    pc_calculate_rdata_all platform (arg code) (arg d1) (arg d2) (arg n) = arg saved ∧
    pc_calculate_rdata_all platform (arg 0) (arg saved) (arg d2') (arg n') = arg saved ∧
    ∀ c v, cond_code c = Some v →
      pc_calculate_condition platform (arg v) (arg 0) (arg saved) (arg d2') (arg n') =
      pc_calculate_condition platform (arg v) (arg code) (arg d1) (arg d2) (arg n).
Proof.
  intros H arg. set (s := x86_flags op w (d1 mod 2 ^ w) (d2 mod 2 ^ w) (n mod 2 ^ w)).
  exists (flags_word s). pose proof (flags_word_word platform s). unfold arg. split; [|split].
  - unfold pc_calculate_rdata_all. rewrite (rdata_all_flags platform op w) by done. apply flags_word_encode.
  - unfold pc_calculate_rdata_all. rewrite copy_word by done. by rewrite old_status_flags_word.
  - intros c v Hv. rewrite (copy_condition platform c), old_status_flags_word by done.
    unfold pc_calculate_condition. rewrite (rdata_all_flags platform op w) by done.
    symmetry. by apply (condition_of_encode platform c).
Qed.

Lemma flags_roundtrip_witness :
  op_code AMD64 SHL 16 = Some 30 ∧
  ∃ saved, pc_calculate_rdata_all AMD64 (val 64 30) (val 64 0x8000) (val 64 0xC000) (val 64 0) = val 64 saved ∧
    pc_calculate_condition AMD64 (val 64 2) (val 64 0) (val 64 saved) (val 64 0) (val 64 0) = val 64 1.
Proof.
  split; [reflexivity|].
  destruct (flags_roundtrip AMD64 SHL 16 30 0x8000 0xC000 0 0 0) as (saved & E & _ & Hc); [reflexivity|].
  exists saved. split; [exact E|]. etransitivity; [by apply (Hc CondB 2)|reflexivity].
Defined.

(** The comparison a conditional jump after [CMP x, y] makes. *)
Definition compare (c : CondName) (w x y : Z) : option bool :=
  match c with
  | CondB => Some (x <? y) | CondNB => Some (y <=? x)
  | CondZ => Some (x =? y) | CondNZ => Some (negb (x =? y))
  | CondBE => Some (x <=? y) | CondNBE => Some (y <? x)
  | CondL => Some (to_signed w x <? to_signed w y) | CondNL => Some (to_signed w y <=? to_signed w x)
  | CondLE => Some (to_signed w x <=? to_signed w y) | CondNLE => Some (to_signed w y <? to_signed w x)
  | _ => None
  end.

Lemma difference_zero w x y :
  word w x → word w y → ZF (difference_status w x y 0) = (x =? y).
Proof.
  intros Hx Hy. cbn [difference_status result_status ZF]. rewrite difference_mod by (done || lia).
  destruct Hx, Hy. zcases; lia.
Qed.

Lemma difference_less w x y :
  word w x → word w y →
  xorb (SF (difference_status w x y 0)) (OF (difference_status w x y 0)) = (to_signed w x <? to_signed w y).
Proof.
  intros Hx Hy. cbn [difference_status result_status SF OF]. rewrite difference_mod by (done || lia).
  destruct Hx as [Hw Hx], Hy as [_ Hy]. pose proof (pow2_double w Hw). unfold signed_fits, to_signed. zcases; lia.
Qed.

Lemma holds_compare c w x y b :
  word w x → word w y → compare c w x y = Some b → condition_holds c (difference_status w x y 0) = b.
Proof.
  intros Hx Hy Hb. pose proof (difference_zero w x y Hx Hy) as Ez. pose proof (difference_less w x y Hx Hy) as El.
  assert (CF (difference_status w x y 0) = (x <? y)) as Ec by (cbn; by rewrite Z.add_0_r).
  assert (to_signed w x = to_signed w y ↔ x = y) as Hinj.
  { destruct Hx as [Hw Hx], Hy as [_ Hy]. split; [|by intros ->]. intros E.
    rewrite <-(to_signed_mod w x), <-(to_signed_mod w y) by done. by rewrite E. }
  destruct c; try discriminate; injection Hb as <-; cbn [condition_holds]; rewrite ?Ez, ?El, ?Ec; zcases; lia.
Qed.

(** After a comparison of two operands, the conditions below, above, less,
    greater and their negations are the unsigned and signed comparisons. *)
Theorem compare_exact (platform : Platform) (w code : Z) (c : CondName) (v d1 d2 n : Z) (b : bool) :
  op_code platform SUB w = Some code →
  cond_code c = Some v →
  compare c w (d1 mod 2 ^ w) (d2 mod 2 ^ w) = Some b →
  pc_calculate_condition platform (val (size platform) v) (val (size platform) code) (val (size platform) d1)
    (val (size platform) d2) (val (size platform) n) = val (size platform) (Z.b2z b).
Proof.
  intros H Hv Hb. destruct (op_code_width _ _ _ _ H) as [Hw _].
  unfold pc_calculate_condition. rewrite (rdata_all_flags platform SUB w) by done.
  cbn [mbind result_bind op_concretize concrete_value BVV.value]. rewrite (condition_of_encode platform c) by done.
  do 4 f_equal. apply holds_compare; [apply word_mod; lia..|done].
Qed.

Lemma compare_exact_witness :
  compare CondL 32 (0xFFFFFFFE mod 2 ^ 32) (5 mod 2 ^ 32) = Some true ∧
  pc_calculate_condition AMD64 (val 64 12) (val 64 7) (val 64 0xFFFFFFFE) (val 64 5) (val 64 0) = val 64 1.
Proof.
  split; [reflexivity|]. apply (compare_exact AMD64 32 7 CondL 12 0xFFFFFFFE 5 0 true); reflexivity.
Defined.

(** ** The simplified helpers *)

(** The helper for an operation and a condition, where there is one: a
    specialised function, or a general one for each of the two. *)
Definition simple_helper (op : x86_op) (c : CondName) : option (term → term → term) :=
  match specialised (stem op) (Some c) with
  | Some f => Some f
  | None =>
      match pc_actions_op (stem op), pc_actions_cond c with
      | Some f, Some g => Some (λ a b : term, cc_expr ← f a b; g (Ok cc_expr))
      | _, _ => None
      end
  end.

(** The name without its prefix and its last character. *)
Definition short (op : x86_op) (w : Z) : string :=
  match op with
  | ANDN | BLSI | BLSMSK | BLSR => (stem op ++ if (w =? 32)%Z then "3" else "6")%string
  | _ => stem op
  end.

Lemma invert_op_code platform op w code :
  op_code platform op w = Some code →
  ∃ name, _invert platform code = Ok name ∧ _get_nbits name = Some w ∧
    bool_decide (op_type platform "G_CC_OP_COPY" = Some code) = false ∧
    bool_decide (op_type platform "G_CC_OP_NUMBER" = Some code) = false ∧
    String.substring 8 (String.length name - 9) name = short op w.
Proof.
  intros H. destruct op, platform; widths H; vm_compute in H; injection H as <-.
  all: eexists; split; [vm_compute; reflexivity|repeat split; vm_compute; reflexivity].
Qed.

Lemma short_stem op w :
  pc_actions_op (short op w) = pc_actions_op (stem op) ∧ (short op w =? "SUB")%string = (stem op =? "SUB")%string.
Proof. by destruct op; unfold short; try destruct (w =? 32). Qed.

Lemma cond_name_code platform c v : cond_code c = Some v → cond_name platform v = Some c.
Proof. intros H. destruct c; vm_compute in H; try discriminate H; injection H as <-; by destruct platform. Qed.

Lemma simple_dispatch platform op w code c v d1 d2 nd :
  op_code platform op w = Some code → cond_code c = Some v →
  pc_calculate_condition_simple platform (val (size platform) v) (val (size platform) code) d1 d2 nd =
    (d1 ← d1.[w - 1 : 0]; d2 ← d2.[w - 1 : 0];
     r ← match simple_helper op c with Some f => f (Ok d1) (Ok d2) | None => Err SimCCallError end;
     Concat [BVV 0 (size platform - 1); Ok r])%claripy.
Proof.
  intros H Hv. destruct (invert_op_code _ _ _ _ H) as (name & E & En & E1 & E2 & Es).
  destruct (short_stem op w) as [Eop Esub].
  unfold pc_calculate_condition_simple. cbn [op_concretize concrete_value mbind result_bind BVV.value].
  rewrite E1, E2, E. cbn [mbind result_bind]. rewrite En. cbn [mbind result_bind].
  rewrite (cond_name_code platform c v Hv). unfold simple_helper, specialised. rewrite Es, Eop.
  cbn [mbind option_bind]. rewrite Esub.
  case (Extract (w - 1) 0 d1) as [a|]; [|done]. cbn [mbind result_bind]. case (Extract (w - 1) 0 d2) as [b|]; [|done].
  cbn [mbind result_bind].
  clear Esub Eop Es. destruct (if (stem op =? "SUB")%string then _ else _); [reflexivity|].
  destruct (pc_actions_op _), (pc_actions_cond c); reflexivity.
Qed.

(** The pairs whose simplified helper is the condition on all operands. *)
Definition simplified (op : x86_op) (c : CondName) : bool :=
  match op with
  | SUB | LOGIC => bool_decide (c ∈ [CondZ; CondNZ; CondS; CondB; CondBE; CondNBE; CondL; CondLE; CondNLE])
  | ADD => bool_decide (c ∈ [CondZ; CondNZ; CondS])
  | SHR => bool_decide (c = CondS)
  | _ => false
  end.

(** For every other pair that has a helper: two dependencies of a byte and a third
    one on which it answers something else. *)
Definition divergence (op : x86_op) (c : CondName) : Z * Z * Z :=
  match op, c with
  | ADD, (CondB | CondBE | CondNBE) => (2, 0xFF, 0)
  | ADD, _ => (0x7F, 1, 0)
  | (INC | DEC), CondB => (0, 0, 1)
  | INC, (CondS | CondL) => (0x7F, 0, 0)
  | DEC, (CondLE | CondNLE) => (1, 0, 0)
  | SHL, (CondZ | CondNZ) => (1, 0x80, 0)
  | SHL, (CondS | CondLE | CondNLE) => (1, 7, 0)
  | SHR, CondB => (0, 1, 0)
  | SHL, CondB | (SHL | SHR), CondL => (0, 0x80, 0)
  | SHL, _ => (1, 0x40, 0)
  | SHR, (CondBE | CondNBE) => (1, 2, 0)
  | SHR, _ => (1, 1, 0)
  | _, _ => (0, 0, 0)
  end.

Lemma to_signed_0 w : 1 ≤ w → to_signed w 0 = 0.
Proof. intros. unfold to_signed. pose proof (pow2_pos (w - 1)). zcases; lia. Qed.

(** [_cond_flag] of a comparison of words. *)
Lemma cond_flag b : _cond_flag (Ok b) = flag b.
Proof. apply If_flag. Qed.

Ltac helper :=
  eexists; split; [reflexivity|];
  repeat first
    [ rewrite eq_val | rewrite ne_val | rewrite ULT_val by lia | rewrite ULE_val by lia | rewrite UGT_val by lia
    | rewrite SLT_val by word_side | rewrite SLE_val by word_side | rewrite SGT_val by word_side
    | rewrite sub_val by lia | rewrite add_val by lia | progress cbn [mbind result_bind] | rewrite cond_flag
    | progress ints | rewrite Z.mod_0_l by lia | rewrite to_signed_0 by lia ].

(** The sign of a word, as a comparison with zero. *)
Lemma negative_sign w r : word w r → (to_signed w r <? 0) = (2 ^ (w - 1) <=? r).
Proof. intros [Hw Hr]. pose proof (pow2_double w Hw). unfold to_signed. zcases; lia. Qed.

(** An arithmetic shift keeps the sign. *)
Lemma shifted_sign w x y : word w x → 0 ≤ y → (to_signed w ((to_signed w x / 2 ^ y) mod 2 ^ w) <? 0) = (2 ^ (w - 1) <=? x).
Proof.
  intros Hx Hy. pose proof Hx as [Hw Hx']. rewrite <-(negative_sign w x Hx). pose proof (pow2_double w Hw). pose proof (pow2_pos y Hy).
  assert (- 2 ^ (w - 1) ≤ to_signed w x < 2 ^ (w - 1)) as Hr by (unfold to_signed; zcases; lia).
  set (a := to_signed w x) in *. assert (- 2 ^ (w - 1) ≤ a / 2 ^ y < 2 ^ (w - 1)) as Hq.
  { split; [apply Z.div_le_lower_bound; nia|apply Z.div_lt_upper_bound; nia]. }
  assert ((a / 2 ^ y <? 0) = (a <? 0)) as <-.
  { apply eq_true_iff_eq. rewrite !Z.ltb_lt. split; intros Ha; [|apply Z.div_lt_upper_bound; lia].
    destruct (Z.lt_ge_cases a 0); [done|]. pose proof (Z.div_pos a (2 ^ y)). lia. }
  set (q := a / 2 ^ y) in *. clearbody q a.
  assert (q mod 2 ^ w = if q <? 0 then q + 2 ^ w else q) as ->.
  { destruct (Z.ltb_spec q 0); [symmetry; apply Z.mod_unique with (-1); lia|apply Z.mod_small; lia]. }
  unfold to_signed. zcases; lia.
Qed.

Lemma simple_helper_exact op c w x y n :
  simplified op c = true → word w x → word w y →
  ∃ f, simple_helper op c = Some f ∧ f (val w x) (val w y) = flag (condition_holds c (x86_flags op w x y n)).
Proof.
  intros Hs Hx Hy. pose proof Hx as [Hw Hx']. pose proof (pow2_pos w ltac:(lia)).
  assert (word w 0) by (split; lia). pose proof (pow2_double w Hw).
  assert (∀ b, compare c w x y = Some b → condition_holds c (x86_flags SUB w x y n) = b) as Hc.
  { intros b Hb. by apply holds_compare. }
  destruct (decide (op = SHR)) as [-> |].
  { destruct c; try discriminate Hs. eexists; split; [reflexivity|]. destruct Hy as [_ Hy'].
    rewrite rshift_val by (done || lia). cbn [mbind result_bind]. ints. rewrite Z.mod_0_l by lia.
    assert (word w ((to_signed w x / 2 ^ y) mod 2 ^ w)) by (split; [done|apply Z.mod_pos_bound; lia]).
    rewrite SLT_val, to_signed_0, cond_flag, shifted_sign by (done || lia). cbn [condition_holds x86_flags].
    unfold result_status. cbn [SF]. done. }
  destruct op; try discriminate Hs; try congruence; destruct c; try discriminate Hs; helper.
  all: try (by rewrite (Hc _ eq_refl)); do 4 f_equal; cbn [condition_holds x86_flags]; unfold sum_status, difference_status, result_status; cbn [CF ZF SF OF].
  all: rewrite ?Z.add_0_r, ?Z.sub_0_r, ?xorb_false_r, ?orb_false_l; rewrite ?negative_sign by word_side; try done.
  all: unfold to_signed; zcases; lia.
Qed.

Lemma simplified_agrees platform op w code c v d1 d2 n :
  op_code platform op w = Some code → cond_code c = Some v → simplified op c = true →
  let arg x := val (size platform) x in
  pc_calculate_condition_simple platform (arg v) (arg code) (arg d1) (arg d2) (arg n) =
  pc_calculate_condition platform (arg v) (arg code) (arg d1) (arg d2) (arg n).
Proof.
  intros H Hv Hs arg. unfold arg. rewrite (simple_dispatch platform op w code c) by done.
  destruct (op_code_width _ _ _ _ H) as [Hw _]. rewrite !low_val by lia. cbn [mbind result_bind].
  destruct (simple_helper_exact op c w (d1 mod 2 ^ w) (d2 mod 2 ^ w) (n mod 2 ^ w)) as (f & -> & ->);
    [done|apply word_mod; lia..|].
  unfold pc_calculate_condition. rewrite (rdata_all_flags platform op w) by done.
  etransitivity; [|symmetry; by apply (condition_of_encode platform c)].
  by destruct platform, (condition_holds _ _).
Qed.

(** C26: The pairs of an operation and a condition for which a simplified helper
    exists fall into two classes.  On the pairs of [simplified] (subtraction and
    the logical operations with nine conditions; addition with zero, not zero
    and sign; right shift with sign) the simplified condition is the condition
    of the full helper at every width and on all operands.  On every other pair
    the two differ on some bytes. *)
Theorem simplified_exact (platform : Platform) (op : x86_op) (c : CondName) (v : Z) :
  cond_code c = Some v → is_Some (simple_helper op c) →
  let run f code d1 d2 n :=
    f platform (val (size platform) v) (val (size platform) code) (val (size platform) d1) (val (size platform) d2)
      (val (size platform) n) in
  if simplified op c then
    ∀ w code d1 d2 n, op_code platform op w = Some code →
      run pc_calculate_condition_simple code d1 d2 n = run pc_calculate_condition code d1 d2 n
  else
    ∃ code d1 d2 n, op_code platform op 8 = Some code ∧
      run pc_calculate_condition_simple code d1 d2 n ≠ run pc_calculate_condition code d1 d2 n.
Proof.
  intros Hv Hh run. destruct (simplified op c) eqn:Hs.
  - intros w code d1 d2 n H. by apply (simplified_agrees platform op w code c v).
  - assert (∃ code, op_code platform op 8 = Some code) as [code H].
    { destruct op; try (by destruct Hh as [f Hf]; destruct c); by destruct platform; eexists. }
    exists code, (divergence op c).1.1, (divergence op c).1.2, (divergence op c).2. split; [done|].
    destruct op; try discriminate Hs; destruct c; try discriminate Hs;
      try (destruct Hh as [f Hf]; vm_compute in Hf; discriminate Hf);
      destruct platform; vm_compute in H, Hv; injection H as <-; injection Hv as <-; vm_compute; discriminate.
Qed.

Lemma simplified_exact_witness :
  pc_calculate_condition_simple X86 (val 32 15) (val 32 13) (val 32 0x105) (val 32 0) (val 32 0) =
  pc_calculate_condition X86 (val 32 15) (val 32 13) (val 32 0x105) (val 32 0) (val 32 0).
Proof. apply (simplified_exact X86 LOGIC CondNLE 15) with (w := 8); [reflexivity|by eexists|reflexivity]. Defined.

(** Where there is no helper the simplified condition raises, also through
    [amd64g_calculate_condition], whose fall-back to the full helper expects a
    [KeyError]. *)
Theorem simplified_missing (platform : Platform) (op : x86_op) (w code : Z) (c : CondName) (v d1 d2 n : Z) :
  op_code platform op w = Some code → cond_code c = Some v → simple_helper op c = None →
  let arg x := val (size platform) x in
  pc_calculate_condition_simple platform (arg v) (arg code) (arg d1) (arg d2) (arg n) = Err SimCCallError ∧
  (platform = AMD64 →
   amd64g_calculate_condition true (arg v) (arg code) (arg d1) (arg d2) (arg n) = Err SimCCallError) ∧
  is_ok (pc_calculate_condition platform (arg v) (arg code) (arg d1) (arg d2) (arg n)) = true.
Proof.
  intros H Hv Hs arg. destruct (op_code_width _ _ _ _ H) as [Hw _].
  assert (pc_calculate_condition_simple platform (arg v) (arg code) (arg d1) (arg d2) (arg n) = Err SimCCallError) as E.
  { unfold arg. rewrite (simple_dispatch platform op w code c) by done. rewrite !low_val by lia. by rewrite Hs. }
  split; [done|split].
  - intros ->. unfold amd64g_calculate_condition. by rewrite E.
  - unfold pc_calculate_condition, arg. rewrite (rdata_all_flags platform op w) by done.
    cbn [mbind result_bind op_concretize concrete_value BVV.value]. by rewrite (condition_of_encode platform c).
Qed.

Lemma simplified_missing_witness :
  simple_helper SUB CondNL = None ∧
  amd64g_calculate_condition true (val 64 13) (val 64 8) (val 64 7) (val 64 5) (val 64 0) = Err SimCCallError.
Proof.
  split; [reflexivity|]. apply (simplified_missing AMD64 SUB 64 8 CondNL 13 7 5 0); reflexivity.
Defined.

(** Where the general functions are combined for another operation or
    condition, they answer for another value: the carry of an addition is
    compared with zero, the result of [INC], [DEC] and the shifts is
    incremented, decremented or shifted once more. *)
Lemma simplified_diverges :
  let run f v code d1 d2 := f AMD64 (val 64 v) (val 64 code) (val 64 d1) (val 64 d2) (val 64 0) in
  let differ v code d1 d2 a b :=
    run pc_calculate_condition_simple v code d1 d2 = val 64 a ∧ run pc_calculate_condition v code d1 d2 = val 64 b in
  differ 2 1 0xFF 1 0 1 ∧            (* ADDB, below *)
  differ 12 1 0x7F 1 1 0 ∧           (* ADDB, less *)
  differ 4 21 0 0 0 1 ∧              (* INCB, zero *)
  differ 8 21 0x7F 0 1 0 ∧           (* INCB, sign *)
  differ 4 25 0 0 0 1 ∧              (* DECB, zero *)
  differ 4 29 0x80 0x40 1 0 ∧        (* SHLB, zero *)
  differ 4 33 1 2 1 0.               (* SHRB, zero *)
Proof. by vm_compute. Qed.
End CCallFacts.
