(* ===== verification/CCallX86.v ===== *)
(** * Rotation through the carry

    The x86 and amd64 helpers [RCL] and [RCR] of [CCall] permute the bits of the
    operand and the carry, set the two flags, and undo each other. *)

From Stdlib Require Import ZArith Lia Bool.
From stdpp Require Import base tactics list numbers.
From S2P Require Import Prelude Bvv Claripy CCall CCallFlags.

Module CCallX86.
Import Bvv.BVV(operand, Bv, Num, mkBVV, to_signed) Claripy.Claripy Claripy.Claripy.Notations
  CCall.CCall CCallFlags.CCallFlags.

(** ** Rotation through the carry *)

(** The number of places: the low five or six bits of the count, reduced for
    the narrow operands. *)
Definition rotate_amount (sz r : Z) : Z :=
  if sz =? 1 then (r mod 32) mod 9 else if sz =? 2 then (r mod 32) mod 17
  else if sz =? 4 then r mod 32 else r mod 64.

Definition operand_size (sz : Z) : Prop := sz = 1 ∨ sz = 2 ∨ sz = 4 ∨ sz = 8.

Lemma rotate_amount_bound sz r : operand_size sz → 0 ≤ rotate_amount sz r ≤ 8 * sz.
Proof.
  unfold operand_size, rotate_amount. intros [-> | [-> | [-> | ->]]]; cbn.
  - pose proof (Z.mod_pos_bound (r mod 32) 9). lia.
  - pose proof (Z.mod_pos_bound (r mod 32) 17). lia.
  - pose proof (Z.mod_pos_bound r 32). lia.
  - pose proof (Z.mod_pos_bound r 64). lia.
Qed.

(** A rotation of a word by a word. *)
Lemma rotate_val (left : bool) w x k :
  word w x → word w k →
  ∃ out, word w out ∧ (if left then RotateLeft else RotateRight) (val w x) (val w k) = val w out ∧
    ∀ i, 0 ≤ i < w → Z.testbit out i = Z.testbit x ((if left then i - k else i + k) mod w).
Proof.
  intros Hx Hk. pose proof Hx as [Hw _].
  destruct (BVV.Rotate_Bv (mkBVV x w) (mkBVV k w)) as [Er El].
  { repeat split; try apply word_wf; try done; apply Hx || apply Hk || lia. }
  cbn [BVV.value] in Er, El.
  destruct left.
  - destruct (BVV.RotateLeft_bits (mkBVV x w) k) as ([v b] & E & [_ Hv] & Eb & Hbit); [by apply word_wf|done|].
    cbn in Eb, Hv, Hbit. subst b. exists v. split; [by split|]. split; [|done].
    unfold RotateLeft. method. by rewrite El, E.
  - destruct (BVV.RotateRight_bits (mkBVV x w) k) as ([v b] & E & [_ Hv] & Eb & Hbit); [by apply word_wf|done|].
    cbn in Eb, Hv, Hbit. subst b. exists v. split; [by split|]. split; [|done].
    unfold RotateRight. method. by rewrite Er, E.
Qed.

(** The operand below its carry. *)
Definition with_carry (n : Z) (c : bool) (a : Z) : Z := Z.b2z c * 2 ^ n + a mod 2 ^ n.

Lemma with_carry_word n c a : 1 ≤ n → word (n + 1) (with_carry n c a).
Proof.
  intros. unfold with_carry. pose proof (mod_pow2_bound a n).
  split; [lia|]. rewrite Z.pow_add_r by lia. destruct c; cbn; lia.
Qed.

Lemma small_word n x : 7 < n → 0 ≤ x ≤ n → word n x.
Proof. intros. pose proof (Z.pow_gt_lin_r 2 n). split; lia. Qed.

Lemma mask_val s r n : 7 < s → 1 ≤ n ≤ 6 → word s r → (val s r & #(2 ^ n - 1))%claripy = val s (r mod 2 ^ n).
Proof.
  intros Hs Hn Hr. pose proof (Z.pow_lt_mono_r 2 n s). pose proof (pow2_pos n). assert (word s (2 ^ n - 1)) by (split; lia).
  ints. rewrite (word_small s (2 ^ n - 1)), and_val by done. by rewrite land_mask by lia.
Qed.

Lemma reduce_val s x n : 7 < s → 0 < n < 64 → (val s x %% #n)%claripy = val s (x mod n).
Proof.
  intros Hs Hn. pose proof (Z.pow_le_mono_r 2 7 s). pose proof (Z.mod_pos_bound x n).
  ints. rewrite (Z.mod_small n), mod_val by lia. by rewrite (Z.mod_small (x mod n)) by lia.
Qed.

(** The masked count, and its adjustment to the width of the rotated vector. *)
Lemma masked_amount s sz r :
  7 < s → operand_size sz → word s r →
  (if sz =? 1 then (val s r & #0x1F) %% #9
   else if sz =? 2 then (val s r & #0x1F) %% #17
   else if sz =? 4 then val s r & #0x1F
   else if sz =? 8 then val s r & #0x3F
   else Err UnboundLocalError)%claripy = val s (rotate_amount sz r).
Proof.
  intros Hs Hsz Hr. change 0x1F with (2 ^ 5 - 1). change 0x3F with (2 ^ 6 - 1). rewrite !mask_val by (done || lia).
  unfold rotate_amount. destruct Hsz as [-> | [-> | [-> | ->]]]; cbn [Z.eqb Pos.eqb]; by rewrite ?reduce_val by lia.
Qed.

Lemma adjusted_amount s n k :
  8 ≤ n ≤ s → 0 ≤ k ≤ n →
  (if n =? s then zero_extend 1 (val s k) else (val s k).[n : 0])%claripy = val (n + 1) k.
Proof.
  intros Hn Hk. destruct (Z.eqb_spec n s) as [<-|].
  - rewrite zero_extend_val by (lia || (apply small_word; lia)). done.
  - rewrite Extract_val by lia. rewrite Z.div_1_r. replace (n + 1 - 0) with (n + 1) by lia.
    rewrite Z.mod_small; [done|]. apply (small_word (n + 1)); lia.
Qed.

Definition rotated (left : bool) (n k x out : Z) : Prop :=
  ∀ i, 0 ≤ i < n → Z.testbit out i = Z.testbit x ((if left then i - k else i + k) mod n).

Definition overflow_out (left : bool) (n out : Z) : bool :=
  if left then xorb (Z.testbit out n) (Z.testbit out (n - 1)) else xorb (Z.testbit out (n - 1)) (Z.testbit out (n - 2)).

Lemma generic_rotate_val left s s' a r c sz :
  word s a → word s r → operand_size sz → 8 * sz ≤ s →
  let n := 8 * sz in
  ∃ out, word (n + 1) out ∧ rotated left (n + 1) (rotate_amount sz r) (with_carry n c a) out ∧
    generic_rotate_with_carry left (val s a) (val s r) (flag c) (val s' sz) =
      Ok (flag (Z.testbit out n), flag (overflow_out left n out), val s (out mod 2 ^ n)).
Proof.
  intros Ha Hr Hsz Hle n. pose proof Ha as [Hs _]. pose proof (rotate_amount_bound sz r Hsz) as Hk.
  assert (8 ≤ n) as Hn by (unfold n; destruct Hsz as [-> | [-> | [-> | ->]]]; lia).
  assert (word (n + 1) (rotate_amount sz r)) as Hkw by (apply small_word; unfold n in *; lia).
  destruct (rotate_val left (n + 1) (with_carry n c a) (rotate_amount sz r)) as (out & Hout & E & Hbit);
    [apply with_carry_word; lia|done|].
  exists out. split; [done|split; [exact Hbit|]].
  unfold generic_rotate_with_carry. cbn [concrete_value mbind result_bind BVV.value].
  rewrite (Z.mul_comm sz 8). fold n. change (len (val s ?x)) with (Ok s : result Z). cbn [mbind result_bind].
  destruct (Z.ltb_spec s n); [lia|]. cbn [negb guard_exn mbind result_bind].
  rewrite masked_amount by (done || lia). cbn [len mbind result_bind BVV.bits].
  rewrite adjusted_amount by lia. cbn [len mbind result_bind BVV.bits]. rewrite Z.eqb_refl. cbn [guard_exn mbind result_bind].
  rewrite low_val by lia. cbn [mbind result_bind].
  rewrite Concat_val by (try apply mod_pow2_bound; try lia; destruct c; cbn; lia). cbn [mbind result_bind].
  replace (1 + n) with (n + 1) by lia. fold (with_carry n c a). rewrite E. cbn [mbind result_bind].
  rewrite low_val, bit_val by lia. cbn [mbind result_bind].
  rewrite zero_extend_val by (lia || (apply word_mod; lia)). replace (n + (s - n)) with s by lia. cbn [mbind result_bind].
  destruct left; rewrite !bit_val, xor_flag, !testbit_mod_low by lia; done.
Qed.

(** The flags word with the new carry and overflow. *)
Definition with_CO (e : Z) (c o : bool) : Z := Z.lor (Z.land e (Z.lnot 0x801)) (Z.lor (Z.b2z c) (Z.shiftl (Z.b2z o) 11)).

Lemma with_CO_testbit e c o i :
  0 ≤ i → Z.testbit (with_CO e c o) i = if i =? 0 then c else if i =? 11 then o else Z.testbit e i.
Proof.
  intros Hi. unfold with_CO. rewrite !Z.lor_spec, Z.land_spec, Z.lnot_spec, Z.shiftl_spec by done.
  assert (∀ b j, Z.testbit (Z.b2z b) j = b && (j =? 0)) as Hb.
  { intros b j. destruct (Z.eqb_spec j 0) as [->|]; [by destruct b|]. rewrite andb_false_r.
    destruct b; [apply (Z.pow2_bits_false 0); lia|apply Z.bits_0]. }
  rewrite !Hb. change 0x801 with (Z.lor (2 ^ 11) (2 ^ 0)). rewrite Z.lor_spec, !Z.pow2_bits_eqb by lia.
  rewrite (Z.eqb_sym 11), (Z.eqb_sym 0). replace (i - 11 =? 0) with (i =? 11) by (zcases; lia || done).
  destruct (Z.eqb_spec i 0) as [->|]; [by destruct (Z.testbit e 0), c, o|].
  destruct (i =? 11), (Z.testbit e i), c, o; done.
Qed.

Lemma with_CO_word w e c o : 12 ≤ w → word w e → word w (with_CO e c o).
Proof.
  intros Hw [_ He]. split; [lia|]. assert (0 ≤ with_CO e c o).
  { unfold with_CO. apply Z.lor_nonneg. split; [apply Z.land_nonneg; lia|]. apply Z.lor_nonneg.
    split; [destruct c; done|]. apply Z.shiftl_nonneg. by destruct o. }
  split; [done|]. apply bits_bound; [lia..|]. intros i Hi. rewrite with_CO_testbit by lia.
  destruct (Z.eqb_spec i 0), (Z.eqb_spec i 11); [lia..|]. apply (testbit_high _ w); lia.
Qed.

Lemma rotate_flags_val platform e c o :
  word (size platform) e →
  rotate_flags platform (val (size platform) e) (flag c) (flag o) = val (size platform) (with_CO e c o).
Proof.
  intros He. pose proof (with_CO_word (size platform) e c o) as Hf.
  assert (12 ≤ size platform) as Hs by (by destruct platform). specialize (Hf Hs He).
  pose proof (Z.pow_le_mono_r 2 12 (size platform)).
  unfold rotate_flags. rewrite !zero_extend_val by (lia || by apply word_b2z).
  replace (1 + (size platform - 1)) with (size platform) by lia.
  change (Z.lnot _) with (Z.lnot 0x801). unfold G_CC_SHIFT_C, G_CC_SHIFT_O. ints.
  rewrite (Z.mod_small 0), (Z.mod_small 11) by lia. rewrite !lshift_val by lia.
  assert (word (size platform) (Z.b2z c)) as Hc by (apply word_b2z; lia).
  assert (word (size platform) (Z.b2z o * 2 ^ 11)) as Ho by (split; [lia|destruct o; cbn; lia]).
  change (2 ^ 0) with 1. rewrite Z.mul_1_r, (word_small _ (Z.b2z c)), (word_small _ (Z.b2z o * 2 ^ 11)) by done.
  rewrite and_val by (done || (apply word_mod; lia)).
  rewrite (or_val _ (Z.b2z c)) by done.
  assert (Z.land e (Z.lnot 0x801 mod 2 ^ size platform) = Z.land e (Z.lnot 0x801)) as ->.
  { destruct He as [_ He]. apply Z.bits_inj'. intros i Hi. rewrite !Z.land_spec, testbit_mod_pow2 by lia.
    destruct (Z.ltb_spec i (size platform)); [done|]. by rewrite (testbit_high e (size platform)) by lia. }
  rewrite <-(Z.shiftl_mul_pow2 _ 11) in * by lia. rewrite or_val; [done|..|by apply word_lor].
  destruct He as [_ He]. split; [lia|]. split; [apply Z.land_nonneg; lia|].
  apply bits_bound; [lia|apply Z.land_nonneg; lia|]. intros i Hi. rewrite Z.land_spec.
  by rewrite (testbit_high e (size platform)) by lia.
Qed.

Definition rotate64 (left : bool) : term → term → term → term → term :=
  if left then amd64g_calculate_RCL else amd64g_calculate_RCR.
Definition rotate32 (left : bool) : term → term → term → term → term :=
  if left then x86g_calculate_RCL else x86g_calculate_RCR.

(** The rotated word, and the two answers of the amd64 helper. *)
Lemma rotate64_val left a r e sz :
  word 64 a → word 64 r → word 64 e → operand_size sz →
  let n := 8 * sz in
  ∃ out, word (n + 1) out ∧ rotated left (n + 1) (rotate_amount sz r) (with_carry n (Z.testbit e 0) a) out ∧
    rotate64 left (val 64 a) (val 64 r) (val 64 e) (val 64 sz) = val 64 (out mod 2 ^ n) ∧
    rotate64 left (val 64 a) (val 64 r) (val 64 e) (val 64 (2 ^ 64 - sz)) =
      val 64 (with_CO e (Z.testbit out n) (overflow_out left n out)).
Proof.
  intros Ha Hr He Hsz n. assert (n ≤ 64) as Hn by (unfold n; destruct Hsz as [-> | [-> | [-> | ->]]]; lia).
  destruct (generic_rotate_val left 64 64 a r (Z.testbit e 0) sz Ha Hr Hsz Hn) as (out & Hout & Hrot & E).
  exists out. split; [done|split; [done|]].
  assert (∀ sz', rotate64 left (val 64 a) (val 64 r) (val 64 e) sz' = amd64g_rotate left (val 64 a) (val 64 r) (val 64 e) sz')
    as Er by by destruct left.
  rewrite !Er. unfold amd64g_rotate.
  assert (SLT (val 64 sz) #0 = Ok false ∧ SLT (val 64 (2 ^ 64 - sz)) #0 = Ok true ∧ neg (val 64 (2 ^ 64 - sz)) = val 64 sz)
    as (-> & -> & ->) by (destruct Hsz as [-> | [-> | [-> | ->]]]; done).
  cbn [mbind result_bind]. rewrite bit_val by done. cbn [G_CC_SHIFT_C]. fold (G_CC_SHIFT_C AMD64).
  change (G_CC_SHIFT_C AMD64) with 0. rewrite E. cbn [mbind result_bind]. split; [done|].
  by apply (rotate_flags_val AMD64).
Qed.

Lemma rotate32_val left a r e sz :
  word 32 a → word 32 r → word 32 e → operand_size sz → sz ≤ 4 →
  let n := 8 * sz in
  ∃ out, word (n + 1) out ∧ rotated left (n + 1) (rotate_amount sz r) (with_carry n (Z.testbit e 0) a) out ∧
    rotate32 left (val 32 a) (val 32 r) (val 32 e) (val 32 sz) =
      val 64 (with_CO e (Z.testbit out n) (overflow_out left n out) * 2 ^ 32 + out mod 2 ^ n).
Proof.
  intros Ha Hr He Hsz Hle n.
  destruct (generic_rotate_val left 32 32 a r (Z.testbit e 0) sz Ha Hr Hsz ltac:(lia)) as (out & Hout & Hrot & E).
  exists out. split; [done|split; [done|]].
  transitivity (x86g_rotate left (val 32 a) (val 32 r) (val 32 e) (val 32 sz)); [by destruct left|].
  unfold x86g_rotate. change (G_CC_SHIFT_C X86) with 0. rewrite bit_val by done. rewrite E. cbn [mbind result_bind].
  rewrite (rotate_flags_val X86) by done. fold n. change (size X86) with 32.
  pose proof (with_CO_word 32 e (Z.testbit out n) (overflow_out left n out) ltac:(lia) He) as [_ ?].
  assert (0 ≤ n ≤ 32) by (unfold n; destruct Hsz as [-> | [-> | [-> | ->]]]; lia).
  pose proof (mod_pow2_bound out n). pose proof (Z.pow_le_mono_r 2 n 32).
  by rewrite Concat_val by lia.
Qed.

Lemma with_carry_out n out : 1 ≤ n → word (n + 1) out → with_carry n (Z.testbit out n) (out mod 2 ^ n) = out.
Proof.
  intros Hn Hout. unfold with_carry. rewrite Z.mod_mod by (pose proof (pow2_pos n); lia).
  replace n with (n + 1 - 1) at 1 by lia. rewrite testbit_msb by done. replace (n + 1 - 1) with n by lia.
  destruct Hout as [_ Hout]. rewrite Z.pow_add_r in Hout by lia.
  zcases.
  - assert (out / 2 ^ n = 1) by (symmetry; apply Z.div_unique with (out - 2 ^ n); lia).
    pose proof (Z.div_mod out (2 ^ n)). lia.
  - rewrite Z.mod_small; lia.
Qed.

(** A rotation to the right undoes the rotation to the left. *)
Lemma rotated_inverse n k x out back :
  1 ≤ n → word n x → word n back → rotated true n k x out → rotated false n k out back → back = x.
Proof.
  intros Hn [_ Hx] [_ Hb] H1 H2. apply (bits_inj_below _ _ n); [done..|lia|]. intros i Hi.
  rewrite H2, H1 by (done || (apply Z.mod_pos_bound; lia)). f_equal.
  rewrite Zminus_mod_idemp_l. replace (i + k - k) with i by lia. apply Z.mod_small. lia.
Qed.

(** C28: The amd64 helpers of [RCL] and [RCR] rotate the operand of [8 * sz] bits with the carry above it
    by the count masked to five or six bits; called with the size negated the
    amd64 helpers answer the flags, in which the carry is the bit that was
    rotated out and every flag but the carry and the overflow is kept. *)
Theorem rotate_carry_exact (left : bool) (a r e sz : Z) :
  word 64 a → word 64 r → word 64 e → operand_size sz →
  let n := 8 * sz in
  ∃ out f,
    (∀ i, 0 ≤ i ≤ n → Z.testbit out i = Z.testbit (with_carry n (Z.testbit e 0) a)
       ((if left then i - rotate_amount sz r else i + rotate_amount sz r) mod (n + 1))) ∧
    (∀ i, 0 ≤ i → Z.testbit f i = if i =? 0 then Z.testbit out n
       else if i =? 11 then overflow_out left n out else Z.testbit e i) ∧
    rotate64 left (val 64 a) (val 64 r) (val 64 e) (val 64 sz) = val 64 (out mod 2 ^ n) ∧
    rotate64 left (val 64 a) (val 64 r) (val 64 e) (val 64 (2 ^ 64 - sz)) = val 64 f.
Proof.
  intros Ha Hr He Hsz n. destruct (rotate64_val left a r e sz Ha Hr He Hsz) as (out & _ & Hrot & E1 & E2).
  exists out, (with_CO e (Z.testbit out n) (overflow_out left n out)). split; [intros i Hi; apply Hrot; lia|].
  split; [by intros; apply with_CO_testbit|done].
Qed.

Lemma rotate_carry_exact_witness :
  rotate64 true (val 64 0x81) (val 64 1) (val 64 1) (val 64 1) = val 64 0x03 ∧
  ∃ out f, (∀ i, 0 ≤ i ≤ 8 → Z.testbit out i = Z.testbit 0x181 ((i - 1) mod 9)) ∧
    rotate64 true (val 64 0x81) (val 64 1) (val 64 1) (val 64 (2 ^ 64 - 1)) = val 64 f.
Proof.
  split; [reflexivity|].
  destruct (rotate_carry_exact true 0x81 1 1 1) as (out & f & H1 & _ & _ & H2);
    [split; lia..|by left|]. exists out, f. by split.
Defined.

(** [RCR] undoes [RCL]: with the flags and the result of the rotation to the
    left, it gives back the operand and the carry, on both platforms. *)
Theorem RCR_undoes_RCL (a r e sz : Z) :
  operand_size sz →
  let n := 8 * sz in
  (word 64 a → word 64 r → word 64 e →
   ∃ out f f', rotate64 true (val 64 a) (val 64 r) (val 64 e) (val 64 sz) = val 64 out ∧
     rotate64 true (val 64 a) (val 64 r) (val 64 e) (val 64 (2 ^ 64 - sz)) = val 64 f ∧
     rotate64 false (val 64 out) (val 64 r) (val 64 f) (val 64 sz) = val 64 (a mod 2 ^ n) ∧
     rotate64 false (val 64 out) (val 64 r) (val 64 f) (val 64 (2 ^ 64 - sz)) = val 64 f' ∧
     Z.testbit f' 0 = Z.testbit e 0) ∧
  (word 32 a → word 32 r → word 32 e → sz ≤ 4 →
   ∃ out f f', rotate32 true (val 32 a) (val 32 r) (val 32 e) (val 32 sz) = val 64 (f * 2 ^ 32 + out) ∧
     word 32 out ∧ word 32 f ∧
     rotate32 false (val 32 out) (val 32 r) (val 32 f) (val 32 sz) = val 64 (f' * 2 ^ 32 + a mod 2 ^ n) ∧
     Z.testbit f' 0 = Z.testbit e 0).
Proof.
  intros Hsz n. assert (8 ≤ n ≤ 64) as Hn by (unfold n; destruct Hsz as [-> | [-> | [-> | ->]]]; lia).
  set (k := rotate_amount sz r).
  assert (∀ s out out' o, n ≤ s → word (n + 1) out → word (n + 1) out' →
    rotated true (n + 1) k (with_carry n (Z.testbit e 0) a) out →
    rotated false (n + 1) k (with_carry n (Z.testbit (with_CO e (Z.testbit out n) o) 0) (out mod 2 ^ n)) out' →
    out' mod 2 ^ n = a mod 2 ^ n ∧ Z.testbit out' n = Z.testbit e 0) as back.
  { intros s out out' o Hs Hout Hout' H1 H2. rewrite with_CO_testbit in H2 by lia. cbn [Z.eqb] in H2.
    rewrite with_carry_out in H2 by (done || lia).
    assert (out' = with_carry n (Z.testbit e 0) a) as ->
      by (eapply (rotated_inverse (n + 1)); [lia| |done|exact H1|exact H2]; apply with_carry_word; lia).
    unfold with_carry. rewrite Z.add_comm, Z_mod_plus_full, Z.mod_mod by (pose proof (pow2_pos n); lia). split; [done|].
    rewrite testbit_odd, Z.div_add, Z.div_small by (try apply mod_pow2_bound; pose proof (pow2_pos n); lia).
    by destruct (Z.testbit e 0). }
  assert (∀ s out, n ≤ s → word s (out mod 2 ^ n)) as Hlow
    by (intros s out Hs; apply (word_wider n); [apply word_mod; lia|done]).
  split.
  - intros Ha Hr He. destruct (rotate64_val true a r e sz Ha Hr He Hsz) as (out & Hout & Hrot & E1 & E2).
    set (o := overflow_out true n out) in *. pose proof (with_CO_word 64 e (Z.testbit out n) o ltac:(lia) He) as Hf.
    destruct (rotate64_val false (out mod 2 ^ n) r (with_CO e (Z.testbit out n) o) sz) as (out' & Hout' & Hrot' & E3 & E4);
      [apply Hlow; lia|done..|].
    destruct (back 64 out out' o) as [Eb Ec]; [lia|done..|].
    do 3 eexists. split; [exact E1|]. split; [exact E2|]. split; [by rewrite <-Eb|]. split; [exact E4|].
    rewrite with_CO_testbit by lia. exact Ec.
  - intros Ha Hr He Hle. destruct (rotate32_val true a r e sz Ha Hr He Hsz Hle) as (out & Hout & Hrot & E1).
    fold n in Hout, Hrot, E1. assert (n ≤ 32) by (unfold n; lia).
    set (o := overflow_out true n out) in *. pose proof (with_CO_word 32 e (Z.testbit out n) o ltac:(lia) He) as Hf.
    destruct (rotate32_val false (out mod 2 ^ n) r (with_CO e (Z.testbit out n) o) sz) as (out' & Hout' & Hrot' & E3);
      [apply Hlow; lia|done..|].
    destruct (back 32 out out' o) as [Eb Ec]; [lia|done..|].
    do 3 eexists. split; [exact E1|]. split; [by apply Hlow|]. split; [done|]. split; [by rewrite <-Eb|].
    rewrite with_CO_testbit by lia. exact Ec.
Qed.

Lemma RCR_undoes_RCL_witness :
  operand_size 2 ∧
  ∃ out f f', rotate64 true (val 64 0xABCD) (val 64 21) (val 64 1) (val 64 2) = val 64 out ∧
     rotate64 true (val 64 0xABCD) (val 64 21) (val 64 1) (val 64 (2 ^ 64 - 2)) = val 64 f ∧
     rotate64 false (val 64 out) (val 64 21) (val 64 f) (val 64 2) = val 64 0xABCD ∧
     rotate64 false (val 64 out) (val 64 21) (val 64 f) (val 64 (2 ^ 64 - 2)) = val 64 f' ∧
     Z.testbit f' 0 = true.
Proof.
  split; [right; by left|]. apply (RCR_undoes_RCL 0xABCD 21 1 2); [right; by left|split; lia..].
Defined.
End CCallX86.
