(* ===== verification/CCallArm.v ===== *)
(** * VEX condition codes: [angr/engines/vex/claripy/ccall.py], ARM and AArch64

    The helpers for the flags N, Z, C and V of ARM and AArch64, over concrete
    arguments, in the style of [CCall].  The first argument of the condition
    helpers has the operation in its low four bits and the condition above. *)

From Stdlib Require Import ZArith Lia Bool.
From stdpp Require Import base tactics list numbers.
From S2P Require Import Prelude Bvv Claripy CCall.

Module CCallArm.
Import Bvv.BVV(operand, Bv, Num) Claripy.Claripy Claripy.Claripy.Notations CCall.CCall.
Open Scope claripy_scope.
Open Scope Z_scope.

(** ** The constants *)

Definition ARMCondEQ : Z := 0.
Definition ARMCondNE : Z := 1.
Definition ARMCondHS : Z := 2.
Definition ARMCondLO : Z := 3.
Definition ARMCondMI : Z := 4.
Definition ARMCondPL : Z := 5.
Definition ARMCondVS : Z := 6.
Definition ARMCondVC : Z := 7.
Definition ARMCondHI : Z := 8.
Definition ARMCondLS : Z := 9.
Definition ARMCondGE : Z := 10.
Definition ARMCondLT : Z := 11.
Definition ARMCondGT : Z := 12.
Definition ARMCondLE : Z := 13.
Definition ARMCondAL : Z := 14.
Definition ARMCondNV : Z := 15.
Definition ARMG_CC_OP_COPY : Z := 0.
Definition ARMG_CC_OP_ADD : Z := 1.
Definition ARMG_CC_OP_SUB : Z := 2.
Definition ARMG_CC_OP_ADC : Z := 3.
Definition ARMG_CC_OP_SBB : Z := 4.
Definition ARMG_CC_OP_LOGIC : Z := 5.
Definition ARMG_CC_OP_MUL : Z := 6.
Definition ARMG_CC_OP_MULL : Z := 7.
Definition ARMG_CC_OP_NUMBER : Z := 8.
Definition ARMG_CC_SHIFT_N : Z := 31.
Definition ARMG_CC_SHIFT_Z : Z := 30.
Definition ARMG_CC_SHIFT_C : Z := 29.
Definition ARMG_CC_SHIFT_V : Z := 28.
Definition ARMG_CC_SHIFT_Q : Z := 27.
Definition ARMG_NBITS : Z := 32.

(** ** ARM *)

(** The flags share the shape of their last lines: [None] raises. *)
Definition flag_or_raise (flag : option term) : term :=
  match flag with Some f => f | None => Err SimCCallError end.

Definition armg_calculate_flag_n (cc_op cc_dep1 cc_dep2 cc_dep3 : term) : term :=
  concrete_op ← op_concretize cc_op;
  flag_or_raise
    (if concrete_op =? ARMG_CC_OP_COPY then Some (LShR cc_dep1 #ARMG_CC_SHIFT_N & #1)
     else if concrete_op =? ARMG_CC_OP_ADD then Some (LShR (cc_dep1 + cc_dep2) #31)
     else if concrete_op =? ARMG_CC_OP_SUB then Some (LShR (cc_dep1 - cc_dep2) #31)
     else if concrete_op =? ARMG_CC_OP_ADC then Some (LShR (cc_dep1 + cc_dep2 + cc_dep3) #31)
     else if concrete_op =? ARMG_CC_OP_SBB then Some (LShR (cc_dep1 - cc_dep2 - (cc_dep3 ^' #1)) #31)
     else if (concrete_op =? ARMG_CC_OP_LOGIC) || (concrete_op =? ARMG_CC_OP_MUL) then Some (LShR cc_dep1 #31)
     else if concrete_op =? ARMG_CC_OP_MULL then Some (LShR cc_dep2 #31)
     else None)%claripy.

Definition arm_zerobit (x : term) : term := zero_extend 31 (calc_zerobit x).

Definition armg_calculate_flag_z (cc_op cc_dep1 cc_dep2 cc_dep3 : term) : term :=
  concrete_op ← op_concretize cc_op;
  flag_or_raise
    (if concrete_op =? ARMG_CC_OP_COPY then Some (LShR cc_dep1 #ARMG_CC_SHIFT_Z & #1)
     else if concrete_op =? ARMG_CC_OP_ADD then Some (arm_zerobit (cc_dep1 + cc_dep2))
     else if concrete_op =? ARMG_CC_OP_SUB then Some (arm_zerobit (cc_dep1 - cc_dep2))
     else if concrete_op =? ARMG_CC_OP_ADC then Some (arm_zerobit (cc_dep1 + cc_dep2 + cc_dep3))
     else if concrete_op =? ARMG_CC_OP_SBB then Some (arm_zerobit (cc_dep1 - cc_dep2 - (cc_dep3 ^' #1)))
     else if (concrete_op =? ARMG_CC_OP_LOGIC) || (concrete_op =? ARMG_CC_OP_MUL) then Some (arm_zerobit cc_dep1)
     else if concrete_op =? ARMG_CC_OP_MULL then Some (arm_zerobit (cc_dep1 |' cc_dep2))
     else None)%claripy.

Definition armg_calculate_flag_c (cc_op cc_dep1 cc_dep2 cc_dep3 : term) : term :=
  concrete_op ← op_concretize cc_op;
  flag_or_raise
    (if concrete_op =? ARMG_CC_OP_COPY then Some (LShR cc_dep1 #ARMG_CC_SHIFT_C & #1)
     else if concrete_op =? ARMG_CC_OP_ADD then Some (boolean_extend ULT (cc_dep1 + cc_dep2) cc_dep1 32)
     else if concrete_op =? ARMG_CC_OP_SUB then Some (boolean_extend UGE cc_dep1 cc_dep2 32)
     else if concrete_op =? ARMG_CC_OP_ADC then
       let res := cc_dep1 + cc_dep2 + cc_dep3 in
       Some (If (cc_dep3 != #0) (boolean_extend ULE res cc_dep1 32) (boolean_extend ULT res cc_dep1 32))
     else if concrete_op =? ARMG_CC_OP_SBB then
       Some (If (cc_dep3 != #0) (boolean_extend UGE cc_dep1 cc_dep2 32) (boolean_extend UGT cc_dep1 cc_dep2 32))
     else if concrete_op =? ARMG_CC_OP_LOGIC then Some cc_dep2
     else if (concrete_op =? ARMG_CC_OP_MUL) || (concrete_op =? ARMG_CC_OP_MULL) then Some (LShR cc_dep3 #1 & #1)
     else None)%claripy.

Definition armg_calculate_flag_v (cc_op cc_dep1 cc_dep2 cc_dep3 : term) : term :=
  concrete_op ← op_concretize cc_op;
  flag_or_raise
    (if concrete_op =? ARMG_CC_OP_COPY then Some (LShR cc_dep1 #ARMG_CC_SHIFT_V & #1)
     else if concrete_op =? ARMG_CC_OP_ADD then
       let res := cc_dep1 + cc_dep2 in
       Some (LShR ((res ^' cc_dep1) & (res ^' cc_dep2)) #31)
     else if concrete_op =? ARMG_CC_OP_SUB then
       let res := cc_dep1 - cc_dep2 in
       Some (LShR ((cc_dep1 ^' cc_dep2) & (cc_dep1 ^' res)) #31)
     else if concrete_op =? ARMG_CC_OP_ADC then
       let res := cc_dep1 + cc_dep2 + cc_dep3 in
       Some (LShR ((res ^' cc_dep1) & (res ^' cc_dep2)) #31)
     else if concrete_op =? ARMG_CC_OP_SBB then
       let res := cc_dep1 - cc_dep2 - (cc_dep3 ^' #1) in
       Some (LShR ((cc_dep1 ^' cc_dep2) & (cc_dep1 ^' res)) #31)
     else if concrete_op =? ARMG_CC_OP_LOGIC then Some cc_dep3
     else if (concrete_op =? ARMG_CC_OP_MUL) || (concrete_op =? ARMG_CC_OP_MULL) then Some (cc_dep3 & #1)
     else None)%claripy.

Definition armg_calculate_flags_nzcv (cc_op cc_dep1 cc_dep2 cc_dep3 : term) : term :=
  n ← armg_calculate_flag_n cc_op cc_dep1 cc_dep2 cc_dep3;
  z ← armg_calculate_flag_z cc_op cc_dep1 cc_dep2 cc_dep3;
  c ← armg_calculate_flag_c cc_op cc_dep1 cc_dep2 cc_dep3;
  v ← armg_calculate_flag_v cc_op cc_dep1 cc_dep2 cc_dep3;
  _concat_flags ARMG_NBITS
    [(ARMG_CC_SHIFT_N, Extract 0 0 (Ok n)); (ARMG_CC_SHIFT_Z, Extract 0 0 (Ok z));
     (ARMG_CC_SHIFT_C, Extract 0 0 (Ok c)); (ARMG_CC_SHIFT_V, Extract 0 0 (Ok v))].

Definition armg_calculate_condition (cond_n_op cc_dep1 cc_dep2 cc_dep3 : term) : term :=
  concrete_cond_n_op ← op_concretize cond_n_op;
  let cond := Z.shiftr concrete_cond_n_op 4 in
  let cc_op := #(Z.land concrete_cond_n_op 0xF) in
  let inv := #(Z.land cond 1) in
  let nf := armg_calculate_flag_n cc_op cc_dep1 cc_dep2 cc_dep3 in
  let zf := armg_calculate_flag_z cc_op cc_dep1 cc_dep2 cc_dep3 in
  let cf := armg_calculate_flag_c cc_op cc_dep1 cc_dep2 cc_dep3 in
  let vf := armg_calculate_flag_v cc_op cc_dep1 cc_dep2 cc_dep3 in
  let among a b := (cond =? a) || (cond =? b) in
  (if cond =? ARMCondAL then BVV 1 32
   else if among ARMCondEQ ARMCondNE then inv ^' zf
   else if among ARMCondHS ARMCondLO then inv ^' cf
   else if among ARMCondMI ARMCondPL then inv ^' nf
   else if among ARMCondVS ARMCondVC then inv ^' vf
   else if among ARMCondHI ARMCondLS then inv ^' (cf & invert zf)
   else if among ARMCondGE ARMCondLT then inv ^' (#1 & invert (nf ^' vf))
   else if among ARMCondGT ARMCondLE then inv ^' (#1 & invert (zf |' (nf ^' vf)))
   else Err SimCCallError)%claripy.

(** ** AArch64 *)

Definition ARM64G_CC_SHIFT_N : Z := 31.
Definition ARM64G_CC_SHIFT_Z : Z := 30.
Definition ARM64G_CC_SHIFT_C : Z := 29.
Definition ARM64G_CC_SHIFT_V : Z := 28.
Definition ARM64G_CC_OP_COPY : Z := 0.
Definition ARM64G_CC_OP_ADD32 : Z := 1.
Definition ARM64G_CC_OP_ADD64 : Z := 2.
Definition ARM64G_CC_OP_SUB32 : Z := 3.
Definition ARM64G_CC_OP_SUB64 : Z := 4.
Definition ARM64G_CC_OP_ADC32 : Z := 5.
Definition ARM64G_CC_OP_ADC64 : Z := 6.
Definition ARM64G_CC_OP_SBC32 : Z := 7.
Definition ARM64G_CC_OP_SBC64 : Z := 8.
Definition ARM64G_CC_OP_LOGIC32 : Z := 9.
Definition ARM64G_CC_OP_LOGIC64 : Z := 10.
Definition ARM64G_CC_OP_NUMBER : Z := 11.
Definition ARM64CondEQ : Z := 0.
Definition ARM64CondNE : Z := 1.
Definition ARM64CondCS : Z := 2.
Definition ARM64CondCC : Z := 3.
Definition ARM64CondMI : Z := 4.
Definition ARM64CondPL : Z := 5.
Definition ARM64CondVS : Z := 6.
Definition ARM64CondVC : Z := 7.
Definition ARM64CondHI : Z := 8.
Definition ARM64CondLS : Z := 9.
Definition ARM64CondGE : Z := 10.
Definition ARM64CondLT : Z := 11.
Definition ARM64CondGT : Z := 12.
Definition ARM64CondLE : Z := 13.
Definition ARM64CondAL : Z := 14.
Definition ARM64CondNV : Z := 15.
Definition ARM64G_NBITS : Z := 64.

Definition u64_to_u32 (n : term) : term := n.[31 : 0].

Definition is_op (cc_op : Z) (l : list Z) : bool := existsb (Z.eqb cc_op) l.

(** Truncate the operands of the 32-bit operations. *)
Definition arm64g_32bit_truncate_operands (cc_op : Z) (cc_dep1 cc_dep2 cc_dep3 : term) : term * term * term :=
  if is_op cc_op [ARM64G_CC_OP_ADD32; ARM64G_CC_OP_SUB32] then (u64_to_u32 cc_dep1, u64_to_u32 cc_dep2, cc_dep3)
  else if is_op cc_op [ARM64G_CC_OP_ADC32; ARM64G_CC_OP_SBC32] then
    (u64_to_u32 cc_dep1, u64_to_u32 cc_dep2, u64_to_u32 cc_dep3)
  else if cc_op =? ARM64G_CC_OP_LOGIC32 then (u64_to_u32 cc_dep1, cc_dep2, cc_dep3)
  else (cc_dep1, cc_dep2, cc_dep3).

(** [if len(flag) == 32: flag = flag.zero_extend(32)]. *)
Definition to_64 (flag : term) : term :=
  n ← len flag; if n =? 32 then zero_extend 32 flag else flag.

Definition arm64g_calculate_flag_n (cc_op cc_dep1 cc_dep2 cc_dep3 : term) : term :=
  concrete_op ← op_concretize cc_op;
  let '(cc_dep1, cc_dep2, cc_dep3) := arm64g_32bit_truncate_operands concrete_op cc_dep1 cc_dep2 cc_dep3 in
  flag_or_raise (to_64 <$>
    (if concrete_op =? ARM64G_CC_OP_COPY then Some (LShR cc_dep1 #ARM64G_CC_SHIFT_N & #1)
     else if concrete_op =? ARM64G_CC_OP_ADD32 then Some (LShR (cc_dep1 + cc_dep2) #31)
     else if concrete_op =? ARM64G_CC_OP_ADD64 then Some (LShR (cc_dep1 + cc_dep2) #63)
     else if concrete_op =? ARM64G_CC_OP_SUB32 then Some (LShR (cc_dep1 - cc_dep2) #31)
     else if concrete_op =? ARM64G_CC_OP_SUB64 then Some (LShR (cc_dep1 - cc_dep2) #63)
     else if concrete_op =? ARM64G_CC_OP_ADC32 then Some (LShR (cc_dep1 + cc_dep2 + cc_dep3) #31)
     else if concrete_op =? ARM64G_CC_OP_ADC64 then Some (LShR (cc_dep1 + cc_dep2 + cc_dep3) #63)
     else if concrete_op =? ARM64G_CC_OP_SBC32 then Some (LShR (cc_dep1 - cc_dep2 - (cc_dep3 ^' #1)) #31)
     else if concrete_op =? ARM64G_CC_OP_SBC64 then Some (LShR (cc_dep1 - cc_dep2 - (cc_dep3 ^' #1)) #63)
     else if concrete_op =? ARM64G_CC_OP_LOGIC32 then Some (LShR cc_dep1 #31)
     else if concrete_op =? ARM64G_CC_OP_LOGIC64 then Some (LShR cc_dep1 #63)
     else None)%claripy).

Definition arm64_zerobit (x : term) : term := zero_extend 63 (calc_zerobit x).

Definition arm64g_calculate_flag_z (cc_op cc_dep1 cc_dep2 cc_dep3 : term) : term :=
  concrete_op ← op_concretize cc_op;
  let '(cc_dep1, cc_dep2, cc_dep3) := arm64g_32bit_truncate_operands concrete_op cc_dep1 cc_dep2 cc_dep3 in
  let among := is_op concrete_op in
  flag_or_raise (to_64 <$>
    (if concrete_op =? ARM64G_CC_OP_COPY then Some (LShR cc_dep1 #ARM64G_CC_SHIFT_Z & #1)
     else if among [ARM64G_CC_OP_ADD32; ARM64G_CC_OP_ADD64] then Some (arm64_zerobit (cc_dep1 + cc_dep2))
     else if among [ARM64G_CC_OP_SUB32; ARM64G_CC_OP_SUB64] then Some (arm64_zerobit (cc_dep1 - cc_dep2))
     else if among [ARM64G_CC_OP_ADC32; ARM64G_CC_OP_ADC64] then Some (arm64_zerobit (cc_dep1 + cc_dep2 + cc_dep3))
     else if among [ARM64G_CC_OP_SBC32; ARM64G_CC_OP_SBC64] then
       Some (arm64_zerobit (cc_dep1 - cc_dep2 - (cc_dep3 ^' #1)))
     else if among [ARM64G_CC_OP_LOGIC32; ARM64G_CC_OP_LOGIC64] then Some (arm64_zerobit cc_dep1)
     else None)%claripy).

Definition arm64g_calculate_flag_c (cc_op cc_dep1 cc_dep2 cc_dep3 : term) : term :=
  concrete_op ← op_concretize cc_op;
  let '(cc_dep1, cc_dep2, cc_dep3) := arm64g_32bit_truncate_operands concrete_op cc_dep1 cc_dep2 cc_dep3 in
  let among := is_op concrete_op in
  flag_or_raise
    (if concrete_op =? ARM64G_CC_OP_COPY then Some (LShR cc_dep1 #ARM64G_CC_SHIFT_C & #1)
     else if among [ARM64G_CC_OP_ADD32; ARM64G_CC_OP_ADD64] then
       Some (boolean_extend ULT (cc_dep1 + cc_dep2) cc_dep1 64)
     else if among [ARM64G_CC_OP_SUB32; ARM64G_CC_OP_SUB64] then Some (boolean_extend UGE cc_dep1 cc_dep2 64)
     else if among [ARM64G_CC_OP_ADC32; ARM64G_CC_OP_ADC64] then
       let res := cc_dep1 + cc_dep2 + cc_dep3 in
       Some (If (cc_dep3 != #0) (boolean_extend ULE res cc_dep1 64) (boolean_extend ULT res cc_dep1 64))
     else if among [ARM64G_CC_OP_SBC32; ARM64G_CC_OP_SBC64] then
       Some (If (cc_dep3 != #0) (boolean_extend UGE cc_dep1 cc_dep2 64) (boolean_extend UGT cc_dep1 cc_dep2 64))
     else if among [ARM64G_CC_OP_LOGIC32; ARM64G_CC_OP_LOGIC64] then Some (BVV 0 64)
     else None)%claripy.

(** The 32-bit cases cut the operands once more and widen the flag. *)
Definition arm64g_calculate_flag_v (cc_op cc_dep1 cc_dep2 cc_dep3 : term) : term :=
  concrete_op ← op_concretize cc_op;
  let '(cc_dep1, cc_dep2, cc_dep3) := arm64g_32bit_truncate_operands concrete_op cc_dep1 cc_dep2 cc_dep3 in
  let sum_overflow res d1 d2 := ((res ^' d1) & (res ^' d2))%claripy in
  let difference_overflow res d1 d2 := ((d1 ^' d2) & (d1 ^' res))%claripy in
  let d1 := cc_dep1.[31 : 0] in
  let d2 := cc_dep2.[31 : 0] in
  flag_or_raise
    (if concrete_op =? ARM64G_CC_OP_COPY then Some (LShR cc_dep1 #ARM64G_CC_SHIFT_V & #1)
     else if concrete_op =? ARM64G_CC_OP_ADD32 then Some (zero_extend 32 (LShR (sum_overflow (d1 + d2) d1 d2) #31))
     else if concrete_op =? ARM64G_CC_OP_ADD64 then
       Some (LShR (sum_overflow (cc_dep1 + cc_dep2) cc_dep1 cc_dep2) #63)
     else if concrete_op =? ARM64G_CC_OP_SUB32 then
       Some (zero_extend 32 (LShR (difference_overflow (d1 - d2) d1 d2) #31))
     else if concrete_op =? ARM64G_CC_OP_SUB64 then
       Some (LShR (difference_overflow (cc_dep1 - cc_dep2) cc_dep1 cc_dep2) #63)
     else if concrete_op =? ARM64G_CC_OP_ADC32 then
       Some (zero_extend 32 (LShR (sum_overflow (d1 + d2 + cc_dep3) d1 d2) #31))
     else if concrete_op =? ARM64G_CC_OP_ADC64 then
       Some (LShR (sum_overflow (cc_dep1 + cc_dep2 + cc_dep3) cc_dep1 cc_dep2) #63)
     else if concrete_op =? ARM64G_CC_OP_SBC32 then
       Some (zero_extend 32 (LShR (difference_overflow (d1 - d2 - (cc_dep3 ^' #1)) d1 d2) #31))
     else if concrete_op =? ARM64G_CC_OP_SBC64 then
       Some (LShR (difference_overflow (cc_dep1 - cc_dep2 - (cc_dep3 ^' #1)) cc_dep1 cc_dep2) #63)
     else if is_op concrete_op [ARM64G_CC_OP_LOGIC32; ARM64G_CC_OP_LOGIC64] then Some (BVV 0 64)
     else None)%claripy.

Definition arm64g_calculate_flags_nzcv (cc_op cc_dep1 cc_dep2 cc_dep3 : term) : term :=
  n ← arm64g_calculate_flag_n cc_op cc_dep1 cc_dep2 cc_dep3;
  z ← arm64g_calculate_flag_z cc_op cc_dep1 cc_dep2 cc_dep3;
  c ← arm64g_calculate_flag_c cc_op cc_dep1 cc_dep2 cc_dep3;
  v ← arm64g_calculate_flag_v cc_op cc_dep1 cc_dep2 cc_dep3;
  _concat_flags ARM64G_NBITS
    [(ARM64G_CC_SHIFT_N, Extract 0 0 (Ok n)); (ARM64G_CC_SHIFT_Z, Extract 0 0 (Ok z));
     (ARM64G_CC_SHIFT_C, Extract 0 0 (Ok c)); (ARM64G_CC_SHIFT_V, Extract 0 0 (Ok v))].

Definition arm64g_calculate_condition (cond_n_op cc_dep1 cc_dep2 cc_dep3 : term) : term :=
  concretize_cond_n_op ← op_concretize cond_n_op;
  let cond := Z.shiftr concretize_cond_n_op 4 in
  let cc_op := #(Z.land concretize_cond_n_op 0xF) in
  let inv := #(Z.land cond 1) in
  let nf := arm64g_calculate_flag_n cc_op cc_dep1 cc_dep2 cc_dep3 in
  let zf := arm64g_calculate_flag_z cc_op cc_dep1 cc_dep2 cc_dep3 in
  let cf := arm64g_calculate_flag_c cc_op cc_dep1 cc_dep2 cc_dep3 in
  let vf := arm64g_calculate_flag_v cc_op cc_dep1 cc_dep2 cc_dep3 in
  let among a b := (cond =? a) || (cond =? b) in
  (if among ARM64CondAL ARM64CondNV then BVV 1 64
   else if among ARM64CondEQ ARM64CondNE then inv ^' zf
   else if among ARM64CondCS ARM64CondCC then inv ^' cf
   else if among ARM64CondMI ARM64CondPL then inv ^' nf
   else if among ARM64CondVS ARM64CondVC then inv ^' vf
   else if among ARM64CondHI ARM64CondLS then inv ^' (#1 & (cf & invert zf))
   else if among ARM64CondGE ARM64CondLT then inv ^' (#1 & invert (nf ^' vf))
   else if among ARM64CondGT ARM64CondLE then inv ^' (#1 & invert (zf |' (nf ^' vf)))
   else Err SimCCallError)%claripy.

(** ** The flags register of a state *)

(** [state.arch.name], as far as [_get_flags] tells it apart. *)
Inductive FlagsArch := ArchX86 | ArchAMD64 | ArchARM | ArchAARCH64 | ArchOther.

(** [regs] are the registers [cc_op], [cc_dep1], [cc_dep2] and [cc_ndep]; the
    helper called with concrete arguments never asks for a case split. *)
Definition _get_flags (arch : FlagsArch) (cc_op cc_dep1 cc_dep2 cc_ndep : term) : option term :=
  let func :=
    match arch with
    | ArchX86 => Some x86g_calculate_eflags_all
    | ArchAMD64 => Some amd64g_calculate_rflags_all
    | ArchARM => Some armg_calculate_flags_nzcv
    | ArchAARCH64 => Some arm64g_calculate_flags_nzcv
    | ArchOther => None
    end in
  (λ f, f cc_op cc_dep1 cc_dep2 cc_ndep) <$> func.

(** CMP r0, r1 with 3 and 5: lower. *)
Example cmp_lower :
  armg_calculate_condition (BVV 0x32 32) (BVV 3 32) (BVV 5 32) (BVV 0 32) = BVV 1 32 ∧
  arm64g_calculate_condition (BVV 0x33 64) (BVV 3 64) (BVV 5 64) (BVV 0 64) = BVV 1 64 ∧
  armg_calculate_flags_nzcv (BVV 2 32) (BVV 3 32) (BVV 3 32) (BVV 0 32) = BVV 0x60000000 32.
Proof. by vm_compute. Qed.
End CCallArm.
