(* ===== verification/CCallArmFacts.v ===== *)
(** * The ARM and AArch64 helpers are right

    [arm_flags] and [arm64_flags] say which flags an operation sets; the
    theorems on [CCallArm] say that the helpers compute them, that a condition
    is the combination of flags its name stands for, and that the conditions
    after a comparison are the signed and unsigned comparisons. *)

From Stdlib Require Import ZArith Lia Bool.
From stdpp Require Import base tactics list numbers.
From S2P Require Import Prelude Bvv Claripy CCall CCallFlags CCallFacts CCallArm.

Module CCallArmFacts.
Import Bvv.BVV(operand, Bv, Num, mkBVV, to_signed, to_signed_mod) Claripy.Claripy Claripy.Claripy.Notations
  CCall.CCall CCallFlags.CCallFlags CCallFacts.CCallFacts(difference_zero, difference_less) CCallArm.CCallArm.

(** ** The specification *)

Record nzcv := mkNZCV { fN : bool; fZ : bool; fC : bool; fV : bool }.

(** The carry of a subtraction is the negation of the borrow. *)
Definition of_sum (s : status) : nzcv := mkNZCV (SF s) (ZF s) (CF s) (OF s).
Definition of_difference (s : status) : nzcv := mkNZCV (SF s) (ZF s) (negb (CF s)) (OF s).

(** The flags in the top four bits of a 32-bit word. *)
Definition stored (x : Z) : nzcv := mkNZCV (Z.testbit x 31) (Z.testbit x 30) (Z.testbit x 29) (Z.testbit x 28).

Definition nzcv_word (s : nzcv) : Z :=
  2 ^ 31 * Z.b2z (fN s) + 2 ^ 30 * Z.b2z (fZ s) + 2 ^ 29 * Z.b2z (fC s) + 2 ^ 28 * Z.b2z (fV s).

Inductive arm_op := A_COPY | A_ADD | A_SUB | A_ADC | A_SBB | A_LOGIC | A_MUL | A_MULL.

Definition arm_code (op : arm_op) : Z :=
  match op with
  | A_COPY => 0 | A_ADD => 1 | A_SUB => 2 | A_ADC => 3 | A_SBB => 4 | A_LOGIC => 5 | A_MUL => 6 | A_MULL => 7
  end.

(** The dependencies that hold a flag are zero or one. *)
Definition arm_deps (op : arm_op) (d2 d3 : Z) : Prop :=
  match op with
  | A_ADC | A_SBB => 0 ≤ d3 ≤ 1
  | A_LOGIC => 0 ≤ d2 ≤ 1 ∧ 0 ≤ d3 ≤ 1
  | _ => True
  end.

Definition arm_flags (op : arm_op) (d1 d2 d3 : Z) : nzcv :=
  match op with
  | A_COPY => stored d1
  | A_ADD => of_sum (sum_status 32 d1 d2 0)
  | A_SUB => of_difference (difference_status 32 d1 d2 0)
  | A_ADC => of_sum (sum_status 32 d1 d2 d3)
  | A_SBB => of_difference (difference_status 32 d1 d2 (1 - d3))
  | A_LOGIC => mkNZCV (2 ^ 31 <=? d1) (d1 =? 0) (d2 =? 1) (d3 =? 1)
  | A_MUL => mkNZCV (2 ^ 31 <=? d1) (d1 =? 0) (Z.testbit d3 1) (Z.testbit d3 0)
  | A_MULL => mkNZCV (2 ^ 31 <=? d2) ((d1 =? 0) && (d2 =? 0)) (Z.testbit d3 1) (Z.testbit d3 0)
  end.

Inductive arm64_op := X_COPY | X_ADD (w : Z) | X_SUB (w : Z) | X_ADC (w : Z) | X_SBC (w : Z) | X_LOGIC (w : Z).

(** The operand size of an operation and its number. *)
Definition arm64_width (op : arm64_op) : Z :=
  match op with X_COPY => 64 | X_ADD w | X_SUB w | X_ADC w | X_SBC w | X_LOGIC w => w end.

Definition arm64_code (op : arm64_op) : option Z :=
  let by_width w n m := if w =? 32 then Some n else if w =? 64 then Some m else None in
  match op with
  | X_COPY => Some 0
  | X_ADD w => by_width w 1 2 | X_SUB w => by_width w 3 4 | X_ADC w => by_width w 5 6
  | X_SBC w => by_width w 7 8 | X_LOGIC w => by_width w 9 10
  end.

Definition arm64_deps (op : arm64_op) (d3 : Z) : Prop :=
  match op with X_ADC _ | X_SBC _ => 0 ≤ d3 ≤ 1 | _ => True end.

Definition arm64_flags (op : arm64_op) (d1 d2 d3 : Z) : nzcv :=
  let m x := x mod 2 ^ arm64_width op in
  match op with
  | X_COPY => stored d1
  | X_ADD w => of_sum (sum_status w (m d1) (m d2) 0)
  | X_SUB w => of_difference (difference_status w (m d1) (m d2) 0)
  | X_ADC w => of_sum (sum_status w (m d1) (m d2) d3)
  | X_SBC w => of_difference (difference_status w (m d1) (m d2) (1 - d3))
  | X_LOGIC w => mkNZCV (2 ^ (w - 1) <=? m d1) (m d1 =? 0) false false
  end.

(** The conditions, by their number; fifteen is refused on ARM and always
    holds on AArch64. *)
Definition arm_condition (cond : Z) (s : nzcv) : bool :=
  let holds :=
    match cond / 2 with
    | 0 => fZ s | 1 => fC s | 2 => fN s | 3 => fV s
    | 4 => fC s && negb (fZ s)
    | 5 => eqb (fN s) (fV s)
    | 6 => negb (fZ s) && eqb (fN s) (fV s)
    | _ => true
    end in
  if (cond mod 2 =? 1) && (cond <? 14) then negb holds else holds.

(** ** One flag at a time *)

Section Flag.
Context (w : Z) (Hw : 8 ≤ w).

(** The top bit of a word, as the helpers read it. *)
Lemma top_bit x k : word w x → k = w - 1 → LShR (val w x) #k = val w (Z.b2z (2 ^ k <=? x)).
Proof.
  intros Hx ->. assert (word w (w - 1)) by (apply word_small_nat; lia). ints.
  rewrite (word_small w (w - 1)), LShR_val by (done || lia). do 3 f_equal. destruct Hx as [_ Hx].
  pose proof (pow2_double w ltac:(lia)). zcases.
  - symmetry. apply Z.div_unique with (x - 2 ^ (w - 1)); lia.
  - apply Z.div_small. lia.
Qed.

Lemma zero_bit x n : 0 ≤ n → zero_extend n (calc_zerobit (val w x)) = val (1 + n) (Z.b2z (x =? 0)).
Proof. intros. rewrite zero_flag, zero_extend_val by (lia || by apply word_b2z). done. Qed.

(** [BVV 1 n] or [BVV 0 n]. *)
Lemma boolean_extend_val (f : term → term → result bool) a b n c :
  1 ≤ n → f a b = Ok c → boolean_extend f a b n = val n (Z.b2z c).
Proof.
  intros Hn E. unfold boolean_extend. rewrite E, !BVV_val, If_val by lia. do 3 f_equal.
  assert (1 < 2 ^ n) by (apply Z.pow_gt_1; lia). rewrite Z.mod_0_l, Z.mod_1_l by lia. by destruct c.
Qed.

(** The carry of an addition with carry, and that of a subtraction with carry. *)
Lemma adc_carry n x y c :
  1 ≤ n → word w x → word w y → 0 ≤ c ≤ 1 →
  let r := (x + y + c) mod 2 ^ w in
  If (val w c != #0)%claripy (boolean_extend ULE (val w r) (val w x) n) (boolean_extend ULT (val w r) (val w x) n) =
    val n (Z.b2z (CF (sum_status w x y c))).
Proof.
  intros Hn Hx Hy Hc r. ints. rewrite ne_val, Z.mod_0_l by (pose proof (pow2_pos w); lia).
  rewrite (boolean_extend_val _ _ _ n _ Hn (ULE_val w _ _ ltac:(lia))).
  rewrite (boolean_extend_val _ _ _ n _ Hn (ULT_val w _ _ ltac:(lia))), If_val. do 3 f_equal.
  cbn [sum_status result_status CF]. rewrite <-(carry_sum w) by (done || lia). fold r. by destruct (c =? 0).
Qed.

Lemma sbc_carry n x y c :
  1 ≤ n → 0 ≤ c ≤ 1 →
  If (val w c != #0)%claripy (boolean_extend UGE (val w x) (val w y) n) (boolean_extend UGT (val w x) (val w y) n) =
    val n (Z.b2z (negb (CF (difference_status w x y (1 - c))))).
Proof.
  intros Hn Hc. ints. rewrite ne_val, Z.mod_0_l by (pose proof (pow2_pos w); lia).
  rewrite (boolean_extend_val _ _ _ n _ Hn (UGE_val w _ _ ltac:(lia))).
  rewrite (boolean_extend_val _ _ _ n _ Hn (UGT_val w _ _ ltac:(lia))), If_val. do 3 f_equal.
  cbn [difference_status result_status CF]. assert (c = 0 ∨ c = 1) as [-> | ->] by lia; cbn; zcases; lia.
Qed.

(** Overflow of a sum and of a difference. *)
Lemma sum_overflow_val x y c k :
  word w x → word w y → 0 ≤ c ≤ 1 → k = w - 1 →
  let r := (x + y + c) mod 2 ^ w in
  LShR ((val w r ^' val w x) & (val w r ^' val w y))%claripy #k = val w (Z.b2z (OF (sum_status w x y c))).
Proof.
  intros Hx Hy Hc Hk r. assert (word w r) as Hr by (apply word_mod; lia).
  rewrite !xor_val, and_val, top_bit by word_side. subst k. do 4 f_equal.
  rewrite <-testbit_msb by word_side. rewrite Z.land_spec, !Z.lxor_spec. cbn [sum_status result_status OF].
  rewrite <-overflow_sum by done. fold r. by destruct (Z.testbit x _), (Z.testbit y _), (Z.testbit r _).
Qed.

Lemma difference_overflow_val x y c k :
  word w x → word w y → 0 ≤ c ≤ 1 → k = w - 1 →
  let r := (x - y - c) mod 2 ^ w in
  LShR ((val w x ^' val w y) & (val w x ^' val w r))%claripy #k = val w (Z.b2z (OF (difference_status w x y c))).
Proof.
  intros Hx Hy Hc Hk r. assert (word w r) as Hr by (apply word_mod; lia).
  rewrite !xor_val, and_val, top_bit by word_side. subst k. do 4 f_equal.
  rewrite <-testbit_msb by word_side. rewrite Z.land_spec, !Z.lxor_spec. cbn [difference_status result_status OF].
  by rewrite <-overflow_difference by done.
Qed.

(** The inverted carry of the subtractions with carry. *)
Lemma not_carry c : 0 ≤ c ≤ 1 → (val w c ^' #1)%claripy = val w (1 - c).
Proof.
  intros Hc. assert (1 < 2 ^ w) by (apply Z.pow_gt_1; lia).
  assert (∀ b : bool, word w (Z.b2z b)) by (intros; apply word_b2z; lia).
  ints. rewrite Z.mod_1_l by lia. rewrite xor_val by (apply (word_b2z w true); lia) || (split; lia).
  do 3 f_equal. assert (c = 0 ∨ c = 1) as [-> | ->] by lia; done.
Qed.
End Flag.

(** ** ARM *)

(** [choose_op H] picks the branch of an operation whose number is known. *)
Ltac choose_op H :=
  rewrite H; cbn [mbind result_bind]; cbv [flag_or_raise]; cbn [Z.eqb Pos.eqb orb arm_code];
  cbv [ARMG_CC_OP_COPY ARMG_CC_OP_ADD ARMG_CC_OP_SUB ARMG_CC_OP_ADC ARMG_CC_OP_SBB ARMG_CC_OP_LOGIC ARMG_CC_OP_MUL
       ARMG_CC_OP_MULL ARMG_CC_SHIFT_N ARMG_CC_SHIFT_Z ARMG_CC_SHIFT_C ARMG_CC_SHIFT_V];
  cbn [Z.eqb Pos.eqb orb].

Section Arm.
Context (op : arm_op) (t : term) (d1 d2 d3 : Z).
Context (Ht : op_concretize t = Ok (arm_code op)).
Context (H1 : word 32 d1) (H2 : word 32 d2) (H3 : word 32 d3) (Hd : arm_deps op d2 d3).

Abbreviation arg x := (val 32 x).

Lemma flag_n_val : armg_calculate_flag_n t (arg d1) (arg d2) (arg d3) = arg (Z.b2z (fN (arm_flags op d1 d2 d3))).
Proof.
  unfold armg_calculate_flag_n. destruct op; choose_op Ht; cbn [arm_flags fN of_sum of_difference].
  - by apply shifted_bit.
  - rewrite add_val, <-(Z.add_0_r (d1 + d2)) by lia. apply (top_bit 32); [lia|apply word_mod; lia|done].
  - rewrite sub_val, <-(Z.sub_0_r (d1 - d2)) by lia. apply (top_bit 32); [lia|apply word_mod; lia|done].
  - rewrite add_carry_val by lia. apply (top_bit 32); [lia|apply word_mod; lia|done].
  - rewrite not_carry, sub_borrow_val by (done || lia). apply (top_bit 32); [lia|apply word_mod; lia|done].
  - by apply (top_bit 32).
  - by apply (top_bit 32).
  - by apply (top_bit 32).
Qed.

Lemma flag_z_val : armg_calculate_flag_z t (arg d1) (arg d2) (arg d3) = arg (Z.b2z (fZ (arm_flags op d1 d2 d3))).
Proof.
  unfold armg_calculate_flag_z, arm_zerobit. destruct op; choose_op Ht; cbn [arm_flags fZ of_sum of_difference].
  - by apply shifted_bit.
  - rewrite add_val, <-(Z.add_0_r (d1 + d2)) by lia. by apply (zero_bit 32).
  - rewrite sub_val, <-(Z.sub_0_r (d1 - d2)) by lia. by apply (zero_bit 32).
  - rewrite add_carry_val by lia. by apply (zero_bit 32).
  - rewrite not_carry, sub_borrow_val by (done || lia). by apply (zero_bit 32).
  - by apply (zero_bit 32).
  - by apply (zero_bit 32).
  - rewrite or_val by done. rewrite (zero_bit 32) by lia. do 4 f_equal. cbn [fZ].
    destruct (Z.eqb_spec (Z.lor d1 d2) 0) as [E|E].
    + apply Z.lor_eq_0_iff in E as [-> ->]. done.
    + destruct (Z.eqb_spec d1 0) as [->|]; [|done]. rewrite Z.lor_0_l in E. by destruct (Z.eqb_spec d2 0).
Qed.

Lemma flag_c_val : armg_calculate_flag_c t (arg d1) (arg d2) (arg d3) = arg (Z.b2z (fC (arm_flags op d1 d2 d3))).
Proof.
  unfold armg_calculate_flag_c. destruct op; choose_op Ht; cbn [arm_flags fC of_sum of_difference].
  - by apply shifted_bit.
  - rewrite add_val, <-(Z.add_0_r (d1 + d2)) by lia. apply boolean_extend_val; [lia|]. rewrite ULT_val by lia. f_equal.
    by apply (carry_sum 32 ltac:(lia) d1 d2 0).
  - apply boolean_extend_val; [lia|]. rewrite UGE_val by lia. f_equal. cbn. rewrite Z.add_0_r. zcases; lia || done.
  - rewrite add_carry_val by lia. apply adc_carry; done || lia.
  - apply sbc_carry; done || lia.
  - cbn in *. do 3 f_equal. zcases; lia.
  - apply shifted_bit; [lia|done|lia].
  - apply shifted_bit; [lia|done|lia].
Qed.

Lemma flag_v_val : armg_calculate_flag_v t (arg d1) (arg d2) (arg d3) = arg (Z.b2z (fV (arm_flags op d1 d2 d3))).
Proof.
  unfold armg_calculate_flag_v. destruct op; choose_op Ht; cbn [arm_flags fV of_sum of_difference].
  - by apply shifted_bit.
  - rewrite add_val, <-(Z.add_0_r (d1 + d2)) by lia. apply (sum_overflow_val 32); done || lia.
  - rewrite sub_val, <-(Z.sub_0_r (d1 - d2)) by lia. apply (difference_overflow_val 32); done || lia.
  - rewrite add_carry_val by lia. apply (sum_overflow_val 32); done || lia.
  - cbn in Hd. rewrite not_carry, sub_borrow_val by (done || lia). apply (difference_overflow_val 32); done || lia.
  - cbn in *. do 3 f_equal. zcases; lia.
  - by apply old_carry.
  - by apply old_carry.
Qed.
End Arm.

(** The number in the low four bits and the condition above it. *)
Lemma cond_n_op_split cond code :
  0 ≤ code < 16 → Z.shiftr (16 * cond + code) 4 = cond ∧ Z.land (16 * cond + code) 0xF = code.
Proof.
  intros Hc. rewrite Z.shiftr_div_pow2 by lia. change 0xF with (2 ^ 4 - 1). rewrite land_mask by lia. change (2 ^ 4) with 16.
  split; [symmetry; apply Z.div_unique with code; lia|symmetry; apply Z.mod_unique with cond; lia].
Qed.

(** Every condition number in turn. *)
Lemma small_cases (P : Z → Prop) n : Forall P (seqZ 0 n) → ∀ c, 0 ≤ c < n → P c.
Proof. intros H c Hc. eapply Forall_forall; [exact H|]. apply list_elem_of_In, elem_of_seqZ. lia. Qed.

Lemma low_bit w b : Extract 0 0 (val w (Z.b2z b)) = flag b.
Proof. change (Extract 0 0) with (bit 0). rewrite bit_val by lia. by destruct b. Qed.

Lemma concat_nzcv w s :
  w = 32 ∨ w = 64 →
  _concat_flags w [(31, flag (fN s)); (30, flag (fZ s)); (29, flag (fC s)); (28, flag (fV s))] = val w (nzcv_word s).
Proof. intros [-> | ->]; destruct s as [[] [] [] []]; reflexivity. Qed.

Lemma stored_nzcv_word s : stored (nzcv_word s) = s.
Proof. by destruct s as [[] [] [] []]. Qed.

Lemma nzcv_word_word w s : w = 32 ∨ w = 64 → word w (nzcv_word s).
Proof. intros [-> | ->]; destruct s as [[] [] [] []]; (split; [done|split; done]). Qed.

Lemma arm_condition_val op cond d1 d2 d3 :
  word 32 d1 → word 32 d2 → word 32 d3 → arm_deps op d2 d3 → 0 ≤ cond < 15 →
  armg_calculate_condition (val 32 (16 * cond + arm_code op)) (val 32 d1) (val 32 d2) (val 32 d3) =
    val 32 (Z.b2z (arm_condition cond (arm_flags op d1 d2 d3))).
Proof.
  intros H1 H2 H3 Hd Hc. destruct (cond_n_op_split cond (arm_code op)) as [E1 E2]; [destruct op; cbn; lia|].
  unfold armg_calculate_condition. cbn [op_concretize concrete_value mbind result_bind BVV.value]. rewrite E1, E2.
  rewrite (flag_n_val op), (flag_z_val op), (flag_c_val op), (flag_v_val op) by done.
  generalize (arm_flags op d1 d2 d3). clear -Hc. intros s. revert cond Hc. refine (small_cases _ 15 _).
  repeat constructor; destruct s as [[] [] [] []]; reflexivity.
Qed.

Lemma arm_nzcv_val op d1 d2 d3 :
  word 32 d1 → word 32 d2 → word 32 d3 → arm_deps op d2 d3 →
  armg_calculate_flags_nzcv (val 32 (arm_code op)) (val 32 d1) (val 32 d2) (val 32 d3) =
    val 32 (nzcv_word (arm_flags op d1 d2 d3)).
Proof.
  intros H1 H2 H3 Hd. unfold armg_calculate_flags_nzcv.
  rewrite (flag_n_val op), (flag_z_val op), (flag_c_val op), (flag_v_val op) by done.
  cbn [mbind result_bind]. rewrite !low_bit. apply (concat_nzcv 32). by left.
Qed.

(** The condition that is documented as never, 0. *)
Lemma condition_never op d1 d2 d3 :
  armg_calculate_condition (val 32 (16 * ARMCondNV + arm_code op)) d1 d2 d3 = Err SimCCallError.
Proof. by destruct op. Qed.

(** C27: On 32-bit words, with the dependencies VEX gives (the carry of ADC and SBB
    and the carry and overflow of the logical operations are 0 or 1, see
    [arm_deps]): the helper for all flags puts those the reference prescribes
    where the operation that copies a flags word reads them, and for the numbers
    0 to 14 the condition helper evaluates the combination of flags the number
    stands for.  (15, documented as never, is refused: [condition_never].) *)
Theorem arm_flags_exact (op : arm_op) (cond d1 d2 d3 : Z) :
  word 32 d1 → word 32 d2 → word 32 d3 → arm_deps op d2 d3 → 0 ≤ cond < 15 →
  let arg x := val 32 x in
  let flags := arm_flags op d1 d2 d3 in
  armg_calculate_flags_nzcv (arg (arm_code op)) (arg d1) (arg d2) (arg d3) = arg (nzcv_word flags) ∧
  armg_calculate_condition (arg (16 * cond + arm_code op)) (arg d1) (arg d2) (arg d3) =
    arg (Z.b2z (arm_condition cond flags)).
Proof. intros. split; [by apply arm_nzcv_val|by apply arm_condition_val]. Qed.

Lemma arm_flags_exact_witness :
  arm_deps A_SBB 7 1 ∧
  armg_calculate_condition (val 32 (16 * 11 + 4)) (val 32 5) (val 32 7) (val 32 1) = val 32 1.
Proof.
  split; [cbn; lia|]. apply (arm_flags_exact A_SBB 11 5 7 1); [split; lia..|cbn; lia|lia].
Defined.

(** ** AArch64 *)

(** [choose64] splits on the operation and its width and picks the branch. *)
Ltac choose64 op Ht Hcode Hd :=
  rewrite Ht; cbn [mbind result_bind];
  destruct op; cbn in Hcode;
  repeat match type of Hcode with
    | context [?w =? ?n] => destruct (Z.eqb_spec w n) as [-> | _]
    end; cbn in Hcode; try discriminate Hcode; injection Hcode as <-;
  cbv [arm64g_32bit_truncate_operands is_op existsb flag_or_raise u64_to_u32
       ARM64G_CC_OP_COPY ARM64G_CC_OP_ADD32 ARM64G_CC_OP_ADD64 ARM64G_CC_OP_SUB32 ARM64G_CC_OP_SUB64 ARM64G_CC_OP_ADC32
       ARM64G_CC_OP_ADC64 ARM64G_CC_OP_SBC32 ARM64G_CC_OP_SBC64 ARM64G_CC_OP_LOGIC32 ARM64G_CC_OP_LOGIC64
       ARM64G_CC_SHIFT_N ARM64G_CC_SHIFT_Z ARM64G_CC_SHIFT_C ARM64G_CC_SHIFT_V];
  cbn [Z.eqb Pos.eqb Z.add Pos.add Pos.succ orb fmap option_fmap option_map arm64_flags arm64_width]; cbn in Hd.

Lemma low32 x : (val 64 x).[31 : 0]%claripy = val 32 (x mod 2 ^ 32).
Proof. by apply (low_val 32). Qed.

Lemma low32_again x : (val 32 (x mod 2 ^ 32)).[31 : 0]%claripy = val 32 (x mod 2 ^ 32).
Proof. rewrite (low_val 32) by lia. by rewrite Z.mod_mod by lia. Qed.

Lemma to_64_32 b : to_64 (val 32 (Z.b2z b)) = val 64 (Z.b2z b).
Proof. by destruct b. Qed.

Lemma small_mod32 c : 0 ≤ c ≤ 1 → c mod 2 ^ 32 = c.
Proof. intros. apply Z.mod_small. lia. Qed.

Lemma word_mod32 x : word 32 (x mod 2 ^ 32).
Proof. by apply word_mod. Qed.

(** Sums and differences in the form of [sum_status] and [difference_status]. *)
Ltac results d3 :=
  rewrite ?low32, ?low32_again, ?(small_mod32 d3) by lia; rewrite ?not_carry by (done || lia);
  rewrite ?add_carry_val, ?sub_borrow_val by lia;
  repeat match goal with
    | |- context [(val ?w ?x + val ?w ?y)%claripy] => rewrite (add_val w x y), <-(Z.add_0_r (x + y)) by lia
    | |- context [(val ?w ?x - val ?w ?y)%claripy] => rewrite (sub_val w x y), <-(Z.sub_0_r (x - y)) by lia
    end.

(** The arguments of an operation. *)
Definition arm64_args (op : arm64_op) (code : Z) (t : term) (d1 d2 d3 : Z) : Prop :=
  arm64_code op = Some code ∧ op_concretize t = Ok code ∧ word 64 d1 ∧ word 64 d2 ∧ word 64 d3 ∧ arm64_deps op d3.

Abbreviation arg x := (val 64 x).

Lemma flag64_n_val op code t d1 d2 d3 :
  arm64_args op code t d1 d2 d3 →
  arm64g_calculate_flag_n t (arg d1) (arg d2) (arg d3) = arg (Z.b2z (fN (arm64_flags op d1 d2 d3))).
Proof.
  intros (Hcode & Ht & H1 & H2 & H3 & Hd). unfold arm64g_calculate_flag_n. choose64 op Ht Hcode Hd; results d3.
  1: rewrite shifted_bit by (done || lia); done.
  all: rewrite ?(top_bit 32), ?(top_bit 64) by (done || lia || (apply word_mod; lia)); rewrite ?to_64_32.
  all: cbn [fN of_sum of_difference sum_status difference_status result_status SF]; rewrite ?(word_small 64 d1), ?(word_small 64 d2) by done; done.
Qed.

Lemma flag64_z_val op code t d1 d2 d3 :
  arm64_args op code t d1 d2 d3 →
  arm64g_calculate_flag_z t (arg d1) (arg d2) (arg d3) = arg (Z.b2z (fZ (arm64_flags op d1 d2 d3))).
Proof.
  intros (Hcode & Ht & H1 & H2 & H3 & Hd). unfold arm64g_calculate_flag_z, arm64_zerobit. choose64 op Ht Hcode Hd; results d3.
  1: rewrite shifted_bit by (done || lia); done.
  all: rewrite ?(zero_bit 32), ?(zero_bit 64) by lia.
  all: cbn [fZ of_sum of_difference sum_status difference_status result_status ZF]; rewrite ?(word_small 64 d1), ?(word_small 64 d2) by done; done.
Qed.

Lemma flag64_c_val op code t d1 d2 d3 :
  arm64_args op code t d1 d2 d3 →
  arm64g_calculate_flag_c t (arg d1) (arg d2) (arg d3) = arg (Z.b2z (fC (arm64_flags op d1 d2 d3))).
Proof.
  intros (Hcode & Ht & H1 & H2 & H3 & Hd). unfold arm64g_calculate_flag_c. choose64 op Ht Hcode Hd; results d3.
  1: rewrite shifted_bit by (done || lia); done.
  all: cbn [fC of_sum of_difference difference_status result_status CF]; rewrite ?(word_small 64 d1), ?(word_small 64 d2) by done.
  1-2: apply boolean_extend_val; [lia|]; rewrite ULT_val by lia; f_equal.
  1: apply (carry_sum 32 ltac:(lia) _ _ 0); apply word_mod32 || lia.
  1: by apply (carry_sum 64 ltac:(lia) _ _ 0).
  1-2: apply boolean_extend_val; [lia|]; rewrite UGE_val by lia; f_equal; rewrite Z.add_0_r; zcases; lia || done.
  all: rewrite ?(adc_carry 32), ?(sbc_carry 32) by (lia || apply word_mod32).
  all: rewrite ?(adc_carry 64), ?(sbc_carry 64) by (done || lia); done.
Qed.

Lemma flag64_v_val op code t d1 d2 d3 :
  arm64_args op code t d1 d2 d3 →
  arm64g_calculate_flag_v t (arg d1) (arg d2) (arg d3) = arg (Z.b2z (fV (arm64_flags op d1 d2 d3))).
Proof.
  intros (Hcode & Ht & H1 & H2 & H3 & Hd). unfold arm64g_calculate_flag_v. choose64 op Ht Hcode Hd; results d3.
  1: rewrite shifted_bit by (done || lia); done.
  all: cbn [fV of_sum of_difference]; rewrite ?(word_small 64 d1), ?(word_small 64 d2) by done.
  all: rewrite ?(sum_overflow_val 32), ?(difference_overflow_val 32) by (lia || apply word_mod32).
  all: rewrite ?(sum_overflow_val 64), ?(difference_overflow_val 64) by (done || lia).
  all: rewrite ?zero_extend_val by (lia || by apply word_b2z); done.
Qed.

Lemma arm64_code_bound op code : arm64_code op = Some code → 0 ≤ code < 16.
Proof.
  destruct op; cbn; intros H;
    repeat match type of H with context [?w =? ?n] => destruct (Z.eqb_spec w n) end; try discriminate H;
    injection H as <-; lia.
Qed.

Lemma arm64_condition_val op code cond d1 d2 d3 :
  arm64_code op = Some code →
  word 64 d1 → word 64 d2 → word 64 d3 → arm64_deps op d3 → 0 ≤ cond < 16 →
  arm64g_calculate_condition (val 64 (16 * cond + code)) (val 64 d1) (val 64 d2) (val 64 d3) =
    val 64 (Z.b2z (arm_condition cond (arm64_flags op d1 d2 d3))).
Proof.
  intros Hcode H1 H2 H3 Hd Hc. destruct (cond_n_op_split cond code) as [E1 E2]; [by eapply arm64_code_bound|].
  unfold arm64g_calculate_condition. cbn [op_concretize concrete_value mbind result_bind BVV.value]. rewrite E1, E2.
  rewrite (flag64_n_val op code), (flag64_z_val op code), (flag64_c_val op code), (flag64_v_val op code) by (split_and!; done).
  generalize (arm64_flags op d1 d2 d3). clear -Hc. intros s. revert cond Hc. refine (small_cases _ 16 _).
  repeat constructor; destruct s as [[] [] [] []]; reflexivity.
Qed.

Lemma arm64_nzcv_val op code d1 d2 d3 :
  arm64_code op = Some code → word 64 d1 → word 64 d2 → word 64 d3 → arm64_deps op d3 →
  arm64g_calculate_flags_nzcv (val 64 code) (val 64 d1) (val 64 d2) (val 64 d3) =
    val 64 (nzcv_word (arm64_flags op d1 d2 d3)).
Proof.
  intros Hcode H1 H2 H3 Hd. unfold arm64g_calculate_flags_nzcv.
  rewrite (flag64_n_val op code), (flag64_z_val op code), (flag64_c_val op code), (flag64_v_val op code) by (split_and!; done).
  cbn [mbind result_bind]. rewrite !low_bit. apply (concat_nzcv 64). by right.
Qed.

(** The same for AArch64, whose 32-bit operations use the low halves of their
    operands. *)
Theorem arm64_flags_exact (op : arm64_op) (code cond d1 d2 d3 : Z) :
  arm64_code op = Some code →
  word 64 d1 → word 64 d2 → word 64 d3 → arm64_deps op d3 → 0 ≤ cond < 16 →
  let flags := arm64_flags op d1 d2 d3 in
  arm64g_calculate_flags_nzcv (val 64 code) (val 64 d1) (val 64 d2) (val 64 d3) = val 64 (nzcv_word flags) ∧
  arm64g_calculate_condition (val 64 (16 * cond + code)) (val 64 d1) (val 64 d2) (val 64 d3) =
    val 64 (Z.b2z (arm_condition cond flags)).
Proof. intros. split; [by apply arm64_nzcv_val|by apply arm64_condition_val]. Qed.

Lemma arm64_flags_exact_witness :
  arm64_code (X_ADC 32) = Some 5 ∧
  arm64g_calculate_flags_nzcv (val 64 5) (val 64 0x1FFFFFFFF) (val 64 0) (val 64 1) = val 64 0x60000000.
Proof.
  split; [reflexivity|]. apply (arm64_flags_exact (X_ADC 32) 5 0 0x1FFFFFFFF 0 1);
    [reflexivity|split; lia..|cbn; lia|lia].
Defined.

(** ** Comparisons and saved flags *)

(** The comparison a conditional instruction after [CMP x, y] makes. *)
Definition arm_comparison (cond w x y : Z) : option bool :=
  match cond with
  | 0 => Some (x =? y) | 1 => Some (negb (x =? y))
  | 2 => Some (y <=? x) | 3 => Some (x <? y)
  | 8 => Some (y <? x) | 9 => Some (x <=? y)
  | 10 => Some (to_signed w y <=? to_signed w x) | 11 => Some (to_signed w x <? to_signed w y)
  | 12 => Some (to_signed w y <? to_signed w x) | 13 => Some (to_signed w x <=? to_signed w y)
  | _ => None
  end.

Lemma condition_comparison cond w x y b :
  0 ≤ cond < 15 → word w x → word w y → arm_comparison cond w x y = Some b →
  arm_condition cond (of_difference (difference_status w x y 0)) = b.
Proof.
  intros Hc Hx Hy Hb. pose proof (difference_zero w x y Hx Hy) as Ez. pose proof (difference_less w x y Hx Hy) as El.
  assert (CF (difference_status w x y 0) = (x <? y)) as Ec by (cbn; by rewrite Z.add_0_r).
  assert (to_signed w x = to_signed w y ↔ x = y) as Hinj.
  { destruct Hx as [Hw Hx], Hy as [_ Hy]. split; [|by intros ->]. intros E.
    rewrite <-(to_signed_mod w x), <-(to_signed_mod w y) by done. by rewrite E. }
  unfold of_difference. rewrite Ez, Ec. clear Ez Ec.
  revert El Hb. generalize (SF (difference_status w x y 0)), (OF (difference_status w x y 0)). intros n v El Hb.
  revert cond Hc Hb. refine (small_cases _ 15 _).
  repeat constructor; cbn; intros Hb; try discriminate Hb; injection Hb as <-; rewrite ?negb_involutive; try done;
    destruct n, v; cbn in El |- *; rewrite ?andb_true_r, ?andb_false_r; zcases; lia || done.
Qed.

(** After a comparison the conditions are the comparisons, on ARM and at both
    sizes of AArch64. *)
Theorem arm_compare_exact (cond d1 d2 d3 : Z) (b : bool) :
  0 ≤ cond < 15 →
  (word 32 d1 → word 32 d2 → word 32 d3 → arm_comparison cond 32 d1 d2 = Some b →
   armg_calculate_condition (val 32 (16 * cond + ARMG_CC_OP_SUB)) (val 32 d1) (val 32 d2) (val 32 d3) =
     val 32 (Z.b2z b)) ∧
  (word 64 d1 → word 64 d2 → word 64 d3 →
   (arm_comparison cond 32 (d1 mod 2 ^ 32) (d2 mod 2 ^ 32) = Some b →
    arm64g_calculate_condition (val 64 (16 * cond + ARM64G_CC_OP_SUB32)) (val 64 d1) (val 64 d2) (val 64 d3) =
      val 64 (Z.b2z b)) ∧
   (arm_comparison cond 64 d1 d2 = Some b →
    arm64g_calculate_condition (val 64 (16 * cond + ARM64G_CC_OP_SUB64)) (val 64 d1) (val 64 d2) (val 64 d3) =
      val 64 (Z.b2z b))).
Proof.
  intros Hc. split; [intros H1 H2 H3 Hb|intros H1 H2 H3; split; intros Hb].
  - rewrite (arm_condition_val A_SUB cond) by done. do 4 f_equal. by apply condition_comparison.
  - rewrite (arm64_condition_val (X_SUB 32) 3 cond) by (done || lia). do 4 f_equal.
    apply condition_comparison; [done|by apply word_mod..|done].
  - rewrite (arm64_condition_val (X_SUB 64) 4 cond) by (done || lia). do 4 f_equal. cbn [arm64_flags arm64_width].
    rewrite (word_small 64 d1), (word_small 64 d2) by done. by apply condition_comparison.
Qed.

Lemma arm_compare_exact_witness :
  arm_comparison 11 32 (0xFFFFFFFE mod 2 ^ 32) (5 mod 2 ^ 32) = Some true ∧
  arm64g_calculate_condition (val 64 (16 * 11 + 3)) (val 64 0xFFFFFFFE) (val 64 5) (val 64 0) = val 64 1.
Proof.
  split; [reflexivity|]. apply (arm_compare_exact 11 0xFFFFFFFE 5 0 true); [lia|split; lia..|reflexivity].
Defined.

(** The flags register of a state, saved and written back, answers every
    condition as before. *)
Theorem arm_flags_roundtrip (d1 d2 d3 d2' d3' : Z) :
  (∀ op cond, word 32 d1 → word 32 d2 → word 32 d3 → arm_deps op d2 d3 → word 32 d2' → word 32 d3' → 0 ≤ cond < 15 →
   ∃ saved, _get_flags ArchARM (val 32 (arm_code op)) (val 32 d1) (val 32 d2) (val 32 d3) = Some (val 32 saved) ∧
     armg_calculate_condition (val 32 (16 * cond + ARMG_CC_OP_COPY)) (val 32 saved) (val 32 d2') (val 32 d3') =
     armg_calculate_condition (val 32 (16 * cond + arm_code op)) (val 32 d1) (val 32 d2) (val 32 d3)) ∧
  (∀ op code cond, arm64_code op = Some code → word 64 d1 → word 64 d2 → word 64 d3 → arm64_deps op d3 →
   word 64 d2' → word 64 d3' → 0 ≤ cond < 16 →
   ∃ saved, _get_flags ArchAARCH64 (val 64 code) (val 64 d1) (val 64 d2) (val 64 d3) = Some (val 64 saved) ∧
     arm64g_calculate_condition (val 64 (16 * cond + ARM64G_CC_OP_COPY)) (val 64 saved) (val 64 d2') (val 64 d3') =
     arm64g_calculate_condition (val 64 (16 * cond + code)) (val 64 d1) (val 64 d2) (val 64 d3)).
Proof.
  split.
  - intros op cond H1 H2 H3 Hd H2' H3' Hc. exists (nzcv_word (arm_flags op d1 d2 d3)). split.
    + cbn [_get_flags fmap option_fmap option_map]. by rewrite arm_nzcv_val.
    + rewrite (arm_condition_val op) by done. rewrite (arm_condition_val A_COPY) by (done || apply nzcv_word_word; by left).
      cbn [arm_flags]. by rewrite stored_nzcv_word.
  - intros op code cond Hcode H1 H2 H3 Hd H2' H3' Hc. exists (nzcv_word (arm64_flags op d1 d2 d3)). split.
    + cbn [_get_flags fmap option_fmap option_map]. by rewrite (arm64_nzcv_val op).
    + rewrite (arm64_condition_val op code) by done.
      rewrite (arm64_condition_val X_COPY 0) by (done || apply nzcv_word_word; by right).
      cbn [arm64_flags]. by rewrite stored_nzcv_word.
Qed.

Lemma arm_flags_roundtrip_witness :
  arm_deps A_ADC 1 1 ∧
  ∃ saved, _get_flags ArchARM (val 32 3) (val 32 0xFFFFFFFF) (val 32 1) (val 32 1) = Some (val 32 saved) ∧
    armg_calculate_condition (val 32 (16 * 2 + 0)) (val 32 saved) (val 32 0) (val 32 0) =
    armg_calculate_condition (val 32 (16 * 2 + 3)) (val 32 0xFFFFFFFF) (val 32 1) (val 32 1).
Proof.
  split; [cbn; lia|].
  apply (proj1 (arm_flags_roundtrip 0xFFFFFFFF 1 1 0 0) A_ADC 2); first [by split; lia | cbn; lia].
Defined.
End CCallArmFacts.
