(* ===== verification/Clemory.v ===== *)
(** * The memory of a loaded binary: [cle/memory.py]

    A [Clemory] is a sorted list of backers; a backer is a byte buffer or
    another [Clemory], so the memory is a tree whose leaves are buffers.  Buffers
    are shared objects: a leaf holds a reference into a store of buffers
    ([heap]), and views, streams and parents that reach the same buffer see each
    other's writes.  [ClemoryBase], the interface the word accessors and the
    views are written against, is a record of operations; [Clemory],
    [ClemoryView], [ClemoryTranslator] and [UninitializedClemory] are values of
    it.  This file has the definitions, [ClemoryFacts] the theorems. *)

From Stdlib Require Import ZArith Lia Bool.
From stdpp Require Import base tactics list numbers.
From S2P Require Import Prelude.

Module Clemory.

(** ** Python sequences and [bisect] *)

Definition len {A} (l : list A) : Z := Z.of_nat (length l).

(** An index of a slice: negative from the end, clamped to the sequence. *)
Definition slice_index (n i : Z) : Z := Z.max 0 (Z.min n (if i <? 0 then i + n else i)).

(** [l[a:b]]. *)
Definition py_slice {A} (l : list A) (a b : Z) : list A :=
  let a := slice_index (len l) a in
  let b := slice_index (len l) b in
  take (Z.to_nat (b - a)) (drop (Z.to_nat a) l).

(** [l[a:b] = v]. *)
Definition py_slice_assign {A} (l : list A) (a b : Z) (v : list A) : list A :=
  let a := slice_index (len l) a in
  let b := Z.max a (slice_index (len l) b) in
  take (Z.to_nat a) l ++ v ++ drop (Z.to_nat b) l.

(** [bisect.bisect]: the binary search, on the list of the keys. *)
Fixpoint bisect_loop (fuel : nat) (keys : list Z) (x lo hi : Z) : Z :=
  match fuel with
  | O => lo
  | S fuel =>
      if lo <? hi then
        let mid := (lo + hi) / 2 in
        if x <? nth (Z.to_nat mid) keys 0 then bisect_loop fuel keys x lo mid
        else bisect_loop fuel keys x (mid + 1) hi
      else lo
  end.

Definition bisect (keys : list Z) (x : Z) : nat :=
  Z.to_nat (bisect_loop (S (length keys)) keys x 0 (len keys)).

Definition insort {A} (key : A → Z) (l : list A) (x : A) : list A :=
  let i := bisect (key <$> l) (key x) in take i l ++ x :: drop i l.

(** [bytes.find(pattern, start)] for a start that is not negative. *)
Fixpoint find_from (l pattern : list Z) (i : Z) : Z :=
  if bool_decide (take (length pattern) l = pattern) then i
  else match l with [] => -1 | _ :: l => find_from l pattern (i + 1) end.

Definition bytes_find (l pattern : list Z) (start : Z) : Z :=
  if len l <? start then -1 else find_from (drop (Z.to_nat start) l) pattern start.

(** ** Words

    The integer formats of [struct], and [int.from_bytes]/[int.to_bytes]. *)

Inductive Endness := LE | BE | ME | ANY | UNSURE.

#[export] Instance Endness_eq_dec : EqDecision Endness.
Proof. solve_decision. Defined.

Fixpoint from_little (bs : list Z) : Z :=
  match bs with [] => 0 | b :: bs => b + 256 * from_little bs end.

Fixpoint to_little (n : nat) (v : Z) : list Z :=
  match n with O => [] | S n => v mod 256 :: to_little n (v / 256) end.

Definition int_from_bytes (bs : list Z) (big signed : bool) : Z :=
  let v := from_little (if big then reverse bs else bs) in
  if signed && (2 ^ (8 * len bs - 1) <=? v) then v - 2 ^ (8 * len bs) else v.

(** Whether [v] has a representation in [n] bytes. *)
Definition fits (v n : Z) (signed : bool) : bool :=
  if signed then (- 2 ^ (8 * n - 1) <=? v) && (v <? 2 ^ (8 * n - 1)) else (0 <=? v) && (v <? 2 ^ (8 * n)).

Definition int_to_bytes (v n : Z) (big signed : bool) : result (list Z) :=
  if fits v n signed then
    let bs := to_little (Z.to_nat n) v in Ok (if big then reverse bs else bs)
  else Err OverflowError.

Record struct_format := mkFormat { fmt_big : bool; calcsize : Z; fmt_signed : bool }.

(** The attributes of [archinfo.Arch] that are used here, and its
    [struct_fmt]. *)
Record Arch := mkArch { bytes : Z; memory_endness : Endness }.

Definition _STRUCT_WORD_SIZES : list Z := [1; 2; 4; 8].

Definition struct_fmt (size : Z) (signed : bool) (endness : Endness) : result struct_format :=
  big ← match endness with BE => Ok true | LE => Ok false | _ => Err ValueError end;
  if bool_decide (size ∈ _STRUCT_WORD_SIZES) then Ok (mkFormat big size signed) else Err ValueError.

(** [true] is ["big"]. *)
Definition _byteorder (endness : Endness) : result bool :=
  match endness with BE => Ok true | LE => Ok false | _ => Err ValueError end.

(** ** Buffers *)

Inductive kind := ByteArray | IntList | MMap.

#[export] Instance kind_eq_dec : EqDecision kind.
Proof. solve_decision. Defined.

Record buffer := mkBuffer { bkind : kind; contents : list Z }.

Definition heap := list buffer.

Definition buffer_at (h : heap) (b : nat) : buffer := default (mkBuffer ByteArray []) (h !! b).

Definition write_buffer (h : heap) (b : nat) (l : list Z) : heap := <[b := mkBuffer (bkind (buffer_at h b)) l]> h.

(** What [backers] yields: a whole buffer, or a [memoryview] of a part. *)
Record chunk := mkChunk { cbuf : nat; clo : Z; clen : Z }.

Definition whole (h : heap) (b : nat) : chunk := mkChunk b 0 (len (contents (buffer_at h b))).

Definition chunk_kind (h : heap) (ch : chunk) : kind := bkind (buffer_at h (cbuf ch)).

Definition chunk_bytes (h : heap) (ch : chunk) : list Z :=
  py_slice (contents (buffer_at h (cbuf ch))) (clo ch) (clo ch + clen ch).

(** ** [ClemoryBase]

    The operations a subclass provides.  [store] and [pack] can write part of
    their data and then raise, so they return the new store beside the
    outcome; [find] is a generator, which yields addresses and may then raise. *)

Record ClemoryBase := mkBase {
  _arch : Arch;
  b_getitem : heap → Z → result Z;
  b_setitem : heap → Z → Z → result heap;
  b_contains : heap → Z → result bool;
  b_load : heap → Z → Z → result (list Z);
  b_store : heap → Z → list Z → heap * result unit;
  b_backers : heap → Z → result (list (Z * chunk));
  b_find : heap → list Z → option Z → option Z → list Z * option exn }.

(** [next(self.backers(addr))] and the check that it covers [addr]. *)
Definition locate (m : ClemoryBase) (h : heap) (addr : Z) : result (Z * chunk) :=
  bs ← b_backers m h addr;
  match bs with
  | [] => Err (KeyError addr)
  | (start, ch) :: _ => if addr <? start then Err (KeyError addr) else Ok (start, ch)
  end.

Definition _classify_struct_error (error : exn) (fmt : struct_format) (available addr : Z) : exn :=
  if available <? calcsize fmt then KeyError addr else error.

Definition unpack_from (fmt : struct_format) (h : heap) (ch : chunk) (offset : Z) : result Z :=
  if bool_decide (chunk_kind h ch = IntList) then Err TypeError
  else if clen ch - offset <? calcsize fmt then Err StructError
  else Ok (int_from_bytes (py_slice (chunk_bytes h ch) offset (offset + calcsize fmt)) (fmt_big fmt) (fmt_signed fmt)).

Definition unpack (m : ClemoryBase) (h : heap) (addr : Z) (fmt : struct_format) : result Z :=
  '(start, ch) ← locate m h addr;
  match unpack_from fmt h ch (addr - start) with
  | Err StructError => Err (_classify_struct_error StructError fmt (clen ch - (addr - start)) addr)
  | r => r
  end.

Definition unpack_word (m : ClemoryBase) (h : heap) (addr : Z) (size : option Z) (signed : bool)
    (endness : option Endness) : result Z :=
  let word_size := default (bytes (_arch m)) size in
  let word_endness := default (memory_endness (_arch m)) endness in
  if word_size <=? 0 then Err ValueError
  else if bool_decide (word_size ∉ _STRUCT_WORD_SIZES) then
    data ← b_load m h addr word_size;
    if negb (len data =? word_size) then Err (KeyError addr)
    else big ← _byteorder word_endness; Ok (int_from_bytes data big signed)
  else
    fmt ← struct_fmt word_size signed word_endness;
    unpack m h addr fmt.

Fixpoint null_terminated_loop (m : ClemoryBase) (h : heap) (addr : Z) (fuel : nat) (data : list Z) : result (list Z) :=
  match fuel with
  | O => Ok data
  | S fuel =>
      match b_getitem m h addr with
      | Err (KeyError _) => Ok data
      | Err e => Err e
      | Ok byte => if byte =? 0 then Ok data else null_terminated_loop m h (addr + 1) fuel (data ++ [byte])
      end
  end.

Definition load_null_terminated_bytes (m : ClemoryBase) (h : heap) (addr max_size : Z) : result (list Z) :=
  null_terminated_loop m h addr (Z.to_nat max_size) [].

(** [struct.pack_into] writes through the chunk it is given. *)
Definition pack_into (fmt : struct_format) (h : heap) (ch : chunk) (offset v : Z) : result heap :=
  if bool_decide (chunk_kind h ch = IntList) then Err TypeError
  else if (clen ch - offset <? calcsize fmt) || negb (fits v (calcsize fmt) (fmt_signed fmt)) then Err StructError
  else
    bs ← int_to_bytes v (calcsize fmt) (fmt_big fmt) (fmt_signed fmt);
    let at_ := clo ch + offset in
    Ok (write_buffer h (cbuf ch) (py_slice_assign (contents (buffer_at h (cbuf ch))) at_ (at_ + calcsize fmt) bs)).

Definition pack (m : ClemoryBase) (h : heap) (addr : Z) (fmt : struct_format) (v : Z) : result heap :=
  '(start, ch) ← locate m h addr;
  match pack_into fmt h ch (addr - start) v with
  | Err StructError => Err (_classify_struct_error StructError fmt (clen ch - (addr - start)) addr)
  | r => r
  end.

(** The outcome of an operation that leaves the store alone when it raises. *)
Definition atomic (h : heap) (r : result heap) : heap * result unit :=
  match r with Ok h' => (h', Ok tt) | Err e => (h, Err e) end.

Definition pack_word (m : ClemoryBase) (h : heap) (addr data : Z) (size : option Z) (signed : bool)
    (endness : option Endness) : heap * result unit :=
  let word_size := default (bytes (_arch m)) size in
  let word_endness := default (memory_endness (_arch m)) endness in
  if word_size <=? 0 then (h, Err ValueError)
  else
    let data := if signed then data else Z.land data (Z.shiftl 1 (word_size * 8) - 1) in
    if bool_decide (word_size ∉ _STRUCT_WORD_SIZES) then
      match b_load m h addr word_size with
      | Err e => (h, Err e)
      | Ok old =>
          if negb (len old =? word_size) then (h, Err (KeyError addr))
          else
            match (big ← _byteorder word_endness; int_to_bytes data word_size big signed) with
            | Err e => (h, Err e)
            | Ok bs => b_store m h addr bs
            end
      end
    else atomic h (fmt ← struct_fmt word_size signed word_endness; pack m h addr fmt data).

(** The stream interface: the state is [_pointer]. *)
Definition read (m : ClemoryBase) (h : heap) (_pointer nbytes : Z) : result (list Z * Z) :=
  match b_load m h _pointer nbytes with
  | Err (KeyError _) => Ok ([], _pointer)
  | Err e => Err e
  | Ok out => Ok (out, _pointer + len out)
  end.

Definition seek (_pointer value : Z) : Z := value.
Definition tell (_pointer : Z) : Z := _pointer.

(** ** [Clemory] *)

Inductive backer_of (C : Type) :=
  | Buf (b : nat)
  | Sub (c : C).
Arguments Buf {C} b.
Arguments Sub {C} c.

Inductive clemory := mkClemory {
  _backers : list (Z * backer_of clemory);
  _root : bool;
  consecutive : bool;
  min_addr : Z;
  max_addr : Z }.

Definition empty (root : bool) : clemory := mkClemory [] root true 0 0.

(** [len] of a buffer leaf, [max_addr] of a child. *)
Definition extent (h : heap) (d : backer_of clemory) : Z :=
  match d with Buf b => len (contents (buffer_at h b)) | Sub c => max_addr c end.

Definition calculate_end (h : heap) (backer : Z * backer_of clemory) : Z := backer.1 + extent h backer.2.

Fixpoint __iter__ (h : heap) (c : clemory) : list Z :=
  (fix go (l : list (Z * backer_of clemory)) : list Z :=
    match l with
    | [] => []
    | (start, Buf b) :: l =>
        (if bool_decide (bkind (buffer_at h b) = IntList)
         then (λ x, start + x) <$> py_range 0 (len (contents (buffer_at h b)))
         else (λ x, start + x) <$> contents (buffer_at h b)) ++ go l
    | (start, Sub c') :: l => ((λ x, start + x) <$> __iter__ h c') ++ go l
    end) (_backers c).

Fixpoint __getitem__ (h : heap) (c : clemory) (k : Z) : result Z :=
  (fix go (l : list (Z * backer_of clemory)) : result Z :=
    match l with
    | [] => Err (KeyError k)
    | (start, Buf b) :: l =>
        let data := contents (buffer_at h b) in
        if bool_decide (bkind (buffer_at h b) ≠ MMap) && ((0 <=? k - start) && (k - start <? len data)) then
          Ok (nth (Z.to_nat (k - start)) data 0)
        else go l
    | (start, Sub c') :: l =>
        if (min_addr c' <=? k - start) && (k - start <? max_addr c') then
          match __getitem__ h c' (k - start) with Err (KeyError _) => go l | r => r end
        else go l
    end) (_backers c).

(** A [bytearray] element has to be a byte. *)
Definition set_element (h : heap) (b : nat) (i v : Z) : result heap :=
  if bool_decide (bkind (buffer_at h b) = ByteArray) && negb ((0 <=? v) && (v <? 256)) then Err ValueError
  else Ok (write_buffer h b (<[Z.to_nat i := v]> (contents (buffer_at h b)))).

Fixpoint __setitem__ (h : heap) (c : clemory) (k v : Z) : result heap :=
  (fix go (l : list (Z * backer_of clemory)) : result heap :=
    match l with
    | [] => Err (KeyError k)
    | (start, Buf b) :: l =>
        if bool_decide (bkind (buffer_at h b) ≠ MMap)
           && ((0 <=? k - start) && (k - start <? len (contents (buffer_at h b)))) then
          set_element h b (k - start) v
        else go l
    | (start, Sub c') :: l =>
        if (min_addr c' <=? k - start) && (k - start <? max_addr c') then
          match __setitem__ h c' (k - start) v with Err (KeyError _) => go l | r => r end
        else go l
    end) (_backers c).

Definition __contains__ (h : heap) (c : clemory) (k : Z) : result bool :=
  if consecutive c then Ok ((min_addr c <=? k) && (k <? max_addr c))
  else
    match _backers c with
    | [] => Ok false
    | _ =>
        if (k <? min_addr c) || (max_addr c <=? k) then Ok false
        else match __getitem__ h c k with
             | Err (KeyError _) => Ok false
             | Err e => Err e
             | Ok _ => Ok true
             end
    end.

(** The generator [backers(addr)]; [n] counts the entries [islice] drops. *)
Fixpoint backers (h : heap) (c : clemory) (addr : Z) : list (Z * chunk) :=
  if max_addr c <? addr then []
  else
    (fix go (n : nat) (l : list (Z * backer_of clemory)) : list (Z * chunk) :=
      match l with
      | [] => []
      | (start, d) :: l =>
          match n with
          | S n => go n l
          | O =>
              match d with
              | Buf b => (start, whole h b) :: go O l
              | Sub c' => ((λ '(s, b), (s + start, b)) <$> backers h c' (addr - start)) ++ go O l
              end
          end
      end) (bisect (calculate_end h <$> _backers c) addr) (_backers c).

(** The loop of [load]: [views] collects the slices, and the early [return] is
    the branch that does not continue. *)
Definition finish_load (views : list (list Z)) (addr : Z) : result (list Z) :=
  match views with [] => Err (KeyError addr) | _ => Ok (concat views) end.

Fixpoint load_loop (h : heap) (bs : list (Z * chunk)) (views : list (list Z)) (addr n : Z) : result (list Z) :=
  match bs with
  | [] => finish_load views addr
  | (start, ch) :: bs =>
      if addr <? start then finish_load views addr
      else if bool_decide (chunk_kind h ch = IntList) then Err TypeError
      else
        let offset := addr - start in
        let data := chunk_bytes h ch in
        if bool_decide (views = []) && (offset + n <? clen ch) then Ok (py_slice data offset (offset + n))
        else
          let size := clen ch - offset in
          let views := views ++ [py_slice data offset (offset + n)] in
          if n - size <=? 0 then finish_load views (addr + size)
          else load_loop h bs views (addr + size) (n - size)
  end.

Definition load (h : heap) (c : clemory) (addr n : Z) : result (list Z) :=
  load_loop h (backers h c addr) [] addr n.

Fixpoint store_loop (h : heap) (bs : list (Z * chunk)) (addr : Z) (data : list Z) : heap * result unit :=
  match bs with
  | [] => (h, match data with [] => Ok tt | _ => Err (KeyError addr) end)
  | (start, ch) :: bs =>
      if addr <? start then (h, Err (KeyError addr))
      else
        let offset := addr - start in
        let size := clen ch - offset in
        let buf := contents (buffer_at h (cbuf ch)) in
        let written := if len data <=? size then data else py_slice data 0 size in
        let h := write_buffer h (cbuf ch) (py_slice_assign buf offset (offset + len data) written) in
        match py_slice data size (len data) with
        | [] => (h, Ok tt)
        | rest => store_loop h bs (addr + size) rest
        end
  end.

Definition store (h : heap) (c : clemory) (addr : Z) (data : list Z) : heap * result unit :=
  store_loop h (backers h c addr) addr data.

(** The inner loop of [find] on one buffer. *)
Fixpoint find_loop (fuel : nat) (backer data : list Z) (start search_max ptr : Z) : list Z :=
  match fuel with
  | O => []
  | S fuel =>
      let ptr := bytes_find backer data (Z.max 0 (ptr + 1)) in
      if (ptr =? -1) || (search_max - start - 1 <? ptr + len data) then []
      else ptr + start :: find_loop fuel backer data start search_max ptr
  end.

Fixpoint find_in (h : heap) (c : clemory) (data : list Z) (search_min search_max : Z) : list Z * option exn :=
  (fix go (l : list (Z * backer_of clemory)) : list Z * option exn :=
    match l with
    | [] => ([], None)
    | (start, Sub c') :: l =>
        if (search_max <? min_addr c' + start) || (max_addr c' + start <? search_min) then go l
        else
          let '(found, e) := find_in h c' data (search_min - start) (search_max - start) in
          let found := (λ addr, addr + start) <$> found in
          match e with
          | Some e => (found, Some e)
          | None => let '(rest, e) := go l in (found ++ rest, e)
          end
    | (start, Buf b) :: l =>
        if bool_decide (bkind (buffer_at h b) = IntList) then ([], Some TypeError)
        else if (search_max <? start) || (start + len data <? search_min) then go l
        else
          let backer := contents (buffer_at h b) in
          let found := find_loop (S (S (length backer))) backer data start search_max (search_min - start - 1) in
          let '(rest, e) := go l in (found ++ rest, e)
    end) (_backers c).

Definition find (h : heap) (c : clemory) (data : list Z) (search_min search_max : option Z) : list Z * option exn :=
  find_in h c data (default (min_addr c) search_min) (default (max_addr c) search_max).

(** One iteration of [_update_min_max]: the state is [next_start],
    [is_consecutive] and [max_addr]. *)
Definition update_step (h : heap) (s : option Z * bool * option Z) (backer : Z * backer_of clemory) :
    option Z * bool * option Z :=
  let '(next_start, is_consecutive, max) := s in
  let '(start, d) := backer in
  let is_consecutive :=
    match next_start with Some n => if n =? start then is_consecutive else false | None => is_consecutive end in
  let stop := start + extent h d in
  let max := match max with Some m => if m <? stop then Some stop else Some m | None => Some stop end in
  let is_consecutive :=
    match d with
    | Buf _ => is_consecutive
    | Sub c' => if (0 <? min_addr c') || negb (consecutive c') then false else is_consecutive
    end in
  (Some stop, is_consecutive, max).

Definition _update_min_max (h : heap) (c : clemory) : result clemory :=
  match _backers c with
  | [] => Err AssertionError
  | (start, _) :: _ =>
      match foldl (update_step h) (None, true, None) (_backers c) with
      | (_, is_consecutive, Some max) => Ok (mkClemory (_backers c) (_root c) is_consecutive start max)
      | _ => Err AssertionError
      end
  end.

(** ** The operations that change the tree

    They run in a state monad with exceptions: an exception keeps the changes
    made before it. *)

Definition state : Type := heap * clemory.
Definition M (A : Type) : Type := state → state * result A.

#[export] Instance M_ret : MRet M := λ A a s, (s, Ok a).
#[export] Instance M_bind : MBind M :=
  λ A B f m s, match m s with (s, Ok a) => f a s | (s, Err e) => (s, Err e) end.

Definition raise {A} (e : exn) : M A := λ s, (s, Err e).
Definition get : M state := λ s, (s, Ok s).
Definition put (s : state) : M unit := λ _, (s, Ok tt).

(** [try: m except ValueError: pass]. *)
Definition suppress_ValueError (m : M unit) : M unit :=
  λ s, match m s with (s, Err ValueError) => (s, Ok tt) | r => r end.

Definition set_backers (c : clemory) (bs : list (Z * backer_of clemory)) : clemory :=
  mkClemory bs (_root c) (consecutive c) (min_addr c) (max_addr c).

(** What a caller passes as [data]: [bytes], an existing buffer object, a child
    memory, or something else. *)
Inductive payload :=
  | PBytes (data : list Z)
  | PBuffer (b : nat)
  | PClemory (c : clemory)
  | PMemoryView (data : list Z).

Definition payload_len (h : heap) (p : payload) : Z :=
  match p with
  | PBytes data | PMemoryView data => len data
  | PBuffer b => len (contents (buffer_at h b))
  | PClemory _ => 0
  end.

(** [not data]: a memory object is never falsy. *)
Definition payload_empty (h : heap) (p : payload) : bool :=
  match p with PClemory _ => false | _ => payload_len h p =? 0 end.

Definition check_data (p : payload) : M unit :=
  '(h, _) ← get;
  if payload_empty h p then raise ValueError
  else match p with PMemoryView _ => raise TypeError | _ => mret tt end.

Definition update_min_max : M unit :=
  '(h, c) ← get;
  match _update_min_max h c with Ok c => put (h, c) | Err e => raise e end.

(** The end of [add_backer]: a [bytes] payload becomes a new [bytearray]. *)
Definition insert_backer (start : Z) (p : payload) : M unit :=
  '(h, c) ← get;
  let add (h : heap) (d : backer_of clemory) : M unit :=
    _ ← put (h, set_backers c (insort fst (_backers c) (start, d)));
    update_min_max in
  match p with
  | PClemory child => if _root child then raise ValueError else add h (Sub child)
  | PBytes data | PMemoryView data => add (h ++ [mkBuffer ByteArray data]) (Buf (length h))
  | PBuffer b => add h (Buf b)
  end.

Definition check_unbacked (start : Z) : M unit :=
  '(h, c) ← get;
  match backers h c start with
  | [] => mret tt
  | (existing, _) :: _ => if existing <=? start then raise ValueError else mret tt
  end.

(** [add_backer(start, data)] with [overwrite] left [False]. *)
Definition add_backer_default (start : Z) (p : payload) : M unit :=
  _ ← check_data p;
  _ ← check_unbacked start;
  insert_backer start p.

Definition remove_backer (start : Z) : M unit :=
  '(h, c) ← get;
  let backer_idx := bisect (fst <$> _backers c) start in
  match _backers c !! backer_idx with
  | Some (s, _) =>
      if s =? start then
        _ ← put (h, set_backers c (take backer_idx (_backers c) ++ drop (S backer_idx) (_backers c)));
        update_min_max
      else raise ValueError
  | None => raise ValueError
  end.

(** A slice of a buffer is a new object: a [bytearray] or a [list] of the same
    kind, [bytes] for an [mmap]. *)
Definition slice_payload (b : nat) (lo hi : option Z) : M payload :=
  '(h, c) ← get;
  let l := contents (buffer_at h b) in
  let data := py_slice l (default 0 lo) (default (len l) hi) in
  match bkind (buffer_at h b) with
  | MMap => mret (PBytes data)
  | k => _ ← put (h ++ [mkBuffer k data], c); mret (PBuffer (length h))
  end.

(** [backers] yields leaves only, so the [isinstance] test on a [Clemory] of
    the source never succeeds. *)
Definition split_backer (addr : Z) : M unit :=
  '(h, c) ← get;
  match backers h c addr with
  | [] => mret tt
  | (start_addr, ch) :: _ =>
      if addr <=? start_addr then mret tt
      else if start_addr + clen ch <=? addr then mret tt
      else
        _ ← remove_backer start_addr;
        b0 ← slice_payload (cbuf ch) None (Some (addr - start_addr));
        b1 ← slice_payload (cbuf ch) (Some (addr - start_addr)) None;
        _ ← add_backer_default start_addr b0;
        add_backer_default addr b1
  end.

Definition add_backer (start : Z) (p : payload) (overwrite : bool) : M unit :=
  _ ← check_data p;
  '(h, _) ← get;
  let stop := start + payload_len h p in
  _ ← (if overwrite then
         match p with
         | PClemory _ => raise TypeError
         | _ =>
             _ ← split_backer start;
             _ ← split_backer stop;
             _ ← suppress_ValueError (remove_backer start);
             '(h, c) ← get;
             match backers h c stop with
             | [] => mret tt
             | (existing, _) :: _ => if existing <? stop then remove_backer existing else mret tt
             end
         end
       else check_unbacked start);
  insert_backer start p.

(** A [Clemory] as a [ClemoryBase]. *)
Definition as_base (a : Arch) (c : clemory) : ClemoryBase := {|
  _arch := a;
  b_getitem h k := __getitem__ h c k;
  b_setitem h k v := __setitem__ h c k v;
  b_contains h k := __contains__ h c k;
  b_load h addr n := load h c addr n;
  b_store h addr data := store h c addr data;
  b_backers h addr := Ok (backers h c addr);
  b_find h data lo hi := find h c data lo hi |}.

(** ** [ClemoryView]: a window on another memory *)

Module View.
Section View.
Context (_backer : ClemoryBase) (_start _end _offset : Z).

Definition _endoffset : Z := _offset + (_end - _start).
Definition _rebase : Z := _start - _offset.
Definition inside (k : Z) : bool := (_offset <=? k) && (k <? _endoffset).

Definition __getitem__ (h : heap) (k : Z) : result Z :=
  if negb (inside k) then Err (KeyError k) else b_getitem _backer h (k + _rebase).

(** The source reads the element and drops it. *)
Definition __setitem__ (h : heap) (k v : Z) : result heap :=
  if negb (inside k) then Err (KeyError k) else _ ← b_getitem _backer h (k + _rebase); Ok h.

Definition __contains__ (h : heap) (k : Z) : result bool :=
  if negb (inside k) then Err (KeyError k) else b_contains _backer h (k + _rebase).

(** One element of the generator. *)
Definition clamp (h : heap) (oaddr : Z) (ch : chunk) : result (list (Z * chunk)) :=
  let taddr := oaddr - _rebase in
  let last := taddr + clen ch - 1 in
  if inside taddr && inside last then Ok [(taddr, ch)]
  else if (_endoffset <=? taddr) || (last <? _offset) then Ok []
  else if bool_decide (chunk_kind h ch = IntList) then Err TypeError
  else
    let clamp_end := if _endoffset <=? last then clen ch - _endoffset + taddr else clen ch in
    let clamp_start := if taddr <? _offset then _offset - taddr else 0 in
    let a := slice_index (clen ch) clamp_start in
    let b := slice_index (clen ch) clamp_end in
    Ok [(taddr, mkChunk (cbuf ch) (clo ch + a) (Z.max 0 (b - a)))].

Definition backers (h : heap) (addr : Z) : result (list (Z * chunk)) :=
  bs ← b_backers _backer h (addr + _rebase);
  (λ l, concat l) <$> mapM (λ '(oaddr, ch), clamp h oaddr ch) bs.

Definition load (h : heap) (addr n : Z) : result (list Z) :=
  if n =? 0 then Ok []
  else if negb (inside addr) then Err (KeyError addr)
  else if negb (inside (addr + n - 1)) then Err (KeyError (addr + n - 1))
  else b_load _backer h (addr + _rebase) n.

Definition store (h : heap) (addr : Z) (data : list Z) : heap * result unit :=
  match data with
  | [] => (h, Ok tt)
  | _ =>
      if negb (inside addr) then (h, Err (KeyError addr))
      else if negb (inside (addr + len data - 1)) then (h, Err (KeyError (addr + len data - 1)))
      else b_store _backer h (addr + _rebase) data
  end.

Definition find (h : heap) (data : list Z) (search_min search_max : option Z) : list Z * option exn :=
  let lo := match search_min with Some m => if m <? _start then _start else m | None => _start end in
  let hi := match search_max with Some m => if _end <? m then _end else m | None => _end end in
  b_find _backer h data (Some (lo + _rebase)) (Some (hi + _rebase)).

Definition as_base : ClemoryBase := {|
  _arch := _arch _backer;
  b_getitem := __getitem__;
  b_setitem := __setitem__;
  b_contains := __contains__;
  b_load := load;
  b_store := store;
  b_backers := backers;
  b_find := find |}.
End View.
End View.

(** ** [ClemoryTranslator]: an address translation in front of a memory *)

Module Translator.
Section Translator.
Context (backer : ClemoryBase) (func : Z → Z).

Definition as_base : ClemoryBase := {|
  _arch := _arch backer;
  b_getitem h k := b_getitem backer h (func k);
  b_setitem h k v := b_setitem backer h (func k) v;
  b_contains h k := b_contains backer h (func k);
  b_load h addr n := b_load backer h (func addr) n;
  b_store h addr data := b_store backer h (func addr) data;
  b_backers h addr := Err TypeError;
  b_find h data lo hi := ([], Some TypeError) |}.
End Translator.
End Translator.

(** ** [UninitializedClemory]: occupied addresses without contents

    As a memory of its own; as a child of another memory it is not modelled.
    The empty [bytearray] that [backers] makes is a chunk of no bytes. *)

Module Uninitialized.
Definition state (size : Z) : clemory := mkClemory [] false true 0 size.

Definition as_base (a : Arch) (size : Z) : ClemoryBase := {|
  _arch := a;
  b_getitem h k := __getitem__ h (state size) k;
  b_setitem h k v := __setitem__ h (state size) k v;
  b_contains h k := __contains__ h (state size) k;
  b_load h addr n := Ok (replicate (Z.to_nat n) 0);
  b_store h addr data := (h, Err ValueError);
  b_backers h addr := Ok [(0, mkChunk (length h) 0 0)];
  b_find h data lo hi := ([], None) |}.
End Uninitialized.

(** ** [ClemoryReadOnlyView]: the flattened backers with a one-entry cache *)

Module ReadOnly.
Record view := mkView { _flattened_backers : list (Z * nat); _last_backer_pos : option nat }.

(** [_flatten_backers]: whole buffers; anything but a [bytearray] raises. *)
Definition flatten (h : heap) (c : clemory) : result view :=
  bs ← mapM (λ '(start, ch),
    if bool_decide (chunk_kind h ch = ByteArray) then Ok (start, cbuf ch) else Err TypeError)
    (Clemory.backers h c 0);
  Ok (mkView bs None).

Definition data_at (h : heap) (v : view) (i : nat) : option (Z * list Z) :=
  '(start, b) ← _flattened_backers v !! i; Some (start, contents (buffer_at h b)).

(** The cached backer, if it holds [k]. *)
Definition cached (h : heap) (v : view) (k : Z) : option (Z * list Z) :=
  i ← _last_backer_pos v;
  '(start, data) ← data_at h v i;
  if (0 <=? k - start) && (k - start <? len data) then Some (start, data) else None.

Definition position (v : view) (k : Z) : nat :=
  let idx := bisect (fst <$> _flattened_backers v) k in
  match idx with O => O | S i => i end.

Definition remember (v : view) (i : nat) : view := mkView (_flattened_backers v) (Some i).

Definition __getitem__ (h : heap) (v : view) (k : Z) : view * result Z :=
  match cached h v k with
  | Some (start, data) => (v, Ok (nth (Z.to_nat (k - start)) data 0))
  | None =>
      let idx := position v k in
      match data_at h v idx with
      | None => (v, Err (KeyError k))
      | Some (start, data) =>
          if (0 <=? k - start) && (k - start <? len data) then
            (remember v idx, Ok (nth (Z.to_nat (k - start)) data 0))
          else (v, Err (KeyError k))
      end
  end.

(** The loop over [range(start_pos, ...)], [i] the position. *)
Fixpoint load_loop (h : heap) (v : view) (bs : list (Z * nat)) (i : nat) (views : list (list Z)) (addr n : Z) :
    view * result (list Z) :=
  match bs with
  | [] => (v, finish_load views addr)
  | (start, b) :: bs =>
      let data := contents (buffer_at h b) in
      if addr <? start then (v, finish_load views addr)
      else
        let offset := addr - start in
        if bool_decide (views = []) && (offset + n <? len data) then
          (remember v i, Ok (py_slice data offset (offset + n)))
        else
          let size := len data - offset in
          let views := views ++ [py_slice data offset (offset + n)] in
          if n - size <=? 0 then (v, finish_load views (addr + size))
          else load_loop h v bs (S i) views (addr + size) (n - size)
  end.

Definition load (h : heap) (v : view) (addr n : Z) : view * result (list Z) :=
  let slow :=
    let start_pos := position v addr in
    load_loop h v (drop start_pos (_flattened_backers v)) start_pos [] addr n in
  match cached h v addr with
  | Some (start, data) =>
      if addr - start + n <? len data then (v, Ok (py_slice data (addr - start) (addr - start + n))) else slow
  | None => slow
  end.

Definition unpack_at (fmt : struct_format) (data : list Z) (offset addr : Z) : result Z :=
  if len data - offset <? calcsize fmt then Err (_classify_struct_error StructError fmt (len data - offset) addr)
  else Ok (int_from_bytes (py_slice data offset (offset + calcsize fmt)) (fmt_big fmt) (fmt_signed fmt)).

Definition unpack (h : heap) (v : view) (addr : Z) (fmt : struct_format) : view * result Z :=
  match cached h v addr with
  | Some (start, data) => (v, unpack_at fmt data (addr - start) addr)
  | None =>
      let idx := position v addr in
      match data_at h v idx with
      | None => (v, Err (KeyError addr))
      | Some (start, data) =>
          if addr <? start then (v, Err (KeyError addr))
          else match unpack_at fmt data (addr - start) addr with
               | Ok x => (remember v idx, Ok x)
               | Err e => (v, Err e)
               end
      end
  end.

(** The generator [backers(addr)]. *)
Fixpoint backers_loop (h : heap) (bs : list (Z * nat)) (addr : Z) : list (Z * nat) :=
  match bs with
  | [] => []
  | (start, b) :: bs =>
      if addr <? start then []
      else
        let rest := backers_loop h bs addr in
        if (0 <=? addr - start) && (addr - start <? len (contents (buffer_at h b))) then (start, b) :: rest else rest
  end.

Definition backers (h : heap) (v : view) (addr : Z) : list (Z * nat) :=
  backers_loop h (drop (position v addr) (_flattened_backers v)) addr.
End ReadOnly.

End Clemory.
