(* ===== verification/ClemoryFacts.v ===== *)
(** * The memory of a loaded binary: what the operations of [Clemory] do

    A memory that is well formed denotes a partial map from addresses to bytes
    ([mem]).  [load] and [store] read and write that map, the word accessors
    are inverse to each other on it, and the views present a window of it. *)

From Stdlib Require Import ZArith Lia Bool.
From stdpp Require Import base tactics list numbers.
From S2P Require Import Prelude Clemory.

Module ClemoryFacts.
Import Clemory.

(** ** [bisect] *)

(** Non-decreasing keys. *)
Definition increasing (keys : list Z) : Prop :=
  ∀ i j, (i ≤ j < length keys)%nat → nth i keys 0 ≤ nth j keys 0.

Lemma len_nonneg {A} (l : list A) : 0 ≤ len l.
Proof. unfold len. lia. Qed.

Lemma len_app {A} (l l' : list A) : len (l ++ l') = len l + len l'.
Proof. unfold len. rewrite length_app. lia. Qed.

Lemma len_cons {A} (x : A) l : len (x :: l) = 1 + len l.
Proof. unfold len. cbn. lia. Qed.

(** The loop keeps a split of the keys and halves the range. *)
Lemma bisect_loop_spec keys x fuel lo hi :
  increasing keys → 0 ≤ lo ≤ hi → hi ≤ len keys → hi - lo < Z.of_nat fuel →
  (∀ i, (i < Z.to_nat lo)%nat → nth i keys 0 ≤ x) →
  (∀ i, (Z.to_nat hi ≤ i < length keys)%nat → x < nth i keys 0) →
  let r := bisect_loop fuel keys x lo hi in
  0 ≤ r ≤ len keys ∧ (∀ i, (i < Z.to_nat r)%nat → nth i keys 0 ≤ x) ∧
  (∀ i, (Z.to_nat r ≤ i < length keys)%nat → x < nth i keys 0).
Proof.
  intros Hs. revert lo hi. induction fuel as [|fuel IH]; intros lo hi Hlo Hhi Hf Hl Hr; cbn; [lia|].
  destruct (Z.ltb_spec lo hi); [|split; [lia|split; [done|intros i Hi; apply Hr; lia]]].
  assert (lo ≤ (lo + hi) / 2 < hi) by (split; [apply Z.div_le_lower_bound|apply Z.div_lt_upper_bound]; lia).
  set (mid := (lo + hi) / 2) in *. unfold len in *.
  destruct (Z.ltb_spec x (nth (Z.to_nat mid) keys 0)); apply IH; try lia; try done.
  - intros i Hi. pose proof (Hs (Z.to_nat mid) i ltac:(lia)). lia.
  - intros i Hi. pose proof (Hs i (Z.to_nat mid) ltac:(lia)). lia.
Qed.

Lemma bisect_spec keys x :
  increasing keys →
  (bisect keys x ≤ length keys)%nat ∧ Forall (λ k, k ≤ x) (take (bisect keys x) keys) ∧
  Forall (λ k, x < k) (drop (bisect keys x) keys).
Proof.
  intros Hs. unfold bisect. pose proof (len_nonneg keys).
  destruct (bisect_loop_spec keys x (S (length keys)) 0 (len keys)) as (Hb & Hl & Hr);
    [done|lia|lia|unfold len; lia|lia|unfold len; lia|].
  set (r := bisect_loop _ _ _ _ _) in *. unfold len in *. split; [lia|].
  split; apply Forall_lookup; intros i k Hk.
  - apply lookup_take_Some in Hk as [Hk Hi]. specialize (Hl i Hi).
    by rewrite (nth_lookup_Some _ _ 0 _ Hk) in Hl.
  - rewrite lookup_drop in Hk. pose proof (lookup_lt_Some _ _ _ Hk).
    specialize (Hr (Z.to_nat r + i)%nat ltac:(lia)). by rewrite (nth_lookup_Some _ _ 0 _ Hk) in Hr.
Qed.

(** The binary search splits the sorted keys: the entries before the
    returned position are at most [x], the entries from it on are greater.  The
    loop, on the fuel [length keys + 1] that halving never exhausts, therefore
    returns the number of keys that are at most [x]. *)
Theorem bisect_partitions (keys : list Z) (x : Z) :
  increasing keys →
  bisect keys x = length (filter (λ k, k ≤ x) keys) ∧
  filter (λ k, k ≤ x) keys = take (bisect keys x) keys ∧
  filter (λ k, x < k) keys = drop (bisect keys x) keys.
Proof.
  intros Hs. destruct (bisect_spec keys x Hs) as (Hb & Hl & Hr).
  assert (∀ (P : Z → Prop) (D : ∀ k, Decision (P k)), filter P keys =
    filter P (take (bisect keys x) keys) ++ filter P (drop (bisect keys x) keys)) as Split.
  { intros. by rewrite <-list.filter_app, take_drop. }
  assert (filter (λ k, k ≤ x) keys = take (bisect keys x) keys) as E.
  { rewrite Split, (filter_all _ _ Hl), filter_none; [apply app_nil_r|].
    eapply Forall_impl; [|exact Hr]. cbn. lia. }
  split; [|split; [done|]].
  - rewrite E, length_take. lia.
  - rewrite Split, filter_none, (filter_all _ _ Hr); [done|].
    eapply Forall_impl; [|exact Hl]. cbn. lia.
Qed.

Lemma bisect_partitions_witness : bisect [1; 3; 3; 7] 3 = length (filter (λ k, k ≤ 3) [1; 3; 3; 7]).
Proof.
  apply bisect_partitions. intros i j Hij. cbn in Hij.
  do 4 (destruct i as [|i]; [do 4 (destruct j as [|j]; [cbn; lia|]); cbn; lia|]). lia.
Defined.

(** ** Trees of backers *)

(** Induction on the tree. *)
Lemma clemory_tree_ind (P : clemory → Prop) :
  (∀ c, (∀ s c', (s, Sub c') ∈ _backers c → P c') → P c) → ∀ c, P c.
Proof.
  intros H. fix IH 1. intros [bs r co mi ma].
  assert (Forall (λ e, match e.2 with Buf _ => True | Sub c => P c end) bs) as Hbs.
  { induction bs as [|[s [b|c]] bs IHbs]; constructor; [exact I|exact IHbs|apply IH|exact IHbs]. }
  apply H. cbn. intros s c' Hin. rewrite list.Forall_forall in Hbs. by apply (Hbs (s, Sub c')).
Qed.

Definition size (h : heap) (b : nat) : Z := len (contents (buffer_at h b)).

(** The leaves, in order, with their absolute addresses. *)
Fixpoint flat (c : clemory) : list (Z * nat) :=
  (fix go (l : list (Z * backer_of clemory)) : list (Z * nat) :=
    match l with
    | [] => []
    | (s, Buf b) :: l => (s, b) :: go l
    | (s, Sub c') :: l => ((λ '(s', b), (s' + s, b)) <$> flat c') ++ go l
    end) (_backers c).

Definition shift (s : Z) (F : list (Z * nat)) : list (Z * nat) := (λ '(s', b), (s' + s, b)) <$> F.

Definition flat_entry (e : Z * backer_of clemory) : list (Z * nat) :=
  match e with (s, Buf b) => [(s, b)] | (s, Sub c) => shift s (flat c) end.

Lemma flat_eq c : flat c = _backers c ≫= flat_entry.
Proof. destruct c as [bs r co mi ma]. cbn. induction bs as [|[s [b|c]] bs IH]; cbn; [done|by rewrite IH..]. Qed.

(** The map a list of leaves denotes. *)
Fixpoint lookup_in (h : heap) (F : list (Z * nat)) (k : Z) : option Z :=
  match F with
  | [] => None
  | (s, b) :: F =>
      if (s <=? k) && (k <? s + size h b) then Some (nth (Z.to_nat (k - s)) (contents (buffer_at h b)) 0)
      else lookup_in h F k
  end.

(** The map a memory denotes: the byte at each mapped address. *)
Definition mem (h : heap) (c : clemory) (k : Z) : option Z := lookup_in h (flat c) k.

(** Non-empty leaves from [lo] on, without overlap. *)
Fixpoint chain (h : heap) (lo : Z) (F : list (Z * nat)) : Prop :=
  match F with [] => True | (s, b) :: F => lo ≤ s ∧ 0 < size h b ∧ chain h (s + size h b) F end.

(** Backers from [lo] on, without overlap. *)
Fixpoint entries (h : heap) (lo : Z) (bs : list (Z * backer_of clemory)) : Prop :=
  match bs with [] => True | e :: bs => lo ≤ e.1 ∧ entries h (calculate_end h e) bs end.

(** The three cached attributes are what [_update_min_max] computes; a memory
    without backers has those it was made with. *)
Definition cached (h : heap) (c : clemory) : Prop :=
  match _backers c with
  | [] => consecutive c = true ∧ min_addr c = 0 ∧ max_addr c = 0
  | _ => _update_min_max h c = Ok c
  end.

Inductive wf (h : heap) (c : clemory) : Prop :=
  wf_intro :
    entries h (min_addr c) (_backers c) →
    (∀ s b, (s, Buf b) ∈ _backers c → 0 < size h b) →
    (∀ s c', (s, Sub c') ∈ _backers c → wf h c') →
    (∀ s c', (s, Sub c') ∈ _backers c → 0 ≤ min_addr c') →
    cached h c → wf h c.

(** The end of the last backer. *)
Fixpoint last_end (h : heap) (m : Z) (bs : list (Z * backer_of clemory)) : Z :=
  match bs with [] => m | e :: bs => last_end h (calculate_end h e) bs end.

Lemma update_max h bs n co m :
  Forall (λ e, 0 ≤ extent h e.2) bs → entries h m bs →
  ∃ n' co', foldl (update_step h) (n, co, Some m) bs = (n', co', Some (last_end h m bs)).
Proof.
  intros Hb. revert n co m. induction Hb as [|[s d] bs He Hb IH]; intros n co m Hm; cbn; [by eexists _, _|].
  destruct Hm as [Hs Hm]. cbn in He, Hs. unfold calculate_end in Hm |- *. cbn in Hm |- *.
  replace (if m <? s + extent h d then Some (s + extent h d) else Some m) with (Some (s + extent h d)).
  - apply IH. done.
  - destruct (Z.ltb_spec m (s + extent h d)); [done|]. f_equal. lia.
Qed.

Lemma last_end_bounds h bs m :
  Forall (λ e, 0 ≤ extent h e.2) bs → entries h m bs →
  m ≤ last_end h m bs ∧ Forall (λ e, m ≤ e.1 ∧ calculate_end h e ≤ last_end h m bs) bs.
Proof.
  intros Hb. revert m. induction Hb as [|[s d] bs He Hb IH]; intros m Hm; cbn; [split; [lia|constructor]|].
  destruct Hm as [Hs Hm]. cbn in He, Hs. destruct (IH _ Hm) as [Hl Ha].
  assert (calculate_end h (s, d) = s + extent h d) as Ec by done. rewrite Ec in *.
  split; [lia|]. constructor; [rewrite Ec; cbn; lia|].
  eapply Forall_impl; [|exact Ha]. cbn. lia.
Qed.

Lemma cached_spec h c e bs :
  _backers c = e :: bs → Forall (λ e, 0 ≤ extent h e.2) (e :: bs) → entries h (calculate_end h e) bs →
  cached h c → min_addr c = e.1 ∧ max_addr c = last_end h (calculate_end h e) bs.
Proof.
  intros Ebs Hx He Hc. inversion Hx as [|? ? Hd Hx']; subst. unfold cached, _update_min_max in Hc. rewrite Ebs in Hc.
  destruct e as [s d]. cbn [foldl] in Hc. unfold update_step at 2 in Hc.
  match type of Hc with context [foldl _ (Some _, ?co, Some _) _] =>
    destruct (update_max h bs (Some (s + extent h d)) co (s + extent h d) Hx' He) as (n' & co' & E) end.
  rewrite E in Hc. injection Hc as Hc. by rewrite <-Hc.
Qed.

Lemma wf_bounds h c :
  wf h c →
  min_addr c ≤ max_addr c ∧
  Forall (λ e, 0 ≤ extent h e.2 ∧ min_addr c ≤ e.1 ∧ calculate_end h e ≤ max_addr c) (_backers c).
Proof.
  induction c as [c IH] using clemory_tree_ind. intros [He Hbuf Hsub Hmin Hc].
  assert (Forall (λ e, 0 ≤ extent h e.2) (_backers c)) as Hx.
  { apply list.Forall_forall. intros [s [b|c']] Hin; cbn.
    - pose proof (Hbuf s b Hin). unfold size in *. lia.
    - pose proof (Hmin s c' Hin). pose proof (IH s c' Hin (Hsub s c' Hin)) as [? _]. lia. }
  destruct (_backers c) as [|e bs] eqn:Ebs.
  - unfold cached in Hc. rewrite Ebs in Hc. destruct Hc as (_ & -> & ->). split; [lia|constructor].
  - destruct He as [Hs He]. destruct (cached_spec h c e bs Ebs Hx He Hc) as [Emin Emax].
    inversion Hx as [|? ? Hd Hx']; subst. destruct (last_end_bounds h bs _ Hx' He) as [Hl Ha].
    assert (calculate_end h e = e.1 + extent h e.2) as Ec by done. rewrite <-Emax in *.
    split; [lia|]. constructor; [lia|].
    apply list.Forall_forall. intros e' Hin. rewrite list.Forall_forall in Ha, Hx'.
    specialize (Ha e' Hin). specialize (Hx' e' Hin). cbn in *. lia.
Qed.

(** ** Chains of leaves *)

Lemma chain_weaken h lo lo' F : lo' ≤ lo → chain h lo F → chain h lo' F.
Proof. destruct F as [|[s b] F]; cbn; [done|]. intros ? (? & ? & ?). split; [lia|done]. Qed.

(** No leaf begins before the chain. *)
Lemma chain_elem h lo F s b : chain h lo F → (s, b) ∈ F → lo ≤ s.
Proof.
  revert lo. induction F as [|[s' b'] F IH]; intros lo HF Hin; [by apply not_elem_of_nil in Hin|].
  destruct HF as (? & ? & HF). apply elem_of_cons in Hin as [[= -> ->]|Hin]; [done|]. specialize (IH _ HF Hin). lia.
Qed.

Lemma chain_shift h s lo F : chain h lo F → chain h (lo + s) (shift s F).
Proof.
  revert lo. induction F as [|[s' b] F IH]; intros lo; cbn; [done|]. intros (? & ? & H).
  split; [lia|]. split; [done|]. apply IH in H. eapply chain_weaken; [|exact H]. lia.
Qed.

Definition ends_below (h : heap) (m : Z) (F : list (Z * nat)) : Prop := Forall (λ '(s, b), s + size h b ≤ m) F.

Lemma chain_app h lo m F G : lo ≤ m → chain h lo F → ends_below h m F → chain h m G → chain h lo (F ++ G).
Proof.
  intros Hm. revert lo Hm. induction F as [|[s b] F IH]; intros lo Hm HF Hb HG; cbn.
  - by eapply chain_weaken.
  - destruct HF as (? & ? & HF). inversion Hb; subst. split; [done|]. split; [done|]. by apply IH.
Qed.

Lemma ends_below_weaken h m m' F : m ≤ m' → ends_below h m F → ends_below h m' F.
Proof. intros ?. apply Forall_impl. intros [s b]. lia. Qed.

Lemma ends_below_shift h s m F : ends_below h m F → ends_below h (m + s) (shift s F).
Proof. induction 1 as [|[s' b] F]; cbn; [constructor|]. constructor; [lia|done]. Qed.

Lemma entry_chain h e :
  match e.2 with
  | Buf b => 0 < size h b
  | Sub c => chain h (min_addr c) (flat c) ∧ ends_below h (max_addr c) (flat c) ∧ 0 ≤ min_addr c
  end → chain h e.1 (flat_entry e) ∧ ends_below h (calculate_end h e) (flat_entry e).
Proof.
  destruct e as [s [b|c]]; cbn.
  - intros ?. split; [done|by repeat constructor].
  - intros (H1 & H2 & ?). split.
    + eapply chain_weaken; [|by apply chain_shift]. lia.
    + unfold calculate_end. cbn. rewrite Z.add_comm. by apply ends_below_shift.
Qed.

(** The leaves of a well-formed memory are a chain inside its bounds. *)
Lemma flat_chain h c : wf h c → chain h (min_addr c) (flat c) ∧ ends_below h (max_addr c) (flat c).
Proof.
  induction c as [c IH] using clemory_tree_ind. intros Hwf. pose proof (wf_bounds h c Hwf) as [Hmm Hb].
  destruct Hwf as [He Hbuf Hsub Hmin _]. rewrite flat_eq.
  assert (∀ e, e ∈ _backers c → chain h e.1 (flat_entry e) ∧ ends_below h (calculate_end h e) (flat_entry e)) as Hentry.
  { intros [s [b|c']] Hin; apply entry_chain; [by eapply Hbuf|].
    destruct (IH s c' Hin (Hsub s c' Hin)). pose proof (Hmin s c' Hin). done. }
  clear IH Hbuf Hsub Hmin. revert He Hentry Hb. generalize (min_addr c) at 1 3.
  induction (_backers c) as [|e bs IH]; intros lo He Hentry Hb; cbn; [split; constructor|].
  destruct He as [Hs He]. inversion Hb as [|? ? (Hx & _ & Hend) Hb']; subst.
  destruct (Hentry e) as [H1 H2]; [by constructor|].
  destruct (IH (calculate_end h e) He) as [H3 H4]; [intros; apply Hentry; by constructor|done|].
  assert (calculate_end h e = e.1 + extent h e.2) as Ec by done. split.
  - eapply chain_app; [|eapply chain_weaken; [|exact H1]|exact H2|exact H3]; lia.
  - apply Forall_app. split; [by eapply ends_below_weaken|done].
Qed.

Lemma wf_entry h c e :
  wf h c → e ∈ _backers c → chain h e.1 (flat_entry e) ∧ ends_below h (calculate_end h e) (flat_entry e).
Proof.
  intros [_ Hbuf Hsub Hmin _] Hin. apply entry_chain. destruct e as [s [b|c']]; cbn; [by eapply Hbuf|].
  destruct (flat_chain h c' (Hsub s c' Hin)). split; [done|]. split; [done|]. by eapply Hmin.
Qed.

(** ** [backers] *)

(** The leaves that end after [addr], and the chunks they are yielded as. *)
Definition from (h : heap) (addr : Z) (F : list (Z * nat)) : list (Z * nat) :=
  filter (λ e, addr < e.1 + size h e.2) F.

Definition chunks (h : heap) (F : list (Z * nat)) : list (Z * chunk) := (λ '(s, b), (s, whole h b)) <$> F.

Definition entry_chunks (h : heap) (addr : Z) (e : Z * backer_of clemory) : list (Z * chunk) :=
  match e with
  | (s, Buf b) => [(s, whole h b)]
  | (s, Sub c) => (λ '(s', b), (s' + s, b)) <$> backers h c (addr - s)
  end.

Lemma backers_eq h c addr :
  backers h c addr =
    if max_addr c <? addr then []
    else drop (bisect (calculate_end h <$> _backers c) addr) (_backers c) ≫= entry_chunks h addr.
Proof.
  destruct c as [bs r co mi ma]. cbn [backers max_addr _backers]. destruct (ma <? addr); [done|].
  generalize (bisect (calculate_end h <$> bs) addr) as n.
  induction bs as [|[s d] bs IH]; intros [|n]; [done..| |by rewrite IH].
  specialize (IH O). rewrite IH, drop_0. by destruct d.
Qed.

Lemma from_shift h addr s F : from h addr (shift s F) = shift s (from h (addr - s) F).
Proof.
  unfold from. induction F as [|[s' b] F IH]; [done|]. cbn [shift fmap list_fmap].
  change ((λ '(s0, b0), (s0 + s, b0)) <$> F) with (shift s F). rewrite !list.filter_cons, IH. cbn.
  destruct (decide (addr - s < s' + size h b)); [rewrite decide_True by lia|rewrite decide_False by lia]; done.
Qed.

Lemma chunks_shift h s F : chunks h (shift s F) = (λ '(s', b), (s' + s, b)) <$> chunks h F.
Proof. unfold chunks, shift. rewrite <-!list_fmap_compose. apply list_fmap_ext. by intros ? [s' b]. Qed.

Lemma from_app h addr F G : from h addr (F ++ G) = from h addr F ++ from h addr G.
Proof. apply list.filter_app. Qed.

Lemma from_none h addr F : ends_below h addr F → from h addr F = [].
Proof. intros H. apply filter_none. eapply Forall_impl; [|exact H]. intros [s b]. cbn. lia. Qed.

(** The ends of well-formed backers do not decrease, so [bisect] on them is the
    partition it is meant to be. *)
Lemma ends_increasing h lo bs :
  Forall (λ e, 0 ≤ extent h e.2) bs → entries h lo bs → increasing (calculate_end h <$> bs).
Proof.
  intros Hx. revert lo. induction Hx as [|e bs He Hx IH]; intros lo Hb i j Hij; cbn in *; [lia|].
  destruct Hb as [_ Hb]. destruct i as [|i], j as [|j]; cbn; try lia.
  - rewrite length_fmap in Hij. destruct (last_end_bounds h bs _ Hx Hb) as [_ Ha].
    rewrite list.Forall_forall in Ha, Hx.
    destruct (lookup_lt_is_Some_2 bs j ltac:(lia)) as [e' Hj].
    rewrite (nth_lookup_Some _ j 0 (calculate_end h e')) by (by rewrite list_lookup_fmap, Hj).
    apply list_elem_of_lookup_2 in Hj. specialize (Ha e' Hj). specialize (Hx e' Hj).
    assert (calculate_end h e' = e'.1 + extent h e'.2) by done. cbn in *. lia.
  - apply (IH _ Hb). lia.
Qed.

Lemma from_bind_none h addr bs :
  Forall (λ e, from h addr (flat_entry e) = []) bs → from h addr (bs ≫= flat_entry) = [].
Proof.
  induction 1 as [|e bs He _ IH]; [done|].
  change ((e :: bs) ≫= flat_entry) with (flat_entry e ++ (bs ≫= flat_entry)). by rewrite from_app, He, IH.
Qed.

Lemma from_bind_chunks h addr bs :
  Forall (λ e, entry_chunks h addr e = chunks h (from h addr (flat_entry e))) bs →
  bs ≫= entry_chunks h addr = chunks h (from h addr (bs ≫= flat_entry)).
Proof.
  induction 1 as [|e bs He _ IH]; [done|].
  change ((e :: bs) ≫= flat_entry) with (flat_entry e ++ (bs ≫= flat_entry)).
  change ((e :: bs) ≫= entry_chunks h addr) with (entry_chunks h addr e ++ (bs ≫= entry_chunks h addr)).
  rewrite from_app. unfold chunks in *. by rewrite fmap_app, He, IH.
Qed.

(** [backers(addr)] yields the leaves that end after [addr], in order. *)
Lemma backers_from h c addr : wf h c → backers h c addr = chunks h (from h addr (flat c)).
Proof.
  revert addr. induction c as [c IH] using clemory_tree_ind. intros addr Hwf.
  rewrite backers_eq. destruct (Z.ltb_spec (max_addr c) addr).
  { rewrite from_none; [done|]. eapply ends_below_weaken; [|by apply flat_chain]. lia. }
  pose proof (wf_bounds h c Hwf) as [_ Hb]. destruct Hwf as [He Hbuf Hsub _ _].
  assert (increasing (calculate_end h <$> _backers c)) as Hinc.
  { eapply ends_increasing; [|exact He]. eapply Forall_impl; [|exact Hb]. cbn. lia. }
  destruct (bisect_spec _ addr Hinc) as (_ & Hl & Hr). rewrite flat_eq.
  set (n := bisect (calculate_end h <$> _backers c) addr) in *.
  rewrite <-fmap_take, Forall_fmap in Hl. rewrite <-fmap_drop, Forall_fmap in Hr.
  assert (∀ e, e ∈ take n (_backers c) ∨ e ∈ drop n (_backers c) → e ∈ _backers c) as Hin.
  { intros e ?. rewrite <-(take_drop n (_backers c)). by apply elem_of_app. }
  rewrite <-(take_drop n (_backers c)) at 2.
  rewrite bind_app, from_app, from_bind_none, from_bind_chunks; [done| |];
    apply list.Forall_forall; intros [s [b|c']] He'.
  - rewrite list.Forall_forall in Hr. specialize (Hr _ He'). unfold from. cbn in *. by rewrite decide_True by done.
  - pose proof (Hin _ (or_intror He')) as Hc. cbn.
    by rewrite (IH s c' Hc _ (Hsub s c' Hc)), <-chunks_shift, <-from_shift.
  - rewrite list.Forall_forall in Hl. specialize (Hl _ He'). apply from_none. constructor; [exact Hl|constructor].
  - rewrite list.Forall_forall in Hl. specialize (Hl _ He'). pose proof (Hin _ (or_introl He')) as Hc.
    destruct (flat_chain h c' (Hsub s c' Hc)) as [_ H2]. apply from_none.
    eapply ends_below_weaken; [|by apply ends_below_shift]. unfold calculate_end in Hl. cbn in Hl. lia.
Qed.

(** ** [load] *)

(** The longest run of mapped addresses from [addr], at most [n] long. *)
Fixpoint run (f : Z → option Z) (addr : Z) (n : nat) : list Z :=
  match n with
  | O => []
  | S n => match f addr with Some v => v :: run f (addr + 1) n | None => [] end
  end.

Lemma run_none f addr n : f addr = None → run f addr n = [].
Proof. intros E. destruct n; cbn; by rewrite ?E. Qed.

Lemma run_ext f g addr n : (∀ k, addr ≤ k → f k = g k) → run f addr n = run g addr n.
Proof.
  revert addr. induction n as [|n IH]; intros addr H; cbn; [done|]. rewrite H by lia.
  destruct (g addr); [|done]. f_equal. apply IH. intros. apply H. lia.
Qed.

(** A run begins with the bytes of the leaf it starts in. *)
Lemma run_take f addr n l :
  (∀ i, 0 ≤ i < len l → f (addr + i) = Some (nth (Z.to_nat i) l 0)) → (n ≤ length l)%nat →
  run f addr n = take n l.
Proof.
  revert addr n. induction l as [|x l IH]; intros addr [|n] H Hn; cbn in *; try done; [lia|].
  rewrite len_cons in H. pose proof (len_nonneg l). pose proof (H 0 ltac:(lia)) as E. rewrite Z.add_0_r in E. rewrite E.
  cbn. f_equal. apply IH; [|lia]. intros i Hi. specialize (H (i + 1) ltac:(lia)).
  replace (addr + (i + 1)) with (addr + 1 + i) in H by lia. rewrite H.
  by replace (Z.to_nat (i + 1)) with (S (Z.to_nat i)) by lia.
Qed.

Lemma run_app f addr n l :
  (∀ i, 0 ≤ i < len l → f (addr + i) = Some (nth (Z.to_nat i) l 0)) → (length l ≤ n)%nat →
  run f addr n = l ++ run f (addr + len l) (n - length l).
Proof.
  revert addr n. induction l as [|x l IH]; intros addr n H Hn; cbn [app length] in *.
  { cbn. by rewrite Z.add_0_r, Nat.sub_0_r. }
  destruct n as [|n]; [lia|]. rewrite len_cons in *. pose proof (len_nonneg l).
  pose proof (H 0 ltac:(lia)) as E. rewrite Z.add_0_r in E. cbn. rewrite E. cbn. f_equal.
  rewrite (IH (addr + 1) n) by (lia || (intros i Hi; specialize (H (i + 1) ltac:(lia));
    replace (addr + (i + 1)) with (addr + 1 + i) in H by lia; rewrite H;
    by replace (Z.to_nat (i + 1)) with (S (Z.to_nat i)) by lia)).
  by replace (addr + 1 + len l) with (addr + (1 + len l)) by lia.
Qed.

Lemma slice_index_in n i : 0 ≤ i → 0 ≤ n → slice_index n i = Z.min n i.
Proof. intros. unfold slice_index. destruct (Z.ltb_spec i 0); lia. Qed.

Lemma py_slice_spec {A} (l : list A) a n : 0 ≤ a ≤ len l → 0 ≤ n → py_slice l a (a + n) = take (Z.to_nat n) (drop (Z.to_nat a) l).
Proof.
  intros. unfold py_slice. rewrite !slice_index_in by lia. rewrite (Z.min_r (len l) a) by lia.
  destruct (Z.le_gt_cases (a + n) (len l)); [do 2 f_equal; lia|].
  rewrite !take_ge; [done|rewrite length_drop; unfold len in *; lia..].
Qed.

Lemma chunk_bytes_whole h b : chunk_bytes h (whole h b) = contents (buffer_at h b).
Proof.
  unfold chunk_bytes, whole. cbn [cbuf clo clen]. rewrite py_slice_spec by (pose proof (len_nonneg (contents (buffer_at h b))); lia).
  cbn. apply take_ge. unfold len. lia.
Qed.

Lemma lookup_below h lo F k : chain h lo F → k < lo → lookup_in h F k = None.
Proof.
  revert lo. induction F as [|[s b] F IH]; intros lo; cbn; [done|]. intros (? & ? & H) Hk.
  destruct (Z.leb_spec s k); [lia|]. cbn. apply (IH _ H). lia.
Qed.

Lemma lookup_from h addr F k : addr ≤ k → lookup_in h (from h addr F) k = lookup_in h F k.
Proof.
  intros Hk. unfold from. induction F as [|[s b] F IH]; [done|]. rewrite list.filter_cons. cbn.
  destruct (decide (addr < s + size h b)); cbn; [by rewrite IH|].
  destruct (Z.ltb_spec k (s + size h b)); [lia|]. by rewrite andb_false_r.
Qed.

Lemma chain_from h lo addr F : chain h lo F → chain h lo (from h addr F).
Proof.
  unfold from. revert lo. induction F as [|[s b] F IH]; intros lo; [done|]. intros (? & ? & H).
  rewrite list.filter_cons. cbn. destruct (decide _); [cbn; auto|].
  eapply chain_weaken; [|by apply IH]. lia.
Qed.

(** The bytes of a leaf from an address inside it. *)
Lemma lookup_head h s b F addr i :
  s ≤ addr → 0 ≤ i < len (drop (Z.to_nat (addr - s)) (contents (buffer_at h b))) →
  lookup_in h ((s, b) :: F) (addr + i) = Some (nth (Z.to_nat i) (drop (Z.to_nat (addr - s)) (contents (buffer_at h b))) 0).
Proof.
  intros Hs Hi. unfold len in Hi. rewrite length_drop in Hi. cbn. unfold size, len.
  destruct (Z.leb_spec s (addr + i)); [|lia].
  destruct (Z.ltb_spec (addr + i) (s + Z.of_nat (length (contents (buffer_at h b))))); [|lia]. cbn.
  rewrite !nth_lookup, lookup_drop. do 3 f_equal. lia.
Qed.

Lemma lookup_tail h s b lo F k : chain h lo ((s, b) :: F) → s + size h b ≤ k → lookup_in h ((s, b) :: F) k = lookup_in h F k.
Proof. intros _ Hk. cbn. destruct (Z.ltb_spec k (s + size h b)); [lia|]. by rewrite andb_false_r. Qed.

Definition byte_backed (h : heap) (F : list (Z * nat)) : Prop := Forall (λ e, bkind (buffer_at h e.2) ≠ IntList) F.

(** What remains of a load, once a slice has been taken. *)
Lemma load_loop_spec h F views addr n :
  chain h addr F → byte_backed h F → views ≠ [] → 0 < n →
  load_loop h (chunks h F) views addr n = Ok (concat views ++ run (lookup_in h F) addr (Z.to_nat n)).
Proof.
  intros HF Hb. revert views addr n HF. induction Hb as [|[s b] F Hk Hb IH]; intros views addr n HF Hv Hn.
  { cbn. rewrite run_none by done. unfold finish_load. destruct views; [done|]. by rewrite app_nil_r. }
  pose proof HF as (Hs & Hsz & HF'). cbn [chunks fmap list_fmap load_loop].
  destruct (Z.ltb_spec addr s).
  { rewrite run_none. { unfold finish_load. destruct views; [done|]. by rewrite app_nil_r. }
    eapply (lookup_below h s); [|lia]. by repeat split. }
  assert (s = addr) as -> by lia. rewrite Z.sub_diag. cbn in Hk.
  unfold chunk_kind. cbn [cbuf whole]. rewrite bool_decide_eq_false_2 by done.
  rewrite (bool_decide_eq_false_2 (views = [])) by done. cbn [andb]. rewrite Z.add_0_l, Z.sub_0_r.
  change (clen (whole h b)) with (size h b). rewrite chunk_bytes_whole.
  pose proof (py_slice_spec (contents (buffer_at h b)) 0 n) as E. rewrite Z.add_0_l in E.
  change (Z.to_nat 0) with O in E. rewrite drop_0 in E.
  rewrite E by (pose proof (len_nonneg (contents (buffer_at h b))); lia). clear E.
  assert (∀ i, 0 ≤ i < len (contents (buffer_at h b)) →
    lookup_in h ((addr, b) :: F) (addr + i) = Some (nth (Z.to_nat i) (contents (buffer_at h b)) 0)) as Hl.
  { intros i Hi. pose proof (lookup_head h addr b F addr i ltac:(lia)) as E. rewrite Z.sub_diag in E. by apply E. }
  unfold size in *. destruct (Z.leb_spec (n - len (contents (buffer_at h b))) 0).
  - unfold finish_load. destruct (views ++ _) eqn:Ev; [by destruct views|]. rewrite <-Ev, concat_app. cbn. rewrite app_nil_r.
    do 2 f_equal. symmetry. apply run_take; [done|].
    unfold len in *. lia.
  - fold (chunks h F). rewrite IH by (done || lia || by destruct views). rewrite concat_app. cbn. rewrite app_nil_r, <-app_assoc.
    do 2 f_equal. rewrite (run_app (lookup_in h ((addr, b) :: F)) _ _ (contents (buffer_at h b))) by (done || unfold len in *; lia).
    rewrite take_ge by (unfold len in *; lia). f_equal.
    rewrite (run_ext (lookup_in h ((addr, b) :: F)) (lookup_in h F)) by (intros; eapply lookup_tail; [exact HF|unfold size; lia]).
    f_equal. unfold len in *. lia.
Qed.

Definition byte_memory (h : heap) (c : clemory) : Prop := wf h c ∧ byte_backed h (flat c).

(** The leaf that [backers(addr)] yields first: either nothing is mapped at
    [addr], or it is the leaf that holds [addr]. *)
Lemma first_leaf h c addr :
  wf h c →
  (from h addr (flat c) = [] ∧ mem h c addr = None) ∨
  ∃ s b F, from h addr (flat c) = (s, b) :: F ∧ chain h s ((s, b) :: F) ∧ addr < s + size h b ∧
    (addr < s → mem h c addr = None).
Proof.
  intros Hwf. destruct (flat_chain h c Hwf) as [Hc _]. pose proof (chain_from h _ addr _ Hc) as Hf.
  unfold mem. rewrite <-(lookup_from h addr) by lia.
  assert (Forall (λ e, addr < e.1 + size h e.2) (from h addr (flat c))) as Ha.
  { apply list.Forall_forall. intros e He. by apply list_elem_of_filter in He as [? _]. }
  destruct (from h addr (flat c)) as [|[s b] F]; [by left|right].
  inversion Ha; subst. destruct Hf as (? & ? & ?). exists s, b, F. repeat split; try done; try lia.
  intros Hs. apply (lookup_below h s); [by repeat split|done].
Qed.

Lemma byte_backed_from h addr F : byte_backed h F → byte_backed h (from h addr F).
Proof. intros H. apply list.Forall_forall. intros e [_ He]%list_elem_of_filter. unfold byte_backed in H. rewrite list.Forall_forall in H. by apply H. Qed.

(** A load that starts inside its first leaf. *)
Lemma load_first_leaf h s b F addr n :
  chain h s ((s, b) :: F) → byte_backed h ((s, b) :: F) → s ≤ addr < s + size h b → 1 ≤ n →
  load_loop h (chunks h ((s, b) :: F)) [] addr n = Ok (run (lookup_in h ((s, b) :: F)) addr (Z.to_nat n)).
Proof.
  intros HF Hb Ha Hn. inversion Hb as [|? ? Hk Hb']; subst. cbn in Hk. pose proof HF as (_ & _ & HF').
  pose proof (lookup_head h s b F addr) as Hl. cbn [chunks fmap list_fmap load_loop].
  destruct (Z.ltb_spec addr s); [lia|]. unfold chunk_kind. cbn [cbuf whole]. rewrite bool_decide_eq_false_2 by done.
  rewrite bool_decide_eq_true_2 by done. cbn [andb app]. rewrite chunk_bytes_whole. change (clen (whole h b)) with (size h b).
  rewrite py_slice_spec by (unfold size in *; lia).
  set (l := drop (Z.to_nat (addr - s)) (contents (buffer_at h b))) in *.
  assert (len l = size h b - (addr - s)) as El by (unfold l, size, len in *; rewrite length_drop; lia).
  assert (∀ i, 0 ≤ i < len l → lookup_in h ((s, b) :: F) (addr + i) = Some (nth (Z.to_nat i) l 0)) as Hl' by (intros; apply Hl; lia).
  destruct (Z.ltb_spec (addr - s + n) (size h b)).
  { f_equal. symmetry. apply run_take; [done|]. unfold len in *. lia. }
  destruct (Z.leb_spec (n - (size h b - (addr - s))) 0).
  { cbn. rewrite app_nil_r. f_equal. symmetry. apply run_take; [done|]. unfold len in *. lia. }
  fold (chunks h F). rewrite load_loop_spec; [|eapply chain_weaken; [|exact HF']; lia|done|done|lia].
  cbn [concat]. rewrite app_nil_r, take_ge by (unfold len in *; lia). f_equal.
  rewrite (run_app (lookup_in h ((s, b) :: F)) _ _ l) by (done || unfold len in *; lia). f_equal.
  rewrite (run_ext (lookup_in h ((s, b) :: F)) (lookup_in h F)) by (intros; eapply lookup_tail; [exact HF|lia]).
  f_equal; unfold len in *; lia.
Qed.

(** A memory to evaluate on: two buffers side by side, the second one in a
    child memory, then a gap and a third buffer. *)
Definition sample_heap : heap :=
  [mkBuffer ByteArray [10; 11; 12]; mkBuffer ByteArray [20; 21]; mkBuffer ByteArray [30; 31; 32; 33]].
Definition sample_child : clemory := mkClemory [(0, Buf 1%nat)] false true 0 2.
Definition sample : clemory :=
  mkClemory [(16, Buf 0%nat); (19, Sub sample_child); (32, Buf 2%nat)] true false 16 36.

Lemma sample_wf : wf sample_heap sample.
Proof.
  assert (∀ s b, (s, Buf (C:=clemory) b) ∈ _backers sample → b = 0%nat ∨ b = 2%nat) as Hb.
  { intros s b Hin. repeat (apply elem_of_cons in Hin as [E|Hin]; [simplify_eq; by auto|]). by apply not_elem_of_nil in Hin. }
  assert (∀ s c, (s, Sub c) ∈ _backers sample → c = sample_child) as Hc.
  { intros s c Hin. repeat (apply elem_of_cons in Hin as [E|Hin]; [by simplify_eq|]). by apply not_elem_of_nil in Hin. }
  constructor.
  - vm_compute. repeat split; discriminate.
  - by intros s b [->| ->]%Hb.
  - intros s c ->%Hc. constructor; [vm_compute; by split| | | |done].
    + intros s' b [E|Hin]%elem_of_cons; [by simplify_eq|by apply not_elem_of_nil in Hin].
    + intros s' b [E|Hin]%elem_of_cons; [by simplify_eq|by apply not_elem_of_nil in Hin].
    + intros s' b [E|Hin]%elem_of_cons; [by simplify_eq|by apply not_elem_of_nil in Hin].
  - by intros s c ->%Hc.
  - done.
Qed.

Lemma sample_bytes : byte_memory sample_heap sample.
Proof. split; [apply sample_wf|]. by repeat constructor. Qed.

(** [load] reads a run of the denoted map. *)
Lemma load_spec h c addr n :
  byte_memory h c → 1 ≤ n →
  load h c addr n = match run (mem h c) addr (Z.to_nat n) with [] => Err (KeyError addr) | bs => Ok bs end.
Proof.
  intros [Hwf Hb] Hn. unfold load. rewrite backers_from by done.
  pose proof (byte_backed_from h addr _ Hb) as Hb'.
  rewrite (run_ext (mem h c) (lookup_in h (from h addr (flat c)))) by (intros; symmetry; by apply lookup_from).
  destruct (first_leaf h c addr Hwf) as [[-> _]|(s & b & F & EF & HF & Hend & _)]; [by rewrite run_none|].
  rewrite EF in *. destruct (Z.lt_ge_cases addr s).
  - rewrite run_none by (by eapply lookup_below). cbn. by destruct (Z.ltb_spec addr s); [|lia].
  - rewrite load_first_leaf by (done || lia). destruct (run _ addr _) eqn:E; [|done].
    replace (Z.to_nat n) with (S (Z.to_nat (n - 1))) in E by lia. cbn in E.
    destruct (Z.leb_spec s addr); [|lia]. by destruct (Z.ltb_spec addr (s + size h b)); [|lia].
Qed.

(** C18: [load(addr, n)] returns the bytes mapped from [addr] on, up to [n] of
    them or to the first unmapped address, whichever backers and child memories
    they come from, and raises [KeyError(addr)] when [addr] itself is not
    mapped. *)
Theorem load_exact (h : heap) (c : clemory) (addr n : Z) :
  byte_memory h c → 1 ≤ n →
  load h c addr n =
    match run (mem h c) addr (Z.to_nat n) with [] => Err (KeyError addr) | bs => Ok bs end.
Proof. apply load_spec. Qed.

Lemma load_exact_witness : load sample_heap sample 17 10 = Ok [11; 12; 20; 21].
Proof. apply (load_exact sample_heap sample 17 10); [apply sample_bytes|lia]. Defined.

(** ** [store] *)

Lemma used_buffer h b : 0 < size h b → (b < length h)%nat.
Proof.
  intros Hs. destruct (decide (b < length h)%nat) as [|Hb]; [done|]. unfold size, buffer_at in Hs.
  assert (h !! b = None) as E by (apply lookup_ge_None_2; lia). rewrite E in Hs. unfold len in Hs. cbn in Hs. lia.
Qed.


Lemma buffer_at_write h b l b' :
  0 < size h b →
  buffer_at (write_buffer h b l) b' = if decide (b' = b) then mkBuffer (bkind (buffer_at h b)) l else buffer_at h b'.
Proof.
  intros Hs. pose proof (used_buffer h b Hs) as Hb.
  unfold write_buffer. set (x := mkBuffer _ l). unfold buffer_at.
  destruct (decide (b' = b)) as [->|]; [by rewrite (list_lookup_insert_eq h)|].
  by rewrite (list_lookup_insert_ne h).
Qed.

(** Writing [data] at an offset inside a buffer, cut at the end of the buffer. *)
Lemma slice_assign_spec (l data : list Z) off :
  0 ≤ off < len l →
  let written := if len data <=? len l - off then data else py_slice data 0 (len l - off) in
  let l' := py_slice_assign l off (off + len data) written in
  length l' = length l ∧
  ∀ i, 0 ≤ i < len l →
    nth (Z.to_nat i) l' 0 =
      if (off <=? i) && (i <? off + len data) then nth (Z.to_nat (i - off)) data 0 else nth (Z.to_nat i) l 0.
Proof.
  intros Hoff written l'. pose proof (len_nonneg data).
  assert (written = take (Z.to_nat (len l - off)) data) as Ew.
  { unfold written. destruct (Z.leb_spec (len data) (len l - off)).
    - symmetry. apply take_ge. unfold len in *. lia.
    - pose proof (py_slice_spec data 0 (len l - off) ltac:(lia) ltac:(lia)) as E. by rewrite Z.add_0_l in E. }
  assert (l' = take (Z.to_nat off) l ++ written ++ drop (Z.to_nat off + length written) l) as El.
  { unfold l', py_slice_assign. rewrite !slice_index_in, (Z.min_r _ off) by lia. do 3 f_equal.
    rewrite Ew, length_take. unfold len in *. lia. }
  assert (length written ≤ length data ∧ length written ≤ length l - Z.to_nat off)%nat as [? ?]
    by (rewrite Ew, length_take; unfold len in *; lia).
  split.
  - rewrite El, !length_app, length_take, length_drop. unfold len in *. lia.
  - intros i Hi. rewrite El, !nth_lookup. unfold len in *.
    destruct (Z.leb_spec off i), (Z.ltb_spec i (off + Z.of_nat (length data))); cbn [andb];
      try (rewrite lookup_app_l by (rewrite length_take; lia); rewrite lookup_take_lt by lia; done);
      rewrite lookup_app_r by (rewrite length_take; lia); rewrite length_take.
    + rewrite lookup_app_l by (rewrite Ew, length_take; lia). rewrite Ew, lookup_take_lt by lia. do 2 f_equal. lia.
    + rewrite lookup_app_r by lia. rewrite lookup_drop. do 2 f_equal. lia.
Qed.

(** The map after writing [data] from [addr] on, where [f] is defined. *)
Definition overlay (f : Z → option Z) (addr : Z) (data : list Z) (k : Z) : option Z :=
  if (addr <=? k) && (k <? addr + len data) then Some (nth (Z.to_nat (k - addr)) data 0) else f k.

(** The part of [data] that lands on mapped addresses. *)
Definition landed (f : Z → option Z) (addr : Z) (data : list Z) : list Z :=
  take (length (run f addr (length data))) data.

Definition same_shape (h h' : heap) : Prop :=
  ∀ b, size h' b = size h b ∧ bkind (buffer_at h' b) = bkind (buffer_at h b).

Lemma lookup_unchanged h h' F k :
  (∀ b, b ∈ F.*2 → buffer_at h' b = buffer_at h b) → lookup_in h' F k = lookup_in h F k.
Proof.
  induction F as [|[s b] F IH]; intros H; cbn; [done|].
  unfold size. rewrite (H b) by (cbn; constructor). rewrite IH; [done|]. intros b' Hb. apply H. cbn. by constructor.
Qed.

Lemma chain_same_shape h h' lo F : same_shape h h' → chain h lo F → chain h' lo F.
Proof.
  intros Hs. revert lo. induction F as [|[s b] F IH]; intros lo; cbn; [done|].
  destruct (Hs b) as [-> _]. intros (? & ? & ?). auto.
Qed.

Lemma chunks_same_shape h h' F : same_shape h h' → chunks h' F = chunks h F.
Proof.
  intros Hs. unfold chunks. apply list_fmap_ext. intros _ [s b] _. unfold whole.
  destruct (Hs b) as [E _]. unfold size in E. by rewrite E.
Qed.

(** Writing into one leaf. *)
Definition write_leaf (h : heap) (s : Z) (b : nat) (addr : Z) (data : list Z) : heap :=
  let buf := contents (buffer_at h b) in
  let room := size h b - (addr - s) in
  write_buffer h b (py_slice_assign buf (addr - s) (addr - s + len data)
    (if len data <=? room then data else py_slice data 0 room)).

Lemma write_leaf_spec h s b addr data :
  s ≤ addr < s + size h b →
  let h' := write_leaf h s b addr data in
  same_shape h h' ∧ (∀ b', b' ≠ b → buffer_at h' b' = buffer_at h b') ∧
  ∀ F k, b ∉ F.*2 →
    lookup_in h' ((s, b) :: F) k =
      if (addr <=? k) && (k <? Z.min (addr + len data) (s + size h b)) then Some (nth (Z.to_nat (k - addr)) data 0)
      else lookup_in h ((s, b) :: F) k.
Proof.
  intros Ha h'. destruct (slice_assign_spec (contents (buffer_at h b)) data (addr - s) ltac:(unfold size in *; lia)) as [El En].
  change (len (contents (buffer_at h b))) with (size h b) in El, En.
  set (l' := py_slice_assign _ _ _ _) in *.
  assert (∀ b', buffer_at h' b' = if decide (b' = b) then mkBuffer (bkind (buffer_at h b)) l' else buffer_at h b') as Hb
    by (intros; apply buffer_at_write; lia).
  split; [|split].
  - intros b'. unfold size. rewrite Hb. destruct (decide (b' = b)) as [->|]; [|done]. cbn. unfold len. by rewrite El.
  - intros b' Hn. rewrite Hb. by rewrite decide_False.
  - intros F k HF. cbn [lookup_in]. assert (size h' b = size h b) as -> by (unfold size; rewrite Hb, decide_True by done; cbn; unfold len; by rewrite El).
    rewrite (lookup_unchanged h h' F) by (intros b' Hin; rewrite Hb; by destruct (decide (b' = b)) as [->|]).
    rewrite Hb, decide_True by done. cbn [contents].
    destruct (Z.leb_spec s k), (Z.ltb_spec k (s + size h b)); cbn [andb].
    + rewrite En by lia. replace (k - s - (addr - s)) with (k - addr) by lia. zcases; try lia; done.
    + zcases; lia || done.
    + zcases; lia || done.
    + zcases; lia || done.
Qed.

Lemma store_loop_cons h s b F addr data :
  store_loop h (chunks h ((s, b) :: F)) addr data =
    if addr <? s then (h, Err (KeyError addr))
    else
      let h' := write_leaf h s b addr data in
      match py_slice data (size h b - (addr - s)) (len data) with
      | [] => (h', Ok tt)
      | rest => store_loop h' (chunks h F) (addr + (size h b - (addr - s))) rest
      end.
Proof. reflexivity. Qed.

Lemma py_slice_rest {A} (data : list A) a : 0 ≤ a → py_slice data a (len data) = drop (Z.to_nat a) data.
Proof.
  intros Ha. pose proof (len_nonneg data). unfold py_slice. rewrite !slice_index_in by lia.
  destruct (Z.le_gt_cases a (len data)).
  - rewrite (Z.min_r _ a), take_ge by (rewrite ?length_drop; unfold len in *; lia). done.
  - rewrite !drop_ge by (unfold len in *; lia). by rewrite take_nil.
Qed.

(** The landed bytes of a write that starts inside its first leaf. *)
Lemma landed_head h s b F addr data :
  chain h s ((s, b) :: F) → s ≤ addr < s + size h b →
  let f := lookup_in h ((s, b) :: F) in
  let room := s + size h b - addr in
  landed f addr data =
    if len data <=? room then data
    else take (Z.to_nat room) data ++ landed (lookup_in h F) (addr + room) (drop (Z.to_nat room) data).
Proof.
  intros HF Ha f room. pose proof (lookup_head h s b F addr) as Hl. fold f in Hl.
  set (l := drop (Z.to_nat (addr - s)) (contents (buffer_at h b))) in *.
  assert (len l = room) as El by (unfold l, room, size, len in *; rewrite length_drop; lia).
  unfold landed. destruct (Z.leb_spec (len data) room).
  - rewrite (run_take f addr _ l) by ((intros; apply Hl; lia) || unfold len in *; lia).
    rewrite length_take, take_ge by (unfold len in *; lia). done.
  - rewrite (run_app f addr _ l) by ((intros; apply Hl; lia) || unfold len in *; lia).
    assert (length l = Z.to_nat room) as -> by (unfold len in *; lia). rewrite El, length_app, length_drop.
    rewrite (run_ext f (lookup_in h F)) by (intros; eapply lookup_tail; [exact HF|unfold room in *; lia]).
    assert (length l = Z.to_nat room) as -> by (unfold len in *; lia).
    by rewrite take_take_drop.
Qed.

(** The effect of a store: [w] is what landed. *)
Definition stored (h : heap) (F : list (Z * nat)) (addr : Z) (data w : list Z) (r : heap * result unit) : Prop :=
  same_shape h r.1 ∧ (∀ b, b ∉ F.*2 → buffer_at r.1 b = buffer_at h b) ∧
  (∀ k, lookup_in r.1 F k = overlay (lookup_in h F) addr w k) ∧
  r.2 = if decide (length w = length data) then Ok tt else Err (KeyError (addr + len w)).

Lemma stored_nothing h F addr data : data ≠ [] → stored h F addr data [] (h, Err (KeyError addr)).
Proof.
  intros Hd. split; [done|]. split; [done|]. split.
  - intros k. unfold overlay. cbn. destruct (Z.leb_spec addr k), (Z.ltb_spec k (addr + len (A:=Z) [])); try done.
    unfold len in *. cbn in *. lia.
  - rewrite decide_False by (destruct data; done). cbn. unfold len. by rewrite Z.add_0_r.
Qed.

(** The part of a store that goes on after the leaf it started in. *)
Lemma stored_cons h s b F addr data r :
  chain h s ((s, b) :: F) → b ∉ F.*2 → s ≤ addr < s + size h b →
  let room := s + size h b - addr in
  let rest := drop (Z.to_nat room) data in
  let h' := write_leaf h s b addr data in
  room < len data →
  stored h' F (addr + room) rest (landed (lookup_in h' F) (addr + room) rest) r →
  stored h ((s, b) :: F) addr data (landed (lookup_in h ((s, b) :: F)) addr data) r.
Proof.
  intros HF HbF Ha room rest h' Hlen (Hsh & Hout & Hin & Hr).
  destruct (write_leaf_spec h s b addr data Ha) as (Hsh' & Hout' & Hw). fold h' in Hsh', Hout', Hw.
  assert (∀ k, lookup_in h' F k = lookup_in h F k) as HF'.
  { intros. apply lookup_unchanged. intros b' Hb'. apply Hout'. by intros ->. }
  assert (landed (lookup_in h' F) (addr + room) rest = landed (lookup_in h F) (addr + room) rest) as El.
  { unfold landed. by rewrite (run_ext _ (lookup_in h F)). }
  rewrite (landed_head h s b F addr data HF Ha). fold room. fold rest. destruct (Z.leb_spec (len data) room); [lia|].
  rewrite El in *. set (w := landed (lookup_in h F) (addr + room) rest) in *.
  assert (len (take (Z.to_nat room) data) = room) as Et by (unfold len in *; rewrite length_take; lia).
  split; [intros b'; destruct (Hsh b') as [-> ->]; apply Hsh'|].
  split; [|split].
  - intros b' Hb'. cbn in Hb'. apply not_elem_of_cons in Hb' as [? ?]. rewrite Hout by done. by apply Hout'.
  - intros k. pose proof (Hw F k HbF) as Hk. cbn [lookup_in] in Hk |- *.
    assert (buffer_at r.1 b = buffer_at h' b) as Eb by by apply Hout.
    unfold size at 1 in Hk. unfold size at 1. rewrite Eb. fold (size h' b) in Hk |- *.
    destruct (Hsh' b) as [Es _]. rewrite Es in *. rewrite Hin. unfold overlay. rewrite len_app, Et. pose proof (len_nonneg w).
    destruct (Z.leb_spec s k), (Z.ltb_spec k (s + size h b)); cbn [andb] in *.
    + rewrite Hk. zcases; try lia; try done. f_equal. rewrite !nth_lookup, lookup_app_l by (unfold len in *; lia).
      by rewrite lookup_take_lt by lia.
    + zcases; try lia; try apply HF'. f_equal. rewrite !nth_lookup, lookup_app_r by (unfold len in *; lia).
      do 2 f_equal. unfold len in *. lia.
    + zcases; try lia; try apply HF'.
    + lia.
  - assert (length rest = length data - Z.to_nat room)%nat by apply length_drop.
    assert (length (take (Z.to_nat room) data ++ w) = Z.to_nat room + length w)%nat by (rewrite length_app; unfold len in *; lia).
    rewrite Hr, len_app, Et, Z.add_assoc. unfold len in Hlen. destruct (decide _), (decide _); done || lia.
Qed.

Lemma store_loop_spec h F lo addr data :
  chain h lo F → NoDup F.*2 → data ≠ [] →
  match F with (s, b) :: _ => addr < s + size h b | [] => True end →
  stored h F addr data (landed (lookup_in h F) addr data) (store_loop h (chunks h F) addr data).
Proof.
  revert h lo addr data. induction F as [|[s b] F IH]; intros h lo addr data HF Hnd Hd Hend.
  { unfold landed. rewrite run_none by done. rewrite take_0. cbn [chunks fmap list_fmap store_loop].
    pose proof (stored_nothing h [] addr data Hd). by destruct data. }
  assert (chain h s ((s, b) :: F)) as HF' by (destruct HF as (? & ? & ?); by repeat split).
  cbn in Hnd. apply list.NoDup_cons in Hnd as [HbF Hnd]. rewrite store_loop_cons. destruct (Z.ltb_spec addr s).
  { unfold landed. rewrite run_none by (by eapply lookup_below). rewrite take_0. by apply stored_nothing. }
  assert (s ≤ addr < s + size h b) as Ha by lia. cbv zeta.
  replace (size h b - (addr - s)) with (s + size h b - addr) by lia. rewrite py_slice_rest by lia.
  destruct (write_leaf_spec h s b addr data Ha) as (Hsh & Hout & Hw).
  destruct (Z.le_gt_cases (len data) (s + size h b - addr)) as [Hle|Hgt].
  - rewrite drop_ge by (unfold len in *; lia). rewrite (landed_head h s b F addr data HF' Ha).
    destruct (Z.leb_spec (len data) (s + size h b - addr)); [|lia]. split; [done|]. split; [|split].
    + intros b' Hb'. cbn in Hb'. apply not_elem_of_cons in Hb' as [? ?]. by apply Hout.
    + intros k. cbn [fst]. rewrite Hw by done. unfold overlay. by rewrite Z.min_l by lia.
    + by rewrite decide_True.
  - destruct (drop _ data) eqn:Er; [apply (f_equal length) in Er; rewrite length_drop in Er; unfold len in *; cbn in Er; lia|].
    rewrite <-Er. eapply stored_cons; try done. rewrite <-(chunks_same_shape _ _ F Hsh).
    replace (addr + (s + size h b - addr)) with (s + size h b) by lia.
    destruct HF' as (_ & _ & HF'). eapply (IH _ (s + size h b)); [by eapply chain_same_shape|done|by rewrite Er|].
    destruct F as [|[s' b'] F]; [done|]. destruct HF' as (? & ? & _). destruct (Hsh b') as [-> _]. lia.
Qed.

(** Two stores give the backers of a list the same extents. *)
Definition same_extents (h h' : heap) (bs : list (Z * backer_of clemory)) : Prop :=
  Forall (λ e, extent h' e.2 = extent h e.2) bs.

Lemma entries_same_extents h h' lo bs : same_extents h h' bs → entries h lo bs → entries h' lo bs.
Proof.
  intros Hs. revert lo. induction Hs as [|e bs He Hs IH]; intros lo; cbn; [done|]. intros [? Hb]. split; [done|].
  unfold calculate_end in *. rewrite He. by apply IH.
Qed.

Lemma update_same_extents h h' bs st :
  same_extents h h' bs → foldl (update_step h') st bs = foldl (update_step h) st bs.
Proof.
  intros Hs. revert st. induction Hs as [|[s d] bs He Hs IH]; intros [[n co] m]; cbn [foldl]; [done|].
  rewrite IH. f_equal. unfold update_step. cbn in He. by rewrite He.
Qed.

Lemma cached_same_extents h h' c : same_extents h h' (_backers c) → cached h c → cached h' c.
Proof.
  intros Hs. unfold cached, _update_min_max. destruct (_backers c) as [|[s d] bs]; [done|].
  by rewrite (update_same_extents h h').
Qed.

(** Well-formedness only looks at the sizes of the buffers that are used. *)
Lemma wf_resize h h' c : (∀ b, 0 < size h b → size h' b = size h b) → wf h c → wf h' c.
Proof.
  intros Hs. induction c as [c IH] using clemory_tree_ind. intros [He Hbuf Hsub Hmin Hc].
  assert (same_extents h h' (_backers c)) as Hx.
  { apply list.Forall_forall. intros [s [b|c']] Hin; [|done]. by apply Hs, (Hbuf s). }
  constructor.
  - by eapply entries_same_extents.
  - intros s b Hin. pose proof (Hbuf s b Hin). by rewrite Hs.
  - intros s c' Hin. eapply IH; [done|]. by eapply Hsub.
  - done.
  - by eapply cached_same_extents.
Qed.

Lemma wf_same_shape h h' c : same_shape h h' → wf h c → wf h' c.
Proof. intros Hs. apply wf_resize. intros b _. apply Hs. Qed.

Lemma lookup_in_app h F G k :
  lookup_in h (F ++ G) k = match lookup_in h F k with Some v => Some v | None => lookup_in h G k end.
Proof. induction F as [|[s b] F IH]; cbn; [done|]. by destruct (_ && _). Qed.

(** A chain is the leaves that end by [addr], followed by those that do not. *)
Lemma from_split h lo addr F : chain h lo F → ∃ P, F = P ++ from h addr F ∧ ends_below h addr P.
Proof.
  unfold from. revert lo. induction F as [|[s b] F IH]; intros lo; [by exists []; split; [|constructor]|]. intros (? & ? & H).
  rewrite list.filter_cons. cbn. destruct (decide (addr < s + size h b)).
  - exists []. split; [|constructor]. cbn. f_equal. symmetry. apply filter_all.
    assert (∀ m G, chain h m G → addr < m → Forall (λ e, addr < e.1 + size h e.2) G) as Hall.
    { intros m G. revert m. induction G as [|[s' b'] G IHG]; intros m; cbn; [constructor|].
      intros (? & ? & HG) ?. constructor; [cbn; lia|]. eapply IHG; [exact HG|lia]. }
    by eapply Hall.
  - destruct (IH _ H) as (P & E & HP). exists ((s, b) :: P). cbn. rewrite <-E. split; [done|]. constructor; [cbn; lia|done].
Qed.

Lemma lookup_ends_below h m F k : ends_below h m F → m ≤ k → lookup_in h F k = None.
Proof.
  induction 1 as [|[s b] F]; intros Hk; cbn; [done|]. destruct (Z.ltb_spec k (s + size h b)); [lia|].
  rewrite andb_false_r. auto.
Qed.

Lemma from_same_shape h h' addr F : same_shape h h' → from h' addr F = from h addr F.
Proof. intros Hs. apply list_filter_iff. intros [s b]. cbn. by destruct (Hs b) as [-> _]. Qed.

Lemma store_spec h c addr data :
  wf h c → NoDup (flat c).*2 → data ≠ [] →
  let '(h', r) := store h c addr data in
  let w := landed (mem h c) addr data in
  same_shape h h' ∧ (∀ k, mem h' c k = overlay (mem h c) addr w k) ∧
  r = (if decide (length w = length data) then Ok tt else Err (KeyError (addr + len w))).
Proof.
  intros Hwf Hnd Hd. destruct (store h c addr data) as [h' r] eqn:Est. unfold store in Est. rewrite backers_from in Est by done.
  destruct (flat_chain h c Hwf) as [Hc _]. destruct (from_split h _ addr _ Hc) as (P & EP & HP).
  set (F := from h addr (flat c)) in *. rewrite EP, fmap_app in Hnd. apply list.NoDup_app in Hnd as (_ & Hdisj & HndF).
  destruct (store_loop_spec h F (min_addr c) addr data) as (Hsh & Hout & Hin & Hr); [by apply chain_from|done|done| |].
  { destruct (first_leaf h c addr Hwf) as [[E _]|(s & b & G & E & _ & ? & _)]; fold F in E; by rewrite E. }
  rewrite Est in *. cbn [fst snd] in *.
  assert (landed (mem h c) addr data = landed (lookup_in h F) addr data) as ->.
  { unfold landed. by rewrite (run_ext (mem h c) (lookup_in h F)) by (intros; symmetry; by apply lookup_from). }
  split; [done|]. split; [|done]. intros k. unfold mem. rewrite EP. unfold overlay.
  rewrite !lookup_in_app, Hin. rewrite (lookup_unchanged h h' P) by (intros; apply Hout; by apply Hdisj). unfold overlay.
  destruct (Z.leb_spec addr k); cbn [andb]; [|done]. by rewrite (lookup_ends_below h addr P k).
Qed.

Lemma write_nothing h s b addr : write_leaf h s b addr [] = h.
Proof.
  unfold write_leaf. change (len (@nil Z)) with 0. rewrite Z.add_0_r.
  assert (∀ w : list Z, w = [] → py_slice_assign (contents (buffer_at h b)) (addr - s) (addr - s) w = contents (buffer_at h b)) as E.
  { intros w ->. unfold py_slice_assign. rewrite Z.max_id. cbn [app]. apply take_drop. }
  rewrite E by (destruct (0 <=? _); [done|unfold py_slice; rewrite drop_nil; apply take_nil]).
  unfold write_buffer, buffer_at. destruct (h !! b) as [x|] eqn:Ex; cbn [default].
  - apply list_insert_id. by destruct x.
  - apply list_insert_ge. by apply lookup_ge_None_1.
Qed.

(** Storing nothing writes nothing, but raises where a hole is followed by
    mapped addresses. *)
Lemma store_empty h c addr : wf h c →
  (store h c addr [] = (h, Ok tt) ∧ (is_Some (mem h c addr) ∨ ∀ k, addr ≤ k → mem h c k = None)) ∨
  (store h c addr [] = (h, Err (KeyError addr)) ∧ mem h c addr = None ∧ ∃ k, addr ≤ k ∧ is_Some (mem h c k)).
Proof.
  intros Hwf. unfold store, mem. rewrite backers_from by done.
  destruct (first_leaf h c addr Hwf) as [[E _]|(s & b & F & E & (_ & Hb & _) & Hend & Hbelow)].
  - left. rewrite E. split; [done|]. right. intros k Hk. by rewrite <-(lookup_from h addr _ k Hk), E.
  - rewrite E, store_loop_cons. destruct (Z.ltb_spec addr s).
    + right. split; [done|]. split; [by apply Hbelow|]. exists s. split; [lia|].
      rewrite <-(lookup_from h addr _ s), E by lia. cbn. destruct (Z.leb_spec s s), (Z.ltb_spec s (s + size h b)); (lia || by eexists).
    + left. cbv zeta. rewrite write_nothing. unfold py_slice. rewrite drop_nil, take_nil. split; [done|]. left.
      rewrite <-(lookup_from h addr _ addr), E by lia. cbn. destruct (Z.leb_spec s addr), (Z.ltb_spec addr (s + size h b)); (lia || by eexists).
Qed.

(** C19: On a well-formed memory whose leaves are different buffers,
    [store(addr, data)] writes exactly the bytes that land on mapped addresses,
    the longest prefix of [data] for which the memory is mapped from [addr] on,
    and nothing else, and the memory stays well formed.  With data, it returns
    when all of it landed, and otherwise raises [KeyError] at the first unmapped
    address.  Without data, it raises [KeyError] exactly when [addr] is not
    mapped and some address after it is. *)
Theorem store_exact (h : heap) (c : clemory) (addr : Z) (data : list Z) :
  wf h c → NoDup (flat c).*2 →
  let '(h', r) := store h c addr data in
  let w := landed (mem h c) addr data in
  wf h' c ∧ (∀ k, mem h' c k = overlay (mem h c) addr w k) ∧
  match data with
  | [] => r = Ok tt ∧ (is_Some (mem h c addr) ∨ ∀ k, addr ≤ k → mem h c k = None) ∨
          r = Err (KeyError addr) ∧ mem h c addr = None ∧ ∃ k, addr ≤ k ∧ is_Some (mem h c k)
  | _ => r = if decide (length w = length data) then Ok tt else Err (KeyError (addr + len w))
  end.
Proof.
  intros Hwf Hnd. destruct data as [|x data].
  - assert (∀ k, mem h c k = overlay (mem h c) addr (landed (mem h c) addr []) k) as Ho.
    { intros k. unfold landed, overlay. cbn [length run take]. change (len (@nil Z)) with 0. destruct (Z.leb_spec addr k), (Z.ltb_spec k (addr + 0)); (done || lia). }
    destruct (store_empty h c addr Hwf) as [[-> H]|[-> H]]; (split; [done|]; split; [done|]); [by left|by right].
  - pose proof (store_spec h c addr (x :: data) Hwf Hnd ltac:(done)) as H.
    destruct (store h c addr (x :: data)) as [h' r]. destruct H as (Hs & H). split; [by eapply wf_same_shape|done].
Qed.

Lemma store_exact_witness :
  let r := store sample_heap sample 17 [1; 2; 3; 4; 5] in
  r.2 = Err (KeyError 21) ∧ wf r.1 sample ∧ mem r.1 sample 18 = Some 2.
Proof.
  pose proof (store_exact sample_heap sample 17 [1; 2; 3; 4; 5] sample_wf) as H.
  destruct (store sample_heap sample 17 [1; 2; 3; 4; 5]) as [h' r]. destruct H as (H & Hm & E).
  - apply (bool_decide_eq_true_1 _). vm_compute. reflexivity.
  - split; [exact E|]. split; [exact H|]. exact (Hm 18).
Defined.

(** ** Words *)

Lemma length_to_little n v : length (to_little n v) = n.
Proof. revert v. induction n as [|n IH]; intros v; cbn; [done|]. by rewrite IH. Qed.

Lemma from_to_little n v : from_little (to_little n v) = v mod 2 ^ (8 * Z.of_nat n).
Proof.
  revert v. induction n as [|n IH]; intros v; cbn [to_little from_little]; [by rewrite Z.mod_1_r|].
  rewrite IH. replace (8 * Z.of_nat (S n)) with (8 + 8 * Z.of_nat n) by lia.
  rewrite Z.pow_add_r by lia. rewrite Z.rem_mul_r by (pose proof (pow2_pos (8 * Z.of_nat n)); lia). done.
Qed.

(** [to_bytes] and [from_bytes] are inverse where the value fits. *)
Lemma int_bytes_roundtrip v n big signed bs :
  1 ≤ n → int_to_bytes v n big signed = Ok bs → len bs = n ∧ int_from_bytes bs big signed = v.
Proof.
  intros Hn. unfold int_to_bytes. destruct (fits v n signed) eqn:Hf; [|discriminate]. intros [= <-].
  set (l := to_little (Z.to_nat n) v). assert (length l = Z.to_nat n) as El by apply length_to_little.
  assert (length (if big then reverse l else l) = Z.to_nat n) as Elen by (destruct big; rewrite ?length_reverse; done).
  split; [unfold len; rewrite Elen; lia|]. unfold int_from_bytes, len. rewrite Elen.
  assert (from_little (if big then reverse (if big then reverse l else l) else if big then reverse l else l)
    = v mod 2 ^ (8 * n)) as ->.
  { replace (if big then _ else _) with l by (destruct big; rewrite ?reverse_involutive; done).
    unfold l. rewrite from_to_little. by rewrite Z2Nat.id by lia. }
  rewrite Z2Nat.id by lia. pose proof (pow2_double (8 * n) ltac:(lia)). pose proof (pow2_pos (8 * n - 1) ltac:(lia)).
  unfold fits in Hf. destruct signed; cbn [andb].
  - apply andb_prop in Hf as [?%Z.leb_le ?%Z.ltb_lt]. destruct (Z.lt_ge_cases v 0).
    + replace (v mod 2 ^ (8 * n)) with (v + 2 ^ (8 * n)) by (apply Z.mod_unique with (-1); lia). zcases; lia.
    + rewrite Z.mod_small by lia. zcases; lia.
  - apply andb_prop in Hf as [?%Z.leb_le ?%Z.ltb_lt]. apply Z.mod_small. lia.
Qed.

Lemma slice_of_assign (l data : list Z) off :
  0 ≤ off → off + len data ≤ len l → py_slice (py_slice_assign l off (off + len data) data) off (off + len data) = data.
Proof.
  intros. pose proof (len_nonneg data). unfold py_slice_assign. rewrite !slice_index_in by lia.
  rewrite (Z.min_r _ off) by lia. rewrite py_slice_spec.
  - rewrite drop_app_length' by (rewrite length_take; unfold len in *; lia). apply take_app_length'. unfold len. lia.
  - rewrite !len_app. unfold len in *. rewrite length_take. lia.
  - lia.
Qed.

(** The word [struct] reads back from the leaf it was written to. *)
Lemma pack_unpack_leaf a h c addr fmt v h' :
  wf h c → 1 ≤ calcsize fmt →
  pack (as_base a c) h addr fmt v = Ok h' → unpack (as_base a c) h' addr fmt = Ok v.
Proof.
  intros Hwf Hn. unfold pack, unpack, locate. cbn [as_base b_backers mbind result_bind]. rewrite backers_from by done.
  destruct (first_leaf h c addr Hwf) as [[-> _]|(s & b & F & EF & HF & Hend & _)]; [done|]. rewrite EF.
  cbn [chunks fmap list_fmap]. destruct (Z.ltb_spec addr s); [done|]. cbn [mbind result_bind]. unfold pack_into, chunk_kind.
  cbn [cbuf clo clen whole]. change (len (contents (buffer_at h b))) with (size h b).
  destruct (bool_decide _) eqn:Hk; [done|]. destruct (Z.ltb_spec (size h b - (addr - s)) (calcsize fmt)); cbn [orb].
  { unfold _classify_struct_error. by destruct (_ <? _). }
  destruct (fits v (calcsize fmt) (fmt_signed fmt)) eqn:Hf; cbn [negb]; [|by unfold _classify_struct_error; destruct (_ <? _)].
  destruct (int_to_bytes _ _ _ _) as [bs|] eqn:Ebs; cbn [mbind result_bind];
    [|unfold int_to_bytes in Ebs; rewrite Hf in Ebs; done].
  destruct (int_bytes_roundtrip _ _ _ _ _ Hn Ebs) as [Elen Eback]. rewrite Z.add_0_l. intros [= <-].
  assert (write_buffer h b (py_slice_assign (contents (buffer_at h b)) (addr - s) (addr - s + calcsize fmt) bs)
    = write_leaf h s b addr bs) as -> by (unfold write_leaf; rewrite Elen; by destruct (Z.leb_spec (calcsize fmt) (size h b - (addr - s))); [|lia]).
  destruct (write_leaf_spec h s b addr bs ltac:(lia)) as (Hsh & _ & Hw).
  set (h' := write_leaf h s b addr bs) in *. destruct (Hsh b) as [Hsz Hkind].
  rewrite (backers_from h') by (by eapply wf_same_shape). rewrite (from_same_shape h h'), EF by done.
  cbn [chunks fmap list_fmap]. destruct (Z.ltb_spec addr s); [lia|]. cbn [mbind result_bind]. unfold unpack_from, chunk_kind.
  cbn [cbuf clen whole]. change (len (contents (buffer_at h' b))) with (size h' b). rewrite Hkind, Hk, Hsz.
  destruct (Z.ltb_spec (size h b - (addr - s)) (calcsize fmt)); [lia|]. do 2 f_equal. rewrite <-Eback. f_equal.
  rewrite chunk_bytes_whole. unfold h', write_leaf. rewrite buffer_at_write, decide_True by (done || lia). cbn [contents].
  rewrite Elen. destruct (Z.leb_spec (calcsize fmt) (size h b - (addr - s))); [|lia]. rewrite <-Elen.
  apply slice_of_assign; unfold size in *; lia.
Qed.

(** The word that [load] and [store] move, over as many leaves as it takes. *)
Lemma store_load_bytes h c addr bs h' :
  byte_memory h c → NoDup (flat c).*2 → bs ≠ [] →
  store h c addr bs = (h', Ok tt) → load h' c addr (len bs) = Ok bs.
Proof.
  intros [Hwf Hb] Hnd Hd Est. pose proof (store_spec h c addr bs Hwf Hnd Hd) as H. rewrite Est in H.
  destruct H as (Hsh & Hm & Hr). destruct (decide _) as [El|]; [|done].
  assert (landed (mem h c) addr bs = bs) as Ew by (unfold landed in *; rewrite length_take in El; apply take_ge; lia).
  rewrite Ew in Hm. rewrite load_spec.
  - rewrite (run_take _ addr _ bs); [|intros i Hi; rewrite Hm|unfold len; lia].
    + rewrite take_ge by (unfold len; lia). by destruct bs.
    + unfold overlay. destruct (Z.leb_spec addr (addr + i)); [|lia].
      destruct (Z.ltb_spec (addr + i) (addr + len bs)); [|lia]. cbn. by replace (addr + i - addr) with i by lia.
  - split; [by eapply wf_same_shape|]. eapply Forall_impl; [|exact Hb]. intros e. cbn. by destruct (Hsh e.2) as [_ ->].
  - destruct bs; [done|]. rewrite len_cons. pose proof (len_nonneg bs). lia.
Qed.

(** C21: A word that [pack_word] has written is what [unpack_word] reads back,
    for every width, byte order and signedness (the attributes of the
    architecture where they are left out): the widths [struct] has a format for
    as well as the others, which go through [store] and [load] and may span
    several backers.  An unsigned word is the value modulo the width. *)
Theorem pack_unpack_word (a : Arch) (h : heap) (c : clemory) (addr v : Z) (n : option Z) (signed : bool)
    (endness : option Endness) (h' : heap) :
  byte_memory h c → NoDup (flat c).*2 →
  pack_word (as_base a c) h addr v n signed endness = (h', Ok tt) →
  unpack_word (as_base a c) h' addr n signed endness =
    Ok (if signed then v else v mod 2 ^ (8 * default (bytes a) n)).
Proof.
  intros Hb Hnd. unfold pack_word, unpack_word. cbn [as_base _arch b_load b_store].
  set (w := default (bytes a) n). destruct (Z.leb_spec w 0); [done|].
  assert ((if signed then v else Z.land v (Z.shiftl 1 (w * 8) - 1)) = (if signed then v else v mod 2 ^ (8 * w))) as ->.
  { destruct signed; [done|]. by rewrite shiftl_1, land_mask, Z.mul_comm by lia. }
  set (x := if signed then v else _). destruct (bool_decide (w ∉ _)).
  - destruct (load h c addr w) as [old|]; [|done]. destruct (len old =? w); [|done]. cbn [negb].
    destruct (_byteorder _) as [big|]; cbn [mbind result_bind]; [|done].
    destruct (int_to_bytes x w big signed) as [bs|] eqn:Ebs; [|done]. intros Est.
    destruct (int_bytes_roundtrip x w big signed bs ltac:(lia) Ebs) as [El Eb].
    assert (bs ≠ []) as Hne by (intros ->; unfold len in El; cbn in El; lia).
    pose proof (store_load_bytes h c addr bs h' Hb Hnd Hne Est) as El'. rewrite El in El'. rewrite El'.
    cbn [mbind result_bind]. rewrite El, Z.eqb_refl. cbn [negb]. by rewrite Eb.
  - destruct (struct_fmt w signed _) as [fmt|] eqn:Ef; cbn [mbind result_bind]; [|done].
    destruct (pack (as_base a c) h addr fmt x) as [h1|] eqn:Ep; [|done]. intros [= ->].
    eapply pack_unpack_leaf; [apply Hb| |exact Ep]. unfold struct_fmt in Ef.
    destruct (default (memory_endness a) endness); try done; cbn in Ef; (destruct (bool_decide (w ∈ _)); [|done]); injection Ef as <-; cbn; lia.
Qed.

Lemma pack_unpack_word_witness :
  let a := mkArch 4 LE in
  let r := pack_word (as_base a sample) sample_heap 17 (-2) (Some 3) true (Some BE) in
  r.2 = Ok tt ∧ unpack_word (as_base a sample) r.1 17 (Some 3) true (Some BE) = Ok (-2).
Proof.
  split; [vm_compute; reflexivity|].
  apply (pack_unpack_word (mkArch 4 LE) sample_heap sample 17 (-2) (Some 3) true (Some BE));
    [apply sample_bytes|apply (bool_decide_eq_true_1 _); vm_compute; reflexivity|vm_compute; reflexivity].
Defined.

(** ** Item access and membership *)

Definition no_mmap (h : heap) (F : list (Z * nat)) : Prop := Forall (λ e, bkind (buffer_at h e.2) ≠ MMap) F.

Lemma lookup_shift h s F k : lookup_in h (shift s F) k = lookup_in h F (k - s).
Proof.
  induction F as [|[s' b] F IH]; [done|]. cbn. fold (shift s F). rewrite IH.
  replace (k - (s' + s)) with (k - s - s') by lia. destruct (Z.leb_spec (s' + s) k), (Z.leb_spec s' (k - s)); try lia; [|done].
  destruct (Z.ltb_spec k (s' + s + size h b)), (Z.ltb_spec (k - s) (s' + size h b)); try lia; done.
Qed.

Lemma mem_bounds h c k : wf h c → is_Some (mem h c k) → min_addr c ≤ k < max_addr c.
Proof.
  intros Hwf [v Hv]. destruct (flat_chain h c Hwf) as [Hc He]. unfold mem in Hv. split; apply Z.nlt_ge || apply Z.nle_gt; intros Hk.
  - by rewrite (lookup_below h (min_addr c)) in Hv.
  - by rewrite (lookup_ends_below h (max_addr c)) in Hv.
Qed.

(** Item access reads the denoted map; an [mmap] backer is invisible to it. *)
Lemma getitem_spec h c k :
  wf h c → no_mmap h (flat c) →
  __getitem__ h c k = match mem h c k with Some v => Ok v | None => Err (KeyError k) end.
Proof.
  revert k. induction c as [c IH] using clemory_tree_ind. intros k Hwf Hno. destruct Hwf as [_ _ Hsub _ _].
  unfold mem. rewrite flat_eq in *. destruct c as [bs r co mi ma]. cbn [__getitem__ _backers] in *. clear r co mi ma.
  induction bs as [|[s d] bs IHbs]; [done|].
  change (((s, d) :: bs) ≫= flat_entry) with (flat_entry (s, d) ++ (bs ≫= flat_entry)) in *.
  apply Forall_app in Hno as [Hd Hno].
  specialize (IHbs (λ s c' Hin, IH s c' (list_elem_of_further _ _ _ Hin)) (λ s c' Hin, Hsub s c' (list_elem_of_further _ _ _ Hin)) Hno).
  rewrite lookup_in_app. destruct d as [b|c'].
  - inversion Hd; subst. cbn. rewrite bool_decide_eq_true_2 by done. cbn [andb]. unfold size.
    destruct (Z.leb_spec 0 (k - s)), (Z.leb_spec s k); try lia; cbn [andb]; [|exact IHbs].
    destruct (Z.ltb_spec (k - s) (len (contents (buffer_at h b)))), (Z.ltb_spec k (s + len (contents (buffer_at h b)))); try lia;
      [done|exact IHbs].
  - cbn [flat_entry] in *. rewrite lookup_shift. specialize (Hsub s c' (list_elem_of_here _ _)).
    assert (no_mmap h (flat c')) as Hc' by (unfold no_mmap, shift in *; rewrite Forall_fmap in Hd; eapply Forall_impl; [|exact Hd]; by intros []).
    pose proof (IH s c' (list_elem_of_here _ _) (k - s) Hsub Hc') as E. fold (mem h c' (k - s)).
    destruct ((min_addr c' <=? k - s) && (k - s <? max_addr c')) eqn:Hg.
    + rewrite E. destruct (mem h c' (k - s)); [done|exact IHbs].
    + destruct (mem h c' (k - s)) eqn:Em; [|exact IHbs]. pose proof (mem_bounds h c' (k - s) Hsub (mk_is_Some _ _ Em)).
      apply andb_false_iff in Hg as [?%Z.leb_gt|?%Z.ltb_ge]; lia.
Qed.

(** Backers one after the other from [n] on, without gaps, children included. *)
Fixpoint contiguous (h : heap) (n : Z) (bs : list (Z * backer_of clemory)) : Prop :=
  match bs with
  | [] => True
  | e :: bs =>
      e.1 = n ∧ match e.2 with Buf _ => True | Sub c => min_addr c ≤ 0 ∧ consecutive c = true end ∧
      contiguous h (calculate_end h e) bs
  end.

Lemma update_contiguous h bs n co m n' m' :
  foldl (update_step h) (Some n, co, m) bs = (n', true, m') → co = true ∧ contiguous h n bs.
Proof.
  revert n co m. induction bs as [|[s d] bs IH]; intros n co m; cbn [foldl]; [by intros [= _ ->]|].
  unfold update_step at 2. intros H. apply IH in H as [Hd Hc]. cbn. fold (calculate_end h (s, d)).
  destruct (Z.eqb_spec n s) as [->|]; [|by destruct d; repeat destruct (_ || _)].
  split; [|split; [done|split; [|exact Hc]]]; destruct d as [b|c]; try done.
  - by destruct (_ || _).
  - destruct (Z.ltb_spec 0 (min_addr c)); [done|]. cbn in Hd. by destruct (consecutive c).
Qed.

(** A consecutive memory is mapped on the whole of its range. *)
Lemma consecutive_mapped h c k :
  wf h c → consecutive c = true → min_addr c ≤ k < max_addr c → is_Some (mem h c k).
Proof.
  revert k. induction c as [c IH] using clemory_tree_ind. intros k Hwf Hco Hk. pose proof (wf_bounds h c Hwf) as [_ Hb].
  destruct Hwf as [He Hbuf Hsub Hmin Hc]. unfold mem. rewrite flat_eq.
  assert (∃ n, contiguous h n (_backers c) ∧ n ≤ min_addr c ∧ max_addr c = last_end h n (_backers c)) as (n & Hn & Hlo & Hhi).
  { destruct (_backers c) as [|[s d] bs] eqn:Ebs.
    { unfold cached in Hc. rewrite Ebs in Hc. lia. }
    destruct (cached_spec h c (s, d) bs Ebs) as [Emin Emax]; [eapply Forall_impl; [|exact Hb]; cbn; lia|apply He|done|].
    unfold cached, _update_min_max in Hc. rewrite Ebs in Hc. cbn [foldl] in Hc. unfold update_step at 2 in Hc.
    destruct (foldl _ _ bs) as [[n' co'] m'] eqn:Ef. destruct m'; [|done]. injection Hc as Hc.
    assert (co' = true) as -> by (by rewrite <-Hc in Hco).
    apply update_contiguous in Ef as [Hd Hcont]. exists s. cbn [contiguous]. split; [|split; [cbn in Emin; lia|done]].
    split; [done|]. split; [|done]. cbn. destruct d as [b|c']; [done|].
    destruct (Z.ltb_spec 0 (min_addr c')); [done|]. cbn in Hd. by destruct (consecutive c'). }
  assert (n ≤ k < last_end h n (_backers c)) as Hk' by lia. clear Hlo Hhi Hk He Hc Hb Hco. revert n Hn Hk'.
  induction (_backers c) as [|[s d] bs IHbs]; intros n Hn Hk; cbn in *; [lia|]. destruct Hn as (-> & Hd & Hn).
  rewrite lookup_in_app. destruct (Z.lt_ge_cases k (calculate_end h (n, d))) as [Hlt|Hge].
  - assert (is_Some (lookup_in h (flat_entry (n, d)) k)) as [v Hv]; [|unfold flat_entry in Hv; by rewrite Hv].
    unfold calculate_end in Hlt. destruct d as [b|c']; cbn in *.
    + unfold size. destruct (Z.leb_spec n k), (Z.ltb_spec k (n + len (contents (buffer_at h b)))); try lia. by eexists.
    + rewrite lookup_shift. destruct Hd as [Hm Hco].
      apply (IH n c' (list_elem_of_here _ _)); [by apply (Hsub n), list_elem_of_here|done|lia].
  - match goal with |- is_Some (match ?x with _ => _ end) => destruct x end; [by eexists|]. apply (IHbs (λ s c' Hin, IH s c' (list_elem_of_further _ _ _ Hin))
      (λ s b Hin, Hbuf s b (list_elem_of_further _ _ _ Hin)) (λ s c' Hin, Hsub s c' (list_elem_of_further _ _ _ Hin))
      (λ s c' Hin, Hmin s c' (list_elem_of_further _ _ _ Hin)) _ Hn). lia.
Qed.

(** [k in memory], [memory[k]] and [load] agree on which addresses are
    mapped and to what: membership, with the shortcut for consecutive memories
    and the range check in front of it, holds exactly of the addresses the
    memory maps, and item access returns their bytes and raises [KeyError]
    elsewhere. *)
Theorem contains_getitem_exact (h : heap) (c : clemory) (k : Z) :
  wf h c → no_mmap h (flat c) →
  __contains__ h c k = Ok (bool_decide (is_Some (mem h c k))) ∧
  __getitem__ h c k = match mem h c k with Some v => Ok v | None => Err (KeyError k) end.
Proof.
  intros Hwf Hno. pose proof (getitem_spec h c k Hwf Hno) as Hg. split; [|exact Hg]. unfold __contains__.
  assert (is_Some (mem h c k) → min_addr c ≤ k < max_addr c) as Hb by by apply mem_bounds.
  destruct (consecutive c) eqn:Hco.
  - f_equal. symmetry. destruct (Z.leb_spec (min_addr c) k), (Z.ltb_spec k (max_addr c)); cbn [andb];
      [apply bool_decide_eq_true; by apply consecutive_mapped|apply bool_decide_eq_false; intros ?%Hb; lia..].
  - destruct (_backers c) as [|e bs] eqn:Ebs.
    { destruct Hwf as [_ _ _ _ Hc]. unfold cached in Hc. rewrite Ebs in Hc. destruct Hc as [Hc _]. by rewrite Hc in Hco. }
    destruct (Z.ltb_spec k (min_addr c)), (Z.leb_spec (max_addr c) k); cbn [orb];
      try (f_equal; symmetry; apply bool_decide_eq_false; intros ?%Hb; lia).
    rewrite Hg. by destruct (mem h c k).
Qed.

Lemma contains_getitem_exact_witness :
  __contains__ sample_heap sample 20 = Ok true ∧ __getitem__ sample_heap sample 21 = Err (KeyError 21).
Proof.
  split; [apply (contains_getitem_exact sample_heap sample 20)|apply (contains_getitem_exact sample_heap sample 21)];
    try apply sample_wf; by repeat constructor.
Defined.

(** ** Adding and removing backers *)

Lemma starts_increasing h lo bs :
  Forall (λ e, 0 ≤ extent h e.2) bs → entries h lo bs → increasing (fst <$> bs).
Proof.
  intros Hx. revert lo. induction Hx as [|e bs He Hx IH]; intros lo Hb i j Hij; cbn in *; [lia|].
  destruct Hb as [_ Hb]. destruct i as [|i], j as [|j]; cbn; try lia; [|apply (IH _ Hb); lia].
  rewrite length_fmap in Hij. destruct (last_end_bounds h bs _ Hx Hb) as [_ Ha]. rewrite list.Forall_forall in Ha.
  destruct (lookup_lt_is_Some_2 bs j ltac:(lia)) as [e' Hj].
  rewrite (nth_lookup_Some _ j 0 e'.1) by (by rewrite list_lookup_fmap, Hj). apply list_elem_of_lookup_2 in Hj.
  specialize (Ha e' Hj). assert (calculate_end h e = e.1 + extent h e.2) by done. cbn in *. lia.
Qed.

Lemma wf_starts h c : wf h c → increasing (fst <$> _backers c).
Proof.
  intros Hwf. destruct (wf_bounds h c Hwf) as [_ Hb]. destruct Hwf as [He _ _ _ _]. eapply starts_increasing; [|exact He].
  eapply Forall_impl; [|exact Hb]. cbn. lia.
Qed.

Lemma bind_get {A} (f : state → M A) s : (get ≫= f) s = f s s.
Proof. reflexivity. Qed.

Lemma bind_Ok_M {A B} (m : M A) (f : A → M B) s s' a : m s = (s', Ok a) → (m ≫= f) s = f a s'.
Proof. intros E. unfold mbind, M_bind. by rewrite E. Qed.

Lemma bind_Err_M {A B} (m : M A) (f : A → M B) s s' e : m s = (s', Err e) → (m ≫= f) s = (s', Err e).
Proof. intros E. unfold mbind, M_bind. by rewrite E. Qed.

Lemma check_data_bytes data s : data ≠ [] → check_data (PBytes data) s = (s, Ok tt).
Proof.
  intros Hd. unfold check_data. rewrite bind_get. destruct s as [h c]. cbn [payload_empty payload_len].
  destruct data as [|x data]; [done|]. rewrite len_cons. pose proof (len_nonneg data). by destruct (Z.eqb_spec (1 + len data) 0); [lia|].
Qed.

(** The position [bisect] finds is the one after the backer that is looked for. *)
Lemma remove_backer_raises h c start :
  increasing (fst <$> _backers c) → remove_backer start (h, c) = ((h, c), Err ValueError).
Proof.
  intros Hs. unfold remove_backer. rewrite bind_get.
  destruct (bisect_spec _ start Hs) as (_ & _ & Hr). destruct (_backers c !! bisect (_backers c).*1 start) as [[s d]|] eqn:E; [|done].
  rewrite <-fmap_drop, Forall_fmap, list.Forall_forall in Hr.
  assert ((s, d) ∈ drop (bisect (fst <$> _backers c) start) (_backers c)) as Hin.
  { apply list_elem_of_lookup. exists O. by rewrite lookup_drop, Nat.add_0_r. }
  specialize (Hr _ Hin). cbn in Hr. destruct (Z.eqb_spec s start); [lia|done].
Qed.

(** [remove_backer] never removes anything from a well-formed memory: the
    binary search returns the position after the backer, and the comparison of
    the start addresses there always fails.  In particular an overwriting
    [add_backer] that begins strictly inside a backer raises [ValueError] and
    changes nothing, instead of splitting it. *)
Theorem remove_backer_never_removes (h : heap) (c : clemory) (start : Z) (data : list Z) :
  wf h c → remove_backer start (h, c) = ((h, c), Err ValueError) ∧
  (∀ s b, (s, b) ∈ flat c → s < start < s + size h b → data ≠ [] →
    add_backer start (PBytes data) true (h, c) = ((h, c), Err ValueError)).
Proof.
  intros Hwf. pose proof (remove_backer_raises h c) as Hrem. split; [by eapply Hrem, wf_starts|].
  intros s b Hin Hs Hd. unfold add_backer. rewrite (bind_Ok_M _ _ _ _ _ (check_data_bytes data _ Hd)), bind_get.
  apply bind_Err_M, bind_Err_M. unfold split_backer. rewrite bind_get, backers_from by done.
  destruct (first_leaf h c start Hwf) as [[E _]|(s' & b' & F & E & HF & Hend & Hnone)].
  - assert ((s, b) ∈ from h start (flat c)) as Hf by (apply list_elem_of_filter; split; [cbn; lia|done]).
    rewrite E in Hf. by apply not_elem_of_nil in Hf.
  - rewrite E. cbn [chunks fmap list_fmap]. assert (s' < start) as Hs'.
    { assert ((s, b) ∈ from h start (flat c)) as Hf by (apply list_elem_of_filter; split; [cbn; lia|done]).
      rewrite E in Hf. pose proof (chain_elem h _ _ _ _ HF Hf). lia. }
    destruct (Z.leb_spec start s'); [lia|]. cbn [clen whole]. change (len (contents (buffer_at h b'))) with (size h b').
    destruct (Z.leb_spec (s' + size h b') start); [lia|]. by eapply bind_Err_M, Hrem, wf_starts.
Qed.

Lemma remove_backer_never_removes_witness :
  remove_backer 16 (sample_heap, sample) = ((sample_heap, sample), Err ValueError) ∧
  add_backer 17 (PBytes [1; 2]) true (sample_heap, sample) = ((sample_heap, sample), Err ValueError).
Proof.
  split; [apply (remove_backer_never_removes sample_heap sample 16 []), sample_wf|].
  apply (proj2 (remove_backer_never_removes sample_heap sample 17 [1; 2] sample_wf) 16 0%nat); [constructor|vm_compute; by split|done].
Defined.

Lemma entries_app h lo F G : entries h lo (F ++ G) ↔ entries h lo F ∧ entries h (last_end h lo F) G.
Proof. revert lo. induction F as [|e F IH]; intros lo; cbn; [tauto|]. rewrite IH. tauto. Qed.

Lemma last_end_le h lo m F :
  Forall (λ e, calculate_end h e ≤ m) F → lo ≤ m → last_end h lo F ≤ m.
Proof. intros HF. revert lo. induction HF as [|e F He HF IH]; intros lo Hlo; cbn; [done|]. by apply IH. Qed.

Lemma entries_after h lo m G : Forall (λ e, m ≤ e.1) G → entries h lo G → entries h m G.
Proof. intros HG. destruct HG as [|e G He HG]; cbn; [done|]. by intros [_ ?]. Qed.

(** The caches are a function of the backers. *)
Lemma update_min_max_spec h bs r co mi ma :
  bs ≠ [] → Forall (λ e, 0 ≤ extent h e.2) bs → entries h (hd 0 bs.*1) bs →
  ∃ c, _update_min_max h (mkClemory bs r co mi ma) = Ok c ∧ _backers c = bs ∧ _root c = r ∧ min_addr c = hd 0 bs.*1 ∧
    cached h c.
Proof.
  intros Hne Hx He. destruct bs as [|[s d] bs]; [done|]. inversion Hx as [|? ? Hd Hx']; subst. destruct He as [_ He].
  unfold cached, _update_min_max. cbn [_backers foldl _root]. unfold update_step at 2.
  match goal with |- context [foldl _ (Some _, ?co, Some _) _] =>
    destruct (update_max h bs (Some (s + extent h d)) co (s + extent h d) Hx' He) as (n' & co' & E) end.
  rewrite E. eexists. split; [done|]. cbn [_backers _root min_addr foldl]. repeat split. unfold update_step at 2. by rewrite E.
Qed.

Lemma insort_split {A} (key : A → Z) l x :
  increasing (key <$> l) →
  ∃ F G, insort key l x = F ++ x :: G ∧ l = F ++ G ∧
    Forall (λ y, key y ≤ key x) F ∧ Forall (λ y, key x < key y) G.
Proof.
  intros Hs. unfold insort. destruct (bisect_spec _ (key x) Hs) as (_ & Hl & Hr). eexists _, _. split; [done|].
  rewrite <-fmap_take, Forall_fmap in Hl. rewrite <-fmap_drop, Forall_fmap in Hr. by rewrite take_drop.
Qed.

(** The new entry goes between the backers before and after its range. *)
Lemma insort_entries h c start d l :
  wf h c → 0 < l → (∀ e, e ∈ _backers c → calculate_end h e ≤ start ∨ start + l ≤ e.1) →
  ∃ F G, insort fst (_backers c) (start, d) = F ++ (start, d) :: G ∧ _backers c = F ++ G ∧
    Forall (λ e, calculate_end h e ≤ start) F ∧ Forall (λ e, start + l ≤ e.1) G.
Proof.
  intros Hwf Hl Hfree. destruct (insort_split fst (_backers c) (start, d) (wf_starts h c Hwf)) as (F & G & Ei & Ebs & HF & HG).
  exists F, G. split; [done|]. split; [done|]. pose proof (wf_bounds h c Hwf) as [_ Hb].
  rewrite list.Forall_forall in Hb. rewrite Ebs in Hb, Hfree. cbn [fst] in HF, HG. rewrite list.Forall_forall in HF, HG.
  split; apply list.Forall_forall; intros e He.
  - specialize (HF e He). destruct (Hfree e) as [|]; [apply elem_of_app; by left|done|lia].
  - specialize (HG e He). assert (e ∈ F ++ G) as Hin by (apply elem_of_app; by right).
    destruct (Hfree e Hin) as [|]; [|done]. specialize (Hb e Hin). assert (calculate_end h e = e.1 + extent h e.2) by done. lia.
Qed.

Lemma lookup_app_buffer h x b : (b < length h)%nat → buffer_at (h ++ [x]) b = buffer_at h b.
Proof. intros. unfold buffer_at. by rewrite (lookup_app_l h). Qed.

Lemma chain_used h lo F b : chain h lo F → b ∈ F.*2 → (b < length h)%nat.
Proof.
  revert lo. induction F as [|[s b'] F IH]; intros lo HF Hin; cbn in *; [by apply not_elem_of_nil in Hin|].
  destruct HF as (? & ? & HF). apply elem_of_cons in Hin as [->|Hin]; [by apply used_buffer|by eapply IH].
Qed.

(** The check of [add_backer]: the first leaf from [start] on begins after it. *)
Lemma check_unbacked_passes h c start l :
  wf h c → 0 < l → (∀ e, e ∈ _backers c → calculate_end h e ≤ start ∨ start + l ≤ e.1) →
  check_unbacked start (h, c) = ((h, c), Ok tt).
Proof.
  intros Hwf Hl Hfree. unfold check_unbacked. rewrite bind_get, backers_from by done.
  destruct (first_leaf h c start Hwf) as [[-> _]|(s & b & F & E & HF & Hend & _)]; [done|]. rewrite E.
  cbn [chunks fmap list_fmap]. destruct (Z.leb_spec s start) as [Hs|]; [exfalso|done].
  assert ((s, b) ∈ flat c) as Hin.
  { assert ((s, b) ∈ from h start (flat c)) as Hf by (rewrite E; constructor). by apply list_elem_of_filter in Hf as [_ ?]. }
  rewrite flat_eq in Hin. apply list_elem_of_bind in Hin as (e & Hse & He).
  destruct (wf_entry h c e Hwf He) as [Hc Hb].
  assert (s + size h b ≤ calculate_end h e) by (unfold ends_below in Hb; rewrite list.Forall_forall in Hb; apply (Hb _ Hse)).
  pose proof (chain_elem h _ _ _ _ Hc Hse).
  destruct (Hfree e He); lia.
Qed.

Lemma Forall_calculate_end h h' c F G :
  wf h c → (∀ b, 0 < size h b → size h' b = size h b) → _backers c = F ++ G →
  ∀ m, Forall (λ e, calculate_end h e ≤ m) F → Forall (λ e, calculate_end h' e ≤ m) F.
Proof.
  intros [_ Hbuf _ _ _] Hsz Ebs m HF. rewrite list.Forall_forall in HF. apply list.Forall_forall. intros e He.
  assert (calculate_end h' e = calculate_end h e) as ->; [|by apply HF]. unfold calculate_end. f_equal.
  destruct e as [s [b|c']]; [|done]. apply Hsz, (Hbuf s). rewrite Ebs. apply elem_of_app. by left.
Qed.

(** The backers with a new entry in its place. *)
Lemma inserted_entries h c start d F G :
  wf h c → _backers c = F ++ G → Forall (λ e, calculate_end h e ≤ start) F →
  0 ≤ extent h d → Forall (λ e, calculate_end h (start, d) ≤ e.1) G →
  let N := F ++ (start, d) :: G in
  entries h (hd 0 N.*1) N ∧ Forall (λ e, 0 ≤ extent h e.2) N.
Proof.
  intros Hwf Ebs HF Hd HG N. pose proof (wf_bounds h c Hwf) as [_ Hb]. destruct Hwf as [He _ _ _ _].
  rewrite Ebs in He, Hb. apply entries_app in He as [HeF HeG]. apply Forall_app in Hb as [HbF HbG]. split.
  - assert (hd 0 N.*1 ≤ start ∧ entries h (hd 0 N.*1) F) as [Hlo Hlow].
    { destruct F as [|e F]; cbn; [lia|]. inversion HF; inversion HbF; subst. destruct HeF as [_ HeF].
      assert (calculate_end h e = e.1 + extent h e.2) by done. split; [cbn in *; lia|split; [lia|done]]. }
    apply entries_app. split; [done|]. cbn. split; [by apply last_end_le|]. by eapply entries_after.
  - apply Forall_app. split; [eapply Forall_impl; [|exact HbF]; cbn; lia|]. constructor; [done|].
    eapply Forall_impl; [|exact HbG]. cbn. lia.
Qed.

(** A new buffer does not change what the old leaves denote. *)
Lemma lookup_grown h c x l k :
  wf h c → l ⊆ _backers c → lookup_in (h ++ [x]) (l ≫= flat_entry) k = lookup_in h (l ≫= flat_entry) k.
Proof.
  intros Hwf Hl. apply lookup_unchanged. intros b Hin. apply lookup_app_buffer.
  destruct (flat_chain h c Hwf) as [Hc _]. eapply chain_used; [exact Hc|]. rewrite flat_eq.
  apply list_elem_of_fmap in Hin as (y & -> & Hy). apply list_elem_of_fmap. exists y. split; [done|].
  apply list_elem_of_bind in Hy as (e & ? & He). apply list_elem_of_bind. exists e. split; [done|]. by apply Hl.
Qed.

Lemma bind_ends_below h c l m :
  wf h c → l ⊆ _backers c → Forall (λ e, calculate_end h e ≤ m) l → ends_below h m (l ≫= flat_entry).
Proof.
  intros Hwf Hl HF. induction HF as [|e l He HF IH]; [constructor|]. apply Forall_app. split.
  - eapply ends_below_weaken; [exact He|]. apply (wf_entry h c e Hwf), Hl. constructor.
  - apply IH. intros e' He'. apply Hl. by constructor.
Qed.

(** C20: [add_backer] extends the map.  Adding [bytes] on a range that no backer
    reaches into succeeds, keeps the memory well formed (sorted, without
    overlap, its three cached attributes exact), maps the new addresses to the
    new bytes and leaves every other address as it was. *)
Theorem add_backer_extends (h : heap) (c : clemory) (start : Z) (data : list Z) :
  wf h c → data ≠ [] →
  (∀ e, e ∈ _backers c → calculate_end h e ≤ start ∨ start + len data ≤ e.1) →
  ∃ h' c', add_backer start (PBytes data) false (h, c) = ((h', c'), Ok tt) ∧
    wf h' c' ∧ _root c' = _root c ∧ (∀ k, mem h' c' k = overlay (mem h c) start data k).
Proof.
  intros Hwf Hd Hfree. pose proof (len_nonneg data).
  assert (0 < len data) as Hl by (destruct data; [done|]; rewrite len_cons; pose proof (len_nonneg data); lia).
  unfold add_backer. rewrite (bind_Ok_M _ _ _ _ _ (check_data_bytes data _ Hd)), bind_get. cbn [payload_len].
  rewrite (bind_Ok_M _ _ _ _ _ (check_unbacked_passes h c start _ Hwf Hl Hfree)).
  unfold insert_backer. rewrite bind_get. set (h' := h ++ [mkBuffer ByteArray data]). set (b := length h).
  destruct (insort_entries h c start (Buf b) (len data) Hwf Hl Hfree) as (F & G & Ei & Ebs & HF & HG). rewrite Ei.
  pose proof (wf_bounds h c Hwf) as [_ Hb].
  assert (buffer_at h' b = mkBuffer ByteArray data) as Enew.
  { unfold buffer_at, h', b. by rewrite (lookup_app_r h), Nat.sub_diag by lia. }
  assert (∀ b', 0 < size h b' → size h' b' = size h b') as Hsz.
  { intros b' Hb'. unfold size, h'. by rewrite lookup_app_buffer by (by apply used_buffer). }
  set (N := F ++ (start, Buf b) :: G).
  destruct (inserted_entries h' c start (Buf b) F G) as [HeN HxN]; [by apply (wf_resize h)|done|by eapply Forall_calculate_end
    |cbn; rewrite Enew; cbn; lia|unfold calculate_end; cbn; rewrite Enew; cbn; exact HG|].
  destruct (update_min_max_spec h' N (_root c) (consecutive c) (min_addr c) (max_addr c)) as (c' & Eu & Ebs' & Er & Emin & Ec);
    [by destruct F|done|done|].
  exists h', c'. split; [unfold put, update_min_max, get, mbind, M_bind, set_backers; by rewrite Eu|].
  pose proof (wf_resize h h' c Hsz Hwf) as [_ Hbuf Hsub Hmin _].
  assert (∀ e, e ∈ N → e = (start, Buf b) ∨ e ∈ _backers c) as HN.
  { intros e. unfold N. rewrite Ebs, !elem_of_app, elem_of_cons. tauto. }
  split; [constructor|split; [done|]].
  - by rewrite Emin, Ebs'.
  - rewrite Ebs'. intros s b' [[= -> ->]|Hin]%HN; [unfold size; by rewrite Enew|by eapply Hbuf].
  - rewrite Ebs'. intros s c0 [[=]|Hin]%HN. by eapply Hsub.
  - rewrite Ebs'. intros s c0 [[=]|Hin]%HN. by eapply Hmin.
  - done.
  - intros k. unfold mem. rewrite !flat_eq, Ebs', Ebs. unfold N.
    rewrite !bind_app, !lookup_in_app.
    change (((start, Buf b) :: G) ≫= flat_entry) with ((start, b) :: (G ≫= flat_entry)). cbn [lookup_in].
    pose proof (λ l, lookup_grown h c (mkBuffer ByteArray data) l k Hwf) as Hold. fold h' in Hold.
    rewrite !Hold by (rewrite Ebs; intros e He; apply elem_of_app; tauto). unfold size. rewrite Enew. cbn [contents].
    unfold overlay. destruct ((start <=? k) && (k <? start + len data)) eqn:Hk; [|by rewrite lookup_in_app].
    apply andb_prop in Hk as [Hk%Z.leb_le _]. rewrite (lookup_ends_below h start); [done| |done].
    apply (bind_ends_below h c); [done| |done]. rewrite Ebs. intros e He. apply elem_of_app. by left.
Qed.

Lemma add_backer_extends_witness :
  ∃ h' c', add_backer 24 (PBytes [7; 8]) false (sample_heap, sample) = ((h', c'), Ok tt) ∧
    wf h' c' ∧ _root c' = true ∧ (∀ k, mem h' c' k = overlay (mem sample_heap sample) 24 [7; 8] k).
Proof.
  apply (add_backer_extends sample_heap sample 24 [7; 8]); [apply sample_wf|done|].
  intros e He. vm_compute in He. repeat (apply elem_of_cons in He as [->|He]; [vm_compute; intuition discriminate|]).
  by apply not_elem_of_nil in He.
Defined.

End ClemoryFacts.
