(* ===== verification/ClemoryViews.v ===== *)
(** * The views of a loaded binary's memory: what [ClemoryView] and
    [ClemoryReadOnlyView] show of the memory behind them

    Both are compared with the map [ClemoryFacts.mem] that the memory denotes. *)

From Stdlib Require Import ZArith Lia Bool.
From stdpp Require Import base tactics list numbers.
From S2P Require Import Prelude Clemory ClemoryFacts.

Module ClemoryViews.
Import Clemory ClemoryFacts.

(** ** [ClemoryView] *)

(** C33: A window confines its writes.  Whatever [store] on a [ClemoryView] is
    given and however it ends, the memory behind the view stays well formed and
    only addresses of the window change; a store that returns has written its
    data there, shifted from the view's addresses to the memory's. *)
Theorem view_store_confined (a : Arch) (c : clemory) (start stop offset : Z) (h : heap) (addr : Z) (data : list Z) :
  wf h c → NoDup (flat c).*2 →
  let '(h', r) := View.store (as_base a c) start stop offset h addr data in
  wf h' c ∧ (∀ k, ¬ start ≤ k < stop → mem h' c k = mem h c k) ∧
  (r = Ok tt → ∀ k, mem h' c k = overlay (mem h c) (addr + (start - offset)) data k).
Proof.
  intros Hwf Hnd. assert (∀ k, mem h c k = overlay (mem h c) (addr + (start - offset)) [] k) as Hnil.
  { intros k. unfold overlay. destruct (Z.leb_spec (addr + (start - offset)) k); [|done].
    destruct (Z.ltb_spec k (addr + (start - offset) + len (A:=Z) [])); [unfold len in *; cbn in *; lia|done]. }
  unfold View.store, View.inside, View._endoffset, View._rebase. destruct data as [|x data]; [done|].
  destruct (Z.leb_spec offset addr), (Z.ltb_spec addr (offset + (stop - start))); cbn [andb negb]; try done.
  destruct (Z.leb_spec offset (addr + len (x :: data) - 1)),
    (Z.ltb_spec (addr + len (x :: data) - 1) (offset + (stop - start))); cbn [andb negb]; try done.
  pose proof (store_spec h c (addr + (start - offset)) (x :: data) Hwf Hnd ltac:(done)) as H'. cbn [as_base b_store].
  destruct (store h c _ _) as [h' r]. destruct H' as (Hsh & Hm & Hr). set (w := landed _ _ _) in *.
  assert (len w ≤ len (x :: data)) by (unfold w, landed, len; rewrite length_take; lia). pose proof (len_nonneg w).
  split; [by eapply wf_same_shape|]. split.
  - intros k Hk. rewrite Hm. unfold overlay. zcases; try done. exfalso. lia.
  - intros -> k. rewrite Hm. destruct (decide _) as [El|]; [|done].
    assert (w = x :: data) as ->; [|done]. unfold w, landed in El |- *. rewrite length_take in El. apply take_ge. lia.
Qed.

Lemma view_store_confined_witness :
  let '(h', r) := View.store (as_base (mkArch 4 LE) sample) 17 20 0 sample_heap 1 [5; 6] in
  wf h' sample ∧ mem h' sample 16 = Some 10 ∧ mem h' sample 19 = Some 6.
Proof.
  pose proof (view_store_confined (mkArch 4 LE) sample 17 20 0 sample_heap 1 [5; 6] sample_wf) as H.
  destruct (View.store (as_base (mkArch 4 LE) sample) 17 20 0 sample_heap 1 [5; 6]) as [h' r] eqn:E.
  destruct H as (Hwf & Hout & Hin); [apply (bool_decide_eq_true_1 _); vm_compute; reflexivity|].
  split; [exact Hwf|]. split.
  - rewrite Hout by lia. reflexivity.
  - rewrite Hin; [reflexivity|]. vm_compute in E. by injection E as <- <-.
Defined.

(** The rest of [ClemoryView] does not present the window that [load]
    presents.  On the window [2, 6) of ten bytes: [load] at 0 returns the bytes
    2 and 3, but [unpack_word] at 0 raises [KeyError], because [backers] clamps
    the chunk by the wrong amount and keeps the address it had before clamping;
    an item assignment returns and changes nothing; membership raises outside
    the window instead of answering; and [find] with the default bounds, which
    shifts by the start of the window twice, misses a byte that is there. *)
Theorem view_divergences :
  let h := [mkBuffer ByteArray [0; 1; 2; 3; 4; 5; 6; 7; 8; 9]] in
  let c := mkClemory [(0, Buf 0%nat)] false true 0 10 in
  let v := View.as_base (as_base (mkArch 4 LE) c) 2 6 0 in
  b_load v h 0 2 = Ok [2; 3] ∧
  unpack_word v h 0 (Some 2) false None = Err (KeyError 0) ∧
  b_setitem v h 0 99 = Ok h ∧
  b_contains v h 7 = Err (KeyError 7) ∧
  b_getitem v h 1 = Ok 3 ∧ b_find v h [3] None None = ([], None).
Proof. vm_compute. repeat split. Qed.

(** Three more divergences of [Clemory] itself.  Iterating over a memory
    backed by a [bytearray] yields the start address plus the bytes, not the
    addresses.  [find] misses a match that ends where the memory ends, and skips
    a buffer when the search starts further into it than the pattern is long. *)
Theorem clemory_scan_divergences :
  let h := [mkBuffer ByteArray [5; 7; 7; 9]] in
  let c := mkClemory [(100, Buf 0%nat)] false true 100 104 in
  __iter__ h c = [105; 107; 107; 109] ∧
  find h c [7] None None = ([101; 102], None) ∧
  find h c [9] None None = ([], None) ∧
  find h c [7] (Some 101) None = ([101; 102], None) ∧
  find h c [7] (Some 102) None = ([], None).
Proof. vm_compute. repeat split. Qed.

(** ** [ClemoryReadOnlyView] *)

(** A view of the memory [c], in any state of its cache: flattened when the
    store was [h0], and looked at in a store [h] whose buffers have changed
    their contents at most. *)
Record presents (h : heap) (c : clemory) (v : ReadOnly.view) : Prop := {
  presents_wf : wf h c;
  presents_bytes : Forall (λ e, bkind (buffer_at h e.2) = ByteArray) (flat c);
  presents_flat : ReadOnly._flattened_backers v = flat c }.

Lemma flatten_presents h0 h c v :
  wf h0 c → Forall (λ e, bkind (buffer_at h0 e.2) = ByteArray) (flat c) → 0 ≤ min_addr c → same_shape h0 h →
  ReadOnly.flatten h0 c = Ok v → presents h c v.
Proof.
  intros Hwf Hk Hmin Hs Hf. split; [by eapply wf_same_shape| |].
  - eapply Forall_impl; [|exact Hk]. intros e. cbn. by destruct (Hs e.2) as [_ ->].
  - unfold ReadOnly.flatten in Hf. rewrite backers_from in Hf by done.
    assert (from h0 0 (flat c) = flat c) as E.
    { destruct (flat_chain h0 c Hwf) as [Hc _]. apply filter_all. revert Hc Hmin. generalize (min_addr c).
      clear. induction (flat c) as [|[s b] F IH]; intros lo HF Hlo; [constructor|]. destruct HF as (? & ? & HF).
      constructor; [cbn; lia|]. apply (IH _ HF). lia. }
    rewrite E in Hf. unfold chunks in Hf. rewrite (mapM_fmap_ok _ _ id) in Hf.
    + injection Hf as <-. cbn. apply list_fmap_id.
    + intros [s b] Hin. rewrite list.Forall_forall in Hk. specialize (Hk _ Hin). unfold chunk_kind. cbn.
      by rewrite bool_decide_eq_true_2 by done.
Qed.

Lemma lookup_elem h lo F s b k :
  chain h lo F → (s, b) ∈ F → s ≤ k < s + size h b →
  lookup_in h F k = Some (nth (Z.to_nat (k - s)) (contents (buffer_at h b)) 0).
Proof.
  revert lo. induction F as [|[s' b'] F IH]; intros lo HF Hin Hk; [by apply not_elem_of_nil in Hin|].
  destruct HF as (? & ? & HF). apply elem_of_cons in Hin as [[= -> ->]|Hin]; cbn.
  - destruct (Z.leb_spec s' k), (Z.ltb_spec k (s' + size h b')); try lia. done.
  - pose proof (chain_elem h _ _ _ _ HF Hin). destruct (Z.ltb_spec k (s' + size h b')); [lia|]. rewrite andb_false_r. by eapply IH.
Qed.

Lemma chain_starts h lo F : chain h lo F → increasing (fst <$> F).
Proof.
  revert lo. induction F as [|[s b] F IH]; intros lo HF i j Hij; cbn in *; [lia|]. destruct HF as (? & ? & HF).
  destruct i as [|i], j as [|j]; cbn; try lia; [|apply (IH _ HF); lia].
  rewrite length_fmap in Hij. clear IH. assert (∀ lo G j, chain h lo G → (j < length G)%nat → lo ≤ nth j G.*1 0) as Hlo.
  { intros lo' G. revert lo'. induction G as [|[s1 b1] G IHG]; intros lo' [|j'] HG Hj; cbn in *; try lia.
    destruct HG as (? & ? & HG). specialize (IHG _ j' HG ltac:(lia)). lia. }
  specialize (Hlo _ F j HF ltac:(lia)). lia.
Qed.

(** The leaves around an address: those before [position] end before it, the
    one at [position] begins at or before it unless all begin after it. *)
Lemma position_spec h lo F p addr :
  chain h lo F →
  let i := ReadOnly.position (ReadOnly.mkView F p) addr in
  (Forall (λ e, addr < e.1) F ∧ i = O) ∨
  ∃ P s b G, F = P ++ (s, b) :: G ∧ length P = i ∧ ends_below h s P ∧ s ≤ addr ∧ chain h s ((s, b) :: G) ∧
    Forall (λ e, addr < e.1) G.
Proof.
  intros HF. unfold ReadOnly.position. cbn [ReadOnly._flattened_backers].
  destruct (bisect_spec _ addr (chain_starts h lo F HF)) as (Hn & Hl & Hr).
  destruct (bisect F.*1 addr) as [|n] eqn:En.
  - left. split; [|done]. by rewrite drop_0, Forall_fmap in Hr.
  - right. rewrite length_fmap in Hn. destruct (lookup_lt_is_Some_2 F n ltac:(lia)) as [[s b] Hs].
    exists (take n F), s, b, (drop (S n) F). rewrite length_take, Nat.min_l by lia.
    assert (F = take n F ++ (s, b) :: drop (S n) F) as EF by by rewrite take_drop_middle.
    rewrite <-fmap_take, Forall_fmap, (take_S_r _ _ _ Hs) in Hl. apply Forall_app in Hl as [_ Hl].
    inversion Hl; subst. rewrite <-fmap_drop, Forall_fmap in Hr. split; [done|]. split; [done|].
    assert (ends_below h s (take n F) ∧ chain h s ((s, b) :: drop (S n) F)) as [? ?]; [|done].
    clear -HF EF. rewrite EF in HF. clear EF. revert lo HF. induction (take n F) as [|[s1 b1] P IH]; intros lo HF.
    + split; [constructor|]. destruct HF as (? & ? & ?). by repeat split.
    + destruct HF as (? & ? & HF). destruct (IH _ HF) as [HP Hc]. split; [|done]. constructor; [|done].
      apply (chain_elem h _ _ s b HF). apply elem_of_app. right. constructor.
Qed.

Lemma readonly_cached_spec h c v k start data :
  presents h c v → ReadOnly.cached h v k = Some (start, data) →
  ∃ b, (start, b) ∈ flat c ∧ data = contents (buffer_at h b) ∧ start ≤ k < start + size h b.
Proof.
  intros [_ _ Ef] E. unfold ReadOnly.cached, ReadOnly.data_at in E. rewrite Ef in E.
  destruct (ReadOnly._last_backer_pos v) as [i|]; [|done]. cbn in E.
  destruct (flat c !! i) as [[s b]|] eqn:Ei; [|done]. cbn in E.
  destruct (Z.leb_spec 0 (k - s)), (Z.ltb_spec (k - s) (len (contents (buffer_at h b)))); try done. cbn in E.
  injection E as <- <-. exists b. split; [by eapply list_elem_of_lookup_2|]. split; [done|]. unfold size. lia.
Qed.

Lemma presents_remember h c v i : presents h c v → presents h c (ReadOnly.remember v i).
Proof. by intros [? ? ?]. Qed.

(** Leaves that all begin after an address do not hold it. *)
Lemma lookup_after h F k : Forall (λ e, k < e.1) F → lookup_in h F k = None.
Proof. induction 1 as [|[s b] F Hs _ IH]; [done|]. cbn in *. by destruct (Z.leb_spec s k); [lia|]. Qed.

(** What an uncached access at [k] finds. *)
Lemma position_lookup h c v k :
  presents h c v →
  match ReadOnly.data_at h v (ReadOnly.position v k) with
  | None => mem h c k = None
  | Some (s, data) =>
      mem h c k = if (0 <=? k - s) && (k - s <? len data) then Some (nth (Z.to_nat (k - s)) data 0) else None
  end.
Proof.
  intros [Hwf _ Ef]. destruct (flat_chain h c Hwf) as [Hc _]. destruct v as [F p]. cbn in Ef. subst F.
  unfold ReadOnly.data_at. cbn [ReadOnly._flattened_backers]. unfold mem.
  destruct (position_spec h _ _ p k Hc) as [[Hall ->]|(P & s & b & G & EF & <- & HP & Hs & HG & Hafter)].
  - pose proof (lookup_after h _ _ Hall) as En.
    destruct (flat c) as [|[s b] F]; [done|]. cbn -[lookup_in]. rewrite En. inversion Hall; subst. cbn in *.
    by destruct (Z.leb_spec 0 (k - s)); [lia|].
  - assert (flat c !! length P = Some (s, b)) as El by (rewrite EF; by rewrite list_lookup_middle).
    rewrite El. cbn. rewrite EF, lookup_in_app.
    rewrite (lookup_ends_below h s P) by done. cbn. unfold size.
    destruct (Z.leb_spec s k), (Z.leb_spec 0 (k - s)); try lia. cbn [andb].
    destruct (Z.ltb_spec k (s + len (contents (buffer_at h b)))), (Z.ltb_spec (k - s) (len (contents (buffer_at h b)))); try lia;
      [done|by apply lookup_after].
Qed.

(** Item access through a read-only view is item access on the memory it
    was made from, in every state of the cache and after every write to the
    buffers (which the view shares): same byte, same [KeyError].  An access
    changes nothing but the cache, and keeps the cache valid. *)
Theorem readonly_getitem_agrees (h : heap) (c : clemory) (v : ReadOnly.view) (k : Z) :
  presents h c v →
  let '(v', r) := ReadOnly.__getitem__ h v k in presents h c v' ∧ r = __getitem__ h c k.
Proof.
  intros Hv. pose proof Hv as [Hwf Hk Ef]. rewrite getitem_spec; [|done|].
  2: { eapply Forall_impl; [|exact Hk]. intros e. cbn. by intros ->. }
  unfold ReadOnly.__getitem__. destruct (ReadOnly.cached h v k) as [[s data]|] eqn:Ec.
  - destruct (readonly_cached_spec h c v k s data Hv Ec) as (b & Hin & -> & Hs). split; [done|].
    destruct (flat_chain h c Hwf) as [Hc _]. unfold mem. by rewrite (lookup_elem h _ _ s b k Hc).
  - pose proof (position_lookup h c v k Hv) as Hm. destruct (ReadOnly.data_at h v _) as [[s data]|]; [|by rewrite Hm].
    rewrite Hm. destruct (_ && _); [|done]. split; [by apply presents_remember|done].
Qed.

Lemma readonly_getitem_agrees_witness :
  let v := ReadOnly.mkView (flat sample) (Some 2%nat) in
  (ReadOnly.__getitem__ sample_heap v 20).2 = __getitem__ sample_heap sample 20.
Proof.
  intros v. pose proof (readonly_getitem_agrees sample_heap sample v 20) as H.
  destruct (ReadOnly.__getitem__ sample_heap v 20). apply H. split; [apply sample_wf|by repeat constructor|done].
Defined.

(** On byte buffers the loop of the view computes what the loop of the memory
    computes. *)
Lemma readonly_load_loop h v bs i views addr n :
  Forall (λ e, bkind (buffer_at h e.2) = ByteArray) bs →
  let '(v', r) := ReadOnly.load_loop h v bs i views addr n in
  ReadOnly._flattened_backers v' = ReadOnly._flattened_backers v ∧ r = load_loop h (chunks h bs) views addr n.
Proof.
  intros Hb. revert i views addr n. induction Hb as [|[s b] bs Hk _ IH]; intros i views addr n; cbn; [done|].
  destruct (addr <? s); [done|]. unfold chunk_kind. cbn in Hk |- *. rewrite Hk, (bool_decide_eq_false_2 (ByteArray = IntList)) by done.
  change (mkChunk b 0 (len (contents (buffer_at h b)))) with (whole h b). rewrite chunk_bytes_whole.
  change (clen (whole h b)) with (len (contents (buffer_at h b))). destruct (bool_decide (views = []) && _); [done|].
  destruct (_ <=? 0); [done|]. apply IH.
Qed.

(** A load inside one leaf, whatever comes before and after it. *)
Lemma load_inside h c s b addr n :
  byte_memory h c → (s, b) ∈ flat c → s ≤ addr → 1 ≤ n → addr - s + n < size h b →
  load h c addr n = Ok (py_slice (contents (buffer_at h b)) (addr - s) (addr - s + n)).
Proof.
  intros Hb Hin Hs Hn Hfit. rewrite load_spec by done. destruct Hb as [Hwf _]. destruct (flat_chain h c Hwf) as [Hc _].
  set (l := drop (Z.to_nat (addr - s)) (contents (buffer_at h b))).
  assert (len l = size h b - (addr - s)) as El by (unfold l, size, len in *; rewrite length_drop; lia).
  rewrite (run_take _ addr _ l); [| |unfold len in *; lia].
  - rewrite py_slice_spec by (unfold size in *; lia). fold l. destruct (take (Z.to_nat n) l) eqn:E; [|done].
    apply (f_equal length) in E. rewrite length_take in E. unfold len in *. cbn in E. lia.
  - intros i Hi. unfold mem. rewrite (lookup_elem h _ _ s b _ Hc Hin) by lia. unfold l. rewrite !nth_lookup, lookup_drop.
    do 3 f_equal. lia.
Qed.

(** A slice beyond the end of a buffer is empty. *)
Lemma py_slice_beyond {A} (l : list A) a n : len l ≤ a → 0 ≤ n → py_slice l a (a + n) = [].
Proof.
  intros. pose proof (len_nonneg l). unfold py_slice. rewrite !slice_index_in by lia.
  rewrite !Z.min_l by lia. rewrite drop_ge by (unfold len; lia). by rewrite take_nil.
Qed.

(** A load that begins in the gap after a leaf takes an empty slice of it and
    stops there. *)
Lemma load_loop_gap h s b G addr n :
  chain h s ((s, b) :: G) → bkind (buffer_at h b) = ByteArray → Forall (λ e, addr < e.1) G →
  s + size h b ≤ addr → 1 ≤ n → load_loop h (chunks h ((s, b) :: G)) [] addr n = Ok [].
Proof.
  intros (_ & Hsz & HG) Hk Hafter Hge Hn. cbn [chunks fmap list_fmap load_loop]. destruct (Z.ltb_spec addr s); [lia|].
  unfold chunk_kind. cbn [cbuf whole]. rewrite Hk, (bool_decide_eq_false_2 (ByteArray = IntList)) by done.
  rewrite bool_decide_eq_true_2 by done. cbn [andb app].
  rewrite chunk_bytes_whole. change (clen (whole h b)) with (size h b). rewrite py_slice_beyond by (unfold size in *; lia).
  destruct (Z.ltb_spec (addr - s + n) (size h b)); [lia|]. destruct (Z.leb_spec (n - (size h b - (addr - s))) 0); [lia|].
  destruct G as [|[s1 b1] G]; [done|]. cbn. inversion Hafter; subst. cbn in *.
  destruct (Z.ltb_spec (addr + (size h b - (addr - s))) s1); [done|lia].
Qed.

Lemma readonly_load_slow h c p addr n :
  wf h c → Forall (λ e, bkind (buffer_at h e.2) = ByteArray) (flat c) → 1 ≤ n →
  load_loop h (chunks h (drop (ReadOnly.position (ReadOnly.mkView (flat c) p) addr) (flat c))) [] addr n =
    match mem h c addr with
    | Some _ => load h c addr n
    | None => if existsb (λ e, e.1 <=? addr) (flat c) then Ok [] else Err (KeyError addr)
    end.
Proof.
  intros Hwf Hk Hn. destruct (flat_chain h c Hwf) as [Hc _]. unfold mem at 1.
  destruct (position_spec h _ _ p addr Hc) as [[Hall ->]|(P & s & b & G & EF & <- & HP & Hs & HG & Hafter)].
  - rewrite (lookup_after h _ _ Hall), drop_0.
    assert (existsb (λ e, e.1 <=? addr) (flat c) = false) as -> by
      (clear -Hall; induction Hall as [|[s b] F Hs _ IH]; [done|]; cbn in *; by destruct (Z.leb_spec s addr); [lia|]).
    destruct Hall as [|[s b] F Hs]; [done|]. cbn in *. by destruct (Z.ltb_spec addr s); [|lia].
  - assert (existsb (λ e, e.1 <=? addr) (flat c) = true) as ->.
    { apply existsb_exists. exists (s, b). split; [|cbn; lia]. rewrite EF. apply in_app_iff. right. by left. }
    assert (∀ k, s ≤ k → lookup_in h (flat c) k = lookup_in h ((s, b) :: G) k) as Em.
    { intros k Hk'. by rewrite EF, lookup_in_app, (lookup_ends_below h s P) by done. }
    assert (drop (length P) (flat c) = (s, b) :: G) as -> by (rewrite EF; by rewrite drop_app_length).
    rewrite Em by done. rewrite EF in Hk. apply Forall_app in Hk as [HkP HkG].
    destruct (Z.lt_ge_cases addr (s + size h b)) as [Hlt|Hge].
    + assert (is_Some (lookup_in h ((s, b) :: G) addr)) as [x Hx].
      { cbn. destruct (Z.leb_spec s addr), (Z.ltb_spec addr (s + size h b)); try lia. by eexists. }
      assert (∀ l, Forall (λ e, bkind (buffer_at h e.2) = ByteArray) l → byte_backed h l) as Hbb
        by (intros l Hl; eapply Forall_impl; [|exact Hl]; intros e; cbn; by intros ->).
      rewrite Hx, load_spec by first [lia | (split; [done|]; rewrite EF; apply Hbb; by apply Forall_app)].
      rewrite load_first_leaf by (done || lia || by apply Hbb).
      rewrite (run_ext (mem h c) (lookup_in h ((s, b) :: G))) by (intros; apply Em; lia).
      destruct (run _ _ _) eqn:Er; [|done]. replace (Z.to_nat n) with (S (Z.to_nat (n - 1))) in Er by lia.
      cbn [run] in Er. by rewrite Hx in Er.
    + assert (lookup_in h ((s, b) :: G) addr = None) as ->.
      { cbn. destruct (Z.ltb_spec addr (s + size h b)); [lia|]. rewrite andb_false_r. by apply lookup_after. }
      apply load_loop_gap; [done|by inversion HkG|done|done|done].
Qed.

(** [load] through a read-only view returns what [load] on the memory
    returns whenever the first address is mapped, in every state of the cache.
    Where it is not mapped the two differ: the memory raises [KeyError], the
    view returns no bytes at all, unless the address lies before every buffer. *)
Theorem readonly_load_exact (h : heap) (c : clemory) (v : ReadOnly.view) (addr n : Z) :
  presents h c v → 1 ≤ n →
  let '(v', r) := ReadOnly.load h v addr n in
  presents h c v' ∧
  r = match mem h c addr with
      | Some _ => load h c addr n
      | None => if existsb (λ e, e.1 <=? addr) (flat c) then Ok [] else Err (KeyError addr)
      end.
Proof.
  intros Hv Hn. pose proof Hv as [Hwf Hk Ef]. unfold ReadOnly.load.
  pose proof (readonly_load_loop h v (drop (ReadOnly.position v addr) (ReadOnly._flattened_backers v))
    (ReadOnly.position v addr) [] addr n) as Hloop. pose proof (readonly_load_slow h c (ReadOnly._last_backer_pos v) addr n Hwf Hk Hn) as Hslow.
  destruct v as [F p]. cbn [ReadOnly._flattened_backers ReadOnly._last_backer_pos] in *. subst F.
  destruct (ReadOnly.load_loop _ _ _ _ _ _ _) as [v' r] eqn:El. rewrite Hslow in Hloop.
  destruct Hloop as [Hv' Hr]; [by apply Forall_drop|].
  set (v := ReadOnly.mkView (flat c) p) in *.
  destruct (ReadOnly.cached h v addr) as [[s data]|] eqn:Ec; [|split; [by split|done]].
  destruct (Z.ltb_spec (addr - s + n) (len data)) as [Hfit|]; [|split; [by split|done]]. split; [by split|].
  destruct (readonly_cached_spec h c _ addr s data Hv Ec) as (b & Hin & -> & Hs). destruct (flat_chain h c Hwf) as [Hc _].
  unfold mem. rewrite (lookup_elem h _ _ s b addr Hc Hin Hs). symmetry. apply load_inside; try done; try lia.
  split; [done|]. eapply Forall_impl; [|exact Hk]. intros e. cbn. by intros ->.
Qed.

Lemma readonly_load_exact_witness :
  let v := ReadOnly.mkView (flat sample) (Some 0%nat) in
  (ReadOnly.load sample_heap v 17 10).2 = load sample_heap sample 17 10 ∧ (ReadOnly.load sample_heap v 25 4).2 = Ok [].
Proof.
  intros v. assert (presents sample_heap sample v) as Hv by (split; [apply sample_wf|by repeat constructor|done]).
  pose proof (readonly_load_exact sample_heap sample v 17 10 Hv ltac:(lia)) as H1.
  pose proof (readonly_load_exact sample_heap sample v 25 4 Hv ltac:(lia)) as H2.
  destruct (ReadOnly.load sample_heap v 17 10), (ReadOnly.load sample_heap v 25 4). split; [apply H1|apply H2].
Defined.

End ClemoryViews.
