(* ===== verification/Emulate.v ===== *)
(** * The p-code emulator: [angr/engines/pcode/emulate.py]

    [PcodeEmulatorMixin] runs the p-code of one block on a state and hands the
    exits to [SimSuccessors.add_successor].  States are objects: the engine
    holds a heap of them, [self.state] is the first one, [state.copy] adds one,
    and the lists of successors hold references, so that what is done to a state
    after it became a successor is visible in the list.  Values and conditions
    are concrete ([Bvv], [bool]); the operations are the behaviours of [Pcode].

    The register file and the memory of a state are reached through the
    interface [Storage]; varnodes and operations are what the SLEIGH library
    returns.  An operation that raises leaves the changes made before it. *)

From Stdlib Require Import ZArith Lia Bool String Ascii.
From stdpp Require Import base tactics list numbers strings gmap.
From S2P Require Import Prelude Bvv Pcode Clemory.
#[local] Open Scope string_scope.
#[local] Open Scope Z_scope.

Module Emulate.
Import Bvv.BVV(new, Num, __ne__, __eq__) Pcode.Pcode Clemory.Clemory(Endness, LE, BE).

Abbreviation vector := Bvv.BVV.BVV.

(** ** What the lifter hands over *)

(** [register_name] is [getRegisterName()], [const_space] the name of
    [getSpaceFromConst()]. *)
Record Varnode := mkVarnode
  { space : string; offset : Z; vsize : Z; register_name : string; const_space : string }.

Inductive opcode := IMARK | Code (o : OpCode).

Record PcodeOp := mkPcodeOp { op_opcode : opcode; inputs : list Varnode; output : option Varnode }.

Record IRSB := mkIRSB { addr : Z; _ops : list PcodeOp; jumpkind : string }.

(** ** Storage

    An address or a jump target is an integer or a vector. *)
Inductive expr := Addr (a : Z) | Expr (v : vector).

Class Storage (R : Type) := {
  storage_load : expr → Z → Endness → R → R * result vector;
  storage_store : expr → vector → option Z → Endness → R → R * result unit }.

(** ** Strings *)

Definition lower_ascii (c : ascii) : ascii :=
  let n := nat_of_ascii c in if ((65 <=? n) && (n <=? 90))%nat then ascii_of_nat (n + 32) else c.

Fixpoint lower (s : string) : string :=
  match s with EmptyString => EmptyString | String c s => String (lower_ascii c) (lower s) end.

(** [a in b] of strings. *)
Definition substring_of (a b : string) : bool :=
  match String.index 0 a b with Some _ => true | None => false end.

(** [name.lower() in ("ram", "mem")]. *)
Definition is_ram (name : string) : bool := (lower name =? "ram")%string || (lower name =? "mem")%string.

Section Emulator.
Context {R : Type} `{Storage R}.

(** The architecture and the options; [set_ip] is the assignment [state.ip =
    target] and [opcode_value] the number of an opcode in the SLEIGH library. *)
Record Project := mkProject {
  get_register_offset : string → option Z;
  register_endness : Endness;
  memory_endness : Endness;
  set_ip : expr → R → R * result unit;
  lazy_solves : bool;
  opcode_value : OpCode → Z }.
Context (project : Project).

(** ** States and the engine *)

(** The parts of a state the emulator and [add_successor] touch. *)
Record SimState := mkSimState {
  registers : R;
  memory : R;
  constraints : list bool;
  ins_addr : option Z;
  statement_offset : Z;
  guard : bool;
  exit_handled : option bool;
  target : option expr;
  exit_ins_addr : option Z;
  history_jumpkind : option string }.

Definition set_registers (r : R) (s : SimState) : SimState :=
  mkSimState r (memory s) (constraints s) (ins_addr s) (statement_offset s) (guard s) (exit_handled s) (target s)
    (exit_ins_addr s) (history_jumpkind s).
Definition set_memory (m : R) (s : SimState) : SimState :=
  mkSimState (registers s) m (constraints s) (ins_addr s) (statement_offset s) (guard s) (exit_handled s) (target s)
    (exit_ins_addr s) (history_jumpkind s).
Definition add_constraints (c : bool) (s : SimState) : SimState :=
  mkSimState (registers s) (memory s) (constraints s ++ [c]) (ins_addr s) (statement_offset s) (guard s)
    (exit_handled s) (target s) (exit_ins_addr s) (history_jumpkind s).
Definition set_ins_addr (a : Z) (s : SimState) : SimState :=
  mkSimState (registers s) (memory s) (constraints s) (Some a) (statement_offset s) (guard s) (exit_handled s)
    (target s) (exit_ins_addr s) (history_jumpkind s).
Definition set_statement_offset (n : Z) (s : SimState) : SimState :=
  mkSimState (registers s) (memory s) (constraints s) (ins_addr s) n (guard s) (exit_handled s) (target s)
    (exit_ins_addr s) (history_jumpkind s).
Definition set_guard (c : bool) (s : SimState) : SimState :=
  mkSimState (registers s) (memory s) (constraints s) (ins_addr s) (statement_offset s) c (exit_handled s) (target s)
    (exit_ins_addr s) (history_jumpkind s).
Definition set_exit_handled (b : bool) (s : SimState) : SimState :=
  mkSimState (registers s) (memory s) (constraints s) (ins_addr s) (statement_offset s) (guard s) (Some b) (target s)
    (exit_ins_addr s) (history_jumpkind s).

(** What [add_successor] records in the state. *)
Definition set_exit (t : expr) (c : bool) (kind : string) (at_ : option Z) (s : SimState) : SimState :=
  mkSimState (registers s) (memory s) (constraints s) (ins_addr s) (statement_offset s) c (exit_handled s) (Some t)
    at_ (Some kind).

(** [state.copy()]: the flag [exit_handled], which the emulator hangs on the
    scratch plugin, is not copied. *)
Definition copy (s : SimState) : SimState :=
  mkSimState (registers s) (memory s) (constraints s) (ins_addr s) (statement_offset s) (guard s) None (target s)
    (exit_ins_addr s) (history_jumpkind s).

Definition satisfiable (s : SimState) : bool := forallb id (constraints s).

Record engine := mkEngine {
  heap : list SimState;
  all_successors : list nat;
  flat_successors : list nat;
  unsat_successors : list nat;
  _pcode_tmps : gmap Z vector;
  _current_op_idx : Z }.

Definition set_heap (h : list SimState) (e : engine) : engine :=
  mkEngine h (all_successors e) (flat_successors e) (unsat_successors e) (_pcode_tmps e) (_current_op_idx e).
Definition set_tmps (t : gmap Z vector) (e : engine) : engine :=
  mkEngine (heap e) (all_successors e) (flat_successors e) (unsat_successors e) t (_current_op_idx e).
Definition set_current_op_idx (i : Z) (e : engine) : engine :=
  mkEngine (heap e) (all_successors e) (flat_successors e) (unsat_successors e) (_pcode_tmps e) i.

(** [self.state]. *)
Definition self_state : nat := 0.

(** ** Steps of the engine *)

Definition M (A : Type) : Type := engine → engine * result A.

#[export] Instance M_ret : MRet M := λ A a e, (e, Ok a).
#[export] Instance M_bind : MBind M :=
  λ A B f m e, match m e with (e, Ok a) => f a e | (e, Err x) => (e, Err x) end.

Definition raise {A} (x : exn) : M A := λ e, (e, Err x).
Definition lift {A} (r : result A) : M A := λ e, (e, r).
Definition modify (f : engine → engine) : M unit := λ e, (f e, Ok tt).
Definition gets {A} (f : engine → A) : M A := λ e, (e, Ok (f e)).

(** A reference always denotes a state. *)
Definition state_of (r : nat) : M SimState :=
  λ e, match heap e !! r with Some s => (e, Ok s) | None => (e, Err AttributeError) end.

Definition update (r : nat) (f : SimState → SimState) : M unit := modify (λ e, set_heap (alter f r (heap e)) e).

(** An access to the registers or the memory of a state. *)
Definition on_registers {A} (r : nat) (f : R → R * result A) : M A :=
  s ← state_of r; let '(regs, x) := f (registers s) in _ ← update r (set_registers regs); lift x.
Definition on_memory {A} (r : nat) (f : R → R * result A) : M A :=
  s ← state_of r; let '(mem, x) := f (memory s) in _ ← update r (set_memory mem); lift x.

(** [state.copy()]. *)
Definition copy_state (r : nat) : M nat :=
  s ← state_of r; n ← gets (λ e, length (heap e)); _ ← modify (λ e, set_heap (heap e ++ [copy s]) e); mret n.

(** [SimSuccessors._categorize_successor] for a concrete guard and target and a
    jump kind that is no system call (p-code blocks have none), without the
    approximating options: such a state is unsatisfiable or reachable.  The
    branches on symbolic targets, which resolve them or file the state as
    unconstrained, are not modelled. *)
Definition _categorize_successor (r : nat) : M unit :=
  _ ← modify (λ e, mkEngine (heap e) (all_successors e ++ [r]) (flat_successors e) (unsat_successors e)
                     (_pcode_tmps e) (_current_op_idx e));
  s ← state_of r;
  if negb (guard s) || (negb (lazy_solves project) && negb (satisfiable s)) then
    modify (λ e, mkEngine (heap e) (all_successors e) (flat_successors e) (unsat_successors e ++ [r])
                   (_pcode_tmps e) (_current_op_idx e))
  else
    modify (λ e, mkEngine (heap e) (all_successors e) (flat_successors e ++ [r]) (unsat_successors e)
                   (_pcode_tmps e) (_current_op_idx e)).

(** [SimSuccessors.add_successor], without breakpoints and call stack. *)
Definition add_successor (r : nat) (t : expr) (c : bool) (kind : string) (exit_ins_addr : option Z) : M unit :=
  _ ← update r (set_exit t c kind exit_ins_addr);
  _ ← update r (add_constraints c);
  _ ← on_registers r (set_ip project t);
  _categorize_successor r.

(** ** Varnodes *)

Definition input (op : PcodeOp) (i : nat) : M Varnode :=
  match inputs op !! i with Some v => mret v | None => raise IndexError end.

(** [op.output.size] and the like. *)
Definition output_of (op : PcodeOp) : M Varnode :=
  match output op with Some v => mret v | None => raise AttributeError end.

Definition _map_register_name (v : Varnode) : Z :=
  match get_register_offset project (lower (register_name v)) with
  | Some reg_offset => reg_offset
  | None => offset v + 0x100000
  end.

Definition _adjust_value_size (num_bits : Z) (v_in : vector) : result vector :=
  if num_bits <? size v_in then op_Extract (num_bits - 1) 0 v_in
  else if size v_in <? num_bits then zero_extend v_in (num_bits - size v_in)
  else Ok v_in.

Definition _set_value (v : Varnode) (value : vector) : M unit :=
  value ← lift (_adjust_value_size (vsize v * 8) value);
  _ ← lift (guard_exn (vsize v * 8 =? size value) AssertionError);
  if (space v =? "register")%string then
    on_registers self_state
      (storage_store (Addr (_map_register_name v)) value (Some (vsize v)) (register_endness project))
  else if (space v =? "unique")%string then modify (λ e, set_tmps (<[offset v := value]> (_pcode_tmps e)) e)
  else if is_ram (space v) then
    on_memory self_state (storage_store (Addr (offset v)) value None (memory_endness project))
  else raise AngrError.

Definition _get_value (v : Varnode) : M vector :=
  if (space v =? "const")%string then lift (new (offset v) (vsize v * 8))
  else if (space v =? "register")%string then
    on_registers self_state (storage_load (Addr (_map_register_name v)) (vsize v) (register_endness project))
  else if (space v =? "unique")%string then
    tmps ← gets _pcode_tmps;
    match tmps !! offset v with
    | Some t => _ ← lift (guard_exn (size t =? vsize v * 8) AssertionError); mret t
    | None =>
        zero ← lift (new 0 (vsize v * 8));
        _ ← modify (λ e, set_tmps (<[offset v := zero]> (_pcode_tmps e)) e);
        mret zero
    end
  else if is_ram (space v) then
    on_memory self_state (storage_load (Addr (offset v)) (vsize v) (memory_endness project))
  else raise AngrError.

(** ** Operations *)

Definition _execute_unary (b : OpBehavior) (op : PcodeOp) : M unit :=
  v0 ← input op 0;
  in0 ← _get_value v0;
  out ← output_of op;
  r ← lift (evaluate_unary b (vsize out) (vsize v0) in0);
  _set_value out r.

Definition _execute_binary (b : OpBehavior) (op : PcodeOp) : M unit :=
  out ← match output op with Some v => mret v | None => raise AssertionError end;
  v0 ← input op 0;
  in0 ← _get_value v0;
  v1 ← input op 1;
  in1 ← _get_value v1;
  r ← lift (evaluate_binary b (vsize out) (vsize v0) in0 in1);
  _set_value out r.

Definition _execute_load (op : PcodeOp) : M unit :=
  v0 ← input op 0;
  v1 ← input op 1;
  address ← _get_value v1;
  if is_ram (const_space v0) then
    out ← output_of op;
    res ← on_memory self_state (storage_load (Expr address) (vsize out) (memory_endness project));
    _set_value out res
  else if substring_of (const_space v0) "register" then
    out ← output_of op;
    res ← on_registers self_state (storage_load (Expr address) (vsize out) (register_endness project));
    _set_value out res
  else raise AngrError.

Definition _execute_store (op : PcodeOp) : M unit :=
  v0 ← input op 0;
  v1 ← input op 1;
  address ← _get_value v1;
  v2 ← input op 2;
  data ← _get_value v2;
  if is_ram (const_space v0) then
    on_memory self_state (storage_store (Expr address) data None (memory_endness project))
  else if (const_space v0 =? "register")%string then
    on_registers self_state (storage_store (Expr address) data None (register_endness project))
  else raise AngrError.

(** An exit of [self.state] itself. *)
Definition exit_self (t : expr) (kind : string) : M unit :=
  s ← state_of self_state;
  _ ← add_successor self_state t (guard s) kind (ins_addr s);
  update self_state (set_exit_handled true).

(** The destination of a branch; a constant is an offset in the block, which
    is left for the next run of state [r] at the same instruction. *)
Definition destination (r : nat) (dest : Varnode) : M expr :=
  if (space dest =? "const")%string then
    s ← state_of r;
    a ← match ins_addr s with Some a => mret a | None => raise AttributeError end;
    idx ← gets _current_op_idx;
    _ ← update r (set_statement_offset (idx + offset dest));
    mret (Addr a)
  else mret (Addr (offset dest)).

Definition _execute_branch (op : PcodeOp) : M unit :=
  dest ← input op 0;
  t ← destination self_state dest;
  exit_self t "Ijk_Boring".

Definition _execute_cbranch (op : PcodeOp) : M unit :=
  exit_state ← copy_state self_state;
  v1 ← input op 1;
  cond ← _get_value v1;
  dest ← input op 0;
  t ← destination exit_state dest;
  taken ← lift (__ne__ cond (Num 0));
  s ← state_of self_state;
  _ ← add_successor exit_state t taken "Ijk_Boring" (ins_addr s);
  cont_condition ← lift (__eq__ cond (Num 0));
  _ ← update self_state (add_constraints cont_condition);
  s ← state_of self_state;
  update self_state (set_guard (guard s && cont_condition)).

(** [RETURN], [BRANCHIND] and [CALLIND]. *)
Definition exit_indirect (kind : string) (op : PcodeOp) : M unit :=
  v0 ← input op 0;
  t ← _get_value v0;
  exit_self (Expr t) kind.

Definition _execute_ret : PcodeOp → M unit := exit_indirect "Ijk_Ret".
Definition _execute_branchind : PcodeOp → M unit := exit_indirect "Ijk_Boring".
Definition _execute_callind : PcodeOp → M unit := exit_indirect "Ijk_Call".

Definition _execute_call (op : PcodeOp) : M unit :=
  exit_state ← copy_state self_state;
  v0 ← input op 0;
  s ← state_of self_state;
  _ ← add_successor exit_state (Addr (offset v0)) (guard s) "Ijk_Call" (ins_addr s);
  update self_state (set_exit_handled true).

(** [CALLOTHER], [MULTIEQUAL], [INDIRECT], [SEGMENTOP], [CPOOLREF], [NEW]. *)
Definition _execute_unsupported (op : PcodeOp) : M unit := raise AngrError.

(** The table [handlers]. *)
Definition handlers (o : OpCode) : option (PcodeOp → M unit) :=
  match o with
  | LOAD => Some _execute_load
  | STORE => Some _execute_store
  | BRANCH => Some _execute_branch
  | CBRANCH => Some _execute_cbranch
  | BRANCHIND => Some _execute_branchind
  | CALL => Some _execute_call
  | CALLIND => Some _execute_callind
  | RETURN => Some _execute_ret
  | CALLOTHER | MULTIEQUAL | INDIRECT | SEGMENTOP | CPOOLREF | NEW => Some _execute_unsupported
  | _ => None
  end.

Definition _execute_current_op (o : OpCode) (op : PcodeOp) : M unit :=
  let b := get_behavior_for_opcode o in
  if is_special b then
    match handlers (Pcode.opcode b) with
    | Some h => h op
    | None => raise (KeyError (opcode_value project o))
    end
  else if is_unary b then _execute_unary b op
  else _execute_binary b op.

(** ** Blocks *)

(** The local variables of the loop. *)
Record locals := mkLocals { last_imark_op_idx : Z; fallthru_addr : Z }.

Definition last_input (op : PcodeOp) : M Varnode :=
  match last (inputs op) with Some v => mret v | None => raise IndexError end.

Definition block_step (op_idx : Z) (op : PcodeOp) (l : locals) : M locals :=
  match op_opcode op with
  | IMARK =>
      v ← input op 0;
      _ ← modify (set_tmps ∅);
      _ ← update self_state (set_ins_addr (offset v));
      w ← last_input op;
      mret (mkLocals op_idx (offset w + vsize w))
  | Code o =>
      _ ← modify (set_current_op_idx (op_idx - last_imark_op_idx l));
      _ ← _execute_current_op o op;
      mret l
  end.

Fixpoint block_loop (op_idx : Z) (ops : list PcodeOp) (l : locals) : M locals :=
  match ops with
  | [] => mret l
  | op :: ops => l ← block_step op_idx op l; block_loop (op_idx + 1) ops l
  end.

Definition handle_pcode_block (irsb : IRSB) : M unit :=
  _ ← update self_state (set_exit_handled false);
  _ ← modify (set_tmps ∅);
  _ ← update self_state (set_ins_addr (addr irsb));
  s ← state_of self_state;
  let start_op_idx := statement_offset s in
  _ ← update self_state (set_statement_offset 0);
  _ ← lift (guard_exn (start_op_idx =? 0) AssertionError);
  l ← block_loop 0 (_ops irsb) (mkLocals 0 (addr irsb));
  s ← state_of self_state;
  if negb (default false (exit_handled s)) then
    add_successor self_state (Addr (fallthru_addr l)) (guard s) (jumpkind irsb) (ins_addr s)
  else mret tt.
End Emulator.
End Emulate.
