(* ===== verification/EmulateStorage.v ===== *)
(** * What the emulator relies on from a storage

    [StorageLaws] says that a storage behaves as an array of bytes on the
    addresses below [extent]: a load reads the bytes as one word in the byte
    order it is given, and a store replaces exactly these bytes.  The theorems
    on the emulator are proved against this interface.  A finite map of bytes
    implements it. *)

From Stdlib Require Import ZArith Lia Bool String.
From stdpp Require Import base tactics list numbers strings gmap.
From S2P Require Import Prelude Bvv Pcode Clemory ClemoryFacts Emulate.
#[local] Open Scope Z_scope.
#[local] Open Scope list_scope.

Module EmulateStorage.
Import Pcode.Pcode Clemory.Clemory(Endness, LE, BE, int_from_bytes, from_little, to_little, _byteorder)
  ClemoryFacts.ClemoryFacts(from_to_little, length_to_little) Emulate.Emulate.

(** ** Arrays of bytes *)

Definition bytes_at (m : Z → Z) (a n : Z) : list Z := (λ i, m (a + i)) <$> seqZ 0 n.

Definition word_at (big : bool) (m : Z → Z) (a n : Z) : Z := int_from_bytes (bytes_at m a n) big false.

Definition word_bytes (big : bool) (n v : Z) : list Z :=
  let bs := to_little (Z.to_nat n) v in if big then reverse bs else bs.

Definition overwrite (m : Z → Z) (a : Z) (bs : list Z) (k : Z) : Z :=
  if bool_decide (a ≤ k) then default (m k) (bs !! Z.to_nat (k - a)) else m k.

Lemma bytes_at_ext m m' a n : (∀ k, a ≤ k < a + n → m k = m' k) → bytes_at m a n = bytes_at m' a n.
Proof.
  intros Hm. apply list_fmap_ext. intros i x Hx. apply lookup_seqZ in Hx as [-> ?]. apply Hm. lia.
Qed.

Lemma word_at_ext big m m' a n : (∀ k, a ≤ k < a + n → m k = m' k) → word_at big m a n = word_at big m' a n.
Proof. intros Hm. unfold word_at. by rewrite (bytes_at_ext m m'). Qed.

Lemma length_word_bytes big n v : length (word_bytes big n v) = Z.to_nat n.
Proof. unfold word_bytes. destruct big; by rewrite ?length_reverse, length_to_little. Qed.

Lemma overwrite_other m a bs k : k < a ∨ a + Z.of_nat (length bs) ≤ k → overwrite m a bs k = m k.
Proof.
  intros Hk. unfold overwrite. case_bool_decide; [|done]. rewrite lookup_ge_None_2 by lia. done.
Qed.

Lemma bytes_at_overwrite m a bs : bytes_at (overwrite m a bs) a (Z.of_nat (length bs)) = bs.
Proof.
  apply list_eq. intros i. unfold bytes_at. rewrite list_lookup_fmap.
  destruct (decide (i < length bs)%nat) as [Hi|Hi].
  - rewrite lookup_seqZ_lt by lia. cbn. unfold overwrite. rewrite bool_decide_true by lia.
    replace (Z.to_nat (a + (0 + Z.of_nat i) - a)) with i by lia.
    destruct (bs !! i) eqn:E; [done|]. apply lookup_ge_None in E. lia.
  - rewrite lookup_seqZ_ge by lia. rewrite lookup_ge_None_2 by lia. done.
Qed.

(** A word that is written is read back. *)
Lemma word_at_overwrite big m a n v :
  0 ≤ n → 0 ≤ v < 2 ^ (8 * n) → word_at big (overwrite m a (word_bytes big n v)) a n = v.
Proof.
  intros Hn Hv. unfold word_at.
  pose proof (bytes_at_overwrite m a (word_bytes big n v)) as E. rewrite length_word_bytes, Z2Nat.id in E by done.
  rewrite E. unfold int_from_bytes, word_bytes. cbn [andb].
  replace (if big then reverse _ else _) with (to_little (Z.to_nat n) v) by (destruct big; by rewrite ?reverse_involutive).
  rewrite from_to_little, Z2Nat.id by done. by apply Z.mod_small.
Qed.

Lemma from_little_range bs : Forall (λ b, 0 ≤ b < 256) bs → 0 ≤ from_little bs < 2 ^ (8 * Z.of_nat (length bs)).
Proof.
  induction 1 as [|b bs Hb _ IH]; cbn [from_little length]; [done|].
  replace (8 * Z.of_nat (S (length bs))) with (8 + 8 * Z.of_nat (length bs)) by lia.
  rewrite Z.pow_add_r by lia. change (2 ^ 8) with 256. lia.
Qed.

Lemma word_at_range big m a n : 0 ≤ n → (∀ k, 0 ≤ m k < 256) → 0 ≤ word_at big m a n < 2 ^ (8 * n).
Proof.
  intros Hn Hm. unfold word_at, int_from_bytes. cbn [andb].
  assert (Forall (λ b, 0 ≤ b < 256) (bytes_at m a n)) as Hf by (unfold bytes_at; apply Forall_fmap, Forall_true; intros; apply Hm).
  assert (length (bytes_at m a n) = Z.to_nat n) as El by (unfold bytes_at; by rewrite length_fmap, length_seqZ).
  assert (∀ bs, length bs = Z.to_nat n → Forall (λ b, 0 ≤ b < 256) bs → 0 ≤ from_little bs < 2 ^ (8 * n)) as H.
  { intros bs E Hb. pose proof (from_little_range bs Hb) as R. by rewrite E, Z2Nat.id in R. }
  destruct big; apply H; by rewrite ?length_reverse, ?Forall_reverse.
Qed.

(** ** The laws *)

Class StorageLaws (R : Type) `{Storage R} := {
  contents : R → Z → Z;
  extent : Z;
  contents_byte r k : 0 ≤ contents r k < 256;
  load_law r a n e big :
    _byteorder e = Ok big → 1 ≤ n → 0 ≤ a → a + n ≤ extent →
    ∃ r', storage_load (Addr a) n e r = (r', Ok (vec (word_at big (contents r) a n) (8 * n))) ∧
      ∀ k, contents r' k = contents r k;
  store_law r a n e big x sz :
    _byteorder e = Ok big → 1 ≤ n → 0 ≤ a → a + n ≤ extent → 0 ≤ x < 2 ^ (8 * n) → sz = None ∨ sz = Some n →
    ∃ r', storage_store (Addr a) (vec x (8 * n)) sz e r = (r', Ok tt) ∧
      ∀ k, contents r' k = overwrite (contents r) a (word_bytes big n x) k;
  load_expr r v n e : storage_load (Expr v) n e r = storage_load (Addr (BVV.value v)) n e r;
  store_expr r v x sz e : storage_store (Expr v) x sz e r = storage_store (Addr (BVV.value v)) x sz e r }.

(** ** A finite map of bytes *)

Abbreviation byte_map := (gmap Z Z).

Definition byte_of (m : byte_map) (k : Z) : Z := default 0 (m !! k) mod 256.

Definition address_of (a : expr) : Z := match a with Addr a => a | Expr v => BVV.value v end.

Definition insert_bytes (a : Z) (bs : list Z) (m : byte_map) : byte_map :=
  list_to_map (zip (seqZ a (Z.of_nat (length bs))) bs) ∪ m.

#[export] Instance byte_map_storage : Storage byte_map := {
  storage_load a n e m := (m, big ← _byteorder e; Bvv.BVV.new (word_at big (byte_of m) (address_of a) n) (8 * n));
  storage_store a v sz e m :=
    match _byteorder e with
    | Ok big => (insert_bytes (address_of a) (word_bytes big (BVV.bits v / 8) (BVV.value v)) m, Ok tt)
    | Err x => (m, Err x)
    end }.

Lemma to_little_bytes n v : Forall (λ b, 0 ≤ b < 256) (to_little n v).
Proof. revert v. induction n as [|n IH]; intros v; constructor; [by apply Z.mod_pos_bound|apply IH]. Qed.

Lemma word_bytes_bytes big n v : Forall (λ b, 0 ≤ b < 256) (word_bytes big n v).
Proof. unfold word_bytes. destruct big; rewrite ?Forall_reverse; apply to_little_bytes. Qed.

Lemma insert_bytes_spec a bs m k :
  Forall (λ b, 0 ≤ b < 256) bs → byte_of (insert_bytes a bs m) k = overwrite (byte_of m) a bs k.
Proof.
  intros Hb. unfold byte_of, insert_bytes, overwrite.
  set (l := zip (seqZ a (Z.of_nat (length bs))) bs).
  assert (l.*1 = seqZ a (Z.of_nat (length bs))) as El by (apply fst_zip; rewrite length_seqZ; lia).
  rewrite lookup_union. case_bool_decide as Hk.
  - destruct (bs !! Z.to_nat (k - a)) as [b|] eqn:E; cbn [default from_option].
    + assert (list_to_map (M:=byte_map) l !! k = Some b) as ->.
      { apply elem_of_list_to_map_1; [rewrite El; apply NoDup_seqZ|].
        apply list_elem_of_lookup. exists (Z.to_nat (k - a)). unfold l. rewrite lookup_zip_Some, lookup_seqZ, E.
        apply lookup_lt_Some in E. split; [|done]. lia. }
      rewrite union_Some_l. cbn. apply Z.mod_small. exact (Forall_lookup_1 _ _ _ _ Hb E).
    + rewrite not_elem_of_list_to_map_1; [by destruct (m !! k)|].
      apply lookup_ge_None in E. rewrite El, elem_of_seqZ. lia.
  - rewrite not_elem_of_list_to_map_1; [by destruct (m !! k)|]. rewrite El, elem_of_seqZ. lia.
Qed.

#[export] Instance byte_map_laws : StorageLaws byte_map.
Proof.
  refine {| contents := byte_of; extent := 2 ^ 64 |}.
  - intros r k. by apply Z.mod_pos_bound.
  - intros r a n e big He Hn Ha _. exists r. split; [|done]. cbn [storage_load byte_map_storage address_of].
    rewrite He. cbn [mbind result_bind]. f_equal. apply new_small. split; [lia|]. apply word_at_range; [lia|].
    intros k. by apply Z.mod_pos_bound.
  - intros r a n e big x sz He Hn Ha _ Hx _. cbn [storage_store byte_map_storage address_of BVV.bits BVV.value]. rewrite He.
    eexists. split; [done|]. intros k. rewrite insert_bytes_spec by apply word_bytes_bytes.
    by rewrite Z.mul_comm, Z.div_mul by done.
  - done.
  - done.
Defined.

(** ** An example

    A machine with two registers of four bytes, [r0] and [r1], and a program
    counter, over byte maps. *)
Definition sample_project : Project (R:=byte_map) := mkProject
  (λ name, if (name =? "r0")%string then Some 0 else if (name =? "r1")%string then Some 4
           else if (name =? "pc")%string then Some 8 else None)
  LE BE (λ t, storage_store (Addr 8) (vec (address_of t mod 2 ^ 32) 32) (Some 4) LE) false (λ _, 0).

Definition register (name : string) (n : Z) : Varnode := mkVarnode "register" 0 n name "".
Definition constant (v n : Z) : Varnode := mkVarnode "const" v n "" "".
Definition ram (name : string) (a n : Z) : Varnode := mkVarnode name a n "" "".
Definition unique (a n : Z) : Varnode := mkVarnode "unique" a n "" "".
Definition space_id (name : string) : Varnode := mkVarnode "const" 0 8 "" name.

Definition sample_state : SimState (R:=byte_map) :=
  mkSimState {[ 0 := 7; 4 := 250; 5 := 1 ]} {[ 0x1000 := 0xAB; 0x1001 := 0xCD ]} [] (Some 0x400) 0 true None None None None.

Definition sample_engine : engine (R:=byte_map) := mkEngine [sample_state] [] [] [] ∅ 0.

Definition imark (a n : Z) : PcodeOp := mkPcodeOp IMARK [ram "ram" a n] None.
End EmulateStorage.
