(* ===== verification/EmulateFacts.v ===== *)
(** * The p-code emulator is right

    Theorems on [Emulate]: what an operation leaves alone, that a block that is
    run to its end has an exit, what varnodes read and write against the laws
    of the storage interface, the operations on data, and the two exits of a
    conditional branch.  A store of bytes implements the interface. *)

From Stdlib Require Import ZArith Lia Bool String.
From stdpp Require Import base tactics list numbers strings gmap.
From S2P Require Import Prelude Bvv Pcode Clemory Emulate EmulateStorage.
#[local] Open Scope string_scope.
#[local] Open Scope Z_scope.
#[local] Open Scope list_scope.

Module EmulateFacts.
Import Pcode.Pcode Emulate.Emulate EmulateStorage.EmulateStorage.

Section Frame.
Context {R : Type} `{Storage R} (project : Project (R:=R)).

(** ** What a computation does to the engine *)

(** [m] relates every engine to the one it leaves, whatever its outcome. *)
Definition keeps (Q : engine → engine → Prop) {A} (m : M (R:=R) A) : Prop := ∀ e, Q e (m e).1.

Section Keeps.
Context (Q : engine (R:=R) → engine (R:=R) → Prop) `{!PreOrder Q}.

Lemma keeps_bind {A B} (m : M A) (f : A → M B) : keeps Q m → (∀ a, keeps Q (f a)) → keeps Q (m ≫= f).
Proof.
  intros Hm Hf e. specialize (Hm e). unfold mbind, M_bind. destruct (m e) as [e' [a|x]]; [|done].
  etransitivity; [exact Hm|apply Hf].
Qed.

Lemma keeps_same {A} (m : M A) : (∀ e, (m e).1 = e) → keeps Q m.
Proof. intros Hm e. by rewrite Hm. Qed.

Lemma keeps_ret {A} (a : A) : keeps Q (mret a).
Proof. by apply keeps_same. Qed.

Lemma keeps_raise {A} x : keeps Q (raise (A:=A) x).
Proof. by apply keeps_same. Qed.

Lemma keeps_lift {A} (r : result A) : keeps Q (lift r).
Proof. by apply keeps_same. Qed.

Lemma keeps_gets {A} (f : engine → A) : keeps Q (gets f).
Proof. by apply keeps_same. Qed.

Lemma keeps_state_of r : keeps Q (state_of r).
Proof. apply keeps_same. intros e. unfold state_of. by destruct (heap e !! r). Qed.
End Keeps.

Create HintDb keeps.
Hint Resolve keeps_ret keeps_raise keeps_lift keeps_gets keeps_state_of : keeps.

(** [keeps_tac] walks through the binds and branches of a computation. *)
Ltac keeps_tac :=
  repeat match goal with
    | |- keeps _ (_ ≫= _) => apply keeps_bind; [typeclasses eauto| |intros ?]
    | |- keeps _ (if ?b then _ else _) => destruct b
    | |- keeps _ (match ?x with _ => _ end) => destruct x
    | |- keeps _ (let '_ := ?x in _) => destruct x
    end; auto with keeps typeclass_instances.

(** ** Operations on data leave control alone *)

Definition control (s : SimState (R:=R)) :=
  (constraints s, ins_addr s, statement_offset s, guard s, exit_handled s, target s, exit_ins_addr s, history_jumpkind s).

(** The same lists of successors, the same other states, and the same control
    fields of [self.state]: only its registers and memory and the temporaries
    may differ. *)
Definition quiet (e e' : engine (R:=R)) : Prop :=
  all_successors e' = all_successors e ∧ flat_successors e' = flat_successors e ∧
  unsat_successors e' = unsat_successors e ∧ _current_op_idx e' = _current_op_idx e ∧
  control <$> heap e' = control <$> heap e ∧ tail (heap e') = tail (heap e).

#[local] Instance quiet_preorder : PreOrder quiet.
Proof.
  split; [by intros ?; repeat split|].
  intros a b c (? & ? & ? & ? & ? & ?) (? & ? & ? & ? & ? & ?). repeat split; etransitivity; eassumption.
Qed.

Lemma quiet_tmps f : keeps quiet (modify (λ e, set_tmps (f e) e)).
Proof. by intros e. Qed.

Lemma quiet_update f : (∀ s, control (f s) = control s) → keeps quiet (update self_state f).
Proof.
  intros Hf e. repeat split; try done; cbn [modify update set_heap heap fst].
  - destruct (heap e) as [|s l]; [done|]. cbn. by rewrite Hf.
  - by destruct (heap e).
Qed.

Lemma quiet_registers {A} (f : R → R * result A) : keeps quiet (on_registers self_state f).
Proof.
  unfold on_registers. apply keeps_bind; [typeclasses eauto|auto with keeps typeclass_instances|]. intros s.
  destruct (f (registers s)) as [r x]. keeps_tac. by apply quiet_update.
Qed.

Lemma quiet_memory {A} (f : R → R * result A) : keeps quiet (on_memory self_state f).
Proof.
  unfold on_memory. apply keeps_bind; [typeclasses eauto|auto with keeps typeclass_instances|]. intros s.
  destruct (f (memory s)) as [r x]. keeps_tac. by apply quiet_update.
Qed.

Hint Resolve quiet_tmps quiet_registers quiet_memory : keeps.

Lemma quiet_set_value v x : keeps quiet (_set_value project v x).
Proof. unfold _set_value. keeps_tac. Qed.

Lemma quiet_get_value v : keeps quiet (_get_value project v).
Proof. unfold _get_value. keeps_tac. Qed.

Lemma quiet_input op i : keeps quiet (input op i).
Proof. unfold input. keeps_tac. Qed.

Lemma quiet_output op : keeps quiet (output_of op).
Proof. unfold output_of. keeps_tac. Qed.

Hint Resolve quiet_set_value quiet_get_value quiet_input quiet_output : keeps.

(** The opcodes that may end the block. *)
Definition exits : list OpCode := [BRANCH; CBRANCH; BRANCHIND; CALL; CALLIND; RETURN].

Lemma quiet_data o op : o ∉ exits → keeps quiet (_execute_current_op project o op).
Proof.
  intros Ho. unfold _execute_current_op, _execute_unary, _execute_binary.
  destruct (is_special (get_behavior_for_opcode o)) eqn:Es.
  - destruct (handlers project (Pcode.opcode (get_behavior_for_opcode o))) as [h|] eqn:Eh; [|auto with keeps typeclass_instances].
    destruct o; cbn in Es, Eh; try discriminate; injection Eh as <-;
      try (exfalso; apply Ho; unfold exits; apply list_elem_of_In; cbn; tauto).
    all: unfold _execute_load, _execute_store, _execute_unsupported; keeps_tac.
  - keeps_tac.
Qed.

(** ** A block that runs to its end has an exit *)

(** The same for the runs that return. *)
Definition achieves (Q : engine → engine → Prop) {A} (m : M (R:=R) A) : Prop :=
  ∀ e e' a, m e = (e', Ok a) → Q e e'.

Lemma bind_run {A B} (m : M (R:=R) A) (f : A → M B) e e' b :
  (m ≫= f) e = (e', Ok b) → ∃ e1 a, m e = (e1, Ok a) ∧ f a e1 = (e', Ok b).
Proof. unfold mbind, M_bind. destruct (m e) as [e1 [a|x]]; [eauto|discriminate]. Qed.

Lemma achieves_bind Q `{!PreOrder Q} {A B} (m : M A) (f : A → M B) :
  achieves Q m → (∀ a, achieves Q (f a)) → achieves Q (m ≫= f).
Proof. intros Hm Hf e e' b H1. apply bind_run in H1 as (e1 & a & E1 & E2). etransitivity; [by eapply Hm|by eapply Hf]. Qed.

Lemma keeps_achieves Q {A} (m : M (R:=R) A) : keeps Q m → achieves Q m.
Proof. intros Hm e e' a E. specialize (Hm e). by rewrite E in Hm. Qed.

Definition handled (e : engine (R:=R)) : bool :=
  match heap e !! self_state with Some s => default false (exit_handled s) | None => false end.

(** The lists of successors are extended, every new successor is filed under
    exactly one of flat and unsatisfiable, and the exit is only marked as
    handled when there is a new successor. *)
Definition grows (e e' : engine (R:=R)) : Prop :=
  ∃ l lf lu, all_successors e' = (all_successors e ++ l)%list ∧ flat_successors e' = (flat_successors e ++ lf)%list ∧
    unsat_successors e' = (unsat_successors e ++ lu)%list ∧ l ≡ₚ (lf ++ lu)%list ∧
    (handled e' = true → handled e = true ∨ l ≠ []).

Lemma merge_files (l1 f1 u1 l2 f2 u2 : list nat) :
  l1 ≡ₚ f1 ++ u1 → l2 ≡ₚ f2 ++ u2 → l1 ++ l2 ≡ₚ (f1 ++ f2) ++ (u1 ++ u2).
Proof.
  intros -> ->. rewrite <-!app_assoc. apply Permutation_app_head.
  rewrite !app_assoc. apply Permutation_app_tail, Permutation_app_comm.
Qed.

#[local] Instance grows_preorder : PreOrder grows.
Proof.
  split; [by intros e; exists [], [], []; rewrite !app_nil_r; split_and!; auto|].
  intros a b c (l1 & f1 & u1 & A1 & B1 & C1 & P1 & H1) (l2 & f2 & u2 & A2 & B2 & C2 & P2 & H2).
  exists (l1 ++ l2)%list, (f1 ++ f2)%list, (u1 ++ u2)%list. rewrite A2, B2, C2, A1, B1, C1, <-!app_assoc. split_and!; try done.
  - rewrite (app_assoc f1). by apply merge_files.
  - intros Hc. destruct (H2 Hc) as [Hb|Hl]; [destruct (H1 Hb) as [|Hl]; [by left|]|]; right; intros E; apply app_nil in E as [-> ->]; done.
Qed.

Lemma grows_same e e' :
  all_successors e' = all_successors e → flat_successors e' = flat_successors e →
  unsat_successors e' = unsat_successors e → handled e' = handled e → grows e e'.
Proof. intros A B C Hh. exists [], [], []. rewrite !app_nil_r, A, B, C, Hh. split_and!; auto. Qed.

Lemma quiet_grows e e' : quiet e e' → grows e e'.
Proof.
  intros (? & ? & ? & _ & Hc & _). apply grows_same; [done..|]. unfold handled.
  assert (control <$> heap e' !! self_state = control <$> heap e !! self_state) as E by by rewrite <-!list_lookup_fmap, Hc.
  destruct (heap e' !! self_state), (heap e !! self_state); cbn in E; try discriminate; [|done].
  injection E as _ _ _ _ E _ _ _. by rewrite E.
Qed.

Lemma achieves_quiet {A} (m : M (R:=R) A) : keeps quiet m → achieves grows m.
Proof. intros Hm. apply keeps_achieves. intros e. apply quiet_grows, Hm. Qed.

Lemma achieves_update r f : (∀ s, exit_handled (f s) = exit_handled s) → achieves grows (update (R:=R) r f).
Proof.
  intros Hf. apply keeps_achieves. intros e. apply grows_same; [done..|]. unfold handled. cbn [update modify fst set_heap heap].
  rewrite list_lookup_alter. case_decide as Er; [|done]. rewrite Er.
  destruct (heap e !! self_state); [|done]. cbn. by rewrite Hf.
Qed.

Lemma achieves_state_of r : achieves grows (state_of (R:=R) r).
Proof. apply keeps_achieves, keeps_state_of. typeclasses eauto. Qed.

Lemma achieves_registers {A} r (f : R → R * result A) : achieves grows (on_registers r f).
Proof.
  unfold on_registers. apply achieves_bind; [typeclasses eauto|apply achieves_state_of|]. intros s.
  destruct (f (registers s)) as [regs x]. apply achieves_bind; [typeclasses eauto|by apply achieves_update|].
  intros _. apply keeps_achieves, keeps_lift. typeclasses eauto.
Qed.

(** A copy is a new state, after the others. *)
Lemma achieves_copy r : achieves grows (copy_state (R:=R) r).
Proof.
  intros e e' n E. unfold copy_state in E. apply bind_run in E as (e1 & s & E & E').
  unfold state_of in E. destruct (heap e !! r) eqn:Er; [|discriminate]. injection E as <- <-.
  injection E' as <- _. apply grows_same; [done..|]. unfold handled. cbn [set_heap heap].
  rewrite lookup_app_l; [done|]. apply lookup_lt_Some in Er. unfold self_state. lia.
Qed.

(** Filing a state adds it to the lists. *)
Definition files (r : nat) (e e' : engine (R:=R)) : Prop :=
  ∃ lf lu, all_successors e' = (all_successors e ++ [r])%list ∧ flat_successors e' = (flat_successors e ++ lf)%list ∧
    unsat_successors e' = (unsat_successors e ++ lu)%list ∧ [r] ≡ₚ (lf ++ lu)%list ∧ heap e' = heap e.

Lemma categorize_files r : achieves (files r) (_categorize_successor project r).
Proof.
  intros e e' [] E. unfold _categorize_successor in E. apply bind_run in E as (e1 & [] & E & E').
  injection E as <-. apply bind_run in E' as (e2 & s & E & E'). unfold state_of in E.
  destruct (heap _ !! r); [|discriminate]. injection E as <- <-. destruct (_ || _); injection E' as <-.
  - exists [], [r]. rewrite app_nil_r. by split_and!.
  - exists [r], []. rewrite !app_nil_r. by split_and!.
Qed.

Lemma files_grows r e e' : files r e e' → grows e e'.
Proof.
  intros (lf & lu & A & B & C & P & Hh). exists [r], lf, lu. split_and!; try done. intros _. by right.
Qed.

Lemma add_successor_run r t c kind a e e' x :
  add_successor project r t c kind a e = (e', Ok x) →
  ∃ e1, grows e e1 ∧ files r e1 e'.
Proof.
  unfold add_successor. intros E. apply bind_run in E as (e1 & [] & E1 & E).
  apply bind_run in E as (e2 & [] & E2 & E). apply bind_run in E as (e3 & [] & E3 & E).
  exists e3. split; [|by eapply categorize_files].
  transitivity e1; [|transitivity e2].
  - eapply achieves_update, E1. done.
  - eapply achieves_update, E2. done.
  - eapply achieves_registers, E3.
Qed.

Lemma achieves_add_successor r t c kind a : achieves grows (add_successor project r t c kind a).
Proof.
  intros e e' x E. apply add_successor_run in E as (e1 & H1 & H2). etransitivity; [exact H1|by eapply files_grows].
Qed.

(** Where a successor is added, the exit may be marked. *)
Lemma grows_handled r e e1 e2 e3 :
  grows e e1 → files r e1 e2 →
  all_successors e3 = all_successors e2 → flat_successors e3 = flat_successors e2 → unsat_successors e3 = unsat_successors e2 →
  grows e e3.
Proof.
  intros (l & lf & lu & A & B & C & P & _) (lf' & lu' & A' & B' & C' & P' & _) A3 B3 C3.
  exists (l ++ [r])%list, (lf ++ lf')%list, (lu ++ lu')%list.
  rewrite A3, B3, C3, A', B', C', A, B, C, <-!app_assoc. split_and!; try done.
  - rewrite (app_assoc lf). by apply merge_files.
  - intros _. right. by destruct l.
Qed.

Lemma achieves_exit_self t kind : achieves grows (exit_self project t kind).
Proof.
  intros e e' [] E. unfold exit_self in E. apply bind_run in E as (e0 & s & E0 & E).
  apply bind_run in E as (e1 & [] & E1 & E). apply add_successor_run in E1 as (e2 & G & F).
  injection E as <-. transitivity e0; [by eapply achieves_state_of|]. by eapply grows_handled.
Qed.

Lemma achieves_destination r v : achieves grows (destination (R:=R) r v).
Proof.
  unfold destination. destruct (space v =? "const")%string; [|apply keeps_achieves, keeps_ret; typeclasses eauto].
  apply achieves_bind; [typeclasses eauto|apply achieves_state_of|]. intros s.
  apply achieves_bind; [typeclasses eauto|destruct (ins_addr s); apply keeps_achieves; auto with keeps typeclass_instances|]. intros a.
  apply achieves_bind; [typeclasses eauto|apply keeps_achieves; auto with keeps typeclass_instances|]. intros idx.
  apply achieves_bind; [typeclasses eauto|by apply achieves_update|]. intros _. apply keeps_achieves, keeps_ret. typeclasses eauto.
Qed.

Hint Resolve achieves_state_of achieves_registers achieves_copy achieves_add_successor achieves_exit_self
  achieves_destination achieves_quiet : keeps.

(** [achieves_tac] walks through the binds; quiet steps and updates of fields
    other than the mark are closed on the way. *)
Ltac achieves_tac :=
  repeat match goal with
    | |- achieves _ (_ ≫= _) => apply achieves_bind; [typeclasses eauto| |intros ?]
    | |- achieves _ (update _ _) => by apply achieves_update
    end; auto with keeps typeclass_instances.

Lemma achieves_call op : achieves grows (_execute_call project op).
Proof.
  intros e e' [] E. unfold _execute_call in E. apply bind_run in E as (e1 & r & E1 & E).
  apply bind_run in E as (e2 & v & E2 & E). apply bind_run in E as (e3 & s & E3 & E).
  apply bind_run in E as (e4 & [] & E4 & E). apply add_successor_run in E4 as (e5 & G & F). injection E as <-.
  transitivity e1; [by eapply achieves_copy|]. transitivity e2; [eapply achieves_quiet, E2; auto with keeps typeclass_instances|].
  transitivity e3; [by eapply achieves_state_of|]. by eapply grows_handled.
Qed.

Lemma achieves_execute o op : achieves grows (_execute_current_op project o op).
Proof.
  destruct (decide (o ∈ exits)) as [Ho|Ho]; [|by apply achieves_quiet, quiet_data].
  apply list_elem_of_In in Ho. cbn in Ho.
  destruct Ho as [<-|[<-|[<-|[<-|[<-|[<-|[]]]]]]]; cbn [_execute_current_op get_behavior_for_opcode special is_special handlers Pcode.opcode].
  - unfold _execute_branch. achieves_tac.
  - unfold _execute_cbranch. achieves_tac.
  - unfold _execute_branchind, exit_indirect. achieves_tac.
  - apply achieves_call.
  - unfold _execute_callind, exit_indirect. achieves_tac.
  - unfold _execute_ret, exit_indirect. achieves_tac.
Qed.

Lemma achieves_loop ops : ∀ i l, achieves grows (block_loop project i ops l).
Proof.
  induction ops as [|op ops IH]; intros i l; cbn [block_loop]; [achieves_tac|].
  apply achieves_bind; [typeclasses eauto| |intros l'; apply IH]. unfold block_step.
  destruct (op_opcode op); achieves_tac.
  - unfold last_input. destruct (last (inputs op)); achieves_tac.
  - by apply keeps_achieves; intros e; apply grows_same.
  - apply achieves_execute.
Qed.

(** C31: Over concrete values, a block that is run to its end adds at least one
    successor, and every successor is filed as exactly one of reachable and
    unsatisfiable. *)
Theorem block_has_exit (irsb : IRSB) (e e' : engine) :
  handle_pcode_block project irsb e = (e', Ok tt) →
  ∃ l lf lu, l ≠ [] ∧ all_successors e' = (all_successors e ++ l)%list ∧
    flat_successors e' = (flat_successors e ++ lf)%list ∧ unsat_successors e' = (unsat_successors e ++ lu)%list ∧
    l ≡ₚ (lf ++ lu)%list.
Proof.
  unfold handle_pcode_block. intros E.
  apply bind_run in E as (e1 & [] & E1 & E). apply bind_run in E as (e2 & [] & E2 & E).
  apply bind_run in E as (e3 & [] & E3 & E). apply bind_run in E as (e4 & s & E4 & E).
  apply bind_run in E as (e5 & [] & E5 & E). apply bind_run in E as (e6 & [] & E6 & E).
  apply bind_run in E as (e7 & l & E7 & E). apply bind_run in E as (e8 & s' & E8 & E).
  assert (all_successors e6 = all_successors e ∧ flat_successors e6 = flat_successors e ∧
    unsat_successors e6 = unsat_successors e ∧ handled e6 = false) as (A & B & C & Hh).
  { unfold state_of in E4. injection E1 as <-. injection E2 as <-. injection E3 as <-.
    destruct (heap _ !! self_state) as [s0|] eqn:Es in E4; [|discriminate]. injection E4 as <- <-. injection E5 as <-.
    unfold lift in E6. injection E6 as <- _. split_and!; try done. unfold handled.
    cbn [set_heap set_tmps heap] in Es |- *. destruct (heap e) as [|x h]; [done|]. done. }
  destruct (achieves_loop _ _ _ _ _ _ E7) as (l1 & f1 & u1 & A1 & B1 & C1 & P1 & H1).
  unfold state_of in E8. destruct (heap e7 !! self_state) as [s7|] eqn:Es; [|discriminate]. injection E8 as <- <-.
  assert (handled e7 = default false (exit_handled s7)) as Eh by (unfold handled; by rewrite Es).
  rewrite <-Eh in E. destruct (handled e7) eqn:E7h; cbn [negb] in E.
  - injection E as <-. exists l1, f1, u1. rewrite A1, B1, C1, A, B, C. split_and!; try done.
    destruct (H1 eq_refl) as [|]; [congruence|done].
  - apply add_successor_run in E as (e9 & (l2 & f2 & u2 & A2 & B2 & C2 & P2 & _) & (f3 & u3 & A3 & B3 & C3 & P3 & _)).
    exists (l1 ++ l2 ++ [self_state])%list, (f1 ++ f2 ++ f3)%list, (u1 ++ u2 ++ u3)%list.
    rewrite A3, B3, C3, A2, B2, C2, A1, B1, C1, A, B, C, <-!app_assoc. split_and!; try done; [by destruct l1, l2|].
    rewrite (app_assoc f2 f3), (app_assoc f1). by repeat apply merge_files.
Qed.
End Frame.

(** The sample block: an addition, a conditional branch, and a second
    instruction. *)
Definition sample_block : IRSB :=
  mkIRSB 0x400
    [imark 0x400 4;
     mkPcodeOp (Code INT_ADD) [register "r0" 4; register "r1" 4] (Some (register "r0" 4));
     mkPcodeOp (Code INT_LESS) [register "r0" 4; constant 300 4] (Some (unique 0x100 1));
     mkPcodeOp (Code CBRANCH) [ram "ram" 0x500 8; unique 0x100 1] None;
     imark 0x404 4;
     mkPcodeOp (Code COPY) [constant 5 4] (Some (register "r1" 4))]
    "Ijk_Boring".

Lemma block_has_exit_witness :
  ∃ l lf lu : list nat, l ≠ [] ∧
    all_successors (handle_pcode_block sample_project sample_block sample_engine).1 = ([] ++ l)%list ∧
    flat_successors (handle_pcode_block sample_project sample_block sample_engine).1 = ([] ++ lf)%list ∧
    unsat_successors (handle_pcode_block sample_project sample_block sample_engine).1 = ([] ++ lu)%list ∧
    l ≡ₚ (lf ++ lu)%list.
Proof.
  apply (block_has_exit sample_project sample_block sample_engine). vm_compute. reflexivity.
Defined.
End EmulateFacts.
