(* ===== verification/EmulateOps.v ===== *)
(** * Varnodes and operations of the emulator

    A varnode denotes a part of the state: [read] is its value, a number.  The
    emulator's accessors and operations are related to these numbers, over any
    storage that satisfies [StorageLaws]. *)

From Stdlib Require Import ZArith Lia Bool String.
From stdpp Require Import base tactics list numbers strings gmap.
From S2P Require Import Prelude Bvv Pcode Clemory Emulate EmulateStorage.
#[local] Open Scope string_scope.
#[local] Open Scope Z_scope.
#[local] Open Scope list_scope.

Module EmulateOps.
Import Pcode.Pcode Clemory.Clemory(Endness, LE, BE, _byteorder) Emulate.Emulate EmulateStorage.EmulateStorage.

(** ** Running a computation *)

Section Run.
Context {R : Type} `{Storage R}.

Lemma step_ok {A B} (m : M (R:=R) A) (f : A → M B) e e' a : m e = (e', Ok a) → (m ≫= f) e = f a e'.
Proof. intros E. unfold mbind, M_bind. by rewrite E. Qed.

Lemma step_err {A B} (m : M (R:=R) A) (f : A → M B) e e' x : m e = (e', Err x) → (m ≫= f) e = (e', Err x).
Proof. intros E. unfold mbind, M_bind. by rewrite E. Qed.

Lemma lift_ok {A B} (r : result A) (f : A → M (R:=R) B) a e : r = Ok a → (lift r ≫= f) e = f a e.
Proof. by intros ->. Qed.

Lemma input_ok {B} op i v (f : Varnode → M (R:=R) B) e : inputs op !! i = Some v → (input op i ≫= f) e = f v e.
Proof. intros E. unfold input. by rewrite E. Qed.

Lemma output_ok {B} op v (f : Varnode → M (R:=R) B) e : output op = Some v → (output_of op ≫= f) e = f v e.
Proof. intros E. unfold output_of. by rewrite E. Qed.

Lemma state_ok {B} r s (f : SimState → M (R:=R) B) e : heap e !! r = Some s → (state_of r ≫= f) e = f s e.
Proof. intros E. apply step_ok. unfold state_of. by rewrite E. Qed.

Lemma on_registers_run {A} r s (f : R → R * result A) e :
  heap e !! r = Some s →
  on_registers r f e = (set_heap (alter (set_registers (f (registers s)).1) r (heap e)) e, (f (registers s)).2).
Proof. intros E. unfold on_registers. rewrite (state_ok r s) by done. by destruct (f (registers s)). Qed.

Lemma on_memory_run {A} r s (f : R → R * result A) e :
  heap e !! r = Some s →
  on_memory r f e = (set_heap (alter (set_memory (f (memory s)).1) r (heap e)) e, (f (memory s)).2).
Proof. intros E. unfold on_memory. rewrite (state_ok r s) by done. by destruct (f (memory s)). Qed.
End Run.

(** ** What a varnode denotes *)

Inductive region := Constant | Register (a : Z) | Unique (a : Z) | Ram (a : Z) | Unhandled.

Section Ops.
Context {R : Type} `{StorageLaws R} (project : Project (R:=R)).
Context (reg_big mem_big : bool).

Definition region_of (v : Varnode) : region :=
  if (space v =? "const")%string then Constant
  else if (space v =? "register")%string then Register (_map_register_name project v)
  else if (space v =? "unique")%string then Unique (offset v)
  else if is_ram (space v) then Ram (offset v)
  else Unhandled.

Definition registers_of (e : engine (R:=R)) (k : Z) : Z :=
  match heap e !! self_state with Some s => contents (registers s) k | None => 0 end.
Definition memory_of (e : engine (R:=R)) (k : Z) : Z :=
  match heap e !! self_state with Some s => contents (memory s) k | None => 0 end.
Definition temporary (e : engine (R:=R)) (a : Z) : Z := from_option BVV.value 0 (_pcode_tmps e !! a).

(** The number a varnode denotes. *)
Definition read (e : engine (R:=R)) (v : Varnode) : Z :=
  match region_of v with
  | Constant => offset v mod 2 ^ (8 * vsize v)
  | Register a => word_at reg_big (registers_of e) a (vsize v)
  | Unique a => temporary e a
  | Ram a => word_at mem_big (memory_of e) a (vsize v)
  | Unhandled => 0
  end.

(** Where a varnode may be written: a constant never. *)
Definition writable (v : Varnode) : Prop :=
  1 ≤ vsize v ∧
  match region_of v with
  | Register a | Ram a => 0 ≤ a ∧ a + vsize v ≤ extent
  | Unique _ => True
  | Constant | Unhandled => False
  end.

(** Where it may be read: a temporary must hold a value of the varnode's size,
    or none. *)
Definition readable (e : engine (R:=R)) (v : Varnode) : Prop :=
  (writable v ∨ 1 ≤ vsize v ∧ region_of v = Constant) ∧
  ∀ a t, region_of v = Unique a → _pcode_tmps e !! a = Some t → ∃ x, t = vec x (8 * vsize v) ∧ vwf (8 * vsize v) x.

(** Two varnodes that share storage: temporaries are keyed by their offset. *)
Definition overlaps (v w : Varnode) : Prop :=
  match region_of v, region_of w with
  | Register a, Register b | Ram a, Ram b => a < b + vsize w ∧ b < a + vsize v
  | Unique a, Unique b => a = b
  | _, _ => False
  end.

Definition compatible (v w : Varnode) : Prop :=
  ∀ a, region_of v = Unique a → region_of w = Unique a → vsize v = vsize w.

(** ** States that agree *)

(** The same registers, memory and temporaries; a temporary may have been
    initialised, as varnode [v], to zero. *)
Definition agrees (v : Varnode) (e e' : engine (R:=R)) : Prop :=
  (∀ k, registers_of e' k = registers_of e k) ∧ (∀ k, memory_of e' k = memory_of e k) ∧
  ∀ a, _pcode_tmps e' !! a = _pcode_tmps e !! a ∨
    region_of v = Unique a ∧ _pcode_tmps e !! a = None ∧ _pcode_tmps e' !! a = Some (vec 0 (8 * vsize v)).

Definition alive (e : engine (R:=R)) : Prop := is_Some (heap e !! self_state).

Lemma agrees_read v e e' w : agrees v e e' → read e' w = read e w.
Proof.
  intros (Hr & Hm & Ht). unfold read. destruct (region_of w); try done.
  - apply word_at_ext. intros k _. apply Hr.
  - unfold temporary. by destruct (Ht a) as [->|(_ & -> & ->)].
  - apply word_at_ext. intros k _. apply Hm.
Qed.

Lemma agrees_readable v e e' w : 1 ≤ vsize v → compatible v w → agrees v e e' → readable e w → readable e' w.
Proof.
  intros Hv Hc (_ & _ & Ht) [Hw Hread]. split; [done|]. intros a t Ha E.
  destruct (Ht a) as [Et|(Hr & _ & Et)]; rewrite Et in E; [by eapply Hread|]. injection E as <-.
  rewrite <-(Hc a) by done. eexists. split; [done|]. split; [lia|]. pose proof (pow2_pos (8 * vsize v)). lia.
Qed.

Lemma readable_range e v : alive e → readable e v → vwf (8 * vsize v) (read e v).
Proof.
  intros [s Es] [Hw Ht]. assert (1 ≤ vsize v) as Hv by (destruct Hw as [[]|[]]; done).
  split; [lia|]. pose proof (pow2_pos (8 * vsize v) ltac:(lia)). unfold read.
  destruct (region_of v) as [|a|a|a|] eqn:Er.
  - apply Z.mod_pos_bound. lia.
  - apply word_at_range; [lia|]. intros k. unfold registers_of. rewrite Es. apply contents_byte.
  - unfold temporary. destruct (_pcode_tmps e !! a) as [t|] eqn:E; cbn; [|lia].
    destruct (Ht a t) as (x & -> & _ & Hx); done.
  - apply word_at_range; [lia|]. intros k. unfold memory_of. rewrite Es. apply contents_byte.
  - lia.
Qed.

Lemma set_registers_view e s r :
  heap e !! self_state = Some s →
  let e' := set_heap (alter (set_registers r) self_state (heap e)) e in
  alive e' ∧ (∀ k, registers_of e' k = contents r k) ∧ (∀ k, memory_of e' k = memory_of e k).
Proof.
  intros Es e'. assert (heap e' !! self_state = Some (set_registers r s)) as E.
  { cbn [e' set_heap heap]. by rewrite list_lookup_alter, Es, decide_True. }
  split; [by eexists|]. unfold registers_of, memory_of. by rewrite E, Es.
Qed.

Lemma set_memory_view e s r :
  heap e !! self_state = Some s →
  let e' := set_heap (alter (set_memory r) self_state (heap e)) e in
  alive e' ∧ (∀ k, registers_of e' k = registers_of e k) ∧ (∀ k, memory_of e' k = contents r k).
Proof.
  intros Es e'. assert (heap e' !! self_state = Some (set_memory r s)) as E.
  { cbn [e' set_heap heap]. by rewrite list_lookup_alter, Es, decide_True. }
  split; [by eexists|]. unfold registers_of, memory_of. by rewrite E, Es.
Qed.

Context (Hreg : _byteorder (register_endness project) = Ok reg_big)
        (Hmem : _byteorder (memory_endness project) = Ok mem_big).

(** Reading returns the number and changes nothing that can be read. *)
Lemma get_value_run e v :
  alive e → readable e v →
  ∃ e', _get_value project v e = (e', Ok (vec (read e v) (8 * vsize v))) ∧ alive e' ∧ agrees v e e'.
Proof.
  intros Hlive Hread. pose proof (readable_range e v Hlive Hread) as Hrange. destruct Hlive as [s Es].
  destruct Hread as [Hw Ht]. unfold _get_value, read, writable, agrees, region_of in *. rewrite (Z.mul_comm (vsize v)).
  destruct (space v =? "const")%string.
  { exists e. split; [|split; [by exists s|by split_and!; auto]]. unfold lift. destruct Hrange.
    rewrite BVV.new_spec by lia. done. }
  destruct (space v =? "register")%string.
  { destruct Hw as [(Hv & Hn & Hx)|[_ Hw]]; [|done].
    destruct (load_law (registers s) _ _ _ _ Hreg Hv Hn Hx) as (r' & E & Hc).
    eexists. rewrite (on_registers_run _ s) by done. rewrite E. cbn [fst snd].
    destruct (set_registers_view e s r' Es) as (Ha & Hr & Hm). split; [|split; [done|]].
    - unfold registers_of at 1. by rewrite Es.
    - split_and!; [|done|by left]. intros k. rewrite Hr, Hc. unfold registers_of. by rewrite Es. }
  destruct (space v =? "unique")%string.
  { rewrite (step_ok _ _ e e (_pcode_tmps e)) by done. cbn beta. unfold temporary in *.
    destruct (_pcode_tmps e !! offset v) as [t|] eqn:Et; cbn [from_option] in *.
    - destruct (Ht _ t eq_refl Et) as (x & -> & _). exists e. split; [|split; [by exists s|by split_and!; auto]].
      cbn [size concrete_ops BVV.bits BVV.value]. by rewrite Z.eqb_refl.
    - destruct Hrange. rewrite BVV.new_spec, Z.mod_0_l by lia. eexists. split; [done|]. split; [by exists s|].
      split_and!; [done..|]. intros a. cbn. destruct (decide (offset v = a)) as [<-|Ha].
      + right. by rewrite lookup_insert_eq.
      + left. by rewrite lookup_insert_ne. }
  destruct (is_ram (space v)); [|by destruct Hw as [[]|[]]].
  destruct Hw as [(Hv & Hn & Hx)|[_ Hw]]; [|done].
  destruct (load_law (memory s) _ _ _ _ Hmem Hv Hn Hx) as (r' & E & Hc).
  eexists. rewrite (on_memory_run _ s) by done. rewrite E. cbn [fst snd].
  destruct (set_memory_view e s r' Es) as (Ha & Hr & Hm). split; [|split; [done|]].
  - unfold memory_of at 1. by rewrite Es.
  - split_and!; [done| |by left]. intros k. rewrite Hm, Hc. unfold memory_of. by rewrite Es.
Qed.

(** A value is cut or extended with zeros to the size of the varnode. *)
Lemma adjust_value n x w : 1 ≤ n → vwf w x → _adjust_value_size n (vec x w) = Ok (vec (x mod 2 ^ n) n).
Proof.
  intros Hn [Hw Hx]. unfold _adjust_value_size. cbn [size concrete_ops BVV.bits].
  destruct (Z.ltb_spec n w); [|destruct (Z.ltb_spec w n)].
  - concrete. rewrite BVV.Extract_spec by lia. cbn [BVV.value]. rewrite Z.pow_0_r, Z.div_1_r. by replace (n - 1 + 1 - 0) with n by lia.
  - rewrite zero_extend_vec by (by split || lia). replace (w + (n - w)) with n by lia.
    pose proof (Z.pow_le_mono_r 2 w n ltac:(lia) ltac:(lia)). by rewrite Z.mod_small by lia.
  - replace n with w by lia. by rewrite Z.mod_small by lia.
Qed.

Lemma word_at_frame big m a n x b k :
  0 ≤ n → ¬ (a < b + k ∧ b < a + n) → word_at big (overwrite m a (word_bytes big n x)) b k = word_at big m b k.
Proof.
  intros Hn Hd. apply word_at_ext. intros j Hj. apply overwrite_other. rewrite length_word_bytes. lia.
Qed.

(** Writing sets the number and leaves every varnode that does not overlap. *)
Lemma set_value_run e v x w :
  alive e → writable v → vwf w x →
  ∃ e', _set_value project v (vec x w) e = (e', Ok tt) ∧ alive e' ∧ readable e' v ∧
    read e' v = x mod 2 ^ (8 * vsize v) ∧ ∀ u, ¬ overlaps v u → read e' u = read e u.
Proof.
  intros [s Es] Hw Hx. assert (1 ≤ vsize v) as Hv by apply Hw. pose proof (pow2_pos (8 * vsize v) ltac:(lia)).
  assert (0 ≤ x mod 2 ^ (8 * vsize v) < 2 ^ (8 * vsize v)) as Hr by (apply Z.mod_pos_bound; lia).
  unfold _set_value. rewrite (Z.mul_comm (vsize v)). rewrite (lift_ok _ _ (vec (x mod 2 ^ (8 * vsize v)) (8 * vsize v)))
    by (apply adjust_value; [lia|done]).
  rewrite (lift_ok _ _ tt) by (cbn; by rewrite Z.eqb_refl). set (y := x mod 2 ^ (8 * vsize v)) in *. clearbody y.
  unfold readable, read, overlaps. pose proof Hw as [_ Hw']. unfold region_of in *.
  destruct (space v =? "const")%string eqn:Ec; [done|].
  destruct (space v =? "register")%string.
  { destruct Hw' as [Hn He].
    destruct (store_law (registers s) _ _ _ _ _ (Some (vsize v)) Hreg Hv Hn He Hr) as (r' & E & Hc); [by right|].
    eexists. rewrite (on_registers_run _ s) by done. rewrite E. split; [done|].
    destruct (set_registers_view e s r' Es) as (Ha & Hr' & Hm). split; [done|]. split; [split; [by left|done]|].
    assert (∀ k, contents (registers s) k = registers_of e k) as Eq by (unfold registers_of; by rewrite Es).
    split.
    - rewrite (word_at_ext _ _ _ _ _ (λ k _, Hr' k)), (word_at_ext _ _ _ _ _ (λ k _, Hc k)). apply word_at_overwrite; [lia|done].
    - intros u Hu. destruct (if (space u =? "const")%string then _ else _); try done; [|by apply word_at_ext].
      rewrite (word_at_ext _ _ _ _ _ (λ k _, Hr' k)), (word_at_ext _ _ _ _ _ (λ k _, Hc k)).
      rewrite word_at_frame by (lia || tauto). by apply word_at_ext. }
  destruct (space v =? "unique")%string.
  { eexists. split; [done|]. split; [by exists s|]. split.
    { split; [by left|]. intros a t [= <-]. cbn [set_tmps _pcode_tmps]. rewrite lookup_insert_eq. intros [= <-].
      exists y. split; [done|]. split; lia. }
    split; [unfold temporary; cbn [set_tmps _pcode_tmps]; by rewrite lookup_insert_eq|].
    intros u Hu. destruct (if (space u =? "const")%string then _ else _); try done.
    unfold temporary. cbn [set_tmps _pcode_tmps]. by rewrite lookup_insert_ne. }
  destruct (is_ram (space v)); [|done]. destruct Hw' as [Hn He].
  destruct (store_law (memory s) _ _ _ _ _ None Hmem Hv Hn He Hr) as (r' & E & Hc); [by left|].
  eexists. rewrite (on_memory_run _ s) by done. rewrite E. split; [done|].
  destruct (set_memory_view e s r' Es) as (Ha & Hr' & Hm). split; [done|]. split; [split; [by left|done]|].
  assert (∀ k, contents (memory s) k = memory_of e k) as Eq by (unfold memory_of; by rewrite Es).
  split.
  - rewrite (word_at_ext _ _ _ _ _ (λ k _, Hm k)), (word_at_ext _ _ _ _ _ (λ k _, Hc k)). apply word_at_overwrite; [lia|done].
  - intros u Hu. destruct (if (space u =? "const")%string then _ else _); try done; [by apply word_at_ext|].
    rewrite (word_at_ext _ _ _ _ _ (λ k _, Hm k)), (word_at_ext _ _ _ _ _ (λ k _, Hc k)).
    rewrite word_at_frame by (lia || tauto). by apply word_at_ext.
Qed.

(** What a varnode is set to is what it reads, cut or extended to its size, and
    every varnode that does not overlap it reads what it read before. *)
Theorem varnode_roundtrip e v x w :
  alive e → writable v → vwf w x →
  ∃ e', _set_value project v (vec x w) e = (e', Ok tt) ∧
    (∃ e'', _get_value project v e' = (e'', Ok (vec (x mod 2 ^ (8 * vsize v)) (8 * vsize v)))) ∧
    (∀ u, ¬ overlaps v u → read e' u = read e u).
Proof.
  intros Ha Hw Hx. destruct (set_value_run e v x w Ha Hw Hx) as (e' & E & Ha' & Hr & Hv & Hf).
  exists e'. split; [done|]. split; [|done]. destruct (get_value_run e' v Ha' Hr) as (e'' & E' & _).
  exists e''. by rewrite E', Hv.
Qed.

(** ** Data operations *)

Lemma p_code_spec_range o w x y v w' : 1 ≤ w → p_code_spec o w x y = Some (v, w') → vwf w' v.
Proof.
  intros Hw H1. assert (∀ z, vwf w (z mod 2 ^ w)) as Hm by (intros z; split; [done|apply mod_pow2_bound; lia]).
  assert (∀ k b, 1 ≤ k → vwf k (Z.b2z b)) as Hb by (intros k b Hk; split; [done|by apply one_bit]).
  destruct o; cbn [p_code_spec] in H1; try discriminate; try (destruct (y =? 0); [discriminate|]);
    injection H1 as <- <-; first [apply Hm|by apply Hb].
Qed.

(** The state after an operation that computes [x] into [out]. *)
Definition assigns (out : Varnode) (x : Z) (e e' : engine (R:=R)) : Prop :=
  alive e' ∧ readable e' out ∧ read e' out = x mod 2 ^ (8 * vsize out) ∧ ∀ u, ¬ overlaps out u → read e' u = read e u.

Lemma set_result e1 e out x w :
  alive e1 → (∀ u, read e1 u = read e u) → writable out → vwf w x →
  ∃ e', _set_value project out (vec x w) e1 = (e', Ok tt) ∧ assigns out x e e'.
Proof.
  intros Ha Hsame Hw Hx. destruct (set_value_run e1 out x w Ha Hw Hx) as (e' & E & Ha' & Hr & Hv & Hf).
  exists e'. split; [done|]. split_and!; try done. intros u Hu. by rewrite Hf, Hsame.
Qed.

(** The two operands, read one after the other. *)
Lemma get_two e v0 v1 :
  alive e → readable e v0 → readable e v1 → compatible v0 v1 →
  ∃ e1 e2, _get_value project v0 e = (e1, Ok (vec (read e v0) (8 * vsize v0))) ∧
    _get_value project v1 e1 = (e2, Ok (vec (read e v1) (8 * vsize v1))) ∧
    alive e2 ∧ (∀ u, read e2 u = read e u) ∧ agrees v0 e e1 ∧ agrees v1 e1 e2.
Proof.
  intros Ha H0' H1' Hc. destruct (get_value_run e v0 Ha H0') as (e1 & E1 & Ha1 & A1).
  assert (1 ≤ vsize v0) as Hv0 by (destruct H0' as [[[]|[]] _]; done).
  pose proof (agrees_readable v0 e e1 v1 Hv0 Hc A1 H1') as R1.
  destruct (get_value_run e1 v1 Ha1 R1) as (e2 & E2 & Ha2 & A2). rewrite (agrees_read _ _ _ _ A1) in E2.
  exists e1, e2. split_and!; try done. intros u. by rewrite (agrees_read _ _ _ _ A2), (agrees_read _ _ _ _ A1).
Qed.

(** C29: Over any register file and memory that load what was stored, byte by byte
    ([StorageLaws]): from a state that is alive, an integer, carry or boolean
    operation on two readable operands of one size (other than a division by
    zero) leads to a state whose writable output varnode reads as the value
    p-code prescribes for the numbers the inputs denote, cut to the output, and
    that changes no varnode that does not overlap it.  The output of INT_MULT has
    the size of its inputs, as p-code requires. *)
Theorem binary_op_exact o op e v0 v1 out x w :
  alive e → inputs op = [v0; v1] → output op = Some out → vsize v0 = vsize v1 →
  readable e v0 → readable e v1 → writable out → (o = INT_MULT → vsize out = vsize v0) →
  p_code_spec o (8 * vsize v0) (read e v0) (read e v1) = Some (x, w) →
  ∃ e', _execute_current_op project o op e = (e', Ok tt) ∧ assigns out x e e'.
Proof.
  intros Ha Hin Hout Hsize R0 R1 Hw Hmult Hspec.
  destruct (get_two e v0 v1 Ha R0 R1) as (e1 & e2 & E1 & E2 & Ha2 & Hsame & _); [by intros ??|].
  pose proof (readable_range e v0 Ha R0) as W0. pose proof (readable_range e v1 Ha R1) as W1. rewrite <-Hsize in W1, E2.
  pose proof (binary_value o (vsize v0) _ _ x w W0 W1 Hspec) as Hv.
  destruct (set_result e2 e out x w Ha2 Hsame Hw) as (e' & E' & Ho).
  { eapply p_code_spec_range, Hspec. apply W0. }
  exists e'. split; [|done].
  assert (_execute_current_op project o op e = _execute_binary project (get_behavior_for_opcode o) op e) as ->
    by (destruct o; try discriminate Hspec; done).
  unfold _execute_binary. rewrite Hout, (step_ok _ _ e e out) by done. rewrite (input_ok _ _ v0) by by rewrite Hin. rewrite (step_ok _ _ _ _ _ E1).
  rewrite (input_ok _ _ v1) by by rewrite Hin. rewrite (step_ok _ _ _ _ _ E2).
  assert (evaluate_binary (get_behavior_for_opcode o) (vsize out) (vsize v0) = evaluate_binary (get_behavior_for_opcode o) (vsize v0) (vsize v0))
    as -> by (destruct o; try discriminate Hspec; first [done|by rewrite Hmult]).
  by rewrite (lift_ok _ _ _ _ Hv).
Qed.

(** [p_code_unary o n m x] is the value and width of [o] on [n] bytes, for an
    output of [m] bytes. *)
Definition p_code_unary (o : OpCode) (n m x : Z) : option (Z * Z) :=
  let w := 8 * n in
  match o with
  | COPY => Some (x, w)
  | INT_2COMP => Some ((- x) mod 2 ^ w, w)
  | INT_NEGATE => Some (2 ^ w - 1 - x, w)
  | INT_ZEXT => Some (x, 8 * m)
  | INT_SEXT => Some (BVV.to_signed w x mod 2 ^ (8 * m), 8 * m)
  | BOOL_NEGATE => Some (Z.b2z (x =? 0), 1)
  | _ => None
  end.

Lemma p_code_unary_range o n m x v w : 1 ≤ n ≤ m → vwf (8 * n) x → p_code_unary o n m x = Some (v, w) → vwf w v.
Proof.
  intros Hn [Hw Hx] H1. pose proof (Z.pow_le_mono_r 2 (8 * n) (8 * m) ltac:(lia) ltac:(lia)).
  pose proof (mod_pow2_bound (BVV.to_signed (8 * n) x) (8 * m) ltac:(lia)). pose proof (mod_pow2_bound (- x) (8 * n) ltac:(lia)).
  pose proof (one_bit 1 (x =? 0) ltac:(lia)).
  destruct o; try discriminate; injection H1 as <- <-; split; lia.
Qed.

(** The same for the operations on one operand. *)
Theorem unary_op_exact o op e v out x w :
  alive e → inputs op = [v] → output op = Some out → vsize v ≤ vsize out →
  readable e v → writable out →
  p_code_unary o (vsize v) (vsize out) (read e v) = Some (x, w) →
  ∃ e', _execute_current_op project o op e = (e', Ok tt) ∧ assigns out x e e'.
Proof.
  intros Ha Hin Hout Hsize Rv Hw Hspec. destruct (get_value_run e v Ha Rv) as (e1 & E1 & Ha1 & A1).
  pose proof (readable_range e v Ha Rv) as W0. assert (1 ≤ vsize v ≤ vsize out) as Hn by (destruct W0; lia).
  pose proof (unary_behaviors_exact (vsize v) (vsize out) (read e v) Hn (proj2 W0)) as (C & C2 & N & Z & S & B).
  pose proof (p_code_unary_range _ _ _ _ _ _ Hn W0 Hspec) as Hr.
  destruct (set_result e1 e out x w Ha1 (λ u, agrees_read _ _ _ u A1) Hw Hr) as (e' & E' & Ho).
  exists e'. split; [|done].
  assert (_execute_current_op project o op e = _execute_unary project (get_behavior_for_opcode o) op e) as ->
    by (destruct o; try discriminate Hspec; done).
  unfold _execute_unary. rewrite (input_ok _ _ v) by by rewrite Hin. rewrite (step_ok _ _ _ _ _ E1), (output_ok _ out) by done.
  rewrite (lift_ok _ _ (vec x w)); [done|].
  destruct o; try discriminate; injection Hspec as <- <-; assumption.
Qed.

(** ** Memory operations *)

(** The same numbers everywhere. *)
Definition same_views (e e' : engine (R:=R)) : Prop :=
  (∀ k, registers_of e' k = registers_of e k) ∧ (∀ k, memory_of e' k = memory_of e k) ∧ (∀ a, temporary e' a = temporary e a).

#[local] Instance same_views_preorder : PreOrder same_views.
Proof.
  split; [by intros e; split_and!|]. intros a b c (R1 & M1 & T1) (R2 & M2 & T2).
  split_and!; intros; [by rewrite R2|by rewrite M2|by rewrite T2].
Qed.

Lemma agrees_same_views v e e' : agrees v e e' → same_views e e'.
Proof.
  intros (Hr & Hm & Ht). split_and!; [done..|]. intros a. unfold temporary.
  by destruct (Ht a) as [->|(_ & -> & ->)].
Qed.

Lemma same_views_read e e' u : same_views e e' → read e' u = read e u.
Proof. intros (Hr & Hm & Ht). unfold read. destruct (region_of u); try done; by apply word_at_ext || apply Ht. Qed.

(** A load through memory: the bytes at the address, and the same views. *)
Lemma load_memory e (t : vector) n :
  alive e → 1 ≤ n → 0 ≤ BVV.value t → BVV.value t + n ≤ extent →
  ∃ e', on_memory self_state (storage_load (Expr t) n (memory_endness project)) e =
      (e', Ok (vec (word_at mem_big (memory_of e) (BVV.value t) n) (8 * n))) ∧ alive e' ∧ same_views e e'.
Proof.
  intros [s Es] Hn H0' H1'. rewrite (on_memory_run _ s) by done. rewrite load_expr.
  destruct (load_law (memory s) _ _ _ _ Hmem Hn H0' H1') as (r & E & Hc). rewrite E. cbn [fst snd]. eexists.
  destruct (set_memory_view e s r Es) as (Ha & Hr & Hm). split; [|split; [done|]].
  - unfold memory_of at 1. by rewrite Es.
  - split_and!; [done| |done]. intros k. rewrite Hm, Hc. unfold memory_of. by rewrite Es.
Qed.

(** LOAD assigns to its output the word in memory at the address its second
    input denotes. *)
Theorem load_op_exact op e v0 v1 out :
  alive e → inputs op = [v0; v1] → output op = Some out → is_ram (const_space v0) = true →
  readable e v1 → writable out → read e v1 + vsize out ≤ extent →
  ∃ e', _execute_current_op project LOAD op e = (e', Ok tt) ∧
    assigns out (word_at mem_big (memory_of e) (read e v1) (vsize out)) e e'.
Proof.
  intros Ha Hin Hout Hram Rv Hw Hext. destruct (get_value_run e v1 Ha Rv) as (e1 & E1 & Ha1 & A1).
  pose proof (readable_range e v1 Ha Rv) as [_ [Hpos _]]. apply agrees_same_views in A1.
  destruct (load_memory e1 (vec (read e v1) (8 * vsize v1)) (vsize out)) as (e2 & E2 & Ha2 & A2); try done; [apply Hw|].
  assert (same_views e e2) as S by (by transitivity e1). cbn [BVV.value] in E2.
  rewrite (word_at_ext _ _ (memory_of e)) in E2 by (intros k _; apply A1).
  destruct (set_result e2 e out (word_at mem_big (memory_of e) (read e v1) (vsize out)) (8 * vsize out)) as (e' & E' & Ho); try done.
  { intros u. by apply same_views_read. }
  { split; [destruct Hw; lia|]. apply word_at_range; [destruct Hw; lia|]. intros k. unfold memory_of.
    destruct Ha as [s ->]. apply contents_byte. }
  exists e'. split; [|done]. cbn [_execute_current_op get_behavior_for_opcode special is_special handlers Pcode.opcode].
  unfold _execute_load. rewrite (input_ok _ _ v0), (input_ok _ _ v1) by by rewrite Hin.
  rewrite (step_ok _ _ _ _ _ E1), Hram, (output_ok _ out) by done. by rewrite (step_ok _ _ _ _ _ E2).
Qed.

(** STORE replaces the bytes at the address its second input denotes by the
    value of the third, and changes no register, temporary or other byte. *)
Theorem store_op_exact op e v0 v1 v2 :
  alive e → inputs op = [v0; v1; v2] → is_ram (const_space v0) = true →
  readable e v1 → readable e v2 → compatible v1 v2 → read e v1 + vsize v2 ≤ extent →
  ∃ e', _execute_current_op project STORE op e = (e', Ok tt) ∧ alive e' ∧
    (∀ k, memory_of e' k = overwrite (memory_of e) (read e v1) (word_bytes mem_big (vsize v2) (read e v2)) k) ∧
    (∀ k, registers_of e' k = registers_of e k) ∧ (∀ a, temporary e' a = temporary e a).
Proof.
  intros Ha Hin Hram R1 R2 Hc Hext. destruct (get_two e v1 v2 Ha R1 R2 Hc) as (e1 & e2 & E1 & E2 & [s Es] & _ & A1 & A2).
  assert (same_views e e2) as (Sr & Sm & St) by (transitivity e1; by eapply agrees_same_views).
  pose proof (readable_range e v1 Ha R1) as [Hv1 [Hpos _]]. pose proof (readable_range e v2 Ha R2) as [Hv2 Hx].
  destruct (store_law (memory s) (read e v1) (vsize v2) _ _ (read e v2) None Hmem) as (r & E & Hr); try done; [lia|by left|].
  destruct (set_memory_view e2 s r Es) as (Ha' & Vr & Vm).
  exists (set_heap (alter (set_memory r) self_state (heap e2)) e2). split; [|split; [done|]].
  - cbn [_execute_current_op get_behavior_for_opcode special is_special handlers Pcode.opcode].
    unfold _execute_store. rewrite (input_ok _ _ v0), (input_ok _ _ v1) by by rewrite Hin.
    rewrite (step_ok _ _ _ _ _ E1), (input_ok _ _ v2) by by rewrite Hin. rewrite (step_ok _ _ _ _ _ E2), Hram.
    rewrite (on_memory_run _ s) by done. rewrite store_expr. cbn [BVV.value]. by rewrite E.
  - split; [|split; [intros k; by rewrite Vr|apply St]]. intros k. rewrite Vm, Hr. unfold overwrite.
    assert (contents (memory s) k = memory_of e k) as -> by (rewrite <-Sm; unfold memory_of; by rewrite Es). done.
Qed.
End Ops.

(** ** On the sample machine *)

Lemma sample_alive : alive sample_engine.
Proof. by eexists. Qed.

Lemma sample_writable v a n :
  (region_of sample_project v = Register a ∨ region_of sample_project v = Ram a) → vsize v = n →
  1 ≤ n → 0 ≤ a → a + n ≤ 2 ^ 64 → writable sample_project v.
Proof. intros [E|E] <- ? ? ?; (split; [done|]); rewrite E; by split. Qed.

Lemma sample_readable v : writable sample_project v → readable sample_project sample_engine v.
Proof. intros Hv. split; [by left|]. by intros. Qed.

Lemma sample_constant v n : 1 ≤ n → readable sample_project sample_engine (constant v n).
Proof. intros. split; [by right|]. by intros. Qed.

Lemma sample_register name a n :
  _map_register_name sample_project (register name n) = a → 1 ≤ n → 0 ≤ a → a + n ≤ 2 ^ 64 →
  writable sample_project (register name n).
Proof. intros E ? ? ?. apply (sample_writable _ a n); try done. left. cbn. by rewrite E. Qed.

Lemma varnode_roundtrip_witness :
  ∃ e', _set_value sample_project (register "r1" 4) (vec 0x1FFFFFFFF 40) sample_engine = (e', Ok tt) ∧
    (∃ e'', _get_value sample_project (register "r1" 4) e' = (e'', Ok (vec 0xFFFFFFFF 32))) ∧
    (∀ u, ¬ overlaps sample_project (register "r1" 4) u →
      read sample_project false true e' u = read sample_project false true sample_engine u).
Proof.
  apply (varnode_roundtrip sample_project false true eq_refl eq_refl sample_engine (register "r1" 4) 0x1FFFFFFFF 40).
  - apply sample_alive.
  - by apply (sample_register "r1" 4 4).
  - done.
Defined.

Lemma binary_op_exact_witness :
  ∃ e', _execute_current_op sample_project INT_ADD
      (mkPcodeOp (Code INT_ADD) [register "r0" 4; register "r1" 4] (Some (register "r0" 4))) sample_engine = (e', Ok tt) ∧
    assigns sample_project false true (register "r0" 4) 513 sample_engine e'.
Proof.
  apply (binary_op_exact sample_project false true eq_refl eq_refl INT_ADD _ sample_engine
    (register "r0" 4) (register "r1" 4) (register "r0" 4) 513 32); try done.
  - apply sample_alive.
  - by apply sample_readable, (sample_register "r0" 0 4).
  - by apply sample_readable, (sample_register "r1" 4 4).
Defined.

Lemma unary_op_exact_witness :
  ∃ e', _execute_current_op sample_project INT_SEXT
      (mkPcodeOp (Code INT_SEXT) [register "r1" 1] (Some (unique 0x80 4))) sample_engine = (e', Ok tt) ∧
    assigns sample_project false true (unique 0x80 4) 0xFFFFFFFA sample_engine e'.
Proof.
  apply (unary_op_exact sample_project false true eq_refl eq_refl INT_SEXT _ sample_engine (register "r1" 1)
    (unique 0x80 4) 0xFFFFFFFA 32); try done.
  - apply sample_alive.
  - by apply sample_readable, (sample_register "r1" 4 1).
Defined.

Lemma load_op_exact_witness :
  ∃ e', _execute_current_op sample_project LOAD
      (mkPcodeOp (Code LOAD) [space_id "ram"; constant 0x1000 8] (Some (register "r0" 2))) sample_engine = (e', Ok tt) ∧
    assigns sample_project false true (register "r0" 2) 0xABCD sample_engine e'.
Proof.
  replace 0xABCD with (word_at true (memory_of sample_engine) (read sample_project false true sample_engine (constant 0x1000 8)) 2)
    by (vm_compute; reflexivity).
  apply (load_op_exact sample_project false true eq_refl eq_refl _ sample_engine (space_id "ram") (constant 0x1000 8)); try done.
  - apply sample_alive.
  - by apply sample_constant.
Defined.

Lemma store_op_exact_witness :
  ∃ e', _execute_current_op sample_project STORE
      (mkPcodeOp (Code STORE) [space_id "ram"; constant 0x2000 8; register "r1" 2] None) sample_engine = (e', Ok tt) ∧
    alive e' ∧ (∀ k, memory_of e' k = overwrite (memory_of sample_engine) 0x2000 [1; 250] k) ∧
    (∀ k, registers_of e' k = registers_of sample_engine k) ∧ (∀ a, temporary e' a = temporary sample_engine a).
Proof.
  replace [1; 250] with (word_bytes true 2 (read sample_project false true sample_engine (register "r1" 2)))
    by (vm_compute; reflexivity).
  apply (store_op_exact sample_project false true eq_refl eq_refl _ sample_engine (space_id "ram") (constant 0x2000 8)
    (register "r1" 2)); try done.
  - apply sample_alive.
  - by apply sample_constant.
  - by apply sample_readable, (sample_register "r1" 4 2).
Defined.
End EmulateOps.
