(* ===== verification/EmulateExits.v ===== *)
(** * Exits of the emulator

    The two exits of a conditional branch, the fall-through exit of a block
    without branches, the branches inside a block, which the emulator records
    but cannot resume, and the opcodes it has no handler for. *)

From Stdlib Require Import ZArith Lia Bool String.
From stdpp Require Import base tactics list numbers strings gmap.
From S2P Require Import Prelude Bvv Pcode Clemory Emulate EmulateStorage EmulateFacts EmulateOps.
#[local] Open Scope string_scope.
#[local] Open Scope Z_scope.
#[local] Open Scope list_scope.

Module EmulateExits.
Import Bvv.BVV(Num, __ne__, __eq__) Pcode.Pcode Clemory.Clemory(_byteorder)
  Emulate.Emulate EmulateStorage.EmulateStorage EmulateFacts.EmulateFacts EmulateOps.EmulateOps.

Lemma alter_insert {A} (f : A → A) n (l : list A) x : l !! n = Some x → alter f n l = <[n := f x]> l.
Proof.
  intros Hx. apply list_eq. intros i. rewrite list_lookup_alter. case_decide as Hn.
  - subst i. rewrite Hx, list_lookup_insert_eq; [done|by eapply lookup_lt_Some].
  - by rewrite list_lookup_insert_ne.
Qed.

Lemma compare_zero x w : vwf w x → __ne__ (vec x w) (Num 0) = Ok (negb (x =? 0)) ∧ __eq__ (vec x w) (Num 0) = Ok (x =? 0).
Proof.
  intros [Hw Hx]. pose proof (pow2_pos w ltac:(lia)). unfold __ne__, __eq__, BVV.normalizer.
  cbn [BVV.normalize_types BVV.bits]. rewrite BVV.new_spec, Z.mod_0_l by lia. cbn [mbind result_bind].
  rewrite !compare_bits_0_length_eq by done. done.
Qed.

Section Exits.
Context {R : Type} `{StorageLaws R} (project : Project (R:=R)) (reg_big mem_big : bool).
Context (Hreg : _byteorder (register_endness project) = Ok reg_big)
        (Hmem : _byteorder (memory_endness project) = Ok mem_big).
(** Setting the instruction pointer succeeds. *)
Context (Hip : ∀ t r, ∃ r', set_ip project t r = (r', Ok tt)).

(** ** Adding a successor *)

Lemma update_run n (f : SimState (R:=R) → SimState) e : update n f e = (set_heap (alter f n (heap e)) e, Ok tt).
Proof. done. Qed.

(** The state as [add_successor] leaves it, with registers [r]. *)
Definition exited (t : expr) (c : bool) (kind : string) (a : option Z) (r : R) (s : SimState) : SimState :=
  set_registers r (add_constraints c (set_exit t c kind a s)).

(** Where it is filed. *)
Definition reachable (c : bool) (s : SimState (R:=R)) : bool := c && (lazy_solves project || satisfiable s).

Definition filed (n : nat) (b : bool) (h : list (SimState (R:=R))) (e : engine (R:=R)) : engine (R:=R) :=
  mkEngine h (all_successors e ++ [n]) (flat_successors e ++ (if b then [n] else []))
    (unsat_successors e ++ (if b then [] else [n])) (_pcode_tmps e) (_current_op_idx e).

Lemma add_successor_runs e n s t c kind a :
  heap e !! n = Some s →
  ∃ r, add_successor project n t c kind a e =
    (filed n (reachable c s) (<[n := exited t c kind a r s]> (heap e)) e, Ok tt).
Proof.
  intros Hs. destruct (Hip t (registers s)) as [r Er]. exists r.
  assert (∀ x : SimState, <[n := x]> (heap e) !! n = Some x) as Hl
    by (intros x; apply list_lookup_insert_eq; by eapply lookup_lt_Some).
  assert (∀ (f : SimState → SimState) x, alter f n (<[n := x]> (heap e)) = <[n := f x]> (heap e)) as Ha
    by (intros f x; by rewrite (alter_insert f n _ x), list_insert_insert_eq).
  unfold add_successor.
  rewrite (step_ok _ _ _ (set_heap (<[n := set_exit t c kind a s]> (heap e)) e) tt)
    by by rewrite update_run, (alter_insert _ _ _ s).
  rewrite (step_ok _ _ _ (set_heap (<[n := add_constraints c (set_exit t c kind a s)]> (heap e)) e) tt)
    by (rewrite update_run; cbn [set_heap heap]; by rewrite Ha).
  rewrite (step_ok _ _ _ (set_heap (<[n := exited t c kind a r s]> (heap e)) e) tt).
  2:{ erewrite on_registers_run by apply Hl. cbn [add_constraints set_exit registers set_heap heap].
      rewrite Er, Ha. done. }
  unfold _categorize_successor. rewrite (step_ok _ _ _ _ tt) by done. rewrite (state_ok n (exited t c kind a r s)) by apply Hl.
  unfold filed, reachable, exited, satisfiable. cbn [guard set_registers add_constraints set_exit constraints].
  rewrite forallb_app. cbn [forallb id]. rewrite andb_true_r. cbn [set_heap all_successors flat_successors unsat_successors].
  destruct c; cbn [negb orb andb]; [|by rewrite app_nil_r]. rewrite andb_true_r.
  destruct (lazy_solves project); cbn [negb orb andb]; [by rewrite app_nil_r|].
  destruct (forallb id (constraints s)); cbn [negb]; by rewrite ?app_nil_r.
Qed.

(** ** Conditional branches *)

(** Reading the condition after the state was copied. *)
Lemma read_condition e s c :
  heap e !! self_state = Some s → readable project e c →
  ∃ e2 s2, _get_value project c (set_heap (heap e ++ [copy s]) e) = (e2, Ok (vec (read project reg_big mem_big e c) (8 * vsize c))) ∧
    heap e2 !! self_state = Some s2 ∧ heap e2 !! length (heap e) = Some (copy s) ∧ control s2 = control s ∧
    all_successors e2 = all_successors e ∧ flat_successors e2 = flat_successors e ∧ unsat_successors e2 = unsat_successors e.
Proof.
  intros Hs Hc. set (e1 := set_heap (heap e ++ [copy s]) e).
  assert (heap e1 !! self_state = Some s) as H1 by (apply lookup_app_l_Some, Hs).
  assert (read project reg_big mem_big e1 c = read project reg_big mem_big e c) as <-.
  { apply same_views_read. split_and!; try done; intros k; unfold registers_of, memory_of; by rewrite H1, Hs. }
  destruct (get_value_run project reg_big mem_big Hreg Hmem e1 c) as (e2 & E & [s2 H2] & _); [by eexists|done|].
  pose proof (quiet_get_value project c e1) as (Q1 & Q2 & Q3 & _ & Q5 & Q6). rewrite E in *. cbn [fst] in *.
  exists e2, s2. split; [done|]. split; [done|]. split; [|split; [|done]].
  - destruct (heap e) as [|s0 h] eqn:Eh; [done|].
    destruct (heap e2) as [|s2' h2]; [done|]. cbn [e1 set_heap heap tail app length] in *. subst h2.
    exact (list_lookup_middle h [] (copy s) _ eq_refl).
  - assert (control <$> heap e2 !! self_state = control <$> heap e1 !! self_state) as Ec by by rewrite <-!list_lookup_fmap, Q5.
    rewrite H1, H2 in Ec. cbn in Ec. congruence.
Qed.

(** C30: Over concrete values, storage that obeys [StorageLaws] and an instruction
    pointer that can always be set: CBRANCH to an address (not to an operation of
    the block) on a readable condition adds one successor, a copy of the state at
    that address with the condition [taken] for its guard and its last
    constraint; the state itself goes on with the negation conjoined to its guard
    and its constraints.  As the condition is a number, the successor is
    satisfiable when the state was and the branch is taken, and the state stays
    satisfiable when it was and the branch is not taken. *)
Theorem cbranch_exits op e s dest c :
  heap e !! self_state = Some s → inputs op = [dest; c] → space dest ≠ "const" → readable project e c →
  let taken := negb (read project reg_big mem_big e c =? 0) in
  let n := length (heap e) in
  ∃ e' s' x, _execute_current_op project CBRANCH op e = (e', Ok tt) ∧
    heap e' !! self_state = Some s' ∧ heap e' !! n = Some x ∧
    target x = Some (Addr (offset dest)) ∧ guard x = taken ∧ history_jumpkind x = Some "Ijk_Boring" ∧
    guard s' = guard s && negb taken ∧ exit_handled s' = exit_handled s ∧
    satisfiable x = satisfiable s && taken ∧ satisfiable s' = satisfiable s && negb taken ∧
    all_successors e' = all_successors e ++ [n] ∧
    flat_successors e' = flat_successors e ++ (if reachable taken s then [n] else []) ∧
    unsat_successors e' = unsat_successors e ++ (if reachable taken s then [] else [n]).
Proof.
  intros Hs Hin Hd Hc taken n. destruct (read_condition e s c Hs Hc) as (e2 & s2 & E2 & H2 & Hx & Hctl & A2 & F2 & U2).
  pose proof (readable_range project reg_big mem_big e c (ex_intro _ s Hs) Hc) as Hr.
  destruct (compare_zero _ _ Hr) as [Ene Eeq]. fold taken in Ene.
  assert (n ≠ self_state) as Hn by (apply lookup_lt_Some in Hs; unfold n, self_state in *; lia).
  injection Hctl as Kc Ki Ko Kg Kh _ _ _.
  destruct (add_successor_runs e2 n (copy s) (Addr (offset dest)) taken "Ijk_Boring" (ins_addr s2) Hx) as [r E3].
  set (x := exited (Addr (offset dest)) taken "Ijk_Boring" (ins_addr s2) r (copy s)) in *.
  set (e3 := filed n _ _ e2) in *. set (s' := set_guard (guard s2 && negb taken) (add_constraints (negb taken) s2)).
  assert (heap e3 !! self_state = Some s2) as H3 by (cbn [e3 filed heap]; by rewrite list_lookup_insert_ne).
  exists (set_heap (<[self_state := s']> (heap e3)) e3), s', x. split_and!.
  - cbn [_execute_current_op get_behavior_for_opcode special is_special handlers Pcode.opcode]. unfold _execute_cbranch.
    rewrite (step_ok _ _ _ (set_heap (heap e ++ [copy s]) e) n) by (unfold copy_state; rewrite (state_ok _ s) by done; done).
    rewrite (input_ok _ _ c) by by rewrite Hin. rewrite (step_ok _ _ _ _ _ E2), (input_ok _ _ dest) by by rewrite Hin.
    rewrite (step_ok _ _ e2 e2 (Addr (offset dest))) by (unfold destination; by destruct (String.eqb_spec (space dest) "const")).
    rewrite (lift_ok _ _ _ _ Ene), (state_ok _ s2), (step_ok _ _ _ _ _ E3), (lift_ok _ _ _ _ Eeq) by done.
    rewrite (step_ok _ _ _ (set_heap (<[self_state := add_constraints (negb taken) s2]> (heap e3)) e3) tt).
    2:{ rewrite update_run, (alter_insert _ _ _ s2) by done. unfold taken. by rewrite negb_involutive. }
    assert (∀ y : SimState, <[self_state := y]> (heap e3) !! self_state = Some y) as Hl
      by (intros y; apply list_lookup_insert_eq; by eapply lookup_lt_Some).
    erewrite state_ok by apply Hl. rewrite update_run. cbn [set_heap heap].
    rewrite (alter_insert _ _ _ _ (Hl _)), list_insert_insert_eq. unfold s', taken. by rewrite negb_involutive.
  - cbn [set_heap heap]. apply list_lookup_insert_eq. by eapply lookup_lt_Some.
  - cbn [set_heap heap]. rewrite list_lookup_insert_ne by done. cbn [e3 filed heap].
    apply list_lookup_insert_eq. by eapply lookup_lt_Some.
  - done.
  - done.
  - done.
  - cbn. by rewrite Kg.
  - done.
  - unfold satisfiable, x. cbn. rewrite forallb_app. cbn. by rewrite andb_true_r.
  - unfold satisfiable, s'. cbn. rewrite forallb_app, Kc. cbn. by rewrite andb_true_r.
  - cbn. by rewrite A2.
  - cbn. by rewrite F2.
  - cbn. by rewrite U2.
Qed.

(** ** Blocks without branches *)

Definition straight (op : PcodeOp) : Prop :=
  match op_opcode op with IMARK => True | Code o => o ∉ exits end.

(** The end of the last instruction of a block that starts at [a]. *)
Definition next_addr (a : Z) (op : PcodeOp) : Z :=
  match op_opcode op, last (inputs op) with IMARK, Some v => offset v + vsize v | _, _ => a end.

(** Same lists, same other states, same constraints, guard and mark. *)
Definition steady (e e' : engine (R:=R)) : Prop :=
  all_successors e' = all_successors e ∧ flat_successors e' = flat_successors e ∧
  unsat_successors e' = unsat_successors e ∧ tail (heap e') = tail (heap e) ∧
  (λ s, (constraints s, guard s, exit_handled s)) <$> heap e' = (λ s, (constraints s, guard s, exit_handled s)) <$> heap e.

#[local] Instance steady_preorder : PreOrder steady.
Proof.
  split; [by intros e; split_and!|]. intros a b c (? & ? & ? & ? & ?) (? & ? & ? & ? & ?).
  split_and!; etransitivity; eassumption.
Qed.

Lemma quiet_steady e e' : quiet e e' → steady e e'.
Proof.
  intros (? & ? & ? & _ & Hc & ?). split_and!; try done.
  apply (f_equal (fmap (M:=list) (λ '(cs, _, _, g, h, _, _, _), (cs, g, h)))) in Hc. rewrite <-!list_fmap_compose in Hc. exact Hc.
Qed.

Lemma steady_update f : (∀ s, (constraints (f s), guard (f s), exit_handled (f s)) = (constraints s, guard s, exit_handled s)) →
  keeps steady (update (R:=R) self_state f).
Proof.
  intros Hf e. rewrite update_run. split_and!; try done; cbn [fst set_heap heap]; destruct (heap e) as [|s l]; try done.
  cbn. by rewrite Hf.
Qed.

Lemma step_straight i op l e e' l' :
  straight op → block_step project i op l e = (e', Ok l') → steady e e' ∧ fallthru_addr l' = next_addr (fallthru_addr l) op.
Proof.
  unfold straight, block_step, next_addr. intros Hs E. destruct (op_opcode op) as [|o].
  - apply bind_run in E as (e1 & v & E1 & E). unfold input in E1. destruct (inputs op !! 0%nat) as [v0|]; [|discriminate].
    injection E1 as <- ->. apply bind_run in E as (e2 & [] & E2 & E). injection E2 as <-.
    apply bind_run in E as (e3 & [] & E3 & E). apply bind_run in E as (e4 & w & E4 & E). unfold last_input in E4.
    destruct (last (inputs op)); [|discriminate]. injection E4 as <- <-. injection E as <- <-. split; [|done].
    transitivity (set_tmps ∅ e); [by split_and!|].
    pose proof (steady_update (set_ins_addr (offset v)) ltac:(done) (set_tmps ∅ e)) as Hk. by rewrite E3 in Hk.
  - apply bind_run in E as (e1 & [] & E1 & E). injection E1 as <-. apply bind_run in E as (e2 & [] & E2 & E).
    injection E as <- <-. split; [|done]. pose proof (quiet_data project o op Hs (set_current_op_idx (i - last_imark_op_idx l) e)) as Hq.
    rewrite E2 in Hq. apply quiet_steady in Hq as (? & ? & ? & ? & ?). by split_and!.
Qed.

Lemma loop_straight ops : ∀ i l e e' l',
  Forall straight ops → block_loop project i ops l e = (e', Ok l') →
  steady e e' ∧ fallthru_addr l' = fold_left next_addr ops (fallthru_addr l).
Proof.
  induction ops as [|op ops IH]; intros i l e e' l' Hf E; cbn [block_loop] in E; [by injection E as <- <-|].
  apply Forall_cons_1 in Hf as [Hop Hf]. apply bind_run in E as (e1 & l1 & E1 & E).
  destruct (step_straight _ _ _ _ _ _ Hop E1) as [S1 A1]. destruct (IH _ _ _ _ _ Hf E) as [S2 A2].
  split; [by etransitivity|]. by rewrite A2, A1.
Qed.

(** A block without branches that runs to its end has one exit, the state
    itself: it goes to the end of the last instruction under the guard it had. *)
Theorem straight_block_falls_through irsb e e' s :
  heap e !! self_state = Some s → Forall straight (_ops irsb) →
  handle_pcode_block project irsb e = (e', Ok tt) →
  all_successors e' = all_successors e ++ [self_state] ∧ tail (heap e') = tail (heap e) ∧
  flat_successors e' = flat_successors e ++ (if reachable (guard s) s then [self_state] else []) ∧
  ∃ s', heap e' !! self_state = Some s' ∧ target s' = Some (Addr (fold_left next_addr (_ops irsb) (addr irsb))) ∧
    history_jumpkind s' = Some (jumpkind irsb) ∧ guard s' = guard s ∧ constraints s' = constraints s ++ [guard s].
Proof.
  intros Hs Hops E. destruct e as [[|s0 h] la lf lu tm ix]; [done|]. injection Hs as ->. unfold handle_pcode_block in E.
  apply bind_run in E as (e1 & [] & E1 & E). injection E1 as <-. apply bind_run in E as (e2 & [] & E2 & E). injection E2 as <-.
  apply bind_run in E as (e3 & [] & E3 & E). injection E3 as <-. apply bind_run in E as (e4 & s4 & E4 & E). injection E4 as <- <-.
  apply bind_run in E as (e5 & [] & E5 & E). injection E5 as <-. apply bind_run in E as (e6 & [] & E6 & E). injection E6 as <- _.
  apply bind_run in E as (e7 & l & E7 & E). destruct (loop_straight _ _ _ _ _ _ Hops E7) as [(A & F & U & T & K) Ha].
  destruct e7 as [[|s7 h7] la7 lf7 lu7 tm7 ix7]; [done|]. cbn in A, F, U, T, K. subst. injection K as Kc Kg Kh.
  rewrite (state_ok _ s7) in E by done. rewrite Kh in E. cbn [from_option id negb] in E.
  destruct (add_successor_runs _ self_state s7 (Addr (fallthru_addr l)) (guard s7) (jumpkind irsb) (ins_addr s7)
    (eq_refl : heap (mkEngine (s7 :: h) la lf lu tm7 ix7) !! self_state = Some s7)) as [r Er].
  rewrite Er in E. injection E as <-. cbn [fallthru_addr] in Ha. rewrite Ha.
  assert (reachable (guard s7) s7 = reachable (guard s) s) as <- by (unfold reachable, satisfiable; by rewrite Kc, Kg).
  split_and!; try done. eexists. split; [done|]. cbn. by rewrite Kc, Kg.
Qed.

(** ** Branches inside a block *)

(** A branch to an operation of the same block cannot be resumed: the successor
    is recorded at the same instruction with the offset of the operation in its
    scratch area, and running any block on a state with an offset other than
    zero fails the assertion, with the offset cleared. *)
Theorem relative_branch_not_resumed op e s dest a irsb :
  heap e !! self_state = Some s → ins_addr s = Some a → inputs op = [dest] → space dest = "const" →
  _current_op_idx e + offset dest ≠ 0 →
  ∃ e' s', _execute_current_op project BRANCH op e = (e', Ok tt) ∧ all_successors e' = all_successors e ++ [self_state] ∧
    heap e' !! self_state = Some s' ∧ target s' = Some (Addr a) ∧ statement_offset s' = _current_op_idx e + offset dest ∧
    ∃ e'' s'', handle_pcode_block project irsb e' = (e'', Err AssertionError) ∧
      heap e'' !! self_state = Some s'' ∧ statement_offset s'' = 0.
Proof.
  intros Hs Hi Hin Hd Hk. destruct e as [[|s0 h] la lf lu tm ix]; [done|]. injection Hs as ->. cbn [_current_op_idx] in *.
  set (s1 := set_statement_offset (ix + offset dest) s).
  destruct (add_successor_runs (mkEngine (s1 :: h) la lf lu tm ix) self_state s1 (Addr a) (guard s) "Ijk_Boring" (Some a) eq_refl) as [r Er].
  set (s2 := exited _ _ _ _ r s1) in *.
  eexists _, (set_exit_handled true s2). split; [|split; [|split; [|split; [|split]]]].
  - cbn [_execute_current_op get_behavior_for_opcode special is_special handlers Pcode.opcode]. unfold _execute_branch.
    rewrite (input_ok _ _ dest) by by rewrite Hin. unfold destination. rewrite Hd. cbn [String.eqb Ascii.eqb Bool.eqb].
    rewrite (step_ok _ _ _ (mkEngine (s1 :: h) la lf lu tm ix) (Addr a)).
    2:{ rewrite (state_ok _ s) by done. by rewrite Hi. }
    unfold exit_self. rewrite (state_ok _ s1) by done. cbn [s1 guard ins_addr set_statement_offset]. rewrite Hi.
    rewrite (step_ok _ _ _ _ _ Er). done.
  - done.
  - done.
  - done.
  - done.
  - eexists _, _. split; [|split].
    + unfold handle_pcode_block. rewrite (step_ok _ _ _ _ tt) by done. rewrite (step_ok _ _ _ _ tt) by done.
      rewrite (step_ok _ _ _ _ tt) by done. erewrite state_ok by done. rewrite (step_ok _ _ _ _ tt) by done.
      apply step_err. cbn. destruct (Z.eqb_spec (ix + offset dest) 0); done.
    + done.
    + done.
Qed.

(** ** Opcodes without an execution *)

(** The special opcodes that the table of handlers leaves out raise [KeyError],
    those with an empty handler raise [AngrError], and both before anything is
    read or written; every other special opcode has a handler. *)
Theorem special_without_execution o op e :
  is_special (get_behavior_for_opcode o) = true →
  (o ∈ [CAST; PTRADD; PTRSUB; INSERT; ZPULL; SPULL] →
    _execute_current_op project o op e = (e, Err (KeyError (opcode_value project o)))) ∧
  (o ∈ [CALLOTHER; MULTIEQUAL; INDIRECT; SEGMENTOP; CPOOLREF; NEW] →
    _execute_current_op project o op e = (e, Err AngrError)) ∧
  (o ∉ [CAST; PTRADD; PTRSUB; INSERT; ZPULL; SPULL] → is_Some (handlers project o)).
Proof.
  intros Hs. split_and!; intros Ho.
  1, 2: repeat (apply elem_of_cons in Ho as [->|Ho]); [done..|by apply elem_of_nil in Ho].
  destruct o; try discriminate; try (by eexists); exfalso; apply Ho; apply list_elem_of_In; cbn; tauto.
Qed.
End Exits.

(** ** On the sample machine *)

Lemma sample_ip t r : ∃ r', set_ip sample_project t r = (r', Ok tt).
Proof. by eexists. Qed.

Lemma cbranch_exits_witness :
  ∃ e' s' x, _execute_current_op sample_project CBRANCH
      (mkPcodeOp (Code CBRANCH) [ram "ram" 0x500 8; register "r1" 1] None) sample_engine = (e', Ok tt) ∧
    heap e' !! self_state = Some s' ∧ heap e' !! 1%nat = Some x ∧
    target x = Some (Addr 0x500) ∧ guard x = true ∧ history_jumpkind x = Some "Ijk_Boring" ∧
    guard s' = false ∧ exit_handled s' = None ∧ satisfiable x = true ∧ satisfiable s' = false ∧
    all_successors e' = [1%nat] ∧ flat_successors e' = [1%nat] ∧ unsat_successors e' = [].
Proof.
  assert (readable sample_project sample_engine (register "r1" 1)) as Hc by by apply sample_readable, (sample_register "r1" 4 1).
  pose proof (cbranch_exits sample_project false true eq_refl eq_refl sample_ip
    (mkPcodeOp (Code CBRANCH) [ram "ram" 0x500 8; register "r1" 1] None) sample_engine sample_state
    (ram "ram" 0x500 8) (register "r1" 1) eq_refl eq_refl ltac:(done) Hc) as Hx.
  assert (negb (read sample_project false true sample_engine (register "r1" 1) =? 0) = true) as E by (vm_compute; reflexivity).
  cbv zeta in Hx. rewrite E in Hx. exact Hx.
Defined.

Definition straight_block : IRSB :=
  mkIRSB 0x400
    [imark 0x400 4; mkPcodeOp (Code COPY) [constant 5 4] (Some (register "r1" 4));
     imark 0x404 2; mkPcodeOp (Code INT_ADD) [register "r0" 4; register "r1" 4] (Some (register "r0" 4))] "Ijk_Boring".

Lemma straight_block_falls_through_witness :
  let e' := (handle_pcode_block sample_project straight_block sample_engine).1 in
  all_successors e' = [0%nat] ∧ tail (heap e') = [] ∧ flat_successors e' = [0%nat] ∧
  ∃ s', heap e' !! self_state = Some s' ∧ target s' = Some (Addr 0x406) ∧
    history_jumpkind s' = Some "Ijk_Boring" ∧ guard s' = true ∧ constraints s' = [true].
Proof.
  intros e'. apply (straight_block_falls_through sample_project sample_ip straight_block sample_engine e' sample_state).
  - done.
  - unfold straight_block. cbn [_ops]. repeat constructor; by apply (bool_decide_eq_true_1 _).
  - vm_compute. reflexivity.
Defined.

Lemma relative_branch_not_resumed_witness :
  ∃ e' s', _execute_current_op sample_project BRANCH (mkPcodeOp (Code BRANCH) [constant 3 8] None) sample_engine = (e', Ok tt) ∧
    all_successors e' = [0%nat] ∧ heap e' !! self_state = Some s' ∧ target s' = Some (Addr 0x400) ∧ statement_offset s' = 3 ∧
    ∃ e'' s'', handle_pcode_block sample_project straight_block e' = (e'', Err AssertionError) ∧
      heap e'' !! self_state = Some s'' ∧ statement_offset s'' = 0.
Proof.
  by apply (relative_branch_not_resumed sample_project sample_ip (mkPcodeOp (Code BRANCH) [constant 3 8] None) sample_engine
    sample_state (constant 3 8) 0x400 straight_block).
Defined.

Lemma special_without_execution_witness :
  _execute_current_op sample_project PTRADD (mkPcodeOp (Code PTRADD) [] None) sample_engine = (sample_engine, Err (KeyError 0)).
Proof.
  apply (special_without_execution sample_project PTRADD (mkPcodeOp (Code PTRADD) [] None) sample_engine); [done|].
  apply (bool_decide_eq_true_1 _). vm_compute. reflexivity.
Defined.

(** The recorded successor is the running state: an operation after an
    unconditional branch, which p-code never executes, changes the register the
    successor carries to the branch's target. *)
Lemma operation_after_branch_seen_by_successor :
  let block := mkIRSB 0x400
    [imark 0x400 4; mkPcodeOp (Code BRANCH) [ram "ram" 0x500 8] None;
     mkPcodeOp (Code COPY) [constant 99 4] (Some (register "r0" 4))] "Ijk_Boring" in
  let '(e, r) := handle_pcode_block sample_project block sample_engine in
  r = Ok tt ∧ flat_successors e = [0%nat] ∧
  (target <$> heap e) = [Some (Addr 0x500)] ∧ read sample_project false true e (register "r0" 4) = 99.
Proof. vm_compute. by split_and!. Qed.
End EmulateExits.
