(* ===== verification/Simplify.v ===== *)
(** * Simplification of expressions: [claripy/simplifications.py]

    An expression is a tree; claripy keeps one object per tree, so [is] is
    equality of trees.  An operation is built in three steps: the simplifier of
    its name is tried on the arguments, an operation without symbols is
    evaluated by the concrete backend, and otherwise a node is made.  The
    simplifiers build operations themselves: they take [build], the operation of
    building a node, as an argument, and [build] below ties the knot with a
    bound on the nesting.

    Expressions carry no annotations.  Operations the simplifiers do not know
    ([Other]: divisions, rotations, floating point, ...) are left alone. *)

From Stdlib Require Import ZArith Lia Bool String.
From stdpp Require Import base tactics list numbers strings.
From S2P Require Import Prelude Bvv Claripy.
#[local] Open Scope Z_scope.
#[local] Open Scope list_scope.

Module Simplify.

(** ** Expressions *)

Inductive unop := Invert | Neg | Not | Reverse.
Inductive binop := Sub | Lshift | Rshift | LShR | Eq | Ne | ULT | ULE | UGT | UGE | SLT | SLE | SGT | SGE.
Inductive naryop := Add | Mul | BAnd | BOr | BXor | And | Or | Concat.

(** [Other name w args]: the width, or [None] for a condition. *)
Inductive ast :=
  | BVS (name : string) (w : Z)
  | BVV (v w : Z)
  | BoolS (name : string)
  | BoolV (b : bool)
  | Un (o : unop) (x : ast)
  | Bin (o : binop) (x y : ast)
  | Nary (o : naryop) (xs : list ast)
  | Extract (high low : Z) (x : ast)
  | ZeroExt (n : Z) (x : ast)
  | SignExt (n : Z) (x : ast)
  | If (c t e : ast)
  | Other (name : string) (w : option Z) (xs : list ast).

#[export] Instance unop_eq_dec : EqDecision unop.
Proof. solve_decision. Defined.
#[export] Instance binop_eq_dec : EqDecision binop.
Proof. solve_decision. Defined.
#[export] Instance naryop_eq_dec : EqDecision naryop.
Proof. solve_decision. Defined.

#[export] Instance ast_eq_dec : EqDecision ast.
Proof.
  unfold EqDecision, Decision. fix go 1. intros x y.
  decide equality; solve [exact (decide_rel eq _ _) | refine (@list_eq_dec _ go _ _) | exact (go _ _)].
Defined.

(** [x is y]. *)
Definition same (x y : ast) : bool := bool_decide (x = y).

(** [x.length]. *)
Fixpoint size (t : ast) : Z :=
  match t with
  | BVS _ w | BVV _ w => w
  | BoolS _ | BoolV _ => 1
  | Un _ x => size x
  | Bin o x _ => match o with Sub | Lshift | Rshift | LShR => size x | _ => 1 end
  | Nary Concat xs => foldr (λ x n, size x + n) 0 xs
  | Nary _ xs => match xs with x :: _ => size x | [] => 1 end
  | Extract high low _ => high + 1 - low
  | ZeroExt n x | SignExt n x => size x + n
  | If _ t _ => size t
  | Other _ w _ => default 1 w
  end.

Fixpoint symbolic (t : ast) : bool :=
  match t with
  | BVS _ _ | BoolS _ => true
  | BVV _ _ | BoolV _ => false
  | Un _ x | Extract _ _ x | ZeroExt _ x | SignExt _ x => symbolic x
  | Bin _ x y => symbolic x || symbolic y
  | Nary _ xs | Other _ _ xs => existsb symbolic xs
  | If c t e => symbolic c || symbolic t || symbolic e
  end.

(** [claripy.BVV(v, w)], and an integer next to the expression [like]. *)
Definition bvv (v w : Z) : ast := BVV (v mod 2 ^ w) w.
Definition _from_int (like : ast) (v : Z) : ast := bvv v (if size like =? 0 then 64 else size like).

Definition is_BVV (t : ast) : bool := match t with BVV _ _ => true | _ => false end.
Definition is_BoolV (t : ast) : bool := match t with BoolV _ => true | _ => false end.
(** [isinstance(t, claripy.ast.Bool)]; a conditional has the class of its first branch. *)
Fixpoint is_Bool (t : ast) : bool :=
  match t with
  | BoolS _ | BoolV _ | Un Not _ | Nary (And | Or) _ | Other _ None _ => true
  | Bin o _ _ => match o with Sub | Lshift | Rshift | LShR => false | _ => true end
  | If _ x _ => is_Bool x
  | _ => false
  end.
Definition is_Nary (o : naryop) (t : ast) : bool := match t with Nary o' _ => bool_decide (o = o') | _ => false end.

(** ** The concrete backend *)

Inductive cvalue := CBv (v : Bvv.BVV.BVV) | CBool (b : bool).

Definition ok {A} (r : result A) : option A := match r with Ok a => Some a | Err _ => None end.

Definition bv2 (f : Bvv.BVV.BVV → Bvv.BVV.operand → result Bvv.BVV.BVV) (a b : cvalue) : option cvalue :=
  match a, b with CBv x, CBv y => CBv <$> ok (f x (Bvv.BVV.Bv y)) | _, _ => None end.
Definition cmp2 (f : Bvv.BVV.operand → Bvv.BVV.operand → result bool) (a b : cvalue) : option cvalue :=
  match a, b with CBv x, CBv y => CBool <$> ok (f (Bvv.BVV.Bv x) (Bvv.BVV.Bv y)) | _, _ => None end.
Definition bool2 (f : bool → bool → bool) (a b : cvalue) : option cvalue :=
  match a, b with CBool x, CBool y => Some (CBool (f x y)) | _, _ => None end.

Definition concrete_un (o : unop) (a : cvalue) : option cvalue :=
  match o, a with
  | Invert, CBv x => CBv <$> ok (Bvv.BVV.__invert__ x)
  | Neg, CBv x => CBv <$> ok (Bvv.BVV.__neg__ x)
  | Not, CBool b => Some (CBool (negb b))
  | Reverse, CBv x => CBv <$> ok (Bvv.BVV.Reverse x)
  | _, _ => None
  end.

Definition concrete_bin (o : binop) (a b : cvalue) : option cvalue :=
  match o, a, b with
  | Eq, CBool x, CBool y => Some (CBool (eqb x y))
  | Ne, CBool x, CBool y => Some (CBool (negb (eqb x y)))
  | Eq, CBv x, CBv y => CBool <$> ok (Bvv.BVV.__eq__ x (Bvv.BVV.Bv y))
  | Ne, CBv x, CBv y => CBool <$> ok (Bvv.BVV.__ne__ x (Bvv.BVV.Bv y))
  | Sub, _, _ => bv2 Bvv.BVV.__sub__ a b
  | Lshift, _, _ => bv2 Bvv.BVV.__lshift__ a b
  | Rshift, _, _ => bv2 Bvv.BVV.__rshift__ a b
  | LShR, CBv x, _ => bv2 (λ x y, Bvv.BVV.LShR (Bvv.BVV.Bv x) y) a b
  | ULT, _, _ => cmp2 Bvv.BVV.ULT a b
  | ULE, _, _ => cmp2 Bvv.BVV.ULE a b
  | UGT, _, _ => cmp2 Bvv.BVV.UGT a b
  | UGE, _, _ => cmp2 Bvv.BVV.UGE a b
  | SLT, _, _ => cmp2 Bvv.BVV.SLT a b
  | SLE, _, _ => cmp2 Bvv.BVV.SLE a b
  | SGT, _, _ => cmp2 Bvv.BVV.SGT a b
  | SGE, _, _ => cmp2 Bvv.BVV.SGE a b
  | _, _, _ => None
  end.

(** [reduce(operator, args)]. *)
Definition reduce (f : cvalue → cvalue → option cvalue) (l : list cvalue) : option cvalue :=
  match l with [] => None | a :: l => fold_left (λ r b, r ≫= λ a, f a b) l (Some a) end.

Definition concrete_nary (o : naryop) (l : list cvalue) : option cvalue :=
  match o with
  | Add => reduce (bv2 Bvv.BVV.__add__) l
  | Mul => reduce (bv2 Bvv.BVV.__mul__) l
  | BAnd => reduce (bv2 Bvv.BVV.__and__) l
  | BOr => reduce (bv2 Bvv.BVV.__or__) l
  | BXor => reduce (bv2 Bvv.BVV.__xor__) l
  | And => reduce (bool2 andb) l
  | Or => reduce (bool2 orb) l
  | Concat => l ← mapM (λ c, match c with CBv x => Some x | _ => None end) l; CBv <$> ok (Bvv.BVV.Concat l)
  end.

(** [backends.concrete.convert]. *)
Fixpoint concrete (t : ast) : option cvalue :=
  match t with
  | BVS _ _ | BoolS _ | Other _ _ _ => None
  | BVV v w => CBv <$> ok (Bvv.BVV.new v w)
  | BoolV b => Some (CBool b)
  | Un o x => x ← concrete x; concrete_un o x
  | Bin o x y => x ← concrete x; y ← concrete y; concrete_bin o x y
  | Nary o xs => l ← mapM concrete xs; concrete_nary o l
  | Extract high low x => x ← concrete x; match x with CBv x => CBv <$> ok (Bvv.BVV.Extract high low x) | _ => None end
  | ZeroExt n x => x ← concrete x; match x with CBv x => CBv <$> ok (Bvv.BVV.ZeroExt n x) | _ => None end
  | SignExt n x => x ← concrete x; match x with CBv x => CBv <$> ok (Bvv.BVV.SignExt n x) | _ => None end
  | If c t e => c ← concrete c; t ← concrete t; e ← concrete e; match c with CBool b => Some (if b then t else e) | _ => None end
  end.

Definition _abstract (c : cvalue) : ast :=
  match c with CBv x => BVV (Bvv.BVV.value x) (Bvv.BVV.bits x) | CBool b => BoolV b end.

(** [Base.__new__]: an operation without symbols is evaluated. *)
Definition new (t : ast) : ast :=
  if symbolic t then t else match concrete t with Some c => _abstract c | None => t end.

Definition handles (t : ast) : bool := match concrete t with Some _ => true | None => false end.

(** [claripy.is_true] and [claripy.is_false]. *)
Definition is_true (t : ast) : bool := match concrete t with Some (CBool b) => b | _ => false end.
Definition is_false (t : ast) : bool := match concrete t with Some (CBool b) => negb b | _ => false end.

(** ** The simplifiers *)

Section Simplifiers.
Context (build : ast → ast).

Definition eq_ (a b : ast) : ast := build (Bin Eq a b).
Definition ne_ (a b : ast) : ast := build (Bin Ne a b).
Definition gt_ (a b : ast) : ast := build (Bin UGT a b).
Definition not_ (a : ast) : ast := build (Un Not a).
Definition sub_ (a b : ast) : ast := build (Bin Sub a b).
Definition add_ (a b : ast) : ast := build (Nary Add [a; b]).
Definition and_ (a b : ast) : ast := build (Nary BAnd [a; b]).
Definition or_ (a b : ast) : ast := build (Nary BOr [a; b]).
Definition lshift (a b : ast) : ast := build (Bin Lshift a b).
Definition rshift (a b : ast) : ast := build (Bin Rshift a b).
Definition concat_ (xs : list ast) : ast := build (Nary Concat xs).
Definition reversed (a : ast) : ast := build (Un Reverse a).

(** [a[high:low]]. *)
Definition extract (high low : Z) (a : ast) : ast := build (Extract high low a).

(** [(a == n).is_true()] and the like. *)
Definition equals_int (a : ast) (n : Z) : bool := is_true (eq_ a (_from_int a n)).
Definition equals (a b : ast) : bool := is_true (eq_ a b).

(** [claripy.If], whose simplifications are inline: nested conditionals on the
    same condition are resolved, then equal branches and [If(c, True, False)]. *)
Fixpoint strip_true (c nc t : ast) : ast :=
  match t with
  | If c' x y => if same c' c then strip_true c nc x else if same c' nc then strip_true c nc y else t
  | _ => t
  end.

Fixpoint strip_false (c nc e : ast) : ast :=
  match e with
  | If c' x y => if same c' c then strip_false c nc y else if same c' nc then strip_false c nc x else e
  | _ => e
  end.

Definition If_ (c t e : ast) : ast :=
  if is_true c then t
  else if is_false c then e
  else
    let nc := not_ c in
    let t := strip_true c nc t in
    let e := strip_false c nc e in
    if same t e then t
    else if same t (BoolV true) && same e (BoolV false) then c
    else if same t (BoolV false) && same e (BoolV true) then nc
    else new (If c t e).

(** [_deduplicate_filter]. *)
Fixpoint deduplicate (seen args : list ast) : list ast :=
  match args with
  | [] => []
  | arg :: args => if bool_decide (arg ∈ seen) then deduplicate seen args else arg :: deduplicate (arg :: seen) args
  end.

Definition _deduplicate_filter : list ast → list ast := deduplicate [].

(** [_flatten_simplifier]: [initial] is [initial_value]. *)
Definition _flatten_simplifier (o : naryop) (filter_func : list ast → list ast) (initial : option ast) (args : list ast)
  : option ast :=
  let new_args := args ≫= λ a,
    match a with Nary o' xs => if bool_decide (o' = o) && (length xs <? 1000)%nat then xs else [a] | _ => [a] end in
  let value_args := List.filter is_BVV new_args in
  let other_args := List.filter (λ a, negb (is_BVV a)) new_args in
  let new_args :=
    if negb (Nat.eqb (length other_args) 0) && (1 <? length value_args)%nat
    then other_args ++ [new (Nary o value_args)] else new_args in
  let new_args := filter_func new_args in
  match new_args, initial with
  | [], Some v => Some v
  | [x], _ => Some x
  | _, _ => Some (new (Nary o new_args))
  end.

Definition concat_step (previous current : ast) : option ast :=
  if negb (symbolic previous || symbolic current) && handles previous && handles current then
    let concatted := concat_ [previous; current] in
    if is_Nary Concat concatted then None else Some concatted
  else None.

(** Consecutive concrete arguments are concatenated. *)
Fixpoint merge_concrete (previous : ast) (args : list ast) : list ast :=
  match args with
  | [] => [previous]
  | current :: args =>
      match concat_step previous current with
      | Some concatted => merge_concrete concatted args
      | None => previous :: merge_concrete current args
      end
  end.

(** Nested concatenations are opened and empty arguments dropped. *)
Fixpoint flatten_concat (args : list ast) : list ast * bool :=
  match args with
  | [] => ([], false)
  | current :: args =>
      let '(rest, simplified) := flatten_concat args in
      if size current =? 0 then (rest, true)
      else match current with
           | Nary Concat xs => (xs ++ rest, true)
           | _ => (current :: rest, simplified)
           end
  end.

(** Consecutive parts of one expression are joined; [done] is what precedes
    the arguments, last first, and [prev] the part its head stands for. *)
Fixpoint consolidate (done : list ast) (prev : option (ast * Z * Z)) (args : list ast) : list ast * bool :=
  match args with
  | [] => (rev done, false)
  | Extract high low x as current :: args =>
      match prev, done with
      | Some (prev_var, prev_left, prev_right), _ :: done' =>
          if same prev_var x && (prev_right =? high + 1) then
            let '(l, _) := consolidate (extract prev_left low prev_var :: done') (Some (prev_var, prev_left, low)) args in
            (l, true)
          else consolidate (current :: done) (Some (x, high, low)) args
      | _, _ => consolidate (current :: done) (Some (x, high, low)) args
      end
  | current :: args => consolidate (current :: done) None args
  end.

Definition concat_simplifier (args : list ast) : option ast :=
  match args with
  | [a] => Some a
  | [] => None
  | a :: rest =>
      let merged := if existsb symbolic args then merge_concrete a rest else args in
      let '(flattened, simplified1) := flatten_concat merged in
      let '(consolidated, simplified2) := consolidate [] None flattened in
      if (length merged <? length args)%nat || simplified1 || simplified2 then Some (concat_ consolidated) else None
  end.

(** [shift > val.size() - n]. *)
Definition shifts_out (shift val : ast) (n : Z) : bool := is_true (gt_ shift (_from_int shift (size val - n))).

Definition rshift_simplifier (val shift : ast) : option ast :=
  if equals_int shift 0 then Some val
  else
    match val with
    | Nary Concat (x :: _) =>
        if equals_int x 0 && shifts_out shift val (size x) then Some (bvv 0 (size val)) else None
    | ZeroExt n _ => if shifts_out shift val n then Some (bvv 0 (size val)) else None
    | _ => None
    end.

Definition lshr_simplifier (val shift : ast) : option ast := rshift_simplifier val shift.

Definition lshift_simplifier (val shift : ast) : option ast :=
  if equals_int shift 0 then Some val
  else
    match val with
    | Bin Lshift real_val inner_shift => Some (lshift real_val (add_ inner_shift shift))
    | _ => None
    end.

(** ** Comparisons

    [op] is [operator.__eq__], [__ne__] or [__ge__], as the operation on
    vectors. *)

Definition compare_ (o : binop) (a b : ast) : ast := build (Bin o a b).

(** The number of zero bits above the highest set bit of the [w]-bit [v], as
    the loop on [v] counts it, and whether all the bits it saw were zero. *)
Fixpoint mask_bits (fuel : nat) (v zero_bits : Z) (mask_allones : bool) : Z * bool :=
  match fuel with
  | O => (zero_bits, mask_allones)
  | S fuel =>
      if v =? 0 then (zero_bits, mask_allones)
      else mask_bits fuel (Z.shiftr v 1) (zero_bits - 1) (mask_allones && (Z.land v 1 =? 0))
  end.

Definition and_mask_comparing_against_constant_simplifier (o : binop) (a b : ast) : option ast :=
  match a, b with
  | Nary BAnd [a_arg0; BVV v w], BVV _ _ =>
      let '(zero_bits, mask_allones) := mask_bits (S (Z.to_nat (Z.log2 v))) v w true in
      if 0 <? zero_bits then
        let b_higher := extract (size b - 1) (size b - zero_bits) b in
        let is_zero := eq_ b_higher (_from_int b_higher 0) in
        if is_true is_zero then
          if zero_bits =? size b then Some (compare_ o (bvv 0 (size b)) b)
          else
            let b_highbit_idx := size b - 1 - zero_bits in
            let b_highbit_idx :=
              if (size b mod 8 =? 0) && negb ((b_highbit_idx + 1) mod 8 =? 0)
              then b_highbit_idx + (8 - (b_highbit_idx + 1) mod 8) else b_highbit_idx in
            let b_lower := extract b_highbit_idx 0 b in
            let a_lower := extract b_highbit_idx 0 a_arg0 in
            if mask_allones then Some (compare_ o a_lower b_lower)
            else if b_highbit_idx =? size b - 1 then None
            else Some (compare_ o (and_ a_lower (_from_int a_lower v)) b_lower)
        else if is_false is_zero then Some (BoolV (negb (bool_decide (o = Eq))))
        else None
      else None
  | _, _ => None
  end.

(** [ZeroExt(n, x)] or [Concat(0, x)], as [n] and [x]. *)
Definition zero_extended (a : ast) : option (Z * ast) :=
  match a with
  | ZeroExt n x => Some (n, x)
  | Nary Concat [BVV v w; x] => if v =? 0 then Some (w, x) else None
  | _ => None
  end.

Definition zeroext_extract_comparing_against_constant_simplifier (o : binop) (a b : ast) : option ast :=
  match a with
  | Extract a_hi 0 a_arg =>
      match zero_extended a_arg with
      | Some (n, x) =>
          if size a_arg - a_hi <=? n then
            let to_extend := size b - size x in
            if to_extend =? 0 then Some (compare_ o x b) else Some (compare_ o (build (ZeroExt to_extend x)) b)
          else None
      | None => None
      end
  | _ => None
  end.

Definition zeroext_comparing_against_simplifier (o : binop) (a b : ast) : option ast :=
  match zero_extended a, b with
  | Some (n, x), BVV _ _ =>
      let b_highbits := extract (size b - 1) (size b - n) b in
      let is_zero := eq_ b_highbits (_from_int b_highbits 0) in
      if is_true is_zero then Some (compare_ o x (extract (size b - n - 1) 0 b))
      else if is_false is_zero then Some (BoolV (bool_decide (o = Ne)))
      else None
  | _, _ => None
  end.

(** The loop over the bits of two expressions; [found] tells whether two
    concrete bits differ, before the first symbolic one. *)
Fixpoint bits_differ (n : nat) (i : Z) (a b : ast) : bool :=
  match n with
  | O => false
  | S n =>
      let a_bit := extract i i a in
      if symbolic a_bit then false
      else
        let b_bit := extract i i b in
        if symbolic b_bit then false
        else if is_false (eq_ a_bit b_bit) then true
        else bits_differ n (i + 1) a b
  end.

(** The same with [a_bit != b_bit]. *)
Fixpoint bits_differ_ne (n : nat) (i : Z) (a b : ast) : bool :=
  match n with
  | O => false
  | S n =>
      let a_bit := extract i i a in
      if symbolic a_bit then false
      else
        let b_bit := extract i i b in
        if symbolic b_bit then false
        else if is_true (ne_ a_bit b_bit) then true
        else bits_differ_ne n (i + 1) a b
  end.

Definition in_SIMPLE_OPS (t : ast) : bool :=
  match t with Nary Concat _ | SignExt _ _ | ZeroExt _ _ => true | _ => false end.

(** The first [Some]. *)
Definition orelse {A} (x : option A) (y : option A) : option A := match x with Some _ => x | None => y end.

(** [expr ^ 1] and [(expr & m) ^ m] compared with zero. *)
Definition xor_with_zero (o : binop) (a b : ast) : option ast :=
  let o' := if bool_decide (o = Eq) then Ne else Eq in
  match a, b with
  | Nary BXor [a0; a1], BVV 0 _ =>
      let is_value n x := match x with BVV v _ => v =? n | _ => false end in
      if is_value 1 a1 then Some (compare_ o a0 (_from_int a0 1))
      else if is_value 1 a0 then Some (compare_ o a1 (_from_int a1 1))
      else
        match a1, a0 with
        | BVV m _, Nary BAnd (x :: y :: _) =>
            if is_value m y then Some (compare_ o' a0 (_from_int a0 0))
            else if is_value m x then let r := and_ y x in Some (compare_ o' r (_from_int r 0))
            else None
        | _, _ => None
        end
  | _, _ => None
  end.

(** A conditional [a] compared with one of its branches, [b]: the condition
    when [b] is [first], its negation when [b] is the other branch, provided the
    other branch differs from [d]. *)
Definition conditional (a b : ast) (first : ast * ast → ast) (d1 d2 : ast) : option ast :=
  match a with
  | If c x y =>
      let other := first (y, x) in
      if same (first (x, y)) b && is_true (ne_ other d1) then Some c
      else if same other b && is_true (ne_ (first (x, y)) d2) then Some (not_ c)
      else None
  | _ => None
  end.

Definition both_reversed (a b : ast) : option (ast * ast) :=
  match a, b with Un Reverse x, Un Reverse y => Some (x, y) | _, _ => None end.

Definition eq_simplifier (a b : ast) : option ast :=
  if same a b then Some (BoolV true)
  else if is_Bool a && same b (BoolV true) then Some a
  else if is_Bool b && same a (BoolV true) then Some b
  else if is_Bool a && same b (BoolV false) then Some (not_ a)
  else if is_Bool b && same a (BoolV false) then Some (not_ b)
  else
    match both_reversed a b with
    | Some (x, y) => Some (eq_ x y)
    | None =>
      if is_BVV a && negb (is_BVV b) then Some (eq_ b a)
      else
        orelse (match a, b with Bin Sub x (BVV _ _ as y), BVV _ _ => Some (eq_ x (add_ y b)) | _, _ => None end)
        (orelse (xor_with_zero Eq a b)
        (orelse (conditional a b fst b b)
        (orelse (conditional b a fst b a)
        (orelse (and_mask_comparing_against_constant_simplifier Eq a b)
        (orelse (zeroext_extract_comparing_against_constant_simplifier Eq a b)
        (orelse (zeroext_comparing_against_simplifier Eq a b)
          (if (in_SIMPLE_OPS a || in_SIMPLE_OPS b) && (1 <? size a) && (size a =? size b)
              && bits_differ (Z.to_nat (size a)) 0 a b
           then Some (BoolV false) else None)))))))
    end.

Definition ne_simplifier (a b : ast) : option ast :=
  if same a b then Some (BoolV false)
  else
    match both_reversed a b with
    | Some (x, y) => Some (ne_ x y)
    | None =>
      if is_BVV a && negb (is_BVV b) then Some (ne_ b a)
      else
        orelse (conditional a b snd b b)
        (orelse (conditional b a snd a a)
        (orelse (xor_with_zero Ne a b)
        (orelse (and_mask_comparing_against_constant_simplifier Ne a b)
        (orelse (zeroext_extract_comparing_against_constant_simplifier Ne a b)
        (orelse (zeroext_comparing_against_simplifier Ne a b)
          (if in_SIMPLE_OPS b && (1 <? size a) && (size a =? size b)
              && bits_differ_ne (Z.to_nat (size a)) 0 a b
           then Some (BoolV true) else None))))))
    end.

Definition ge_simplifier (a b : ast) : option ast := zeroext_comparing_against_simplifier UGE a b.

(** ** Byte reversal *)

(** The parts are the bytes of [x] from the lowest on. *)
Fixpoint ascending_bytes (i : Z) (x : ast) (args : list ast) : bool :=
  match args with
  | [] => true
  | Extract high low y :: args =>
      same x y && (high =? (i + 1) * 8 - 1) && (low =? i * 8) && ascending_bytes (i + 1) x args
  | _ :: _ => false
  end.

Definition is_Reverse (t : ast) : bool := match t with Un Reverse _ => true | _ => false end.

Definition bv_reverse_simplifier (body : ast) : option ast :=
  match body with
  | Un Reverse x => Some x
  | _ =>
      if size body =? 8 then Some body
      else
        match body with
        | Nary Concat args =>
            let bytes :=
              match args, last args with
              | Extract _ _ x :: _, Some (Extract upper_bound _ _) =>
                  if ascending_bytes 0 x args then
                    if size x =? upper_bound + 1 then Some x else Some (extract upper_bound 0 x)
                  else None
              | _, _ => None
              end in
            orelse bytes
              (if forallb (λ a, size a =? 8) args then Some (concat_ (rev args))
               else if forallb is_Reverse args && forallb (λ a, size a mod 8 =? 0) args
               then Some (concat_ (rev ((λ a, match a with Un Reverse x => x | _ => a end) <$> args)))
               else None)
        | Extract hi lo (Un Reverse x) =>
            if ((hi + 1) mod 8 =? 0) && (lo mod 8 =? 0) then Some (extract (size x - lo - 1) (size x - hi - 1) x) else None
        | _ => None
        end
  end.

(** ** Conditions *)

(** The two arguments of a condition that has two. *)
Definition two_args (t : ast) : option (ast * ast) :=
  match t with Bin _ x y | Nary _ [x; y] | Other _ _ [x; y] => Some (x, y) | _ => None end.

(** The other sides of the equations and inequations of [target_var]; [None]
    for any other condition. *)
Fixpoint sides (target_var : ast) (fargs : list ast) : option (list ast * list ast) :=
  match fargs with
  | [] => Some ([], [])
  | arg :: fargs =>
      '(x, y) ← two_args arg;
      other ← (if same x target_var then Some y else if same y target_var then Some x else None);
      '(eq_list, ne_list) ← sides target_var fargs;
      match arg with
      | Bin Eq _ _ => Some (other :: eq_list, ne_list)
      | Bin Ne _ _ => Some (eq_list, other :: ne_list)
      | _ => None
      end
  end.

Definition find_target (fargs : list ast) : option ast :=
  match fargs with
  | f0 :: f1 :: _ =>
      '(x, y) ← two_args f0;
      '(x', y') ← two_args f1;
      if symbolic x && (same x x' || same x y') then Some x
      else if symbolic y && (same y x' || same y y') then Some y
      else None
  | _ => None
  end.

Definition BVV_value (t : ast) : Z := match t with BVV v _ => v | _ => 0 end.

(** What follows the flattening in [boolean_and_simplifier]. *)
Definition and_of_comparisons (flattened : ast) (fargs : list ast) : ast :=
  match fargs with
  | [a] => a
  | _ =>
      if existsb (λ a, match two_args a with Some _ => false | None => true end) fargs then flattened
      else
        match find_target fargs with
        | None => flattened
        | Some target_var =>
            match sides target_var fargs with
            | None | Some ([], _) => flattened
            | Some ((mustbe :: _) as eq_list, ne_list) =>
                if existsb (λ ne, existsb (same ne) eq_list) ne_list then BoolV false
                else if forallb is_BVV eq_list && forallb is_BVV ne_list then
                  if existsb (λ eq, negb (BVV_value eq =? BVV_value mustbe)) eq_list then BoolV false
                  else eq_ target_var mustbe
                else flattened
            end
        end
  end.

Definition is_BoolV_of (b : bool) (t : ast) : bool := match t with BoolV b' => eqb b b' | _ => false end.

(** The second pass of the code over constants finds none. *)
Definition boolean_and_simplifier (args : list ast) : option ast :=
  if existsb (is_BoolV_of false) args then Some (BoolV false)
  else
    match List.filter (λ a, negb (is_BoolV a)) args with
    | [] => Some (BoolV true)
    | [a] => Some a
    | args =>
        let contradiction :=
          match args with
          | [Bin Eq x (BVV v _); Bin Eq y (BVV v' _)] => same x y && negb (v =? v')
          | _ => false
          end in
        let strict :=
          match args with
          | [Bin UGE x y; Bin Ne x' y'] => if same x x' && same y y' then Some (gt_ x y) else None
          | _ => None
          end in
        if contradiction then Some (BoolV false)
        else
          orelse strict
            (flattened ← _flatten_simplifier And _deduplicate_filter None args;
             Some match flattened with Nary And fargs => and_of_comparisons flattened fargs | _ => flattened end)
    end.

Definition boolean_or_simplifier (args : list ast) : option ast :=
  if existsb (is_BoolV_of true) args then Some (BoolV true)
  else if existsb is_BoolV args then
    match List.filter (λ a, negb (is_BoolV a)) args with
    | [] => Some (BoolV false)
    | [a] => Some a
    | new_args => Some (build (Nary Or new_args))
    end
  else _flatten_simplifier Or _deduplicate_filter None args.

Definition boolean_not_simplifier (body : ast) : option ast :=
  match body with
  | Bin Eq x y => Some (ne_ x y)
  | Bin Ne x y => Some (eq_ x y)
  | Un Not x => Some x
  | Bin SLT x y => Some (compare_ SGE x y)
  | Bin SLE x y => Some (compare_ SGT x y)
  | Bin SGT x y => Some (compare_ SLE x y)
  | Bin SGE x y => Some (compare_ SLT x y)
  | Bin ULT x y => Some (compare_ UGE x y)
  | Bin ULE x y => Some (compare_ UGT x y)
  | Bin UGT x y => Some (compare_ ULE x y)
  | Bin UGE x y => Some (compare_ ULT x y)
  | _ => None
  end.

(** ** Arithmetic *)

Definition bitwise_add_simplifier (args : list ast) : option ast :=
  match args with
  | [Bin Sub x (BVV _ _ as y); BVV _ _ as z] => Some (sub_ x (sub_ y z))
  | _ =>
      _flatten_simplifier Add (List.filter (λ a, match a with BVV 0 _ => false | _ => true end))
        (Some (bvv 0 (match args with a :: _ => size a | [] => 0 end))) args
  end.

Definition bitwise_mul_simplifier (args : list ast) : option ast := _flatten_simplifier Mul id None args.

Definition bitwise_sub_simplifier (a b : ast) : option ast :=
  match b with
  | BVV v _ =>
      if v =? 0 then Some a
      else
        match a with
        | Bin Sub x (BVV _ _ as y) => Some (sub_ x (add_ y b))
        | Nary Add xs =>
            match last xs with
            | Some (BVV _ _ as y) =>
                match xs with
                | [x; _] => Some (add_ x (sub_ y b))
                | _ => Some (new (Nary Add (removelast xs ++ [sub_ y b])))
                end
            | _ => None
            end
        | _ => None
        end
  | _ => if same a b || equals a b then Some (bvv 0 (size a)) else None
  end.

(** ** Exclusive or *)

(** A pair in one order or the other, as the recognition of the idiom tries
    them. *)
Definition either (xs : list ast) (p : ast → bool) : option (ast * ast) :=
  match xs with
  | [x; y] => if p x then Some (x, y) else if p y then Some (y, x) else None
  | _ => None
  end.

Definition is_Sub (t : ast) : bool := match t with Bin Sub _ _ => true | _ => false end.
(** The first two of the arguments are [x] and [y]. *)
Definition pair_of (x y : ast) (xs : list ast) : bool :=
  match xs with a :: b :: _ => (same a x && same b y) || (same a y && same b x) | _ => false end.

(** With [s = q - r], [t = q ^ r], [u = s ^ q], [v = u & t], [w = v ^ s],
    [x = w >> (bits - 1)] and [y = x & t], [q ^ y] is the signed maximum of [q]
    and [r]; with [s = r - q] and [u = s ^ r] the minimum. *)
Definition bitwise_xor_simplifier_minmax (a b : ast) : option ast :=
  '(y, q) ← either [b; a] (is_Nary BAnd);
  match y with
  | Nary BAnd yargs =>
      '(x, t) ← (match yargs with
                 | [x; t] => if is_Nary BXor t then Some (x, t) else if is_Nary BXor x then Some (t, x) else None
                 | _ => None
                 end);
      match x, t with
      | Bin Rshift (Nary BXor wargs) dist, Nary BXor targs =>
          if negb (same dist (bvv (size a - 1) (size a))) then None
          else
            '(v, s) ← (match wargs with
                       | [v; s] => if is_Sub s then Some (v, s) else if is_Sub v then Some (s, v) else None
                       | _ => None
                       end);
            match v, s with
            | Nary BAnd vargs, Bin Sub s0 s1 =>
                '(u, _) ← (match vargs with
                           | [u; t2] => if same t2 t then Some (u, t2) else if same u t then Some (t2, u) else None
                           | _ => None
                           end);
                match u with
                | Nary BXor uargs =>
                    '(_, r) ← either targs (same q);
                    if pair_of s q uargs then
                      if same s0 q && same s1 r then Some (If_ (compare_ SLE q r) r q) else None
                    else if pair_of s r uargs then
                      if same s0 r && same s1 q then Some (If_ (compare_ SLE q r) q r) else None
                    else None
                | _ => None
                end
            | _, _ => None
            end
      | _, _ => None
      end
  | _ => None
  end.

(** Equal arguments cancel in pairs; the first of an odd number is kept. *)
Definition count (x : ast) (l : list ast) : nat := length (List.filter (same x) l).

Definition _flattening_filter (args : list ast) : list ast :=
  deduplicate [] (List.filter (λ arg, Nat.odd (count arg args)) args).

Definition bitwise_xor_simplifier (args : list ast) : option ast :=
  match args with
  | [] => None
  | a :: _ =>
      let flat := _flatten_simplifier BXor _flattening_filter (Some (bvv 0 (size a))) args in
      match args with
      | [a; b] =>
          if same a (bvv 0 (size a)) then Some b
          else if same b (bvv 0 (size a)) then Some a
          else if same a b || equals a b then Some (bvv 0 (size a))
          else orelse (bitwise_xor_simplifier_minmax a b) flat
      | _ => flat
      end
  end.

(** ** Or, and *)

Definition bitwise_or_simplifier (args : list ast) : option ast :=
  let flat := _flatten_simplifier BOr _deduplicate_filter None args in
  match args with
  | [a; b] =>
      if same a (bvv 0 (size a)) then Some b
      else if same b (bvv 0 (size a)) then Some a
      else if same a b || equals a b then Some a
      else flat
  | _ => flat
  end.

(** A rotation by constants that is masked. *)
Definition rotate_shift_mask_simplifier (a b : ast) : option ast :=
  match a, b with
  | Nary BOr [Bin Lshift a_00 (BVV lshift_ _); Bin LShR a_10 (BVV rshift_ _)], BVV mask _ =>
      if negb (same a_00 a_10) then None
      else
        let bitwidth := lshift_ + rshift_ in
        if (bitwidth =? 32) || (bitwidth =? 64) then
          let m := Z.lor (Z.land (Z.shiftl mask rshift_) (2 ^ bitwidth - 1)) (Z.shiftr mask lshift_) in
          if negb (m =? (if bitwidth =? 32 then 0xFFFF else 0xFFFFFFFF)) then None
          else
            let masked_a := and_ a_00 (_from_int a_00 m) in
            Some (or_ (lshift masked_a (_from_int masked_a lshift_)) (rshift masked_a (_from_int masked_a rshift_)))
        else None
  | _, _ => None
  end.

Definition is_ones (t : ast) : bool := match t with BVV v w => v =? 2 ^ w - 1 | _ => false end.
Definition is_zero (t : ast) : bool := match t with BVV v _ => v =? 0 | _ => false end.

(** What follows the rotation in [bitwise_and_simplifier] for two arguments. *)
Definition and_of_two (a b : ast) (flat : option ast) : option ast :=
  if is_ones a then Some b
  else if is_ones b then Some a
  else if same a b || equals a b then Some a
  else if is_zero a || is_zero b then Some (bvv 0 (size a))
  else
    let masked :=
      match a with
      | Nary Concat [x; y] => if equals_int b (2 ^ (size a - size x) - 1) then Some (build (ZeroExt (size x) y)) else None
      | _ => None
      end in
    let both :=
      match a, b with
      | If cond0 a1 a0, If cond1 b1 b0 =>
          if equals a1 (bvv 1 (size a1)) && equals a0 (bvv 0 (size a0))
             && equals b1 (bvv 1 (size a1)) && equals b0 (bvv 0 (size a0))
          then Some (If_ (build (Nary And [cond0; cond1])) (bvv 1 (size a1)) (bvv 0 (size a0))) else None
      | _, _ => None
      end in
    orelse masked (orelse both flat).

Definition bitwise_and_simplifier (args : list ast) : option ast :=
  let flat := _flatten_simplifier BAnd _deduplicate_filter None args in
  match args with
  | [a; b] => orelse (rotate_shift_mask_simplifier a b) (and_of_two a b flat)
  | _ => flat
  end.

(** ** Extensions, extraction, complement *)

(** The nested extension is built and dropped: the code has no [return]. *)
Definition zeroext_simplifier (n : Z) (e : ast) : option ast := if n =? 0 then Some e else None.

Definition signext_simplifier (n : Z) (e : ast) : option ast := if n =? 0 then Some e else None.

(** The part that holds bit [n], as its position and the bit in it; [pos] is
    the number of bits of the parts left. *)
Fixpoint part_with (n pos : Z) (args : list ast) : option (nat * Z) :=
  match args with
  | [] => None
  | v :: args =>
      let lower := pos - size v in
      if (lower <=? n) && (n <? pos) then Some (O, n - lower)
      else '(i, loc) ← part_with n lower args; Some (S i, loc)
  end.

(** The last element of a list that is not empty. *)
Fixpoint alter_last (f : ast → ast) (l : list ast) : list ast :=
  match l with [] => [] | [x] => [f x] | x :: l => x :: alter_last f l end.

Definition extract_of_concat (high low : Z) (val : ast) (args : list ast) : option ast :=
  match part_with high (size val) args, part_with low (size val) args with
  | Some (high_i, high_loc), Some (low_i, low_loc) =>
      match take (S low_i - high_i) (drop high_i args) with
      | [] => None
      | [result] =>
          let new_high := low_loc + high - low in
          if (new_high =? size result - 1) && (low_loc =? 0) then Some result else Some (extract new_high low_loc result)
      | first :: used =>
          let first := if negb (high_loc =? size first) then extract high_loc 0 first else first in
          let used := if negb (low_loc =? 0) then alter_last (λ v, extract (size v - 1) low_loc v) used else used in
          Some (concat_ (first :: used))
      end
  | _, _ => None
  end.

Definition reversed_concat (val : ast) : option (list ast) :=
  match val with
  | Un Reverse (Nary Concat args) => if forallb (λ a, size a mod 8 =? 0) args then Some args else None
  | _ => None
  end.

Definition extract_distributable (o : naryop) : bool := match o with BAnd | BOr | BXor => true | _ => false end.

(** What is tried after the second look at [Reverse]. *)
Definition extract_distributed (high low : Z) (val : ast) : option ast :=
  match val with
  | Nary o args => if extract_distributable o then Some (build (Nary o (extract high low <$> args))) else None
  | If ifcond iftrue iffalse =>
      if is_BVV iftrue && is_BVV iffalse then Some (If_ ifcond (extract high low iftrue) (extract high low iffalse)) else None
  | Un Invert x => Some (build (Un Invert (extract high low x)))
  | _ => None
  end.

Definition extract_simplifier (high low : Z) (val : ast) : option ast :=
  if high - low + 1 =? size val then Some val
  else
    let whole :=
      match val with
      | SignExt _ x | ZeroExt _ x => if (low =? 0) && (high + 1 =? size x) then Some x else None
      | _ => None
      end in
    orelse whole
      (let val :=
         match val with
         | ZeroExt n x => if n =? 0 then x else concat_ [bvv 0 n; x]
         | _ => val
         end in
       let val := match reversed_concat val with Some args => concat_ (rev (reversed <$> args)) | None => val end in
       match val with
       | Un Reverse x =>
           if (high - low + 1 =? 8) && (low mod 8 =? 0) then
             let new_byte_pos := size val / 8 - low / 8 - 1 in
             Some (extract ((new_byte_pos + 1) * 8 - 1) (new_byte_pos * 8) x)
           else
             match reversed_concat val with
             | Some args =>
                 let val := extract high low (concat_ (rev (reversed <$> args))) in
                 if negb (symbolic val) then Some val else extract_distributed high low val
             | None => None
             end
       | Nary Concat args => extract_of_concat high low val args
       | Extract _ inner_low x =>
           let new_low := inner_low + low in
           Some (extract (new_low + (high - low)) new_low x)
       | _ => extract_distributed high low val
       end).

(** [t.args[0] == 0] where that is a test of integers.  (Where the first
    argument of [t] is an expression the code builds an equation and raises
    when it takes its truth value; those are outside of the model.) *)
Definition first_arg_is_0 (t : ast) : bool :=
  match t with BVV n _ | Extract n _ _ | ZeroExt n _ | SignExt n _ => n =? 0 | _ => false end.

Definition invert_simplifier (expr : ast) : option ast :=
  match expr with
  | If c (BVV v w) e => if (v =? 1) && first_arg_is_0 e then Some (If_ (not_ c) (BVV v w) e) else None
  | _ => None
  end.

(** ** The table *)

Definition simplify (t : ast) : option ast :=
  match t with
  | Nary And args => boolean_and_simplifier args
  | Nary Or args => boolean_or_simplifier args
  | Un Not body => boolean_not_simplifier body
  | Un Reverse body => bv_reverse_simplifier body
  | Extract high low val => extract_simplifier high low val
  | Nary Concat args => concat_simplifier args
  | Bin Lshift val shift => lshift_simplifier val shift
  | Bin Rshift val shift => rshift_simplifier val shift
  | Bin LShR val shift => lshr_simplifier val shift
  | Bin Eq a b => eq_simplifier a b
  | Bin Ne a b => ne_simplifier a b
  | Bin UGE a b => ge_simplifier a b
  | Nary BOr args => bitwise_or_simplifier args
  | Nary BAnd args => bitwise_and_simplifier args
  | Nary BXor args => bitwise_xor_simplifier args
  | Nary Add args => bitwise_add_simplifier args
  | Bin Sub a b => bitwise_sub_simplifier a b
  | Nary Mul args => bitwise_mul_simplifier args
  | ZeroExt n e => zeroext_simplifier n e
  | SignExt n e => signext_simplifier n e
  | Un Invert expr => invert_simplifier expr
  | _ => None
  end.

(** [operations.op]: the simplifier, then the node; [If] is built on its own. *)
Definition _op (t : ast) : ast :=
  match t with
  | If c x y => If_ c x y
  | _ => match simplify t with Some simp => simp | None => new t end
  end.
End Simplifiers.

(** Operations with at most [n] simplifications inside each other. *)
Fixpoint build (n : nat) : ast → ast :=
  match n with O => new | S n => _op (build n) end.
End Simplify.
