(* ===== verification/SimplifySem.v ===== *)
(** * The meaning of expressions

    [typed] is well-formedness, [eval] the value of a well-formed expression
    under a valuation of its symbols: a vector as its number, a condition as 0
    or 1.  The concrete backend computes it ([concrete_exact]), so that building
    a node preserves it; [refines] relates an expression to what a simplifier
    makes of it. *)

From Stdlib Require Import ZArith Lia Bool String.
From stdpp Require Import base tactics list numbers strings.
From S2P Require Import Prelude Bvv Claripy Pcode Simplify.
#[local] Open Scope Z_scope.
#[local] Open Scope list_scope.

Module SimplifySem.
Import Bvv.BVV(mkBVV, to_signed) Simplify.Simplify.

(** ** Induction *)

Lemma ast_ind' (P : ast → Prop) :
  (∀ n w, P (BVS n w)) → (∀ v w, P (BVV v w)) → (∀ n, P (BoolS n)) → (∀ b, P (BoolV b)) →
  (∀ o x, P x → P (Un o x)) → (∀ o x y, P x → P y → P (Bin o x y)) →
  (∀ o xs, Forall P xs → P (Nary o xs)) →
  (∀ hi lo x, P x → P (Extract hi lo x)) → (∀ n x, P x → P (ZeroExt n x)) → (∀ n x, P x → P (SignExt n x)) →
  (∀ c t e, P c → P t → P e → P (If c t e)) → (∀ n w xs, P (Other n w xs)) →
  ∀ t, P t.
Proof.
  intros H1 H2 H3 H4 H5 H6 H7 H8 H9 H10 H11 H12. fix go 1.
  intros [n w|v w|n|b|o x|o x y|o xs|hi lo x|n x|n x|c t e|n w xs].
  - apply H1.
  - apply H2.
  - apply H3.
  - apply H4.
  - apply H5, go.
  - apply H6; apply go.
  - apply H7. induction xs as [|x xs IH]; constructor; [apply go|exact IH].
  - apply H8, go.
  - apply H9, go.
  - apply H10, go.
  - apply H11; apply go.
  - apply H12.
Qed.

(** ** Sorts *)

Inductive sort := SBool | SBV (w : Z).

Definition width (s : sort) : Z := match s with SBool => 1 | SBV w => w end.

Definition sum (ws : list Z) : Z := foldr Z.add 0 ws.

(** In [strict] mode the operations whose simplifiers are not sound (left shift,
    exclusive or, complement) are left out, and the reversal of a concatenation,
    which is distributed over the parts a second time. *)
Section Typing.
Context (strict : bool).

Definition un_allowed (o : unop) : bool := match o with Invert => negb strict | _ => true end.
Definition reversible (x : ast) : bool := negb (strict && is_Nary Concat x).
Definition vector_bin (o : binop) : bool :=
  match o with Sub | Rshift | LShR => true | Lshift => negb strict | _ => false end.
Definition comparison (o : binop) : bool := match o with Sub | Lshift | Rshift | LShR => false | _ => true end.
Definition vector_nary (o : naryop) : bool :=
  match o with Add | Mul | BAnd | BOr => true | BXor => negb strict | _ => false end.

Inductive typed : ast → sort → Prop :=
  | typed_BVS n w : 1 ≤ w → typed (BVS n w) (SBV w)
  | typed_BVV v w : 1 ≤ w → 0 ≤ v < 2 ^ w → typed (BVV v w) (SBV w)
  | typed_BoolS n : typed (BoolS n) SBool
  | typed_BoolV b : typed (BoolV b) SBool
  | typed_Not x : typed x SBool → typed (Un Not x) SBool
  | typed_Neg x w : typed x (SBV w) → typed (Un Neg x) (SBV w)
  | typed_Invert x w : un_allowed Invert = true → typed x (SBV w) → typed (Un Invert x) (SBV w)
  | typed_Reverse x w : reversible x = true → w mod 8 = 0 → typed x (SBV w) → typed (Un Reverse x) (SBV w)
  | typed_vector o x y w : vector_bin o = true → typed x (SBV w) → typed y (SBV w) → typed (Bin o x y) (SBV w)
  | typed_comparison o x y w : comparison o = true → typed x (SBV w) → typed y (SBV w) → typed (Bin o x y) SBool
  | typed_equation o x y : o = Eq ∨ o = Ne → typed x SBool → typed y SBool → typed (Bin o x y) SBool
  | typed_nary o xs w : vector_nary o = true → xs ≠ [] → Forall (λ x, typed x (SBV w)) xs → typed (Nary o xs) (SBV w)
  | typed_connective o xs : o = And ∨ o = Or → xs ≠ [] → Forall (λ x, typed x SBool) xs → typed (Nary o xs) SBool
  | typed_Concat xs ws : xs ≠ [] → Forall2 (λ x w, typed x (SBV w)) xs ws → typed (Nary Concat xs) (SBV (sum ws))
  | typed_Extract high low x w : 0 ≤ low ≤ high → high < w → typed x (SBV w) → typed (Extract high low x) (SBV (high + 1 - low))
  | typed_ZeroExt n x w : 1 ≤ n → typed x (SBV w) → typed (ZeroExt n x) (SBV (w + n))
  | typed_SignExt n x w : 1 ≤ n → typed x (SBV w) → typed (SignExt n x) (SBV (w + n))
  | typed_If c t e s : typed c SBool → typed t s → typed e s → typed (If c t e) s
  | typed_Other_bool n xs : typed (Other n None xs) SBool
  | typed_Other n w xs : 1 ≤ w → typed (Other n (Some w) xs) (SBV w).
End Typing.

Lemma sum_sizes strict xs ws :
  Forall2 (λ x w, typed strict x (SBV w)) xs ws → Forall (λ x, ∀ s, typed strict x s → size x = width s ∧ 1 ≤ width s) xs →
  foldr (λ x n, size x + n) 0 xs = sum ws ∧ Forall (λ w, 1 ≤ w) ws.
Proof.
  induction 1 as [|x w xs ws Hx _ IH]; intros Hf; [by split|]. apply Forall_cons_1 in Hf as [Hs Hf].
  destruct (IH Hf) as [E Hw]. destruct (Hs _ Hx) as [E1 H1]. cbn in *. split; [by rewrite E1, E|by constructor].
Qed.

Lemma sum_pos ws : Forall (λ w, 1 ≤ w) ws → ws ≠ [] → 1 ≤ sum ws.
Proof.
  intros Hw Hne. destruct Hw as [|w ws Hw Hws]; [done|]. unfold sum. cbn. assert (0 ≤ foldr Z.add 0 ws); [|lia].
  clear -Hws. induction Hws; cbn; lia.
Qed.

Lemma typed_size_pos strict t : ∀ s, typed strict t s → size t = width s ∧ 1 ≤ width s.
Proof.
  induction t as [n w|v w|n|b|o x IHx|o x y IHx IHy|o xs IH|hi lo x IHx|n x IHx|n x IHx|c t e IHc IHt IHe|n w xs] using ast_ind';
    intros s H; inversion H as [| | | | | | | |? ? ? ? Ho|? ? ? ? Ho|? ? ? Ho|? ? ? Ho Hne Hxs|? ? Ho Hne Hxs|? ? Hne Hxs|? ? ? ? ? ? Hx|? ? ? ? Hx|? ? ? ? Hx| | |];
    subst; cbn [size width]; try done;
    try (by match goal with Hx : typed _ x _ |- _ => exact (IHx _ Hx) end);
    try (by match goal with Ht : typed _ t _ |- _ => exact (IHt _ Ht) end).
  - destruct o; try discriminate; by match goal with Hx : typed _ x _ |- _ => exact (IHx _ Hx) end.
  - by destruct o.
  - by destruct Ho as [-> | ->].
  - destruct xs as [|x xs]; [done|]. apply Forall_cons_1 in IH as [IH _]. apply Forall_cons_1 in Hxs as [Hx _].
    destruct o; try discriminate; exact (IH _ Hx).
  - destruct xs as [|x xs]; [done|]. apply Forall_cons_1 in IH as [IH _]. apply Forall_cons_1 in Hxs as [Hx _].
    destruct Ho as [-> | ->]; exact (IH _ Hx).
  - destruct (sum_sizes _ _ _ Hxs IH) as [E Hw]. split; [done|]. apply sum_pos; [done|]. intros ->. by inversion Hxs; subst.
  - lia.
  - destruct (IHx _ Hx) as [E ?]. cbn in *. lia.
  - destruct (IHx _ Hx) as [E ?]. cbn in *. lia.
Qed.

Lemma typed_size strict t s : typed strict t s → size t = width s.
Proof. intros H. by apply (typed_size_pos strict t s). Qed.

Lemma typed_pos strict t s : typed strict t s → 1 ≤ width s.
Proof. intros H. by apply (typed_size_pos strict t s). Qed.

Lemma sizes_sum strict xs ws : Forall2 (λ x w, typed strict x (SBV w)) xs ws → foldr (λ x n, size x + n) 0 xs = sum ws.
Proof. induction 1 as [|x w xs ws Hx _ IH]; cbn; [done|]. by rewrite (typed_size _ _ _ Hx), IH. Qed.

(** ** Values *)

Fixpoint byte_swap (n : nat) (v : Z) : Z :=
  match n with O => 0 | S n => (v mod 256) * 2 ^ (8 * Z.of_nat n) + byte_swap n (v / 256) end.

Definition bin_value (o : binop) (w x y : Z) : Z :=
  match o with
  | Sub => (x - y) mod 2 ^ w
  | Lshift => (x * 2 ^ y) mod 2 ^ w
  | Rshift => (to_signed w x / 2 ^ y) mod 2 ^ w
  | LShR => x / 2 ^ y
  | Eq => Z.b2z (x =? y)
  | Ne => Z.b2z (negb (x =? y))
  | ULT => Z.b2z (x <? y)
  | ULE => Z.b2z (x <=? y)
  | UGT => Z.b2z (y <? x)
  | UGE => Z.b2z (y <=? x)
  | SLT => Z.b2z (to_signed w x <? to_signed w y)
  | SLE => Z.b2z (to_signed w x <=? to_signed w y)
  | SGT => Z.b2z (to_signed w y <? to_signed w x)
  | SGE => Z.b2z (to_signed w y <=? to_signed w x)
  end.

(** The value of a list of arguments, with their widths for [Concat]. *)
Fixpoint concat_value (l : list (Z * Z)) : Z :=
  match l with [] => 0 | (v, _) :: l => v * 2 ^ foldr (λ p n, p.2 + n) 0 l + concat_value l end.

Definition nary_value (o : naryop) (w : Z) (l : list (Z * Z)) : Z :=
  match o with
  | Add => foldr (λ p n, p.1 + n) 0 l mod 2 ^ w
  | Mul => foldr (λ p n, p.1 * n) 1 l mod 2 ^ w
  | BAnd | And => foldr (λ p n, Z.land p.1 n) (2 ^ w - 1) l
  | BOr | Or => foldr (λ p n, Z.lor p.1 n) 0 l
  | BXor => foldr (λ p n, Z.lxor p.1 n) 0 l
  | Concat => concat_value l
  end.

Section Eval.
(** The values of symbols and of operations that are left alone. *)
Context (ρ : ast → Z).

Fixpoint eval (t : ast) : Z :=
  match t with
  | BVS _ w => ρ t mod 2 ^ w
  | BVV v _ => v
  | BoolS _ => ρ t mod 2
  | BoolV b => Z.b2z b
  | Un Invert x => 2 ^ size x - 1 - eval x
  | Un Neg x => (- eval x) mod 2 ^ size x
  | Un Not x => 1 - eval x
  | Un Reverse x => byte_swap (Z.to_nat (size x / 8)) (eval x)
  | Bin o x y => bin_value o (size x) (eval x) (eval y)
  | Nary o xs => nary_value o (size (Nary o xs)) (map (λ x, (eval x, size x)) xs)
  | Extract high low x => (eval x / 2 ^ low) mod 2 ^ (high + 1 - low)
  | ZeroExt _ x => eval x
  | SignExt n x => to_signed (size x) (eval x) mod 2 ^ (size x + n)
  | If c t e => if eval c =? 1 then eval t else eval e
  | Other _ w _ => ρ t mod 2 ^ default 1 w
  end.
End Eval.

(** ** Values fit their widths *)

Definition fits (w v : Z) : Prop := 0 ≤ v < 2 ^ w.

Lemma fits_b2z w b : 1 ≤ w → fits w (Z.b2z b).
Proof. intros. pose proof (Z.pow_le_mono_r 2 1 w). unfold fits. destruct b; cbn; lia. Qed.

Lemma fits_mod w v : 0 ≤ w → fits w (v mod 2 ^ w).
Proof. apply mod_pow2_bound. Qed.

Lemma fits_bool v : fits 1 v → v = 0 ∨ v = 1.
Proof. unfold fits. lia. Qed.

Lemma byte_swap_fits n : ∀ v, fits (8 * Z.of_nat n) (byte_swap n v).
Proof.
  unfold fits. induction n as [|n IH]; intros v; cbn [byte_swap]; [lia|]. pose proof (Z.mod_pos_bound v 256).
  specialize (IH (v / 256)). replace (8 * Z.of_nat (S n)) with (8 + 8 * Z.of_nat n) by lia.
  rewrite Z.pow_add_r by lia. change (2 ^ 8) with 256. nia.
Qed.

Lemma bin_value_fits o w x y : 1 ≤ w → fits w x → 0 ≤ y → fits (if comparison o then 1 else w) (bin_value o w x y).
Proof.
  intros Hw Hx Hy. destruct o; cbn [comparison bin_value]; try (by apply fits_b2z); try (apply fits_mod; lia).
  unfold fits in *. pose proof (pow2_pos y Hy). split; [apply Z.div_pos; lia|].
  apply Z.div_lt_upper_bound; [lia|]. nia.
Qed.

Lemma fold_fits (f : Z → Z → Z) w u (l : list (Z * Z)) :
  (∀ x y, fits w x → fits w y → fits w (f x y)) → fits w u → Forall (λ p, fits w p.1) l →
  fits w (foldr (λ p n, f p.1 n) u l).
Proof. intros Hf Hu Hl. induction Hl; cbn; auto. Qed.

Lemma fits_land w x y : 0 ≤ w → fits w x → fits w y → fits w (Z.land x y).
Proof. apply land_bound. Qed.
Lemma fits_lor w x y : 0 ≤ w → fits w x → fits w y → fits w (Z.lor x y).
Proof. apply lor_bound. Qed.
Lemma fits_lxor w x y : 0 ≤ w → fits w x → fits w y → fits w (Z.lxor x y).
Proof. apply lxor_bound. Qed.

Lemma nary_value_fits o w l : o ≠ Concat → 1 ≤ w → Forall (λ p, fits w p.1) l → fits w (nary_value o w l).
Proof.
  intros Ho Hw Hl. pose proof (pow2_pos w ltac:(lia)).
  assert (fits w (2 ^ w - 1) ∧ fits w 0) as [H1 H0] by (unfold fits; lia).
  destruct o; cbn [nary_value]; try done; try (apply fits_mod; lia).
  all: apply (fold_fits); auto; intros; (apply fits_land || apply fits_lor || apply fits_lxor); auto; lia.
Qed.

Lemma concat_value_fits l :
  Forall (λ p, 0 ≤ p.2 ∧ fits p.2 p.1) l →
  0 ≤ foldr (λ p n, p.2 + n) 0 l ∧ fits (foldr (λ p n, p.2 + n) 0 l) (concat_value l).
Proof.
  unfold fits. induction 1 as [|[v w] l [Hw Hv] _ [IH1 IH]]; cbn in *; [lia|].
  split; [lia|]. rewrite Z.pow_add_r by lia. pose proof (pow2_pos _ IH1). nia.
Qed.

(** ** Evaluation *)

Lemma Forall_map_pair (f : ast → Z) w xs (P : ast → Prop) :
  Forall P xs → (∀ x, P x → fits w (f x)) → Forall (λ p, fits w p.1) (map (λ x, (f x, size x)) xs).
Proof. intros Hxs HP. induction Hxs; constructor; cbn; auto. Qed.

Lemma foldr_map_size (xs : list ast) (f : ast → Z) :
  foldr (λ p n, p.2 + n) 0 (map (λ x, (f x, size x)) xs) = foldr (λ x n, size x + n) 0 xs.
Proof. induction xs; cbn; [done|]. by f_equal. Qed.

Lemma eval_fits strict ρ t : ∀ s, typed strict t s → fits (width s) (eval ρ t).
Proof.
  induction t as [n w|v w|n|b|o x IHx|o x y IHx IHy|o xs IH|hi lo x IHx|n x IHx|n x IHx|c t e IHc IHt IHe|n w xs] using ast_ind';
    intros s H; pose proof (typed_size_pos _ _ _ H) as [Hs Hp];
    inversion H as [| | | |? Hx|? ? Hx|? ? ? Hx|? ? ? ? Hx|? ? ? ? Ho Hx Hy|? ? ? ? Ho Hx Hy|? ? ? Ho Hx Hy|? ? ? Ho Hne Hxs|? ? Ho Hne Hxs|? ? Hne Hxs
      |? ? ? ? ? ? Hx|? ? ? ? Hx|? ? ? ? Hx|? ? ? ? Hc Ht He| |];
    subst; try (pose proof (IHx _ Hx) as Fx; pose proof (typed_size_pos _ _ _ Hx) as [Sx Px]); cbn [eval size width] in *;
    try (by apply fits_mod; lia); try (by apply fits_b2z).
  - done.
  - unfold fits in *. lia.
  - rewrite Sx. apply fits_mod. lia.
  - unfold fits in *. rewrite Sx. lia.
  - rewrite Sx. unfold fits. pose proof (byte_swap_fits (Z.to_nat (w / 8)) (eval ρ x)) as Hb. unfold fits in Hb.
    rewrite Z2Nat.id in Hb by (apply Z.div_pos; lia). by rewrite <-Z_div_exact_full_2 in Hb by lia.
  - rewrite Sx. pose proof (bin_value_fits o w (eval ρ x) (eval ρ y) ltac:(lia) Fx) as Hb.
    destruct (IHy _ Hy) as [Hy0 _]. specialize (Hb Hy0). by destruct o.
  - destruct (IHy _ Hy) as [Hy0 _]. pose proof (bin_value_fits o w (eval ρ x) (eval ρ y) ltac:(lia) Fx Hy0) as Hb.
    rewrite Sx. by rewrite Ho in Hb.
  - destruct Ho as [-> | ->]; by apply fits_b2z.
  - change (fits w (nary_value o (size (Nary o xs)) (map (λ x, (eval ρ x, size x)) xs))). rewrite (typed_size _ _ _ H). cbn [width].
    apply nary_value_fits; [by destruct o|lia|]. apply (Forall_map_pair _ _ _ _ (proj2 (Forall_and _ _) (conj IH Hxs))).
    intros x [Hi Hx]. exact (Hi _ Hx).
  - change (fits 1 (nary_value o (size (Nary o xs)) (map (λ x, (eval ρ x, size x)) xs))). rewrite (typed_size _ _ _ H). cbn [width].
    apply nary_value_fits; [by destruct Ho as [-> | ->]|lia|]. apply (Forall_map_pair _ _ _ _ (proj2 (Forall_and _ _) (conj IH Hxs))).
    intros x [Hi Hx]. exact (Hi _ Hx).
  - rewrite <-(sizes_sum _ _ _ Hxs). unfold nary_value. rewrite <-(foldr_map_size xs (eval ρ)). apply concat_value_fits.
    clear -IH Hxs. induction Hxs as [|x w xs ws Hx _ IHxs]; constructor.
    + apply Forall_cons_1 in IH as [IH _]. specialize (IH _ Hx). destruct (typed_size_pos _ _ _ Hx) as [E ?]. cbn in *. rewrite E. split; [lia|done].
    + apply IHxs. by inversion IH.
  - unfold fits in *. pose proof (Z.pow_le_mono_r 2 w (w + n)). lia.
  - rewrite Sx. apply fits_mod. lia.
  - destruct (_ =? 1); [by apply IHt|by apply IHe].
Qed.

Lemma eval_bool strict ρ t : typed strict t SBool → eval ρ t = 0 ∨ eval ρ t = 1.
Proof. intros H. apply fits_bool, (eval_fits strict ρ t SBool H). Qed.

Lemma testbit_concat x y m i : 0 ≤ m → fits m y → Z.testbit (x * 2 ^ m + y) i = if i <? m then Z.testbit y i else Z.testbit x (i - m).
Proof.
  intros Hm Hy. destruct (Z.ltb_spec i 0) as [Hi|Hi].
  { destruct (Z.ltb_spec i m); [|lia]. by rewrite !Z.testbit_neg_r by lia. }
  rewrite <-lor_shiftl_add by done. rewrite Z.lor_spec, Z.shiftl_spec by done. destruct (Z.ltb_spec i m).
  - by rewrite Z.testbit_neg_r by lia.
  - rewrite (testbit_high y m) by done. by rewrite orb_false_r.
Qed.

Lemma byte_swap_testbit n : ∀ v k b,
  0 ≤ k < Z.of_nat n → 0 ≤ b < 8 → Z.testbit (byte_swap n v) (8 * k + b) = Z.testbit v (8 * (Z.of_nat n - 1 - k) + b).
Proof.
  induction n as [|n IH]; intros v k b Hk Hb; [lia|]. cbn [byte_swap].
  rewrite testbit_concat by (lia || apply byte_swap_fits). destruct (Z.ltb_spec (8 * k + b) (8 * Z.of_nat n)).
  - rewrite IH by lia. change 256 with (2 ^ 8). rewrite <-Z.shiftr_div_pow2, Z.shiftr_spec by lia. f_equal. lia.
  - assert (k = Z.of_nat n) as -> by lia. change 256 with (2 ^ 8). rewrite testbit_mod_pow2 by done.
    replace (8 * Z.of_nat n + b - 8 * Z.of_nat n) with b by lia. destruct (Z.ltb_spec b 8); [|lia]. cbn. f_equal. lia.
Qed.

(** ** The concrete backend computes the value *)

Definition inj (s : sort) (v : Z) : cvalue :=
  match s with SBool => CBool (v =? 1) | SBV w => CBv (mkBVV v w) end.

Lemma ok_Bv (r : result Bvv.BVV.BVV) v w : Bvv.BVV.Bv <$> r = Ok (Bvv.BVV.Bv (mkBVV v w)) → ok r = Some (mkBVV v w).
Proof. destruct r; [by intros [= ->]|done]. Qed.

Lemma ok_bool (r : result bool) b : r = Ok b → ok r = Some b.
Proof. by intros ->. Qed.

Lemma word_fits w v : 1 ≤ w → fits w v → Claripy.Claripy.word w v.
Proof. by split. Qed.

(** [via L] evaluates a method of [Bvv] with the lemma [L] on terms. *)
Ltac via L :=
  match goal with |- context [ok ?r] => let H := fresh in pose proof (ok_Bv r _ _ L) as H; rewrite H; clear H; cbn; try done end.
Ltac via_bool L :=
  match goal with |- context [ok ?r] => let H := fresh in pose proof (ok_bool r _ L) as H; rewrite H; clear H; cbn; try done end.

Lemma b2z_eqb_1 (b : bool) : (Z.b2z b =? 1) = b.
Proof. by destruct b. Qed.

Lemma concrete_vector o w x y :
  vector_bin false o = true → 1 ≤ w → fits w x → fits w y →
  concrete_bin o (inj (SBV w) x) (inj (SBV w) y) = Some (inj (SBV w) (bin_value o w x y)).
Proof.
  intros Ho Hw Hx Hy. pose proof (word_fits w x Hw Hx) as Wx. assert (0 ≤ y) by apply Hy.
  destruct o; try discriminate; cbn [concrete_bin inj bv2 bin_value].
  - via (Claripy.Claripy.sub_val w x y Hw).
  - via (Claripy.Claripy.lshift_val w x y Hw ltac:(done)).
  - via (Claripy.Claripy.rshift_val w x y Wx ltac:(done)).
  - via (Claripy.Claripy.LShR_val w x y Wx ltac:(done)).
Qed.

Lemma concrete_comparison o w x y :
  comparison o = true → 1 ≤ w → fits w x → fits w y →
  concrete_bin o (inj (SBV w) x) (inj (SBV w) y) = Some (inj SBool (bin_value o w x y)).
Proof.
  intros Ho Hw Hx Hy. pose proof (word_fits w x Hw Hx) as Wx. pose proof (word_fits w y Hw Hy) as Wy.
  destruct o; try discriminate; cbn [concrete_bin inj cmp2 bin_value]; rewrite b2z_eqb_1.
  - via_bool (Claripy.Claripy.eq_val w x y).
  - via_bool (Claripy.Claripy.ne_val w x y).
  - via_bool (Claripy.Claripy.ULT_val w x y Hw).
  - via_bool (Claripy.Claripy.ULE_val w x y Hw).
  - via_bool (Claripy.Claripy.UGT_val w x y Hw).
  - via_bool (Claripy.Claripy.UGE_val w x y Hw).
  - via_bool (Claripy.Claripy.SLT_val w x y Wx Wy).
  - via_bool (Claripy.Claripy.SLE_val w x y Wx Wy).
  - via_bool (Claripy.Claripy.SGT_val w x y Wx Wy).
  - via_bool (Claripy.Claripy.SGE_val w x y Wx Wy).
Qed.

(** A reduction is a fold, up to the normalisation [N] of the result. *)
Lemma reduce_exact s (f : cvalue → cvalue → option cvalue) (g h : Z → Z → Z) (N : Z → Z) u w l :
  (∀ x y, fits w x → fits w y → f (inj s x) (inj s y) = Some (inj s (g x y)) ∧ fits w (g x y)) →
  (∀ a, fits w a → N (h a u) = a) →
  (∀ a b n, fits w a → fits w b → N (h (g a b) n) = N (h a (h b n))) →
  l ≠ [] → Forall (fits w) l → reduce f (inj s <$> l) = Some (inj s (N (foldr h u l))).
Proof.
  intros Hf Hu Hg Hne Hl. destruct Hl as [|a l Ha Hl]; [done|]. cbn. clear Hne. revert a Ha.
  induction Hl as [|b l Hb _ IH]; intros a Ha; cbn; [by rewrite Hu|].
  destruct (Hf a b Ha Hb) as [E Hab]. rewrite E, (IH _ Hab). do 2 f_equal. by apply Hg.
Qed.

Lemma map_fst_pair (f : ast → Z) (h : Z → Z → Z) u xs :
  foldr (λ p n, h p.1 n) u (map (λ x, (f x, size x)) xs) = foldr h u (f <$> xs).
Proof. induction xs; cbn; [done|]. by f_equal. Qed.

Lemma land_ones_fits w a : 0 ≤ w → fits w a → Z.land a (2 ^ w - 1) = a.
Proof. intros. rewrite land_mask by done. by apply Z.mod_small. Qed.

Lemma concrete_nary_exact o w l (pairs : list (Z * Z)) :
  vector_nary false o = true → 1 ≤ w → l ≠ [] → Forall (fits w) l → pairs.*1 = l →
  concrete_nary o (inj (SBV w) <$> l) = Some (inj (SBV w) (nary_value o w pairs)).
Proof.
  intros Ho Hw Hne Hl <-.
  assert (∀ (h : Z → Z → Z) u, foldr (λ p n, h p.1 n) u pairs = foldr h u pairs.*1) as Hp
    by (intros h u; clear; induction pairs; cbn; [done|by f_equal]).
  pose proof (pow2_pos w ltac:(lia)).
  destruct o; try discriminate; cbn [concrete_nary nary_value]; rewrite Hp.
  - apply (reduce_exact _ _ (λ x y, (x + y) mod 2 ^ w) Z.add (λ v, v mod 2 ^ w)) with (w := w); try done.
    + intros x y Hx Hy. split; [|apply fits_mod; lia]. cbn. via (Claripy.Claripy.add_val w x y Hw).
    + intros a Ha. rewrite Z.add_0_r. by apply Z.mod_small.
    + intros a b n _ _. rewrite Z.add_mod_idemp_l by lia. f_equal. lia.
  - apply (reduce_exact _ _ (λ x y, (x * y) mod 2 ^ w) Z.mul (λ v, v mod 2 ^ w)) with (w := w); try done.
    + intros x y Hx Hy. split; [|apply fits_mod; lia]. cbn. via (Claripy.Claripy.mul_val w x y Hw).
    + intros a Ha. rewrite Z.mul_1_r. by apply Z.mod_small.
    + intros a b n _ _. rewrite Z.mul_mod_idemp_l by lia. f_equal. lia.
  - apply (reduce_exact _ _ Z.land Z.land id) with (w := w); try done.
    + intros x y Hx Hy. split; [|apply fits_land; done || lia]. cbn.
      via (Claripy.Claripy.and_val w x y (word_fits _ _ Hw Hx) (word_fits _ _ Hw Hy)).
    + intros a Ha. apply land_ones_fits; [lia|done].
    + intros a b n _ _. by rewrite Z.land_assoc.
  - apply (reduce_exact _ _ Z.lor Z.lor id) with (w := w); try done.
    + intros x y Hx Hy. split; [|apply fits_lor; done || lia]. cbn.
      via (Claripy.Claripy.or_val w x y (word_fits _ _ Hw Hx) (word_fits _ _ Hw Hy)).
    + intros a Ha. apply Z.lor_0_r.
    + intros a b n _ _. by rewrite Z.lor_assoc.
  - apply (reduce_exact _ _ Z.lxor Z.lxor id) with (w := w); try done.
    + intros x y Hx Hy. split; [|apply fits_lxor; done || lia]. cbn.
      via (Claripy.Claripy.xor_val w x y (word_fits _ _ Hw Hx) (word_fits _ _ Hw Hy)).
    + intros a Ha. apply Z.lxor_0_r.
    + intros a b n _ _. by rewrite Z.lxor_assoc.
Qed.

Lemma concrete_connective_exact o l (pairs : list (Z * Z)) :
  o = And ∨ o = Or → l ≠ [] → Forall (fits 1) l → pairs.*1 = l →
  concrete_nary o (inj SBool <$> l) = Some (inj SBool (nary_value o 1 pairs)).
Proof.
  intros Ho Hne Hl <-.
  assert (∀ (h : Z → Z → Z) u, foldr (λ p n, h p.1 n) u pairs = foldr h u pairs.*1) as Hp
    by (intros h u; clear; induction pairs; cbn; [done|by f_equal]).
  destruct Ho as [-> | ->]; cbn [concrete_nary nary_value]; rewrite Hp.
  - apply (reduce_exact _ _ Z.land Z.land id) with (w := 1); try done.
    + intros x y [-> | ->]%fits_bool [-> | ->]%fits_bool; done.
    + intros a Ha. by apply (land_ones_fits 1).
    + intros a b n _ _. by rewrite Z.land_assoc.
  - apply (reduce_exact _ _ Z.lor Z.lor id) with (w := 1); try done.
    + intros x y [-> | ->]%fits_bool [-> | ->]%fits_bool; done.
    + intros a Ha. apply Z.lor_0_r.
    + intros a b n _ _. by rewrite Z.lor_assoc.
Qed.

Lemma concat_loop_value xs ws (f : ast → Z) :
  Forall2 (λ x w, size x = w ∧ 0 ≤ w ∧ fits w (f x)) xs ws → ∀ tb tv, 0 ≤ tv →
  Bvv.BVV.concat_loop (zip_with mkBVV (f <$> xs) ws) tb tv =
    Ok (tb + sum ws, tv * 2 ^ sum ws + concat_value (map (λ x, (f x, size x)) xs)) ∧ 0 ≤ sum ws.
Proof.
  induction 1 as [|x w xs ws (Hs & Hw & Hx) Hall IH]; intros tb tv Htv; cbn [fmap list_fmap zip_with Bvv.BVV.concat_loop map concat_value].
  - unfold sum. cbn. split; [|done]. do 2 f_equal; lia.
  - rewrite py_shl_nonneg by done. cbn [mbind result_bind Bvv.BVV.bits Bvv.BVV.value].
    rewrite lor_shiftl_add by done. unfold fits in Hx. pose proof (pow2_pos w Hw).
    destruct (IH (tb + w) (tv * 2 ^ w + f x)) as [E Hsum]; [nia|]. split; [|unfold sum in *; cbn; lia].
    rewrite E, foldr_map_size. assert (foldr (λ x n, size x + n) 0 xs = sum ws) as ->.
    { clear -Hall. induction Hall as [|? ? ? ? (? & _) _ IH]; cbn; [done|]. unfold sum in *. cbn. congruence. }
    change (sum (w :: ws)) with (w + sum ws). rewrite Z.pow_add_r by done. do 2 f_equal; lia.
Qed.

Lemma byte_swap_Reverse w x :
  1 ≤ w → w mod 8 = 0 → fits w x →
  Bvv.BVV.Reverse (mkBVV x w) = Ok (mkBVV (byte_swap (Z.to_nat (w / 8)) x) w).
Proof.
  intros Hw Hm Hx. assert (w = 8 * (w / 8)) as E8 by (apply Z_div_exact_full_2; lia). set (n := w / 8) in *.
  assert (1 ≤ n) by lia. assert (Bvv.BVV.wf (mkBVV x w)) as Hwf by (split; [cbn; lia|exact Hx]).
  destruct (Bvv.BVV.Reverse_total (mkBVV x w) n Hwf E8 ltac:(lia)) as (r & Hr & [_ Hwr] & Hb).
  rewrite Hr. f_equal. destruct r as [v w']. cbn in Hb, Hwr. subst w'. f_equal.
  apply (bits_inj_below _ _ w); [done| |lia|].
  - pose proof (byte_swap_fits (Z.to_nat n) x) as Hf. rewrite Z2Nat.id in Hf by lia. by rewrite <-E8 in Hf.
  - intros i Hi. rewrite (Z_div_mod_eq_full i 8). pose proof (Z.mod_pos_bound i 8).
    assert (0 ≤ i / 8 < n) by (split; [apply Z.div_pos; lia|apply Z.div_lt_upper_bound; lia]).
    rewrite (Bvv.BVV.Reverse_testbit _ n _ _ _ Hwf E8 ltac:(lia) Hr) by lia. cbn [Bvv.BVV.value].
    rewrite byte_swap_testbit by (rewrite ?Z2Nat.id by lia; lia). by rewrite Z2Nat.id by lia.
Qed.

Lemma mapM_concrete strict ρ xs ss l :
  Forall2 (typed strict) xs ss → Forall (λ x, ∀ s c, typed strict x s → concrete x = Some c → c = inj s (eval ρ x)) xs →
  mapM concrete xs = Some l → l = zip_with inj ss (eval ρ <$> xs).
Proof.
  intros Ht. revert l. induction Ht as [|x s xs ss Hx _ IH]; intros l Hf E; cbn in E; [by injection E as <-|].
  apply Forall_cons_1 in Hf as [Hc Hf]. destruct (concrete x) as [c|] eqn:Ec; [|done]. cbn in E.
  destruct (mapM concrete xs) as [l'|]; [|done]. injection E as <-. cbn. f_equal; [by apply Hc|by apply IH].
Qed.

Lemma mapM_concrete_same strict ρ s xs l :
  Forall (λ x, typed strict x s) xs → Forall (λ x, ∀ s c, typed strict x s → concrete x = Some c → c = inj s (eval ρ x)) xs →
  mapM concrete xs = Some l → l = inj s <$> (eval ρ <$> xs).
Proof.
  intros Ht Hf E. rewrite (mapM_concrete strict ρ xs (replicate (length xs) s) l); [|by apply Forall2_replicate_r|done|done].
  clear. induction xs; cbn; [done|by f_equal].
Qed.

Lemma typed_loose strict t s : typed strict t s → typed false t s.
Proof.
  revert s. induction t as [n w|v w|n|b|o x IHx|o x y IHx IHy|o xs IH|hi lo x IHx|n x IHx|n x IHx|c t e IHc IHt IHe|n w xs] using ast_ind';
    intros s H; inversion H as [| | | |? Hx|? ? Hx|? ? ? Hx|? ? ? ? Hx|? ? ? ? Ho Hx Hy|? ? ? ? Ho Hx Hy|? ? ? Ho Hx Hy|? ? ? Ho Hne Hxs|? ? Ho Hne Hxs|? ? Hne Hxs
      |? ? ? ? ? ? Hx|? ? ? ? Hx|? ? ? ? Hx|? ? ? ? Hc Ht He| |]; subst; try (by econstructor; eauto).
  - eapply typed_vector; eauto. by destruct o.
  - eapply typed_nary; eauto; [by destruct o|]. apply (Forall_impl _ _ _ (proj2 (Forall_and _ _) (conj IH Hxs))). intros x [Hi Hx]. auto.
  - eapply typed_connective; eauto. apply (Forall_impl _ _ _ (proj2 (Forall_and _ _) (conj IH Hxs))). intros x [Hi Hx]. auto.
  - apply typed_Concat; [done|]. clear -IH Hxs. induction Hxs; constructor; apply Forall_cons_1 in IH as []; auto.
Qed.

Lemma evals_fit strict ρ s xs : Forall (λ x, typed strict x s) xs → Forall (fits (width s)) (eval ρ <$> xs).
Proof. intros H. apply Forall_fmap. apply (Forall_impl _ _ _ H). intros x Hx. by apply (eval_fits strict). Qed.

Lemma pairs_fst ρ xs : (map (λ x, (eval ρ x, size x)) xs).*1 = eval ρ <$> xs.
Proof. induction xs; cbn; [done|by f_equal]. Qed.

Lemma mapM_CBv ws vs :
  length ws = length vs →
  mapM (λ c, match c with CBv x => Some x | _ => None end) (zip_with inj (SBV <$> ws) vs) = Some (zip_with mkBVV vs ws).
Proof.
  revert vs. induction ws as [|w ws IH]; intros [|v vs] E; try done. cbn in *. rewrite IH by lia. done.
Qed.

Lemma concrete_Concat strict ρ xs ws :
  xs ≠ [] → Forall2 (λ x w, typed strict x (SBV w)) xs ws →
  concrete_nary Concat (zip_with inj (SBV <$> ws) (eval ρ <$> xs)) =
  Some (inj (SBV (sum ws)) (concat_value (map (λ x, (eval ρ x, size x)) xs))).
Proof.
  intros Hne Hxs. assert (Forall2 (λ x w, size x = w ∧ 0 ≤ w ∧ fits w (eval ρ x)) xs ws) as Hf.
  { apply (Forall2_impl _ _ _ _ Hxs). intros x w Hx. destruct (typed_size_pos _ _ _ Hx) as [E ?]. cbn in *.
    split; [done|]. split; [lia|]. exact (eval_fits _ ρ _ _ Hx). }
  destruct (concat_loop_value xs ws (eval ρ) Hf 0 0) as [E Hs]; [done|]. cbn [concrete_nary].
  rewrite mapM_CBv by (rewrite length_fmap; symmetry; eapply Forall2_length, Hxs). cbn [mbind option_bind].
  unfold Bvv.BVV.Concat. rewrite E. cbn [mbind result_bind]. rewrite Bvv.BVV.new_spec by lia. cbn. rewrite Z.mul_0_l, !Z.add_0_l. do 3 f_equal.
  apply Z.mod_small.
  pose proof (eval_fits strict ρ _ _ (typed_Concat strict xs ws Hne Hxs)) as Hv. exact Hv.
Qed.

(** What the concrete backend answers is the value, whatever the symbols. *)
Lemma concrete_exact strict ρ t : ∀ s c, typed strict t s → concrete t = Some c → c = inj s (eval ρ t).
Proof.
  induction t as [n w|v w|n|b|o x IHx|o x y IHx IHy|o xs IH|hi lo x IHx|n x IHx|n x IHx|c0 t e IHc IHt IHe|n w xs] using ast_ind';
    intros s c H E; pose proof (typed_size _ _ _ H) as Hsize; cbn [concrete] in E; try discriminate E.
  - inversion H; subst. rewrite Bvv.BVV.new_spec in E by lia. injection E as <-. cbn. by rewrite Z.mod_small.
  - inversion H; subst. injection E as <-. cbn. by rewrite b2z_eqb_1.
  - destruct (concrete x) as [cx|] eqn:Ex; [|done]. cbn [mbind option_bind] in E.
    inversion H as [| | | |? Hx|? ? Hx|? ? Ho Hx|? ? Ho Hm Hx| | | | | | | | | | | |]; subst; rewrite (IHx _ _ Hx eq_refl) in E;
      pose proof (eval_fits _ ρ _ _ Hx) as Fx; destruct (typed_size_pos _ _ _ Hx) as [Sx Px]; cbn [width] in *.
    + cbn in E. injection E as <-. cbn. f_equal. destruct (eval_bool _ ρ _ Hx) as [-> | ->]; done.
    + cbn in E. unfold Bvv.BVV.__neg__, Bvv.BVV.mod_ in E. cbn in E. rewrite Bvv.BVV.new_spec, Z.mod_mod in E
        by (pose proof (pow2_pos w); lia). injection E as <-. cbn. by rewrite Sx.
    + cbn [concrete_un inj] in E. pose proof (ok_Bv _ _ _ (Claripy.Claripy.invert_val w _ (word_fits _ _ Px Fx))) as Ei.
      unfold Claripy.Claripy.invert, Claripy.Claripy.op1 in Ei. cbn in Ei.
      destruct (Bvv.BVV.__invert__ _) as [r|]; [|done]. cbn in Ei, E. injection Ei as ->. injection E as <-. cbn. by rewrite Sx.
    + cbn [concrete_un inj] in E. rewrite byte_swap_Reverse in E by done. injection E as <-. cbn. by rewrite Sx.
  - destruct (concrete x) as [cx|] eqn:Ex; [|done]. destruct (concrete y) as [cy|] eqn:Ey; [|done]. cbn [mbind option_bind] in E.
    inversion H as [| | | | | | | |? ? ? ? Ho Hx Hy|? ? ? ? Ho Hx Hy|? ? ? Ho Hx Hy| | | | | | | | |]; subst;
      rewrite (IHx _ _ Hx eq_refl), (IHy _ _ Hy eq_refl) in E; destruct (typed_size_pos _ _ _ Hx) as [Sx Px];
      pose proof (eval_fits _ ρ _ _ Hx) as Fx; pose proof (eval_fits _ ρ _ _ Hy) as Fy; cbn [eval width] in *; rewrite Sx.
    + rewrite concrete_vector in E by (done || by destruct o, strict). by injection E.
    + rewrite concrete_comparison in E by done. by injection E.
    + destruct Ho as [-> | ->]; cbn in E; injection E as <-; cbn; rewrite b2z_eqb_1;
        by destruct (eval_bool _ ρ _ Hx) as [-> | ->], (eval_bool _ ρ _ Hy) as [-> | ->].
  - destruct (mapM concrete xs) as [l|] eqn:El; [|done]. cbn [mbind option_bind] in E.
    inversion H as [| | | | | | | | | | |? ? ? Ho Hne Hxs|? ? Ho Hne Hxs|? ? Hne Hxs| | | | | |]; subst; cbn [eval]; rewrite Hsize; cbn [width].
    + rewrite (mapM_concrete_same _ ρ _ _ _ Hxs IH El) in E. pose proof (evals_fit _ ρ _ _ Hxs) as Hf.
      destruct xs as [|x0 xs']; [done|]. destruct (typed_size_pos _ _ _ (Forall_inv Hxs)) as [_ Hp].
      rewrite (concrete_nary_exact o w _ (map (λ x, (eval ρ x, size x)) (x0 :: xs'))) in E;
        [by injection E|by destruct o|exact Hp|done|exact Hf|apply pairs_fst].
    + rewrite (mapM_concrete_same _ ρ _ _ _ Hxs IH El) in E. pose proof (evals_fit _ ρ _ _ Hxs) as Hf.
      rewrite (concrete_connective_exact o _ (map (λ x, (eval ρ x, size x)) xs)) in E;
        [by injection E|done|by destruct xs|exact Hf|apply pairs_fst].
    + rewrite (mapM_concrete strict ρ xs (SBV <$> ws) l) in E; [|by apply Forall2_fmap_r|done|done].
      rewrite (concrete_Concat strict) in E by done. by injection E.
  - destruct (concrete x) as [cx|] eqn:Ex; [|done]. inversion H as [| | | | | | | | | | | | | |? ? ? w Hlo Hhi Hx| | | | |]; subst.
    rewrite (IHx _ _ Hx eq_refl) in E. cbn in E. rewrite Bvv.BVV.Extract_spec in E by lia. by injection E.
  - destruct (concrete x) as [cx|] eqn:Ex; [|done]. inversion H as [| | | | | | | | | | | | | | |? ? w Hn Hx| | | |]; subst.
    rewrite (IHx _ _ Hx eq_refl) in E. cbn [inj mbind option_bind] in E.
    pose proof (eval_fits _ ρ _ _ Hx) as Fx. pose proof (typed_pos _ _ _ Hx) as Px. cbn [width] in *.
    pose proof (ok_Bv _ _ _ (Claripy.Claripy.zero_extend_val n w _ (word_fits _ _ Px Fx) ltac:(lia))) as Ez.
    change (ok (Bvv.BVV.ZeroExt n (mkBVV (eval ρ x) w)) = Some (mkBVV (eval ρ x) (w + n))) in Ez. rewrite Ez in E. by injection E.
  - destruct (concrete x) as [cx|] eqn:Ex; [|done]. inversion H as [| | | | | | | | | | | | | | | |? ? w Hn Hx| | |]; subst.
    rewrite (IHx _ _ Hx eq_refl) in E. cbn [inj mbind option_bind] in E.
    pose proof (eval_fits _ ρ _ _ Hx) as Fx. destruct (typed_size_pos _ _ _ Hx) as [Sx Px]. cbn [width] in *.
    pose proof (ok_Bv _ _ _ (Claripy.Claripy.sign_extend_val n w _ (word_fits _ _ Px Fx) ltac:(lia))) as Ez.
    change (ok (Bvv.BVV.SignExt n (mkBVV (eval ρ x) w)) = Some (mkBVV (to_signed w (eval ρ x) mod 2 ^ (w + n)) (w + n))) in Ez.
    rewrite Ez in E. injection E as <-. cbn. by rewrite Sx.
  - destruct (concrete c0) as [cc|] eqn:Ec; [|done]. destruct (concrete t) as [ct|] eqn:Et; [|done].
    destruct (concrete e) as [ce|] eqn:Ee; [|done]. inversion H as [| | | | | | | | | | | | | | | | |? ? ? ? Hc Ht He| |]; subst.
    rewrite (IHc _ _ Hc eq_refl), (IHt _ _ Ht eq_refl), (IHe _ _ He eq_refl) in E. cbn in E. injection E as <-. cbn.
    by destruct (eval ρ c0 =? 1).
Qed.

(** ** Refinement *)

(** [r] has the sort [s] and, under every valuation, the value of [t]. *)
Definition refines (strict : bool) (t : ast) (s : sort) (r : ast) : Prop :=
  typed strict r s ∧ ∀ ρ, eval ρ r = eval ρ t.

Lemma typed_abstract strict s v : 1 ≤ width s → fits (width s) v → typed strict (_abstract (inj s v)) s.
Proof. intros Hw Hv. destruct s as [|w]; cbn; [apply typed_BoolV|by apply typed_BVV]. Qed.

Lemma eval_abstract ρ s v : fits (width s) v → eval ρ (_abstract (inj s v)) = v.
Proof. intros Hv. destruct s; cbn; [|done]. by destruct (fits_bool v Hv) as [-> | ->]. Qed.

(** A node that is built keeps its sort and its value. *)
Lemma new_refines strict t s : typed strict t s → refines strict t s (new t).
Proof.
  intros H. unfold new. destruct (symbolic t); [by split|]. destruct (concrete t) as [c|] eqn:E; [|by split].
  assert (∀ ρ, c = inj s (eval ρ t)) as Hc by (intros ρ; by eapply concrete_exact). split.
  - rewrite (Hc (λ _, 0)). apply typed_abstract; [by eapply typed_pos|by eapply eval_fits].
  - intros ρ. rewrite (Hc ρ). apply eval_abstract. by eapply eval_fits.
Qed.

Lemma is_true_eval strict ρ t : typed strict t SBool → is_true t = true → eval ρ t = 1.
Proof.
  unfold is_true. intros H Ht. destruct (concrete t) as [c|] eqn:E; [|done].
  rewrite (concrete_exact _ ρ _ _ _ H E) in Ht. cbn in Ht. by apply Z.eqb_eq.
Qed.

Lemma is_false_eval strict ρ t : typed strict t SBool → is_false t = true → eval ρ t = 0.
Proof.
  unfold is_false. intros H Ht. destruct (concrete t) as [c|] eqn:E; [|done].
  rewrite (concrete_exact _ ρ _ _ _ H E) in Ht. cbn in Ht.
  destruct (eval_bool _ ρ _ H) as [|E1]; [done|]. by rewrite E1 in Ht.
Qed.
End SimplifySem.
