(* ===== verification/SimplifyBytes.v ===== *)
(** * Numbers read as bytes in the opposite order

    What [byte_swap] does to concatenations and to slices of whole bytes; the
    rules on reversals share it. *)

From Stdlib Require Import ZArith Lia Bool String.
From stdpp Require Import base tactics list numbers strings.
From S2P Require Import Prelude Bvv Claripy Pcode Simplify SimplifySem.
#[local] Open Scope Z_scope.
#[local] Open Scope list_scope.

Module SimplifyBytes.
Import Simplify.Simplify SimplifySem.SimplifySem.

Lemma byte_swap_app k : ∀ n a b, fits (8 * Z.of_nat k) b → 0 ≤ a →
  byte_swap (k + n) (a * 2 ^ (8 * Z.of_nat k) + b) = byte_swap k b * 2 ^ (8 * Z.of_nat n) + byte_swap n a.
Proof.
  unfold fits. induction k as [|k IH]; intros n a b Hb Ha.
  - change (8 * Z.of_nat 0) with 0 in *. rewrite Z.pow_0_r in *. assert (b = 0) as -> by lia.
    rewrite Z.mul_1_r, Z.add_0_r. done.
  - cbn [byte_swap Nat.add]. replace (8 * Z.of_nat (S k)) with (8 * Z.of_nat k + 8) in * by lia. rewrite Z.pow_add_r in * by lia.
    change (2 ^ 8) with 256 in *. pose proof (pow2_pos (8 * Z.of_nat k)).
    replace (a * (2 ^ (8 * Z.of_nat k) * 256) + b) with (b + a * 2 ^ (8 * Z.of_nat k) * 256) by lia.
    rewrite Z_mod_plus_full, Z.div_add by lia. rewrite (Z.add_comm (b / 256)), IH;
      [|split; [apply Z.div_pos; lia|apply Z.div_lt_upper_bound; lia]|done].
    rewrite Nat2Z.inj_add, Z.mul_add_distr_l, Z.pow_add_r by lia. lia.
Qed.

Lemma byte_swap_byte v : fits 8 v → byte_swap 1 v = v.
Proof. intros Hv. cbn. rewrite Z.add_0_r, Z.mul_1_r. by apply Z.mod_small. Qed.

Lemma byte_swap_involutive n v : fits (8 * Z.of_nat n) v → byte_swap n (byte_swap n v) = v.
Proof.
  intros Hv. apply (bits_inj_below _ _ (8 * Z.of_nat n)); [apply byte_swap_fits|done|lia|]. intros i Hi.
  rewrite (Z_div_mod_eq_full i 8). pose proof (Z.mod_pos_bound i 8 ltac:(lia)).
  assert (0 ≤ i / 8 < Z.of_nat n) by (split; [apply Z.div_pos; lia|apply Z.div_lt_upper_bound; lia]).
  rewrite !byte_swap_testbit by lia. f_equal. lia.
Qed.

Definition bytes (w : Z) : nat := Z.to_nat (w / 8).

Lemma bytes_exact w : 0 ≤ w → w mod 8 = 0 → 8 * Z.of_nat (bytes w) = w.
Proof. intros Hw H. unfold bytes. rewrite Z2Nat.id by (apply Z.div_pos; lia). symmetry. by apply Z_div_exact_full_2. Qed.

Lemma bytes_add u v : 0 ≤ u → 0 ≤ v → u mod 8 = 0 → v mod 8 = 0 → bytes (u + v) = (bytes u + bytes v)%nat.
Proof.
  intros Hu Hv Eu Ev. pose proof (bytes_exact u Hu Eu). pose proof (bytes_exact v Hv Ev).
  assert ((u + v) mod 8 = 0) as E by (by rewrite Z.add_mod, Eu, Ev by lia). pose proof (bytes_exact (u + v) ltac:(lia) E). lia.
Qed.

Lemma typed_Reverse_inv strict x s : typed strict (Un Reverse x) s → ∃ w, s = SBV w ∧ w mod 8 = 0 ∧ typed strict x (SBV w).
Proof. intros H. inversion H; subst. eauto. Qed.

Lemma eval_Reverse ρ x : eval ρ (Un Reverse x) = byte_swap (bytes (size x)) (eval ρ x).
Proof. done. Qed.

Lemma reverse_of_extract (v : Z) n hi lo : fits (8 * Z.of_nat n) v → 0 ≤ lo ≤ hi → hi < 8 * Z.of_nat n →
  (hi + 1) mod 8 = 0 → lo mod 8 = 0 →
  byte_swap (bytes (hi + 1 - lo)) ((byte_swap n v / 2 ^ lo) mod 2 ^ (hi + 1 - lo)) =
  (v / 2 ^ (8 * Z.of_nat n - hi - 1)) mod 2 ^ (hi + 1 - lo).
Proof.
  intros Hv Hlo Hhi Eh El. assert ((hi + 1 - lo) mod 8 = 0) as Em by (by rewrite Zminus_mod, Eh, El).
  pose proof (bytes_exact (hi + 1 - lo) ltac:(lia) Em) as Hm. set (m := bytes (hi + 1 - lo)) in *.
  apply (bits_inj_below _ _ (hi + 1 - lo)); [rewrite <-Hm; apply byte_swap_fits|apply fits_mod; lia|lia|]. intros i Hi.
  rewrite !testbit_mod_pow2 by lia. destruct (Z.ltb_spec i (hi + 1 - lo)); [|lia]. rewrite andb_true_l.
  rewrite (Z_div_mod_eq_full i 8) at 1. pose proof (Z.mod_pos_bound i 8 ltac:(lia)). pose proof (Z_div_mod_eq_full i 8).
  rewrite byte_swap_testbit by lia. rewrite testbit_mod_pow2 by lia.
  destruct (Z.ltb_spec (8 * (Z.of_nat m - 1 - i / 8) + i mod 8) (hi + 1 - lo)); [|lia]. rewrite andb_true_l.
  rewrite <-!Z.shiftr_div_pow2, !Z.shiftr_spec by lia. pose proof (Z_div_mod_eq_full lo 8).
  replace (8 * (Z.of_nat m - 1 - i / 8) + i mod 8 + lo) with (8 * (Z.of_nat m - 1 - i / 8 + lo / 8) + i mod 8) by lia.
  rewrite byte_swap_testbit by lia. f_equal. lia.
Qed.

(** One byte of a reversal. *)
Lemma byte_of_reverse (v : Z) n low : fits (8 * Z.of_nat n) v → 0 ≤ low → low + 8 ≤ 8 * Z.of_nat n → low mod 8 = 0 →
  (byte_swap n v / 2 ^ low) mod 2 ^ 8 = (v / 2 ^ (8 * Z.of_nat n - low - 8)) mod 2 ^ 8.
Proof.
  intros Hv Hl Hn Hm. pose proof (reverse_of_extract v n (low + 7) low Hv) as E.
  replace (low + 7 + 1 - low) with 8 in E by lia. replace (8 * Z.of_nat n - (low + 7) - 1) with (8 * Z.of_nat n - low - 8) in E by lia.
  rewrite <-E; [|lia|lia| |done].
  - symmetry. apply byte_swap_byte, fits_mod. lia.
  - replace (low + 7 + 1) with (low + 1 * 8) by lia. by rewrite Z_mod_plus_full.
Qed.
End SimplifyBytes.
