(* ===== verification/SimplifyFlat.v ===== *)
(** * Associative operations of expressions

    The operations that take any number of arguments, concatenation apart, fold
    a commutative monoid on the values of a width ([op2], [unit_of]): what
    flattening, reordering and deduplication of arguments rest on.  Then
    inversion and introduction of [typed] for them, and the soundness of
    [_flatten_simplifier]. *)

From Stdlib Require Import ZArith Lia Bool String.
From stdpp Require Import base tactics list numbers strings.
From S2P Require Import Prelude Bvv Claripy Pcode Simplify SimplifySem.
#[local] Open Scope Z_scope.
#[local] Open Scope list_scope.

Module SimplifyFlat.
Import Simplify.Simplify SimplifySem.SimplifySem.

(** ** The monoid *)

Definition op2 (o : naryop) (w a b : Z) : Z :=
  match o with
  | Add => (a + b) mod 2 ^ w
  | Mul => (a * b) mod 2 ^ w
  | BAnd | And => Z.land a b
  | BOr | Or => Z.lor a b
  | BXor => Z.lxor a b
  | Concat => 0
  end.

Definition unit_of (o : naryop) (w : Z) : Z :=
  match o with Mul => 1 | BAnd | And => 2 ^ w - 1 | _ => 0 end.

Definition fold (o : naryop) (w : Z) (l : list Z) : Z := foldr (op2 o w) (unit_of o w) l.

Lemma op2_fits o w a b : 1 ≤ w → fits w a → fits w b → fits w (op2 o w a b).
Proof.
  intros Hw Ha Hb. destruct o; cbn; try (apply fits_mod; lia); try (apply fits_land || apply fits_lor || apply fits_lxor);
    auto; try lia. unfold fits. pose proof (pow2_pos w). lia.
Qed.

Lemma unit_fits o w : 1 ≤ w → fits w (unit_of o w).
Proof. intros. pose proof (Z.pow_le_mono_r 2 1 w). unfold fits. destruct o; cbn; lia. Qed.

Lemma op2_comm o w a b : op2 o w a b = op2 o w b a.
Proof. destruct o; cbn; (by rewrite Z.add_comm) || (by rewrite Z.mul_comm) || (by rewrite Z.land_comm) || (by rewrite Z.lor_comm) || (by rewrite Z.lxor_comm) || done. Qed.

Lemma op2_assoc o w a b c : 0 ≤ w → op2 o w a (op2 o w b c) = op2 o w (op2 o w a b) c.
Proof.
  intros Hw. pose proof (pow2_pos w Hw). destruct o; cbn; try done.
  - rewrite Z.add_mod_idemp_l, Z.add_mod_idemp_r by lia. f_equal. lia.
  - rewrite Z.mul_mod_idemp_l, Z.mul_mod_idemp_r by lia. f_equal. lia.
  - apply Z.land_assoc.
  - apply Z.lor_assoc.
  - by rewrite Z.lxor_assoc.
  - apply Z.land_assoc.
  - apply Z.lor_assoc.
Qed.

Lemma op2_unit o w a : o ≠ Concat → 0 ≤ w → fits w a → op2 o w a (unit_of o w) = a.
Proof.
  intros Ho Hw Ha. destruct o; cbn; try done; rewrite ?Z.add_0_r, ?Z.mul_1_r, ?Z.lor_0_r, ?Z.lxor_0_r; try done;
    try (by apply Z.mod_small); by apply land_ones_fits.
Qed.

Lemma fold_fits' o w l : 1 ≤ w → Forall (fits w) l → fits w (fold o w l).
Proof. intros Hw. induction 1; cbn; [by apply unit_fits|by apply op2_fits]. Qed.

Lemma fold_app o w l1 l2 : o ≠ Concat → 1 ≤ w → Forall (fits w) l1 → Forall (fits w) l2 →
  fold o w (l1 ++ l2) = op2 o w (fold o w l1) (fold o w l2).
Proof.
  intros Ho Hw H1 H2. induction H1 as [|a l1 Ha _ IH].
  - cbn. rewrite op2_comm, op2_unit; [done|done|lia|by apply fold_fits'].
  - change (op2 o w a (fold o w (l1 ++ l2)) = op2 o w (op2 o w a (fold o w l1)) (fold o w l2)).
    rewrite IH, op2_assoc by lia. done.
Qed.

Lemma fold_single o w a : o ≠ Concat → 1 ≤ w → fits w a → fold o w [a] = a.
Proof. intros. apply op2_unit; [done|lia|done]. Qed.

Lemma fold_Permutation o w l1 l2 : 0 ≤ w → l1 ≡ₚ l2 → fold o w l1 = fold o w l2.
Proof.
  intros Hw. induction 1 as [|a l l' _ IH|a b l|? ? ? _ IH1 _ IH2]; cbn; [done|by f_equal| |congruence].
  by rewrite op2_assoc, (op2_comm o w b a), <-op2_assoc.
Qed.

(** The value of a node is the fold of the values of its arguments. *)
Lemma nary_value_fold o w (pairs : list (Z * Z)) :
  o ≠ Concat → 1 ≤ w → nary_value o w pairs = fold o w pairs.*1.
Proof.
  intros Ho Hw. pose proof (pow2_pos w ltac:(lia)). unfold fold. destruct o; try done; cbn [nary_value unit_of];
    induction pairs as [|p l IH]; cbn; try done; try (by rewrite <-IH).
  - rewrite <-IH. by rewrite Z.add_mod_idemp_r by lia.
  - pose proof (Z.pow_le_mono_r 2 1 w). apply Z.mod_small. lia.
  - rewrite <-IH. by rewrite Z.mul_mod_idemp_r by lia.
Qed.

(** ** Typing *)

Definition flat (strict : bool) (o : naryop) (s : sort) : Prop :=
  match s with SBool => o = And ∨ o = Or | SBV _ => vector_nary strict o = true end.

Lemma flat_not_Concat strict o s : flat strict o s → o ≠ Concat.
Proof. intros H ->. destruct s; [by destruct H|done]. Qed.

Lemma typed_flat strict o s xs : flat strict o s → xs ≠ [] → Forall (λ x, typed strict x s) xs → typed strict (Nary o xs) s.
Proof. destruct s; intros; [by apply typed_connective|by apply typed_nary]. Qed.

Lemma typed_flat_inv strict o xs s :
  o ≠ Concat → typed strict (Nary o xs) s → flat strict o s ∧ xs ≠ [] ∧ Forall (λ x, typed strict x s) xs.
Proof. intros Ho H. inversion H; subst; done. Qed.

Lemma typed_Concat_inv strict xs s :
  typed strict (Nary Concat xs) s → ∃ ws, s = SBV (sum ws) ∧ xs ≠ [] ∧ Forall2 (λ x w, typed strict x (SBV w)) xs ws.
Proof. intros H. inversion H as [| | | | | | | | | | |? ? ? Ho|? ? Ho|? ws| | | | | |]; subst; [done|by destruct Ho|eauto]. Qed.

Definition vals (ρ : ast → Z) (xs : list ast) : list Z := eval ρ <$> xs.

Lemma vals_fit strict ρ s xs : Forall (λ x, typed strict x s) xs → Forall (fits (width s)) (vals ρ xs).
Proof. apply evals_fit. Qed.

Lemma eval_flat strict ρ o xs s :
  flat strict o s → xs ≠ [] → Forall (λ x, typed strict x s) xs → eval ρ (Nary o xs) = fold o (width s) (vals ρ xs).
Proof.
  intros Ho Hne Hxs. pose proof (typed_flat _ _ _ _ Ho Hne Hxs) as Ht. cbn [eval]. rewrite (typed_size _ _ _ Ht).
  rewrite nary_value_fold; [by rewrite pairs_fst|by eapply flat_not_Concat|by eapply typed_pos].
Qed.

Lemma refines_refl strict t s : typed strict t s → refines strict t s t.
Proof. by split. Qed.

Lemma refines_trans strict t s r r' : refines strict t s r → refines strict r s r' → refines strict t s r'.
Proof. intros [_ E] [H' E']. split; [done|]. intros ρ. by rewrite E', E. Qed.

(** Reading through the values: a node with the same fold. *)
Lemma refines_flat strict o s xs ys :
  flat strict o s → xs ≠ [] → ys ≠ [] → Forall (λ x, typed strict x s) xs → Forall (λ x, typed strict x s) ys →
  (∀ ρ, fold o (width s) (vals ρ ys) = fold o (width s) (vals ρ xs)) → refines strict (Nary o xs) s (Nary o ys).
Proof.
  intros Ho Hx Hy Tx Ty E. split; [by apply typed_flat|]. intros ρ. by rewrite !(eval_flat strict ρ o _ s).
Qed.

(** ** Filters of arguments *)

(** [f] keeps the fold, and leaves something unless there is an initial value,
    which is then the unit. *)
Record good_filter (strict : bool) (o : naryop) (s : sort) (f : list ast → list ast) (initial : option ast) : Prop := {
  filter_typed l : Forall (λ x, typed strict x s) l → Forall (λ x, typed strict x s) (f l);
  filter_fold ρ l : Forall (λ x, typed strict x s) l → fold o (width s) (vals ρ (f l)) = fold o (width s) (vals ρ l);
  filter_empty l : l ≠ [] → f l = [] → is_Some initial;
  filter_initial v : initial = Some v → typed strict v s ∧ ∀ ρ, eval ρ v = unit_of o (width s) }.

Lemma id_good strict o s : good_filter strict o s id None.
Proof. split; by auto. Qed.

Lemma filter_zero_good strict w :
  1 ≤ w → good_filter strict Add (SBV w) (List.filter (λ a, match a with BVV 0 _ => false | _ => true end)) (Some (bvv 0 w)).
Proof.
  intros Hw. split.
  - intros l Hl. rewrite !Forall_forall in *. intros x Hx. apply Hl. rewrite list_elem_of_In in *. by apply filter_In in Hx as [].
  - intros ρ l Hl. induction Hl as [|x l Hx Hl IH]; [done|]. cbn [List.filter].
    assert (fits w (fold Add w (vals ρ l))) by (apply fold_fits'; [done|by apply (vals_fit strict ρ (SBV w))]).
    destruct x as [| [] | | | | | | | | | |]; cbn [vals fmap list_fmap fold foldr] in *; try (by f_equal).
    rewrite IH. cbn [eval]. change (fold Add w (vals ρ l) = op2 Add w 0 (fold Add w (vals ρ l))). cbn. by rewrite Z.mod_small.
  - eauto.
  - intros v [= <-]. unfold bvv. rewrite Z.mod_0_l by (pose proof (pow2_pos w); lia).
    split; [apply typed_BVV; [done|]; pose proof (pow2_pos w); lia|done].
Qed.

Definition idempotent (o : naryop) : Prop := match o with BAnd | BOr | And | Or => True | _ => False end.

Lemma op2_diag o w a : idempotent o → op2 o w a a = a.
Proof. destruct o; intros []; cbn; apply Z.land_diag || apply Z.lor_diag. Qed.

Lemma fold_absorb o w a l : idempotent o → 0 ≤ w → a ∈ l → op2 o w (fold o w l) a = fold o w l.
Proof.
  intros Ho Hw. induction 1 as [a l|a b l _ IH]; cbn.
  - rewrite op2_comm, op2_assoc by done. by rewrite op2_diag.
  - rewrite <-op2_assoc by done. by f_equal.
Qed.

Lemma deduplicate_fold o w ρ args : idempotent o → 0 ≤ w →
  ∀ seen, op2 o w (fold o w (vals ρ seen)) (fold o w (vals ρ (deduplicate seen args))) =
          op2 o w (fold o w (vals ρ seen)) (fold o w (vals ρ args)).
Proof.
  intros Ho Hw. induction args as [|a args IH]; intros seen; [done|]. cbn [deduplicate].
  change (fold o w (vals ρ (a :: args))) with (op2 o w (eval ρ a) (fold o w (vals ρ args))). rewrite op2_assoc by done.
  case_bool_decide as Ha.
  - rewrite (fold_absorb o w (eval ρ a)); [apply IH|done|done|by apply (list_elem_of_fmap_2 (eval ρ))].
  - change (fold o w (vals ρ (a :: deduplicate (a :: seen) args))) with (op2 o w (eval ρ a) (fold o w (vals ρ (deduplicate (a :: seen) args)))).
    rewrite op2_assoc by done. rewrite (op2_comm o w _ (eval ρ a)). exact (IH (a :: seen)).
Qed.

Lemma deduplicate_incl seen args x : x ∈ deduplicate seen args → x ∈ args.
Proof.
  revert seen. induction args as [|a args IH]; intros seen; cbn; [done|]. case_bool_decide.
  - intros Hx. right. by eapply IH.
  - intros [-> | Hx]%elem_of_cons; [by left|right; by eapply IH].
Qed.

Lemma deduplicate_good strict o s : idempotent o → flat strict o s → good_filter strict o s _deduplicate_filter None.
Proof.
  intros Ho Hflat. split; [| |by intros [|a l]|done].
  - intros l Hl. rewrite Forall_forall in *. intros x Hx. eapply Hl, deduplicate_incl, Hx.
  - intros ρ l Hl. destruct l as [|a l]; [done|]. assert (1 ≤ width s) by (eapply typed_pos, (Forall_inv Hl)).
    pose proof (deduplicate_fold o (width s) ρ (a :: l) Ho ltac:(lia) []) as E.
    change (fold o (width s) (vals ρ [])) with (unit_of o (width s)) in E.
    assert (∀ v, fits (width s) v → op2 o (width s) (unit_of o (width s)) v = v) as U.
    { intros v Hv. rewrite op2_comm. apply op2_unit; [by eapply flat_not_Concat|lia|done]. }
    rewrite !U in E; [exact E| |]; apply fold_fits'; try done; apply (vals_fit strict ρ s); [done|].
    rewrite Forall_forall in *. intros x Hx. eapply Hl, deduplicate_incl, Hx.
Qed.

(** ** Flattening *)

Lemma Forall_List_filter {A} (P : A → Prop) (p : A → bool) l : Forall P l → Forall P (List.filter p l).
Proof. rewrite !Forall_forall. intros Hl x Hx. apply Hl. rewrite list_elem_of_In in *. by apply filter_In in Hx as []. Qed.

Lemma filter_partition {A} (p : A → bool) l : List.filter (λ a, negb (p a)) l ++ List.filter p l ≡ₚ l.
Proof. induction l as [|a l IH]; cbn; [done|]. destruct (p a); cbn; [by rewrite <-Permutation_middle, IH|by rewrite IH]. Qed.

Section Flatten.
Context (strict : bool) (o : naryop) (s : sort) (Ho : flat strict o s).
Let w := width s.

Lemma fold_vals_app ρ l1 l2 : 1 ≤ w → Forall (λ x, typed strict x s) l1 → Forall (λ x, typed strict x s) l2 →
  fold o w (vals ρ (l1 ++ l2)) = op2 o w (fold o w (vals ρ l1)) (fold o w (vals ρ l2)).
Proof.
  intros Hw H1 H2. unfold vals. rewrite fmap_app. apply fold_app; [by eapply flat_not_Concat|done| |];
    by apply (vals_fit strict ρ s).
Qed.

Lemma fold_vals_single ρ x : typed strict x s → fold o w (vals ρ [x]) = eval ρ x.
Proof. intros Hx. apply fold_single; [by eapply flat_not_Concat|by eapply typed_pos|by eapply eval_fits]. Qed.

Definition splice (a : ast) : list ast :=
  match a with Nary o' xs => if bool_decide (o' = o) && (length xs <? 1000)%nat then xs else [a] | _ => [a] end.

Lemma splice_sound a : typed strict a s →
  splice a ≠ [] ∧ Forall (λ x, typed strict x s) (splice a) ∧ ∀ ρ, fold o w (vals ρ (splice a)) = eval ρ a.
Proof.
  intros Ha. assert ([a] ≠ [] ∧ Forall (λ x, typed strict x s) [a] ∧ ∀ ρ, fold o w (vals ρ [a]) = eval ρ a) as Hsingle.
  { split; [done|]. split; [by repeat constructor|]. intros ρ.
    apply fold_single; [by eapply flat_not_Concat|by eapply typed_pos|by eapply eval_fits]. }
  destruct a as [| | | | | |o' xs| | | | |]; try exact Hsingle. cbn [splice].
  case_bool_decide as E; cbn [andb]; [|exact Hsingle]. subst o'. destruct (_ <? _)%nat; [|exact Hsingle].
  destruct (typed_flat_inv _ _ _ _ (flat_not_Concat _ _ _ Ho) Ha) as (_ & Hne & Hxs).
  split; [done|]. split; [done|]. intros ρ. symmetry. by apply (eval_flat strict ρ o xs s).
Qed.

Lemma splice_all args : Forall (λ x, typed strict x s) args → args ≠ [] →
  args ≫= splice ≠ [] ∧ Forall (λ x, typed strict x s) (args ≫= splice) ∧
  ∀ ρ, fold o w (vals ρ (args ≫= splice)) = fold o w (vals ρ args).
Proof.
  intros Hargs Hne. assert (1 ≤ w) by (destruct Hargs; [done|by eapply typed_pos]).
  assert (Forall (λ x, typed strict x s) (args ≫= splice) ∧
          ∀ ρ, fold o w (vals ρ (args ≫= splice)) = fold o w (vals ρ args)) as [H1 H2].
  { clear Hne. induction Hargs as [|a args Ha Hargs [IH1 IH2]]; [done|]. destruct (splice_sound a Ha) as (_ & T & E).
    change ((a :: args) ≫= splice) with (splice a ++ (args ≫= splice)). split; [by apply Forall_app|]. intros ρ.
    rewrite fold_vals_app, E, IH2 by done. change (a :: args) with ([a] ++ args).
    rewrite fold_vals_app by (done || by repeat constructor). by rewrite fold_vals_single. }
  split; [|done]. destruct Hargs as [|a args Ha]; [done|]. destruct (splice_sound a Ha) as (Hn & _).
  change ((a :: args) ≫= splice) with (splice a ++ (args ≫= splice)). by destruct (splice a).
Qed.

(** Collapsing the constants. *)
Definition collapse (new_args : list ast) : list ast :=
  let value_args := List.filter is_BVV new_args in
  let other_args := List.filter (λ a, negb (is_BVV a)) new_args in
  if negb (Nat.eqb (length other_args) 0) && (1 <? length value_args)%nat
  then other_args ++ [new (Nary o value_args)] else new_args.

Lemma collapse_sound l : Forall (λ x, typed strict x s) l → l ≠ [] →
  collapse l ≠ [] ∧ Forall (λ x, typed strict x s) (collapse l) ∧ ∀ ρ, fold o w (vals ρ (collapse l)) = fold o w (vals ρ l).
Proof.
  intros Hl Hne. unfold collapse. destruct (negb _ && _) eqn:E; [|by split].
  apply andb_true_iff in E as [_ Hv%Nat.ltb_lt].
  pose proof (Forall_List_filter _ is_BVV _ Hl) as Tv. pose proof (Forall_List_filter _ (λ a, negb (is_BVV a)) _ Hl) as To.
  assert (List.filter is_BVV l ≠ []) as Hvne by (intros E; rewrite E in Hv; cbn in Hv; lia).
  destruct (new_refines _ _ _ (typed_flat _ _ _ _ Ho Hvne Tv)) as [Tn En].
  split; [by intros [_ [=]]%app_eq_nil|]. split; [apply Forall_app; by auto|]. intros ρ.
  assert (1 ≤ w) by exact (typed_pos _ _ _ Tn).
  rewrite fold_vals_app by (done || by repeat constructor).
  rewrite fold_vals_single, En, (eval_flat strict ρ o _ s) by done. rewrite <-fold_vals_app by done. unfold vals.
  apply fold_Permutation; [lia|]. by rewrite filter_partition.
Qed.

Lemma flatten_unfold f initial args :
  _flatten_simplifier o f initial args =
  let new_args := f (collapse (args ≫= splice)) in
  match new_args, initial with [], Some v => Some v | [x], _ => Some x | _, _ => Some (new (Nary o new_args)) end.
Proof. reflexivity. Qed.

Lemma flatten_sound f initial args r :
  good_filter strict o s f initial → typed strict (Nary o args) s →
  _flatten_simplifier o f initial args = Some r → refines strict (Nary o args) s r.
Proof.
  intros Hf Ht E. pose proof (flat_not_Concat _ _ _ Ho) as HC.
  destruct (typed_flat_inv _ _ _ _ HC Ht) as (_ & Hne & Hargs).
  destruct (splice_all args Hargs Hne) as (Hne1 & T1 & E1). destruct (collapse_sound _ T1 Hne1) as (Hne2 & T2 & E2).
  rewrite flatten_unfold in E. cbv zeta in E.
  set (l := collapse (args ≫= splice)) in *. pose proof (filter_typed _ _ _ _ _ Hf l T2) as Tf.
  assert (∀ ρ, fold o w (vals ρ (f l)) = eval ρ (Nary o args)) as Ef.
  { intros ρ. etransitivity; [exact (filter_fold _ _ _ _ _ Hf ρ l T2)|]. fold w. rewrite E2, E1. symmetry. by apply (eval_flat strict ρ o args s). }
  assert (1 ≤ w) by exact (typed_pos _ _ _ Ht).
  destruct (f l) as [|x [|y l']] eqn:El.
  - destruct (filter_empty _ _ _ _ _ Hf l Hne2 El) as [v Hv]. rewrite Hv in E. injection E as <-.
    destruct (filter_initial _ _ _ _ _ Hf v Hv) as [Tv Ev]. split; [done|]. intros ρ. by rewrite Ev, <-Ef.
  - injection E as <-. split; [exact (Forall_inv Tf)|]. intros ρ. rewrite <-Ef.
    symmetry. apply fold_vals_single, (Forall_inv Tf).
  - injection E as <-. eapply refines_trans; [|apply new_refines, (typed_flat _ _ s); done].
    split; [by apply typed_flat|]. intros ρ. rewrite <-Ef. by apply (eval_flat strict ρ o _ s).
Qed.
End Flatten.
End SimplifyFlat.
