(* ===== verification/SimplifyRules.v ===== *)
(** * The simplifiers preserve the value

    Inversion of [typed], what the operations built by [build] give when
    [build] is sound, and for each simplifier that whatever it returns refines
    the operation it was tried on.  [build] is an argument throughout: the knot
    is tied in [SimplifyFacts]. *)

From Stdlib Require Import ZArith Lia Bool String.
From stdpp Require Import base tactics list numbers strings.
From S2P Require Import Prelude Bvv Claripy Pcode Simplify SimplifySem SimplifyFlat.
#[local] Open Scope Z_scope.
#[local] Open Scope list_scope.

Module SimplifyRules.
Import Bvv.BVV(to_signed) Simplify.Simplify SimplifySem.SimplifySem SimplifyFlat.SimplifyFlat.

(** ** Sorts are unique *)

Lemma typed_unique strict t : ∀ s s', typed strict t s → typed strict t s' → s = s'.
Proof.
  induction t as [n w|v w|n|b|o x IHx|o x y IHx IHy|o xs IH|hi lo x IHx|n x IHx|n x IHx|c t e IHc IHt IHe|n w xs] using ast_ind';
    intros s s' H H'; pose proof (typed_size _ _ _ H) as Hs; pose proof (typed_size _ _ _ H') as Hs';
    inversion H; subst; inversion H'; subst; cbn [width] in *; try done; try congruence; eauto; try intuition discriminate;
    repeat match goal with
      | H : ?o = _ ∨ ?o = _ |- _ => destruct H; subst o
      | H : typed _ ?x ?s, H' : typed _ ?x ?s', IH : ∀ s s', typed _ ?x s → typed _ ?x s' → s = s' |- _ =>
          is_var s'; pose proof (IH _ _ H H'); clear H'; subst; try simplify_eq
    end; try done.
  all: intuition subst; discriminate || (destruct o; discriminate).
Qed.

(** ** Inversion *)

Lemma typed_vector_inv strict o x y s :
  comparison o = false → typed strict (Bin o x y) s →
  ∃ w, s = SBV w ∧ vector_bin strict o = true ∧ typed strict x (SBV w) ∧ typed strict y (SBV w).
Proof. intros Ho H. inversion H; subst; intuition subst; try discriminate; eauto; destruct o; discriminate. Qed.

Lemma typed_comparison_inv strict o x y s :
  comparison o = true → typed strict (Bin o x y) s →
  s = SBool ∧ ∃ s', typed strict x s' ∧ typed strict y s' ∧ (o = Eq ∨ o = Ne ∨ ∃ w, s' = SBV w).
Proof.
  intros Ho H. inversion H; subst; intuition subst; try (by destruct o); eauto 10.
Qed.

Lemma typed_ordering_inv strict o x y s :
  comparison o = true → o ≠ Eq → o ≠ Ne → typed strict (Bin o x y) s →
  s = SBool ∧ ∃ w, typed strict x (SBV w) ∧ typed strict y (SBV w).
Proof.
  intros Ho He Hn H. destruct (typed_comparison_inv _ _ _ _ _ Ho H) as (-> & s' & Hx & Hy & [E | [E | [w ->]]]); try done. eauto.
Qed.

Lemma typed_BVV_inv strict v w s : typed strict (BVV v w) s → s = SBV w ∧ 1 ≤ w ∧ fits w v.
Proof. intros H. by inversion H; subst. Qed.

Lemma typed_ZeroExt_inv strict n x s : typed strict (ZeroExt n x) s → ∃ w, s = SBV (w + n) ∧ 1 ≤ n ∧ typed strict x (SBV w).
Proof. intros H. inversion H; subst. eauto. Qed.

Lemma typed_SignExt_inv strict n x s : typed strict (SignExt n x) s → ∃ w, s = SBV (w + n) ∧ 1 ≤ n ∧ typed strict x (SBV w).
Proof. intros H. inversion H; subst. eauto. Qed.

Lemma typed_Extract_inv strict high low x s : typed strict (Extract high low x) s →
  ∃ w, s = SBV (high + 1 - low) ∧ 0 ≤ low ≤ high ∧ high < w ∧ typed strict x (SBV w).
Proof. intros H. inversion H; subst. eauto 10. Qed.

Lemma typed_If_inv strict c t e s : typed strict (If c t e) s → typed strict c SBool ∧ typed strict t s ∧ typed strict e s.
Proof. intros H. by inversion H; subst. Qed.

Lemma typed_Not_inv strict x s : typed strict (Un Not x) s → s = SBool ∧ typed strict x SBool.
Proof. intros H. by inversion H; subst. Qed.

Lemma typed_Concat2_inv strict x y s : typed strict (Nary Concat [x; y]) s →
  ∃ wx wy, s = SBV (wx + wy) ∧ typed strict x (SBV wx) ∧ typed strict y (SBV wy).
Proof.
  intros (ws & -> & _ & H)%typed_Concat_inv. inversion H as [|? wx ? ? Hx H']; subst.
  inversion H' as [|? wy ? ? Hy H'']; subst. inversion H''; subst. exists wx, wy.
  split; [unfold sum; cbn; f_equal; lia|done].
Qed.

Lemma eval_Concat2 ρ x y : eval ρ (Nary Concat [x; y]) = eval ρ x * 2 ^ size y + eval ρ y.
Proof. cbn. rewrite !Z.add_0_r, Z.pow_0_r. lia. Qed.

Lemma typed_bvv strict v w : 1 ≤ w → typed strict (bvv v w) (SBV w).
Proof. intros. apply typed_BVV; [done|]. apply mod_pow2_bound. lia. Qed.

Lemma eval_bvv_0 ρ w : eval ρ (bvv 0 w) = 0.
Proof. apply Zmod_0_l. Qed.

Lemma same_true x y : same x y = true → x = y.
Proof. unfold same. by case_bool_decide. Qed.

(** [size] in terms of the width known from [typed]. *)
Ltac sizes := repeat match goal with
  | H : typed _ ?x ?s |- context [size ?x] => rewrite (typed_size _ _ _ H); cbn [width]
  | H : typed _ ?x ?s, H' : context [size ?x] |- _ => rewrite (typed_size _ _ _ H) in H'; cbn [width] in H'
  end.

(** ** What is built *)

(** What the simplifiers ask of the operation that builds nodes. *)
Class SoundBuild (strict : bool) (build : ast → ast) : Prop :=
  build_sound t s : typed strict t s → refines strict t s (build t).

Section Rules.
Context {strict : bool} {build : ast → ast} `{!SoundBuild strict build}.
Implicit Types (a b c x y : ast) (s : sort) (w : Z).
#[local] Abbreviation ty := (typed strict).

Lemma build_refines t s : ty t s → refines strict t s (build t).
Proof. exact (build_sound t s). Qed.

Lemma build_ok t s v : ty t s → (∀ ρ, eval ρ t = v ρ) → ty (build t) s ∧ ∀ ρ, eval ρ (build t) = v ρ.
Proof. intros Ht Hv. destruct (build_refines t s Ht) as [T E]. split; [done|]. intros ρ. by rewrite E. Qed.

Lemma bool_size : width SBool = 1.
Proof. done. Qed.

Lemma typed_Eq s o x y : o = Eq ∨ o = Ne → ty x s → ty y s → ty (Bin o x y) SBool.
Proof. intros Ho Hx Hy. destruct s; [by apply typed_equation|]. eapply typed_comparison; eauto. by destruct Ho as [-> | ->]. Qed.

Lemma eq_ok a b s : ty a s → ty b s → ty (eq_ build a b) SBool ∧ ∀ ρ, eval ρ (eq_ build a b) = Z.b2z (eval ρ a =? eval ρ b).
Proof. intros Ha Hb. apply build_ok; [by eapply typed_Eq; eauto|done]. Qed.

Lemma ne_ok a b s : ty a s → ty b s → ty (ne_ build a b) SBool ∧ ∀ ρ, eval ρ (ne_ build a b) = Z.b2z (negb (eval ρ a =? eval ρ b)).
Proof. intros Ha Hb. apply build_ok; [by eapply typed_Eq; eauto|done]. Qed.

Lemma compare_ok o a b w : comparison o = true → ty a (SBV w) → ty b (SBV w) →
  ty (compare_ build o a b) SBool ∧ ∀ ρ, eval ρ (compare_ build o a b) = bin_value o w (eval ρ a) (eval ρ b).
Proof. intros Ho Ha Hb. apply build_ok; [by eapply typed_comparison; eauto|]. intros ρ. cbn [eval]. by sizes. Qed.

Lemma not_ok a : ty a SBool → ty (not_ build a) SBool ∧ ∀ ρ, eval ρ (not_ build a) = 1 - eval ρ a.
Proof. intros Ha. apply build_ok; [by apply typed_Not|done]. Qed.

Lemma sub_ok a b w : ty a (SBV w) → ty b (SBV w) →
  ty (sub_ build a b) (SBV w) ∧ ∀ ρ, eval ρ (sub_ build a b) = (eval ρ a - eval ρ b) mod 2 ^ w.
Proof. intros Ha Hb. apply build_ok; [by apply typed_vector|]. intros ρ. cbn [eval bin_value]. by sizes. Qed.

Lemma eval_pair ρ o a b s : flat strict o s → ty a s → ty b s → eval ρ (Nary o [a; b]) = op2 o (width s) (eval ρ a) (eval ρ b).
Proof.
  intros Ho Ha Hb. rewrite (eval_flat strict ρ o _ s) by auto. cbn.
  rewrite (op2_unit o (width s) (eval ρ b)); [done|by eapply flat_not_Concat|pose proof (typed_pos _ _ _ Ha); lia|by eapply eval_fits].
Qed.

Lemma flat2_ok o a b s : flat strict o s → ty a s → ty b s →
  ty (build (Nary o [a; b])) s ∧ ∀ ρ, eval ρ (build (Nary o [a; b])) = op2 o (width s) (eval ρ a) (eval ρ b).
Proof. intros Ho Ha Hb. apply build_ok; [apply typed_flat; auto|]. intros ρ. by apply eval_pair. Qed.

Lemma add_ok a b w : ty a (SBV w) → ty b (SBV w) →
  ty (add_ build a b) (SBV w) ∧ ∀ ρ, eval ρ (add_ build a b) = (eval ρ a + eval ρ b) mod 2 ^ w.
Proof. by apply (flat2_ok Add). Qed.

Lemma and_ok a b w : ty a (SBV w) → ty b (SBV w) →
  ty (and_ build a b) (SBV w) ∧ ∀ ρ, eval ρ (and_ build a b) = Z.land (eval ρ a) (eval ρ b).
Proof. by apply (flat2_ok BAnd). Qed.

Lemma extract_ok high low a w : ty a (SBV w) → 0 ≤ low ≤ high → high < w →
  ty (extract build high low a) (SBV (high + 1 - low)) ∧
  ∀ ρ, eval ρ (extract build high low a) = (eval ρ a / 2 ^ low) mod 2 ^ (high + 1 - low).
Proof. intros Ha Hl Hh. apply build_ok; [by eapply typed_Extract|done]. Qed.

Lemma zeroext_ok n a w : ty a (SBV w) → 1 ≤ n → ty (build (ZeroExt n a)) (SBV (w + n)) ∧ ∀ ρ, eval ρ (build (ZeroExt n a)) = eval ρ a.
Proof. intros Ha Hn. apply build_ok; [by apply typed_ZeroExt|done]. Qed.

Lemma equals_ok a b s : ty a s → ty b s → equals build a b = true → ∀ ρ, eval ρ a = eval ρ b.
Proof.
  unfold equals. intros Ha Hb H ρ. destruct (eq_ok a b s Ha Hb) as [T E]. pose proof (is_true_eval _ ρ _ T H) as H1.
  rewrite E in H1. destruct (Z.eqb_spec (eval ρ a) (eval ρ b)); [done|discriminate].
Qed.

Lemma from_int_ok a w n : ty a (SBV w) → ty (_from_int a n) (SBV w) ∧ ∀ ρ, eval ρ (_from_int a n) = n mod 2 ^ w.
Proof.
  intros Ha. unfold _from_int. pose proof (typed_pos _ _ _ Ha). cbn in *. sizes.
  destruct (Z.eqb_spec w 0); [lia|]. split; [by apply typed_bvv|done].
Qed.

Lemma equals_int_ok a w n : ty a (SBV w) → equals_int build a n = true → ∀ ρ, eval ρ a = n mod 2 ^ w.
Proof.
  intros Ha H ρ. destruct (from_int_ok a w n Ha) as [T E]. by rewrite (equals_ok a _ _ Ha T H), E.
Qed.

Lemma equals_0_ok a w : ty a (SBV w) → equals_int build a 0 = true → ∀ ρ, eval ρ a = 0.
Proof. intros Ha H ρ. by rewrite (equals_int_ok _ _ _ Ha H ρ), Zmod_0_l. Qed.

Lemma is_true_ne a b s : ty a s → ty b s → is_true (ne_ build a b) = true → ∀ ρ, eval ρ a ≠ eval ρ b.
Proof.
  intros Ha Hb H ρ Heq. destruct (ne_ok a b s Ha Hb) as [T E]. pose proof (is_true_eval _ ρ _ T H) as H1.
  by rewrite E, Heq, Z.eqb_refl in H1.
Qed.

(** ** Shifts *)

Lemma gt_ok a b w : ty a (SBV w) → ty b (SBV w) →
  ty (gt_ build a b) SBool ∧ ∀ ρ, eval ρ (gt_ build a b) = Z.b2z (eval ρ b <? eval ρ a).
Proof. apply (compare_ok UGT). done. Qed.

Lemma shifts_out_ok shift val n w : ty val (SBV w) → ty shift (SBV w) → 1 ≤ n ≤ w → shifts_out build shift val n = true →
  ∀ ρ, w - n < eval ρ shift.
Proof.
  unfold shifts_out. intros Hv Hs Hn H ρ. sizes. destruct (from_int_ok shift w (w - n) Hs) as [Tf Ef].
  destruct (gt_ok _ _ _ Hs Tf) as [T E]. pose proof (is_true_eval _ ρ _ T H) as H1. rewrite E, Ef in H1.
  pose proof (Z.pow_gt_lin_r 2 w). rewrite Z.mod_small in H1 by lia. destruct (Z.ltb_spec (w - n) (eval ρ shift)); [done|discriminate].
Qed.

Lemma shift_by_zero o w (v : Z) : o = Rshift ∨ o = LShR → 1 ≤ w → fits w v → bin_value o w v 0 = v.
Proof.
  intros [-> | ->] Hw Hv; cbn; rewrite Z.div_1_r; [|done]. by apply Bvv.BVV.to_signed_mod.
Qed.

Lemma shift_out o w (v k m : Z) : o = Rshift ∨ o = LShR → 0 ≤ m < w → fits m v → m ≤ k → bin_value o w v k = 0.
Proof.
  intros Ho Hm Hv Hk. unfold fits in Hv. assert (v / 2 ^ k = 0) as E.
  { apply Z.div_small. pose proof (Z.pow_le_mono_r 2 m k). lia. }
  destruct Ho as [-> | ->]; cbn; [|done]. pose proof (Z.pow_le_mono_r 2 m (w - 1)). unfold to_signed.
  destruct (Z.ltb_spec v (2 ^ (w - 1))); [|lia]. by rewrite E.
Qed.

Lemma Concat_head_zero ρ x rest w : ty (Nary Concat (x :: rest)) (SBV w) → eval ρ x = 0 →
  1 ≤ size x ≤ w ∧ fits (w - size x) (eval ρ (Nary Concat (x :: rest))).
Proof.
  intros (ws & Es & _ & H)%typed_Concat_inv Hx. injection Es as ->. inversion H as [|? wx ? ws' Tx Hr]; subst.
  rewrite (typed_size _ _ _ Tx). pose proof (typed_pos _ _ _ Tx) as Hp. cbn [width] in *.
  assert (eval ρ (Nary Concat (x :: rest)) = eval ρ (Nary Concat rest)) as ->.
  { cbn. rewrite Hx. lia. }
  replace (sum (wx :: ws') - wx) with (sum ws') by (unfold sum; cbn; lia).
  destruct rest as [|y rest].
  - inversion Hr; subst. unfold sum. cbn. unfold fits. lia.
  - pose proof (typed_Concat strict (y :: rest) ws' ltac:(done) Hr) as Ty. pose proof (typed_pos _ _ _ Ty) as Hp'.
    split; [unfold sum in *; cbn in *; lia|]. exact (eval_fits _ ρ _ _ Ty).
Qed.

Lemma rshift_rule o val shift w r : o = Rshift ∨ o = LShR → ty val (SBV w) → ty shift (SBV w) → vector_bin strict o = true →
  rshift_simplifier build val shift = Some r → refines strict (Bin o val shift) (SBV w) r.
Proof.
  intros Ho Hv Hs Hb E. unfold rshift_simplifier in E. pose proof (typed_pos _ _ _ Hv) as Hw. cbn [width] in Hw.
  assert (∀ n, 1 ≤ n ≤ w → (∀ ρ, fits (w - n) (eval ρ val)) → shifts_out build shift val n = true →
            refines strict (Bin o val shift) (SBV w) (bvv 0 (size val))) as Hout.
  { intros n Hn Hf Hso. sizes. split; [by apply typed_bvv|]. intros ρ. cbn [eval]. sizes.
    rewrite (shift_out o w _ _ (w - n)); [apply eval_bvv_0|done|lia|done|].
    pose proof (shifts_out_ok _ _ _ _ Hv Hs Hn Hso ρ). lia. }
  destruct (equals_int build shift 0) eqn:E0.
  - injection E as <-. split; [done|]. intros ρ. cbn [eval].
    rewrite (equals_0_ok _ _ Hs E0 ρ).
    sizes. symmetry. apply shift_by_zero; [done|done|]. exact (eval_fits _ ρ _ _ Hv).
  - destruct val as [| | | | | |[] [|x xs]| |n x| | |]; try discriminate.
    + destruct (equals_int build x 0) eqn:Ex; [|discriminate].
      destruct (shifts_out _ _ _ _) eqn:Eo; [|discriminate]. injection E as <-.
      assert (∀ ρ, eval ρ x = 0) as Hx.
      { destruct (typed_Concat_inv _ _ _ Hv) as (ws & _ & _ & H). inversion H as [|? wx ? ? Tx]; subst.
        by apply (equals_0_ok _ _ Tx Ex). }
      apply (Hout (size x)); [by apply (Concat_head_zero (λ _, 0) x xs)|intros ρ; by apply Concat_head_zero|done].
    + destruct (shifts_out _ _ _ _) eqn:Eo; [|discriminate]. injection E as <-.
      destruct (typed_ZeroExt_inv _ _ _ _ Hv) as (w' & Ew & Hn & Tx). injection Ew as ->. pose proof (typed_pos _ _ _ Tx). cbn in H.
      apply (Hout n); [lia| |done]. intros ρ. replace (w' + n - n) with w' by lia. exact (eval_fits _ ρ _ _ Tx).
Qed.

(** ** Negation and arithmetic *)

Lemma b2z_negb (p : bool) : Z.b2z (negb p) = 1 - Z.b2z p.
Proof. by destruct p. Qed.

Lemma not_compare_rule o o' x y s : comparison o = true → comparison o' = true →
  (o = Eq ∨ o = Ne → o' = Eq ∨ o' = Ne) →
  (∀ w (u v : Z), bin_value o' w u v = 1 - bin_value o w u v) → ty (Bin o x y) s →
  refines strict (Un Not (Bin o x y)) s (build (Bin o' x y)).
Proof.
  intros Ho Ho' Heq Hv Ht. destruct (typed_comparison_inv _ _ _ _ _ Ho Ht) as (-> & s' & Hx & Hy & Hs).
  apply build_ok; [|intros ρ; apply Hv]. destruct Hs as [E | [E | [w ->]]].
  1,2: eapply typed_Eq; eauto. by eapply typed_comparison.
Qed.

Lemma boolean_not_rule body r : ty body SBool → boolean_not_simplifier build body = Some r → refines strict (Un Not body) SBool r.
Proof.
  intros Ht E. unfold boolean_not_simplifier in E. destruct body as [| | | |[] x|o x y| | | | | |]; try discriminate.
  - injection E as <-. destruct (typed_Not_inv _ _ _ Ht) as [_ Hx]. split; [done|]. intros ρ. cbn. lia.
  - destruct o; try discriminate; injection E as <-; apply not_compare_rule; try done; try (by intros []); auto;
      intros w u v; cbn; rewrite ?b2z_negb; try lia; rewrite <-b2z_negb; f_equal;
      rewrite <-?Z.leb_antisym, <-?Z.ltb_antisym; done.
Qed.

Lemma bitwise_sub_rule a b w r : ty a (SBV w) → ty b (SBV w) → bitwise_sub_simplifier build a b = Some r →
  refines strict (Bin Sub a b) (SBV w) r.
Proof.
  intros Ha Hb E. pose proof (typed_pos _ _ _ Ha) as Hw. cbn [width] in Hw. pose proof (pow2_pos w ltac:(lia)) as Hp.
  assert (∀ ρ, eval ρ (Bin Sub a b) = (eval ρ a - eval ρ b) mod 2 ^ w) as Ev by (intros ρ; cbn [eval bin_value]; by sizes).
  assert ((∀ ρ, eval ρ a = eval ρ b) → refines strict (Bin Sub a b) (SBV w) (bvv 0 (size a))) as Hzero.
  { intros Heq. sizes. split; [by apply typed_bvv|]. intros ρ. by rewrite eval_bvv_0, Ev, Heq, Z.sub_diag. }
  unfold bitwise_sub_simplifier in E. destruct b as [|v wb| | | | | | | | | |];
    try (destruct (same a _ || equals build a _) eqn:Es; [|discriminate]; injection E as <-; apply Hzero; intros ρ;
         apply orb_true_iff in Es as [Es | Es]; [by apply same_true in Es as -> | by eapply equals_ok]; fail).
  destruct (typed_BVV_inv _ _ _ _ Hb) as (Ew & _ & _). injection Ew as <-.
  destruct (Z.eqb_spec v 0) as [-> | Hv].
  { injection E as <-. split; [done|]. intros ρ. rewrite Ev. cbn [eval]. rewrite Z.sub_0_r, Z.mod_small; [done|]. exact (eval_fits _ ρ _ _ Ha). }
  destruct a as [| | | | |[] x y|[] xs| | | | |]; try discriminate.
  - destruct y; try discriminate. injection E as <-. destruct (typed_vector_inv _ Sub _ _ _ eq_refl Ha) as (w' & Ew & _ & Hx & Hy).
    injection Ew as <-. destruct (add_ok _ _ _ Hy Hb) as [Ta Ea]. destruct (sub_ok _ _ _ Hx Ta) as [Ts Es].
    split; [done|]. intros ρ. rewrite Es, Ea, Ev. cbn [eval bin_value]. sizes.
    rewrite Zminus_mod_idemp_r, Zminus_mod_idemp_l. f_equal. lia.
  - destruct (last xs) as [y|] eqn:El; [|discriminate]. destruct y as [|v' w'| | | | | | | | | |]; try discriminate.
    destruct (typed_flat_inv _ Add _ _ ltac:(done) Ha) as (Ho & Hne & Hxs).
    apply last_Some in El as [xs' ->]. apply Forall_app in Hxs as [Hxs' Hy]. apply Forall_inv in Hy.
    destruct (sub_ok _ _ _ Hy Hb) as [Ts Es].
    assert (∀ ρ, eval ρ (Nary Add (xs' ++ [sub_ build (BVV v' w') (BVV v w)])) = eval ρ (Bin Sub (Nary Add (xs' ++ [BVV v' w'])) (BVV v w))) as Hval.
    { intros ρ. rewrite Ev, !(eval_flat strict ρ Add _ (SBV w)) by (done || (by intros []%app_eq_nil) || (apply Forall_app; auto)).
      rewrite !(fold_vals_app strict Add (SBV w)) by (done || auto). rewrite !(fold_vals_single strict Add (SBV w)) by done.
      rewrite Es. cbn [op2 width eval]. rewrite Zminus_mod_idemp_l, Zplus_mod_idemp_r. f_equal. lia. }
    assert (ty (Nary Add (xs' ++ [sub_ build (BVV v' w') (BVV v w)])) (SBV w)) as Tn.
    { apply typed_flat; [done|by intros [_ [=]]%app_eq_nil|]. apply Forall_app; auto. }
    rewrite removelast_last in E.
    destruct xs' as [|x [|x2 [|x3 xs']]]; injection E as <-;
      (eapply refines_trans; [by split; [exact Tn|exact Hval]|]); (by apply new_refines) || (by apply build_refines).
Qed.

Lemma bitwise_add_rule args w r : ty (Nary Add args) (SBV w) → bitwise_add_simplifier build args = Some r →
  refines strict (Nary Add args) (SBV w) r.
Proof.
  intros Ht E. destruct (typed_flat_inv _ Add _ _ ltac:(done) Ht) as (Ho & Hne & Hargs). pose proof (typed_pos _ _ _ Ht) as Hw.
  cbn [width] in Hw.
  assert (∀ r, _flatten_simplifier Add (List.filter (λ a, match a with BVV 0 _ => false | _ => true end))
                 (Some (bvv 0 (match args with a :: _ => size a | [] => 0 end))) args = Some r →
               refines strict (Nary Add args) (SBV w) r) as Hflat.
  { intros r' E'. eapply flatten_sound; [exact Ho| |done|exact E']. destruct Hargs as [|a args Ha _]; [done|].
    rewrite (typed_size _ _ _ Ha). by apply filter_zero_good. }
  unfold bitwise_add_simplifier in E. destruct args as [|a args]; [by apply Hflat|].
  destruct a as [| | | | |[] x y| | | | | |]; try (by apply Hflat).
  destruct y as [|vy wy| | | | | | | | | |]; try (by apply Hflat).
  destruct args as [|z [|z2 args]]; try (by apply Hflat); destruct z as [|vz wz| | | | | | | | | |]; try (by apply Hflat).
  - injection E as <-.
    apply Forall_cons_1 in Hargs as [Ha Hz]. apply Forall_inv in Hz.
    destruct (typed_vector_inv _ Sub _ _ _ eq_refl Ha) as (w' & Ew & _ & Hx & Hy). injection Ew as <-.
    destruct (sub_ok _ _ _ Hy Hz) as [T1 E1]. destruct (sub_ok _ _ _ Hx T1) as [T2 E2]. split; [done|]. intros ρ.
    rewrite E2, E1, (eval_flat strict ρ Add _ (SBV w)) by auto. unfold vals, fold. cbn [fmap list_fmap foldr op2 unit_of width eval bin_value].
    sizes. rewrite Zminus_mod_idemp_r, Z.add_0_r, Zplus_mod_idemp_r, Zplus_mod_idemp_l. f_equal. lia.
Qed.

Lemma bitwise_mul_rule args w r : ty (Nary Mul args) (SBV w) → bitwise_mul_simplifier args = Some r →
  refines strict (Nary Mul args) (SBV w) r.
Proof. intros Ht E. eapply flatten_sound; [|apply id_good|done|exact E]. done. Qed.

(** ** Disjunction and bitwise or *)

Lemma flatten_idempotent_rule o args s r : idempotent o → ty (Nary o args) s →
  _flatten_simplifier o _deduplicate_filter None args = Some r → refines strict (Nary o args) s r.
Proof.
  intros Ho Ht E. destruct (typed_flat_inv _ o _ _ ltac:(by destruct o) Ht) as (Hf & _).
  eapply flatten_sound; [done|by apply deduplicate_good|done|done].
Qed.

(** Two arguments of an idempotent operation, one of which is the unit. *)
Lemma refines_unit o a b s r : flat strict o s → ty a s → ty b s → ty r s →
  (∀ ρ, eval ρ r = op2 o (width s) (eval ρ a) (eval ρ b)) → refines strict (Nary o [a; b]) s r.
Proof.
  intros Ho Ha Hb Hr E. split; [done|]. intros ρ. by rewrite (eval_pair ρ o a b s), E.
Qed.

Lemma refines_left o a b s : flat strict o s → ty a s → ty b s → (∀ ρ, eval ρ b = unit_of o (width s)) →
  refines strict (Nary o [a; b]) s a.
Proof.
  intros Ho Ha Hb E. apply refines_unit; try done. intros ρ. rewrite E. symmetry.
  apply op2_unit; [by eapply flat_not_Concat|pose proof (typed_pos _ _ _ Ha); lia|by eapply eval_fits].
Qed.

Lemma refines_right o a b s : flat strict o s → ty a s → ty b s → (∀ ρ, eval ρ a = unit_of o (width s)) →
  refines strict (Nary o [a; b]) s b.
Proof.
  intros Ho Ha Hb E. apply refines_unit; try done. intros ρ. rewrite E, op2_comm. symmetry.
  apply op2_unit; [by eapply flat_not_Concat|pose proof (typed_pos _ _ _ Ha); lia|by eapply eval_fits].
Qed.

Lemma refines_same o a b s : idempotent o → flat strict o s → ty a s → ty b s → (∀ ρ, eval ρ a = eval ρ b) →
  refines strict (Nary o [a; b]) s a.
Proof. intros Hi Ho Ha Hb E. apply refines_unit; try done. intros ρ. by rewrite <-E, op2_diag. Qed.

Lemma same_or_equals a b s : ty a s → ty b s → same a b || equals build a b = true → ∀ ρ, eval ρ a = eval ρ b.
Proof. intros Ha Hb [H | H]%orb_true_iff ρ; [by apply same_true in H as ->|by eapply equals_ok]. Qed.

Lemma bitwise_or_rule args w r : ty (Nary BOr args) (SBV w) → bitwise_or_simplifier build args = Some r →
  refines strict (Nary BOr args) (SBV w) r.
Proof.
  intros Ht E. unfold bitwise_or_simplifier in E. destruct args as [|a [|b [|c args]]];
    try (by apply (flatten_idempotent_rule BOr)).
  destruct (typed_flat_inv _ BOr _ _ ltac:(done) Ht) as (Ho & _ & [Ha Hb%Forall_inv]%Forall_cons_1). revert E. sizes.
  destruct (same a _) eqn:E0; [|destruct (same b _) eqn:E1; [|destruct (_ || _) eqn:E2]].
  - intros [= <-]. apply refines_right; try done. intros ρ. apply same_true in E0 as ->. apply eval_bvv_0.
  - intros [= <-]. apply refines_left; try done. intros ρ. apply same_true in E1 as ->. apply eval_bvv_0.
  - intros [= <-]. apply refines_same; try done. by eapply same_or_equals.
  - by apply (flatten_idempotent_rule BOr).
Qed.

Lemma is_BoolV_of_true p x : is_BoolV_of p x = true → x = BoolV p.
Proof. destruct x; try discriminate. cbn. by intros ->%eqb_prop. Qed.

(** Constants of a connective that are its unit can be dropped. *)
Lemma drop_constants o args : o = And ∨ o = Or → Forall (λ x, ty x SBool) args →
  existsb (is_BoolV_of (bool_decide (o = Or))) args = false →
  Forall (λ x, ty x SBool) (List.filter (λ a, negb (is_BoolV a)) args) ∧
  ∀ ρ, fold o 1 (vals ρ (List.filter (λ a, negb (is_BoolV a)) args)) = fold o 1 (vals ρ args).
Proof.
  intros Ho Hargs Hex. split; [by apply Forall_List_filter|]. intros ρ.
  assert (o ≠ Concat) as Hc by (by destruct Ho as [-> | ->]).
  induction Hargs as [|x args Hx Hargs IH]; [done|]. cbn [existsb] in Hex. apply orb_false_iff in Hex as [Hx' Hex].
  cbn [List.filter]. change (vals ρ (x :: args)) with (eval ρ x :: vals ρ args).
  change (fold o 1 (eval ρ x :: vals ρ args)) with (op2 o 1 (eval ρ x) (fold o 1 (vals ρ args))). rewrite <-(IH Hex).
  destruct x as [| | |p| | | | | | | |]; try done. cbn [is_BoolV negb].
  assert (eval ρ (BoolV p) = unit_of o 1) as -> by (destruct Ho as [-> | ->], p; done).
  rewrite op2_comm. symmetry. apply op2_unit; [done|done|].
  apply fold_fits'; [done|]. apply (vals_fit strict ρ SBool). by apply Forall_List_filter.
Qed.

(** A constant that decides the connective. *)
Lemma absorbing_constant o args : o = And ∨ o = Or → Forall (λ x, ty x SBool) args →
  existsb (is_BoolV_of (bool_decide (o = Or))) args = true →
  refines strict (Nary o args) SBool (BoolV (bool_decide (o = Or))).
Proof.
  intros Ho Hargs Hex. split; [apply typed_BoolV|]. intros ρ. assert (args ≠ []) as Hne by (by intros ->).
  rewrite (eval_flat strict ρ o _ SBool) by (done || by destruct Ho as [-> | ->]; auto). clear Hne. cbn [width].
  induction Hargs as [|x args Hx Hargs IH]; [done|]. cbn [existsb] in Hex.
  change (vals ρ (x :: args)) with (eval ρ x :: vals ρ args).
  change (fold o 1 (eval ρ x :: vals ρ args)) with (op2 o 1 (eval ρ x) (fold o 1 (vals ρ args))).
  assert (fits 1 (fold o 1 (vals ρ args))) as Hf by (apply fold_fits'; [done|by apply (vals_fit strict ρ SBool)]).
  apply orb_true_iff in Hex as [Ex | Ex].
  - apply is_BoolV_of_true in Ex as ->. destruct Ho as [-> | ->], (fits_bool _ Hf) as [-> | ->]; done.
  - rewrite <-(IH Ex). destruct Ho as [-> | ->], (eval_bool _ ρ _ Hx) as [-> | ->]; done.
Qed.

Lemma boolean_or_rule args r : ty (Nary Or args) SBool → boolean_or_simplifier build args = Some r →
  refines strict (Nary Or args) SBool r.
Proof.
  intros Ht E. unfold boolean_or_simplifier in E. destruct (typed_flat_inv _ Or _ _ ltac:(done) Ht) as (Ho & Hne & Hargs).
  destruct (existsb (is_BoolV_of true) args) eqn:Ex.
  { injection E as <-. by apply (absorbing_constant Or). }
  destruct (existsb is_BoolV args); [|by apply (flatten_idempotent_rule Or)].
  destruct (drop_constants Or args Ho Hargs Ex) as [Tf Ef].
  assert (∀ ρ, eval ρ (Nary Or args) = fold Or 1 (vals ρ args)) as Ev by (intros ρ; by apply (eval_flat strict ρ Or _ SBool)).
  destruct (List.filter _ args) as [|x [|y l]]; injection E as <-.
  - split; [apply typed_BoolV|]. intros ρ. rewrite Ev, <-Ef. done.
  - apply Forall_inv in Tf. split; [done|]. intros ρ. rewrite Ev, <-Ef. symmetry. by apply (fold_vals_single strict Or SBool).
  - eapply refines_trans; [|by apply build_refines, (typed_flat _ Or SBool)]. split; [by apply (typed_flat _ Or SBool)|].
    intros ρ. rewrite Ev, <-Ef. by apply (eval_flat strict ρ Or _ SBool).
Qed.

(** ** Conditionals *)

Section Strip.
Context (c nc : ast) (Hc : ty c SBool) (Hnc : ty nc SBool) (Enc : ∀ ρ, eval ρ nc = 1 - eval ρ c).

Lemma strip_true_ok t : ∀ s, ty t s → ty (strip_true c nc t) s ∧ ∀ ρ, eval ρ c = 1 → eval ρ (strip_true c nc t) = eval ρ t.
Proof.
  induction t as [| | | | | | | | | |c' x y _ IHx IHy|] using ast_ind'; intros s Ht; try done.
  cbn [strip_true]. destruct (typed_If_inv _ _ _ _ _ Ht) as (_ & Tx & Ty).
  destruct (same c' c) eqn:E1; [|destruct (same c' nc) eqn:E2; [|done]].
  - apply same_true in E1 as ->. destruct (IHx _ Tx) as [T E]. split; [done|]. intros ρ H. by rewrite E; cbn [eval]; rewrite ?H.
  - apply same_true in E2 as ->. destruct (IHy _ Ty) as [T E]. split; [done|]. intros ρ H. rewrite E by done. cbn [eval]. by rewrite Enc, H.
Qed.

Lemma strip_false_ok t : ∀ s, ty t s → ty (strip_false c nc t) s ∧ ∀ ρ, eval ρ c = 0 → eval ρ (strip_false c nc t) = eval ρ t.
Proof.
  induction t as [| | | | | | | | | |c' x y _ IHx IHy|] using ast_ind'; intros s Ht; try done.
  cbn [strip_false]. destruct (typed_If_inv _ _ _ _ _ Ht) as (_ & Tx & Ty).
  destruct (same c' c) eqn:E1; [|destruct (same c' nc) eqn:E2; [|done]].
  - apply same_true in E1 as ->. destruct (IHy _ Ty) as [T E]. split; [done|]. intros ρ H. by rewrite E; cbn [eval]; rewrite ?H.
  - apply same_true in E2 as ->. destruct (IHx _ Tx) as [T E]. split; [done|]. intros ρ H. rewrite E by done. cbn [eval]. by rewrite Enc, H.
Qed.
End Strip.

(** [If] asks of the construction only the negation of its condition. *)
Lemma If_rule_of c t e s : ty c SBool → ty t s → ty e s → refines strict (Un Not c) SBool (not_ build c) →
  refines strict (If c t e) s (If_ build c t e).
Proof.
  intros Hc Ht He [Tn En]. change (∀ ρ, eval ρ (not_ build c) = 1 - eval ρ c) in En. unfold If_. destruct (is_true c) eqn:E1.
  { split; [done|]. intros ρ. cbn [eval]. by rewrite (is_true_eval strict ρ c Hc E1). }
  destruct (is_false c) eqn:E2.
  { split; [done|]. intros ρ. cbn [eval]. by rewrite (is_false_eval strict ρ c Hc E2). }
  destruct (strip_true_ok c (not_ build c) En t s Ht) as [Tt Et].
  destruct (strip_false_ok c (not_ build c) En e s He) as [Te Ee].
  set (t' := strip_true _ _ _) in *. set (e' := strip_false _ _ _) in *.
  assert (refines strict (If c t e) s (If c t' e')) as Hr.
  { split; [by apply typed_If|]. intros ρ. cbn [eval]. destruct (eval_bool strict ρ c Hc) as [H | H]; rewrite H; cbn; auto. }
  assert (∀ p q, same t' (BoolV p) && same e' (BoolV q) = true → t' = BoolV p ∧ e' = BoolV q ∧ s = SBool) as Hconst.
  { intros p q [->%same_true ->%same_true]%andb_true_iff. by inversion Tt. }
  eapply refines_trans; [exact Hr|].
  destruct (same t' e') eqn:E3; [|destruct (_ && _) eqn:E4; [|destruct (same t' (BoolV false) && _) eqn:E5]].
  - apply same_true in E3 as <-. split; [done|]. intros ρ. cbn [eval]. by destruct (_ =? _).
  - destruct (Hconst _ _ E4) as (-> & -> & ->). split; [done|]. intros ρ. cbn [eval].
    by destruct (eval_bool strict ρ c Hc) as [-> | ->].
  - destruct (Hconst _ _ E5) as (-> & -> & ->). split; [done|]. intros ρ. cbn [eval]. rewrite En.
    by destruct (eval_bool strict ρ c Hc) as [-> | ->].
  - apply new_refines, Hr.
Qed.

Lemma If_rule c t e s : ty c SBool → ty t s → ty e s → refines strict (If c t e) s (If_ build c t e).
Proof. intros Hc Ht He. apply If_rule_of; [done..|]. by apply not_ok. Qed.

(** ** Conjunction *)

Lemma sides_ok target fargs s : ty target s → Forall (λ x, ty x SBool) fargs → ∀ eqs nes,
  sides target fargs = Some (eqs, nes) →
  Forall (λ x, ty x s) eqs ∧ Forall (λ x, ty x s) nes ∧
  ∀ ρ, (Forall (λ x, eval ρ x = 1) fargs ↔
        Forall (λ x, eval ρ target = eval ρ x) eqs ∧ Forall (λ x, eval ρ target ≠ eval ρ x) nes).
Proof.
  intros Ht. induction 1 as [|arg fargs Ha _ IH]; intros eqs nes E; cbn [sides] in E.
  { injection E as <- <-. split; [done|]. split; [done|]. done. }
  destruct (two_args arg) as [[x y]|] eqn:E2; [|discriminate]. cbn [mbind option_bind] in E.
  destruct (if same x target then _ else _) as [other|] eqn:Eo; [|discriminate]. cbn [mbind option_bind] in E.
  destruct (sides target fargs) as [[eqs' nes']|]; [|discriminate]. cbn [mbind option_bind] in E.
  destruct (IH _ _ eq_refl) as (Te & Tn & Hiff).
  assert (∀ o, o = Eq ∨ o = Ne → arg = Bin o x y → ty other s ∧ ∀ ρ, eval ρ arg = bin_value o (size x) (eval ρ target) (eval ρ other)) as Ho.
  { intros o Ho ->. assert (comparison o = true) as Hc by (by destruct Ho as [-> | ->]).
    destruct (typed_comparison_inv _ _ _ _ _ Hc Ha) as (_ & s' & Tx & Ty & _).
    destruct (same x target) eqn:E3; [|destruct (same y target) eqn:E4; [|discriminate]]; injection Eo as <-.
    - apply same_true in E3 as ->. by rewrite (typed_unique _ _ _ _ Ht Tx).
    - apply same_true in E4 as ->. rewrite (typed_unique _ _ _ _ Ht Ty). split; [done|]. intros ρ.
      destruct Ho as [-> | ->]; cbn; by rewrite Z.eqb_sym. }
  destruct arg as [| | | | |o x' y'| | | | | |]; try discriminate.
  destruct o; try discriminate; injection E2 as -> ->; injection E as <- <-;
    (destruct (Ho _ (or_introl eq_refl) eq_refl) as [To Eo'] || destruct (Ho _ (or_intror eq_refl) eq_refl) as [To Eo']);
    (split; [auto|]; split; [auto|]); intros ρ;
    rewrite !Forall_cons, Eo', Hiff; cbn; destruct (Z.eqb_spec (eval ρ target) (eval ρ other)); cbn; intuition lia.
Qed.

Lemma sides_target_typed target f0 fargs eqs nes : ty f0 SBool → sides target (f0 :: fargs) = Some (eqs, nes) → ∃ s, ty target s.
Proof.
  intros Ha E. cbn [sides] in E. destruct (two_args f0) as [[x y]|] eqn:E2; [|discriminate]. cbn [mbind option_bind] in E.
  destruct (if same x target then _ else _) as [other|] eqn:Eo; [|discriminate]. cbn [mbind option_bind] in E.
  destruct (sides target fargs) as [[]|]; [|discriminate]. cbn [mbind option_bind] in E.
  destruct f0 as [| | | | |o x' y'| | | | | |]; try discriminate. injection E2 as -> ->.
  assert (comparison o = true) as Hc by (by destruct o).
  destruct (typed_comparison_inv _ _ _ _ _ Hc Ha) as (_ & s' & Tx & Ty & _). exists s'.
  destruct (same x target) eqn:E3; [by apply same_true in E3 as <-|].
  destruct (same y target) eqn:E4; [by apply same_true in E4 as <-|discriminate].
Qed.

Lemma conj_iff ρ l : Forall (λ x, ty x SBool) l → fold And 1 (vals ρ l) = 1 ↔ Forall (λ x, eval ρ x = 1) l.
Proof.
  induction 1 as [|x l Hx Hl IH]; [done|]. rewrite Forall_cons, <-IH.
  change (fold And 1 (vals ρ (x :: l))) with (op2 And 1 (eval ρ x) (fold And 1 (vals ρ l))).
  assert (fits 1 (fold And 1 (vals ρ l))) as Hf by (apply fold_fits'; [done|by apply (vals_fit strict ρ SBool)]).
  destruct (eval_bool _ ρ _ Hx) as [-> | ->], (fits_bool _ Hf) as [-> | ->]; cbn; intuition lia.
Qed.

(** A condition that holds when the arguments of a conjunction do. *)
Lemma refines_conj l r : l ≠ [] → Forall (λ x, ty x SBool) l → ty r SBool →
  (∀ ρ, eval ρ r = 1 ↔ Forall (λ x, eval ρ x = 1) l) → refines strict (Nary And l) SBool r.
Proof.
  intros Hne Hl Hr H. split; [done|]. intros ρ. rewrite (eval_flat strict ρ And _ SBool) by (done || by left). cbn [width].
  specialize (H ρ). rewrite <-conj_iff in H by done.
  assert (fits 1 (fold And 1 (vals ρ l))) as Hf by (apply fold_fits'; [done|by apply (vals_fit strict ρ SBool)]).
  destruct (eval_bool _ ρ _ Hr) as [E | E], (fits_bool _ Hf) as [E' | E']; rewrite ?E, ?E' in *; lia.
Qed.

Lemma b2z_1 (p : bool) : Z.b2z p = 1 ↔ p = true.
Proof. by destruct p. Qed.

Lemma existsb_true {A} (p : A → bool) l : existsb p l = true ↔ ∃ z, z ∈ l ∧ p z = true.
Proof. rewrite existsb_exists. by setoid_rewrite list_elem_of_In. Qed.

Lemma BVVs_value ρ l x : forallb is_BVV l = true → x ∈ l → eval ρ x = BVV_value x.
Proof. intros H Hx. rewrite list_elem_of_In in Hx. pose proof (proj1 (forallb_forall _ _) H _ Hx). by destruct x. Qed.

Lemma and_of_comparisons_rule fargs : ty (Nary And fargs) SBool →
  refines strict (Nary And fargs) SBool (and_of_comparisons build (Nary And fargs) fargs).
Proof.
  intros Ht. destruct (typed_flat_inv _ And _ _ ltac:(done) Ht) as (Ho & Hne & Hf).
  unfold and_of_comparisons.
  destruct fargs as [|f0 [|f1 rest]]; [done| |].
  { apply Forall_inv in Hf. apply refines_conj; [done|by repeat constructor|done|]. intros ρ. by rewrite Forall_singleton. }
  set (l := f0 :: f1 :: rest) in *. destruct (existsb _ l); [by apply refines_refl|].
  destruct (find_target l) as [target|]; [|by apply refines_refl].
  destruct (sides target l) as [[[|mustbe eqs] nes]|] eqn:Es; try by apply refines_refl.
  destruct (sides_target_typed _ _ _ _ _ (Forall_inv Hf) Es) as [s Tt].
  destruct (sides_ok _ _ _ Tt Hf _ _ Es) as (Te & Tn & Hiff).
  destruct (existsb (λ ne, _) nes) eqn:E1.
  { apply existsb_true in E1 as (n & Hn & (e & He & ->%same_true)%existsb_true).
    apply refines_conj; [done|done|apply typed_BoolV|]. intros ρ. rewrite Hiff, !Forall_forall. cbn.
    split; [done|]. intros [H1 H2]. by destruct (H2 _ Hn (H1 _ He)). }
  destruct (_ && _) eqn:E2; [|by apply refines_refl]. apply andb_true_iff in E2 as [Be Bn].
  pose proof (Forall_inv Te) as Tm. assert (∀ ρ, eval ρ mustbe = BVV_value mustbe) as Em by (intros ρ; apply (BVVs_value ρ _ _ Be); left).
  destruct (existsb (λ eq, negb (BVV_value eq =? BVV_value mustbe)) (mustbe :: eqs)) eqn:E3.
  { apply existsb_true in E3 as (e & He & Hd%negb_true_iff%Z.eqb_neq).
    apply refines_conj; [done|done|apply typed_BoolV|]. intros ρ. rewrite Hiff, !Forall_forall. cbn.
    split; [done|]. intros [H1 _]. destruct Hd. rewrite <-(BVVs_value ρ _ _ Be He), <-(Em ρ), <-(H1 _ He), (H1 mustbe); [done|left]. }
  destruct (eq_ok _ _ _ Tt Tm) as [Tq Eq']. apply refines_conj; [done|done|done|]. intros ρ. rewrite Eq', b2z_1, Z.eqb_eq, Hiff.
  split; [|intros [H1 _]; exact (Forall_inv H1)]. intros Heq. split.
  - apply Forall_forall. intros e He. rewrite (BVVs_value ρ _ _ Be He), Heq, Em.
    destruct (Z.eqb_spec (BVV_value e) (BVV_value mustbe)) as [->|Hd]; [done|].
    assert (existsb (λ eq, negb (BVV_value eq =? BVV_value mustbe)) (mustbe :: eqs) = true); [|congruence].
    apply existsb_true. exists e. split; [done|]. by apply negb_true_iff, Z.eqb_neq.
  - apply Forall_forall. intros n Hn Hc. rewrite Forall_forall in Tn. pose proof (Tn _ Hn) as Tn'.
    rewrite Heq, Em, (BVVs_value ρ _ _ Bn Hn) in Hc. assert (n = mustbe) as ->.
    { cbn [forallb] in Be. apply andb_true_iff in Be as [Bm _].
      pose proof (proj1 (forallb_forall _ _) Bn _ (proj1 (list_elem_of_In _ _) Hn)) as Bn'.
      destruct n as [|vn wn| | | | | | | | | |], mustbe as [|vm wm| | | | | | | | | |]; try discriminate.
      destruct (typed_BVV_inv _ _ _ _ Tn') as [-> _]. destruct (typed_BVV_inv _ _ _ _ Tm) as [[= ->] _]. cbn in Hc. by subst. }
    assert (existsb (λ ne, existsb (same ne) (mustbe :: eqs)) nes = true); [|congruence].
    apply existsb_true. exists mustbe. split; [done|]. cbn. unfold same. by rewrite bool_decide_true.
Qed.
End Rules.
End SimplifyRules.
