(* ===== verification/SimplifyCompare.v ===== *)
(** * The simplifiers of comparisons, conjunctions and masks

    [eq_simplifier], [ne_simplifier], [ge_simplifier] and the rules on zero
    extensions and masks they share, [boolean_and_simplifier] and
    [bitwise_and_simplifier]. *)

From Stdlib Require Import ZArith Lia Bool String.
From stdpp Require Import base tactics list numbers strings.
From S2P Require Import Prelude Bvv Claripy Pcode Simplify SimplifySem SimplifyBytes SimplifyFlat SimplifyRules.
#[local] Open Scope Z_scope.
#[local] Open Scope list_scope.

Module SimplifyCompare.
Import Bvv.BVV(to_signed) Simplify.Simplify SimplifySem.SimplifySem SimplifyBytes.SimplifyBytes SimplifyFlat.SimplifyFlat SimplifyRules.SimplifyRules.

(** Cases on the condition of an [if] in [H]. *)
Ltac case_if_tac H E := match type of H with (if ?b then _ else _) = _ => destruct b eqn:E end.
Tactic Notation "case_if" hyp(H) "as" ident(E) := case_if_tac H E.

Section Compare.
Context {strict : bool} {build : ast → ast} `{!SoundBuild strict build}.
Implicit Types (a b c x y : ast) (s : sort) (w : Z).
#[local] Abbreviation ty := (typed strict).

Lemma and_flattened_rule args r : ty (Nary And args) SBool →
  (flattened ← _flatten_simplifier And _deduplicate_filter None args;
   Some match flattened with Nary And fargs => and_of_comparisons build flattened fargs | _ => flattened end) = Some r →
  refines strict (Nary And args) SBool r.
Proof.
  intros Ht E. destruct (_flatten_simplifier _ _ _ _) as [f|] eqn:Ef; [|discriminate].
  pose proof (flatten_idempotent_rule And _ SBool _ I Ht Ef) as Hr. cbn in E. injection E as <-.
  destruct f as [| | | | | |[] fargs| | | | |]; try done. eapply refines_trans; [done|]. apply and_of_comparisons_rule, Hr.
Qed.

(** The two patterns on two conditions. *)
Lemma contradiction_ok x v vw y v' vw' : ty (Bin Eq x (BVV v vw)) SBool → ty (Bin Eq y (BVV v' vw')) SBool →
  same x y && negb (v =? v') = true → refines strict (Nary And [Bin Eq x (BVV v vw); Bin Eq y (BVV v' vw')]) SBool (BoolV false).
Proof.
  intros H1 H2 [->%same_true Hd%negb_true_iff%Z.eqb_neq]%andb_true_iff.
  apply refines_conj; [done|by auto|apply typed_BoolV|]. intros ρ. rewrite !Forall_cons. cbn.
  rewrite !b2z_1, !Z.eqb_eq. split; [done|]. intros (-> & -> & _). done.
Qed.

Lemma strict_ok x y x' y' : ty (Bin UGE x y) SBool → ty (Bin Ne x' y') SBool → same x x' && same y y' = true →
  refines strict (Nary And [Bin UGE x y; Bin Ne x' y']) SBool (gt_ build x y).
Proof.
  intros H1 H2 [<-%same_true <-%same_true]%andb_true_iff.
  destruct (typed_ordering_inv _ UGE _ _ _ eq_refl ltac:(done) ltac:(done) H1) as (_ & w & Hx & Hy).
  destruct (gt_ok _ _ _ Hx Hy) as [T E]. apply refines_conj; [done|by auto|done|].
  intros ρ. rewrite E, !Forall_cons, Forall_nil. cbn. rewrite !b2z_1, Z.ltb_lt, Z.leb_le, negb_true_iff, Z.eqb_neq. intuition lia.
Qed.

Lemma boolean_and_rule args r : ty (Nary And args) SBool → boolean_and_simplifier build args = Some r →
  refines strict (Nary And args) SBool r.
Proof.
  intros Ht E. unfold boolean_and_simplifier in E. destruct (typed_flat_inv _ And _ _ ltac:(done) Ht) as (Ho & Hne & Hargs).
  destruct (existsb (is_BoolV_of false) args) eqn:Ex.
  { injection E as <-. by apply (absorbing_constant And). }
  destruct (drop_constants And args Ho Hargs Ex) as [Tf Ef].
  assert (∀ ρ, eval ρ (Nary And args) = fold And 1 (vals ρ args)) as Ev by (intros ρ; by apply (eval_flat strict ρ And _ SBool)).
  destruct (List.filter _ args) as [|x [|y l]].
  - injection E as <-. split; [apply typed_BoolV|]. intros ρ. rewrite Ev, <-Ef. done.
  - injection E as <-. apply Forall_inv in Tf. split; [done|]. intros ρ. rewrite Ev, <-Ef. symmetry. by apply (fold_vals_single strict And SBool).
  - cbv zeta in E. assert (ty (Nary And (x :: y :: l)) SBool) as Tl by (by apply (typed_flat _ And SBool)).
    eapply refines_trans.
    { split; [exact Tl|]. intros ρ. rewrite Ev, <-Ef. by apply (eval_flat strict ρ And _ SBool). }
    apply Forall_cons in Tf as [Tx [Ty _]%Forall_cons].
    destruct (match x with Bin Eq _ _ => _ | _ => false end) eqn:Ec.
    { destruct x as [| | | | |[] x []| | | | | |]; try discriminate. destruct y as [| | | | |[] y []| | | | | |]; try discriminate.
      destruct l; [|discriminate]. injection E as <-. by apply contradiction_ok. }
    destruct (match x with Bin UGE _ _ => _ | _ => None end) as [g|] eqn:Es; cbn [orelse] in E; [|by apply and_flattened_rule].
    injection E as <-. destruct x as [| | | | |[] x1 x2| | | | | |]; try discriminate.
    destruct y as [| | | | |[] y1 y2| | | | | |]; try discriminate.
    destruct l; [|discriminate]. destruct (_ && _) eqn:E2; [|discriminate]. injection Es as <-. by apply strict_ok.
Qed.

(** ** Zero extensions *)

(** Whether the [n] high bits of a vector are zero. *)
Lemma high_bits_ok b w n : ty b (SBV w) → 1 ≤ n ≤ w →
  let h := extract build (size b - 1) (size b - n) b in
  let z := eq_ build h (_from_int h 0) in
  ty z SBool ∧ ∀ ρ, eval ρ z = Z.b2z (eval ρ b <? 2 ^ (w - n)).
Proof.
  intros Hb Hn h z. subst h z. sizes. destruct (extract_ok (w - 1) (w - n) b w Hb) as [Th Eh]; [lia|lia|].
  destruct (from_int_ok _ _ 0 Th) as [Tz Ez]. destruct (eq_ok _ _ _ Th Tz) as [T E]. split; [done|]. intros ρ.
  rewrite E, Eh, Ez, Zmod_0_l. pose proof (eval_fits _ ρ _ _ Hb) as Hf. unfold fits in Hf. cbn in Hf.
  pose proof (pow2_pos (w - n) ltac:(lia)). replace (w - 1 + 1 - (w - n)) with n by lia.
  rewrite Z.mod_small.
  2: { split; [apply Z.div_pos; lia|]. apply Z.div_lt_upper_bound; [lia|]. rewrite <-Z.pow_add_r by lia. replace (w - n + n) with w by lia. lia. }
  f_equal. destruct (Z.ltb_spec (eval ρ b) (2 ^ (w - n))).
  - rewrite Z.div_small by lia. done.
  - apply Z.eqb_neq. assert (1 ≤ eval ρ b / 2 ^ (w - n)); [|lia]. apply Z.div_le_lower_bound; lia.
Qed.

Lemma low_bits_ok b w m : ty b (SBV w) → 1 ≤ m ≤ w →
  ty (extract build (m - 1) 0 b) (SBV m) ∧ ∀ ρ, eval ρ (extract build (m - 1) 0 b) = eval ρ b mod 2 ^ m.
Proof.
  intros Hb Hm. destruct (extract_ok (m - 1) 0 b w Hb) as [T E]; [lia|lia|]. replace (m - 1 + 1 - 0) with m in * by lia.
  split; [done|]. intros ρ. by rewrite E, Z.div_1_r.
Qed.

(** The comparisons that do not look at the width. *)
Definition unsigned (o : binop) : Prop := o = Eq ∨ o = Ne ∨ o = UGE.

Lemma unsigned_width o w w' (u v : Z) : unsigned o → bin_value o w u v = bin_value o w' u v.
Proof. by intros [-> | [-> | ->]]. Qed.

Lemma unsigned_comparison o : unsigned o → comparison o = true.
Proof. by intros [-> | [-> | ->]]. Qed.

Lemma unsigned_less o w (u v : Z) : unsigned o → u < v → bin_value o w u v = Z.b2z (bool_decide (o = Ne)).
Proof.
  intros [-> | [-> | ->]] Huv; cbn.
  - by destruct (Z.eqb_spec u v); [lia|].
  - by destruct (Z.eqb_spec u v); [lia|].
  - by destruct (Z.leb_spec v u); [lia|].
Qed.

(** An expression [a] of width [w] whose value is that of the narrower [x]. *)
Definition widens a w x (n : Z) : Prop := 1 ≤ n ∧ ty x (SBV (w - n)) ∧ ∀ ρ, eval ρ a = eval ρ x.

Lemma ZeroExt_widens n x w : ty (ZeroExt n x) (SBV w) → widens (ZeroExt n x) w x n.
Proof.
  intros (w' & Ew & Hn & Hx)%typed_ZeroExt_inv. injection Ew as ->. replace w' with (w' + n - n) in Hx by lia. by split.
Qed.

Lemma Concat_widens v n x w : ty (Nary Concat [BVV v n; x]) (SBV w) → v = 0 → widens (Nary Concat [BVV v n; x]) w x n.
Proof.
  intros (wv & wx & Ew & Hv & Hx)%typed_Concat2_inv ->. destruct (typed_BVV_inv _ _ _ _ Hv) as (E & Hn & _).
  injection E as ->. injection Ew as ->. split; [done|]. split; [by replace (n + wx - n) with wx by lia|].
  intros ρ. rewrite eval_Concat2. cbn [eval]. lia.
Qed.

Lemma zero_extended_widens a w n x : ty a (SBV w) → zero_extended a = Some (n, x) → widens a w x n.
Proof.
  intros Ha E. destruct a as [| | | | | |[] [|[|v n'| | | | | | | | | |] [|y []]]| |n' y| | |]; try discriminate; cbn in E.
  - destruct (Z.eqb_spec v 0); [|discriminate]. injection E as -> ->. by apply Concat_widens.
  - injection E as -> ->. by apply ZeroExt_widens.
Qed.

Lemma zeroext_comparing_rule o a b w r : unsigned o → ty a (SBV w) → ty b (SBV w) →
  zeroext_comparing_against_simplifier build o a b = Some r → refines strict (Bin o a b) SBool r.
Proof.
  intros Ho Ha Hb E. unfold zeroext_comparing_against_simplifier in E.
  destruct (zero_extended a) as [[n x]|] eqn:Ep; [|discriminate].
  destruct (zero_extended_widens _ _ _ _ Ha Ep) as (Hn & Hx & Ex). destruct b as [|vb wb| | | | | | | | | |]; try discriminate.
  remember (BVV vb wb) as b eqn:Eb. clear Eb. pose proof (typed_pos _ _ _ Hx) as Hw. cbn [width] in Hw.
  destruct (high_bits_ok b w n Hb ltac:(lia)) as [Tz Ez]. cbv zeta in E, Tz, Ez.
  assert (∀ ρ, eval ρ (Bin o a b) = bin_value o w (eval ρ x) (eval ρ b)) as Ev by (intros ρ; cbn [eval]; sizes; by rewrite Ex).
  destruct (is_true _) eqn:E1; [|destruct (is_false _) eqn:E2; [|discriminate]]; injection E as <-.
  - sizes. destruct (low_bits_ok b w (w - n) Hb ltac:(lia)) as [Tl El].
    destruct (compare_ok o _ _ _ (unsigned_comparison o Ho) Hx Tl) as [Tc Ec]. split; [exact Tc|]. intros ρ.
    rewrite Ec, Ev, El. pose proof (is_true_eval _ ρ _ Tz E1) as H1. rewrite Ez in H1. apply b2z_1, Z.ltb_lt in H1.
    rewrite Z.mod_small; [by apply unsigned_width|]. pose proof (eval_fits _ ρ _ _ Hb) as [? _]. lia.
  - split; [apply typed_BoolV|]. intros ρ. rewrite Ev. pose proof (is_false_eval _ ρ _ Tz E2) as H1. rewrite Ez in H1.
    destruct (Z.ltb_spec (eval ρ b) (2 ^ (w - n))); [discriminate|]. pose proof (eval_fits _ ρ _ _ Hx) as [_ Hf].
    cbn [width] in Hf. by rewrite unsigned_less by (done || lia).
Qed.

Lemma zeroext_extract_rule o a b w r : unsigned o → ty a (SBV w) → ty b (SBV w) →
  zeroext_extract_comparing_against_constant_simplifier build o a b = Some r → refines strict (Bin o a b) SBool r.
Proof.
  intros Ho Ha Hb E. unfold zeroext_extract_comparing_against_constant_simplifier in E.
  destruct a as [| | | | | | |a_hi [] a_arg| | | |]; try discriminate. cbv zeta in E.
  destruct (typed_Extract_inv _ _ _ _ _ Ha) as (wa & Ew & Hlo & Hhi & Harg). injection Ew as ->.
  destruct (zero_extended a_arg) as [[n x]|] eqn:Ep; [|discriminate].
  destruct (zero_extended_widens _ _ _ _ Harg Ep) as (Hn & Hx & Ex).
  destruct (Z.leb_spec (size a_arg - a_hi) n) as [Hna|]; [|discriminate]. rewrite (typed_size _ _ _ Harg) in Hna. cbn [width] in Hna.
  pose proof (typed_pos _ _ _ Hx) as Hw. cbn [width] in Hw. revert E. sizes.
  destruct (Z.eqb_spec (a_hi + 1 - 0 - (wa - n)) 0); [lia|]. intros [= <-].
  destruct (zeroext_ok (a_hi + 1 - 0 - (wa - n)) x _ Hx ltac:(lia)) as [Tx' Ex'].
  replace (wa - n + (a_hi + 1 - 0 - (wa - n))) with (a_hi + 1 - 0) in Tx' by lia.
  destruct (compare_ok o _ _ _ (unsigned_comparison o Ho) Tx' Hb) as [Tc Ec]. split; [done|]. intros ρ.
  rewrite Ec, Ex'. cbn [eval size]. f_equal. rewrite Ex, Z.div_1_r, Z.mod_small; [done|].
  pose proof (eval_fits _ ρ _ _ Hx) as [? Hf]. cbn [width] in Hf. pose proof (Z.pow_le_mono_r 2 (wa - n) (a_hi + 1 - 0)). lia.
Qed.

Lemma ge_rule a b w r : ty a (SBV w) → ty b (SBV w) → ge_simplifier build a b = Some r → refines strict (Bin UGE a b) SBool r.
Proof. apply zeroext_comparing_rule. by right; right. Qed.

(** ** Masks *)

Lemma mask_bits_pos fuel : ∀ v z m, 0 < v < 2 ^ Z.of_nat fuel → mask_bits fuel v z m = (z - (Z.log2 v + 1), false).
Proof.
  induction fuel as [|fuel IH]; intros v z m Hv; [cbn in Hv; lia|]. cbn [mask_bits].
  destruct (Z.eqb_spec v 0); [lia|]. rewrite Z.shiftr_div_pow2 by done. change (2 ^ 1) with 2.
  rewrite Nat2Z.inj_succ, Z.pow_succ_r in Hv by lia. destruct (Z.eq_dec v 1) as [->|Hn].
  - change (1 / 2) with 0. destruct fuel; cbn; f_equal; by destruct m.
  - assert (0 < v / 2) by (apply Z.div_str_pos; lia). rewrite IH by (split; [lia|apply Z.div_lt_upper_bound; lia]).
    f_equal. assert (Z.log2 (v / 2) = Z.log2 v - 1); [|lia].
    rewrite (Z_div_mod_eq_full v 2) at 2. pose proof (Z.mod_pos_bound v 2 ltac:(lia)).
    destruct (Z.eq_dec (v mod 2) 0) as [-> | E]; [rewrite Z.add_0_r, Z.log2_double by lia; lia|].
    replace (v mod 2) with 1 by lia. rewrite Z.log2_succ_double by lia. lia.
Qed.

Lemma mask_bits_spec v w : 0 ≤ v →
  mask_bits (S (Z.to_nat (Z.log2 v))) v w true = if v =? 0 then (w, true) else (w - (Z.log2 v + 1), false).
Proof.
  intros Hv. destruct (Z.eqb_spec v 0) as [-> |]; [done|]. apply mask_bits_pos.
  rewrite Nat2Z.inj_succ, Z2Nat.id by apply Z.log2_nonneg. pose proof (Z.log2_spec v). lia.
Qed.

Lemma land_mod_low (u v m : Z) : 0 ≤ m → 0 ≤ v < 2 ^ m → Z.land (u mod 2 ^ m) v = Z.land u v.
Proof.
  intros Hm Hv. rewrite <-(Z.mod_small v (2 ^ m)) at 2 by done. rewrite <-!land_mask by done.
  rewrite <-Z.land_assoc. f_equal. by rewrite Z.land_comm.
Qed.

Lemma land_below (u v m : Z) : 0 ≤ m → 0 ≤ v < 2 ^ m → 0 ≤ Z.land u v < 2 ^ m.
Proof. intros Hm Hv. rewrite <-(land_mod_low u v m) by done. apply land_bound; [done| |done]. by apply mod_pow2_bound. Qed.

(** The [b_highbit_idx] of the code, plus one. *)
Definition kept (w k : Z) : Z := if (w mod 8 =? 0) && negb (k mod 8 =? 0) then k + (8 - k mod 8) else k.

Lemma kept_range w k : 1 ≤ k ≤ w → k ≤ kept w k ≤ w.
Proof.
  intros Hk. unfold kept. destruct (Z.eqb_spec (w mod 8) 0); cbn [andb]; [|lia].
  destruct (Z.eqb_spec (k mod 8) 0); cbn [negb]; [lia|]. pose proof (Z.mod_pos_bound k 8 ltac:(lia)).
  pose proof (Z_div_mod_eq_full k 8). pose proof (Z_div_mod_eq_full w 8). assert (k / 8 < w / 8); nia.
Qed.

Lemma and_mask_rule o a b w r : o = Eq ∨ o = Ne → ty a (SBV w) → ty b (SBV w) →
  and_mask_comparing_against_constant_simplifier build o a b = Some r → refines strict (Bin o a b) SBool r.
Proof.
  intros Ho Ha Hb E. assert (unsigned o) as Hu by (destruct Ho; [by left|by right; left]).
  unfold and_mask_comparing_against_constant_simplifier in E.
  destruct a as [| | | | | |[] [|x [|m [|]]]| | | | |]; try discriminate;
    destruct m as [|v wm| | | | | | | | | |]; try discriminate.
  destruct (typed_flat_inv _ BAnd _ _ ltac:(done) Ha) as (HBand & _ & [Hx [Hm _]%Forall_cons]%Forall_cons).
  destruct (typed_BVV_inv _ _ _ _ Hm) as ([= <-] & Hw & Hv). unfold fits in Hv.
  assert (∀ ρ, eval ρ (Bin o (Nary BAnd [x; BVV v w]) b) = bin_value o w (Z.land (eval ρ x) v) (eval ρ b)) as Ev.
  { intros ρ. cbn [eval bin_value]. rewrite (typed_size _ _ _ Ha). cbn [width]. f_equal. cbn. rewrite Z.land_assoc.
    apply (land_ones_fits); [lia|]. apply land_bound; [lia| |done]. exact (eval_fits _ ρ _ _ Hx). }
  rewrite mask_bits_spec in E by lia.
  destruct b as [|vb wb| | | | | | | | | |]; try discriminate. remember (BVV vb wb) as b eqn:Eb. clear Eb.
  destruct (Z.eqb_spec v 0) as [-> |Hnz].
  - destruct (Z.ltb_spec 0 w); [|lia]. destruct (high_bits_ok b w w Hb ltac:(lia)) as [Tz Ez]. revert E. sizes. intros E.
    destruct (is_true _) eqn:E1; [|destruct (is_false _) eqn:E2; [|discriminate]].
    + rewrite Z.eqb_refl in E. injection E as <-.
      destruct (compare_ok o _ _ _ (unsigned_comparison o Hu) (typed_bvv strict 0 w Hw) Hb) as [Tc Ec]. split; [done|].
      intros ρ. by rewrite Ec, Ev, eval_bvv_0, Z.land_0_r.
    + injection E as <-. split; [apply typed_BoolV|]. intros ρ. rewrite Ev, Z.land_0_r.
      pose proof (is_false_eval _ ρ _ Tz E2) as H1. rewrite Ez, Z.sub_diag in H1. change (2 ^ 0) with 1 in H1.
      destruct (Z.ltb_spec (eval ρ b) 1); [discriminate|]. rewrite unsigned_less by (done || lia). by destruct Ho as [-> | ->].
  - set (k := Z.log2 v + 1) in *. assert (0 ≤ v < 2 ^ k) as Hvk by (unfold k; pose proof (Z.log2_spec v); lia).
    assert (1 ≤ k ≤ w) as Hk by (pose proof (Z.log2_nonneg v); pose proof (Z.log2_lt_pow2 v w); lia).
    destruct (Z.ltb_spec 0 (w - k)); [|discriminate]. destruct (high_bits_ok b w (w - k) Hb ltac:(lia)) as [Tz Ez]. revert E. sizes. intros E.
    replace (w - (w - k)) with k in * by lia.
    destruct (is_true _) eqn:E1; [|destruct (is_false _) eqn:E2; [|discriminate]].
    + destruct (Z.eqb_spec (w - k) w); [lia|]. replace (w - 1 - (w - k) + 1) with k in E by lia.
      replace (if (w mod 8 =? 0) && negb (k mod 8 =? 0) then w - 1 - (w - k) + (8 - k mod 8) else w - 1 - (w - k)) with (kept w k - 1) in E
        by (unfold kept; destruct (_ && _); lia).
      pose proof (kept_range w k Hk) as Hr. destruct (_ =? w - 1); [discriminate|]. injection E as <-.
      destruct (low_bits_ok x w (kept w k) Hx ltac:(lia)) as [Tx Ex]. destruct (low_bits_ok b w (kept w k) Hb ltac:(lia)) as [Tb Eb].
      destruct (from_int_ok _ _ v Tx) as [Tv Ef]. destruct (and_ok _ _ _ Tx Tv) as [Ta Ea].
      destruct (compare_ok o _ _ _ (unsigned_comparison o Hu) Ta Tb) as [Tc Ec]. split; [done|]. intros ρ.
      pose proof (is_true_eval _ ρ _ Tz E1) as H1. rewrite Ez in H1. apply b2z_1, Z.ltb_lt in H1.
      pose proof (Z.pow_le_mono_r 2 k (kept w k)). rewrite Ec, Ea, Ex, Eb, Ef, Ev, (Z.mod_small v), land_mod_low by lia.
      rewrite (Z.mod_small (eval ρ b)); [by apply unsigned_width|]. pose proof (eval_fits _ ρ _ _ Hb) as [? _]. lia.
    + injection E as <-. split; [apply typed_BoolV|]. intros ρ. rewrite Ev.
      pose proof (is_false_eval _ ρ _ Tz E2) as H1. rewrite Ez in H1. destruct (Z.ltb_spec (eval ρ b) (2 ^ k)); [discriminate|].
      pose proof (land_below (eval ρ x) v k). rewrite unsigned_less by (done || lia). by destruct Ho as [-> | ->].
Qed.

(** ** Equations *)

Lemma orelse_inv {A} (p q : option A) r : orelse p q = Some r → p = Some r ∨ q = Some r.
Proof. destruct p; auto. Qed.

Lemma refines_swap o a b r : o = Eq ∨ o = Ne → refines strict (Bin o a b) SBool r → refines strict (Bin o b a) SBool r.
Proof.
  intros Ho [T E]. split; [done|]. intros ρ. rewrite E. destruct Ho as [-> | ->]; cbn; by rewrite Z.eqb_sym.
Qed.

(** The condition that the value of [a] is that of one of its branches. *)
Lemma conditional_rule o first a b d1 d2 s r :
  (o = Eq ∧ first = @fst ast ast) ∨ (o = Ne ∧ first = @snd ast ast) → ty a s → ty b s →
  d1 = a ∨ d1 = b → d2 = a ∨ d2 = b → conditional build a b first d1 d2 = Some r → refines strict (Bin o a b) SBool r.
Proof.
  intros Ho Ha Hb H1 H2 E. assert (ty d1 s ∧ ty d2 s) as [T1 T2] by (destruct H1 as [-> | ->], H2 as [-> | ->]; done).
  unfold conditional in E. destruct a as [| | | | | | | | | |c x y|]; try discriminate.
  destruct (typed_If_inv _ _ _ _ _ Ha) as (Hc & Hx & Hy). destruct (not_ok c Hc) as [Tn En]. cbv zeta in E.
  assert (ty (first (x, y)) s ∧ ty (first (y, x)) s) as [Tp Tq] by (by destruct Ho as [[_ ->] | [_ ->]]).
  destruct (same (first (x, y)) b && _) eqn:E1; [|destruct (same (first (y, x)) b && _) eqn:E2; [|discriminate]]; injection E as <-.
  - apply andb_true_iff in E1 as [<-%same_true Hd]. split; [done|]. intros ρ. pose proof (is_true_ne _ _ _ Tq T1 Hd ρ) as Hne.
    destruct (eval_bool strict ρ c Hc) as [Ec | Ec]; rewrite Ec;
      destruct Ho as [[-> ->] | [-> ->]], H1 as [-> | ->]; cbn [fst snd eval bin_value] in *; rewrite ?Ec in *; cbn in *;
      rewrite ?Z.eqb_refl; try done; destruct (Z.eqb_spec (eval ρ x) (eval ρ y)), (Z.eqb_spec (eval ρ y) (eval ρ x)); (done || congruence).
  - apply andb_true_iff in E2 as [<-%same_true Hd]. split; [done|]. intros ρ. pose proof (is_true_ne _ _ _ Tp T2 Hd ρ) as Hne.
    rewrite En. destruct (eval_bool strict ρ c Hc) as [Ec | Ec]; rewrite Ec;
      destruct Ho as [[-> ->] | [-> ->]], H2 as [-> | ->]; cbn [fst snd eval bin_value] in *; rewrite ?Ec in *; cbn in *;
      rewrite ?Z.eqb_refl; try done; destruct (Z.eqb_spec (eval ρ x) (eval ρ y)), (Z.eqb_spec (eval ρ y) (eval ρ x)); (done || congruence).
Qed.

Lemma differing_bit a b w i : ty a (SBV w) → ty b (SBV w) → 0 ≤ i < w →
  (∀ ρ, eval ρ (extract build i i a) ≠ eval ρ (extract build i i b)) → ∀ ρ, eval ρ a ≠ eval ρ b.
Proof.
  intros Ha Hb Hi H ρ Heq. apply (H ρ). destruct (extract_ok i i a w Ha) as [_ Ea]; [lia|lia|].
  destruct (extract_ok i i b w Hb) as [_ Eb]; [lia|lia|]. by rewrite Ea, Eb, Heq.
Qed.

Lemma bits_differ_ok a b w : ty a (SBV w) → ty b (SBV w) → ∀ n i, 0 ≤ i → i + Z.of_nat n ≤ w →
  bits_differ build n i a b = true ∨ bits_differ_ne build n i a b = true → ∀ ρ, eval ρ a ≠ eval ρ b.
Proof.
  intros Ha Hb. induction n as [|n IH]; intros i Hi Hw H; [by destruct H|]. cbn [bits_differ bits_differ_ne] in H.
  destruct (extract_ok i i a w Ha) as [Ta _]; [lia|lia|]. destruct (extract_ok i i b w Hb) as [Tb _]; [lia|lia|].
  destruct (symbolic (extract build i i a)); [by destruct H|]. destruct (symbolic (extract build i i b)); [by destruct H|].
  assert (bits_differ build n (i + 1) a b = true ∨ bits_differ_ne build n (i + 1) a b = true ∨
          ∀ ρ, eval ρ (extract build i i a) ≠ eval ρ (extract build i i b)) as [H1 | [H1 | H1]].
  - destruct H as [H | H].
    + destruct (is_false _) eqn:E; [|by left]. right. right. intros ρ Heq. destruct (eq_ok _ _ _ Ta Tb) as [T Ev].
      pose proof (is_false_eval _ ρ _ T E) as H0. by rewrite Ev, Heq, Z.eqb_refl in H0.
    + destruct (is_true _) eqn:E; [|by right; left]. right. right. by eapply is_true_ne.
  - apply (IH (i + 1)); [lia|lia|by left].
  - apply (IH (i + 1)); [lia|lia|by right].
  - by apply (differing_bit a b w i); [..|lia|].
Qed.

Lemma SIMPLE_OPS_vector x s : in_SIMPLE_OPS x = true → ty x s → ∃ w, s = SBV w.
Proof.
  intros H Hx. destruct x as [| | | | | |[]| | | | |]; try discriminate.
  - apply typed_Concat_inv in Hx as (ws & -> & _). eauto.
  - apply typed_ZeroExt_inv in Hx as (w & -> & _). eauto.
  - apply typed_SignExt_inv in Hx as (w & -> & _). eauto.
Qed.

(** The rules on masks and extensions only apply to vectors. *)
Lemma mask_rules_vector o a b s r : ty a s → ty b s →
  and_mask_comparing_against_constant_simplifier build o a b = Some r ∨
  zeroext_extract_comparing_against_constant_simplifier build o a b = Some r ∨
  zeroext_comparing_against_simplifier build o a b = Some r → ∃ w, s = SBV w.
Proof.
  intros Ha Hb [E | [E | E]].
  - destruct b as [|v w| | | | | | | | | |]; try (by destruct a as [| | | | | |[] [|? [|[] []]]| | | | |]).
    destruct (typed_BVV_inv _ _ _ _ Hb) as [-> _]. eauto.
  - destruct a; try discriminate. destruct (typed_Extract_inv _ _ _ _ _ Ha) as (? & -> & _). eauto.
  - unfold zeroext_comparing_against_simplifier in E. destruct (zero_extended a) as [[]|]; [|discriminate].
    destruct b as [|v w| | | | | | | | | |]; try discriminate. destruct (typed_BVV_inv _ _ _ _ Hb) as [-> _]. eauto.
Qed.

Lemma mask_rules o a b s r : o = Eq ∨ o = Ne → ty a s → ty b s →
  and_mask_comparing_against_constant_simplifier build o a b = Some r ∨
  zeroext_extract_comparing_against_constant_simplifier build o a b = Some r ∨
  zeroext_comparing_against_simplifier build o a b = Some r → refines strict (Bin o a b) SBool r.
Proof.
  intros Ho Ha Hb E. destruct (mask_rules_vector _ _ _ _ _ Ha Hb E) as [w ->].
  assert (unsigned o) by (destruct Ho; [by left|by right; left]).
  destruct E as [E | [E | E]]; [by eapply and_mask_rule|by eapply zeroext_extract_rule|by eapply zeroext_comparing_rule].
Qed.

Lemma xor_with_zero_strict o a b s : strict = true → ty a s → xor_with_zero build o a b = None.
Proof.
  intros Hs Ha. destruct a as [| | | | | |[] [|? [|? []]]| | | | |]; try done.
  destruct (typed_flat_inv _ BXor _ _ ltac:(done) Ha) as (Hf & _). destruct s; [by destruct Hf|]. cbn in Hf. by rewrite Hs in Hf.
Qed.

(** Reversals are equal when what they reverse is. *)
Lemma byte_swap_eqb ρ x y w : w mod 8 = 0 → ty x (SBV w) → ty y (SBV w) →
  (eval ρ x =? eval ρ y) = (eval ρ (Un Reverse x) =? eval ρ (Un Reverse y)).
Proof.
  intros Hw Hx Hy. pose proof (typed_pos _ _ _ Hx) as Hp. cbn [width] in Hp.
  apply eq_true_iff_eq. rewrite !Z.eqb_eq, !eval_Reverse. sizes. split; [by intros ->|]. intros H.
  rewrite <-(byte_swap_involutive (bytes w) (eval ρ x)), H; [apply byte_swap_involutive|]; rewrite bytes_exact by (done || lia);
    by eapply (eval_fits strict ρ _ (SBV w)).
Qed.

Lemma both_reversed_rule o a b s x y : o = Eq ∨ o = Ne → ty a s → ty b s → both_reversed a b = Some (x, y) →
  refines strict (Bin o a b) SBool (build (Bin o x y)).
Proof.
  intros Ho Ha Hb E. destruct a as [| | | |[] x'| | | | | | |]; try discriminate. destruct b as [| | | |[] y'| | | | | | |]; try discriminate.
  injection E as -> ->. destruct (typed_Reverse_inv _ _ _ Ha) as (w & -> & Hw & Hx). destruct (typed_Reverse_inv _ _ _ Hb) as (w' & [= <-] & _ & Hy).
  eapply refines_trans; [|apply build_refines; by apply (typed_Eq (SBV w))]. split; [by apply (typed_Eq (SBV w))|].
  intros ρ. destruct Ho as [-> | ->]; cbn [eval bin_value]; by rewrite (byte_swap_eqb ρ x y w).
Qed.

Lemma bits_rule a b s : ty a s → ty b s → in_SIMPLE_OPS a || in_SIMPLE_OPS b = true →
  bits_differ build (Z.to_nat (size a)) 0 a b = true ∨ bits_differ_ne build (Z.to_nat (size a)) 0 a b = true →
  ∀ ρ, eval ρ a ≠ eval ρ b.
Proof.
  intros Ha Hb Ho. assert (∃ w, s = SBV w) as [w ->].
  { apply orb_true_iff in Ho as [H | H]; by eapply SIMPLE_OPS_vector. }
  sizes. pose proof (typed_pos _ _ _ Ha). cbn in *. apply (bits_differ_ok a b w); [done|done|lia|lia].
Qed.

Lemma eq_constant_rule a p s : ty a s → ty (BoolV p) s →
  refines strict (Bin Eq a (BoolV p)) SBool (if p then a else not_ build a).
Proof.
  intros Ha Hb. assert (s = SBool) as -> by (by inversion Hb). destruct (not_ok a Ha) as [T E].
  destruct p; (split; [done|]); intros ρ; rewrite ?E; cbn; by destruct (eval_bool _ ρ _ Ha) as [-> | ->].
Qed.

Lemma sub_equation (u v c m : Z) : 0 ≤ u < m → 0 ≤ c < m → (u =? (v + c) mod m) = ((u - v) mod m =? c).
Proof.
  intros Hu Hc. apply eq_true_iff_eq. rewrite !Z.eqb_eq. split.
  - intros ->. rewrite Zminus_mod_idemp_l. replace (v + c - v) with c by lia. by apply Z.mod_small.
  - intros <-. rewrite Zplus_mod_idemp_r. replace (v + (u - v)) with u by lia. by rewrite Z.mod_small.
Qed.

Lemma eq_rule a b s r : strict = true → ty a s → ty b s → eq_simplifier build a b = Some r → refines strict (Bin Eq a b) SBool r.
Proof.
  intros Hs Ha Hb E. unfold eq_simplifier in E. destruct (same a b) eqn:E0.
  { apply same_true in E0 as ->. injection E as <-. split; [apply typed_BoolV|]. intros ρ. cbn. by rewrite Z.eqb_refl. }
  destruct (is_Bool a && same b (BoolV true)) eqn:E1; [apply andb_true_iff in E1 as [_ ->%same_true]; injection E as <-; by apply (eq_constant_rule a true s)|].
  destruct (is_Bool b && same a (BoolV true)) eqn:E2.
  { apply andb_true_iff in E2 as [_ ->%same_true]; injection E as <-. apply refines_swap; [by left|]. by apply (eq_constant_rule b true s). }
  destruct (is_Bool a && same b (BoolV false)) eqn:E3; [apply andb_true_iff in E3 as [_ ->%same_true]; injection E as <-; by apply (eq_constant_rule a false s)|].
  destruct (is_Bool b && same a (BoolV false)) eqn:E4.
  { apply andb_true_iff in E4 as [_ ->%same_true]; injection E as <-. apply refines_swap; [by left|]. by apply (eq_constant_rule b false s). }
  destruct (both_reversed a b) as [[x y]|] eqn:Er; [injection E as <-; by apply (both_reversed_rule Eq a b s); auto|]. destruct (is_BVV a && negb (is_BVV b)).
  { injection E as <-. apply refines_swap; [by left|]. apply (build_refines (Bin Eq b a)), (typed_Eq s); auto. }
  rewrite (xor_with_zero_strict Eq a b s Hs Ha) in E.
  apply orelse_inv in E as [E | E].
  { destruct a as [| | | | |[] x y| | | | | |]; try discriminate. destruct y as [|v wy| | | | | | | | | |]; try discriminate.
    destruct b as [|v0 wb| | | | | | | | | |]; try discriminate. injection E as <-.
    destruct (typed_vector_inv _ Sub _ _ _ eq_refl Ha) as (w & -> & _ & Hx & Hy). destruct (add_ok _ _ _ Hy Hb) as [T1 V1].
    destruct (eq_ok _ _ _ Hx T1) as [T2 V2]. split; [done|]. intros ρ. rewrite V2, V1. cbn [eval bin_value]. sizes. f_equal.
    pose proof (eval_fits _ ρ _ _ Hx) as Fx. pose proof (eval_fits _ ρ _ _ Hb) as Fb. unfold fits in *. cbn [width eval] in *.
    by apply sub_equation. }
  apply orelse_inv in E as [E | E]; [discriminate|].
  apply orelse_inv in E as [E | E]; [by apply (conditional_rule Eq fst a b b b s); auto|].
  apply orelse_inv in E as [E | E]; [apply refines_swap; [by left|]; by apply (conditional_rule Eq fst b a b a s); auto|].
  apply orelse_inv in E as [E | E]; [by apply (mask_rules Eq a b s); auto|].
  apply orelse_inv in E as [E | E]; [by apply (mask_rules Eq a b s); auto|].
  apply orelse_inv in E as [E | E]; [by apply (mask_rules Eq a b s); auto|].
  case_if E as E5; [|discriminate]. injection E as <-. split; [apply typed_BoolV|]. intros ρ. cbn.
  rewrite !andb_true_iff in E5. destruct E5 as [[[Eo _] _] Eb].
  destruct (Z.eqb_spec (eval ρ a) (eval ρ b)) as [Heq|]; [|done]. by destruct (bits_rule a b s Ha Hb Eo (or_introl Eb) ρ).
Qed.

Lemma ne_rule a b s r : strict = true → ty a s → ty b s → ne_simplifier build a b = Some r → refines strict (Bin Ne a b) SBool r.
Proof.
  intros Hs Ha Hb E. unfold ne_simplifier in E. destruct (same a b) eqn:E0.
  { apply same_true in E0 as ->. injection E as <-. split; [apply typed_BoolV|]. intros ρ. cbn. by rewrite Z.eqb_refl. }
  destruct (both_reversed a b) as [[x y]|] eqn:Er; [injection E as <-; by apply (both_reversed_rule Ne a b s); auto|]. destruct (is_BVV a && negb (is_BVV b)).
  { injection E as <-. apply refines_swap; [by right|]. apply (build_refines (Bin Ne b a)), (typed_Eq s); auto. }
  rewrite (xor_with_zero_strict Ne a b s Hs Ha) in E.
  apply orelse_inv in E as [E | E]; [by apply (conditional_rule Ne snd a b b b s); auto|].
  apply orelse_inv in E as [E | E]; [apply refines_swap; [by right|]; by apply (conditional_rule Ne snd b a a a s); auto|].
  apply orelse_inv in E as [E | E]; [discriminate|].
  apply orelse_inv in E as [E | E]; [by apply (mask_rules Ne a b s); auto|].
  apply orelse_inv in E as [E | E]; [by apply (mask_rules Ne a b s); auto|].
  apply orelse_inv in E as [E | E]; [by apply (mask_rules Ne a b s); auto|].
  case_if E as E5; [|discriminate]. injection E as <-. split; [apply typed_BoolV|]. intros ρ. cbn.
  rewrite !andb_true_iff in E5. destruct E5 as [[[Eo _] _] Eb].
  destruct (Z.eqb_spec (eval ρ a) (eval ρ b)) as [Heq|]; [|done].
  destruct (bits_rule a b s Ha Hb ltac:(by rewrite Eo, orb_true_r) (or_intror Eb) ρ Heq).
Qed.

(** ** Bitwise and *)

Lemma rotate_strict a b s : strict = true → ty a s → rotate_shift_mask_simplifier build a b = None.
Proof.
  intros Hs Ha. destruct a as [| | | | | |[] [|[| | | | |[]| | | | | |] l]| | | | |]; try done.
  destruct (typed_flat_inv _ BOr _ _ ltac:(done) Ha) as (_ & _ & [Hx _]%Forall_cons).
  destruct (typed_vector_inv _ Lshift _ _ _ eq_refl Hx) as (w & _ & Hv & _). cbn in Hv. by rewrite Hs in Hv.
Qed.

Lemma Concat_masked_rule x y b w : ty (Nary Concat [x; y]) (SBV w) → ty b (SBV w) →
  equals_int build b (2 ^ (size (Nary Concat [x; y]) - size x) - 1) = true →
  refines strict (Nary BAnd [Nary Concat [x; y]; b]) (SBV w) (build (ZeroExt (size x) y)).
Proof.
  intros Ha Hb E. destruct (typed_Concat2_inv _ _ _ _ Ha) as (wx & wy & [= ->] & Hx & Hy).
  rewrite (typed_size _ _ _ Ha), (typed_size _ _ _ Hx) in E. rewrite (typed_size _ _ _ Hx). cbn [width] in *.
  pose proof (typed_pos _ _ _ Hx) as Px. pose proof (typed_pos _ _ _ Hy) as Py. cbn [width] in *.
  destruct (zeroext_ok wx y wy Hy Px) as [T Ev]. rewrite Z.add_comm in T. apply refines_unit; try done. intros ρ.
  rewrite Ev, (equals_int_ok _ _ _ Hb E ρ), eval_Concat2. sizes. cbn [op2]. replace (wx + wy - wx) with wy by lia.
  pose proof (pow2_pos wy). pose proof (Z.pow_le_mono_r 2 wy (wx + wy)).
  rewrite (Z.mod_small (2 ^ wy - 1)), land_mask by lia. rewrite Z.add_comm, Z_mod_plus_full.
  symmetry. apply Z.mod_small. exact (eval_fits _ ρ _ _ Hy).
Qed.

Lemma Ifs_rule c1 a1 a0 c2 b1 b0 w : ty (If c1 a1 a0) (SBV w) → ty (If c2 b1 b0) (SBV w) →
  equals build a1 (bvv 1 (size a1)) && equals build a0 (bvv 0 (size a0))
    && equals build b1 (bvv 1 (size a1)) && equals build b0 (bvv 0 (size a0)) = true →
  refines strict (Nary BAnd [If c1 a1 a0; If c2 b1 b0]) (SBV w)
    (If_ build (build (Nary And [c1; c2])) (bvv 1 (size a1)) (bvv 0 (size a0))).
Proof.
  intros Ha Hb E. destruct (typed_If_inv _ _ _ _ _ Ha) as (Hc1 & Ha1 & Ha0). destruct (typed_If_inv _ _ _ _ _ Hb) as (Hc2 & Hb1 & Hb0).
  revert E. sizes. pose proof (typed_pos _ _ _ Ha) as Hw. cbn [width] in Hw.
  pose proof (typed_bvv strict 1 w Hw) as T1. pose proof (typed_bvv strict 0 w Hw) as T0.
  intros [[[E1 E2]%andb_true_iff E3]%andb_true_iff E4]%andb_true_iff.
  destruct (flat2_ok And c1 c2 SBool ltac:(by left) Hc1 Hc2) as [Tc Ec].
  destruct (If_rule _ _ _ _ Tc T1 T0) as [Tr Er]. apply refines_unit; try done. intros ρ. rewrite Er. cbn [eval].
  rewrite Ec, (equals_ok _ _ _ Ha1 T1 E1 ρ), (equals_ok _ _ _ Ha0 T0 E2 ρ), (equals_ok _ _ _ Hb1 T1 E3 ρ), (equals_ok _ _ _ Hb0 T0 E4 ρ).
  rewrite eval_bvv_0. cbn [op2 width]. destruct (eval_bool _ ρ _ Hc1) as [-> | ->], (eval_bool _ ρ _ Hc2) as [-> | ->]; cbn [Z.eqb Z.land Pos.land];
    rewrite ?Z.land_0_r, ?Z.land_diag; done.
Qed.

Lemma bitwise_and_rule args w r : strict = true → ty (Nary BAnd args) (SBV w) → bitwise_and_simplifier build args = Some r →
  refines strict (Nary BAnd args) (SBV w) r.
Proof.
  intros Hs Ht E. unfold bitwise_and_simplifier in E. destruct args as [|a [|b [|c args]]];
    try (by apply (flatten_idempotent_rule BAnd)).
  destruct (typed_flat_inv _ BAnd _ _ ltac:(done) Ht) as (Ho & _ & [Ha Hb%Forall_inv]%Forall_cons_1).
  rewrite (rotate_strict a b _ Hs Ha) in E. cbn [orelse] in E. unfold and_of_two in E. pose proof (typed_pos _ _ _ Ha) as Hw.
  cbn [width] in Hw.
  assert (∀ t, ty t (SBV w) → is_ones t = true → ∀ ρ, eval ρ t = 2 ^ w - 1) as Hones.
  { intros t T H ρ. destruct t; try discriminate. destruct (typed_BVV_inv _ _ _ _ T) as ([= <-] & _). by apply Z.eqb_eq in H. }
  assert (∀ t, ty t (SBV w) → is_zero t = true → ∀ ρ, eval ρ t = 0) as Hzero.
  { intros t T H ρ. destruct t; try discriminate. by apply Z.eqb_eq in H. }
  case_if E as E1; [injection E as <-; apply refines_right; auto|].
  case_if E as E2; [injection E as <-; apply refines_left; auto|].
  case_if E as E3; [injection E as <-; apply refines_same; try done; by eapply same_or_equals|].
  case_if E as E4.
  { injection E as <-. sizes. apply refines_unit; try done; [by apply typed_bvv|]. intros ρ. rewrite eval_bvv_0. cbn [op2].
    apply orb_true_iff in E4 as [H | H]; [by rewrite (Hzero _ Ha H)|by rewrite (Hzero _ Hb H), Z.land_0_r]. }
  apply orelse_inv in E as [E | E].
  { destruct a as [| | | | | |[] [|x [|y []]]| | | | |]; try discriminate. case_if E as E5; [|discriminate]. injection E as <-.
    by apply Concat_masked_rule. }
  apply orelse_inv in E as [E | E]; [|by apply (flatten_idempotent_rule BAnd)].
  destruct a as [| | | | | | | | | |c1 a1 a0|]; try discriminate. destruct b as [| | | | | | | | | |c2 b1 b0|]; try discriminate.
  case_if E as E5; [|discriminate]. injection E as <-. by apply Ifs_rule.
Qed.
End Compare.
End SimplifyCompare.
