(* ===== verification/SimplifyParts.v ===== *)
(** * The simplifiers of concatenations and extractions

    The arguments of a concatenation are compared by the number they spell
    ([same_parts]): merging constants, opening nested concatenations and joining
    consecutive extractions keep it.  An extraction of a concatenation is found
    in the parts it covers. *)

From Stdlib Require Import ZArith Lia Bool String.
From stdpp Require Import base tactics list numbers strings.
From S2P Require Import Prelude Bvv Claripy Pcode Simplify SimplifySem SimplifyBytes SimplifyFlat SimplifyRules SimplifyCompare.
#[local] Open Scope Z_scope.
#[local] Open Scope list_scope.

Module SimplifyParts.
Import Bvv.BVV(to_signed) Simplify.Simplify SimplifySem.SimplifySem SimplifyBytes.SimplifyBytes SimplifyFlat.SimplifyFlat SimplifyRules.SimplifyRules
  SimplifyCompare.SimplifyCompare.

(** ** Numbers in parts *)

Lemma div_parts (a r t k : Z) : 0 ≤ t → 0 ≤ k → fits t r → (a * 2 ^ t + r) / 2 ^ (t + k) = a / 2 ^ k.
Proof.
  intros Ht Hk Hr. unfold fits in Hr. pose proof (pow2_pos t Ht). pose proof (pow2_pos k Hk).
  rewrite Z.pow_add_r, <-Z.div_div by lia. by rewrite Z.div_add_l, (Z.div_small r), Z.add_0_r by lia.
Qed.

Lemma div_parts_low (a b s k : Z) : 0 ≤ k ≤ s → (a * 2 ^ s + b) / 2 ^ k = a * 2 ^ (s - k) + b / 2 ^ k.
Proof.
  intros Hk. pose proof (pow2_pos k). replace s with ((s - k) + k) at 1 by lia.
  rewrite Z.pow_add_r, Z.mul_assoc by lia. by rewrite Z.div_add_l by lia.
Qed.

Lemma mod_parts (a b t k : Z) : 0 ≤ t → 0 ≤ k → fits t b → (a * 2 ^ t + b) mod 2 ^ (k + t) = (a mod 2 ^ k) * 2 ^ t + b.
Proof.
  intros Ht Hk Hb. unfold fits in Hb. pose proof (pow2_pos t Ht). pose proof (pow2_pos k Hk).
  rewrite Z.pow_add_r by lia. pose proof (Z.mod_pos_bound a (2 ^ k)). rewrite (Z_div_mod_eq_full a (2 ^ k)) at 1.
  replace ((2 ^ k * (a / 2 ^ k) + a mod 2 ^ k) * 2 ^ t + b) with ((a mod 2 ^ k) * 2 ^ t + b + (a / 2 ^ k) * (2 ^ k * 2 ^ t)) by lia.
  rewrite Z_mod_plus_full. apply Z.mod_small. nia.
Qed.

Lemma mod_parts_low (a b s k : Z) : 0 ≤ k ≤ s → (a * 2 ^ s + b) mod 2 ^ k = b mod 2 ^ k.
Proof.
  intros Hk. replace s with ((s - k) + k) by lia. rewrite Z.pow_add_r, Z.mul_assoc by lia.
  by rewrite Z.add_comm, Z_mod_plus_full.
Qed.

(** Bits [l..h] above bits [h'..l'] with [r = h' + 1]. *)
Lemma join_slices (v l r low : Z) : 0 ≤ low → low ≤ r → r ≤ l + 1 →
  ((v / 2 ^ r) mod 2 ^ (l + 1 - r)) * 2 ^ (r - low) + (v / 2 ^ low) mod 2 ^ (r - low) = (v / 2 ^ low) mod 2 ^ (l + 1 - low).
Proof.
  intros. pose proof (pow2_pos low). pose proof (pow2_pos (r - low)).
  replace (l + 1 - low) with ((l + 1 - r) + (r - low)) by lia.
  rewrite (Z_div_mod_eq_full (v / 2 ^ low) (2 ^ (r - low))) at 2. rewrite (Z.mul_comm (2 ^ (r - low))).
  rewrite mod_parts by (try apply fits_mod; lia). do 3 f_equal.
  rewrite Z.div_div by lia. rewrite <-Z.pow_add_r by lia. do 2 f_equal. lia.
Qed.

(** ** Lists of parts *)

Section Parts.
Context {strict : bool} {build : ast → ast} `{!SoundBuild strict build}.
Implicit Types (a b c x y : ast) (s : sort) (w : Z).
#[local] Abbreviation ty := (typed strict).

Definition vec x : Prop := ∃ w, ty x (SBV w).
Definition total (xs : list ast) : Z := foldr (λ x n, size x + n) 0 xs.
Definition number (ρ : ast → Z) (xs : list ast) : Z := concat_value (map (λ x, (eval ρ x, size x)) xs).

Lemma vec_size x : vec x → 1 ≤ size x ∧ ty x (SBV (size x)).
Proof. intros [w Hx]. pose proof (typed_pos _ _ _ Hx). by rewrite (typed_size _ _ _ Hx). Qed.

Lemma vecs_Forall2 xs : Forall vec xs ↔ ∃ ws, Forall2 (λ x w, ty x (SBV w)) xs ws.
Proof.
  split.
  - induction 1 as [|x xs [w Hx] _ [ws IH]]; [by exists []|]. exists (w :: ws). by constructor.
  - intros [ws H]. induction H; constructor; [by eexists|done].
Qed.

Lemma typed_parts xs : xs ≠ [] → Forall vec xs → ty (Nary Concat xs) (SBV (total xs)).
Proof. intros Hne [ws H]%vecs_Forall2. unfold total. rewrite (sizes_sum _ _ _ H). by apply typed_Concat. Qed.

Lemma typed_parts_inv xs s : ty (Nary Concat xs) s → s = SBV (total xs) ∧ xs ≠ [] ∧ Forall vec xs.
Proof.
  intros (ws & -> & Hne & H)%typed_Concat_inv. unfold total. rewrite (sizes_sum _ _ _ H). split; [done|]. split; [done|].
  apply vecs_Forall2. by exists ws.
Qed.

Lemma total_app xs ys : total (xs ++ ys) = total xs + total ys.
Proof. unfold total. induction xs as [|x xs IH]; cbn in *; [done|lia]. Qed.

Lemma total_nonneg xs : Forall vec xs → 0 ≤ total xs.
Proof. unfold total. induction 1 as [|x xs Hx _ IH]; cbn; [done|]. pose proof (vec_size x Hx). lia. Qed.

Lemma number_fits ρ xs : Forall vec xs → fits (total xs) (number ρ xs).
Proof.
  intros H. unfold number, total. rewrite <-(foldr_map_size xs (eval ρ)). apply concat_value_fits.
  induction H as [|x xs Hx _ IH]; constructor; [|done]. destruct (vec_size x Hx) as [? Tx]. cbn. split; [lia|]. exact (eval_fits _ ρ _ _ Tx).
Qed.

Lemma number_cons ρ x xs : number ρ (x :: xs) = eval ρ x * 2 ^ total xs + number ρ xs.
Proof. unfold number, total. cbn. by rewrite foldr_map_size. Qed.

Lemma number_app ρ xs ys : Forall vec xs → Forall vec ys → number ρ (xs ++ ys) = number ρ xs * 2 ^ total ys + number ρ ys.
Proof.
  intros Hx Hy. pose proof (total_nonneg _ Hy). induction Hx as [|x xs _ Hxs IH]; [done|].
  cbn [app]. rewrite !number_cons, IH, total_app. pose proof (total_nonneg _ Hxs). rewrite Z.pow_add_r by done. lia.
Qed.

Lemma number_single ρ x : number ρ [x] = eval ρ x.
Proof. rewrite number_cons. cbn. lia. Qed.

Lemma total_single x : total [x] = size x.
Proof. unfold total. cbn. lia. Qed.

(** [ys] spells the same number as [xs], in as many bits. *)
Definition same_parts (xs ys : list ast) : Prop :=
  Forall vec ys ∧ total ys = total xs ∧ ∀ ρ, number ρ ys = number ρ xs.

Lemma same_parts_refl xs : Forall vec xs → same_parts xs xs.
Proof. by split. Qed.

Lemma same_parts_trans xs ys zs : same_parts xs ys → same_parts ys zs → same_parts xs zs.
Proof. intros (_ & T & E) (V' & T' & E'). split; [done|]. split; [congruence|]. intros ρ. by rewrite E', E. Qed.

Lemma same_parts_app xs xs' ys ys' : Forall vec xs → Forall vec ys →
  same_parts xs xs' → same_parts ys ys' → same_parts (xs ++ ys) (xs' ++ ys').
Proof.
  intros Hx Hy (V1 & T1 & E1) (V2 & T2 & E2). split; [by apply Forall_app|]. split; [rewrite !total_app; congruence|].
  intros ρ. rewrite !number_app by done. by rewrite E1, E2, T2.
Qed.

Lemma same_parts_refines xs ys : xs ≠ [] → Forall vec xs → same_parts xs ys →
  refines strict (Nary Concat xs) (SBV (total xs)) (Nary Concat ys).
Proof.
  intros Hne Hv (V & T & E). split.
  - rewrite <-T. apply typed_parts; [|done]. intros ->. destruct Hv as [|x xs Hx Hxs]; [done|].
    pose proof (vec_size x Hx). pose proof (total_nonneg _ Hxs). unfold total in *. cbn in *. lia.
  - intros ρ. apply (E ρ).
Qed.

Lemma concat_ok xs : xs ≠ [] → Forall vec xs → ty (concat_ build xs) (SBV (total xs)) ∧ ∀ ρ, eval ρ (concat_ build xs) = number ρ xs.
Proof. intros Hne Hv. apply (build_ok (Nary Concat xs)); [by apply typed_parts|done]. Qed.

(** ** [concat_simplifier] *)

Lemma merge_concrete_parts args : ∀ previous, vec previous → Forall vec args →
  same_parts (previous :: args) (merge_concrete build previous args).
Proof.
  induction args as [|current args IH]; intros previous Hp Hargs; cbn [merge_concrete]; [apply same_parts_refl; auto|].
  apply Forall_cons in Hargs as [Hc Hargs].
  destruct (concat_step build previous current) as [c|] eqn:E.
  - unfold concat_step in E.  destruct (negb _ && _ && _); [|discriminate]. cbv zeta in E. destruct (is_Nary _ _); [discriminate|]. injection E as <-.
    destruct (concat_ok [previous; current] ltac:(done) ltac:(auto)) as [T Ev].
    eapply same_parts_trans; [|apply IH; [by eexists|done]].
    apply (same_parts_app [previous; current] [concat_ build [previous; current]] args args); auto; [|by apply same_parts_refl].
    split; [repeat constructor; by eexists|]. split; [by rewrite total_single, (typed_size _ _ _ T)|].
    intros ρ. by rewrite number_single, Ev.
  - apply (same_parts_app [previous] [previous] (current :: args) (merge_concrete build current args)); auto; by apply same_parts_refl; auto.
Qed.

Lemma flatten_concat_parts args : Forall vec args → same_parts args (fst (flatten_concat args)).
Proof.
  induction 1 as [|current args Hc Hargs IH]; [by apply same_parts_refl|]. cbn [flatten_concat].
  destruct (flatten_concat args) as [rest simplified]. cbn [fst] in IH.
  destruct (Z.eqb_spec (size current) 0); [pose proof (vec_size _ Hc); lia|].
  assert (same_parts (current :: args) (current :: rest)) as Hkeep.
  { apply (same_parts_app [current] [current] args rest); auto. apply same_parts_refl. auto. }
  destruct current as [| | | | | |[] xs| | | | |]; try exact Hkeep. cbn [fst]. destruct Hc as [w Hc].
  destruct (typed_parts_inv _ _ Hc) as (Ew & Hne & Hv). apply (same_parts_app [Nary Concat xs] xs args rest); auto.
  - repeat constructor. by eexists.
  - split; [done|]. split; [by rewrite total_single|]. intros ρ. by rewrite number_single.
Qed.

(** [d] is bits [l] to [r] of [v]. *)
Definition slice_of (v : ast) (l r : Z) (d : ast) : Prop :=
  ∃ wv, ty v (SBV wv) ∧ 0 ≤ r ≤ l ∧ l < wv ∧ ty d (SBV (l + 1 - r)) ∧ ∀ ρ, eval ρ d = (eval ρ v / 2 ^ r) mod 2 ^ (l + 1 - r).

Definition consolidating (acc : list ast) (prev : option (ast * Z * Z)) : Prop :=
  match prev with Some (v, l, r) => ∃ d acc', acc = d :: acc' ∧ slice_of v l r d | None => True end.

Lemma slice_vec v l r d : slice_of v l r d → vec d.
Proof. intros (wv & _ & _ & _ & T & _). by eexists. Qed.

Lemma Extract_slice high low x : vec (Extract high low x) → slice_of x high low (Extract high low x).
Proof. intros [w H]. destruct (typed_Extract_inv _ _ _ _ _ H) as (wx & [= ->] & ? & ? & Hx). exists wx. split; [done|]. by repeat split; try lia. Qed.

(** Two slices that meet are one. *)
Lemma join_ok v l r d low e : slice_of v l r d → slice_of v (r - 1) low e →
  slice_of v l low (extract build l low v) ∧ same_parts [d; e] [extract build l low v].
Proof.
  intros (wv & Tv & H1 & H2 & Td & Ed) (wv' & Tv' & H3 & H4 & Te & Ee).
  destruct (extract_ok l low v wv Tv) as [T E]; [lia|lia|]. split; [by exists wv; repeat split; try lia|].
  split; [repeat constructor; by eexists|]. split.
  - rewrite total_single. unfold total. cbn [foldr]. rewrite (typed_size _ _ _ T), (typed_size _ _ _ Td), (typed_size _ _ _ Te). cbn. lia.
  - intros ρ. rewrite number_single, number_cons, number_single, total_single, E, Ed, Ee, (typed_size _ _ _ Te). cbn [width].
    replace (r - 1 + 1 - low) with (r - low) by lia. symmetry. apply join_slices; lia.
Qed.

Lemma consolidate_parts args : ∀ acc prev, Forall vec acc → Forall vec args → consolidating acc prev →
  same_parts (rev acc ++ args) (fst (consolidate build acc prev args)).
Proof.
  induction args as [|current args IH]; intros acc prev Ha Hargs Hp; cbn [consolidate].
  { rewrite app_nil_r. apply same_parts_refl. by apply Forall_rev. }
  apply Forall_cons in Hargs as [Hc Hargs].
  assert (∀ prev', consolidating (current :: acc) prev' →
            same_parts (rev acc ++ current :: args) (fst (consolidate build (current :: acc) prev' args))) as Hkeep.
  { intros prev' Hp'. pose proof (IH (current :: acc) prev' ltac:(auto) Hargs Hp') as H. cbn [rev] in H. by rewrite <-app_assoc in H. }
  destruct current as [| | | | | | |high low x| | | |]; try by apply Hkeep.
  assert (consolidating (Extract high low x :: acc) (Some (x, high, low))) as Hnext.
  { eexists _, _. split; [done|]. by apply Extract_slice. }
  destruct prev as [[[v l] r]|]; [|by apply Hkeep]. destruct Hp as (d & acc' & -> & Hd).
  destruct (same v x && (r =? high + 1)) eqn:E; [|by apply Hkeep].
  apply andb_true_iff in E as [->%same_true ->%Z.eqb_eq]. apply Forall_cons in Ha as [Hvd Ha'].
  pose proof (Extract_slice _ _ _ Hc) as He. replace high with (high + 1 - 1) in He at 1 by lia.
  destruct (join_ok _ _ _ _ _ _ Hd He) as [Hs Hj].
  pose proof (IH (extract build l low x :: acc') (Some (x, l, low)) ltac:(constructor; [by eapply slice_vec|done]) Hargs) as H.
  destruct (consolidate _ _ _ args) as [l' b']. cbn [fst] in *. eapply same_parts_trans; [|apply H; by eexists _, _].
  cbn [rev]. rewrite <-!app_assoc. pose proof (Forall_rev Ha').
  apply same_parts_app; [done|by repeat constructor|by apply same_parts_refl|].
  apply (same_parts_app [d; Extract high low x] [extract build l low x]); [by repeat constructor|done|done|by apply same_parts_refl].
Qed.

Lemma concat_rule args s r : ty (Nary Concat args) s → concat_simplifier build args = Some r → refines strict (Nary Concat args) s r.
Proof.
  intros Ht E. destruct (typed_parts_inv _ _ Ht) as (-> & Hne & Hv). unfold concat_simplifier in E.
  destruct args as [|a [|b rest]]; [done| |].
  - injection E as <-. apply Forall_inv in Hv. destruct (vec_size a Hv) as [_ Ta]. rewrite total_single. split; [done|].
    intros ρ. symmetry. apply (number_single ρ a).
  - apply Forall_cons in Hv as [Ha Hrest]. cbv zeta in E. set (args := a :: b :: rest) in *.
    set (merged := if existsb symbolic args then _ else args) in *.
    assert (same_parts args merged) as H1.
    { unfold merged. destruct (existsb _ _); [by apply merge_concrete_parts|apply same_parts_refl; by constructor]. }
    pose proof (flatten_concat_parts merged (proj1 H1)) as H2. destruct (flatten_concat merged) as [flattened b1]. cbn [fst] in H2.
    pose proof (consolidate_parts flattened [] None (Forall_nil_2 _) (proj1 H2) I) as H3.
    destruct (consolidate _ _ _ _) as [consolidated b2]. cbn [fst rev app] in H3. case_if E as E'; [|discriminate]. injection E as <-.
    pose proof (same_parts_trans _ _ _ H1 (same_parts_trans _ _ _ H2 H3)) as H.
    assert (refines strict (Nary Concat args) (SBV (total args)) (Nary Concat consolidated)) as Hr
      by (apply same_parts_refines; [done|by constructor|done]).
    eapply refines_trans; [exact Hr|]. apply (build_refines (Nary Concat consolidated)), Hr.
Qed.

(** ** Extraction from a concatenation *)

Lemma part_with_spec args : ∀ n pos i loc, part_with n pos args = Some (i, loc) →
  ∃ pre v post, args = pre ++ v :: post ∧ length pre = i ∧ loc = n - (pos - total pre - size v) ∧ 0 ≤ loc < size v.
Proof.
  induction args as [|v args IH]; intros n pos i loc E; cbn [part_with] in E; [done|]. cbv zeta in E.
  destruct ((pos - size v <=? n) && (n <? pos)) eqn:Ec.
  - injection E as <- <-. apply andb_true_iff in Ec as [?%Z.leb_le ?%Z.ltb_lt]. exists [], v, args. unfold total. cbn. repeat split; lia.
  - destruct (part_with n (pos - size v) args) as [[i' loc']|] eqn:E'; [|done]. cbn in E. injection E as <- <-.
    destruct (IH _ _ _ _ E') as (pre & u & post & -> & Hi & -> & Hb). exists (v :: pre), u, post.
    split; [done|]. split; [cbn; by rewrite Hi|]. unfold total in *. cbn. split; [lia|]. lia.
Qed.

(** The same with the parts on the right. *)
Lemma part_spec args n i loc : part_with n (total args) args = Some (i, loc) →
  ∃ pre v post, args = pre ++ v :: post ∧ length pre = i ∧ n = total post + loc ∧ 0 ≤ loc < size v.
Proof.
  intros (pre & v & post & -> & Hi & -> & Hb)%part_with_spec. exists pre, v, post. split; [done|]. split; [done|].
  rewrite total_app in *. unfold total in *. cbn in *. lia.
Qed.

(** An extraction that ends in the part [v] does not see what follows. *)
Lemma number_drop_right ρ pre v post k : Forall vec (pre ++ v :: post) → 0 ≤ k →
  number ρ (pre ++ v :: post) / 2 ^ (total post + k) = number ρ (pre ++ [v]) / 2 ^ k.
Proof.
  intros (Hpre & [Hv Hpost]%Forall_cons)%Forall_app Hk.
  replace (pre ++ v :: post) with ((pre ++ [v]) ++ post) by by rewrite <-app_assoc.
  rewrite number_app by (try apply Forall_app; auto). apply div_parts; [by apply total_nonneg|done|by apply number_fits].
Qed.

(** Nor what precedes the part its high end is in. *)
Lemma number_drop_left ρ pre mid k : Forall vec pre → Forall vec mid → 0 ≤ k ≤ total mid →
  number ρ (pre ++ mid) mod 2 ^ k = number ρ mid mod 2 ^ k.
Proof. intros Hpre Hmid Hk. rewrite number_app by done. by apply mod_parts_low. Qed.

Lemma extract_one ρ pre v post high_loc low_loc : Forall vec (pre ++ v :: post) → 0 ≤ low_loc ≤ high_loc → high_loc < size v →
  (number ρ (pre ++ v :: post) / 2 ^ (total post + low_loc)) mod 2 ^ (high_loc + 1 - low_loc) =
  (eval ρ v / 2 ^ low_loc) mod 2 ^ (high_loc + 1 - low_loc).
Proof.
  intros Hall Hlo Hhi. rewrite number_drop_right by (done || lia). apply Forall_app in Hall as [Hpre [Hv _]%Forall_cons].
  rewrite number_app, number_single, total_single by auto. rewrite div_parts_low by lia. apply mod_parts_low. lia.
Qed.

Lemma extract_many ρ pre vh mid vl post high_loc low_loc :
  Forall vec (pre ++ vh :: mid ++ vl :: post) → 0 ≤ high_loc < size vh → 0 ≤ low_loc < size vl →
  (number ρ (pre ++ vh :: mid ++ vl :: post) / 2 ^ (total post + low_loc)) mod 2 ^ (high_loc + 1 + total mid + (size vl - low_loc)) =
  ((eval ρ vh mod 2 ^ (high_loc + 1)) * 2 ^ total mid + number ρ mid) * 2 ^ (size vl - low_loc) + eval ρ vl / 2 ^ low_loc.
Proof.
  intros Hall Hhi Hlo. replace (pre ++ vh :: mid ++ vl :: post) with ((pre ++ vh :: mid) ++ vl :: post) in * by (by rewrite <-app_assoc).
  rewrite number_drop_right by (done || lia). apply Forall_app in Hall as [Hl [Hvl _]%Forall_cons].
  pose proof Hl as [Hpre [Hvh Hmid]%Forall_cons]%Forall_app. pose proof (total_nonneg _ Hmid). destruct (vec_size _ Hvl) as [? Tvl].
  rewrite number_app, number_single, total_single by auto. rewrite div_parts_low by lia.
  rewrite mod_parts; [|lia|lia|].
  2: { pose proof (eval_fits _ ρ _ _ Tvl) as F. unfold fits in *. cbn [width] in F. pose proof (pow2_pos low_loc).
       split; [apply Z.div_pos; lia|]. apply Z.div_lt_upper_bound; [lia|]. rewrite <-Z.pow_add_r by lia.
       replace (low_loc + (size vl - low_loc)) with (size vl) by lia. lia. }
  do 2 f_equal. replace (pre ++ vh :: mid) with ((pre ++ [vh]) ++ mid) by by rewrite <-app_assoc.
  rewrite (number_app ρ (pre ++ [vh])) by (try apply Forall_app; auto). rewrite mod_parts; [|lia|lia|by apply number_fits].
  do 2 f_equal. rewrite number_app, number_single, total_single by auto. apply mod_parts_low. lia.
Qed.

Lemma alter_last_app f (l : list ast) x : alter_last f (l ++ [x]) = l ++ [f x].
Proof.
  induction l as [|y l IH]; [done|]. cbn [app alter_last]. rewrite IH. by destruct l.
Qed.

(** Where the two ends are. *)
Lemma ends pre vh post_h pre' vl post_l : Forall vec (pre ++ vh :: post_h) → pre ++ vh :: post_h = pre' ++ vl :: post_l →
  total post_l < total post_h + size vh →
  (pre' = pre ∧ vl = vh ∧ post_l = post_h) ∨ ∃ mid, pre' = pre ++ vh :: mid ∧ post_h = mid ++ vl :: post_l.
Proof.
  intros Hv E Hlt. apply app_eq_inv in E as [(k & -> & E) | (k & -> & E)].
  - destruct k as [|u k]; [rewrite app_nil_r in *; by injection E as -> ->; left|]. exfalso. injection E as -> ->.
    rewrite total_app in Hlt. unfold total in Hlt. cbn in Hlt. apply Forall_app in Hv as [Hk _]. apply Forall_app in Hk as [_ [_ Hk]%Forall_cons].
    pose proof (total_nonneg _ Hk). unfold total in *. lia.
  - destruct k as [|u k]; [rewrite app_nil_r; by injection E as -> ->; left|]. injection E as <- ->. right. by exists k.
Qed.

Lemma slice_all v : vec v → ∀ ρ, (eval ρ v / 2 ^ 0) mod 2 ^ (size v - 1 + 1 - 0) = eval ρ v.
Proof.
  intros [_ Tv]%vec_size ρ. rewrite Z.div_1_r. replace (size v - 1 + 1 - 0) with (size v) by lia. apply Z.mod_small.
  exact (eval_fits _ ρ _ _ Tv).
Qed.

(** The part above [low_loc], built when it is not the whole of [v]. *)
Lemma above_ok v low_loc : vec v → 0 ≤ low_loc < size v →
  let r := if negb (low_loc =? 0) then extract build (size v - 1) low_loc v else v in
  ty r (SBV (size v - low_loc)) ∧ ∀ ρ, eval ρ r = eval ρ v / 2 ^ low_loc.
Proof.
  intros [_ Tv]%vec_size Hl. destruct (Z.eqb_spec low_loc 0) as [-> |]; cbn [negb].
  - rewrite Z.sub_0_r. split; [done|]. intros ρ. by rewrite Z.div_1_r.
  - destruct (extract_ok (size v - 1) low_loc v _ Tv) as [T E]; [lia|lia|]. replace (size v - 1 + 1 - low_loc) with (size v - low_loc) in * by lia.
    split; [done|]. intros ρ. rewrite E. apply Z.mod_small. pose proof (eval_fits _ ρ _ _ Tv) as F. unfold fits in F. cbn [width] in F.
    pose proof (pow2_pos low_loc). split; [apply Z.div_pos; lia|]. apply Z.div_lt_upper_bound; [lia|]. rewrite <-Z.pow_add_r by lia.
    replace (low_loc + (size v - low_loc)) with (size v) by lia. lia.
Qed.

Lemma extract_of_concat_rule args w high low r : ty (Nary Concat args) (SBV w) → 0 ≤ low ≤ high → high < w →
  extract_of_concat build high low (Nary Concat args) args = Some r →
  refines strict (Extract high low (Nary Concat args)) (SBV (high + 1 - low)) r.
Proof.
  intros Ht Hlo Hhi E. destruct (typed_parts_inv _ _ Ht) as ([= ->] & Hne & Hv). unfold extract_of_concat in E.
  change (size (Nary Concat args)) with (total args) in E.
  destruct (part_with high _ _) as [[high_i high_loc]|] eqn:Eh; [|discriminate].
  destruct (part_with low _ _) as [[low_i low_loc]|] eqn:El; [|discriminate].
  apply part_spec in Eh as (pre & vh & post_h & -> & <- & Eh & Hh). apply part_spec in El as (pre' & vl & post_l & Eargs & <- & El & Hl).
  rewrite drop_app_length in E.
  assert (∀ ρ, eval ρ (Extract high low (Nary Concat (pre ++ vh :: post_h))) =
               (number ρ (pre ++ vh :: post_h) / 2 ^ low) mod 2 ^ (high + 1 - low)) as Ev by done.
  destruct (ends _ _ _ _ _ _ Hv Eargs ltac:(lia)) as [(-> & -> & ->) | (mid & -> & ->)].
  - replace (S (length pre) - length pre)%nat with 1%nat in E by lia. cbn [take] in E. rewrite take_0 in E. assert (vec vh) as Hvh by (apply Forall_app in Hv as [_ [? _]%Forall_cons]; done).
    replace (low_loc + high - low) with high_loc in E by lia. destruct (vec_size _ Hvh) as [_ Tvh].
    replace (high + 1 - low) with (high_loc + 1 - low_loc) in * by lia.
    case_if E as E1.
    + injection E as <-. apply andb_true_iff in E1 as [->%Z.eqb_eq ->%Z.eqb_eq].
      split; [by replace (size vh - 1 + 1 - 0) with (size vh) by lia|]. intros ρ. rewrite Ev, El, extract_one by (done || lia). symmetry. by apply slice_all.
    + injection E as <-. destruct (extract_ok high_loc low_loc vh _ Tvh) as [T Ex]; [lia|lia|]. split; [done|].
      intros ρ. rewrite Ev, El, extract_one by (done || lia). by rewrite Ex.
  - pose proof Hv as [_ [Hvh [Hmid [Hvl Hpost]%Forall_cons]%Forall_app]%Forall_cons]%Forall_app. destruct (vec_size _ Hvh) as [_ Tvh].
    rewrite length_app in E. cbn [length] in E. replace (S (length pre + S (length mid)) - length pre)%nat with (S (length (mid ++ [vl]))) in E
      by (rewrite length_app; cbn; lia).
    cbn [take] in E. replace (mid ++ vl :: post_l) with ((mid ++ [vl]) ++ post_l) in E by (by rewrite <-app_assoc). rewrite take_app_length in E.
    cbv zeta in E. assert ((high_loc =? size vh) = false) as Ehl by (apply Z.eqb_neq; lia). rewrite Ehl in E. cbn [negb] in E.
    destruct (above_ok vl low_loc Hvl Hl) as [Tl Evl]. cbv zeta in Tl, Evl. rewrite !alter_last_app in E.
    set (last_ := if negb (low_loc =? 0) then extract build (size vl - 1) low_loc vl else vl) in *.
    destruct (low_bits_ok vh _ (high_loc + 1) Tvh ltac:(lia)) as [Tf Ef]. replace (high_loc + 1 - 1) with high_loc in * by lia.
    assert (Some (concat_ build (extract build high_loc 0 vh :: mid ++ [last_])) = Some r) as E'.
    { rewrite <-E. unfold last_. destruct mid as [|m mid]; cbn [app]; destruct (negb _); done. }
    injection E' as <-. clear E Ehl. set (parts := extract build high_loc 0 vh :: mid ++ [last_]).
    assert (Forall vec parts) as Hp by (constructor; [by eexists|apply Forall_app; split; [done|repeat constructor; by eexists]]).
    destruct (concat_ok parts ltac:(done) Hp) as [T En].
    assert (total parts = high_loc + 1 + total mid + (size vl - low_loc)) as Etot.
    { unfold parts. change (?x :: ?l) with ([x] ++ l). rewrite !total_app, !total_single. sizes. lia. }
    assert (high + 1 - low = total parts) as Elen by (rewrite Etot; revert Eh El; rewrite total_app; unfold total; cbn; lia).
    rewrite Elen in *. split; [done|]. intros ρ. rewrite En, Ev, El, Etot, extract_many by (done || lia). unfold parts.
    assert (Forall vec [last_]) as Hlast by (repeat constructor; by eexists).
    rewrite number_cons, number_app, number_single, total_app, total_single, Ef, Evl by done. rewrite (typed_size _ _ _ Tl). cbn [width].
    pose proof (total_nonneg _ Hmid). rewrite (Z.pow_add_r 2 (total mid)) by lia. ring.
Qed.

(** ** [extract_simplifier] *)

Lemma slice_op2 o w w' low (u v : Z) : extract_distributable o = true → 0 ≤ low → 0 ≤ w' →
  (op2 o w u v / 2 ^ low) mod 2 ^ w' = op2 o w' ((u / 2 ^ low) mod 2 ^ w') ((v / 2 ^ low) mod 2 ^ w').
Proof.
  intros Ho Hl Hw. apply Z.bits_inj'. intros i Hi. rewrite <-!Z.shiftr_div_pow2 by done.
  destruct o; try discriminate; cbn [op2];
    rewrite ?Z.land_spec, ?Z.lor_spec, ?Z.lxor_spec, !testbit_mod_pow2, !Z.shiftr_spec, ?Z.land_spec, ?Z.lor_spec, ?Z.lxor_spec by done;
    by destruct (i <? w'), (Z.testbit u (i + low)), (Z.testbit v (i + low)).
Qed.

Lemma slice_unit o w w' low : extract_distributable o = true → 0 ≤ low → 0 ≤ w' → low + w' ≤ w →
  (unit_of o w / 2 ^ low) mod 2 ^ w' = unit_of o w'.
Proof.
  intros Ho Hl Hw Hle. pose proof (pow2_pos low Hl). pose proof (pow2_pos w' Hw).
  destruct o; try discriminate; cbn [unit_of]; rewrite ?Z.div_0_l, ?Z.mod_0_l by lia; try done.
  replace w with ((w - low) + low) by lia. rewrite Z.pow_add_r by lia.
  replace (2 ^ (w - low) * 2 ^ low - 1) with ((2 ^ (w - low) - 1) * 2 ^ low + (2 ^ low - 1)) by lia.
  rewrite Z.div_add_l, (Z.div_small (2 ^ low - 1)), Z.add_0_r by lia.
  replace (w - low) with ((w - low - w') + w') by lia. rewrite Z.pow_add_r by lia.
  replace (2 ^ (w - low - w') * 2 ^ w' - 1) with ((2 ^ w' - 1) + (2 ^ (w - low - w') - 1) * 2 ^ w') by lia.
  rewrite Z_mod_plus_full. apply Z.mod_small. lia.
Qed.

Lemma eval_Extract ρ high low x : eval ρ (Extract high low x) = (eval ρ x / 2 ^ low) mod 2 ^ (high + 1 - low).
Proof. done. Qed.

Lemma extract_flat_rule o args w high low : extract_distributable o = true → ty (Nary o args) (SBV w) → 0 ≤ low ≤ high → high < w →
  refines strict (Extract high low (Nary o args)) (SBV (high + 1 - low)) (build (Nary o (extract build high low <$> args))).
Proof.
  intros Ho Ht Hlo Hhi. assert (o ≠ Concat) as Hc by by destruct o. destruct (typed_flat_inv _ _ _ _ Hc Ht) as (Hf & Hne & Hargs).
  assert (Forall (λ x, ty x (SBV (high + 1 - low))) (extract build high low <$> args)) as Targs.
  { apply Forall_fmap. apply (Forall_impl _ _ _ Hargs). intros x Hx. by apply (extract_ok high low x w). }
  assert (extract build high low <$> args ≠ []) as Hne' by (by destruct args).
  assert (ty (Nary o (extract build high low <$> args)) (SBV (high + 1 - low))) as Tn by by apply (typed_flat _ o (SBV _)).
  eapply refines_trans; [|by apply build_refines]. split; [done|]. intros ρ.
  rewrite eval_Extract, (eval_flat strict ρ o args (SBV w)), (eval_flat strict ρ o _ (SBV (high + 1 - low))) by done. cbn [width]. clear Hne Hne' Tn Targs Ht.
  induction Hargs as [|x args Hx _ IH]; cbn [fmap list_fmap vals fold foldr].
  - symmetry. apply slice_unit; (done || lia).
  - rewrite slice_op2 by (done || lia). destruct (extract_ok high low x w Hx) as [_ E]; [lia|lia|]. rewrite E. f_equal. exact IH.
Qed.

Lemma extract_distributed_rule val w high low r : strict = true → ty val (SBV w) → 0 ≤ low ≤ high → high < w →
  extract_distributed build high low val = Some r → refines strict (Extract high low val) (SBV (high + 1 - low)) r.
Proof.
  intros Hs Hv Hlo Hhi E. destruct val as [| | | |[] x| |o args| | | |c t e|]; try discriminate; cbn in E.
  - exfalso. inversion Hv as [| | | | | |? ? Ha| | | | | | | | | | | | |]; subst. done.
  - case_if E as Ho; [|discriminate]. injection E as <-. by eapply extract_flat_rule.
  - case_if E as E1; [|discriminate]. injection E as <-. destruct (typed_If_inv _ _ _ _ _ Hv) as (Hc & Ht & He).
    destruct (extract_ok high low t w Ht) as [T1 V1]; [lia|lia|]. destruct (extract_ok high low e w He) as [T2 V2]; [lia|lia|].
    destruct (If_rule _ _ _ _ Hc T1 T2) as [T V]. split; [done|]. intros ρ. rewrite V. cbn [eval]. rewrite V1, V2. by destruct (_ =? 1).
Qed.

Lemma extract_mono high low val val' w r : 0 ≤ low ≤ high → high < w → refines strict val (SBV w) val' →
  refines strict (Extract high low val') (SBV (high + 1 - low)) r → refines strict (Extract high low val) (SBV (high + 1 - low)) r.
Proof. intros Hlo Hhi [T E] [T' E']. split; [done|]. intros ρ. rewrite E'. cbn [eval]. by rewrite E. Qed.

(** The operand of an extension is what is left of it. *)
Lemma extract_whole_rule val w high low r : ty val (SBV w) → 0 ≤ low ≤ high → high < w →
  (match val with SignExt _ x | ZeroExt _ x => if (low =? 0) && (high + 1 =? size x) then Some x else None | _ => None end) = Some r →
  refines strict (Extract high low val) (SBV (high + 1 - low)) r.
Proof.
  intros Hv Hlo Hhi E. destruct val as [| | | | | | | |n x|n x| |]; try discriminate; case_if E as E1; try discriminate; injection E as <-;
    apply andb_true_iff in E1 as [->%Z.eqb_eq E1%Z.eqb_eq]; [apply typed_ZeroExt_inv in Hv|apply typed_SignExt_inv in Hv];
    destruct Hv as (w' & [= ->] & Hn & Hx); pose proof (typed_pos _ _ _ Hx) as Hp; rewrite (typed_size _ _ _ Hx) in E1; cbn [width] in *;
    (split; [by replace (high + 1 - 0) with w' by lia|]); intros ρ; cbn [eval]; rewrite Z.div_1_r; replace (high + 1 - 0) with w' by lia;
    pose proof (eval_fits _ ρ _ _ Hx) as F; unfold fits in F; cbn [width] in F.
  - by rewrite Z.mod_small.
  - rewrite (typed_size _ _ _ Hx). cbn [width]. rewrite (Z.add_comm w' n), Z.pow_add_r by lia.
    pose proof (pow2_pos n). pose proof (pow2_pos w'). rewrite <-(Bvv.BVV.to_signed_mod w' (eval ρ x)) at 1 by done.
    rewrite (Z.mul_comm (2 ^ n)), Z.rem_mul_r by lia. rewrite Z.mul_comm, Z_mod_plus_full. by rewrite Z.mod_mod by lia.
Qed.

(** A byte of a reversal is the byte as far from the other end. *)
Lemma extract_reversed_byte_rule x w low : ty (Un Reverse x) (SBV w) → 0 ≤ low → low + 8 ≤ w → low mod 8 = 0 →
  let byte := w / 8 - low / 8 - 1 in
  refines strict (Extract (low + 7) low (Un Reverse x)) (SBV 8) (extract build ((byte + 1) * 8 - 1) (byte * 8) x).
Proof.
  intros Hv Hlo Hhi Hm byte. destruct (typed_Reverse_inv _ _ _ Hv) as (w' & [= <-] & Hw & Hx).
  pose proof (Z_div_exact_full_2 w 8 ltac:(lia) Hw) as E8. pose proof (Z_div_exact_full_2 low 8 ltac:(lia) Hm) as El.
  destruct (extract_ok ((byte + 1) * 8 - 1) (byte * 8) x w Hx) as [T V]; [unfold byte; lia|unfold byte; lia|].
  replace ((byte + 1) * 8 - 1 + 1 - byte * 8) with 8 in * by lia. split; [done|]. intros ρ. rewrite V, eval_Extract, eval_Reverse. sizes.
  replace (low + 7 + 1 - low) with 8 by lia. pose proof (bytes_exact w ltac:(lia) Hw) as Hn.
  rewrite byte_of_reverse by (rewrite ?Hn; (done || lia || exact (eval_fits _ ρ _ _ Hx))).
  rewrite Hn. by replace (w - low - 8) with (byte * 8) by (unfold byte; lia).
Qed.

Lemma extract_rule val w high low r : strict = true → ty val (SBV w) → 0 ≤ low ≤ high → high < w →
  extract_simplifier build high low val = Some r → refines strict (Extract high low val) (SBV (high + 1 - low)) r.
Proof.
  intros Hs Hv Hlo Hhi E. unfold extract_simplifier in E. case_if E as E0.
  { injection E as <-. apply Z.eqb_eq in E0. rewrite (typed_size _ _ _ Hv) in E0. cbn [width] in E0.
    assert (low = 0 ∧ high = size val - 1) as [-> ->] by (rewrite (typed_size _ _ _ Hv); cbn; lia). split.
    - rewrite (typed_size _ _ _ Hv). cbn [width]. by replace (w - 1 + 1 - 0) with w by lia.
    - intros ρ. symmetry. apply slice_all. by eexists. }
  apply orelse_inv in E as [E | E]; [by eapply extract_whole_rule|]. cbv zeta in E.
  set (val1 := match val with ZeroExt _ _ => _ | _ => val end) in E.
  assert (refines strict val (SBV w) val1) as H1.
  { unfold val1. destruct val as [| | | | | | | |n x| | |]; try by apply refines_refl.
    destruct (typed_ZeroExt_inv _ _ _ _ Hv) as (w' & [= ->] & Hn & Hx). destruct (Z.eqb_spec n 0); [lia|].
    destruct (concat_ok [bvv 0 n; x] ltac:(done)) as [T V].
    { repeat constructor; eexists; [by apply typed_bvv|exact Hx]. }
    unfold total in T. cbn [foldr] in T. rewrite (typed_size _ _ _ Hx) in T. cbn [size bvv width] in T.
    split; [by replace (w' + n) with (n + (w' + 0)) by lia|]. intros ρ. rewrite V, number_cons, number_single, eval_bvv_0. cbn [eval]. lia. }
  apply (extract_mono high low val val1 w); [done|done|done|]. destruct H1 as [T1 _]. clear Hv E0. clearbody val1.
  assert (reversed_concat val1 = None) as Hr.
  { destruct val1 as [| | | |[] x| | | | | | |]; try done. inversion T1 as [| | | | | | |? ? Ha| | | | | | | | | | | |]; subst.
    unfold reversible in Ha. rewrite andb_true_l in Ha. by destruct x as [| | | | | |[]| | | | |]. }
  rewrite Hr in E. destruct val1 as [| | | |[] x| |[] args|inner_high inner_low x| | | |]; try by apply (extract_distributed_rule _ w).
  - cbv zeta in E. rewrite Hr in E. case_if E as E1; [|discriminate]. injection E as <-. apply andb_true_iff in E1 as [E1%Z.eqb_eq Em%Z.eqb_eq].
    pose proof (typed_size _ _ _ T1) as Hx. cbn [size width] in Hx. rewrite Hx. assert (high = low + 7) as -> by lia. replace (low + 7 + 1 - low) with 8 by lia. apply extract_reversed_byte_rule; (done || lia).
  - by apply (extract_of_concat_rule args w).
  - injection E as <-. destruct (typed_Extract_inv _ _ _ _ _ T1) as (wx & [= ->] & H1 & H2 & Hx).
    destruct (extract_ok (inner_low + low + (high - low)) (inner_low + low) x wx Hx) as [T V]; [lia|lia|].
    replace (inner_low + low + (high - low) + 1 - (inner_low + low)) with (high + 1 - low) in * by lia. split; [done|].
    intros ρ. rewrite V. cbn [eval]. pose proof (pow2_pos inner_low). pose proof (pow2_pos low).
    rewrite Z.pow_add_r, <-Z.div_div by lia. set (v := eval ρ x / 2 ^ inner_low).
    replace (inner_high + 1 - inner_low) with ((inner_high + 1 - inner_low - low) + low) by lia.
    rewrite (Z_div_mod_eq_full v (2 ^ low)) at 2. rewrite (Z.mul_comm (2 ^ low)).
    rewrite mod_parts by (try apply fits_mod; lia). rewrite Z.div_add_l, (Z.div_small (v mod 2 ^ low)), Z.add_0_r by (try apply Z.mod_pos_bound; lia).
    replace (inner_high + 1 - inner_low - low) with ((inner_high - inner_low - high) + (high + 1 - low)) by lia.
    rewrite Z.pow_add_r, (Z.mul_comm (2 ^ (inner_high - inner_low - high))), Z.rem_mul_r by (try pose proof (pow2_pos (high + 1 - low)); lia).
    rewrite Z.mul_comm, Z_mod_plus_full. by rewrite Z.mod_mod by (pose proof (pow2_pos (high + 1 - low)); lia).
Qed.
End Parts.
End SimplifyParts.
