(* ===== verification/SimplifyReverse.v ===== *)
(** * The simplifier of byte reversal

    [bv_reverse_simplifier] moves a reversal through concatenations and
    extractions and keeps the value, with any sound construction of nodes. *)

From Stdlib Require Import ZArith Lia Bool String.
From stdpp Require Import base tactics list numbers strings.
From S2P Require Import Prelude Bvv Claripy Pcode Simplify SimplifySem SimplifyBytes SimplifyFlat SimplifyRules SimplifyCompare SimplifyParts.
#[local] Open Scope Z_scope.
#[local] Open Scope list_scope.

Module SimplifyReverse.
Import Bvv.BVV(to_signed) Simplify.Simplify SimplifySem.SimplifySem SimplifyBytes.SimplifyBytes SimplifyFlat.SimplifyFlat SimplifyRules.SimplifyRules
  SimplifyCompare.SimplifyCompare SimplifyParts.SimplifyParts.

Section Reverse.
Context {strict : bool} {build : ast → ast} `{!SoundBuild strict build}.
#[local] Abbreviation ty := (typed strict).
#[local] Abbreviation vec := (@SimplifyParts.SimplifyParts.vec strict).

Definition aligned (x : ast) : Prop := size x mod 8 = 0.

Lemma total_aligned xs : Forall aligned xs → total xs mod 8 = 0.
Proof. unfold total. induction 1 as [|x xs Hx _ IH]; cbn; [done|]. unfold aligned in Hx. by rewrite Z.add_mod, Hx, IH by lia. Qed.

(** Reversing a number in parts of whole bytes reverses each part, last first. *)
Lemma byte_swap_number ρ (f : ast → ast) xs : Forall vec xs → Forall aligned xs →
  Forall (λ x, size (f x) = size x ∧ vec (f x) ∧ eval ρ (f x) = byte_swap (bytes (size x)) (eval ρ x)) xs →
  number ρ (rev (f <$> xs)) = byte_swap (bytes (total xs)) (number ρ xs) ∧ total (rev (f <$> xs)) = total xs ∧ Forall vec (rev (f <$> xs)).
Proof.
  intros Hv Ha Hf. induction Hv as [|x xs Hx Hxs IH]; [done|].
  apply Forall_cons in Ha as [Hax Ha]. apply Forall_cons in Hf as [(Es & Vf & Ef) Hf]. destruct (IH Ha Hf) as (En & Et & Vr).
  destruct (vec_size x Hx) as [Hp Tx]. cbn [fmap list_fmap rev]. rewrite total_app, total_single, Es, Et.
  split; [|split; [unfold total; cbn; lia|by apply Forall_app; auto]].
  rewrite (number_app (strict:=strict)), number_single, total_single, En, Ef, Es, number_cons by auto.
  pose proof (total_nonneg _ Hxs). pose proof (total_aligned _ Ha) as Hta. pose proof (number_fits ρ _ Hxs) as Fn.
  pose proof (eval_fits _ ρ _ _ Tx) as [? _]. change (total (x :: xs)) with (size x + total xs).
  rewrite bytes_add, Nat.add_comm by (done || lia). rewrite <-(bytes_exact (total xs)) at 3 by done.
  rewrite byte_swap_app by (rewrite ?bytes_exact by done; done). by rewrite bytes_exact by (done || lia).
Qed.

Lemma aligned_forallb (p : ast → bool) xs : (∀ x, p x = true → aligned x) → forallb p xs = true → Forall aligned xs.
Proof. intros Hp H. apply Forall_forall. intros x Hx. rewrite list_elem_of_In in Hx. apply Hp. by apply (proj1 (forallb_forall _ _) H). Qed.

(** A concatenation of single bytes. *)
Lemma bytes_reversed ρ xs : Forall vec xs → forallb (λ a, size a =? 8) xs = true →
  number ρ (rev xs) = byte_swap (bytes (total xs)) (number ρ xs) ∧ total (rev xs) = total xs ∧ Forall vec (rev xs).
Proof.
  intros Hv H. pose proof (byte_swap_number ρ id xs Hv) as Hb. rewrite list_fmap_id in Hb.
  assert (∀ x, x ∈ xs → size x = 8) as H8.
  { intros x Hx. rewrite list_elem_of_In in Hx. apply Z.eqb_eq. by apply (proj1 (forallb_forall _ _) H). }
  apply Hb; [apply Forall_forall; intros x Hx; unfold aligned; by rewrite (H8 x Hx)|].
  apply Forall_forall. intros x Hx. rewrite Forall_forall in Hv. split; [done|]. split; [by apply Hv|].
  destruct (vec_size x (Hv x Hx)) as [_ Tx]. rewrite (H8 x Hx) in *. symmetry. apply byte_swap_byte. exact (eval_fits _ ρ _ _ Tx).
Qed.

Lemma bytes_8 : bytes 8 = 1%nat.
Proof. done. Qed.

(** Slices of one byte each, lowest first. *)
Lemma ascending_slices ρ x wx xs : ty x (SBV wx) → ∀ i, 0 ≤ i → Forall vec xs → ascending_bytes i x xs = true →
  Forall (λ a, size a = 8) xs ∧ (xs = [] ∨ 8 * (i + Z.of_nat (length xs)) ≤ wx) ∧
  number ρ (rev xs) = (eval ρ x / 2 ^ (8 * i)) mod 2 ^ (8 * Z.of_nat (length xs)).
Proof.
  intros Hx. induction xs as [|a xs IH]; intros i Hi Hv E.
  { split; [done|]. split; [by left|]. cbn. by rewrite Z.mod_1_r. }
  apply Forall_cons in Hv as [Ha Hv]. destruct a as [| | | | | | |high low y| | | |]; try discriminate. cbn [ascending_bytes] in E.
  apply andb_true_iff in E as [[[<-%same_true ->%Z.eqb_eq]%andb_true_iff ->%Z.eqb_eq]%andb_true_iff E].
  destruct (IH (i + 1) ltac:(lia) Hv E) as (H8 & Hle & En). destruct Ha as [w Ha].
  destruct (typed_Extract_inv _ _ _ _ _ Ha) as (wx' & _ & Hlo & Hhi & Hx'). pose proof (typed_unique _ _ _ _ Hx Hx') as [= <-].
  split; [constructor; [cbn; lia|done]|]. cbn [length]. split; [right; destruct Hle as [-> | ?]; cbn; lia|].
  cbn [rev]. rewrite (number_app (strict:=strict)), number_single, total_single, En;
    [|by apply Forall_rev|repeat constructor; by eexists].
  rewrite eval_Extract. cbn [size]. replace ((i + 1) * 8 - 1 + 1 - i * 8) with 8 by lia.
  pose proof (join_slices (eval ρ x) (8 * (i + 1 + Z.of_nat (length xs)) - 1) (8 * (i + 1)) (8 * i)) as J.
  replace (8 * (i + 1 + Z.of_nat (length xs)) - 1 + 1 - 8 * (i + 1)) with (8 * Z.of_nat (length xs)) in J by lia.
  replace (8 * (i + 1 + Z.of_nat (length xs)) - 1 + 1 - 8 * i) with (8 * Z.of_nat (S (length xs))) in J by lia.
  replace (8 * (i + 1) - 8 * i) with 8 in J by lia. rewrite (Z.mul_comm i 8). apply J; lia.
Qed.

Lemma total_bytes xs : Forall (λ a, size a = 8) xs → total xs = 8 * Z.of_nat (length xs).
Proof. unfold total. induction 1 as [|a xs Ha _ IH]; [done|]. cbn [foldr length]. rewrite Ha, IH. lia. Qed.

Lemma bytes_of_concat args w r : ty (Nary Concat args) (SBV w) → w mod 8 = 0 →
  (match args, last args with
   | Extract _ _ x :: _, Some (Extract upper_bound _ _) =>
       if ascending_bytes 0 x args then
         if size x =? upper_bound + 1 then Some x else Some (extract build upper_bound 0 x)
       else None
   | _, _ => None
   end) = Some r → refines strict (Un Reverse (Nary Concat args)) (SBV w) r.
Proof.
  intros Ht Hw E. destruct (typed_parts_inv _ _ Ht) as ([= ->] & Hne & Hv).
  destruct args as [|[| | | | | | |h0 l0 x| | | |] rest]; try discriminate. set (args := Extract h0 l0 x :: rest) in *.
  destruct (last args) as [[| | | | | | |ub z y| | | |]|] eqn:El; try discriminate. case_if E as Ea; [|discriminate].
  destruct (Forall_inv Hv) as [w0 Hx0]. destruct (typed_Extract_inv _ _ _ _ _ Hx0) as (wx & _ & _ & _ & Hx).
  assert (∀ ρ, Forall (λ a, size a = 8) args ∧ 8 * Z.of_nat (length args) ≤ wx ∧
            eval ρ (Un Reverse (Nary Concat args)) = eval ρ x mod 2 ^ (8 * Z.of_nat (length args))) as Hargs.
  { intros ρ. destruct (ascending_slices ρ x wx args Hx 0 ltac:(done) Hv Ea) as (H8 & [? | Hle] & En); [done|]. split; [done|]. split; [lia|].
    change (8 * 0) with 0 in En. rewrite Z.pow_0_r, Z.div_1_r in En. rewrite <-En, eval_Reverse.
    destruct (bytes_reversed ρ args Hv) as (Hb & _); [|symmetry; apply Hb].
    apply forallb_forall. intros a Ha. apply Z.eqb_eq. rewrite Forall_forall in H8. apply H8. by rewrite list_elem_of_In. }
  assert (ub + 1 = 8 * Z.of_nat (length args)) as Eub.
  { apply last_Some in El as [args' Eargs]. rewrite Eargs in Ea |- *. rewrite length_app. cbn [length].
    assert (∀ i, ascending_bytes i x (args' ++ [Extract ub z y]) = true → ub + 1 = 8 * (i + Z.of_nat (length args') + 1)) as Hub.
    { clear. induction args' as [|a args' IH]; intros i E; cbn [app ascending_bytes length] in *.
      - rewrite !andb_true_iff, !Z.eqb_eq in E. lia.
      - destruct a; try discriminate. apply andb_true_iff in E as [_ E]. rewrite (IH _ E). lia. }
    rewrite (Hub 0 Ea). lia. }
  assert (total args = 8 * Z.of_nat (length args)) as -> by (apply total_bytes, (Hargs (λ _, 0))).
  destruct (Hargs (λ _, 0)) as (_ & Hle & _). assert (1 ≤ Z.of_nat (length args)) by (unfold args; cbn [length]; lia).
  rewrite (typed_size _ _ _ Hx) in E. cbn [width] in E. destruct (Z.eqb_spec wx (ub + 1)) as [Ew|_]; injection E as <-.
  - rewrite Ew, Eub in Hx. split; [done|]. intros ρ. destruct (Hargs ρ) as (_ & _ & ->). symmetry. apply Z.mod_small. exact (eval_fits _ ρ _ _ Hx).
  - destruct (low_bits_ok x wx (8 * Z.of_nat (length args)) Hx ltac:(lia)) as [T V].
    replace (8 * Z.of_nat (length args) - 1) with ub in * by lia. split; [done|]. intros ρ. destruct (Hargs ρ) as (_ & _ & ->). apply V.
Qed.

(** What the simplifier of [Reverse] makes of reversals, bytes, concatenations
    and extractions has the value of the bytes in the opposite order. *)
Lemma reverse_rule body w r : ty body (SBV w) → w mod 8 = 0 → bv_reverse_simplifier build body = Some r →
  refines strict (Un Reverse body) (SBV w) r.
Proof.
  intros Hb Hw E. pose proof (typed_pos _ _ _ Hb) as Hp. cbn [width] in Hp.
  assert (∀ x, body = Un Reverse x → refines strict (Un Reverse body) (SBV w) x) as Htwice.
  { intros x ->. destruct (typed_Reverse_inv _ _ _ Hb) as (w' & [= <-] & _ & Hx). split; [done|]. intros ρ. rewrite !eval_Reverse.
    cbn [size]. sizes. symmetry. apply byte_swap_involutive. rewrite bytes_exact by (done || lia). exact (eval_fits _ ρ _ _ Hx). }
  unfold bv_reverse_simplifier in E. destruct (is_Reverse body) eqn:Er.
  { destruct body as [| | | |[]| | | | | | |]; try discriminate. injection E as <-. by apply Htwice. }
  assert ((if size body =? 8 then Some body else
           match body with
           | Nary Concat args =>
               orelse (match args, last args with
                 | Extract _ _ x :: _, Some (Extract upper_bound _ _) =>
                     if ascending_bytes 0 x args then
                       if size x =? upper_bound + 1 then Some x else Some (extract build upper_bound 0 x)
                     else None
                 | _, _ => None end)
                 (if forallb (λ a, size a =? 8) args then Some (concat_ build (rev args))
                  else if forallb is_Reverse args && forallb (λ a, size a mod 8 =? 0) args
                  then Some (concat_ build (rev ((λ a, match a with Un Reverse x => x | _ => a end) <$> args)))
                  else None)
           | Extract hi lo (Un Reverse x) =>
               if ((hi + 1) mod 8 =? 0) && (lo mod 8 =? 0) then Some (extract build (size x - lo - 1) (size x - hi - 1) x) else None
           | _ => None
           end) = Some r) as E'.
  { rewrite <-E. by destruct body as [| | | |[]| | | | | | |]. }
  clear E Er Htwice. case_if E' as E8.
  { injection E' as <-. apply Z.eqb_eq in E8. split; [done|]. intros ρ. rewrite eval_Reverse, E8. symmetry. apply byte_swap_byte.
    pose proof (eval_fits _ ρ _ _ Hb) as F. by rewrite <-(typed_size _ _ _ Hb), E8 in F. }
  destruct body as [| | | | | |[] args|hi lo y| | | |]; try discriminate.
  - apply orelse_inv in E' as [E' | E']; [by eapply bytes_of_concat|].
    destruct (typed_parts_inv _ _ Hb) as ([= ->] & Hne & Hv). case_if E' as Ea; [|case_if E' as Ea2; [|discriminate]]; injection E' as <-.
    + destruct (bytes_reversed (λ _, 0) args Hv Ea) as (_ & Et & Vr).
      destruct (concat_ok (rev args)) as [T V]; [by intros Hr%(f_equal (@rev ast)); rewrite rev_involutive in Hr|done|].
      rewrite Et in T. split; [done|]. intros ρ. rewrite V. by apply bytes_reversed.
    + apply andb_true_iff in Ea2 as [Er Em]. set (f := λ a : ast, match a with Un Reverse x => x | _ => a end) in *.
      pose proof (aligned_forallb _ args (λ x H, proj1 (Z.eqb_eq _ _) H) Em) as Ha.
      assert (∀ ρ, Forall (λ x, size (f x) = size x ∧ vec (f x) ∧ eval ρ (f x) = byte_swap (bytes (size x)) (eval ρ x)) args) as Hf.
      { intros ρ. apply Forall_forall. intros x Hx. rewrite list_elem_of_In in Hx. pose proof (proj1 (forallb_forall _ _) Er _ Hx) as Hrx.
        destruct x as [| | | |[] x| | | | | | |]; try discriminate. rewrite <-list_elem_of_In in Hx. rewrite Forall_forall in Hv.
        destruct (Hv _ Hx) as [wx Hwx]. destruct (typed_Reverse_inv _ _ _ Hwx) as (w' & [= ->] & Hw' & Hx').
        split; [done|]. split; [by eexists|]. pose proof (typed_pos _ _ _ Hx'). cbn [f size width] in *. rewrite eval_Reverse. sizes.
        symmetry. apply byte_swap_involutive. rewrite bytes_exact by (done || lia). exact (eval_fits _ ρ _ _ Hx'). }
      destruct (byte_swap_number (λ _, 0) f args Hv Ha (Hf _)) as (_ & Et & Vr).
      destruct (concat_ok (rev (f <$> args))) as [T V]; [|done|].
      { intros Hr%(f_equal (@rev ast)). rewrite rev_involutive in Hr. by destruct args. }
      rewrite Et in T. split; [done|]. intros ρ. rewrite V. by apply byte_swap_number.
  - destruct y as [| | | |[] x| | | | | | |]; try discriminate. case_if E' as E9; [|discriminate]. injection E' as <-.
    apply andb_true_iff in E9 as [Eh%Z.eqb_eq El%Z.eqb_eq]. destruct (typed_Extract_inv _ _ _ _ _ Hb) as (wy & [= ->] & Hlo & Hhi & Hy).
    destruct (typed_Reverse_inv _ _ _ Hy) as (w' & [= <-] & Hw' & Hx). sizes.
    destruct (extract_ok (wy - lo - 1) (wy - hi - 1) x wy Hx) as [T V]; [lia|lia|].
    replace (wy - lo - 1 + 1 - (wy - hi - 1)) with (hi + 1 - lo) in * by lia. split; [done|]. intros ρ. rewrite V, !eval_Reverse.
    cbn [size eval]. sizes. pose proof (bytes_exact wy ltac:(lia) Hw') as Hn. unfold bytes in Hn. rewrite <-Hn at 1. symmetry.
    apply reverse_of_extract; rewrite ?Hn; try (done || lia). exact (eval_fits _ ρ _ _ Hx).
Qed.
End Reverse.
End SimplifyReverse.
