(* ===== verification/SimplifyFacts.v ===== *)
(** * Simplification preserves meaning

    Tying the knot: with [build n] for the operation the simplifiers build
    nodes with, every operation that is well formed without the operations whose
    simplifiers are not sound ([typed true]) gets an expression of the same sort
    and the same value.  Then the operations left out: the rules on their own
    that are sound, and inputs on which the others change the value. *)

From Stdlib Require Import ZArith Lia Bool String.
From stdpp Require Import base tactics list numbers strings.
From S2P Require Import Prelude Bvv Claripy Pcode Simplify SimplifySem SimplifyBytes SimplifyFlat SimplifyRules SimplifyCompare SimplifyParts SimplifyReverse.
#[local] Open Scope Z_scope.
#[local] Open Scope list_scope.

Module SimplifyFacts.
Import Bvv.BVV(to_signed) Simplify.Simplify SimplifySem.SimplifySem SimplifyFlat.SimplifyFlat SimplifyRules.SimplifyRules
  SimplifyBytes.SimplifyBytes SimplifyCompare.SimplifyCompare SimplifyParts.SimplifyParts SimplifyReverse.SimplifyReverse.

(** ** Constants are folded *)

(** No symbols, and no operation that the model leaves alone. *)
Fixpoint evaluable (t : ast) : bool :=
  match t with
  | BVS _ _ | BoolS _ | Other _ _ _ => false
  | BVV _ _ | BoolV _ => true
  | Un _ x | Extract _ _ x | ZeroExt _ x | SignExt _ x => evaluable x
  | Bin _ x y => evaluable x && evaluable y
  | Nary _ xs => forallb evaluable xs
  | If c t e => evaluable c && evaluable t && evaluable e
  end.

Lemma mapM_is_Some {A B} (f : A → option B) l : Forall (λ x, is_Some (f x)) l → is_Some (mapM f l).
Proof. induction 1 as [|x l [y Hy] _ [ys IH]]; cbn; [by eexists|]. rewrite Hy. cbn. rewrite IH. by eexists. Qed.

Lemma args_concrete s xs : Forall (λ x, ∀ s, typed false x s → evaluable x = true → is_Some (concrete x)) xs →
  Forall (λ x, typed false x s) xs → forallb evaluable xs = true → is_Some (mapM concrete xs).
Proof.
  intros IH Ht He. apply mapM_is_Some. rewrite !Forall_forall in *. intros x Hx. apply (IH x Hx s); [by apply Ht|].
  apply (proj1 (forallb_forall _ _) He). by rewrite <-list_elem_of_In.
Qed.

Lemma concrete_un_total o x s s' v : typed false (Un o x) s → typed false x s' → fits (width s') v → is_Some (concrete_un o (inj s' v)).
Proof.
  intros Ht Hx Hv. pose proof (typed_pos _ _ _ Hx) as Hp. inversion Ht; subst;
    match goal with H : typed false x ?s |- _ => pose proof (typed_unique _ _ _ _ Hx H); subst end; cbn [width inj concrete_un] in *.
  - by eexists.
  - unfold Bvv.BVV.__neg__, Bvv.BVV.mod_. cbn. rewrite Bvv.BVV.new_spec by lia. by eexists.
  - pose proof (ok_Bv _ _ _ (Claripy.Claripy.invert_val w _ (word_fits _ _ Hp Hv))) as E.
    unfold Claripy.Claripy.invert, Claripy.Claripy.op1 in E. cbn in E.
    destruct (Bvv.BVV.__invert__ _) as [r|]; [by eexists|done].
  - rewrite byte_swap_Reverse by done. by eexists.
Qed.

Lemma concrete_total t : ∀ s, typed false t s → evaluable t = true → is_Some (concrete t).
Proof.
  pose (ρ := λ _ : ast, 0).
  induction t as [n w|v w|n|b|o x IHx|o x y IHx IHy|o xs IH|hi lo x IHx|n x IHx|n x IHx|c t e IHc IHt IHe|n w xs] using ast_ind';
    intros s H He; cbn [evaluable] in He; try discriminate He; cbn [concrete]; rewrite ?andb_true_iff in He.
  - destruct (typed_BVV_inv _ _ _ _ H) as (_ & Hw & _). rewrite Bvv.BVV.new_spec by lia. by eexists.
  - by eexists.
  - assert (∃ s', typed false x s') as [s' Hx] by (inversion H; subst; eauto).
    destruct (IHx _ Hx He) as [c E]. rewrite E, (concrete_exact _ ρ _ _ _ Hx E). cbn [mbind option_bind].
    eapply concrete_un_total; [done|done|]. exact (eval_fits _ ρ _ _ Hx).
  - destruct He as [Hex Hey]. inversion H as [| | | | | | | |? ? ? w Ho Hx Hy|? ? ? w Ho Hx Hy|? ? ? Ho Hx Hy| | | | | | | | |]; subst;
      destruct (IHx _ Hx Hex) as [cx Ex], (IHy _ Hy Hey) as [cy Ey];
      rewrite Ex, Ey, (concrete_exact _ ρ _ _ _ Hx Ex), (concrete_exact _ ρ _ _ _ Hy Ey); cbn [mbind option_bind];
      pose proof (eval_fits _ ρ _ _ Hx) as Fx; pose proof (eval_fits _ ρ _ _ Hy) as Fy; pose proof (typed_pos _ _ _ Hx); cbn [width] in *.
    + rewrite concrete_vector by done. by eexists.
    + rewrite concrete_comparison by done. by eexists.
    + destruct Ho as [-> | ->]; by eexists.
  - destruct (decide (o = Concat)) as [-> | Hc].
    + destruct (typed_Concat_inv _ _ _ H) as (ws & -> & Hne & Hxs).
      assert (is_Some (mapM concrete xs)) as [l El].
      { destruct (typed_parts_inv _ _ H) as (_ & _ & Hv). apply mapM_is_Some. rewrite Forall_forall in *. intros x Hx. destruct (Hv x Hx) as [w Tx].
        apply (IH x Hx _ Tx). apply (proj1 (forallb_forall _ _) He). by rewrite <-list_elem_of_In. }
      rewrite El. cbn [mbind option_bind]. rewrite (mapM_concrete false ρ xs (SBV <$> ws) l);
        [rewrite (concrete_Concat false) by done; by eexists|by apply Forall2_fmap_r| |done].
      apply Forall_forall. intros x _ s' c'. apply concrete_exact.
    + destruct (typed_flat_inv _ _ _ _ Hc H) as (Ho & Hne & Hxs). destruct (args_concrete _ _ IH Hxs He) as [l El].
      rewrite El. cbn [mbind option_bind]. rewrite (mapM_concrete_same false ρ s xs l Hxs); [| |done].
      2: { apply Forall_forall. intros x _ s' c'. apply concrete_exact. }
      pose proof (evals_fit _ ρ _ _ Hxs) as Hf. pose proof (typed_pos _ _ _ H) as Hp. destruct s as [|w]; cbn in Ho, Hp.
      * rewrite (concrete_connective_exact o _ (map (λ x, (eval ρ x, size x)) xs)); [by eexists|done|by destruct xs|done|apply pairs_fst].
      * rewrite (concrete_nary_exact o w _ (map (λ x, (eval ρ x, size x)) xs)); [by eexists|done|done|by destruct xs|done|apply pairs_fst].
  - destruct (typed_Extract_inv _ _ _ _ _ H) as (w & -> & Hlo & Hhi & Hx). destruct (IHx _ Hx He) as [c E].
    rewrite E, (concrete_exact _ ρ _ _ _ Hx E). cbn. rewrite Bvv.BVV.Extract_spec by lia. by eexists.
  - destruct (typed_ZeroExt_inv _ _ _ _ H) as (w & -> & Hn & Hx). destruct (IHx _ Hx He) as [c E].
    rewrite E, (concrete_exact _ ρ _ _ _ Hx E). cbn [mbind option_bind inj]. pose proof (eval_fits _ ρ _ _ Hx) as F. pose proof (typed_pos _ _ _ Hx) as Hp.
    pose proof (ok_Bv _ _ _ (Claripy.Claripy.zero_extend_val n w _ (word_fits _ _ Hp F) ltac:(lia))) as Ez.
    unfold Claripy.Claripy.zero_extend, Claripy.Claripy.op1 in Ez. cbn in Ez. destruct (Bvv.BVV.ZeroExt _ _) as [r|]; [by eexists|done].
  - destruct (typed_SignExt_inv _ _ _ _ H) as (w & -> & Hn & Hx). destruct (IHx _ Hx He) as [c E].
    rewrite E, (concrete_exact _ ρ _ _ _ Hx E). cbn [mbind option_bind inj]. pose proof (eval_fits _ ρ _ _ Hx) as F. pose proof (typed_pos _ _ _ Hx) as Hp.
    pose proof (ok_Bv _ _ _ (Claripy.Claripy.sign_extend_val n w _ (word_fits _ _ Hp F) ltac:(lia))) as Ez.
    unfold Claripy.Claripy.sign_extend, Claripy.Claripy.op1 in Ez. cbn in Ez. destruct (Bvv.BVV.SignExt _ _) as [r|]; [by eexists|done].
  - destruct He as [[Hec Het] Hee]. destruct (typed_If_inv _ _ _ _ _ H) as (Hc & Ht & He).
    destruct (IHc _ Hc Hec) as [cc Ec], (IHt _ Ht Het) as [ct Et], (IHe _ He Hee) as [ce Ee].
    rewrite Ec, Et, Ee, (concrete_exact _ ρ _ _ _ Hc Ec). cbn. by eexists.
Qed.

Lemma evaluable_symbolic t : evaluable t = true → symbolic t = false.
Proof.
  induction t as [| | | |o x IHx|o x y IHx IHy|o xs IH|hi lo x IHx|n x IHx|n x IHx|c t e IHc IHt IHe|] using ast_ind'; cbn; try done.
  - intros [? ?]%andb_true_iff. by rewrite IHx, IHy.
  - intros H. induction IH as [|x xs Hx _ IH']; [done|]. cbn in *. apply andb_true_iff in H as [H1 H2]. by rewrite Hx, IH'.
  - intros [[? ?]%andb_true_iff ?]%andb_true_iff. by rewrite IHc, IHt, IHe.
Qed.

(** C3: Building a well-formed operation whose leaves are literals and whose
    operations are all among those the model names (no division, remainder,
    rotation or other operation of [Other]) gives the literal of its value: the
    concrete backend fails on none of these, reversals, shifts, complements and
    exclusive ors included. *)
Theorem constants_folded t s ρ : typed false t s → evaluable t = true → new t = _abstract (inj s (eval ρ t)).
Proof.
  intros Ht He. destruct (concrete_total t s Ht He) as [c E]. unfold new. rewrite evaluable_symbolic, E by done.
  by rewrite (concrete_exact _ ρ _ _ _ Ht E).
Qed.

Lemma constants_folded_witness :
  let t := Nary Add [Un Reverse (BVV 0x1234 16); Bin Lshift (BVV 1 16) (BVV 3 16)] in
  new t = BVV 0x341A 16.
Proof.
  cbv zeta. rewrite (constants_folded _ (SBV 16) (λ _, 0)); [reflexivity| |reflexivity].
  apply typed_flat; [reflexivity|discriminate|]. repeat constructor; discriminate || reflexivity.
Defined.

(** ** Every simplifier *)

Section Table.
Context {build : ast → ast} `{!SoundBuild true build}.

Lemma simplify_comparison o x y s r : comparison o = true → typed true (Bin o x y) s → simplify build (Bin o x y) = Some r →
  refines true (Bin o x y) s r.
Proof.
  intros Ho Ht E. destruct (typed_comparison_inv _ _ _ _ _ Ho Ht) as (-> & s' & Hx & Hy & _).
  destruct o; try discriminate.
  - by eapply eq_rule.
  - by eapply ne_rule.
  - destruct (typed_ordering_inv _ UGE _ _ _ Ho ltac:(done) ltac:(done) Ht) as (_ & w & Hx' & Hy'). by eapply ge_rule.
Qed.

Lemma simplify_vector o x y s r : comparison o = false → typed true (Bin o x y) s → simplify build (Bin o x y) = Some r →
  refines true (Bin o x y) s r.
Proof.
  intros Ho Ht E. destruct (typed_vector_inv _ _ _ _ _ Ho Ht) as (w & -> & Hv & Hx & Hy). destruct o; try discriminate.
  - by eapply bitwise_sub_rule.
  - eapply rshift_rule; eauto.
  - eapply rshift_rule; eauto.
Qed.

Lemma simplify_flat o xs s r : typed true (Nary o xs) s → simplify build (Nary o xs) = Some r → refines true (Nary o xs) s r.
Proof.
  intros Ht E. destruct (decide (o = Concat)) as [-> | Hc]; [by eapply concat_rule|].
  destruct (typed_flat_inv _ _ _ _ Hc Ht) as (Ho & _ & _). destruct s as [|w]; cbn in Ho.
  - destruct Ho as [-> | ->]; [by apply boolean_and_rule|by apply boolean_or_rule].
  - destruct o; try discriminate.
    + by apply bitwise_add_rule.
    + by apply bitwise_mul_rule.
    + by apply bitwise_and_rule.
    + by apply bitwise_or_rule.
Qed.

Lemma simplify_rule t s r : typed true t s → simplify build t = Some r → refines true t s r.
Proof.
  intros Ht E. destruct t as [| | | |o x|o x y|o xs|high low x|n x|n x| |]; try discriminate E.
  - destruct o; try discriminate E; try (inversion Ht; subst; discriminate).
    + destruct (typed_Not_inv _ _ _ Ht) as [-> Hx]. by apply boolean_not_rule.
    + destruct (typed_Reverse_inv _ _ _ Ht) as (w & -> & Hw & Hx). by apply reverse_rule.
  - destruct (comparison o) eqn:Ho; [by apply simplify_comparison|by apply simplify_vector].
  - by apply simplify_flat.
  - destruct (typed_Extract_inv _ _ _ _ _ Ht) as (w & -> & Hlo & Hhi & Hx). by eapply extract_rule.
  - destruct (typed_ZeroExt_inv _ _ _ _ Ht) as (w & -> & Hn & Hx). cbn in E. unfold zeroext_simplifier in E. by destruct (Z.eqb_spec n 0); [lia|].
  - destruct (typed_SignExt_inv _ _ _ _ Ht) as (w & -> & Hn & Hx). cbn in E. unfold signext_simplifier in E. by destruct (Z.eqb_spec n 0); [lia|].
Qed.

Lemma op_rule t s : typed true t s → refines true t s (_op build t).
Proof.
  intros Ht. assert (refines true t s (match simplify build t with Some r => r | None => new t end)) as H.
  { destruct (simplify build t) as [r|] eqn:E; [by apply simplify_rule|by apply new_refines]. }
  destruct t as [| | | | | | | | | |c x y|]; try exact H. destruct (typed_If_inv _ _ _ _ _ Ht) as (Hc & Hx & Hy). by apply If_rule.
Qed.
End Table.

#[export] Instance new_sound strict : SoundBuild strict new.
Proof. intros t s. apply new_refines. Qed.

#[export] Instance build_n_sound n : SoundBuild true (build n).
Proof. induction n as [|n IH]; [apply new_sound|]. intros t s. by apply op_rule. Qed.

(** C2: For every well-formed expression without left shifts, exclusive ors,
    complements and reversals of concatenations, building its operation,
    whatever the simplifiers make of it and of the operations they build in
    turn, gives an expression of the same sort and, for all values of the
    symbols, the same value. *)
Theorem simplification_sound n t s ρ : typed true t s → typed true (build n t) s ∧ eval ρ (build n t) = eval ρ t.
Proof. intros Ht. destruct (build_n_sound n t s Ht) as [T E]. by split. Qed.

Lemma simplification_sound_witness :
  let x := BVS "x" 8 in
  let t := Nary And [Bin Eq (Bin Sub x (BVV 3 8)) (BVV 4 8); Bin Ne x (BVV 9 8)] in
  build 5 (Nary And [build 5 (Bin Eq (Bin Sub x (BVV 3 8)) (BVV 4 8)); Bin Ne x (BVV 9 8)]) = Bin Eq x (BVV 7 8) ∧
  typed true (build 5 t) SBool ∧ eval (λ _, 7) (build 5 t) = 1.
Proof.
  cbv zeta. split; [reflexivity|]. refine (simplification_sound 5 (Nary And [Bin Eq (Bin Sub (BVS "x" 8) (BVV 3 8)) (BVV 4 8); Bin Ne (BVS "x" 8) (BVV 9 8)]) SBool (λ _, 7) _).
  apply (typed_flat true And SBool); [left; reflexivity|discriminate|].
  apply Forall_cons_2; [|apply Forall_cons_2; [|apply Forall_nil_2]]; apply (typed_comparison true _ _ _ 8); try reflexivity;
    try (apply typed_vector; [reflexivity|..]); (apply typed_BVV; lia) || (apply typed_BVS; lia).
Defined.
End SimplifyFacts.
