(* ===== verification/SimplifyIdioms.v ===== *)
(** * Byte reversal, the min/max idiom, and where simplification goes wrong

    The rules on [Reverse] move a reversal through concatenations and
    extractions; they are sound with any sound [build].  The bit-trick that
    [bitwise_xor_simplifier_minmax] recognises computes the signed maximum or
    minimum.  Last come inputs on which a simplifier changes the value. *)

From Stdlib Require Import ZArith Lia Bool String.
From stdpp Require Import base tactics list numbers strings.
From S2P Require Import Prelude Bvv Claripy Pcode Simplify SimplifySem SimplifyBytes SimplifyFlat SimplifyRules SimplifyCompare SimplifyParts SimplifyReverse SimplifyFacts.
#[local] Open Scope Z_scope.
#[local] Open Scope list_scope.

Module SimplifyIdioms.
Import Bvv.BVV(to_signed) Simplify.Simplify SimplifySem.SimplifySem SimplifyBytes.SimplifyBytes SimplifyFlat.SimplifyFlat SimplifyRules.SimplifyRules
  SimplifyCompare.SimplifyCompare SimplifyParts.SimplifyParts SimplifyReverse.SimplifyReverse SimplifyFacts.SimplifyFacts.

(** ** Reversal of bytes *)

(** The bytes of [x], lowest first. *)
Definition byte_slices (k : nat) (x : ast) : list ast := (λ i, Extract ((Z.of_nat i + 1) * 8 - 1) (Z.of_nat i * 8) x) <$> seq 0 k.

Lemma byte_slices_ascending x k : ∀ i, ascending_bytes (Z.of_nat i) x ((λ i, Extract ((Z.of_nat i + 1) * 8 - 1) (Z.of_nat i * 8) x) <$> seq i k) = true.
Proof.
  induction k as [|k IH]; intros i; [done|]. cbn [seq fmap list_fmap ascending_bytes]. unfold same. rewrite bool_decide_true, !Z.eqb_refl by done.
  cbn [andb]. specialize (IH (S i)). by replace (Z.of_nat (S i)) with (Z.of_nat i + 1) in IH by lia.
Qed.

Lemma byte_slices_reversed build k x : (2 ≤ k)%nat → size x = 8 * Z.of_nat k →
  bv_reverse_simplifier build (Nary Concat (byte_slices k x)) = Some x.
Proof.
  intros Hk Hx. unfold bv_reverse_simplifier. assert (total (byte_slices k x) = 8 * Z.of_nat k) as Et.
  { unfold byte_slices. rewrite (total_bytes _); [by rewrite length_fmap, length_seq|]. apply Forall_fmap, Forall_forall. intros i _. cbn. lia. }
  assert ((size (Nary Concat (byte_slices k x)) =? 8) = false) as -> by (apply Z.eqb_neq; change (total (byte_slices k x) ≠ 8); lia).
  assert (last (byte_slices k x) = Some (Extract (8 * Z.of_nat k - 1) (8 * Z.of_nat (k - 1)) x)) as El.
  { unfold byte_slices. destruct k as [|k]; [lia|]. rewrite seq_S, fmap_app. cbn [fmap list_fmap]. rewrite last_snoc. do 2 f_equal; lia. }
  pose proof (byte_slices_ascending x k 0) as Ea. fold (byte_slices k x) in Ea. change (Z.of_nat 0) with 0 in Ea.
  assert (∃ l, byte_slices k x = Extract ((0 + 1) * 8 - 1) (0 * 8) x :: l) as [l E] by (destruct k as [|k]; [lia|by eexists]).
  rewrite E in *. rewrite El, Ea. by replace (size x =? 8 * Z.of_nat k - 1 + 1) with true by (symmetry; apply Z.eqb_eq; lia).
Qed.

(** C4: The answer of the simplifier of [Reverse], with the code's own construction
    of nodes, has the sort of the reversal and the value of the bytes in the
    opposite order, for every operand of whole bytes without left shifts,
    exclusive ors, complements and inner reversals of concatenations; on the
    bytes of an expression of two bytes or more, lowest first, it is that
    expression. *)
Theorem reversal_sound n body w : typed true body (SBV w) → w mod 8 = 0 →
  (∀ r, bv_reverse_simplifier (build n) body = Some r → refines true (Un Reverse body) (SBV w) r) ∧
  (∀ k x, (2 ≤ k)%nat → size x = 8 * Z.of_nat k → body = Nary Concat (byte_slices k x) →
     bv_reverse_simplifier (build n) body = Some x).
Proof.
  intros Hb Hw. split; [intros r; by apply reverse_rule|]. intros k x Hk Hx ->. by apply byte_slices_reversed.
Qed.

Lemma reversal_sound_witness :
  let x := BVS "x" 16 in
  let body := Nary Concat [Un Reverse x; Un Reverse (BVS "y" 16)] in
  refines true (Un Reverse body) (SBV 32) (Nary Concat [BVS "y" 16; x]) ∧
  bv_reverse_simplifier (build 3) (Nary Concat [Extract 7 0 x; Extract 15 8 x]) = Some x.
Proof.
  cbv zeta. assert (∀ n, typed true (BVS n 16) (SBV 16)) as Hs by (intros n; apply typed_BVS; lia). split.
  - apply (reversal_sound 3 (Nary Concat [Un Reverse (BVS "x" 16); Un Reverse (BVS "y" 16)]) 32); [|reflexivity|reflexivity].
    apply (typed_Concat true _ [16; 16]); [discriminate|]. repeat apply Forall2_cons_2; try apply Forall2_nil_2; (apply typed_Reverse; [reflexivity|reflexivity|apply Hs]).
  - apply (reversal_sound 3 (Nary Concat [Extract 7 0 (BVS "x" 16); Extract 15 8 (BVS "x" 16)]) 16) with (k := 2%nat);
      [|reflexivity|lia|reflexivity|reflexivity]. apply (typed_Concat true _ [8; 8]); [discriminate|].
    constructor; [|constructor; [|constructor]]; [apply (typed_Extract true 7 0 _ 16)|apply (typed_Extract true 15 8 _ 16)]; (lia || apply Hs).
Defined.

(** ** The signed minimum and maximum *)

Lemma sign_bit_value w v : 1 ≤ w → fits w v → Z.testbit v (w - 1) = (2 ^ (w - 1) <=? v).
Proof.
  intros Hw Hv. unfold fits in Hv. pose proof (pow2_double w Hw). pose proof (pow2_pos (w - 1) ltac:(lia)).
  rewrite Z.testbit_eqb by lia. destruct (Z.leb_spec (2 ^ (w - 1)) v).
  - replace (v / 2 ^ (w - 1)) with 1; [done|]. apply Z.div_unique with (v - 2 ^ (w - 1)); lia.
  - by rewrite Z.div_small by lia.
Qed.

(** The sign of a difference, corrected for overflow, is the signed order. *)
Lemma difference_sign w a b : 1 ≤ w → fits w a → fits w b →
  let s := (a - b) mod 2 ^ w in
  Z.testbit (Z.lxor (Z.land (Z.lxor s a) (Z.lxor a b)) s) (w - 1) = (to_signed w a <? to_signed w b).
Proof.
  intros Hw Ha Hb s. assert (fits w s) as Hs by (apply fits_mod; lia). rewrite Z.lxor_spec, Z.land_spec, !Z.lxor_spec, !sign_bit_value by done.
  pose proof (pow2_double w Hw) as H2. pose proof (pow2_pos (w - 1) ltac:(lia)). unfold fits, to_signed in *.
  assert (s = a - b ∧ b ≤ a ∨ s = a - b + 2 ^ w ∧ a < b) as Hd.
  { subst s. destruct (Z.le_gt_cases b a); [left|right]; (split; [|done]).
    - apply Z.mod_small. lia.
    - symmetry. apply Z.mod_unique with (-1); lia. }
  clearbody s. destruct (Z.leb_spec (2 ^ (w - 1)) a), (Z.leb_spec (2 ^ (w - 1)) b), (Z.leb_spec (2 ^ (w - 1)) s), (Z.ltb_spec a (2 ^ (w - 1))),
    (Z.ltb_spec b (2 ^ (w - 1))); try lia; cbn; symmetry; (apply Z.ltb_lt || apply Z.ltb_ge); lia.
Qed.

(** Spreading the sign over the word. *)
Lemma spread_sign w v : 1 ≤ w → fits w v →
  (to_signed w v / 2 ^ (w - 1)) mod 2 ^ w = if Z.testbit v (w - 1) then 2 ^ w - 1 else 0.
Proof.
  intros Hw Hv. rewrite sign_bit_value by done. unfold fits, to_signed in *. pose proof (pow2_double w Hw). pose proof (pow2_pos (w - 1) ltac:(lia)).
  destruct (Z.ltb_spec v (2 ^ (w - 1))), (Z.leb_spec (2 ^ (w - 1)) v); try lia.
  - rewrite Z.div_small by lia. apply Zmod_0_l.
  - replace ((v - 2 ^ w) / 2 ^ (w - 1)) with (-1).
    + symmetry. apply Z.mod_unique with (-1); lia.
    + apply Z.div_unique with (v - 2 ^ (w - 1)); lia.
Qed.

Lemma minmax_value w q a b : 1 ≤ w → fits w q → fits w a → fits w b →
  let s := (a - b) mod 2 ^ w in
  let x := (to_signed w (Z.lxor (Z.land (Z.lxor s a) (Z.lxor a b)) s) / 2 ^ (w - 1)) mod 2 ^ w in
  Z.lxor q (Z.land x (Z.lxor a b)) = if to_signed w a <? to_signed w b then Z.lxor q (Z.lxor a b) else q.
Proof.
  intros Hw Hq Ha Hb s x. subst x. assert (fits w s) as Hs by (apply fits_mod; lia).
  assert (0 ≤ w) as Hw0 by lia. pose proof (fits_lxor w a b Hw0 Ha Hb) as Ht. pose proof (fits_lxor w s a Hw0 Hs Ha) as Hu.
  pose proof (fits_lxor w _ s Hw0 (fits_land w _ _ Hw0 Hu Ht) Hs) as Hd. rewrite spread_sign by done.
  pose proof (difference_sign w a b Hw Ha Hb) as E. cbv zeta in E. fold s in E. rewrite E.
  destruct (_ <? _); [|by rewrite Z.land_0_l, Z.lxor_0_r]. by rewrite Z.land_comm, land_ones_fits.
Qed.

(** Exclusive ors have two arguments: the recognition of the idiom only looks
    at the first two of [u]. *)
Fixpoint binary_xors (t : ast) : bool :=
  match t with
  | Un _ x | Extract _ _ x | ZeroExt _ x | SignExt _ x => binary_xors x
  | Bin _ x y => binary_xors x && binary_xors y
  | Nary BXor xs => Nat.eqb (length xs) 2 && forallb binary_xors xs
  | Nary _ xs => forallb binary_xors xs
  | If c t e => binary_xors c && binary_xors t && binary_xors e
  | _ => true
  end.

(** A signed comparison is not simplified, and its negation is one again. *)
Lemma order_built n q r w : typed false q (SBV w) → typed false r (SBV w) →
  refines false (Bin SLE q r) SBool (compare_ (build n) SLE q r) ∧
  refines false (Un Not (compare_ (build n) SLE q r)) SBool (not_ (build n) (compare_ (build n) SLE q r)).
Proof.
  intros Hq Hr. assert (∀ o, o = SLE ∨ o = SGT → build n (Bin o q r) = new (Bin o q r)) as E by (intros o [-> | ->]; by destruct n).
  assert (∀ o, o = SLE ∨ o = SGT → refines false (Bin o q r) SBool (new (Bin o q r))) as R.
  { intros o Ho. apply new_refines. eapply typed_comparison; [by destruct Ho as [-> | ->]|done|done]. }
  pose proof (R SLE (or_introl eq_refl)) as Rs. unfold compare_. rewrite E by auto. split; [done|].
  assert (refines false (Un Not (new (Bin SLE q r))) SBool (new (Un Not (new (Bin SLE q r))))) as Rn by (apply new_refines, typed_Not, Rs).
  unfold not_. destruct n as [|n]; [exact Rn|]. cbn [build _op simplify].
  assert (new (Bin SLE q r) = Bin SLE q r ∨ ∃ b, new (Bin SLE q r) = BoolV b) as [Es | [b Eb]].
  { unfold new. destruct (symbolic _); [by left|]. destruct (concrete _) as [[v|b]|] eqn:Ec; [|right; by eexists|by left].
    pose proof (concrete_exact false (λ _, 0) _ SBool _ (typed_comparison false SLE q r w eq_refl Hq Hr) Ec). done. }
  - rewrite Es in *. cbn [boolean_not_simplifier]. unfold compare_.
    replace (build n (Bin SGT q r)) with (new (Bin SGT q r)) by (by destruct n).
    destruct (R SGT (or_intror eq_refl)) as [T V]. split; [done|]. intros ρ. rewrite V. cbn [eval bin_value]. sizes.
    rewrite Z.ltb_antisym. by destruct (_ <=? _).
  - rewrite Eb in *. exact Rn.
Qed.

Section Minmax.
Context (n : nat).
#[local] Abbreviation build := (build n).
#[local] Abbreviation ty := (typed false).

Lemma either_spec xs p (x y : ast) : either xs p = Some (x, y) → xs = [x; y] ∨ xs = [y; x].
Proof.
  destruct xs as [|a [|b []]]; try discriminate. cbn. destruct (p a); [intros [= -> ->]; by left|].
  destruct (p b); [intros [= -> ->]; by right|discriminate].
Qed.

Lemma typed_pair o x y xs w : o ≠ Concat → ty (Nary o xs) (SBV w) → xs = [x; y] ∨ xs = [y; x] →
  ty x (SBV w) ∧ ty y (SBV w) ∧ ∀ ρ, eval ρ (Nary o xs) = op2 o w (eval ρ x) (eval ρ y).
Proof.
  intros Ho Ht Hxs. destruct (typed_flat_inv _ _ _ _ Ho Ht) as (Hf & Hne & Hargs).
  destruct Hxs as [-> | ->]; apply Forall_cons in Hargs as [H1 [H2 _]%Forall_cons]; (split; [done|]; split; [done|]); intros ρ;
    rewrite (eval_pair ρ o _ _ (SBV w)) by done; [done|apply op2_comm].
Qed.

(** The numbers behind the idiom, [s] being [a - b]. *)
Lemma idiom_value ρ w (q y x t wd v s u a b : ast) :
  1 ≤ w → ty q (SBV w) → ty a (SBV w) → ty b (SBV w) →
  eval ρ y = Z.land (eval ρ x) (eval ρ t) → eval ρ x = bin_value Rshift w (eval ρ wd) (w - 1) →
  eval ρ wd = Z.lxor (eval ρ v) (eval ρ s) → eval ρ v = Z.land (eval ρ u) (eval ρ t) →
  eval ρ u = Z.lxor (eval ρ s) (eval ρ a) → eval ρ s = (eval ρ a - eval ρ b) mod 2 ^ w → eval ρ t = Z.lxor (eval ρ a) (eval ρ b) →
  Z.lxor (eval ρ q) (eval ρ y) =
  if to_signed w (eval ρ a) <? to_signed w (eval ρ b) then Z.lxor (eval ρ q) (eval ρ t) else eval ρ q.
Proof.
  intros Hw Hq Ha Hb -> -> -> -> -> -> ->. apply minmax_value; [done| | |]; by eapply (eval_fits false ρ _ (SBV w)).
Qed.

(** The recognised tree, its parts in one order or the other. *)
Lemma minmax_inv a b r : bitwise_xor_simplifier_minmax build a b = Some r →
  ∃ q y x t wd v s u r' (xs_t xs_u : list ast) s0 s1,
    ([a; b] = [q; y] ∨ [a; b] = [y; q]) ∧
    (y = Nary BAnd [x; t] ∨ y = Nary BAnd [t; x]) ∧ x = Bin Rshift wd (bvv (size a - 1) (size a)) ∧ t = Nary BXor xs_t ∧
    (wd = Nary BXor [v; s] ∨ wd = Nary BXor [s; v]) ∧ (v = Nary BAnd [u; t] ∨ v = Nary BAnd [t; u]) ∧
    s = Bin Sub s0 s1 ∧ u = Nary BXor xs_u ∧ (xs_t = [q; r'] ∨ xs_t = [r'; q]) ∧
    ((pair_of s q xs_u = true ∧ s0 = q ∧ s1 = r' ∧ r = If_ build (compare_ build SLE q r') r' q) ∨
     (pair_of s r' xs_u = true ∧ s0 = r' ∧ s1 = q ∧ r = If_ build (compare_ build SLE q r') q r')).
Proof.
  intros E. unfold bitwise_xor_simplifier_minmax in E. destruct (either [b; a] _) as [[y q]|] eqn:E1; [|discriminate]. cbn [mbind option_bind] in E.
  destruct y as [| | | | | |[] yargs| | | | |]; try discriminate.
  destruct yargs as [|x0 [|t0 []]]; try discriminate.
  destruct (if is_Nary BXor t0 then _ else _) as [[x t]|] eqn:E2; [|discriminate]. cbn [mbind option_bind] in E.
  destruct x as [| | | | |[] wd dist| | | | | |]; try discriminate. destruct wd as [| | | | | |[] wargs| | | | |]; try discriminate.
  destruct t as [| | | | | |[] targs| | | | |]; try discriminate. destruct (same dist _) eqn:E3; cbn [negb] in E; [|discriminate].
  destruct wargs as [|v0 [|s0' []]]; try discriminate.
  destruct (if is_Sub s0' then _ else _) as [[v s]|] eqn:E4; [|discriminate]. cbn [mbind option_bind] in E.
  destruct v as [| | | | | |[] vargs| | | | |]; try discriminate. destruct s as [| | | | |[] s0 s1| | | | | |]; try discriminate.
  destruct vargs as [|u0 [|t2 []]]; try discriminate.
  destruct (if same t2 _ then _ else _) as [[u t2']|] eqn:E5; [|discriminate]. cbn [mbind option_bind] in E.
  destruct u as [| | | | | |[] uargs| | | | |]; try discriminate.
  destruct (either targs _) as [[q' r']|] eqn:E6; [|discriminate]. cbn [mbind option_bind] in E.
  assert (q' = q) as ->.
  { destruct targs as [|c [|d []]]; try discriminate. cbn in E6. destruct (same q c) eqn:Hc; [injection E6 as <- _; by apply same_true in Hc|].
    destruct (same q d) eqn:Hd; [injection E6 as <- _; by apply same_true in Hd|discriminate]. }
  exists q, (Nary BAnd [x0; t0]), (Bin Rshift (Nary BXor [v0; s0']) dist), (Nary BXor targs), (Nary BXor [v0; s0']), (Nary BAnd [u0; t2]),
    (Bin Sub s0 s1), (Nary BXor uargs), r', targs, uargs, s0, s1.
  split; [apply either_spec in E1 as [E1 | E1]; injection E1 as -> ->; auto|].
  split; [destruct (is_Nary BXor t0); [|destruct (is_Nary BXor x0); [|discriminate]]; injection E2 as -> ->; auto|].
  split; [by apply same_true in E3 as ->|]. split; [done|].
  split; [destruct (is_Sub s0'); [|destruct (is_Sub v0); [|discriminate]]; injection E4 as -> ->; auto|].
  split.
  { destruct (same t2 _) eqn:Ht2; [apply same_true in Ht2 as ->; injection E5 as -> _; auto|].
    destruct (same u0 _) eqn:Hu0; [apply same_true in Hu0 as ->; injection E5 as -> _; auto|discriminate]. }
  split; [done|]. split; [done|]. split; [by eapply either_spec|].
  case_if E as E7; [|case_if E as E8; [|discriminate]]; case_if E as E9; try discriminate; injection E as <-;
    apply andb_true_iff in E9 as [->%same_true ->%same_true]; auto.
Qed.

Lemma pair_of_two x y xs : pair_of x y xs = true → length xs = 2%nat → xs = [x; y] ∨ xs = [y; x].
Proof.
  destruct xs as [|a [|b []]]; try discriminate. cbn. intros [H | H]%orb_true_iff _; apply andb_true_iff in H as [->%same_true ->%same_true]; auto.
Qed.

Lemma order_max w (q r : Z) : 1 ≤ w → fits w q → fits w r →
  (if Z.b2z (to_signed w q <=? to_signed w r) =? 1 then r else q) = (if to_signed w q <? to_signed w r then r else q).
Proof.
  intros Hw Hq Hr. destruct (Z.leb_spec (to_signed w q) (to_signed w r)), (Z.ltb_spec (to_signed w q) (to_signed w r)); try done; cbn; [|lia].
  rewrite <-(Bvv.BVV.to_signed_mod w q), <-(Bvv.BVV.to_signed_mod w r) by done. f_equal. lia.
Qed.

Lemma minmax_rule a b w r : ty (Nary BXor [a; b]) (SBV w) → binary_xors a && binary_xors b = true →
  bitwise_xor_simplifier_minmax build a b = Some r → refines false (Nary BXor [a; b]) (SBV w) r.
Proof.
  intros Ht Hbin (q & y & x & t & wd & v & s & u & r' & xs_t & xs_u & s0 & s1 & Hab & Hy & -> & -> & Hwd & Hv & -> & -> & Hxt & Hr)%minmax_inv.
  pose proof (typed_pos _ _ _ Ht) as Hw. cbn [width] in Hw.
  assert (size a = w) as Esz by exact (typed_size _ _ _ Ht). rewrite Esz in *. set (t := Nary BXor xs_t) in *. set (u := Nary BXor xs_u) in *. set (s := Bin Sub s0 s1) in *.
  destruct (typed_pair BXor q y [a; b] w ltac:(done) Ht Hab) as (Tq & Ty & Ez).
  assert (∀ x', y = Nary BAnd [x'; t] ∨ y = Nary BAnd [t; x'] → ty x' (SBV w) ∧ ty t (SBV w) ∧ ∀ ρ, eval ρ y = Z.land (eval ρ x') (eval ρ t)) as Hy'.
  { intros x' [-> | ->]; eapply (typed_pair BAnd); auto. }
  destruct (Hy' _ Hy) as (Tx & Tt & Ey). destruct (typed_vector_inv _ Rshift _ _ _ eq_refl Tx) as (? & [= <-] & _ & Twd & _).
  assert (ty v (SBV w) ∧ ty s (SBV w) ∧ ∀ ρ, eval ρ wd = Z.lxor (eval ρ v) (eval ρ s)) as (Tv & Ts & Ewd)
    by (destruct Hwd as [-> | ->]; eapply (typed_pair BXor); auto).
  assert (ty u (SBV w) ∧ ty t (SBV w) ∧ ∀ ρ, eval ρ v = Z.land (eval ρ u) (eval ρ t)) as (Tu & _ & Ev)
    by (destruct Hv as [-> | ->]; eapply (typed_pair BAnd); auto).
  destruct (typed_pair BXor q r' xs_t w ltac:(done) Tt Hxt) as (_ & Tr & Et).
  destruct (typed_vector_inv _ Sub _ _ _ eq_refl Ts) as (? & [= <-] & _ & T0 & T1).
  assert (length xs_u = 2%nat) as Hlen.
  { assert (binary_xors y = true) as By by (apply andb_true_iff in Hbin as [? ?]; destruct Hab as [[= -> ->] | [= -> ->]]; done).
    clear -By Hy Hwd Hv. destruct Hy as [-> | ->], Hwd as [-> | ->], Hv as [-> | ->]; subst s t u; cbn in By;
      rewrite ?andb_true_iff, ?Nat.eqb_eq in By; tauto. }
  assert (∀ ρ, eval ρ s = (eval ρ s0 - eval ρ s1) mod 2 ^ w) as Es by (intros ρ; cbn [s eval bin_value]; by sizes).
  assert (∀ ρ, eval ρ (Bin Rshift wd (bvv (w - 1) w)) = bin_value Rshift w (eval ρ wd) (w - 1)) as Ex.
  { intros ρ. cbn [eval bvv]. rewrite (typed_size _ _ _ Twd). cbn [width]. f_equal. apply Z.mod_small. pose proof (Z.pow_gt_lin_r 2 w). lia. }
  destruct (order_built n q r' w Tq Tr) as [[Tc Ec] Rn].
  cbn [eval] in Ec. setoid_rewrite (typed_size _ _ _ Tq) in Ec. cbn [width] in Ec.
  assert (∀ ρ, Z.lxor (eval ρ q) (eval ρ t) = eval ρ r') as Eqt by (intros ρ; by rewrite Et; cbn; rewrite <-Z.lxor_assoc, Z.lxor_nilpotent, Z.lxor_0_l).
  destruct Hr as [(Hp & -> & -> & ->) | (Hp & -> & -> & ->)]; apply (pair_of_two _ _ _) in Hp; try done;
    destruct (typed_pair BXor _ _ xs_u w ltac:(done) Tu Hp) as (_ & _ & Eu).
  - destruct (If_rule_of _ _ _ _ Tc Tr Tq Rn) as [T E]. split; [done|]. intros ρ. rewrite E, Ez. cbn [eval op2]. rewrite Ec. cbn [bin_value].
    rewrite (idiom_value ρ w q y _ t wd v s u q r') by (done || apply Et). rewrite Eqt.
    apply order_max; [done| |]; by eapply (eval_fits false ρ _ (SBV w)).
  - destruct (If_rule_of _ _ _ _ Tc Tq Tr Rn) as [T E]. split; [done|]. intros ρ. rewrite E, Ez. cbn [eval op2]. rewrite Ec. cbn [bin_value].
    rewrite (idiom_value ρ w q y _ t wd v s u r' q) by (done || (rewrite Et; apply Z.lxor_comm)). rewrite Eqt.
    rewrite Z.leb_antisym. by destruct (_ <? _).
Qed.
End Minmax.
End SimplifyIdioms.
