(* ===== verification/SimplifyXor.v ===== *)
(** * Exclusive or and left shifts, and where simplification goes wrong

    The cancellation of equal arguments in [bitwise_xor_simplifier], the rules
    on left shifts and equations of reversals; then inputs on which a
    simplifier changes the value. *)

From Stdlib Require Import ZArith Lia Bool String.
From stdpp Require Import base tactics list numbers strings.
From S2P Require Import Prelude Bvv Claripy Pcode Simplify SimplifySem SimplifyBytes SimplifyFlat SimplifyRules SimplifyCompare SimplifyParts SimplifyReverse SimplifyFacts SimplifyIdioms.
#[local] Open Scope Z_scope.
#[local] Open Scope list_scope.

Module SimplifyXor.
Import Bvv.BVV(to_signed) Simplify.Simplify SimplifySem.SimplifySem SimplifyBytes.SimplifyBytes SimplifyFlat.SimplifyFlat SimplifyRules.SimplifyRules
  SimplifyCompare.SimplifyCompare SimplifyParts.SimplifyParts SimplifyFacts.SimplifyFacts SimplifyIdioms.SimplifyIdioms.

(** ** Cancellation *)

Lemma deduplicate_complete l : ∀ seen x, x ∈ l → x ∈ seen ∨ x ∈ deduplicate seen l.
Proof.
  induction l as [|a l IH]; intros seen x Hx; [by apply not_elem_of_nil in Hx|]. cbn [deduplicate]. apply elem_of_cons in Hx as [-> | Hx].
  - case_bool_decide; [by left|right; left].
  - case_bool_decide; [by apply IH|]. destruct (IH (a :: seen) x Hx) as [[-> | ?]%elem_of_cons | ?];
      [right; left|by left|right; by right].
Qed.

Lemma deduplicate_NoDup l : ∀ seen, NoDup (deduplicate seen l) ∧ ∀ x, x ∈ deduplicate seen l → x ∉ seen.
Proof.
  induction l as [|a l IH]; intros seen; cbn [deduplicate]; [split; [constructor|by intros x ?%not_elem_of_nil]|].
  case_bool_decide as Ha; [apply IH|]. destruct (IH (a :: seen)) as [Hn Hs]. split.
  - constructor; [|done]. intros H. apply (Hs a H). left.
  - intros x [-> | Hx]%elem_of_cons; [done|]. intros H. apply (Hs x Hx). by right.
Qed.

Lemma deduplicate_filter (p : ast → bool) l : ∀ seen seen', (∀ x, p x = true → x ∈ seen ↔ x ∈ seen') →
  deduplicate seen (List.filter p l) = List.filter p (deduplicate seen' l).
Proof.
  induction l as [|a l IH]; intros seen seen' H; [done|]. cbn [List.filter deduplicate]. destruct (p a) eqn:Hp.
  - cbn [deduplicate]. destruct (decide (a ∈ seen)) as [Ha | Ha].
    + rewrite !bool_decide_true by (done || by apply H). by apply IH.
    + rewrite !bool_decide_false by (done || by rewrite <-H). cbn [List.filter]. rewrite Hp. f_equal. apply IH.
      intros x Hx. rewrite !elem_of_cons. by rewrite H.
  - case_bool_decide; [by apply IH|]. cbn [List.filter]. rewrite Hp. apply IH. intros x Hx. rewrite H, elem_of_cons by done.
    split; [by right|]. intros [-> | ?]; [congruence|done].
Qed.

Definition xors (l : list Z) : Z := foldr Z.lxor 0 l.

(** What an element that occurs [n] times contributes. *)
Definition odd_part (n : nat) (v : Z) : Z := if Nat.odd n then v else 0.

Lemma count_cons x a l : count x (a :: l) = if same x a then S (count x l) else count x l.
Proof. unfold count. cbn. by destruct (same x a). Qed.

Lemma xors_toggle (f : ast → Z) a l us : NoDup us → a ∈ us →
  xors ((λ u, odd_part (count u (a :: l)) (f u)) <$> us) = Z.lxor (f a) (xors ((λ u, odd_part (count u l) (f u)) <$> us)).
Proof.
  induction 1 as [|u us Hu _ IH]; [by intros ?%not_elem_of_nil|]. intros Ha. cbn [fmap list_fmap xors foldr]. rewrite count_cons.
  destruct (decide (u = a)) as [-> | Hne].
  - unfold same at 1. rewrite bool_decide_true by done.
    assert ((λ u, odd_part (count u (a :: l)) (f u)) <$> us = (λ u, odd_part (count u l) (f u)) <$> us) as ->.
    { apply list_fmap_ext. intros i u Hi. rewrite count_cons. unfold same. rewrite bool_decide_false; [done|]. intros ->.
      by apply list_elem_of_lookup_2 in Hi. }
    unfold odd_part. rewrite Nat.odd_succ, <-Nat.negb_odd. destruct (Nat.odd (count a l)); cbn; [|by rewrite Z.lxor_0_l].
    by rewrite <-Z.lxor_assoc, Z.lxor_nilpotent, Z.lxor_0_l.
  - unfold same at 1. rewrite bool_decide_false by done. apply elem_of_cons in Ha as [? | Ha]; [by subst|].
    unfold xors in *. rewrite (IH Ha), <-!Z.lxor_assoc. f_equal. apply Z.lxor_comm.
Qed.

Lemma xors_by_count (f : ast → Z) us : NoDup us → ∀ l, (∀ x, x ∈ l → x ∈ us) →
  xors (f <$> l) = xors ((λ u, odd_part (count u l) (f u)) <$> us).
Proof.
  intros Hus. induction l as [|a l IH]; intros Hl.
  - clear. unfold xors. induction us as [|u us IH]; [done|]. cbn [fmap list_fmap foldr] in *. rewrite <-IH. done.
  - rewrite xors_toggle by (done || (apply Hl; left)). cbn [fmap list_fmap xors foldr]. f_equal. apply IH. intros x Hx. apply Hl. by right.
Qed.

Lemma xors_filter (f : ast → Z) (p : ast → bool) us : xors (f <$> List.filter p us) = xors ((λ u, if p u then f u else 0) <$> us).
Proof. unfold xors. induction us as [|u us IH]; [done|]. cbn. rewrite <-IH. by destruct (p u). Qed.

Lemma flattening_filter_xors (f : ast → Z) l : xors (f <$> _flattening_filter l) = xors (f <$> l).
Proof.
  unfold _flattening_filter. rewrite (deduplicate_filter _ l [] []) by done. rewrite xors_filter.
  symmetry. apply xors_by_count; [apply deduplicate_NoDup|]. intros x Hx. by destruct (deduplicate_complete l [] x Hx) as [?%not_elem_of_nil|].
Qed.

Lemma fold_xors w l : fold BXor w l = xors l.
Proof. done. Qed.

Lemma flattening_filter_good w : 1 ≤ w → good_filter false BXor (SBV w) _flattening_filter (Some (bvv 0 w)).
Proof.
  intros Hw. split.
  - intros l Hl. rewrite Forall_forall in *. intros x Hx. apply Hl. unfold _flattening_filter in Hx. apply deduplicate_incl in Hx.
    rewrite list_elem_of_In in *. by apply filter_In in Hx as [].
  - intros ρ l _. apply (flattening_filter_xors (eval ρ)).
  - eauto.
  - intros v [= <-]. split; [by apply typed_bvv|]. intros ρ. apply eval_bvv_0.
Qed.

Section Xor.
Context (n : nat).
#[local] Abbreviation build := (build n).
#[local] Abbreviation ty := (typed false).

(** C5: With the code's own construction of nodes, what an exclusive or of vectors
    is simplified to has its sort and value, when each exclusive or inside it
    has two arguments and, of exactly two arguments, either both are free of
    left shifts, exclusive ors, complements and reversed concatenations or
    building their equation does not give the constant true: equal arguments
    cancel in pairs, and the bit-trick for the signed minimum and maximum is
    replaced by a conditional. *)
Theorem xor_sound args w r : ty (Nary BXor args) (SBV w) → forallb binary_xors args = true →
  (∀ a b, args = [a; b] → (typed true a (SBV w) ∧ typed true b (SBV w)) ∨ equals build a b = false) →
  bitwise_xor_simplifier build args = Some r → refines false (Nary BXor args) (SBV w) r.
Proof.
  intros Ht Hbin Heq E. destruct (typed_flat_inv _ BXor _ _ ltac:(done) Ht) as (Ho & Hne & Hargs). pose proof (typed_pos _ _ _ Ht) as Hw.
  cbn [width] in Hw. destruct args as [|a args]; [done|]. pose proof (Forall_inv Hargs) as Ha.
  assert (∀ r, _flatten_simplifier BXor _flattening_filter (Some (bvv 0 (size a))) (a :: args) = Some r →
               refines false (Nary BXor (a :: args)) (SBV w) r) as Hflat.
  { intros r' E'. rewrite (typed_size _ _ _ Ha) in E'. cbn [width] in E'.
    eapply flatten_sound; [exact Ho|by apply flattening_filter_good|done|exact E']. }
  unfold bitwise_xor_simplifier in E. destruct args as [|b [|c args]]; [by apply Hflat| |by apply Hflat].
  apply Forall_cons in Hargs as [_ Hb]. apply Forall_inv in Hb. rewrite (typed_size _ _ _ Ha) in E, Hflat. cbn [width] in E, Hflat. cbv zeta in E.
  case_if E as E0; [|case_if E as E1; [|case_if E as E2]].
  - injection E as <-. apply refines_right; try done. intros ρ. apply same_true in E0 as ->. apply eval_bvv_0.
  - injection E as <-. apply refines_left; try done. intros ρ. apply same_true in E1 as ->. apply eval_bvv_0.
  - injection E as <-. apply refines_unit; try done; [by apply typed_bvv|]. intros ρ. rewrite eval_bvv_0. cbn.
    assert (eval ρ a = eval ρ b) as ->; [|by rewrite Z.lxor_nilpotent].
    destruct (Heq a b eq_refl) as [[Sa Sb] | En]; [by eapply (same_or_equals (strict:=true)); eauto|].
    rewrite En, orb_false_r in E2. by apply same_true in E2 as ->.
  - apply orelse_inv in E as [E | E]; [|by apply Hflat]. apply (minmax_rule n a b w r Ht); [|done]. cbn in Hbin. by rewrite andb_true_r in Hbin.
Qed.

(** The shift of what is no shift itself. *)
Lemma lshift_built x s w : typed true x (SBV w) → typed true s (SBV w) → refines false (Bin Lshift x s) (SBV w) (build (Bin Lshift x s)).
Proof.
  intros Sx Ss. pose proof (typed_loose _ _ _ Sx) as Hx. pose proof (typed_loose _ _ _ Ss) as Hs.
  pose proof (typed_vector false Lshift x s w eq_refl Hx Hs) as Ht. destruct n as [|m]; [by apply new_refines|].
  cbn [Simplify.Simplify.build _op simplify]. unfold lshift_simplifier. destruct (equals_int _ s 0) eqn:E0.
  - split; [done|]. intros ρ. cbn [eval bin_value]. sizes. rewrite (equals_0_ok (strict:=true) _ _ Ss E0 ρ), Z.mul_1_r. symmetry.
    apply Z.mod_small. exact (eval_fits _ ρ _ _ Hx).
  - destruct x as [| | | | |[] x inner| | | | | |]; try by apply new_refines.
    destruct (typed_vector_inv _ Lshift _ _ _ eq_refl Sx) as (? & _ & ? & _). done.
Qed.

(** A left shift of a left shift is one shift, provided the sum of the amounts
    does not wrap. *)
Lemma lshift_sound x inner shift w : typed true x (SBV w) → typed true inner (SBV w) → typed true shift (SBV w) →
  equals_int build shift 0 = false → (∀ ρ, eval ρ inner + eval ρ shift < 2 ^ w) →
  ∃ r, lshift_simplifier build (Bin Lshift x inner) shift = Some r ∧ refines false (Bin Lshift (Bin Lshift x inner) shift) (SBV w) r.
Proof.
  intros Sx Si Ss E0 Hwrap. unfold lshift_simplifier. rewrite E0. eexists. split; [done|].
  destruct (add_ok (strict:=true) (build:=build) inner shift w Si Ss) as [Ta Ea]. destruct (lshift_built x _ w Sx Ta) as [T E].
  split; [done|]. intros ρ. unfold lshift. rewrite E. cbn [eval bin_value size]. sizes. rewrite Ea.
  pose proof (eval_fits _ ρ _ _ Si) as [? _]. pose proof (eval_fits _ ρ _ _ Ss) as [? _].
  pose proof (Hwrap ρ). pose proof (pow2_pos w ltac:(pose proof (typed_pos _ _ _ Sx); cbn in *; lia)).
  rewrite (Z.mod_small (_ + _)), Z.pow_add_r, Z.mul_assoc, Z.mul_mod_idemp_l by lia. done.
Qed.
End Xor.

(** The signed maximum of [q] and [r]. *)
Definition maximum (w : Z) (q r : ast) : ast :=
  let s := Bin Sub q r in
  let t := Nary BXor [q; r] in
  let v := Nary BAnd [Nary BXor [s; q]; t] in
  Nary BAnd [Bin Rshift (Nary BXor [v; s]) (BVV (w - 1) w); t].

Lemma xor_sound_witness :
  let q := BVS "q" 8 in
  let r := BVS "r" 8 in
  bitwise_xor_simplifier (build 4) [q; maximum 8 q r] = Some (If (Bin SLE q r) r q) ∧
  refines false (Nary BXor [q; maximum 8 q r]) (SBV 8) (If (Bin SLE q r) r q).
Proof.
  cbv zeta. split; [reflexivity|]. apply (xor_sound 4); [|reflexivity|intros a b [= <- <-]; right; reflexivity|reflexivity].
  assert (∀ n, typed false (BVS n 8) (SBV 8)) as Hs by (intros n; apply typed_BVS; lia).
  repeat first [apply Hs | apply (typed_flat false _ (SBV 8)); [reflexivity|discriminate|] | apply Forall_cons_2 | apply Forall_nil_2
               | apply typed_vector; [reflexivity|..] | apply typed_BVV; lia].
Defined.

(** ** Where the value changes *)

Section Unsound.
Open Scope string_scope.

(** The symbols all have the value [v]. *)
Definition all_are (v : Z) : ast → Z := λ _, v.

(** The sum of the two amounts wraps around: shifting by 128 and then by 129
    gives 0, not a shift by 1. *)
Lemma lshift_changes_value :
  let x := BVS "x" 8 in
  let t := Bin Lshift (Bin Lshift x (BVV 128 8)) (BVV 129 8) in
  build 2 t = Bin Lshift x (BVV 1 8) ∧ eval (all_are 3) t = 0 ∧ eval (all_are 3) (build 2 t) = 6.
Proof. vm_compute. auto. Qed.

(** With a mask of two bits, [(x & 3) ^ 3 == 0] asks for both bits and
    [x & 3 != 0] for one of them. *)
Lemma masked_xor_changes_value :
  let x := BVS "x" 8 in
  let t := Bin Eq (Nary BXor [Nary BAnd [x; BVV 3 8]; BVV 3 8]) (BVV 0 8) in
  build 4 t = Bin Ne (Nary BAnd [x; BVV 3 8]) (BVV 0 8) ∧ eval (all_are 1) t = 0 ∧ eval (all_are 1) (build 4 t) = 1.
Proof. vm_compute. auto. Qed.

(** The inequation goes the same way. *)
Lemma masked_xor_ne_changes_value :
  let x := BVS "x" 8 in
  let t := Bin Ne (Nary BXor [Nary BAnd [x; BVV 3 8]; BVV 3 8]) (BVV 0 8) in
  build 4 t = Bin Eq (Nary BAnd [x; BVV 3 8]) (BVV 0 8) ∧ eval (all_are 1) t = 1 ∧ eval (all_are 1) (build 4 t) = 0.
Proof. vm_compute. auto. Qed.

(** The rotation is taken for one of 32 bits although the operand has 64. *)
Lemma rotate_mask_changes_value :
  let x := BVS "x" 64 in
  let t := Nary BAnd [Nary BOr [Bin Lshift x (BVV 16 64); Bin LShR x (BVV 16 64)]; BVV 0xFFFF0000 64] in
  eval (all_are (2 ^ 32)) t = 2 ^ 16 ∧ eval (all_are (2 ^ 32)) (build 4 t) = 0.
Proof. vm_compute. auto. Qed.

(** The complement of the vectors 1 and 0 of eight bits. *)
Lemma invert_changes_value :
  let t := Un Invert (If (BoolS "c") (BVV 1 8) (BVV 0 8)) in
  build 2 t = If (Un Not (BoolS "c")) (BVV 1 8) (BVV 0 8) ∧ eval (all_are 1) t = 254 ∧ eval (all_are 1) (build 2 t) = 0.
Proof. vm_compute. auto. Qed.
End Unsound.
End SimplifyXor.
