(* ===== verification/Bitfields.v ===== *)
(** * Bit fields of machine words

    The relocations rewrite fields of instruction words with masks and shifts.
    This file has the vocabulary the theorems state them in ([field], [signed])
    and a decision procedure, by reflection, for equalities between words built
    from masks, shifts and connectives: [bitfields] computes every bit of both
    sides as a boolean formula over the bits of the words they are made of. *)

From Stdlib Require Import ZArith Lia Bool.
From stdpp Require Import base tactics list numbers.
From S2P Require Import Prelude.

Module Bitfields.

(** ** Fields and signed readings *)

(** The [w] bits of [x] from bit [lo] on. *)
Definition field (lo w x : Z) : Z := Z.land (Z.shiftr x lo) (Z.ones w).

(** The number the low [w] bits of [x] stand for in two's complement. *)
Definition signed (w x : Z) : Z := (x + 2 ^ (w - 1)) mod 2 ^ w - 2 ^ (w - 1).

Lemma field_div_mod lo w x : 0 ≤ lo → 0 ≤ w → field lo w x = (x / 2 ^ lo) mod 2 ^ w.
Proof. intros. unfold field. by rewrite Z.land_ones, Z.shiftr_div_pow2. Qed.

Lemma field_bound lo w x : 0 ≤ w → 0 ≤ field lo w x < 2 ^ w.
Proof. intros. unfold field. rewrite Z.land_ones by done. by apply mod_pow2_bound. Qed.

Lemma signed_bounds w x : 1 ≤ w → - 2 ^ (w - 1) ≤ signed w x < 2 ^ (w - 1).
Proof.
  intros Hw. unfold signed. pose proof (mod_pow2_bound (x + 2 ^ (w - 1)) w). pose proof (pow2_double w Hw). lia.
Qed.

Lemma signed_congruent w x : 1 ≤ w → signed w x mod 2 ^ w = x mod 2 ^ w.
Proof.
  intros Hw. unfold signed. pose proof (pow2_pos w). rewrite Zminus_mod_idemp_l. f_equal. lia.
Qed.

(** Congruent words read as the same signed number. *)
Lemma signed_ext w x y : 0 ≤ w → x mod 2 ^ w = y mod 2 ^ w → signed w x = signed w y.
Proof.
  intros Hw E. unfold signed. f_equal. rewrite <-(Zplus_mod_idemp_l x), E, Zplus_mod_idemp_l. done.
Qed.

Lemma signed_id w x : 1 ≤ w → - 2 ^ (w - 1) ≤ x < 2 ^ (w - 1) → signed w x = x.
Proof. intros Hw Hx. unfold signed. pose proof (pow2_double w Hw). rewrite Z.mod_small; lia. Qed.

(** The two branches the sources write. *)
Lemma signed_cases w x : 1 ≤ w → 0 ≤ x < 2 ^ w → signed w x = if x <? 2 ^ (w - 1) then x else x - 2 ^ w.
Proof.
  intros Hw Hx. pose proof (pow2_double w Hw). destruct (Z.ltb_spec x (2 ^ (w - 1))).
  - apply signed_id; lia.
  - rewrite (signed_ext w x (x - 2 ^ w)), signed_id; try lia.
    rewrite <-(Z_mod_plus_full (x - 2 ^ w) 1 (2 ^ w)). f_equal. lia.
Qed.

(** A field scaled by a power of two that divides the number. *)
Lemma scaled_field k w x :
  0 ≤ k → 0 ≤ w → x mod 2 ^ k = 0 → Z.shiftl (field k w x) k = x mod 2 ^ (k + w).
Proof.
  intros Hk Hw Hx. rewrite field_div_mod, Z.shiftl_mul_pow2 by done.
  pose proof (pow2_pos k Hk). pose proof (pow2_pos w Hw).
  rewrite Z.pow_add_r, Z.rem_mul_r by lia. lia.
Qed.

(** ** Symbolic bits *)

Inductive sbit :=
  | S0
  | S1
  | SVar (n : nat) (i : Z)
  | SAnd (s t : sbit)
  | SXor (s t : sbit).

(** Constants disappear. *)
Definition sand (s t : sbit) : sbit :=
  match s, t with S0, _ | _, S0 => S0 | S1, t => t | s, S1 => s | _, _ => SAnd s t end.

Definition sxor (s t : sbit) : sbit :=
  match s, t with S0, t => t | s, S0 => s | S1, S1 => S0 | _, _ => SXor s t end.

Definition snot (s : sbit) : sbit := sxor S1 s.

Definition sor (s t : sbit) : sbit := sxor (sand s t) (sxor s t).

Fixpoint sval (v : nat → Z → bool) (s : sbit) : bool :=
  match s with
  | S0 => false
  | S1 => true
  | SVar n i => v n i
  | SAnd s t => sval v s && sval v t
  | SXor s t => xorb (sval v s) (sval v t)
  end.

Lemma sand_val v s t : sval v (sand s t) = sval v s && sval v t.
Proof. destruct s, t; cbn; rewrite ?andb_false_r, ?andb_true_r; done. Qed.

Lemma sxor_val v s t : sval v (sxor s t) = xorb (sval v s) (sval v t).
Proof. destruct s, t; cbn; rewrite ?xorb_false_l, ?xorb_false_r; done. Qed.

Lemma snot_val v s : sval v (snot s) = negb (sval v s).
Proof. unfold snot. rewrite sxor_val. cbn. by destruct (sval v s). Qed.

Lemma sor_val v s t : sval v (sor s t) = sval v s || sval v t.
Proof. unfold sor. rewrite !sxor_val, sand_val. by destruct (sval v s), (sval v t). Qed.

(** Replacing a bit by a constant. *)
Fixpoint assign (n : nat) (i : Z) (b : bool) (s : sbit) : sbit :=
  match s with
  | SVar m j => if Nat.eqb m n && (j =? i) then (if b then S1 else S0) else s
  | SAnd s t => sand (assign n i b s) (assign n i b t)
  | SXor s t => sxor (assign n i b s) (assign n i b t)
  | _ => s
  end.

Lemma assign_val v n i s : sval v (assign n i (v n i) s) = sval v s.
Proof.
  induction s; cbn; rewrite ?sand_val, ?sxor_val; try congruence; try done.
  destruct (Nat.eqb_spec n0 n) as [->|], (Z.eqb_spec i0 i) as [->|]; cbn; try done. by destruct (v n i).
Qed.

Fixpoint atoms (s : sbit) : list (nat * Z) :=
  match s with
  | SVar n i => [(n, i)]
  | SAnd s t | SXor s t => atoms s ++ atoms t
  | _ => []
  end.

(** Shannon expansion over the atoms. *)
Fixpoint never (l : list (nat * Z)) (s : sbit) : bool :=
  match s, l with
  | S0, _ => true
  | S1, _ => false
  | _, [] => false
  | _, (n, i) :: l => never l (assign n i true s) && never l (assign n i false s)
  end.

Lemma never_sound v l s : never l s = true → sval v s = false.
Proof.
  revert s. induction l as [|[n i] l IH]; intros s; [by destruct s|].
  assert (never l (assign n i true s) && never l (assign n i false s) = true → sval v s = false) as H.
  { intros [Ht Hf]%andb_prop. rewrite <-(assign_val v n i s). destruct (v n i); by apply IH. }
  destruct s; cbn; try done; apply H.
Qed.

Definition same (s t : sbit) : bool := let d := sxor s t in never (atoms d) d.

Lemma same_sound v s t : same s t = true → sval v s = sval v t.
Proof. unfold same. intros H%(never_sound v). rewrite sxor_val in H. by destruct (sval v s), (sval v t). Qed.

(** ** Words *)

Inductive bexp :=
  | BVar (n : nat)
  | BConst (c : Z)
  | BAnd (a b : bexp)
  | BOr (a b : bexp)
  | BXor (a b : bexp)
  | BNot (a : bexp)
  | BShl (a : bexp) (k : Z)
  | BShr (a : bexp) (k : Z)
  | BMod (a : bexp) (k : Z)
  | BBit (a : bexp) (k : Z).

Fixpoint beval (env : list Z) (e : bexp) : Z :=
  match e with
  | BVar n => nth n env 0
  | BConst c => c
  | BAnd a b => Z.land (beval env a) (beval env b)
  | BOr a b => Z.lor (beval env a) (beval env b)
  | BXor a b => Z.lxor (beval env a) (beval env b)
  | BNot a => Z.lnot (beval env a)
  | BShl a k => Z.shiftl (beval env a) k
  | BShr a k => Z.shiftr (beval env a) k
  | BMod a k => beval env a mod 2 ^ k
  | BBit a k => Z.b2z (Z.testbit (beval env a) k)
  end.

(** Shifts and positions are not negative. *)
Fixpoint shaped (e : bexp) : bool :=
  match e with
  | BVar _ | BConst _ => true
  | BAnd a b | BOr a b | BXor a b => shaped a && shaped b
  | BNot a => shaped a
  | BShl a k | BShr a k | BMod a k | BBit a k => (0 <=? k) && shaped a
  end.

Section widths.
Context (W : list (option Z)).

Fixpoint bit (e : bexp) (i : Z) : sbit :=
  match e with
  | BVar n => match nth n W None with Some w => if w <=? i then S0 else SVar n i | None => SVar n i end
  | BConst c => if Z.testbit c i then S1 else S0
  | BAnd a b => sand (bit a i) (bit b i)
  | BOr a b => sor (bit a i) (bit b i)
  | BXor a b => sxor (bit a i) (bit b i)
  | BNot a => snot (bit a i)
  | BShl a k => if i <? k then S0 else bit a (i - k)
  | BShr a k => bit a (i + k)
  | BMod a k => if i <? k then bit a i else S0
  | BBit a k => if i =? 0 then bit a k else S0
  end.

(** A number of bits that is enough, when there is one. *)
Fixpoint width (e : bexp) : option Z :=
  match e with
  | BVar n => nth n W None
  | BConst c => if 0 <=? c then Some (Z.log2 c + 1) else None
  | BAnd a b =>
      match width a, width b with
      | Some x, Some y => Some (Z.min x y)
      | Some x, None | None, Some x => Some x
      | None, None => None
      end
  | BOr a b | BXor a b =>
      match width a, width b with Some x, Some y => Some (Z.max x y) | _, _ => None end
  | BNot _ => None
  | BShl a k => match width a with Some x => Some (x + k) | None => None end
  | BShr a k => match width a with Some x => Some (Z.max 0 (x - k)) | None => None end
  | BMod a k => match width a with Some x => Some (Z.min k x) | None => Some k end
  | BBit _ _ => Some 1
  end.

Definition fits_width (x : Z) (w : option Z) : Prop :=
  match w with Some w => 0 ≤ w ∧ 0 ≤ x < 2 ^ w | None => True end.

Context (env : list Z) (Henv : Forall2 fits_width env W).

Lemma variable_fits n : fits_width (nth n env 0) (nth n W None).
Proof.
  clear -Henv. revert n. induction Henv as [|x w e W' Hx H IH]; intros [|n]; cbn; try done. apply IH; done.
Qed.

Definition valuation (n : nat) (i : Z) : bool := Z.testbit (nth n env 0) i.

Lemma bit_sound e i : shaped e = true → 0 ≤ i → Z.testbit (beval env e) i = sval valuation (bit e i).
Proof.
  revert i. induction e; cbn [beval bit shaped]; intros i Hs Hi;
    repeat match goal with
      | H : _ && _ = true |- _ => apply andb_prop in H as [? ?]
      | H : (0 <=? _) = true |- _ => apply Z.leb_le in H
      end.
  - pose proof (variable_fits n) as Hn. destruct (nth n W None) as [w|]; cbn in *; [|done].
    zcases; [|done]. apply (testbit_high _ w); lia.
  - by destruct (Z.testbit c i).
  - by rewrite Z.land_spec, sand_val, IHe1, IHe2.
  - by rewrite Z.lor_spec, sor_val, IHe1, IHe2.
  - by rewrite Z.lxor_spec, sxor_val, IHe1, IHe2.
  - by rewrite Z.lnot_spec, snot_val, IHe.
  - rewrite Z.shiftl_spec by done. zcases; [apply Z.testbit_neg_r; lia|]. apply IHe; [done|lia].
  - rewrite Z.shiftr_spec by done. apply IHe; [done|lia].
  - rewrite testbit_mod_pow2 by done. zcases; [by apply IHe|done].
  - zcases; subst; [rewrite Z.b2z_bit0; apply IHe; [done|lia]|].
    apply (testbit_high _ 1); [destruct (Z.testbit (beval env e) k); cbn|]; lia.
Qed.

Ltac high_bits :=
  repeat match goal with
    | H : ∀ i, _ → Z.testbit ?x i = false |- context [Z.testbit ?x ?j] => rewrite (H j) by lia
    end; by rewrite ?andb_false_r.

Lemma width_sound e w :
  shaped e = true → width e = Some w → 0 ≤ w ∧ ∀ i, w ≤ i → Z.testbit (beval env e) i = false.
Proof.
  revert w. induction e; cbn [beval width shaped]; intros w0 Hs E; simplify_eq;
    repeat match goal with
      | H : _ && _ = true |- _ => apply andb_prop in H as [? ?]
      | H : (0 <=? _) = true |- _ => apply Z.leb_le in H
      | IH : ∀ w, shaped ?a = true → width ?a = Some w → _, Ha : shaped ?a = true |- _ =>
          destruct (width a) as [?w|]; [destruct (IH _ Ha eq_refl) as [? ?]|]; clear IH
      end; simplify_eq.
  - pose proof (variable_fits n) as Hn. rewrite E in Hn. destruct Hn as [? ?].
    split; [done|]. intros i ?. by apply (testbit_high _ w0).
  - revert E. zcases; intros; simplify_eq. pose proof (Z.log2_nonneg c). split; [lia|].
    intros i ?. destruct (decide (c = 0)) as [->|]; [apply Z.bits_0|]. apply Z.bits_above_log2; lia.
  - split; [lia|]. intros i ?. rewrite Z.land_spec. destruct (decide (w ≤ i)); high_bits.
  - split; [lia|]. intros i ?. rewrite Z.land_spec. high_bits.
  - split; [lia|]. intros i ?. rewrite Z.land_spec. high_bits.
  - split; [lia|]. intros i ?. rewrite Z.lor_spec. high_bits.
  - split; [lia|]. intros i ?. rewrite Z.lxor_spec. high_bits.
  - split; [lia|]. intros i ?. rewrite Z.shiftl_spec by lia. high_bits.
  - split; [lia|]. intros i ?. rewrite Z.shiftr_spec by lia. high_bits.
  - split; [lia|]. intros i ?. rewrite testbit_mod_pow2 by lia. zcases; [high_bits|done].
  - split; [lia|]. intros i ?. rewrite testbit_mod_pow2 by lia. zcases; [lia|done].
  - split; [lia|]. intros i ?. apply (testbit_high _ 1); [destruct (Z.testbit _ _); cbn|]; lia.
  - split; [lia|]. intros i ?. apply (testbit_high _ 1); [destruct (Z.testbit _ _); cbn|]; lia.
Qed.

Definition equal_words (a b : bexp) : bool :=
  match width a, width b with
  | Some x, Some y =>
      shaped a && shaped b && forallb (λ i, same (bit a i) (bit b i)) (seqZ 0 (Z.max x y))
  | _, _ => false
  end.

(** The decision procedure is sound. *)
Theorem equal_words_sound a b : equal_words a b = true → beval env a = beval env b.
Proof.
  unfold equal_words. destruct (width a) as [x|] eqn:Ea, (width b) as [y|] eqn:Eb; try done.
  intros [[Ha Hb]%andb_prop H]%andb_prop.
  destruct (width_sound a x) as [? Hx]; [done..|]. destruct (width_sound b y) as [? Hy]; [done..|].
  apply Z.bits_inj'. intros i Hi. destruct (Z.lt_ge_cases i (Z.max x y)).
  - rewrite !bit_sound by done. apply same_sound.
    rewrite forallb_forall in H. apply H, list_elem_of_In, elem_of_seqZ. lia.
  - by rewrite Hx, Hy by lia.
Qed.
End widths.

(** ** Reification *)

Ltac is_Z_literal k := match isZcst k with true => idtac end.

Ltac known_width x :=
  match goal with
  | H : 0 ≤ x < 2 ^ ?w |- _ => let _ := match goal with _ => is_Z_literal w end in constr:(Some w)
  | _ => constr:(@None Z)
  end.

Ltac position env x :=
  lazymatch env with
  | x :: _ => constr:(0%nat)
  | _ :: ?env => let n := position env x in constr:(S n)
  end.

Ltac collect env e :=
  lazymatch e with
  | Z.land ?a ?b => let env := collect env a in collect env b
  | Z.lor ?a ?b => let env := collect env a in collect env b
  | Z.lxor ?a ?b => let env := collect env a in collect env b
  | Z.lnot ?a => collect env a
  | Z.shiftl ?a ?k => collect env a
  | Z.shiftr ?a ?k => collect env a
  | ?a mod 2 ^ ?k => collect env a
  | Z.b2z (Z.testbit ?a ?k) => collect env a
  | Z.ones ?k => env
  | _ =>
      lazymatch isZcst e with
      | true => env
      | _ => match env with context [e] => env | _ => constr:(e :: env) end
      end
  end.

Ltac reify env e :=
  lazymatch e with
  | Z.land ?a ?b => let a := reify env a in let b := reify env b in constr:(BAnd a b)
  | Z.lor ?a ?b => let a := reify env a in let b := reify env b in constr:(BOr a b)
  | Z.lxor ?a ?b => let a := reify env a in let b := reify env b in constr:(BXor a b)
  | Z.lnot ?a => let a := reify env a in constr:(BNot a)
  | Z.shiftl ?a ?k => let a := reify env a in constr:(BShl a k)
  | Z.shiftr ?a ?k => let a := reify env a in constr:(BShr a k)
  | ?a mod 2 ^ ?k => let a := reify env a in constr:(BMod a k)
  | Z.b2z (Z.testbit ?a ?k) => let a := reify env a in constr:(BBit a k)
  | Z.ones ?k => let c := eval vm_compute in (Z.ones k) in constr:(BConst c)
  | _ =>
      lazymatch isZcst e with
      | true => constr:(BConst e)
      | _ => let n := position env e in constr:(BVar n)
      end
  end.

Ltac widths_of env :=
  lazymatch env with
  | [] => constr:(@nil (option Z))
  | ?x :: ?env => let w := known_width x in let ws := widths_of env in constr:(w :: ws)
  end.

(** Closes [a = b] for words of known width. *)
Ltac bitfields :=
  unfold field;
  lazymatch goal with
  | |- ?a = ?b =>
      let env := collect (@nil Z) a in let env := collect env b in
      let a' := reify env a in let b' := reify env b in
      let W := widths_of env in
      change (beval env a' = beval env b');
      apply (equal_words_sound W);
      [repeat apply List.Forall2_cons; try apply List.Forall2_nil; cbn [fits_width];
       first [exact I | split; [done|assumption]]
      |vm_compute; reflexivity]
  end.

End Bitfields.
