(* ===== verification/RelocCode.v ===== *)
(** * What the relocations compute

    The arithmetic of [cle/backends/elf/relocation/*.py] and
    [cle/backends/pe/relocation/*.py]: for each class the word its [value] or
    [relocate] makes, as a function of the address of the place [P], the addend
    [A], the address of the symbol [S], whether the symbol is a Thumb function
    [T], and the word [inst] found at the place.  [Relocation] reads these from
    the objects and writes the result. *)

From Stdlib Require Import ZArith Lia Bool.
From stdpp Require Import base tactics list numbers.
From S2P Require Import Prelude.

Module RelocCode.

(** [bool(x)] of an integer. *)
Definition truth (x : Z) : bool := negb (x =? 0).

(** [ctypes.c_int16(x).value]. *)
Definition c_int16 (x : Z) : Z :=
  let v := Z.land x 0xFFFF in if v <? 0x8000 then v else v - 0x10000.

(** ** ARM *)

Module Arm.

Definition _applyReloc (inst result mask : Z) : Z :=
  if truth (Z.land result (Z.lnot mask)) then 0
  else Z.lor (Z.land inst (Z.lnot mask)) (Z.land result mask).

Definition R_ARM_CALL (P A S : Z) (T : bool) : Z :=
  let inst := A in
  let A := if truth (Z.land inst 0x00800000) then Z.lor A 0xFF000000 else A in
  let result := Z.lor (S + Z.shiftl A 2) (Z.b2z T) - P in
  let imm24 := Z.shiftr (Z.land result 0x03FFFFFE) 2 in
  if T then
    let mask := 0xFF000000 in
    let bit_h := Z.shiftr (Z.land result 0x02) 1 in
    _applyReloc inst (Z.lor 0xFA bit_h) mask
  else
    let mask := 0xFFFFFF in
    _applyReloc inst imm24 mask.

Definition R_ARM_PREL31 (P A S : Z) (T : bool) : Z :=
  let A := if truth (Z.land A 0x01000000) then Z.lor A 0xF1000000 else A in
  let result := Z.lor (S + A) (Z.b2z T) - P in
  let mask := 0x7FFFFFFF in
  let rel31 := Z.land result mask in
  _applyReloc A rel31 mask.

Definition R_ARM_REL32 (P A S : Z) (T : bool) : Z := Z.lor (S + A) (Z.b2z T) - P.

Definition R_ARM_ABS32 (A S : Z) (T : bool) : Z := Z.lor (S + A) (Z.b2z T).

(** The 16-bit literal of MOVW and MOVT, read as a signed number. *)
Definition mov_addend (inst : Z) : Z :=
  let A := Z.lor (Z.shiftr (Z.land inst 0xF0000) 4) (Z.land inst 0xFFF) in
  if truth (Z.land A 0x8000) then - (Z.lxor A 0xFFFF + 1) else A.

Definition mov_set (inst part1 part2 : Z) : Z :=
  let inst := Z.land inst 0xFFF0F000 in
  let inst := Z.lor inst (Z.land (Z.shiftl part1 16) 0xF0000) in
  Z.lor inst (Z.land part2 0xFFF).

Definition R_ARM_MOVW_ABS_NC (inst S : Z) (T : bool) : Z :=
  let A := mov_addend inst in
  let X := Z.lor (S + A) (Z.b2z T) in
  let MaskX := Z.land X 0xFFFF in
  mov_set inst (Z.shiftr MaskX 12) (Z.land MaskX 0xFFF).

Definition R_ARM_MOVT_ABS (inst S : Z) : Z :=
  let A := mov_addend inst in
  let X := S + A in
  let MaskX := Z.land X 0xFFFF0000 in
  mov_set inst (Z.shiftr (Z.shiftr MaskX 16) 12) (Z.land (Z.shiftr MaskX 16) 0xFFF).

(** A Thumb-2 instruction is two little-endian halfwords, the first of which is
    the more significant. *)
Definition thm_inst (insn_bytes : list Z) : Z :=
  let byte i := nth i insn_bytes 0 in
  let hi := Z.lor (Z.shiftl (byte 1%nat) 8) (byte 0%nat) in
  let lo := Z.lor (Z.shiftl (byte 3%nat) 8) (byte 2%nat) in
  Z.lor (Z.shiftl hi 16) lo.

Definition thm_raw (inst : Z) : Z :=
  let raw0 := Z.shiftr (Z.land inst 0x00FF0000) 16 in
  let raw1 := Z.shiftr (Z.land inst 0xFF000000) 24 in
  let raw2 := Z.land inst 0x00FF in
  let raw3 := Z.shiftr (Z.land inst 0xFF00) 8 in
  Z.lor (Z.lor (Z.lor (Z.shiftl raw3 24) (Z.shiftl raw2 16)) (Z.shiftl raw1 8)) raw0.

Definition gen_mask (n_bits first_bit : Z) : Z := Z.shiftl (Z.shiftl 1 n_bits - 1) first_bit.

(** [(bool(x) & 1) ^ (not sign_bit)]. *)
Definition j_bit (x sign_bit : Z) : Z := Z.lxor (Z.land (Z.b2z (truth x)) 1) (Z.b2z (negb (truth sign_bit))).

Definition thm_call_addend (inst : Z) : Z :=
  let A := Z.shiftl (Z.land inst (gen_mask 11 0)) 1 in
  let A := Z.lor A (Z.shiftl (Z.shiftr (Z.land inst (gen_mask 10 16)) 16) 12) in
  let sign_bit := Z.land (Z.b2z (truth (Z.land inst (gen_mask 1 26)))) 1 in
  let J1 := j_bit (Z.land inst (gen_mask 1 13)) sign_bit in
  let J2 := j_bit (Z.land inst (gen_mask 1 11)) sign_bit in
  let A := Z.lor A (Z.shiftl J1 23) in
  let A := Z.lor A (Z.shiftl J2 22) in
  if truth sign_bit then Z.lor A 0xFF000000 else A.

Definition thm_call_encode (inst x : Z) : Z :=
  let inst := Z.land inst (Z.lnot 0x7FF2FFF) in
  let sign_bit := Z.land (Z.b2z (truth (Z.land x (gen_mask 1 24)))) 1 in
  let J1 := j_bit (Z.land x (gen_mask 1 23)) sign_bit in
  let J2 := j_bit (Z.land x (gen_mask 1 22)) sign_bit in
  let inst := Z.lor inst (Z.shiftl sign_bit 26) in
  let inst := Z.lor inst (Z.shiftl J1 13) in
  let inst := Z.lor inst (Z.shiftl J2 11) in
  let inst := Z.lor inst (Z.shiftr (Z.land x (gen_mask 11 1)) 1) in
  Z.lor inst (Z.shiftl (Z.shiftr (Z.land x (gen_mask 10 12)) 12) 16).

(** [rela] is the addend of a RELA entry. *)
Definition R_ARM_THM_CALL (insn_bytes : list Z) (rela : option Z) (P S : Z) (T : bool) : Z :=
  let inst := thm_inst insn_bytes in
  let A := match rela with Some A => A | None => thm_call_addend inst end in
  let x := Z.land (Z.lor (S + A) (Z.b2z T) - P) 0xFFFFFFFF in
  thm_raw (thm_call_encode inst x).

(** The warning is for these. *)
Definition thm_out_of_range (x : Z) : bool :=
  negb ((Z.land x 0xFF000000 =? 0) || (Z.land x 0xFF000000 =? 0xFF000000)).

Definition thm_mov_addend (inst : Z) : Z :=
  let A := Z.shiftl (Z.shiftr (Z.land inst 0x04000000) 26) 15 in
  let A := Z.lor A (Z.shiftl (Z.shiftr (Z.land inst 0x000F0000) 16) 11) in
  let A := Z.lor A (Z.shiftl (Z.shiftr (Z.land inst 0x00007000) 12) 8) in
  let A := Z.lor A (Z.land inst 0xFF) in
  if truth (Z.land A 0x8000) then - (Z.lxor A 0xFFFF + 1) else A.

Definition thm_mov_set (inst part1 part2 part3 part4 : Z) : Z :=
  let inst := Z.land inst 0xFBF08F00 in
  let inst := Z.lor inst (Z.land (Z.shiftl part1 16) 0x000F0000) in
  let inst := Z.lor inst (Z.land (Z.shiftl part2 26) 0x04000000) in
  let inst := Z.lor inst (Z.land (Z.shiftl part3 12) 0x00007000) in
  Z.lor inst (Z.land (Z.shiftl part4 0) 0xFF).

Definition R_ARM_THM_MOVW_ABS_NC (insn_bytes : list Z) (S : Z) (T : bool) : Z :=
  let inst := thm_inst insn_bytes in
  let A := thm_mov_addend inst in
  let X := Z.lor (S + A) (Z.b2z T) in
  let MaskX := Z.land X 0xFFFF in
  thm_raw (thm_mov_set inst (Z.shiftr MaskX 12) (Z.land (Z.shiftr MaskX 11) 0x1)
             (Z.land (Z.shiftr MaskX 8) 0x7) (Z.land MaskX 0xFF)).

Definition R_ARM_THM_MOVT_ABS (insn_bytes : list Z) (S : Z) : Z :=
  let inst := thm_inst insn_bytes in
  let A := thm_mov_addend inst in
  let X := S + A in
  let MaskX := Z.land X 0xFFFF0000 in
  thm_raw (thm_mov_set inst (Z.shiftr MaskX 28) (Z.land (Z.shiftr MaskX 27) 0x1)
             (Z.land (Z.shiftr MaskX 24) 0x7) (Z.land (Z.shiftr MaskX 16) 0xFF)).

End Arm.

(** ** AArch64: the new instruction from the old one and [self.value] *)

Module Arm64.

(** [R_AARCH64_JUMP26] and [R_AARCH64_CALL26]. *)
Definition branch26 (inst value : Z) : Z :=
  let instr := Z.land inst 0xFC000000 in
  let imm := Z.land (Z.shiftr value 2) 0x03FFFFFF in
  Z.lor instr imm.

Definition out_of_range (value bound : Z) : bool := negb ((- bound <=? value) && (value <? bound)).

Definition page_offset (P A S : Z) : Z := Z.land (S + A) (Z.lnot 0xFFF) - Z.land P (Z.lnot 0xFFF).

Definition R_AARCH64_ADR_PREL_PG_HI21 (inst value : Z) : Z :=
  let instr := Z.land inst 0x9F00001F in
  let imm := Z.land (Z.shiftr value 12) 0x1FFFFF in
  let immlo := Z.land imm 3 in
  let immhi := Z.shiftr imm 2 in
  Z.lor (Z.lor instr (Z.shiftl immhi 5)) (Z.shiftl immlo 29).

Definition R_AARCH64_ADD_ABS_LO12_NC (inst value : Z) : Z :=
  let instr := Z.land inst 0xFFC003FF in
  let imm := Z.land value 0xFFF in
  Z.lor instr (Z.shiftl imm 10).

(** The body that [R_AARCH64_LDST16_ABS_LO12_NC] to
    [R_AARCH64_LDST128_ABS_LO12_NC] share: they differ in the shift. *)
Definition ldst_scaled (scale inst value : Z) : Z :=
  let instr := Z.land inst 0xFFC003FF in
  let imm := Z.shiftr (Z.land value 0xFFF) scale in
  Z.lor instr (Z.shiftl imm 10).

End Arm64.

(** ** PowerPC *)

Module Ppc.

Definition PPC_WORD32 : Z := 0xFFFFFFFF.
Definition PPC_LOW24 : Z := 0x03FFFFFC.
Definition PPC_LOW14 : Z := 0x0020FFFC.
Definition PPC_HALF16 : Z := 0xFFFF.
Definition PPC_BL_INST : Z := 0x48000001.

(** The operators [#lo], [#hi] and [#ha]. *)
Definition lo (x : Z) : Z := Z.land x PPC_HALF16.
Definition hi (x : Z) : Z := Z.land (Z.shiftr x 16) PPC_HALF16.
Definition ha (x : Z) : Z :=
  Z.land (Z.shiftr x 16 + (if truth (Z.land x 0x8000) then 1 else 0)) PPC_HALF16.

(** [R_PPC_ADDR24] and [R_PPC_ADDR14*]. *)
Definition address_word (A S : Z) : Z := Z.shiftr (S + A) 2.

Definition R_PPC_REL24 (P A S : Z) : Z :=
  let result := Z.shiftr (S + A - P) 2 in
  let result := Z.land (Z.shiftl result 2) PPC_LOW24 in
  let result := Z.lor (Z.land A (Z.lnot PPC_LOW24)) result in
  Z.lor result PPC_BL_INST.

(** [R_PPC_REL14*]. *)
Definition R_PPC_REL14 (P A S : Z) : Z :=
  let result := Z.shiftr (S + A - P) 2 in
  let result := Z.land (Z.shiftl result 2) PPC_LOW14 in
  Z.lor (Z.land A (Z.lnot PPC_LOW14)) result.

(** The jump that [R_PPC_JMP_SLOT] writes over a slot of the old ABI. *)
Definition R_PPC_JMP_SLOT (value place : Z) : Z :=
  Z.lor (Z.shiftl 0x12 26) (Z.land (value - place) 0x3FFFFFE).

(** [R_PPC64_REL24.relocate], from the instruction and [self.value]. *)
Definition R_PPC64_REL24 (inst value : Z) : Z :=
  let instr := Z.land inst 0xFC000003 in
  let imm := Z.land value 0xFFFFFF in
  Z.lor instr (Z.shiftl imm 2).

End Ppc.

(** ** MIPS *)

Module Mips.

Definition R_MIPS_26 (inst S : Z) : Z := inst + S / 4.

Definition R_MIPS_HI16 (S hi16 lo16 : Z) : Z :=
  let lo := c_int16 lo16 in
  let target_value := (S + lo) - c_int16 (S + lo) in
  Z.shiftr target_value 16 + hi16.

Definition R_MIPS_LO16 (S lo16 : Z) : Z := Z.land (S + lo16) 0xFFFF.

End Mips.

(** ** SPARC *)

Module Sparc.

Definition R_SPARC_HI22 (inst A S : Z) : Z :=
  let result := Z.shiftr (S + A) 10 in
  Z.lor (Z.land inst 0xFFC00000) (Z.land result 0x3FFFFF).

Definition R_SPARC_WDISP30 (inst P A S : Z) : Z :=
  let result := Z.shiftr (S + A - P) 2 in
  Z.lor (Z.land inst 0xC0000000) (Z.land result 0x3FFFFFFF).

Definition R_SPARC_LO10 (inst A S : Z) : Z :=
  let result := Z.land (S + A) 0x3FF in
  Z.lor (Z.land inst 0xFFFFE000) (Z.land result 0x1FFF).

End Sparc.

(** ** PE *)

Module Pe.

Definition _thumb_mov_imm16 (instr : Z) : Z :=
  let first := Z.land instr 0xFFFF in
  let second := Z.shiftr instr 16 in
  Z.lor (Z.lor (Z.lor (Z.shiftl (Z.land first 0xF) 12) (Z.shiftl (Z.land (Z.shiftr first 10) 1) 11))
           (Z.shiftl (Z.land (Z.shiftr second 12) 0x7) 8)) (Z.land second 0xFF).

Definition _thumb_mov_set_imm16 (instr imm16 : Z) : Z :=
  let first := Z.land instr 0xFFFF in
  let second := Z.shiftr instr 16 in
  let first := Z.lor (Z.lor (Z.land first (Z.lnot 0x040F)) (Z.shiftl (Z.land (Z.shiftr imm16 11) 1) 10))
                 (Z.land (Z.shiftr imm16 12) 0xF) in
  let second := Z.lor (Z.lor (Z.land second (Z.lnot 0x70FF)) (Z.shiftl (Z.land (Z.shiftr imm16 8) 0x7) 12))
                  (Z.land imm16 0xFF) in
  Z.lor (Z.shiftl second 16) first.

End Pe.
End RelocCode.
