(* ===== verification/RelocClasses.v ===== *)
(** * The classes of relocations

    One constructor per class of [cle/backends/relocation.py],
    [cle/backends/elf/relocation/] and [cle/backends/pe/relocation/], with its
    bases as its [class] statement lists them, Python's method resolution order
    (the C3 linearization) computed from these, and the tables that give the
    class for a relocation type. *)

From Stdlib Require Import ZArith Lia Bool String.
From stdpp Require Import base tactics list numbers.
From S2P Require Import Prelude.

Module RelocClasses.

Inductive base_cls :=
  | Relocation | ELFReloc | PEReloc | TOCRelocation | SimDataSimpleRelocation | InternalTLSRelocation.

Inductive generic_cls :=
  | GenericTLSDoffsetReloc | GenericTLSOffsetReloc | GenericTLSDescriptorReloc | GenericTLSModIdReloc
  | GenericIRelativeReloc | GenericAbsoluteAddendReloc | GenericPCRelativeAddendReloc | GenericJumpslotReloc
  | GenericRelativeReloc | GenericAbsoluteReloc | GenericCopyReloc | MipsGlobalReloc | MipsLocalReloc
  | RelocTruncate32Mixin | RelocGOTMixin.

Inductive amd64_cls :=
  | R_X86_64_64 | R_X86_64_COPY | R_X86_64_RELATIVE | R_X86_64_IRELATIVE | R_X86_64_GLOB_DAT
  | R_X86_64_JUMP_SLOT | R_X86_64_DTPMOD64 | R_X86_64_DTPOFF64 | R_X86_64_TPOFF64 | R_X86_64_PC32
  | R_X86_64_32 | R_X86_64_32S | R_X86_64_PLT32 | R_X86_64_GOTPCREL | R_X86_64_GOTPCRELX
  | R_X86_64_REX_GOTPCRELX.

Inductive i386_cls :=
  | R_386_32 | R_386_PC32 | R_386_COPY | R_386_GLOB_DAT | R_386_JMP_SLOT | R_386_RELATIVE | R_386_IRELATIVE
  | R_386_TLS_DTPMOD32 | R_386_TLS_TPOFF | R_386_TLS_DTPOFF32 | R_386_PLT32 | R_386_GOTPC.

Inductive arm_cls :=
  | R_ARM_CALL | R_ARM_PREL31 | R_ARM_REL32 | R_ARM_ABS32 | R_ARM_MOVW_ABS_NC | R_ARM_MOVT_ABS
  | R_ARM_THM_CALL | R_ARM_COPY | R_ARM_GLOB_DAT | R_ARM_JUMP_SLOT | R_ARM_RELATIVE | R_ARM_ABS32_NOI
  | R_ARM_REL32_NOI | R_ARM_TLS_DTPMOD32 | R_ARM_TLS_DTPOFF32 | R_ARM_TLS_TPOFF32 | R_ARM_JUMP24
  | R_ARM_PC24 | R_ARM_THM_JUMP24 | R_ARM_THM_JUMP19 | R_ARM_THM_JUMP6 | R_ARM_THM_MOVW_ABS_NC
  | R_ARM_THM_MOVT_ABS | R_ARM_GOT_PREL.

Inductive arm64_cls :=
  | R_AARCH64_ABS64 | R_AARCH64_COPY | R_AARCH64_GLOB_DAT | R_AARCH64_JUMP_SLOT | R_AARCH64_RELATIVE
  | R_AARCH64_IRELATIVE | R_AARCH64_TLS_DTPREL | R_AARCH64_TLS_DTPMOD | R_AARCH64_TLS_TPREL
  | R_AARCH64_TLSDESC | R_AARCH64_PREL32 | R_AARCH64_JUMP26 | R_AARCH64_CALL26 | R_AARCH64_ADR_PREL_PG_HI21
  | R_AARCH64_ADD_ABS_LO12_NC | R_AARCH64_LDST8_ABS_LO12_NC | R_AARCH64_LDST16_ABS_LO12_NC
  | R_AARCH64_LDST32_ABS_LO12_NC | R_AARCH64_LDST64_ABS_LO12_NC | R_AARCH64_LDST128_ABS_LO12_NC.

Inductive ppc_cls :=
  | R_PPC_ADDR32 | R_PPC_ADDR24 | R_PPC_ADDR16 | R_PPC_ADDR16_LO | R_PPC_ADDR16_HI | R_PPC_ADDR16_HA
  | R_PPC_ADDR14 | R_PPC_ADDR14_BRTAKEN | R_PPC_ADDR14_BRNTAKEN | R_PPC_REL24 | R_PPC_REL14
  | R_PPC_REL14_BRTAKEN | R_PPC_REL14_BRNTAKEN | R_PPC_COPY | R_PPC_GLOB_DAT | R_PPC_JMP_SLOT
  | R_PPC_RELATIVE | R_PPC_UADDR32 | R_PPC_UADDR16 | R_PPC_REL32 | R_PPC_SECTOFF | R_PPC_SECTOFF_LO
  | R_PPC_SECTOFF_HI | R_PPC_SECTOFF_HA | R_PPC_ADDR30 | R_PPC_DTPMOD32 | R_PPC_DTPREL32 | R_PPC_TPREL32.

Inductive ppc64_cls :=
  | R_PPC64_JMP_SLOT | R_PPC64_RELATIVE | R_PPC64_IRELATIVE | R_PPC64_ADDR64 | R_PPC64_GLOB_DAT
  | R_PPC64_DTPMOD64 | R_PPC64_DTPREL64 | R_PPC64_TPREL64 | R_PPC64_REL24 | R_PPC64_TOC16_LO
  | R_PPC64_TOC16_HI | R_PPC64_TOC16_HA | R_PPC64_TOC.

Inductive mips_cls :=
  | R_MIPS_32 | R_MIPS_REL32 | R_MIPS_26 | R_MIPS_JUMP_SLOT | R_MIPS_GLOB_DAT | R_MIPS_TLS_DTPMOD32
  | R_MIPS_TLS_TPREL32 | R_MIPS_TLS_DTPREL32 | R_MIPS_HI16 | R_MIPS_LO16 | R_MIPS_64 | R_MIPS_COPY
  | R_MIPS_TLS_DTPMOD64 | R_MIPS_TLS_DTPREL64 | R_MIPS_TLS_TPREL64.

Inductive s390x_cls :=
  | R_390_GLOB_DAT | R_390_JMP_SLOT | R_390_RELATIVE | R_390_64 | R_390_TLS_TPOFF | R_390_IRELATIVE
  | R_390_COPY.

Inductive sparc_cls :=
  | R_SPARC_HI22 | R_SPARC_WDISP30 | R_SPARC_LO10.

Inductive pe_cls :=
  | DllImport | IMAGE_REL_BASED_ABSOLUTE | IMAGE_REL_BASED_HIGHADJ | IMAGE_REL_BASED_HIGHLOW
  | IMAGE_REL_BASED_DIR64 | IMAGE_REL_BASED_HIGH | IMAGE_REL_BASED_LOW | IMAGE_REL_BASED_ARM_MOV32
  | IMAGE_REL_BASED_THUMB_MOV32 | IMAGE_REL_BASED_MIPS_JMPADDR | IMAGE_REL_BASED_MIPS_JMPADDR16
  | IMAGE_REL_BASED_RISCV_HIGH20 | IMAGE_REL_BASED_RISCV_LOW12I | IMAGE_REL_BASED_RISCV_LOW12S.

Inductive cls :=
  | Base (c : base_cls)
  | Generic (c : generic_cls)
  | AMD64 (c : amd64_cls)
  | I386 (c : i386_cls)
  | ARM (c : arm_cls)
  | ARM64 (c : arm64_cls)
  | PPC (c : ppc_cls)
  | PPC64 (c : ppc64_cls)
  | MIPS (c : mips_cls)
  | S390X (c : s390x_cls)
  | SPARC (c : sparc_cls)
  | PE (c : pe_cls).

Coercion Base : base_cls >-> cls.
Coercion Generic : generic_cls >-> cls.
Coercion AMD64 : amd64_cls >-> cls.
Coercion I386 : i386_cls >-> cls.
Coercion ARM : arm_cls >-> cls.
Coercion ARM64 : arm64_cls >-> cls.
Coercion PPC : ppc_cls >-> cls.
Coercion PPC64 : ppc64_cls >-> cls.
Coercion MIPS : mips_cls >-> cls.
Coercion S390X : s390x_cls >-> cls.
Coercion SPARC : sparc_cls >-> cls.
Coercion PE : pe_cls >-> cls.

#[export] Instance base_cls_eq_dec : EqDecision base_cls. Proof. solve_decision. Defined.
#[export] Instance generic_cls_eq_dec : EqDecision generic_cls. Proof. solve_decision. Defined.
#[export] Instance amd64_cls_eq_dec : EqDecision amd64_cls. Proof. solve_decision. Defined.
#[export] Instance i386_cls_eq_dec : EqDecision i386_cls. Proof. solve_decision. Defined.
#[export] Instance arm_cls_eq_dec : EqDecision arm_cls. Proof. solve_decision. Defined.
#[export] Instance arm64_cls_eq_dec : EqDecision arm64_cls. Proof. solve_decision. Defined.
#[export] Instance ppc_cls_eq_dec : EqDecision ppc_cls. Proof. solve_decision. Defined.
#[export] Instance ppc64_cls_eq_dec : EqDecision ppc64_cls. Proof. solve_decision. Defined.
#[export] Instance mips_cls_eq_dec : EqDecision mips_cls. Proof. solve_decision. Defined.
#[export] Instance s390x_cls_eq_dec : EqDecision s390x_cls. Proof. solve_decision. Defined.
#[export] Instance sparc_cls_eq_dec : EqDecision sparc_cls. Proof. solve_decision. Defined.
#[export] Instance pe_cls_eq_dec : EqDecision pe_cls. Proof. solve_decision. Defined.
#[export] Instance cls_eq_dec : EqDecision cls. Proof. solve_decision. Defined.

(** ** The [class] statements *)

Definition bases_generic (c : generic_cls) : list cls :=
  match c with
  | MipsGlobalReloc => [Generic GenericAbsoluteReloc]
  | RelocTruncate32Mixin | RelocGOTMixin => []
  | _ => [Base ELFReloc]
  end.

Definition bases_amd64 (c : amd64_cls) : list cls :=
  match c with
  | R_X86_64_64 => [Generic GenericAbsoluteAddendReloc]
  | R_X86_64_COPY => [Generic GenericCopyReloc]
  | R_X86_64_RELATIVE => [Generic GenericRelativeReloc]
  | R_X86_64_IRELATIVE => [Generic GenericIRelativeReloc]
  | R_X86_64_GLOB_DAT | R_X86_64_JUMP_SLOT => [Generic GenericAbsoluteReloc]
  | R_X86_64_DTPMOD64 => [Generic GenericTLSModIdReloc]
  | R_X86_64_DTPOFF64 => [Generic GenericTLSDoffsetReloc]
  | R_X86_64_TPOFF64 => [Generic GenericTLSOffsetReloc]
  | R_X86_64_PC32 | R_X86_64_PLT32 => [Generic RelocTruncate32Mixin; Generic GenericPCRelativeAddendReloc]
  | R_X86_64_32 | R_X86_64_32S => [Generic RelocTruncate32Mixin; Generic GenericAbsoluteAddendReloc]
  | R_X86_64_GOTPCREL | R_X86_64_GOTPCRELX | R_X86_64_REX_GOTPCRELX =>
      [Generic RelocGOTMixin; Generic RelocTruncate32Mixin; Generic GenericPCRelativeAddendReloc]
  end.

Definition bases_i386 (c : i386_cls) : list cls :=
  match c with
  | R_386_32 => [Generic GenericAbsoluteAddendReloc]
  | R_386_PC32 | R_386_PLT32 => [Generic GenericPCRelativeAddendReloc]
  | R_386_COPY => [Generic GenericCopyReloc]
  | R_386_GLOB_DAT | R_386_JMP_SLOT => [Generic GenericJumpslotReloc]
  | R_386_RELATIVE => [Generic GenericRelativeReloc]
  | R_386_IRELATIVE => [Generic GenericIRelativeReloc]
  | R_386_TLS_DTPMOD32 => [Generic GenericTLSModIdReloc]
  | R_386_TLS_TPOFF => [Generic GenericTLSOffsetReloc]
  | R_386_TLS_DTPOFF32 => [Generic GenericTLSDoffsetReloc]
  | R_386_GOTPC => [Generic GenericPCRelativeAddendReloc; Generic RelocGOTMixin]
  end.

Definition bases_arm (c : arm_cls) : list cls :=
  match c with
  | R_ARM_CALL | R_ARM_PREL31 | R_ARM_REL32 | R_ARM_ABS32 | R_ARM_MOVW_ABS_NC | R_ARM_MOVT_ABS |
      R_ARM_THM_CALL | R_ARM_THM_MOVW_ABS_NC | R_ARM_THM_MOVT_ABS => [Base ELFReloc]
  | R_ARM_COPY => [Generic GenericCopyReloc]
  | R_ARM_GLOB_DAT | R_ARM_JUMP_SLOT => [Generic GenericJumpslotReloc]
  | R_ARM_RELATIVE => [Generic GenericRelativeReloc]
  | R_ARM_ABS32_NOI => [Generic GenericAbsoluteAddendReloc]
  | R_ARM_REL32_NOI => [Generic GenericPCRelativeAddendReloc]
  | R_ARM_TLS_DTPMOD32 => [Generic GenericTLSModIdReloc]
  | R_ARM_TLS_DTPOFF32 => [Generic GenericTLSDoffsetReloc]
  | R_ARM_TLS_TPOFF32 => [Generic GenericTLSOffsetReloc]
  | R_ARM_JUMP24 | R_ARM_PC24 => [ARM R_ARM_CALL]
  | R_ARM_THM_JUMP24 | R_ARM_THM_JUMP19 | R_ARM_THM_JUMP6 => [ARM R_ARM_THM_CALL]
  | R_ARM_GOT_PREL =>
      [Generic GenericPCRelativeAddendReloc; Generic RelocTruncate32Mixin; Generic RelocGOTMixin]
  end.

Definition bases_arm64 (c : arm64_cls) : list cls :=
  match c with
  | R_AARCH64_ABS64 => [Generic GenericAbsoluteAddendReloc]
  | R_AARCH64_COPY => [Generic GenericCopyReloc]
  | R_AARCH64_GLOB_DAT | R_AARCH64_JUMP_SLOT => [Generic GenericJumpslotReloc]
  | R_AARCH64_RELATIVE => [Generic GenericRelativeReloc]
  | R_AARCH64_IRELATIVE => [Generic GenericIRelativeReloc]
  | R_AARCH64_TLS_DTPREL => [Generic GenericTLSDoffsetReloc]
  | R_AARCH64_TLS_DTPMOD => [Generic GenericTLSModIdReloc]
  | R_AARCH64_TLS_TPREL => [Generic GenericTLSOffsetReloc]
  | R_AARCH64_TLSDESC => [Generic GenericTLSDescriptorReloc]
  | R_AARCH64_PREL32 => [Generic RelocTruncate32Mixin; Generic GenericPCRelativeAddendReloc]
  | R_AARCH64_JUMP26 | R_AARCH64_CALL26 | R_AARCH64_ADR_PREL_PG_HI21 | R_AARCH64_ADD_ABS_LO12_NC |
      R_AARCH64_LDST8_ABS_LO12_NC | R_AARCH64_LDST16_ABS_LO12_NC | R_AARCH64_LDST32_ABS_LO12_NC |
      R_AARCH64_LDST64_ABS_LO12_NC | R_AARCH64_LDST128_ABS_LO12_NC => [Base ELFReloc]
  end.

Definition bases_ppc (c : ppc_cls) : list cls :=
  match c with
  | R_PPC_ADDR32 => [Generic GenericAbsoluteAddendReloc]
  | R_PPC_ADDR24 | R_PPC_ADDR16 | R_PPC_ADDR16_LO | R_PPC_ADDR16_HI | R_PPC_ADDR16_HA | R_PPC_ADDR14 |
      R_PPC_ADDR14_BRTAKEN | R_PPC_ADDR14_BRNTAKEN | R_PPC_REL24 | R_PPC_REL14 | R_PPC_REL14_BRTAKEN |
      R_PPC_REL14_BRNTAKEN | R_PPC_UADDR32 | R_PPC_UADDR16 | R_PPC_REL32 | R_PPC_SECTOFF | R_PPC_SECTOFF_LO
      | R_PPC_SECTOFF_HI | R_PPC_SECTOFF_HA | R_PPC_ADDR30 => [Base ELFReloc]
  | R_PPC_COPY => [Generic GenericCopyReloc]
  | R_PPC_GLOB_DAT | R_PPC_JMP_SLOT => [Generic GenericJumpslotReloc]
  | R_PPC_RELATIVE => [Generic GenericRelativeReloc]
  | R_PPC_DTPMOD32 => [Generic GenericTLSModIdReloc]
  | R_PPC_DTPREL32 => [Generic GenericTLSDoffsetReloc]
  | R_PPC_TPREL32 => [Generic GenericTLSOffsetReloc]
  end.

Definition bases_ppc64 (c : ppc64_cls) : list cls :=
  match c with
  | R_PPC64_JMP_SLOT | R_PPC64_REL24 | R_PPC64_TOC16_LO | R_PPC64_TOC16_HI | R_PPC64_TOC16_HA | R_PPC64_TOC
      => [Base ELFReloc]
  | R_PPC64_RELATIVE => [Generic GenericRelativeReloc]
  | R_PPC64_IRELATIVE => [Generic GenericIRelativeReloc]
  | R_PPC64_ADDR64 => [Generic GenericAbsoluteAddendReloc]
  | R_PPC64_GLOB_DAT => [Generic GenericJumpslotReloc]
  | R_PPC64_DTPMOD64 => [Generic GenericTLSModIdReloc]
  | R_PPC64_DTPREL64 => [Generic GenericTLSDoffsetReloc]
  | R_PPC64_TPREL64 => [Generic GenericTLSOffsetReloc]
  end.

Definition bases_mips (c : mips_cls) : list cls :=
  match c with
  | R_MIPS_32 | R_MIPS_64 => [Generic GenericAbsoluteAddendReloc]
  | R_MIPS_REL32 => [Generic GenericRelativeReloc]
  | R_MIPS_26 | R_MIPS_JUMP_SLOT | R_MIPS_GLOB_DAT | R_MIPS_HI16 | R_MIPS_LO16 => [Generic GenericAbsoluteReloc]
  | R_MIPS_TLS_DTPMOD32 | R_MIPS_TLS_DTPMOD64 => [Generic GenericTLSModIdReloc]
  | R_MIPS_TLS_TPREL32 | R_MIPS_TLS_TPREL64 => [Generic GenericTLSOffsetReloc]
  | R_MIPS_TLS_DTPREL32 | R_MIPS_TLS_DTPREL64 => [Generic GenericTLSDoffsetReloc]
  | R_MIPS_COPY => [Generic GenericCopyReloc]
  end.

Definition bases_s390x (c : s390x_cls) : list cls :=
  match c with
  | R_390_GLOB_DAT | R_390_JMP_SLOT => [Generic GenericJumpslotReloc]
  | R_390_RELATIVE => [Generic GenericRelativeReloc]
  | R_390_64 => [Generic GenericAbsoluteAddendReloc]
  | R_390_TLS_TPOFF => [Generic GenericTLSOffsetReloc]
  | R_390_IRELATIVE => [Generic GenericIRelativeReloc]
  | R_390_COPY => [Generic GenericCopyReloc]
  end.

Definition bases_sparc (c : sparc_cls) : list cls :=
  match c with
  | R_SPARC_HI22 | R_SPARC_WDISP30 | R_SPARC_LO10 => [Base ELFReloc]
  end.

Definition bases (c : cls) : list cls :=
  match c with
  | Base Relocation => []
  | Base _ => [Base Relocation]
  | Generic c => bases_generic c
  | AMD64 c => bases_amd64 c
  | I386 c => bases_i386 c
  | ARM c => bases_arm c
  | ARM64 c => bases_arm64 c
  | PPC c => bases_ppc c
  | PPC64 c => bases_ppc64 c
  | MIPS c => bases_mips c
  | S390X c => bases_s390x c
  | SPARC c => bases_sparc c
  | PE _ => [Base PEReloc]
  end.

(** ** The method resolution order *)

(** The head of the first sequence that is in the tail of none. *)
Fixpoint c3_candidate (seqs all : list (list cls)) : option cls :=
  match seqs with
  | [] => None
  | [] :: seqs => c3_candidate seqs all
  | (c :: _) :: seqs =>
      if existsb (λ s, bool_decide (c ∈ tail s)) all then c3_candidate seqs all else Some c
  end.

Definition c3_remove (c : cls) (s : list cls) : list cls :=
  match s with x :: s' => if bool_decide (x = c) then s' else s | [] => [] end.

(** [fuel] is the number of names left to place. *)
Fixpoint c3_merge (fuel : nat) (seqs : list (list cls)) : option (list cls) :=
  if forallb (λ s, bool_decide (s = [])) seqs then Some []
  else
    match fuel with
    | O => None
    | S fuel =>
        c ← c3_candidate seqs seqs;
        cs ← c3_merge fuel (c3_remove c <$> seqs);
        Some (c :: cs)
    end.

(** The classes inherit from each other to a depth of at most five. *)
Fixpoint c3 (depth : nat) (c : cls) : option (list cls) :=
  match depth with
  | O => None
  | S depth =>
      seqs ← mapM (c3 depth) (bases c);
      let seqs := seqs ++ [bases c] in
      cs ← c3_merge (length (concat seqs)) seqs;
      Some (c :: cs)
  end.

Definition mro (c : cls) : list cls := default [] (c3 5 c).

(** ** The tables *)

Definition relocation_table_amd64 (r_type : Z) : option amd64_cls :=
  match r_type with
  | 1 => Some R_X86_64_64 | 2 => Some R_X86_64_PC32 | 4 => Some R_X86_64_PLT32 | 5 => Some R_X86_64_COPY
  | 6 => Some R_X86_64_GLOB_DAT | 7 => Some R_X86_64_JUMP_SLOT | 8 => Some R_X86_64_RELATIVE
  | 9 => Some R_X86_64_GOTPCREL | 10 => Some R_X86_64_32 | 11 => Some R_X86_64_32S
  | 16 => Some R_X86_64_DTPMOD64 | 17 => Some R_X86_64_DTPOFF64 | 18 => Some R_X86_64_TPOFF64
  | 37 => Some R_X86_64_IRELATIVE | 41 => Some R_X86_64_GOTPCRELX | 42 => Some R_X86_64_REX_GOTPCRELX
  | _ => None
  end.

Definition relocation_table_i386 (r_type : Z) : option i386_cls :=
  match r_type with
  | 1 => Some R_386_32 | 2 => Some R_386_PC32 | 4 => Some R_386_PLT32 | 5 => Some R_386_COPY
  | 6 => Some R_386_GLOB_DAT | 7 => Some R_386_JMP_SLOT | 8 => Some R_386_RELATIVE
  | 10 => Some R_386_GOTPC | 14 => Some R_386_TLS_TPOFF | 35 => Some R_386_TLS_DTPMOD32
  | 36 => Some R_386_TLS_DTPOFF32 | 42 => Some R_386_IRELATIVE
  | _ => None
  end.

Definition relocation_table_arm (r_type : Z) : option arm_cls :=
  match r_type with
  | 1 => Some R_ARM_PC24 | 2 => Some R_ARM_ABS32 | 3 => Some R_ARM_REL32 | 10 => Some R_ARM_THM_CALL
  | 17 => Some R_ARM_TLS_DTPMOD32 | 18 => Some R_ARM_TLS_DTPOFF32 | 19 => Some R_ARM_TLS_TPOFF32
  | 20 => Some R_ARM_COPY | 21 => Some R_ARM_GLOB_DAT | 22 => Some R_ARM_JUMP_SLOT
  | 23 => Some R_ARM_RELATIVE | 28 => Some R_ARM_CALL | 29 => Some R_ARM_JUMP24
  | 30 => Some R_ARM_THM_JUMP24 | 42 => Some R_ARM_PREL31 | 43 => Some R_ARM_MOVW_ABS_NC
  | 44 => Some R_ARM_MOVT_ABS | 47 => Some R_ARM_THM_MOVW_ABS_NC | 48 => Some R_ARM_THM_MOVT_ABS
  | 51 => Some R_ARM_THM_JUMP19 | 52 => Some R_ARM_THM_JUMP6 | 55 => Some R_ARM_ABS32_NOI
  | 56 => Some R_ARM_REL32_NOI | 96 => Some R_ARM_GOT_PREL
  | _ => None
  end.

Definition relocation_table_arm64 (r_type : Z) : option arm64_cls :=
  match r_type with
  | 257 => Some R_AARCH64_ABS64 | 258 => Some R_AARCH64_COPY | 261 => Some R_AARCH64_PREL32
  | 275 => Some R_AARCH64_ADR_PREL_PG_HI21 | 277 => Some R_AARCH64_ADD_ABS_LO12_NC
  | 278 => Some R_AARCH64_LDST8_ABS_LO12_NC | 282 => Some R_AARCH64_JUMP26 | 283 => Some R_AARCH64_CALL26
  | 284 => Some R_AARCH64_LDST16_ABS_LO12_NC | 285 => Some R_AARCH64_LDST32_ABS_LO12_NC
  | 286 => Some R_AARCH64_LDST64_ABS_LO12_NC | 299 => Some R_AARCH64_LDST128_ABS_LO12_NC
  | 1024 => Some R_AARCH64_COPY | 1025 => Some R_AARCH64_GLOB_DAT | 1026 => Some R_AARCH64_JUMP_SLOT
  | 1027 => Some R_AARCH64_RELATIVE | 1028 => Some R_AARCH64_TLS_DTPMOD
  | 1029 => Some R_AARCH64_TLS_DTPREL | 1030 => Some R_AARCH64_TLS_TPREL | 1031 => Some R_AARCH64_TLSDESC
  | 1032 => Some R_AARCH64_IRELATIVE
  | _ => None
  end.

Definition relocation_table_ppc (r_type : Z) : option ppc_cls :=
  match r_type with
  | 1 => Some R_PPC_ADDR32 | 2 => Some R_PPC_ADDR24 | 3 => Some R_PPC_ADDR16 | 4 => Some R_PPC_ADDR16_LO
  | 5 => Some R_PPC_ADDR16_HI | 6 => Some R_PPC_ADDR16_HA | 7 => Some R_PPC_ADDR14
  | 8 => Some R_PPC_ADDR14_BRTAKEN | 9 => Some R_PPC_ADDR14_BRNTAKEN | 10 => Some R_PPC_REL24
  | 11 => Some R_PPC_REL14 | 12 => Some R_PPC_REL14_BRTAKEN | 13 => Some R_PPC_REL14_BRNTAKEN
  | 19 => Some R_PPC_COPY | 20 => Some R_PPC_GLOB_DAT | 21 => Some R_PPC_JMP_SLOT
  | 22 => Some R_PPC_RELATIVE | 24 => Some R_PPC_UADDR32 | 25 => Some R_PPC_UADDR16
  | 26 => Some R_PPC_REL32 | 33 => Some R_PPC_SECTOFF | 34 => Some R_PPC_SECTOFF_LO
  | 35 => Some R_PPC_SECTOFF_HI | 36 => Some R_PPC_SECTOFF_HA | 37 => Some R_PPC_ADDR30
  | 68 => Some R_PPC_DTPMOD32 | 73 => Some R_PPC_TPREL32 | 78 => Some R_PPC_DTPREL32
  | _ => None
  end.

Definition relocation_table_ppc64 (r_type : Z) : option ppc64_cls :=
  match r_type with
  | 10 => Some R_PPC64_REL24 | 20 => Some R_PPC64_GLOB_DAT | 21 => Some R_PPC64_JMP_SLOT
  | 22 => Some R_PPC64_RELATIVE | 38 => Some R_PPC64_ADDR64 | 48 => Some R_PPC64_TOC16_LO
  | 49 => Some R_PPC64_TOC16_HI | 50 => Some R_PPC64_TOC16_HA | 51 => Some R_PPC64_TOC
  | 68 => Some R_PPC64_DTPMOD64 | 73 => Some R_PPC64_TPREL64 | 78 => Some R_PPC64_DTPREL64
  | 248 => Some R_PPC64_IRELATIVE
  | _ => None
  end.

Definition relocation_table_mips (r_type : Z) : option mips_cls :=
  match r_type with
  | 2 => Some R_MIPS_32 | 3 => Some R_MIPS_REL32 | 4 => Some R_MIPS_26 | 5 => Some R_MIPS_HI16
  | 6 => Some R_MIPS_LO16 | 18 => Some R_MIPS_64 | 38 => Some R_MIPS_TLS_DTPMOD32
  | 39 => Some R_MIPS_TLS_DTPREL32 | 40 => Some R_MIPS_TLS_DTPMOD64 | 41 => Some R_MIPS_TLS_DTPREL64
  | 47 => Some R_MIPS_TLS_TPREL32 | 48 => Some R_MIPS_TLS_TPREL64 | 51 => Some R_MIPS_GLOB_DAT
  | 126 => Some R_MIPS_COPY | 127 => Some R_MIPS_JUMP_SLOT
  | _ => None
  end.

Definition relocation_table_s390x (r_type : Z) : option s390x_cls :=
  match r_type with
  | 9 => Some R_390_COPY | 10 => Some R_390_GLOB_DAT | 11 => Some R_390_JMP_SLOT
  | 12 => Some R_390_RELATIVE | 22 => Some R_390_64 | 56 => Some R_390_TLS_TPOFF
  | 61 => Some R_390_IRELATIVE
  | _ => None
  end.

Definition relocation_table_sparc (r_type : Z) : option sparc_cls :=
  match r_type with
  | 7 => Some R_SPARC_WDISP30 | 9 => Some R_SPARC_HI22 | 12 => Some R_SPARC_LO10
  | _ => None
  end.

(** A dict with integer keys, [d1 | d2] of two of them, and one whose values are
    dicts. *)
Definition table : Type := Z → option cls.

Definition amend (d1 d2 : table) : table := λ t, match d2 t with Some c => Some c | None => d1 t end.

Fixpoint table_of (tables : list (string * table)) (arch : string) : option table :=
  match tables with
  | [] => None
  | (name, d) :: tables => if String.eqb name arch then Some d else table_of tables arch
  end.

Definition ALL_RELOCATIONS : list (string * table) :=
  [("AMD64", λ t, AMD64 <$> relocation_table_amd64 t);
   ("ARMCortexM", λ t, ARM <$> relocation_table_arm t);
   ("ARM", λ t, ARM <$> relocation_table_arm t);
   ("AARCH64", λ t, ARM64 <$> relocation_table_arm64 t);
   ("ARMEL", λ t, ARM <$> relocation_table_arm t);
   ("ARMHF", λ t, ARM <$> relocation_table_arm t);
   ("X86", λ t, I386 <$> relocation_table_i386 t);
   ("MIPS32", λ t, MIPS <$> relocation_table_mips t);
   ("MIPS64", λ t, MIPS <$> relocation_table_mips t);
   ("MIPSN32", λ t, MIPS <$> relocation_table_mips t);
   ("PPC32", λ t, PPC <$> relocation_table_ppc t);
   ("PPC64", λ t, PPC64 <$> relocation_table_ppc64 t);
   ("S390X", λ t, S390X <$> relocation_table_s390x t);
   ("sparc:BE:32:default", λ t, SPARC <$> relocation_table_sparc t)]%string.

(** The warning for an unknown type is not modelled. *)
Definition get_relocation (arch : string) (r_type : Z) : option cls :=
  if r_type =? 0 then None else d ← table_of ALL_RELOCATIONS arch; d r_type.

(** *** Portable executables *)

Module PETables.

Definition relocation_table_generic (r_type : Z) : option pe_cls :=
  match r_type with
  | 1 => Some IMAGE_REL_BASED_HIGH | 2 => Some IMAGE_REL_BASED_LOW | 3 => Some IMAGE_REL_BASED_HIGHLOW
  | 4 => Some IMAGE_REL_BASED_HIGHADJ | 10 => Some IMAGE_REL_BASED_DIR64
  | _ => None
  end.

Definition relocation_table_arm (r_type : Z) : option pe_cls :=
  match r_type with
  | 5 => Some IMAGE_REL_BASED_ARM_MOV32 | 7 => Some IMAGE_REL_BASED_THUMB_MOV32
  | _ => None
  end.

Definition relocation_table_mips (r_type : Z) : option pe_cls :=
  match r_type with
  | 5 => Some IMAGE_REL_BASED_MIPS_JMPADDR | 9 => Some IMAGE_REL_BASED_MIPS_JMPADDR16
  | _ => None
  end.

Definition relocation_table_riscv (r_type : Z) : option pe_cls :=
  match r_type with
  | 5 => Some IMAGE_REL_BASED_RISCV_HIGH20 | 7 => Some IMAGE_REL_BASED_RISCV_LOW12I
  | 8 => Some IMAGE_REL_BASED_RISCV_LOW12S
  | _ => None
  end.

Definition generic : table := λ t, PE <$> relocation_table_generic t.

Definition ALL_RELOCATIONS : list (string * table) :=
  [("AARCH64", generic);
   ("AMD64", generic);
   ("ARMCortexM", amend generic (λ t, PE <$> relocation_table_arm t));
   ("ARMEL", amend generic (λ t, PE <$> relocation_table_arm t));
   ("ARMHF", amend generic (λ t, PE <$> relocation_table_arm t));
   ("MIPS32", amend generic (λ t, PE <$> relocation_table_mips t));
   ("PPC32", generic);
   ("RISCV64", amend generic (λ t, PE <$> relocation_table_riscv t));
   ("X86", generic)]%string.

Definition get_relocation (arch : string) (r_type : Z) : option cls :=
  if r_type =? 0 then None else d ← table_of ALL_RELOCATIONS arch; d r_type.

End PETables.

End RelocClasses.
