(* ===== verification/Relocation.v ===== *)
(** * Relocations of loaded objects

    [cle/backends/relocation.py], [symbol.py], [cle/address_translator.py] and
    the classes of [cle/backends/elf/relocation/] and
    [cle/backends/pe/relocation/].  Backends, symbols and relocations refer to
    each other, and change each other, so they are cells of a [world], named by
    their position; the memories of the backends are trees of [Clemory] over one
    store of buffers.  Methods run in a state monad with exceptions, and a call
    is dispatched along the method resolution order of [RelocClasses]. *)

From Stdlib Require Import ZArith Lia Bool Ascii String.
From stdpp Require Import base tactics list numbers strings gmap.
From S2P Require Import Prelude Clemory RelocCode RelocClasses.
Import Clemory RelocCode RelocClasses.
Open Scope list_scope.

Module Relocs.

(** ** Objects *)

Inductive SymbolType :=
  | TYPE_OTHER | TYPE_NONE | TYPE_FUNCTION | TYPE_OBJECT | TYPE_SECTION | TYPE_TLS_OBJECT
  | TYPE_FUNCTION_OR_OBJECT.

#[export] Instance SymbolType_eq_dec : EqDecision SymbolType.
Proof. solve_decision. Defined.

(** A [Symbol], with the attributes of a [WinSymbol]. *)
Record Symbol := mkSymbol {
  s_owner : nat;
  s_name : string;
  s_relative_addr : Z;
  s_size : Z;
  s_type : SymbolType;
  is_static : bool;
  s_is_import : bool;
  is_export : bool;
  is_local : bool;
  is_weak : bool;
  is_extern : bool;
  is_windows : bool;
  forwarder : option string;
  s_resolved : bool;
  s_resolvedby : option nat }.

(** The attributes of [archinfo.Arch]; [tp_offset] is that of [elf_tls], when
    the architecture has one. *)
Record Machine := mkMachine { a_name : string; a_bits : Z; a_word : Arch; tp_offset : option Z }.

(** A [Backend].  [_dynamic] and [tls_block_offset] are attributes of ELF
    objects only: without one, reading it raises [AttributeError]. *)
Record Backend := mkBackend {
  o_arch : Machine;
  memory : clemory;
  provides : option string;
  linked_base : Z;
  mapped_base : Z;
  is_mapped : bool;
  pic : bool;
  relocs : list nat;
  imports : gmap string nat;
  jmprel : gmap string nat;
  resolved_imports : list nat;
  irelatives : list (Z * Z);
  extern_size_hints : gmap string Z;
  _dynamic : option (gmap string Z);
  tls_block_offset : option (option Z);
  tls_module_id : option Z;
  is_ppc64_abiv1 : bool;
  ppc64_initial_rtoc : option Z }.

(** A [Relocation], with the attributes the subclasses add: [is_rela] and
    [_addend] of [ELFReloc] ([_addend] also holds the addend of a
    [SimDataSimpleRelocation] and the [val] of an [InternalTLSRelocation]),
    [_insn_bytes] of [R_ARM_THM_CALL], [next_rva] of [IMAGE_REL_BASED_HIGHADJ]. *)
Record Reloc := mkReloc {
  r_cls : cls;
  r_owner : nat;
  r_symbol : option nat;
  r_relative_addr : Z;
  r_resolvedby : option nat;
  r_resolved : bool;
  resolvewith : option string;
  is_rela : bool;
  _addend : option Z;
  _insn_bytes : option (list Z);
  next_rva : Z;
  preresolved : bool }.

Record world := mkWorld {
  store_of : heap;
  backends : list Backend;
  symbols : list Symbol;
  relocations : list Reloc }.

(** ** The monad of methods *)

Definition M (A : Type) : Type := world → world * result A.

#[export] Instance M_ret : MRet M := λ A a w, (w, Ok a).
#[export] Instance M_bind : MBind M :=
  λ A B f m w, match m w with (w, Ok a) => f a w | (w, Err e) => (w, Err e) end.

Definition raise {A} (e : exn) : M A := λ w, (w, Err e).
Definition lift {A} (r : result A) : M A := λ w, (w, r).
Definition get : M world := λ w, (w, Ok w).
Definition put (w : world) : M unit := λ _, (w, Ok tt).

(** An attribute of [None] does not exist. *)
Definition some {A} (o : option A) : M A :=
  match o with Some a => mret a | None => raise AttributeError end.

Definition backend (o : nat) : M Backend := w ← get; some (backends w !! o).
Definition symbol (s : nat) : M Symbol := w ← get; some (symbols w !! s).
Definition reloc (r : nat) : M Reloc := w ← get; some (relocations w !! r).

Definition set_backend (o : nat) (b : Backend) : M unit :=
  w ← get; put (mkWorld (store_of w) (<[o := b]> (backends w)) (symbols w) (relocations w)).
Definition set_symbol (s : nat) (x : Symbol) : M unit :=
  w ← get; put (mkWorld (store_of w) (backends w) (<[s := x]> (symbols w)) (relocations w)).
Definition set_reloc (r : nat) (x : Reloc) : M unit :=
  w ← get; put (mkWorld (store_of w) (backends w) (symbols w) (<[r := x]> (relocations w))).
Definition set_store (h : heap) : M unit :=
  w ← get; put (mkWorld h (backends w) (symbols w) (relocations w)).

(** *** The memory of a backend *)

Definition base_of (b : Backend) : ClemoryBase := as_base (a_word (o_arch b)) (memory b).

Definition mem_load (o : nat) (addr n : Z) : M (list Z) :=
  b ← backend o; w ← get; lift (b_load (base_of b) (store_of w) addr n).

Definition mem_store (o : nat) (addr : Z) (data : list Z) : M unit :=
  b ← backend o; w ← get;
  let '(h, r) := b_store (base_of b) (store_of w) addr data in
  _ ← set_store h; lift r.

Definition mem_unpack_word (o : nat) (addr : Z) (size : option Z) : M Z :=
  b ← backend o; w ← get; lift (unpack_word (base_of b) (store_of w) addr size false None).

Definition mem_pack_word (o : nat) (addr data : Z) (size : option Z) : M unit :=
  b ← backend o; w ← get;
  let '(h, r) := pack_word (base_of b) (store_of w) addr data size false None in
  _ ← set_store h; lift r.

(** ** Addresses *)

Module AddressTranslator.

Record AT := mkAT { _rva : Z; _owner : Backend }.

Definition from_lva (lva : Z) (owner : Backend) : AT := mkAT (lva - linked_base owner) owner.
Definition from_mva (mva : Z) (owner : Backend) : AT := mkAT (mva - mapped_base owner) owner.
Definition from_rva (rva : Z) (owner : Backend) : AT := mkAT rva owner.
(** [offset_to_addr] and [addr_to_offset] are methods of the backend: [None] for
    what is not in a region. *)
Definition from_raw (offset_to_addr : Z → option Z) (raw : Z) (owner : Backend) : result AT :=
  match offset_to_addr raw with
  | None => Err TypeError
  | Some addr => Ok (mkAT (addr - (if is_mapped owner then mapped_base owner else linked_base owner)) owner)
  end.

Definition to_lva (a : AT) : Z := _rva a + linked_base (_owner a).
Definition to_mva (a : AT) : Z := _rva a + mapped_base (_owner a).
Definition to_rva (a : AT) : Z := _rva a.
Definition to_raw (addr_to_offset : Z → option Z) (a : AT) : option Z :=
  addr_to_offset (_rva a + (if is_mapped (_owner a) then mapped_base (_owner a) else linked_base (_owner a))).

End AddressTranslator.
Import AddressTranslator.

(** ** [Symbol] *)

Definition is_function (s : Symbol) : bool :=
  bool_decide (s_type s = TYPE_FUNCTION) || bool_decide (s_type s = TYPE_FUNCTION_OR_OBJECT).

Definition symbol_rebased_addr (s : nat) : M Z :=
  x ← symbol s; b ← backend (s_owner x); mret (to_mva (from_rva (s_relative_addr x) b)).

Definition symbol_linked_addr (s : nat) : M Z :=
  x ← symbol s; b ← backend (s_owner x); mret (to_lva (from_rva (s_relative_addr x) b)).

Definition set_symbol_resolution (x : Symbol) (resolved : bool) (resolvedby : option nat) : Symbol :=
  mkSymbol (s_owner x) (s_name x) (s_relative_addr x) (s_size x) (s_type x) (is_static x) (s_is_import x)
    (is_export x) (is_local x) (is_weak x) (is_extern x) (is_windows x) (forwarder x) resolved resolvedby.

Definition add_resolved_import (b : Backend) (s : nat) : Backend :=
  mkBackend (o_arch b) (memory b) (provides b) (linked_base b) (mapped_base b) (is_mapped b) (pic b) (relocs b)
    (imports b) (jmprel b) (resolved_imports b ++ [s]) (irelatives b) (extern_size_hints b) (_dynamic b)
    (tls_block_offset b) (tls_module_id b) (is_ppc64_abiv1 b) (ppc64_initial_rtoc b).

Definition symbol_resolve (s : nat) (obj : option nat) : M unit :=
  x ← symbol s;
  _ ← set_symbol s (set_symbol_resolution x true obj);
  b ← backend (s_owner x);
  set_backend (s_owner x) (add_resolved_import b s).

(** ** What the loader provides

    The lookups of a backend by name, the search for the object of a name, and
    [ExternObject.make_extern]. *)

Record extern_request := mkRequest {
  x_name : string;
  x_size : Z;
  x_type : SymbolType;
  x_thumb : bool;
  x_point_to : option nat }.

Class Linker := {
  get_symbol : nat → string → M (option nat);
  find_object : string → M (option nat);
  make_extern : nat → extern_request → M nat }.

(** [s.split(".", 1)]: the parts around the first dot. *)
Fixpoint split_dot (s : string) : option (string * string) :=
  match s with
  | EmptyString => None
  | String c s =>
      if Ascii.eqb c "." then Some (EmptyString, s)
      else '(a, b) ← split_dot s; Some (String c a, b)
  end.

Section forwarders.
Context `{Linker}.

(** How the loop ends: with what it arrived at, or by the early [return None]. *)
Inductive forwarding := Arrived (sym : option nat) | GaveUp | OutOfFuel.

(** The [while] loop of [WinSymbol.resolve_forwarder]: [seen] grows with every
    round, and the strings that can get into it are the forwarders of the
    symbols there are. *)
Fixpoint forward_loop (fuel : nat) (seen : list string) (sym : option nat) : M forwarding :=
  match fuel with
  | O => mret OutOfFuel
  | S fuel =>
      match sym with
      | None => mret (Arrived None)
      | Some s =>
          x ← symbol s;
          match forwarder x with
          | None => mret (Arrived (Some s))
          | Some fwd =>
              if bool_decide (fwd ∈ seen) then mret GaveUp
              else
                match split_dot fwd with
                | None => raise ValueError
                | Some (owner_name, name) =>
                    owner ← find_object owner_name;
                    match owner with
                    | None => mret GaveUp
                    | Some o => sym ← get_symbol o name; forward_loop fuel (fwd :: seen) sym
                    end
                end
          end
      end
  end.

(** A [Symbol] that is no [WinSymbol] answers itself.  The early [return None]
    leaves [resolvedby] alone.  The fuel is never used up. *)
Definition resolve_forwarder (self : nat) : M (option nat) :=
  x ← symbol self;
  if negb (is_windows x) then mret (Some self) else
  match s_resolvedby x with
  | Some s => mret (Some s)
  | None =>
      w ← get;
      sym ← forward_loop (S (S (length (symbols w)))) [] (Some self);
      match sym with
      | OutOfFuel => raise RecursionError
      | GaveUp => mret None
      | Arrived sym =>
          x ← symbol self;
          _ ← set_symbol self (set_symbol_resolution x (s_resolved x) sym);
          mret sym
      end
  end.
End forwarders.

(** ** Attributes of a relocation *)

Definition set_resolution (x : Reloc) (resolvedby : option nat) (resolved : bool) : Reloc :=
  mkReloc (r_cls x) (r_owner x) (r_symbol x) (r_relative_addr x) resolvedby resolved (resolvewith x)
    (is_rela x) (_addend x) (_insn_bytes x) (next_rva x) (preresolved x).

Definition set_insn_bytes (x : Reloc) (bs : list Z) : Reloc :=
  mkReloc (r_cls x) (r_owner x) (r_symbol x) (r_relative_addr x) (r_resolvedby x) (r_resolved x)
    (resolvewith x) (is_rela x) (_addend x) (Some bs) (next_rva x) (preresolved x).

Definition set_addend (x : Reloc) (addend : Z) : Reloc :=
  mkReloc (r_cls x) (r_owner x) (r_symbol x) (r_relative_addr x) (r_resolvedby x) (r_resolved x)
    (resolvewith x) (is_rela x) (Some addend) (_insn_bytes x) (next_rva x) (preresolved x).

Definition owner (self : nat) : M Backend := x ← reloc self; backend (r_owner x).

(** [self.symbol], and [self.resolvedby], when they are used. *)
Definition the_symbol (self : nat) : M Symbol := x ← reloc self; s ← some (r_symbol x); symbol s.

Definition rebased_addr (self : nat) : M Z :=
  x ← reloc self; b ← backend (r_owner x); mret (to_mva (from_rva (r_relative_addr x) b)).

Definition linked_addr (self : nat) : M Z :=
  x ← reloc self; b ← backend (r_owner x); mret (to_lva (from_rva (r_relative_addr x) b)).

Definition dest_addr (self : nat) : M Z := x ← reloc self; mret (r_relative_addr x).

(** [self.resolvedby.rebased_addr], the [S] of the documentation. *)
Definition target (self : nat) : M Z := x ← reloc self; s ← some (r_resolvedby x); symbol_rebased_addr s.

(** [ELFReloc.addend]. *)
Definition addend (self : nat) : M Z :=
  x ← reloc self;
  match _addend x with
  | Some a => mret a
  | None =>
      a ← mem_unpack_word (r_owner x) (r_relative_addr x) None;
      _ ← set_reloc self (set_addend x a);
      mret a
  end.

(** [_isThumbFunc(self.symbol, addr)]. *)
Definition _isThumbFunc (self : nat) (addr : Z) : M bool :=
  if addr mod 2 =? 1 then s ← the_symbol self; mret (is_function s) else mret false.

(** [AT.from_lva(lva, self.owner).to_mva()]. *)
Definition lva_to_mva (self : nat) (lva : Z) : M Z := b ← owner self; mret (to_mva (from_lva lva b)).

(** ** Values

    What [value] answers: a number, bytes, or [None]. *)

Inductive pyval := VInt (v : Z) | VBytes (bs : list Z) | VNone.

Definition number (v : pyval) : M Z := match v with VInt v => mret v | _ => raise TypeError end.

(** *** [elf/relocation/generic.py] *)

Definition GenericTLSDoffsetReloc_value (self : nat) : M pyval :=
  A ← addend self; s ← the_symbol self; mret (VInt (A + s_relative_addr s)).

Definition GenericAbsoluteAddendReloc_value (self : nat) : M pyval :=
  S ← target self; A ← addend self; mret (VInt (S + A)).

Definition GenericPCRelativeAddendReloc_value (self : nat) : M pyval :=
  S ← target self; A ← addend self; P ← rebased_addr self; mret (VInt (S + A - P)).

Definition GenericJumpslotReloc_value (self : nat) : M pyval :=
  x ← reloc self;
  if is_rela x then S ← target self; A ← addend self; mret (VInt (S + A))
  else S ← target self; mret (VInt S).

Definition GenericRelativeReloc_value (self : nat) : M pyval :=
  x ← reloc self;
  match r_resolvedby x with
  | Some s => S ← symbol_rebased_addr s; mret (VInt S)
  | None => A ← addend self; v ← lva_to_mva self A; mret (VInt v)
  end.

Definition GenericAbsoluteReloc_value (self : nat) : M pyval := S ← target self; mret (VInt S).

(** *** [elf/relocation/arm.py] *)

Definition R_ARM_CALL_value (self : nat) : M pyval :=
  P ← rebased_addr self; A ← addend self; S ← target self; T ← _isThumbFunc self S;
  _ ← the_symbol self; mret (VInt (Arm.R_ARM_CALL P A S T)).

Definition R_ARM_PREL31_value (self : nat) : M pyval :=
  P ← rebased_addr self; A ← addend self; S ← target self; T ← _isThumbFunc self S;
  _ ← the_symbol self; mret (VInt (Arm.R_ARM_PREL31 P A S T)).

Definition R_ARM_REL32_value (self : nat) : M pyval :=
  P ← rebased_addr self; A ← addend self; S ← target self; T ← _isThumbFunc self S;
  _ ← the_symbol self; mret (VInt (Arm.R_ARM_REL32 P A S T)).

Definition R_ARM_ABS32_value (self : nat) : M pyval :=
  A ← addend self; S ← target self; T ← _isThumbFunc self S;
  _ ← the_symbol self; mret (VInt (Arm.R_ARM_ABS32 A S T)).

Definition R_ARM_MOVW_ABS_NC_value (self : nat) : M pyval :=
  inst ← addend self; S ← target self; T ← _isThumbFunc self S;
  _ ← the_symbol self; mret (VInt (Arm.R_ARM_MOVW_ABS_NC inst S T)).

Definition R_ARM_MOVT_ABS_value (self : nat) : M pyval :=
  inst ← addend self; S ← target self;
  _ ← _isThumbFunc self S; _ ← the_symbol self; mret (VInt (Arm.R_ARM_MOVT_ABS inst S)).

(** The instruction is read once and kept. *)
Definition R_ARM_THM_CALL_value (self : nat) : M pyval :=
  P ← rebased_addr self; S ← target self; T ← _isThumbFunc self S;
  x ← reloc self;
  bs ← match _insn_bytes x with
       | Some bs => mret bs
       | None =>
           bs ← mem_load (r_owner x) (r_relative_addr x) 4;
           _ ← set_reloc self (set_insn_bytes x bs);
           mret bs
       end;
  rela ← (if is_rela x then A ← addend self; mret (Some A) else mret None);
  _ ← the_symbol self;
  mret (VInt (Arm.R_ARM_THM_CALL bs rela P S T)).

Definition R_ARM_THM_MOVW_ABS_NC_value (self : nat) : M pyval :=
  x ← reloc self;
  bs ← mem_load (r_owner x) (r_relative_addr x) 4;
  S ← target self; T ← _isThumbFunc self S;
  _ ← the_symbol self; mret (VInt (Arm.R_ARM_THM_MOVW_ABS_NC bs S T)).

Definition R_ARM_THM_MOVT_ABS_value (self : nat) : M pyval :=
  x ← reloc self;
  bs ← mem_load (r_owner x) (r_relative_addr x) 4;
  S ← target self;
  _ ← the_symbol self; mret (VInt (Arm.R_ARM_THM_MOVT_ABS bs S)).

(** *** [elf/relocation/arm64.py] *)

(** [S + A - P] of [R_AARCH64_JUMP26] and [R_AARCH64_CALL26]. *)
Definition branch26_value (self : nat) : M pyval :=
  A ← addend self; S ← target self; P ← rebased_addr self; mret (VInt (S + A - P)).

Definition R_AARCH64_ADR_PREL_PG_HI21_value (self : nat) : M pyval :=
  A ← addend self; S ← target self; P ← rebased_addr self; mret (VInt (Arm64.page_offset P A S)).

(** [S + A] of the [*_ABS_LO12_NC] classes, and of [R_PPC_ADDR16] and
    [R_PPC_UADDR*]. *)
Definition absolute_value (self : nat) : M pyval :=
  A ← addend self; S ← target self; mret (VInt (S + A)).

(** *** [elf/relocation/ppc.py] *)

Definition R_PPC_ADDR24_value (self : nat) : M pyval :=
  A ← addend self; S ← target self; mret (VInt (Ppc.address_word A S)).

Definition R_PPC_ADDR16_LO_value (self : nat) : M pyval :=
  A ← addend self; S ← target self; mret (VInt (Ppc.lo (S + A))).

Definition R_PPC_ADDR16_HI_value (self : nat) : M pyval :=
  A ← addend self; S ← target self; mret (VInt (Ppc.hi (S + A))).

Definition R_PPC_ADDR16_HA_value (self : nat) : M pyval :=
  A ← addend self; S ← target self; mret (VInt (Ppc.ha (S + A))).

Definition R_PPC_REL24_value (self : nat) : M pyval :=
  A ← addend self; S ← target self; P ← rebased_addr self; mret (VInt (Ppc.R_PPC_REL24 P A S)).

Definition R_PPC_REL14_value (self : nat) : M pyval :=
  A ← addend self; S ← target self; P ← rebased_addr self; mret (VInt (Ppc.R_PPC_REL14 P A S)).

Definition R_PPC_REL32_value (self : nat) : M pyval :=
  P ← rebased_addr self; A ← addend self; S ← target self;
  mret (VInt (Z.land (S + A - P) Ppc.PPC_WORD32)).

(** [R + A], with an operator of [half16] fields. *)
Definition R_PPC_SECTOFF_value (operator : Z → Z) (self : nat) : M pyval :=
  R ← dest_addr self; A ← addend self; mret (VInt (operator (R + A))).

Definition R_PPC_ADDR30_value (self : nat) : M pyval :=
  S ← target self; A ← addend self; P ← rebased_addr self; mret (VInt (Z.shiftr (S + A - P) 2)).

(** *** [elf/relocation/ppc64.py] *)

Definition R_PPC64_REL24_value (self : nat) : M pyval :=
  A ← addend self; S ← target self; P ← rebased_addr self; mret (VInt (Z.shiftr (S + A - P) 2)).

(** [S + A - .TOC.], or [S + A] when the object has no [.TOC.]. *)
Definition toc_offset (self : nat) : M Z :=
  A ← addend self; S ← target self; b ← owner self;
  mret (match ppc64_initial_rtoc b with None => S + A | Some TOC => S + A - TOC end).

Definition R_PPC64_TOC16_LO_value (self : nat) : M pyval := x ← toc_offset self; mret (VInt (Ppc.lo x)).
Definition R_PPC64_TOC16_HI_value (self : nat) : M pyval := x ← toc_offset self; mret (VInt (Ppc.hi x)).
Definition R_PPC64_TOC16_HA_value (self : nat) : M pyval := x ← toc_offset self; mret (VInt (Ppc.ha x)).

Definition R_PPC64_TOC_value (self : nat) : M pyval :=
  b ← owner self; mret (VInt (default 0 (ppc64_initial_rtoc b))).

(** *** [elf/relocation/sparc.py] *)

(** [int.from_bytes(self.owner.memory.load(self.relative_addr, 4), "big")]. *)
Definition sparc_instr (self : nat) : M Z :=
  x ← reloc self; bs ← mem_load (r_owner x) (r_relative_addr x) 4; mret (int_from_bytes bs true false).

Definition R_SPARC_HI22_value (self : nat) : M pyval :=
  S ← target self; A ← addend self; i ← sparc_instr self; mret (VInt (Sparc.R_SPARC_HI22 i A S)).

Definition R_SPARC_WDISP30_value (self : nat) : M pyval :=
  S ← target self; A ← addend self; P ← rebased_addr self; i ← sparc_instr self;
  mret (VInt (Sparc.R_SPARC_WDISP30 i P A S)).

Definition R_SPARC_LO10_value (self : nat) : M pyval :=
  S ← target self; A ← addend self; i ← sparc_instr self; mret (VInt (Sparc.R_SPARC_LO10 i A S)).

(** *** [pe/relocation/] *)

(** [struct.unpack] and [struct.pack] of unsigned little-endian integers. *)
Definition struct_unpack (n : Z) (bs : list Z) : result Z :=
  if len bs =? n then Ok (int_from_bytes bs false false) else Err StructError.

Definition struct_pack (n v : Z) : result (list Z) :=
  if fits v n false then int_to_bytes v n false false else Err StructError.

(** The word of [n] bytes at the fixup site. *)
Definition fixup_word (self : nat) (n : Z) : M Z :=
  x ← reloc self; bs ← mem_load (r_owner x) (r_relative_addr x) n; lift (struct_unpack n bs).

Definition PEReloc_value (self : nat) : M pyval :=
  x ← reloc self;
  match r_symbol x with
  | None => mret VNone
  | Some _ => if r_resolved x then S ← target self; mret (VInt S) else mret VNone
  end.

Definition IMAGE_REL_BASED_HIGHADJ_value (self : nat) : M pyval :=
  org_value ← fixup_word self 2;
  x ← reloc self;
  let adjusted_value := Z.shiftl org_value 16 + next_rva x in
  v ← lva_to_mva self adjusted_value;
  let adjusted_value := Z.shiftr (Z.land v 0xFFFF0000) 16 in
  bs ← lift (struct_pack 4 adjusted_value);
  mret (VBytes bs).

Definition IMAGE_REL_BASED_HIGHLOW_value (self : nat) : M pyval :=
  org_value ← fixup_word self 4;
  rebased_value ← lva_to_mva self org_value;
  bs ← lift (struct_pack 4 (Z.land rebased_value 0xFFFFFFFF));
  mret (VBytes bs).

Definition IMAGE_REL_BASED_DIR64_value (self : nat) : M pyval :=
  org_value ← fixup_word self 8;
  rebased_value ← lva_to_mva self org_value;
  if (rebased_value <? 0) || (0x10000000000000000 <=? rebased_value) then mret VNone
  else bs ← lift (struct_pack 8 rebased_value); mret (VBytes bs).

Definition IMAGE_REL_BASED_HIGH_value (self : nat) : M pyval :=
  org_value ← fixup_word self 2;
  rebased_value ← lva_to_mva self org_value;
  bs ← lift (struct_pack 2 (Z.land (Z.shiftr rebased_value 16) 0xFFFF));
  mret (VBytes bs).

Definition IMAGE_REL_BASED_LOW_value (self : nat) : M pyval :=
  org_value ← fixup_word self 2;
  rebased_value ← lva_to_mva self org_value;
  bs ← lift (struct_pack 2 (Z.land rebased_value 0xFFFF));
  mret (VBytes bs).

Definition IMAGE_REL_BASED_THUMB_MOV32_value (self : nat) : M pyval :=
  x ← reloc self;
  org_bytes ← mem_load (r_owner x) (r_relative_addr x) 8;
  if negb (len org_bytes =? 8) then raise StructError else
  let movw := int_from_bytes (py_slice org_bytes 0 4) false false in
  let movt := int_from_bytes (py_slice org_bytes 4 8) false false in
  let org_value := Z.lor (Z.shiftl (Pe._thumb_mov_imm16 movt) 16) (Pe._thumb_mov_imm16 movw) in
  rebased_value ← lva_to_mva self org_value;
  w ← lift (struct_pack 4 (Pe._thumb_mov_set_imm16 movw (Z.land rebased_value 0xFFFF)));
  t ← lift (struct_pack 4 (Pe._thumb_mov_set_imm16 movt (Z.land (Z.shiftr rebased_value 16) 0xFFFF)));
  mret (VBytes (w ++ t)).

(** *** The other relocations *)

Definition InternalTLSRelocation_value (self : nat) : M pyval :=
  x ← reloc self; v ← some (_addend x); b ← owner self; mret (VInt (v + mapped_base b)).

Definition SimDataSimpleRelocation_value (self : nat) : M pyval :=
  S ← target self; x ← reloc self; A ← some (_addend x); mret (VInt (S + A)).

(** [value] as a class defines it, if it does. *)
Definition own_value (c : cls) : option (nat → M pyval) :=
  match c with
  | Base Relocation | Base ELFReloc => Some (λ _, mret (VInt 0))
  | Base PEReloc => Some PEReloc_value
  | Base TOCRelocation => Some GenericAbsoluteReloc_value
  | Base SimDataSimpleRelocation => Some SimDataSimpleRelocation_value
  | Base InternalTLSRelocation => Some InternalTLSRelocation_value
  | Generic GenericTLSDoffsetReloc => Some GenericTLSDoffsetReloc_value
  | Generic GenericAbsoluteAddendReloc => Some GenericAbsoluteAddendReloc_value
  | Generic GenericPCRelativeAddendReloc => Some GenericPCRelativeAddendReloc_value
  | Generic GenericJumpslotReloc => Some GenericJumpslotReloc_value
  | Generic GenericRelativeReloc => Some GenericRelativeReloc_value
  | Generic GenericAbsoluteReloc => Some GenericAbsoluteReloc_value
  | ARM R_ARM_CALL => Some R_ARM_CALL_value
  | ARM R_ARM_PREL31 => Some R_ARM_PREL31_value
  | ARM R_ARM_REL32 => Some R_ARM_REL32_value
  | ARM R_ARM_ABS32 => Some R_ARM_ABS32_value
  | ARM R_ARM_MOVW_ABS_NC => Some R_ARM_MOVW_ABS_NC_value
  | ARM R_ARM_MOVT_ABS => Some R_ARM_MOVT_ABS_value
  | ARM R_ARM_THM_CALL => Some R_ARM_THM_CALL_value
  | ARM R_ARM_THM_MOVW_ABS_NC => Some R_ARM_THM_MOVW_ABS_NC_value
  | ARM R_ARM_THM_MOVT_ABS => Some R_ARM_THM_MOVT_ABS_value
  | ARM64 R_AARCH64_JUMP26 | ARM64 R_AARCH64_CALL26 => Some branch26_value
  | ARM64 R_AARCH64_ADR_PREL_PG_HI21 => Some R_AARCH64_ADR_PREL_PG_HI21_value
  | ARM64 R_AARCH64_ADD_ABS_LO12_NC | ARM64 R_AARCH64_LDST8_ABS_LO12_NC
  | ARM64 R_AARCH64_LDST16_ABS_LO12_NC | ARM64 R_AARCH64_LDST32_ABS_LO12_NC
  | ARM64 R_AARCH64_LDST64_ABS_LO12_NC | ARM64 R_AARCH64_LDST128_ABS_LO12_NC => Some absolute_value
  | PPC R_PPC_ADDR24 | PPC R_PPC_ADDR14 | PPC R_PPC_ADDR14_BRTAKEN | PPC R_PPC_ADDR14_BRNTAKEN =>
      Some R_PPC_ADDR24_value
  | PPC R_PPC_ADDR16 | PPC R_PPC_UADDR32 | PPC R_PPC_UADDR16 => Some absolute_value
  | PPC R_PPC_ADDR16_LO => Some R_PPC_ADDR16_LO_value
  | PPC R_PPC_ADDR16_HI => Some R_PPC_ADDR16_HI_value
  | PPC R_PPC_ADDR16_HA => Some R_PPC_ADDR16_HA_value
  | PPC R_PPC_REL24 => Some R_PPC_REL24_value
  | PPC R_PPC_REL14 | PPC R_PPC_REL14_BRTAKEN | PPC R_PPC_REL14_BRNTAKEN => Some R_PPC_REL14_value
  | PPC R_PPC_REL32 => Some R_PPC_REL32_value
  | PPC R_PPC_SECTOFF => Some (R_PPC_SECTOFF_value id)
  | PPC R_PPC_SECTOFF_LO => Some (R_PPC_SECTOFF_value Ppc.lo)
  | PPC R_PPC_SECTOFF_HI => Some (R_PPC_SECTOFF_value Ppc.hi)
  | PPC R_PPC_SECTOFF_HA => Some (R_PPC_SECTOFF_value Ppc.ha)
  | PPC R_PPC_ADDR30 => Some R_PPC_ADDR30_value
  | PPC64 R_PPC64_REL24 => Some R_PPC64_REL24_value
  | PPC64 R_PPC64_TOC16_LO => Some R_PPC64_TOC16_LO_value
  | PPC64 R_PPC64_TOC16_HI => Some R_PPC64_TOC16_HI_value
  | PPC64 R_PPC64_TOC16_HA => Some R_PPC64_TOC16_HA_value
  | PPC64 R_PPC64_TOC => Some R_PPC64_TOC_value
  | SPARC R_SPARC_HI22 => Some R_SPARC_HI22_value
  | SPARC R_SPARC_WDISP30 => Some R_SPARC_WDISP30_value
  | SPARC R_SPARC_LO10 => Some R_SPARC_LO10_value
  | PE IMAGE_REL_BASED_HIGHADJ => Some IMAGE_REL_BASED_HIGHADJ_value
  | PE IMAGE_REL_BASED_HIGHLOW => Some IMAGE_REL_BASED_HIGHLOW_value
  | PE IMAGE_REL_BASED_DIR64 => Some IMAGE_REL_BASED_DIR64_value
  | PE IMAGE_REL_BASED_HIGH => Some IMAGE_REL_BASED_HIGH_value
  | PE IMAGE_REL_BASED_LOW => Some IMAGE_REL_BASED_LOW_value
  | PE IMAGE_REL_BASED_THUMB_MOV32 => Some IMAGE_REL_BASED_THUMB_MOV32_value
  | _ => None
  end.

(** An attribute of an object: that of the first class that has it. *)
Fixpoint lookup_attribute {A} (own : cls → option A) (cs : list cls) : option A :=
  match cs with
  | [] => None
  | c :: cs => match own c with Some a => Some a | None => lookup_attribute own cs end
  end.

Definition value (self : nat) : M pyval :=
  x ← reloc self; v ← some (lookup_attribute own_value (mro (r_cls x))); v self.

(** A method that calls [super()]: [methods cs self] is the method of the first
    class of [cs] that defines it, given what the rest of [cs] answers. *)
Fixpoint dispatch {A} (own : cls → option ((nat → M A) → nat → M A)) (cs : list cls) (self : nat) : M A :=
  match cs with
  | [] => raise AttributeError
  | c :: cs =>
      match own c with
      | Some method => method (dispatch own cs) self
      | None => dispatch own cs self
      end
  end.

(** ** [relocate]

    It answers [True], [False] or [None]. *)

Definition answer : Type := option bool.

(** [if not self.resolved: return False]. *)
Definition when_resolved (self : nat) (m : M answer) : M answer :=
  x ← reloc self; if r_resolved x then m else mret (Some false).

Definition pack_value (self : nat) (size : option Z) : M unit :=
  x ← reloc self; v ← value self; n ← number v; mem_pack_word (r_owner x) (r_relative_addr x) n size.

Definition Relocation_relocate (self : nat) : M answer :=
  when_resolved self (_ ← pack_value self None; mret (Some true)).

(** [obj.tls_block_offset], of an object that must have one. *)
Definition block_offset (b : Backend) : M Z :=
  off ← some (tls_block_offset b);
  match off with None => raise CLEInvalidBinaryError | Some off => mret off end.

Definition GenericTLSOffsetReloc_relocate (self : nat) : M answer :=
  x ← reloc self;
  b ← owner self;
  hell_offset ← some (tp_offset (o_arch b));
  '(obj, addr) ← match r_resolvedby x with
                 | None => mret (b, 0)
                 | Some s => y ← symbol s; o ← backend (s_owner y); mret (o, s_relative_addr y)
                 end;
  off ← block_offset obj;
  A ← addend self;
  _ ← mem_pack_word (r_owner x) (r_relative_addr x) (off + A + addr - hell_offset) None;
  mret None.

(** [RESOLVER_ADDR]: [NotImplemented] is not a number. *)
Definition own_RESOLVER_ADDR (c : cls) : option (option Z) :=
  match c with
  | Generic GenericTLSDescriptorReloc => Some None
  | ARM64 R_AARCH64_TLSDESC => Some (Some 0xFFFFFFFFFFFFFE00)
  | _ => None
  end.

Definition GenericTLSDescriptorReloc_relocate (self : nat) : M answer :=
  x ← reloc self;
  b ← owner self;
  obj ← match r_resolvedby x with None => mret b | Some s => y ← symbol s; backend (s_owner y) end;
  off ← block_offset obj;
  resolver ← some (lookup_attribute own_RESOLVER_ADDR (mro (r_cls x)));
  resolver ← match resolver with Some a => mret a | None => raise TypeError end;
  _ ← mem_pack_word (r_owner x) (r_relative_addr x) resolver None;
  A ← addend self;
  s ← the_symbol self;
  _ ← mem_pack_word (r_owner x) (r_relative_addr x + bytes (a_word (o_arch b))) (off + A + s_relative_addr s) None;
  mret None.

Definition GenericTLSModIdReloc_relocate (self : nat) : M answer :=
  x ← reloc self;
  s ← the_symbol self;
  obj ← (if bool_decide (s_type s = TYPE_NONE) then owner self
         else s ← some (r_resolvedby x); y ← symbol s; backend (s_owner y));
  match tls_module_id obj with
  | None => raise TypeError
  | Some id => _ ← mem_pack_word (r_owner x) (r_relative_addr x) id None; mret None
  end.

Definition add_irelative (b : Backend) (p : Z * Z) : Backend :=
  mkBackend (o_arch b) (memory b) (provides b) (linked_base b) (mapped_base b) (is_mapped b) (pic b) (relocs b)
    (imports b) (jmprel b) (resolved_imports b) (irelatives b ++ [p]) (extern_size_hints b) (_dynamic b)
    (tls_block_offset b) (tls_module_id b) (is_ppc64_abiv1 b) (ppc64_initial_rtoc b).

Definition GenericIRelativeReloc_relocate (self : nat) : M answer :=
  x ← reloc self;
  s ← the_symbol self;
  resolver ← (if bool_decide (s_type s = TYPE_NONE) then A ← addend self; lva_to_mva self A
              else target self);
  b ← owner self;
  _ ← set_backend (r_owner x) (add_irelative b (resolver, r_relative_addr x));
  mret None.

(** A symbol of another size is only logged. *)
Definition GenericCopyReloc_relocate (self : nat) : M answer :=
  x ← reloc self;
  r ← some (r_resolvedby x);
  y ← symbol r;
  s ← the_symbol self;
  _ ← (if negb (s_size y =? s_size s) && (negb (s_size y =? 0) || negb (is_extern y)) then mret tt
       else
         data ← mem_load (s_owner y) (s_relative_addr y) (s_size y);
         mem_store (r_owner x) (r_relative_addr x) data);
  mret (Some true).

(** [d[key]] of a dict with string keys. *)
Definition dict_get {A} (d : gmap string A) (key : string) : M A :=
  match d !! key with Some a => mret a | None => raise MissingKey end.

Definition MipsLocalReloc_relocate (self : nat) : M answer :=
  x ← reloc self;
  b ← owner self;
  if mapped_base b =? 0 then mret None
  else
    dynamic ← some (_dynamic b);
    base ← dict_get dynamic "DT_MIPS_BASE_ADDRESS";
    let delta := mapped_base b - base in
    if delta =? 0 then mret None
    else
      val ← mem_unpack_word (r_owner x) (r_relative_addr x) None;
      _ ← mem_pack_word (r_owner x) (r_relative_addr x) (val + delta) None;
      mret None.

Definition own_check_zero_extend (c : cls) : option bool :=
  match c with
  | Generic RelocTruncate32Mixin => Some false
  | AMD64 R_X86_64_32 => Some true
  | _ => None
  end.

Definition own_check_sign_extend (c : cls) : option bool :=
  match c with
  | Generic RelocTruncate32Mixin => Some false
  | AMD64 R_X86_64_PC32 | AMD64 R_X86_64_32S | AMD64 R_X86_64_PLT32 | AMD64 R_X86_64_GOTPCREL
  | AMD64 R_X86_64_GOTPCRELX | AMD64 R_X86_64_REX_GOTPCRELX => Some true
  | _ => None
  end.

(** The condition of the [raise]: the conditional expression is the outermost
    operator. *)
Definition truncation_fails (check_zero_extend check_sign_extend : bool) (arch_bits val : Z) : bool :=
  if Z.land (Z.shiftr val 31) 1 =? 1 then
    (check_zero_extend && negb (Z.shiftr val 32 =? 0))
    || (check_sign_extend && negb (Z.shiftr val 32 =? Z.shiftl 1 (arch_bits - 32) - 1))
  else false.

Definition RelocTruncate32Mixin_relocate (self : nat) : M answer :=
  x ← reloc self;
  b ← owner self;
  let arch_bits := a_bits (o_arch b) in
  if negb (32 <=? arch_bits) then raise AssertionError
  else
    v ← value self;
    n ← number v;
    let val := n mod 2 ^ arch_bits in
    let zero := default false (lookup_attribute own_check_zero_extend (mro (r_cls x))) in
    let sign := default false (lookup_attribute own_check_sign_extend (mro (r_cls x))) in
    if truncation_fails zero sign arch_bits val then raise CLEOperationError
    else
      _ ← mem_pack_word (r_owner x) (r_relative_addr x) val (Some 4);
      mret (Some true).

(** The [relocate] of the AArch64 and PowerPC64 classes that rewrite an
    instruction of four bytes: [code] makes the new one from the old one and
    [self.value].  The warning for a value out of range is not modelled. *)
Definition rewrite_instruction (code : Z → Z → Z) (self : nat) : M answer :=
  when_resolved self
    (x ← reloc self;
     inst ← mem_unpack_word (r_owner x) (r_relative_addr x) (Some 4);
     v ← value self;
     n ← number v;
     _ ← mem_pack_word (r_owner x) (r_relative_addr x) (code inst n) (Some 4);
     mret (Some true)).

(** The [relocate] of the PowerPC classes with a [half16] field. *)
Definition half16_relocate (self : nat) : M answer :=
  when_resolved self (_ ← pack_value self (Some 2); mret (Some true)).

Definition R_PPC_JMP_SLOT_relocate (super : nat → M answer) (self : nat) : M answer :=
  x ← reloc self;
  b ← owner self;
  dynamic ← some (_dynamic b);
  if bool_decide (dynamic !! "DT_PPC_GOT" = None) && bool_decide (dynamic !! "DT_LOPROC" = None) then
    v ← value self; n ← number v; P ← rebased_addr self;
    _ ← mem_pack_word (r_owner x) (r_relative_addr x) (Ppc.R_PPC_JMP_SLOT n P) None;
    mret None
  else _ ← super self; mret None.

Definition R_PPC64_JMP_SLOT_relocate (self : nat) : M answer :=
  x ← reloc self;
  b ← owner self;
  r ← some (r_resolvedby x);
  y ← symbol r;
  _ ← (if is_ppc64_abiv1 b then
         addr ← mem_unpack_word (s_owner y) (s_relative_addr y) None;
         toc ← mem_unpack_word (s_owner y) (s_relative_addr y + 8) None;
         aux ← mem_unpack_word (s_owner y) (s_relative_addr y + 16) None;
         _ ← mem_pack_word (r_owner x) (r_relative_addr x) addr None;
         _ ← mem_pack_word (r_owner x) (r_relative_addr x + 8) toc None;
         mem_pack_word (r_owner x) (r_relative_addr x + 16) aux None
       else
         S ← symbol_rebased_addr r;
         mem_pack_word (r_owner x) (r_relative_addr x) S None);
  mret (Some true).

Definition R_MIPS_26_relocate (self : nat) : M answer :=
  when_resolved self
    (x ← reloc self;
     original_value ← mem_unpack_word (r_owner x) (r_relative_addr x) None;
     v ← value self;
     n ← number v;
     _ ← mem_pack_word (r_owner x) (r_relative_addr x) (Mips.R_MIPS_26 original_value n) None;
     mret (Some true)).

(** [self.owner.relocs.index(self)] and [next] of the relocations after it. *)
Fixpoint find_lo16 (symbol : option nat) (ids : list nat) : M nat :=
  match ids with
  | [] => raise StopIteration
  | i :: ids =>
      y ← reloc i;
      if bool_decide (symbol = r_symbol y) && bool_decide (r_cls y = MIPS R_MIPS_LO16) then mret i
      else find_lo16 symbol ids
  end.

Definition find_matching_lo16_relocation (self : nat) : M nat :=
  x ← reloc self;
  b ← owner self;
  match list_find (λ i, i = self) (relocs b) with
  | None => raise ValueError
  | Some (current_hi16_index, _) => find_lo16 (r_symbol x) (drop current_hi16_index (relocs b))
  end.

(** The place of the 16-bit field of an instruction. *)
Definition half_addr (b : Backend) (addr : Z) : Z :=
  if bool_decide (memory_endness (a_word (o_arch b)) = BE) then addr + 2 else addr.

Definition R_MIPS_HI16_relocate (self : nat) : M answer :=
  when_resolved self
    (x ← reloc self;
     b ← owner self;
     l ← find_matching_lo16_relocation self;
     y ← reloc l;
     let dest_addr := half_addr b (r_relative_addr x) in
     lo ← mem_unpack_word (r_owner x) (half_addr b (r_relative_addr y)) (Some 2);
     v ← value self;
     n ← number v;
     hi ← mem_unpack_word (r_owner x) dest_addr (Some 2);
     _ ← mem_pack_word (r_owner x) dest_addr (Mips.R_MIPS_HI16 n hi lo) (Some 2);
     mret (Some true)).

Definition R_MIPS_LO16_relocate (self : nat) : M answer :=
  when_resolved self
    (x ← reloc self;
     b ← owner self;
     let dest_addr := half_addr b (r_relative_addr x) in
     v ← value self;
     n ← number v;
     lo ← mem_unpack_word (r_owner x) dest_addr (Some 2);
     _ ← mem_pack_word (r_owner x) dest_addr (Mips.R_MIPS_LO16 n lo) (Some 2);
     mret (Some true)).

Definition PEReloc_relocate (super : nat → M answer) (self : nat) : M answer :=
  x ← reloc self;
  match r_symbol x with
  | None =>
      v ← value self;
      match v with
      | VNone => mret None
      | VBytes bs => _ ← mem_store (r_owner x) (r_relative_addr x) bs; mret None
      | VInt _ => raise TypeError
      end
  | Some _ => _ ← super self; mret None
  end.

Definition own_relocate (c : cls) : option ((nat → M answer) → nat → M answer) :=
  match c with
  | Base Relocation => Some (λ _, Relocation_relocate)
  | Base PEReloc => Some PEReloc_relocate
  | Generic GenericTLSOffsetReloc => Some (λ _, GenericTLSOffsetReloc_relocate)
  | Generic GenericTLSDescriptorReloc => Some (λ _, GenericTLSDescriptorReloc_relocate)
  | Generic GenericTLSModIdReloc => Some (λ _, GenericTLSModIdReloc_relocate)
  | Generic GenericIRelativeReloc => Some (λ _, GenericIRelativeReloc_relocate)
  | Generic GenericCopyReloc => Some (λ _, GenericCopyReloc_relocate)
  | Generic MipsLocalReloc => Some (λ _, MipsLocalReloc_relocate)
  | Generic RelocTruncate32Mixin => Some (λ _, RelocTruncate32Mixin_relocate)
  | ARM64 R_AARCH64_JUMP26 | ARM64 R_AARCH64_CALL26 => Some (λ _, rewrite_instruction Arm64.branch26)
  | ARM64 R_AARCH64_ADR_PREL_PG_HI21 => Some (λ _, rewrite_instruction Arm64.R_AARCH64_ADR_PREL_PG_HI21)
  | ARM64 R_AARCH64_ADD_ABS_LO12_NC | ARM64 R_AARCH64_LDST8_ABS_LO12_NC =>
      Some (λ _, rewrite_instruction Arm64.R_AARCH64_ADD_ABS_LO12_NC)
  | ARM64 R_AARCH64_LDST16_ABS_LO12_NC => Some (λ _, rewrite_instruction (Arm64.ldst_scaled 1))
  | ARM64 R_AARCH64_LDST32_ABS_LO12_NC => Some (λ _, rewrite_instruction (Arm64.ldst_scaled 2))
  | ARM64 R_AARCH64_LDST64_ABS_LO12_NC => Some (λ _, rewrite_instruction (Arm64.ldst_scaled 3))
  | ARM64 R_AARCH64_LDST128_ABS_LO12_NC => Some (λ _, rewrite_instruction (Arm64.ldst_scaled 4))
  | PPC R_PPC_ADDR16_LO | PPC R_PPC_ADDR16_HI | PPC R_PPC_ADDR16_HA => Some (λ _, half16_relocate)
  | PPC R_PPC_JMP_SLOT => Some R_PPC_JMP_SLOT_relocate
  | PPC64 R_PPC64_JMP_SLOT => Some (λ _, R_PPC64_JMP_SLOT_relocate)
  | PPC64 R_PPC64_REL24 => Some (λ _, rewrite_instruction Ppc.R_PPC64_REL24)
  | PPC64 R_PPC64_TOC16_LO | PPC64 R_PPC64_TOC16_HI | PPC64 R_PPC64_TOC16_HA => Some (λ _, half16_relocate)
  | MIPS R_MIPS_26 => Some (λ _, R_MIPS_26_relocate)
  | MIPS R_MIPS_HI16 => Some (λ _, R_MIPS_HI16_relocate)
  | MIPS R_MIPS_LO16 => Some (λ _, R_MIPS_LO16_relocate)
  | PE IMAGE_REL_BASED_ABSOLUTE => Some (λ _ _, mret None)
  | _ => None
  end.

Definition relocate (self : nat) : M answer := x ← reloc self; dispatch own_relocate (mro (r_cls x)) self.

(** [Backend.relocate]. *)
Fixpoint relocate_all (ids : list nat) : M unit :=
  match ids with
  | [] => mret tt
  | i :: ids =>
      x ← reloc i;
      _ ← (if r_resolved x then _ ← relocate i; mret tt else mret tt);
      relocate_all ids
  end.

Definition Backend_relocate (o : nat) : M unit := b ← backend o; relocate_all (relocs b).
(** ** Resolution *)

Record resolve_args := mkArgs {
  solist : list nat;
  thumb : bool;
  extern_object : option nat;
  bypass_compatibility : bool }.

Definition own_AUTO_HANDLE_NONE (c : cls) : option bool :=
  match c with
  | Base Relocation => Some false
  | Base PEReloc | Base InternalTLSRelocation => Some true
  | Generic GenericTLSOffsetReloc | Generic GenericTLSDescriptorReloc | Generic GenericTLSModIdReloc
  | Generic GenericIRelativeReloc | Generic GenericRelativeReloc | Generic MipsLocalReloc => Some true
  | _ => None
  end.

Definition AUTO_HANDLE_NONE (c : cls) : bool := default false (lookup_attribute own_AUTO_HANDLE_NONE (mro c)).

Definition extern_symbol_type (self : nat) : M SymbolType :=
  x ← reloc self;
  s ← the_symbol self;
  mret (if bool_decide (r_cls x = PPC64 R_PPC64_JMP_SLOT) then TYPE_FUNCTION else s_type s).

(** [resolve(obj, extern_object)]; a missing symbol is only an error when the
    class does not handle it, and then the fields are already set. *)
Definition Relocation_resolve (self : nat) (obj extern_object : option nat) : M unit :=
  x ← reloc self;
  _ ← set_reloc self (set_resolution x obj true);
  match r_symbol x with
  | Some s => symbol_resolve s obj
  | None => if AUTO_HANDLE_NONE (r_cls x) then mret tt else raise TypeError
  end.

Section resolution.
Context `{Linker}.

Definition RelocGOTMixin_resolve (super : nat → option nat → option nat → M unit)
    (self : nat) (symbol_ extern_object : option nat) : M unit :=
  match extern_object with
  | None => raise AssertionError
  | Some e =>
      s ← some symbol_;
      y ← symbol s;
      got ← make_extern e (mkRequest ("got." ++ s_name y)%string 0 TYPE_OBJECT false (Some s));
      super self (Some got) None
  end.

Definition own_resolve (c : cls) :
    option ((nat → option nat → option nat → M unit) → nat → option nat → option nat → M unit) :=
  match c with
  | Base Relocation => Some (λ _, Relocation_resolve)
  | Generic RelocGOTMixin => Some RelocGOTMixin_resolve
  | _ => None
  end.

Fixpoint resolve_in (cs : list cls) (self : nat) (obj extern_object : option nat) : M unit :=
  match cs with
  | [] => raise AttributeError
  | c :: cs =>
      match own_resolve c with
      | Some method => method (resolve_in cs) self obj extern_object
      | None => resolve_in cs self obj extern_object
      end
  end.

Definition resolve (self : nat) (obj extern_object : option nat) : M unit :=
  x ← reloc self; resolve_in (mro (r_cls x)) self obj extern_object.

(** The loop over [solist]: the first strong definition, or else the first weak
    one. *)
Fixpoint search (self_owner : nat) (name : string) (weak_result : option nat) (sos : list nat) :
    M (option nat * bool) :=
  match sos with
  | [] => mret (weak_result, false)
  | so :: sos =>
      symbol_ ← get_symbol so name;
      match symbol_ with
      | None => search self_owner name weak_result sos
      | Some s =>
          y ← symbol s;
          if is_export y || (negb (s_is_import y) && bool_decide (so = self_owner)) then
            if negb (is_weak y) then mret (Some s, true)
            else search self_owner name (match weak_result with None => Some s | _ => weak_result end) sos
          else search self_owner name weak_result sos
      end
  end.

Definition Relocation_resolve_symbol (self : nat) (args : resolve_args) : M unit :=
  x ← reloc self;
  if r_resolved x then mret tt
  else
    s ← match r_symbol x with None => mret None | Some i => y ← symbol i; mret (Some (i, y)) end;
    if match s with None => true | Some (_, y) => bool_decide (s_type y = TYPE_NONE) end
       && AUTO_HANDLE_NONE (r_cls x) then resolve self None (extern_object args)
    else
      match s with
      | None => mret tt
      | Some (i, y) =>
          if is_static y || is_local y then resolve self (Some i) (extern_object args)
          else
            '(found, _) ← search (r_owner x) (s_name y) None (solist args);
            match found with
            | Some f => resolve self (Some f) (extern_object args)
            | None =>
                if is_weak y then mret tt
                else
                  b ← owner self;
                  let min_size := default 0 (extern_size_hints b !! s_name y) in
                  e ← some (extern_object args);
                  t ← extern_symbol_type self;
                  new_symbol ← make_extern e (mkRequest (s_name y) min_size t (thumb args) None);
                  resolve self (Some new_symbol) (extern_object args)
            end
      end.

Definition GenericTLSDoffsetReloc_resolve_symbol (self : nat) (args : resolve_args) : M unit :=
  resolve self None None.

Definition GenericCopyReloc_resolve_symbol (super : nat → resolve_args → M unit) (self : nat)
    (args : resolve_args) : M unit :=
  x ← reloc self;
  let new_solist := filter (λ so, so ≠ r_owner x) (solist args) in
  super self (mkArgs new_solist (thumb args) (extern_object args) (bypass_compatibility args)).

Definition MipsLocalReloc_resolve_symbol (self : nat) (args : resolve_args) : M unit :=
  resolve self None None.

Definition R_ARM_THM_CALL_resolve_symbol (super : nat → resolve_args → M unit) (self : nat)
    (args : resolve_args) : M unit :=
  super self (mkArgs (solist args) true (extern_object args) (bypass_compatibility args)).

Definition SimDataSimpleRelocation_resolve_symbol (super : nat → resolve_args → M unit) (self : nat)
    (args : resolve_args) : M unit :=
  x ← reloc self;
  if preresolved x then resolve self (r_symbol x) None else super self args.

(** The objects of [solist] that provide the library [self.resolvewith]. *)
Fixpoint compatible (resolvewith : option string) (sos : list nat) : M (list nat) :=
  match sos with
  | [] => mret []
  | so :: sos =>
      b ← backend so;
      rest ← compatible resolvewith sos;
      mret (if bool_decide (resolvewith = provides b) then so :: rest else rest)
  end.

Definition PEReloc_resolve_symbol (super : nat → resolve_args → M unit) (self : nat)
    (args : resolve_args) : M unit :=
  x ← reloc self;
  sos ← (if bypass_compatibility args then mret (solist args) else compatible (resolvewith x) (solist args));
  _ ← super self (mkArgs sos (thumb args) (extern_object args) (bypass_compatibility args));
  x ← reloc self;
  match r_resolvedby x with
  | None => mret tt
  | Some r =>
      newsym ← resolve_forwarder r;
      match newsym with
      | None =>
          e ← some (extern_object args);
          y ← the_symbol self;
          new_symbol ← make_extern e (mkRequest (s_name y) 0 (s_type y) false None);
          z ← symbol r;
          _ ← set_symbol r (set_symbol_resolution z (s_resolved z) (Some new_symbol));
          resolve self (Some new_symbol) None
      | Some n =>
          x ← reloc self;
          _ ← set_reloc self (set_resolution x (Some n) (r_resolved x));
          s ← some (r_symbol x);
          y ← symbol s;
          set_symbol s (set_symbol_resolution y (s_resolved y) (Some n))
      end
  end.

Definition own_resolve_symbol (c : cls) :
    option ((nat → resolve_args → M unit) → nat → resolve_args → M unit) :=
  match c with
  | Base Relocation => Some (λ _, Relocation_resolve_symbol)
  | Base PEReloc => Some PEReloc_resolve_symbol
  | Base SimDataSimpleRelocation => Some SimDataSimpleRelocation_resolve_symbol
  | Generic GenericTLSDoffsetReloc => Some (λ _, GenericTLSDoffsetReloc_resolve_symbol)
  | Generic GenericCopyReloc => Some GenericCopyReloc_resolve_symbol
  | Generic MipsLocalReloc => Some (λ _, MipsLocalReloc_resolve_symbol)
  | ARM R_ARM_THM_CALL => Some R_ARM_THM_CALL_resolve_symbol
  | _ => None
  end.

Fixpoint resolve_symbol_in (cs : list cls) (self : nat) (args : resolve_args) : M unit :=
  match cs with
  | [] => raise AttributeError
  | c :: cs =>
      match own_resolve_symbol c with
      | Some method => method (resolve_symbol_in cs) self args
      | None => resolve_symbol_in cs self args
      end
  end.

Definition resolve_symbol (self : nat) (args : resolve_args) : M unit :=
  x ← reloc self; resolve_symbol_in (mro (r_cls x)) self args.
End resolution.

(** ** Construction *)

Definition new_reloc (x : Reloc) : M nat :=
  w ← get;
  _ ← put (mkWorld (store_of w) (backends w) (symbols w) (relocations w ++ [x]));
  mret (length (relocations w)).

Definition add_import (b : Backend) (name : string) (r : nat) : Backend :=
  mkBackend (o_arch b) (memory b) (provides b) (linked_base b) (mapped_base b) (is_mapped b) (pic b) (relocs b)
    (<[name := r]> (imports b)) (jmprel b) (resolved_imports b) (irelatives b) (extern_size_hints b) (_dynamic b)
    (tls_block_offset b) (tls_module_id b) (is_ppc64_abiv1 b) (ppc64_initial_rtoc b).

Definition add_reloc (b : Backend) (r : nat) : Backend :=
  mkBackend (o_arch b) (memory b) (provides b) (linked_base b) (mapped_base b) (is_mapped b) (pic b)
    (relocs b ++ [r]) (imports b) (jmprel b) (resolved_imports b) (irelatives b) (extern_size_hints b) (_dynamic b)
    (tls_block_offset b) (tls_module_id b) (is_ppc64_abiv1 b) (ppc64_initial_rtoc b).

Definition add_jmprel (b : Backend) (name : string) (r : nat) : Backend :=
  mkBackend (o_arch b) (memory b) (provides b) (linked_base b) (mapped_base b) (is_mapped b) (pic b) (relocs b)
    (imports b) (<[name := r]> (jmprel b)) (resolved_imports b) (irelatives b) (extern_size_hints b)
    (_dynamic b) (tls_block_offset b) (tls_module_id b) (is_ppc64_abiv1 b) (ppc64_initial_rtoc b).

Definition set_pic (b : Backend) : Backend :=
  mkBackend (o_arch b) (memory b) (provides b) (linked_base b) (mapped_base b) (is_mapped b) true (relocs b)
    (imports b) (jmprel b) (resolved_imports b) (irelatives b) (extern_size_hints b) (_dynamic b)
    (tls_block_offset b) (tls_module_id b) (is_ppc64_abiv1 b) (ppc64_initial_rtoc b).

(** [Relocation.__init__]: an import is registered with the owner. *)
Definition Relocation_init (c : cls) (owner : nat) (symbol_ : option nat) (relative_addr : Z) : M nat :=
  self ← new_reloc (mkReloc c owner symbol_ relative_addr None false None false None None 0 false);
  _ ← match symbol_ with
      | None => mret tt
      | Some s =>
          y ← symbol s;
          if s_is_import y then b ← backend owner; set_backend owner (add_import b (s_name y) self)
          else mret tt
      end;
  mret self.

(** [ELFReloc.__init__]: without an addend, the word at the place is one. *)
Definition ELFReloc_init (c : cls) (owner : nat) (symbol_ : option nat) (relative_addr : Z)
    (addend : option Z) : M nat :=
  self ← Relocation_init c owner symbol_ relative_addr;
  a ← match addend with Some a => mret a | None => mem_unpack_word owner relative_addr None end;
  x ← reloc self;
  _ ← set_reloc self
        (mkReloc c owner symbol_ relative_addr (r_resolvedby x) (r_resolved x) None
           (bool_decide (is_Some addend)) (Some a) None 0 false);
  mret self.

Definition lower_char (a : ascii) : ascii :=
  let n := nat_of_ascii a in
  if (Nat.leb 65 n && Nat.leb n 90)%bool then ascii_of_nat (n + 32) else a.

(** [str.lower], of ASCII letters. *)
Fixpoint lower (s : string) : string :=
  match s with EmptyString => EmptyString | String c s => String (lower_char c) (lower s) end.

(** [PEReloc.__init__], and [IMAGE_REL_BASED_HIGHADJ.__init__]. *)
Definition PEReloc_init (c : cls) (owner : nat) (symbol_ : option nat) (addr : Z)
    (resolvewith : option string) (next_rva : Z) : M nat :=
  self ← Relocation_init c owner symbol_ addr;
  x ← reloc self;
  _ ← set_reloc self
        (mkReloc c owner symbol_ addr (r_resolvedby x) (r_resolved x) (lower <$> resolvewith) false None None
           next_rva false);
  mret self.

(** [except KeyError: return None]. *)
Definition except_KeyError {A} (m : M (option A)) : M (option A) :=
  λ w, match m w with (w, Err (KeyError _)) => (w, Ok None) | r => r end.

(** [ELF._make_reloc]: [section_vaddr] is the address of the section of the
    entry, for a relocatable object. *)
Definition ELF_make_reloc (o : nat) (r_info_type r_offset : Z) (r_addend : option Z) (symbol_ : option nat)
    (section_vaddr : option Z) (is_relr : bool) : M (option nat) :=
  b ← backend o;
  match (if is_relr then Some (Generic GenericRelativeReloc)
         else get_relocation (a_name (o_arch b)) r_info_type) with
  | None => mret None
  | Some c =>
      let address := to_rva (from_lva r_offset b) in
      let address := match section_vaddr with Some v => address + to_rva (from_mva v b) | None => address end in
      except_KeyError (self ← ELFReloc_init c o symbol_ address r_addend; mret (Some self))
  end.

(** [PE._make_reloc]. *)
Definition PE_make_reloc (o : nat) (addr : Z) (reloc_type : option Z) (symbol_ : option nat)
    (next_rva : option Z) (resolvewith : option string) : M (option nat) :=
  match reloc_type with
  | Some 0 => self ← PEReloc_init IMAGE_REL_BASED_ABSOLUTE o symbol_ addr resolvewith 0; mret (Some self)
  | None => self ← PEReloc_init DllImport o symbol_ addr resolvewith 0; mret (Some self)
  | Some t =>
      match next_rva with
      | Some next => self ← PEReloc_init IMAGE_REL_BASED_HIGHADJ o None addr None next; mret (Some self)
      | None =>
          b ← backend o;
          match PETables.get_relocation (a_name (o_arch b)) t with
          | None => mret None
          | Some (PE IMAGE_REL_BASED_HIGHADJ) => raise TypeError
          | Some c => self ← PEReloc_init c o symbol_ addr None 0; mret (Some self)
          end
      end
  end.

(** [PE.__register_relocs], for one block of the base relocation table: the
    entries are pairs of a type and an address.  The entry after a [HIGHADJ] is
    skipped. *)
Fixpoint PE_register_relocs (o : nat) (entries : list (Z * Z)) : M unit :=
  match entries with
  | [] => mret tt
  | (type, rva) :: rest =>
      let highadj := type =? 4 in
      r ← PE_make_reloc o rva (Some type) None (if highadj then Some rva else None) None;
      _ ← match r with
          | None => mret tt
          | Some r => b ← backend o; set_backend o (add_reloc (set_pic b) r)
          end;
      match rest with
      | _ :: rest' => PE_register_relocs o (if highadj then rest' else rest)
      | [] => mret tt
      end
  end.

(** [ELF.__relocate_mips]: the relocations of the global offset table.
    [got_symbol i] is the symbol of index [i] of the table of symbols. *)
Fixpoint local_got (o : nat) (gotaddr wordsize : Z) (is_ : list Z) : M unit :=
  match is_ with
  | [] => mret tt
  | i :: is_ =>
      r ← ELFReloc_init MipsLocalReloc o None (gotaddr + i * wordsize) None;
      b ← backend o;
      _ ← set_backend o (add_reloc b r);
      local_got o gotaddr wordsize is_
  end.

Fixpoint global_got (o : nat) (got_symbol : Z → option nat) (gotaddr wordsize first shift : Z)
    (is_ : list Z) : M unit :=
  match is_ with
  | [] => mret tt
  | i :: is_ =>
      let symbol_ := got_symbol (i + first) in
      r ← ELFReloc_init MipsGlobalReloc o symbol_ (gotaddr + (i + shift) * wordsize) None;
      b ← backend o;
      _ ← set_backend o (add_reloc b r);
      s ← some symbol_;
      y ← symbol s;
      b ← backend o;
      _ ← set_backend o (add_jmprel b (s_name y) r);
      global_got o got_symbol gotaddr wordsize first shift is_
  end.

Definition __relocate_mips (o : nat) (got_symbol : Z → option nat) : M answer :=
  b ← backend o;
  dynamic ← some (_dynamic b);
  match dynamic !! "DT_MIPS_BASE_ADDRESS" with
  | None => mret (Some false)
  | Some _ =>
      got_local_num ← dict_get dynamic "DT_MIPS_LOCAL_GOTNO";
      symtab_got_idx ← dict_get dynamic "DT_MIPS_GOTSYM";
      symbol_count ← dict_get dynamic "DT_MIPS_SYMTABNO";
      pltgot ← dict_get dynamic "DT_PLTGOT";
      let gotaddr := to_rva (from_lva pltgot b) in
      let wordsize := bytes (a_word (o_arch b)) in
      _ ← local_got o gotaddr wordsize (py_range 2 got_local_num);
      _ ← global_got o got_symbol gotaddr wordsize symtab_got_idx got_local_num
            (py_range 0 (symbol_count - symtab_got_idx));
      mret (Some true)
  end.

End Relocs.
