(* ===== verification/RelocFields.v ===== *)
(** * The fields of relocated instructions

    What the words of [RelocCode] mean to the processor: each theorem reads the
    rewritten field back the way the instruction set does and finds the address
    of the symbol, and finds the other bits of the instruction unchanged.
    Where a class does not do this, a lemma gives the case. *)

From Stdlib Require Import ZArith Lia Bool.
From stdpp Require Import base tactics list numbers.
From S2P Require Import Prelude Bitfields RelocCode.
Import Bitfields RelocCode.

Module RelocFields.

(** A 32-bit instruction. *)
Definition inst32 (i : Z) : Prop := 0 ≤ i < 2 ^ 32.

(** ** Shared lemmas *)

(** The test of a bit. *)
Lemma truth_bit x k : 0 ≤ k → truth (Z.land x (2 ^ k)) = Z.testbit x k.
Proof.
  intros Hk. unfold truth. assert (Z.land x (2 ^ k) = Z.b2z (Z.testbit x k) * 2 ^ k) as ->.
  { apply Z.bits_inj'. intros i Hi. rewrite Z.land_spec, Z.pow2_bits_eqb by done.
    rewrite <-Z.shiftl_mul_pow2, Z.shiftl_spec by done.
    destruct (Z.eqb_spec k i) as [->|]; [rewrite Z.sub_diag, Z.b2z_bit0; apply andb_true_r|].
    rewrite andb_false_r. destruct (Z.testbit x k); cbn [Z.b2z]; [|by rewrite Z.bits_0].
    destruct (Z.lt_ge_cases i k); [by rewrite Z.testbit_neg_r by lia|].
    symmetry. apply (testbit_high 1 1); lia. }
  pose proof (pow2_pos k Hk). destruct (Z.testbit x k); cbn [Z.b2z]; [|done].
  destruct (Z.eqb_spec (1 * 2 ^ k) 0); [lia|done].
Qed.

(** [T] is the low bit. *)
Lemma lor_flag x (T : bool) : Z.lor x (Z.b2z T) = if Z.even x then x + Z.b2z T else x.
Proof.
  destruct T; cbn [Z.b2z]; [|by rewrite Z.lor_0_r, Z.add_0_r; destruct (Z.even x)].
  destruct (Z.even x) eqn:E.
  - apply Z.even_spec in E as [y ->]. rewrite Z.mul_comm.
    change 2 with (2 ^ 1) at 1. rewrite <-Z.shiftl_mul_pow2 by lia. rewrite (lor_shiftl_add y 1 1) by lia. lia.
  - apply Z.bits_inj'. intros i Hi. rewrite Z.lor_spec. destruct (decide (i = 0)) as [->|].
    + rewrite orb_true_r, Z.bit0_odd, <-Z.negb_even, E. done.
    + rewrite (testbit_high 1 1 i) by lia. apply orb_false_r.
Qed.

(** The displacement that a field of [w] bits, scaled by [2 ^ k], encodes. *)
Definition displacement (k w f : Z) : Z := signed (k + w) (Z.shiftl f k).

Lemma displacement_field k w x :
  0 ≤ k → 1 ≤ w → x mod 2 ^ k = 0 → displacement k w (field k w x) = signed (k + w) x.
Proof.
  intros Hk Hw Hx. unfold displacement. apply signed_ext; [lia|].
  rewrite scaled_field by (done || lia). by rewrite Z.mod_mod by (apply Z.pow_nonzero; lia).
Qed.

(** ... is the displacement itself when it is a multiple and in range. *)
Lemma displacement_exact k w x :
  0 ≤ k → 1 ≤ w → x mod 2 ^ k = 0 → - 2 ^ (k + w - 1) ≤ x < 2 ^ (k + w - 1) →
  displacement k w (field k w x) = x.
Proof. intros. rewrite displacement_field by done. apply signed_id; lia. Qed.

Lemma mod_divides x a b : 0 ≤ a ≤ b → x mod 2 ^ b mod 2 ^ a = x mod 2 ^ a.
Proof.
  intros H. replace b with (a + (b - a)) by lia. rewrite Z.pow_add_r by lia.
  pose proof (pow2_pos a). pose proof (pow2_pos (b - a)).
  rewrite Z.rem_mul_r by lia. rewrite <-Zplus_mod_idemp_r, Z.mul_comm, Z_mod_mult, Z.add_0_r. apply Z.mod_mod. lia.
Qed.

(** ** ARM *)

(** The displacement of B and BL, from the address of the instruction plus 8. *)
Definition arm_displacement (i : Z) : Z := displacement 2 24 (field 0 24 i).

Lemma arm_displacement_range i : - 2 ^ 25 ≤ arm_displacement i < 2 ^ 25.
Proof. apply (signed_bounds 26). lia. Qed.

Lemma arm_displacement_multiple i : arm_displacement i mod 2 ^ 2 = 0.
Proof.
  unfold arm_displacement, displacement. rewrite <-(mod_divides _ 2 26), signed_congruent, mod_divides by lia.
  rewrite Z.shiftl_mul_pow2 by lia. apply Z_mod_mult.
Qed.

Lemma applyReloc_fits inst result mask :
  Z.land result (Z.lnot mask) = 0 →
  Arm._applyReloc inst result mask = Z.lor (Z.land inst (Z.lnot mask)) (Z.land result mask).
Proof. unfold Arm._applyReloc, truth. by intros ->. Qed.

Lemma arm_call_sum inst :
  inst32 inst →
  Z.shiftl (if truth (Z.land inst 0x00800000) then Z.lor inst 0xFF000000 else inst) 2 mod 2 ^ 26
  = arm_displacement inst mod 2 ^ 26.
Proof.
  intros Hi. unfold arm_displacement, displacement. rewrite signed_congruent by lia.
  unfold inst32 in Hi. destruct (truth _); bitfields.
Qed.

(** [R_ARM_CALL], [R_ARM_JUMP24] and [R_ARM_PC24] on an ARM target: the branch
    goes where it went before, moved by the symbol's address minus the
    instruction's, and condition and opcode are kept. *)
Theorem arm_call_relocated (P inst S : Z) :
  inst32 inst → P mod 4 = 0 → S mod 4 = 0 → - 2 ^ 25 ≤ S + arm_displacement inst - P < 2 ^ 25 →
  let r := Arm.R_ARM_CALL P inst S false in
  arm_displacement r = S + arm_displacement inst - P ∧ field 24 8 r = field 24 8 inst.
Proof.
  intros Hi HP HS Hr. cbv zeta. unfold Arm.R_ARM_CALL. cbn [Z.b2z]. rewrite Z.lor_0_r.
  set (A := if truth _ then _ else _). set (x := S + Z.shiftl A 2 - P).
  assert (x mod 2 ^ 26 = (S + arm_displacement inst - P) mod 2 ^ 26) as Ex.
  { subst x A. rewrite <-(Zminus_mod_idemp_l), <-Zplus_mod_idemp_r, arm_call_sum by done.
    by rewrite Zplus_mod_idemp_r, Zminus_mod_idemp_l. }
  rewrite applyReloc_fits by bitfields. split.
  - unfold arm_displacement at 1.
    transitivity (displacement 2 24 (field 2 24 x)); [unfold displacement; do 2 f_equal; bitfields|].
    rewrite displacement_field; [|lia|lia|].
    + change (2 + 24) with 26. rewrite (signed_ext 26 _ _ ltac:(lia) Ex). apply (signed_id 26); [lia|exact Hr].
    + rewrite <-(mod_divides _ 2 26), Ex, mod_divides by lia. pose proof (arm_displacement_multiple inst) as Hm.
      change (2 ^ 2) with 4 in *. Z.div_mod_to_equations. lia.
  - unfold inst32 in Hi. bitfields.
Qed.

(** On a Thumb target the class leaves no instruction: the word that is to
    become [BLX] has bits outside the mask, and the relocation answers 0. *)
Theorem arm_call_to_thumb_fails (P inst S : Z) : Arm.R_ARM_CALL P inst S true = 0.
Proof.
  unfold Arm.R_ARM_CALL, Arm._applyReloc. set (x := Z.shiftr _ _).
  assert (Z.testbit (Z.land (Z.lor 0xFA x) (Z.lnot 0xFF000000)) 1 = true) as Hb.
  { rewrite Z.land_spec, Z.lor_spec, Z.lnot_spec by lia. done. }
  unfold truth. destruct (Z.eqb_spec (Z.land (Z.lor 0xFA x) (Z.lnot 0xFF000000)) 0) as [E|]; [|done].
  rewrite E in Hb. done.
Qed.

Lemma flag_bound (T : bool) : 0 ≤ Z.b2z T < 2 ^ 1.
Proof. by destruct T. Qed.

(** [R_ARM_PREL31] on an addend whose bit 24 is clear: the low 31 bits are the
    distance and bit 31, which tells entries of an index table apart, stays. *)
Theorem arm_prel31_relocated (P A S : Z) (T : bool) :
  inst32 A → Z.testbit A 24 = false →
  let r := Arm.R_ARM_PREL31 P A S T in
  field 0 31 r = (Z.lor (S + A) (Z.b2z T) - P) mod 2 ^ 31 ∧ field 31 1 r = field 31 1 A.
Proof.
  intros HA Hb. cbv zeta. unfold Arm.R_ARM_PREL31.
  assert (truth (Z.land A 0x01000000) = false) as -> by (rewrite <-Hb; by apply (truth_bit A 24)).
  unfold inst32 in HA. rewrite applyReloc_fits by bitfields.
  split; bitfields.
Qed.

(** The sign of the addend is bit 30, but the class extends bit 24, and then
    with a mask that leaves bits 25 to 27 out: a forward distance of 16 MiB
    lands somewhere else, and a short backward distance sets bit 31. *)
Lemma arm_prel31_wrong_sign :
  field 0 31 (Arm.R_ARM_PREL31 0 0x01000000 0x8000 false) ≠ 0x8000 + 0x01000000 ∧
  field 31 1 (Arm.R_ARM_PREL31 0x8000 0x7FFFFFFC 0x9000 false) = 1 ∧ field 31 1 0x7FFFFFFC = 0.
Proof. by vm_compute. Qed.

(** The literal of MOVW and MOVT, [imm4:imm12]. *)
Definition imm16 (i : Z) : Z := Z.lor (Z.shiftl (field 16 4 i) 12) (field 0 12 i).

Lemma imm16_bound i : 0 ≤ imm16 i < 2 ^ 16.
Proof.
  assert (imm16 i = imm16 i mod 2 ^ 16) as -> by (unfold imm16; bitfields). by apply mod_pow2_bound.
Qed.

Lemma negated16 A : 0 ≤ A < 2 ^ 16 → - (Z.lxor A 0xFFFF + 1) = A - 2 ^ 16.
Proof. intros HA. pose proof (lnot_full 16 A ltac:(lia) HA) as H. change (Z.ones 16) with 0xFFFF in H. lia. Qed.

(** The two branches of the sign extension of a 16-bit literal. *)
Lemma literal_signed A : 0 ≤ A < 2 ^ 16 → (if truth (Z.land A 0x8000) then - (Z.lxor A 0xFFFF + 1) else A) = signed 16 A.
Proof.
  intros HA. change 0x8000 with (2 ^ 15). rewrite truth_bit by lia. rewrite negated16 by done.
  rewrite signed_cases by (done || lia). change (16 - 1) with 15.
  rewrite Z.testbit_odd, Z.shiftr_div_pow2 by lia. destruct (Z.ltb_spec A (2 ^ 15)).
  - by rewrite Z.div_small by lia.
  - replace (A / 2 ^ 15) with 1; [done|]. apply Z.div_unique with (A - 2 ^ 15); lia.
Qed.

Lemma mov_addend_signed i : Arm.mov_addend i = signed 16 (imm16 i).
Proof.
  unfold Arm.mov_addend.
  assert (Z.lor (Z.shiftr (Z.land i 0xF0000) 4) (Z.land i 0xFFF) = imm16 i) as -> by (unfold imm16; bitfields).
  apply literal_signed, imm16_bound.
Qed.

Lemma halves x : field 16 16 x * 2 ^ 16 + x mod 2 ^ 16 = x mod 2 ^ 32.
Proof.
  rewrite field_div_mod by lia. change (2 ^ 32) with (2 ^ 16 * 2 ^ 16). rewrite Z.rem_mul_r by lia. lia.
Qed.

(** A MOVW and MOVT pair with the same literal loads the address: the literals
    make the 32-bit number [(S + A) | T], and registers and conditions stay. *)
Theorem arm_mov_pair_loads_address (movw movt S : Z) (T : bool) :
  inst32 movw → inst32 movt → imm16 movt = imm16 movw →
  let A := signed 16 (imm16 movw) in
  let w := Arm.R_ARM_MOVW_ABS_NC movw S T in
  let t := Arm.R_ARM_MOVT_ABS movt S in
  imm16 t * 2 ^ 16 + imm16 w = Z.lor (S + A) (Z.b2z T) mod 2 ^ 32 ∧
  Z.land w 0xFFF0F000 = Z.land movw 0xFFF0F000 ∧ Z.land t 0xFFF0F000 = Z.land movt 0xFFF0F000.
Proof.
  intros Hw Ht E. cbv zeta. unfold inst32 in *.
  unfold Arm.R_ARM_MOVW_ABS_NC, Arm.R_ARM_MOVT_ABS, Arm.mov_set. rewrite !mov_addend_signed, E.
  pose proof (flag_bound T) as Hflag. set (x := S + signed 16 _). rewrite <-halves.
  split; [|split; bitfields]. f_equal; unfold imm16; [f_equal|]; bitfields.
Qed.

(** *** Thumb *)

(** The displacement of BL and B.W: [S:I1:I2:imm10:imm11:0], where
    [I1 = NOT(J1 XOR S)] and [I2 = NOT(J2 XOR S)]. *)
Definition thumb_offset (i : Z) : Z :=
  let s := field 26 1 i in
  let i1 := Z.lxor (Z.lxor (field 13 1 i) s) 1 in
  let i2 := Z.lxor (Z.lxor (field 11 1 i) s) 1 in
  Z.lor (Z.lor (Z.lor (Z.lor (Z.shiftl s 24) (Z.shiftl i1 23)) (Z.shiftl i2 22))
           (Z.shiftl (field 16 10 i) 12)) (Z.shiftl (field 0 11 i) 1).

Definition thumb_displacement (i : Z) : Z := signed 25 (thumb_offset i).

(** The instruction in the bytes that a little-endian store of [r] leaves. *)
Definition thumb_stored (r : Z) : Z :=
  Z.lor (Z.shiftl (Z.land r 0xFFFF) 16) (Z.shiftr (Z.land r 0xFFFF0000) 16).

Lemma thumb_stored_raw i : inst32 i → thumb_stored (Arm.thm_raw i) = i.
Proof. intros Hi. unfold inst32 in Hi. unfold thumb_stored, Arm.thm_raw. bitfields. Qed.

Lemma flag_of_bit x k : 0 ≤ k → Z.land (Z.b2z (truth (Z.land x (Arm.gen_mask 1 k)))) 1 = Z.b2z (Z.testbit x k).
Proof.
  intros. unfold Arm.gen_mask. change (Z.shiftl 1 1 - 1) with 1. rewrite shiftl_1, truth_bit by done.
  by destruct (Z.testbit x k).
Qed.

Lemma j_bit_eq x k y : 0 ≤ k →
  Arm.j_bit (Z.land x (Arm.gen_mask 1 k)) (Z.b2z y) = Z.lxor (Z.b2z (Z.testbit x k)) (Z.lxor (Z.b2z y) 1).
Proof.
  intros. unfold Arm.j_bit. rewrite flag_of_bit by done. destruct y; done.
Qed.

Lemma thumb_encode_offset i x : inst32 i → thumb_offset (Arm.thm_call_encode i x) = Z.land x 0x1FFFFFE.
Proof.
  intros Hi. unfold inst32 in Hi. unfold Arm.thm_call_encode. cbv zeta.
  rewrite !flag_of_bit, !j_bit_eq by lia. unfold thumb_offset.
  change (Arm.gen_mask 11 1) with 0xFFE. change (Arm.gen_mask 10 12) with 0x3FF000. bitfields.
Qed.

(** Two's complement read at a greater width. *)
Lemma signed_extended w n x :
  1 ≤ w ≤ n → signed w x mod 2 ^ n = Z.lor (x mod 2 ^ w) (if Z.testbit x (w - 1) then 2 ^ n - 2 ^ w else 0).
Proof.
  intros H. pose proof (mod_pow2_bound x w ltac:(lia)). pose proof (pow2_double w ltac:(lia)).
  pose proof (Z.pow_le_mono_r 2 w n).
  rewrite (signed_ext w x (x mod 2 ^ w)), signed_cases by (rewrite ?Z.mod_mod; lia).
  assert (Z.testbit x (w - 1) = negb (x mod 2 ^ w <? 2 ^ (w - 1))) as ->.
  { rewrite <-(Z.mod_pow2_bits_low x w) by lia. rewrite Z.testbit_odd, Z.shiftr_div_pow2 by lia.
    destruct (Z.ltb_spec (x mod 2 ^ w) (2 ^ (w - 1))); [by rewrite Z.div_small by lia|].
    replace (x mod 2 ^ w / 2 ^ (w - 1)) with 1; [done|]. apply Z.div_unique with (x mod 2 ^ w - 2 ^ (w - 1)); lia. }
  destruct (Z.ltb_spec (x mod 2 ^ w) (2 ^ (w - 1))); cbn [negb].
  - rewrite Z.lor_0_r. apply Z.mod_small. lia.
  - replace (2 ^ n - 2 ^ w) with (Z.shiftl (2 ^ (n - w) - 1) w).
    2:{ rewrite Z.shiftl_mul_pow2, Z.mul_sub_distr_r, <-Z.pow_add_r by lia. f_equal; [f_equal; lia|lia]. }
    rewrite Z.lor_comm, lor_shiftl_add by lia.
    rewrite Z.mul_sub_distr_r, <-Z.pow_add_r by lia. replace (n - w + w) with n by lia.
    symmetry. apply Z.mod_unique with (-1); lia.
Qed.

Lemma thm_call_addend_signed i : inst32 i → Arm.thm_call_addend i = thumb_displacement i mod 2 ^ 32.
Proof.
  intros Hi. unfold thumb_displacement. rewrite signed_extended by lia. change (25 - 1) with 24.
  assert (Z.testbit (thumb_offset i) 24 = Z.testbit i 26) as ->.
  { unfold inst32 in Hi. apply Z.b2z_inj. unfold thumb_offset. bitfields. }
  unfold inst32 in Hi. unfold Arm.thm_call_addend. cbv zeta. rewrite !flag_of_bit, !j_bit_eq by lia.
  change (Arm.gen_mask 11 0) with 0x7FF. change (Arm.gen_mask 10 16) with 0x3FF0000.
  assert (i = Z.lor (Z.land i 0xFBFFFFFF) (Z.shiftl (Z.b2z (Z.testbit i 26)) 26)) as E by bitfields.
  change (2 ^ 32 - 2 ^ 25) with 0xFE000000.
  unfold thumb_offset. destruct (Z.testbit i 26); cbn [Z.b2z truth Z.eqb negb] in *; rewrite E; bitfields.
Qed.

Lemma lor_flag_mod x y (T : bool) w : 1 ≤ w → x mod 2 ^ w = y mod 2 ^ w → Z.lor x (Z.b2z T) mod 2 ^ w = Z.lor y (Z.b2z T) mod 2 ^ w.
Proof.
  intros Hw E. apply Z.bits_inj'. intros i Hi. rewrite !testbit_mod_pow2, !Z.lor_spec by lia.
  assert ((i <? w) && Z.testbit x i = (i <? w) && Z.testbit y i) as E'.
  { rewrite <-!testbit_mod_pow2 by lia. by rewrite E. }
  destruct (i <? w); cbn in *; [by rewrite E'|done].
Qed.

Lemma thm_inst_word b0 b1 b2 b3 :
  0 ≤ b0 < 2 ^ 8 → 0 ≤ b1 < 2 ^ 8 → 0 ≤ b2 < 2 ^ 8 → 0 ≤ b3 < 2 ^ 8 → inst32 (Arm.thm_inst [b0; b1; b2; b3]).
Proof.
  intros. unfold Arm.thm_inst. cbn [nth]. unfold inst32. set (i := Z.lor _ _).
  assert (i = i mod 2 ^ 32) as -> by (subst i; bitfields). by apply mod_pow2_bound.
Qed.

Lemma even_part x : x - x mod 2 = Z.shiftl (Z.shiftr x 1) 1.
Proof. rewrite Z.shiftl_mul_pow2, Z.shiftr_div_pow2 by lia. change (2 ^ 1) with 2. Z.div_mod_to_equations. lia. Qed.

Lemma thm_range x : Arm.thm_out_of_range (x mod 2 ^ 32) = false ↔ - 2 ^ 24 ≤ signed 32 x < 2 ^ 24.
Proof.
  rewrite (signed_ext 32 x (x mod 2 ^ 32)), signed_cases by (rewrite ?Z.mod_mod; lia || by apply mod_pow2_bound).
  pose proof (mod_pow2_bound x 32 ltac:(lia)) as Hy. set (y := x mod 2 ^ 32) in *. clearbody y.
  unfold Arm.thm_out_of_range.
  assert (Z.land y 0xFF000000 = Z.shiftl (Z.shiftr y 24) 24) as -> by bitfields.
  rewrite Z.shiftl_mul_pow2, Z.shiftr_div_pow2 by lia. change (32 - 1) with 31.
  rewrite negb_false_iff, orb_true_iff, !Z.eqb_eq. zcases; Z.div_mod_to_equations; lia.
Qed.

(** C11: [R_ARM_THM_CALL] and [R_ARM_THM_JUMP*] without a RELA addend: the stored
    instruction branches to where the old one did, moved by the symbol's
    address minus its own, when that is within 16 MiB; the bits of the
    instruction that are no offset are kept; and the warning is given exactly
    for the distances that do not fit. *)
Theorem thumb_call_relocated (b0 b1 b2 b3 P S : Z) (T : bool) :
  0 ≤ b0 < 2 ^ 8 → 0 ≤ b1 < 2 ^ 8 → 0 ≤ b2 < 2 ^ 8 → 0 ≤ b3 < 2 ^ 8 →
  let i := Arm.thm_inst [b0; b1; b2; b3] in
  let x := Z.lor (S + thumb_displacement i) (Z.b2z T) - P in
  let j := thumb_stored (Arm.R_ARM_THM_CALL [b0; b1; b2; b3] None P S T) in
  thumb_displacement j = signed 25 (x - x mod 2) ∧
  (- 2 ^ 24 ≤ x < 2 ^ 24 → thumb_displacement j = x - x mod 2) ∧
  Z.land j 0xF800D000 = Z.land i 0xF800D000 ∧
  (Arm.thm_out_of_range (x mod 2 ^ 32) = false ↔ - 2 ^ 24 ≤ signed 32 x < 2 ^ 24).
Proof.
  intros H0 H1 H2 H3. cbv zeta. pose proof (thm_inst_word b0 b1 b2 b3 H0 H1 H2 H3) as Hi.
  unfold Arm.R_ARM_THM_CALL. set (i := Arm.thm_inst _) in *. cbv zeta.
  set (x := Z.lor (S + thumb_displacement i) (Z.b2z T) - P).
  assert (Z.land (Z.lor (S + Arm.thm_call_addend i) (Z.b2z T) - P) 0xFFFFFFFF = x mod 2 ^ 32) as ->.
  { change 0xFFFFFFFF with (2 ^ 32 - 1). rewrite land_mask by lia. subst x.
    rewrite <-(Zminus_mod_idemp_l (Z.lor _ _)), <-(Zminus_mod_idemp_l (Z.lor (S + thumb_displacement i) _)).
    rewrite (lor_flag_mod _ (S + thumb_displacement i)); [done|lia|].
    rewrite thm_call_addend_signed by done. by rewrite Zplus_mod_idemp_r. }
  set (e := Arm.thm_call_encode i (x mod 2 ^ 32)).
  assert (inst32 e) as He.
  { unfold inst32 in *. assert (e = e mod 2 ^ 32) as ->; [|by apply mod_pow2_bound].
    subst e. unfold Arm.thm_call_encode. cbv zeta. rewrite !flag_of_bit, !j_bit_eq by lia.
    change (Arm.gen_mask 11 1) with 0xFFE. change (Arm.gen_mask 10 12) with 0x3FF000. bitfields. }
  rewrite thumb_stored_raw by done.
  assert (thumb_displacement e = signed 25 (x - x mod 2)) as Hd.
  { unfold thumb_displacement. apply signed_ext; [lia|]. subst e. rewrite thumb_encode_offset by done.
    rewrite even_part. bitfields. }
  split; [done|]. split; [|split].
  - intros Hr. rewrite Hd. apply (signed_id 25); [lia|]. Z.div_mod_to_equations. lia.
  - unfold inst32 in Hi. subst e. unfold Arm.thm_call_encode. cbv zeta. rewrite !flag_of_bit, !j_bit_eq by lia.
    change (Arm.gen_mask 11 1) with 0xFFE. change (Arm.gen_mask 10 12) with 0x3FF000. bitfields.
  - apply thm_range.
Qed.

(** A call at 0x8000 that jumps nowhere yet, to a function at 0x9000. *)
Lemma thumb_call_relocated_witness :
  thumb_displacement (thumb_stored (Arm.R_ARM_THM_CALL [0xFF; 0xF7; 0xFE; 0xFF] None 0x8000 0x9001 true)) = 0xFFC.
Proof. apply (thumb_call_relocated 0xFF 0xF7 0xFE 0xFF 0x8000 0x9001 true); vm_compute; intuition congruence. Defined.

(** The literal of the Thumb MOVW and MOVT, [imm4:i:imm3:imm8]. *)
Definition thumb_imm16 (i : Z) : Z :=
  Z.lor (Z.lor (Z.lor (Z.shiftl (field 16 4 i) 12) (Z.shiftl (field 26 1 i) 11)) (Z.shiftl (field 12 3 i) 8))
    (field 0 8 i).

Lemma thumb_imm16_bound i : 0 ≤ thumb_imm16 i < 2 ^ 16.
Proof.
  assert (thumb_imm16 i = thumb_imm16 i mod 2 ^ 16) as -> by (unfold thumb_imm16; bitfields). by apply mod_pow2_bound.
Qed.

(** The class reads the addend as [i:imm4:imm3:imm8]: the same number when the
    five bits agree, as in a small addend. *)
Lemma thm_mov_addend_signed i :
  - 2 ^ 11 ≤ signed 16 (thumb_imm16 i) < 2 ^ 11 → inst32 i → Arm.thm_mov_addend i = signed 16 (thumb_imm16 i).
Proof.
  intros Hr Hi. unfold Arm.thm_mov_addend. set (A := Z.lor _ (Z.land i 0xFF)).
  assert (A = thumb_imm16 i) as ->; [|apply literal_signed, thumb_imm16_bound].
  assert (field 11 5 (thumb_imm16 i) = 0 ∨ field 11 5 (thumb_imm16 i) = 31) as Ht.
  { pose proof (thumb_imm16_bound i) as Hb. rewrite signed_cases in Hr by (done || lia).
    rewrite field_div_mod by lia. change (16 - 1) with 15 in Hr. revert Hr. zcases; intros; Z.div_mod_to_equations; lia. }
  unfold inst32 in Hi.
  assert (i = Z.lor (Z.land i 0xFBF0FFFF)
                (Z.lor (Z.shiftl (Z.land (field 11 5 (thumb_imm16 i)) 1) 26)
                   (Z.shiftl (Z.shiftr (field 11 5 (thumb_imm16 i)) 1) 16))) as E
    by (unfold thumb_imm16; bitfields).
  subst A. unfold thumb_imm16 at 1.
  destruct Ht as [Ht|Ht]; rewrite Ht in E; clear Ht Hr; rewrite E; bitfields.
Qed.

(** Writing a literal. *)
Lemma thm_mov_set_imm16 i m :
  inst32 i → 0 ≤ m < 2 ^ 16 →
  let j := Arm.thm_mov_set i (Z.shiftr m 12) (Z.land (Z.shiftr m 11) 1) (Z.land (Z.shiftr m 8) 7) (Z.land m 0xFF) in
  inst32 j ∧ thumb_imm16 j = m ∧ Z.land j 0xFBF08F00 = Z.land i 0xFBF08F00.
Proof.
  unfold inst32. intros Hi Hm. cbv zeta. unfold Arm.thm_mov_set. set (j := Z.lor _ _).
  assert (j = j mod 2 ^ 32) as Hj by (subst j; bitfields).
  split; [rewrite Hj; by apply mod_pow2_bound|]. subst j. clear Hj. unfold thumb_imm16. split; bitfields.
Qed.

(** A Thumb MOVW and MOVT pair with the same small literal loads the address. *)
Theorem thumb_mov_pair_loads_address (w0 w1 w2 w3 t0 t1 t2 t3 S : Z) (T : bool) :
  Forall (λ b, 0 ≤ b < 2 ^ 8) [w0; w1; w2; w3; t0; t1; t2; t3] →
  let movw := Arm.thm_inst [w0; w1; w2; w3] in
  let movt := Arm.thm_inst [t0; t1; t2; t3] in
  let A := signed 16 (thumb_imm16 movw) in
  let w := thumb_stored (Arm.R_ARM_THM_MOVW_ABS_NC [w0; w1; w2; w3] S T) in
  let t := thumb_stored (Arm.R_ARM_THM_MOVT_ABS [t0; t1; t2; t3] S) in
  thumb_imm16 movt = thumb_imm16 movw → - 2 ^ 11 ≤ A < 2 ^ 11 →
  thumb_imm16 t * 2 ^ 16 + thumb_imm16 w = Z.lor (S + A) (Z.b2z T) mod 2 ^ 32 ∧
  Z.land w 0xFBF08F00 = Z.land movw 0xFBF08F00 ∧ Z.land t 0xFBF08F00 = Z.land movt 0xFBF08F00.
Proof.
  intros Hb. cbv zeta.
  repeat match goal with H : Forall _ (_ :: _) |- _ => apply Forall_cons_1 in H as [? H] end.
  assert (inst32 (Arm.thm_inst [w0; w1; w2; w3])) as Hw by by apply thm_inst_word.
  assert (inst32 (Arm.thm_inst [t0; t1; t2; t3])) as Ht by by apply thm_inst_word.
  unfold Arm.R_ARM_THM_MOVW_ABS_NC, Arm.R_ARM_THM_MOVT_ABS.
  revert Hw Ht. generalize (Arm.thm_inst [w0; w1; w2; w3]) (Arm.thm_inst [t0; t1; t2; t3]).
  intros movw movt Hw Ht E Hr. cbv zeta.
  rewrite !thm_mov_addend_signed by (rewrite ?E; done). rewrite E.
  pose proof (flag_bound T) as Hflag. generalize (S + signed 16 (thumb_imm16 movw)). intros x.
  replace (Z.shiftr (Z.land x 0xFFFF0000) 28) with (Z.shiftr (field 16 16 x) 12) by bitfields.
  replace (Z.land (Z.shiftr (Z.land x 0xFFFF0000) 27) 1) with (Z.land (Z.shiftr (field 16 16 x) 11) 1) by bitfields.
  replace (Z.land (Z.shiftr (Z.land x 0xFFFF0000) 24) 7) with (Z.land (Z.shiftr (field 16 16 x) 8) 7) by bitfields.
  replace (Z.land (Z.shiftr (Z.land x 0xFFFF0000) 16) 0xFF) with (Z.land (field 16 16 x) 0xFF) by bitfields.
  change 0xFFFF with (2 ^ 16 - 1). rewrite land_mask by lia.
  destruct (thm_mov_set_imm16 movw (Z.lor x (Z.b2z T) mod 2 ^ 16)) as (Iw & Ew & Kw);
    [done|by apply mod_pow2_bound|].
  destruct (thm_mov_set_imm16 movt (field 16 16 x)) as (It & Et & Kt); [done|by apply field_bound|].
  rewrite !thumb_stored_raw, Ew, Et by done. rewrite <-halves. repeat split; [|done..].
  f_equal. f_equal. bitfields.
Qed.

(** A literal of [0x800] is read as [0x8000], so the pair loads [S - 0x8000]. *)
Lemma thumb_mov_misreads_literal :
  let movw := [0x40; 0xF6; 0; 0] in
  thumb_imm16 (Arm.thm_inst movw) = 0x800 ∧ Arm.thm_mov_addend (Arm.thm_inst movw) = -0x8000 ∧
  thumb_imm16 (thumb_stored (Arm.R_ARM_THM_MOVW_ABS_NC movw 0x10000 false)) = 0x8000.
Proof. by vm_compute. Qed.

End RelocFields.
