(* ===== verification/RelocPairs.v ===== *)
(** * Addresses built by two instructions, and long branches

    The theorems of [RelocFields] for AArch64, PowerPC, MIPS, SPARC and the
    fixups of portable executables: a page and an offset, a high and a low half,
    or a branch displacement, read back as the processor does. *)

From Stdlib Require Import ZArith Lia Bool.
From stdpp Require Import base tactics list numbers.
From S2P Require Import Prelude Bitfields RelocCode RelocFields.
Import Bitfields RelocCode RelocFields.

Module RelocPairs.

Lemma reach P d t : d = t - P → P + d = t.
Proof. lia. Qed.

(** ** AArch64 *)

(** B and BL: [imm26] words from the instruction. *)
Theorem branch26_reaches_target (inst P A S : Z) :
  inst32 inst → (S + A - P) mod 4 = 0 → - 2 ^ 27 ≤ S + A - P < 2 ^ 27 →
  let r := Arm64.branch26 inst (S + A - P) in
  P + displacement 2 26 (field 0 26 r) = S + A ∧ field 26 6 r = field 26 6 inst ∧
  Arm64.out_of_range (S + A - P) (2 ^ 27) = false.
Proof.
  intros Hi Hm Hr. cbv zeta. split; [apply reach|split];
    generalize dependent (S + A - P); intros x Hm Hr; unfold inst32 in Hi; unfold Arm64.branch26;
    [|bitfields|unfold Arm64.out_of_range; zcases; lia].
  replace (field 0 26 _) with (field 2 26 x) by bitfields. by rewrite displacement_exact by done.
Qed.

(** ADRP: [immhi:immlo] pages. *)
Definition adrp_displacement (i : Z) : Z := displacement 12 21 (Z.lor (Z.shiftl (field 5 19 i) 2) (field 29 2 i)).

Lemma page_mod x : Z.land x (Z.lnot 0xFFF) = x - x mod 2 ^ 12.
Proof.
  change 0xFFF with (Z.ones 12). rewrite <-Z.ldiff_land, Z.ldiff_ones_r by lia.
  rewrite Z.shiftl_mul_pow2, Z.shiftr_div_pow2 by lia. Z.div_mod_to_equations. lia.
Qed.

Lemma page_offset_multiple P A S : Arm64.page_offset P A S mod 2 ^ 12 = 0.
Proof. unfold Arm64.page_offset. rewrite !page_mod. Z.div_mod_to_equations. lia. Qed.

(** C12: ADRP and ADD, when the distance of the pages is at least -2^32 and less than
    2^32: the page of the instruction, the distance in pages and the offset add
    up to the address; and both instructions keep their registers. *)
Theorem adrp_add_address (adrp add P A S : Z) :
  inst32 adrp → inst32 add → - 2 ^ 32 ≤ Arm64.page_offset P A S < 2 ^ 32 →
  let p := Arm64.R_AARCH64_ADR_PREL_PG_HI21 adrp (Arm64.page_offset P A S) in
  let a := Arm64.R_AARCH64_ADD_ABS_LO12_NC add (S + A) in
  Z.land P (Z.lnot 0xFFF) + adrp_displacement p + field 10 12 a = S + A ∧
  Z.land p 0x9F00001F = Z.land adrp 0x9F00001F ∧ Z.land a 0xFFC003FF = Z.land add 0xFFC003FF.
Proof.
  intros Hp Ha Hr. cbv zeta. pose proof (page_offset_multiple P A S) as Hm.
  assert (Z.land P (Z.lnot 0xFFF) + Arm64.page_offset P A S + (S + A) mod 2 ^ 12 = S + A) as E.
  { unfold Arm64.page_offset. rewrite !page_mod. lia. }
  generalize dependent (Arm64.page_offset P A S). intros v Hr Hm E. rewrite <-E at 2. unfold inst32 in *.
  unfold Arm64.R_AARCH64_ADR_PREL_PG_HI21, Arm64.R_AARCH64_ADD_ABS_LO12_NC.
  split; [|split; bitfields]. f_equal; [f_equal|generalize (S + A); intros; bitfields].
  unfold adrp_displacement. replace (Z.lor (Z.shiftl (field 5 19 _) 2) _) with (field 12 21 v) by bitfields.
  by apply displacement_exact.
Qed.

Lemma adrp_add_address_witness :
  let p := Arm64.R_AARCH64_ADR_PREL_PG_HI21 0x90000000 (Arm64.page_offset 0x400123 0x10 0x7FF678) in
  0x400000 + adrp_displacement p + field 10 12 (Arm64.R_AARCH64_ADD_ABS_LO12_NC 0x91000000 0x7FF688) = 0x7FF688.
Proof. apply (adrp_add_address 0x90000000 0x91000000 0x400123 0x10 0x7FF678); vm_compute; intuition congruence. Defined.

(** Loads and stores scale the offset by the size of the access. *)
Theorem ldst_offset (k inst v : Z) :
  0 ≤ k ≤ 4 → inst32 inst → v mod 2 ^ k = 0 →
  let r := Arm64.ldst_scaled k inst v in
  Z.shiftl (field 10 12 r) k = v mod 2 ^ 12 ∧ Z.land r 0xFFC003FF = Z.land inst 0xFFC003FF.
Proof.
  intros Hk Hi Hv. cbv zeta. unfold inst32 in Hi. unfold Arm64.ldst_scaled.
  assert (v = Z.shiftl (Z.shiftr v k) k) as E.
  { rewrite Z.shiftl_mul_pow2, Z.shiftr_div_pow2 by lia. pose proof (pow2_pos k). Z.div_mod_to_equations. lia. }
  generalize dependent (Z.shiftr v k). intros q ->.
  assert (k = 0 ∨ k = 1 ∨ k = 2 ∨ k = 3 ∨ k = 4) as [->|[->|[->|[->| ->]]]] by lia; split; bitfields.
Qed.

(** ** PowerPC *)

(** [#ha] makes up for the sign of the low half. *)
Lemma ha_lo x : signed 16 (Ppc.ha x) * 2 ^ 16 + signed 16 (Ppc.lo x) = signed 16 (Ppc.ha x) * 2 ^ 16 + signed 16 x.
Proof.
  f_equal. apply signed_ext; [lia|]. unfold Ppc.lo, Ppc.PPC_HALF16. change 0xFFFF with (2 ^ 16 - 1).
  rewrite land_mask by lia. apply Z.mod_mod. lia.
Qed.

Lemma ha_eq x : Ppc.ha x = ((x - signed 16 x) / 2 ^ 16) mod 2 ^ 16.
Proof.
  unfold Ppc.ha, Ppc.PPC_HALF16. change 0xFFFF with (2 ^ 16 - 1). rewrite land_mask by lia. f_equal.
  change 0x8000 with (2 ^ 15). rewrite truth_bit, Z.shiftr_div_pow2 by lia.
  pose proof (mod_pow2_bound x 16 ltac:(lia)).
  rewrite (signed_ext 16 x (x mod 2 ^ 16)), signed_cases by (rewrite ?Z.mod_mod; lia).
  rewrite <-(Z.mod_pow2_bits_low x 16) by lia. rewrite Z.testbit_odd, Z.shiftr_div_pow2 by lia.
  change (16 - 1) with 15. destruct (Z.ltb_spec (x mod 2 ^ 16) (2 ^ 15)).
  - rewrite (Z.div_small (x mod 2 ^ 16) (2 ^ 15)) by lia. cbn [Z.odd]. Z.div_mod_to_equations. lia.
  - replace (x mod 2 ^ 16 / 2 ^ 15) with 1; [cbn [Z.odd]|apply Z.div_unique with (x mod 2 ^ 16 - 2 ^ 15); lia].
    Z.div_mod_to_equations. lia.
Qed.

(** ADDIS with [#ha] and ADDI with [#lo], and ORIS with [#hi] and ORI with
    [#lo], make the address; with the offset from a base, within two gigabytes,
    the sum of the signed halves is the offset itself. *)
Theorem half_words_make_address (x : Z) :
  (Ppc.ha x * 2 ^ 16 + signed 16 (Ppc.lo x)) mod 2 ^ 32 = x mod 2 ^ 32 ∧
  Ppc.hi x * 2 ^ 16 + Ppc.lo x = x mod 2 ^ 32 ∧
  (- 2 ^ 31 ≤ x + 2 ^ 15 < 2 ^ 31 → signed 16 (Ppc.ha x) * 2 ^ 16 + signed 16 (Ppc.lo x) = x).
Proof.
  assert (signed 16 (Ppc.lo x) = signed 16 x) as El by (pose proof (ha_lo x); lia).
  assert ((x - signed 16 x) mod 2 ^ 16 = 0) as Ed.
  { rewrite <-Zminus_mod_idemp_r, signed_congruent, Zminus_mod_idemp_r by lia. by rewrite Z.sub_diag. }
  pose proof (signed_bounds 16 x ltac:(lia)) as Hs. rewrite El, ha_eq. split; [|split].
  - rewrite <-Zplus_mod_idemp_l. change (2 ^ 32) with (2 ^ 16 * 2 ^ 16).
    rewrite Zmult_mod_distr_r, Z.mod_mod, <-Zmult_mod_distr_r, Zplus_mod_idemp_l by lia.
    f_equal. Z.div_mod_to_equations. lia.
  - unfold Ppc.hi, Ppc.lo, Ppc.PPC_HALF16. rewrite <-halves. change 0xFFFF with (2 ^ 16 - 1) at 2.
    rewrite land_mask by lia. f_equal.
  - intros Hr. rewrite (signed_ext 16 _ ((x - signed 16 x) / 2 ^ 16)) by (rewrite ?Z.mod_mod; lia).
    rewrite (signed_id 16); Z.div_mod_to_equations; lia.
Qed.

Lemma half_words_make_address_witness : signed 16 (Ppc.ha 0x12348765) * 2 ^ 16 + signed 16 (Ppc.lo 0x12348765) = 0x12348765.
Proof. apply (half_words_make_address 0x12348765). vm_compute. intuition congruence. Defined.

(** [R_PPC64_REL24]: the branch reaches the target, and the opcode and the bits
    [AA] and [LK] stay. *)
Theorem ppc64_rel24_reaches_target (inst P A S : Z) :
  inst32 inst → (S + A - P) mod 4 = 0 → - 2 ^ 25 ≤ S + A - P < 2 ^ 25 →
  let r := Ppc.R_PPC64_REL24 inst (Z.shiftr (S + A - P) 2) in
  P + displacement 2 24 (field 2 24 r) = S + A ∧
  field 26 6 r = field 26 6 inst ∧ field 0 2 r = field 0 2 inst.
Proof.
  intros Hi Hm Hr. cbv zeta. split; [apply reach|];
    generalize dependent (S + A - P); intros x Hm Hr; unfold inst32 in Hi; unfold Ppc.R_PPC64_REL24;
    [|split; bitfields].
  replace (field 2 24 _) with (field 2 24 x) by bitfields. by rewrite displacement_exact by done.
Qed.

(** [R_PPC_REL24] makes a new instruction out of the addend: always a BL, when
    the addend is small and not negative. *)
Theorem ppc_rel24_is_bl (P A S : Z) :
  0 ≤ A < 2 ^ 26 → A mod 4 = 0 → (S + A - P) mod 4 = 0 → - 2 ^ 25 ≤ S + A - P < 2 ^ 25 →
  let r := Ppc.R_PPC_REL24 P A S in
  P + displacement 2 24 (field 2 24 r) = S + A ∧ field 26 6 r = 18 ∧ field 0 2 r = 1.
Proof.
  intros HA HmA Hm Hr. cbv zeta. unfold Ppc.R_PPC_REL24, Ppc.PPC_LOW24, Ppc.PPC_BL_INST.
  assert (Z.land A (Z.lnot 0x03FFFFFC) = 0) as ->.
  { transitivity (A mod 2 ^ 2); [bitfields|done]. }
  split; [apply reach|]; generalize dependent (S + A - P); intros x Hm Hr; [|split; bitfields].
  replace (field 2 24 _) with (field 2 24 x) by bitfields. by rewrite displacement_exact by done.
Qed.

(** A negative addend fills the opcode with ones. *)
Lemma ppc_rel24_negative_addend : field 26 6 (Ppc.R_PPC_REL24 0x1000 (-4) 0x2000) = 63.
Proof. by vm_compute. Qed.

(** [R_PPC_REL14] too is made of the addend, not of the instruction at the
    place: for the addends that occur the opcode is 0, not that of a branch. *)
Theorem ppc_rel14_loses_opcode (P A S : Z) : 0 ≤ A < 2 ^ 16 → field 26 6 (Ppc.R_PPC_REL14 P A S) = 0.
Proof.
  intros HA. unfold Ppc.R_PPC_REL14, Ppc.PPC_LOW14. generalize (S + A - P). intros x. bitfields.
Qed.

(** ** MIPS *)

Lemma c_int16_signed x : c_int16 x = signed 16 x.
Proof.
  unfold c_int16. change 0xFFFF with (2 ^ 16 - 1). rewrite land_mask by lia.
  rewrite (signed_ext 16 x (x mod 2 ^ 16)), signed_cases;
    [change (16 - 1) with 15; done|lia|by apply mod_pow2_bound|lia|by rewrite Z.mod_mod].
Qed.

(** C13: [R_MIPS_HI16] and the [R_MIPS_LO16] it is matched with: together the fields
    held an addend of 32 bits, and hold the address plus this addend. *)
Theorem mips_pair_adds_address (S hi lo : Z) :
  let h := Mips.R_MIPS_HI16 S hi lo mod 2 ^ 16 in
  let l := Mips.R_MIPS_LO16 S lo in
  (h * 2 ^ 16 + signed 16 l) mod 2 ^ 32 = (S + (hi * 2 ^ 16 + signed 16 lo)) mod 2 ^ 32.
Proof.
  cbv zeta. unfold Mips.R_MIPS_HI16, Mips.R_MIPS_LO16. rewrite !c_int16_signed.
  change 0xFFFF with (2 ^ 16 - 1). rewrite land_mask by lia.
  rewrite (signed_ext 16 ((S + lo) mod 2 ^ 16) (S + signed 16 lo)).
  2: lia.
  2:{ rewrite Z.mod_mod, <-Zplus_mod_idemp_r, <-(Zplus_mod_idemp_r (signed 16 lo)), signed_congruent; lia. }
  set (y := S + signed 16 lo).
  assert ((y - signed 16 y) mod 2 ^ 16 = 0) as Ed.
  { rewrite <-Zminus_mod_idemp_r, signed_congruent, Zminus_mod_idemp_r by lia. by rewrite Z.sub_diag. }
  rewrite Z.shiftr_div_pow2 by lia. rewrite <-Zplus_mod_idemp_l. change (2 ^ 32) with (2 ^ 16 * 2 ^ 16).
  rewrite Zmult_mod_distr_r, Z.mod_mod, <-Zmult_mod_distr_r, Zplus_mod_idemp_l by lia.
  f_equal. subst y. Z.div_mod_to_equations. lia.
Qed.

(** [R_MIPS_26] adds to the whole word: the opcode survives exactly when the sum
    fits the field, and then the field is the sum. *)
Theorem mips_26_carries_into_opcode (inst S : Z) :
  inst32 inst → 0 ≤ S < 2 ^ 32 →
  let r := Mips.R_MIPS_26 inst S mod 2 ^ 32 in
  (field 26 6 r = field 26 6 inst ↔ field 0 26 inst + S / 4 < 2 ^ 26) ∧
  (field 0 26 inst + S / 4 < 2 ^ 26 → field 0 26 r = field 0 26 inst + S / 4).
Proof.
  intros Hi HS. cbv zeta. unfold Mips.R_MIPS_26, inst32 in *. rewrite !field_div_mod by lia.
  change (2 ^ 0) with 1. rewrite !Z.div_1_r.
  pose proof (Z.div_mod inst (2 ^ 26) ltac:(lia)). pose proof (mod_pow2_bound inst 26 ltac:(lia)).
  assert (0 ≤ S / 4 < 2 ^ 30) as HS4 by (split; [apply Z.div_pos; lia|apply Z.div_lt_upper_bound; lia]).
  generalize dependent (S / 4). intros q Hq. set (o := inst / 2 ^ 26) in *. set (f := inst mod 2 ^ 26) in *.
  assert (0 ≤ o < 2 ^ 6) as Ho by (subst o; split; [apply Z.div_pos; lia|apply Z.div_lt_upper_bound; lia]).
  rewrite (Z.mod_small o) by done. replace inst with (2 ^ 26 * o + f) by lia. clearbody o f.
  split; [split|]; intros; Z.div_mod_to_equations; lia.
Qed.

(** ** SPARC *)

(** SETHI and OR. *)
Theorem sparc_pair_loads_address (sethi or A S : Z) :
  inst32 sethi → inst32 or →
  let h := Sparc.R_SPARC_HI22 sethi A S in
  let l := Sparc.R_SPARC_LO10 or A S in
  Z.lor (Z.shiftl (field 0 22 h) 10) (field 0 13 l) = (S + A) mod 2 ^ 32 ∧
  Z.land h 0xFFC00000 = Z.land sethi 0xFFC00000 ∧ Z.land l 0xFFFFE000 = Z.land or 0xFFFFE000.
Proof.
  intros Hh Hl. cbv zeta. unfold inst32, Sparc.R_SPARC_HI22, Sparc.R_SPARC_LO10 in *.
  generalize (S + A). intros x. split; [|split]; bitfields.
Qed.

(** CALL. *)
Theorem sparc_call_reaches_target (inst P A S : Z) :
  inst32 inst → (S + A - P) mod 4 = 0 →
  let r := Sparc.R_SPARC_WDISP30 inst P A S in
  (P + displacement 2 30 (field 0 30 r)) mod 2 ^ 32 = (S + A) mod 2 ^ 32 ∧ field 30 2 r = field 30 2 inst.
Proof.
  intros Hi Hm. cbv zeta. unfold Sparc.R_SPARC_WDISP30. unfold inst32 in Hi.
  split; [|generalize (S + A - P); intros; bitfields].
  replace (field 0 30 _) with (field 2 30 (S + A - P)) by (generalize (S + A - P); intros; bitfields).
  rewrite displacement_field by done. change (2 + 30) with 32.
  rewrite <-Zplus_mod_idemp_r, signed_congruent, Zplus_mod_idemp_r by lia. f_equal. lia.
Qed.

(** ** Portable executables *)

(** Reading and writing the literal of a Thumb MOVW or MOVT: each undoes the
    other, the last write stays, and the other bits are kept. *)
Theorem thumb_mov_literal_roundtrip (instr v v' : Z) :
  inst32 instr → 0 ≤ v < 2 ^ 16 → 0 ≤ v' < 2 ^ 16 →
  Pe._thumb_mov_imm16 (Pe._thumb_mov_set_imm16 instr v) = v ∧
  Pe._thumb_mov_set_imm16 instr (Pe._thumb_mov_imm16 instr) = instr ∧
  Pe._thumb_mov_set_imm16 (Pe._thumb_mov_set_imm16 instr v) v' = Pe._thumb_mov_set_imm16 instr v' ∧
  Z.land (Pe._thumb_mov_set_imm16 instr v) 0x8F00FBF0 = Z.land instr 0x8F00FBF0 ∧
  inst32 (Pe._thumb_mov_set_imm16 instr v).
Proof.
  intros Hi Hv Hv'. unfold inst32, Pe._thumb_mov_imm16, Pe._thumb_mov_set_imm16 in *. cbv zeta.
  split; [|split; [|split; [|split]]]; [bitfields..|].
  set (r := Z.lor _ _). assert (r = r mod 2 ^ 32) as -> by (subst r; bitfields). by apply mod_pow2_bound.
Qed.

End RelocPairs.
