(* ===== verification/RelocFrame.v ===== *)
(** * What a relocation may change

    A small program logic for the methods of [Relocation], and the frame theorem:
    a relocation changes no byte of its object outside the span its class
    writes, whether it succeeds or raises; and [Backend.relocate] no byte
    outside the spans of the object's relocations.  These are compared with the
    documented fields. *)

From Stdlib Require Import ZArith Lia Bool String.
From stdpp Require Import base tactics list numbers strings gmap.
From S2P Require Import Prelude Clemory ClemoryFacts RelocCode RelocClasses Relocation.
Import Clemory ClemoryFacts RelocCode RelocClasses Relocs.
Open Scope list_scope.

Module RelocFrame.

(** ** [pack_word] is a [store] *)

Lemma pack_is_store a h c addr fmt v h' :
  wf h c → 1 ≤ calcsize fmt → pack (as_base a c) h addr fmt v = Ok h' →
  ∃ bs, len bs = calcsize fmt ∧ store h c addr bs = (h', Ok tt).
Proof.
  intros Hwf Hn. unfold pack, locate, store. cbn [as_base b_backers mbind result_bind]. rewrite backers_from by done.
  destruct (first_leaf h c addr Hwf) as [[-> _]|(s & b & F & EF & HF & Hend & _)]; [done|]. rewrite EF.
  cbn [chunks fmap list_fmap]. destruct (Z.ltb_spec addr s); [done|]. cbn [mbind result_bind]. unfold pack_into, chunk_kind.
  cbn [cbuf clo clen whole]. change (len (contents (buffer_at h b))) with (size h b).
  destruct (bool_decide _); [done|]. destruct (Z.ltb_spec (size h b - (addr - s)) (calcsize fmt)); cbn [orb].
  { unfold _classify_struct_error. by destruct (_ <? _). }
  destruct (fits v _ _) eqn:Hf; cbn [negb]; [|by unfold _classify_struct_error; destruct (_ <? _)].
  destruct (int_to_bytes _ _ _ _) as [bs|] eqn:Ebs; cbn [mbind result_bind]; [|by unfold int_to_bytes in Ebs; rewrite Hf in Ebs].
  destruct (int_bytes_roundtrip _ _ _ _ _ Hn Ebs) as [Elen _]. intros [= <-]. exists bs. split; [done|].
  cbn [store_loop cbuf clen whole]. destruct (Z.ltb_spec addr s); [lia|].
  change (len (contents (buffer_at h b))) with (size h b). rewrite Elen.
  destruct (Z.leb_spec (calcsize fmt) (size h b - (addr - s))); [|lia].
  rewrite Z.add_0_l, <-Elen, py_slice_rest, drop_ge; [done|unfold len in *; lia|lia].
Qed.

(** The bytes of a memory outside an interval are the same, and so are the
    buffers that are no leaves of it. *)
Definition framed (c : clemory) (lo n : Z) (h h' : heap) : Prop :=
  same_shape h h' ∧ (∀ k, ¬ (lo ≤ k < lo + n) → mem h' c k = mem h c k) ∧
  ∀ b, b ∉ (flat c).*2 → buffer_at h' b = buffer_at h b.

Lemma framed_refl c lo n h : framed c lo n h h.
Proof. by repeat split. Qed.

Lemma framed_trans c lo n h1 h2 h3 : framed c lo n h1 h2 → framed c lo n h2 h3 → framed c lo n h1 h3.
Proof.
  intros (Hs1 & H1 & H1') (Hs2 & H2 & H2'). split; [|split; [intros k Hk|intros b Hb]].
  - intros b. destruct (Hs1 b), (Hs2 b). split; congruence.
  - by rewrite H2, H1.
  - by rewrite H2', H1'.
Qed.

Lemma framed_weaken c lo n lo' n' h h' : lo' ≤ lo → lo + n ≤ lo' + n' → framed c lo n h h' → framed c lo' n' h h'.
Proof. intros ?? (Hs & H & H'). repeat split; [apply Hs..| |done]. intros k Hk. apply H. lia. Qed.

Lemma store_nothing h c addr : wf h c → (store h c addr []).1 = h.
Proof. intros Hwf. by destruct (store_empty h c addr Hwf) as [[-> _]|[-> _]]. Qed.
Lemma length_landed f addr data : len (landed f addr data) ≤ len data.
Proof. unfold landed, len. rewrite length_take. lia. Qed.

Lemma buffer_at_insert h b x b' : b ≠ b' → buffer_at (<[b := x]> h) b' = buffer_at h b'.
Proof. intros Hb. unfold buffer_at. by rewrite (list_lookup_insert_ne h). Qed.

(** The loop writes to the buffers it is given. *)
Lemma store_loop_buffers bs h addr data b :
  b ∉ (λ e, cbuf e.2) <$> bs → buffer_at (store_loop h bs addr data).1 b = buffer_at h b.
Proof.
  revert h addr data. induction bs as [|[s ch] bs IH]; intros h addr data Hb; cbn [store_loop]; [by destruct data|].
  destruct (_ <? _); [done|]. cbv zeta. cbn in Hb. apply not_elem_of_cons in Hb as [Hne Hb].
  destruct (py_slice data _ _); cbn [fst]; rewrite ?IH by done; by apply buffer_at_insert.
Qed.

Lemma store_buffers h c addr data b :
  wf h c → b ∉ (flat c).*2 → buffer_at (store h c addr data).1 b = buffer_at h b.
Proof.
  intros Hwf Hb. unfold store. rewrite backers_from by done. apply store_loop_buffers.
  unfold chunks. rewrite <-list_fmap_compose. intros ([s b'] & -> & He)%list_elem_of_fmap. apply Hb.
  apply list_elem_of_fmap. exists (s, b'). split; [done|]. unfold from in He. by apply list_elem_of_filter in He as [_ He].
Qed.

Lemma store_framed h c addr data :
  wf h c → NoDup (flat c).*2 → framed c addr (len data) h (store h c addr data).1.
Proof.
  intros Hwf Hnd. destruct (decide (data = [])) as [->|Hd]; [rewrite store_nothing by done; apply framed_refl|].
  pose proof (λ b, store_buffers h c addr data b Hwf) as Hb.
  pose proof (store_spec h c addr data Hwf Hnd Hd) as H. destruct (store h c addr data) as [h' r]. cbn [fst] in *.
  destruct H as (Hs & Hm & _). split; [done|]. split; [|done]. intros k Hk. rewrite Hm. unfold overlay.
  pose proof (length_landed (mem h c) addr data). zcases; try done; lia.
Qed.

Lemma pack_word_framed a h c addr v size signed endness :
  wf h c → NoDup (flat c).*2 → 
  framed c addr (default (bytes a) size) h (pack_word (as_base a c) h addr v size signed endness).1.
Proof.
  intros Hwf Hnd. unfold pack_word. cbn [as_base _arch b_load b_store]. set (w := default (bytes a) size).
  destruct (Z.leb_spec w 0); [apply framed_refl|]. destruct (bool_decide (w ∉ _)).
  - destruct (load h c addr w) as [old|]; [|apply framed_refl]. destruct (len old =? w); [|apply framed_refl]. cbn [negb].
    destruct (_byteorder _) as [big|]; cbn [mbind result_bind]; [|apply framed_refl].
    destruct (int_to_bytes _ w big signed) as [bs|] eqn:Ebs; [|apply framed_refl].
    destruct (int_bytes_roundtrip _ w big signed bs ltac:(lia) Ebs) as [<- _]. by apply store_framed.
  - destruct (struct_fmt w signed _) as [fmt|] eqn:Ef; cbn [mbind result_bind]; [|apply framed_refl].
    unfold atomic. set (x := if signed then _ else _). change (mkBase _ _ _ _ _ _ _ _) with (as_base a c).
    destruct (pack (as_base a c) h addr fmt x) as [h1|] eqn:Ep; [|apply framed_refl].
    assert (calcsize fmt = w) as Ew.
    { unfold struct_fmt in Ef. destruct (default _ endness); try done; cbn in Ef;
        (destruct (bool_decide (w ∈ _)); [|done]); by injection Ef as <-. }
    destruct (pack_is_store a h c addr fmt x h1 Hwf ltac:(lia) Ep) as (bs & Elen & Est).
    cbn [fst]. pose proof (store_framed h c addr bs Hwf Hnd) as H'. rewrite Est in H'. by rewrite <-Ew, <-Elen.
Qed.

(** A load gives at most as many bytes as it is asked for. *)
Lemma byte_memory_same_shape h h' c : same_shape h h' → byte_memory h c → byte_memory h' c.
Proof.
  intros Hs [Hwf Hb]. split; [by eapply wf_same_shape|].
  eapply Forall_impl; [exact Hb|]. intros e. cbn. by destruct (Hs e.2) as [_ ->].
Qed.

Lemma len_run f addr k : len (run f addr k) ≤ Z.of_nat k.
Proof.
  revert addr. induction k as [|k IH]; intros addr; cbn [run]; [done|].
  destruct (f addr); [|unfold len; cbn [length]; lia]. rewrite len_cons. specialize (IH (addr + 1)). lia.
Qed.

Lemma load_len h c addr k bs : byte_memory h c → 0 ≤ k → load h c addr k = Ok bs → len bs ≤ k.
Proof.
  intros Hb Hk. destruct (decide (k = 0)) as [->|].
  - unfold load. rewrite backers_from by apply Hb.
    destruct (first_leaf h c addr (proj1 Hb)) as [[-> _]|(s & b & F & -> & _ & Hend & _)]; [done|].
    cbn [chunks fmap list_fmap load_loop clen cbuf whole]. destruct (Z.ltb_spec addr s); [done|].
    destruct (bool_decide _); [done|]. change (len (contents (buffer_at h b))) with (size h b).
    rewrite bool_decide_true by done. destruct (Z.ltb_spec (addr - s + 0) (size h b)); [|lia]. cbn [andb].
    intros [= <-]. unfold py_slice. replace (Z.to_nat _) with 0%nat; [done|]. rewrite Z.add_0_r. lia.
  - rewrite load_spec by (done || lia). pose proof (len_run (mem h c) addr (Z.to_nat k)).
    destruct (run _ _ _) eqn:E; [done|]. intros [= <-]. lia.
Qed.

(** ** A logic for methods *)

Lemma run_bind {A B} (m : M A) (f : A → M B) w w' a : m w = (w', Ok a) → (m ≫= f) w = f a w'.
Proof. intros E. unfold mbind, M_bind. by rewrite E. Qed.

Lemma run_bind_err {A B} (m : M A) (f : A → M B) w w' e : m w = (w', Err e) → (m ≫= f) w = (w', Err e).
Proof. intros E. unfold mbind, M_bind. by rewrite E. Qed.

Lemma bind_ret {A B} (a : A) (f : A → M B) w : (mret a ≫= f) w = f a w.
Proof. reflexivity. Qed.

Lemma reloc_some w i x : relocations w !! i = Some x → reloc i w = (w, Ok x).
Proof. intros E. unfold reloc. cbv [mbind M_bind get]. by rewrite E. Qed.

Lemma reloc_none w i : relocations w !! i = None → reloc i w = (w, Err AttributeError).
Proof. intros E. unfold reloc. cbv [mbind M_bind get]. by rewrite E. Qed.

Lemma backend_some w i b : backends w !! i = Some b → backend i w = (w, Ok b).
Proof. intros E. unfold backend. cbv [mbind M_bind get]. by rewrite E. Qed.

Lemma symbol_some w i y : symbols w !! i = Some y → symbol i w = (w, Ok y).
Proof. intros E. unfold symbol. cbv [mbind M_bind get]. by rewrite E. Qed.

(** What a relocation keeps of itself and of its object while it is applied. *)
Definition place (x : Reloc) : cls * nat * option nat * Z * option nat * bool :=
  (r_cls x, r_owner x, r_symbol x, r_relative_addr x, r_resolvedby x, r_resolved x).

Definition settled (b : Backend) : Machine * clemory * Z * Z * list nat * bool * option (gmap string Z) :=
  (o_arch b, memory b, linked_base b, mapped_base b, relocs b, is_ppc64_abiv1 b, _dynamic b).

(** The bytes of the fixups of portable executables. *)
Definition fixup_size (c : cls) : Z :=
  match c with
  | PE IMAGE_REL_BASED_HIGHADJ | PE IMAGE_REL_BASED_HIGHLOW => 4
  | PE IMAGE_REL_BASED_DIR64 | PE IMAGE_REL_BASED_THUMB_MOV32 => 8
  | PE IMAGE_REL_BASED_HIGH | PE IMAGE_REL_BASED_LOW => 2
  | _ => 0
  end.

Lemma mro_fixups c : Forall (λ c', fixup_size c' = 0 ∨ c' = c) (mro c).
Proof. apply (bool_decide_unpack _). by destruct c as [[]|[]|[]|[]|[]|[]|[]|[]|[]|[]|[]|[]]; vm_compute. Qed.

Lemma lookup_attribute_elem {A} (own : cls → option A) cs a :
  lookup_attribute own cs = Some a → ∃ c, c ∈ cs ∧ own c = Some a.
Proof.
  induction cs as [|c cs IH]; cbn; [done|]. destruct (own c) eqn:E.
  - intros [= <-]. exists c. split; [constructor|done].
  - intros H. destruct (IH H) as (c' & Hc & E'). exists c'. split; [by constructor|done].
Qed.

Lemma struct_pack_len k v bs : 1 ≤ k → struct_pack k v = Ok bs → len bs = k.
Proof. unfold struct_pack. intros Hk. destruct (fits v k false); [|done]. intros E. by eapply int_bytes_roundtrip. Qed.

Create HintDb frame.
Create HintDb values.

Section logic.
Context (self : nat) (rels : list Reloc) (x0 : Reloc) (objs : list Backend) (b0 : Backend).
Context (syms : list Symbol) (h0 : heap) (lo n : Z).
Context (Hself : rels !! self = Some x0) (Howner : objs !! r_owner x0 = Some b0).

(** The invariant: the relocations and the objects are [rels] and [objs] up to
    what relocating updates, and the memory of the object of [self] differs from
    [h0] in the field only. *)
Definition inv (w : world) : Prop :=
  place <$> relocations w = place <$> rels ∧
  settled <$> backends w = settled <$> objs ∧
  symbols w = syms ∧ framed (memory b0) lo n h0 (store_of w).

Definition triple {A} (m : M A) (Q : A → Prop) : Prop :=
  ∀ w w' r, inv w → m w = (w', r) → inv w' ∧ ∀ a, r = Ok a → Q a.

Lemma triple_ret {A} (a : A) (Q : A → Prop) : Q a → triple (mret a) Q.
Proof. intros Ha w w' r Hw [= <- <-]. split; [done|]. by intros ? [= <-]. Qed.

Lemma triple_raise {A} e (Q : A → Prop) : triple (raise e) Q.
Proof. intros w w' r Hw [= <- <-]. by split. Qed.

Lemma triple_bind {A B} (m : M A) (f : A → M B) P Q :
  triple m P → (∀ a, P a → triple (f a) Q) → triple (m ≫= f) Q.
Proof.
  intros Hm Hf w w' r Hw E. unfold mbind, M_bind in E. destruct (m w) as [w1 [a|e]] eqn:E1.
  - destruct (Hm _ _ _ Hw E1) as [Hw1 Ha]. by apply (Hf a (Ha a eq_refl) w1 w' r).
  - injection E as <- <-. destruct (Hm _ _ _ Hw E1) as [Hw1 _]. by split.
Qed.

Lemma triple_true {A} (m : M A) Q : triple m Q → triple m (λ _, True).
Proof. intros Hm w w' r Hw E. by destruct (Hm w w' r Hw E). Qed.

(** An action that reads the world only. *)
Lemma triple_read {A} (m : M A) (Q : A → Prop) :
  (∀ w, (m w).1 = w) → (∀ w a, inv w → (m w).2 = Ok a → Q a) → triple m Q.
Proof.
  intros H1 H2 w w' r Hw E. pose proof (H1 w) as H. rewrite E in H. cbn in H. subst w'.
  split; [done|]. intros a ->. apply (H2 w a Hw). by rewrite E.
Qed.

Lemma some_read {A} (o : option A) w : (some o w).1 = w.
Proof. by destruct o. Qed.

Lemma some_Ok {A} (o : option A) w a : (some o w).2 = Ok a → o = Some a.
Proof. destruct o; cbn; [by intros [= <-]|done]. Qed.

Lemma triple_some {A} (o : option A) (Q : A → Prop) : (∀ a, o = Some a → Q a) → triple (some o) Q.
Proof. intros H. destruct o; [by apply triple_ret, H|apply triple_raise]. Qed.

Lemma triple_lift {A} (r : result A) (Q : A → Prop) : (∀ a, r = Ok a → Q a) → triple (lift r) Q.
Proof. intros H. by apply triple_read; [|intros w a _ E; apply H]. Qed.

Lemma triple_get : triple get inv.
Proof. by apply triple_read; [|intros w a Hw [= <-]]. Qed.

Lemma triple_reloc i : triple (reloc i) (λ x, ∃ x', rels !! i = Some x' ∧ place x = place x').
Proof.
  apply triple_read; intros w; [apply some_read|]. intros x (Hr & _) E%some_Ok.
  pose proof (f_equal (.!! i) Hr) as H. cbn in H. rewrite !list_lookup_fmap, E in H. cbn in H.
  destruct (rels !! i) as [x'|]; [|done]. exists x'. split; [done|]. by apply (inj Some) in H.
Qed.

Lemma triple_reloc_self : triple (reloc self) (λ x, place x = place x0).
Proof.
  intros w w' r Hw E. destruct (triple_reloc self w w' r Hw E) as [Hw' H]. split; [done|].
  intros x Hx. destruct (H x Hx) as (x' & E' & ->). congruence.
Qed.

Lemma triple_backend i : triple (backend i) (λ b, ∃ b', objs !! i = Some b' ∧ settled b = settled b').
Proof.
  apply triple_read; intros w; [apply some_read|]. intros x (_ & Hb & _) E%some_Ok.
  pose proof (f_equal (.!! i) Hb) as H. cbn in H. rewrite !list_lookup_fmap, E in H. cbn in H.
  destruct (objs !! i) as [b'|]; [|done]. exists b'. split; [done|]. by apply (inj Some) in H.
Qed.

Lemma triple_backend_self : triple (backend (r_owner x0)) (λ b, settled b = settled b0).
Proof.
  intros w w' r Hw E. destruct (triple_backend (r_owner x0) w w' r Hw E) as [Hw' H]. split; [done|].
  intros b Hb. destruct (H b Hb) as (b' & E' & ->). congruence.
Qed.

Lemma triple_symbol i : triple (symbol i) (λ y, syms !! i = Some y).
Proof.
  apply triple_read; intros w; [apply some_read|]. by intros y (_ & _ & <- & _) E%some_Ok.
Qed.

Lemma inv_self w x : inv w → place x = place x0 →
  inv (mkWorld (store_of w) (backends w) (symbols w) (<[self := x]> (relocations w))).
Proof.
  intros (Hr & H) Hx. split; [|done]. cbn. rewrite list_fmap_insert, Hr, Hx.
  apply list_insert_id. by rewrite list_lookup_fmap, Hself.
Qed.

Lemma triple_set_reloc x : place x = place x0 → triple (set_reloc self x) (λ _, True).
Proof. intros Hx w w' r Hw [= <- <-]. split; [by apply inv_self|done]. Qed.

Lemma triple_set_backend b : settled b = settled b0 → triple (set_backend (r_owner x0) b) (λ _, True).
Proof.
  intros Hb w w' r (Hx & Ho & H) [= <- <-]. split; [|done]. split; [done|]. split; [|done]. cbn.
  rewrite list_fmap_insert, Ho, Hb. apply list_insert_id. by rewrite list_lookup_fmap, Howner.
Qed.

Lemma triple_mem_load o addr k : triple (mem_load o addr k) (λ _, True).
Proof.
  eapply triple_bind; [apply triple_backend|]. intros b _.
  eapply triple_bind; [apply triple_get|]. intros w _. by apply triple_lift.
Qed.

Lemma triple_mem_unpack_word o addr size : triple (mem_unpack_word o addr size) (λ _, True).
Proof.
  eapply triple_bind; [apply triple_backend|]. intros b _.
  eapply triple_bind; [apply triple_get|]. intros w _. by apply triple_lift.
Qed.

Context (Hwf : wf h0 (memory b0)) (Hnd : NoDup (flat (memory b0)).*2).

(** A write inside the field. *)
Lemma triple_write b (f : heap → heap * result unit) :
  settled b = settled b0 →
  (∀ h, wf h (memory b0) → framed (memory b0) lo n h (f h).1) →
  triple (w ← get; let '(h, r) := f (store_of w) in _ ← set_store h; lift r) (λ _, True).
Proof.
  intros Hb Hf w w' r (Hx & Hy & Hs & Hfr) E. cbv [get mbind M_bind] in E.
  pose proof (Hf (store_of w) (wf_same_shape _ _ _ (proj1 Hfr) Hwf)) as H.
  destruct (f (store_of w)) as [h r'] eqn:Ef. cbn in *. cbv [set_store get put mbind M_bind lift] in E.
  injection E as <- <-. split; [|done]. do 3 (split; [done|]).
  by apply (framed_trans _ _ _ _ _ _ Hfr H).
Qed.

Lemma triple_mem_pack_word addr v size :
  lo ≤ addr → addr + default (bytes (a_word (o_arch b0))) size ≤ lo + n →
  triple (mem_pack_word (r_owner x0) addr v size) (λ _, True).
Proof.
  intros H1 H2. eapply triple_bind; [apply triple_backend_self|]. intros b Hb.
  eapply (triple_write b (λ h, pack_word (base_of b) h addr v size false None)); [done|].
  injection Hb as Ea Em _ _ _ _ _. intros h Hh. unfold base_of. rewrite Ea, Em.
  eapply framed_weaken; [..|by apply pack_word_framed]; done.
Qed.

Lemma triple_mem_store addr data :
  lo ≤ addr → addr + len data ≤ lo + n → triple (mem_store (r_owner x0) addr data) (λ _, True).
Proof.
  intros H1 H2. eapply triple_bind; [apply triple_backend_self|]. intros b Hb.
  eapply (triple_write b (λ h, b_store (base_of b) h addr data)); [done|].
  injection Hb as Ea Em _ _ _ _ _. intros h Hh. unfold base_of. rewrite Ea, Em.
  eapply framed_weaken; [..|by apply store_framed]; done.
Qed.

(** *** Automation: one rule per action, the specific ones first *)

#[local] Hint Resolve triple_reloc_self triple_backend_self | 0 : frame.
#[local] Hint Resolve triple_reloc triple_backend triple_symbol triple_mem_load triple_mem_unpack_word
  triple_get | 5 : frame.

Ltac learn :=
  repeat match goal with
    | H : place ?x = place x0 |- _ => let E := fresh in pose proof H as E; injection E as ? ? ? ? ? ?; clear H
    | H : settled ?b = settled b0 |- _ =>
        lazymatch goal with _ : o_arch b = o_arch b0 |- _ => fail | _ => injection H as ? ? ? ? ? ? ? end
    end;
  repeat match goal with
    | H : r_owner ?x = r_owner x0 |- context [r_owner ?x] => rewrite H
    | H : r_relative_addr ?x = r_relative_addr x0 |- context [r_relative_addr ?x] => rewrite H
    | H : o_arch ?b = o_arch b0 |- context [o_arch ?b] => rewrite H
    end.

Ltac walk :=
  lazymatch goal with
  | |- triple (mret _) _ => apply triple_ret; try done
  | |- triple (raise _) _ => apply triple_raise
  | |- triple (some _) _ => apply triple_some; try done
  | |- triple (lift _) _ => apply triple_lift; try done
  | |- triple (mbind _ _) _ =>
      first [eapply triple_bind; [solve [eauto 2 with frame]|]; intros ? ?; cbv beta zeta in *; learn; walk
            |eapply (triple_bind _ _ (λ _, True)); [|intros ? _; cbv beta zeta; walk]; walk]
  | |- triple (match ?x with _ => _ end) _ => destruct x; walk
  | |- triple _ _ => try solve [eauto 2 with frame | eapply triple_true; eauto 2 with frame]
  | |- _ => idtac
  end.

Lemma triple_owner : triple (owner self) (λ b, settled b = settled b0).
Proof. unfold owner. walk. Qed.

Lemma triple_the_symbol : triple (the_symbol self) (λ _, True).
Proof. unfold the_symbol. walk. Qed.

Lemma triple_rebased_addr : triple (rebased_addr self) (λ _, True).
Proof. unfold rebased_addr. walk. Qed.

Lemma triple_symbol_rebased_addr i : triple (symbol_rebased_addr i) (λ _, True).
Proof. unfold symbol_rebased_addr. walk. Qed.

#[local] Hint Resolve triple_owner triple_the_symbol triple_rebased_addr triple_symbol_rebased_addr | 5 : frame.

Lemma triple_target : triple (target self) (λ _, True).
Proof. unfold target. walk. Qed.

Lemma triple_dest_addr : triple (dest_addr self) (λ _, True).
Proof. unfold dest_addr. walk. Qed.

Lemma place_set_addend x a : place (set_addend x a) = place x.
Proof. done. Qed.

Lemma triple_addend : triple (addend self) (λ _, True).
Proof.
  unfold addend. eapply triple_bind; [apply triple_reloc_self|]. intros x Hx. destruct (_addend x); [by apply triple_ret|].
  eapply triple_bind; [apply triple_mem_unpack_word|]. intros a _.
  eapply triple_bind; [by apply triple_set_reloc|]. intros. by apply triple_ret.
Qed.

Lemma triple_isThumbFunc a : triple (_isThumbFunc self a) (λ _, True).
Proof. unfold _isThumbFunc. walk. Qed.

Lemma triple_lva_to_mva a : triple (lva_to_mva self a) (λ _, True).
Proof. unfold lva_to_mva. walk. Qed.

Lemma triple_number v : triple (number v) (λ _, True).
Proof. unfold number. walk. Qed.

#[local] Hint Resolve triple_target triple_dest_addr triple_addend triple_isThumbFunc triple_lva_to_mva
  triple_number | 5 : frame.

Lemma triple_fixup_word k : triple (fixup_word self k) (λ _, True).
Proof. unfold fixup_word. walk. Qed.

Lemma triple_sparc_instr : triple (sparc_instr self) (λ _, True).
Proof. unfold sparc_instr. walk. Qed.

Lemma triple_toc_offset : triple (toc_offset self) (λ _, True).
Proof. unfold toc_offset. walk. Qed.

Lemma triple_struct_pack k v : 1 ≤ k → triple (lift (struct_pack k v)) (λ bs, len bs = k).
Proof. intros Hk. apply triple_lift. intros bs. by apply struct_pack_len. Qed.

#[local] Hint Resolve triple_fixup_word triple_sparc_instr triple_toc_offset | 5 : frame.
#[local] Hint Extern 3 (triple (lift (struct_pack _ _)) _) => apply triple_struct_pack; lia : frame.

(** What a value may be: bytes come in the size of the fixup. *)
Definition sized (c : cls) (v : pyval) : Prop := ∀ bs, v = VBytes bs → len bs = fixup_size c.

Lemma sized_int c v : sized c (VInt v).
Proof. done. Qed.

Lemma sized_none c : sized c VNone.
Proof. done. Qed.

Lemma sized_bytes c bs : len bs = fixup_size c → sized c (VBytes bs).
Proof. by intros E ? [= <-]. Qed.

#[local] Hint Resolve sized_int sized_none sized_bytes : frame.

#[local] Hint Unfold GenericTLSDoffsetReloc_value GenericAbsoluteAddendReloc_value GenericPCRelativeAddendReloc_value
  GenericJumpslotReloc_value GenericRelativeReloc_value GenericAbsoluteReloc_value R_ARM_CALL_value
  R_ARM_PREL31_value R_ARM_REL32_value R_ARM_ABS32_value R_ARM_MOVW_ABS_NC_value R_ARM_MOVT_ABS_value
  R_ARM_THM_CALL_value R_ARM_THM_MOVW_ABS_NC_value R_ARM_THM_MOVT_ABS_value branch26_value
  R_AARCH64_ADR_PREL_PG_HI21_value absolute_value R_PPC_ADDR24_value R_PPC_ADDR16_LO_value
  R_PPC_ADDR16_HI_value R_PPC_ADDR16_HA_value R_PPC_REL24_value R_PPC_REL14_value R_PPC_REL32_value
  R_PPC_SECTOFF_value R_PPC_ADDR30_value R_PPC64_REL24_value R_PPC64_TOC16_LO_value R_PPC64_TOC16_HI_value
  R_PPC64_TOC16_HA_value R_PPC64_TOC_value R_SPARC_HI22_value R_SPARC_WDISP30_value R_SPARC_LO10_value
  PEReloc_value IMAGE_REL_BASED_HIGHADJ_value IMAGE_REL_BASED_HIGHLOW_value IMAGE_REL_BASED_DIR64_value
  IMAGE_REL_BASED_HIGH_value IMAGE_REL_BASED_LOW_value IMAGE_REL_BASED_THUMB_MOV32_value
  InternalTLSRelocation_value SimDataSimpleRelocation_value : values.

#[local] Hint Extern 3 (triple (set_reloc self _) _) =>
  apply triple_set_reloc; unfold place; cbn; congruence : frame.

Lemma triple_own_value c v : own_value c = Some v → triple (v self) (sized c).
Proof.
  destruct c as [[]|[]|[]|[]|[]|[]|[]|[]|[]|[]|[]|[]]; cbn [own_value]; intros E; try discriminate E;
    injection E as <-; autounfold with values; walk.
  all: try solve [eauto with frame].
  all: apply sized_bytes; rewrite ?len_app; cbn [fixup_size]; lia.
Qed.
Lemma fixup_size_nonneg c : 0 ≤ fixup_size c.
Proof. by destruct c as [| | | | | | | | | | |[]]. Qed.

Lemma triple_value : triple (value self) (λ v, ∀ bs, v = VBytes bs → len bs ≤ fixup_size (r_cls x0)).
Proof.
  unfold value. eapply triple_bind; [apply triple_reloc_self|]. intros x Hx. injection Hx as -> _ _ _ _ _.
  eapply triple_bind; [by apply triple_some with (Q := λ v, lookup_attribute own_value (mro (r_cls x0)) = Some v)|].
  intros v (c & Hc & Ev)%lookup_attribute_elem w w' r Hw E.
  destruct (triple_own_value c v Ev w w' r Hw E) as [Hw' Hr]. split; [done|]. intros a Ea bs Ebs.
  rewrite (Hr a Ea bs Ebs). pose proof (fixup_size_nonneg (r_cls x0)).
  pose proof (mro_fixups (r_cls x0)) as Hm. rewrite list.Forall_forall in Hm.
  destruct (Hm c Hc) as [->| ->]; lia.
Qed.

#[local] Hint Resolve triple_value | 5 : frame.

(** *** The methods *)

#[local] Abbreviation word := (bytes (a_word (o_arch b0))).
#[local] Abbreviation at_ := (r_relative_addr x0).
#[local] Hint Extern 3 (triple (mem_pack_word (r_owner x0) _ _ _) _) =>
  apply triple_mem_pack_word; cbn [default from_option id]; lia : frame.

#[local] Hint Extern 3 (triple (mem_store (r_owner x0) _ _) _) => apply triple_mem_store; lia : frame.
#[local] Hint Extern 3 (triple (set_backend (r_owner x0) _) _) =>
  apply triple_set_backend; unfold settled; cbn; congruence : frame.

Context (Hlo : lo ≤ at_).

Lemma triple_when_resolved m : triple m (λ _, True) → triple (when_resolved self m) (λ _, True).
Proof. intros Hm. unfold when_resolved. walk. Qed.

Lemma triple_pack_value size : at_ + default word size ≤ lo + n → triple (pack_value self size) (λ _, True).
Proof. intros H. unfold pack_value. walk. Qed.

#[local] Hint Resolve triple_when_resolved triple_pack_value | 5 : frame.

Lemma triple_Relocation_relocate : at_ + word ≤ lo + n → triple (Relocation_relocate self) (λ _, True).
Proof. intros H. unfold Relocation_relocate. apply triple_when_resolved. walk. Qed.

Lemma triple_block_offset b : triple (block_offset b) (λ _, True).
Proof. unfold block_offset. walk. Qed.

#[local] Hint Resolve triple_block_offset | 5 : frame.

Lemma triple_TLSOffset : at_ + word ≤ lo + n → triple (GenericTLSOffsetReloc_relocate self) (λ _, True).
Proof. intros H. unfold GenericTLSOffsetReloc_relocate. walk. Qed.

Lemma triple_TLSDescriptor :
  0 ≤ word → at_ + 2 * word ≤ lo + n → triple (GenericTLSDescriptorReloc_relocate self) (λ _, True).
Proof. intros Hw H. unfold GenericTLSDescriptorReloc_relocate. walk. Qed.

Lemma triple_TLSModId : at_ + word ≤ lo + n → triple (GenericTLSModIdReloc_relocate self) (λ _, True).
Proof. intros H. unfold GenericTLSModIdReloc_relocate. walk. Qed.

Lemma triple_IRelative : triple (GenericIRelativeReloc_relocate self) (λ _, True).
Proof. unfold GenericIRelativeReloc_relocate. walk. Qed.

Lemma triple_MipsLocal : at_ + word ≤ lo + n → triple (MipsLocalReloc_relocate self) (λ _, True).
Proof. intros H. unfold MipsLocalReloc_relocate, dict_get. walk. Qed.

Lemma triple_Truncate32 : at_ + 4 ≤ lo + n → triple (RelocTruncate32Mixin_relocate self) (λ _, True).
Proof. intros H. unfold RelocTruncate32Mixin_relocate. walk. Qed.

Lemma triple_rewrite code : at_ + 4 ≤ lo + n → triple (rewrite_instruction code self) (λ _, True).
Proof. intros H. unfold rewrite_instruction. apply triple_when_resolved. walk. Qed.

Lemma triple_half16 : at_ + 2 ≤ lo + n → triple (half16_relocate self) (λ _, True).
Proof. intros H. unfold half16_relocate. apply triple_when_resolved. walk. Qed.

Lemma triple_PPC_JMP_SLOT super :
  triple (super self) (λ _, True) → at_ + word ≤ lo + n → triple (R_PPC_JMP_SLOT_relocate super self) (λ _, True).
Proof. intros Hs H. unfold R_PPC_JMP_SLOT_relocate. walk. Qed.

Lemma triple_PPC64_JMP_SLOT :
  0 ≤ word → at_ + (if is_ppc64_abiv1 b0 then 16 + word else word) ≤ lo + n →
  triple (R_PPC64_JMP_SLOT_relocate self) (λ _, True).
Proof.
  intros Hw H. unfold R_PPC64_JMP_SLOT_relocate. walk.
  all: match goal with E : _ = is_ppc64_abiv1 b0 |- _ => rewrite <-E in H end; apply triple_mem_pack_word; cbn; lia.
Qed.

Lemma triple_MIPS_26 : at_ + word ≤ lo + n → triple (R_MIPS_26_relocate self) (λ _, True).
Proof. intros H. unfold R_MIPS_26_relocate. apply triple_when_resolved. walk. Qed.

Lemma triple_find_lo16 s ids : triple (find_lo16 s ids) (λ _, True).
Proof. induction ids as [|i ids IH]; cbn [find_lo16]; walk. Qed.

#[local] Hint Resolve triple_find_lo16 | 5 : frame.

Lemma triple_find_matching : triple (find_matching_lo16_relocation self) (λ _, True).
Proof. unfold find_matching_lo16_relocation. walk. Qed.

#[local] Hint Resolve triple_find_matching | 5 : frame.

Lemma half_addr_settled b a : o_arch b = o_arch b0 → half_addr b a = half_addr b0 a.
Proof. unfold half_addr. by intros ->. Qed.

Lemma triple_HI16 : lo ≤ half_addr b0 at_ → half_addr b0 at_ + 2 ≤ lo + n → triple (R_MIPS_HI16_relocate self) (λ _, True).
Proof.
  intros H H'. unfold R_MIPS_HI16_relocate. apply triple_when_resolved. walk.
  rewrite half_addr_settled by done. by apply triple_mem_pack_word.
Qed.

Lemma triple_LO16 : lo ≤ half_addr b0 at_ → half_addr b0 at_ + 2 ≤ lo + n → triple (R_MIPS_LO16_relocate self) (λ _, True).
Proof.
  intros H H'. unfold R_MIPS_LO16_relocate. apply triple_when_resolved. walk.
  rewrite half_addr_settled by done. by apply triple_mem_pack_word.
Qed.

Lemma triple_PEReloc super :
  (r_symbol x0 ≠ None → triple (super self) (λ _, True)) →
  (r_symbol x0 = None → at_ + fixup_size (r_cls x0) ≤ lo + n) →
  triple (PEReloc_relocate super self) (λ _, True).
Proof.
  intros Hs H. unfold PEReloc_relocate. walk.
  - apply Hs. congruence.
  - match goal with H : ∀ bs, _ → len bs ≤ _ |- _ => specialize (H _ eq_refl) end.
    apply triple_mem_store; [done|]. specialize (H ltac:(congruence)). lia.
Qed.

Lemma triple_load_len i addr k b :
  objs !! i = Some b → byte_memory h0 (memory b) → 0 ≤ k → triple (mem_load i addr k) (λ bs, len bs ≤ k).
Proof.
  intros Hi Hb Hk. eapply triple_bind; [apply triple_backend|]. intros b1 (b2 & E & Es).
  eapply triple_bind; [apply triple_get|]. intros w (_ & _ & _ & Hfr). apply triple_lift. intros bs.
  assert (b2 = b) as -> by congruence. injection Es as _ Em _ _ _ _ _. unfold base_of, as_base. cbn. rewrite Em.
  apply load_len; [|done]. by eapply byte_memory_same_shape; [apply Hfr|].
Qed.

Lemma triple_Copy :
  (∀ r y, r_resolvedby x0 = Some r → syms !! r = Some y →
     0 ≤ s_size y ∧ at_ + s_size y ≤ lo + n ∧ ∃ b, objs !! s_owner y = Some b ∧ byte_memory h0 (memory b)) →
  triple (GenericCopyReloc_relocate self) (λ _, True).
Proof.
  intros H. unfold GenericCopyReloc_relocate.
  eapply triple_bind; [apply triple_reloc_self|]. intros x Hx. cbv beta in Hx. learn.
  eapply triple_bind; [by apply triple_some with (Q := λ r, r_resolvedby x0 = Some r); congruence|]. intros r Hr.
  eapply triple_bind; [apply triple_symbol|]. intros y Hy.
  destruct (H r y Hr Hy) as (Hs & Hn & b & Hb & Hbm).
  eapply triple_bind; [apply triple_the_symbol|]. intros s _. cbv beta zeta.
  eapply (triple_bind _ _ (λ _, True)); [|intros; by apply triple_ret]. destruct (_ && _); [by apply triple_ret|].
  eapply triple_bind; [by eapply triple_load_len|]. intros bs Hl. apply triple_mem_store; [done|]. cbv beta in Hl. lia.
Qed.

End logic.

(** ** What is written *)

(** The address and the number of the bytes that the [relocate] of a class may
    write. *)
Definition written (c : cls) : option (Reloc → Backend → list Symbol → Z * Z) :=
  let at_ x := r_relative_addr x in
  let word b := bytes (a_word (o_arch b)) in
  let sized k := Some (λ x (_ : Backend) (_ : list Symbol), (at_ x, k)) in
  match c with
  | Base Relocation | Generic GenericTLSOffsetReloc | Generic GenericTLSModIdReloc | Generic MipsLocalReloc
  | PPC R_PPC_JMP_SLOT | MIPS R_MIPS_26 => Some (λ x b _, (at_ x, word b))
  | Base PEReloc =>
      Some (λ x b _, (at_ x, match r_symbol x with None => fixup_size (r_cls x) | Some _ => word b end))
  | Generic GenericTLSDescriptorReloc => Some (λ x b _, (at_ x, 2 * word b))
  | Generic GenericIRelativeReloc => sized 0
  | Generic GenericCopyReloc =>
      Some (λ x _ syms, (at_ x, match r_resolvedby x ≫= (syms !!.) with Some y => s_size y | None => 0 end))
  | Generic RelocTruncate32Mixin => sized 4
  | ARM64 R_AARCH64_JUMP26 | ARM64 R_AARCH64_CALL26 | ARM64 R_AARCH64_ADR_PREL_PG_HI21
  | ARM64 R_AARCH64_ADD_ABS_LO12_NC | ARM64 R_AARCH64_LDST8_ABS_LO12_NC | ARM64 R_AARCH64_LDST16_ABS_LO12_NC
  | ARM64 R_AARCH64_LDST32_ABS_LO12_NC | ARM64 R_AARCH64_LDST64_ABS_LO12_NC
  | ARM64 R_AARCH64_LDST128_ABS_LO12_NC | PPC64 R_PPC64_REL24 => sized 4
  | PPC R_PPC_ADDR16_LO | PPC R_PPC_ADDR16_HI | PPC R_PPC_ADDR16_HA
  | PPC64 R_PPC64_TOC16_LO | PPC64 R_PPC64_TOC16_HI | PPC64 R_PPC64_TOC16_HA => sized 2
  | PPC64 R_PPC64_JMP_SLOT => Some (λ x b _, (at_ x, if is_ppc64_abiv1 b then 16 + word b else word b))
  | MIPS R_MIPS_HI16 | MIPS R_MIPS_LO16 => Some (λ x b _, (half_addr b (at_ x), 2))
  | PE IMAGE_REL_BASED_ABSOLUTE => sized 0
  | _ => None
  end.

Definition span_of (x : Reloc) (b : Backend) (syms : list Symbol) : Z * Z :=
  match lookup_attribute written (mro (r_cls x)) with Some f => f x b syms | None => (0, 0) end.

(** *** One relocation *)

(** A world in which the addresses of the memories make sense. *)
Definition sane_object (h : heap) (b : Backend) : Prop :=
  byte_memory h (memory b) ∧ NoDup (flat (memory b)).*2 ∧ 0 ≤ bytes (a_word (o_arch b)).

Definition sane (w : world) : Prop :=
  Forall (sane_object (store_of w)) (backends w) ∧
  Forall (λ y, 0 ≤ s_size y ∧ is_Some (backends w !! s_owner y)) (symbols w).

(** The classes whose [relocate] calls the next one are followed by [Relocation]. *)
Fixpoint first_relocate (cs : list cls) : option cls :=
  match cs with
  | [] => None
  | c :: cs => match own_relocate c with Some _ => Some c | None => first_relocate cs end
  end.

Fixpoint supers_known (cs : list cls) : Prop :=
  match cs with
  | [] => True
  | c :: cs =>
      ((c = Base PEReloc ∨ c = PPC R_PPC_JMP_SLOT) → first_relocate cs = Some (Base Relocation)) ∧ supers_known cs
  end.

#[export] Instance supers_known_dec cs : Decision (supers_known cs).
Proof. induction cs; cbn; apply _. Defined.

Lemma mro_supers_known c : supers_known (mro c).
Proof. apply (bool_decide_unpack _). by destruct c as [[]|[]|[]|[]|[]|[]|[]|[]|[]|[]|[]|[]]; vm_compute. Qed.

Lemma dispatch_first cs self :
  first_relocate cs = Some (Base Relocation) → dispatch own_relocate cs self = Relocation_relocate self.
Proof.
  induction cs as [|c cs IH]; cbn [first_relocate dispatch]; [done|].
  destruct (own_relocate c) eqn:E; [|done]. intros [= ->]. by injection E as <-.
Qed.

Lemma written_relocate c : own_relocate c = None → written c = None.
Proof. by destruct c as [[]|[]|[]|[]|[]|[]|[]|[]|[]|[]|[]|[]]. Qed.

Create HintDb methods.
#[export] Hint Resolve triple_Relocation_relocate triple_TLSOffset triple_TLSDescriptor triple_TLSModId
  triple_IRelative triple_MipsLocal triple_Truncate32 triple_rewrite triple_half16 triple_PPC_JMP_SLOT
  triple_PPC64_JMP_SLOT triple_MIPS_26 triple_HI16 triple_LO16 : methods.
#[export] Hint Extern 4 (_ ≤ _) => lia : methods.

Lemma triple_dispatch self rels x objs b syms h cs :
  rels !! self = Some x → objs !! r_owner x = Some b →
  sane (mkWorld h objs syms rels) → supers_known cs →
  let f := match lookup_attribute written cs with Some f => f x b syms | None => (0, 0) end in
  triple rels objs b syms h f.1 f.2 (dispatch own_relocate cs self) (λ _, True).
Proof.
  intros Hx Hb [Hobjs Hsyms]. cbn in Hobjs, Hsyms.
  destruct (Forall_lookup_1 _ _ _ _ Hobjs Hb) as ((Hwf & _) & Hnd & Hw).
  induction cs as [|c cs IH]; cbn [lookup_attribute dispatch supers_known]; [intros; apply triple_raise|].
  intros [Hc Hcs]. destruct (own_relocate c) as [m|] eqn:Em; [|rewrite written_relocate by done; by apply IH].
  assert (first_relocate cs = Some (Base Relocation) → dispatch own_relocate cs self = Relocation_relocate self) as Hd
    by apply dispatch_first.
  destruct c as [[]|[]|[]|[]|[]|[]|[]|[]|[]|[]|[]|[]]; try discriminate Em; injection Em as <-; cbn [written fst snd].
  all: try solve [eauto with methods].
  - eapply triple_PEReloc; try done; intros Hs; [rewrite Hd by (apply Hc; tauto)|]; rewrite ?Hs; [|lia].
    destruct (r_symbol x); [|done]. eauto with methods.
  - eapply triple_Copy; try done. intros r y -> Hy. cbn. rewrite Hy.
    destruct (Forall_lookup_1 _ _ _ _ Hsyms Hy) as (? & b' & Hb'). split; [done|]. split; [done|]. exists b'. split; [done|].
    by destruct (Forall_lookup_1 _ _ _ _ Hobjs Hb').
  - eapply triple_PPC_JMP_SLOT; try done. rewrite Hd by (apply Hc; tauto). eauto with methods.
  - by apply triple_ret.
Qed.

(** What relocating keeps. *)
Definition kept (w w' : world) : Prop :=
  place <$> relocations w' = place <$> relocations w ∧
  settled <$> backends w' = settled <$> backends w ∧
  symbols w' = symbols w.

Lemma relocate_framed w self x b :
  sane w → relocations w !! self = Some x → backends w !! r_owner x = Some b →
  let f := span_of x b (symbols w) in
  kept w (relocate self w).1 ∧ framed (memory b) f.1 f.2 (store_of w) (store_of (relocate self w).1).
Proof.
  intros Hw Hx Hb f.
  assert (triple (relocations w) (backends w) b (symbols w) (store_of w) f.1 f.2 (relocate self) (λ _, True)) as Ht.
  { unfold f, span_of, relocate. eapply triple_bind; [by eapply triple_reloc_self|]. intros x' Hx'.
    injection Hx' as -> _ _ _ _ _. apply triple_dispatch; [done..|by destruct w|apply mro_supers_known]. }
  destruct (relocate self w) as [w' r] eqn:E.
  destruct (Ht w w' r) as ((? & ? & ? & ?) & _); [|done|done].
  do 3 (split; [done|]). apply framed_refl.
Qed.

Lemma span_of_ext x x' b b' syms :
  place x = place x' → settled b = settled b' → span_of x b syms = span_of x' b' syms.
Proof.
  intros Hx Hb. injection Hx as Ec _ Es Ea Er _. injection Hb as Eo _ _ _ _ Ep _. unfold span_of. rewrite Ec.
  destruct (lookup_attribute _ _) as [f|] eqn:Ef; [|done]. apply lookup_attribute_elem in Ef as (c & _ & Ef).
  destruct c as [[]|[]|[]|[]|[]|[]|[]|[]|[]|[]|[]|[]]; try discriminate Ef; injection Ef as <-;
    unfold half_addr; by rewrite ?Ec, ?Es, ?Ea, ?Er, ?Eo, ?Ep.
Qed.

Lemma lookup_kept {A B} (f : A → B) (l l' : list A) i x :
  f <$> l' = f <$> l → l !! i = Some x → ∃ x', l' !! i = Some x' ∧ f x' = f x.
Proof.
  intros E Hi. pose proof (f_equal (.!! i) E) as H. cbn in H. rewrite !list_lookup_fmap, Hi in H. cbn in H.
  destruct (l' !! i) as [x'|]; [|done]. exists x'. split; [done|]. by apply (inj Some) in H.
Qed.

Lemma kept_refl w : kept w w.
Proof. done. Qed.

Lemma kept_trans w1 w2 w3 : kept w1 w2 → kept w2 w3 → kept w1 w3.
Proof. intros (? & ? & ?) (? & ? & ?). repeat split; congruence. Qed.

Lemma sane_kept w w' : kept w w' → same_shape (store_of w) (store_of w') → sane w → sane w'.
Proof.
  intros (_ & Hb & Hs) Hsh [H1 H2]. unfold sane. rewrite Hs. split.
  - apply Forall_lookup_2. intros i b' Hi.
    destruct (lookup_kept settled (backends w') (backends w) i b' (eq_sym Hb) Hi) as (b & Hi' & Eb).
    destruct (Forall_lookup_1 _ _ _ _ H1 Hi') as (Hm & Hnd & Hw). injection Eb as Ea Em _ _ _ _ _.
    unfold sane_object. rewrite <-Em, <-Ea. split; [by eapply byte_memory_same_shape|done].
  - eapply Forall_impl; [exact H2|]. cbn. intros y [? [b Hy]]. split; [done|].
    destruct (lookup_kept settled (backends w) (backends w') (s_owner y) b Hb Hy) as (b' & -> & _). by eexists.
Qed.

(** *** The relocations of an object *)

(** The bytes of an object that its relocations may write. *)
Definition in_spans (w : world) (b : Backend) (k : Z) : Prop :=
  ∃ i x, i ∈ relocs b ∧ relocations w !! i = Some x ∧ r_resolved x = true ∧
    let f := span_of x b (symbols w) in f.1 ≤ k < f.1 + f.2.

Definition own_relocs (w : world) (o : nat) (b : Backend) : Prop :=
  ∀ i x, i ∈ relocs b → relocations w !! i = Some x → r_owner x = o.

(** What [w'] has of [w] after some of the relocations of [b] were applied. *)
Definition relocated (w w' : world) (b : Backend) : Prop :=
  kept w w' ∧ same_shape (store_of w) (store_of w') ∧
  (∀ k, ¬ in_spans w b k → mem (store_of w') (memory b) k = mem (store_of w) (memory b) k) ∧
  ∀ n, n ∉ (flat (memory b)).*2 → buffer_at (store_of w') n = buffer_at (store_of w) n.

Lemma relocated_step w w1 o b i x :
  sane w → backends w !! o = Some b → own_relocs w o b → i ∈ relocs b →
  relocated w w1 b → relocations w1 !! i = Some x → r_resolved x = true →
  relocated w (relocate i w1).1 b.
Proof.
  intros Hw Hb Hown Hi (Hk & Hsh & Hm & Hn) Hx Hres.
  destruct (lookup_kept place _ _ i x (eq_sym (proj1 Hk)) Hx) as (x0 & Hx0 & Ex).
  destruct (lookup_kept settled _ _ o b (proj1 (proj2 Hk)) Hb) as (b1 & Hb1 & Eb).
  pose proof (Hown i x0 Hi Hx0) as Ho.
  assert (r_owner x = o ∧ r_resolved x0 = true) as [Ho1 Hres0] by (injection Ex; intros; split; congruence).
  rewrite <-Ho1 in Hb1.
  destruct (relocate_framed w1 i x b1 (sane_kept _ _ Hk Hsh Hw) Hx Hb1) as [Hk' (Hsh' & Hm' & Hn')].
  assert (memory b1 = memory b) as Em by (by injection Eb). rewrite Em in Hm', Hn'.
  repeat split; try (by eapply kept_trans).
  - destruct (Hsh' b0), (Hsh b0). congruence.
  - destruct (Hsh' b0), (Hsh b0). congruence.
  - intros k Hk0. rewrite Hm'; [by apply Hm|]. intros Hf. apply Hk0. exists i, x0. do 3 (split; [done|]). cbv zeta.
    rewrite (proj2 (proj2 Hk)) in Hf. by rewrite <-(span_of_ext x x0 b1 b).
  - intros n Hn0. by rewrite Hn', Hn.
Qed.

Lemma relocate_all_relocated w o b ids :
  sane w → backends w !! o = Some b → own_relocs w o b → (∀ i, i ∈ ids → i ∈ relocs b) →
  ∀ w1, relocated w w1 b → relocated w (relocate_all ids w1).1 b.
Proof.
  intros Hw Hb Hown. induction ids as [|i ids IH]; intros Hids w1 H1; [done|].
  specialize (IH ltac:(set_solver)). cbn [relocate_all].
  destruct (relocations w1 !! i) as [x|] eqn:Hx; [|by rewrite (run_bind_err _ _ _ _ _ (reloc_none _ _ Hx))].
  rewrite (run_bind _ _ _ _ _ (reloc_some _ _ _ Hx)). destruct (r_resolved x) eqn:Hr; [|by apply IH].
  pose proof (relocated_step w w1 o b i x Hw Hb Hown (Hids i ltac:(set_solver)) H1 Hx Hr) as H2.
  destruct (relocate i w1) as [w2 [a|e]] eqn:E.
  - rewrite (run_bind _ _ w1 w2 tt); [by apply IH|]. by rewrite (run_bind _ _ _ _ _ E).
  - rewrite (run_bind_err _ _ w1 w2 e); [done|]. by rewrite (run_bind_err _ _ _ _ _ E).
Qed.

(** ** The fields *)

(** The size of the field of a class of relocation, from the "Field:" of its
    documentation (ppc.py, ppc64.py, i386.py, sparc.py) or the name the processor
    supplements give the type; an address where neither says otherwise. *)
Definition field_size (c : cls) (word : Z) : Z :=
  match c with
  | PPC (R_PPC_ADDR16 | R_PPC_ADDR16_LO | R_PPC_ADDR16_HI | R_PPC_ADDR16_HA | R_PPC_UADDR16
         | R_PPC_SECTOFF | R_PPC_SECTOFF_LO | R_PPC_SECTOFF_HI | R_PPC_SECTOFF_HA)
  | PPC64 (R_PPC64_TOC16_LO | R_PPC64_TOC16_HI | R_PPC64_TOC16_HA)
  | MIPS (R_MIPS_HI16 | R_MIPS_LO16)
  | ARM R_ARM_THM_JUMP6 => 2
  | I386 _ | ARM _ | PPC _ | SPARC _
  | AMD64 (R_X86_64_PC32 | R_X86_64_32 | R_X86_64_32S | R_X86_64_PLT32 | R_X86_64_GOTPCREL | R_X86_64_GOTPCRELX
           | R_X86_64_REX_GOTPCRELX)
  | ARM64 (R_AARCH64_PREL32 | R_AARCH64_JUMP26 | R_AARCH64_CALL26 | R_AARCH64_ADR_PREL_PG_HI21 | R_AARCH64_ADD_ABS_LO12_NC
           | R_AARCH64_LDST8_ABS_LO12_NC | R_AARCH64_LDST16_ABS_LO12_NC | R_AARCH64_LDST32_ABS_LO12_NC
           | R_AARCH64_LDST64_ABS_LO12_NC | R_AARCH64_LDST128_ABS_LO12_NC)
  | PPC64 R_PPC64_REL24
  | MIPS (R_MIPS_32 | R_MIPS_REL32 | R_MIPS_26 | R_MIPS_TLS_DTPMOD32 | R_MIPS_TLS_TPREL32 | R_MIPS_TLS_DTPREL32)
  | Generic RelocTruncate32Mixin => 4
  | Generic GenericTLSDescriptorReloc | ARM64 R_AARCH64_TLSDESC => 2 * word
  | _ => word
  end.

(** The sizes of the base relocations of portable executables. *)
Definition base_field_size (c : cls) : Z :=
  match c with
  | PE (IMAGE_REL_BASED_HIGH | IMAGE_REL_BASED_LOW | IMAGE_REL_BASED_HIGHADJ) => 2
  | PE IMAGE_REL_BASED_HIGHLOW => 4
  | PE (IMAGE_REL_BASED_DIR64 | IMAGE_REL_BASED_THUMB_MOV32) => 8
  | _ => 0
  end.

(** The field of a relocation: its address and size.  A copy relocation has
    the size of the symbol, a jump slot of the first 64-bit PowerPC interface a
    function descriptor. *)
Definition field_of (x : Reloc) (b : Backend) (syms : list Symbol) : Z * Z :=
  let at_ := r_relative_addr x in
  let word := bytes (a_word (o_arch b)) in
  match r_cls x with
  | Generic GenericCopyReloc | AMD64 R_X86_64_COPY | I386 R_386_COPY | ARM R_ARM_COPY | ARM64 R_AARCH64_COPY
  | PPC R_PPC_COPY | MIPS R_MIPS_COPY | S390X R_390_COPY =>
      (at_, match r_resolvedby x ≫= (syms !!.) with Some y => s_size y | None => 0 end)
  | PPC64 R_PPC64_JMP_SLOT => (at_, if is_ppc64_abiv1 b then 16 + word else word)
  | MIPS (R_MIPS_HI16 | R_MIPS_LO16) => (half_addr b at_, 2)
  | Base PEReloc | PE _ => (at_, match r_symbol x with None => base_field_size (r_cls x) | Some _ => word end)
  | c => (at_, field_size c word)
  end.

(** The classes that write more than their field: half-words of 32-bit PowerPC
    for which a word is written, a 16-bit Thumb branch that is rewritten as a
    long one, HIGHADJ, which packs four bytes, and fields of 32 bits in objects
    with wider words. *)
Definition overruns (c : cls) (word : Z) : bool :=
  match c with
  | PPC (R_PPC_ADDR16 | R_PPC_UADDR16 | R_PPC_SECTOFF | R_PPC_SECTOFF_LO | R_PPC_SECTOFF_HI | R_PPC_SECTOFF_HA)
  | ARM R_ARM_THM_JUMP6 | PE IMAGE_REL_BASED_HIGHADJ => true
  | I386 _ | ARM _ | PPC _ | SPARC _
  | MIPS (R_MIPS_32 | R_MIPS_REL32 | R_MIPS_26 | R_MIPS_TLS_DTPMOD32 | R_MIPS_TLS_TPREL32 | R_MIPS_TLS_DTPREL32) => 4 <? word
  | _ => false
  end.

(** Every other class keeps to its field. *)
Lemma span_in_field x b syms k : overruns (r_cls x) (bytes (a_word (o_arch b))) = false →
  (let f := span_of x b syms in f.1 ≤ k < f.1 + f.2) → let f := field_of x b syms in f.1 ≤ k < f.1 + f.2.
Proof.
  unfold span_of, field_of. destruct x as [c ? ? at_ by_ ? ? ? ? ? ? ?]. cbn [r_cls r_relative_addr r_resolvedby r_symbol].
  destruct c as [[]|[]|[]|[]|[]|[]|[]|[]|[]|[]|[]|[]]; intros Ho.
  all: match goal with |- context [mro ?c] => let l := eval vm_compute in (mro c) in change (mro c) with l end.
  all: cbn -[bytes half_addr Z.mul Z.add] in *.
  all: repeat match goal with H : (4 <? _) = false |- _ => apply Z.ltb_ge in H end.
  all: repeat case_match; cbn [fst snd]; try discriminate; lia.
Qed.

(** The bytes of the fields of the resolved relocations of an object, and those
    that a relocation of an overrunning class writes. *)
Definition in_fields (w : world) (b : Backend) (k : Z) : Prop :=
  ∃ i x, i ∈ relocs b ∧ relocations w !! i = Some x ∧ r_resolved x = true ∧
    let f := field_of x b (symbols w) in f.1 ≤ k < f.1 + f.2.

Definition in_overruns (w : world) (b : Backend) (k : Z) : Prop :=
  ∃ i x, i ∈ relocs b ∧ relocations w !! i = Some x ∧ r_resolved x = true ∧
    overruns (r_cls x) (bytes (a_word (o_arch b))) = true ∧ let f := span_of x b (symbols w) in f.1 ≤ k < f.1 + f.2.

Lemma spans_covered w b k : in_spans w b k → in_fields w b k ∨ in_overruns w b k.
Proof.
  intros (i & x & Hi & Hx & Hr & Hk). destruct (overruns (r_cls x) (bytes (a_word (o_arch b)))) eqn:E.
  - right. by exists i, x.
  - left. exists i, x. do 3 (split; [done|]). by apply span_in_field.
Qed.

End RelocFrame.
