(* ===== verification/RelocFacts.v ===== *)
(** * What relocations compute

    Theorems about the objects of [Relocation]: the method resolution order of
    the classes, the word a relocation leaves in its field, the range check of the
    truncating ones, the symbol a relocation is resolved to, and the forwarders of
    Windows symbols. *)

From Stdlib Require Import ZArith Lia Bool Ascii String.
From stdpp Require Import base tactics list numbers strings gmap.
From S2P Require Import Prelude Clemory ClemoryFacts Bitfields RelocCode RelocClasses Relocation RelocFrame.
Import Clemory ClemoryFacts Bitfields RelocCode RelocClasses Relocs RelocFrame.
Open Scope list_scope.

Module RelocFacts.

(** ** The method resolution order *)

Fixpoint subsequence (l l' : list cls) : bool :=
  match l, l' with
  | [], _ => true
  | _, [] => false
  | x :: k, y :: k' => if bool_decide (x = y) then subsequence k k' else subsequence l k'
  end.

Lemma subsequence_sound l l' : subsequence l l' = true → l `sublist_of` l'.
Proof.
  revert l. induction l' as [|y k' IH]; intros [|x k]; cbn; try done; [intros; apply sublist_nil_l|].
  case_bool_decide as E; [subst|]; intros H; [by apply sublist_skip, IH|by apply sublist_cons, IH].
Qed.

(** [l] lists [c] and its ancestors, each once, a class before its bases and the
    bases in their order, and agrees with the order of every ancestor. *)
Definition linearization (c : cls) (l : list cls) : Prop :=
  head l = Some c ∧ NoDup l ∧
  (∀ d, d ∈ l → (d :: bases d) `sublist_of` l ∧ mro d `sublist_of` l) ∧
  ∀ d, d ∈ l → d = c ∨ ∃ e, e ∈ l ∧ d ∈ bases e.

Definition linearization_b (c : cls) (l : list cls) : bool :=
  bool_decide (head l = Some c) && bool_decide (NoDup l) &&
  forallb (λ d, subsequence (d :: bases d) l && subsequence (mro d) l) l &&
  forallb (λ d, bool_decide (d = c) || existsb (λ e, bool_decide (d ∈ bases e)) l) l.

Lemma linearization_b_sound c l : linearization_b c l = true → linearization c l.
Proof.
  unfold linearization_b. intros H. apply andb_prop in H as [H H4]. apply andb_prop in H as [H H3].
  apply andb_prop in H as [H1%bool_decide_eq_true_1 H2%bool_decide_eq_true_1]. rewrite forallb_forall in H3, H4.
  split; [done|]. split; [done|]. split.
  - intros d Hd%list_elem_of_In. apply H3, andb_prop in Hd as [? ?]. split; by apply subsequence_sound.
  - intros d Hd%list_elem_of_In. apply H4, orb_prop in Hd as [Hd|Hd]; [left; by apply bool_decide_eq_true_1 in Hd|right].
    apply existsb_exists in Hd as (e & He & Hd). exists e. split; [by apply list_elem_of_In|by apply bool_decide_eq_true_1 in Hd].
Qed.

(** The order in which attributes and methods are looked up is a
    linearization of the inheritance graph, for every class. *)
Theorem mro_linearization (c : cls) : linearization c (mro c).
Proof.
  apply linearization_b_sound. by destruct c as [[]|[]|[]|[]|[]|[]|[]|[]|[]|[]|[]|[]]; vm_compute.
Qed.

(** ** Truncation to four bytes *)

Lemma high_word_one bits val :
  32 ≤ bits → 0 ≤ val →
  Z.shiftr val 32 = Z.shiftl 1 (bits - 32) - 1 ↔ val = 2 ^ bits - 2 ^ 32 + val mod 2 ^ 32.
Proof.
  intros Hb Hv. rewrite Z.shiftl_1_l, Z.shiftr_div_pow2 by lia.
  pose proof (Z.div_mod val (2 ^ 32) ltac:(lia)).
  assert (2 ^ bits = 2 ^ (bits - 32) * 2 ^ 32) by (rewrite <-Z.pow_add_r by lia; f_equal; lia). nia.
Qed.

Lemma sign_extended_word bits val :
  32 ≤ bits → 0 ≤ val → Z.testbit val 31 = true →
  signed 32 (val mod 2 ^ 32) mod 2 ^ bits = 2 ^ bits - 2 ^ 32 + val mod 2 ^ 32.
Proof.
  intros Hb Hv Ht. pose proof (Z.mod_pos_bound val (2 ^ 32) ltac:(lia)) as Hm.
  assert (2 ^ 31 ≤ val mod 2 ^ 32) as Hh.
  { rewrite <-(Z.mod_pow2_bits_low val 32 31) in Ht by lia. apply Z.testbit_true in Ht; [|lia].
    destruct (Z.lt_ge_cases (val mod 2 ^ 32) (2 ^ 31)) as [Hl|]; [|done]. by rewrite Z.div_small in Ht by lia. }
  rewrite signed_cases by lia. destruct (Z.ltb_spec (val mod 2 ^ 32) (2 ^ (32 - 1))); [lia|].
  assert (2 ^ 32 ≤ 2 ^ bits) by (apply Z.pow_le_mono_r; lia).
  rewrite <-(Z.mod_small (2 ^ bits - 2 ^ 32 + val mod 2 ^ 32) (2 ^ bits)) by lia.
  rewrite <-(Z_mod_plus_full _ 1 (2 ^ bits)). f_equal. lia.
Qed.

(** What the code tests, in words: with bit 31 set the low word, extended as the
    class asks, is the value; with bit 31 clear nothing is asked. *)
Lemma truncation_fails_spec zero sign bits val :
  32 ≤ bits → 0 ≤ val →
  truncation_fails zero sign bits val = false ↔
    Z.testbit val 31 = false ∨
    ((zero = true → val = val mod 2 ^ 32) ∧
     (sign = true → val = signed 32 (val mod 2 ^ 32) mod 2 ^ bits)).
Proof.
  intros Hb Hv. unfold truncation_fails.
  assert ((Z.land (Z.shiftr val 31) 1 =? 1) = Z.testbit val 31) as ->.
  { apply eq_true_iff_eq. rewrite Z.eqb_eq, Z.testbit_true by lia. change 1 with (Z.ones 1) at 1.
    by rewrite Z.land_ones, Z.shiftr_div_pow2 by lia. }
  destruct (Z.testbit val 31) eqn:Ht; [|tauto].
  rewrite sign_extended_word, <-high_word_one by done.
  assert (Z.shiftr val 32 = 0 ↔ val = val mod 2 ^ 32) as Hz.
  { rewrite Z.shiftr_div_pow2 by lia. pose proof (Z.div_mod val (2 ^ 32) ltac:(lia)). lia. }
  rewrite orb_false_iff, !andb_false_iff, !negb_false_iff, !Z.eqb_eq.
  destruct zero, sign; intuition congruence.
Qed.

(** What [check_zero_extend] and [check_sign_extend] are documented to ask: the
    32-bit truncated value equals its original when it is extended. *)
Definition truncates_to_itself (zero sign : bool) (bits val : Z) : Prop :=
  (zero = true → val = val mod 2 ^ 32) ∧ (sign = true → val = signed 32 (val mod 2 ^ 32) mod 2 ^ bits).

(** C14: On a value in the native range whose bit 31 is set, or that has 32 bits at
    most, a truncating relocation is refused exactly when the truncated value
    is not its original after the extension the class asks for.  (The other
    values, above 32 bits with bit 31 clear, pass unchecked: [truncation_unchecked].) *)
Theorem truncation_check zero sign bits val :
  32 ≤ bits → 0 ≤ val → Z.testbit val 31 = true ∨ val < 2 ^ 32 →
  truncation_fails zero sign bits val = true ↔ ¬ truncates_to_itself zero sign bits val.
Proof.
  intros Hb Hv Hr. unfold truncates_to_itself. rewrite <-not_false_iff_true, truncation_fails_spec by done. destruct (Z.testbit val 31) eqn:Ht.
  { destruct zero, sign; intuition congruence. }
  destruct Hr as [|Hr]; [done|]. assert (val < 2 ^ 31) as Hs.
  { destruct (Z.lt_ge_cases val (2 ^ 31)); [done|]. exfalso. enough (Z.testbit val 31 = true) by congruence.
    apply Z.testbit_true; [lia|]. replace (val / 2 ^ 31) with 1; [done|]. apply Z.div_unique with (val - 2 ^ 31); lia. }
  assert (val mod 2 ^ 32 = val) as -> by (apply Z.mod_small; lia).
  assert (signed 32 val mod 2 ^ bits = val) as ->; [|tauto].
  assert (2 ^ 32 ≤ 2 ^ bits) by (apply Z.pow_le_mono_r; lia).
  rewrite signed_cases by lia. destruct (Z.ltb_spec val (2 ^ (32 - 1))); [apply Z.mod_small; lia|lia].
Qed.

(** The condition is one conditional expression: a value above 32 bits with bit
    31 clear passes whatever the class asks. *)
Lemma truncation_unchecked zero sign bits val : Z.testbit val 31 = false → 32 ≤ bits → 0 ≤ val →
  truncation_fails zero sign bits val = false.
Proof. intros Ht Hb Hv. apply truncation_fails_spec; [done|done|by left]. Qed.

Lemma truncation_misses : truncation_fails true false 64 (2 ^ 32) = false ∧ ¬ truncates_to_itself true false 64 (2 ^ 32).
Proof. split; [by vm_compute|]. intros [H _]. specialize (H eq_refl). by vm_compute in H. Qed.

(** ** The word a relocation leaves *)

Lemma mem_pack_word_eq w o b addr v size :
  backends w !! o = Some b →
  mem_pack_word o addr v size w =
    let '(h, r) := pack_word (base_of b) (store_of w) addr v size false None in
    (mkWorld h (backends w) (symbols w) (relocations w), r).
Proof.
  intros Hb. unfold mem_pack_word. rewrite (run_bind _ _ _ _ _ (backend_some _ _ _ Hb)). cbv [mbind M_bind get].
  by destruct (pack_word _ _ _ _ _ _ _) as [h [a|e]].
Qed.

(** The methods that write [value] to the field, and the sizes of their words. *)
Definition plain_size (c : cls) : option (option Z) :=
  match first_relocate (mro c) with
  | Some (Base Relocation) => Some None
  | Some (Generic RelocTruncate32Mixin) => Some (Some 4)
  | Some (PPC R_PPC_ADDR16_LO | PPC R_PPC_ADDR16_HI | PPC R_PPC_ADDR16_HA |
          PPC64 R_PPC64_TOC16_LO | PPC64 R_PPC64_TOC16_HI | PPC64 R_PPC64_TOC16_HA) => Some (Some 2)
  | _ => None
  end.

Lemma value_keeps w self x b :
  sane w → relocations w !! self = Some x → backends w !! r_owner x = Some b →
  let w' := (value self w).1 in
  kept w w' ∧ framed (memory b) 0 0 (store_of w) (store_of w').
Proof.
  intros Hw Hx Hb w'.
  assert (triple (relocations w) (backends w) b (symbols w) (store_of w) 0 0 (value self)
    (λ v, ∀ bs, v = VBytes bs → len bs ≤ fixup_size (r_cls x))) as Ht by by eapply triple_value.
  unfold w'. destruct (value self w) as [w1 r] eqn:E.
  destruct (Ht w w1 r) as ((? & ? & ? & ?) & _); [|done|done].
  do 3 (split; [done|]). apply framed_refl.
Qed.

(** Packing a number that fits its word: the low bits. *)
Lemma packed_word w w' o b addr v size :
  sane w → backends w !! o = Some b → mem_pack_word o addr v size w = (w', Ok tt) →
  unpack_word (base_of b) (store_of w') addr size false None =
    Ok (v mod 2 ^ (8 * default (bytes (a_word (o_arch b))) size)).
Proof.
  intros [Hw _] Hb. rewrite (mem_pack_word_eq _ _ _ _ _ _ Hb).
  destruct (Forall_lookup_1 _ _ _ _ Hw Hb) as (Hm & Hnd & _).
  destruct (pack_word _ _ _ _ _ _ _) as [h r] eqn:E. intros [= <- ->].
  by apply (pack_unpack_word (a_word (o_arch b)) (store_of w) (memory b) addr v size false None h).
Qed.

Lemma dispatch_method cs d self :
  first_relocate cs = Some d →
  ∃ cs' m, own_relocate d = Some m ∧ dispatch own_relocate cs self = m (dispatch own_relocate cs') self.
Proof.
  induction cs as [|c cs IH]; cbn [first_relocate dispatch]; [done|].
  destruct (own_relocate c) as [m|] eqn:E; [|done]. intros [= ->]. by exists cs, m.
Qed.

(** What is written, if anything: the outcome of a relocation that succeeds. *)
Definition outcome (w w' : world) (self : nat) (x : Reloc) (b : Backend) (size : option Z) (r : answer) : Prop :=
  r_resolved x = false ∧ r = Some false ∧ w' = w ∨
  r = Some true ∧ ∃ v, (value self w).2 = Ok (VInt v) ∧
    unpack_word (base_of b) (store_of w') (r_relative_addr x) size false None =
      Ok (v mod 2 ^ (8 * default (bytes (a_word (o_arch b))) size)).

Lemma lookup_after_value w w1 self x b v :
  sane w → relocations w !! self = Some x → backends w !! r_owner x = Some b → value self w = (w1, v) →
  sane w1 ∧ ∃ b1, backends w1 !! r_owner x = Some b1 ∧ settled b1 = settled b.
Proof.
  intros Hw Hx Hb E. pose proof (value_keeps w self x b Hw Hx Hb) as [Hk (Hsh & _)]. rewrite E in *. cbn in *.
  split; [by eapply sane_kept|]. by destruct (lookup_kept settled _ _ _ _ (proj1 (proj2 Hk)) Hb) as (b1 & ? & ?); exists b1.
Qed.

Lemma pack_value_outcome w w' self x b size :
  sane w → relocations w !! self = Some x → backends w !! r_owner x = Some b →
  pack_value self size w = (w', Ok tt) → outcome w w' self x b size (Some true).
Proof.
  intros Hw Hx Hb. unfold pack_value. rewrite (run_bind _ _ _ _ _ (reloc_some _ _ _ Hx)).
  destruct (value self w) as [w1 [v|e]] eqn:Ev; [|by rewrite (run_bind_err _ _ _ _ _ Ev)]. rewrite (run_bind _ _ _ _ _ Ev).
  destruct v as [v| |]; [|done..]. cbn [number]. rewrite bind_ret.
  destruct (lookup_after_value _ _ _ _ _ _ Hw Hx Hb Ev) as (Hw1 & b1 & Hb1 & Es). injection Es as Ea Em _ _ _ _ _.
  intros E. right. split; [done|]. exists v. rewrite Ev. split; [done|].
  apply (packed_word _ _ _ _ _ _ _ Hw1 Hb1) in E. unfold base_of in *. by rewrite <-Ea, <-Em.
Qed.

Lemma truncate32_outcome w w' self x b r :
  sane w → relocations w !! self = Some x → backends w !! r_owner x = Some b →
  RelocTruncate32Mixin_relocate self w = (w', Ok r) → outcome w w' self x b (Some 4) r.
Proof.
  intros Hw Hx Hb. unfold RelocTruncate32Mixin_relocate. rewrite (run_bind _ _ _ _ _ (reloc_some _ _ _ Hx)).
  unfold owner. assert ((x ← reloc self; backend (r_owner x)) w = (w, Ok b)) as Eo.
  { by rewrite (run_bind _ _ _ _ _ (reloc_some _ _ _ Hx)), (backend_some _ _ _ Hb). }
  rewrite (run_bind _ _ _ _ _ Eo). cbv zeta. destruct (Z.leb_spec 32 (a_bits (o_arch b))); [|done]. cbn [negb].
  destruct (value self w) as [w1 [v|e]] eqn:Ev; [|by rewrite (run_bind_err _ _ _ _ _ Ev)]. rewrite (run_bind _ _ _ _ _ Ev).
  destruct v as [v| |]; [|done..]. cbn [number]. rewrite bind_ret.
  destruct (truncation_fails _ _ _ _); [done|].
  destruct (lookup_after_value _ _ _ _ _ _ Hw Hx Hb Ev) as (Hw1 & b1 & Hb1 & Es). injection Es as Ea Em _ _ _ _ _.
  destruct (mem_pack_word (r_owner x) (r_relative_addr x) (v mod 2 ^ a_bits (o_arch b)) (Some 4) w1) as [w2 [[]|e]] eqn:E; [|by rewrite (run_bind_err _ _ _ _ _ E)].
  rewrite (run_bind _ _ _ _ _ E). intros [= <- <-]. right. split; [done|]. exists v. rewrite Ev. split; [done|].
  apply (packed_word _ _ _ _ _ _ _ Hw1 Hb1) in E. unfold base_of in *. rewrite <-Ea, <-Em, E. cbn [default from_option].
  f_equal. change (8 * id 4) with 32. apply Z.mod_mod_divide. exists (2 ^ (a_bits (o_arch b) - 32)).
  rewrite <-Z.pow_add_r by lia. f_equal. lia.
Qed.

Lemma relocate_outcome (w w' : world) (self : nat) (x : Reloc) (b : Backend) (size : option Z) (r : answer) :
  sane w → relocations w !! self = Some x → backends w !! r_owner x = Some b →
  plain_size (r_cls x) = Some size → relocate self w = (w', Ok r) → outcome w w' self x b size r.
Proof.
  intros Hw Hx Hb Hp. unfold relocate. rewrite (run_bind _ _ _ _ _ (reloc_some _ _ _ Hx)).
  unfold plain_size in Hp. destruct (first_relocate (mro (r_cls x))) as [d|] eqn:Hd; [|done].
  destruct (dispatch_method _ _ self Hd) as (cs' & m & Em & ->).
  assert (∀ s, (when_resolved self (_ ← pack_value self s; mret (Some true))) w = (w', Ok r) → outcome w w' self x b s r) as Hplain.
  { intros s. unfold when_resolved. rewrite (run_bind _ _ _ _ _ (reloc_some _ _ _ Hx)).
    destruct (r_resolved x) eqn:Hr; [|intros [= <- <-]; by left].
    destruct (pack_value self s w) as [w1 [[]|e]] eqn:E; [|by rewrite (run_bind_err _ _ _ _ _ E)].
    rewrite (run_bind _ _ _ _ _ E). intros [= <- <-]. by apply pack_value_outcome. }
  destruct d as [[]|[]|[]|[]|[]|[]|[]|[]|[]|[]|[]|[]]; try discriminate Hp; injection Hp as <-; injection Em as <-;
    first [by apply Hplain|by apply truncate32_outcome].
Qed.

(** *** The formulas of the documentation *)

Fixpoint first_value (cs : list cls) : option cls :=
  match cs with
  | [] => None
  | c :: cs => match own_value c with Some _ => Some c | None => first_value cs end
  end.

(** The number of a class with a generic [value], from the address of the symbol,
    the addend and the address of the place. *)
Definition formula (c : cls) : option (Z → Z → Z → Z) :=
  match first_value (mro c) with
  | Some (Generic GenericAbsoluteAddendReloc) => Some (λ S A P, S + A)
  | Some (Generic GenericPCRelativeAddendReloc) => Some (λ S A P, S + A - P)
  | Some (Generic GenericAbsoluteReloc) => Some (λ S A P, S)
  | _ => None
  end.

Lemma lookup_first_value cs d : first_value cs = Some d → lookup_attribute own_value cs = own_value d ∧ is_Some (own_value d).
Proof.
  induction cs as [|c cs IH]; cbn [first_value lookup_attribute]; [done|].
  destruct (own_value c) eqn:E; [|done]. intros [= ->]. by rewrite E.
Qed.

Lemma symbol_rebased_eq w t y b :
  symbols w !! t = Some y → backends w !! s_owner y = Some b →
  symbol_rebased_addr t w = (w, Ok (s_relative_addr y + mapped_base b)).
Proof.
  intros Hy Hb. unfold symbol_rebased_addr. rewrite (run_bind _ _ _ _ _ (symbol_some _ _ _ Hy)).
  by rewrite (run_bind _ _ _ _ _ (backend_some _ _ _ Hb)).
Qed.

Lemma target_eq w self x t y b :
  relocations w !! self = Some x → r_resolvedby x = Some t → symbols w !! t = Some y → backends w !! s_owner y = Some b →
  target self w = (w, Ok (s_relative_addr y + mapped_base b)).
Proof.
  intros Hx Ht Hy Hb. unfold target. rewrite (run_bind _ _ _ _ _ (reloc_some _ _ _ Hx)), Ht. cbn [some].
  rewrite bind_ret. by apply symbol_rebased_eq.
Qed.

Lemma addend_eq w self x A : relocations w !! self = Some x → _addend x = Some A → addend self w = (w, Ok A).
Proof. intros Hx HA. unfold addend. by rewrite (run_bind _ _ _ _ _ (reloc_some _ _ _ Hx)), HA. Qed.

Lemma rebased_addr_eq w self x b :
  relocations w !! self = Some x → backends w !! r_owner x = Some b →
  rebased_addr self w = (w, Ok (r_relative_addr x + mapped_base b)).
Proof.
  intros Hx Hb. unfold rebased_addr. rewrite (run_bind _ _ _ _ _ (reloc_some _ _ _ Hx)).
  by rewrite (run_bind _ _ _ _ _ (backend_some _ _ _ Hb)).
Qed.

Lemma value_formula w self x b t y o A f :
  relocations w !! self = Some x → backends w !! r_owner x = Some b →
  r_resolvedby x = Some t → symbols w !! t = Some y → backends w !! s_owner y = Some o → _addend x = Some A →
  formula (r_cls x) = Some f →
  value self w = (w, Ok (VInt (f (s_relative_addr y + mapped_base o) A (r_relative_addr x + mapped_base b)))).
Proof.
  intros Hx Hb Ht Hy Ho HA Hf. unfold value. rewrite (run_bind _ _ _ _ _ (reloc_some _ _ _ Hx)).
  unfold formula in Hf. destruct (first_value _) as [d|] eqn:Ed; [|done].
  destruct (lookup_first_value _ _ Ed) as [-> _].
  pose proof (target_eq w self x t y o Hx Ht Hy Ho) as ET. pose proof (addend_eq w self x A Hx HA) as EA.
  pose proof (rebased_addr_eq w self x b Hx Hb) as EP.
  destruct d as [[]|[]|[]|[]|[]|[]|[]|[]|[]|[]|[]|[]]; try discriminate Hf; injection Hf as <-;
    cbn [own_value some]; rewrite bind_ret; unfold GenericAbsoluteAddendReloc_value, GenericPCRelativeAddendReloc_value, GenericAbsoluteReloc_value;
    by rewrite (run_bind _ _ _ _ _ ET), ?(run_bind _ _ _ _ _ EA), ?(run_bind _ _ _ _ _ EP).
Qed.

(** C8: What [relocate] leaves for the classes with a generic [value] and a plain
    [relocate]: S, S + A or S + A - P, modulo the size of the field, where S is
    the address of the symbol in its object as mapped, A the addend and P the
    address of the place. *)
Theorem linked_word (w w' : world) (self t : nat) (x : Reloc) (b o : Backend) (y : Symbol) (A : Z)
    (f : Z → Z → Z → Z) (size : option Z) (r : answer) :
  sane w → relocations w !! self = Some x → backends w !! r_owner x = Some b →
  r_resolved x = true → r_resolvedby x = Some t → symbols w !! t = Some y → backends w !! s_owner y = Some o →
  _addend x = Some A → formula (r_cls x) = Some f → plain_size (r_cls x) = Some size →
  relocate self w = (w', Ok r) →
  r = Some true ∧
  unpack_word (base_of b) (store_of w') (r_relative_addr x) size false None =
    Ok (f (s_relative_addr y + mapped_base o) A (r_relative_addr x + mapped_base b)
        mod 2 ^ (8 * default (bytes (a_word (o_arch b))) size)).
Proof.
  intros Hw Hx Hb Hr Ht Hy Ho HA Hf Hp E.
  destruct (relocate_outcome _ _ _ _ _ _ _ Hw Hx Hb Hp E) as [(? & _)|(-> & v & Ev & Eu)]; [congruence|].
  rewrite (value_formula _ _ _ _ _ _ _ _ _ Hx Hb Ht Hy Ho HA Hf) in Ev. by injection Ev as <-.
Qed.

(** ** The symbol a name is resolved to *)

(** The lookups of the loader only read. *)
Class PureLinker `{Linker} := {
  find_symbol : nat → string → option nat;
  get_symbol_pure o name w : get_symbol o name w = (w, Ok (find_symbol o name));
  library : string → option nat;
  find_object_pure name w : find_object name w = (w, Ok (library name)) }.

Section search.
Context `{PureLinker}.

(** What an object offers for a name to a relocation of [from]. *)
Definition offers (w : world) (from : nat) (name : string) (so : nat) : option (nat * bool) :=
  s ← find_symbol so name;
  y ← symbols w !! s;
  if is_export y || (negb (s_is_import y) && bool_decide (so = from)) then Some (s, is_weak y) else None.

(** The first strong definition, or else the first one. *)
Definition preferred (found : list (nat * bool)) : option nat :=
  match list_find (λ p, p.2 = false) found with
  | Some (_, p) => Some p.1
  | None => fst <$> head found
  end.

Definition closed_names (w : world) (sos : list nat) (name : string) : Prop :=
  ∀ so s, so ∈ sos → find_symbol so name = Some s → is_Some (symbols w !! s).

Lemma search_spec w from name weak sos :
  closed_names w sos name →
  ∃ strong, search from name weak sos w =
    (w, Ok (preferred (match weak with Some s => [(s, true)] | None => [] end ++ omap (offers w from name) sos), strong)).
Proof.
  revert weak. induction sos as [|so sos IH]; intros weak Hc; cbn [search omap list_omap].
  { exists false. rewrite app_nil_r. by destruct weak. }
  assert (closed_names w sos name) as Hc' by (intros ???; apply Hc; by constructor).
  rewrite (run_bind _ _ _ _ _ (get_symbol_pure so name w)). destruct (find_symbol so name) as [s|] eqn:Ef.
  2: { assert (offers w from name so = None) as -> by (unfold offers; by rewrite Ef). by apply IH. }
  destruct (Hc so s ltac:(constructor) Ef) as [y Hy]. rewrite (run_bind _ _ _ _ _ (symbol_some _ _ _ Hy)).
  assert (offers w from name so =
    if is_export y || (negb (s_is_import y) && bool_decide (so = from)) then Some (s, is_weak y) else None) as ->.
  { unfold offers. rewrite Ef. cbn [mbind option_bind]. by rewrite Hy. }
  destruct (is_export y || _); [|by apply IH]. destruct (is_weak y) eqn:Ew; cbn [negb].
  - destruct weak as [s'|]; [destruct (IH (Some s') Hc') as [st E]|destruct (IH (Some s) Hc') as [st E]]; exists st;
      rewrite E; do 3 f_equal.
    unfold preferred. cbn. by destruct (list_find _ (omap _ sos)) as [[]|].
  - exists true. unfold preferred. by destruct weak.
Qed.

End search.

Section resolved.
Context `{PureLinker}.

Fixpoint first_resolve (cs : list cls) : option cls :=
  match cs with
  | [] => None
  | c :: cs => match own_resolve c with Some _ => Some c | None => first_resolve cs end
  end.

Fixpoint first_resolve_symbol (cs : list cls) : option cls :=
  match cs with
  | [] => None
  | c :: cs => match own_resolve_symbol c with Some _ => Some c | None => first_resolve_symbol cs end
  end.

(** What resolving leaves: the relocation and its symbol point to [f], and the
    owner of the symbol lists it as a resolved import. *)
Definition resolved_to (w : world) (self : nat) (x : Reloc) (i : nat) (y : Symbol) (b : Backend) (f : nat) : world :=
  mkWorld (store_of w) (<[s_owner y := add_resolved_import b i]> (backends w))
    (<[i := set_symbol_resolution y true (Some f)]> (symbols w))
    (<[self := set_resolution x (Some f) true]> (relocations w)).

Lemma Relocation_resolve_eq w self x i y b f e :
  relocations w !! self = Some x → r_symbol x = Some i → symbols w !! i = Some y → backends w !! s_owner y = Some b →
  Relocation_resolve self (Some f) e w = (resolved_to w self x i y b f, Ok tt).
Proof.
  intros Hx Hi Hy Hb. unfold Relocation_resolve. rewrite (run_bind _ _ _ _ _ (reloc_some _ _ _ Hx)).
  unfold set_reloc, symbol_resolve, set_symbol, set_backend, symbol, backend, get, put. 
  cbv [mbind M_bind]. rewrite Hi. cbn. rewrite Hy. cbn. by rewrite Hb.
Qed.

Lemma resolve_plain w self x obj e :
  relocations w !! self = Some x → first_resolve (mro (r_cls x)) = Some (Base Relocation) →
  resolve self obj e w = Relocation_resolve self obj e w.
Proof.
  intros Hx Hc. unfold resolve. rewrite (run_bind _ _ _ _ _ (reloc_some _ _ _ Hx)).
  induction (mro (r_cls x)) as [|c cs IH]; cbn in *; [done|].
  destruct (own_resolve c) as [m|] eqn:E; [|by apply IH]. injection Hc as ->. by injection E as <-.
Qed.

Lemma resolve_symbol_plain w self x args :
  relocations w !! self = Some x → first_resolve_symbol (mro (r_cls x)) = Some (Base Relocation) →
  resolve_symbol self args w = Relocation_resolve_symbol self args w.
Proof.
  intros Hx Hc. unfold resolve_symbol. rewrite (run_bind _ _ _ _ _ (reloc_some _ _ _ Hx)).
  induction (mro (r_cls x)) as [|c cs IH]; cbn in *; [done|].
  destruct (own_resolve_symbol c) as [m|] eqn:E; [|by apply IH]. injection Hc as ->. by injection E as <-.
Qed.

(** C9: For a relocation with a symbol, of a class that inherits [resolve] and
    [resolve_symbol] from [Relocation] (no copy, PE, TLS-offset, MIPS-local,
    SimData, Thumb-call or GOT class), that does not handle the type
    [TYPE_NONE] of its symbol itself, with lookups that change nothing: nothing
    is done when it is resolved already; a static or local symbol resolves it
    to itself; any other name to the first strong definition among what the
    objects offer, or else the first weak one; without any, a weak reference
    stays as it is (nothing is said of a strong one). *)
Theorem resolve_symbol_prefers_strong (w : world) (self i : nat) (x : Reloc) (y : Symbol) (b : Backend)
    (args : resolve_args) :
  relocations w !! self = Some x → r_symbol x = Some i → symbols w !! i = Some y →
  backends w !! s_owner y = Some b →
  first_resolve_symbol (mro (r_cls x)) = Some (Base Relocation) →
  first_resolve (mro (r_cls x)) = Some (Base Relocation) →
  (s_type y = TYPE_NONE → AUTO_HANDLE_NONE (r_cls x) = false) → closed_names w (solist args) (s_name y) →
  let definition :=
    if is_static y || is_local y then Some i else preferred (omap (offers w (r_owner x) (s_name y)) (solist args)) in
  if r_resolved x then resolve_symbol self args w = (w, Ok tt)
  else
    match definition with
    | Some f => resolve_symbol self args w = (resolved_to w self x i y b f, Ok tt)
    | None => is_weak y = true → resolve_symbol self args w = (w, Ok tt)
    end.
Proof.
  intros Hx Hi Hy Hb Hc1 Hc2 Ht Hc definition. subst definition. rewrite (resolve_symbol_plain _ _ _ _ Hx Hc1).
  unfold Relocation_resolve_symbol. rewrite (run_bind _ _ _ _ _ (reloc_some _ _ _ Hx)), Hi.
  destruct (r_resolved x); [done|].
  rewrite (run_bind _ _ w w (Some (i, y))) by (by rewrite (run_bind _ _ _ _ _ (symbol_some _ _ _ Hy))).
  assert (bool_decide (s_type y = TYPE_NONE) && AUTO_HANDLE_NONE (r_cls x) = false) as ->
    by (case_bool_decide; [by rewrite Ht|done]).
  destruct (is_static y || is_local y).
  { rewrite (resolve_plain _ _ _ _ _ Hx Hc2). by apply Relocation_resolve_eq. }
  destruct (search_spec w (r_owner x) (s_name y) None (solist args) Hc) as [st E]. rewrite (run_bind _ _ _ _ _ E).
  cbn [app]. destruct (preferred _) as [f|]; [|by intros ->].
  rewrite (resolve_plain _ _ _ _ _ Hx Hc2). by apply Relocation_resolve_eq.
Qed.

(** [R_ARM_GOT_PREL] and [R_386_GOTPC] inherit from [RelocGOTMixin], but
    [Relocation.resolve] comes first. *)
Theorem got_indirection_skipped (w : world) (self i f : nat) (x : Reloc) (y : Symbol) (b : Backend) (e : option nat) :
  r_cls x = ARM R_ARM_GOT_PREL ∨ r_cls x = I386 R_386_GOTPC →
  relocations w !! self = Some x → r_symbol x = Some i → symbols w !! i = Some y → backends w !! s_owner y = Some b →
  Generic RelocGOTMixin ∈ mro (r_cls x) ∧ resolve self (Some f) e w = (resolved_to w self x i y b f, Ok tt).
Proof.
  intros Hc Hx Hi Hy Hb. split; [by destruct Hc as [-> | ->]; apply (bool_decide_unpack _); vm_compute|].
  rewrite (resolve_plain _ _ _ _ _ Hx) by (by destruct Hc as [-> | ->]; vm_compute). by apply Relocation_resolve_eq.
Qed.

End resolved.

(** ** Forwarders *)

Section forwarding.
Context `{PureLinker}.

(** One step of the loop, on a world it does not change. *)
Lemma forward_loop_world fuel seen sym w : (forward_loop fuel seen sym w).1 = w.
Proof.
  revert seen sym. induction fuel as [|fuel IH]; intros seen [s|]; cbn [forward_loop]; try done.
  destruct (symbols w !! s) as [y|] eqn:Hy.
  - rewrite (run_bind _ _ _ _ _ (symbol_some _ _ _ Hy)). destruct (forwarder y) as [fwd|]; [|done].
    case_bool_decide; [done|]. destruct (split_dot fwd) as [[a n]|]; [|done].
    rewrite (run_bind _ _ _ _ _ (find_object_pure a w)). destruct (library a) as [o|]; [|done].
    rewrite (run_bind _ _ _ _ _ (get_symbol_pure o n w)). apply IH.
  - by rewrite (run_bind_err _ _ w w AttributeError) by (unfold symbol; cbv [mbind M_bind get]; by rewrite Hy).
Qed.

(** Every round sees a forwarder it has not seen, so there are no more rounds
    than symbols. *)
Lemma forward_loop_enough w fuel seen sym :
  NoDup seen → (∀ f, f ∈ seen → Some f ∈ forwarder <$> symbols w) →
  (length (symbols w) < fuel + length seen)%nat → (forward_loop fuel seen sym w).2 ≠ Ok OutOfFuel.
Proof.
  revert seen sym. induction fuel as [|fuel IH]; intros seen sym Hnd Hin Hl.
  - exfalso. assert (length seen ≤ length (symbols w))%nat; [|lia].
    rewrite <-(length_fmap forwarder), <-(length_fmap (Some (A:=string)) seen). apply submseteq_length.
    apply NoDup_submseteq; [by apply NoDup_fmap_2; [apply _|]|].
    intros ? (f & -> & Hf)%list_elem_of_fmap. by apply Hin.
  - cbn [forward_loop]. destruct sym as [s|]; [|done].
    destruct (symbols w !! s) as [y|] eqn:Hy.
    2: { by rewrite (run_bind_err _ _ w w AttributeError) by (unfold symbol; cbv [mbind M_bind get]; by rewrite Hy). }
    rewrite (run_bind _ _ _ _ _ (symbol_some _ _ _ Hy)). destruct (forwarder y) as [fwd|] eqn:Ef; [|done].
    case_bool_decide as Hs; [done|]. destruct (split_dot fwd) as [[a n]|]; [|done].
    rewrite (run_bind _ _ _ _ _ (find_object_pure a w)). destruct (library a) as [o|]; [|done].
    rewrite (run_bind _ _ _ _ _ (get_symbol_pure o n w)). apply IH.
    + by constructor.
    + intros f [->|Hf]%elem_of_cons; [|by apply Hin]. rewrite <-Ef. apply list_elem_of_fmap.
      exists y. split; [done|by eapply list_elem_of_lookup_2].
    + cbn [length]. lia.
Qed.

(** [s] forwards to "library.name", and the library has [t] under that name. *)
Inductive hop (w : world) (s t : nat) : Prop :=
  hop_intro y fwd a n o : symbols w !! s = Some y → forwarder y = Some fwd → split_dot fwd = Some (a, n) →
    library a = Some o → find_symbol o n = Some t → hop w s t.

(** What the loop may end with when it has come from [s0] to [s]. *)
Definition forwarded (w : world) (s0 : nat) (r : result forwarding) : Prop :=
  match r with
  | Ok (Arrived (Some t)) => rtc (hop w) s0 t ∧ ∃ y, symbols w !! t = Some y ∧ forwarder y = None
  | Ok (Arrived None) =>
      ∃ t y fwd a n o, rtc (hop w) s0 t ∧ symbols w !! t = Some y ∧ forwarder y = Some fwd ∧ split_dot fwd = Some (a, n) ∧
        library a = Some o ∧ find_symbol o n = None
  | Ok GaveUp =>
      ∃ t y fwd, rtc (hop w) s0 t ∧ symbols w !! t = Some y ∧ forwarder y = Some fwd ∧
        ((∃ a n, split_dot fwd = Some (a, n) ∧ library a = None) ∨
         ∃ u z, rtc (hop w) s0 u ∧ tc (hop w) u t ∧ symbols w !! u = Some z ∧ forwarder z = Some fwd)
  | Ok OutOfFuel | Err _ => True
  end.

Lemma forward_loop_forwarded w s0 fuel : ∀ seen s,
  rtc (hop w) s0 s →
  (∀ f, f ∈ seen → ∃ u z, rtc (hop w) s0 u ∧ tc (hop w) u s ∧ symbols w !! u = Some z ∧ forwarder z = Some f) →
  forwarded w s0 (forward_loop fuel seen (Some s) w).2.
Proof.
  induction fuel as [|fuel IH]; intros seen s Hs Hseen; [done|]. cbn [forward_loop].
  destruct (symbols w !! s) as [y|] eqn:Hy.
  2: { by rewrite (run_bind_err _ _ w w AttributeError) by (unfold symbol; cbv [mbind M_bind get]; by rewrite Hy). }
  rewrite (run_bind _ _ _ _ _ (symbol_some _ _ _ Hy)). destruct (forwarder y) as [fwd|] eqn:Ef; [|split; [done|by exists y]].
  case_bool_decide as Hin; [exists s, y, fwd; naive_solver|]. destruct (split_dot fwd) as [[a n]|] eqn:Ed; [|done].
  rewrite (run_bind _ _ _ _ _ (find_object_pure a w)). destruct (library a) as [o|] eqn:Ea; [|exists s, y, fwd; naive_solver].
  rewrite (run_bind _ _ _ _ _ (get_symbol_pure o n w)). destruct (find_symbol o n) as [t|] eqn:Et.
  - assert (hop w s t) as Hst by by eapply hop_intro. apply IH; [by eapply rtc_r|].
    intros f [->|Hf]%elem_of_cons; [exists s, y; split_and!; try done; by apply tc_once|].
    destruct (Hseen f Hf) as (u & z & ? & ? & ?). exists u, z. split_and!; try tauto. by eapply tc_r.
  - destruct fuel; [done|]. cbn [forward_loop]. exists s, y, fwd, a, n, o. done.
Qed.

(** C10: Where looking objects and symbols up changes nothing, the loop of
    [WinSymbol.resolve_forwarder] ends within two rounds more than there are
    symbols, cycles included, and changes nothing.  A symbol it arrives at is
    reached along the forwarders and forwards nowhere; it arrives at nothing
    where a library lacks the name; it gives up only where a library is missing
    or a forwarder recurs on the way.  (It raises on a forwarder without a dot.) *)
Theorem forwarders_end (w : world) (s : nat) :
  let r := forward_loop (S (S (length (symbols w)))) [] (Some s) w in
  r.1 = w ∧ r.2 ≠ Ok OutOfFuel ∧ forwarded w s r.2.
Proof.
  intros r. split; [apply forward_loop_world|]. split.
  - apply forward_loop_enough; [constructor|by intros f ?%not_elem_of_nil|cbn; lia].
  - apply forward_loop_forwarded; [apply rtc_refl|]. by intros f ?%not_elem_of_nil.
Qed.

End forwarding.

(** ** All relocations of an object *)

(** C7: [Backend.relocate] changes no byte outside the documented fields of the
    object's resolved relocations, but those that a relocation of a class of the
    list [overruns] writes beyond its field, no buffer of another memory, and
    nothing of the relocations, the objects and the symbols but what relocating
    updates; also when a relocation raises.  The memories of the world are well
    formed and the object owns its relocations. *)
Theorem relocations_stay_in_fields (w : world) (o : nat) (b : Backend) :
  sane w → backends w !! o = Some b → own_relocs w o b →
  let w' := (Backend_relocate o w).1 in
  kept w w' ∧
  (∀ k, ¬ in_fields w b k → ¬ in_overruns w b k → mem (store_of w') (memory b) k = mem (store_of w) (memory b) k) ∧
  ∀ n, n ∉ (flat (memory b)).*2 → buffer_at (store_of w') n = buffer_at (store_of w) n.
Proof.
  intros Hw Hb Hown w'. unfold w', Backend_relocate. rewrite (run_bind _ _ _ _ _ (backend_some _ _ _ Hb)).
  destruct (relocate_all_relocated w o b (relocs b) Hw Hb Hown (λ i H, H) w) as (Hk & _ & Hm & Hn); [by split; [apply kept_refl|]|].
  split; [done|]. split; [|done]. intros k Hf Ho. apply Hm. by intros [?|?]%spans_covered.
Qed.

(** ** A world to evaluate on

    An object of 32-bit little-endian words with the memory [sample], mapped at
    0x1000; a symbol it exports at 8, one it imports, a weak one; a PC-relative
    relocation of the word at 32, resolved to the first, and one of the word at 16
    that is not. *)

Definition machine : Machine := mkMachine "X86" 32 (mkArch 4 LE) None.
Definition object : Backend :=
  mkBackend machine sample None 0 0x1000 true true [0; 1]%nat ∅ ∅ [] [] ∅ None None None false None.

Definition a_symbol (name : string) (addr : Z) (import export weak : bool) : Symbol :=
  mkSymbol 0 name addr 4 TYPE_FUNCTION false import export false weak false false None false None.

Definition a_reloc (c : cls) (s : nat) (addr addend : Z) (by_ : option nat) : Reloc :=
  mkReloc c 0 (Some s) addr by_ (bool_decide (is_Some by_)) None false (Some addend) None 0 false.

Definition example_world : world :=
  mkWorld sample_heap [object]
    [a_symbol "f" 8 false true false; a_symbol "g" 0 true false false; a_symbol "g" 24 false true true;
     a_symbol "g" 28 false true false]
    [a_reloc (I386 R_386_PC32) 0 32 (-4) (Some 0%nat); a_reloc (I386 R_386_32) 1 16 0 None;
     a_reloc (I386 R_386_GOTPC) 1 16 0 None].

Lemma example_sane : sane example_world.
Proof.
  split.
  - apply Forall_singleton. split; [apply sample_bytes|]. split; [|done].
    apply (bool_decide_eq_true_1 _); vm_compute; reflexivity.
  - apply Forall_forall. intros y Hy. repeat (apply elem_of_cons in Hy as [->|Hy]; [by split; [|eexists]|]).
    by apply not_elem_of_nil in Hy.
Qed.

(** Two libraries: object 0 with the weak [g], object 1 with the strong one. *)
#[export] Instance example_linker : Linker := {
  get_symbol o name := mret (if (name =? "g")%string then match o with O => Some 2%nat | _ => Some 3%nat end else None);
  find_object name := mret (if (name =? "lib")%string then Some 1%nat else None);
  make_extern _ _ := raise NotImplemented }.

#[export, refine] Instance example_pure : PureLinker := {
  find_symbol o name := if (name =? "g")%string then match o with O => Some 2%nat | _ => Some 3%nat end else None;
  library name := if (name =? "lib")%string then Some 1%nat else None }.
Proof. all: done. Defined.

Lemma example_own : own_relocs example_world 0 object.
Proof. intros i x _ H. by do 3 (destruct i as [|i]; [by injection H as <-|]). Qed.

Lemma relocations_stay_in_fields_witness :
  let h := store_of (Backend_relocate 0 example_world).1 in
  mem h sample 17 = Some 11 ∧ run (mem h sample) 32 4 = [0xE4; 0xFF; 0xFF; 0xFF].
Proof.
  destruct (relocations_stay_in_fields example_world 0 object) as (_ & Hm & _); [apply example_sane|done|apply example_own|].
  split; [|vm_compute; reflexivity].
  rewrite Hm; [done| |]; intros (i & x & _ & Hx & Hr & Hf);
    (destruct i as [|[|[|i]]]; [|injection Hx as <-; done..|done]); injection Hx as <-; vm_compute in Hf; intuition congruence.
Defined.

(** R_PPC_ADDR16, whose field is a half-word, clears the half-word after it. *)
Lemma half_word_overrun :
  let x := a_reloc (PPC R_PPC_ADDR16) 0 32 0 (Some 0%nat) in
  let w := mkWorld sample_heap [object] (symbols example_world) [x] in
  let h := store_of (relocate 0 w).1 in
  field_of x object (symbols w) = (32, 2) ∧
  run (mem sample_heap sample) 32 4 = [30; 31; 32; 33] ∧ run (mem h sample) 32 4 = [0x08; 0x10; 0; 0].
Proof. vm_compute. auto. Qed.

Lemma linked_word_witness :
  unpack_word (base_of object) (store_of (relocate 0 example_world).1) 32 None false None = Ok (2 ^ 32 - 28).
Proof.
  refine (proj2 (linked_word example_world _ 0 0 (a_reloc (I386 R_386_PC32) 0 32 (-4) (Some 0%nat)) object object
    (a_symbol "f" 8 false true false) (-4) (λ S A P, S + A - P) None (Some true) example_sane _ _ _ _ _ _ _ _ _ _));
    try reflexivity; apply injective_projections; vm_compute; reflexivity.
Defined.

Lemma truncation_check_witness : truncation_fails true false 64 0x180000000 = true.
Proof. apply truncation_check; [lia|lia|by left|]. intros [H _]. specialize (H eq_refl). by vm_compute in H. Defined.

Lemma resolve_symbol_prefers_strong_witness :
  ∃ w', resolve_symbol 1 (mkArgs [0; 1]%nat false None false) example_world = (w', Ok tt) ∧
    (r_resolvedby <$> relocations w' !! 1%nat) = Some (Some 3%nat).
Proof.
  exists (resolved_to example_world 1 (a_reloc (I386 R_386_32) 1 16 0 None) 1 (a_symbol "g" 0 true false false) object 3).
  split.
  - refine (resolve_symbol_prefers_strong example_world 1 1 (a_reloc (I386 R_386_32) 1 16 0 None)
      (a_symbol "g" 0 true false false) object (mkArgs [0; 1]%nat false None false) _ _ _ _ _ _ _ _); try done.
    intros so s _ E. destruct so; injection E as <-; by eexists.
  - vm_compute. reflexivity.
Defined.

(** A symbol that forwards, one that forwards to itself, and where they end. *)
Definition forwarding_symbol (fwd : option string) : Symbol :=
  mkSymbol 0 "f" 0 4 TYPE_FUNCTION false false true false false false true fwd false None.

Definition forwarding_world (target : option string) : world :=
  mkWorld sample_heap [object; object] [forwarding_symbol (Some "lib.g"); forwarding_symbol None; forwarding_symbol None;
    forwarding_symbol target] [].

Lemma forwarders_end_example :
  (forward_loop 6 [] (Some 0%nat) (forwarding_world None)).2 = Ok (Arrived (Some 3%nat)) ∧
  (forward_loop 6 [] (Some 0%nat) (forwarding_world (Some "lib.g"))).2 = Ok GaveUp ∧
  (forward_loop 6 [] (Some 0%nat) (forwarding_world (Some "lib.h"))).2 = Ok (Arrived None).
Proof. vm_compute. auto. Qed.

Lemma forwarders_end_witness : rtc (hop (forwarding_world None)) 0%nat 3%nat.
Proof. destruct (forwarders_end (forwarding_world None) 0) as (_ & _ & H & _). exact H. Defined.

Lemma got_indirection_skipped_witness :
  Generic RelocGOTMixin ∈ mro (I386 R_386_GOTPC) ∧
  (resolve 2 (Some 3%nat) (Some 0%nat) example_world).2 = Ok tt.
Proof.
  destruct (got_indirection_skipped example_world 2 1 3 (a_reloc (I386 R_386_GOTPC) 1 16 0 None)
    (a_symbol "g" 0 true false false) object (Some 0%nat)) as [H1 H2]; try (by right); try reflexivity. by rewrite H2.
Defined.

End RelocFacts.
