(* ===== verification/Ail.v ===== *)
(** * Expressions of the decompiler's intermediate language

    [angr/ailment/expression.py], over integers: the expressions, their widths,
    the structural comparison [likes], and the value an expression has in an
    environment.  The index and the tags every expression carries have no part in
    its value and are left out; so are floating-point constants, rounding modes
    and the parameters of vector operations. *)

From Stdlib Require Import ZArith Lia Bool String.
From stdpp Require Import base tactics list numbers strings.
From S2P Require Import Prelude Bitfields.
Import Bitfields.

Module Ail.

(** ** Expressions *)

(** The operators by name; the ones no rule treats are [OtherBinary]. *)
Inductive binop :=
  | Add | Sub | Mul | Div | Mod | DivMod | Mull
  | And | Or | Xor | LogicalAnd | LogicalOr
  | Shl | Shr | Sar | Rol | Ror
  | CmpEQ | CmpNE | CmpLT | CmpLE | CmpGT | CmpGE
  | CmpLTs | CmpLEs | CmpGTs | CmpGEs | CmpORD
  | Concat
  | OtherBinary (name : string).

Inductive unop := Neg | Not | BitwiseNeg | OtherUnary (name : string).

Inductive ConvertType := TYPE_INT | TYPE_FP.

Inductive VirtualVariableCategory := REGISTER | STACK | MEMORY | PARAMETER | TMP | COMBO_REGISTER | UNKNOWN.

#[export] Instance binop_eq_dec : EqDecision binop.
Proof. solve_decision. Defined.
#[export] Instance unop_eq_dec : EqDecision unop.
Proof. solve_decision. Defined.
#[export] Instance ConvertType_eq_dec : EqDecision ConvertType.
Proof. solve_decision. Defined.
#[export] Instance VirtualVariableCategory_eq_dec : EqDecision VirtualVariableCategory.
Proof. solve_decision. Defined.

(** What a call goes to: the name of a symbol, or an expression. *)
Inductive CFGTarget (E : Type) := Symbol (name : string) | Expr (e : E).
Arguments Symbol {E} name. Arguments Expr {E} e.

(** A constant carries a Python integer, which need not be in the range of its
    width.  [Other] stands for the kinds that no rule looks into. *)
Inductive expr :=
  | Const (value bits : Z)
  | Tmp (tmp_idx bits : Z)
  | Register (reg_offset bits : Z)
  | VirtualVariable (varid bits : Z) (category : VirtualVariableCategory)
  | UnaryOp (op : unop) (operand : expr) (bits : Z)
  | BinaryOp (op : binop) (op0 op1 : expr) (signed : bool) (bits : Z) (floating_point : bool)
  | Convert (from_bits to_bits : Z) (is_signed : bool) (operand : expr) (from_type to_type : ConvertType)
  | Reinterpret (from_bits : Z) (from_type : string) (to_bits : Z) (to_type : string) (operand : expr)
  | ITE (cond iftrue iffalse : expr)
  | Extract (bits : Z) (base offset : expr) (endness : string)
  | Insert (base offset value : expr) (endness : string)
  | Load (addr : expr) (size : Z) (endness : string)
  | BasePointerOffset (bits : Z) (base : string) (offset : Z)
  | StackBaseOffset (bits offset : Z)
  | Call (target : CFGTarget expr) (args : list expr) (bits : Z)
  | Other (kind : string) (id bits : Z).

Fixpoint bits (e : expr) : Z :=
  match e with
  | Const _ w | Tmp _ w | Register _ w | VirtualVariable _ w _ | UnaryOp _ _ w | BinaryOp _ _ _ _ w _
  | Convert _ w _ _ _ _ | Reinterpret _ _ w _ _ | Extract w _ _ _ | BasePointerOffset w _ _
  | StackBaseOffset w _ | Call _ _ w | Other _ _ w => w
  | ITE _ iftrue _ => bits iftrue
  | Insert base _ _ _ => bits base
  | Load _ size _ => size * 8
  end.

(** *** Construction with the default width, without floating point *)

Definition _binop_bits_for (op : binop) (op0 op1 : expr) : Z :=
  match op with
  | CmpEQ | CmpNE | CmpLT | CmpGE | CmpLE | CmpGT => 1
  | Concat => bits op0 + bits op1
  | Mull => bits op0 * 2
  | OtherBinary name =>
      if (name =? "CmpF")%string then 32
      else if (name =? "ExpCmpNE")%string then 1
      else if ((name =? "Carry") || (name =? "SCarry") || (name =? "SBorrow"))%string then 8
      else bits op0
  | _ => bits op0
  end.

Definition mkBinary (op : binop) (op0 op1 : expr) (signed : bool) : expr :=
  BinaryOp op op0 op1 signed (_binop_bits_for op op0 op1) false.

Definition mkUnary (op : unop) (operand : expr) : expr := UnaryOp op operand (bits operand).

Definition mkConvert (from_bits to_bits : Z) (is_signed : bool) (operand : expr) : expr :=
  Convert from_bits to_bits is_signed operand TYPE_INT TYPE_INT.

(** *** Negation *)

Definition COMPARISON_NEGATION (op : binop) : option binop :=
  match op with
  | CmpEQ => Some CmpNE | CmpNE => Some CmpEQ | CmpLT => Some CmpGE | CmpGE => Some CmpLT
  | CmpLE => Some CmpGT | CmpGT => Some CmpLE | _ => None
  end.

Definition negate (e : expr) : expr :=
  match e with
  | UnaryOp Not operand _ => operand
  | BinaryOp op op0 op1 signed w fp =>
      match COMPARISON_NEGATION op with
      | Some op' => BinaryOp op' op0 op1 signed w fp
      | None => mkUnary Not e
      end
  | _ => mkUnary Not e
  end.

(** ** [likes]

    The comparison of two expressions that ignores their indices: every field
    but the width of a call, and the size of a load through its width. *)

Fixpoint likes (a b : expr) : bool :=
  match a, b with
  | Const v w, Const v' w' => (v =? v') && (w =? w')
  | Tmp i w, Tmp i' w' => (i =? i') && (w =? w')
  | Register r w, Register r' w' => (r =? r') && (w =? w')
  | VirtualVariable i w c, VirtualVariable i' w' c' => (i =? i') && (w =? w') && bool_decide (c = c')
  | UnaryOp op x w, UnaryOp op' x' w' => bool_decide (op = op') && (w =? w') && likes x x'
  | BinaryOp op x y s w fp, BinaryOp op' x' y' s' w' fp' =>
      bool_decide (op = op') && eqb s s' && eqb fp fp' && (w =? w') && likes x x' && likes y y'
  | Convert f t s x k l, Convert f' t' s' x' k' l' =>
      (f =? f') && (t =? t') && eqb s s' && bool_decide (k = k') && bool_decide (l = l') && likes x x'
  | Reinterpret f k t l x, Reinterpret f' k' t' l' x' =>
      (f =? f') && (t =? t') && (k =? k')%string && (l =? l')%string && likes x x'
  | ITE c x y, ITE c' x' y' => (bits x =? bits x') && likes c c' && likes y y' && likes x x'
  | Extract w x o e, Extract w' x' o' e' => (w =? w') && (e =? e')%string && likes x x' && likes o o'
  | Insert x o v e, Insert x' o' v' e' => (e =? e')%string && likes x x' && likes o o' && likes v v'
  | Load x n e, Load x' n' e' => (n * 8 =? n' * 8) && (e =? e')%string && likes x x'
  | BasePointerOffset w b o, BasePointerOffset w' b' o' => (w =? w') && (b =? b')%string && (o =? o')
  | StackBaseOffset w o, StackBaseOffset w' o' => (o =? o') && (w =? w')
  | Call f xs _, Call f' xs' _ =>
      (match f, f' with
       | Symbol g, Symbol g' => (g =? g')%string
       | Expr x, Expr x' => likes x x'
       | _, _ => false
       end) &&
      (fix all (l l' : list expr) : bool :=
        match l, l' with
        | [], [] => true
        | x :: l, x' :: l' => likes x x' && all l l'
        | _, _ => false
        end) xs xs'
  | Other k i w, Other k' i' w' => (k =? k')%string && (i =? i') && (w =? w')
  | _, _ => false
  end.

(** [PeepholeOptimizationExprBase.is_bool_expr]. *)
Definition is_bool_expr (e : expr) : bool :=
  match e with
  | BinaryOp (CmpEQ | CmpNE | CmpLT | CmpLE | CmpGT | CmpGE | CmpLTs | CmpLEs | CmpGTs | CmpGEs) _ _ _ _ _ => true
  | UnaryOp Not _ _ => true
  | _ => false
  end.

(** ** Values

    An environment gives the values of variables, of memory, of calls and of the
    operators that are not interpreted; the value of an expression is a number of
    its width, and a division by zero has none. *)

Record env := mkEnv {
  v_tmp : Z → Z;
  v_register : Z → Z → Z;
  v_variable : Z → Z;
  v_memory : Z → Z → string → Z;
  v_base : string → Z;
  v_stack : Z;
  v_call : CFGTarget Z → list Z → Z;
  v_unary : string → Z → Z → Z;
  v_binary : binop → bool → Z → Z → Z → Z → Z;
  v_other : string → Z → Z }.

Definition flag (b : bool) : Z := if b then 1 else 0.

Definition in_order (op : binop) (a b : Z) : bool :=
  match op with
  | CmpEQ => a =? b | CmpNE => negb (a =? b)
  | CmpLT | CmpLTs => a <? b | CmpLE | CmpLEs => a <=? b
  | CmpGT | CmpGTs => b <? a | CmpGE | CmpGEs => b <=? a
  | _ => false
  end.

Definition compares_signed (op : binop) (signed : bool) : bool :=
  match op with CmpLTs | CmpLEs | CmpGTs | CmpGEs => true | _ => signed end.

(** The operands as the comparison reads them: [n] is their width. *)
Definition compare (op : binop) (s : bool) (n a b : Z) : Z :=
  if compares_signed op s then flag (in_order op (signed n a) (signed n b)) else flag (in_order op a b).

(** [w] is the width of the result, [n] and [m] those of the operands. *)
Definition binop_value (σ : env) (op : binop) (s : bool) (w n m a b : Z) : option Z :=
  match op with
  | Add => Some ((a + b) mod 2 ^ w)
  | Sub => Some ((a - b) mod 2 ^ w)
  | Mul => Some ((a * b) mod 2 ^ w)
  | Div => if b =? 0 then None else Some (if s then Z.quot (signed n a) (signed m b) mod 2 ^ w else a / b)
  | Mod => if b =? 0 then None else Some (if s then Z.rem (signed n a) (signed m b) mod 2 ^ w else a mod b)
  | Mull => Some ((if s then signed n a * signed m b else a * b) mod 2 ^ w)
  | And => Some (Z.land a b)
  | Or => Some (Z.lor a b)
  | Xor => Some (Z.lxor a b)
  | Shl => Some (Z.shiftl a b mod 2 ^ w)
  | Shr => Some (Z.shiftr a b)
  | Sar => Some (Z.shiftr (signed n a) b mod 2 ^ w)
  | Rol => Some (Z.lor (Z.shiftl a (b mod w) mod 2 ^ w) (Z.shiftr a (w - b mod w)))
  | Ror => Some (Z.lor (Z.shiftr a (b mod w)) (Z.shiftl a (w - b mod w) mod 2 ^ w))
  | CmpEQ | CmpNE | CmpLT | CmpLE | CmpGT | CmpGE | CmpLTs | CmpLEs | CmpGTs | CmpGEs =>
      Some (compare op s n a b)
  | CmpORD => Some (if compare CmpLT s n a b =? 1 then 8 else if compare CmpGT s n a b =? 1 then 4 else 2)
  | Concat => Some (a * 2 ^ m + b)
  | LogicalAnd | LogicalOr | DivMod | OtherBinary _ => Some (v_binary σ op s w n a b mod 2 ^ w)
  end.

(** [Not] is the connective of conditions, [LogicalAnd] and [LogicalOr] look at
    their second operand only if they have to. *)
Fixpoint denote (σ : env) (e : expr) : option Z :=
  match e with
  | Const v w => Some (v mod 2 ^ w)
  | Tmp i w => Some (v_tmp σ i mod 2 ^ w)
  | Register r w => Some (v_register σ r w mod 2 ^ w)
  | VirtualVariable i w _ => Some (v_variable σ i mod 2 ^ w)
  | UnaryOp op x w =>
      a ← denote σ x;
      Some (match op with
            | Neg => - a
            | Not | BitwiseNeg => Z.lnot a
            | OtherUnary name => v_unary σ name w a
            end mod 2 ^ w)
  | BinaryOp LogicalAnd x y _ _ _ => a ← denote σ x; if a =? 0 then Some 0 else denote σ y
  | BinaryOp LogicalOr x y _ _ _ => a ← denote σ x; if a =? 0 then denote σ y else Some 1
  | BinaryOp op x y s w _ =>
      a ← denote σ x; b ← denote σ y; binop_value σ op s w (bits x) (bits y) a b
  | Convert f t s x _ _ => a ← denote σ x; Some ((if s then signed f a else a) mod 2 ^ t)
  | Reinterpret _ _ t _ x => a ← denote σ x; Some (a mod 2 ^ t)
  | ITE c x y => a ← denote σ c; if a =? 0 then denote σ y else denote σ x
  | Extract w x o _ => a ← denote σ x; k ← denote σ o; Some (field (8 * k) w a)
  | Insert x o v _ =>
      a ← denote σ x; k ← denote σ o; b ← denote σ v;
      Some (a - Z.shiftl (field (8 * k) (bits v) a) (8 * k) + Z.shiftl b (8 * k))
  | Load x n e => a ← denote σ x; Some (v_memory σ a n e mod 2 ^ (n * 8))
  | BasePointerOffset w b o => Some ((v_base σ b + o) mod 2 ^ w)
  | StackBaseOffset w o => Some ((v_stack σ + o) mod 2 ^ w)
  | Call f xs w =>
      g ← match f with Symbol g => Some (Symbol g) | Expr x => a ← denote σ x; Some (Expr a) end;
      vs ← (fix all (l : list expr) : option (list Z) :=
        match l with [] => Some [] | x :: l => v ← denote σ x; vs ← all l; Some (v :: vs) end) xs;
      Some (v_call σ g vs mod 2 ^ w)
  | Other k i w => Some (v_other σ k i mod 2 ^ w)
  end.

(** ** Expressions of consistent widths, over integers

    A call is of the width the symbol it goes to returns, and the calls through
    expressions are all of one width, which is that of the empty name.  A rule takes the amount of a
    shift from the integer in a constant, whatever its width: a constant amount
    is in the range of its width, and an amount that is not a constant is not
    constant either.  An extracted or inserted part is inside its base. *)

Definition varies (e : expr) : Prop :=
  ∃ σ σ' v v', denote σ e = Some v ∧ denote σ' e = Some v' ∧ v ≠ v'.

Definition amount (e : expr) : Prop := (∃ v w, e = Const v w ∧ 0 ≤ v < 2 ^ w) ∨ varies e.

Definition binop_typed (op : binop) (x y : expr) (w : Z) : Prop :=
  match op with
  | Add | Sub | Mul | Div | Mod | And | Or | Xor => bits x = w ∧ bits y = w
  | Mull => bits x ≤ w ∧ bits y ≤ w
  | Shl | Shr | Sar | Rol | Ror => bits x = w ∧ amount y
  | CmpEQ | CmpNE | CmpLT | CmpLE | CmpGT | CmpGE | CmpLTs | CmpLEs | CmpGTs | CmpGEs => bits x = bits y ∧ w = 1
  | CmpORD => bits x = bits y ∧ 4 ≤ w
  | LogicalAnd | LogicalOr => bits x = 1 ∧ bits y = 1 ∧ w = 1
  | Concat => w = bits x + bits y
  | DivMod | OtherBinary _ => True
  end.

Definition part (base offset : expr) (w : Z) (endness : string) : Prop :=
  endness = "Iend_LE"%string ∧ ∃ k n, offset = Const k n ∧ 0 ≤ k < 2 ^ n ∧ 8 * k + w ≤ bits base.

(** Constants in the range of their width; no signed operation. *)
Fixpoint in_range (e : expr) : bool :=
  match e with
  | Const v w => (0 <=? v) && (v <? 2 ^ w)
  | UnaryOp _ x _ | Convert _ _ _ x _ _ | Reinterpret _ _ _ _ x | Load x _ _ => in_range x
  | BinaryOp _ x y _ _ _ | Extract _ x y _ => in_range x && in_range y
  | ITE x y z | Insert x y z _ => in_range x && in_range y && in_range z
  | Call f xs _ => (match f with Symbol _ => true | Expr x => in_range x end) && forallb in_range xs
  | _ => true
  end.

Fixpoint unsigned (e : expr) : bool :=
  match e with
  | UnaryOp _ x _ | Reinterpret _ _ _ _ x | Load x _ _ => unsigned x
  | Convert _ _ s x _ _ => negb s && unsigned x
  | BinaryOp op x y s _ _ => negb (compares_signed op s) && unsigned x && unsigned y
  | Extract _ x y _ => unsigned x && unsigned y
  | ITE x y z | Insert x y z _ => unsigned x && unsigned y && unsigned z
  | Call f xs _ => (match f with Symbol _ => true | Expr x => unsigned x end) && forallb unsigned xs
  | _ => true
  end.

Definition plain (e : expr) : Prop := in_range e = true ∧ unsigned e = true.

Section typed.
Context (ret_bits : string → Z).

Definition target_bits {E} (f : CFGTarget E) : Z := ret_bits (match f with Symbol g => g | Expr _ => ""%string end).

Fixpoint typed (e : expr) : Prop :=
  0 < bits e ∧
  match e with
  | Const _ _ | Tmp _ _ | Register _ _ | VirtualVariable _ _ _ | BasePointerOffset _ _ _ | StackBaseOffset _ _
  | Other _ _ _ => True
  | UnaryOp op x w =>
      typed x ∧ match op with Not => bits x = 1 ∧ w = 1 | Neg | BitwiseNeg => bits x = w | OtherUnary _ => True end
  | BinaryOp op x y _ w fp => fp = false ∧ typed x ∧ typed y ∧ binop_typed op x y w
  | Convert f _ _ x k l => k = TYPE_INT ∧ l = TYPE_INT ∧ typed x ∧ bits x = f
  | Reinterpret f _ t _ x => typed x ∧ bits x = f ∧ f = t
  | ITE c x y => typed c ∧ typed x ∧ typed y ∧ bits c = 1 ∧ bits y = bits x
  | Extract w x o e => typed x ∧ typed o ∧ part x o w e
  | Insert x o v e => typed x ∧ typed o ∧ typed v ∧ part x o (bits v) e
  | Load x _ _ => typed x
  | Call f xs w =>
      w = target_bits f ∧ (match f with Symbol _ => True | Expr x => typed x end) ∧
      (fix all (l : list expr) : Prop := match l with [] => True | x :: l => typed x ∧ all l end) xs
  end.

(** An expression of the same width with the value of the original wherever
    that has one. *)
Definition refines (e e' : expr) : Prop :=
  typed e' ∧ bits e' = bits e ∧ ∀ σ v, denote σ e = Some v → denote σ e' = Some v.

Definition sound_on (P : expr → Prop) (rule : expr → option expr) : Prop :=
  ∀ e e', typed e → P e → rule e = Some e' → refines e e'.

Definition sound (rule : expr → option expr) : Prop := sound_on (λ _, True) rule.

(** A rule that gives an expression, with constants in range, another value. *)
Definition miscompiles (rule : expr → option expr) : Prop :=
  ∃ e e' σ v v', typed e ∧ in_range e = true ∧ rule e = Some e' ∧ denote σ e = Some v ∧ denote σ e' = Some v' ∧ v ≠ v'.

End typed.

(** The environment where every variable and every call has the value [x]. *)
Definition constant_env (x : Z) : env :=
  mkEnv (λ _, x) (λ _ _, x) (λ _, x) (λ _ _ _, x) (λ _, x) x (λ _ _, x) (λ _ _ _, x) (λ _ _ _ _ _ _, x) (λ _ _, x).

End Ail.
