(* ===== verification/AilFacts.v ===== *)
(** * Facts about expressions

    Values are in the range of their width, [likes] is equality on expressions of
    consistent widths, refinement composes, and every kind of expression is
    monotone in its parts. *)

From Stdlib Require Import ZArith Lia Bool String.
From stdpp Require Import base tactics list numbers strings option.
From S2P Require Import Prelude Bitfields Ail.
Import Bitfields Ail.

Module AilFacts.

(** ** Induction, with the arguments of a call *)

Lemma expr_ind' (P : expr → Prop) :
  (∀ v w, P (Const v w)) → (∀ i w, P (Tmp i w)) → (∀ r w, P (Register r w)) →
  (∀ i w c, P (VirtualVariable i w c)) → (∀ op x w, P x → P (UnaryOp op x w)) →
  (∀ op x y s w fp, P x → P y → P (BinaryOp op x y s w fp)) →
  (∀ f t s x k l, P x → P (Convert f t s x k l)) → (∀ f k t l x, P x → P (Reinterpret f k t l x)) →
  (∀ c x y, P c → P x → P y → P (ITE c x y)) → (∀ w x o e, P x → P o → P (Extract w x o e)) →
  (∀ x o v e, P x → P o → P v → P (Insert x o v e)) → (∀ x n e, P x → P (Load x n e)) →
  (∀ w b o, P (BasePointerOffset w b o)) → (∀ w o, P (StackBaseOffset w o)) →
  (∀ f xs w, (match f with Symbol _ => True | Expr x => P x end) → Forall P xs → P (Call f xs w)) → (∀ k i w, P (Other k i w)) →
  ∀ e, P e.
Proof.
  intros H1 H2 H3 H4 H5 H6 H7 H8 H9 H10 H11 H12 H13 H14 H15 H16. fix go 1. intros [].
  all: try (by clear go; auto).
  - apply H5, go.
  - apply H6; apply go.
  - apply H7, go.
  - apply H8, go.
  - apply H9; apply go.
  - apply H10; apply go.
  - apply H11; apply go.
  - apply H12, go.
  - apply H15; [by destruct target; [|apply go]|]. induction args as [|x xs IH]; constructor; [apply go|exact IH].
Qed.

(** ** Values are in range *)

Lemma truth_bound b : 0 ≤ flag b < 2.
Proof. destruct b; cbn; lia. Qed.

Lemma compare_bound op s n a b : 0 ≤ compare op s n a b < 2.
Proof. unfold compare. destruct (compares_signed op s); apply truth_bound. Qed.

Lemma shiftr_bound a b w : 0 ≤ w → 0 ≤ a < 2 ^ w → 0 ≤ b → 0 ≤ Z.shiftr a b < 2 ^ w.
Proof.
  intros Hw Ha Hb. rewrite Z.shiftr_div_pow2 by done. pose proof (pow2_pos b Hb).
  split; [apply Z.div_pos; lia|]. apply Z.div_lt_upper_bound; nia.
Qed.

Lemma shiftr_small a n w : 0 ≤ n ≤ w → 0 ≤ a < 2 ^ w → 0 ≤ Z.shiftr a n < 2 ^ (w - n).
Proof.
  intros Hn Ha. rewrite Z.shiftr_div_pow2 by lia. pose proof (pow2_pos n).
  split; [apply Z.div_pos; lia|]. apply Z.div_lt_upper_bound; [lia|]. rewrite <-Z.pow_add_r by lia.
  replace (n + (w - n)) with w by lia. lia.
Qed.

Lemma shiftl_small a n k w : 0 ≤ n → 0 ≤ k → n + k ≤ w → 0 ≤ a < 2 ^ k → 0 ≤ Z.shiftl a n < 2 ^ w.
Proof.
  intros Hn Hk Hw Ha. rewrite Z.shiftl_mul_pow2 by lia. pose proof (pow2_pos n).
  assert (2 ^ (n + k) ≤ 2 ^ w) by (apply Z.pow_le_mono_r; lia). rewrite Z.pow_add_r in * by lia. nia.
Qed.

Lemma width_pos r e : typed r e → 0 < bits e.
Proof. by destruct e; intros []. Qed.

Lemma div_bound a b w : 0 ≤ a < 2 ^ w → 0 < b → 0 ≤ a / b < 2 ^ w.
Proof. intros Ha Hb. split; [apply Z.div_pos; lia|]. apply Z.div_lt_upper_bound; nia. Qed.

Lemma binop_value_bound r σ op x y s w fp a b v :
  typed r (BinaryOp op x y s w fp) → 0 ≤ a < 2 ^ bits x → 0 ≤ b < 2 ^ bits y →
  binop_value σ op s w (bits x) (bits y) a b = Some v → 0 ≤ v < 2 ^ w.
Proof.
  intros (Hw & _ & Hx & Hy & H) Ha Hb. cbn in Hw. pose proof (width_pos _ _ Hy) as Hpy. pose proof (width_pos _ _ Hx) as Hpx.
  pose proof (λ op, compare_bound op s (bits x) a b) as Hc.
  assert (2 ^ 1 ≤ 2 ^ w) as H1 by (apply Z.pow_le_mono_r; lia). change (2 ^ 1) with 2 in H1.
  pose proof (λ z, mod_pow2_bound z w ltac:(lia)) as Hm.
  destruct op; unfold binop_value, binop_typed in *; try (match type of H with _ ∧ _ => destruct H as [Ex Ey] end); try rewrite Ex in *; try rewrite Ey in *;
    repeat case_match; intros [= <-]; try apply Hm; try (by eapply Z.le_lt_trans; [|apply H1]);
    try (match goal with |- context [compare ?op s _ a b] => pose proof (Hc op); lia end).
  - apply div_bound; lia.
  - pose proof (Z.mod_pos_bound a b). lia.
  - apply land_bound; lia.
  - apply lor_bound; lia.
  - apply lxor_bound; lia.
  - apply shiftr_bound; lia.
  - apply lor_bound; [lia|apply Hm|]. apply shiftr_bound; try lia. pose proof (Z.mod_pos_bound b w). lia.
  - apply lor_bound; [lia| |apply Hm]. apply shiftr_bound; try lia. pose proof (Z.mod_pos_bound b w). lia.
  - assert (2 ^ 4 ≤ 2 ^ w) by (apply Z.pow_le_mono_r; lia). lia.
  - assert (2 ^ 4 ≤ 2 ^ w) by (apply Z.pow_le_mono_r; lia). lia.
  - assert (2 ^ 4 ≤ 2 ^ w) by (apply Z.pow_le_mono_r; lia). lia.
  - subst w. rewrite Z.pow_add_r by lia. pose proof (pow2_pos (bits y)). nia.
Qed.

(** A field of a number and what surrounds it. *)
Lemma field_split k m a : 0 ≤ k → 0 ≤ m → a = a / 2 ^ (k + m) * 2 ^ (k + m) + field k m a * 2 ^ k + a mod 2 ^ k.
Proof.
  intros Hk Hm. rewrite field_div_mod, Z.pow_add_r, <-Z.div_div by (pose proof (pow2_pos k); pose proof (pow2_pos m); lia).
  pose proof (pow2_pos k Hk). pose proof (pow2_pos m Hm).
  pose proof (Z.div_mod a (2 ^ k)). pose proof (Z.div_mod (a / 2 ^ k) (2 ^ m)). nia.
Qed.

Lemma insert_bound k m n a b :
  0 ≤ k → 0 ≤ m → k + m ≤ n → 0 ≤ a < 2 ^ n → 0 ≤ b < 2 ^ m →
  0 ≤ a - Z.shiftl (field k m a) k + Z.shiftl b k < 2 ^ n.
Proof.
  intros Hk Hm Hn Ha Hb. rewrite !Z.shiftl_mul_pow2 by done.
  pose proof (field_split k m a Hk Hm) as E. pose proof (mod_pow2_bound a k Hk).
  pose proof (pow2_pos k Hk). pose proof (pow2_pos m Hm). pose proof (field_bound k m a Hm).
  assert (0 ≤ a / 2 ^ (k + m) < 2 ^ (n - k - m)) as Hh.
  { split; [apply Z.div_pos; lia|]. apply Z.div_lt_upper_bound; [lia|]. rewrite <-Z.pow_add_r by lia.
    replace (k + m + (n - k - m)) with n by lia. lia. }
  assert (2 ^ n = 2 ^ (n - k - m) * 2 ^ (k + m)) as En by (rewrite <-Z.pow_add_r by lia; f_equal; lia).
  assert (2 ^ (k + m) = 2 ^ k * 2 ^ m) as Ep by (by rewrite Z.pow_add_r by lia).
  rewrite En. rewrite Ep in *. set (h := a / (2 ^ k * 2 ^ m)) in *. set (K := 2 ^ k) in *. set (M := 2 ^ m) in *.
  assert (0 ≤ b * K + a mod K < K * M) as Hl by nia.
  replace (a - field k m a * K + b * K) with (h * (K * M) + (b * K + a mod K)) by lia.
  generalize dependent (b * K + a mod K). clear E. intros l Hl. nia.
Qed.

Lemma denote_bound r σ e : typed r e → ∀ v, denote σ e = Some v → 0 ≤ v < 2 ^ bits e.
Proof.
  induction e as [v w|i w|o w|i w c|op x w IH|op x y s w fp IHx IHy|f t s x k l IH|f k t l x IH|c x y IHc IHx IHy|w x o e IHx IHo
    |x o u e IHx IHo IHu|x n e IH|w b o|w o|f xs w _ _|k i w] using expr_ind'; intros Ht v' E;
    pose proof (width_pos _ _ Ht) as Hw; cbn in Hw; cbn [bits]; pose proof (λ z, mod_pow2_bound z _ (Z.lt_le_incl _ _ Hw)) as Hm.
  all: try (by cbn in E; simplify_option_eq; apply Hm).
  - destruct Ht as (_ & Hfp & Hx & Hy & Ht). specialize (IHx Hx). specialize (IHy Hy).
    assert (op = LogicalAnd ∨ op = LogicalOr ∨
      ∃ a b, denote σ x = Some a ∧ denote σ y = Some b ∧ binop_value σ op s w (bits x) (bits y) a b = Some v') as H.
    { destruct op; try (by left); try (by right; left); right; right; cbn [denote] in E;
        (destruct (denote σ x) as [a|] eqn:Ea; [|discriminate]); (destruct (denote σ y) as [b|] eqn:Eb; [|discriminate]);
        by exists a, b. }
    destruct H as [-> | [-> | (a & b & Ea & Eb & H)]].
    + cbn in E, Ht. destruct Ht as (_ & Ey & ->). rewrite Ey in *. simplify_option_eq. case_match; [|by apply IHy]. simplify_eq. cbn. lia.
    + cbn in E, Ht. destruct Ht as (_ & Ey & ->). rewrite Ey in *. simplify_option_eq. case_match; [by apply IHy|]. simplify_eq. cbn. lia.
    + eapply binop_value_bound; [|by apply IHx|by apply IHy|done]. by repeat split.
  - destruct Ht as (_ & _ & Hx & Hy & _ & Ey). cbn in E. rewrite Ey in *. simplify_option_eq. case_match; eauto.
  - cbn in E. simplify_option_eq. apply field_bound. lia.
  - destruct Ht as (_ & Hx & _ & Hu & _ & k & n & -> & Hk & Hp). cbn in E. rewrite Z.mod_small in E by done. simplify_option_eq.
    specialize (IHx Hx _ eq_refl). specialize (IHu Hu _ eq_refl).
    pose proof (width_pos _ _ Hu). eapply insert_bound; eauto; lia.
Qed.

(** ** [likes] is equality *)

Lemma likes_Call_all xs ys f g w v :
  likes (Call f xs w) (Call g ys v) = true → Forall2 (λ x y, likes x y = true) xs ys.
Proof.
  cbn. rewrite andb_true_iff. intros [_ H]. revert ys H. induction xs as [|x xs IH]; intros [|y ys] H; try discriminate; [constructor|].
  apply andb_prop in H as [H1 H2]. constructor; eauto.
Qed.

Lemma typed_Call_all r f xs w :
  typed r (Call f xs w) → w = target_bits r f ∧ (match f with Symbol _ => True | Expr x => typed r x end) ∧ Forall (typed r) xs.
Proof.
  intros (_ & Hw & Hf & H). split; [done|]. split; [done|]. clear Hw. induction xs as [|x xs IH]; [constructor|]. destruct H. constructor; eauto.
Qed.

Ltac split_likes H :=
  repeat (apply andb_prop in H; let H' := fresh "L" in destruct H as [H H']);
  repeat match goal with
    | L : (_ =? _) = true |- _ => apply Z.eqb_eq in L
    | L : (_ =? _)%string = true |- _ => apply String.eqb_eq in L
    | L : eqb _ _ = true |- _ => apply eqb_prop in L
    | L : bool_decide _ = true |- _ => apply bool_decide_eq_true in L
    end.

Lemma likes_eq r a : ∀ b, typed r a → typed r b → likes a b = true → a = b.
Proof.
  induction a as [v w|i w|o w|i w c|op x w IH|op x y s w fp IHx IHy|f t s x k l IH|f k t l x IH|c x y IHc IHx IHy|w x o e IHx IHo
    |x o u e IHx IHo IHu|x n e IH|w b o|w o|f xs w IHf IH|k i w] using expr_ind'; intros [] Ha Hb H; try discriminate;
    try (by cbn in Ha, Hb; cbn in H; split_likes H; destruct_and?; f_equal; first [congruence|lia|eauto]).
  apply typed_Call_all in Ha as (-> & Hf & Ha), Hb as (-> & Hg & Hb). pose proof (likes_Call_all _ _ _ _ _ _ H) as L.
  cbn in H. apply andb_prop in H as [E _].
  assert (f = target) as -> by (destruct f, target; try discriminate E; f_equal; [by apply String.eqb_eq|by apply IHf]).
  f_equal. clear -IH Ha Hb L.
  induction L as [|x y xs ys Hxy _ IHL]; [done|]. inversion IH; inversion Ha; inversion Hb; subst. f_equal; eauto.
Qed.

(** ** Refinement *)

Section refinement.
Context (r : string → Z).
#[local] Notation typed := (typed r).
#[local] Notation refines := (refines r).

Lemma refinement_refl e : typed e → refines e e.
Proof. by repeat split. Qed.

Lemma refinement_trans e1 e2 e3 : refines e1 e2 → refines e2 e3 → refines e1 e3.
Proof. intros (_ & H2 & H3) (H4 & H5 & H6). split; [done|]. split; [congruence|eauto]. Qed.

Lemma refines_typed e e' : refines e e' → typed e'.
Proof. by intros []. Qed.

(** A constant is not rewritten. *)
Definition keeps_const (e e' : expr) : Prop := match e with Const _ _ => e' = e | _ => True end.

Lemma varies_refines e e' : varies e → refines e e' → varies e'.
Proof. intros (σ & σ' & v & v' & H1 & H2 & H3) (_ & _ & H). exists σ, σ', v, v'. eauto. Qed.

Lemma amount_const v w : amount (Const v w) ↔ 0 ≤ v < 2 ^ w.
Proof.
  split; [|by left; eauto]. intros [(v' & w' & [= <- <-] & H)|(σ & σ' & a & b & H1 & H2 & H)]; [done|]. cbn in *. congruence.
Qed.

Lemma amount_refines e e' : amount e → keeps_const e e' → refines e e' → amount e'.
Proof. intros [(v & w & -> & H)|H] Hk Hr; [left; cbn in Hk; eauto|right; by eapply varies_refines]. Qed.

Lemma part_refines x x' o o' w n : part x o w n → bits x' = bits x → keeps_const o o' → part x' o' w n.
Proof. intros (-> & k & m & -> & Hk) E H. cbn in H. subst o'. split; [done|]. exists k, m. by rewrite E. Qed.

Lemma binop_typed_refines op x y x' y' w :
  binop_typed op x y w → refines x x' → refines y y' → keeps_const y y' → binop_typed op x' y' w.
Proof.
  intros H (Hx & Ex & _) Hy Hk. pose proof Hy as (_ & Ey & _).
  destruct op; cbn in *; rewrite ?Ex, ?Ey; try done; (split; [tauto|]); apply (amount_refines y); tauto.
Qed.

Lemma denote_binop σ op x y s w fp v :
  op ≠ LogicalAnd → op ≠ LogicalOr →
  denote σ (BinaryOp op x y s w fp) = Some v ↔
  ∃ a b, denote σ x = Some a ∧ denote σ y = Some b ∧ binop_value σ op s w (bits x) (bits y) a b = Some v.
Proof.
  intros H1 H2. split.
  - intros E. destruct op; try done; cbn [denote] in E;
      (destruct (denote σ x) as [a|] eqn:Ea; [|discriminate]); (destruct (denote σ y) as [b|] eqn:Eb; [|discriminate]); by exists a, b.
  - intros (a & b & Ea & Eb & E). destruct op; try done; cbn [denote]; rewrite Ea; cbn; rewrite Eb; exact E.
Qed.

(** Comparisons *)
Definition comparison (op : binop) : Prop :=
  match op with CmpEQ | CmpNE | CmpLT | CmpLE | CmpGT | CmpGE => True | _ => False end.

Lemma comparison_typed op x y w : comparison op → binop_typed op x y w ↔ bits x = bits y ∧ w = 1.
Proof. by destruct op. Qed.

Lemma typed_comparison op x y s w fp :
  comparison op → typed (BinaryOp op x y s w fp) → typed x ∧ typed y ∧ bits x = bits y.
Proof. intros Hc (_ & _ & Hx & Hy & H). apply comparison_typed in H; tauto. Qed.

Lemma denote_comparison σ op x y s w fp v :
  comparison op →
  denote σ (BinaryOp op x y s w fp) = Some v ↔
  ∃ a b, denote σ x = Some a ∧ denote σ y = Some b ∧ compare op s (bits x) a b = v.
Proof.
  intros Hc. rewrite denote_binop by (by intros ->).
  split; intros (a & b & Ea & Eb & H); exists a, b; split_and!; try done; destruct op; try done; cbn in *; congruence.
Qed.

Lemma negation_comparison op op' : COMPARISON_NEGATION op = Some op' → comparison op ∧ comparison op'.
Proof. by destruct op; intros [= <-]. Qed.

Lemma comparison_signed op s : comparison op → compares_signed op s = s.
Proof. by destruct op. Qed.

Lemma compare_negation op op' s n a b : COMPARISON_NEGATION op = Some op' → compare op' s n a b = 1 - compare op s n a b.
Proof.
  assert (∀ b, flag (negb b) = 1 - flag b) as Hf by (by intros []).
  intros H. destruct op; cbn in H; simplify_eq; unfold compare, compares_signed, in_order;
    destruct s; rewrite <-Hf; f_equal; lia.
Qed.

Lemma signed_inj n a b : 0 < n → 0 ≤ a < 2 ^ n → 0 ≤ b < 2 ^ n → signed n a = signed n b → a = b.
Proof.
  intros Hn Ha Hb E. rewrite <-(Z.mod_small a (2 ^ n)), <-(Z.mod_small b (2 ^ n)) by done.
  rewrite <-(signed_congruent n a), <-(signed_congruent n b) by lia. by rewrite E.
Qed.

(** Equality does not depend on the signedness. *)
Lemma compare_eq s n a b : 0 < n → 0 ≤ a < 2 ^ n → 0 ≤ b < 2 ^ n → compare CmpEQ s n a b = flag (a =? b).
Proof.
  intros Hn Ha Hb. unfold compare. cbn. destruct s; [|done]. f_equal.
  destruct (Z.eqb_spec a b) as [->|Hne]; [apply Z.eqb_refl|]. apply Z.eqb_neq. contradict Hne. by apply (signed_inj n).
Qed.

Lemma compare_ne s n a b : 0 < n → 0 ≤ a < 2 ^ n → 0 ≤ b < 2 ^ n → compare CmpNE s n a b = flag (negb (a =? b)).
Proof.
  intros Hn Ha Hb. rewrite (compare_negation CmpEQ) by done. rewrite compare_eq by done. by destruct (a =? b).
Qed.

(** Both at once. *)
Definition equation (op : binop) : Prop := op = CmpEQ ∨ op = CmpNE.

Lemma equation_comparison op : equation op → comparison op.
Proof. by intros [-> | ->]. Qed.

Lemma compare_equation op s n a b :
  equation op → 0 < n → 0 ≤ a < 2 ^ n → 0 ≤ b < 2 ^ n →
  compare op s n a b = flag (if decide (op = CmpEQ) then a =? b else negb (a =? b)).
Proof. intros [-> | ->] **; [by rewrite compare_eq|by rewrite compare_ne]. Qed.

Lemma denote_unary σ op x w v :
  denote σ (UnaryOp op x w) = Some v ↔
  ∃ a, denote σ x = Some a ∧
    match op with Neg => - a | Not | BitwiseNeg => Z.lnot a | OtherUnary name => v_unary σ name w a end mod 2 ^ w = v.
Proof.
  cbn [denote]. split; [|by intros (a & -> & <-)].
  destruct (denote σ x) as [a|]; [|discriminate]. intros [= <-]. by exists a.
Qed.

Lemma denote_convert σ f t s x k l v :
  denote σ (Convert f t s x k l) = Some v ↔ ∃ a, denote σ x = Some a ∧ (if s then signed f a else a) mod 2 ^ t = v.
Proof.
  cbn [denote]. split; [|by intros (a & -> & <-)].
  destruct (denote σ x) as [a|]; [|discriminate]. intros [= <-]. by exists a.
Qed.

Lemma denote_ite σ c x y v :
  denote σ (ITE c x y) = Some v ↔ ∃ a, denote σ c = Some a ∧ (if a =? 0 then denote σ y else denote σ x) = Some v.
Proof.
  cbn [denote]. split; [|by intros (a & -> & <-)].
  destruct (denote σ c) as [a|]; [|discriminate]. intros H. by exists a.
Qed.

Lemma denote_extract σ w x o e v :
  denote σ (Extract w x o e) = Some v ↔ ∃ a k, denote σ x = Some a ∧ denote σ o = Some k ∧ field (8 * k) w a = v.
Proof.
  cbn [denote]. split; [|by intros (a & k & -> & -> & <-)].
  destruct (denote σ x) as [a|]; [|discriminate]. destruct (denote σ o) as [k|]; [|discriminate]. intros [= <-]. by exists a, k.
Qed.

Lemma denote_insert σ x o u e v :
  denote σ (Insert x o u e) = Some v ↔
  ∃ a k b, denote σ x = Some a ∧ denote σ o = Some k ∧ denote σ u = Some b ∧
    a - Z.shiftl (field (8 * k) (bits u) a) (8 * k) + Z.shiftl b (8 * k) = v.
Proof.
  cbn [denote]. split; [|by intros (a & k & b & -> & -> & -> & <-)].
  destruct (denote σ x) as [a|]; [|discriminate]. destruct (denote σ o) as [k|]; [|discriminate].
  destruct (denote σ u) as [b|]; [|discriminate]. intros [= <-]. by exists a, k, b.
Qed.

Lemma denote_logical_and σ x y s w fp v :
  denote σ (BinaryOp LogicalAnd x y s w fp) = Some v ↔
  ∃ a, denote σ x = Some a ∧ (if a =? 0 then Some 0 else denote σ y) = Some v.
Proof.
  cbn [denote]. split; [|by intros (a & -> & <-)].
  destruct (denote σ x) as [a|]; [|discriminate]. intros H. by exists a.
Qed.

Lemma denote_logical_or σ x y s w fp v :
  denote σ (BinaryOp LogicalOr x y s w fp) = Some v ↔
  ∃ a, denote σ x = Some a ∧ (if a =? 0 then denote σ y else Some 1) = Some v.
Proof.
  cbn [denote]. split; [|by intros (a & -> & <-)].
  destruct (denote σ x) as [a|]; [|discriminate]. intros H. by exists a.
Qed.

Lemma UnaryOp_refines op x x' w :
  typed (UnaryOp op x w) → refines x x' → refines (UnaryOp op x w) (UnaryOp op x' w).
Proof.
  intros (Hw & Hx & H) (Hx' & E & Hv). split; [|split; [done|]].
  - split; [done|]. split; [done|]. by rewrite E.
  - intros σ v. cbn. destruct (denote σ x) as [a|] eqn:Ea; [|discriminate]. by rewrite (Hv _ _ Ea).
Qed.

Lemma BinaryOp_refines op x y x' y' s w fp :
  typed (BinaryOp op x y s w fp) → refines x x' → refines y y' → keeps_const y y' →
  refines (BinaryOp op x y s w fp) (BinaryOp op x' y' s w fp).
Proof.
  intros (Hw & Hfp & Hx & Hy & H) Rx Ry Hk. pose proof Rx as (Hx' & Ex & Hvx). pose proof Ry as (Hy' & Ey & Hvy).
  split; [|split; [done|]].
  - split; [done|]. repeat (split; [done|]). by eapply binop_typed_refines.
  - intros σ v E. destruct (decide (op = LogicalAnd)) as [->|]; [|destruct (decide (op = LogicalOr)) as [->|]].
    + cbn in *. destruct (denote σ x) as [a|] eqn:Ea; [|discriminate]. rewrite (Hvx _ _ Ea). cbn in *.
      destruct (a =? 0); [done|eauto].
    + cbn in *. destruct (denote σ x) as [a|] eqn:Ea; [|discriminate]. rewrite (Hvx _ _ Ea). cbn in *.
      destruct (a =? 0); [eauto|done].
    + apply denote_binop in E as (a & b & Ea & Eb & E); try done. apply denote_binop; try done.
      exists a, b. rewrite Ex, Ey. eauto.
Qed.

Lemma Convert_refines f t s x x' k l :
  typed (Convert f t s x k l) → refines x x' → refines (Convert f t s x k l) (Convert f t s x' k l).
Proof.
  intros (Hw & Hk & Hl & Hx & H) (Hx' & E & Hv). split; [|split; [done|]].
  - split; [done|]. by rewrite E.
  - intros σ v. cbn. destruct (denote σ x) as [a|] eqn:Ea; [|discriminate]. by rewrite (Hv _ _ Ea).
Qed.

Lemma Reinterpret_refines f k t l x x' :
  typed (Reinterpret f k t l x) → refines x x' → refines (Reinterpret f k t l x) (Reinterpret f k t l x').
Proof.
  intros (Hw & Hx & H) (Hx' & E & Hv). split; [|split; [done|]].
  - split; [done|]. by rewrite E.
  - intros σ v. cbn. destruct (denote σ x) as [a|] eqn:Ea; [|discriminate]. by rewrite (Hv _ _ Ea).
Qed.

Lemma ITE_refines c x y c' x' y' :
  typed (ITE c x y) → refines c c' → refines x x' → refines y y' → refines (ITE c x y) (ITE c' x' y').
Proof.
  intros (Hw & Hc & Hx & Hy & H) (Hc' & Ec & Hvc) (Hx' & Ex & Hvx) (Hy' & Ey & Hvy). split; [|split; [done|]].
  - cbn in *. by rewrite Ec, Ex, Ey.
  - intros σ v. cbn. destruct (denote σ c) as [a|] eqn:Ea; [|discriminate]. rewrite (Hvc _ _ Ea). cbn. case_match; eauto.
Qed.

Lemma Extract_refines w x o e x' o' :
  typed (Extract w x o e) → refines x x' → refines o o' → keeps_const o o' →
  refines (Extract w x o e) (Extract w x' o' e).
Proof.
  intros (Hw & Hx & Ho & H) (Hx' & Ex & Hvx) (Ho' & Eo & Hvo) Hk. split; [|split; [done|]].
  - split; [done|]. repeat (split; [done|]). by eapply part_refines.
  - intros σ v. cbn. destruct (denote σ x) as [a|] eqn:Ea; [|discriminate]. rewrite (Hvx _ _ Ea). cbn.
    destruct (denote σ o) as [b|] eqn:Eb; [|discriminate]. by rewrite (Hvo _ _ Eb).
Qed.

Lemma Insert_refines x o u e x' o' u' :
  typed (Insert x o u e) → refines x x' → refines o o' → refines u u' → keeps_const o o' →
  refines (Insert x o u e) (Insert x' o' u' e).
Proof.
  intros (Hw & Hx & Ho & Hu & H) (Hx' & Ex & Hvx) (Ho' & Eo & Hvo) (Hu' & Eu & Hvu) Hk. split; [|split; [done|]].
  - split; [cbn in *; by rewrite Ex|]. repeat (split; [done|]). rewrite Eu. by eapply part_refines.
  - intros σ v. cbn. rewrite Eu. destruct (denote σ x) as [a|] eqn:Ea; [|discriminate]. rewrite (Hvx _ _ Ea). cbn.
    destruct (denote σ o) as [b|] eqn:Eb; [|discriminate]. rewrite (Hvo _ _ Eb). cbn.
    destruct (denote σ u) as [c|] eqn:Ec; [|discriminate]. by rewrite (Hvu _ _ Ec).
Qed.

Lemma Load_refines x x' n e : typed (Load x n e) → refines x x' → refines (Load x n e) (Load x' n e).
Proof.
  intros (Hw & Hx) (Hx' & E & Hv). split; [|split; [done|]]; [done|].
  intros σ v. cbn. destruct (denote σ x) as [a|] eqn:Ea; [|discriminate]. by rewrite (Hv _ _ Ea).
Qed.

Inductive target_refines : CFGTarget expr → CFGTarget expr → Prop :=
  | Symbol_refines g : target_refines (Symbol g) (Symbol g)
  | Expr_refines e e' : refines e e' → target_refines (Expr e) (Expr e').

Lemma Call_refines f f' xs xs' w :
  typed (Call f xs w) → target_refines f f' → Forall2 refines xs xs' → refines (Call f xs w) (Call f' xs' w).
Proof.
  intros (Hw & Hb & _) Hf H. split; [|split; [done|]].
  - split; [done|]. split; [by destruct Hf|]. split; [by destruct Hf as [|??[]]|]. clear Hw Hb Hf.
    induction H as [|x x' xs xs' Hx _ IH]; [done|]. split; [apply Hx|exact IH].
  - intros σ v. cbn. intros E. clear Hw Hb.
    assert (∀ g, match f with Symbol g => Some (Symbol g) | Expr x => a ← denote σ x; Some (Expr a) end = Some g →
      match f' with Symbol g => Some (Symbol g) | Expr x => a ← denote σ x; Some (Expr a) end = Some g) as Hg.
    { intros g Eg. destruct Hf as [|x x' (_ & _ & Hx)]; [done|]. destruct (denote σ x) eqn:Ex; [|discriminate Eg]. by rewrite (Hx _ _ Ex). }
    match type of E with (?m ≫= _) = _ => destruct m as [g|] eqn:Eg; [|discriminate E] end.
    rewrite (Hg _ eq_refl). cbn in E |- *. clear Hf Hg Eg.
    match type of E with (?m ≫= _) = _ => destruct m as [vs|] eqn:Evs; [|discriminate] end.
    match goal with |- (?m ≫= _) = _ => enough (m = Some vs) as -> by done end. clear E.
    revert vs Evs. induction H as [|x x' xs xs' Hx _ IH]; intros vs Evs; [done|].
    destruct (denote σ x) as [a|] eqn:Ea; [|discriminate]. destruct Hx as (_ & _ & Hx). rewrite (Hx _ _ Ea). cbn in *.
    match type of Evs with (?m ≫= _) = _ => destruct m as [us|] eqn:Eus; [|discriminate] end. by rewrite (IH _ eq_refl).
Qed.

End refinement.

Lemma sound_weaken r P Q rule : (∀ e, Q e → P e) → sound_on r P rule → sound_on r Q rule.
Proof. intros HPQ H e e' Ht Hq. by apply H, HPQ. Qed.

(** ** Proof automation

    [rule_cases H] opens a hypothesis [rule e = Some e'], [typed_parts] the
    typing of expressions whose head is known, [denote_parts] their values;
    [denote_goal] computes the value of the result. *)

Ltac rule_conds :=
  repeat match goal with
    | H : andb _ _ = true |- _ => apply andb_prop in H as [? ?]
    | H : (_ =? _) = true |- _ => apply Z.eqb_eq in H
    | H : (_ <? _) = true |- _ => apply Z.ltb_lt in H
    | H : (_ <=? _) = true |- _ => apply Z.leb_le in H
    | H : eqb _ _ = true |- _ => apply eqb_prop in H
    | H : bool_decide _ = true |- _ => apply bool_decide_eq_true in H
    | H : bool_decide _ = false |- _ => apply bool_decide_eq_false in H
    | H : (_ =? _) = false |- _ => apply Z.eqb_neq in H
    | H : (_ <? _) = false |- _ => apply Z.ltb_ge in H
    | H : (_ <=? _) = false |- _ => apply Z.leb_gt in H
    | H : negb _ = true |- _ => apply negb_true_iff in H
    | H : negb _ = false |- _ => apply negb_false_iff in H
    | H : orb _ _ = false |- _ => apply orb_false_elim in H as [? ?]
    end.

Ltac rule_cases H :=
  repeat (case_match; try discriminate H); rule_conds; try congruence; injection H as <-; subst.

(** The conditions that guard a result. *)
Ltac ifs H :=
  repeat (match type of H with (if ?b then _ else _) = _ => let E := fresh "C" in destruct b eqn:E end; try discriminate H);
  rule_conds.

Ltac typed_parts :=
  repeat match goal with
    | H : typed _ (BinaryOp _ _ _ _ _ _) |- _ =>
        let Hw := fresh "Hw" in let Hx := fresh "Hx" in let Hy := fresh "Hy" in let Ho := fresh "Ho" in
        let Hf := fresh "Hf" in destruct H as (Hw & Hf & Hx & Hy & Ho); try (match type of Hf with ?v = false => is_var v; subst v end); cbn [bits binop_typed] in Hw, Ho
    | H : typed _ (UnaryOp _ _ _) |- _ =>
        let Hw := fresh "Hw" in let Hx := fresh "Hx" in let Ho := fresh "Ho" in
        destruct H as (Hw & Hx & Ho); cbn [bits] in Hw
    | H : typed _ (Convert _ _ _ _ _ _) |- _ =>
        let Hw := fresh "Hw" in let Hx := fresh "Hx" in let Ho := fresh "Ho" in
        let Hk := fresh "Hk" in let Hl := fresh "Hl" in destruct H as (Hw & Hk & Hl & Hx & Ho);
        try (match type of Hk with ?k = _ => is_var k; subst k end); try (match type of Hl with ?k = _ => is_var k; subst k end);
        cbn [bits] in Hw
    | H : typed _ (Const _ _) |- _ => let Hw := fresh "Hw" in destruct H as [Hw _]; cbn [bits] in Hw
    | H : typed _ (ITE _ _ _) |- _ =>
        let Hw := fresh "Hw" in let Hc := fresh "Hc" in let Hx := fresh "Hx" in let Hy := fresh "Hy" in let Ho := fresh "Ho" in
        destruct H as (Hw & Hc & Hx & Hy & Ho); cbn [bits] in Hw
    | H : typed _ (Extract _ _ _ _) |- _ =>
        let Hw := fresh "Hw" in let Hx := fresh "Hx" in let Hy := fresh "Hy" in let Ho := fresh "Ho" in
        destruct H as (Hw & Hx & Hy & Ho); cbn [bits] in Hw
    | H : typed _ (Insert _ _ _ _) |- _ =>
        let Hw := fresh "Hw" in let Hx := fresh "Hx" in let Hy := fresh "Hy" in let Hz := fresh "Hz" in let Ho := fresh "Ho" in
        destruct H as (Hw & Hx & Hy & Hz & Ho); cbn [bits] in Hw
    | H : _ ∧ _ |- _ => destruct H
    | H : amount (Const _ _) |- _ => apply amount_const in H
    | H : likes ?a ?b = true, Ha : typed ?r ?a, Hb : typed ?r ?b |- _ => apply (likes_eq r a b Ha Hb) in H; subst
    end; cbn [bits] in *; subst.

Ltac denote_parts :=
  repeat match goal with
    | H : denote _ (BinaryOp LogicalAnd _ _ _ _ _) = Some _ |- _ =>
        let a := fresh "a" in let Ha := fresh "E" in apply denote_logical_and in H as (a & Ha & H)
    | H : denote _ (BinaryOp LogicalOr _ _ _ _ _) = Some _ |- _ =>
        let a := fresh "a" in let Ha := fresh "E" in apply denote_logical_or in H as (a & Ha & H)
    | H : denote _ (BinaryOp _ _ _ _ _ _) = Some _ |- _ =>
        let a := fresh "a" in let b := fresh "b" in let Ha := fresh "E" in let Hb := fresh "E" in
        apply denote_binop in H as (a & b & Ha & Hb & H); [|done|done]; cbn [binop_value bits] in H
    | H : denote _ (Const _ _) = Some _ |- _ => cbn [denote] in H
    | H : denote _ (BasePointerOffset _ _ _) = Some _ |- _ => cbn [denote] in H
    | H : denote _ (StackBaseOffset _ _) = Some _ |- _ => cbn [denote] in H
    | H : denote _ (UnaryOp _ _ _) = Some _ |- _ =>
        let a := fresh "a" in let Ha := fresh "E" in apply denote_unary in H as (a & Ha & H)
    | H : denote _ (Convert _ _ _ _ _ _) = Some _ |- _ =>
        let a := fresh "a" in let Ha := fresh "E" in apply denote_convert in H as (a & Ha & H)
    | H : denote _ (ITE _ _ _) = Some _ |- _ =>
        let a := fresh "a" in let Ha := fresh "E" in apply denote_ite in H as (a & Ha & H)
    | H : denote _ (Extract _ _ _ _) = Some _ |- _ =>
        let a := fresh "a" in let k := fresh "k" in let Ha := fresh "E" in let Hk := fresh "E" in
        apply denote_extract in H as (a & k & Ha & Hk & H)
    | H : denote _ (Insert _ _ _ _) = Some _ |- _ =>
        let a := fresh "a" in let k := fresh "k" in let b := fresh "b" in
        let Ha := fresh "E" in let Hk := fresh "E" in let Hb := fresh "E" in
        apply denote_insert in H as (a & k & b & Ha & Hk & Hb & H)
    | H : Some _ = Some _ |- _ => injection H as H
    | H : ?x = Some ?a, H' : ?x = Some ?b |- _ =>
        let E := fresh "E" in assert (a = b) as E by congruence; clear H'; first [subst b|subst a|clear E]
    end; subst; cbn [bits] in *.

Ltac denote_goal :=
  cbn [denote mkBinary mkUnary mkConvert _binop_bits_for bits binop_value];
  repeat (match goal with H : denote ?σ ?x = Some ?v |- context [denote ?σ ?x] => rewrite H end;
    cbn [denote mbind option_bind binop_value bits]).

Ltac plain_parts H :=
  let Hr := fresh "Hr" in let Hu := fresh "Hu" in
  destruct H as [Hr Hu]; cbn [in_range unsigned compares_signed] in Hr, Hu; rule_conds; subst.

(** Constants in their range. *)
Ltac small_consts :=
  repeat match goal with
    | H : 0 ≤ ?v < 2 ^ ?w |- _ => progress (rewrite ?(Z.mod_small v (2 ^ w) H) in * )
    | H : 0 ≤ ?v, H' : ?v < 2 ^ ?w |- _ => progress (rewrite ?(Z.mod_small v (2 ^ w) (conj H H')) in * )
    end.

(** The range of the values at hand. *)
Ltac ranges r :=
  repeat match goal with
    | H : denote ?σ ?x = Some ?v, Hx : typed r ?x |- _ =>
        lazymatch goal with
        | _ : 0 ≤ v < 2 ^ _ |- _ => fail
        | _ => let B := fresh "B" in pose proof (denote_bound r σ x Hx v H) as B
        end
    end;
  repeat match goal with
    | Hx : typed r ?x |- _ =>
        lazymatch goal with _ : 0 < bits x |- _ => fail | _ => let P := fresh "P" in pose proof (width_pos r x Hx) as P end
    end.

Lemma in_range_mod v w x : 0 ≤ v < 2 ^ w → v mod 2 ^ w = x mod 2 ^ w → v = x mod 2 ^ w.
Proof. intros Hv E. by rewrite (Z.mod_small v) in E. Qed.

Lemma eqm_mod_pow t f x : 0 ≤ t ≤ f → eqm (2 ^ t) (x mod 2 ^ f) x.
Proof.
  intros H. unfold eqm. apply Z.mod_mod_divide.
  exists (2 ^ (f - t)). rewrite <-Z.pow_add_r by lia. f_equal. lia.
Qed.

(** A conversion keeps the low bits. *)
Lemma eqm_convert t f (s : bool) x : 0 ≤ t ≤ f → 0 < f → eqm (2 ^ t) (if s then signed f x else x) x.
Proof.
  intros Ht Hf. destruct s; [|done]. unfold eqm. rewrite <-(eqm_mod_pow t f (signed f x)), signed_congruent by lia. by apply eqm_mod_pow.
Qed.

Lemma convert_low t f (s : bool) x : 0 ≤ t ≤ f → 0 < f → (if s then signed f x else x) mod 2 ^ t = x mod 2 ^ t.
Proof. apply eqm_convert. Qed.

Lemma mod_low t f x : 0 ≤ t ≤ f → (x mod 2 ^ f) mod 2 ^ t = x mod 2 ^ t.
Proof. apply eqm_mod_pow. Qed.

Lemma mod_high t f x : 0 ≤ t ≤ f → (x mod 2 ^ t) mod 2 ^ f = x mod 2 ^ t.
Proof.
  intros H. pose proof (mod_pow2_bound x t). assert (2 ^ t ≤ 2 ^ f) by (apply Z.pow_le_mono_r; lia). apply Z.mod_small. lia.
Qed.

Lemma eqm_signed t f x : 0 ≤ t ≤ f → 0 < f → eqm (2 ^ t) (signed f x) x.
Proof. apply (eqm_convert t f true). Qed.

Lemma eqm_through n a a' b b' : eqm n a a' → eqm n b b' → a' = b' → a mod n = b mod n.
Proof. unfold eqm. congruence. Qed.

Lemma eqm_lnot n a a' : eqm n a a' → eqm n (Z.lnot a) (- a' - 1).
Proof. intros H. unfold Z.lnot. rewrite <-Z.sub_1_r. by apply Zminus_eqm; [apply Zopp_eqm|]. Qed.

Lemma mod_0_pow w : 0 mod 2 ^ w = 0.
Proof. apply Zmod_0_l. Qed.

Lemma mod_1_pow w : 0 < w → 1 mod 2 ^ w = 1.
Proof. intros H. apply Z.mod_small. assert (2 ^ 1 ≤ 2 ^ w) by (apply Z.pow_le_mono_r; lia). lia. Qed.

(** Masks. *)
Lemma ones_small t w : 0 ≤ t ≤ w → (2 ^ t - 1) mod 2 ^ w = 2 ^ t - 1.
Proof.
  intros H. assert (2 ^ t ≤ 2 ^ w) by (apply Z.pow_le_mono_r; lia). pose proof (pow2_pos t).
  apply Z.mod_small. lia.
Qed.

Lemma ones_large t w : 0 ≤ w ≤ t → (2 ^ t - 1) mod 2 ^ w = 2 ^ w - 1.
Proof.
  intros H. pose proof (pow2_pos w). rewrite <-(Z.mod_small (2 ^ w - 1) (2 ^ w)) by lia.
  replace (2 ^ t - 1) with (2 ^ w - 1 + (2 ^ (t - w) - 1) * 2 ^ w); [apply Z_mod_plus_full|].
  rewrite Z.mul_sub_distr_r, <-Z.pow_add_r by lia. replace (t - w + w) with t by lia. lia.
Qed.

Lemma land_mask_all a w : 0 ≤ w → 0 ≤ a < 2 ^ w → Z.land a (2 ^ w - 1) = a.
Proof. intros. by rewrite land_mask, Z.mod_small. Qed.

Lemma land_mask_over a f k w : 0 ≤ f → f ≤ k → f ≤ w → 0 ≤ a < 2 ^ f → Z.land a ((2 ^ k - 1) mod 2 ^ w) = a.
Proof.
  intros Hf Hk Hw Ha. assert (2 ^ f ≤ 2 ^ k) by (apply Z.pow_le_mono_r; lia). assert (2 ^ f ≤ 2 ^ w) by (apply Z.pow_le_mono_r; lia).
  destruct (Z.le_gt_cases k w); [rewrite ones_small by lia|rewrite ones_large by lia]; apply land_mask_all; lia.
Qed.

Lemma lxor_1_parity x : Z.lxor x 1 mod 2 = 1 - x mod 2.
Proof.
  rewrite !Zmod_odd, <-!Z.bit0_odd, Z.lxor_spec. by destruct (Z.testbit x 0).
Qed.

(** Truth values are 0 or 1. *)
Ltac truth_values :=
  repeat match goal with
    | H : bits ?x = 1, B : 0 ≤ ?v < 2 ^ bits ?x |- _ =>
        rewrite H in B; assert (v = 0 ∨ v = 1) as [-> | ->] by (change (2 ^ 1) with 2 in B; lia); clear B
    end;
  repeat match goal with H : bits ?x = 1 |- context [2 ^ bits ?x] => rewrite H end; change (2 ^ 1) with 2;
  rewrite ?mod_0_pow; rewrite ?mod_1_pow by lia; cbn.

(** Equalities of sums and products modulo a power of two: the inner reductions
    and conversions are taken away on both sides. *)
Ltac eqm_norm :=
  lazymatch goal with
  | |- eqm _ (_ + _) _ => eapply Zplus_eqm; eqm_norm
  | |- eqm _ (_ - _) _ => eapply Zminus_eqm; eqm_norm
  | |- eqm _ (_ * _) _ => eapply Zmult_eqm; eqm_norm
  | |- eqm _ (- _) _ => eapply Zopp_eqm; eqm_norm
  | |- eqm _ (Z.lnot _) _ => eapply eqm_lnot; eqm_norm
  | |- eqm (2 ^ ?t) (_ mod 2 ^ ?f) _ => first [eapply eqm_trans; [apply (eqm_mod_pow t f); lia|]; eqm_norm | apply eqm_refl]
  | |- eqm (2 ^ ?t) (if _ then signed ?f _ else _) _ =>
      first [eapply eqm_trans; [apply (eqm_convert t f); lia|]; eqm_norm | apply eqm_refl]
  | |- eqm (2 ^ ?t) (signed ?f _) _ => first [eapply eqm_trans; [apply (eqm_signed t f); lia|]; eqm_norm | apply eqm_refl]
  | |- _ => apply eqm_refl
  end.

Ltac mod_ring := eapply eqm_through; [eqm_norm|eqm_norm|ring].

(** The three parts of a refinement. *)
Ltac refining := split; [cbn [typed mkBinary mkUnary mkConvert _binop_bits_for bits binop_typed]; 
  repeat match goal with |- _ ∧ _ => split end; try first [done|lia|congruence|apply amount_const; lia]|split; [try done|intros ? ? ?]].

(** A rule that miscompiles an expression is not sound. *)
Lemma miscompiles_unsound r rule : miscompiles r rule → ¬ sound_on r (λ e, in_range e = true) rule.
Proof.
  intros (e & e' & σ & v & v' & Ht & Hp & Hr & H1 & H2 & Hn) Hs.
  destruct (Hs e e' Ht Hp Hr) as (_ & _ & H). specialize (H _ _ H1). congruence.
Qed.

(** [counterexample e x]: the rule at [e], where every variable is [x]. *)
Ltac counterexample e x :=
  exists e; eexists; exists (constant_env x); do 2 eexists;
  split; [cbn; repeat split; try lia; try (by apply amount_const); try (by do 2 eexists; split; [reflexivity|cbn; lia])|];
  split; [by vm_compute|]; split; [vm_compute; reflexivity|];
  split; [vm_compute; reflexivity|]; split; [vm_compute; reflexivity|]; vm_compute; congruence.

End AilFacts.
