(* ===== verification/PeepArith.v ===== *)
(** * Peephole rules on arithmetic

    The rules of [angr/analyses/decompiler/peephole_optimizations] that combine
    terms of sums, products, quotients and pointer offsets.  A rule is the
    [optimize] method of its class, with [None] for Python's [None] and for the
    object it was given; an expression it makes takes the width the constructor
    computes unless the code passes one. *)

From Stdlib Require Import ZArith Lia Bool String.
From stdpp Require Import base tactics list numbers strings option.
From S2P Require Import Prelude Bitfields Ail AilFacts.
Import Bitfields Ail AilFacts.

Module PeepArith.

(** ** Rules *)

(** [a * N - a => a * (N - 1)] *)
Definition AMulConstSubA (e : expr) : option expr :=
  match e with
  | BinaryOp Sub (BinaryOp Mul a' (Const N _) s' _ _) a s w _ =>
      if eqb s s' && likes a' a then Some (mkBinary Mul a (Const (N - 1) w) s) else None
  | _ => None
  end.

(** [(a << N) - a => a * (2 ** N - 1)] *)
Definition AShlConstSubA (e : expr) : option expr :=
  match e with
  | BinaryOp Sub (BinaryOp Shl a' (Const N _) s' _ _) a s w _ =>
      if eqb s s' && likes a' a then Some (mkBinary Mul a (Const (2 ^ N - 1) w) s) else None
  | _ => None
  end.

(** [expr - (expr - N) => N]: the comparison is [==], which looks at the indices
    of the two expressions as well. *)
Definition ASubASubN (equal : expr → expr → bool) (e : expr) : option expr :=
  match e with
  | BinaryOp Sub a (BinaryOp Sub a' n _ _ _) _ _ _ => if equal a a' then Some n else None
  | _ => None
  end.

(** [a / N0 + (a * N1) / N0 => a * (N1 + 1) / N0] *)
Definition ADivConstAddAMulNDivConst (e : expr) : option expr :=
  match e with
  | BinaryOp Add (BinaryOp Div a0 (Const c0 n0) _ _ _)
      (BinaryOp Div (BinaryOp Mul a1 (Const c1 _) _ _ _) (Const c0' _) _ _ _) _ w _ =>
      if likes a0 a1 && (c0 =? c0')
      then Some (mkBinary Div (mkBinary Mul a0 (Const (c1 + 1) w) false) (Const c0 n0) false)
      else None
  | _ => None
  end.

(** [(A * N0 / N1) >> N2 => (A * (N0 / 2 ** N2) / N1)] *)
Definition AMulConstDivShrConst (e : expr) : option expr :=
  match e with
  | BinaryOp Shr (BinaryOp Div (BinaryOp Mul a (Const c0 _) _ _ _) (Const c1 n1) _ _ _) (Const c2 _) _ w _ =>
      Some (mkBinary Div (mkBinary Mul a (Const (c0 / 2 ^ c2) w) false) (Const c1 n1) false)
  | _ => None
  end.

(** [a - a / N => a * (N - 1) / N] *)
Definition ASubADiv (e : expr) : option expr :=
  match e with
  | BinaryOp Sub a (BinaryOp Div a' (Const N _) _ _ _) _ w _ =>
      if likes a' a
      then Some (mkBinary Div (mkBinary Mul a (Const (N - 1) w) false) (Const N w) false)
      else None
  | _ => None
  end.

(** [(a - (a >> 31)) >> N => a / 2 ** N], signed *)
Definition ASubAShrConstShrConst (e : expr) : option expr :=
  match e with
  | BinaryOp Sar (BinaryOp Sub a0 (BinaryOp Sar a1 (Const m _) _ _ _) _ _ _) (Const n _) _ w _ =>
      if (m =? 31) && likes a0 a1 then Some (mkBinary Div a0 (Const (2 ^ n) w) true) else None
  | _ => None
  end.

(** [a - (a / N) * N => a % N], under conversions of both terms, or of [a] and of
    [a / N]. *)
Definition both_widened (x y : expr) : option (Z * Z * bool) * expr * expr :=
  match x, y with
  | Convert f t s x' _ _, Convert f' t' s' y' _ _ =>
      if (t =? t') && (f =? f') && (f <? t) && eqb s s' then (Some (f, t, s), x', y') else (None, x, y)
  | _, _ => (None, x, y)
  end.

Definition both_converted (left x : expr) : option (Z * Z * bool) * expr * expr :=
  match left, x with
  | Convert f t _ left' _ _, Convert f' t' s x' _ _ =>
      if (t =? t') && (f =? f') then (Some (f', t', s), x', left') else (None, x, left)
  | _, _ => (None, x, left)
  end.

Definition ModuloSimplifier (e : expr) : option expr :=
  match e with
  | BinaryOp Sub sub0 sub1 _ _ _ =>
      let '(outer_conv, sub0, sub1) := both_widened sub0 sub1 in
      match sub1 with
      | BinaryOp Mul op1_left (Const mul_const _) _ _ _ =>
          let '(inner_conv, a0, op1_left) := both_converted op1_left sub0 in
          match op1_left with
          | BinaryOp Div a1 (Const div_const d) _ _ _ =>
              if likes a0 a1 && (mul_const =? div_const) then
                let modulo := BinaryOp Mod a0 (Const div_const d) false (bits a0) false in
                match inner_conv, outer_conv with
                | Some (f, t, s), None => Some (mkConvert f t s modulo)
                | Some (f, _, s), Some (_, t, _) => Some (mkConvert f t s modulo)
                | None, Some (f, t, s) => Some (mkConvert f t s modulo)
                | None, None => Some modulo
                end
              else None
          | _ => None
          end
      | _ => None
      end
  | _ => None
  end.

(** [a << A => a * (2 ** A)] *)
Definition ShlToMul (e : expr) : option expr :=
  match e with
  | BinaryOp Shl x (Const n _) s _ _ => Some (mkBinary Mul x (Const (2 ^ n) (bits x)) s)
  | _ => None
  end.

(** [Conv(64->32, X * N<64>) * N<32> => Conv(64->32, X * N<64> * Conv(32->64, N<32>))] *)
Definition RewriteConvMul (e : expr) : option expr :=
  match e with
  | BinaryOp Mul (Convert f t _ (BinaryOp Mul x (Const c cw) s0 w0 fp0) _ _) (Const n nw) s _ _ =>
      if (nw =? 32) && (t <? f) && (cw =? 64)
      then Some (mkConvert f t false
        (mkBinary Mul (BinaryOp Mul x (Const c cw) s0 w0 fp0) (mkConvert nw f false (Const n nw)) s))
      else None
  | _ => None
  end.

Section arch.
Context (arch_bits : Z).

(** [(Ptr - M) + N => Ptr - (M - N)] *)
Definition BasePointerOffsetAddN (e : expr) : option expr :=
  match e with
  | BinaryOp ((Add | Sub) as op) (BasePointerOffset w b o) (Const n _) _ _ _ =>
      let offset := if bool_decide (op = Add) then o + n else o - n in
      let max_int := Z.shiftl 1 (arch_bits - 1) - 1 in
      Some (BasePointerOffset w b (if max_int <? offset then offset - Z.shiftl 1 arch_bits else offset))
  | _ => None
  end.
End arch.

Definition alignment_masks : list Z :=
  [0xFFFE; 0xFFFC; 0xFFF8; 0xFFF0; 0xFFFFFFFE; 0xFFFFFFFC; 0xFFFFFFF8; 0xFFFFFFF0;
   0xFFFFFFFFFFFFFFFE; 0xFFFFFFFFFFFFFFFC; 0xFFFFFFFFFFFFFFF8; 0xFFFFFFFFFFFFFFF0].

(** [Ptr & mask => Ptr] *)
Definition BasePointerOffsetAndMask (e : expr) : option expr :=
  match e with
  | BinaryOp And (BasePointerOffset w b o) (Const mask _) _ _ _ =>
      if bool_decide (mask ∈ alignment_masks) then Some (BasePointerOffset w b o) else None
  | _ => None
  end.

(** ** Soundness *)

Section soundness.
Context (r : string → Z).

Lemma AMulConstSubA_sound : sound r AMulConstSubA.
Proof.
  intros e e' Ht _ H. unfold AMulConstSubA in H. rule_cases H. typed_parts. refining. denote_parts. denote_goal.
  f_equal. mod_ring.
Qed.

Lemma AShlConstSubA_sound : sound r AShlConstSubA.
Proof.
  intros e e' Ht _ H. unfold AShlConstSubA in H. rule_cases H. typed_parts. refining. denote_parts. denote_goal.
  small_consts. f_equal. rewrite Z.shiftl_mul_pow2 by lia. mod_ring.
Qed.

Lemma ShlToMul_sound : sound r ShlToMul.
Proof.
  intros e e' Ht _ H. unfold ShlToMul in H. rule_cases H. typed_parts. refining. denote_parts. denote_goal.
  small_consts. f_equal. rewrite Z.shiftl_mul_pow2 by lia. mod_ring.
Qed.

Lemma ASubASubN_sound equal : (∀ a b, equal a b = true → likes a b = true) → sound r (ASubASubN equal).
Proof.
  intros He e e' Ht _ H. unfold ASubASubN in H. rule_cases H. match goal with H : _ = true |- _ => apply He in H end.
  typed_parts. refining. denote_parts. denote_goal. ranges r.
  f_equal. apply in_range_mod; [congruence|]. mod_ring.
Qed.

Lemma RewriteConvMul_sound : sound r RewriteConvMul.
Proof.
  intros e e' Ht _ H. unfold RewriteConvMul in H. rule_cases H. typed_parts. refining. 
  denote_parts. denote_goal. f_equal. mod_ring.
Qed.

(** Modulo an offset, the pointer of the machine's width. *)
Lemma BasePointerOffsetAddN_sound arch_bits :
  sound_on r (λ e, bits e ≤ arch_bits) (BasePointerOffsetAddN arch_bits).
Proof.
  assert (∀ w x y n, w ≤ n → 0 < w → eqm (2 ^ w) (x + (y - 2 ^ n)) (x + y)) as Hn.
  { intros w x y n Hw H. replace (x + (y - 2 ^ n)) with (x + y + - 2 ^ (n - w) * 2 ^ w); [apply Z_mod_plus_full|].
    rewrite Z.mul_opp_l, <-Z.pow_add_r by lia. replace (n - w + w) with n by lia. ring. }
  intros e e' Ht Hb H. unfold BasePointerOffsetAddN in H. rule_cases H; typed_parts; refining; denote_parts; denote_goal.
  all: f_equal; rewrite ?Z.shiftl_1_l; cbn [bits] in Hb; eapply eqm_through; [first [apply Hn; lia|apply eqm_refl]|eqm_norm|ring].
Qed.
(** *** Modulo *)

Lemma both_widened_cases x y c x' y' :
  both_widened x y = (c, x', y') →
  (c = None ∧ x' = x ∧ y' = y) ∨
  ∃ f t s k l k' l', c = Some (f, t, s) ∧ x = Convert f t s x' k l ∧ y = Convert f t s y' k' l' ∧ f < t.
Proof.
  intros H. destruct x; try (by left; cbn in H; simplify_eq). destruct y; try (by left; cbn in H; simplify_eq).
  cbn in H. case_match; simplify_eq; [right|by left]. rule_conds; subst. by do 7 eexists.
Qed.

Lemma both_converted_cases left x c x' left' :
  both_converted left x = (c, x', left') →
  (c = None ∧ x' = x ∧ left' = left) ∨
  ∃ f t s s' k l k' l', c = Some (f, t, s) ∧ x = Convert f t s x' k l ∧ left = Convert f t s' left' k' l'.
Proof.
  intros H. destruct left; try (by left; cbn in H; simplify_eq). destruct x; try (by left; cbn in H; simplify_eq).
  cbn in H. case_match; simplify_eq; [right|by left]. rule_conds; subst. by do 8 eexists.
Qed.

Lemma quotient_times a d w : 0 ≤ a < 2 ^ w → 0 ≤ d → d ≠ 0 → a / d * d = a - a mod d ∧ 0 ≤ a mod d ≤ a ∧ 0 ≤ a / d ≤ a.
Proof.
  intros Ha Hd Hn. pose proof (Z.div_le_upper_bound a d a). pose proof (Z.div_pos a d). pose proof (Z.div_mod a d Hn). pose proof (Z.mod_pos_bound a d). pose proof (Z.mod_le a d). nia.
Qed.

(** Under two conversions, the inner one must not narrow. *)
Definition modulo_shape (e : expr) : Prop :=
  plain e ∧
  match e with
  | BinaryOp Sub (Convert _ _ _ (Convert f t _ _ _ _) _ _) _ _ _ _ => f ≤ t
  | _ => True
  end.

Lemma ModuloSimplifier_sound : sound_on r modulo_shape ModuloSimplifier.
Proof.
  intros e e' Ht [Hp Hs] H. unfold ModuloSimplifier in H.
  destruct e; try discriminate H. destruct op; try discriminate H.
  destruct (both_widened e1 e2) as [[outer x] y] eqn:E1. apply both_widened_cases in E1.
  destruct y as [| | | | |[] | | | | | | | | | |]; try discriminate H. destruct y2; try discriminate H.
  destruct (both_converted y1 x) as [[inner a0] left] eqn:E2. apply both_converted_cases in E2.
  destruct left as [| | | | |[] | | | | | | | | | |]; try discriminate H. destruct left2; try discriminate H.
  destruct (likes a0 left1 && _) eqn:E3; [|discriminate H]. rule_conds. subst.
  destruct E1 as [(? & ? & ?)|(f & t & s & k & l & k' & l' & ? & ? & ? & Hft)];
    destruct E2 as [(? & ? & ?)|(g & u & b & b' & m & o & m' & o' & ? & ? & ?)]; subst; injection H as <-.
  all: plain_parts Hp; typed_parts; refining; denote_parts; denote_goal; case_match; try discriminate; rule_conds.
  all: denote_parts; ranges r; small_consts; cbn [mbind option_bind]; f_equal.
  all: match goal with _ : denote _ _ = Some ?a, B : 0 ≤ ?a < _, H : ?d ≠ 0 |- _ =>
      destruct (quotient_times a d _ B) as (Eq & Hmod & Hdiv); [lia|done|] end.
  - apply in_range_mod; [lia|]. rewrite Eq. mod_ring.
  - eapply eqm_through; [apply eqm_refl|eqm_norm|]. rewrite Eq. ring.
  - rewrite Eq, (Z.mod_small _ (2 ^ bits left1)) by lia. mod_ring.
  - pose proof (Z.pow_le_mono_r 2 (bits left1) bits1 ltac:(lia) Hs).
    rewrite (Z.mod_small (_ / _) (2 ^ bits1)), Eq, !(Z.mod_small _ (2 ^ bits1)) by lia. mod_ring.
Qed.
(** *** Halving by a shift *)

Lemma half_by_shift A : -2 ^ 31 ≤ A < 2 ^ 31 → Z.shiftr (A - Z.shiftr A 31) 1 = Z.quot A 2.
Proof.
  intros H. rewrite !Z.shiftr_div_pow2 by lia. change (2 ^ 1) with 2. change (2 ^ 31) with 2147483648 in *.
  destruct (Z.lt_ge_cases A 0).
  - replace (A / 2147483648) with (-1) by (Z.to_euclidean_division_equations; lia). Z.to_euclidean_division_equations. lia.
  - replace (A / 2147483648) with 0 by (Z.to_euclidean_division_equations; lia). Z.to_euclidean_division_equations. lia.
Qed.

Definition halves (e : expr) : Prop := ∃ x n s, e = BinaryOp Sar x (Const 1 n) s 32 false.

Lemma ASubAShrConstShrConst_halves : sound_on r halves ASubAShrConstShrConst.
Proof.
  intros e e' Ht (x & n & b & ->) H. unfold ASubAShrConstShrConst in H. rule_cases H. typed_parts. refining.
  denote_parts. denote_goal. rewrite H. small_consts.
  change (2 ^ 1 mod 2 ^ 32) with 2. change (signed 32 2) with 2. cbn [Z.eqb].
  set (A := signed 32 a0). assert (-2 ^ 31 ≤ A < 2 ^ 31) as HA by (apply (signed_bounds 32); lia).
  rewrite (signed_ext 32 ((a0 - Z.shiftr A 31 mod 2 ^ 32) mod 2 ^ 32) (A - Z.shiftr A 31)), (signed_id 32 (A - Z.shiftr A 31)).
  - by rewrite half_by_shift.
  - lia.
  - rewrite Z.shiftr_div_pow2 by lia. Z.to_euclidean_division_equations. lia.
  - lia.
  - subst A. mod_ring.
Qed.

Lemma ADivConstAddAMulNDivConst_miscompiles : miscompiles r ADivConstAddAMulNDivConst.
Proof.
  counterexample (BinaryOp Add (BinaryOp Div (Register 0 32) (Const 2 32) false 32 false)
    (BinaryOp Div (BinaryOp Mul (Register 0 32) (Const 1 32) false 32 false) (Const 2 32) false 32 false) false 32 false) 1.
Qed.

Lemma AMulConstDivShrConst_miscompiles : miscompiles r AMulConstDivShrConst.
Proof.
  counterexample (BinaryOp Shr (BinaryOp Div (BinaryOp Mul (Register 0 32) (Const 3 32) false 32 false) (Const 1 32)
    false 32 false) (Const 1 8) false 32 false) 3.
Qed.

Lemma ASubADiv_miscompiles : miscompiles r ASubADiv.
Proof.
  counterexample (BinaryOp Sub (Register 0 32) (BinaryOp Div (Register 0 32) (Const 2 32) false 32 false) false 32 false) 1.
Qed.

(** A pointer that is not aligned. *)
Lemma BasePointerOffsetAndMask_miscompiles : miscompiles r BasePointerOffsetAndMask.
Proof.
  counterexample (BinaryOp And (BasePointerOffset 32 "stack_base"%string 1) (Const 0xFFFFFFFE 32) false 32 false) 0.
Qed.

End soundness.
End PeepArith.
