(* ===== verification/PeepBool.v ===== *)
(** * Peephole rules on conditions

    The rules that turn bit arithmetic on truth values and comparisons into
    connectives, comparisons and conditionals. *)

From Stdlib Require Import ZArith Lia Bool String.
From stdpp Require Import base tactics list numbers strings option.
From S2P Require Import Prelude Bitfields Ail AilFacts.
Import Bitfields Ail AilFacts.

Module PeepBool.

(** ** Connectives *)

(** [(a | b) == 0 => (a == 0) && (b == 0)], [(a | b) != 0 => (a != 0) || (b != 0)] *)
Definition BitwiseOrToLogicalOr (e : expr) : option expr :=
  match e with
  | BinaryOp ((CmpEQ | CmpNE) as op) (BinaryOp Or x y _ _ _) (Const 0 n) _ w _ =>
      let new_left := BinaryOp op x (Const 0 n) false 1 false in
      let new_right := BinaryOp op y (Const 0 n) false 1 false in
      Some (BinaryOp (if bool_decide (op = CmpNE) then LogicalOr else LogicalAnd) new_left new_right false w false)
  | _ => None
  end.

(** [Conv(1->N, some_bool_expr) ^ 1 => Conv(1->N, Not(some_bool_expr))] *)
Definition BoolExprXor1 (e : expr) : option expr :=
  match e with
  | BinaryOp Xor (Convert 1 t s x _ _) (Const 1 _) _ _ _ =>
      if is_bool_expr x then Some (mkConvert 1 t s (mkUnary Not x)) else None
  | _ => None
  end.

(** [1 - Conv(1->N, some_bool_expr) => Conv(1->N, Not(some_bool_expr))] *)
Definition OneSubBool (e : expr) : option expr :=
  match e with
  | BinaryOp Sub (Const 1 _) (Convert 1 t s x _ _) _ _ _ =>
      if is_bool_expr x then Some (mkConvert 1 t s (mkUnary Not x)) else None
  | _ => None
  end.

(** [Convert(N->1, (Convert(1->N, t_x) ^ 0x1<N>) => Not(t_x)] *)
Definition SingleBitXor (e : expr) : option expr :=
  match e with
  | Convert _ 1 _ (BinaryOp Xor (Convert 1 _ _ x _ _) (Const 1 _) _ _ _) _ _ => Some (mkUnary Not x)
  | _ => None
  end.

Definition SingleBitCondToBoolExpr (e : expr) : option expr :=
  match e with
  | BinaryOp Xor x (Const 1 _) _ 1 _ => Some (mkUnary Not x)
  | BinaryOp ((CmpEQ | CmpNE) as op) x (Const v _) _ 1 _ =>
      if bits x =? 1 then
        if xorb (v =? 0) (bool_decide (op = CmpEQ)) then Some x else Some (mkUnary Not x)
      else None
  | _ => None
  end.

(** [Not(Not(expr)) => expr], and the negation of a comparison *)
Definition RemoveRedundantNots (e : expr) : option expr :=
  match e with
  | UnaryOp Not (UnaryOp Not x _) _ => Some x
  | UnaryOp Not (BinaryOp op x y s w fp) _ => (λ op', BinaryOp op' x y s w fp) <$> COMPARISON_NEGATION op
  | _ => None
  end.

(** [!(A && B) => !A || !B], [!(A || B) => !A && !B] *)
Definition InvertNegatedLogicalConjunctionsAndDisjunctions (e : expr) : option expr :=
  match e with
  | UnaryOp Not (BinaryOp LogicalAnd x y s w _) _ => Some (BinaryOp LogicalOr (mkUnary Not x) (mkUnary Not y) s w false)
  | UnaryOp Not (BinaryOp LogicalOr x y s w _) _ => Some (BinaryOp LogicalAnd (mkUnary Not x) (mkUnary Not y) s w false)
  | _ => None
  end.

(** ** Conditionals *)

(** [ITE(cond, a, ITE(!cond, b, c)) => ITE(cond, a, b)] *)
Definition RemoveRedundantITEBranches (e : expr) : option expr :=
  match e with
  | ITE (BinaryOp op x y s w fp) a (ITE (BinaryOp op' x' y' _ _ _) b _) =>
      if bool_decide (COMPARISON_NEGATION op = Some op') && likes x x' && likes y y'
      then Some (ITE (BinaryOp op x y s w fp) a b)
      else None
  | _ => None
  end.

Definition under_not (x : expr) : expr * bool :=
  match x with UnaryOp Not x' _ => (x', true) | _ => (x, false) end.

(** [ITE(cond, a, b) == a => cond], and its variants *)
Definition RemoveRedundantITEComparisons (e : expr) : option expr :=
  match e with
  | BinaryOp ((CmpEQ | CmpNE) as op) x y _ _ _ =>
      let '(inner, negate) := under_not x in
      let negate := xorb negate (bool_decide (op = CmpNE)) in
      match inner, y with
      | ITE c a b, Const v _ =>
          let is_const z := match z with Const v' _ => v' =? v | _ => false end in
          let result negate := if negate : bool then mkUnary Not c else c in
          if is_const a then Some (result negate)
          else if is_const b then Some (result (negb negate))
          else None
      | _, _ => None
      end
  | _ => None
  end.

(** ** Comparisons *)

Definition as_const (e : expr) : option Z := match e with Const v _ => Some v | _ => None end.

(** The operation, its operands and its width, and the constant it is compared to. *)
Definition cmp_operands (op0 op1 : expr) : option (binop * expr * expr * Z * Z * Z) :=
  match op0, op1 with
  | BinaryOp aop a0 a1 _ aw _, Const c cw => Some (aop, a0, a1, aw, c, cw)
  | Const c cw, BinaryOp aop a0 a1 _ aw _ => Some (aop, a0, a1, aw, c, cw)
  | _, _ => None
  end.

Definition cmp_folded (aop : binop) (a0 a1 : expr) (d mask : Z) : option (expr * Z) :=
  match aop, as_const a0, as_const a1 with
  | Add, None, Some k => Some (a0, Z.land (d - k) mask)
  | Add, Some k, None => Some (a1, Z.land (d - k) mask)
  | Sub, None, Some k => Some (a0, Z.land (d + k) mask)
  | Sub, Some k, None => Some (a1, Z.land (k - d) mask)
  | _, _, _ => None
  end.

(** [(A - C1) == C2 => A == (C1 + C2)], and its variants *)
Definition CmpSubConst (e : expr) : option expr :=
  match e with
  | BinaryOp ((CmpEQ | CmpNE) as op) op0 op1 s w fp =>
      '(aop, a0, a1, aw, c, cw) ← cmp_operands op0 op1;
      if negb (cw =? aw) then None else
      let mask := Z.shiftl 1 aw - 1 in
      '(var, new_val) ← cmp_folded aop a0 a1 (Z.land c mask) mask;
      if negb (bits var =? aw) then None else Some (BinaryOp op var (Const new_val aw) s w fp)
  | _ => None
  end.

(** The constant on the right. *)
Definition const_right (op0 op1 : expr) : expr * expr :=
  match op0, op1 with
  | Const _ _, Const _ _ => (op0, op1)
  | Const _ _, _ => (op1, op0)
  | _, _ => (op0, op1)
  end.

(** The operand of an unsigned truncation, with its width. *)
Definition peel_truncation (e : expr) : option (expr * option Z) :=
  match e with
  | Convert f t s x _ _ => if s || (f <=? t) then None else Some (x, Some t)
  | _ => Some (e, None)
  end.

(** [(x >> n) == c => (x & mask) == (c << n)], under a truncation or not *)
Definition CmpMaskedShift (e : expr) : option expr :=
  match e with
  | BinaryOp ((CmpEQ | CmpNE) as op) op0 op1 s w fp =>
      match const_right op0 op1 with
      | (op0, Const c _) =>
          '(shifted, width) ← peel_truncation op0;
          match shifted with
          | BinaryOp Shr x (Const n _) _ _ _ =>
              if n <=? 0 then None else
              let width := default (bits x - n) width in
              if (width <=? 0) || (bits x <? n + width) then None else
              if negb (Z.shiftr c width =? 0) then None else
              let mask := Z.shiftl (Z.shiftl 1 width - 1) n in
              Some (BinaryOp op (mkBinary And x (Const mask (bits x)) false) (Const (Z.shiftl c n) (bits x)) s w fp)
          | _ => None
          end
      | _ => None
      end
  | _ => None
  end.

(** [(expr - 0)] and [expr]. *)
Definition real_expr (x : expr) : expr := match x with BinaryOp Sub x' (Const 0 _) _ _ _ => x' | _ => x end.

(** [Conv(M->1, (expr >> N) & 1) => expr < 0] *)
Definition ConvASub0ShrAnd (e : expr) : option expr :=
  match e with
  | Convert _ 1 _ (BinaryOp And (BinaryOp Shr x (Const n _) _ _ _) (Const 1 _) _ _ _) _ _ =>
      if bool_decide (n ∈ [7; 15; 31; 63]) then
        let to_bits := n + 1 in
        Some (mkBinary CmpLT (mkConvert (bits (real_expr x)) to_bits false (real_expr x)) (Const 0 to_bits) true)
      else None
  | _ => None
  end.

(** The operands of a test of a bit of [CmpORD], their signedness, and the bit;
    then with the exclusive or there may be around it. *)
Definition ord_test (e : expr) : option (expr * expr * bool * Z) :=
  match e with BinaryOp And (BinaryOp CmpORD x y s _ _) (Const v _) _ _ _ => Some (x, y, s, v) | _ => None end.

Definition ord_xor (e : expr) : option (expr * expr * bool * Z * bool) :=
  match e with
  | BinaryOp Xor e (Const v' _) _ _ _ =>
      '(x, y, s, v) ← ord_test e; if v' =? v then Some (x, y, s, v, true) else None
  | _ => '(x, y, s, v) ← ord_test e; Some (x, y, s, v, false)
  end.

(** The condition of a jump on PowerPC. *)
Definition CmpORDRewriter (condition : expr) : option expr :=
  match condition with
  | BinaryOp ((CmpEQ | CmpNE) as op) cmp_lhs (Const 0 _) _ _ _ =>
      '(x, y, s, v, flipped) ← ord_xor cmp_lhs;
      let negated := xorb (bool_decide (op = CmpEQ)) flipped in
      if v =? 2 then Some (mkBinary (if negated then CmpNE else CmpEQ) x y s)
      else if v =? 4 then Some (mkBinary (if negated then CmpLT else CmpGE) x y s)
      else if v =? 8 then Some (mkBinary (if negated then CmpGE else CmpLT) x y s)
      else None
  | _ => None
  end.

(** ** Soundness *)

Section soundness.
Context (r : string → Z).

Lemma RemoveRedundantNots_sound : sound r RemoveRedundantNots.
Proof.
  intros e e' Ht _ H. unfold RemoveRedundantNots in H. destruct e as [| | | |[] x w| | | | | | | | | | |]; try discriminate H.
  destruct x as [| | | |[] x w'|op x y s w' fp| | | | | | | | | |]; try discriminate H.
  - simplify_eq. typed_parts. refining. denote_parts. ranges r. by truth_values.
  - destruct (COMPARISON_NEGATION op) as [op'|] eqn:E; [|discriminate H]. simplify_eq/=.
    destruct (negation_comparison _ _ E) as [Hc Hc']. typed_parts. rewrite comparison_typed in * by done. destruct_and?.
    split; [cbn; by rewrite comparison_typed|]. split; [done|]. intros σ v (a & Ha & <-)%denote_unary.
    apply denote_comparison in Ha as (b & c & Hb & Hc1 & <-); [|done]. apply denote_comparison; [done|]. exists b, c.
    rewrite (compare_negation _ _ _ _ _ _ E). split_and!; try done. subst.
    pose proof (compare_bound op s (bits x) b c). by assert (compare op s (bits x) b c = 0 ∨ compare op s (bits x) b c = 1) as [-> | ->] by lia.
Qed.

Lemma BitwiseOrToLogicalOr_sound : sound r BitwiseOrToLogicalOr.
Proof.
  intros e e' Ht _ H. unfold BitwiseOrToLogicalOr in H. rule_cases H; typed_parts; refining; denote_parts; ranges r; denote_goal.
  all: rewrite ?Z.mod_0_l by (pose proof (pow2_pos (bits e0_3)); lia).
  all: match goal with H : bits ?x = bits ?y, B : 0 ≤ _ < 2 ^ bits ?x |- _ => rewrite H in * end.
  all: pose proof (lor_bound a0 b0 (bits e0_3) ltac:(lia) B0 B).
  all: rewrite ?compare_eq, ?compare_ne by lia.
  all: destruct (Z.eqb_spec a0 0) as [Ha|Ha], (Z.eqb_spec b0 0) as [Hb|Hb], (Z.eqb_spec (Z.lor a0 b0) 0) as [Hl|Hl]; cbn; try done.
  all: rewrite Z.lor_eq_0_iff in Hl; tauto.
Qed.

Lemma BoolExprXor1_sound : sound_on r plain BoolExprXor1.
Proof.
  intros e e' Ht Hp H. unfold BoolExprXor1 in H. rule_cases H; plain_parts Hp; typed_parts; refining; denote_parts; ranges r; denote_goal.
  all: by truth_values; rewrite ?mod_0_pow, ?mod_1_pow by lia.
Qed.

Lemma OneSubBool_sound : sound_on r plain OneSubBool.
Proof.
  intros e e' Ht Hp H. unfold OneSubBool in H. rule_cases H; plain_parts Hp; typed_parts; refining; denote_parts; ranges r; denote_goal.
  all: by truth_values; rewrite ?mod_0_pow, ?mod_1_pow by lia.
Qed.

Lemma SingleBitXor_sound : sound r SingleBitXor.
Proof.
  intros e e' Ht _ H. unfold SingleBitXor in H. rule_cases H; typed_parts; refining; denote_parts; ranges r; denote_goal.
  f_equal. rewrite Ho1, convert_low, mod_1_pow by lia. change (2 ^ 1) with 2. rewrite lxor_1_parity.
  change 2 with (2 ^ 1). rewrite mod_low, convert_low by lia. by truth_values.
Qed.

Lemma SingleBitCondToBoolExpr_sound : sound_on r plain SingleBitCondToBoolExpr.
Proof.
  intros e e' Ht Hp H. unfold SingleBitCondToBoolExpr in H. rule_cases H; plain_parts Hp; typed_parts; refining; denote_parts; ranges r; denote_goal.
  all: rewrite ?compare_eq, ?compare_ne by (first [lia|apply mod_pow2_bound; lia]).
  all: try match goal with H : ?v < 2 ^ bits ?x, Hb : bits ?x = 1 |- _ =>
      rewrite Hb in H; assert (v = 0 ∨ v = 1) as [-> | ->] by (change (2 ^ 1) with 2 in H; lia); try discriminate end.
  all: by truth_values.
Qed.

Lemma InvertNegatedLogicalConjunctionsAndDisjunctions_sound : sound r InvertNegatedLogicalConjunctionsAndDisjunctions.
Proof.
  intros e e' Ht _ H. unfold InvertNegatedLogicalConjunctionsAndDisjunctions in H.
  rule_cases H; typed_parts; refining; denote_parts; ranges r; denote_goal; truth_values.
  all: change (Z.lnot 0 mod 2 =? 0) with false; change (Z.lnot 1 mod 2 =? 0) with true;
    match goal with H : (if _ then _ else _) = _ |- _ => cbn in H end; denote_parts; ranges r; denote_goal.
  all: by truth_values.
Qed.

(** Two comparisons of the same operands may differ in signedness. *)
Lemma RemoveRedundantITEBranches_sound : sound_on r (λ e, unsigned e = true) RemoveRedundantITEBranches.
Proof.
  intros e e' Ht Hu H. unfold RemoveRedundantITEBranches in H. rule_cases H.
  match goal with H : COMPARISON_NEGATION _ = Some _ |- _ => rename H into En; destruct (negation_comparison _ _ En) end.
  cbn [unsigned] in Hu. rule_conds.
  rewrite comparison_signed in * by done. subst. typed_parts. refining.
  denote_parts. match goal with H : denote _ (BinaryOp op _ _ _ _ _) = _ |- _ => rename H into Ed end.
  apply denote_ite. eexists. split; [exact Ed|].
  apply denote_comparison in Ed as (b & c & Eb & Ec & <-); [|done].
  case_match; [|done]. rule_conds. denote_parts.
  match goal with H : denote _ (BinaryOp op0 _ _ _ _ _) = _ |- _ => apply denote_comparison in H as (b' & c' & Eb' & Ec' & <-); [|done] end.
  rewrite (compare_negation _ _ _ _ _ _ En) in *. simplify_eq.
  match goal with H : (if _ then _ else _) = _, H' : compare _ _ _ _ _ = 0 |- _ => by rewrite H' in H end.
Qed.

(** *** Folding a constant through an equality *)

Lemma as_const_Some e k : as_const e = Some k → ∃ w, e = Const k w.
Proof. destruct e; intros [=]; subst; eauto. Qed.

Lemma eqm_shift m a c k : eqm m (a + k) c ↔ eqm m a (c - k).
Proof.
  split; intros H; [replace a with (a + k - k) by ring; by apply Zminus_eqm|].
  replace c with (c - k + k) by ring. by apply Zplus_eqm.
Qed.

Lemma mod_eqb_shift w a c k : 0 ≤ a < 2 ^ w → ((a + k) mod 2 ^ w =? c mod 2 ^ w) = (a =? (c - k) mod 2 ^ w).
Proof.
  intros Ha. apply eq_true_iff_eq. rewrite !Z.eqb_eq. rewrite <-(Z.mod_small a (2 ^ w)) at 2 by done.
  change (eqm (2 ^ w) (a + k) c ↔ eqm (2 ^ w) a (c - k)). by apply eqm_shift.
Qed.

Lemma mod_eqb_flip w a c k : 0 ≤ a < 2 ^ w → ((k - a) mod 2 ^ w =? c mod 2 ^ w) = (a =? (k - c) mod 2 ^ w).
Proof.
  intros Ha. apply eq_true_iff_eq. rewrite !Z.eqb_eq. rewrite <-(Z.mod_small a (2 ^ w)) at 2 by done.
  change (eqm (2 ^ w) (k - a) c ↔ eqm (2 ^ w) a (k - c)). split; intros H.
  - replace a with (k - (k - a)) by ring. by apply Zminus_eqm.
  - replace c with (k - (k - c)) by ring. by apply Zminus_eqm.
Qed.

(** The constant of the comparison, as the rule makes it. *)
Lemma cmp_folded_spec σ aop a0 a1 s w c var n x :
  typed r (BinaryOp aop a0 a1 s w false) → bits var = w →
  cmp_folded aop a0 a1 (Z.land c (Z.shiftl 1 w - 1)) (Z.shiftl 1 w - 1) = Some (var, n) →
  denote σ (BinaryOp aop a0 a1 s w false) = Some x →
  typed r var ∧ ∃ y, denote σ var = Some y ∧ (x =? c mod 2 ^ w) = (y =? n mod 2 ^ w).
Proof.
  intros Ht Hb H Ex. unfold cmp_folded in H. typed_parts. rewrite Z.shiftl_1_l, !land_mask in H by lia.
  destruct aop; try discriminate H; destruct (as_const a0) as [k|] eqn:E0, (as_const a1) as [k'|] eqn:E1; try discriminate H.
  all: injection H as -> Hn; rewrite land_mask in Hn by lia;
    match goal with E : as_const _ = Some _ |- _ => apply as_const_Some in E as [w' ->] end;
    cbn [binop_typed] in Ho; denote_parts; typed_parts; split; [done|]; eexists; split; [done|]; ranges r; destruct_and?;
    repeat match goal with E : bits _ = bits _ |- _ => rewrite E in * end; cbn [bits] in *; subst; rewrite Zmod_mod.
  - rewrite Z.add_comm, mod_eqb_shift by done. f_equal. mod_ring.
  - rewrite mod_eqb_shift by done. f_equal. mod_ring.
  - rewrite mod_eqb_flip by done. f_equal. mod_ring.
  - unfold Z.sub at 1. rewrite mod_eqb_shift by done. f_equal. mod_ring.
Qed.

Lemma cmp_operands_cases op0 op1 aop a0 a1 aw c cw :
  cmp_operands op0 op1 = Some (aop, a0, a1, aw, c, cw) →
  ∃ s fp, op0 = BinaryOp aop a0 a1 s aw fp ∧ op1 = Const c cw ∨ op0 = Const c cw ∧ op1 = BinaryOp aop a0 a1 s aw fp.
Proof. intros H. destruct op0; try discriminate H; destruct op1; try discriminate H; cbn in H; simplify_eq; eauto. Qed.

(** An equation is one whichever side the constant is on. *)
Lemma refines_equation op x c w y d w' s fp :
  equation op → typed r y → bits y = w' → bits x = w →
  (∀ σ a, denote σ x = Some a → ∃ b, denote σ y = Some b ∧ (a =? c mod 2 ^ w) = (b =? d mod 2 ^ w')) →
  ∀ e, e = BinaryOp op x (Const c w) s 1 fp ∨ e = BinaryOp op (Const c w) x s 1 fp →
  typed r e → refines r e (BinaryOp op y (Const d w') s 1 fp).
Proof.
  intros Hop Hy <- <- Hv e He Ht. pose proof (equation_comparison _ Hop) as Hc.
  assert (typed r x ∧ fp = false) as [Hx ->] by (destruct He as [-> | ->]; cbn in Ht; tauto).
  pose proof (width_pos _ _ Hx). pose proof (width_pos _ _ Hy).
  split; [cbn; rewrite comparison_typed by done; cbn; repeat split; first [done|lia]|]. split; [by destruct He as [-> | ->]|]. intros σ v E.
  assert (∃ a, denote σ x = Some a ∧ v = flag (if decide (op = CmpEQ) then a =? c mod 2 ^ bits x else negb (a =? c mod 2 ^ bits x)))
    as (a & Ea & ->).
  { destruct He as [-> | ->]; apply denote_comparison in E as (a & b & Ea & Eb & <-); try done; denote_parts; ranges r;
      eexists; (split; [done|]); cbn [bits]; rewrite compare_equation; try done; try (apply mod_pow2_bound; lia).
    by rewrite (Z.eqb_sym b). }
  destruct (Hv _ _ Ea) as (b & Eb & Eq). apply denote_comparison; [done|]. exists b, (d mod 2 ^ bits y). split_and!; [done..|].
  ranges r. rewrite compare_equation; try done; [|apply mod_pow2_bound; lia]. by rewrite Eq.
Qed.

Lemma equation_head e e' (f : binop → expr → expr → bool → Z → bool → option expr) :
  typed r e →
  match e with BinaryOp ((CmpEQ | CmpNE) as op) x y s w fp => f op x y s w fp | _ => None end = Some e' →
  ∃ op x y s, e = BinaryOp op x y s 1 false ∧ equation op ∧ f op x y s 1 false = Some e'.
Proof.
  intros Ht H. destruct e as [| | | | |op x y s w fp| | | | | | | | | |]; try discriminate H.
  destruct op; try discriminate H; typed_parts; do 4 eexists; (split; [done|]); (split; [first [by left|by right]|done]).
Qed.

Lemma CmpSubConst_sound : sound r CmpSubConst.
Proof.
  intros e e' Ht _ H. apply equation_head in H as (op & op0 & op1 & s & -> & Hop & H); [|done].
  destruct (cmp_operands op0 op1) as [[[[[[aop a0] a1] aw] c] cw]|] eqn:E1; [|discriminate H]; cbn in H.
  destruct (cw =? aw) eqn:E2; [|discriminate H]; cbn in H.
  destruct (cmp_folded _ _ _ _ _) as [[var n]|] eqn:E3; [|discriminate H]; cbn in H.
  destruct (bits var =? aw) eqn:E4; [|discriminate H]; cbn in H; injection H as <-; rule_conds; subst cw.
  apply cmp_operands_cases in E1 as (s' & fp' & E1).
  assert (typed r (BinaryOp aop a0 a1 s' aw false) ∧ fp' = false) as [Ha ->] by (destruct E1 as [[-> ->]|[-> ->]]; cbn in *; tauto).
  assert (typed r var) by (unfold cmp_folded in E3; typed_parts; repeat case_match; simplify_eq; done).
  apply (refines_equation _ (BinaryOp aop a0 a1 s' aw false) c aw var n aw); try done;
    first [by intros σ x Ex; eapply cmp_folded_spec|destruct E1 as [[-> ->]|[-> ->]]; eauto].
Qed.

(** *** Moving a shift to the other side of an equality *)

Lemma const_right_cases op0 op1 x c w :
  const_right op0 op1 = (x, Const c w) → op0 = x ∧ op1 = Const c w ∨ op0 = Const c w ∧ op1 = x.
Proof. intros H. destruct op0, op1; cbn in H; simplify_eq; tauto. Qed.

Lemma peel_truncation_cases e x width :
  peel_truncation e = Some (x, width) →
  (width = None ∧ x = e) ∨ ∃ f t k l, width = Some t ∧ e = Convert f t false x k l ∧ t < f.
Proof.
  intros H. destruct e; cbn in H; try (simplify_eq; by left). case_match; [discriminate|]. simplify_eq.
  match goal with H : _ || _ = false |- _ => apply orb_false_elim in H as [-> ?%Z.leb_gt] end. right. by do 4 eexists.
Qed.

Lemma masked_shift x n k c :
  0 ≤ n → 0 ≤ k → 0 ≤ x → (Z.shiftr x n mod 2 ^ k =? c) = (Z.land x (Z.shiftl (2 ^ k - 1) n) =? Z.shiftl c n).
Proof.
  intros Hn Hk Hx.
  assert (Z.land x (Z.shiftl (2 ^ k - 1) n) = Z.shiftl (Z.shiftr x n mod 2 ^ k) n) as ->.
  { rewrite <-land_mask by done. apply Z.bits_inj'. intros i Hi.
    rewrite Z.land_spec, !Z.shiftl_spec by done. destruct (Z.lt_ge_cases i n).
    - rewrite !(Z.testbit_neg_r _ (i - n)) by lia. apply andb_false_r.
    - rewrite Z.land_spec, Z.shiftr_spec by lia. by replace (i - n + n) with i by lia. }
  rewrite !Z.shiftl_mul_pow2 by done. apply eq_true_iff_eq. rewrite !Z.eqb_eq. pose proof (pow2_pos n Hn). nia.
Qed.

Lemma CmpMaskedShift_sound : sound r CmpMaskedShift.
Proof.
  intros e e' Ht _ H. apply equation_head in H as (op & op0 & op1 & s & -> & Hop & H); [|done].
  destruct (const_right op0 op1) as [x []] eqn:E1; try discriminate H. apply const_right_cases in E1.
  destruct (peel_truncation x) as [[y width]|] eqn:E2; [|discriminate H]. apply peel_truncation_cases in E2. cbn in H.
  destruct y as [| | | | |[] y z s0 w0 fp0| | | | | | | | | |]; try discriminate H. destruct z as [n nw| | | | | | | | | | | | | | |]; try discriminate H.
  repeat (case_match; try discriminate H). injection H as <-. rule_conds.
  match goal with H : 0 < default _ width |- _ => rename H into Hk end.
  match goal with H : _ ≤ bits y |- _ => rename H into Hy end.
  match goal with H : Z.shiftr value _ = 0 |- _ => rewrite Z.shiftr_div_pow2 in H by lia; apply Z.div_small_iff in H; rename H into Hv end;
    [|pose proof (pow2_pos (default (bits y - n) width)); lia].
  destruct Hv as [Hv|Hv]; [|lia].
  destruct (typed_comparison _ _ _ _ _ _ _ (equation_comparison _ Hop) Ht) as (H1 & H2 & Hb).
  assert (typed r x ∧ bits0 = bits x) as [Hx ->] by (destruct E1 as [[-> ->]|[-> ->]]; cbn in Hb; by split).
  rename value into c. rewrite Z.shiftl_1_l. set (k := default (bits y - n) width) in *.
  assert (typed r (BinaryOp Shr y (Const n nw) s0 w0 fp0)) as Hs.
  { destruct E2 as [[-> <-]|(f & t & l & l' & -> & -> & Hf)]; [done|]. by destruct Hx as (_ & _ & _ & Hx & _). }
  assert (fp0 = false ∧ w0 = bits y ∧ typed r y ∧ 0 ≤ n < 2 ^ nw) as (-> & -> & Hty & Hn) by (typed_parts; by repeat split).
  assert (k ≤ bits x ∧ ∀ σ a, denote σ x = Some a → ∃ b, denote σ y = Some b ∧ a = Z.shiftr b n mod 2 ^ k) as [Hkx Hd].
  { destruct E2 as [[-> <-]|(f & t & l & l' & -> & -> & Hf)]; cbn in k; subst k; cbn [bits]; (split; [lia|]);
      intros σ a Ea; denote_parts; eexists; (split; [done|]); small_consts; ranges r.
    - symmetry. apply Z.mod_small, shiftr_small; lia.
    - done. }
  apply (refines_equation op x c (bits x)); try done.
  - cbn. repeat split; try done; lia.
  - intros σ a Ea. destruct (Hd σ a Ea) as (b & Eb & ->). exists (Z.land b (Z.shiftl (2 ^ k - 1) n)). ranges r.
    pose proof (pow2_pos k). cbn. rewrite Eb. cbn. rewrite !(Z.mod_small (Z.shiftl _ n)) by (eapply (shiftl_small _ _ k); lia).
    split; [done|]. assert (2 ^ k ≤ 2 ^ bits x) by (apply Z.pow_le_mono_r; lia).
    rewrite (Z.mod_small c) by lia. apply masked_shift; lia.
  - destruct E1 as [[-> ->]|[-> ->]]; eauto.
Qed.

(** *** The sign bit *)

Lemma top_bit_of n x w : 0 < n → 0 ≤ x < 2 ^ w → Z.land (Z.shiftr x n) 1 mod 2 = flag (signed (n + 1) (x mod 2 ^ (n + 1)) <? 0).
Proof.
  intros Hn Hx. rewrite signed_cases by (try lia; apply mod_pow2_bound; lia). replace (n + 1 - 1) with n by lia.
  pose proof (mod_pow2_bound x (n + 1)). rewrite (Z.pow_add_r 2 n 1) in * by lia. change (2 ^ 1) with 2 in *.
  change 1 with (Z.ones 1) at 1. rewrite Z.land_ones by lia. change (2 ^ 1) with 2. rewrite Zmod_mod.
  rewrite Z.shiftr_div_pow2 by lia. pose proof (pow2_pos n). rewrite (Z.rem_mul_r x) in * by lia.
  pose proof (Z.mod_pos_bound x (2 ^ n)). pose proof (Z.mod_pos_bound (x / 2 ^ n) 2).
  set (m := x mod 2 ^ n) in *. assert (x / 2 ^ n mod 2 = 0 ∨ x / 2 ^ n mod 2 = 1) as [E|E] by lia; rewrite E.
  - destruct (Z.ltb_spec (m + 2 ^ n * 0) (2 ^ n)); [|lia]. destruct (Z.ltb_spec (m + 2 ^ n * 0) 0); [lia|done].
  - destruct (Z.ltb_spec (m + 2 ^ n * 1) (2 ^ n)); [lia|]. destruct (Z.ltb_spec (m + 2 ^ n * 1 - 2 ^ n * 2) 0); [done|lia].
Qed.

Lemma real_expr_same x :
  typed r x → typed r (real_expr x) ∧ bits (real_expr x) = bits x ∧ ∀ σ a, denote σ x = Some a → denote σ (real_expr x) = Some a.
Proof.
  intros Hx. assert (typed r x ∧ bits x = bits x ∧ ∀ σ a, denote σ x = Some a → denote σ x = Some a) as Hsame by done.
  destruct x as [| | | | |[] x z s1 w1 fp1| | | | | | | | | |]; try exact Hsame.
  destruct z as [[]| | | | | | | | | | | | | | |]; try exact Hsame. clear Hsame. cbn [real_expr]. typed_parts.
  split; [done|]. split; [done|]. intros σ a Ea. denote_parts. ranges r. by rewrite mod_0_pow, Z.sub_0_r, Z.mod_small.
Qed.

Lemma ConvASub0ShrAnd_sound : sound r ConvASub0ShrAnd.
Proof.
  intros e e' Ht _ H. unfold ConvASub0ShrAnd in H.
  destruct e as [| | | | | |f t s x k l| | | | | | | | |]; try discriminate H. destruct t as [|[]|]; try discriminate H.
  destruct x as [| | | | |[] x y s0 w fp| | | | | | | | | |]; try discriminate H.
  destruct x as [| | | | |[] x z s1 w1 fp1| | | | | | | | | |]; try discriminate H.
  destruct z as [n nw| | | | | | | | | | | | | | |]; try discriminate H.
  destruct y as [[|[]|]| | | | | | | | | | | | | | |]; try discriminate H.
  destruct (bool_decide _) eqn:En; [|discriminate H]. injection H as <-.
  assert (0 < n) by (rule_conds; repeat (apply elem_of_cons in En as [->|En]; [lia|]); by apply elem_of_nil in En).
  typed_parts. destruct (real_expr_same x) as (Hy' & Hb & Hd); [done|]. refining.
  denote_parts. match goal with E : denote σ x = Some ?a |- _ => rename a into b; pose proof (Hd σ b E) end.
  denote_goal. ranges r. small_consts. f_equal. unfold compare, in_order. cbn [compares_signed].
  rewrite convert_low, mod_1_pow by lia. change (2 ^ 1) with 2. rewrite (top_bit_of n b (bits (real_expr x))) by done.
  by rewrite mod_0_pow, (signed_id (n + 1) 0) by (pose proof (pow2_pos (n + 1 - 1)); lia).
Qed.

(** *** [CmpORD] *)

Definition ord_value (s : bool) (n a b : Z) : Z :=
  if compare CmpLT s n a b =? 1 then 8 else if compare CmpGT s n a b =? 1 then 4 else 2.

Lemma ord_test_spec e x y s v :
  typed r e → ord_test e = Some (x, y, s, v) → v = 2 ∨ v = 8 →
  typed r x ∧ typed r y ∧ bits x = bits y ∧ 4 ≤ bits e ∧
  ∀ σ c, denote σ e = Some c → ∃ a b, denote σ x = Some a ∧ denote σ y = Some b ∧ c = Z.land (ord_value s (bits x) a b) v.
Proof.
  intros Ht H Hv. unfold ord_test in H. destruct e as [| | | | |[] e1 e2 s0 w fp| | | | | | | | | |]; try discriminate H.
  destruct e1 as [| | | | |[] e1 e3 s1 w1 fp1| | | | | | | | | |]; try discriminate H.
  destruct e2; try discriminate H. simplify_eq. typed_parts. split_and!; try done. intros σ c Ec. denote_parts.
  eexists _, _. split_and!; try done. unfold ord_value. f_equal. apply Z.mod_small.
  assert (2 ^ 4 ≤ 2 ^ w) by (apply Z.pow_le_mono_r; lia). lia.
Qed.

Lemma ord_bit s n a b v :
  v = 2 ∨ v = 8 → 0 < n → 0 ≤ a < 2 ^ n → 0 ≤ b < 2 ^ n →
  Z.land (ord_value s n a b) v = if compare (if v =? 2 then CmpEQ else CmpLT) s n a b =? 1 then v else 0.
Proof.
  intros Hv Hn Ha Hb. unfold ord_value.
  assert (compare CmpEQ s n a b =
    if compare CmpLT s n a b =? 1 then 0 else if compare CmpGT s n a b =? 1 then 0 else 1) as E.
  { unfold compare, in_order. destruct (compares_signed _ s) eqn:Es; cbn in Es; subst s; cbn [compares_signed].
    - destruct (Z.ltb_spec (signed n a) (signed n b)), (Z.ltb_spec (signed n b) (signed n a)), (Z.eqb_spec (signed n a) (signed n b));
        cbn; lia.
    - destruct (Z.ltb_spec a b), (Z.ltb_spec b a), (Z.eqb_spec a b); cbn; lia. }
  destruct Hv as [-> | ->]; [change (2 =? 2) with true|change (8 =? 2) with false]; cbn match; rewrite ?E;
    by destruct (compare CmpLT s n a b =? 1), (compare CmpGT s n a b =? 1).
Qed.

Lemma ord_xor_spec e x y s v f :
  typed r e → ord_xor e = Some (x, y, s, v, f) → v = 2 ∨ v = 8 →
  typed r x ∧ typed r y ∧ bits x = bits y ∧ 4 ≤ bits e ∧
  ∀ σ c, denote σ e = Some c → ∃ a b, denote σ x = Some a ∧ denote σ y = Some b ∧
    c = if xorb f (compare (if v =? 2 then CmpEQ else CmpLT) s (bits x) a b =? 1) then v else 0.
Proof.
  intros Ht H Hv.
  assert (f = false ∧ ord_test e = Some (x, y, s, v) ∨
    f = true ∧ ∃ e1 n s0 w fp, e = BinaryOp Xor e1 (Const v n) s0 w fp ∧ ord_test e1 = Some (x, y, s, v)) as [[-> E]|(-> & e1 & n & s0 & w & fp & -> & E)].
  { destruct e as [| | | | |op e1 e2 s0 w fp| | | | | | | | | |]; try discriminate H. destruct op; try discriminate H; cbn [ord_xor] in H.
    - left. destruct (ord_test _) as [[[[x' y'] s'] v']|]; [|discriminate H]. by simplify_eq/=.
    - right. destruct e2; try discriminate H. destruct (ord_test e1) as [[[[x' y'] s'] v']|] eqn:E; [|discriminate H]. cbn in H.
      case_match; [|discriminate H]. rule_conds. simplify_eq. split; [done|]. by do 5 eexists. }
  - destruct (ord_test_spec _ _ _ _ _ Ht E Hv) as (Hx & Hy & Hb & Hw & Hd). split_and!; try done.
    intros σ c Ec. destruct (Hd _ _ Ec) as (a & b & Ea & Eb & ->). exists a, b. split_and!; try done. ranges r.
    rewrite ord_bit; first [done|congruence].
  - typed_parts. destruct (ord_test_spec _ _ _ _ _ Hx E Hv) as (Hx' & Hy' & Hb & Hw' & Hd). split_and!; try done.
    intros σ c Ec. denote_parts. destruct (Hd _ _ E0) as (a' & b & Ea & Eb & ->). exists a', b. split_and!; try done. ranges r.
    assert (2 ^ 4 ≤ 2 ^ bits e1) by (apply Z.pow_le_mono_r; lia). rewrite (Z.mod_small v) by lia.
    rewrite ord_bit; [|first [done|congruence]..]. case_match; by destruct Hv as [-> | ->].
Qed.

Definition tests_bit (v : Z) (e : expr) : Prop :=
  match e with BinaryOp _ lhs _ _ _ _ => ∃ x y s f, ord_xor lhs = Some (x, y, s, v, f) | _ => False end.

Lemma CmpORDRewriter_sound v : v = 2 ∨ v = 8 → sound_on r (tests_bit v) CmpORDRewriter.
Proof.
  intros Hv e e' Ht Hc H.
  destruct e as [| | | | |op lhs rhs s w fp| | | | | | | | | |]; try discriminate H. destruct Hc as (x & y & s' & f & E).
  assert (equation op ∧ ∃ n, rhs = Const 0 n) as [Hop [n ->]]
    by (destruct op; try discriminate H; (split; [first [by left|by right]|]); destruct rhs as [[]| | | | | | | | | | | | | | |]; try discriminate H; eauto).
  destruct (typed_comparison _ _ _ _ _ _ _ (equation_comparison _ Hop) Ht) as (Hl & _ & Hn). cbn in Hn. subst n.
  assert (w = 1 ∧ fp = false) as [-> ->] by (destruct Ht as (_ & -> & _ & _ & Ho); by apply comparison_typed in Ho as [_ ->]; [|apply equation_comparison]).
  destruct (ord_xor_spec _ _ _ _ _ _ Hl E Hv) as (Hx & Hy & Hxy & Hw & Hd). pose proof (width_pos _ _ Hx).
  set (cmp := if v =? 2 then CmpEQ else CmpLT) in *.
  assert (∃ cmp', e' = mkBinary (if xorb (bool_decide (op = CmpEQ)) f then cmp' else cmp) x y s' ∧ COMPARISON_NEGATION cmp = Some cmp') as (cmp' & -> & En).
  { subst cmp. destruct Hop as [-> | ->]; cbn in H; rewrite E in H; destruct Hv as [-> | ->]; cbn in H; simplify_eq; eauto. }
  assert (comparison cmp ∧ comparison cmp') as [Hcmp Hcmp'] by exact (negation_comparison _ _ En).
  assert (∀ o : binop, comparison o → _binop_bits_for o x y = 1) as H1 by (by intros []).
  set (o := if xorb _ f then cmp' else cmp). assert (comparison o) as Ho by (subst o; by case_match).
  unfold mkBinary. rewrite H1 by done. split; [cbn; rewrite comparison_typed by done; by repeat split|]. split; [done|].
  intros σ u Eu. apply denote_comparison in Eu as (c & z & Ec & Ez & <-); [|by apply equation_comparison].
  cbn in Ez. rewrite mod_0_pow in Ez. simplify_eq. destruct (Hd _ _ Ec) as (a & b & Ea & Eb & Eq).
  apply denote_comparison; [done|]. exists a, b. split_and!; try done. ranges r.
  rewrite (compare_equation op) by (try done; lia). subst o.
  pose proof (compare_bound cmp s' (bits x) a b) as Hbit.
  assert (compare cmp s' (bits x) a b = 0 ∨ compare cmp s' (bits x) a b = 1) as [E1|E1] by lia; rewrite E1 in Eq; subst c;
    destruct Hop as [-> | ->], f; cbn; rewrite ?(compare_negation _ _ _ _ _ _ En), ?E1; by destruct Hv as [-> | ->].
Qed.

(** The bit for "greater" becomes "greater or equal". *)
Lemma CmpORDRewriter_miscompiles : miscompiles r CmpORDRewriter.
Proof.
  counterexample (BinaryOp CmpNE (BinaryOp And (BinaryOp CmpORD (Register 0 32) (Const 0 32) false 32 false) (Const 4 32) false 32 false)
    (Const 0 32) false 1 false) 0.
Qed.

(** The other branch may have the same value. *)
Lemma RemoveRedundantITEComparisons_miscompiles : miscompiles r RemoveRedundantITEComparisons.
Proof.
  counterexample (BinaryOp CmpEQ (ITE (Register 0 1) (Const 0 32) (Register 4 32)) (Const 0 32) false 1 false) 0.
Qed.

(** It is sound for two constants that differ. *)
Definition distinct_branches (e : expr) : Prop :=
  plain e ∧
  match e with
  | BinaryOp _ x _ _ _ _ => match fst (under_not x) with ITE _ (Const a _) (Const b _) => a ≠ b | _ => False end
  | _ => False
  end.

Lemma RemoveRedundantITEComparisons_sound : sound_on r distinct_branches RemoveRedundantITEComparisons.
Proof.
  intros e e' Ht [Hp Hd] H.
  destruct e as [| | | | |op x y s w fp| | | | | | | | | |]; try discriminate H.
  destruct (under_not x) as [inner negate] eqn:E. cbn in Hd.
  destruct inner as [| | | | | | | |c [a wa| | | | | | | | | | | | | | |] [b wb| | | | | | | | | | | | | | |]| | | | | | |]; try done.
  assert (x = ITE c (Const a wa) (Const b wb) ∧ negate = false ∨ ∃ w', x = UnaryOp Not (ITE c (Const a wa) (Const b wb)) w' ∧ negate = true) as Hx.
  { destruct x as [| | | |[]| | | | | | | | | | |]; cbn in E; simplify_eq; eauto. }
  assert (equation op ∧ ∃ v wv, y = Const v wv) as [Hop (v & wv & ->)].
  { destruct op; try discriminate H; cbn in H; rewrite E in H; destruct y; try discriminate H; (split; [first [by left|by right]|eauto]). }
  clear E. destruct Hop as [-> | ->], Hx as [[-> ->]|(w' & -> & ->)]; cbn in H;
    (destruct (Z.eqb_spec a v) as [<-|Hav]; [|destruct (Z.eqb_spec b v) as [<-|Hbv]; [|discriminate H]]); injection H as <-.
  all: plain_parts Hp; typed_parts; refining; denote_parts; ranges r.
  all: truth_values.
  all: match goal with E : (if _ then _ else _) = Some _ |- _ => cbn in E end; denote_parts; small_consts; denote_goal; truth_values.
  all: rewrite ?Z.eqb_refl; try (rewrite (proj2 (Z.eqb_neq _ _)) by congruence); try done.
  all: match goal with Hd : ?a ≠ ?b, Ha : 0 ≤ ?a, Ha' : ?a < 2 ^ 1, Hb : 0 ≤ ?b, Hb' : ?b < 2 ^ 1 |- _ =>
    change (2 ^ 1) with 2 in *; assert (a = 0 ∧ b = 1 ∨ a = 1 ∧ b = 0) as [[-> ->]|[-> ->]] by lia; done end.
Qed.

End soundness.

End PeepBool.
