(* ===== verification/PeepConv.v ===== *)
(** * Peephole rules on conversions, masks and parts

    The rules that remove or move conversions between widths, masks that keep
    what there is, and the insertion, extraction and concatenation of parts. *)

From Stdlib Require Import ZArith Lia Bool String.
From stdpp Require Import base tactics list numbers strings option.
From S2P Require Import Prelude Bitfields Ail AilFacts.
Import Bitfields Ail AilFacts.

Module PeepConv.

Definition is_int (k l : ConvertType) : bool := bool_decide (k = TYPE_INT) && bool_decide (l = TYPE_INT).

(** ** Conversions *)

Definition mask_of (w : Z) : Z := Z.shiftl 1 w - 1.

(** Two conversions, and the conversion of a mask. *)
Definition RemoveCascadingConversions (e : expr) : option expr :=
  match e with
  | Convert f t s x k l =>
      let of_mask := match x with
        | BinaryOp And and0 (Const m _) _ _ _ =>
            match and0 with Const _ _ => None | _ => if m =? mask_of t then Some (mkConvert f t s and0) else None end
        | _ => None
        end in
      match x with
      | Convert f' t' s' x' k' l' =>
          if is_int k l && is_int k' l' then
            if f' =? t then
              if f' <? t' then Some x'
              else if s then None
              else Some (mkBinary And x' (Const (mask_of t') (bits x')) false)
            else if ((t <=? t') || (f' <=? t')) && ((t <? t') || eqb s s') then Some (mkConvert f' t s' x')
            else of_mask
          else of_mask
      | _ => of_mask
      end
  | _ => None
  end.

(** The operand, the signedness, and whether the conversion is one of integers. *)
Definition conversion (e : expr) : option (expr * bool * bool) :=
  match e with
  | Convert _ _ s x k l => Some (x, s, is_int k l)
  | Extract _ x _ _ => Some (x, false, true)
  | _ => None
  end.

Definition RemoveNoopConversions (e : expr) : option expr :=
  '(inner, s, ints) ← conversion e;
  if (bits inner =? bits e) && ints then Some inner else
  match inner with
  | Convert f' t' _ x k l =>
      if (bits e <? bits inner) && (bits e =? bits x) && ints && is_int k l then Some x
      else if (bits e <? f') && (f' <=? t') && ints && is_int k l then Some (mkConvert f' (bits e) s x)
      else None
  | _ => None
  end.

Definition EvaluateConstConversions (e : expr) : option expr :=
  '(inner, s, ints) ← conversion e;
  match inner with
  | Const v _ =>
      if negb ints then None else
      let value := Z.land v (mask_of (bits e)) in
      let value := if s && (Z.shiftl 1 (bits e - 1) <=? value) then value - Z.shiftl 1 (bits e) else value in
      Some (Const value (bits e))
  | _ => None
  end.

Definition _MASK_TO_BITS (mask : Z) : option Z :=
  if mask =? 0xFF then Some 8 else if mask =? 0xFFFF then Some 16 else if mask =? 0xFFFFFFFF then Some 32 else None.

(** [extended byte & 0xff..ff => extended byte] *)
Definition ExtendedByteAndMask (e : expr) : option expr :=
  match e with
  | BinaryOp And x (Const mask _) _ w _ =>
      to_bits ← _MASK_TO_BITS mask;
      match x with
      | Convert f _ s atom _ _ => if f <=? to_bits then Some (mkConvert f w s atom) else None
      | BinaryOp ((Shl | Shr | Sar) as op) (Convert f _ s atom _ _) y s' _ _ =>
          if f <=? to_bits then Some (mkConvert f w s (mkBinary op atom y s')) else None
      | _ => None
      end
  | _ => None
  end.

(** ** Conversions around operations *)

Definition comparison_op (op : binop) : bool :=
  match op with CmpEQ | CmpNE | CmpGT | CmpGE | CmpGTs | CmpGEs | CmpLT | CmpLE | CmpLTs | CmpLEs => true | _ => false end.

(** A widened operand and a constant. *)
Definition widened_operand (op : binop) (x y : expr) (s : bool) : option expr :=
  match x, y with
  | Convert f t cs x' _ _, Const c _ =>
      if negb (f <? t) then None else
      let fits := (0 <=? c) && (c <=? Z.shiftl 1 f - 1) in
      let high := Z.shiftl 1 t - Z.shiftl 1 (f - 1) <=? c in
      match op with
      | And => if fits || high then Some (mkConvert f t cs (BinaryOp And x' (Const c f) s f false)) else None
      | Add | Sub => Some (mkConvert f t cs (BinaryOp op x' (Const c f) s (bits x') false))
      | _ => if comparison_op op && (fits || cs && high) then Some (BinaryOp op x' (Const c f) s 1 false) else None
      end
  | _, _ => None
  end.

(** [(Conv(expr) >> A) & B == C => (expr >> A) & B == C]; the code takes any
    operation for the masking, and shifts to either side. *)
Definition compared_shift (op : binop) (x y : expr) (s : bool) : option expr :=
  match x, y with
  | BinaryOp op0 (BinaryOp ((Shr | Sar | Shl) as shift) (Convert f _ _ z _ _) (Const a _) s1 _ _) (Const b _) s0 _ _, Const c _ =>
      if comparison_op op && (0 <? a) && (a <? f) then
        let r0 := BinaryOp shift z (Const a f) s1 f false in
        let r1 := BinaryOp op0 r0 (Const b f) s0 f false in
        Some (BinaryOp op r1 (Const c f) s 1 false)
      else None
  | _, _ => None
  end.

(** [(A & mask) & mask => A & mask] *)
Definition masked_twice (op : binop) (x y : expr) : option expr :=
  match op, x, y with
  | And, BinaryOp And x0 x1 _ _ _, Const mask _ =>
      let is_mask z := match z with Const v _ => v =? mask | _ => false end in
      if is_mask x0 || is_mask x1 then Some x else None
  | _, _, _ => None
  end.

Definition or_else {A} (m : option A) (n : option A) : option A := match m with Some _ => m | None => n end.

Definition is_lsb_extract (e : expr) : bool :=
  match e with
  | Extract w x (Const o _) n => if (n =? "Iend_LE")%string then o =? 0 else o * 8 + w =? bits x
  | _ => false
  end.

Definition is_lsb_overwrite (e : expr) : bool :=
  match e with
  | Insert x (Const o _) v n => if (n =? "Iend_LE")%string then o =? 0 else o * 8 + bits v =? bits x
  | _ => false
  end.

(** The truncation of an operation on widened operands, of a combination with a
    high part, of an operation on low bits, and of a shift of a widened operand. *)
Definition narrow_operands (f t : Z) (s : bool) (op : binop) (x y : expr) : option expr :=
  match op, x, y with
  | (Mul | Shl | Div | DivMod | Mod | Add | Sub), Convert f0 t0 _ x' _ _, Convert f1 t1 _ y' _ _ =>
      if (f0 =? f1) && (t0 =? t1) && (f =? t0) && (t =? f1) then Some (mkBinary op x' y' s) else None
  | _, _, _ => None
  end.

Definition has_mask (m : Z) (e : expr) : bool :=
  match e with BinaryOp And _ (Const v _) _ _ _ => v =? m | _ => false end.

Definition drop_high (f t : Z) (s : bool) (op : binop) (x y : expr) : option expr :=
  match op with
  | Or =>
      let high_mask := mask_of f - mask_of t in
      if negb (t <? f) then None
      else if has_mask high_mask x then Some (mkConvert f t s y)
      else if has_mask high_mask y then Some (mkConvert f t s x)
      else None
  | _ => None
  end.

Definition truncate_operands (f t : Z) (s : bool) (op : binop) (x y : expr) (s' : bool) : option expr :=
  if negb (t <? f) then None else
  match op, x with
  | (Add | And | Xor | Or | Mul), _ => Some (BinaryOp op (mkConvert f t false x) (mkConvert f t false y) s' t false)
  | (Shr | Sar), Convert f0 t0 _ x' _ _ =>
      if (f0 <? t0) && (t0 =? f) then Some (mkConvert f0 t s (BinaryOp op x' y s' f0 false)) else None
  | _, _ => None
  end.

Section project.
(** Whether the rules are used within a project. *)
Context (project : bool).

Definition RemoveRedundantConversions (e : expr) : option expr :=
  match e with
  | BinaryOp op x y s _ _ => or_else (widened_operand op x y s) (or_else (compared_shift op x y s) (masked_twice op x y))
  | Convert f t s x k l =>
      match x with
      | Insert _ _ v _ =>
          if is_int k l && project && is_lsb_overwrite x && (t <=? bits v)
          then Some (if t =? bits v then v else mkConvert (bits v) t s v)
          else None
      | BinaryOp op y z s' _ _ =>
          or_else (narrow_operands f t s op y z) (or_else (drop_high f t s op y z)
            (if is_int k l then truncate_operands f t s op y z s' else None))
      | _ => None
      end
  | _ => None
  end.
End project.

(** ** Soundness *)

Section soundness.
Context (r : string → Z).

Lemma is_int_true k l : is_int k l = true ↔ k = TYPE_INT ∧ l = TYPE_INT.
Proof. unfold is_int. by rewrite andb_true_iff, !bool_decide_eq_true. Qed.

(** Converting twice. *)
Lemma convert_twice f m t (s s' : bool) a :
  0 < f → 0 < m → 0 < t → t ≤ m ∨ f ≤ m → t < m ∨ s = s' → 0 ≤ a < 2 ^ f →
  (if s then signed m ((if s' then signed f a else a) mod 2 ^ m) else (if s' then signed f a else a) mod 2 ^ m) mod 2 ^ t =
  (if s' then signed f a else a) mod 2 ^ t.
Proof.
  intros Hf Hm Ht H1 H2 Ha. destruct (Z.le_gt_cases t m) as [Hle|Hgt].
  - rewrite convert_low by lia. by rewrite mod_low by lia.
  - assert (f ≤ m) by lia. destruct H2 as [| ->]; [lia|]. f_equal.
    assert (2 ^ f ≤ 2 ^ m) by (apply Z.pow_le_mono_r; lia). destruct s'; [|apply Z.mod_small; lia].
    pose proof (signed_bounds f a ltac:(lia)). assert (2 ^ (f - 1) ≤ 2 ^ (m - 1)) by (apply Z.pow_le_mono_r; lia).
    rewrite (signed_ext m (signed f a mod 2 ^ m) (signed f a)), signed_id; try lia. apply Zmod_mod.
Qed.

Lemma convert_refines f m t s s' x :
  typed r (Convert m t s (Convert f m s' x TYPE_INT TYPE_INT) TYPE_INT TYPE_INT) →
  t ≤ m ∨ f ≤ m → t < m ∨ s = s' →
  refines r (Convert m t s (Convert f m s' x TYPE_INT TYPE_INT) TYPE_INT TYPE_INT) (mkConvert f t s' x).
Proof.
  intros Ht H1 H2. typed_parts. refining. denote_parts. denote_goal. ranges r. f_equal. rewrite convert_twice; done.
Qed.

(** Widening and narrowing back. *)
Lemma convert_back f m s s' x :
  typed r (Convert m f s (Convert f m s' x TYPE_INT TYPE_INT) TYPE_INT TYPE_INT) → f ≤ m →
  refines r (Convert m f s (Convert f m s' x TYPE_INT TYPE_INT) TYPE_INT TYPE_INT) x.
Proof.
  intros Ht H. typed_parts. refining. denote_parts. denote_goal. ranges r. f_equal.
  rewrite convert_low, mod_low, convert_low by lia. by rewrite Z.mod_small.
Qed.

Lemma RemoveCascadingConversions_sound : sound r RemoveCascadingConversions.
Proof.
  intros e e' Ht _ H. unfold RemoveCascadingConversions in H.
  destruct e as [| | | | | |f t s x k l| | | | | | | | |]; try discriminate H.
  destruct x as [| | | | |op x y s' w fp|f' t' s' x k' l'| | | | | | | | |]; try discriminate H.
  - destruct op; try discriminate H. destruct y as [m wm| | | | | | | | | | | | | | |]; try discriminate H.
    assert (m = mask_of t ∧ e' = mkConvert f t s x) as [-> ->] by (destruct x; try discriminate H; case_match; try discriminate H; rule_conds; by simplify_eq).
    typed_parts. refining. denote_parts. denote_goal. ranges r. f_equal. unfold mask_of. rewrite Z.shiftl_1_l.
    destruct (Z.le_gt_cases t (bits x)).
    + by rewrite !convert_low, ones_small, land_mask, Zmod_mod by lia.
    + by rewrite ones_large, land_mask_all by lia.
  - destruct (is_int k l && is_int k' l') eqn:Ei; [|discriminate H]. rewrite andb_true_iff, !is_int_true in Ei.
    destruct Ei as [[-> ->] [-> ->]]. assert (t' = f) as -> by (by destruct Ht as (_ & _ & _ & _ & Ho)). repeat (case_match; try discriminate H); injection H as <-; rule_conds; subst.
    + apply convert_back; [done|lia].
    + typed_parts. refining. denote_parts. denote_goal. ranges r. f_equal. unfold mask_of. rewrite Z.shiftl_1_l.
      rewrite ones_small, land_mask by lia. by rewrite convert_low, mod_high by lia.
    + match goal with H : _ || _ = true, H' : _ || _ = true |- _ => rename H into E1, H' into E2 end.
      apply convert_refines; [done|lia|]. apply orb_prop in E1 as [?|?], E2 as [?|?]; rule_conds; first [by left|by right|lia].
Qed.

(** The rules treat an extraction as a truncation: they do not look at its offset. *)
Definition from_low (e : expr) : Prop :=
  match e with Extract _ _ o _ => ∃ n, o = Const 0 n | _ => True end.

Lemma conversion_spec e x s :
  typed r e → from_low e → conversion e = Some (x, s, true) →
  typed r x ∧ (bits e ≤ bits x ∨ e = Convert (bits x) (bits e) s x TYPE_INT TYPE_INT) ∧
  ∀ σ v, denote σ e = Some v → ∃ a, denote σ x = Some a ∧ v = (if s then signed (bits x) a else a) mod 2 ^ bits e.
Proof.
  intros Ht Hl H. destruct e; try discriminate H; cbn in H; simplify_eq.
  - typed_parts. split_and!; [done|by right|]. intros σ v E. denote_parts. eauto.
  - destruct Hl as [n ->]. typed_parts. match goal with H : part _ _ _ _ |- _ => destruct H as (-> & k & m & [= <- <-] & Hk & Hp) end.
    split_and!; [done|left; lia|]. intros σ v E. denote_parts. eexists. split; [done|].
    rewrite mod_0_pow, field_div_mod by lia. by rewrite Z.mul_0_r, Z.pow_0_r, Z.div_1_r.
Qed.

Lemma RemoveNoopConversions_sound : sound_on r from_low RemoveNoopConversions.
Proof.
  intros e e' Ht Hl H. unfold RemoveNoopConversions in H.
  destruct (conversion e) as [[[x s] [|]]|] eqn:E; try discriminate H; cbn in H; [|rewrite !andb_false_r in H; exfalso; destruct x; try discriminate H; by rewrite !andb_false_r in H].
  destruct (conversion_spec _ _ _ Ht Hl E) as (Hx & He & Hd). rewrite andb_true_r in H.
  destruct (bits x =? bits e) eqn:Eb; rule_conds.
  { injection H as <-. split; [done|]. split; [done|]. intros σ v Ev. destruct (Hd _ _ Ev) as (a & Ea & ->). ranges r.
    rewrite Ea, <-Eb, convert_low, Z.mod_small by lia. done. }
  destruct x as [| | | | | |f' t' s' y k l| | | | | | | | |]; try discriminate H. cbn [bits] in *.
  pose proof (width_pos _ _ Ht). typed_parts. ifs H; injection H as <-.
  - split; [done|]. split; [done|]. intros σ v Ev. destruct (Hd _ _ Ev) as (a & Ea & ->). denote_parts. denote_goal. ranges r. f_equal.
    rewrite convert_low, mod_low, convert_low by lia. symmetry. apply Z.mod_small. congruence.
  - refining. match goal with Ev : denote _ e = Some _ |- _ => destruct (Hd _ _ Ev) as (a & Ea & ->) end.
    denote_parts. denote_goal. f_equal. by rewrite !convert_low, mod_low, convert_low by lia.
Qed.

Lemma RemoveNoopConversions_miscompiles : miscompiles r RemoveNoopConversions.
Proof.
  counterexample (Extract 8 (Convert 8 16 false (Register 0 8) TYPE_INT TYPE_INT) (Const 1 64) "Iend_LE"%string) 1.
Qed.

Lemma EvaluateConstConversions_sound :
  sound_on r (λ e, plain e ∧ from_low e) EvaluateConstConversions.
Proof.
  intros e e' Ht [Hp Hl] H. unfold EvaluateConstConversions in H.
  destruct (conversion e) as [[[x s] b]|] eqn:E; try discriminate H; cbn in H.
  destruct x as [v w| | | | | | | | | | | | | | |]; try discriminate H. destruct b; [|discriminate H]. cbn in H.
  destruct (conversion_spec _ _ _ Ht Hl E) as (Hx & He & Hd).
  assert (s = false ∧ 0 ≤ v < 2 ^ w) as [-> Hv] by (destruct Hp as [Hr Hu]; destruct e; try discriminate E; cbn in E; simplify_eq; cbn in Hr, Hu; rule_conds; by split).
  cbn in H. injection H as <-. pose proof (width_pos _ _ Ht). refining. 
  match goal with Ev : denote _ e = Some _ |- _ => destruct (Hd _ _ Ev) as (a & Ea & ->) end. denote_parts. denote_goal.
  unfold mask_of. rewrite Z.shiftl_1_l, land_mask by lia. small_consts. by rewrite Zmod_mod.
Qed.

(** A signed extension of a constant with its top bit set. *)
Lemma EvaluateConstConversions_miscompiles : miscompiles r EvaluateConstConversions.
Proof. counterexample (Convert 8 32 true (Const 0xFF 8) TYPE_INT TYPE_INT) 0. Qed.

Lemma ExtendedByteAndMask_miscompiles : miscompiles r ExtendedByteAndMask.
Proof.
  counterexample (BinaryOp And (Convert 8 32 true (Register 0 8) TYPE_INT TYPE_INT) (Const 0xFF 32) false 32 false) 0x80.
Qed.

(** Without left shifts, arithmetic shifts and shifts of a truncation. *)
Definition shifts_extension (e : expr) : Prop :=
  match e with
  | BinaryOp _ (BinaryOp Shr (Convert f t _ _ _ _) _ _ _ _) _ _ _ _ => f ≤ t
  | BinaryOp _ (BinaryOp (Shl | Sar) _ _ _ _ _) _ _ _ _ => False
  | _ => True
  end.

Lemma _MASK_TO_BITS_spec m k : _MASK_TO_BITS m = Some k → m = 2 ^ k - 1 ∧ 0 < k.
Proof. unfold _MASK_TO_BITS. intros H. ifs H; by simplify_eq. Qed.

Lemma ExtendedByteAndMask_sound : sound_on r (λ e, plain e ∧ shifts_extension e) ExtendedByteAndMask.
Proof.
  intros e e' Ht [Hp Hn] H. unfold ExtendedByteAndMask in H.
  destruct e as [| | | | |[] x y s w fp| | | | | | | | | |]; try discriminate H.
  destruct y as [mask n| | | | | | | | | | | | | | |]; try discriminate H.
  destruct (_MASK_TO_BITS mask) as [k|] eqn:E; [|discriminate H]. apply _MASK_TO_BITS_spec in E as [-> Hk]. cbn in H.
  destruct x as [| | | | |op x y s' w' fp'|f t b atom l l'| | | | | | | | |]; try discriminate H.
  - destruct op; try discriminate H; try done. destruct x as [| | | | | |f t b atom l l'| | | | | | | | |]; try discriminate H.
    cbn in Hn, H. ifs H. injection H as <-. plain_parts Hp. typed_parts. ranges r. refining. denote_parts. denote_goal. ranges r. f_equal.
    match goal with B : 0 ≤ ?a < 2 ^ bits atom |- _ => assert (2 ^ bits atom ≤ 2 ^ w) by (apply Z.pow_le_mono_r; lia);
      rewrite (Z.mod_small a (2 ^ w)) by lia end.
    rewrite (land_mask_over _ (bits atom)) by (first [lia|apply shiftr_bound; lia]).
    apply Z.mod_small. match goal with |- 0 ≤ Z.shiftr ?a ?b < _ => pose proof (shiftr_bound a b (bits atom)) end. lia.
  - ifs H. injection H as <-. plain_parts Hp. typed_parts. refining. denote_parts. denote_goal. ranges r. f_equal.
    destruct (Z.le_gt_cases (bits atom) w).
    + match goal with B : 0 ≤ ?a < 2 ^ bits atom |- _ => assert (2 ^ bits atom ≤ 2 ^ w) by (apply Z.pow_le_mono_r; lia);
        rewrite (Z.mod_small a (2 ^ w)) by lia end. by rewrite (land_mask_over _ (bits atom)) by lia.
    + rewrite (land_mask_over _ w) by (first [lia|apply mod_pow2_bound; lia]). done.
Qed.

(** *** Conversions around operations *)

Lemma land_low a c f : 0 ≤ f → 0 ≤ a < 2 ^ f → Z.land a c = Z.land a (c mod 2 ^ f).
Proof.
  intros Hf Ha. apply Z.bits_inj'. intros i Hi. rewrite !Z.land_spec, testbit_mod_pow2 by done.
  destruct (Z.ltb_spec i f); [done|]. by rewrite (testbit_high a f) by lia.
Qed.

Lemma land_mod_high a c t w : 0 ≤ t ≤ w → 0 ≤ a < 2 ^ t → Z.land a (c mod 2 ^ w) = Z.land a (c mod 2 ^ t).
Proof. intros Ht Ha. rewrite (land_low a _ t) by lia. by rewrite mod_low by lia. Qed.

Lemma widen_small (f t a : Z) : 0 ≤ f ≤ t → 0 ≤ a < 2 ^ f → a mod 2 ^ t = a.
Proof. intros H Ha. assert (2 ^ f ≤ 2 ^ t) by (apply Z.pow_le_mono_r; lia). apply Z.mod_small. lia. Qed.

Lemma widened_mask_sound f t x c n s w e' :
  typed r (BinaryOp And (Convert f t false x TYPE_INT TYPE_INT) (Const c n) s w false) → 
  widened_operand And (Convert f t false x TYPE_INT TYPE_INT) (Const c n) s = Some e' →
  refines r (BinaryOp And (Convert f t false x TYPE_INT TYPE_INT) (Const c n) s w false) e'.
Proof.
  intros Ht H. cbn in H. ifs H. injection H as <-. typed_parts. ranges r. refining. denote_parts. denote_goal. ranges r. f_equal.
  match goal with B : 0 ≤ ?a < 2 ^ bits x |- _ => rewrite (widen_small (bits x) w a) by lia end. rewrite (land_mod_high _ c (bits x) w) by lia.
  apply (widen_small (bits x)); [lia|]. apply land_bound; first [lia|apply mod_pow2_bound; lia].
Qed.

Lemma widened_compare_sound op f t x c n w e' :
  comparison_op op = true → compares_signed op false = false → 0 ≤ c →
  typed r (BinaryOp op (Convert f t false x TYPE_INT TYPE_INT) (Const c n) false w false) →
  widened_operand op (Convert f t false x TYPE_INT TYPE_INT) (Const c n) false = Some e' →
  refines r (BinaryOp op (Convert f t false x TYPE_INT TYPE_INT) (Const c n) false w false) e'.
Proof.
  intros Hop Hu Hc Ht H. assert (comparison op) as Ho by (destruct op; done).
  unfold widened_operand in H. rewrite Hop in H. rewrite !andb_false_l, orb_false_r in H. cbn [andb] in H.
  assert ((if negb (f <? t) then None else if (0 <=? c) && (c <=? Z.shiftl 1 f - 1) then Some (BinaryOp op x (Const c f) false 1 false) else None) = Some e') as H'
    by (destruct op; done). clear H. ifs H'. injection H' as <-.
  destruct (typed_comparison _ _ _ _ _ _ _ Ho Ht) as (Hx & Hn & Hb). cbn in Hb. subst n.
  assert (w = 1) as -> by (destruct Ht as (_ & _ & _ & _ & Hw); by apply comparison_typed in Hw as [_ ->]).
  typed_parts. ranges r. split; [cbn; rewrite comparison_typed by done; repeat split; try done; lia|]. split; [done|].
  intros σ v E. apply denote_comparison in E as (a & b & Ea & Eb & <-); [|done]. denote_parts.
  apply denote_comparison; [done|]. do 2 eexists. split; [done|]. split; [done|]. ranges r.
  rewrite Z.shiftl_1_l in *. unfold compare. rewrite comparison_signed by done.
  by rewrite !(widen_small (bits x) t), (Z.mod_small c (2 ^ bits x)) by lia.
Qed.

Lemma masked_twice_sound op x y s w e' :
  typed r (BinaryOp op x y s w false) → masked_twice op x y = Some e' → refines r (BinaryOp op x y s w false) e'.
Proof.
  intros Ht H. unfold masked_twice in H. destruct op; try discriminate H.
  destruct x as [| | | | |[] x0 x1 s' w' fp'| | | | | | | | | |]; try discriminate H.
  destruct y as [c n| | | | | | | | | | | | | | |]; try discriminate H.
  match type of H with (if ?b || ?b' then _ else _) = _ => destruct (b || b') eqn:C end; [|discriminate H]. injection H as <-.
  assert ((∃ k, x0 = Const c k) ∨ (∃ k, x1 = Const c k)) as Hc.
  { apply orb_prop in C as [C|C]; [left; destruct x0|right; destruct x1]; try discriminate C; rule_conds; subst; eauto. }
  typed_parts. refining. clear C. destruct Hc as [[k ->]|[k ->]]; cbn [bits] in *; subst; denote_parts; denote_goal; f_equal.
  - by rewrite (Z.land_comm _ (c mod _)), Z.land_assoc, Z.land_diag.
  - by rewrite <-Z.land_assoc, Z.land_diag.
Qed.

(** A comparison of a shifted and masked conversion: the mask keeps the low bits
    and nothing is shifted in. *)
Lemma compared_shift_sound op f t cs z a n1 s1 w1 b n0 s0 w0 c n w e' :
  let shifted := BinaryOp Shr (Convert f t cs z TYPE_INT TYPE_INT) (Const a n1) s1 w1 false in
  let e := BinaryOp op (BinaryOp And shifted (Const b n0) s0 w0 false) (Const c n) false w false in
  typed r e → plain e → f ≤ t → c < 2 ^ f → compares_signed op false = false →
  compared_shift op (BinaryOp And shifted (Const b n0) s0 w0 false) (Const c n) false = Some e' → refines r e e'.
Proof.
  intros shifted e Ht Hp Hft Hc Hop H. subst e shifted. unfold compared_shift in H. ifs H. injection H as <-.
  assert (comparison op) as Ho by (destruct op; done).
  assert (w = 1) as -> by (destruct Ht as (_ & _ & _ & _ & Hw); by apply comparison_typed in Hw as [_ ->]).
  destruct (typed_comparison _ _ _ _ _ _ _ Ho Ht) as (Hx & Hn & Hb). cbn in Hb. clear Ht. plain_parts Hp. typed_parts. ranges r.
  pose proof (Z.pow_gt_lin_r 2 (bits z) ltac:(lia) ltac:(lia)).
  split; [cbn; rewrite comparison_typed by done; cbn; repeat split; try done; try lia; apply amount_const; lia|]. split; [done|].
  intros σ v E. apply denote_comparison in E as (u & k & Eu & Ek & <-); [|done]. denote_parts.
  apply denote_comparison; [done|]. do 2 eexists. split; [by denote_goal|]. split; [done|]. ranges r.
  unfold compare. rewrite Hop. cbn [bits] in *.
  assert (2 ^ bits z ≤ 2 ^ n) by (apply Z.pow_le_mono_r; lia).
  match goal with E : denote σ z = Some ?v |- _ =>
    rewrite (Z.mod_small c (2 ^ n)), (Z.mod_small c (2 ^ bits z)), (Z.mod_small a (2 ^ bits z)), (Z.mod_small a (2 ^ n1)), (Z.mod_small v (2 ^ n)) by lia;
    rewrite (land_mod_high _ b (bits z) n) by (first [lia|apply shiftr_bound; lia]) end. done.
Qed.

(** *** Truncations of operations *)

Lemma land_low_part a b t : 0 ≤ t → Z.land a b mod 2 ^ t = Z.land (a mod 2 ^ t) (b mod 2 ^ t).
Proof.
  intros Ht. apply Z.bits_inj'. intros i Hi. rewrite Z.land_spec, !testbit_mod_pow2, Z.land_spec by done. by destruct (i <? t).
Qed.

Lemma lor_low_part a b t : 0 ≤ t → Z.lor a b mod 2 ^ t = Z.lor (a mod 2 ^ t) (b mod 2 ^ t).
Proof.
  intros Ht. apply Z.bits_inj'. intros i Hi. rewrite Z.lor_spec, !testbit_mod_pow2, Z.lor_spec by done. by destruct (i <? t).
Qed.

Lemma lxor_low_part a b t : 0 ≤ t → Z.lxor a b mod 2 ^ t = Z.lxor (a mod 2 ^ t) (b mod 2 ^ t).
Proof.
  intros Ht. apply Z.bits_inj'. intros i Hi. rewrite Z.lxor_spec, !testbit_mod_pow2, Z.lxor_spec by done. by destruct (i <? t).
Qed.

Lemma high_mask f t : 0 < t < f → 0 ≤ mask_of f - mask_of t < 2 ^ f ∧ (mask_of f - mask_of t) mod 2 ^ t = 0.
Proof.
  intros H. unfold mask_of. rewrite !Z.shiftl_1_l. assert (2 ^ t < 2 ^ f) by (apply Z.pow_lt_mono_r; lia). pose proof (pow2_pos t).
  split; [lia|]. replace (2 ^ f - 1 - (2 ^ t - 1)) with ((2 ^ (f - t) - 1) * 2 ^ t); [apply Z_mod_mult|].
  rewrite Z.mul_sub_distr_r, <-Z.pow_add_r by lia. replace (f - t + t) with f by lia. lia.
Qed.

(** What is masked by the high part has no low part. *)
Lemma has_mask_low f t x σ v :
  typed r x → bits x = f → 0 < t < f → has_mask (mask_of f - mask_of t) x = true → denote σ x = Some v → v mod 2 ^ t = 0.
Proof.
  intros Hx <- Ht H E. destruct x as [| | | | |[] x y s w fp| | | | | | | | | |]; try discriminate H.
  destruct y as [m n| | | | | | | | | | | | | | |]; try discriminate H. cbn in H. rule_conds. subst. typed_parts. denote_parts.
  destruct (high_mask (bits x) t) as [Hm Hz]; [lia|]. rewrite (Z.mod_small _ _ Hm), land_low_part, Hz by lia. apply Z.land_0_r.
Qed.

Lemma drop_high_sound f t s op x y s' w e' :
  typed r (Convert f t s (BinaryOp op x y s' w false) TYPE_INT TYPE_INT) → drop_high f t s op x y = Some e' →
  refines r (Convert f t s (BinaryOp op x y s' w false) TYPE_INT TYPE_INT) e'.
Proof.
  intros Ht H. unfold drop_high in H. destruct op; try discriminate H. typed_parts.
  assert (∀ z z', e' = mkConvert (bits x) t s z' → bits z = bits x → bits z' = bits x → typed r z → typed r z' →
    t < bits x → has_mask (mask_of (bits x) - mask_of t) z = true →
    (∀ σ u v, denote σ x = Some u → denote σ y = Some v → ∃ a b, denote σ z = Some a ∧ denote σ z' = Some b ∧ Z.lor u v = Z.lor a b) →
    refines r (Convert (bits x) t s (BinaryOp Or x y s' (bits x) false) TYPE_INT TYPE_INT) e') as Hz.
  { intros z z' -> Hb Hb' Htz Htz' Htx Hm Hd. ranges r. refining. denote_parts. edestruct Hd as (u & v & Eu & Ev & ->); [done..|].
    denote_goal. f_equal. rewrite !convert_low, lor_low_part by lia. by rewrite (has_mask_low (bits x) t z σ u) by (done || lia). }
  ifs H; injection H as <-.
  - apply (Hz x y); try done. intros. eauto.
  - apply (Hz y x); try done. intros. do 2 eexists. split; [done|]. split; [done|]. apply Z.lor_comm.
Qed.

Lemma truncate_operands_sound f t s op x y s' w e' :
  let e := Convert f t s (BinaryOp op x y s' w false) TYPE_INT TYPE_INT in
  typed r e → plain e → op ≠ Sar → truncate_operands f t s op x y s' = Some e' → refines r e e'.
Proof.
  intros e Ht Hp Hop H. subst e. unfold truncate_operands in H.
  destruct (t <? f) eqn:Etf; [|discriminate H]. rule_conds. cbn [negb] in H.
  assert (op = Shr ∨ e' = BinaryOp op (mkConvert f t false x) (mkConvert f t false y) s' t false ∧ (op = Add ∨ op = And ∨ op = Xor ∨ op = Or ∨ op = Mul)) as [-> |[-> Ho]]
    by (destruct op; try discriminate H; try done; try (by left); right; simplify_eq; tauto).
  - destruct x as [| | | | | |f0 t0 cs x k l| | | | | | | | |]; try discriminate H. ifs H. injection H as <-.
    plain_parts Hp. typed_parts. ranges r. refining. denote_parts. denote_goal. ranges r. f_equal.
    match goal with B : 0 ≤ ?a < 2 ^ bits x |- _ => rewrite (widen_small (bits x) w a) by lia end. done.
  - clear H Hp. assert (w = f) as -> by (by destruct Ht as (_ & _ & _ & _ & ?)).
    destruct Ht as (Hw & _ & _ & (Hw' & _ & Hx & Hy & Hb) & _). cbn [bits] in Hw, Hw'.
    assert (bits x = f ∧ bits y = f) as [Ex Ey] by (destruct Ho as [-> |[-> |[-> |[-> | ->]]]]; done).
    refining; [by destruct Ho as [-> |[-> |[-> |[-> | ->]]]]|]. ranges r.
    destruct Ho as [-> |[-> |[-> |[-> | ->]]]]; denote_parts; denote_goal; f_equal; rewrite convert_low by lia;
      first [mod_ring|by rewrite ?land_low_part, ?lor_low_part, ?lxor_low_part by lia].
Qed.

(** Quotients and remainders are no larger than the dividend. *)
Lemma quotient_small a b f v :
  0 ≤ a < 2 ^ f → 0 ≤ b →
  (if b =? 0 then None else Some (a / b)) = Some v ∨ (if b =? 0 then None else Some (a mod b)) = Some v → 0 ≤ v < 2 ^ f.
Proof.
  intros Ha Hb E. destruct (Z.eqb_spec b 0); [by destruct E|]. destruct E as [[= <-]|[= <-]].
  - split; [apply Z.div_pos; lia|]. apply Z.le_lt_trans with a; [|lia]. apply Z.div_le_upper_bound; nia.
  - pose proof (Z.mod_pos_bound a b). pose proof (Z.mod_le a b). lia.
Qed.

Lemma varies_converted f t y : varies (Convert f t false y TYPE_INT TYPE_INT) → varies y.
Proof.
  intros (σ & σ' & v & v' & H & H' & Hn). apply denote_convert in H as (a & Ha & <-). apply denote_convert in H' as (b & Hb & <-).
  exists σ, σ', a, b. split; [done|]. split; [done|]. intros ->. done.
Qed.

Lemma amount_converted f t y : amount (Convert f t false y TYPE_INT TYPE_INT) → amount y.
Proof. intros [(v & w & [=] & _)|H]. right. by eapply varies_converted. Qed.

Lemma narrow_operands_sound f t op x y w e' :
  let e := Convert f t false (BinaryOp op x y false w false) TYPE_INT TYPE_INT in
  typed r e → plain e → t ≤ f → op ≠ DivMod → narrow_operands f t false op x y = Some e' → refines r e e'.
Proof.
  intros e Ht Hp Htf Hop H. subst e. unfold narrow_operands in H.
  destruct x as [| | | | | |f0 t0 s0 x k0 l0| | | | | | | | |]; try (by destruct op).
  destruct y as [| | | | | |f1 t1 s1 y k1 l1| | | | | | | | |]; try (by destruct op).
  assert (((f0 =? f1) && (t0 =? t1) && (f =? t0) && (t =? f1)) = true ∧ e' = mkBinary op x y false ∧
    (op = Mul ∨ op = Shl ∨ op = Div ∨ op = Mod ∨ op = Add ∨ op = Sub)) as (C & -> & Ho)
    by (destruct op; try discriminate H; try done; cbv iota in H;
      match type of H with (if ?b then _ else _) = _ => destruct b; [|discriminate H] end; injection H as <-;
      (split; [done|split; [done|tauto]])).
  clear H. rule_conds. subst. plain_parts Hp. typed_parts. ranges r.
  split; [|split; [by destruct Ho as [-> |[-> |[-> |[-> |[-> | ->]]]]]|]].
  { destruct Ho as [-> |[-> |[-> |[-> |[-> | ->]]]]]; cbn; try done. repeat split; try done. by eapply amount_converted, Ho1. }
  intros σ v E. apply denote_convert in E as (u & E & <-).
  destruct Ho as [-> |[-> |[-> |[-> |[-> | ->]]]]]; denote_parts; ranges r; rewrite Ho2 in *;
    match goal with Ba : 0 ≤ ?a < 2 ^ bits x, Bb : 0 ≤ ?b < 2 ^ bits x, Ea : denote σ x = Some ?a, Eb : denote σ y = Some ?b |- _ =>
      rewrite ?(widen_small (bits x) t1 a), ?(widen_small (bits x) t1 b) in * by lia;
      cbn [denote mkBinary _binop_bits_for]; rewrite Ea, Eb; cbn [mbind option_bind binop_value]; rewrite ?mod_low by lia; try done end.
  - rewrite E. by rewrite (Z.mod_small u) by (eapply quotient_small; cycle 2; [left; exact E|lia|lia]).
  - rewrite E. by rewrite (Z.mod_small u) by (eapply quotient_small; cycle 2; [right; exact E|lia|lia]).
Qed.

(** The low part is what was put there. *)
Lemma lsb_overwrite_sound f t s x o v n :
  let e := Convert f t s (Insert x o v n) TYPE_INT TYPE_INT in
  typed r e → is_lsb_overwrite (Insert x o v n) = true → t ≤ bits v →
  refines r e (if t =? bits v then v else mkConvert (bits v) t s v).
Proof.
  intros e Ht H Htv. subst e. unfold is_lsb_overwrite in H. destruct o as [k m| | | | | | | | | | | | | | |]; try discriminate H.
  typed_parts.
  match goal with H : part _ _ _ _ |- _ => destruct H as (-> & k' & m' & [= <- <-] & Hk' & Hp) end.
  cbn in H. rule_conds. subst k. cbn [bits] in *. ranges r.
  assert (∀ σ u, denote σ (Convert (bits x) t s (Insert x (Const 0 m) v "Iend_LE") TYPE_INT TYPE_INT) = Some u →
    ∃ b, denote σ v = Some b ∧ u = b mod 2 ^ t) as Hd.
  { intros σ u E. denote_parts. eexists. split; [done|]. rewrite convert_low, Zmod_0_l, Z.mul_0_r by lia.
    rewrite !Z.shiftl_0_r, field_div_mod by lia. rewrite Z.pow_0_r, Z.div_1_r.
    match goal with |- (?a - ?a' mod _ + ?b) mod _ = _ => transitivity ((a - a + b) mod 2 ^ t); [|f_equal; lia] end.
    apply Zplus_eqm; [|done]. apply Zminus_eqm; [done|]. apply eqm_mod_pow; lia. }
  destruct (t =? bits v) eqn:Eb; rule_conds.
  - split; [done|]. split; [done|]. intros σ u E. destruct (Hd _ _ E) as (b & Eb' & ->). ranges r. subst t. by rewrite Z.mod_small.
  - refining. destruct (Hd _ _ ltac:(eassumption)) as (b & Eb' & ->). denote_goal. f_equal. by rewrite convert_low by lia.
Qed.

(** *** The whole rule

    Additions and subtractions are not widened, quotients and remainders at once
    not narrowed; the mask of a comparison is a mask, and what is shifted is
    shifted to the right, and was widened. *)
Definition widens (e : expr) : Prop :=
  match e with
  | BinaryOp (Add | Sub) (Convert _ _ _ _ _ _) (Const _ _) _ _ _ => False
  | BinaryOp op (BinaryOp op0 (BinaryOp shift (Convert f t _ _ _ _) (Const _ _) _ _ _) (Const _ _) _ _ _) (Const c _) _ _ _ =>
      comparison_op op = true → op0 = And ∧ shift ≠ Sar ∧ shift ≠ Shl ∧ f ≤ t ∧ c < 2 ^ f
  | Convert f t _ (BinaryOp op _ _ _ _ _) _ _ => op ≠ DivMod ∧ op ≠ Sar ∧ t ≤ f
  | _ => True
  end.

Lemma or_else_some {A} (m n : option A) a : or_else m n = Some a → m = Some a ∨ n = Some a.
Proof. destruct m; [by left|by right]. Qed.

Lemma widened_operand_sound op x y s w fp e' :
  let e := BinaryOp op x y s w fp in
  typed r e → plain e → widens e → widened_operand op x y s = Some e' → refines r e e'.
Proof.
  intros e Ht Hp Hw H. subst e. destruct x as [| | | | | |f t cs x k l| | | | | | | | |]; try discriminate H.
  destruct y as [c n| | | | | | | | | | | | | | |]; try discriminate H.
  assert (fp = false) as -> by apply Ht. assert (k = TYPE_INT ∧ l = TYPE_INT) as [-> ->] by (split; apply Ht).
  assert (cs = false ∧ 0 ≤ c ∧ compares_signed op s = false) as (-> & Hc & Hs)
    by (destruct Hp as [Hr Hu]; cbn in Hr, Hu; rule_conds; done).
  destruct (decide (op = And)) as [-> |Hn]; [by eapply widened_mask_sound|].
  assert (comparison_op op = true) as Hop by (unfold widened_operand in H; destruct op; try done; case_match; done).
  assert (s = false) as -> by (destruct op; done). by eapply widened_compare_sound.
Qed.

Lemma compares_unsigned op s : compares_signed op s = false → s = false.
Proof. by destruct op. Qed.

Lemma compared_shift_shape op x y s e' :
  compared_shift op x y s = Some e' →
  comparison_op op = true ∧ ∃ op0 shift f t cs z k l a n1 s1 w1 fp1 b n0 s0 w0 fp0 c n,
    x = BinaryOp op0 (BinaryOp shift (Convert f t cs z k l) (Const a n1) s1 w1 fp1) (Const b n0) s0 w0 fp0 ∧
    y = Const c n ∧ (shift = Shr ∨ shift = Sar ∨ shift = Shl).
Proof.
  intros H. destruct x as [| | | | |op0 x b s0 w0 fp0| | | | | | | | | |]; try discriminate H.
  destruct x as [| | | | |shift x a s1 w1 fp1| | | | | | | | | |]; try discriminate H.
  destruct x as [| | | | | |f t cs z k l| | | | | | | | |]; try (by destruct shift).
  destruct a as [a n1| | | | | | | | | | | | | | |]; try (by destruct shift).
  destruct b as [b n0| | | | | | | | | | | | | | |]; try (by destruct shift).
  destruct y as [c n| | | | | | | | | | | | | | |]; try (by destruct shift).
  split; [unfold compared_shift in H; destruct (comparison_op op); [done|by destruct shift]|].
  do 20 eexists. split; [reflexivity|]. split; [reflexivity|]. destruct shift; try discriminate H; tauto.
Qed.

Lemma converted_operation_sound f t op y z s' w fp e' (ints : bool) :
  let e := Convert f t false (BinaryOp op y z s' w fp) TYPE_INT TYPE_INT in
  typed r e → plain e → widens e →
  or_else (narrow_operands f t false op y z) (or_else (drop_high f t false op y z)
    (if ints then truncate_operands f t false op y z s' else None)) = Some e' → refines r e e'.
Proof.
  intros e Ht Hp (H1 & H2 & H3) H. subst e. assert (fp = false) as -> by apply Ht.
  apply or_else_some in H as [H|H].
  - assert (s' = false) as -> by (destruct Hp as [_ Hu]; cbn in Hu; rule_conds; by eapply compares_unsigned).
    by eapply narrow_operands_sound.
  - apply or_else_some in H as [H|H]; [by eapply drop_high_sound|].
    destruct ints; [|discriminate H]. by eapply truncate_operands_sound.
Qed.

(** C36: Where the rule rewrites a typed expression without signed operations, with
    constants in range, the result is typed, of the same width, and of the same value
    wherever the expression has one.  Outside: an Add or Sub of a conversion and a
    constant; a comparison with a constant of a masked shift of a conversion, unless
    the mask is an And, the shift is Shr, the conversion does not truncate and the
    constant is below 2 to the width before the conversion; a conversion of a DivMod or
    Sar, and a widening conversion of any operation ([widens]). *)
Theorem RemoveRedundantConversions_sound project e e' :
  typed r e → plain e → widens e → RemoveRedundantConversions project e = Some e' → refines r e e'.
Proof.
  intros Ht Hp Hw H. unfold RemoveRedundantConversions in H.
  destruct e as [| | | | |op x y s w fp|f t s x k l| | | | | | | | |]; try discriminate H.
  - apply or_else_some in H as [H|H]; [by eapply widened_operand_sound|].
    assert (fp = false) as -> by apply Ht.
    apply or_else_some in H as [H|H]; [|by eapply masked_twice_sound].
    destruct (compared_shift_shape _ _ _ _ _ H) as (Hop & op0 & shift & f & t & cs & z & k & l & a & n1 & s1 & w1 & fp1 & b & n0 & s0 & w0 & fp0 & c & n & -> & -> & Hsh).
    assert (op0 = And ∧ shift ≠ Sar ∧ shift ≠ Shl ∧ f ≤ t ∧ c < 2 ^ f) as (-> & ? & ? & Hf & Hc) by (destruct op; try discriminate Hop; by apply Hw).
    assert (shift = Shr) as -> by (destruct Hsh as [|[|]]; congruence).
    assert (k = TYPE_INT ∧ l = TYPE_INT ∧ fp0 = false ∧ fp1 = false) as (-> & -> & -> & ->) by (cbn in Ht; tauto).
    assert (s = false ∧ s0 = false ∧ s1 = false) as (-> & -> & ->).
    { destruct Hp as [_ Hu]. cbn in Hu. rule_conds. split_and!; eauto using compares_unsigned. }
    eapply compared_shift_sound; try done. destruct Hp as [_ Hu]. cbn in Hu. by rule_conds.
  - assert (k = TYPE_INT ∧ l = TYPE_INT ∧ s = false) as (-> & -> & ->).
    { destruct Hp as [_ Hu]. cbn in Hu. rule_conds. by destruct Ht as (_ & ? & ? & _). }
    destruct x; try discriminate H; [by eapply converted_operation_sound|]. cbn [is_int] in H. ifs H. injection H as <-.
    by apply lsb_overwrite_sound.
Qed.

End soundness.

Lemma RemoveRedundantConversions_sound_witness :
  let e := Convert 32 8 false (BinaryOp Add (Convert 8 32 false (Register 0 8) TYPE_INT TYPE_INT)
    (Convert 8 32 false (Register 8 8) TYPE_INT TYPE_INT) false 32 false) TYPE_INT TYPE_INT in
  refines (λ _, 32) e (BinaryOp Add (Register 0 8) (Register 8 8) false 8 false).
Proof.
  apply (RemoveRedundantConversions_sound _ true); [cbn; repeat split; lia|by split|cbn; split; [done|split; [done|lia]]|reflexivity].
Defined.

Section counterexamples.
Context (r : string → Z).

(** A carry out of the narrow operand, the sign of a masked conversion, a high
    bit shifted out on the right of a comparison, an unsigned value shifted as a
    signed one. *)
Lemma RemoveRedundantConversions_miscompiles : miscompiles r (RemoveRedundantConversions false).
Proof.
  counterexample (BinaryOp Add (Convert 8 16 false (Register 0 8) TYPE_INT TYPE_INT) (Const 1 16) false 16 false) 0xFF.
Qed.

Lemma RemoveRedundantConversions_masks_sign : miscompiles r (RemoveRedundantConversions false).
Proof.
  counterexample (BinaryOp And (Convert 8 16 true (Register 0 8) TYPE_INT TYPE_INT) (Const 0xFF 16) false 16 false) 0x80.
Qed.

Lemma RemoveRedundantConversions_compares_high : miscompiles r (RemoveRedundantConversions false).
Proof.
  counterexample (BinaryOp CmpEQ (BinaryOp And (BinaryOp Shl (Convert 8 16 false (Register 0 8) TYPE_INT TYPE_INT)
    (Const 1 8) false 16 false) (Const 0x1FF 16) false 16 false) (Const 0 16) false 1 false) 0x80.
Qed.

Lemma RemoveRedundantConversions_shifts_sign : miscompiles r (RemoveRedundantConversions false).
Proof.
  counterexample (Convert 16 12 false (BinaryOp Sar (Convert 8 16 false (Register 0 8) TYPE_INT TYPE_INT)
    (Const 1 8) false 16 false) TYPE_INT TYPE_INT) 0x80.
Qed.

End counterexamples.

End PeepConv.
