(* ===== verification/PeepWalk.v ===== *)
(** * The walkers that apply the peephole rules

    [_PeepholeExprsWalker] and [_PeepholeExprWalker] of
    [angr/analyses/decompiler/utils.py] over the rewriter of
    [angr/ailment/block_walker.py]: every part of an expression is rewritten, up to
    sixteen times until nothing changes, and the rules are applied for as long as
    one of them gives an expression of the same width.  The first walker takes the
    parts before the whole and the second the whole before the parts.

    Expressions are compared without their indices; the bookkeeping of statements
    that need no further pass is left out, and the kinds of expression that are
    [Other] are left alone. *)

From Stdlib Require Import ZArith Lia Bool String.
From stdpp Require Import base tactics list numbers strings option.
From S2P Require Import Prelude Ail AilFacts PeepArith PeepBool PeepConv.
Import Ail AilFacts PeepArith PeepBool PeepConv.

Module PeepWalk.

(** ** Expressions *)

Fixpoint mapM_args (h : expr → option expr) (l : list expr) : option (list expr) :=
  match l with [] => Some [] | x :: l => x' ← h x; l' ← mapM_args h l; Some (x' :: l') end.

Definition map_target (h : expr → option expr) (f : CFGTarget expr) : option (CFGTarget expr) :=
  match f with Symbol g => Some (Symbol g) | Expr x => x' ← h x; Some (Expr x') end.

(** The handlers of the kinds of expression.  A conversion is built anew, as one
    of integers, when its operand changed. *)
Definition rebuild (h : expr → option expr) (e : expr) : option expr :=
  match e with
  | Load x n en => x' ← h x; Some (Load x' n en)
  | Call f xs w => f' ← map_target h f; xs' ← mapM_args h xs; Some (Call f' xs' w)
  | BinaryOp op x y s w fp => x' ← h x; y' ← h y; Some (BinaryOp op x' y' s w fp)
  | UnaryOp op x w => x' ← h x; Some (UnaryOp op x' w)
  | Convert f t s x k l => x' ← h x; Some (if likes x' x then e else mkConvert f t s x')
  | Reinterpret f k t l x => x' ← h x; Some (Reinterpret f k t l x')
  | ITE c x y => c' ← h c; x' ← h x; y' ← h y; Some (ITE c' x' y')
  | Extract w x o en => x' ← h x; o' ← h o; Some (Extract w x' o' en)
  | Insert x o v en => x' ← h x; o' ← h o; v' ← h v; Some (Insert x' o' v' en)
  | _ => Some e
  end.

(** At most [n] rounds. *)
Fixpoint until_likes (n : nat) (f : expr → option expr) (e : expr) : option expr :=
  match n with
  | O => Some e
  | S n => result ← f e; if likes result e then Some result else until_likes n f result
  end.

Section rules.
Context (expr_opts : list (expr → option expr)).

(** The first rule that gives an expression of the same width. *)
Fixpoint first_change (opts : list (expr → option expr)) (e : expr) : option expr :=
  match opts with
  | [] => None
  | optimize :: opts =>
      match optimize e with
      | Some e' => if bits e =? bits e' then Some e' else first_change opts e
      | None => first_change opts e
      end
  end.

Fixpoint first_result (opts : list (expr → option expr)) (e : expr) : option expr :=
  match opts with [] => None | optimize :: opts => or_else (optimize e) (first_result opts e) end.

(** For as long as [step] gives a result. *)
Fixpoint redo (step : expr → option expr) (fuel : nat) (e : expr) : option expr :=
  match fuel with
  | O => None
  | S n => match step e with Some e' => redo step n e' | None => Some e end
  end.

(** [_PeepholeExprsWalker._handle_expr] *)
Fixpoint exprs_walker (fuel : nat) (e : expr) : option expr :=
  match fuel with
  | O => None
  | S n => e' ← until_likes 16 (rebuild (exprs_walker n)) e; redo (first_change expr_opts) fuel e'
  end.

(** [_PeepholeExprWalker._handle_expr] *)
Fixpoint expr_walker (fuel : nat) (e : expr) : option expr :=
  match fuel with
  | O => None
  | S n => e' ← redo (first_result expr_opts) fuel e; until_likes 16 (rebuild (expr_walker n)) e'
  end.
End rules.

(** ** Statements and blocks *)

(** An assertion that fails, or fuel that is used up. *)
Inductive outcome (A : Type) := Done (a : A) | AssertionError | OutOfFuel.
Arguments Done {A}. Arguments AssertionError {A}. Arguments OutOfFuel {A}.

#[export] Instance outcome_ret : MRet outcome := @Done.
#[export] Instance outcome_bind : MBind outcome :=
  λ A B f m, match m with Done a => f a | AssertionError => AssertionError | OutOfFuel => OutOfFuel end.

Definition run {A} (m : option A) : outcome A := match m with Some a => Done a | None => OutOfFuel end.

Inductive stmt :=
  | Assignment (dst src : expr)
  | WeakAssignment (dst src : expr)
  | SideEffectStatement (e : expr) (ret_expr : option expr)
  | Store (addr data : expr) (size : Z) (endness : string) (guard : option expr)
  | Jump (target : expr)
  | ConditionalJump (condition : expr) (true_target false_target : option expr)
  | Return (ret_exprs : list expr)
  | OtherStmt (kind : string).

Definition is_atom (e : expr) : bool :=
  match e with
  | Const _ _ | Tmp _ _ | Register _ _ | VirtualVariable _ _ _ => true
  | Other kind _ _ => (kind =? "ComboRegister")%string || (kind =? "Phi")%string
  | _ => false
  end.

Section statements.
Context (h : expr → option expr).

Definition handle_opt (m : option expr) : outcome (option expr) :=
  match m with None => Done None | Some e => e' ← run (h e); Done (Some e') end.

Definition handle_atom (e : expr) : outcome expr :=
  e' ← run (h e); if is_atom e' then Done e' else AssertionError.

Definition handle_stmt (s : stmt) : outcome stmt :=
  match s with
  | Assignment dst src => dst' ← handle_atom dst; src' ← run (h src); Done (Assignment dst' src')
  | WeakAssignment dst src => dst' ← handle_atom dst; src' ← run (h src); Done (WeakAssignment dst' src')
  | SideEffectStatement e ret =>
      e' ← run (h e); ret' ← handle_opt ret;
      Done (SideEffectStatement (match e' with Call _ _ _ => e' | _ => e end) ret')
  | Store addr data size endness guard =>
      addr' ← run (h addr); data' ← run (h data); guard' ← handle_opt guard; Done (Store addr' data' size endness guard')
  | Jump target => target' ← run (h target); Done (Jump target')
  | ConditionalJump c t f => c' ← run (h c); t' ← handle_opt t; f' ← handle_opt f; Done (ConditionalJump c' t' f')
  | Return es => es' ← run (mapM_args h es); Done (Return es')
  | OtherStmt _ => Done s
  end.

(** A statement with the mark that it is at its fixpoint is left alone. *)
Fixpoint walk (statements : list (bool * stmt)) : outcome (list (bool * stmt)) :=
  match statements with
  | [] => Done []
  | (peephole_optimized, s) :: l =>
      s' ← (if peephole_optimized : bool then Done s else handle_stmt s);
      l' ← walk l; Done ((peephole_optimized, s') :: l')
  end.
End statements.

Definition peephole_optimize_exprs (expr_opts : list (expr → option expr)) (fuel : nat) := walk (exprs_walker expr_opts fuel).

Lemma first_change_in opts e e' :
  first_change opts e = Some e' → ∃ o, In o opts ∧ o e = Some e' ∧ bits e = bits e'.
Proof.
  induction opts as [|o opts IH]; [done|]. cbn. intros H. destruct (o e) as [e1|] eqn:E.
  - destruct (Z.eqb_spec (bits e) (bits e1)).
    + simplify_eq. exists o. split; [by left|done].
    + destruct (IH H) as (o' & ? & ?). exists o'. split; [by right|done].
  - destruct (IH H) as (o' & ? & ?). exists o'. split; [by right|done].
Qed.

Lemma first_result_in opts e e' : first_result opts e = Some e' → ∃ o, In o opts ∧ o e = Some e'.
Proof.
  induction opts as [|o opts IH]; [done|]. cbn. intros [H|H]%or_else_some.
  - exists o. split; [by left|done].
  - destruct (IH H) as (o' & ? & ?). exists o'. split; [by right|done].
Qed.

(** ** A measure of expressions

    What the rules that simplify make smaller. *)

Definition op_cost (op : binop) (a b : nat) : nat :=
  (match op with
  | Sub | Xor | CmpEQ | CmpNE | CmpLT | CmpLE | CmpGT | CmpGE | CmpLTs | CmpLEs | CmpGTs | CmpGEs => 2 * (a + b)
  | Or | Shl | Shr => 2 + a + b
  | _ => 1 + a + b
  end)%nat.

Fixpoint cost (e : expr) : nat :=
  (match e with
  | UnaryOp Not x _ => 2 * cost x
  | UnaryOp _ x _ | Reinterpret _ _ _ _ x | Load x _ _ => 1 + cost x
  | BinaryOp op x y _ _ _ => op_cost op (cost x) (cost y)
  | Convert _ _ _ x _ _ => 3 + cost x
  | ITE x y z | Insert x y z _ => 1 + cost x + cost y + cost z
  | Extract _ x o _ => 3 + cost x + cost o
  | Call f xs _ => 1 + match f with Symbol _ => 0 | Expr x => cost x end + list_sum (map cost xs)
  | _ => 1
  end)%nat.

Definition stmt_exprs (s : stmt) : list expr :=
  match s with
  | Assignment dst src | WeakAssignment dst src => [dst; src]
  | SideEffectStatement e ret => e :: option_list ret
  | Store addr data _ _ guard => addr :: data :: option_list guard
  | Jump target => [target]
  | ConditionalJump c t f => c :: option_list t ++ option_list f
  | Return es => es
  | OtherStmt _ => []
  end.

(** ** Refinement *)

Inductive opt_refines (r : string → Z) : option expr → option expr → Prop :=
  | none_refines : opt_refines r None None
  | some_refines e e' : refines r e e' → opt_refines r (Some e) (Some e').

(** The same statement, on expressions that refine those of the original. *)
Inductive stmt_refines (r : string → Z) : stmt → stmt → Prop :=
  | Assignment_refines dst src src' : refines r src src' → stmt_refines r (Assignment dst src) (Assignment dst src')
  | WeakAssignment_refines dst src src' : refines r src src' → stmt_refines r (WeakAssignment dst src) (WeakAssignment dst src')
  | SideEffect_refines e e' ret ret' :
      refines r e e' → opt_refines r ret ret' → stmt_refines r (SideEffectStatement e ret) (SideEffectStatement e' ret')
  | Store_refines addr data addr' data' size n guard guard' :
      refines r addr addr' → refines r data data' → opt_refines r guard guard' →
      stmt_refines r (Store addr data size n guard) (Store addr' data' size n guard')
  | Jump_refines target target' : refines r target target' → stmt_refines r (Jump target) (Jump target')
  | ConditionalJump_refines c c' t t' f f' :
      refines r c c' → opt_refines r t t' → opt_refines r f f' → stmt_refines r (ConditionalJump c t f) (ConditionalJump c' t' f')
  | Return_refines es es' : Forall2 (refines r) es es' → stmt_refines r (Return es) (Return es')
  | OtherStmt_refines kind : stmt_refines r (OtherStmt kind) (OtherStmt kind).

(** The expressions of a statement are typed, and it assigns to an atom. *)
Definition stmt_typed (r : string → Z) (s : stmt) : Prop :=
  match s with
  | Assignment dst src | WeakAssignment dst src => is_atom dst = true ∧ typed r src
  | SideEffectStatement e ret => typed r e ∧ from_option (typed r) True ret
  | Store addr data _ _ guard => typed r addr ∧ typed r data ∧ from_option (typed r) True guard
  | Jump target => typed r target
  | ConditionalJump c t f => typed r c ∧ from_option (typed r) True t ∧ from_option (typed r) True f
  | Return es => Forall (typed r) es
  | OtherStmt _ => True
  end.

(** Rules look into expressions, not at atoms. *)
Definition leaves_atoms (rule : expr → option expr) : Prop := ∀ e, is_atom e = true → rule e = None.

Section soundness.
Context (r : string → Z) (expr_opts : list (expr → option expr)).
Context (Hsound : Forall (sound r) expr_opts) (Hatoms : Forall leaves_atoms expr_opts).

Definition keeps_atoms (e e' : expr) : Prop := is_atom e = true → e' = e.

(** What a handler makes of an expression. *)
Definition faithful (h : expr → option expr) : Prop :=
  ∀ e e', typed r e → h e = Some e' → refines r e e' ∧ keeps_const e e'.

Definition atomic (h : expr → option expr) : Prop := ∀ e e', is_atom e = true → h e = Some e' → e' = e.

Lemma keeps_const_trans e1 e2 e3 : keeps_const e1 e2 → keeps_const e2 e3 → keeps_const e1 e3.
Proof. destruct e1; cbn; try done. intros ->. done. Qed.

Lemma keeps_const_refl e : keeps_const e e.
Proof. by destruct e. Qed.

Lemma mapM_args_refines h xs xs' :
  faithful h → Forall (typed r) xs → mapM_args h xs = Some xs' → Forall2 (refines r) xs xs'.
Proof.
  intros Hh H. revert xs'. induction H as [|x xs Hx _ IH]; intros xs' E; cbn in E; [by simplify_eq|].
  destruct (h x) as [x'|] eqn:Ex; [|discriminate E]. cbn in E.
  destruct (mapM_args h xs) as [l|]; [|discriminate E]. cbn in E. simplify_eq. constructor; [by apply (Hh x x')|by apply IH].
Qed.

Lemma map_target_refines h f f' :
  faithful h → (match f with Symbol _ => True | Expr x => typed r x end) → map_target h f = Some f' → target_refines r f f'.
Proof.
  intros Hh Ht E. destruct f as [g|x]; cbn in E; [simplify_eq; constructor|]. destruct (h x) as [x'|] eqn:Ex; [|discriminate E].
  cbn in E. simplify_eq. constructor. by apply (Hh x x').
Qed.

Lemma rebuild_faithful h : faithful h → faithful (rebuild h).
Proof.
  intros Hh e e' Ht H.
  assert (Hx : ∀ x x', typed r x → h x = Some x' → refines r x x') by (intros; by eapply Hh).
  assert (Hk : ∀ x x', typed r x → h x = Some x' → keeps_const x x') by (intros; by eapply Hh).
  assert (Hid : id (typed r e)) by exact Ht.
  destruct e; cbn [rebuild] in H; try (simplify_eq; split; [by apply refinement_refl|done]);
    repeat match type of H with (h ?x ≫= _) = _ => let x' := fresh "x" in let E := fresh "E" in
      destruct (h x) as [x'|] eqn:E; [|discriminate H]; cbn [mbind option_bind] in H end; simplify_eq;
    (split; [|done]); try typed_parts; unfold id in Hid.
  - eapply UnaryOp_refines; eauto.
  - eapply BinaryOp_refines; eauto.
  - case_match; [by apply refinement_refl|]. eapply Convert_refines; eauto.
  - eapply Reinterpret_refines; eauto. apply Hx; [by destruct Hid as (_ & ? & _)|done].
  - eapply ITE_refines; eauto.
  - eapply Extract_refines; eauto.
  - eapply Insert_refines; eauto.
  - eapply Load_refines; eauto. apply Hx; [by destruct Hid|done].
  - destruct (map_target h target) as [f|] eqn:Ef; [|discriminate H]. cbn in H.
    destruct (mapM_args h args) as [l|] eqn:E; [|discriminate H]. cbn in H. simplify_eq.
    apply typed_Call_all in Ht as (_ & Hf & Ha). eapply Call_refines; [done| |by eapply mapM_args_refines].
    by eapply map_target_refines.
Qed.

Lemma until_likes_faithful n f : faithful f → faithful (until_likes n f).
Proof.
  intros Hf. induction n as [|n IH]; intros e e' Ht H; cbn in H; [simplify_eq; split; [by apply refinement_refl|apply keeps_const_refl]|].
  destruct (f e) as [e1|] eqn:E; [|discriminate H]. cbn in H. destruct (Hf _ _ Ht E) as [H1 H2].
  destruct (likes e1 e); [by simplify_eq|]. destruct (IH e1 e') as [H3 H4]; [by eapply refines_typed|done|].
  split; [by eapply refinement_trans|by eapply keeps_const_trans].
Qed.

Lemma redo_faithful step fuel :
  sound r step → leaves_atoms step → faithful (redo step fuel).
Proof.
  intros Hs Hl. induction fuel as [|n IH]; intros e e' Ht H; cbn in H; [discriminate H|].
  destruct (step e) as [e1|] eqn:E; [|simplify_eq; split; [by apply refinement_refl|apply keeps_const_refl]].
  pose proof (Hs _ _ Ht I E) as H1. destruct (IH e1 e') as [H3 H4]; [by eapply refines_typed|done|].
  split; [by eapply refinement_trans|]. destruct e; try done. by rewrite Hl in E.
Qed.

Lemma first_change_sound : sound r (first_change expr_opts).
Proof.
  intros e e' Ht _ H. apply first_change_in in H as (o & Ho & H & _). rewrite Forall_forall in Hsound. by apply (Hsound o Ho e e').
Qed.

Lemma first_result_sound : sound r (first_result expr_opts).
Proof. intros e e' Ht _ H. apply first_result_in in H as (o & Ho & H). rewrite Forall_forall in Hsound. by apply (Hsound o Ho e e'). Qed.

Lemma first_change_atoms : leaves_atoms (first_change expr_opts).
Proof.
  intros e He. destruct (first_change expr_opts e) eqn:H; [|done]. apply first_change_in in H as (o & Ho & H & _).
  rewrite Forall_forall in Hatoms. by rewrite (Hatoms o Ho) in H.
Qed.

Lemma first_result_atoms : leaves_atoms (first_result expr_opts).
Proof.
  intros e He. destruct (first_result expr_opts e) eqn:H; [|done]. apply first_result_in in H as (o & Ho & H).
  rewrite Forall_forall in Hatoms. by rewrite (Hatoms o Ho) in H.
Qed.

Lemma faithful_then f g e e1 e2 : faithful f → faithful g → typed r e → f e = Some e1 → g e1 = Some e2 → refines r e e2 ∧ keeps_const e e2.
Proof.
  intros Hf Hg Ht H1 H2. destruct (Hf _ _ Ht H1) as [R1 K1]. destruct (Hg e1 e2) as [R2 K2]; [by eapply refines_typed|done|].
  split; [by eapply refinement_trans|by eapply keeps_const_trans].
Qed.

Lemma exprs_walker_faithful fuel : faithful (exprs_walker expr_opts fuel).
Proof.
  induction fuel as [|n IH]; intros e e' Ht H; [discriminate H|]. cbn [exprs_walker] in H.
  destruct (until_likes _ _ e) as [e1|] eqn:E; [|discriminate H].
  eapply faithful_then; [by apply until_likes_faithful, rebuild_faithful, IH| |done..].
  apply redo_faithful; [apply first_change_sound|apply first_change_atoms].
Qed.

Lemma expr_walker_faithful fuel : faithful (expr_walker expr_opts fuel).
Proof.
  induction fuel as [|n IH]; intros e e' Ht H; [discriminate H|]. cbn [expr_walker] in H.
  destruct (redo _ _ e) as [e1|] eqn:E; [|discriminate H].
  eapply faithful_then; [|by apply until_likes_faithful, rebuild_faithful, IH|done..].
  apply redo_faithful; [apply first_result_sound|apply first_result_atoms].
Qed.

Lemma until_likes_atomic n f : atomic f → atomic (until_likes n f).
Proof.
  intros Hf. induction n as [|n IH]; intros e e' Ha H; cbn in H; [by simplify_eq|].
  destruct (f e) as [e1|] eqn:E; [|discriminate H]. apply Hf in E; [subst|done]. cbn in H. case_match; [by simplify_eq|]. by apply IH.
Qed.

Lemma rebuild_atomic h : atomic (rebuild h).
Proof. intros [] e' Ha H; try discriminate Ha; by simplify_eq/=. Qed.

Lemma exprs_walker_atomic fuel : atomic (exprs_walker expr_opts fuel).
Proof.
  destruct fuel as [|n]; intros e e' Ha H; [discriminate H|]. cbn [exprs_walker] in H.
  destruct (until_likes _ _ e) as [e1|] eqn:E; [|discriminate H]. apply until_likes_atomic in E; [subst e1|apply rebuild_atomic|done].
  cbn in H. rewrite first_change_atoms in H by done. by simplify_eq.
Qed.

(** *** Statements *)

Lemma run_done {A} (m : option A) a : m = Some a → run m = Done a.
Proof. by intros ->. Qed.

Section handlers.
Context (h : expr → option expr) (Hf : faithful h) (Ha : atomic h) (n : nat).
Context (Hn : ∀ e, (cost e < n)%nat → ∃ e', h e = Some e').

Lemma handle_expr_done e : typed r e → (cost e < n)%nat → ∃ e', run (h e) = Done e' ∧ refines r e e'.
Proof. intros Ht H. destruct (Hn e H) as [e' E]. exists e'. rewrite E. split; [done|]. by apply Hf. Qed.

Lemma handle_opt_done m :
  from_option (typed r) True m → Forall (λ e, (cost e < n)%nat) (option_list m) → ∃ m', handle_opt h m = Done m' ∧ opt_refines r m m'.
Proof.
  intros Ht H. destruct m as [e|]; [|by exists None; split; [|constructor]]. cbn in *. inversion H; subst.
  destruct (handle_expr_done e) as (e' & E & Hr); [done..|]. exists (Some e'). rewrite E. split; [done|by constructor].
Qed.

Lemma handle_atom_done e : is_atom e = true → (cost e < n)%nat → handle_atom h e = Done e.
Proof. intros Hat H. destruct (Hn e H) as [e' E]. unfold handle_atom. rewrite E. apply Ha in E as ->; [|done]. cbn. by rewrite Hat. Qed.

Lemma mapM_args_done es :
  Forall (typed r) es → Forall (λ e, (cost e < n)%nat) es → ∃ es', run (mapM_args h es) = Done es' ∧ Forall2 (refines r) es es'.
Proof.
  intros Ht H. assert (∃ es', mapM_args h es = Some es') as [es' E].
  { induction es as [|e es IH]; [by eexists|]. inversion Ht; inversion H; subst.
    destruct (Hn e) as [e' E]; [done|]. destruct IH as [es' E']; [done..|]. exists (e' :: es'). cbn. by rewrite E, E'. }
  exists es'. rewrite E. split; [done|]. by eapply mapM_args_refines.
Qed.

Lemma handle_stmt_done s :
  stmt_typed r s → Forall (λ e, (cost e < n)%nat) (stmt_exprs s) → ∃ s', handle_stmt h s = Done s' ∧ stmt_refines r s s'.
Proof.
  intros Ht H. destruct s; cbn in Ht, H; repeat (rewrite Forall_app in H || rewrite Forall_cons_iff in H); decompose [and] H; decompose [and] Ht; cbn [handle_stmt].
  all: repeat match goal with
    | |- context [handle_atom h ?e] => rewrite (handle_atom_done e) by done; cbn [mbind outcome_bind]
    | |- context [run (h ?e)] => let e' := fresh "e" in let E := fresh "E" in let R := fresh "R" in
        destruct (handle_expr_done e) as (e' & E & R); [done..|]; rewrite E; clear E; cbn [mbind outcome_bind]
    | |- context [handle_opt h ?e] => let e' := fresh "m" in let E := fresh "E" in let R := fresh "R" in
        destruct (handle_opt_done e) as (e' & E & R); [done..|]; rewrite E; clear E; cbn [mbind outcome_bind]
    end.
  all: try (eexists; split; [done|]; by constructor).
  - eexists. split; [done|]. constructor; [|done]. case_match; try done; by apply refinement_refl.
  - destruct (mapM_args_done ret_exprs) as (es' & -> & R); [done..|]. eexists. split; [done|by constructor].
Qed.

Lemma walk_done l :
  Forall (λ s, stmt_typed r s.2 ∧ Forall (λ e, (cost e < n)%nat) (stmt_exprs s.2)) l →
  ∃ l', walk h l = Done l' ∧ Forall2 (λ s s', s'.1 = s.1 ∧ (stmt_refines r s.2 s'.2 ∨ s.1 = true ∧ s'.2 = s.2)) l l'.
Proof.
  induction 1 as [|[b s] l [Ht Hc] _ (l' & E & IH)]; [by exists []; split; [|constructor]|]. cbn [walk fst snd] in *.
  destruct b; cbn [mbind outcome_bind].
  - rewrite E. eexists. split; [done|]. constructor; [|done]. cbn. eauto.
  - destruct (handle_stmt_done s Ht Hc) as (s' & -> & Hr). cbn. rewrite E. eexists. split; [done|]. constructor; [|done]. cbn. eauto.
Qed.
End handlers.

End soundness.

(** ** Termination

    A rule that makes every expression smaller. *)
Definition reduces (rule : expr → option expr) : Prop := ∀ e e', rule e = Some e' → (cost e' < cost e)%nat.

Lemma cost_pos e : (0 < cost e)%nat.
Proof. induction e; cbn; try lia. - destruct op; lia. - destruct op; cbn; lia. Qed.

(** What a handler makes of the expressions below a size is no larger. *)
Definition shrinks (n : nat) (h : expr → option expr) : Prop :=
  ∀ e, (cost e < n)%nat → ∃ e', h e = Some e' ∧ (cost e' ≤ cost e)%nat.

Lemma op_cost_mono op a b a' b' : (a' ≤ a → b' ≤ b → op_cost op a' b' ≤ op_cost op a b)%nat.
Proof. destruct op; cbn; lia. Qed.

Lemma op_cost_operands op a b : (0 < a → 0 < b → a < op_cost op a b ∧ b < op_cost op a b)%nat.
Proof. destruct op; cbn; lia. Qed.

Lemma mapM_args_shrinks n h xs :
  shrinks n h → (list_sum (map cost xs) < n)%nat →
  ∃ xs', mapM_args h xs = Some xs' ∧ (list_sum (map cost xs') ≤ list_sum (map cost xs))%nat.
Proof.
  intros Hh. unfold list_sum. induction xs as [|x xs IH]; cbn; intros H; [by eexists|].
  destruct (Hh x) as (x' & -> & Hx); [lia|]. destruct IH as (xs' & -> & Hxs); [lia|]. eexists. split; [done|]. cbn. lia.
Qed.

Lemma rebuild_shrinks n h : shrinks n h → shrinks (S n) (rebuild h).
Proof.
  intros Hh e He. assert (Hp : ∀ x, (0 < cost x)%nat) by apply cost_pos.
  destruct e; cbn [rebuild cost] in *; try (by eexists; split; [done|cbn; lia]);
    repeat match goal with
    | |- context [h ?x] =>
        let x' := fresh "x" in let E := fresh "E" in let L := fresh "L" in
        destruct (Hh x) as (x' & E & L);
          [pose proof (Hp x); try (destruct op; lia); try (pose proof (op_cost_operands op _ _ (Hp e1) (Hp e2))); lia
          |rewrite E; clear E; cbn [mbind option_bind]]
    end.
  - eexists. split; [done|]. cbn. destruct op; lia.
  - eexists. split; [done|]. cbn. by apply op_cost_mono.
  - eexists. split; [done|]. case_match; cbn; lia.
  - eexists. split; [done|]. cbn. lia.
  - eexists. split; [done|]. cbn. lia.
  - eexists. split; [done|]. cbn. lia.
  - eexists. split; [done|]. cbn. lia.
  - eexists. split; [done|]. cbn. lia.
  - assert (∃ f, map_target h target = Some f ∧
      (match f with Symbol _ => 0 | Expr x => cost x end ≤ match target with Symbol _ => 0 | Expr x => cost x end)%nat) as (f & -> & Lf).
    { destruct target as [g|x]; [by exists (Symbol g)|]. destruct (Hh x) as (x' & E & L); [lia|]. exists (Expr x'). cbn. by rewrite E. }
    destruct (mapM_args_shrinks n h args Hh) as (xs & E & L); [lia|]. cbn. rewrite E. eexists. split; [done|]. cbn [cost]. lia.
Qed.

Lemma until_likes_shrinks k n f : shrinks n f → shrinks n (until_likes k f).
Proof.
  intros Hf. induction k as [|k IH]; intros e He; cbn; [by exists e; split; [|lia]|].
  destruct (Hf e He) as (e1 & -> & L1). cbn. case_match; [by exists e1|].
  destruct (IH e1) as (e2 & -> & L2); [lia|]. exists e2. split; [done|lia].
Qed.

Lemma redo_shrinks n step : reduces step → shrinks n (redo step n).
Proof.
  intros Hs. induction n as [|n IH]; intros e He; cbn; [lia|].
  destruct (step e) as [e1|] eqn:E; [|by exists e; split; [|lia]].
  apply Hs in E. destruct (IH e1) as (e2 & -> & L2); [lia|]. exists e2. split; [done|lia].
Qed.

Lemma first_change_reduces opts : Forall reduces opts → reduces (first_change opts).
Proof.
  intros H e e' (o & Ho & E & _)%first_change_in. rewrite Forall_forall in H. by apply (H o Ho).
Qed.

Lemma first_result_reduces opts : Forall reduces opts → reduces (first_result opts).
Proof. intros H e e' (o & Ho & E)%first_result_in. rewrite Forall_forall in H. by apply (H o Ho). Qed.

Lemma exprs_walker_shrinks opts n : Forall reduces opts → shrinks n (exprs_walker opts n).
Proof.
  intros H. induction n as [|n IH]; intros e He; [lia|]. cbn [exprs_walker].
  destruct (until_likes_shrinks 16 (S n) _ (rebuild_shrinks n _ IH) e He) as (e1 & -> & L1). cbn [mbind option_bind].
  destruct (redo_shrinks (S n) _ (first_change_reduces opts H) e1) as (e2 & -> & L2); [lia|]. exists e2. split; [done|lia].
Qed.

Lemma expr_walker_shrinks opts n : Forall reduces opts → shrinks n (expr_walker opts n).
Proof.
  intros H. induction n as [|n IH]; intros e He; [lia|]. cbn [expr_walker].
  destruct (redo_shrinks (S n) _ (first_result_reduces opts H) e) as (e1 & -> & L1); [lia|]. cbn [mbind option_bind].
  destruct (until_likes_shrinks 16 (S n) _ (rebuild_shrinks n _ IH) e1) as (e2 & -> & L2); [lia|]. exists e2. split; [done|lia].
Qed.

Ltac cost_facts :=
  repeat match goal with
  | |- context [cost ?x] =>
      lazymatch goal with _ : (0 < cost x)%nat |- _ => fail | _ => pose proof (cost_pos x) end
  end.

Ltac smaller H := repeat (case_match; try discriminate H); simplify_eq/=; cost_facts; lia.
Ltac bound_smaller H := repeat (progress simplify_eq/= || (case_match; try discriminate H)); cost_facts; lia.

Lemma arithmetic_rules_reduce equal arch_bits :
  Forall reduces [AMulConstSubA; AShlConstSubA; ASubASubN equal; ShlToMul; ADivConstAddAMulNDivConst; AMulConstDivShrConst;
    ASubADiv; ASubAShrConstShrConst; BasePointerOffsetAddN arch_bits; BasePointerOffsetAndMask].
Proof.
  repeat constructor; intros e e' H.
  - unfold AMulConstSubA in H. smaller H.
  - unfold AShlConstSubA in H. smaller H.
  - unfold ASubASubN in H. smaller H.
  - unfold ShlToMul in H. smaller H.
  - unfold ADivConstAddAMulNDivConst in H. smaller H.
  - unfold AMulConstDivShrConst in H. smaller H.
  - unfold ASubADiv in H. smaller H.
  - unfold ASubAShrConstShrConst in H. smaller H.
  - unfold BasePointerOffsetAddN in H. smaller H.
  - unfold BasePointerOffsetAndMask in H. smaller H.
Qed.

Lemma ITEComparisons_reduces : reduces RemoveRedundantITEComparisons.
Proof.
  intros e e' H. unfold RemoveRedundantITEComparisons in H.
  destruct e as [| | | | |op x y s w fp| | | | | | | | | |]; try discriminate H.
  assert (∃ inner (n : bool) c a b v k, (cost inner ≤ cost x)%nat ∧ inner = ITE c a b ∧ y = Const v k ∧
    (op = CmpEQ ∨ op = CmpNE) ∧ (e' = c ∨ e' = mkUnary Not c)) as (inner & n & c & a & b & v & k & Hi & -> & -> & Hop & He).
  { destruct (under_not x) as [inner n] eqn:E. exists inner, n.
    assert (cost inner ≤ cost x)%nat by (clear -E; unfold under_not in E; repeat case_match; simplify_eq/=; lia).
    assert (op = CmpEQ ∨ op = CmpNE) as Hop by (clear -H; destruct op; try discriminate H; tauto).
    assert (∃ c a b, inner = ITE c a b) as (c & a & b & ->) by (clear -H Hop; destruct Hop as [-> | ->], inner; try discriminate H; eauto).
    assert (∃ v k, y = Const v k) as (v & k & ->) by (clear -H Hop; destruct Hop as [-> | ->], y; try discriminate H; eauto).
    exists c, a, b, v, k. split; [done|split; [done|split; [done|split; [done|]]]].
    clear -H Hop. destruct Hop as [-> | ->]; repeat case_match; simplify_eq/=; first [by left|by right]. }
  cbn in Hi. destruct Hop as [-> | ->], He as [-> | ->]; cbn; cost_facts; lia.
Qed.

Lemma boolean_rules_reduce :
  Forall reduces [RemoveRedundantNots; BitwiseOrToLogicalOr; SingleBitXor; InvertNegatedLogicalConjunctionsAndDisjunctions;
    BoolExprXor1; OneSubBool; SingleBitCondToBoolExpr; RemoveRedundantITEBranches; RemoveRedundantITEComparisons].
Proof.
  repeat constructor; intros e e' H.
  - unfold RemoveRedundantNots in H. repeat (case_match; try discriminate H); simplify_eq/=; cost_facts; [lia|].
    match type of H with _ <$> COMPARISON_NEGATION ?op = _ => destruct op end; simplify_eq/=; lia.
  - unfold BitwiseOrToLogicalOr in H. smaller H.
  - unfold SingleBitXor in H. smaller H.
  - unfold InvertNegatedLogicalConjunctionsAndDisjunctions in H. smaller H.
  - unfold BoolExprXor1 in H. smaller H.
  - unfold OneSubBool in H. smaller H.
  - unfold SingleBitCondToBoolExpr in H. smaller H.
  - unfold RemoveRedundantITEBranches in H. smaller H.
  - by apply ITEComparisons_reduces.
Qed.

Lemma cmp_operands_cost x y aop a0 a1 aw c cw :
  cmp_operands x y = Some (aop, a0, a1, aw, c, cw) → (op_cost aop (cost a0) (cost a1) < cost x + cost y)%nat.
Proof. unfold cmp_operands. intros H. smaller H. Qed.

Lemma cmp_folded_cost aop a0 a1 d mask var v :
  cmp_folded aop a0 a1 d mask = Some (var, v) → (cost var < op_cost aop (cost a0) (cost a1))%nat.
Proof. unfold cmp_folded. intros H. smaller H. Qed.

Lemma CmpSubConst_reduces : reduces CmpSubConst.
Proof.
  intros e e' H. unfold CmpSubConst in H. destruct e as [| | | | |op x y s w fp| | | | | | | | | |]; try discriminate H.
  assert (op = CmpEQ ∨ op = CmpNE) as Hop by (clear -H; destruct op; try discriminate H; first [by left|by right]).
  destruct (cmp_operands x y) as [[[[[[aop a0] a1] aw] c] cw]|] eqn:E; [|by destruct Hop as [-> | ->]].
  apply cmp_operands_cost in E. destruct Hop as [-> | ->]; cbn [mbind option_bind] in H;
    (destruct (cw =? aw); [|discriminate H]); cbn [negb] in H;
    (destruct (cmp_folded _ _ _ _ _) as [[var v]|] eqn:E'; [|discriminate H]); apply cmp_folded_cost in E'; cbn [mbind option_bind] in H;
    (case_match; [discriminate H|]); simplify_eq; cbn; cost_facts; lia.
Qed.

Lemma peel_truncation_cost e x w : peel_truncation e = Some (x, w) → (cost x ≤ cost e)%nat.
Proof. unfold peel_truncation. intros H. smaller H. Qed.

Lemma CmpMaskedShift_reduces : reduces CmpMaskedShift.
Proof.
  intros e e' H. unfold CmpMaskedShift in H. destruct e as [| | | | |op x y s w fp| | | | | | | | | |]; try discriminate H.
  assert (op = CmpEQ ∨ op = CmpNE) as Hop by (clear -H; destruct op; try discriminate H; first [by left|by right]).
  destruct (const_right x y) as [x' y'] eqn:E.
  assert (cost x' + cost y' = cost x + cost y)%nat as Hc by (clear -E; unfold const_right in E; repeat case_match; simplify_eq/=; lia).
  assert (∃ c k, y' = Const c k) as (c & k & ->) by (clear -H Hop; destruct Hop as [-> | ->], y'; try discriminate H; eauto).
  destruct (peel_truncation x') as [[z width]|] eqn:Ep; [|by destruct Hop as [-> | ->]].
  pose proof (peel_truncation_cost _ _ _ Ep) as Hz.
  assert (∃ z' n k' s' w' fp', z = BinaryOp Shr z' (Const n k') s' w' fp') as (z' & n & k' & s' & w' & fp' & ->).
  { clear -H Hop. destruct z as [| | | | |op' z' n s' w' fp'| | | | | | | | | |]; try (by destruct Hop as [-> | ->]).
    assert (op' = Shr) as -> by (destruct Hop as [-> | ->], op'; done).
    destruct Hop as [-> | ->], n; try discriminate H; eauto 9. }
  cbn in Hc, Hz. destruct Hop as [-> | ->]; cbn [mbind option_bind] in H; clear -H Hc Hz;
    repeat (case_match; try discriminate H); simplify_eq; cbn; cost_facts; lia.
Qed.

Lemma ord_test_cost e x y s v : ord_test e = Some (x, y, s, v) → (cost x + cost y < cost e)%nat.
Proof. unfold ord_test. intros H. smaller H. Qed.

Lemma ord_xor_cost e x y s v b : ord_xor e = Some (x, y, s, v, b) → (cost x + cost y < cost e)%nat.
Proof.
  unfold ord_xor. intros H. assert (∃ e0, (cost e0 ≤ cost e)%nat ∧ ord_test e0 = Some (x, y, s, v)) as (e0 & Hc & E).
  { destruct e as [| | | | |op e0 k s' w fp| | | | | | | | | |]; try discriminate H.
    destruct op; try discriminate H.
    - exists (BinaryOp And e0 k s' w fp). split; [lia|]. destruct (ord_test _) as [[[[]]]|]; [|done]. by simplify_eq/=.
    - destruct k; try discriminate H. exists e0. split; [cbn; lia|]. destruct (ord_test e0) as [[[[]]]|]; [|done]. cbn in H.
      case_match; [by simplify_eq|done]. }
  apply ord_test_cost in E. lia.
Qed.

Lemma comparison_rules_reduce : Forall reduces [CmpSubConst; CmpMaskedShift; CmpORDRewriter].
Proof.
  repeat constructor; [apply CmpSubConst_reduces|apply CmpMaskedShift_reduces|].
  intros e e' H. unfold CmpORDRewriter in H. destruct e as [| | | | |op x y s w fp| | | | | | | | | |]; try discriminate H.
  assert (op = CmpEQ ∨ op = CmpNE) as Hop by (clear -H; destruct op; try discriminate H; first [by left|by right]).
  destruct (ord_xor x) as [[[[[a b] s'] v] n]|] eqn:E; [|destruct Hop as [-> | ->]; repeat (case_match; try discriminate H); done].
  apply ord_xor_cost in E. destruct Hop as [-> | ->]; clear -H E; cbn [mbind option_bind] in H;
    repeat (case_match; try discriminate H); simplify_eq; cbn; cost_facts; lia.
Qed.

Lemma conversion_rules_reduce :
  Forall reduces [RemoveCascadingConversions; RemoveNoopConversions; EvaluateConstConversions; ExtendedByteAndMask].
Proof.
  repeat constructor; intros e e' H.
  - unfold RemoveCascadingConversions in H. smaller H.
  - unfold RemoveNoopConversions, conversion in H. bound_smaller H.
  - unfold EvaluateConstConversions, conversion in H. bound_smaller H.
  - unfold ExtendedByteAndMask in H. destruct e as [| | | | |[] x y s w fp| | | | | | | | | |]; try discriminate H.
    destruct y as [m k| | | | | | | | | | | | | | |]; try discriminate H.
    destruct (_MASK_TO_BITS m); [cbn [mbind option_bind] in H|discriminate H]. smaller H.
Qed.

Lemma both_widened_cost x y c x' y' : both_widened x y = (c, x', y') → (cost x' ≤ cost x ∧ cost y' ≤ cost y)%nat.
Proof. unfold both_widened. intros H. split; repeat case_match; simplify_eq/=; lia. Qed.

Lemma both_converted_cost l x c x' l' : both_converted l x = (c, x', l') → (cost x' ≤ cost x ∧ cost l' ≤ cost l)%nat.
Proof. unfold both_converted. intros H. split; repeat case_match; simplify_eq/=; lia. Qed.

Lemma ModuloSimplifier_reduces : reduces ModuloSimplifier.
Proof.
  intros e e' H. unfold ModuloSimplifier in H. destruct e as [| | | | |[] x y s w fp| | | | | | | | | |]; try discriminate H.
  destruct (both_widened x y) as [[outer x'] y'] eqn:E. apply both_widened_cost in E as [Hx Hy].
  destruct y' as [| | | | |[] l m ? ? ?| | | | | | | | | |]; try discriminate H. destruct m; try discriminate H.
  destruct (both_converted l x') as [[inner a] l'] eqn:E. apply both_converted_cost in E as [Ha Hl].
  destruct l' as [| | | | |[] d n ? ? ?| | | | | | | | | |]; try discriminate H. destruct n; try discriminate H. cbn in *.
  case_match; [|discriminate H]. destruct inner as [[[f t] b]|], outer as [[[f' t'] b']|]; simplify_eq/=; cost_facts; lia.
Qed.

(** ** A pass over a block

    The rules that are right without a condition and make expressions smaller. *)
Definition simplifying_rules (equal : expr → expr → bool) : list (expr → option expr) :=
  [AMulConstSubA; AShlConstSubA; ASubASubN equal; ShlToMul; RemoveRedundantNots; BitwiseOrToLogicalOr; SingleBitXor;
   InvertNegatedLogicalConjunctionsAndDisjunctions; CmpSubConst; CmpMaskedShift; RemoveCascadingConversions].

(** The other rules that make expressions smaller. *)
Definition shrinking_rules (arch_bits : Z) : list (expr → option expr) :=
  [BoolExprXor1; OneSubBool; SingleBitCondToBoolExpr; RemoveRedundantITEBranches; RemoveRedundantITEComparisons;
   CmpORDRewriter; RemoveNoopConversions; EvaluateConstConversions; ExtendedByteAndMask; ADivConstAddAMulNDivConst;
   AMulConstDivShrConst; ASubADiv; ASubAShrConstShrConst; BasePointerOffsetAddN arch_bits; BasePointerOffsetAndMask;
   ModuloSimplifier].

Lemma simplifying_rules_reduce equal : Forall reduces (simplifying_rules equal).
Proof.
  pose proof (arithmetic_rules_reduce equal 0) as H1. pose proof boolean_rules_reduce as H2.
  pose proof comparison_rules_reduce as H3. pose proof conversion_rules_reduce as H4.
  repeat match goal with H : Forall _ (_ :: _) |- _ => inversion_clear H end. repeat constructor; assumption.
Qed.

Lemma simplifying_rules_sound r equal :
  (∀ a b, equal a b = true → likes a b = true) → Forall (sound r) (simplifying_rules equal).
Proof.
  intros Heq. unfold simplifying_rules. repeat (apply Forall_nil || apply Forall_cons).
  - apply AMulConstSubA_sound.
  - apply AShlConstSubA_sound.
  - by apply ASubASubN_sound.
  - apply ShlToMul_sound.
  - apply RemoveRedundantNots_sound.
  - apply BitwiseOrToLogicalOr_sound.
  - apply SingleBitXor_sound.
  - apply InvertNegatedLogicalConjunctionsAndDisjunctions_sound.
  - apply CmpSubConst_sound.
  - apply CmpMaskedShift_sound.
  - apply RemoveCascadingConversions_sound.
Qed.

Lemma simplifying_rules_atoms equal : Forall leaves_atoms (simplifying_rules equal).
Proof. repeat constructor; intros [] He; done. Qed.

(** C34: With the eleven rules of [simplifying_rules], every block of typed statements
    is rewritten, without a failed assertion, to statements of the same kinds whose
    expressions refine the original ones; statements marked as at their fixpoint are
    left alone.  The fuel is more than the measure [cost] of each expression. *)
Theorem peephole_pass_correct r equal fuel block :
  (∀ a b, equal a b = true → likes a b = true) →
  Forall (λ s, stmt_typed r s.2 ∧ Forall (λ e, (cost e < fuel)%nat) (stmt_exprs s.2)) block →
  ∃ block', peephole_optimize_exprs (simplifying_rules equal) fuel block = Done block' ∧
    Forall2 (λ s s', s'.1 = s.1 ∧ (stmt_refines r s.2 s'.2 ∨ s.1 = true ∧ s'.2 = s.2)) block block'.
Proof.
  intros Heq H. eapply walk_done; [| | |done].
  - apply exprs_walker_faithful; [by apply simplifying_rules_sound|apply simplifying_rules_atoms].
  - apply exprs_walker_atomic, simplifying_rules_atoms.
  - intros e He. destruct (exprs_walker_shrinks _ fuel (simplifying_rules_reduce equal) e He) as (e' & E & _). by exists e'.
Qed.

(** C35: With any list of the rules of [simplifying_rules] and [shrinking_rules], in
    any order, both walkers end on every expression, with one more round of fuel than its
    measure [cost], a weighted number of its nodes, and give an expression of no greater
    measure. *)
Theorem peephole_walkers_end arch_bits equal opts e :
  Forall (λ rule, In rule (simplifying_rules equal ++ shrinking_rules arch_bits)) opts →
  (∃ e', exprs_walker opts (S (cost e)) e = Some e' ∧ (cost e' ≤ cost e)%nat) ∧
  (∃ e', expr_walker opts (S (cost e)) e = Some e' ∧ (cost e' ≤ cost e)%nat).
Proof.
  intros H. assert (Forall reduces opts) as Hr.
  { eapply Forall_impl; [|exact H]. clear. intros rule H.
    pose proof (arithmetic_rules_reduce equal arch_bits) as H1. pose proof boolean_rules_reduce as H2.
    pose proof comparison_rules_reduce as H3. pose proof conversion_rules_reduce as H4.
    repeat match goal with H : Forall _ (_ :: _) |- _ => inversion_clear H end.
    cbn in H. repeat (destruct H as [<-|H]; [assumption || apply ModuloSimplifier_reduces|]). done. }
  split; [apply exprs_walker_shrinks; [done|lia]|apply expr_walker_shrinks; [done|lia]].
Qed.

(** A jump on [((r0 * 3 - r0) << 2 >> 4) == 5], and an assignment that is at its
    fixpoint. *)
Definition sample_block : list (bool * stmt) :=
  [(false, ConditionalJump (BinaryOp CmpEQ (BinaryOp Shr (BinaryOp Shl (BinaryOp Sub (BinaryOp Mul (Register 0 32) (Const 3 32)
      false 32 false) (Register 0 32) false 32 false) (Const 2 8) false 32 false) (Const 4 8) false 32 false) (Const 5 32) false 1 false)
     (Some (Const 0x400000 64)) None);
   (true, Assignment (Tmp 1 32) (Register 0 32))].

(** The target of a call is rewritten like its arguments: here both are three times a
    register less the register. *)
Example call_target_rewritten :
  let rest x := BinaryOp Sub (BinaryOp Mul x (Const 3 32) false 32 false) x false 32 false in
  let product x := BinaryOp Mul x (Const 2 32) false 32 false in
  handle_stmt (exprs_walker (simplifying_rules likes) 40)
    (SideEffectStatement (Call (Expr (rest (Register 8 32))) [rest (Register 0 32)] 32) None) =
  Done (SideEffectStatement (Call (Expr (product (Register 8 32))) [product (Register 0 32)] 32) None).
Proof. vm_compute. reflexivity. Qed.

Lemma peephole_pass_correct_witness :
  (∃ block', peephole_optimize_exprs (simplifying_rules likes) 40 sample_block = Done block' ∧
    Forall2 (λ s s', s'.1 = s.1 ∧ (stmt_refines (λ _, 32) s.2 s'.2 ∨ s.1 = true ∧ s'.2 = s.2)) sample_block block') ∧
  peephole_optimize_exprs (simplifying_rules likes) 40 sample_block =
    Done [(false, ConditionalJump (BinaryOp CmpEQ (BinaryOp And (BinaryOp Mul (BinaryOp Mul (Register 0 32) (Const 2 32) false 32 false)
      (Const 4 32) false 32 false) (Const 0xFFFFFFF0 32) false 32 false) (Const 0x50 32) false 1 false) (Some (Const 0x400000 64)) None);
     (true, Assignment (Tmp 1 32) (Register 0 32))].
Proof.
  split; [|vm_compute; reflexivity]. apply peephole_pass_correct; [done|].
  unfold sample_block. repeat (apply Forall_cons || apply Forall_nil || split || (progress cbn)); try done; try lia; apply amount_const; lia.
Defined.

Lemma peephole_walkers_end_witness :
  let e := BinaryOp Xor (Convert 1 32 false (UnaryOp Not (Register 0 1) 1) TYPE_INT TYPE_INT) (Const 1 32) false 32 false in
  (∃ e', exprs_walker [BoolExprXor1; RemoveRedundantNots] (S (cost e)) e = Some e' ∧ (cost e' ≤ cost e)%nat) ∧
  (∃ e', expr_walker [BoolExprXor1; RemoveRedundantNots] (S (cost e)) e = Some e' ∧ (cost e' ≤ cost e)%nat).
Proof. apply (peephole_walkers_end 64 likes). repeat constructor; cbn; tauto. Defined.

End PeepWalk.
