(* ===== verification/PeepShift.v ===== *)
(** * Peephole rules on shifts

    Adjacent shifts, shifts around comparisons, the extraction of single bits and
    the signed division that compilers write as a shift. *)

From Stdlib Require Import ZArith Lia Bool String.
From stdpp Require Import base tactics list numbers strings option.
From S2P Require Import Prelude Bitfields Ail AilFacts PeepConv.
Import Bitfields Ail AilFacts PeepConv.

Module PeepShift.

Definition bit_length (v : Z) : Z := if v =? 0 then 0 else Z.log2 (Z.abs v) + 1.

Definition get_expr_shift_left_amount (e : expr) : option Z :=
  match e with
  | BinaryOp Shl _ (Const v _) _ _ _ => Some v
  | BinaryOp Mul _ (Const v _) _ _ _ => if Z.land v (v - 1) =? 0 then Some (bit_length v - 1) else None
  | _ => None
  end.

(** [(Conv(M->N, expr) << P) >> Q => (Conv(M->N, expr) & bitmask) >> (Q-P)] *)
Definition ConvShlShr (e : expr) : option expr :=
  match e with
  | BinaryOp Shr (BinaryOp Shl (Convert m n s x _ _) (Const p _) _ _ _) (Const q _) _ _ _ =>
      if (p <=? q) && negb s && (m <? n) && (p <=? n) then
        let and_expr := mkBinary And (mkConvert m n false x) (Const (Z.shiftl 1 (n - p) - 1) n) false in
        Some (mkBinary Shr and_expr (Const (q - p) (bits and_expr)) false)
      else None
  | _ => None
  end.

(** Adjacent shifts to the right, around a truncation or not. *)
Definition CoalesceAdjacentShiftRights (e : expr) : option expr :=
  match e with
  | BinaryOp ((Sar | Shr) as op) inner (Const v _) s _ _ =>
      match inner with
      | BinaryOp Shr x (Const v' _) _ _ _ => Some (mkBinary op x (Const (v' + v) 8) s)
      | Convert f t cs (BinaryOp Shr x (Const v' _) _ _ _) _ _ =>
          if t <? f then Some (mkConvert f t cs (mkBinary op x (Const (v' + v) 8) s)) else None
      | _ => None
      end
  | _ => None
  end.

(** [(expr << N) >> N => Conv((M-N)->M, Conv(M->(M-N), expr))] *)
Definition shifted_back (e : expr) : option expr :=
  match e with
  | BinaryOp ((Shr | Sar) as op) (BinaryOp (Shl | Mul) x (Const _ _) _ wa _ as a) (Const n0 _) _ w _ =>
      n1 ← get_expr_shift_left_amount a;
      let sar := bool_decide (op = Sar) in
      if (n0 =? n1) && (negb sar || bool_decide (wa - n0 ∈ [8; 16; 32; 64]))
      then Some (mkConvert (wa - n0) w sar (mkConvert wa (wa - n0) sar x)) else None
  | _ => None
  end.

Definition shifted_by_0 (e : expr) : option expr :=
  match e with BinaryOp (Shl | Shr | Sar) x (Const 0 _) _ _ _ => Some x | _ => None end.

Definition is_widened_32 (e : expr) : bool :=
  match e with Convert f t _ _ k l => (f =? 32) && (t =? 64) && is_int k l | _ => false end.

(** The high half of a combination: [op0] holds it, [op1] is the low half. *)
Definition high_half (op0 op1 amount : expr) (s : bool) : option expr :=
  if is_widened_32 op1 then
    match op0 with
    | BinaryOp And x y _ _ _ =>
        if match y with Const m _ => m =? 0xFFFFFFFF00000000 | _ => false end then
          match x with
          | BinaryOp _ z (Const m _) _ _ _ => if m =? 0x100000000 then Some z else Some (mkBinary Shr x amount s)
          | _ => Some (mkBinary Shr x amount s)
          end
        else Some (mkBinary Shr op0 amount s)
    | _ => None
    end
  else None.

(** [op1] is a multiple of [2 ** 32], [op0] the low half. *)
Definition high_factor (op0 op1 : expr) : option expr :=
  match op1 with
  | BinaryOp Mul x (Const m _) _ _ _ =>
      if (m =? 0x100000000) && (has_mask 0xFFFFFFFF op0 || is_widened_32 op0) then Some x else None
  | _ => None
  end.

Definition high_part (e : expr) : option expr :=
  match e with
  | BinaryOp Shr (BinaryOp Or x y _ _ _) (Const 32 n) s _ _ =>
      or_else (high_half x y (Const 32 n) s) (or_else (high_half y x (Const 32 n) s) (or_else (high_factor x y) (high_factor y x)))
  | _ => None
  end.

Definition RemoveRedundantShifts (e : expr) : option expr := or_else (shifted_back e) (or_else (shifted_by_0 e) (high_part e)).

(** *** Shifts around a comparison *)

(** The loop halves both numbers, which [fuel] bounds. *)
Fixpoint common_shift (fuel : nat) (v0 v1 shift_amount : Z) : option Z :=
  match fuel with
  | O => None
  | S fuel =>
      if (Z.land v0 1 =? 0) && (Z.land v1 1 =? 0) then
        if (Z.land v0 0xFFFF =? 0) && (Z.land v1 0xFFFF =? 0) then common_shift fuel (Z.shiftr v0 16) (Z.shiftr v1 16) (shift_amount + 16)
        else if (Z.land v0 0xFF =? 0) && (Z.land v1 0xFF =? 0) then common_shift fuel (Z.shiftr v0 8) (Z.shiftr v1 8) (shift_amount + 8)
        else if (Z.land v0 0xF =? 0) && (Z.land v1 0xF =? 0) then common_shift fuel (Z.shiftr v0 4) (Z.shiftr v1 4) (shift_amount + 4)
        else common_shift fuel (Z.shiftr v0 1) (Z.shiftr v1 1) (shift_amount + 1)
      else Some shift_amount
  end.

Definition _get_common_shift_amount (v0 v1 : Z) : option Z :=
  if (v0 =? 0) || (v1 =? 0) then Some 0 else common_shift (S (Z.to_nat (Z.log2 (Z.abs v0)))) v0 v1 0.

Definition shifts_around (op : binop) (op0 op1 : expr) (s : bool) (w : Z) (fp : bool) : option expr :=
  match op0, op1 with
  | BinaryOp Shl x (Const a _) _ _ _, BinaryOp Shl y (Const b _) _ _ _ => if a =? b then Some (BinaryOp op x y s w fp) else None
  | _, _ => None
  end.

Definition factors_around (op : binop) (op0 op1 : expr) (s : bool) (w : Z) (fp : bool) : option expr :=
  match op0 with
  | BinaryOp Mul x (Const mul_0 _) s0 w0 _ =>
      '(mul_1, new_1) ← match op1 with
        | BinaryOp Mul y (Const mul_1 _) s1 w1 _ => Some (mul_1, λ new_mul_1, BinaryOp Mul y new_mul_1 s1 w1 false)
        | Const mul_1 _ => Some (mul_1, λ new_mul_1, new_mul_1)
        | _ => None
        end;
      common_shift_amount ← _get_common_shift_amount mul_0 mul_1;
      if 0 <? common_shift_amount then
        Some (BinaryOp op (BinaryOp Mul x (Const (Z.shiftr mul_0 common_shift_amount) (bits x)) s0 w0 false)
          (new_1 (Const (Z.shiftr mul_1 common_shift_amount) (bits x))) s w fp)
      else None
  | _ => None
  end.

Definition RemoveRedundantShiftsAroundComparators (e : expr) : option expr :=
  match e with
  | BinaryOp ((CmpLE | CmpLT | CmpEQ | CmpNE | CmpGE | CmpGT) as op) op0 op1 s w fp =>
      or_else (shifts_around op op0 op1 s w fp) (factors_around op op0 op1 s w fp)
  | _ => None
  end.

(** *** Single bits *)

Fixpoint _get_setbit (e : expr) : option (Z * expr) :=
  match e with
  | BinaryOp And _ (Const 1 _) _ _ _ => Some (0, e)
  | BinaryOp Shl x (Const offset _) _ w _ =>
      match _get_setbit x with
      | Some (setbit, c) => Some (setbit + offset, c)
      | None => if w =? 1 then Some (0, e) else None
      end
  | Convert f _ s x _ _ => if (f =? 1) && negb s then Some (0, x) else if bits e =? 1 then Some (0, e) else None
  | _ => if bits e =? 1 then Some (0, e) else None
  end.

Definition keys (d : list (Z * expr)) : list Z := map fst d.

Fixpoint _extract_bitoffset_to_expr_mapping (e : expr) : option (list (Z * expr)) :=
  match e with
  | BinaryOp Or x y _ _ _ =>
      let add (d : list (Z * expr)) (arg : expr) (rest : option (list (Z * expr))) :=
        match _get_setbit arg with
        | Some (setbit, c) => if bool_decide (setbit ∈ keys d) then None else Some (d ++ [(setbit, c)])
        | None => d' ← rest; if existsb (λ k, bool_decide (k ∈ keys d)) (keys d') then None else Some (d ++ d')
        end in
      d ← add [] x (_extract_bitoffset_to_expr_mapping x);
      add d y (_extract_bitoffset_to_expr_mapping y)
  | _ => None
  end.

Definition bit_source (e : expr) : expr * Z :=
  match e with BinaryOp Shr x (Const k _) _ _ _ => (x, k) | _ => (e, 0) end.

Definition RewriteBitExtractions (e : expr) : option expr :=
  match e with
  | BinaryOp And x (Const 1 _) _ w _ =>
      let '(raw_expr, bit_offset) := bit_source x in
      d ← _extract_bitoffset_to_expr_mapping raw_expr;
      '(_, c) ← find (λ p, p.1 =? bit_offset) d;
      Some (ITE c (Const 1 w) (Const 0 w))
  | _ => None
  end.

(** *** Signed divisions *)

(** Whether the condition holds of negative numbers, the width that is tested and
    the expression. *)
Definition tested_expr (x : expr) : expr :=
  match x with Convert f t _ x' _ _ => if (t <? f) && (t =? 1) then x' else x | _ => x end.

Definition tested_sign (x : expr) : option (Z * expr) :=
  match x with
  | BinaryOp And (BinaryOp Shr inner (Const k _) _ _ _) (Const 1 _) _ _ _ =>
      if bool_decide (k ∈ [0xF; 0x1F; 0x3F]) then Some (k + 1, inner) else None
  | BinaryOp Shr inner (Const k _) _ _ _ =>
      if bool_decide (bits inner ∈ [16; 32; 64]) && (k =? bits inner - 1) then Some (k + 1, inner) else None
  | _ => None
  end.

Definition _check_signedness (e : expr) : option (bool * Z * expr) :=
  match e with
  | BinaryOp op x (Const v n) _ _ _ =>
      if bool_decide (op = CmpGE) && (v =? 0) then Some (false, n, x) else
      let eq0 := bool_decide (op = CmpEQ) && (v =? 0) || bool_decide (op = CmpNE) && (v =? 1) in
      let eq1 := bool_decide (op = CmpEQ) && (v =? 1) || bool_decide (op = CmpNE) && (v =? 0) in
      if negb eq0 && negb eq1 then None else
      '(w, inner) ← tested_sign (tested_expr x); Some (eq1, w, inner)
  | _ => None
  end.

(** The definition of a variable in the statement before, if that is an assignment. *)
Definition find_definition (previous : option (expr * expr)) (e : expr) : option expr :=
  '(dst, src) ← previous; if likes dst e then Some src else None.

Definition unpack_to (w : Z) (e : expr) : expr := match e with Convert _ t _ x _ _ => if t =? w then x else e | _ => e end.

(** The rewriting under the shift by [c], with the conversion around it. *)
Definition signed_division (c : Z) (op0 : expr) : option expr :=
  match op0 with
  | ITE cond iftrue iffalse =>
      '(is_signed, inner_bits, inner_expr) ← _check_signedness cond;
      let '(signed_result, unsigned_result) := if is_signed : bool then (iftrue, iffalse) else (iffalse, iftrue) in
      let same := inner_bits =? bits inner_expr in
      let unpack z := if same then z else unpack_to inner_bits z in
      match unpack signed_result with
      | BinaryOp Add y (Const k _) _ _ _ =>
          if (k =? 2 ^ c - 1) && likes (unpack unsigned_result) y && likes (unpack unsigned_result) inner_expr then
            let converted := if same then inner_expr else mkConvert (bits inner_expr) inner_bits false inner_expr in
            Some (mkBinary Div converted (Const (2 ^ c) (bits converted)) true)
          else None
      | _ => None
      end
  | _ => None
  end.

Definition SarToSignedDiv (previous : option (expr * expr)) (e : expr) : option expr :=
  match e with
  | BinaryOp Sar op0 (Const c _) _ _ _ =>
      op0 ← match op0 with VirtualVariable _ _ REGISTER => find_definition previous op0 | _ => Some op0 end;
      match op0 with
      | Convert f t s x _ _ => mkConvert f t s <$> signed_division c x
      | _ => signed_division c op0
      end
  | _ => None
  end.

(** *** Rotations *)

(** The source of an assignment of width [w] as a rotation, from a shift to the
    left and one to the right. *)
Definition rotation (w : Z) (op0 op1 : expr) : option expr :=
  match op0, op1 with
  | BinaryOp o0 x (Const v n) _ _ _, BinaryOp o1 y (Const v' n') _ _ _ =>
      if negb (likes x y) then None else
      match o0, o1 with
      | (Shl | Mul), Shr =>
          shiftamount ← get_expr_shift_left_amount op0;
          if shiftamount + v' =? w then Some (BinaryOp Rol x (Const shiftamount 8) false w false) else None
      | Shr, (Shl | Mul) =>
          shiftamount ← get_expr_shift_left_amount op1;
          if v + shiftamount =? w then Some (BinaryOp Ror x (Const v n) false w false) else None
      | _, _ => None
      end
  | _, _ => None
  end.

(** [stmt_1] and [stmt_2] are the assignments of the one and the two statements before. *)
Definition RolRorRewriter (stmt_1 stmt_2 : option (expr * expr)) (dst_bits : Z) (src : expr) : option expr :=
  match src with
  | BinaryOp Or (Tmp i _) (Tmp j _) _ _ _ =>
      '(dst_1, src_1) ← stmt_1; '(dst_2, src_2) ← stmt_2;
      match dst_1, dst_2 with
      | Tmp k _, Tmp l _ =>
          if (k =? i) && (l =? j) || (k =? j) && (l =? i) then rotation dst_bits src_1 src_2 else None
      | _, _ => None
      end
  | BinaryOp Or op0 op1 _ _ _ => rotation dst_bits op0 op1
  | _ => None
  end.

(** ** Soundness *)

Section soundness.
Context (r : string → Z).

(** The amounts of shifts are below the width of what they shift. *)
Definition shifts_inside (e : expr) : Prop :=
  match e with
  | BinaryOp (Shl | Shr | Sar) _ (Const n _) _ w _ => n < w
  | _ => True
  end.

Lemma shiftl_shiftr a n w : 0 ≤ n ≤ w → Z.shiftr (Z.shiftl a n mod 2 ^ w) n = a mod 2 ^ (w - n).
Proof.
  intros Hn. apply Z.bits_inj'. intros i Hi. rewrite Z.shiftr_spec, !testbit_mod_pow2 by lia.
  rewrite Z.shiftl_spec by lia. replace (i + n - n) with i by lia. f_equal.
  destruct (Z.ltb_spec (i + n) w), (Z.ltb_spec i (w - n)); try done; lia.
Qed.

Lemma small_amount n w : 0 ≤ n < w → n mod 2 ^ w = n.
Proof. intros H. pose proof (Z.pow_gt_lin_r 2 w ltac:(lia) ltac:(lia)). apply Z.mod_small. lia. Qed.

Lemma amount_below n w : 0 ≤ n < w → amount (Const n w).
Proof. intros H. pose proof (Z.pow_gt_lin_r 2 w ltac:(lia) ltac:(lia)). apply amount_const. lia. Qed.

Lemma ConvShlShr_sound : sound_on r shifts_inside ConvShlShr.
Proof.
  intros e e' Ht Hs H. unfold ConvShlShr in H.
  repeat (case_match; try discriminate H). injection H as <-. cbn in Hs. rule_conds. subst. typed_parts. ranges r.
  match goal with H : ?p ≤ ?q, H' : ?q < ?w |- refines _ (BinaryOp Shr (BinaryOp Shl _ (Const ?p _) _ _ _) _ _ _ _) _ => rename p into m, q into n end.
  refining; [by apply amount_below; lia|]. denote_parts. denote_goal. f_equal. small_consts.
  rewrite (small_amount (n - m)), Z.shiftl_1_l, ones_small, land_mask by lia.
  replace n with (m + (n - m)) at 2 by lia. by rewrite <-Z.shiftr_shiftr, shiftl_shiftr by lia.
Qed.

(** Logical shifts, without a truncation, whose amount fits eight bits. *)
Definition adjacent (e : expr) : Prop :=
  match e with
  | BinaryOp Shr (BinaryOp Shr _ (Const n _) _ _ _) (Const m _) _ _ _ => n + m < 256
  | _ => False
  end.

Lemma CoalesceAdjacentShiftRights_sound : sound_on r adjacent CoalesceAdjacentShiftRights.
Proof.
  intros e e' Ht Ha H. unfold CoalesceAdjacentShiftRights in H.
  destruct e as [| | | | |[] x y s w fp| | | | | | | | | |]; try done. destruct x as [| | | | |[] x k s' w' fp'| | | | | | | | | |]; try done.
  destruct y as [m mw| | | | | | | | | | | | | | |]; try (by destruct k). destruct k as [n nw| | | | | | | | | | | | | | |]; try done.
  cbn in Ha. injection H as <-. typed_parts. refining. denote_parts. denote_goal. f_equal. small_consts.
  rewrite (Z.mod_small (n + m)) by lia. symmetry. apply Z.shiftr_shiftr. lia.
Qed.

(** The bits that the truncation drops come back. *)
Lemma CoalesceAdjacentShiftRights_miscompiles : miscompiles r CoalesceAdjacentShiftRights.
Proof.
  counterexample (BinaryOp Shr (Convert 32 8 false (BinaryOp Shr (Register 0 32) (Const 4 8) false 32 false) TYPE_INT TYPE_INT)
    (Const 4 8) false 8 false) 0xFFFF.
Qed.

(** An arithmetic shift of what a logical shift left. *)
Lemma CoalesceAdjacentShiftRights_sign : miscompiles r CoalesceAdjacentShiftRights.
Proof.
  counterexample (BinaryOp Sar (BinaryOp Shr (Register 0 32) (Const 4 8) false 32 false) (Const 4 8) false 32 false) 0x80000000.
Qed.

(** *** Shifting back *)

Lemma bit_length_pow v : 0 < v → Z.land v (v - 1) = 0 → v = 2 ^ (bit_length v - 1).
Proof.
  intros Hv H. unfold bit_length. rewrite (proj2 (Z.eqb_neq v 0)), Z.abs_eq by lia. replace (Z.log2 v + 1 - 1) with (Z.log2 v) by lia.
  pose proof (Z.log2_spec v Hv) as [L1 L2]. pose proof (Z.log2_nonneg v). rewrite Z.pow_succ_r in L2 by done.
  destruct (Z.eq_dec v (2 ^ Z.log2 v)); [done|]. exfalso.
  assert (Z.log2 (v - 1) = Z.log2 v) as E by (apply Z.log2_unique; [done|rewrite Z.pow_succ_r by done; lia]).
  assert (Z.testbit (Z.land v (v - 1)) (Z.log2 v) = true); [|by rewrite H, Z.testbit_0_l in *].
  rewrite Z.land_spec, Z.bit_log2 by done. rewrite <-E. apply Z.bit_log2. pose proof (pow2_pos (Z.log2 v)). lia.
Qed.

Lemma left_amount_spec op x v k s w fp n :
  op = Shl ∨ op = Mul → 0 ≤ n → get_expr_shift_left_amount (BinaryOp op x (Const v k) s w fp) = Some n →
  op = Shl ∧ v = n ∨ op = Mul ∧ v = 2 ^ n.
Proof.
  intros [-> | ->] Hn H; cbn in H; [injection H as ->; by left|right; split; [done|]].
  destruct (Z.eqb_spec (Z.land v (v - 1)) 0) as [E|]; [|discriminate H]. injection H as <-.
  assert (0 < v). { destruct (Z.lt_trichotomy v 0) as [Hv|[-> |Hv]]; [|by cbn in Hn|done]. exfalso.
    assert (Z.land v (v - 1) < 0) by (apply Z.land_neg; lia). lia. }
  by apply bit_length_pow.
Qed.

Lemma signed_shift w n a : 0 ≤ n < w → signed w (Z.shiftl a n) = Z.shiftl (signed (w - n) a) n.
Proof.
  intros Hn. rewrite !Z.shiftl_mul_pow2 by lia. pose proof (signed_bounds (w - n) a ltac:(lia)).
  assert (2 ^ (w - 1) = 2 ^ (w - n - 1) * 2 ^ n) as E by (rewrite <-Z.pow_add_r by lia; f_equal; lia). pose proof (pow2_pos n ltac:(lia)).
  rewrite (signed_ext w _ (signed (w - n) a * 2 ^ n)); [apply signed_id; nia|lia|].
  replace w with (w - n + n) by lia. rewrite Z.pow_add_r by lia. replace (w - n + n - n) with (w - n) by lia.
  rewrite !Zmult_mod_distr_r, signed_congruent by lia. done.
Qed.

Lemma signed_mod w x : 0 ≤ w → signed w (x mod 2 ^ w) = signed w x.
Proof. intros H. apply signed_ext; [done|]. apply Zmod_mod. Qed.

Lemma shift_back_value (b : bool) w n a :
  0 ≤ n < w → 0 ≤ a < 2 ^ w →
  (if b then signed (w - n) ((if b then signed w a else a) mod 2 ^ (w - n)) else (if b then signed w a else a) mod 2 ^ (w - n)) mod 2 ^ w =
  (if b then Z.shiftr (signed w (Z.shiftl a n mod 2 ^ w)) n mod 2 ^ w else Z.shiftr (Z.shiftl a n mod 2 ^ w) n).
Proof.
  intros Hn Ha. destruct b.
  - rewrite !signed_mod, signed_shift by lia. rewrite Z.shiftr_shiftl_l, Z.sub_diag, Z.shiftl_0_r by lia. f_equal.
    apply signed_ext; [lia|]. apply (convert_low (w - n) w true); lia.
  - rewrite shiftl_shiftr by lia. apply mod_high. lia.
Qed.

(** What is shifted back was shifted by less than its width. *)
Lemma shifted_back_sound : sound_on r shifts_inside shifted_back.
Proof.
  intros e e' Ht Hs H. unfold shifted_back in H.
  destruct e as [| | | | |op x y s w fp| | | | | | | | | |]; try discriminate H.
  assert (op = Shr ∨ op = Sar) as Hop by (clear -H; destruct op; try discriminate H; first [by left|by right]).
  destruct x as [| | | | |op' x v s' wa fp'| | | | | | | | | |]; try (by destruct Hop as [-> | ->]).
  assert (op' = Shl ∨ op' = Mul) as Hop' by (clear -H Hop; destruct Hop as [-> | ->], op'; try discriminate H; first [by left|by right]).
  destruct v as [v k| | | | | | | | | | | | | | |]; try (by destruct Hop as [-> | ->], Hop' as [-> | ->]).
  destruct y as [n0 k0| | | | | | | | | | | | | | |]; try (by destruct Hop as [-> | ->], Hop' as [-> | ->]).
  assert (∃ n1, get_expr_shift_left_amount (BinaryOp op' x (Const v k) s' wa fp') = Some n1 ∧ n0 = n1 ∧
    e' = mkConvert (wa - n0) w (bool_decide (op = Sar)) (mkConvert wa (wa - n0) (bool_decide (op = Sar)) x)) as (n1 & Hn & <- & ->).
  { destruct (get_expr_shift_left_amount _) as [n1|]; [|by destruct Hop as [-> | ->], Hop' as [-> | ->]]. exists n1. split; [done|].
    destruct Hop as [-> | ->], Hop' as [-> | ->]; cbn in H; ifs H; injection H as <-; by subst. }
  assert (n0 < w) as Hlt by (by destruct Hop as [-> | ->]). clear H Hs.
  assert (wa = w ∧ bits x = w ∧ typed r x ∧ 0 < w ∧ 0 ≤ n0 < 2 ^ k0) as (-> & Hb & Hx & Hw & Hk).
  { clear Hn. destruct Hop as [-> | ->], Hop' as [-> | ->]; typed_parts; split_and!; try done; lia. }
  assert (∀ σ u, denote σ (BinaryOp op (BinaryOp op' x (Const v k) s' w fp') (Const n0 k0) s w fp) = Some u →
    ∃ a, denote σ x = Some a ∧ u = (if bool_decide (op = Sar) then Z.shiftr (signed w (Z.shiftl a n0 mod 2 ^ w)) n0 mod 2 ^ w
      else Z.shiftr (Z.shiftl a n0 mod 2 ^ w) n0)) as Hd.
  { assert (0 ≤ n0) as Hn0 by lia. intros σ u E. destruct (left_amount_spec _ _ _ _ _ _ _ _ Hop' Hn0 Hn) as [[-> ->]|[-> ->]];
      destruct Hop as [-> | ->]; clear Hn; typed_parts; denote_parts; eexists; (split; [done|]); small_consts; try done;
      rewrite Z.shiftl_mul_pow2 by lia; by rewrite Zmult_mod_idemp_r. }
  split; [cbn; repeat split; try done; lia|]. split; [done|]. intros σ u E. destruct (Hd σ u E) as (a & Ea & ->).
  cbn [denote mkConvert]. rewrite Ea. cbn. f_equal. ranges r. rewrite Hb in *. apply shift_back_value; lia.
Qed.

Lemma shifted_by_0_sound : sound r shifted_by_0.
Proof.
  intros e e' Ht _ H. unfold shifted_by_0 in H.
  destruct e as [| | | | |op x y s w fp| | | | | | | | | |]; try discriminate H.
  assert (op = Shl ∨ op = Shr ∨ op = Sar) as Hop by (clear -H; destruct op; try discriminate H; tauto).
  assert (∃ k, y = Const 0 k) as [k ->] by (clear -H Hop; destruct Hop as [-> |[-> | ->]], y as [[] ?| | | | | | | | | | | | | | |]; try discriminate H; eauto).
  assert (e' = x) as -> by (destruct Hop as [-> |[-> | ->]]; by simplify_eq).
  assert (typed r x ∧ bits x = w) as [Hx Hb] by (destruct Hop as [-> |[-> | ->]]; typed_parts; done).
  split; [done|]. split; [done|]. intros σ u E. destruct Hop as [-> |[-> | ->]]; denote_parts; ranges r;
    rewrite ?mod_0_pow, ?Z.shiftl_0_r, ?Z.shiftr_0_r, ?signed_congruent by lia; try rewrite Z.mod_small by lia; done.
Qed.

(** High parts of combinations without a factor of [2 ** 32]. *)
Definition has_factor (e : expr) : bool :=
  match e with
  | BinaryOp And (BinaryOp _ _ (Const m _) _ _ _) _ _ _ _ => m =? 0x100000000
  | BinaryOp Mul _ (Const m _) _ _ _ => m =? 0x100000000
  | _ => false
  end.

Definition no_factor (e : expr) : Prop :=
  match e with
  | BinaryOp Shr (BinaryOp Or x y _ _ _) _ _ _ _ => has_factor x = false ∧ has_factor y = false
  | _ => True
  end.

(** Under a shift by 32 only the high half counts. *)
Lemma land_high_half a : 0 ≤ a < 2 ^ 64 → Z.shiftr (Z.land a (0xFFFFFFFF00000000 mod 2 ^ 64)) 32 = Z.shiftr a 32.
Proof.
  intros Ha. rewrite Z.shiftr_land, (Z.mod_small 0xFFFFFFFF00000000) by lia.
  change (Z.shiftr 0xFFFFFFFF00000000 32) with (Z.ones 32). rewrite Z.land_ones by lia. apply Z.mod_small.
  apply (shiftr_small a 32 64); lia.
Qed.

Lemma lor_high_half a b : 0 ≤ b < 2 ^ 32 → Z.shiftr (Z.lor a b) 32 = Z.shiftr a 32.
Proof.
  intros Hb. rewrite Z.shiftr_lor, (Z.shiftr_div_pow2 b), Z.div_small by lia. apply Z.lor_0_r.
Qed.

Lemma high_half_sound op0 op1 n s e' :
  typed r op0 → typed r op1 → bits op0 = bits op1 → amount (Const 32 n) → 0 < n →
  unsigned op1 = true → has_factor op0 = false → high_half op0 op1 (Const 32 n) s = Some e' →
  typed r e' ∧ bits e' = bits op0 ∧ ∀ σ u v, denote σ op0 = Some u → denote σ op1 = Some v →
    v < 2 ^ 32 ∧ denote σ e' = Some (Z.shiftr u 32).
Proof.
  intros H0 H1 Hb Hn Hn' Hu Hf H. unfold high_half in H.
  destruct (is_widened_32 op1) eqn:E; [|discriminate H]. apply amount_const in Hn.
  destruct op1 as [| | | | | |f t b z k l| | | | | | | | |]; try discriminate E. cbn in E, Hu. rule_conds. subst. cbn in Hb.
  assert (∀ σ v, denote σ (Convert 32 64 false z k l) = Some v → v < 2 ^ 32) as Hv.
  { intros σ v Ev. destruct H1 as (_ & _ & _ & Hz & Ez). denote_parts. ranges r. rewrite Ez in *.
    match goal with B : 0 ≤ ?c < 2 ^ 32 |- _ => pose proof (Z.mod_le c (2 ^ 64)) end. lia. }
  destruct op0 as [| | | | |[] x y s' w' fp'| | | | | | | | | |]; try discriminate H. cbn in Hb. subst w'.
  destruct (match y with Const m _ => m =? 0xFFFFFFFF00000000 | _ => false end) eqn:Em.
  - destruct y as [m mw| | | | | | | | | | | | | | |]; try discriminate Em. rule_conds. subst m.
    assert (e' = mkBinary Shr x (Const 32 n) s) as -> by (destruct x as [| | | | |? ? [] ? ? ?| | | | | | | | | |]; cbn in Hf; rewrite ?Hf in H; by simplify_eq).
    typed_parts. split; [cbn; repeat split; try done; try lia; by apply amount_const|]. split; [done|]. intros σ u v Eu Ev. split; [by eapply Hv|].
    denote_parts. denote_goal. f_equal. ranges r. rewrite (Z.mod_small 32) by done. match goal with H : bits x = 64 |- _ => rewrite H in * end. by rewrite land_high_half by done.
  - assert (e' = mkBinary Shr (BinaryOp And x y s' 64 fp') (Const 32 n) s) as -> by (by simplify_eq).
    split; [cbn; repeat split; try done; try lia; try apply H0; by apply amount_const|]. split; [done|]. intros σ u v Eu Ev. split; [by eapply Hv|].
    cbn [denote mkBinary]. cbn [denote] in Eu. rewrite Eu. cbn. by rewrite (Z.mod_small 32) by done.
Qed.

Lemma high_factor_none x y : has_factor y = false → high_factor x y = None.
Proof. intros H. destruct y as [| | | | |[] a b ? ? ?| | | | | | | | | |]; try done. destruct b; try done. cbn in *. by rewrite H. Qed.

Lemma high_part_sound : sound_on r (λ e, unsigned e = true ∧ no_factor e) high_part.
Proof.
  intros e e' Ht [Hu Hs] H. unfold high_part in H.
  destruct e as [| | | | |[] x y s w fp| | | | | | | | | |]; try discriminate H.
  destruct x as [| | | | |[] x y' s' w' fp'| | | | | | | | | |]; try discriminate H. destruct Hs as [Hfx Hfy].
  assert (∃ n, y = Const 32 n) as [n ->] by (clear -H; destruct y as [[|p|] ?| | | | | | | | | | | | | | |]; try discriminate H; repeat (destruct p; try discriminate H); eauto).
  rewrite (high_factor_none x y'), (high_factor_none y' x) in H by done.
  cbn in Hu. rule_conds. destruct Ht as (Hw & Hfp & (Hw' & Hfp' & Hx & Hy & Hb1 & Hb2) & Hn & (Hb3 & Hb4)). cbn [bits] in *. destruct Hn as [Hn _]. cbn in Hn.
  assert (∀ a b, typed r a → typed r b → bits a = w → bits b = w → unsigned b = true → has_factor a = false → high_half a b (Const 32 n) s = Some e' →
    (∀ σ u v, denote σ x = Some u → denote σ y' = Some v → ∃ c d, denote σ a = Some c ∧ denote σ b = Some d ∧ Z.lor u v = Z.lor c d) →
    refines r (BinaryOp Shr (BinaryOp Or x y' s' w' fp') (Const 32 n) s w fp) e') as Hh.
  { intros a b Ha Hb Ea Eb Hub Hfa E Hd. destruct (high_half_sound a b n s e') as (T1 & T2 & T3); try done; [congruence|].
    split; [done|]. split; [cbn; congruence|]. intros σ v Ev. denote_parts. edestruct Hd as (c & d & Ec & Ed & ->); [done..|].
    destruct (T3 _ _ _ Ec Ed) as [Hlt ->]. f_equal. apply amount_const in Hb4. rewrite (Z.mod_small 32) by done.
    rewrite lor_high_half; [done|]. pose proof (denote_bound r σ b Hb d Ed). lia. }
  assert (w' = w) as -> by done.
  apply or_else_some in H as [H|H]; [|apply or_else_some in H as [H|H]; [|done]].
  - apply (Hh x y'); try done. intros; eauto.
  - apply (Hh y' x); try done. intros; do 2 eexists; split; [done|]; split; [done|]. apply Z.lor_comm.
Qed.

Theorem RemoveRedundantShifts_sound :
  sound_on r (λ e, unsigned e = true ∧ shifts_inside e ∧ no_factor e) RemoveRedundantShifts.
Proof.
  intros e e' Ht (Hu & Hs & Hf) H. unfold RemoveRedundantShifts in H.
  apply or_else_some in H as [H|H]; [by apply shifted_back_sound|].
  apply or_else_some in H as [H|H]; [by apply shifted_by_0_sound|by apply high_part_sound].
Qed.

(** The high half of a product with [2 ** 32] is the low half of the factor. *)
Lemma RemoveRedundantShifts_miscompiles : miscompiles r RemoveRedundantShifts.
Proof.
  counterexample (BinaryOp Shr (BinaryOp Or (Convert 32 64 false (Register 0 32) TYPE_INT TYPE_INT)
    (BinaryOp Mul (Register 8 64) (Const 0x100000000 64) false 64 false) false 64 false) (Const 32 8) false 64 false) 0x100000001.
Qed.

(** *** Comparisons *)

Lemma low_bits_zero v k : 0 ≤ k → (Z.land v (2 ^ k - 1) =? 0) = true ↔ (2 ^ k | v).
Proof. intros Hk. rewrite Z.eqb_eq, land_mask by done. pose proof (pow2_pos k Hk). apply Z.mod_divide. lia. Qed.

(** The greatest power of two that divides both. *)
Definition greatest_shift (v0 v1 n : Z) : Prop :=
  0 ≤ n ∧ (2 ^ n | v0) ∧ (2 ^ n | v1) ∧ ¬ ((2 ^ (n + 1) | v0) ∧ (2 ^ (n + 1) | v1)).

Lemma greatest_shift_step k v0 v1 n :
  0 ≤ k → (2 ^ k | v0) → (2 ^ k | v1) → greatest_shift (Z.shiftr v0 k) (Z.shiftr v1 k) n → greatest_shift v0 v1 (k + n).
Proof.
  intros Hk [a ->] [b ->] (Hn & Ha & Hb & Hno). rewrite !Z.shiftr_div_pow2, !Z.div_mul in * by (done || apply Z.pow_nonzero; lia).
  pose proof (pow2_pos k Hk). unfold greatest_shift. rewrite <-Z.add_assoc, !Z.pow_add_r by lia.
  assert (∀ c m, (2 ^ k * m | c * 2 ^ k) ↔ (m | c)) as E by (intros; rewrite (Z.mul_comm c); apply Z.mul_divide_cancel_l; lia).
  rewrite !E. split; [lia|]. split; [done|]. split; [done|]. by rewrite <-Z.pow_add_r by lia.
Qed.

Lemma shiftr_exact k v : 0 ≤ k → (2 ^ k | v) → v ≠ 0 → Z.shiftr v k ≠ 0 ∧ Z.log2 (Z.abs (Z.shiftr v k)) = Z.log2 (Z.abs v) - k.
Proof.
  intros Hk [a ->] Hv. pose proof (pow2_pos k Hk). rewrite Z.shiftr_div_pow2, Z.div_mul by lia. split; [by intros ->|].
  assert (a ≠ 0) by (by intros ->). rewrite Z.abs_mul, (Z.abs_eq (2 ^ k)), Z.log2_mul_pow2 by lia. lia.
Qed.

Lemma common_shift_spec fuel v0 v1 acc :
  v0 ≠ 0 → v1 ≠ 0 → Z.log2 (Z.abs v0) < Z.of_nat fuel →
  ∃ n, common_shift fuel v0 v1 acc = Some (acc + n) ∧ greatest_shift v0 v1 n.
Proof.
  revert v0 v1 acc. induction fuel as [|fuel IH]; intros v0 v1 acc H0 H1 Hf; [pose proof (Z.log2_nonneg (Z.abs v0)); lia|].
  assert (∀ k, 1 ≤ k → (Z.land v0 (2 ^ k - 1) =? 0) && (Z.land v1 (2 ^ k - 1) =? 0) = true →
    ∃ n, common_shift fuel (Z.shiftr v0 k) (Z.shiftr v1 k) (acc + k) = Some (acc + n) ∧ greatest_shift v0 v1 n) as Hstep.
  { intros k Hk [Ha Hb]%andb_prop. apply low_bits_zero in Ha, Hb; [|lia..].
    destruct (shiftr_exact k v0 ltac:(lia) Ha H0) as [N0 L0]. destruct (shiftr_exact k v1 ltac:(lia) Hb H1) as [N1 _].
    destruct (IH (Z.shiftr v0 k) (Z.shiftr v1 k) (acc + k)) as (n & E & Hn); [done|done|lia|].
    exists (k + n). rewrite E. split; [f_equal; lia|]. apply greatest_shift_step; [lia|done..]. }
  cbn [common_shift]. destruct (_ && _) eqn:E1.
  - repeat match goal with |- context [if ?b then _ else _] => destruct b eqn:?E end;
      [apply (Hstep 16)|apply (Hstep 8)|apply (Hstep 4)|apply (Hstep 1)]; done || lia.
  - exists 0. rewrite Z.add_0_r. split; [done|]. split; [lia|]. split; [apply Z.divide_1_l|]. split; [apply Z.divide_1_l|].
    intros [Ha Hb]. apply low_bits_zero in Ha, Hb; [|lia..]. change (2 ^ (0 + 1) - 1) with 1 in *. by rewrite Ha, Hb in E1.
Qed.

(** The loop ends with the greatest common shift, and 0 if a number is 0. *)
Theorem common_shift_amount_exact v0 v1 :
  ∃ n, _get_common_shift_amount v0 v1 = Some n ∧ (v0 = 0 ∨ v1 = 0 → n = 0) ∧ (v0 ≠ 0 → v1 ≠ 0 → greatest_shift v0 v1 n).
Proof.
  unfold _get_common_shift_amount. destruct ((v0 =? 0) || (v1 =? 0)) eqn:E.
  - exists 0. split; [done|]. split; [done|]. intros. apply orb_prop in E. lia.
  - apply orb_false_elim in E as [E0 E1]. destruct (common_shift_spec (S (Z.to_nat (Z.log2 (Z.abs v0)))) v0 v1 0) as (n & -> & Hn); [lia..| |].
    { pose proof (Z.log2_nonneg (Z.abs v0)). lia. }
    exists n. split; [done|]. split; [lia|done].
Qed.

(** The shifted values and the products do not leave their width. *)
Definition product_fits (e : expr) : Prop :=
  match e with
  | BinaryOp Shl x (Const n _) _ w _ => ∀ σ a, denote σ x = Some a → a * 2 ^ n < 2 ^ w
  | BinaryOp Mul x (Const m _) _ w _ => ∀ σ a, denote σ x = Some a → a * m < 2 ^ w
  | _ => True
  end.

Definition products_fit (e : expr) : Prop :=
  match e with BinaryOp _ x y _ _ _ => product_fits x ∧ product_fits y | _ => True end.

Lemma compare_scaled op n n' c a b : comparison op → 0 < c → compare op false n (c * a) (c * b) = compare op false n' a b.
Proof.
  intros Ho Hc. unfold compare. rewrite comparison_signed by done. f_equal.
  destruct op; try done; cbn; repeat match goal with |- context [?x =? ?y] => destruct (Z.eqb_spec x y) | |- context [?x <? ?y] => destruct (Z.ltb_spec x y)
    | |- context [?x <=? ?y] => destruct (Z.leb_spec x y) end; try done; nia.
Qed.

Lemma shifted_value σ x n k s w u :
  typed r (BinaryOp Shl x (Const n k) s w false) → product_fits (BinaryOp Shl x (Const n k) s w false) →
  denote σ (BinaryOp Shl x (Const n k) s w false) = Some u → ∃ a, denote σ x = Some a ∧ u = 2 ^ n * a.
Proof.
  intros Ht Hf E. cbn in Hf. typed_parts. denote_parts. specialize (Hf σ _ ltac:(eassumption)). ranges r. eexists. split; [done|].
  rewrite (Z.mod_small n), Z.shiftl_mul_pow2 by lia. pose proof (pow2_pos n). rewrite Z.mod_small; nia.
Qed.

Lemma shifts_around_sound op x y s w e' :
  let e := BinaryOp op x y s w false in
  comparison op → typed r e → unsigned e = true → products_fit e → shifts_around op x y s w false = Some e' → refines r e e'.
Proof.
  intros e Ho Ht Hu [Hfx Hfy] H. subst e. unfold shifts_around in H.
  destruct x as [| | | | |[] x k s0 w0 fp0| | | | | | | | | |]; try discriminate H. destruct k as [a ka| | | | | | | | | | | | | | |]; try discriminate H.
  destruct y as [| | | | |[] y k s1 w1 fp1| | | | | | | | | |]; try discriminate H. destruct k as [b kb| | | | | | | | | | | | | | |]; try discriminate H.
  destruct (Z.eqb_spec a b) as [<-|]; [|discriminate H]. injection H as <-.
  destruct (typed_comparison _ _ _ _ _ _ _ Ho Ht) as (Hx & Hy & Hb). cbn in Hb. subst w1.
  assert (s = false) as -> by (cbn in Hu; rule_conds; by eapply compares_unsigned).
  assert (fp0 = false ∧ fp1 = false) as [-> ->] by (split; [apply Hx|apply Hy]).
  assert (typed r x ∧ typed r y ∧ bits x = w0 ∧ bits y = w0 ∧ 0 ≤ a < 2 ^ ka) as (Htx & Hty & Ex & Ey & Ha) by (clear Ht; typed_parts; done).
  assert (w = 1) as -> by (destruct Ht as (_ & _ & _ & _ & Hw); by apply comparison_typed in Hw as [_ ->]).
  split; [cbn; rewrite comparison_typed by done; repeat split; try done; congruence|]. split; [done|].
  intros σ v E. apply denote_comparison in E as (u & u' & Eu & Eu' & <-); [|done].
  destruct (shifted_value _ _ _ _ _ _ _ Hx Hfx Eu) as (c & Ec & ->). destruct (shifted_value _ _ _ _ _ _ _ Hy Hfy Eu') as (d & Ed & ->).
  apply denote_comparison; [done|]. do 2 eexists. split; [done|]. split; [done|]. symmetry. apply compare_scaled; [done|apply pow2_pos; lia].
Qed.

Lemma product_value σ x m k s w n u :
  typed r (BinaryOp Mul x (Const m k) s w false) → product_fits (BinaryOp Mul x (Const m k) s w false) → 0 ≤ m < 2 ^ w → 0 ≤ n → (2 ^ n | m) →
  denote σ (BinaryOp Mul x (Const m k) s w false) = Some u →
  ∃ a, denote σ x = Some a ∧ u = 2 ^ n * (a * Z.shiftr m n) ∧
    denote σ (BinaryOp Mul x (Const (Z.shiftr m n) (bits x)) s w false) = Some (a * Z.shiftr m n).
Proof.
  intros Ht Hf Hm Hn [q ->] E. cbn in Hf. typed_parts. denote_parts. specialize (Hf σ _ ltac:(eassumption)). ranges r. eexists. split; [done|].
  pose proof (pow2_pos n Hn). rewrite Z.shiftr_div_pow2, Z.div_mul by lia.
  assert (0 ≤ q < 2 ^ bits x) by nia. match goal with H : denote σ x = Some ?a |- _ => assert (0 ≤ a * q < 2 ^ bits x) by nia end.
  denote_goal. rewrite !(Z.mod_small q), !(Z.mod_small (q * _)), !Z.mod_small by nia. split; [ring|done].
Qed.

Lemma constant_value n m k u : 0 ≤ m < 2 ^ k → 0 ≤ n → (2 ^ n | m) → 0 ≤ Z.shiftr m n < 2 ^ k ∧ (m mod 2 ^ k = u → u = 2 ^ n * Z.shiftr m n).
Proof.
  intros Hm Hn [q ->]. pose proof (pow2_pos n Hn). rewrite Z.shiftr_div_pow2, Z.div_mul by lia. split; [nia|]. rewrite Z.mod_small by lia. lia.
Qed.

Lemma factors_around_shape op x y s w fp e' :
  factors_around op x y s w fp = Some e' →
  ∃ x0 m0 k0 s0 w0 fp0 m1 n y', x = BinaryOp Mul x0 (Const m0 k0) s0 w0 fp0 ∧ 0 < n ∧ (2 ^ n | m0) ∧ (2 ^ n | m1) ∧
    e' = BinaryOp op (BinaryOp Mul x0 (Const (Z.shiftr m0 n) (bits x0)) s0 w0 false) y' s w fp ∧
    ((∃ y0 k1 s1 w1 fp1, y = BinaryOp Mul y0 (Const m1 k1) s1 w1 fp1 ∧ y' = BinaryOp Mul y0 (Const (Z.shiftr m1 n) (bits x0)) s1 w1 false) ∨
     (∃ k1, y = Const m1 k1 ∧ y' = Const (Z.shiftr m1 n) (bits x0))).
Proof.
  unfold factors_around. intros H.
  destruct x as [| | | | |[] x k s0 w0 fp0| | | | | | | | | |]; try discriminate H. destruct k as [m0 k0| | | | | | | | | | | | | | |]; try discriminate H.
  assert (∀ m1 (new_1 : expr → expr), _get_common_shift_amount m0 m1 ≫= (λ common,
    if 0 <? common then Some (BinaryOp op (BinaryOp Mul x (Const (Z.shiftr m0 common) (bits x)) s0 w0 false)
      (new_1 (Const (Z.shiftr m1 common) (bits x))) s w fp) else None) = Some e' →
    ∃ n, 0 < n ∧ (2 ^ n | m0) ∧ (2 ^ n | m1) ∧ e' = BinaryOp op (BinaryOp Mul x (Const (Z.shiftr m0 n) (bits x)) s0 w0 false)
      (new_1 (Const (Z.shiftr m1 n) (bits x))) s w fp) as Hg.
  { intros m1 new_1 E. destruct (common_shift_amount_exact m0 m1) as (n & En & H0 & Hg). rewrite En in E. cbn in E.
    destruct (Z.ltb_spec 0 n); [|discriminate E]. injection E as <-. exists n. destruct Hg as (_ & ? & ? & _); [lia|lia|done]. }
  destruct y as [m1 k1| | | | |[] y k s1 w1 fp1| | | | | | | | | |]; try discriminate H.
  - destruct (Hg m1 (λ z, z) H) as (n & H1 & H2 & H3 & ->). do 9 eexists. do 5 (split; [done|]). right. eauto.
  - destruct k as [m1 k1| | | | | | | | | | | | | | |]; try discriminate H.
    destruct (Hg m1 (λ z, BinaryOp Mul y z s1 w1 false) H) as (n & H1 & H2 & H3 & ->). do 9 eexists. do 5 (split; [done|]). left. eauto 9.
Qed.

Lemma factors_around_sound op x y s w e' :
  let e := BinaryOp op x y s w false in
  comparison op → typed r e → plain e → products_fit e → factors_around op x y s w false = Some e' → refines r e e'.
Proof.
  intros e Ho Ht [Hr Hu] [Hfx Hfy] H. subst e.
  apply factors_around_shape in H as (x0 & m0 & k0 & s0 & w0 & fp0 & m1 & n & y' & -> & Hn & D0 & D1 & -> & Hy').
  destruct (typed_comparison _ _ _ _ _ _ _ Ho Ht) as (Hx & Hy & Hb). cbn in Hb.
  assert (s = false) as -> by (cbn in Hu; rule_conds; by eapply compares_unsigned).
  assert (w = 1) as -> by (destruct Ht as (_ & _ & _ & _ & Hw); by apply comparison_typed in Hw as [_ ->]).
  assert (fp0 = false) as -> by apply Hx. pose proof (pow2_pos n ltac:(lia)).
  assert (typed r x0 ∧ bits x0 = w0 ∧ k0 = w0 ∧ 0 < w0 ∧ 0 ≤ m0 < 2 ^ w0) as (Tx & Ex & -> & Hw0 & R0)
    by (clear Ht Hy Hy'; cbn in Hr; rule_conds; typed_parts; split_and!; lia || done).
  assert (typed r y' ∧ bits y' = w0 ∧ ∀ σ u, denote σ y = Some u → ∃ b, u = 2 ^ n * b ∧ denote σ y' = Some b) as (Ty & Ey & Vy).
  { destruct Hy' as [(y0 & k1 & s1 & w1 & fp1 & -> & ->)|(k1 & -> & ->)]; cbn in Hb.
    - assert (fp1 = false) as -> by apply Hy. assert (bits y0 = w1 ∧ k1 = w1 ∧ 0 < w1 ∧ typed r y0) as (Eb1 & -> & Hw1 & Ty0) by (clear Ht Hx; typed_parts; done).
      assert (w0 = w1) as -> by congruence. assert (0 ≤ m1 < 2 ^ w1) as R1 by (cbn in Hr; rule_conds; lia).
      split; [cbn; repeat split; try done; lia|]. split; [done|]. intros σ u E.
      destruct (product_value σ y0 m1 w1 s1 w1 n u Hy Hfy R1 ltac:(lia) D1 E) as (b & Eb & -> & Ep). exists (b * Z.shiftr m1 n). split; [done|].
      rewrite Ex. by rewrite Eb1 in Ep.
    - assert (0 ≤ m1 < 2 ^ k1) as R1 by (cbn in Hr; rule_conds; lia). rewrite Ex, Hb.
      destruct (constant_value n m1 k1 0) as [R2 _]; [lia|lia|done|].
      split; [cbn; split; [lia|done]|]. split; [done|]. intros σ u E. cbn in E. injection E as E.
      destruct (constant_value n m1 k1 u) as [_ V1]; [lia|lia|done|]. exists (Z.shiftr m1 n). split; [by apply V1|].
      cbn. by rewrite Z.mod_small. }
  split; [cbn; rewrite comparison_typed by done; cbn; repeat split; try done; lia|]. split; [done|].
  intros σ v E. apply denote_comparison in E as (u & u' & Eu & Eu' & <-); [|done].
  destruct (product_value _ _ _ _ _ _ n _ Hx Hfx R0 ltac:(lia) D0 Eu) as (a & Ea & -> & Ep). destruct (Vy _ _ Eu') as (b & -> & Eb).
  apply denote_comparison; [done|]. do 2 eexists. split; [done|]. split; [done|]. symmetry. by apply compare_scaled.
Qed.

Lemma RemoveRedundantShiftsAroundComparators_sound :
  sound_on r (λ e, plain e ∧ products_fit e) RemoveRedundantShiftsAroundComparators.
Proof.
  intros e e' Ht [Hp Hf] H. unfold RemoveRedundantShiftsAroundComparators in H.
  destruct e as [| | | | |op x y s w fp| | | | | | | | | |]; try discriminate H. assert (fp = false) as -> by apply Ht.
  assert (comparison op ∧ or_else (shifts_around op x y s w false) (factors_around op x y s w false) = Some e') as [Ho H'] by (by destruct op).
  apply or_else_some in H' as [E|E]; [apply (shifts_around_sound op x y s w); try done; apply Hp|by apply (factors_around_sound op x y s w)].
Qed.

(** The bits that the shift drops. *)
Lemma RemoveRedundantShiftsAroundComparators_miscompiles : miscompiles r RemoveRedundantShiftsAroundComparators.
Proof.
  counterexample (BinaryOp CmpEQ (BinaryOp Shl (Register 0 8) (Const 1 8) false 8 false)
    (BinaryOp Shl (Const 0 8) (Const 1 8) false 8 false) false 1 false) 0x80.
Qed.

(** *** Single bits *)

Lemma testbit_single a k w i : a = 0 ∨ a = 1 → 0 ≤ k → 0 ≤ i → 0 ≤ w →
  Z.testbit (Z.shiftl a k mod 2 ^ w) i = (i <? w) && (k =? i) && (a =? 1).
Proof.
  intros Ha Hk Hi Hw. rewrite testbit_mod_pow2, Z.shiftl_spec by lia. destruct (i <? w); [|done]. cbn.
  destruct Ha as [-> | ->]; cbn; [rewrite Z.testbit_0_l; by destruct (k =? i)|].
  destruct (Z.eqb_spec k i) as [-> |]; [by rewrite Z.sub_diag|].
  destruct (Z.lt_trichotomy (i - k) 0) as [?|[?|?]]; [by rewrite Z.testbit_neg_r|lia|]. apply Z.bits_above_log2; [lia|]. cbn. lia.
Qed.

Lemma lone_bit e σ v : typed r e → bits e = 1 → denote σ e = Some v → v = 0 ∨ v = 1.
Proof. intros Ht Hb E. pose proof (denote_bound r σ e Ht v E) as B. rewrite Hb in B. lia. Qed.

(** A single bit: the truth value of an expression, shifted. *)
Definition single_bit (e : expr) (k : Z) (c : expr) : Prop :=
  0 ≤ k ∧ ∀ σ v, denote σ e = Some v → ∃ a, denote σ c = Some a ∧ (a = 0 ∨ a = 1) ∧ v = Z.shiftl a k mod 2 ^ bits e.

Lemma single_bit_self e : typed r e → (∀ σ v, denote σ e = Some v → v = 0 ∨ v = 1) → single_bit e 0 e.
Proof.
  intros Ht H. split; [done|]. intros σ v E. exists v. split; [done|]. split; [by eapply H|].
  rewrite Z.shiftl_0_r, Z.mod_small; [done|]. by eapply denote_bound.
Qed.

Lemma single_bit_1 e : typed r e → (if bits e =? 1 then Some (0, e) else None) ≠ None → single_bit e 0 e.
Proof.
  intros Ht H. destruct (Z.eqb_spec (bits e) 1); [|done]. apply single_bit_self; [done|]. intros. by eapply lone_bit.
Qed.

Lemma setbit_binop op x y s w fp k c :
  _get_setbit (BinaryOp op x y s w fp) = Some (k, c) →
  (∃ n o j, op = Shl ∧ y = Const o n ∧ _get_setbit x = Some (j, c) ∧ k = j + o) ∨
  (∃ n, op = And ∧ y = Const 1 n ∧ k = 0 ∧ c = BinaryOp op x y s w fp) ∨ (w = 1 ∧ k = 0 ∧ c = BinaryOp op x y s w fp).
Proof.
  intros H. assert (∀ e, (if w =? 1 then Some (0, e) else None) = Some (k, c) → w = 1 ∧ k = 0 ∧ c = e) as H1.
  { intros e E. destruct (Z.eqb_spec w 1); [|discriminate E]. by simplify_eq. }
  destruct op; try (right; right; by apply H1).
  - destruct y as [[|[]|] n| | | | | | | | | | | | | | |]; try (right; right; by apply H1). right; left. exists n. by simplify_eq/=.
  - destruct y as [o n| | | | | | | | | | | | | | |]; try (right; right; by apply H1). cbn in H.
    destruct (_get_setbit x) as [[j c']|]; [|right; right; by apply H1]. left. exists n, o, j. by simplify_eq.
Qed.

Lemma setbit_spec e : typed r e → ∀ k c, _get_setbit e = Some (k, c) → single_bit e k c.
Proof.
  induction e; intros Ht k' c' H;
    try (cbn in H; match type of H with (if ?b then _ else _) = _ => destruct b eqn:E end; [|discriminate H]; injection H as <- <-;
      apply single_bit_1; [done|cbn; by rewrite E]).
  - apply setbit_binop in H as [(n & o & j & -> & -> & Hx & ->)|[(n & -> & -> & -> & ->)|(-> & -> & ->)]].
    + assert (typed r e1 ∧ bits e1 = bits0 ∧ 0 ≤ o < 2 ^ n ∧ 0 < bits0 ∧ floating_point = false) as (T1 & B1 & Ho & Hw & ->) by (typed_parts; done).
      destruct (IHe1 T1 _ _ Hx) as [Hj Hv]. split; [lia|]. intros σ v E. apply denote_binop in E as (a & b & Ea & Eb & E); [|done|done].
      destruct (Hv _ _ Ea) as (t & Et & Ht' & ->). cbn in Eb, E. exists t. split; [done|]. split; [done|]. injection Eb as <-. injection E as <-.
      rewrite (Z.mod_small o), B1 by done. cbn. rewrite !Z.shiftl_mul_pow2, Zmult_mod_idemp_l, Z.pow_add_r by lia. f_equal. ring.
    + apply single_bit_self; [done|]. intros σ v E. typed_parts. denote_parts. rewrite mod_1_pow by lia.
      rewrite (Z.land_ones _ 1) by done. pose proof (Z.mod_pos_bound a (2 ^ 1) ltac:(lia)). lia.
    + apply single_bit_1; done.
  - cbn [_get_setbit] in H. destruct ((from_bits =? 1) && negb is_signed) eqn:E.
    + injection H as <- <-. rule_conds. subst. split; [done|]. intros σ v Ev. destruct Ht as (Hw & -> & -> & Hx & Hb). denote_parts.
      eexists. split; [done|]. split; [by eapply lone_bit|]. by rewrite Z.shiftl_0_r.
    + destruct (bits (Convert from_bits to_bits is_signed e from_type to_type) =? 1) eqn:E1; [|discriminate H]. injection H as <- <-.
      apply single_bit_1; [done|by rewrite E1].
Qed.

(** *** Combinations of single bits *)

Definition bit_of (σ : env) (d : list (Z * expr)) (i : Z) : bool :=
  existsb (λ p, (p.1 =? i) && bool_decide (denote σ p.2 = Some 1)) d.

(** The expressions of a mapping are truth values, whose bits make up [e]. *)
Definition bits_of (e : expr) (d : list (Z * expr)) : Prop :=
  NoDup (keys d) ∧ ∀ σ v, denote σ e = Some v →
    (∀ k c, (k, c) ∈ d → ∃ a, denote σ c = Some a ∧ (a = 0 ∨ a = 1)) ∧
    ∀ i, 0 ≤ i → Z.testbit v i = (i <? bits e) && bit_of σ d i.

Lemma single_bits e k c : single_bit e k c → 0 ≤ bits e → bits_of e [(k, c)].
Proof.
  intros [Hk H] Hw. split; [cbn; by apply NoDup_singleton|]. intros σ v E. destruct (H σ v E) as (a & Ea & Ha & ->). split.
  - intros k' c' Hin. apply list_elem_of_singleton in Hin. simplify_eq. eauto.
  - intros i Hi. rewrite testbit_single by done. unfold bit_of. cbn. rewrite Ea, orb_false_r, <-andb_assoc. f_equal. f_equal.
    destruct Ha as [-> | ->]; [by rewrite bool_decide_eq_false_2|by rewrite bool_decide_eq_true_2].
Qed.

Lemma bits_of_or x y s w fp d d' :
  typed r (BinaryOp Or x y s w fp) → bits_of x d → bits_of y d' → (∀ k, k ∈ keys d → k ∈ keys d' → False) →
  bits_of (BinaryOp Or x y s w fp) (d ++ d').
Proof.
  intros Ht [Hn Hd] [Hn' Hd'] Hdis. destruct Ht as (_ & _ & _ & _ & Ex & Ey). split.
  - unfold keys in *. rewrite map_app. apply list.NoDup_app; split; [done|]. split; [|done]. intros k H1 H2. by eapply Hdis.
  - intros σ v E. apply denote_binop in E as (a & b & Ea & Eb & E); [|done|done]. cbn in E. injection E as <-.
    destruct (Hd σ a Ea) as [H1 H2]. destruct (Hd' σ b Eb) as [H3 H4]. split.
    + intros k c [Hin|Hin]%elem_of_app; eauto.
    + intros i Hi. rewrite Z.lor_spec, H2, H4 by done. cbn [bits]. rewrite Ex, Ey. unfold bit_of. rewrite existsb_app. by destruct (i <? w).
Qed.

Definition add_bits (d : list (Z * expr)) (arg : expr) (rest : option (list (Z * expr))) : option (list (Z * expr)) :=
  match _get_setbit arg with
  | Some (setbit, c) => if bool_decide (setbit ∈ keys d) then None else Some (d ++ [(setbit, c)])
  | None => d' ← rest; if existsb (λ k, bool_decide (k ∈ keys d)) (keys d') then None else Some (d ++ d')
  end.

Lemma add_bits_spec d arg rest d1 :
  typed r arg → (∀ d', rest = Some d' → bits_of arg d') → add_bits d arg rest = Some d1 →
  ∃ d', d1 = d ++ d' ∧ bits_of arg d' ∧ ∀ k, k ∈ keys d → k ∈ keys d' → False.
Proof.
  intros Ht Hr H. unfold add_bits in H. destruct (_get_setbit arg) as [[k c]|] eqn:E.
  - case_bool_decide as Hk; [discriminate H|]. injection H as <-. exists [(k, c)]. split; [done|]. split.
    + apply single_bits; [by apply setbit_spec|]. pose proof (width_pos r arg Ht). lia.
    + intros k' H1 H2. cbn in H2. apply list_elem_of_singleton in H2. by subst.
  - destruct rest as [d'|]; [|discriminate H]. cbn in H. destruct (existsb _ _) eqn:Ee; [discriminate H|]. injection H as <-.
    exists d'. split; [done|]. split; [by apply Hr|]. intros k H1 H2. apply not_true_iff_false in Ee. apply Ee, existsb_exists.
    exists k. split; [by apply list_elem_of_In|]. by apply bool_decide_eq_true.
Qed.

Lemma mapping_spec e : typed r e → ∀ d, _extract_bitoffset_to_expr_mapping e = Some d → bits_of e d.
Proof.
  induction e; intros Ht d' H; try discriminate H. destruct op; try discriminate H.
  change (add_bits [] e1 (_extract_bitoffset_to_expr_mapping e1) ≫= (λ d, add_bits d e2 (_extract_bitoffset_to_expr_mapping e2)) = Some d') in H.
  assert (typed r e1 ∧ typed r e2) as [T1 T2] by (split; apply Ht).
  destruct (add_bits [] e1 _) as [d1|] eqn:E1; [|discriminate H]. cbn in H.
  apply add_bits_spec in E1 as (b1 & -> & B1 & _); [|done|by apply IHe1].
  apply add_bits_spec in H as (b2 & -> & B2 & Hdis); [|done|by apply IHe2]. by apply bits_of_or.
Qed.

Lemma bit_of_absent σ d i : i ∉ keys d → bit_of σ d i = false.
Proof.
  intros H. apply not_true_iff_false. intros (p & Hin & Hp)%existsb_exists. apply andb_prop in Hp as [Hp _]. apply H.
  apply Z.eqb_eq in Hp as <-. apply list_elem_of_In. by apply in_map.
Qed.

Lemma bit_of_find σ d i k c :
  NoDup (keys d) → find (λ p, p.1 =? i) d = Some (k, c) → k = i ∧ (k, c) ∈ d ∧ bit_of σ d i = bool_decide (denote σ c = Some 1).
Proof.
  intros Hn H. induction d as [|[k' c'] d IH]; [discriminate H|]. cbn in H. inversion Hn as [|? ? Hk Hd]; subst.
  unfold bit_of. cbn [existsb fst snd]. destruct (Z.eqb_spec k' i) as [-> |Hi].
  - injection H as <- <-. split; [done|]. split; [by left|]. cbn. fold (bit_of σ d i). by rewrite bit_of_absent, orb_false_r.
  - destruct (IH Hd H) as (-> & Hin & E). split; [done|]. split; [by right|done].
Qed.

(** The bit is one of the operand's. *)
Definition bit_inside (e : expr) : Prop :=
  match e with BinaryOp _ x _ _ w _ => 0 ≤ (bit_source x).2 < w | _ => True end.

(** The rewritten expression has the value of the original; the condition it
    makes need not be of one bit. *)
Theorem RewriteBitExtractions_value e e' σ v :
  typed r e → bit_inside e → RewriteBitExtractions e = Some e' → denote σ e = Some v → denote σ e' = Some v ∧ bits e' = bits e.
Proof.
  intros Ht Hin H E. unfold RewriteBitExtractions in H.
  destruct e as [| | | | |[] x y s w fp| | | | | | | | | |]; try discriminate H.
  destruct y as [[|[]|] n| | | | | | | | | | | | | | |]; try discriminate H. cbn in Hin.
  destruct (bit_source x) as [raw k] eqn:Es. cbn in Hin.
  destruct (_extract_bitoffset_to_expr_mapping raw) as [d|] eqn:Ed; [|discriminate H]. cbn in H.
  destruct (find _ d) as [[k' c]|] eqn:Ef; [|discriminate H]. cbn in H. injection H as <-. split; [|done].
  assert (typed r raw ∧ bits raw = w ∧ 0 < w ∧ ∃ a, denote σ raw = Some a ∧ v = flag (Z.testbit a k)) as (Tr & Br & Hw & a & Ea & ->).
  { assert (∀ z, Z.land z (1 mod 2 ^ w) = flag (Z.testbit z 0) ∨ w ≤ 0) as Hl.
    { intros z. destruct (Z.lt_ge_cases 0 w); [left|by right]. rewrite mod_1_pow, (Z.land_ones _ 1), Zmod_odd, Z.bit0_odd by done. done. }
    destruct (match x with BinaryOp Shr _ (Const _ _) _ _ _ => true | _ => false end) eqn:Eshr.
    - destruct x as [| | | | |[] x q ? ? ?| | | | | | | | | |]; try discriminate Eshr. destruct q as [q m| | | | | | | | | | | | | | |]; try discriminate Eshr.
      cbn in Es. simplify_eq. typed_parts. denote_parts. split; [done|]. split; [done|]. split; [done|]. eexists. split; [done|].
      destruct (Hl (Z.shiftr a0 (k mod 2 ^ m))) as [->|]; [|lia]. rewrite Z.mod_small, Z.shiftr_spec by done. done.
    - assert (raw = x ∧ k = 0) as [-> ->].
      { clear -Es Eshr. destruct x as [| | | | |[] x q ? ? ?| | | | | | | | | |]; try (cbn in Es; by simplify_eq). destruct q; cbn in Es; by simplify_eq. }
      typed_parts. denote_parts. split; [done|]. split; [done|]. split; [done|]. eexists. split; [done|]. by destruct (Hl a) as [->|]; [|lia]. }
  destruct (mapping_spec raw Tr d Ed) as [Hn Hd]. destruct (Hd σ a Ea) as [Hc Hb].
  destruct (bit_of_find σ d k k' c Hn Ef) as (-> & Hin' & Hbit). destruct (Hc k c Hin') as (t & Et & Ht').
  rewrite Hb, Br, Hbit, Et by lia. rewrite (proj2 (Z.ltb_lt k w)) by lia. cbn. rewrite Et. cbn. rewrite mod_1_pow by done.
  destruct Ht' as [-> | ->]; cbn; by rewrite ?mod_0_pow.
Qed.

(** The condition is of the width of the operand. *)
Lemma RewriteBitExtractions_condition_width :
  let e := BinaryOp And (BinaryOp Or (BinaryOp And (Register 0 32) (Const 1 32) false 32 false)
    (BinaryOp Shl (Convert 1 32 false (Register 8 1) TYPE_INT TYPE_INT) (Const 1 8) false 32 false) false 32 false) (Const 1 32) false 32 false in
  ∃ e', typed r e ∧ RewriteBitExtractions e = Some e' ∧ ¬ typed r e'.
Proof.
  eexists. split; [cbn; repeat split; try lia; by apply amount_const|]. split; [vm_compute; reflexivity|].
  intros (_ & _ & _ & _ & H & _). discriminate H.
Qed.

(** *** Signed divisions *)

Lemma quot_pow2 s d : 0 < d → Z.quot s d = (if s <? 0 then s + (d - 1) else s) / d.
Proof.
  intros Hd. destruct (Z.ltb_spec s 0); [|apply Z.quot_div_nonneg; lia].
  rewrite <-(Z.opp_involutive s) at 1. rewrite Z.quot_opp_l, Z.quot_div_nonneg by lia.
  apply (Z.div_unique_pos _ _ _ (d - 1 - (- s) mod d)); [pose proof (Z.mod_pos_bound (- s) d); lia|].
  pose proof (Z.div_mod (- s) d ltac:(lia)). lia.
Qed.

(** The condition tests the sign of the whole of the expression; a comparison
    is a signed one. *)
Definition tests_sign (cond : expr) (b : bool) (w : Z) (inner : expr) : Prop :=
  _check_signedness cond = Some (b, w, inner) ∧ w = bits inner ∧
  match cond with BinaryOp CmpGE _ _ s _ _ => s = true | _ => True end.

Lemma top_bit_sign w a : 0 < w → 0 ≤ a < 2 ^ w → Z.shiftr a (w - 1) = flag (signed w a <? 0).
Proof.
  intros Hw Ha. rewrite signed_cases by lia. pose proof (pow2_double w ltac:(lia)). rewrite Z.shiftr_div_pow2 by lia.
  destruct (Z.ltb_spec a (2 ^ (w - 1))).
  - rewrite Z.div_small by lia. by rewrite (proj2 (Z.ltb_ge _ _)) by lia.
  - rewrite (proj2 (Z.ltb_lt _ _)) by lia. cbn [flag]. symmetry. apply (Z.div_unique_pos _ _ _ (a - 2 ^ (w - 1))); lia.
Qed.

Lemma tested_sign_value x w inner σ u :
  typed r x → tested_sign x = Some (w, inner) → w = bits inner → denote σ x = Some u →
  typed r inner ∧ ∃ a, denote σ inner = Some a ∧ u = flag (signed w a <? 0).
Proof.
  intros Ht H Hw E. destruct x as [| | | | |op x y s w' fp| | | | | | | | | |]; try discriminate H.
  destruct op; try discriminate H.
  - destruct x as [| | | | |[] x k ? ? ?| | | | | | | | | |]; try discriminate H. destruct k as [k n| | | | | | | | | | | | | | |]; try discriminate H.
    destruct y as [[|[]|] m| | | | | | | | | | | | | | |]; try discriminate H. cbn in H. case_bool_decide; [|discriminate H]. injection H as <- <-.
    typed_parts. denote_parts. ranges r. split; [done|]. eexists. split; [done|]. small_consts. rewrite mod_1_pow by lia.
    replace k with (bits x - 1) by lia. rewrite top_bit_sign by lia. replace (bits x - 1 + 1) with (bits x) by lia. by destruct (_ <? _).
  - destruct y as [k n| | | | | | | | | | | | | | |]; try discriminate H. cbn in H. destruct (_ && _) eqn:Ek; [|discriminate H]. injection H as <- <-.
    typed_parts. denote_parts. ranges r. split; [done|]. eexists. split; [done|]. small_consts.
    replace k with (bits x - 1) by lia. rewrite top_bit_sign by lia. by replace (bits x - 1 + 1) with (bits x) by lia.
Qed.

Lemma tested_expr_value x σ u :
  typed r x → denote σ x = Some u → ∃ u', denote σ (tested_expr x) = Some u' ∧ ∀ b, u' = flag b → u = flag b.
Proof.
  intros Ht E. destruct x as [| | | | | |f t cs x k l| | | | | | | | |]; try (exists u; by split). cbn [tested_expr].
  destruct ((t <? f) && (t =? 1)) eqn:Et; [|exists u; by split]. rule_conds. subst t. destruct Ht as (_ & -> & -> & Hx & Hf). denote_parts.
  eexists. split; [done|]. intros b ->. rewrite convert_low by lia. by destruct b.
Qed.

Lemma tested_expr_typed x : typed r x → typed r (tested_expr x).
Proof. intros Ht. destruct x; try done. cbn. case_match; [|done]. apply Ht. Qed.

Lemma tests_sign_value cond b w inner σ t :
  typed r cond → tests_sign cond b w inner → denote σ cond = Some t →
  typed r inner ∧ ∀ a, denote σ inner = Some a → t = flag (if b then signed w a <? 0 else 0 <=? signed w a).
Proof.
  intros Ht (H & -> & Hs) E. unfold _check_signedness in H.
  destruct cond as [| | | | |op x y s w fp| | | | | | | | | |]; try discriminate H. destruct y as [v n| | | | | | | | | | | | | | |]; try discriminate H.
  destruct (bool_decide (op = CmpGE) && (v =? 0)) eqn:Ege.
  - rule_conds. subst. injection H as <- Hn <-. typed_parts. split; [done|]. intros a Ea. denote_parts. rewrite mod_0_pow. unfold compare. cbn.
    replace (signed (bits x) 0) with 0; [done|]. symmetry. apply signed_id; [lia|]. pose proof (pow2_pos (bits x - 1)). lia.
  - destruct (negb _ && negb _) eqn:Ev; [discriminate H|]. destruct (tested_sign (tested_expr x)) as [[w' inner']|] eqn:Es; [|discriminate H].
    cbn in H. injection H as <- Hw <-. apply andb_false_iff in Ev.
    assert ((op = CmpEQ ∨ op = CmpNE) ∧ (v = 0 ∨ v = 1) ∧ fp = false) as (Hop & Hv & ->).
    { split; [|split; [|apply Ht]]; destruct Ev as [Ev|Ev]; apply negb_false_iff in Ev;
        apply orb_prop in Ev as [Ev|Ev]; rule_conds; tauto. }
    assert (typed r x ∧ bits x = n) as [Hx Hb] by (destruct Hop as [-> | ->]; typed_parts; done).
    assert (comparison op) as Hco by (destruct Hop as [-> | ->]; done).
    apply denote_comparison in E as (u & v' & Eu & Ev' & <-); [|done]. cbn in Ev'. injection Ev' as <-. ranges r.
    assert (v mod 2 ^ n = v) as -> by (rewrite <-Hb; destruct Hv as [-> | ->]; [apply mod_0_pow|by apply mod_1_pow]).
    destruct (tested_expr_value x σ u Hx Eu) as (u' & Eu2 & Hu).
    destruct (tested_sign_value _ _ _ _ _ (tested_expr_typed x Hx) Es Hw Eu2) as (Hi & a & Ea & Hflag). apply Hu in Hflag as ->.
    split; [done|]. intros a' Ea'. rewrite Ea in Ea'. injection Ea' as <-. rewrite Hw in *.
    assert (0 ≤ v < 2 ^ bits x) as Bv by (assert (2 ^ 1 ≤ 2 ^ bits x) by (apply Z.pow_le_mono_r; lia); lia).
    destruct Hop as [-> | ->]; rewrite ?compare_eq, ?compare_ne by done; f_equal;
      destruct Hv as [-> | ->]; cbn; destruct (Z.ltb_spec (signed (bits inner') a) 0), (Z.leb_spec 0 (signed (bits inner') a)); try done; lia.
Qed.

Lemma tested_sign_typed x w inner : typed r x → tested_sign x = Some (w, inner) → typed r inner.
Proof.
  intros Ht H. destruct x as [| | | | |op x y s w' fp| | | | | | | | | |]; try discriminate H. destruct op; try discriminate H.
  - destruct x as [| | | | |[] x k ? ? ?| | | | | | | | | |]; try discriminate H. destruct k; try discriminate H.
    destruct y as [[|[]|] m| | | | | | | | | | | | | | |]; try discriminate H. cbn in H. case_match; [|discriminate H]. injection H as <- <-. by typed_parts.
  - destruct y; try discriminate H. cbn in H. case_match; [|discriminate H]. injection H as <- <-. by typed_parts.
Qed.

Lemma check_signedness_typed cond b w inner : typed r cond → _check_signedness cond = Some (b, w, inner) → typed r inner.
Proof.
  intros Ht H. unfold _check_signedness in H. destruct cond as [| | | | |op x y s w' fp| | | | | | | | | |]; try discriminate H.
  destruct y as [v n| | | | | | | | | | | | | | |]; try discriminate H. assert (typed r x) as Hx by apply Ht.
  case_match; [by simplify_eq|]. case_match; [discriminate H|].
  destruct (tested_sign (tested_expr x)) as [[w0 i]|] eqn:Es; [|discriminate H]. cbn in H. simplify_eq.
  eapply tested_sign_typed; [|done]. by apply tested_expr_typed.
Qed.

Lemma signed_div_round w c a : 0 ≤ c < w - 1 → signed w a < 0 → signed w (a + (2 ^ c - 1)) = signed w a + (2 ^ c - 1).
Proof.
  intros Hc Ha. assert (2 ^ c < 2 ^ (w - 1)) by (apply Z.pow_lt_mono_r; lia). pose proof (pow2_pos c ltac:(lia)).
  pose proof (signed_bounds w a ltac:(lia)). rewrite (signed_ext w _ (signed w a + (2 ^ c - 1))); [apply signed_id; lia|lia|].
  by rewrite <-(Zplus_mod_idemp_l (signed w a)), signed_congruent, Zplus_mod_idemp_l by lia.
Qed.

(** A shift, by less than the width, of a conditional on the sign of the operand. *)
Definition division_shape (e : expr) : Prop :=
  match e with
  | BinaryOp Sar (ITE cond _ _) (Const c _) _ w _ => c < w - 1 ∧ ∃ b inner, tests_sign cond b w inner
  | _ => False
  end.

(** The rounding of a negative dividend before the shift makes it the signed
    division that rounds towards zero. *)
Theorem SarToSignedDiv_sound previous e e' :
  typed r e → division_shape e → SarToSignedDiv previous e = Some e' → refines r e e'.
Proof.
  intros Ht Hs H.
  destruct e as [| | | | |[] x y s w fp| | | | | | | | | |]; try done. destruct x as [| | | | | | | |cond p q| | | | | | |]; try done.
  destruct y as [c n| | | | | | | | | | | | | | |]; try done. destruct Hs as (Hc & b & inner & Hsign). cbn in H.
  destruct Hsign as (Hck & Hib & Hge). rewrite Hck in H. cbn in H.
  assert (typed r cond ∧ typed r p ∧ typed r q ∧ bits p = w ∧ bits q = w ∧ 0 ≤ c < 2 ^ n) as (Tc & Tp & Tq & Bp & Bq & Rc)
    by (clear -Ht; typed_parts; split_and!; congruence || lia || done).
  pose proof (check_signedness_typed _ _ _ _ Tc Hck) as Ti. rewrite <-Hib, Z.eqb_refl in H.
  assert (∃ s1 kw, e' = mkBinary Div inner (Const (2 ^ c) (bits inner)) true ∧
    (if b then p else q) = BinaryOp Add inner (Const (2 ^ c - 1) kw) s1 w false ∧ (if b then q else p) = inner) as (s1 & kw & -> & Ep & Eq).
  { assert (∀ sr ur, typed r sr → typed r ur → bits sr = w →
      match sr with BinaryOp Add y (Const k _) _ _ _ => if (k =? 2 ^ c - 1) && likes ur y && likes ur inner
        then Some (mkBinary Div inner (Const (2 ^ c) (bits inner)) true) else None | _ => None end = Some e' →
      ∃ s1 kw, e' = mkBinary Div inner (Const (2 ^ c) (bits inner)) true ∧ sr = BinaryOp Add inner (Const (2 ^ c - 1) kw) s1 w false ∧ ur = inner) as Hg.
    { intros sr ur T1 T2 Bs E. destruct sr as [| | | | |[] y k s1 w1 fp1| | | | | | | | | |]; try discriminate E. destruct k as [k kw| | | | | | | | | | | | | | |]; try discriminate E.
      destruct (_ && _ && _) eqn:C; [|discriminate E]. injection E as <-. rule_conds. subst k. cbn in Bs. subst w1.
      assert (ur = y) as -> by (eapply likes_eq; [done|by apply T1|done]). assert (y = inner) as -> by (by eapply likes_eq).
      assert (fp1 = false) as -> by apply T1. eauto. }
    destruct b; [by apply (Hg p q)|by apply (Hg q p)]. }
  clear H. split; [|split; [cbn; lia|]].
  { cbn. repeat split; try done; lia. }
  intros σ v E. apply denote_binop in E as (z & c' & Ez & Ec & E); [|done|done]. cbn in Ec. injection Ec as <-. cbn in E. injection E as <-.
  rewrite (Z.mod_small c), Bp by done. apply denote_ite in Ez as (t & Et & Ez).
  destruct (tests_sign_value cond b w inner σ t Tc ltac:(done) Et) as [_ Hv].
  assert (∃ a, denote σ inner = Some a ∧ signed w z = if signed w a <? 0 then signed w a + (2 ^ c - 1) else signed w a) as (a & Ea & Es).
  { assert (denote σ inner = Some z ∧ (t =? 0) = b ∨
      denote σ (BinaryOp Add inner (Const (2 ^ c - 1) kw) s1 w false) = Some z ∧ (t =? 0) = negb b) as [[Ea Eb]|[Ea Eb]].
    { rewrite <-Ep, <-Eq in *. destruct b, (t =? 0); tauto. }
    - exists z. split; [done|]. specialize (Hv z Ea). subst b. destruct (Z.ltb_spec (signed w z) 0); [|done].
      destruct (Z.eqb_spec t 0); destruct (Z.leb_spec 0 (signed w z)); cbn in Hv; lia.
    - assert (kw = w) as -> by (destruct b; rewrite Ep in *; [clear - Tp|clear - Tq]; typed_parts; done).
      apply denote_binop in Ea as (a & k & Ea & Ek & E); [|done|done]. cbn in Ek, E. injection Ek as <-. injection E as <-.
      exists a. split; [done|]. specialize (Hv a Ea). destruct (Z.ltb_spec (signed w a) 0) as [Hneg|Hpos].
      + rewrite ones_small, signed_mod by lia. apply signed_div_round; lia.
      + exfalso. destruct b, (Z.eqb_spec t 0); try discriminate Eb; rewrite ?(proj2 (Z.ltb_ge _ _)), ?(proj2 (Z.leb_le _ _)) in Hv by lia; cbn in Hv; lia. }
  assert (2 ^ c < 2 ^ (w - 1)) by (apply Z.pow_lt_mono_r; lia). pose proof (pow2_pos c ltac:(lia)). pose proof (pow2_double w ltac:(lia)).
  cbn [denote mkBinary _binop_bits_for]. rewrite Ea. cbn [mbind option_bind denote binop_value bits]. rewrite <-Hib, (Z.mod_small (2 ^ c)) by lia.
  rewrite (proj2 (Z.eqb_neq _ _)) by lia. rewrite (signed_id w (2 ^ c)) by lia. do 2 f_equal.
  rewrite quot_pow2 by done. by rewrite Z.shiftr_div_pow2, Es by lia.
Qed.

(** *** Rotations *)

Lemma rotate_left_value w a n : 0 < w → 0 ≤ a < 2 ^ w → 0 ≤ n ≤ w →
  Z.lor (Z.shiftl a (n mod w) mod 2 ^ w) (Z.shiftr a (w - n mod w)) = Z.lor (Z.shiftl a n mod 2 ^ w) (Z.shiftr a (w - n)).
Proof.
  intros Hw Ha Hn. destruct (Z.eq_dec n w) as [-> |]; [|by rewrite !(Z.mod_small n w) by lia].
  rewrite Z_mod_same_full, Z.sub_0_r, Z.sub_diag, Z.shiftl_0_r, Z.shiftr_0_r, (Z.mod_small a) by done.
  rewrite Z.shiftr_div_pow2, Z.div_small, Z.shiftl_mul_pow2, Z_mod_mult by lia. by rewrite Z.lor_0_r.
Qed.

Lemma rotate_right_value w a n : 0 < w → 0 ≤ a < 2 ^ w → 0 ≤ n ≤ w →
  Z.lor (Z.shiftr a (n mod w)) (Z.shiftl a (w - n mod w) mod 2 ^ w) = Z.lor (Z.shiftr a n) (Z.shiftl a (w - n) mod 2 ^ w).
Proof.
  intros Hw Ha Hn. destruct (Z.eq_dec n w) as [-> |]; [|by rewrite !(Z.mod_small n w) by lia].
  rewrite Z_mod_same_full, Z.sub_0_r, Z.sub_diag, Z.shiftl_0_r, Z.shiftr_0_r, (Z.mod_small a) by done.
  rewrite Z.shiftr_div_pow2, Z.div_small, Z.shiftl_mul_pow2, Z_mod_mult by lia. by rewrite Z.lor_0_l, Z.lor_0_r.
Qed.

(** A factor is not 0, and the amount fits the eight bits of its constant. *)
Definition left_amount_fits (e : expr) : Prop := ∀ n, get_expr_shift_left_amount e = Some n → 0 ≤ n < 256.

Lemma left_shift_value σ op x v k s w n u :
  op = Shl ∨ op = Mul → typed r (BinaryOp op x (Const v k) s w false) → 0 ≤ n →
  get_expr_shift_left_amount (BinaryOp op x (Const v k) s w false) = Some n →
  denote σ (BinaryOp op x (Const v k) s w false) = Some u → ∃ a, denote σ x = Some a ∧ u = Z.shiftl a n mod 2 ^ w.
Proof.
  intros Hop Ht Hn H E. destruct (left_amount_spec _ _ _ _ _ _ _ _ Hop Hn H) as [[-> ->]|[-> ->]]; typed_parts; denote_parts; eexists; (split; [done|]).
  - by small_consts.
  - rewrite Z.shiftl_mul_pow2, Zmult_mod_idemp_r by done. done.
Qed.

Lemma rotation_sound s w op0 op1 e' :
  typed r (BinaryOp Or op0 op1 s w false) → left_amount_fits op0 → left_amount_fits op1 → rotation w op0 op1 = Some e' →
  refines r (BinaryOp Or op0 op1 s w false) e'.
Proof.
  intros (Hw & _ & H0 & H1 & B0 & B1) F0 F1 H. unfold rotation in H. cbn in Hw.
  destruct op0 as [| | | | |o0 x k0 s0 w0 fp0| | | | | | | | | |]; try discriminate H. destruct k0 as [v n| | | | | | | | | | | | | | |]; try discriminate H.
  destruct op1 as [| | | | |o1 y k1 s1 w1 fp1| | | | | | | | | |]; try discriminate H. destruct k1 as [v' n'| | | | | | | | | | | | | | |]; try discriminate H.
  destruct (likes x y) eqn:El; [|discriminate H]. cbn [negb] in H. cbn in B0, B1. subst w0 w1.
  assert (fp0 = false ∧ fp1 = false) as [-> ->] by (split; [apply H0|apply H1]).
  assert (x = y) as <- by (eapply likes_eq; [by apply H0|by apply H1|done]).
  assert (((o0 = Shl ∨ o0 = Mul) ∧ o1 = Shr) ∨ (o0 = Shr ∧ (o1 = Shl ∨ o1 = Mul))) as [[Ho ->]|[-> Ho]] by (clear -H; destruct o0, o1; try discriminate H; tauto).
  - assert (∃ a, get_expr_shift_left_amount (BinaryOp o0 x (Const v n) s0 w false) = Some a ∧ a + v' = w ∧ e' = BinaryOp Rol x (Const a 8) false w false) as (a & Ea & Hs & ->).
    { destruct (get_expr_shift_left_amount _) as [a|]; [|by destruct Ho as [-> | ->]]. exists a. split; [done|].
      destruct Ho as [-> | ->]; cbn [mbind option_bind] in H; ifs H; by simplify_eq. }
    destruct (F0 a Ea) as [Ha1 Ha2]. assert (typed r x ∧ bits x = w ∧ 0 ≤ v' < 2 ^ n') as (Tx & Bx & Rv) by (clear -H1; typed_parts; done).
    split; [cbn; repeat split; try done; apply amount_const; lia|]. split; [done|]. intros σ z E.
    apply denote_binop in E as (u & u' & Eu & Eu' & E); [|done|done]. cbn in E. injection E as <-.
    destruct (left_shift_value _ _ _ _ _ _ _ _ _ Ho H0 Ha1 Ea Eu) as (c & Ec & ->). apply denote_binop in Eu' as (c' & k & Ec' & Ek & E); [|done|done].
    rewrite Ec in Ec'. injection Ec' as <-. cbn in Ek, E. injection Ek as <-. injection E as <-. denote_goal. f_equal. ranges r. rewrite Bx in *.
    rewrite (Z.mod_small a), (Z.mod_small v') by lia. rewrite rotate_left_value by lia. do 2 f_equal. lia.
  - assert (∃ a, get_expr_shift_left_amount (BinaryOp o1 x (Const v' n') s1 w false) = Some a ∧ v + a = w ∧ e' = BinaryOp Ror x (Const v n) false w false) as (a & Ea & Hs & ->).
    { destruct (get_expr_shift_left_amount _) as [a|]; [|by destruct Ho as [-> | ->]]. exists a. split; [done|].
      destruct Ho as [-> | ->]; cbn [mbind option_bind] in H; ifs H; by simplify_eq. }
    destruct (F1 a Ea) as [Ha1 Ha2]. assert (typed r x ∧ bits x = w ∧ 0 ≤ v < 2 ^ n ∧ 0 < n) as (Tx & Bx & Rv & Hn) by (clear -H0; typed_parts; done).
    split; [cbn; repeat split; try done; by apply amount_const|]. split; [done|]. intros σ z E.
    apply denote_binop in E as (u' & u & Eu' & Eu & E); [|done|done]. cbn in E. injection E as <-.
    destruct (left_shift_value _ _ _ _ _ _ _ _ _ Ho H1 Ha1 Ea Eu) as (c & Ec & ->). apply denote_binop in Eu' as (c' & k & Ec' & Ek & E); [|done|done].
    rewrite Ec in Ec'. injection Ec' as <-. cbn in Ek, E. injection Ek as <-. injection E as <-. denote_goal. f_equal. ranges r. rewrite Bx in *.
    rewrite (Z.mod_small v (2 ^ n)) by lia. rewrite rotate_right_value by lia. do 3 f_equal. lia.
Qed.

(** An unsigned comparison with 0 is taken for a test of the sign. *)
Lemma SarToSignedDiv_miscompiles : miscompiles r (SarToSignedDiv None).
Proof.
  counterexample (BinaryOp Sar (ITE (BinaryOp CmpGE (Register 0 8) (Const 0 8) false 1 false) (Register 0 8)
    (BinaryOp Add (Register 0 8) (Const 3 8) false 8 false)) (Const 2 8) false 8 false) 0xFF.
Qed.

End soundness.

(** [(x < 0 ? x + 7 : x) >> 3] of 32 bits, the sign taken from the top bit. *)
Lemma SarToSignedDiv_sound_witness :
  refines (λ _, 32) (BinaryOp Sar (ITE (BinaryOp CmpEQ (BinaryOp Shr (Register 0 32) (Const 31 8) false 32 false) (Const 1 32) false 1 false)
      (BinaryOp Add (Register 0 32) (Const 7 32) false 32 false) (Register 0 32)) (Const 3 8) false 32 false)
    (BinaryOp Div (Register 0 32) (Const 8 32) true 32 false).
Proof.
  apply (SarToSignedDiv_sound _ None).
  - cbn; repeat split; try lia; apply amount_const; lia.
  - cbn. split; [lia|]. exists true, (Register 0 32). by repeat split.
  - reflexivity.
Defined.

(** Bit 3 of [(z << 3) | (y & 1)]. *)
Lemma RewriteBitExtractions_value_witness :
  let y := BinaryOp And (Register 0 8) (Const 1 8) false 8 false in
  let z := BinaryOp Shl (Convert 1 8 false (Register 8 1) TYPE_INT TYPE_INT) (Const 3 8) false 8 false in
  let e := BinaryOp And (BinaryOp Shr (BinaryOp Or y z false 8 false) (Const 3 8) false 8 false) (Const 1 8) false 8 false in
  denote (constant_env 5) (ITE (Register 8 1) (Const 1 8) (Const 0 8)) = Some 1 ∧ 8 = bits e.
Proof.
  apply (RewriteBitExtractions_value (λ _, 32) (BinaryOp And (BinaryOp Shr (BinaryOp Or (BinaryOp And (Register 0 8) (Const 1 8) false 8 false)
    (BinaryOp Shl (Convert 1 8 false (Register 8 1) TYPE_INT TYPE_INT) (Const 3 8) false 8 false) false 8 false) (Const 3 8) false 8 false) (Const 1 8) false 8 false)).
  - cbn; repeat split; try lia; apply amount_const; lia.
  - cbn. lia.
  - vm_compute. reflexivity.
  - vm_compute. reflexivity.
Defined.

End PeepShift.
