(* ===== verification/PeepEager.v ===== *)
(** * Eager evaluation

    The peephole rule that evaluates operations on constants, combines the terms
    of sums and products, and merges shifts and quotients:
    [peephole_optimizations/eager_eval.py]. *)

From Stdlib Require Import ZArith Lia Bool String.
From stdpp Require Import base tactics list numbers strings option.
From S2P Require Import Prelude Bitfields Ail AilFacts PeepConv PeepShift.
Import Bitfields Ail AilFacts PeepConv PeepShift.

Module PeepEager.

Definition fold_consts (f : Z → Z → Z) (op0 op1 : expr) (w : Z) : option expr :=
  match op0, op1 with Const a _, Const b _ => Some (Const (f a b) w) | _, _ => None end.

(** A product with a constant: the other factor, the constant and its width. *)
Definition mulconst (e : expr) : option (expr * Z * Z) :=
  match e with
  | BinaryOp Mul (Const c m) x _ _ _ => Some (x, c, m)
  | BinaryOp Mul x (Const c m) _ _ _ => Some (x, c, m)
  | _ => None
  end.

(** *** Sums *)

Definition add_const (op0 op1 : expr) (s : bool) (w : Z) : option expr :=
  match op1 with
  | Const b n =>
      if b <? 0 then Some (BinaryOp Sub op0 (Const (- b) n) s w false)
      else if b =? 0 then Some op0
      else match op0 with
      | BinaryOp Add x (Const a m) _ _ _ => Some (mkBinary Add x (Const (a + b) m) s)
      | BinaryOp Sub x (Const a m) _ _ _ => Some (mkBinary Add x (Const (b - a) m) s)
      | _ => None
      end
  | _ => None
  end.

(** [x + x => 2 * x] *)
Definition add_twice (op0 op1 : expr) (s : bool) : option expr :=
  if likes op0 op1 then Some (mkBinary Mul op0 (Const 2 (bits op0)) s) else None.

(** [x * A + x * B => (A + B) * x], where a factor may be 1. *)
Definition add_multiples (op0 op1 : expr) (s : bool) : option expr :=
  match mulconst op0, mulconst op1 with
  | Some (x0, c0, m0), None => if likes x0 op1 then Some (mkBinary Mul x0 (Const (c0 + 1) m0) s) else None
  | None, Some (x1, c1, m1) => if likes x1 op0 then Some (mkBinary Mul x1 (Const (c1 + 1) m1) s) else None
  | Some (x0, c0, m0), Some (x1, c1, _) => if likes x0 x1 then Some (mkBinary Mul x0 (Const (c0 + c1) m0) s) else None
  | None, None => None
  end.

(** The offset of a stack address is normalised to a signed number of its width. *)
Definition to_signed_i (v n : Z) : Z :=
  if (n =? 0) || (128 <=? n) then v
  else let masked := Z.land v (Z.shiftl 1 n - 1) in if Z.shiftl 1 (n - 1) <=? masked then masked - Z.shiftl 1 n else masked.

Definition mkStackBaseOffset (n offset : Z) : expr := StackBaseOffset n (to_signed_i offset n).

Definition add_stack (op0 op1 : expr) : option expr :=
  match op0, op1 with
  | StackBaseOffset n o, Const v _ | Const v _, StackBaseOffset n o => Some (mkStackBaseOffset n (o + v))
  | _, _ => None
  end.

Definition eager_add (op0 op1 : expr) (s : bool) (w : Z) : option expr :=
  or_else (fold_consts (λ a b, Z.land (a + b) (Z.shiftl 1 w - 1)) op0 op1 w)
    (or_else (add_const op0 op1 s w) (or_else (add_twice op0 op1 s) (or_else (add_multiples op0 op1 s) (add_stack op0 op1)))).

(** *** Differences *)

Definition sign_bit (v n : Z) : bool := if n =? 0 then false else Z.testbit v (n - 1).

Definition sub_const (op0 op1 : expr) (s : bool) (w : Z) : option expr :=
  match op1 with
  | Const b n =>
      if sign_bit b n then Some (BinaryOp Add op0 (Const (Z.land (Z.lnot b + 1) (Z.shiftl 1 n - 1)) n) s w false)
      else match op0 with
      | BinaryOp Add x (Const a m) _ _ _ => Some (mkBinary Sub x (Const (b - a) m) s)
      | BinaryOp Sub x (Const a m) _ _ _ => Some (mkBinary Sub x (Const (a + b) m) s)
      | _ => None
      end
  | _ => None
  end.

Definition sub_from_0 (op0 op1 : expr) : option expr :=
  match op0 with Const 0 _ => Some (mkUnary Neg op1) | _ => None end.

Definition widening (e : expr) : option (Z * Z * bool) * expr :=
  match e with
  | Convert f t b x _ _ => if f <? t then (Some (f, t, b), x) else (None, e)
  | _ => (None, e)
  end.

(** [n * C - n => (C - 1) * n] and [n * C - n * C1 => n * (C - C1)] *)
Definition _combine_like_terms (op0 op1 : expr) (s : bool) (w : Z) : option expr :=
  let '(conv, expr0) := widening op0 in
  match expr0 with
  | BinaryOp Mul n (Const c _) _ _ _ =>
      n ← match n with
        | Convert f t b x _ _ =>
            if t <? f then (if match conv with None => true | Some k => bool_decide (k = (t, f, b)) end then Some x else None) else Some n
        | _ => Some n
        end;
      if likes n op1 then Some (BinaryOp Mul n (Const (c - 1) w) s w false)
      else match op1 with
      | BinaryOp Mul n1 (Const c1 _) _ _ _ => if likes n n1 then Some (BinaryOp Mul n (Const (c - c1) w) s w false) else None
      | _ => None
      end
  | _ => None
  end.

Definition sub_stack (op0 op1 : expr) (w : Z) : option expr :=
  match op0, op1 with
  | StackBaseOffset _ o, StackBaseOffset _ o' => Some (Const (o - o') w)
  | StackBaseOffset n o, Const v _ | Const v _, StackBaseOffset n o => Some (mkStackBaseOffset n (o - v))
  | _, _ => None
  end.

Definition eager_sub (op0 op1 : expr) (s : bool) (w : Z) : option expr :=
  or_else (fold_consts (λ a b, Z.land (a - b) (Z.shiftl 1 w - 1)) op0 op1 w)
    (or_else (sub_const op0 op1 s w) (or_else (sub_from_0 op0 op1) (or_else (_combine_like_terms op0 op1 s w) (sub_stack op0 op1 w)))).

(** *** Products, quotients and shifts *)

Definition mul_by_1 (op0 op1 : expr) (w : Z) : option expr :=
  match op1 with Const 1 _ => Some (if bits op0 =? w then op0 else mkConvert (bits op0) w false op0) | _ => None end.

(** [(A * x) * C => (A * C) * x] *)
Definition mul_nested (op0 op1 : expr) (s : bool) (w : Z) : option expr :=
  match op0, op1 with
  | Const c m, x0 | x0, Const c m => '(x, a, _) ← mulconst x0; Some (BinaryOp Mul x (Const (c * a) m) s w false)
  | _, _ => None
  end.

Definition eager_mul (op0 op1 : expr) (s : bool) (w : Z) : option expr :=
  or_else (mul_by_1 op0 op1 w)
    (or_else (fold_consts (λ a b, Z.land (a * b) (Z.shiftl 1 w - 1)) op0 op1 w) (mul_nested op0 op1 s w)).

Definition eager_div (op0 op1 : expr) (s : bool) (w : Z) : option expr :=
  match op0, op1 with
  | BinaryOp Mul x (Const const_1 n1) s0 w0 fp0, Const const_0 n0 =>
      let gcd_ := Z.gcd const_0 const_1 in
      if negb fp0 && negb (const_0 =? 0) && negb (const_1 =? 0) && negb (gcd_ =? 1) then
        Some (BinaryOp Div (BinaryOp Mul x (Const (const_1 / gcd_) n1) s0 w0 false) (Const (const_0 / gcd_) n0) s w false)
      else None
  | _, _ => None
  end.

Definition eager_shift_right (op : binop) (op0 op1 : expr) (s : bool) (w : Z) : option expr :=
  match op1 with
  | Const v n =>
      match op0 with
      | BinaryOp Shr x (Const m _) _ _ _ => Some (BinaryOp op x (Const (m + v) n) false w false)
      | BinaryOp Div x (Const m n0) _ _ _ => Some (BinaryOp Div x (Const (m * 2 ^ v) n0) s w false)
      | Const a w0 => Some (Const (Z.land (Z.shiftr a v) (2 ^ w0 - 1)) w0)
      | _ => if bool_decide (op = Shr) && (bits op0 <=? v) then Some (Const 0 (bits op0)) else None
      end
  | _ => None
  end.

Definition eager_shl (op0 op1 : expr) : option expr :=
  match op0, op1 with
  | Const a w0, Const v _ => Some (Const (Z.land (Z.shiftl a v) (2 ^ w0 - 1)) w0)
  | _, _ => None
  end.

(** *** Connectives and comparisons *)

Definition eager_and (op0 op1 : expr) (w : Z) : option expr :=
  or_else (fold_consts Z.land op0 op1 w) (match op1 with Const 0 _ => Some (Const 0 w) | _ => None end).

Definition is_value (v : Z) (e : expr) : bool := match e with Const a _ => a =? v | _ => false end.

Definition eager_or (op0 op1 : expr) (w : Z) : option expr :=
  or_else (fold_consts Z.lor op0 op1 w)
    (if is_value 0 op0 then Some op1
     else if is_value 0 op1 then Some op0
     else if is_value (Z.shiftl 1 (bits op0) - 1) op0 then Some op0
     else if is_value (Z.shiftl 1 (bits op1) - 1) op1 then Some op1
     else if likes op0 op1 then Some op0 else None).

Definition eager_mod (op0 op1 : expr) (w : Z) : option expr :=
  if is_value 0 op1 then None else fold_consts Z.modulo op0 op1 w.

Definition eager_compare (op : binop) (op0 op1 : expr) : option expr :=
  if likes op0 op1 then Some (Const (flag (in_order op 0 0)) 1) else fold_consts (λ a b, flag (in_order op a b)) op0 op1 1.

Definition _optimize_binaryop (op : binop) (op0 op1 : expr) (s : bool) (w : Z) (floating_point : bool) : option expr :=
  if floating_point then None else
  match op with
  | Add => eager_add op0 op1 s w
  | Sub => eager_sub op0 op1 s w
  | And => eager_and op0 op1 w
  | Mul => eager_mul op0 op1 s w
  | Div => eager_div op0 op1 s w
  | Mod => eager_mod op0 op1 w
  | Shr | Sar => eager_shift_right op op0 op1 s w
  | Shl => eager_shl op0 op1
  | Or => eager_or op0 op1 w
  | Xor => fold_consts Z.lxor op0 op1 w
  | CmpEQ | CmpLE | CmpGE | CmpNE | CmpLT | CmpGT => eager_compare op op0 op1
  | _ => None
  end.

Definition _optimize_unaryop (op : unop) (x : expr) (w : Z) : option expr :=
  match op, x with Neg, Const a _ => Some (Const (Z.land (Z.lnot a) (2 ^ w - 1)) w) | _, _ => None end.

Definition sign_extend (value n : Z) : Z :=
  let top := Z.shiftl 1 (n - 1) in Z.land value (top - 1) - Z.land value top.

Definition _optimize_convert (f t : Z) (is_signed : bool) (x : expr) (k l : ConvertType) : option expr :=
  match x with
  | Const v _ =>
      if is_int k l then
        Some (Const (if t <? f then Z.land v (Z.shiftl 1 t - 1) else if is_signed then sign_extend v t else v) t)
      else None
  | _ => None
  end.

Definition EagerEvaluation (e : expr) : option expr :=
  match e with
  | BinaryOp op x y s w fp => _optimize_binaryop op x y s w fp
  | Convert f t s x k l => _optimize_convert f t s x k l
  | UnaryOp op x w => _optimize_unaryop op x w
  | _ => None
  end.

(** ** Soundness *)

Section soundness.
Context (r : string → Z).
#[local] Notation typed := (typed r).
#[local] Notation refines := (refines r).

Lemma masked_sum w a : 0 ≤ w → Z.land a (Z.shiftl 1 w - 1) mod 2 ^ w = a mod 2 ^ w.
Proof. intros Hw. by rewrite shiftl_1, land_mask, Zmod_mod by done. Qed.

(** Constants under an operation that commutes with the reduction to the width. *)
Lemma fold_consts_sound op f x y s w e' :
  0 < w → op ≠ LogicalAnd → op ≠ LogicalOr → bits x = w → bits y = w →
  (∀ σ a b, binop_value σ op s w w w (a mod 2 ^ w) (b mod 2 ^ w) = Some (f a b mod 2 ^ w)) →
  fold_consts f x y w = Some e' → refines (BinaryOp op x y s w false) e'.
Proof.
  intros Hw Ho Ho' Hx Hy Hf H. destruct x; try discriminate H. destruct y; try discriminate H. injection H as <-.
  cbn in Hx, Hy. subst. split; [by split|]. split; [done|]. intros σ v E.
  apply denote_binop in E as (a & b & Ea & Eb & E); [|done|done]. cbn in Ea, Eb. simplify_eq. cbn [bits] in E. by rewrite Hf in E.
Qed.

Ltac rule_step H := unfold or_else in H; rule_cases H; typed_parts; refining; denote_parts; denote_goal.

(** *** Sums *)

Lemma add_const_sound x y s w e' :
  typed (BinaryOp Add x y s w false) → add_const x y s w = Some e' → refines (BinaryOp Add x y s w false) e'.
Proof.
  intros Ht H. unfold add_const in H. destruct y; try discriminate H.
  destruct (Z.ltb_spec value 0); [|destruct (Z.eqb_spec value 0)].
  - injection H as <-. typed_parts. refining. denote_parts. denote_goal. f_equal. mod_ring.
  - injection H as <-. typed_parts. split; [done|]. split; [done|]. intros σ v E. denote_parts. ranges r.
    rewrite mod_0_pow, Z.add_0_r, Z.mod_small by done. done.
  - destruct x as [| | | | |[] x k| | | | | | | | | |]; try discriminate H; destruct k; try discriminate H; injection H as <-;
      typed_parts; refining; denote_parts; denote_goal; f_equal; mod_ring.
Qed.

Lemma add_twice_sound x y s w e' :
  typed (BinaryOp Add x y s w false) → add_twice x y s = Some e' → refines (BinaryOp Add x y s w false) e'.
Proof.
  intros Ht H. unfold add_twice in H. ifs H. injection H as <-. typed_parts. refining. denote_parts. denote_goal. f_equal. mod_ring.
Qed.

Lemma mulconst_value e x c m :
  typed e → mulconst e = Some (x, c, m) →
  typed x ∧ bits x = bits e ∧ m = bits e ∧ 0 < bits e ∧ ∀ σ v, denote σ e = Some v → ∃ a, denote σ x = Some a ∧ v = (c * a) mod 2 ^ bits e.
Proof.
  intros Ht H. destruct e as [| | | | |[] y z| | | | | | | | | |]; try discriminate H.
  assert ((∃ c' m', y = Const c' m' ∧ x = z ∧ c = c' ∧ m = m') ∨ (∃ c' m', z = Const c' m' ∧ x = y ∧ c = c' ∧ m = m')) as [(? & ? & ? & ? & ? & ?)|(? & ? & ? & ? & ? & ?)].
  { destruct y, z; try discriminate H; injection H as <- <- <-; eauto 9. }
  all: subst; typed_parts; split_and!; try done; intros σ v E; denote_parts; eexists; (split; [done|]); mod_ring.
Qed.

Lemma add_multiples_sound x y s w e' :
  typed (BinaryOp Add x y s w false) → add_multiples x y s = Some e' → refines (BinaryOp Add x y s w false) e'.
Proof.
  intros Ht H. unfold add_multiples in H.
  destruct (mulconst x) as [[[x0 c0] m0]|] eqn:E0, (mulconst y) as [[[x1 c1] m1]|] eqn:E1; try discriminate H; ifs H; injection H as <-.
  all: destruct Ht as (Hw & _ & Tx & Ty & Bx & By).
  all: try (destruct (mulconst_value x _ _ _ Tx E0) as (T0 & B0 & M0 & P0 & V0)).
  all: try (destruct (mulconst_value y _ _ _ Ty E1) as (T1 & B1 & M1 & P1 & V1)).
  all: typed_parts; refining; denote_parts.
  all: repeat match goal with V : ∀ σ v, denote σ ?e = Some v → _, E : denote _ ?e = Some _ |- _ => apply V in E as (? & ? & ?) end; denote_parts; denote_goal.
  all: repeat match goal with H : bits _ = bits _ |- _ => rewrite H; clear H end; f_equal; mod_ring.
Qed.

Lemma to_signed_i_congruent v n x : 0 < n → (x + to_signed_i v n) mod 2 ^ n = (x + v) mod 2 ^ n.
Proof.
  intros Hn. unfold to_signed_i. destruct (_ || _); [done|]. rewrite !shiftl_1, land_mask by lia. destruct (_ <=? _).
  - replace (x + (v mod 2 ^ n - 2 ^ n)) with (x + v mod 2 ^ n + (-1) * 2 ^ n) by lia. by rewrite Z_mod_plus_full, Zplus_mod_idemp_r.
  - by rewrite Zplus_mod_idemp_r.
Qed.

Lemma denote_stack σ n o : 0 < n → denote σ (mkStackBaseOffset n o) = Some ((v_stack σ + o) mod 2 ^ n).
Proof. intros Hn. cbn. by rewrite to_signed_i_congruent. Qed.

Lemma add_stack_sound x y s w e' :
  typed (BinaryOp Add x y s w false) → add_stack x y = Some e' → refines (BinaryOp Add x y s w false) e'.
Proof.
  intros Ht H. unfold add_stack in H. rule_cases H; typed_parts; refining; denote_parts; rewrite denote_stack by lia; f_equal; mod_ring.
Qed.

Lemma eager_add_sound x y s w e' :
  typed (BinaryOp Add x y s w false) → eager_add x y s w = Some e' → refines (BinaryOp Add x y s w false) e'.
Proof.
  intros Ht H. apply or_else_some in H as [H|H].
  - typed_parts. eapply fold_consts_sound in H; [by apply H|done..|]. intros σ a b. cbn. by rewrite masked_sum, <-Zplus_mod by lia.
  - apply or_else_some in H as [H|H]; [by apply add_const_sound|]. apply or_else_some in H as [H|H]; [by apply add_twice_sound|].
    apply or_else_some in H as [H|H]; [by apply add_multiples_sound|by apply add_stack_sound].
Qed.

(** *** Differences *)

Lemma sub_const_sound x y s w e' :
  typed (BinaryOp Sub x y s w false) → sub_const x y s w = Some e' → refines (BinaryOp Sub x y s w false) e'.
Proof.
  intros Ht H. unfold sub_const in H. destruct y; try discriminate H. destruct (sign_bit _ _).
  - injection H as <-. typed_parts. refining. denote_parts. denote_goal. f_equal.
    replace (Z.lnot value + 1) with (- value) by (unfold Z.lnot; lia). rewrite masked_sum by lia. mod_ring.
  - destruct x as [| | | | |[] x k| | | | | | | | | |]; try discriminate H; destruct k; try discriminate H; injection H as <-;
      typed_parts; refining; denote_parts; denote_goal; f_equal; mod_ring.
Qed.

Lemma sub_from_0_sound x y s w e' :
  typed (BinaryOp Sub x y s w false) → sub_from_0 x y = Some e' → refines (BinaryOp Sub x y s w false) e'.
Proof. intros Ht H. unfold sub_from_0 in H. rule_cases H. typed_parts. refining. denote_parts. by denote_goal. Qed.

(** The terms of a difference that is not widened. *)
Lemma combine_like_terms_sound x y s w e' :
  widening x = (None, x) → typed (BinaryOp Sub x y s w false) → _combine_like_terms x y s w = Some e' → refines (BinaryOp Sub x y s w false) e'.
Proof.
  intros Hx Ht H. unfold _combine_like_terms in H. rewrite Hx in H. destruct x as [| | | | |[] x k| | | | | | | | | |]; try discriminate H.
  destruct k as [c m| | | | | | | | | | | | | | |]; try discriminate H.
  match type of H with mbind _ ?o = _ => destruct o as [n|] eqn:En; [cbn in H|discriminate H] end.
  assert (n = x ∨ ∃ f t b k l, x = Convert f t b n k l ∧ t < f) as Hn.
  { clear H. destruct x; cbn in En; simplify_eq; try (by left). case_match; simplify_eq; [right; rule_conds; by do 5 eexists|by left]. }
  assert (typed n ∧ (n = x ∨ w < bits n)) as [Hn' Hb] by (destruct Hn as [-> |(f & t & b & k & l & -> & Hlt)]; typed_parts; auto with lia).
  destruct (likes n y) eqn:El; [|destruct y as [| | | | |[] n1 k1| | | | | | | | | |]; try discriminate H; destruct k1; try discriminate H;
    destruct (likes n n1) eqn:El1; [|discriminate H]]; injection H as <-; typed_parts; destruct Hb as [-> |Hb]; try lia.
  all: refining; denote_parts; denote_goal; f_equal; mod_ring.
Qed.

Lemma sub_stack_sound x y s w e' :
  (∀ v n, x ≠ Const v n) → typed (BinaryOp Sub x y s w false) → sub_stack x y w = Some e' → refines (BinaryOp Sub x y s w false) e'.
Proof.
  intros Hx Ht H. unfold sub_stack in H. destruct x; try discriminate H; [by destruct (Hx value bits0)|].
  rule_cases H; typed_parts; refining; denote_parts; rewrite ?denote_stack by lia; denote_goal; f_equal; mod_ring.
Qed.

(** A widened multiple less its factor, and a constant less a stack address. *)
Definition difference_shape (x y : expr) : Prop :=
  match x, y with
  | Const v _, StackBaseOffset _ _ => v = 0
  | Convert f t _ _ _ _, Const v n => t ≤ f ∨ sign_bit v n = true
  | Convert f t _ _ _ _, _ => t ≤ f
  | _, _ => True
  end.

Lemma eager_sub_sound x y s w e' :
  difference_shape x y → typed (BinaryOp Sub x y s w false) → eager_sub x y s w = Some e' → refines (BinaryOp Sub x y s w false) e'.
Proof.
  intros Hs Ht H. apply or_else_some in H as [H|H].
  { typed_parts. eapply fold_consts_sound in H; [by apply H|done..|]. intros σ a b. cbn. by rewrite masked_sum, <-Zminus_mod by lia. }
  unfold or_else in H. destruct (sub_const x y s w) as [e1|] eqn:E0; [simplify_eq; by apply sub_const_sound|].
  destruct (sub_from_0 x y) as [e1|] eqn:E; [simplify_eq; by apply sub_from_0_sound|].
  destruct (_combine_like_terms x y s w) as [e1|] eqn:E1.
  - simplify_eq. apply combine_like_terms_sound; [|done..]. destruct x; try done. cbn in Hs |- *.
    destruct (Z.ltb_spec from_bits to_bits); [|done]. exfalso. destruct y; try lia. destruct Hs as [|Hs]; [lia|].
    cbn in E0. by rewrite Hs in E0.
  - apply sub_stack_sound; [|done..]. intros v n ->. destruct y; try discriminate H. cbn in Hs. subst v. discriminate E.
Qed.

(** *** Products *)

Lemma mul_nested_sound x y s w e' :
  typed (BinaryOp Mul x y s w false) → mul_nested x y s w = Some e' → refines (BinaryOp Mul x y s w false) e'.
Proof.
  intros Ht H. unfold mul_nested in H.
  assert (∃ x0 c m z a n, (x = x0 ∧ y = Const c m ∨ x = Const c m ∧ y = x0) ∧ mulconst x0 = Some (z, a, n) ∧ e' = BinaryOp Mul z (Const (c * a) m) s w false) as (x0 & c & m & z & a & n & Hc & Hm & ->).
  { destruct x, y; try discriminate H; match type of H with mbind _ ?o = _ => destruct o as [[[z a] n]|] eqn:E end;
      try discriminate H; simplify_eq/=; do 6 eexists; eauto. }
  destruct Hc as [[-> ->]|[-> ->]]; typed_parts;
    (destruct (mulconst_value x0 _ _ _ ltac:(eassumption) Hm) as (Tz & Bz & _ & Pz & Vz)); refining; denote_parts.
  all: repeat match goal with V : ∀ σ v, denote σ ?e = Some v → _, E : denote _ ?e = Some _ |- _ => apply V in E as (? & ? & ?) end; denote_parts; denote_goal.
  all: repeat match goal with H : bits _ = bits _ |- _ => rewrite H; clear H end; f_equal; mod_ring.
Qed.

Lemma eager_mul_sound x y s w e' :
  typed (BinaryOp Mul x y s w false) → eager_mul x y s w = Some e' → refines (BinaryOp Mul x y s w false) e'.
Proof.
  intros Ht H. apply or_else_some in H as [H|H]; [|apply or_else_some in H as [H|H]].
  - unfold mul_by_1 in H. typed_parts. rule_cases H. split; [done|]. split; [done|]. intros σ v E. typed_parts. denote_parts. ranges r.
    rewrite mod_1_pow, Z.mul_1_r, Z.mod_small by lia. done.
  - typed_parts. eapply fold_consts_sound in H; [by apply H|done..|]. intros σ a b. cbn. by rewrite masked_sum, <-Zmult_mod by lia.
  - by apply mul_nested_sound.
Qed.

(** *** Quotients and shifts *)

Lemma reduced_quotient a c d w : 0 ≤ a → 0 < c → 0 < d → a * c < 2 ^ w →
  (a * c) / d = (a * (c / Z.gcd d c)) / (d / Z.gcd d c) ∧ 0 < d / Z.gcd d c ≤ d ∧ 0 < c / Z.gcd d c ≤ c ∧ a * (c / Z.gcd d c) < 2 ^ w.
Proof.
  intros Ha Hc Hd Hw. destruct (Z.gcd_divide_l d c) as [d' Hd']. destruct (Z.gcd_divide_r d c) as [c' Hc'].
  assert (0 < Z.gcd d c). { pose proof (Z.gcd_nonneg d c). destruct (Z.eq_dec (Z.gcd d c) 0) as [E|]; [|lia]. rewrite E in Hd'. lia. }
  set (g := Z.gcd d c) in *. clearbody g. subst. rewrite !Z.div_mul by lia. rewrite Z.mul_assoc, Z.div_mul_cancel_r by nia. split_and!; nia || done.
Qed.

Lemma eager_div_sound x y s w e' :
  typed (BinaryOp Div x y s w false) → plain (BinaryOp Div x y s w false) → product_fits x →
  eager_div x y s w = Some e' → refines (BinaryOp Div x y s w false) e'.
Proof.
  intros Ht Hp Hf H. unfold eager_div in H. destruct x as [| | | | |[] x k s0 w0 fp0| | | | | | | | | |]; try discriminate H.
  destruct k as [c n1| | | | | | | | | | | | | | |]; try discriminate H. destruct y as [d n0| | | | | | | | | | | | | | |]; try discriminate H.
  ifs H. injection H as <-. cbn in Hf. plain_parts Hp. typed_parts.
  assert (∀ σ a, denote σ x = Some a → a * c < 2 ^ bits x ∧ 0 ≤ a) as Hf' by (intros σ a E; ranges r; split; [by eapply Hf|lia]). clear Hf.
  destruct (reduced_quotient 0 c d (bits x)) as (_ & Hd & Hc & _); [lia..|apply pow2_pos; lia|].
  refining; try (by split). denote_parts. cbn [compares_signed] in *. rewrite (Z.mod_small d) in H by lia. ifs H. injection H as <-.
  destruct (Hf' _ _ ltac:(eassumption)) as [Hp Ha]. destruct (reduced_quotient a0 c d (bits x)) as (E & _ & _ & Hp'); [lia..|].
  denote_goal. rewrite (Z.mod_small (c / _)), (Z.mod_small (d / _)), (Z.mod_small c) by lia. rewrite !(Z.mod_small (_ * _)) by nia.
  rewrite (proj2 (Z.eqb_neq _ _)) by lia. by rewrite E.
Qed.

(** An amount, or a divisor, that fits its constant; no arithmetic shift of a
    negative number. *)
Definition shift_shape (op : binop) (x y : expr) : Prop :=
  match op, x, y with
  | Shr, BinaryOp Shr _ (Const m _) _ _ _, Const v n => m + v < 2 ^ n
  | Shr, BinaryOp Div _ (Const m n0) _ _ _, Const v _ => m * 2 ^ v < 2 ^ n0
  | Sar, BinaryOp (Shr | Div) _ _ _ _ _, _ => False
  | Sar, Const a n, _ => a < 2 ^ (n - 1)
  | _, _, _ => True
  end.

Lemma eager_shift_right_sound op x y s w e' :
  op = Shr ∨ op = Sar → typed (BinaryOp op x y s w false) → plain (BinaryOp op x y s w false) → shift_shape op x y →
  eager_shift_right op x y s w = Some e' → refines (BinaryOp op x y s w false) e'.
Proof.
  intros Ho Ht Hp Hs H. unfold eager_shift_right in H. destruct y as [v n| | | | | | | | | | | | | | |]; try discriminate H.
  assert ((∃ a w0, x = Const a w0 ∧ e' = Const (Z.land (Z.shiftr a v) (2 ^ w0 - 1)) w0) ∨
    op = Shr ∧ ((∃ z m k b u f, x = BinaryOp Shr z (Const m k) b u f ∧ e' = BinaryOp op z (Const (m + v) n) false w false) ∨
      (∃ z m k b u f, x = BinaryOp Div z (Const m k) b u f ∧ e' = BinaryOp Div z (Const (m * 2 ^ v) k) s w false) ∨
      bits x ≤ v ∧ e' = Const 0 (bits x))) as Hcase.
  { destruct x as [| | | | |o z k b u f| | | | | | | | | |]; try (cbn in H; injection H as <-; left; eauto);
      try (right; case_match; [|discriminate H]; injection H as <-; rule_conds; by auto).
    right. destruct Ho as [-> | ->]; cbn in Hs.
    - split; [done|]. destruct o; try (case_match; [|discriminate H]; injection H as <-; rule_conds; by auto).
      all: destruct k; try (case_match; [|discriminate H]; injection H as <-; rule_conds; by auto).
      + injection H as <-. right. left. by do 6 eexists.
      + injection H as <-. left. by do 6 eexists.
    - exfalso. destruct o; try done; destruct k; done. }
  destruct Hcase as [(a & w0 & -> & ->)|[-> [(z & m & k & b & u & f & -> & ->)|[(z & m & k & b & u & f & -> & ->)|[Hv ->]]]]].
  - plain_parts Hp. destruct Ho as [-> | ->]; typed_parts; refining; denote_parts; denote_goal; f_equal; small_consts.
    all: pose proof (shiftr_bound a v w ltac:(lia) ltac:(lia) ltac:(lia)) as B; rewrite land_mask, Zmod_mod by lia; try by rewrite Z.mod_small.
    cbn in Hs. by rewrite signed_id by lia.
  - cbn in Hs. plain_parts Hp. typed_parts. refining. denote_parts. denote_goal. f_equal. small_consts.
    rewrite (Z.mod_small (m + v)) by lia. symmetry. apply Z.shiftr_shiftr. lia.
  - cbn in Hs. clear H. plain_parts Hp. typed_parts. assert (0 < 2 ^ v) by (apply pow2_pos; lia). refining. denote_parts. cbn [compares_signed] in *. ifs E.
    injection E as <-. denote_goal. rewrite !(Z.mod_small (m * _)), (Z.mod_small m), (Z.mod_small v) in * by nia.
    rewrite (proj2 (Z.eqb_neq _ _)) by nia. rewrite Z.shiftr_div_pow2, Z.div_div by nia. done.
  - typed_parts. refining. denote_parts. ranges r. denote_goal. rewrite mod_0_pow, (Z.mod_small v), Z.shiftr_div_pow2 by lia.
    assert (2 ^ bits x ≤ 2 ^ v) by (apply Z.pow_le_mono_r; lia). by rewrite Z.div_small by lia.
Qed.

Lemma eager_shl_sound x y s w e' :
  typed (BinaryOp Shl x y s w false) → eager_shl x y = Some e' → refines (BinaryOp Shl x y s w false) e'.
Proof.
  intros Ht H. unfold eager_shl in H. rule_cases H. typed_parts. refining. denote_parts. denote_goal. f_equal. small_consts.
  rewrite land_mask, Zmod_mod, !Z.shiftl_mul_pow2 by lia. by rewrite Zmult_mod_idemp_l.
Qed.

(** *** Connectives and comparisons *)

Lemma eager_and_sound x y s w e' :
  typed (BinaryOp And x y s w false) → eager_and x y w = Some e' → refines (BinaryOp And x y s w false) e'.
Proof.
  intros Ht H. apply or_else_some in H as [H|H].
  - typed_parts. eapply fold_consts_sound in H; [by apply H|done..|]. intros σ a b. cbn. by rewrite land_low_part by lia.
  - rule_cases H. typed_parts. refining. denote_parts. by rewrite mod_0_pow, Z.land_0_r.
Qed.

Lemma lor_ones a w : 0 ≤ a < 2 ^ w → 0 ≤ w → Z.lor (2 ^ w - 1) a = 2 ^ w - 1.
Proof.
  intros Ha Hw. rewrite ones_pow2. apply Z.bits_inj'. intros i Hi. rewrite Z.lor_spec, Z.testbit_ones_nonneg by lia.
  destruct (Z.ltb_spec i w); [done|]. by apply (testbit_high a w).
Qed.

Lemma eager_or_sound x y s w e' :
  typed (BinaryOp Or x y s w false) → eager_or x y w = Some e' → refines (BinaryOp Or x y s w false) e'.
Proof.
  intros Ht H. apply or_else_some in H as [H|H].
  { typed_parts. eapply fold_consts_sound in H; [by apply H|done..|]. intros σ a b. cbn. by rewrite lor_low_part by lia. }
  repeat (match type of H with (if ?b then _ else _) = _ => destruct b eqn:?E end; try discriminate H); injection H as <-.
  all: try match goal with H : is_value _ ?e = true |- _ => destruct e; try discriminate H; cbn in H; apply Z.eqb_eq in H; subst end.
  all: typed_parts; split; [done|]; split; [done|]; intros σ v E'; denote_parts; ranges r; try done; denote_goal; f_equal.
  all: rewrite ?shiftl_1, ?ones_small, ?mod_0_pow, ?Z.lor_0_l, ?Z.lor_0_r, ?Z.lor_diag by lia; try done.
  - by rewrite lor_ones by lia.
  - by rewrite Z.lor_comm, lor_ones by lia.
Qed.

Lemma eager_mod_sound x y s w e' :
  typed (BinaryOp Mod x y s w false) → plain (BinaryOp Mod x y s w false) → eager_mod x y w = Some e' → refines (BinaryOp Mod x y s w false) e'.
Proof.
  intros Ht Hp H. unfold eager_mod in H. destruct (is_value 0 y) eqn:Ey; [discriminate H|].
  destruct x as [a n| | | | | | | | | | | | | | |]; try discriminate H. destruct y as [b m| | | | | | | | | | | | | | |]; try discriminate H.
  injection H as <-. cbn in Ey. plain_parts Hp. typed_parts. refining. denote_parts. cbn [compares_signed] in *. ifs H. injection H as <-.
  cbn [denote]. f_equal. small_consts. pose proof (Z.mod_pos_bound a b ltac:(lia)). rewrite Z.mod_small; lia.
Qed.

Lemma in_order_refl op a : in_order op a a = in_order op 0 0.
Proof. destruct op; try done; cbn; by rewrite ?Z.eqb_refl, ?Z.ltb_irrefl, ?Z.leb_refl. Qed.

Lemma flag_mod b w : 0 < w → flag b mod 2 ^ w = flag b.
Proof. intros Hw. destruct b; [by apply mod_1_pow|apply mod_0_pow]. Qed.

Lemma eager_compare_sound op x y s w e' :
  comparison op → typed (BinaryOp op x y s w false) → plain (BinaryOp op x y s w false) →
  eager_compare op x y = Some e' → refines (BinaryOp op x y s w false) e'.
Proof.
  intros Hc Ht Hp H. assert (w = 1) as -> by (destruct Ht as (_ & _ & _ & _ & Ho); by apply comparison_typed in Ho as [_ ?]).
  destruct (typed_comparison _ _ _ _ _ _ _ Hc Ht) as (Hx & Hy & Hb). unfold eager_compare in H.
  assert (compares_signed op s = false) as Hs by (destruct Hp as [_ Hu]; cbn in Hu; by rule_conds).
  destruct (likes x y) eqn:El; [injection H as <-|unfold fold_consts in H; rule_cases H].
  all: refining; apply denote_comparison in H as (a & b & Ea & Eb & <-); [|done]; unfold compare; rewrite Hs; cbn [denote].
  - typed_parts. denote_parts. rewrite flag_mod by lia. by rewrite (in_order_refl op a).
  - destruct Hp as [Hr _]. cbn in Hr, Ea, Eb. rule_conds. simplify_eq. small_consts. by rewrite flag_mod by lia.
Qed.

(** *** The rule *)

Definition eager_shape (e : expr) : Prop :=
  match e with
  | BinaryOp Sub x y _ _ _ => difference_shape x y
  | BinaryOp Div x _ _ _ _ => product_fits x
  | BinaryOp ((Shr | Sar) as op) x y _ _ _ => shift_shape op x y
  | UnaryOp Neg (Const _ _) _ => False
  | _ => True
  end.

Lemma optimize_convert_sound f t s x k l e' :
  typed (Convert f t s x k l) → plain (Convert f t s x k l) → _optimize_convert f t s x k l = Some e' → refines (Convert f t s x k l) e'.
Proof.
  intros Ht Hp H. unfold _optimize_convert in H. destruct x; try discriminate H. destruct (is_int k l); [|discriminate H]. injection H as <-.
  plain_parts Hp. typed_parts. refining. denote_parts. cbn [denote]. f_equal. destruct (Z.ltb_spec t f).
  - by rewrite masked_sum, mod_low by lia.
  - by rewrite (Z.mod_small _ (2 ^ f)) by lia.
Qed.

(** C37: Where the rule rewrites a typed expression without signed operations, with
    constants in range, the result is typed, of the same width, and of the same value
    wherever the expression has one.  Outside ([eager_shape]): a non-zero constant less a
    stack address; a widening conversion less anything but a constant whose sign bit is
    set; a quotient whose dividend is a product with a constant, or a left shift by
    a constant, that overflows for some values; Shr of Shr where the sum of the amounts does not fit the
    constant of the outer one, Shr of Div where the shifted divisor does not fit its
    constant; Sar of a Shr or a Div, and of a constant with its sign bit set; the
    negation (Neg) of a constant. *)
Theorem EagerEvaluation_sound e e' :
  typed e → plain e → eager_shape e → EagerEvaluation e = Some e' → refines e e'.
Proof.
  intros Ht Hp Hs H. destruct e as [| | | |op x w|op x y s w fp|f t s x k l| | | | | | | | |]; try discriminate H.
  - destruct op; try discriminate H. by destruct x.
  - assert (fp = false) as -> by apply Ht. cbn in H.
    destruct op; try discriminate H; try (by apply eager_compare_sound).
    + by apply eager_add_sound.
    + by apply eager_sub_sound.
    + by apply eager_mul_sound.
    + by apply eager_div_sound.
    + by apply eager_mod_sound.
    + by apply eager_and_sound.
    + by apply eager_or_sound.
    + typed_parts. eapply fold_consts_sound in H; [by apply H|done..|]. intros σ a b. cbn. by rewrite lxor_low_part by lia.
    + by apply eager_shl_sound.
    + apply eager_shift_right_sound; auto.
    + apply eager_shift_right_sound; auto.
  - by apply optimize_convert_sound.
Qed.

End soundness.

(** *** Where the rule changes the value *)

Section miscompiled.
Context (r : string → Z).

(** The negation of a constant is its complement. *)
Lemma eager_neg_miscompiles : miscompiles r EagerEvaluation.
Proof. counterexample (UnaryOp Neg (Const 1 32) 32) 0. Qed.

(** A constant less an address of the stack. *)
Lemma eager_stack_miscompiles : miscompiles r EagerEvaluation.
Proof. counterexample (BinaryOp Sub (Const 8 64) (StackBaseOffset 64 4) false 64 false) 100. Qed.

(** A product that overflows before the division. *)
Lemma eager_div_miscompiles : miscompiles r EagerEvaluation.
Proof.
  counterexample (BinaryOp Div (BinaryOp Mul (Register 0 32) (Const 2 32) false 32 false) (Const 2 32) false 32 false) 0x80000000.
Qed.

(** The divisor of the merged shift is out of the range of its constant. *)
Lemma eager_shift_div_miscompiles : miscompiles r EagerEvaluation.
Proof.
  counterexample (BinaryOp Shr (BinaryOp Div (Register 0 8) (Const 65 8) false 8 false) (Const 2 8) false 8 false) 255.
Qed.

(** An arithmetic shift of a constant, and of what a logical shift left. *)
Lemma eager_sar_const_miscompiles : miscompiles r EagerEvaluation.
Proof. counterexample (BinaryOp Sar (Const 0x80 8) (Const 4 8) false 8 false) 0. Qed.

Lemma eager_sar_shr_miscompiles : miscompiles r EagerEvaluation.
Proof.
  counterexample (BinaryOp Sar (BinaryOp Shr (Register 0 8) (Const 1 8) false 8 false) (Const 1 8) false 8 false) 0x80.
Qed.

(** A signed comparison and a signed remainder of constants. *)
Lemma eager_signed_compare_miscompiles : miscompiles r EagerEvaluation.
Proof. counterexample (BinaryOp CmpLT (Const 0xFF 8) (Const 1 8) true 1 false) 0. Qed.

Lemma eager_signed_mod_miscompiles : miscompiles r EagerEvaluation.
Proof. counterexample (BinaryOp Mod (Const 0xFF 8) (Const 2 8) true 8 false) 0. Qed.

(** The extension of a negative constant. *)
Lemma eager_extend_miscompiles : miscompiles r EagerEvaluation.
Proof. counterexample (Convert 8 32 true (Const 0x80 8) TYPE_INT TYPE_INT) 0. Qed.

(** A widened multiple less its factor. *)
Lemma eager_terms_miscompiles : miscompiles r EagerEvaluation.
Proof.
  counterexample (BinaryOp Sub (Convert 8 32 false (BinaryOp Mul (Convert 32 8 false (Register 0 32) TYPE_INT TYPE_INT) (Const 4 8) false 8 false) TYPE_INT TYPE_INT)
    (Register 0 32) false 32 false) 256.
Qed.

End miscompiled.

(** [8 * x / 4] where [x] is a byte. *)
Lemma EagerEvaluation_sound_witness :
  refines (λ _, 32) (BinaryOp Div (BinaryOp Mul (Convert 8 32 false (Register 0 8) TYPE_INT TYPE_INT) (Const 8 32) false 32 false) (Const 4 32) false 32 false)
    (BinaryOp Div (BinaryOp Mul (Convert 8 32 false (Register 0 8) TYPE_INT TYPE_INT) (Const 2 32) false 32 false) (Const 1 32) false 32 false).
Proof.
  apply EagerEvaluation_sound.
  - cbn; repeat split; lia.
  - by split.
  - intros σ a E. cbn in E. injection E as <-. pose proof (Z.mod_pos_bound (v_register σ 0 8) (2 ^ 8) ltac:(lia)).
    rewrite Z.mod_small; lia.
  - reflexivity.
Defined.

End PeepEager.
