(* ===== verification/PeepParts.v ===== *)
(** * Peephole rules on masks, concatenations and parts

    Redundant masks, the halves of concatenations, and the insertion of parts into
    constants and into values they are computed from. *)

From Stdlib Require Import ZArith Lia Bool String.
From stdpp Require Import base tactics list numbers strings option.
From S2P Require Import Prelude Bitfields Ail AilFacts PeepConv PeepShift.
Import Bitfields Ail AilFacts PeepConv PeepShift.

Module PeepParts.

Definition _MASKS (w : Z) : option Z :=
  if w =? 1 then Some 1 else if w =? 8 then Some 0xFF else if w =? 16 then Some 0xFFFF
  else if w =? 32 then Some 0xFFFFFFFF else if w =? 64 then Some 0xFFFFFFFFFFFFFFFF else None.

Definition is_mask (w m : Z) : bool := match _MASKS w with Some k => m =? k | None => false end.

Section project.
(** The width of a byte of the project's architecture, when there is a project,
    and the equality of expressions that looks at their indices. *)
Context (byte_width : option Z) (same : expr → expr → bool).

(** Every node that is [old], by [new]. *)
Fixpoint replace_ail (old new e : expr) : expr :=
  if same e old then new else
  match e with
  | UnaryOp op x w => UnaryOp op (replace_ail old new x) w
  | Convert f t s x k l => Convert f t s (replace_ail old new x) k l
  | Reinterpret f k t l x => Reinterpret f k t l (replace_ail old new x)
  | BinaryOp op x y s w fp => BinaryOp op (replace_ail old new x) (replace_ail old new y) s w fp
  | Load x n en => Load (replace_ail old new x) n en
  | ITE c x y => ITE (replace_ail old new c) (replace_ail old new x) (replace_ail old new y)
  | Extract w x o en => Extract w (replace_ail old new x) (replace_ail old new o) en
  | Insert x o v en => Insert (replace_ail old new x) (replace_ail old new o) (replace_ail old new v) en
  | Call f xs w =>
      Call (match f with Symbol g => Symbol g | Expr x => Expr (replace_ail old new x) end) (map (replace_ail old new) xs) w
  | _ => e
  end.

(** *** Masks *)

(** The comparison of a Python integer with an expression is false. *)
Definition int_is_expr (v : Z) (e : expr) : bool := false.

Definition mask_Insert (e : expr) : option expr :=
  match e with
  | Insert (BinaryOp And _ (Const _ _ as mask) _ _ _) (Const k n) v en =>
      w ← byte_width;
      if int_is_expr (Z.shiftl (default 0 (_MASKS (bits v))) (k * w)) mask then Some (Insert (Const 0 (bits e)) (Const k n) v en) else None
  | _ => None
  end.

Definition mask_Extract (e : expr) : option expr :=
  match e with
  | Extract w (BinaryOp And _ (Const m _) _ _ _ as base) _ _ =>
      _ ← byte_width; if is_mask w m && is_lsb_extract e then Some (mkConvert (bits base) w false base) else None
  | _ => None
  end.

Definition mask_BinaryOp (e : expr) : option expr :=
  match e with
  | BinaryOp And inner (Const m _) _ _ _ =>
      if is_mask (bits inner) m then Some inner else
      match inner with
      | BinaryOp Shr _ (Const k _) _ _ _ => if match _MASKS k with Some _ => true | None => false end && is_mask (64 - k) m then Some inner else None
      | BinaryOp Div (Convert f t _ _ _ _) _ _ _ _ => if (f <? t) && is_mask f m then Some inner else None
      | Convert _ _ _ x _ _ => if is_bool_expr x then Some inner else None
      | ITE _ (Const a _) (Const b _) => if (m =? 0xFF) && (a <=? 0xFF) && (b <=? 0xFF) then Some inner else None
      | _ => None
      end
  | _ => None
  end.

(** [Conv(64->32, (expr & bitmask) + expr) => Conv(64->32, expr + expr)] *)
Definition mask_Convert (e : expr) : option expr :=
  match e with
  | Convert f t s (BinaryOp Add (BinaryOp And y (Const m _) _ _ _ as op0) _ _ _ _ as x) k l =>
      if (t <? f) && is_mask t m then Some (Convert f t s (replace_ail op0 y x) k l) else None
  | Convert f t s (BinaryOp Sub _ (BinaryOp And y (Const m _) _ _ _ as op1) _ _ _ as x) k l =>
      if (t <? f) && is_mask t m then Some (Convert f t s (replace_ail op1 y x) k l) else None
  | _ => None
  end.

Definition RemoveRedundantBitmasks (e : expr) : option expr :=
  match e with
  | BinaryOp _ _ _ _ _ _ => mask_BinaryOp e
  | Convert _ _ _ _ _ _ => mask_Convert e
  | Extract _ _ _ _ => mask_Extract e
  | Insert _ _ _ _ => mask_Insert e
  | _ => None
  end.

(** *** Insertions *)

Definition RemoveRedundantInsert (e : expr) : option expr :=
  match e with Insert base (Const 0 _) v _ => if bits base =? bits v then Some v else None | _ => None end.

(** A constant that is not marked as uninitialized. *)
Definition RemoveConstInsert (e : expr) : result (option expr) :=
  match e with
  | Insert (Const b w) (Const k n) v _ =>
      match byte_width with
      | None => Err AssertionError
      | Some bw =>
          let base := Z.land b (Z.shiftl (Z.lnot (Z.shiftl 1 (bits v) - 1)) (k * bw)) in
          let value := mkConvert (bits v) w false v in
          let shifted := if k =? 0 then value else mkBinary Shl value (Const (k * bw) w) false in
          Ok (Some (mkBinary Or shifted (Const base (bits shifted)) false))
      end
  | _ => Ok None
  end.
End project.

(** A reinterpretation of the opposite one. *)
Definition nested_reinterprets (e : expr) : option expr :=
  match e with
  | Reinterpret _ from_type _ to_type (Reinterpret _ from_type' _ to_type' x) =>
      if (from_type =? to_type')%string && (to_type =? from_type')%string then Some x else None
  | _ => None
  end.

(** *** Bitwise insertions *)

Definition bases (base : expr) : list (Z * expr) :=
  (0, base) ::
  match base with
  | BinaryOp Concat (Const 0 _) y _ _ _ => [(bits base, y)]
  | BinaryOp Concat x _ _ _ _ => [(0, x)]
  | Convert _ _ _ x _ _ => if bits x <? bits base then [(0, x)] else []
  | _ => []
  end.

Definition with_base (potential_base other_base : expr) : list (Z * expr * expr) :=
  (0, potential_base, other_base) ::
  match other_base, potential_base with
  | Const _ _, Extract _ x (Const k _) _ => [(k, x, other_base)]
  | Const _ _, Convert _ _ _ x _ _ => [(0, x, other_base)]
  | _, _ => []
  end.

(** The first pair, in the order of the product, that is alike. *)
Definition alike (p : (Z * expr) * (Z * expr * expr)) : bool :=
  let '((o1, x1), (o2, x2, _)) := p in (o1 =? o2) && (bits x1 =? bits x2) && likes x1 x2.

(** The other operand at the width of the base; [w] is the width of the insertion. *)
Definition resized (pb1o : Z) (pb1 pb2 pb2x : expr) (w : Z) : result expr :=
  if bits pb2x <? bits pb2 then match pb2x with Const v _ => Ok (Const (Z.shiftl v pb1o) (bits pb2)) | _ => Err AssertionError end
  else if bits pb2 <? bits pb2x then
    if bits pb1 <? bits pb2x then match pb2x with Const v _ => Ok (Const (Z.shiftl v pb1o) w) | _ => Err AssertionError end
    else Err AssertionError
  else Ok pb2x.

Definition insert_base (op : binop) (base y z : expr) (w : Z) : result (option expr) :=
  match List.find alike (list_prod (bases base) (with_base y z ++ with_base z y)) with
  | None => Ok None
  | Some ((pb1o, pb1), (_, pb2, pb2x)) =>
      if negb (pb1o =? 0) then Ok None else
      pb2x ← resized pb1o pb1 pb2 pb2x w;
      if bits pb2x =? bits pb1 then
        let r := mkBinary op pb1 pb2x false in
        Ok (Some (if bits r =? w then r else mkConvert (bits r) w false r))
      else if (bits pb1 <? bits pb2x) && (bits pb2x =? w) then
        Ok (Some (mkBinary op (mkConvert (bits pb1) w false pb1) pb2x false))
      else Err AssertionError
  end.

Definition SimplifyBitwiseInserts (e : expr) : result (option expr) :=
  match e with
  | Insert base _ (BinaryOp ((Or | Xor) as op) y z _ _ _) _ => insert_base op base y z (bits e)
  | _ => Ok None
  end.

(** *** Concatenations *)

(** [previous] is the assignment in the statement before, if there is one. *)
Definition optimize_concat (previous : option (expr * expr)) (high low : expr) (w : Z) : option expr :=
  let sign_extended := Some (mkConvert (bits low) w true low) in
  let shifted_sign h := match h with
    | BinaryOp Sar x (Const k _) _ _ _ => if (k =? bits low - 1) && likes x low then sign_extended else None
    | _ => None
    end in
  or_else (match high with Const 0 _ => Some (mkConvert (bits low) w false low) | _ => None end)
  (or_else (shifted_sign high)
  (or_else (match high with
      | BinaryOp Sar (Convert _ t s x _ _) (Const k _) _ _ _ => if s && likes x low && (k =? t - 1) then sign_extended else None
      | _ => None
      end)
    (high_def ← find_definition previous high; shifted_sign high_def))).

Definition under_convert (e : expr) : option (Z * bool) * expr :=
  match e with Convert _ t s x _ _ => (Some (t, s), x) | _ => (None, e) end.

(** [(a CONCAT b) >> bits(b) => a] *)
Definition optimize_shr_concat (op0 op1 : expr) (w : Z) : option expr :=
  match op1 with
  | Const k _ =>
      let '(outer, inner) := under_convert op0 in
      match inner with
      | BinaryOp Concat high low _ _ _ =>
          if negb (k =? bits low) then None
          else Some (if w =? bits high then high else mkConvert (bits high) w (match outer with Some (_, s) => s | None => false end) high)
      | _ => None
      end
  | _ => None
  end.

(** [(a CONCAT b) & mask => b] *)
Definition optimize_and_concat (op0 op1 : expr) (w : Z) : option expr :=
  match op1 with
  | Const m _ =>
      let '(outer, inner) := under_convert op0 in
      match inner with
      | BinaryOp Concat _ low _ _ _ =>
          if negb (m =? Z.shiftl 1 (bits low) - 1) then None
          else let t := match outer with Some (t, _) => t | None => w end in
            Some (if t =? bits low then low else mkConvert (bits low) t false low)
      | _ => None
      end
  | _ => None
  end.

Definition optimize_convert_concat (f t : Z) (s : bool) (x : expr) : option expr :=
  if f <=? t then None else
  match x with
  | BinaryOp Concat _ low _ _ _ =>
      if t =? bits low then Some low else if t <? bits low then Some (mkConvert (bits low) t s low) else None
  | _ => None
  end.

Definition ConcatSimplifier (previous : option (expr * expr)) (e : expr) : option expr :=
  match e with
  | BinaryOp Concat x y _ w _ => optimize_concat previous x y w
  | BinaryOp (Shr | Sar) x y _ w _ => optimize_shr_concat x y w
  | BinaryOp And x y _ w _ => optimize_and_concat x y w
  | Convert f t s x _ _ => optimize_convert_concat f t s x
  | _ => None
  end.

(** ** Soundness *)

Section soundness.
Context (r : string → Z).
#[local] Notation typed := (typed r).
#[local] Notation refines := (refines r).

Lemma is_mask_ones w m : is_mask w m = true → m = 2 ^ w - 1 ∧ 1 ≤ w ≤ 64.
Proof.
  unfold is_mask, _MASKS. intros H.
  repeat match type of H with context [?a =? ?b] => destruct (Z.eqb_spec a b); subst; cbn in H; try discriminate H end; done.
Qed.

(** *** Masks *)

(** A mask of a truth value keeps it; a shift by half of 64 bits. *)
Definition mask_shape (e : expr) : Prop :=
  match e with
  | BinaryOp And (Convert _ _ _ x _ _) (Const m _) _ _ _ => is_bool_expr x = true → Z.odd m = true
  | BinaryOp And (BinaryOp Shr _ _ _ _ _) _ _ w _ => w ≤ 64
  | _ => True
  end.

Lemma is_bool_expr_bits e : typed e → is_bool_expr e = true → bits e = 1.
Proof.
  intros Ht H. destruct e as [| | | |[] | [] | | | | | | | | | |]; try discriminate H; typed_parts; done.
Qed.

Lemma land_odd b m : 0 ≤ b < 2 → Z.odd m = true → Z.land b m = b.
Proof.
  intros Hb Hm. assert (b = 0 ∨ b = 1) as [-> | ->] by lia; [apply Z.land_0_l|].
  rewrite Z.land_comm. change 1 with (Z.ones 1). rewrite Z.land_ones by lia. change (2 ^ 1) with 2. by rewrite Zmod_odd, Hm.
Qed.

(** What is masked already fits the mask. *)
Lemma masked_fits x m n s w k : typed (BinaryOp And x (Const m n) s w false) → m = 2 ^ k - 1 → 0 ≤ k →
  (∀ σ a, denote σ x = Some a → 0 ≤ a < 2 ^ k) → refines (BinaryOp And x (Const m n) s w false) x.
Proof.
  intros Ht -> Hk Hx. typed_parts. split; [done|]. split; [done|]. intros σ v E. denote_parts. ranges r.
  destruct (Z.le_gt_cases k (bits x)).
  - rewrite ones_small, land_mask, Z.mod_small by (lia || by eapply Hx). done.
  - by rewrite (land_mask_over a (bits x) k) by lia.
Qed.

Lemma mask_BinaryOp_sound : sound_on r (λ e, plain e ∧ mask_shape e) mask_BinaryOp.
Proof.
  intros e e' Ht [Hp Hs] H. unfold mask_BinaryOp in H. destruct e as [| | | | |[] x y s w fp| | | | | | | | | |]; try discriminate H.
  destruct y as [m n| | | | | | | | | | | | | | |]; try discriminate H. assert (fp = false) as -> by apply Ht.
  destruct (is_mask (bits x) m) eqn:Em.
  { injection H as <-. apply is_mask_ones in Em as [-> Hk]. eapply masked_fits; [done|done|lia|]. intros σ a E. eapply denote_bound; [apply Ht|done]. }
  destruct x as [| | | | |[] x1 x2 s1 w1 fp1|f t s1 x k l| |c p q| | | | | | |]; try discriminate H.
  - destruct x1 as [| | | | | |f t s2 x1 k l| | | | | | | | |]; try discriminate H. ifs H. injection H as <-.
    match goal with H : is_mask _ _ = true |- _ => apply is_mask_ones in H as [-> Hk] end.
    eapply masked_fits; [done|done|lia|]. intros σ a E. plain_parts Hp. typed_parts. denote_parts. cbn [compares_signed] in *. ifs E. injection E as <-. ranges r.
    assert (2 ^ bits x1 ≤ 2 ^ bits x2) by (apply Z.pow_le_mono_r; lia). rewrite Z.mod_small by lia. apply div_bound; lia.
  - destruct x2 as [k kw| | | | | | | | | | | | | | |]; try discriminate H. ifs H. injection H as <-.
    match goal with H : is_mask _ _ = true |- _ => apply is_mask_ones in H as [-> Hk] end. destruct (_MASKS k) eqn:E; [|done].
    eapply masked_fits; [done|done|lia|]. intros σ a Ea. cbn in Hs. typed_parts. denote_parts. ranges r. small_consts.
    assert (0 ≤ k) by (unfold _MASKS in E; repeat case_match; rule_conds; lia).
    assert (2 ^ bits x1 ≤ 2 ^ 64) by (apply Z.pow_le_mono_r; lia). apply (shiftr_small _ k 64); lia.
  - ifs H. injection H as <-. cbn in Hs. specialize (Hs ltac:(done)). plain_parts Hp. typed_parts.
    match goal with H : is_bool_expr x = true |- _ => apply is_bool_expr_bits in H as Hb; [|done] end.
    split; [by split_and!|]. split; [done|]. intros σ v E. denote_parts. cbn [denote]. ranges r. rewrite Hb in *. denote_goal. f_equal. small_consts.
    pose proof (Z.pow_le_mono_r 2 1 w). rewrite Z.mod_small by lia. symmetry. apply land_odd; [lia|done].
  - destruct p as [a ka| | | | | | | | | | | | | | |]; try discriminate H. destruct q as [b kb| | | | | | | | | | | | | | |]; try discriminate H.
    ifs H. injection H as <-. subst m. eapply (masked_fits _ _ _ _ _ 8); [done|done|lia|]. intros σ u E. plain_parts Hp. typed_parts. denote_parts.
    case_match; denote_parts; small_consts; lia.
Qed.

Lemma mask_Extract_sound byte_width : sound r (mask_Extract byte_width).
Proof.
  intros e e' Ht _ H. unfold mask_Extract in H. destruct e as [| | | | | | | | |w x o en| | | | | |]; try discriminate H.
  destruct x as [| | | | |[] y z s n fp| | | | | | | | | |]; try discriminate H. destruct z; try discriminate H.
  destruct byte_width; [cbn [mbind option_bind] in H|discriminate H]. destruct (is_mask w _ && _) eqn:C; [|discriminate H]. injection H as <-.
  destruct Ht as (Hw & Hx & Ho & -> & k & m & -> & Hk & Hb). apply andb_prop in C as [_ C]. cbn in C. rule_conds. subst k. cbn [bits] in *.
  match goal with |- refines (Extract _ ?b _ _) _ => remember b as x eqn:Ex; assert (bits x = n) as <- by (by subst x); clear Ex end.
  refining. denote_parts. denote_goal.
  f_equal. rewrite Zmod_0_l, Z.mul_0_r, field_div_mod, Z.pow_0_r, Z.div_1_r by lia. done.
Qed.

(** The comparison of a number with an expression keeps this rule from firing. *)
Lemma mask_Insert_never byte_width e : mask_Insert byte_width e = None.
Proof. unfold mask_Insert, int_is_expr. repeat case_match; try done. by destruct byte_width. Qed.

(** The other summand does not contain the masked node. *)
Definition mask_apart (same : expr → expr → bool) (e : expr) : Prop :=
  match e with
  | Convert _ _ _ (BinaryOp Add (BinaryOp And y _ _ _ _ as op0) z _ _ _) _ _ => replace_ail same op0 y z = z
  | Convert _ _ _ (BinaryOp Sub z (BinaryOp And y _ _ _ _ as op1) _ _ _) _ _ => replace_ail same op1 y z = z
  | _ => True
  end.

Lemma mask_Convert_sound same :
  (∀ a, same a a = true) → (∀ a b, same a b = true → likes a b = true) → sound_on r (mask_apart same) (mask_Convert same).
Proof.
  intros Hrefl Hlikes e e' Ht Ha H. assert (∀ op x y s w fp op' x' y' s' w' fp', op ≠ op' →
    same (BinaryOp op x y s w fp) (BinaryOp op' x' y' s' w' fp') = false) as Hdiff.
  { intros op x y s w fp op' x' y' s' w' fp' Ho. destruct (same _ _) eqn:E; [|done]. apply Hlikes in E. cbn in E. by rewrite bool_decide_eq_false_2 in E. }
  unfold mask_Convert in H. destruct e as [| | | | | |f t s x k l| | | | | | | | |]; try discriminate H.
  destruct x as [| | | | |[] x y s0 w fp| | | | | | | | | |]; try discriminate H.
  - destruct x as [| | | | |[] z m s1 w1 fp1| | | | | | | | | |]; try discriminate H. destruct m as [m n| | | | | | | | | | | | | | |]; try discriminate H.
    ifs H. injection H as <-. match goal with H : is_mask _ _ = true |- _ => apply is_mask_ones in H as [-> Hk] end.
    cbn [mask_apart] in Ha. cbn [replace_ail]. rewrite Hdiff, Hrefl, Ha by done. clear Ha. typed_parts. refining. denote_parts. denote_goal. f_equal.
    rewrite ones_small, land_mask by lia. mod_ring.
  - destruct y as [| | | | |[] z m s1 w1 fp1| | | | | | | | | |]; try discriminate H. destruct m as [m n| | | | | | | | | | | | | | |]; try discriminate H.
    ifs H. injection H as <-. match goal with H : is_mask _ _ = true |- _ => apply is_mask_ones in H as [-> Hk] end.
    cbn [mask_apart] in Ha. cbn [replace_ail]. rewrite Hdiff, Hrefl, Ha by done. clear Ha. typed_parts. refining. denote_parts. denote_goal. f_equal.
    rewrite ones_small, land_mask by lia. mod_ring.
Qed.

Lemma RemoveRedundantBitmasks_sound byte_width same e e' :
  (∀ a, same a a = true) → (∀ a b, same a b = true → likes a b = true) →
  typed e → plain e → mask_shape e → mask_apart same e → RemoveRedundantBitmasks byte_width same e = Some e' → refines e e'.
Proof.
  intros Hrefl Hlikes Ht Hp Hs Ha H. destruct e; try discriminate H.
  - by apply mask_BinaryOp_sound.
  - by apply (mask_Convert_sound same).
  - by apply (mask_Extract_sound byte_width).
  - cbn [RemoveRedundantBitmasks] in H. by rewrite mask_Insert_never in H.
Qed.

(** *** Insertions *)

Lemma RemoveRedundantInsert_sound : sound r RemoveRedundantInsert.
Proof.
  intros e e' Ht _ H. unfold RemoveRedundantInsert in H. rule_cases H. typed_parts. split; [done|]. split; [done|]. intros σ u E. denote_parts. ranges r.
  rewrite Zmod_0_l, Z.mul_0_r, field_div_mod, Z.pow_0_r, Z.div_1_r, !Z.shiftl_0_r by lia.
  match goal with H : bits _ = bits _ |- _ => rewrite H in * end. rewrite (Z.mod_small a) by lia. rewrite Z.sub_diag, Z.add_0_l. done.
Qed.

Lemma nested_reinterprets_sound : sound r nested_reinterprets.
Proof.
  intros e e' Ht _ H. unfold nested_reinterprets in H.
  destruct e as [| | | | | | |f k t l x| | | | | | | |]; try discriminate H. destruct x as [| | | | | | |f' k' t' l' x| | | | | | | |]; try discriminate H. ifs H. injection H as <-.
  destruct Ht as (Hw & (Hw' & Hx & Hf & Hf') & Hb & Ht). cbn in *. subst. split; [done|]. split; [done|]. intros σ v E. cbn in E.
  destruct (denote σ x) as [a|] eqn:Ea; [|discriminate E]. pose proof (denote_bound r σ x Hx a Ea). cbn in E. by rewrite !(Z.mod_small a) in E.
Qed.

(** The bits below the part are 0. *)
Definition const_insert_shape (e : expr) : Prop :=
  match e with Insert (Const b _) (Const k _) _ _ => b mod 2 ^ (8 * k) = 0 | _ => True end.

Lemma land_clear b q : 0 ≤ q → Z.land b (- 2 ^ q) = b / 2 ^ q * 2 ^ q.
Proof.
  intros Hq. replace (- 2 ^ q) with (Z.lnot (Z.ones q)) by (rewrite Z.ones_equiv; unfold Z.lnot; lia).
  by rewrite <-Z.ldiff_land, Z.ldiff_ones_r, Z.shiftl_mul_pow2, Z.shiftr_div_pow2 by done.
Qed.

Lemma cleared_part b k n : 0 ≤ k → 0 ≤ n → Z.land b (Z.shiftl (Z.lnot (Z.shiftl 1 n - 1)) k) = b / 2 ^ (k + n) * 2 ^ (k + n).
Proof.
  intros Hk Hn. rewrite <-land_clear, shiftl_1, Z.shiftl_mul_pow2, Z.pow_add_r by lia. do 2 f_equal. unfold Z.lnot. lia.
Qed.

Lemma inserted_part b c k n w : 0 ≤ k → 0 ≤ n → k + n ≤ w → 0 ≤ b < 2 ^ w → 0 ≤ c < 2 ^ n → b mod 2 ^ k = 0 →
  Z.lor (c * 2 ^ k mod 2 ^ w) (b / 2 ^ (k + n) * 2 ^ (k + n) mod 2 ^ w) = b - Z.shiftl (field k n b) k + Z.shiftl c k.
Proof.
  intros Hk Hn Hkn Hb Hc Hz. pose proof (pow2_pos k Hk). pose proof (field_split k n b Hk Hn) as E. rewrite Hz in E.
  assert (2 ^ (k + n) = 2 ^ k * 2 ^ n) as Ep by (apply Z.pow_add_r; lia). assert (2 ^ (k + n) ≤ 2 ^ w) by (apply Z.pow_le_mono_r; lia).
  pose proof (field_bound k n b Hn). assert (0 ≤ b / 2 ^ (k + n)) by (apply Z.div_pos; nia).
  rewrite !(Z.mod_small _ (2 ^ w)) by nia. rewrite Z.lor_comm, <-(Z.shiftl_mul_pow2 (b / _)) by lia. rewrite lor_shiftl_add, !Z.shiftl_mul_pow2 by nia. lia.
Qed.

Lemma RemoveConstInsert_sound e e' :
  typed e → in_range e = true → const_insert_shape e → RemoveConstInsert (Some 8) e = Ok (Some e') → refines e e'.
Proof.
  intros Ht Hr Hs H. unfold RemoveConstInsert in H. destruct e as [| | | | | | | | | |base o v en| | | | |]; try discriminate H.
  destruct base as [b w| | | | | | | | | | | | | | |]; try discriminate H. destruct o as [k n| | | | | | | | | | | | | | |]; try discriminate H.
  destruct Ht as (Hw & Hb & Ho & Hv & -> & k' & n' & [= <- <-] & Hk & Hp). cbn in Hr, Hs, Hw, Hp. rule_conds. injection H as <-.
  pose proof (width_pos r v Hv) as Pv. assert (8 * k < 2 ^ w) by (pose proof (Z.pow_gt_lin_r 2 w); lia).
  split; [|split; [by destruct (k =? 0)|]].
  { destruct (Z.eqb_spec k 0); cbn; repeat split; try lia; try done. apply amount_const. lia. }
  intros σ u E. denote_parts. ranges r.
  match goal with E : denote σ v = Some ?c |- _ => set (c0 := c) in *; clearbody c0 end. small_consts.
  assert (denote σ (if k =? 0 then mkConvert (bits v) w false v else mkBinary Shl (mkConvert (bits v) w false v) (Const (k * 8) w) false) = Some (c0 * 2 ^ (8 * k) mod 2 ^ w)) as Es.
  { destruct (Z.eqb_spec k 0) as [-> |]; denote_goal; [by rewrite Z.mul_0_r, Z.pow_0_r, Z.mul_1_r|].
    rewrite (Z.mod_small (k * 8)), Z.shiftl_mul_pow2, (Z.mul_comm k), Zmult_mod_idemp_l by lia. done. }
  cbn [denote mkBinary _binop_bits_for]. rewrite Es. clear Es. cbn [mbind option_bind denote binop_value]. f_equal.
  assert (bits (if k =? 0 then mkConvert (bits v) w false v else mkBinary Shl (mkConvert (bits v) w false v) (Const (k * 8) w) false) = w) as -> by (by destruct (k =? 0)).
  rewrite (Z.mul_comm k 8), cleared_part by lia. apply inserted_part; lia.
Qed.

(** *** Bitwise insertions *)

Definition bitwise (op : binop) (a b : Z) : Z := match op with Or => Z.lor a b | _ => Z.lxor a b end.

Lemma bitwise_low op a c w : 0 ≤ w → 0 ≤ c < 2 ^ w → a - a mod 2 ^ w + bitwise op (a mod 2 ^ w) c = bitwise op a c.
Proof.
  intros Hw Hc. assert (Z.shiftr (bitwise op a c) w = Z.shiftr a w) as Hhigh.
  { assert (Z.shiftr c w = 0) as Hz by (rewrite Z.shiftr_div_pow2 by done; by apply Z.div_small).
    unfold bitwise. destruct op; rewrite ?Z.shiftr_lor, ?Z.shiftr_lxor, Hz; by rewrite ?Z.lor_0_r, ?Z.lxor_0_r. }
  assert (bitwise op a c mod 2 ^ w = bitwise op (a mod 2 ^ w) c) as Hlow.
  { rewrite <-(Z.mod_small c (2 ^ w)) at 2 by done. unfold bitwise. destruct op; rewrite ?lor_low_part, ?lxor_low_part by done; done. }
  rewrite !Z.shiftr_div_pow2 in Hhigh by done. pose proof (pow2_pos w Hw).
  rewrite (Z.div_mod (bitwise op a c) (2 ^ w)), Hhigh, Hlow by lia. rewrite (Z.div_mod a (2 ^ w)) at 1 by lia. lia.
Qed.

Lemma with_base_cases o x c p q :
  (o, x, c) ∈ with_base p q → c = q ∧ (o = 0 ∧ x = p ∨ (∃ v n, q = Const v n) ∧
    ((∃ w n en, p = Extract w x (Const o n) en) ∨ o = 0 ∧ ∃ f t s k l, p = Convert f t s x k l)).
Proof.
  intros H. apply list_elem_of_In in H as [[= <- <- <-]|H]; [by auto|].
  destruct q; try done. destruct p as [| | | | | |f t s y k l| | |w y j en| | | | | |]; try done.
  - destruct H as [[= <- <- <-]|[]]. split; [done|]. right. split; [eauto|]. right. split; [done|]. by do 5 eexists.
  - destruct j; try done. destruct H as [[= <- <- <-]|[]]. split; [done|]. right. split; [eauto|]. left. by do 3 eexists.
Qed.

(** The part has the low bits of the base: the operand it is computed from. *)
Lemma with_base_value x c p q σ a u w :
  (0, x, c) ∈ with_base p q → typed x → typed p → bits p = w → w ≤ bits x → denote σ x = Some a → denote σ p = Some u → u = a mod 2 ^ w.
Proof.
  intros H Hx Hp Hb Hw Ea Eu. apply with_base_cases in H as (-> & [[_ ->]|[_ [(w' & n & en & ->)|(_ & f & t & s & k & l & ->)]]]).
  - ranges r. simplify_eq. by rewrite Z.mod_small.
  - typed_parts. destruct Ho as (-> & k & m & [= <- <-] & _). denote_parts. by rewrite Zmod_0_l, Z.mul_0_r, field_div_mod, Z.pow_0_r, Z.div_1_r by lia.
  - typed_parts. denote_parts. by rewrite convert_low by lia.
Qed.

(** A base that is not made of parts itself, at its low end. *)
Definition low_insert (e : expr) : Prop :=
  match e with Insert base (Const k _) _ _ => bases base = [(0, base)] ∧ k = 0 | _ => True end.

Lemma find_alike base l o1 x1 o2 x2 c :
  bases base = [(0, base)] → List.find alike (list_prod (bases base) l) = Some ((o1, x1), (o2, x2, c)) →
  o1 = 0 ∧ x1 = base ∧ o2 = 0 ∧ likes base x2 = true ∧ (0, x2, c) ∈ l.
Proof.
  intros -> H. apply List.find_some in H as [Hin Ha]. cbn in Hin. rewrite app_nil_r in Hin. apply in_map_iff in Hin as (p & [= <- <- ->] & Hin).
  cbn [alike] in Ha. rule_conds. subst o2. split_and!; try done. by apply list_elem_of_In.
Qed.

Lemma with_base_typed o x c p q : (o, x, c) ∈ with_base p q → typed p → typed x.
Proof.
  intros H Hp. apply with_base_cases in H as (-> & [[_ ->]|[_ [(w' & n & en & ->)|(_ & f & t & s & k & l & ->)]]]); by typed_parts.
Qed.

Lemma resized_value base c w c' : typed base → typed c → in_range c = true → bits c ≤ bits base → resized 0 base base c w = Ok c' →
  typed c' ∧ bits c' = bits base ∧ ∀ σ v, denote σ c = Some v → denote σ c' = Some v.
Proof.
  intros Hb Hc Hr Hle H. unfold resized in H. destruct (Z.ltb_spec (bits c) (bits base)).
  - destruct c; try discriminate H. injection H as <-. rewrite Z.shiftl_0_r. cbn in Hr, Hle. rule_conds. split; [split; [exact (width_pos r base Hb)|done]|].
    split; [done|]. intros σ v E. typed_parts. denote_parts. cbn [denote].
    assert (2 ^ bits0 ≤ 2 ^ bits base) by (apply Z.pow_le_mono_r; lia). by rewrite !Z.mod_small by lia.
  - destruct (Z.ltb_spec (bits base) (bits c)); [lia|]. injection H as <-. split_and!; [done|lia|done].
Qed.

Lemma SimplifyBitwiseInserts_sound e e' :
  typed e → in_range e = true → low_insert e → SimplifyBitwiseInserts e = Ok (Some e') → refines e e'.
Proof.
  intros Ht Hr Hs H. destruct e as [| | | | | | | | | |base o v en| | | | |]; try discriminate H.
  destruct v as [| | | | |op y z s w fp| | | | | | | | | |]; try discriminate H.
  assert ((op = Or ∨ op = Xor) ∧ insert_base op base y z (bits base) = Ok (Some e')) as [Hop H'] by (destruct op; try discriminate H; auto). clear H.
  destruct Ht as (Hw & Tb & To & Tv & -> & k & n & -> & Hk & Hp). destruct Hs as [Hbases ->]. cbn in Hw, Hp, Hr. rule_conds.
  unfold insert_base in H'. destruct (List.find _ _) as [[[o1 x1] [[o2 x2] c]]|] eqn:Ef; [|discriminate H'].
  apply find_alike in Ef as (-> & -> & -> & El & Hin); [|done]. cbn [negb Z.eqb] in H'.
  assert (fp = false ∧ typed y ∧ typed z ∧ bits y = w ∧ bits z = w ∧ 0 < w) as (-> & Ty & Tz & By & Bz & Pw) by (destruct Hop as [-> | ->]; typed_parts; done).
  assert (typed x2 → base = x2) as Hx2 by (intros T; by eapply likes_eq).
  assert (∃ p, (p = y ∧ c = z ∨ p = z ∧ c = y) ∧ (0, x2, c) ∈ with_base p c) as (p & Hp' & Hin').
  { apply elem_of_app in Hin as [Hin|Hin]; destruct (with_base_cases _ _ _ _ _ Hin) as [-> _]; eauto. }
  assert (typed p ∧ typed c ∧ bits p = w ∧ bits c = w ∧ in_range c = true) as (Tp & Tc & Bp & Bc & Rc) by (destruct Hp' as [[-> ->]|[-> ->]]; done).
  rewrite (Hx2 (with_base_typed _ _ _ _ _ Hin' Tp)) in *. clear Hx2. inv_ok H'. pose proof (resized_value x2 c _ _ Tb Tc Rc ltac:(lia) Hr) as (T' & B' & V').
  rewrite B', Z.eqb_refl in H'. assert (bits (mkBinary op x2 r0 false) = bits x2) as Br by (by destruct Hop as [-> | ->]). rewrite Br, Z.eqb_refl in H'. injection H' as <-.
  split; [destruct Hop as [-> | ->]; by split_and!|]. split; [done|]. intros σ v E. apply denote_insert in E as (a & k & b & Ea & Ek & Eb & <-).
  assert (∃ u q, denote σ p = Some u ∧ denote σ c = Some q ∧ b = bitwise op u q) as (u & q & Eu & Eq & ->).
  { apply denote_binop in Eb as (u & q & Eu & Eq & E); [|by destruct Hop as [-> | ->]..].
    destruct Hp' as [[-> ->]|[-> ->]]; [exists u, q|exists q, u]; (split; [done|]; split; [done|]); destruct Hop as [-> | ->]; cbn in E |- *; simplify_eq; auto using Z.lor_comm, Z.lxor_comm. }
  pose proof (with_base_value _ _ _ _ σ _ _ w Hin' Tb Tp Bp Hp Ea Eu) as ->. cbn in Ek. injection Ek as <-. ranges r. rewrite Bc in *.
  rewrite Zmod_0_l, Z.mul_0_r, field_div_mod, Z.pow_0_r, Z.div_1_r, !Z.shiftl_0_r by lia. cbn [bits]. rewrite bitwise_low by lia.
  unfold mkBinary. destruct Hop as [-> | ->]; cbn [denote]; rewrite Ea; cbn [mbind option_bind]; by rewrite (V' _ _ Eq).
Qed.

(** *** Concatenations *)

Lemma sign_extended_concat n t a : 0 < n ≤ t → 0 ≤ a < 2 ^ n →
  Z.shiftr (signed n a) (t - 1) mod 2 ^ t * 2 ^ n + a = signed n a mod 2 ^ (t + n).
Proof.
  intros Hn Ha. pose proof (signed_bounds n a ltac:(lia)) as Hs. assert (2 ^ (n - 1) ≤ 2 ^ (t - 1)) by (apply Z.pow_le_mono_r; lia).
  assert (2 ^ (t + n) = 2 ^ t * 2 ^ n) as Ep by (apply Z.pow_add_r; lia). assert (2 ^ t = 2 * 2 ^ (t - 1)) as Et by (apply pow2_double; lia).
  pose proof (pow2_double n ltac:(lia)) as En. pose proof (pow2_pos (n - 1) ltac:(lia)). pose proof (signed_congruent n a ltac:(lia)) as Hc. rewrite Z.shiftr_div_pow2 by lia.
  destruct (Z.lt_ge_cases (signed n a) 0) as [Hneg|Hpos].
  - assert (signed n a = a - 2 ^ n) as Es by (rewrite <-(Z_mod_plus_full (signed n a) 1), (Z.mod_small (_ + _)), Z.mod_small in Hc by lia; lia). rewrite Es in *.
    assert ((a - 2 ^ n) / 2 ^ (t - 1) = -1) as -> by (symmetry; apply (Z.div_unique _ _ _ (a - 2 ^ n + 2 ^ (t - 1))); lia).
    rewrite <-(Z_mod_plus_full (-1) 1), <-(Z_mod_plus_full (a - 2 ^ n) 1), !Z.mod_small by nia. nia.
  - rewrite !(Z.mod_small _ (2 ^ n)) in Hc by lia. rewrite Hc in *. rewrite Z.div_small, mod_0_pow, Z.mod_small by nia. lia.
Qed.

Lemma signed_widened f t a : 0 < f ≤ t → signed t (signed f a mod 2 ^ t) = signed f a.
Proof.
  intros H. rewrite signed_mod by lia. pose proof (signed_bounds f a ltac:(lia)). assert (2 ^ (f - 1) ≤ 2 ^ (t - 1)) by (apply Z.pow_le_mono_r; lia).
  apply signed_id; lia.
Qed.

(** The environment and the types after the assignment in the statement before. *)
Definition assigned (σ : env) (previous : option (expr * expr)) : Prop :=
  match previous with Some (dst, src) => denote σ dst = denote σ src | None => True end.

Definition assignment_typed (previous : option (expr * expr)) : Prop :=
  match previous with Some (dst, src) => typed dst ∧ typed src ∧ bits dst = bits src | None => True end.

Definition refines_after (previous : option (expr * expr)) (e e' : expr) : Prop :=
  typed e' ∧ bits e' = bits e ∧ ∀ σ v, assigned σ previous → denote σ e = Some v → denote σ e' = Some v.

Lemma refines_refines_after previous e e' : refines e e' → refines_after previous e e'.
Proof. intros (Ht & Hb & Hv). split_and!; auto. Qed.

(** No truncation under the sign, or under the shift; an arithmetic shift only of
    a widened concatenation. *)
Definition concat_shape (e : expr) : Prop :=
  match e with
  | BinaryOp Concat (BinaryOp Sar (Convert f t _ _ _ _) _ _ _ _) _ _ _ _ => f ≤ t
  | BinaryOp Sar (BinaryOp Concat _ _ _ _ _) _ _ _ _ => False
  | BinaryOp Shr (Convert f t s _ _ _) _ _ _ _ => f < t ∧ s = false
  | BinaryOp Sar (Convert f t _ _ _ _) _ _ _ _ => f < t
  | _ => True
  end.

Lemma convert_concat_sound f t s x k l e' :
  typed (Convert f t s x k l) → optimize_convert_concat f t s x = Some e' → refines (Convert f t s x k l) e'.
Proof.
  intros Ht H. unfold optimize_convert_concat in H. destruct (Z.leb_spec f t); [discriminate H|].
  destruct x as [| | | | |[] high low s0 w fp| | | | | | | | | |]; try discriminate H. typed_parts.
  destruct (Z.eqb_spec t (bits low)); [|destruct (Z.ltb_spec t (bits low)); [|discriminate H]]; injection H as <-.
  - subst t. split; [done|]. split; [done|]. intros σ v E. denote_parts. ranges r. rewrite convert_low by lia. rewrite Z.add_comm, Z_mod_plus_full, Z.mod_small by lia. done.
  - refining. denote_parts. denote_goal. f_equal. rewrite !convert_low by lia. 
    replace (bits low) with (bits low - t + t) at 1 by lia. rewrite Z.pow_add_r, Z.mul_assoc, Z.add_comm, Z_mod_plus_full by lia. done.
Qed.

(** A concatenation, under a conversion or not. *)
Lemma under_convert_cases x outer high low s w fp :
  typed x → under_convert x = (outer, BinaryOp Concat high low s w fp) →
  typed high ∧ typed low ∧ 0 < bits high ∧ 0 < bits low ∧
  (outer = None ∧ x = BinaryOp Concat high low s w fp ∧ bits x = bits high + bits low ∧
     (∀ σ v, denote σ x = Some v → ∃ a b, denote σ high = Some a ∧ denote σ low = Some b ∧ v = a * 2 ^ bits low + b) ∨
   ∃ f t c k l, outer = Some (t, c) ∧ x = Convert f t c (BinaryOp Concat high low s w fp) k l ∧ bits x = t ∧ f = bits high + bits low ∧
     (∀ σ v, denote σ x = Some v → ∃ a b, denote σ high = Some a ∧ denote σ low = Some b ∧
       v = (if c then signed f (a * 2 ^ bits low + b) else a * 2 ^ bits low + b) mod 2 ^ t)).
Proof.
  intros Ht H. destruct x as [| | | | |op x y s0 w0 fp0|f t c x k l| | | | | | | | |]; try discriminate H; injection H as <-; subst; typed_parts.
  - split_and!; try done; try (by apply (width_pos r)). left. split_and!; try done. intros σ v E. denote_parts. by do 2 eexists.
  - split_and!; try done; try (by apply (width_pos r)). right. do 5 eexists. split_and!; try done. intros σ v E. denote_parts. by do 2 eexists.
Qed.

Lemma and_concat_sound x y s w e' :
  typed (BinaryOp And x y s w false) → in_range y = true → optimize_and_concat x y w = Some e' → refines (BinaryOp And x y s w false) e'.
Proof.
  intros Ht Hr H. unfold optimize_and_concat in H. destruct y as [m n| | | | | | | | | | | | | | |]; try discriminate H.
  assert (typed x ∧ bits x = w ∧ n = w ∧ 0 < w) as (Tx & Bx & -> & Pw) by (by typed_parts). cbn in Hr. rule_conds.
  destruct (under_convert x) as [outer inner] eqn:Eu. destruct inner as [| | | | |[] high low s1 w1 fp1| | | | | | | | | |]; try discriminate H.
  destruct (Z.eqb_spec m (Z.shiftl 1 (bits low) - 1)) as [->|]; [|discriminate H]. cbn [negb] in H.
  apply under_convert_cases in Eu as (Th & Tl & Ph & Pl & Hc); [|done]. rewrite shiftl_1 in * by lia.
  assert (bits low ≤ w) by (apply (Z.pow_le_mono_r_iff 2); lia).
  assert (match outer with Some (t, _) => t | None => w end = w) as E by (destruct Hc as [(-> & _)|(f & t & c & k & l & -> & _ & Hb & _)]; congruence).
  rewrite E in H. clear E. injection H as <-.
  assert (∀ σ v, denote σ x = Some v → ∃ b, denote σ low = Some b ∧ v mod 2 ^ bits low = b) as Hv.
  { intros σ v E. destruct Hc as [(_ & _ & _ & Hv)|(f & t & c & k & l & _ & _ & Hb & Hf & Hv)]; destruct (Hv _ _ E) as (a & b & _ & Eb & ->); exists b; (split; [done|]); ranges r;
      [|rewrite mod_low, convert_low by lia]; by rewrite Z.add_comm, Z_mod_plus_full, Z.mod_small. }
  clear Hc. split; [|split].
  - destruct (Z.eqb_spec w (bits low)); [done|]. cbn. split_and!; done || lia.
  - by destruct (Z.eqb_spec w (bits low)).
  - intros σ v E. denote_parts. destruct (Hv _ _ ltac:(eassumption)) as (b & Eb & Eq). rewrite ones_small, land_mask, Eq by lia. ranges r.
    case_match; [done|]. denote_goal. f_equal. assert (2 ^ bits low ≤ 2 ^ bits x) by (apply Z.pow_le_mono_r; lia). apply Z.mod_small. lia.
Qed.

Lemma high_part_value m a b : 0 ≤ m → 0 ≤ b < 2 ^ m → Z.shiftr (a * 2 ^ m + b) m = a.
Proof. intros Hm Hb. rewrite Z.shiftr_div_pow2, Z.div_add_l, Z.div_small by lia. lia. Qed.

Lemma signed_concat h m a b : 0 < h → 0 ≤ m → 0 ≤ b < 2 ^ m → signed (h + m) (a * 2 ^ m + b) = signed h a * 2 ^ m + b.
Proof.
  intros Hh Hm Hb. pose proof (signed_bounds h a ltac:(lia)). assert (2 ^ (h + m - 1) = 2 ^ (h - 1) * 2 ^ m) as E by (rewrite <-Z.pow_add_r by lia; f_equal; lia).
  rewrite (signed_ext (h + m) _ (signed h a * 2 ^ m + b)); [apply signed_id; nia|lia|]. apply Zplus_eqm; [|done].
  unfold eqm. by rewrite Z.pow_add_r, !Zmult_mod_distr_r, signed_congruent by lia.
Qed.

Lemma shr_concat_sound op x y s w e' :
  op = Shr ∨ op = Sar → concat_shape (BinaryOp op x y s w false) → typed (BinaryOp op x y s w false) →
  optimize_shr_concat x y w = Some e' → refines (BinaryOp op x y s w false) e'.
Proof.
  intros Hop Hs Ht H. unfold optimize_shr_concat in H. destruct y as [m n| | | | | | | | | | | | | | |]; try discriminate H.
  assert (typed x ∧ bits x = w ∧ 0 < w ∧ 0 ≤ m < 2 ^ n) as (Tx & Bx & Pw & Hm) by (destruct Hop as [-> | ->]; typed_parts; done).
  destruct (under_convert x) as [outer inner] eqn:Eu. destruct inner as [| | | | |[] high low s1 w1 fp1| | | | | | | | | |]; try discriminate H.
  destruct (Z.eqb_spec m (bits low)) as [->|]; [|discriminate H]. cbn [negb] in H. injection H as <-.
  apply under_convert_cases in Eu as (Th & Tl & Ph & Pl & Hc); [|done].
  assert (w ≠ bits high) as Hn by (destruct Hc as [(_ & _ & Hb & _)|(f & t & c & k & l & _ & -> & Hb & Hf & _)]; [lia|destruct Hop as [-> | ->]; cbn in Hs; lia]).
  rewrite (proj2 (Z.eqb_neq _ _)) by done.
  split; [cbn; by split_and!|]. split; [done|]. intros σ v E. apply denote_binop in E as (u & k' & Eu & Ek & E); [|by destruct Hop as [-> | ->]..].
  cbn in Ek. injection Ek as <-. rewrite (Z.mod_small (bits low)) in E by done.
  destruct Hc as [(-> & -> & Hb & Hv)|(f & t & c & k & l & -> & -> & Hb & Hf & Hv)]; destruct (Hv _ _ Eu) as (a & b & Ea & Eb & ->); ranges r; denote_goal.
  all: assert (0 ≤ a * 2 ^ bits low + b < 2 ^ (bits high + bits low)) by (rewrite Z.pow_add_r by lia; nia).
  - destruct Hop as [-> | ->]; [|done]. cbn in E. injection E as <-. f_equal. rewrite high_part_value by lia. apply Z.mod_small.
    assert (2 ^ bits high ≤ 2 ^ w) by (apply Z.pow_le_mono_r; lia). lia.
  - destruct Hop as [-> | ->]; cbn in E, Hs, Hb; injection E as <-; f_equal; subst; cbn [bits] in *.
    + destruct Hs as [Hlt ->]. assert (2 ^ (bits high + bits low) ≤ 2 ^ t) by (apply Z.pow_le_mono_r; lia).
      assert (2 ^ bits high ≤ 2 ^ t) by (apply Z.pow_le_mono_r; lia). rewrite (Z.mod_small (_ + _)), high_part_value, Z.mod_small by lia. done.
    + f_equal. destruct c.
      * rewrite signed_widened, signed_concat, high_part_value by lia. done.
      * assert (2 ^ (bits high + bits low) ≤ 2 ^ (t - 1)) by (apply Z.pow_le_mono_r; lia). pose proof (pow2_double t ltac:(lia)).
        rewrite (Z.mod_small (_ + _)), signed_id, high_part_value by lia. done.
Qed.

(** *** The rule *)

Lemma shifted_sign_concat h low k n s w s' w' :
  typed (BinaryOp Concat (BinaryOp Sar h (Const k n) s w false) low s' w' false) → k = bits low - 1 → h = low →
  refines (BinaryOp Concat (BinaryOp Sar h (Const k n) s w false) low s' w' false) (mkConvert (bits low) w' true low).
Proof.
  intros Ht -> ->. typed_parts. refining. denote_parts. ranges r. denote_goal. small_consts. f_equal. symmetry. apply sign_extended_concat; lia.
Qed.

Lemma concat_sound previous high low s w e' :
  assignment_typed previous → typed (BinaryOp Concat high low s w false) → concat_shape (BinaryOp Concat high low s w false) →
  optimize_concat previous high low w = Some e' → refines_after previous (BinaryOp Concat high low s w false) e'.
Proof.
  intros Hp Ht Hs H. apply or_else_some in H as [H|H].
  { apply refines_refines_after. rule_cases H. typed_parts. refining. denote_parts. ranges r. denote_goal. f_equal.
    rewrite mod_0_pow, Z.mul_0_l, Z.add_0_l. assert (2 ^ bits low ≤ 2 ^ (bits0 + bits low)) by (apply Z.pow_le_mono_r; lia). apply Z.mod_small. lia. }
  assert (typed low) as Tl by apply Ht. apply or_else_some in H as [H|H]; [|apply or_else_some in H as [H|H]].
  - apply refines_refines_after. destruct high as [| | | | |[] h k s1 w1 fp1| | | | | | | | | |]; try discriminate H. destruct k as [k n| | | | | | | | | | | | | | |]; try discriminate H.
    ifs H. injection H as <-. assert (fp1 = false) as -> by apply Ht. apply shifted_sign_concat; [done|done|]. eapply likes_eq; [|done..]. apply Ht.
  - apply refines_refines_after. destruct high as [| | | | |[] h k s1 w1 fp1| | | | | | | | | |]; try discriminate H. destruct h as [| | | | | |f t c h k' l| | | | | | | | |]; try discriminate H.
    destruct k as [k n| | | | | | | | | | | | | | |]; try discriminate H. ifs H. injection H as <-. cbn in Hs. subst k c. typed_parts. refining. denote_parts. ranges r. denote_goal. small_consts.
    rewrite signed_widened by lia. f_equal. symmetry. apply sign_extended_concat; lia.
  - unfold find_definition in H. destruct previous as [[dst src]|]; [|discriminate H]. cbn [mbind option_bind] in H. destruct (likes dst high) eqn:El; [|discriminate H]. cbn [mbind option_bind] in H.
    destruct Hp as (Td & Ts & Hb). assert (dst = high) as -> by (eapply likes_eq; [done|apply Ht|done]).
    destruct src as [| | | | |[] h k s1 w1 fp1| | | | | | | | | |]; try discriminate H. destruct k as [k n| | | | | | | | | | | | | | |]; try discriminate H.
    ifs H. injection H as <-. assert (fp1 = false) as -> by apply Ts. cbn in Hb. subst w1.
    destruct (shifted_sign_concat h low k n s1 (bits high) s w) as (T' & B' & V'); [|done|eapply likes_eq; [apply Ts|done..]|].
    { cbn. split_and!; try apply Ts; apply Ht || done. }
    split; [done|]. split; [done|]. intros σ v Ha E. apply V'. cbn in Ha. cbn [denote] in E |- *. by rewrite Ha in E.
Qed.

(** C40: Where the rule rewrites a typed expression with constants in range, the result
    is typed, of the same width, and of the same value wherever the expression has one
    and the assignment before the statement, which is typed, has been made.  Outside
    ([concat_shape]): Sar of a concatenation that is not converted, Shr of a conversion
    that is signed or does not widen, Sar of a conversion that does not widen, and the
    concatenation of a Sar of a truncating conversion with anything. *)
Theorem ConcatSimplifier_sound previous e e' :
  typed e → in_range e = true → concat_shape e → assignment_typed previous → ConcatSimplifier previous e = Some e' → refines_after previous e e'.
Proof.
  intros Ht Hr Hs Hp H. destruct e as [| | | | |op x y s w fp|f t s x k l| | | | | | | | |]; try discriminate H.
  - assert (fp = false) as -> by apply Ht. destruct op; try discriminate H.
    + apply refines_refines_after, and_concat_sound; [done| |done]. cbn in Hr. by rule_conds.
    + by apply refines_refines_after, shr_concat_sound; [left| | |].
    + by apply refines_refines_after, shr_concat_sound; [right| | |].
    + by apply concat_sound.
  - by apply refines_refines_after, convert_concat_sound.
Qed.

End soundness.

(** *** Where a rule changes the value *)

Section miscompiled.
Context (r : string → Z).

(** A mask that drops a truth value. *)
Lemma mask_bool_miscompiles : miscompiles r mask_BinaryOp.
Proof.
  counterexample (BinaryOp And (Convert 1 32 false (BinaryOp CmpEQ (Register 0 32) (Const 1 32) false 1 false) TYPE_INT TYPE_INT) (Const 2 32) false 32 false) 1.
Qed.

(** A masked expression that also occurs in the other summand, above the low bits. *)
Lemma mask_Convert_miscompiles : miscompiles r (mask_Convert likes).
Proof.
  counterexample (Convert 32 8 false (BinaryOp Add (BinaryOp And (Register 0 32) (Const 0xFF 32) false 32 false)
    (BinaryOp Shr (BinaryOp And (Register 0 32) (Const 0xFF 32) false 32 false) (Const 4 8) false 32 false) false 32 false) TYPE_INT TYPE_INT) 0x100.
Qed.

(** The bits of the constant below the part are cleared with it. *)
Lemma RemoveConstInsert_miscompiles :
  miscompiles r (λ e, match RemoveConstInsert (Some 8) e with Ok m => m | Err _ => None end).
Proof.
  counterexample (Insert (Const 0xFF 32) (Const 1 32) (Register 0 8) "Iend_LE"%string) 0.
Qed.

(** A part that is not at the low end, and a base that is a concatenation. *)
Lemma SimplifyBitwiseInserts_offset : miscompiles r (λ e, match SimplifyBitwiseInserts e with Ok m => m | Err _ => None end).
Proof.
  counterexample (Insert (Register 0 32) (Const 1 32) (BinaryOp Or (Extract 8 (Register 0 32) (Const 0 32) "Iend_LE"%string) (Const 1 8) false 8 false) "Iend_LE"%string) 0.
Qed.

Lemma SimplifyBitwiseInserts_concat : miscompiles r (λ e, match SimplifyBitwiseInserts e with Ok m => m | Err _ => None end).
Proof.
  counterexample (Insert (BinaryOp Concat (Register 0 8) (Register 8 8) false 16 false) (Const 0 32) (BinaryOp Or (Register 0 8) (Register 16 8) false 8 false) "Iend_LE"%string) 1.
Qed.

(** The high part under an arithmetic shift, and under a truncation. *)
Lemma ConcatSimplifier_sar : miscompiles r (ConcatSimplifier None).
Proof.
  counterexample (BinaryOp Sar (BinaryOp Concat (Register 0 8) (Register 8 8) false 16 false) (Const 8 8) false 16 false) 0x80.
Qed.

Lemma ConcatSimplifier_truncated : miscompiles r (ConcatSimplifier None).
Proof.
  counterexample (BinaryOp Shr (Convert 32 24 false (BinaryOp Concat (Register 0 16) (Register 8 16) false 32 false) TYPE_INT TYPE_INT) (Const 16 8) false 24 false) 0x100.
Qed.

End miscompiled.

(** The sign of [x], that the statement before computed, before [x]. *)
Lemma ConcatSimplifier_sound_witness :
  refines_after (λ _, 32) (Some (VirtualVariable 1 32 REGISTER, BinaryOp Sar (Register 0 32) (Const 31 8) false 32 false))
    (BinaryOp Concat (VirtualVariable 1 32 REGISTER) (Register 0 32) false 64 false) (Convert 32 64 true (Register 0 32) TYPE_INT TYPE_INT).
Proof.
  apply ConcatSimplifier_sound.
  - cbn; repeat split; lia.
  - reflexivity.
  - exact I.
  - cbn; repeat split; try lia; apply amount_const; lia.
  - reflexivity.
Defined.

(** [Insert(r, 0, Extract(r, 0) | 0x10)] is [r | 0x10]. *)
Lemma SimplifyBitwiseInserts_sound_witness :
  refines (λ _, 32) (Insert (Register 0 32) (Const 0 32) (BinaryOp Or (Extract 8 (Register 0 32) (Const 0 32) "Iend_LE"%string) (Const 0x10 8) false 8 false) "Iend_LE"%string)
    (BinaryOp Or (Register 0 32) (Const 0x10 32) false 32 false).
Proof.
  apply SimplifyBitwiseInserts_sound.
  - cbn; repeat split; try lia; do 2 eexists; (split; [reflexivity|]); cbn; lia.
  - reflexivity.
  - by split.
  - reflexivity.
Defined.

End PeepParts.
