(* ===== verification/PeepStack.v ===== *)
(** * Stack addresses

    The peephole rule that flattens the sums around stack addresses and merges
    their constants: [peephole_optimizations/tidy_stack_addr.py]. *)

From Stdlib Require Import ZArith Lia Bool String.
From stdpp Require Import base tactics list numbers strings option.
From S2P Require Import Prelude Bitfields Ail AilFacts PeepConv PeepShift PeepEager.
Import Bitfields Ail AilFacts PeepConv PeepShift PeepEager.

Module PeepStack.

Definition is_alignment_mask (n : Z) : bool :=
  bool_decide (n ∈ [0xFFFFFFFFFFFFFFE0; 0xFFFFFFFFFFFFFFF0; 0xFFFFFFC0; 0xFFFFFFE0; 0xFFFFFFF0; 0xFFFFFFFC; 0xFFFFFFF8]).

(** An operand and its sign: [true] for the ones that are added. *)
Definition operand := (bool * expr)%type.

Definition is_binop (e : expr) : bool := match e with BinaryOp _ _ _ _ _ _ => true | _ => false end.
Definition is_stack (p : operand) : bool := match p.2 with StackBaseOffset _ _ => true | _ => false end.
Definition is_const (p : operand) : bool := match p.2 with Const _ _ => true | _ => false end.

(** The loop over the stack of operands that are not flattened yet. *)
Fixpoint flatten (fuel : nat) (stack all_operands : list operand) : option (list operand) :=
  match stack with
  | [] => Some all_operands
  | (sign, item) :: stack =>
      match fuel with
      | O => None
      | S fuel =>
          match item with
          | BinaryOp Add x y _ _ _ => flatten fuel ((sign, y) :: (sign, x) :: stack) all_operands
          | BinaryOp Sub x y _ _ _ => flatten fuel ((negb sign, y) :: (sign, x) :: stack) all_operands
          | _ => flatten fuel stack ((sign, item) :: all_operands)
          end
      end
  end.

(** The indices of the stack addresses. *)
Fixpoint stack_indices (k : nat) (l : list operand) : list nat :=
  match l with
  | [] => []
  | p :: l => if is_stack p then k :: stack_indices (S k) l else stack_indices (S k) l
  end.

(** The elements of the range of indices from [lo] to [hi]. *)
Definition slice {A} (lo hi : nat) (l : list A) : list A := take (hi - lo) (drop lo l).

Definition const_of (p : operand) : Z := match p with (positive, Const v _) => if positive then v else - v | _ => 0 end.
Definition consts (l : list operand) : Z := fold_right (λ p c, const_of p + c) 0 l.

(** The stack address at each index, with the constants of the range that belongs
    to it; [i] counts the stack addresses. *)
Fixpoint merged (all_operands : list operand) (i : nat) (indices : list nat) : list (list operand * operand) :=
  match indices with
  | [] => []
  | k :: rest =>
      let range := slice (S i) (match rest with next :: _ => next | [] => length all_operands end) all_operands in
      match all_operands !! k with
      | Some (sign, StackBaseOffset n offset) =>
          [(range, (sign, if consts range =? 0 then StackBaseOffset n offset
            else mkStackBaseOffset n (offset + (if sign : bool then consts range else - consts range))))]
      | _ => []
      end ++ merged all_operands (S i) rest
  end.

Definition first_term (p : operand) : expr := if p.1 then p.2 else mkUnary Neg p.2.
Definition add_term (new_expr : expr) (p : operand) : expr := mkBinary (if p.1 then Add else Sub) new_expr p.2 false.

(** [fuel] bounds the rounds of the flattening. *)
Definition optimize_add_sub (fuel : nat) (e : expr) : option expr :=
  match e with
  | BinaryOp _ x y _ _ _ =>
      if negb (is_binop x || is_binop y) then None else
      if match x, y with StackBaseOffset _ _, Const _ _ => true | _, _ => false end then None else
      all_operands ← flatten fuel [(true, e)] [];
      if negb (existsb is_stack all_operands) then None else
      let objs := merged all_operands 0 (stack_indices 0 all_operands) in
      if negb (existsb (λ o, existsb is_const o.1) objs) then None else
      match map snd objs with
      | [] => None
      | p :: objs => Some (foldl add_term (foldl add_term (first_term p) objs) (List.filter (λ p, negb (is_stack p || is_const p)) all_operands))
      end
  | _ => None
  end.

Definition optimize_and (e : expr) : option expr :=
  match e with
  | BinaryOp _ (StackBaseOffset n o) (Const m _) _ _ _ => if is_alignment_mask m then Some (StackBaseOffset n o) else None
  | _ => None
  end.

Definition TidyStackAddr (fuel : nat) (e : expr) : option expr :=
  match e with
  | BinaryOp (Add | Sub) _ _ _ _ _ => optimize_add_sub fuel e
  | BinaryOp And _ _ _ _ _ => optimize_and e
  | _ => None
  end.

(** ** The flattened sum *)

Fixpoint terms (sign : bool) (e : expr) : list operand :=
  match e with
  | BinaryOp Add x y _ _ _ => terms sign x ++ terms sign y
  | BinaryOp Sub x y _ _ _ => terms sign x ++ terms (negb sign) y
  | _ => [(sign, e)]
  end.

Lemma terms_ind (P : bool → expr → Prop) :
  (∀ s e, terms s e = [(s, e)] → P s e) →
  (∀ s x y s' w fp, P s x → P s y → P s (BinaryOp Add x y s' w fp)) →
  (∀ s x y s' w fp, P s x → P (negb s) y → P s (BinaryOp Sub x y s' w fp)) → ∀ s e, P s e.
Proof.
  intros Hl Ha Hs s e. revert s. induction e as [| | | | |op x IHx y IHy s' w fp| | | | | | | | | |]; intros s; try (by apply Hl). destruct op; try (by apply Hl); auto.
Qed.

(** The rounds that an operand takes. *)
Fixpoint rounds (e : expr) : nat :=
  match e with
  | BinaryOp Add x y _ _ _ | BinaryOp Sub x y _ _ _ => S (rounds x + rounds y)
  | _ => 1
  end.

Definition total_rounds (stack : list operand) : nat := fold_right (λ p n, (rounds p.2 + n)%nat) 0%nat stack.

Lemma flatten_terms fuel stack all :
  (total_rounds stack ≤ fuel)%nat → flatten fuel stack all = Some (foldl (λ acc p, terms p.1 p.2 ++ acc) all stack).
Proof.
  revert stack all. induction fuel as [|fuel IH]; intros [|[sign item] stack] all Hf; try done.
  - cbn in Hf. destruct item as [| | | | |[]| | | | | | | | | |]; cbn in Hf; lia.
  - cbn [total_rounds fold_right snd] in Hf. fold (total_rounds stack) in Hf.
    destruct item as [| | | | |[] x y s w fp| | | | | | | | | |]; cbn [flatten]; cbn [rounds] in Hf; rewrite IH; try (cbn [total_rounds fold_right snd]; fold (total_rounds stack); lia); try done.
    all: cbn [foldl fst snd terms]; by rewrite app_assoc.
Qed.

(** ** Soundness *)

Section soundness.
Context (r : string → Z).
#[local] Notation typed := (typed r).
#[local] Notation refines := (refines r).

Definition term_typed (w : Z) (p : operand) : Prop := typed p.2 ∧ bits p.2 = w.

(** The value of a sum of operands, before it is reduced to its width. *)
Fixpoint total (σ : env) (l : list operand) : option Z :=
  match l with
  | [] => Some 0
  | (sign, x) :: l => v ← denote σ x; t ← total σ l; Some ((if sign : bool then v else - v) + t)
  end.

Lemma operands_total_app σ l l' t t' : total σ l = Some t → total σ l' = Some t' → total σ (l ++ l') = Some (t + t').
Proof.
  revert t. induction l as [|[s x] l IH]; intros t H H'; cbn in H |- *; [by simplify_eq|].
  destruct (denote σ x); [|discriminate H]. destruct (total σ l); [|discriminate H]. cbn in *. rewrite (IH _ eq_refl H'). cbn. simplify_eq. f_equal. lia.
Qed.

Lemma terms_typed e s : typed e → Forall (term_typed (bits e)) (terms s e).
Proof.
  induction s, e using terms_ind; intros Ht; [match goal with H : terms _ _ = _ |- _ => rewrite H end; repeat constructor; done|..].
  all: cbn [terms bits]; destruct Ht as (_ & _ & Hx & Hy & <- & Hb); apply Forall_app; split; [by auto|].
  - rewrite <-Hb. by auto.
  - rewrite <-Hb. by auto.
Qed.

Lemma total_sum σ s s' op e1 e2 w v1 v2 t t' :
  op = Add ∧ s' = s ∨ op = Sub ∧ s' = negb s → 0 < w → eqm (2 ^ w) t (if s then v1 else - v1) → eqm (2 ^ w) t' (if s' then v2 else - v2) →
  total σ (terms s e1) = Some t → total σ (terms s' e2) = Some t' →
  total σ (terms s e1 ++ terms s' e2) = Some (t + t') ∧
  eqm (2 ^ w) (t + t') (if s then (if bool_decide (op = Add) then v1 + v2 else v1 - v2) mod 2 ^ w else - ((if bool_decide (op = Add) then v1 + v2 else v1 - v2) mod 2 ^ w)).
Proof.
  intros Ho Hw H1 H2 E1 E2. split; [by apply operands_total_app|]. eapply eqm_trans; [by apply Zplus_eqm|].
  destruct Ho as [[-> ->]|[-> ->]]; [rewrite bool_decide_eq_true_2 by done|rewrite bool_decide_eq_false_2 by done];
    destruct s; cbn [negb]; unfold eqm; mod_ring.
Qed.

Lemma terms_total σ e s v : typed e → denote σ e = Some v →
  ∃ t, total σ (terms s e) = Some t ∧ eqm (2 ^ bits e) t (if s then v else - v).
Proof.
  revert v. induction s, e using terms_ind; intros v Ht E.
  - match goal with H : terms _ _ = _ |- _ => rewrite H end. cbn [total]. rewrite E. cbn. eexists. split; [done|]. by rewrite Z.add_0_r.
  - typed_parts. denote_parts. destruct (IHe1 _ Hx E0) as (t & Et & Ht). destruct (IHe2 _ Hy E1) as (t' & Et' & Ht').
    rewrite H0 in Ht'. destruct (total_sum σ s s Add e1 e2 (bits e1) a b t t') as [Es Hs]; auto. cbn [terms]. eauto.
  - typed_parts. denote_parts. destruct (IHe1 _ Hx E0) as (t & Et & Ht). destruct (IHe2 _ Hy E1) as (t' & Et' & Ht').
    rewrite H0 in Ht'. destruct (total_sum σ s (negb s) Sub e1 e2 (bits e1) a b t t') as [Es Hs]; auto. cbn [terms]. eauto.
Qed.

Definition is_rest (p : operand) : bool := negb (is_stack p || is_const p).

(** Stack addresses, constants and the rest. *)
Lemma total_split σ w l t : Forall (term_typed w) l → total σ l = Some t →
  ∃ a b, total σ (List.filter is_stack l) = Some a ∧ total σ (List.filter is_rest l) = Some b ∧ eqm (2 ^ w) t (a + consts l + b).
Proof.
  intros Hl. revert t. induction Hl as [|[s x] l [Hx Hw] _ IH]; intros t E; [cbn in E; simplify_eq; by exists 0, 0|].
  cbn in E. destruct (denote σ x) as [v|] eqn:Ex; [|discriminate E]. destruct (total σ l) as [t'|]; [|discriminate E]. cbn in E. injection E as <-.
  destruct (IH _ eq_refl) as (a & b & Ea & Eb & Hs). cbn [snd] in Hx, Hw.
  assert (eqm (2 ^ w) ((if s then v else - v) + t') ((if s then v else - v) + (a + consts l + b))) as Hs' by (by apply Zplus_eqm).
  cbn [List.filter consts fold_right]; fold (consts l). assert (is_rest (s, x) = negb (is_stack (s, x) || is_const (s, x))) as -> by done. destruct (is_stack (s, x)) eqn:Es; [|destruct (is_const (s, x)) eqn:Ec]; cbn [orb negb].
  - assert (const_of (s, x) = 0) as -> by (by destruct x). eexists. exists b. split; [cbn [total]; rewrite Ex, Ea; done|]. split; [done|].
    eapply eqm_trans; [done|]. unfold eqm. f_equal. lia.
  - exists a, b. split; [done|]. split; [done|]. destruct x; try discriminate Ec. destruct Hx as [Hx _]. cbn in Ex, Hw, Hx. injection Ex as <-. subst.
    eapply eqm_trans; [done|]. cbn [const_of]. destruct s; unfold eqm; mod_ring.
  - assert (const_of (s, x) = 0) as -> by (by destruct x). exists a. eexists. split; [done|]. split; [cbn [total]; rewrite Ex, Eb; done|].
    eapply eqm_trans; [done|]. unfold eqm. f_equal. lia.
Qed.

Lemma add_terms_sound w l : Forall (term_typed w) l → ∀ acc, typed acc → bits acc = w →
  typed (foldl add_term acc l) ∧ bits (foldl add_term acc l) = w ∧
  ∀ σ a t, denote σ acc = Some a → total σ l = Some t → denote σ (foldl add_term acc l) = Some ((a + t) mod 2 ^ w).
Proof.
  induction 1 as [|[s x] l [Hx Hw] Hl IH]; intros acc Ta Ba.
  - split; [done|]. split; [done|]. intros σ a t Ea [= <-]. ranges r. subst w. by rewrite Z.add_0_r, Z.mod_small.
  - cbn [snd] in Hx, Hw. destruct (IH (add_term acc (s, x))) as (Tf & Bf & Vf); [pose proof (width_pos r acc Ta); destruct s; cbn; split_and!; done || congruence|by destruct s|].
    cbn [foldl]. split; [done|]. split; [done|]. intros σ a t Ea E. cbn [total] in E. destruct (denote σ x) as [v|] eqn:Ex; [|discriminate E].
    destruct (total σ l) as [t'|] eqn:El; [|discriminate E]. cbn in E. injection E as <-.
    assert (denote σ (add_term acc (s, x)) = Some ((a + if s then v else - v) mod 2 ^ w)) as E.
    { destruct s; unfold add_term; cbn [fst snd]; denote_goal; rewrite Ba; by rewrite ?Z.add_opp_r. }
    rewrite (Vf _ _ t' E El).
    f_equal. pose proof (width_pos r acc Ta). destruct s; mod_ring.
Qed.

(** One stack address, to the right of at most a term that is no constant. *)
Definition tidy_shape (e : expr) : Prop :=
  match e with
  | BinaryOp (Add | Sub) _ _ _ _ _ =>
      match List.filter is_stack (terms true e), terms true e with
      | [_], p :: _ => const_of p = 0
      | _, _ => False
      end
  | _ => False
  end.

Lemma stack_indices_none k l : List.filter is_stack l = [] → stack_indices k l = [].
Proof. revert k. induction l as [|p l IH]; intros k H; [done|]. cbn in *. destruct (is_stack p); [discriminate H|auto]. Qed.

Lemma stack_indices_single k l p : List.filter is_stack l = [p] → ∃ i, stack_indices k l = [(k + i)%nat] ∧ l !! i = Some p.
Proof.
  revert k. induction l as [|q l IH]; intros k H; [discriminate H|]. cbn in *. destruct (is_stack q).
  - injection H as -> H. exists 0%nat. rewrite stack_indices_none by done. by rewrite Nat.add_0_r.
  - destruct (IH (S k) H) as (i & E & Hl). exists (S i). rewrite E. split; [f_equal; lia|done].
Qed.

(** The only stack address takes all the constants. *)
Lemma merged_single l p sign n o : List.filter is_stack (p :: l) = [(sign, StackBaseOffset n o)] → const_of p = 0 →
  merged (p :: l) 0 (stack_indices 0 (p :: l)) =
    [(l, (sign, if consts (p :: l) =? 0 then StackBaseOffset n o else mkStackBaseOffset n (o + (if sign then consts (p :: l) else - consts (p :: l)))))].
Proof.
  intros H Hp. destruct (stack_indices_single 0 _ _ H) as (i & -> & Hi). rewrite Nat.add_0_l.
  assert (slice 1 (length (p :: l)) (p :: l) = l) as Hl by (unfold slice; cbn; rewrite Nat.sub_0_r, drop_0; by apply take_ge).
  assert (consts (p :: l) = consts l) as Hc by (cbn; fold (consts l); lia).
  rewrite Hc. remember (p :: l) as all eqn:Eall. clear Eall. cbn [merged]. unfold operand in *. cbn in Hl |- *. rewrite Hi. by rewrite app_nil_r, Hl.
Qed.

Lemma merged_term sign n o c : 0 < n →
  let p := (sign, if c =? 0 then StackBaseOffset n o else mkStackBaseOffset n (o + (if sign : bool then c else - c))) in
  typed (first_term p) ∧ bits (first_term p) = n ∧
  ∀ σ, denote σ (first_term p) = Some (((if sign then v_stack σ + o else - (v_stack σ + o)) + c) mod 2 ^ n).
Proof.
  intros Hn p. subst p. split; [|split]; [destruct sign, (c =? 0); cbn; by split_and!|by destruct sign, (c =? 0)|]. intros σ.
  assert (denote σ (if c =? 0 then StackBaseOffset n o else mkStackBaseOffset n (o + (if sign : bool then c else - c))) =
    Some ((v_stack σ + (o + (if sign : bool then c else - c))) mod 2 ^ n)) as E.
  { destruct (Z.eqb_spec c 0) as [-> |]; [cbn; do 2 f_equal; destruct sign; lia|by apply denote_stack]. }
  destruct sign; cbn [first_term fst snd mkUnary denote]; rewrite E; cbn; f_equal; [f_equal; lia|]. destruct (c =? 0); cbn [bits mkStackBaseOffset]; mod_ring.
Qed.

(** C38: A typed sum or difference with exactly one stack address among its terms, the
    leftmost of which is no constant but zero, is rewritten to a typed expression of the
    same width and value, with at least [rounds e] rounds of fuel, which is one for each
    term and operator. *)
Theorem TidyStackAddr_sound fuel e e' :
  typed e → tidy_shape e → (rounds e ≤ fuel)%nat → TidyStackAddr fuel e = Some e' → refines e e'.
Proof.
  intros Ht Hs Hf H. assert (optimize_add_sub fuel e = Some e') as H' by (destruct e as [| | | | |[]| | | | | | | | | |]; done). clear H.
  assert (match List.filter is_stack (terms true e), terms true e with [_], p :: _ => const_of p = 0 | _, _ => False end) as Hs' by (destruct e as [| | | | |[]| | | | | | | | | |]; done).
  clear Hs. unfold optimize_add_sub in H'. destruct e as [| | | | |op x y s w fp| | | | | | | | | |]; try discriminate H'.
  ifs H'. rewrite flatten_terms in H' by (cbn [total_rounds fold_right snd]; lia). cbn [foldl fst snd mbind option_bind] in H'. rewrite app_nil_r in H'.
  set (e := BinaryOp op x y s w fp) in *. destruct (List.filter is_stack (terms true e)) as [|q [|]] eqn:Eq; [done| |done]. destruct (terms true e) as [|p l] eqn:El; [done|].
  assert (is_stack q = true) as Hq by (apply (filter_In is_stack q (p :: l)); rewrite Eq; by left). destruct q as [sign [| | | | | | | | | | | | |n o| |]]; try discriminate Hq.
  rewrite (merged_single l p sign n o Eq Hs') in H'. ifs H'. cbn [map foldl] in H'. injection H' as <-. rename Hs' into Hp.
  pose proof (terms_typed e true Ht) as Hl. rewrite El in Hl. change (bits e) with w in Hl.
  assert (n = w ∧ 0 < w) as [-> Pw].
  { assert (In (sign, StackBaseOffset n o) (p :: l)) as Hin by (apply (filter_In is_stack); rewrite Eq; by left).
    rewrite List.Forall_forall in Hl. apply Hl in Hin as [_ Hb]. split; [done|]. apply Ht. }
  destruct (merged_term sign w o (consts (p :: l)) Pw) as (T1 & B1 & V1).
  assert (Forall (term_typed w) (List.filter is_rest (p :: l))) as Hrest by (rewrite List.Forall_forall in *; intros z Hz; apply filter_In in Hz as [Hz _]; by apply Hl).
  destruct (add_terms_sound w _ Hrest _ T1 B1) as (T2 & B2 & V2). split; [exact T2|]. split; [exact B2|]. intros σ v E.
  destruct (terms_total σ e true v Ht E) as (t & Et & Hv). rewrite El in Et. destruct (total_split σ w _ _ Hl Et) as (a & b & Ea & Eb & Hs).
  etransitivity; [exact (V2 _ _ _ (V1 σ) Eb)|]. f_equal. apply (denote_bound r σ e Ht) in E. change (bits e) with w in E, Hv.
  rewrite <-(Z.mod_small v (2 ^ w)), <-Hv by done. cbn [total] in Ea. rewrite Eq in Ea. cbn in Ea. injection Ea as <-. rewrite Hs. destruct sign; mod_ring.
Qed.

(** A constant to the left of everything else is lost. *)
Lemma tidy_first_constant : miscompiles r (TidyStackAddr 9).
Proof.
  counterexample (BinaryOp Add (BinaryOp Sub (Const 8 64) (Register 0 64) false 64 false)
    (BinaryOp Add (StackBaseOffset 64 0) (Const 4 64) false 64 false) false 64 false) 0.
Qed.

(** A constant between two stack addresses that follow two other terms is added
    to both. *)
Lemma tidy_constant_twice : miscompiles r (TidyStackAddr 9).
Proof.
  counterexample (BinaryOp Sub (BinaryOp Add (BinaryOp Add (BinaryOp Add (Register 0 64) (Register 8 64) false 64 false)
    (StackBaseOffset 64 0) false 64 false) (Const 4 64) false 64 false) (StackBaseOffset 64 0) false 64 false) 0.
Qed.

(** The alignment of an address is dropped. *)
Lemma tidy_alignment : miscompiles r (TidyStackAddr 9).
Proof. counterexample (BinaryOp And (StackBaseOffset 32 (-4)) (Const 0xFFFFFFF0 32) false 32 false) 0x20. Qed.

End soundness.

(** [x - (sp - 8 + 4)] *)
Lemma TidyStackAddr_sound_witness :
  refines (λ _, 64) (BinaryOp Sub (Register 0 64) (BinaryOp Add (StackBaseOffset 64 (-8)) (Const 4 64) false 64 false) false 64 false)
    (BinaryOp Add (UnaryOp Neg (StackBaseOffset 64 (-4)) 64) (Register 0 64) false 64 false).
Proof.
  apply (TidyStackAddr_sound (λ _, 64) 5).
  - cbn. repeat split; lia.
  - reflexivity.
  - cbn. lia.
  - reflexivity.
Defined.

End PeepStack.
