(* ===== verification/PeepBswap.v ===== *)
(** * Byte swaps

    The peephole rule that recognises the shifts and masks of a byte swap:
    [peephole_optimizations/bswap.py]. *)

From Stdlib Require Import ZArith Lia Bool String.
From stdpp Require Import base tactics list numbers strings option.
From S2P Require Import Prelude Bitfields Ail AilFacts PeepConv PeepShift.
Import Bitfields Ail AilFacts PeepConv PeepShift.

Module PeepBswap.

(** [((Conv(16->32, A) << 8) & 0xff00ff00)] and [((Conv(16->32, A) >> 8) & 0xff00ff)] *)
Definition _match_inner (or_first or_second : expr) : option expr :=
  match or_first, or_second with
  | BinaryOp And inner_first (Const m _) _ _ _, BinaryOp And inner_second (Const m' _) _ _ _ =>
      if negb ((m =? 0xFF00FF00) && (m' =? 0x00FF00FF)) then None else
      match inner_first, inner_second with
      | BinaryOp (Shl | Mul) (Convert f t _ the_expr_1 _ _) (Const _ _) _ _ _, BinaryOp Shr (Convert f' t' _ the_expr_2 _ _) (Const k _) _ _ _ =>
          if bool_decide (get_expr_shift_left_amount inner_first = Some 8) && (k =? 8) && (f =? 16) && (t =? 32) && (f' =? 16) && (t' =? 32)
             && likes the_expr_1 the_expr_2
          then Some the_expr_1 else None
      | _, _ => None
      end
  | _, _ => None
  end.

Definition bswap16 (e : expr) : option expr :=
  match e with
  | BinaryOp And (BinaryOp Or (BinaryOp And _ _ _ _ _ as or_first) (BinaryOp And _ _ _ _ _ as or_second) _ _ _) (Const m _) _ w _ =>
      if m =? 0xFFFF then (λ x, Call (Symbol "__builtin_bswap16") [x] w) <$> or_else (_match_inner or_first or_second) (_match_inner or_second or_first)
      else None
  | _ => None
  end.

(** The loop over the queue; [fuel] bounds its rounds. *)
Fixpoint or_pieces (fuel : nat) (queue pieces : list expr) : option (list expr) :=
  match queue with
  | [] => Some pieces
  | operand :: queue =>
      match fuel with
      | O => None
      | S fuel =>
          match operand with
          | BinaryOp Or x y _ _ _ => or_pieces fuel (queue ++ [x; y]) pieces
          | _ => or_pieces fuel queue (pieces ++ [operand])
          end
      end
  end.

(** Whether the shift is to the left, its amount and the mask around it. *)
Definition shift := (bool * option Z * Z)%type.

Definition parse_piece (piece : expr) : option (expr * shift) :=
  match piece with
  | BinaryOp (Shl | Mul) x (Const _ _) _ _ _ => Some (x, (true, get_expr_shift_left_amount piece, 0xFFFFFFFF))
  | BinaryOp And (BinaryOp (Shl | Mul) x (Const _ _) _ _ _ as and_core) (Const m _) _ _ _ => Some (x, (true, get_expr_shift_left_amount and_core, m))
  | BinaryOp And (BinaryOp Shr x (Const k _) _ _ _) (Const m _) _ _ _ => Some (x, (false, Some k, m))
  | _ => None
  end.

Definition swap_shifts : list shift := [(true, Some 0x18, 0xFFFFFFFF); (true, Some 8, 0xFF0000); (false, Some 0x18, 0xFF); (false, Some 8, 0xFF00)].

Section equality.
(** The equality of expressions that looks at their indices. *)
Context (same : expr → expr → bool).

Definition add_core (cores : list expr) (c : expr) : list expr := if existsb (same c) cores then cores else cores ++ [c].

Definition bswap32 (fuel : nat) (e : expr) : option expr :=
  match e with
  | BinaryOp Or _ _ _ w _ =>
      pieces ← or_pieces fuel [e] [];
      if negb (Nat.eqb (length pieces) 4) then None else
      let parsed := omap parse_piece pieces in
      let shifts := map snd parsed in
      match foldl add_core [] (map fst parsed) with
      | [core] =>
          if forallb (λ t, bool_decide (t ∈ shifts)) swap_shifts && forallb (λ t, bool_decide (t ∈ swap_shifts)) shifts
          then Some (Call (Symbol "__builtin_bswap32") [core] w) else None
      | _ => None
      end
  | _ => None
  end.

Definition Bswap (fuel : nat) (e : expr) : option expr := or_else (bswap16 e) (bswap32 fuel e).
End equality.

(** ** What is swapped *)

(** The bytes of a number in the opposite order. *)
Fixpoint swap_bytes (n : nat) (a : Z) : Z :=
  match n with
  | O => 0
  | S n => Z.lor (Z.shiftl (Z.land a 0xFF) (8 * Z.of_nat n)) (swap_bytes n (Z.shiftr a 8))
  end.

Section values.
Context (r : string → Z).
#[local] Notation typed := (typed r).

(** Whether the widenings have a sign or not, the high bits are masked. *)
Lemma widened_16 a s : 0 ≤ a < 2 ^ 16 → ∃ h, 0 ≤ h < 2 ^ 16 ∧ (if s : bool then signed 16 a else a) mod 2 ^ 32 = Z.lor (Z.shiftl h 16) a.
Proof.
  intros Ha. set (c := (if s then signed 16 a else a) mod 2 ^ 32). assert (c mod 2 ^ 16 = a) as Hc.
  { subst c. rewrite mod_low, convert_low by lia. by apply Z.mod_small. }
  assert (0 ≤ c < 2 ^ 32) by (apply mod_pow2_bound; lia). exists (c / 2 ^ 16). rewrite lor_shiftl_add by lia. clearbody c.
  change (2 ^ 32) with (2 ^ 16 * 2 ^ 16) in *. pose proof (Z.div_mod c (2 ^ 16)). split; [split; [apply Z.div_pos|apply Z.div_lt_upper_bound]; lia|lia].
Qed.

Lemma swapped_16 a s s' : 0 ≤ a < 2 ^ 16 →
  Z.land (Z.lor (Z.land (Z.shiftl ((if s : bool then signed 16 a else a) mod 2 ^ 32) 8 mod 2 ^ 32) 0xFF00FF00)
    (Z.land (Z.shiftr ((if s' : bool then signed 16 a else a) mod 2 ^ 32) 8) 0xFF00FF)) 0xFFFF = swap_bytes 2 a.
Proof.
  intros Ha. destruct (widened_16 a s Ha) as (h & Hh & ->). destruct (widened_16 a s' Ha) as (h' & Hh' & ->).
  cbn [swap_bytes Z.of_nat Pos.of_succ_nat Z.mul Pos.mul Pos.add]. bitfields.
Qed.

Lemma swapped_32 c : 0 ≤ c < 2 ^ 32 →
  Z.lor (Z.land (Z.shiftl c 0x18 mod 2 ^ 32) 0xFFFFFFFF) (Z.lor (Z.land (Z.shiftl c 8 mod 2 ^ 32) 0xFF0000)
    (Z.lor (Z.land (Z.shiftr c 0x18) 0xFF) (Z.lor (Z.land (Z.shiftr c 8) 0xFF00) 0))) = swap_bytes 4 c.
Proof. intros Hc. cbn [swap_bytes Z.of_nat Pos.of_succ_nat Z.mul Pos.mul Pos.add Pos.succ]. bitfields. Qed.

(** *** Sixteen bits *)

Lemma match_inner_value x y c :
  _match_inner x y = Some c → typed x → typed y → bits x = 32 → bits y = 32 →
  typed c ∧ bits c = 16 ∧ ∀ σ u v, denote σ x = Some u → denote σ y = Some v →
    ∃ a s s', denote σ c = Some a ∧ u = Z.land (Z.shiftl ((if s : bool then signed 16 a else a) mod 2 ^ 32) 8 mod 2 ^ 32) 0xFF00FF00 ∧
      v = Z.land (Z.shiftr ((if s' : bool then signed 16 a else a) mod 2 ^ 32) 8) 0xFF00FF.
Proof.
  intros H Tx Ty Bx By. unfold _match_inner in H.
  destruct x as [| | | | |[] x m s1 w1 fp1| | | | | | | | | |]; try discriminate H. destruct m as [m n| | | | | | | | | | | | | | |]; try discriminate H.
  destruct y as [| | | | |[] y m' s2 w2 fp2| | | | | | | | | |]; try discriminate H. destruct m' as [m' n'| | | | | | | | | | | | | | |]; try discriminate H.
  destruct (_ && _) eqn:Em; [cbn [negb] in H; rule_conds; subst m m'|discriminate H].
  destruct x as [| | | | |o x k s3 w3 fp3| | | | | | | | | |]; try discriminate H.
  assert (o = Shl ∨ o = Mul) as Ho by (clear -H; destruct o; try discriminate H; auto).
  destruct x as [| | | | | |f t sg x k1 l1| | | | | | | | |]; try (by destruct Ho as [-> | ->]). destruct k as [k n3| | | | | | | | | | | | | | |]; try (by destruct Ho as [-> | ->]).
  destruct y as [| | | | |[] y k' s4 w4 fp4| | | | | | | | | |]; try (by destruct Ho as [-> | ->]).
  destruct y as [| | | | | |f' t' sg' y k2 l2| | | | | | | | |]; try (by destruct Ho as [-> | ->]). destruct k' as [k' n4| | | | | | | | | | | | | | |]; try (by destruct Ho as [-> | ->]).
  match type of H with _ = Some _ => assert (get_expr_shift_left_amount (BinaryOp o (Convert f t sg x k1 l1) (Const k n3) s3 w3 fp3) = Some 8 ∧ k' = 8 ∧ f = 16 ∧ t = 32 ∧ f' = 16 ∧ t' = 32 ∧ likes x y = true ∧ c = x) as (Hk & -> & -> & -> & -> & -> & Hl & ->) end.
  { destruct Ho as [-> | ->]; ifs H; injection H as <-; by split_and!. }
  clear H. cbn in Bx, By. subst w1 w2.
  assert (fp3 = false) as -> by apply Tx. assert (typed (BinaryOp o (Convert 16 32 sg x k1 l1) (Const k n3) s3 w3 false)) as Tl by apply Tx.
  assert (typed x ∧ bits x = 16 ∧ w3 = 32) as (Tx' & Bx' & ->) by (clear Hk; destruct Ho as [-> | ->]; typed_parts; done).
  assert (x = y) as <- by (eapply likes_eq; [done|apply Ty|done]).
  assert (n = 32 ∧ n' = 32 ∧ 0 ≤ 8 < 2 ^ n4) as (-> & -> & Hn) by (clear -Tx Ty; destruct Tx as (_ & _ & _ & _ & _ & Bn); cbn in Bn; typed_parts; done).
  split; [done|]. split; [done|]. intros σ u v Eu Ev.
  apply denote_binop in Eu as (u' & m & Eu & Em' & E); [|done|done]. cbn in Em', E. injection Em' as <-. injection E as <-.
  destruct (left_shift_value r σ o _ _ _ _ _ 8 _ Ho Tl ltac:(lia) Hk Eu) as (b & Eb & ->). clear Hk Eu Tl Tx.
  denote_parts. rewrite (Z.mod_small 8 (2 ^ n4)) by done. do 3 eexists. split; [done|]. by split.
Qed.

(** *** The pieces of a disjunction *)

Definition or_all (l : list Z) : Z := fold_right Z.lor 0 l.

Lemma or_all_app l l' : or_all (l ++ l') = Z.lor (or_all l) (or_all l').
Proof. induction l as [|x l IH]; cbn; [done|]. fold (or_all (l ++ l')). by rewrite IH, Z.lor_assoc. Qed.

#[export] Instance or_all_permutation : Proper ((≡ₚ) ==> (=)) or_all.
Proof.
  induction 1 as [|x l l' _ IH|x y l|l1 l2 l3 _ IH1 _ IH2]; cbn; [done| | |by etransitivity].
  - fold (or_all l) (or_all l'). by rewrite IH.
  - by rewrite !Z.lor_assoc, (Z.lor_comm x).
Qed.

Definition values (σ : env) (l : list expr) (vs : list Z) : Prop := Forall2 (λ x v, denote σ x = Some v) l vs.

Lemma or_pieces_value σ fuel : ∀ queue pieces qs ps result,
  values σ queue qs → values σ pieces ps → or_pieces fuel queue pieces = Some result →
  ∃ rs, values σ result rs ∧ or_all rs = Z.lor (or_all qs) (or_all ps).
Proof.
  assert (∀ queue pieces qs ps, values σ queue qs → values σ pieces ps → queue = [] → ∃ rs, values σ pieces rs ∧ or_all rs = Z.lor (or_all qs) (or_all ps)) as Hnil.
  { intros queue pieces qs ps Hq Hp ->. exists ps. split; [done|]. inversion Hq. by rewrite Z.lor_0_l. }
  induction fuel as [|fuel IH]; intros [|e queue] pieces qs ps res Hq Hp H; cbn [or_pieces] in H; try (injection H as <-; by eapply Hnil); try discriminate H.
  inversion Hq as [|? v ? qs' Ev Hq']; subst. clear Hq.
  assert (or_pieces fuel queue (pieces ++ [e]) = Some res → ∃ rs, values σ res rs ∧ or_all rs = Z.lor (or_all (v :: qs')) (or_all ps)) as Hother.
  { intros H'. apply (IH _ _ qs' (ps ++ [v])) in H' as (rs & Hr & Er); [|done|apply Forall2_app; [done|by constructor]].
    exists rs. split; [done|]. rewrite Er, or_all_app. cbn. fold (or_all qs'). by rewrite Z.lor_0_r, (Z.lor_comm (or_all ps)), Z.lor_assoc, (Z.lor_comm _ v). }
  destruct e as [| | | | |[] x y s w fp| | | | | | | | | |]; try (by apply Hother). clear Hother.
  apply denote_binop in Ev as (a & b & Ea & Eb & E); [|done|done]. cbn in E. injection E as <-.
  destruct (IH (queue ++ [x; y]) pieces (qs' ++ [a; b]) ps res) as (rs & Hr & Er); [apply Forall2_app; [done|by repeat constructor]|done|done|].
  exists rs. split; [done|]. rewrite Er, or_all_app. cbn. fold (or_all qs'). by rewrite Z.lor_0_r, (Z.lor_comm (or_all qs')).
Qed.

(** The pieces have the type of the disjunction. *)
Definition piece_typed (w : Z) (e : expr) : Prop := typed e ∧ bits e = w ∧ in_range e = true.

Lemma or_pieces_typed fuel w : ∀ queue pieces result,
  Forall (piece_typed w) queue → Forall (piece_typed w) pieces → or_pieces fuel queue pieces = Some result → Forall (piece_typed w) result.
Proof.
  induction fuel as [|fuel IH]; intros [|e queue] pieces res Hq Hp H; cbn [or_pieces] in H; try (by injection H as <-); try discriminate H.
  inversion Hq as [|? ? He Hq']; subst.
  assert (or_pieces fuel queue (pieces ++ [e]) = Some res → Forall (piece_typed w) res) as Hother.
  { intros H'. apply IH in H'; [done|done|]. apply Forall_app; split; [done|by constructor]. }
  destruct e as [| | | | |[] x y s w' fp| | | | | | | | | |]; try (by apply Hother). clear Hother.
  apply IH in H; [done| |done]. apply Forall_app. split; [done|]. destruct He as ((_ & _ & Tx & Ty & Bx & By) & <- & Hr). cbn in Hr. rule_conds. by repeat constructor.
Qed.

(** *** Thirty-two bits *)

Definition shift_value (c : Z) (t : shift) : Z :=
  let '(to_left, amount, m) := t in
  let n := default 0 amount in Z.land (if to_left : bool then Z.shiftl c n mod 2 ^ 32 else Z.shiftr c n) m.

Lemma parse_piece_value piece core t :
  parse_piece piece = Some (core, t) → t ∈ swap_shifts → typed piece → bits piece = 32 → in_range piece = true →
  typed core ∧ bits core = 32 ∧ ∀ σ v, denote σ piece = Some v → ∃ c, denote σ core = Some c ∧ v = shift_value c t.
Proof.
  intros H Ht Tp Bp Rp. assert (∃ l n m, t = (l, Some n, m) ∧ 0 ≤ n) as (l & n & m & -> & Hn).
  { repeat (apply elem_of_cons in Ht as [-> | Ht]; [by do 3 eexists|]). by apply elem_of_nil in Ht. }
  assert (m = 0xFFFFFFFF ∨ 0 ≤ m < 2 ^ 32) as Hm.
  { repeat (apply elem_of_cons in Ht as [[= -> -> ->]|Ht]; [lia|]). by apply elem_of_nil in Ht. }
  clear Ht. destruct piece as [| | | | |o x y s w fp| | | | | | | | | |]; try discriminate H. cbn in Bp. subst w.
  assert ((o = Shl ∨ o = Mul) ∨ o = And) as [Ho| ->] by (clear -H; destruct o; try discriminate H; auto).
  - destruct y as [k kw| | | | | | | | | | | | | | |]; try (by destruct Ho as [-> | ->]). assert (fp = false) as -> by apply Tp.
    assert (core = x ∧ l = true ∧ get_expr_shift_left_amount (BinaryOp o x (Const k kw) s 32 false) = Some n ∧ m = 0xFFFFFFFF) as (-> & -> & Hk & ->).
    { clear Hm. destruct Ho as [-> | ->]; cbn [parse_piece] in H; injection H as <- <- <- <-; done. }
    clear H. split; [clear Hk; destruct Ho as [-> | ->]; by typed_parts|]. split; [clear Hk; destruct Ho as [-> | ->]; by typed_parts|].
    intros σ v E. destruct (left_shift_value r σ o x k kw s 32 n v Ho Tp Hn Hk E) as (c & Ec & ->). exists c. split; [done|]. cbn [shift_value default].
    change 0xFFFFFFFF with (2 ^ 32 - 1). by rewrite land_mask, Zmod_mod by lia.
  - destruct x as [| | | | |o x k s1 w1 fp1| | | | | | | | | |]; try discriminate H. destruct y as [m' mw| | | | | | | | | | | | | | |]; try (by destruct o; try discriminate H; destruct k).
    assert ((o = Shl ∨ o = Mul) ∨ o = Shr) as Ho by (clear -H; destruct o; try discriminate H; auto).
    destruct k as [k kw| | | | | | | | | | | | | | |]; try (by destruct Ho as [[-> | ->]| ->]).
    assert (fp = false ∧ mw = 32 ∧ w1 = 32 ∧ fp1 = false ∧ typed (BinaryOp o x (Const k kw) s1 32 false)) as (-> & -> & -> & -> & Tx).
    { clear -Tp. destruct Tp as (_ & -> & Tx & _ & B1 & B2). cbn in B1, B2. subst. destruct Tx as (? & -> & ?). by split_and!. }
    cbn in Rp. rule_conds. destruct Ho as [Ho| ->].
    + assert (core = x ∧ l = true ∧ get_expr_shift_left_amount (BinaryOp o x (Const k kw) s1 32 false) = Some n ∧ m' = m) as (-> & -> & Hk & ->).
      { clear Hm. destruct Ho as [-> | ->]; cbn [parse_piece] in H; injection H as <- <- <- <-; done. }
      clear H. split; [clear Hk; destruct Ho as [-> | ->]; by typed_parts|]. split; [clear Hk; destruct Ho as [-> | ->]; by typed_parts|].
      intros σ v E. apply denote_binop in E as (u & q & Eu & Eq & E); [|done|done]. cbn in Eq, E. injection Eq as <-. injection E as <-.
      destruct (left_shift_value r σ o x k kw s1 32 n u Ho Tx Hn Hk Eu) as (c & Ec & ->). exists c. split; [done|]. cbn [shift_value default]. by rewrite (Z.mod_small m).
    + cbn in H. injection H as <- <- <- <-. typed_parts. split; [done|]. split; [done|]. intros σ v E. denote_parts. eexists. split; [done|]. cbn [shift_value default].
      by rewrite (Z.mod_small m'), (Z.mod_small k).
Qed.

(** One core is left if all of them are the same. *)
Lemma add_core_prefix same l : ∀ cores, ∃ more, foldl (add_core same) cores l = cores ++ more.
Proof.
  induction l as [|c l IH]; intros cores; cbn; [exists []; by rewrite app_nil_r|]. destruct (IH (add_core same cores c)) as [more ->]. unfold add_core.
  case_match; [by eexists|]. eexists. by rewrite <-app_assoc.
Qed.

Lemma one_core same l core : (∀ a b, same a b = true → likes a b = true) → Forall typed l → ∀ cores,
  Forall typed cores → foldl (add_core same) cores l = [core] → (cores = [] ∨ cores = [core]) ∧ Forall (eq core) l.
Proof.
  intros Hsame. induction 1 as [|c l Tc Tl IH]; intros cores Hc H; cbn in H; [subst; auto|].
  destruct (IH (add_core same cores c)) as [Hadd Hl]; [unfold add_core; case_match; [done|apply Forall_app; split; [done|by constructor]]|done|].
  unfold add_core in Hadd. destruct (existsb (same c) cores) eqn:E.
  - split; [done|]. destruct Hadd as [-> | ->]; [done|]. cbn in E. rewrite orb_false_r in E. apply Hsame in E. constructor; [|done].
    inversion Hc; subst. symmetry. by eapply likes_eq.
  - destruct cores as [|d cores]; [|destruct Hadd as [Hadd|Hadd]; [done|]; destruct cores; done].
    destruct Hadd as [|[= ->]]; [done|]. split; [by left|by constructor].
Qed.

(** Four pieces with the four shifts are a permutation of them. *)
Lemma swap_shifts_permutation shifts :
  (length shifts ≤ 4)%nat → Forall (λ t, t ∈ shifts) swap_shifts → swap_shifts ≡ₚ shifts.
Proof.
  intros Hl Hin. apply NoDup_Permutation_bis; [|done|].
  - unfold swap_shifts. repeat (constructor; [intros H; repeat destruct H as [H|H]; try discriminate H; done|]). constructor.
  - intros t Ht. rewrite List.Forall_forall in Hin. apply list_elem_of_In. by apply Hin.
Qed.

Lemma omap_length_le {A B} (f : A → option B) l : (length (omap f l) ≤ length l)%nat.
Proof. induction l as [|x l IH]; cbn; [done|]. destruct (f x); cbn; lia. Qed.

Lemma omap_all {A B} (f : A → option B) l : length (omap f l) = length l → Forall2 (λ x y, f x = Some y) l (omap f l).
Proof.
  induction l as [|x l IH]; cbn; [constructor|]. pose proof (omap_length_le f l). destruct (f x) eqn:E; cbn; intros H'; [constructor; [done|]; auto with lia|lia].
Qed.

Lemma parsed_values σ core c pieces parsed : denote σ core = Some c → Forall2 (λ x y, parse_piece x = Some y) pieces parsed →
  Forall (piece_typed 32) pieces → Forall (eq core) (map fst parsed) → Forall (λ t, t ∈ swap_shifts) (map snd parsed) →
  ∀ vs, values σ pieces vs → vs = map (shift_value c) (map snd parsed).
Proof.
  intros Ec. induction 1 as [|p [x t] pieces parsed Hp _ IH]; intros Ht Hx Hs vs Hv; inversion Hv as [|? v ? vs' Ev Hv']; subst; [done|].
  inversion Ht as [|? ? (Tp & Bp & Rp) Ht']; subst. inversion Hx as [|? ? <- Hx']; subst. inversion Hs as [|? ? Hin Hs']; subst. cbn [snd fst] in *.
  destruct (parse_piece_value p _ t Hp Hin Tp Bp Rp) as (_ & _ & V). destruct (V _ _ Ev) as (c' & Ec' & ->). simplify_eq. cbn. f_equal. by apply IH.
Qed.

Lemma parsed_core_value σ core pieces parsed vs : Forall2 (λ x y, parse_piece x = Some y) pieces parsed → pieces ≠ [] →
  Forall (piece_typed 32) pieces → Forall (eq core) (map fst parsed) → Forall (λ t, t ∈ swap_shifts) (map snd parsed) →
  values σ pieces vs → typed core ∧ bits core = 32 ∧ ∃ c, denote σ core = Some c.
Proof.
  intros Hp Hne Ht Hx Hs Hv. destruct Hp as [|p [x t] pieces parsed Hp _]; [done|]. inversion Hv as [|? v ? vs' Ev _]; subst.
  inversion Ht as [|? ? (Tp & Bp & Rp) _]; subst. inversion Hx as [|? ? <- _]; subst. inversion Hs as [|? ? Hin _]; subst. cbn [snd fst] in *.
  destruct (parse_piece_value p _ t Hp Hin Tp Bp Rp) as (T & B & V). destruct (V _ _ Ev) as (c & Ec & _). eauto.
Qed.

Lemma bswap32_value same fuel e e' :
  (∀ a b, same a b = true → likes a b = true) → piece_typed 32 e → bswap32 same fuel e = Some e' →
  ∃ core, e' = Call (Symbol "__builtin_bswap32") [core] 32 ∧ ∀ σ v, denote σ e = Some v → ∃ c, denote σ core = Some c ∧ v = swap_bytes 4 c.
Proof.
  intros Hsame He H. destruct e as [| | | | |[] x y s w fp| | | | | | | | | |]; try discriminate H. unfold bswap32 in H.
  destruct (or_pieces _ _ _) as [pieces|] eqn:Ep; [cbn [mbind option_bind] in H|discriminate H]. destruct (Nat.eqb_spec (length pieces) 4) as [E4|]; [cbn [negb] in H|discriminate H].
  destruct (foldl _ _ _) as [|core [|]] eqn:Ec; try discriminate H. destruct (_ && _) eqn:Es; [|discriminate H]. injection H as <-.
  assert (w = 32) as -> by apply He. exists core. split; [done|].
  pose proof (or_pieces_typed fuel 32 [BinaryOp Or x y s 32 fp] [] pieces ltac:(by constructor) ltac:(constructor) Ep) as Tp.
  apply andb_prop in Es as [Es1 Es2]. set (parsed := omap parse_piece pieces) in *. rewrite forallb_forall in Es1, Es2.
  assert (swap_shifts ≡ₚ map snd parsed) as Hperm.
  { apply swap_shifts_permutation; [rewrite length_map; unfold parsed; pose proof (omap_length_le parse_piece pieces); lia|].
    apply List.Forall_forall. intros t Hin. by apply Es1, bool_decide_eq_true in Hin. }
  assert (Forall2 (λ x y, parse_piece x = Some y) pieces parsed) as Hparsed by (apply omap_all; apply Permutation_length in Hperm; rewrite length_map in Hperm; by rewrite E4).
  assert (Forall (λ t, t ∈ swap_shifts) (map snd parsed)) as Hshifts by (apply List.Forall_forall; intros t Hin; by apply Es2, bool_decide_eq_true in Hin).
  assert (Forall typed (map fst parsed)) as Tcores.
  { clear -Hparsed Tp Hshifts. induction Hparsed as [|p [c t] pieces parsed Hp _ IH]; [constructor|]. inversion Tp as [|? ? (T & B & R) Tp']; subst. inversion Hshifts; subst.
    constructor; [by eapply parse_piece_value|auto]. }
  destruct (one_core same (map fst parsed) core Hsame Tcores [] (List.Forall_nil _) Ec) as [_ Hcores].
  intros σ v E. destruct (or_pieces_value σ fuel [BinaryOp Or x y s 32 fp] [] [v] [] pieces ltac:(by constructor) ltac:(constructor) Ep) as (rs & Hr & Er).
  destruct (parsed_core_value σ core pieces parsed rs Hparsed ltac:(by intros ->) Tp Hcores Hshifts Hr) as (Tc & Bc & c & Hc).
  exists c. split; [done|]. rewrite (parsed_values σ core c pieces parsed Hc Hparsed Tp Hcores Hshifts rs Hr) in Er. cbn in Er. rewrite !Z.lor_0_r in Er.
  rewrite <-Er, <-Hperm. apply swapped_32. rewrite <-Bc. by eapply denote_bound.
Qed.

Lemma bswap16_value e e' : typed e → bits e = 32 → bswap16 e = Some e' →
  ∃ core, e' = Call (Symbol "__builtin_bswap16") [core] 32 ∧ ∀ σ v, denote σ e = Some v → ∃ c, denote σ core = Some c ∧ v = swap_bytes 2 c.
Proof.
  intros Ht Hb H. unfold bswap16 in H. destruct e as [| | | | |[] x k s w fp| | | | | | | | | |]; try discriminate H.
  destruct x as [| | | | |[] x y s1 w1 fp1| | | | | | | | | |]; try discriminate H. destruct x as [| | | | |[] x0 x1 s2 w2 fp2| | | | | | | | | |]; try discriminate H.
  destruct y as [| | | | |[] y0 y1 s3 w3 fp3| | | | | | | | | |]; try discriminate H. destruct k as [m n| | | | | | | | | | | | | | |]; try discriminate H.
  destruct (Z.eqb_spec m 0xFFFF) as [->|]; [|discriminate H]. set (x := BinaryOp And x0 x1 s2 w2 fp2) in *. set (y := BinaryOp And y0 y1 s3 w3 fp3) in *.
  assert (fp1 = false ∧ typed x ∧ typed y ∧ bits x = 32 ∧ bits y = 32 ∧ n = 32) as (-> & Tx & Ty & Bx & By & ->).
  { destruct Ht as (_ & _ & (_ & -> & Tx & Ty & Bx & By) & _ & B1 & B2). cbn [bits] in B1, B2, Hb. split_and!; try assumption; congruence. }
  cbn in Hb. subst w. clearbody x y. destruct (or_else (_match_inner x y) (_match_inner y x)) as [c|] eqn:Em; [|discriminate H]. injection H as <-. exists c. split; [done|].
  intros σ v E. apply denote_binop in E as (u & q & Eu & Eq & E); [|done|done]. cbn in Eq, E. injection Eq as <-. injection E as <-.
  apply denote_binop in Eu as (u1 & u2 & E1 & E2 & E); [|done|done]. cbn in E. injection E as <-. change (0xFFFF mod 2 ^ 32) with 0xFFFF.
  apply or_else_some in Em as [Em|Em].
  - destruct (match_inner_value x y c Em Tx Ty Bx By) as (Tc & Bc & V). destruct (V σ _ _ E1 E2) as (a & s' & s'' & Ea & -> & ->). exists a. split; [done|].
    apply swapped_16. rewrite <-Bc. by eapply denote_bound.
  - destruct (match_inner_value y x c Em Ty Tx By Bx) as (Tc & Bc & V). destruct (V σ _ _ E2 E1) as (a & s' & s'' & Ea & -> & ->). exists a. split; [done|].
    rewrite Z.lor_comm. apply swapped_16. rewrite <-Bc. by eapply denote_bound.
Qed.

(** The builtins, as the documentation of the compiler defines them. *)
Definition swaps (σ : env) : Prop :=
  ∀ c, v_call σ (Symbol "__builtin_bswap16") [c] = swap_bytes 2 c ∧ v_call σ (Symbol "__builtin_bswap32") [c] = swap_bytes 4 c.

(** C39: The call computes what the shifts and masks of 32 bits did. *)
Theorem Bswap_value same fuel e e' :
  (∀ a b, same a b = true → likes a b = true) → typed e → in_range e = true → bits e = 32 → Bswap same fuel e = Some e' →
  bits e' = bits e ∧ ∀ σ v, swaps σ → denote σ e = Some v → denote σ e' = Some v.
Proof.
  intros Hsame Ht Hr Hb H.
  assert (∃ f n core, e' = Call (Symbol f) [core] 32 ∧ (∀ σ v, denote σ e = Some v → ∃ c, denote σ core = Some c ∧ v = swap_bytes n c) ∧
    ∀ σ c, swaps σ → v_call σ (Symbol f) [c] = swap_bytes n c) as (f & n & core & -> & Hv & Hc).
  { apply or_else_some in H as [H|H].
    - destruct (bswap16_value e e' Ht Hb H) as (core & -> & Hv). exists "__builtin_bswap16"%string, 2%nat, core. split_and!; [done|done|]. intros σ c Hs. apply Hs.
    - destruct (bswap32_value same fuel e e' Hsame ltac:(by split) H) as (core & -> & Hv). exists "__builtin_bswap32"%string, 4%nat, core. split_and!; [done|done|]. intros σ c Hs. apply Hs. }
  split; [done|]. intros σ v Hs E. destruct (Hv σ v E) as (c & Ec & ->). cbn. rewrite Ec. cbn. rewrite Hc by done.
  f_equal. apply Z.mod_small. rewrite <-Hb. by eapply denote_bound.
Qed.

(** The rounds that flatten a disjunction. *)
Fixpoint or_rounds (e : expr) : nat := match e with BinaryOp Or x y _ _ _ => S (or_rounds x + or_rounds y) | _ => 1 end.

Lemma or_pieces_total fuel : ∀ queue pieces, (list_sum (map or_rounds queue) ≤ fuel)%nat → is_Some (or_pieces fuel queue pieces).
Proof.
  induction fuel as [|fuel IH]; intros [|e queue] pieces H; try (by eexists).
  - exfalso. destruct e as [| | | | |[]| | | | | | | | | |]; cbn in H; lia.
  - destruct e as [| | | | |[]| | | | | | | | | |]; cbn [or_pieces]; apply IH; rewrite ?map_app, ?list_sum_app; unfold list_sum in *; cbn in *; lia.
Qed.

(** Beyond 32 bits the first shift is not masked. *)
Lemma bswap32_wide : ∃ e core σ v c,
  typed e ∧ in_range e = true ∧ Bswap likes 7 e = Some (Call (Symbol "__builtin_bswap32") [core] 64) ∧ denote σ e = Some v ∧ denote σ core = Some c ∧ v ≠ swap_bytes 4 c.
Proof.
  exists (let x := Register 0 64 in let sh op n := BinaryOp op x (Const n 8) false 64 false in
    let mask y m := BinaryOp And y (Const m 64) false 64 false in let or y z := BinaryOp Or y z false 64 false in
    or (sh Shl 24) (or (mask (sh Shl 8) 0xFF0000) (or (mask (sh Shr 8) 0xFF00) (mask (sh Shr 24) 0xFF)))), (Register 0 64), (constant_env 0x100), 0x100010000, 0x100.
  split; [cbn; repeat split; try lia; apply amount_const; lia|]. by vm_compute.
Qed.

End values.

(** [(x << 24) | ((x << 8) & 0xff0000) | ((x >> 8) & 0xff00) | ((x >> 24) & 0xff)] *)
Lemma Bswap_value_witness :
  let x := Register 0 32 in
  let e := BinaryOp Or (BinaryOp Shl x (Const 24 8) false 32 false)
    (BinaryOp Or (BinaryOp And (BinaryOp Shl x (Const 8 8) false 32 false) (Const 0xFF0000 32) false 32 false)
      (BinaryOp Or (BinaryOp And (BinaryOp Shr x (Const 8 8) false 32 false) (Const 0xFF00 32) false 32 false)
        (BinaryOp And (BinaryOp Shr x (Const 24 8) false 32 false) (Const 0xFF 32) false 32 false) false 32 false) false 32 false) false 32 false in
  let σ := mkEnv (λ _, 0) (λ _ _, 0x12345678) (λ _, 0) (λ _ _ _, 0) (λ _, 0) 0
    (λ f l, match f, l with Symbol g, [c] => if (g =? "__builtin_bswap16")%string then swap_bytes 2 c else swap_bytes 4 c | _, _ => 0 end)
    (λ _ _ _, 0) (λ _ _ _ _ _ _, 0) (λ _ _, 0) in
  denote σ e = Some 0x78563412 ∧ denote σ (Call (Symbol "__builtin_bswap32") [x] 32) = Some 0x78563412.
Proof.
  intros x e σ. assert (denote σ e = Some 0x78563412) as E by reflexivity. split; [done|].
  refine (proj2 (Bswap_value (λ _, 32) likes 7 e (Call (Symbol "__builtin_bswap32") [x] 32) _ _ _ _ _) σ 0x78563412 _ E).
  - done.
  - cbn; repeat split; try lia; apply amount_const; lia.
  - reflexivity.
  - reflexivity.
  - reflexivity.
  - by split.
Defined.

End PeepBswap.
